(* ===== verification/_CoqProject ===== *)
-Q . S2P
Prelude.v
Primitives.v
BufPool.v
Chunk.v
ReplayWindow.v
Session.v
SessionConc.v
SessionManager.v
ReplayCache.v
Handshake.v
Base64.v
Json.v
BrowserWire.v
Fingerprints.v
AsyncWriter.v
Reassembler.v
Credit.v
ClientFlow.v
ClientStreams.v
Relay.v
Tunnel.v
MemConn.v
SlotStreams.v
SlotCells.v
BypassRoute.v
DnsCache.v
WSStream.v
EgressGuard.v
Socks5.v
SocksUDP.v
SocksConnect.v
InProcess.v
Coalesce.v
ReadyPool.v
Float64.v
RateSignal.v
KillSwitch.v
SlotObs.v
DnsForward.v
ClientAuth.v
RateLimit.v
UDPRelay.v
Attach.v
Lifecycle.v
PostDispatch.v
ClientConnect.v
WSSession.v
PostTunnel.v
