(* ===== verification/Prelude.v ===== *)
(** * ShadowLink: a verification library

    ShadowLink tunnels TCP and UDP connections of a client machine through a
    server, over encrypted chunks carried by WebSockets or HTTP requests.  An
    application's connection enters the client through a SOCKS5 or TUN front end,
    becomes a numbered stream on one of several WebSocket slots, is dialled by the
    server, and its downlink survives the death of a slot by moving to another
    ("migration").  This library models the parts of the program that carry its
    logic and proves what makes them correct.

    ** Conventions

    Integers are [Z]; a value of a machine width is wrapped where the code wraps
    it ([u16], [u32], [u64], [i64]).  Bytes are lists of [Z] in 0..255.  A function
    that can fail returns an [outcome]: a value, an error or a panic.  Goroutines
    are operations of a step function on an explicit state; a run is a list of
    operations, and a theorem about every list is a theorem about every
    interleaving.  A critical section or a single atomic access is one step; code
    between two of them is split (look-ups and sends, loads and compare-and-swaps,
    tests and commits).  Times are arguments of the steps that read a clock.
    Cryptography, DNS, dialling, Go's map order and the message library of the DNS
    proxy are classes or arguments with their documented laws; every property that
    has one is applied to a concrete instance in its witness.

    ** Files, and the code they model

    Shared: [Prelude] (this file: outcomes, widths, byte strings, slices, tactics,
    the rewrite database [go_len]); [Float64] (Go's binary64);
    [Primitives] (AEAD, key derivation, signatures as classes, with toy instances);
    [Base64], [Json] (Go's encoders and decoders of the same names).

    Protocol core ([core/]):
    - [BufPool] — [bufpool.go], pooled buffers with their stale contents;
    - [Chunk] — [chunk.go], [flowctl.go], [aead_context.go]: every constructor,
      encoder, decoder and parser of the wire format;
    - [ReplayWindow], [Session], [SessionConc], [SessionManager] — [session.go]:
      the anti-replay bitmap, a session's keys, epochs and life, the lock-free
      encryption path, the table of sessions with its three sweeps;
    - [ReplayCache] — [replay_cache.go];  [Handshake] — [crypto.go],
      [handshake.go], [migrate.go];  [AsyncWriter] — [wsasyncwriter.go].

    Server ([server/]):
    - [Credit] — [stream_credit.go];  [Relay] — [relay_registry.go] and the
      migration handler and slot-death cleanup of [websocket.go];
    - [WSStream], [WSSession], [Attach] — [websocket.go]: uplink streams, the
      session loop, first-frame authentication;
    - [EgressGuard] — [safedial.go] and the block list;  [UDPRelay] —
      [udp_relay.go];  [ClientAuth], [RateLimit] — [ratelimit.go],
      [clientid_exempt.go];
    - [Lifecycle], [PostDispatch], [PostTunnel] — [handler.go], [management.go]:
      handshake, FIN, cleanup and revocation over all the components above; the
      dispatcher of requests; the POST and download-stream transport.

    Disguise ([skins/browser/]):
    - [BrowserWire] — [request.go], the header builders of [fingerprint.go],
      [encodeServerHello]: the JSON bodies that carry chunks and handshakes;
    - [Fingerprints] — [profile.go], [fingerprint.go], [client/fpstate.go]: browser
      profiles, their choice by weight, their persistence and server updates;
    - [RateSignal] — [core/rlpropertyid.go], [decoy_snapshots.go],
      [sentinel_emitter.go] and part of [decoy_timing.go] of the server,
      [ratelimit_*.go] and the cooldown of [ws_pool.go] of the client: the rate-limit
      signal hidden in decoy pages.

    Client ([client/], [proxy/socks5/]):
    - [ClientConnect] — the handshake sequence, its fall-back, the one-shot guard,
      retries, reset and close of [client.go], the handshake requests of
      [transport.go];
    - [Reassembler] — [reassembler.go];  [ClientStreams] — the stream table and
      routing of [client.go] and [ws_pool.go], the downlink goroutine of [tcp.go];
      [ClientFlow] — [stream_flow.go];  [MemConn] — [memconn.go];
    - [SlotStreams], [SlotCells] — [ws_pool.go], [ws_pool_drain.go],
      [migrate_send.go], [migrate_watchdog.go]: streams on the slots of the pool
      and their moves; connecting, death, drains and rotation of the slots;
      [SlotObs] — [slotobs/] and the rotation threshold it moves;
    - [Socks5] — [parse.go] and the handshake of [server.go];  [SocksUDP] —
      [udp.go], [udp_drops.go];  [SocksConnect] — [routing.go], [direct.go] and the
      semaphore and counters of [tcp.go];  [Coalesce] — [coalesce.go];
      [ReadyPool] — [ws_ready_pool.go];
      [InProcess] — the UDP flows of [inprocess.go];
    - [KillSwitch] — [leakguard/] on Linux: the firewall rules, the locks on DNS and
      IPv6, and their removal after a crash;
    - [BypassRoute] — [bypassroute/]: prefix trie, lists, dialling decision;
    - [DnsCache], [DnsForward] — [dnsproxy/]: cache, arbitration, fallback,
      serving and upstream failover.

    Composition: [Tunnel] joins [Relay] and [ClientStreams]; [ClientFlow] closes
    the credit loop with [Credit]; [ClientConnect] runs the client's handshake against
    [Lifecycle]'s handler over [BrowserWire]'s bodies; [Lifecycle], [PostDispatch] and [WSSession] run the
    server's components together; [DnsForward] weighs answers with [BypassRoute]'s lists;
    [ReadyPool] runs under the dispatcher of [Coalesce].

    ** What the theorems show

    - Confidentiality and freshness: no key and nonce are used twice under any
      interleaving ([SessionConc]); no sequence number is accepted twice and the
      bitmap refines its specification ([ReplayWindow]); a destroyed session fails
      closed, and a conversation is delivered once and in order ([Session]); the
      two ends agree on keys ([Handshake]), also over the bodies they exchange, with
      no downgrade and no session from a decoy ([ClientConnect]); captured hellos are
      refused ([ReplayCache]).
    - Disguise: what one side writes into a request or response the other reads
      back ([Json], [Base64], [BrowserWire]); a profile names one browser major, is
      chosen by weight and kept, and cannot be pushed out of its family
      ([Fingerprints]); the rate-limit signal in a decoy page is read as announced and
      the ordinary page is none ([RateSignal]).
    - Leaks: the kill switch lets through exactly the intended packets, and what it
      changed is restored after a kill at any step ([KillSwitch]).
    - Delivery: the application reads a prefix of what the relay read, through
      losses, repetitions, reorderings and migrations ([Relay], [Reassembler],
      [ClientStreams], [Tunnel]); uplink data arrive in order ([WSStream],
      [PostTunnel], [AsyncWriter], [MemConn]).
    - Flow control: the loop of server credit and client updates is exact and
      never stalls ([Credit], [ClientFlow]).
    - Probes: a request without a chunk of a session or a sealed client id gets a
      decoy and changes nothing, and no chunk is handled twice ([PostDispatch]).
    - Access: at most one transport holds a session and only with an
      authenticated fresh frame ([Attach]); migration needs its proof ([Relay]);
      quotas, admission and rate limits hold in every run ([ClientAuth],
      [WSSession], [RateLimit]); the server dials public addresses only
      ([EgressGuard]).
    - Consistency: sessions, tunnels, devices and flows agree after any
      interleaving of their operations ([Lifecycle], [SessionManager]).
    - Slots: moves of streams get one reply each, the stream counters are exact,
      drains are bounded and no connection is orphaned, under stated conditions
      on the interleavings ([SlotStreams], [SlotCells]); the rotation age adapts only
      on founded and confirmed inferences, within its bounds ([SlotObs]).
    - Local front end: SOCKS5 parsers against a reference decoder, headers that
      round-trip, no handler without the credentials ([Socks5]); associations that
      answer only their own client ([SocksUDP]); tokens and pending counters of
      CONNECTs ([SocksConnect]); no acquired connection lost
      ([Coalesce], [ReadyPool]); in-process UDP flows that deliver in order and
      clean up once ([InProcess]).
    - Client policy: where a connection goes is decided by the lists
      ([BypassRoute], [SocksConnect]); no DNS answer is made up by the untrusted resolver alone,
      and no name is shown to it needlessly ([DnsForward]); the cache is a bounded
      map with time to live ([DnsCache]).
    - Theorems named after a defect show a concrete run in which the code departs
      from its intent.

    ** Fuel and bounds

    [Reassembler.take_run] has one unit of fuel per buffered frame and one more,
    and every turn removes a frame; [ClientStreams.next_id] has 65535, the number
    of ids, and each turn tries the next one; [decimal] is given five or
    twenty, the digits of a 16-bit and of a 64-bit number; the JSON parser is
    bounded by the nesting limit of Go's decoder, 10000.  Where a run is bounded by a counter that must not
    wrap (the 64-bit downlink numbers), the theorem bounds the number of
    operations and nothing else.

    ** Not modelled

    Of the client's slot pool the back-off durations, meltdown
    detection, keep-alive and the standby pool; the client's HTTP and WebSocket
    transports below the requests they send; of the SOCKS5 front end the listener,
    the uplink copy loops and the per-stream and polling relays; token buckets in
    floating point, padding and traffic shaping, how decoy pages are served and
    timed, statistics, logging and configuration files, the TUN device and
    operating-system routes, the leak guards of Windows and macOS, the command-line
    programs, mobile bindings and tools: input and output, or policy with no state
    of its own that the modelled parts read.  Write deadlines and
    timers appear as steps at arbitrary moments. *)

From Stdlib Require Import ZArith Lia.
From stdpp Require Import base list gmap strings numbers.

#[local] Open Scope Z_scope.

(** ** Outcomes of Go code

    A Go function that can fail returns a value, an error or panics.  The three
    are kept apart: several comments of the source promise "errors, never
    panics", and the promise is a theorem about [Panic]. *)

Inductive outcome (A : Type) : Type :=
| Ret (a : A)
| Err (e : string)
| Panic.
Arguments Ret {A} a.
Arguments Err {A} e.
Arguments Panic {A}.

#[global] Instance outcome_ret : MRet outcome := @Ret.
#[global] Instance outcome_bind : MBind outcome :=
  λ A B f m, match m with Ret a => f a | Err e => Err e | Panic => Panic end.
#[global] Instance outcome_fmap : FMap outcome :=
  λ A B f m, match m with Ret a => Ret (f a) | Err e => Err e | Panic => Panic end.

#[global] Instance outcome_eq_dec {A} `{EqDecision A} : EqDecision (outcome A).
Proof. solve_decision. Defined.

Definition is_Ret {A} (m : outcome A) : bool :=
  match m with Ret _ => true | _ => false end.
Definition is_Panic {A} (m : outcome A) : bool :=
  match m with Panic => true | _ => false end.

(** A Go result [(v, err)] whose error is turned into another one. *)
Definition wrap_err {A} (m : outcome A) (e : string) : outcome A :=
  match m with Ret a => Ret a | Err _ => Err e | Panic => Panic end.

(** ** Machine integers *)

Definition u8 (x : Z) : Z := x mod 2 ^ 8.
Definition u16 (x : Z) : Z := x mod 2 ^ 16.
Definition u32 (x : Z) : Z := x mod 2 ^ 32.
Definition u64 (x : Z) : Z := x mod 2 ^ 64.
Definition i64 (x : Z) : Z := (x + 2 ^ 63) mod 2 ^ 64 - 2 ^ 63.

(** ** Byte slices

    A byte is a [Z]; a slice is a list (its capacity is its length, except for
    pooled buffers, whose backing array is modelled in full). *)

Abbreviation bytes := (list Z).

Definition is_byte (b : Z) : Prop := 0 ≤ b < 256.
Definition is_bytes (l : bytes) : Prop := Forall is_byte l.

Definition len {A} (l : list A) : Z := Z.of_nat (length l).

(** [make([]byte, n)] *)
Definition make_bytes (n : Z) : bytes := replicate (Z.to_nat n) 0.

(** [l[lo:hi]] *)
Definition slice {A} (l : list A) (lo hi : Z) : outcome (list A) :=
  if (0 <=? lo) && (lo <=? hi) && (hi <=? len l)
  then Ret (take (Z.to_nat (hi - lo)) (drop (Z.to_nat lo) l))
  else Panic.

(** [l[i]] *)
Definition index {A} (l : list A) (i : Z) : outcome A :=
  if 0 <=? i
  then match l !! Z.to_nat i with Some b => Ret b | None => Panic end
  else Panic.

(** [l[i] = b] *)
Definition set_index {A} (l : list A) (i : Z) (b : A) : outcome (list A) :=
  if (0 <=? i) && (i <? len l) then Ret (<[Z.to_nat i := b]> l) else Panic.

(** [copy(buf[lo:hi], src)]: copies the shorter of the two lengths. *)
Definition copy_into (buf : bytes) (lo hi : Z) (src : bytes) : outcome bytes :=
  if (0 <=? lo) && (lo <=? hi) && (hi <=? len buf)
  then
    let n := Z.to_nat (Z.min (hi - lo) (len src)) in
    Ret (take (Z.to_nat lo) buf ++ take n src ++ drop (Z.to_nat lo + n) buf)
  else Panic.

(** [encoding/binary.BigEndian]: the low [8 * n] bits of [x], high byte first. *)
Fixpoint be_bytes (n : nat) (x : Z) : bytes :=
  match n with
  | O => []
  | S n' => be_bytes n' (Z.shiftr x 8) ++ [Z.land x 255]
  end.

Fixpoint be_acc (acc : Z) (l : bytes) : Z :=
  match l with
  | [] => acc
  | b :: l' => be_acc (Z.lor (Z.shiftl acc 8) b) l'
  end.
Definition be_value (l : bytes) : Z := be_acc 0 l.

(** [binary.BigEndian.PutUintN(buf[lo:hi], x)] *)
Definition put_be (n : nat) (buf : bytes) (lo hi : Z) (x : Z) : outcome bytes :=
  if Z.of_nat n <=? hi - lo then copy_into buf lo hi (be_bytes n x) else Panic.

(** [binary.BigEndian.UintN(buf[lo:hi])] *)
Definition get_be (n : nat) (buf : bytes) (lo hi : Z) : outcome Z :=
  s ← slice buf lo hi;
  if Z.of_nat n <=? len s then Ret (be_value (take n s)) else Panic.

(** [string(b)] keeps the bytes; the model keeps strings as byte lists. *)
Fixpoint bytes_of_string (s : string) : bytes :=
  match s with
  | EmptyString => []
  | String a s' => Z.of_nat (Ascii.nat_of_ascii a) :: bytes_of_string s'
  end.

Definition bytes_eqb (a b : bytes) : bool := bool_decide (a = b).

(** Decimal digits, as [strconv] and [fmt] print them; [fuel] is the number of
    digits allowed for. *)
Fixpoint decimal (fuel : nat) (n : Z) : bytes :=
  match fuel with
  | O => []
  | S fuel' => if n <? 10 then [48 + n] else decimal fuel' (n / 10) ++ [48 + n mod 10]
  end.

(** ** Tactics *)

(** Case analysis on the integer tests of the code. *)
Ltac zcase :=
  match goal with
  | |- context [Z.ltb ?a ?b] => destruct (Z.ltb_spec a b)
  | |- context [Z.leb ?a ?b] => destruct (Z.leb_spec a b)
  | |- context [Z.eqb ?a ?b] => destruct (Z.eqb_spec a b)
  | |- context [Z.geb ?a ?b] => rewrite (Z.geb_leb a b); destruct (Z.leb_spec b a)
  | |- context [Z.gtb ?a ?b] => rewrite (Z.gtb_ltb a b); destruct (Z.ltb_spec b a)
  end.
Ltac zcases := repeat (zcase; cbn [andb orb negb]; try lia).

Ltac zcase_in H :=
  match type of H with
  | context [Z.ltb ?a ?b] => destruct (Z.ltb_spec a b)
  | context [Z.leb ?a ?b] => destruct (Z.leb_spec a b)
  | context [Z.eqb ?a ?b] => destruct (Z.eqb_spec a b)
  | context [Z.geb ?a ?b] => rewrite (Z.geb_leb a b) in H; destruct (Z.leb_spec b a)
  | context [Z.gtb ?a ?b] => rewrite (Z.gtb_ltb a b) in H; destruct (Z.ltb_spec b a)
  end.

(** Run a monadic definition one bind further. *)
Ltac ostep := unfold mbind, outcome_bind; cbn beta iota.

(** One write of a front-to-back buffer fill; see [copy_into_app]. *)
Ltac fill_start :=
  match goal with
  | |- context [put_be ?n ?b 0] => change (put_be n b 0) with (put_be n ([] ++ b) 0)
  | |- context [copy_into ?b 0] => change (copy_into b 0) with (copy_into ([] ++ b) 0)
  | |- context [set_index ?b 0] => change (set_index b 0) with (set_index ([] ++ b) 0)
  end.

Create Rewrite HintDb go_len.

(** ** Lengths *)

Lemma len_nonneg {A} (l : list A) : 0 ≤ len l.
Proof. unfold len; lia. Qed.

Lemma to_nat_len {A} (l : list A) : Z.to_nat (len l) = length l.
Proof. unfold len; lia. Qed.

Lemma len_nil {A} : len (@nil A) = 0.
Proof. done. Qed.

Lemma len_cons {A} (x : A) l : len (x :: l) = 1 + len l.
Proof. unfold len; cbn [length]; lia. Qed.

Lemma len_app {A} (l k : list A) : len (l ++ k) = len l + len k.
Proof. unfold len; rewrite length_app; lia. Qed.

Lemma len_replicate {A} n (x : A) : len (replicate n x) = Z.of_nat n.
Proof. unfold len; by rewrite length_replicate. Qed.

Lemma len_make n : 0 ≤ n → len (make_bytes n) = n.
Proof. intros. unfold make_bytes. rewrite len_replicate. lia. Qed.

Lemma len_drop {A} n (l : list A) : len (drop n l) = Z.max 0 (len l - Z.of_nat n).
Proof. unfold len; rewrite length_drop; lia. Qed.

Lemma len_take {A} n (l : list A) : len (take n l) = Z.min (Z.of_nat n) (len l).
Proof. unfold len; rewrite length_take; lia. Qed.

Lemma len_0_nil {A} (l : list A) : len l = 0 → l = [].
Proof. destruct l; [done | rewrite len_cons; pose proof (len_nonneg l); lia]. Qed.

Lemma len_make_bytes n : len (make_bytes n) = Z.max 0 n.
Proof. unfold make_bytes. rewrite len_replicate. lia. Qed.

#[export] Hint Rewrite len_make_bytes @len_app @len_cons @len_nil @len_drop @len_take @len_replicate : go_len.

(** Solve side conditions about lengths. *)
Ltac len_solve :=
  autorewrite with go_len in *;
  repeat match goal with
         | l : list _ |- _ =>
           lazymatch goal with
           | _ : 0 ≤ len l |- _ => fail
           | _ => pose proof (len_nonneg l)
           end
         end;
  unfold len in *; lia.

(** ** Big-endian integers *)

Lemma lor_shiftl8 a b : 0 ≤ b < 256 → Z.lor (Z.shiftl a 8) b = a * 256 + b.
Proof.
  intros Hb. rewrite <- Z.add_nocarry_lor.
  - rewrite Z.shiftl_mul_pow2 by lia. done.
  - apply Z.bits_inj'. intros i Hi.
    rewrite Z.land_spec, Z.bits_0. destruct (Z.ltb_spec i 8).
    + by rewrite Z.shiftl_spec_low by lia.
    + replace b with (b mod 2 ^ 8) by (rewrite Z.mod_small; lia).
      rewrite Z.mod_pow2_bits_high by lia. by rewrite andb_false_r.
Qed.

Lemma land_255 x : Z.land x 255 = x mod 256.
Proof. change 255 with (Z.ones 8). by rewrite Z.land_ones by lia. Qed.

Lemma shiftr_8 x : Z.shiftr x 8 = x / 256.
Proof. by rewrite Z.shiftr_div_pow2 by lia. Qed.

Lemma be_acc_app acc a b : be_acc acc (a ++ b) = be_acc (be_acc acc a) b.
Proof. revert acc. induction a; intros; cbn; auto. Qed.

Lemma be_value_snoc a b :
  is_byte b → be_value (a ++ [b]) = be_value a * 256 + b.
Proof. intros Hb. unfold be_value. rewrite be_acc_app. cbn. by apply lor_shiftl8. Qed.

Lemma length_be_bytes n x : length (be_bytes n x) = n.
Proof. revert x; induction n; intros; cbn; [done |]. rewrite length_app, IHn; cbn; lia. Qed.

Lemma len_be_bytes n x : len (be_bytes n x) = Z.of_nat n.
Proof. unfold len. by rewrite length_be_bytes. Qed.
#[export] Hint Rewrite len_be_bytes : go_len.

Lemma be_bytes_is_bytes n x : is_bytes (be_bytes n x).
Proof.
  revert x; induction n; intros; cbn; [constructor |].
  apply Forall_app; split; [apply IHn |]. constructor; [| constructor].
  rewrite land_255. unfold is_byte. apply Z.mod_pos_bound; lia.
Qed.

Lemma pow256_S n : 2 ^ (8 * Z.of_nat (S n)) = 256 * 2 ^ (8 * Z.of_nat n).
Proof.
  replace (8 * Z.of_nat (S n)) with (8 + 8 * Z.of_nat n) by lia.
  rewrite Z.pow_add_r by lia. lia.
Qed.

Lemma be_value_bytes n x : be_value (be_bytes n x) = x mod 2 ^ (8 * Z.of_nat n).
Proof.
  revert x; induction n as [| n IH]; intros.
  - cbn. by rewrite Z.mod_1_r.
  - cbn [be_bytes]. rewrite be_value_snoc.
    + rewrite IH, shiftr_8, land_255, pow256_S.
      rewrite Z.rem_mul_r by lia. lia.
    + rewrite land_255. unfold is_byte. apply Z.mod_pos_bound; lia.
Qed.

Lemma be_value_bytes_small n x :
  0 ≤ x < 2 ^ (8 * Z.of_nat n) → be_value (be_bytes n x) = x.
Proof. intros. rewrite be_value_bytes. by apply Z.mod_small. Qed.

(** The encoding of values that fit is injective. *)
Lemma be_bytes_inj n x y :
  0 ≤ x < 2 ^ (8 * Z.of_nat n) → 0 ≤ y < 2 ^ (8 * Z.of_nat n) →
  be_bytes n x = be_bytes n y → x = y.
Proof.
  intros Hx Hy E. rewrite <- (be_value_bytes_small n x), <- (be_value_bytes_small n y) by done.
  by rewrite E.
Qed.

Lemma be_bytes_value l : is_bytes l → be_bytes (length l) (be_value l) = l.
Proof.
  induction l as [| b l IH] using rev_ind; intros Hl; [done |].
  apply Forall_app in Hl as [Hl Hb]. inversion Hb as [| ? ? Hb' _]; subst.
  rewrite length_app. cbn [length]. rewrite Nat.add_1_r. cbn [be_bytes].
  rewrite be_value_snoc by done. rewrite shiftr_8, land_255.
  unfold is_byte in Hb'.
  rewrite (Z.div_add_l _ 256), (Z.div_small b) by lia.
  rewrite Z.add_0_r, IH by done.
  by rewrite Z.add_comm, Z.mod_add, Z.mod_small by lia.
Qed.

Lemma be_value_range l : is_bytes l → 0 ≤ be_value l < 2 ^ (8 * len l).
Proof.
  intros Hl. rewrite <- (be_bytes_value l) by done. rewrite be_value_bytes.
  rewrite len_be_bytes. apply Z.mod_pos_bound. apply Z.pow_pos_nonneg; lia.
Qed.

(** ** Slicing and copying *)

Lemma slice_app_mid {A} (a b c : list A) lo hi :
  lo = len a → hi = len a + len b → slice (a ++ b ++ c) lo hi = Ret b.
Proof.
  intros -> ->. unfold slice.
  pose proof (len_nonneg a); pose proof (len_nonneg b); pose proof (len_nonneg c).
  rewrite !len_app.
  destruct (Z.leb_spec 0 (len a)); [| lia].
  destruct (Z.leb_spec (len a) (len a + len b)); [| lia].
  destruct (Z.leb_spec (len a + len b) (len a + (len b + len c))); [| lia].
  cbn [andb]. f_equal. rewrite to_nat_len, drop_app_length.
  replace (Z.to_nat (len a + len b - len a)) with (length b) by (unfold len; lia).
  apply take_app_length.
Qed.

Lemma slice_ret {A} (l : list A) lo hi :
  0 ≤ lo ≤ hi → hi ≤ len l →
  slice l lo hi = Ret (take (Z.to_nat (hi - lo)) (drop (Z.to_nat lo) l)).
Proof. intros. unfold slice. zcases. done. Qed.

Lemma slice_panic {A} (l : list A) lo hi :
  hi < lo ∨ len l < hi → slice l lo hi = Panic.
Proof. intros. unfold slice. zcases; done. Qed.

Lemma slice_tail {A} (a c : list A) lo hi :
  lo = len a → hi = len a + len c → slice (a ++ c) lo hi = Ret c.
Proof.
  intros. rewrite <- (app_nil_r c) at 1. by apply slice_app_mid.
Qed.

Lemma slice_head {A} (a c : list A) hi :
  hi = len a → slice (a ++ c) 0 hi = Ret a.
Proof. intros ->. apply (slice_app_mid [] a c); by cbn. Qed.

(** Filling a buffer front to back: the part already written is [written],
    and whatever the rest held is overwritten. *)
Lemma copy_into_app (written rest : bytes) lo hi src :
  lo = len written → lo + len src ≤ hi → hi ≤ len written + len rest →
  copy_into (written ++ rest) lo hi src
  = Ret ((written ++ src) ++ drop (length src) rest).
Proof.
  intros -> H1 H2. unfold copy_into.
  pose proof (len_nonneg written); pose proof (len_nonneg src).
  rewrite len_app. zcases. f_equal.
  replace (Z.to_nat (Z.min (hi - len written) (len src))) with (length src)
    by (unfold len in *; lia).
  rewrite !to_nat_len.
  rewrite take_app_length, firstn_all, <- app_assoc. do 2 f_equal.
  by rewrite drop_app_add.
Qed.

Lemma put_be_app n (written rest : bytes) lo hi x :
  lo = len written → hi = lo + Z.of_nat n → Z.of_nat n ≤ len rest →
  put_be n (written ++ rest) lo hi x
  = Ret ((written ++ be_bytes n x) ++ drop n rest).
Proof.
  intros -> -> Hr. unfold put_be. zcases.
  rewrite copy_into_app; rewrite ?len_be_bytes; try lia.
  by rewrite length_be_bytes.
Qed.

Lemma get_be_app n (a b : bytes) x lo hi :
  lo = len a → hi = lo + Z.of_nat n →
  0 ≤ x < 2 ^ (8 * Z.of_nat n) →
  get_be n (a ++ be_bytes n x ++ b) lo hi = Ret x.
Proof.
  intros -> -> Hx. unfold get_be. rewrite slice_app_mid by (rewrite ?len_be_bytes; lia).
  ostep. rewrite len_be_bytes. zcases.
  rewrite firstn_all2 by (rewrite length_be_bytes; lia).
  by rewrite be_value_bytes_small.
Qed.

Lemma get_be_ret n (l : bytes) lo hi :
  0 ≤ lo → hi = lo + Z.of_nat n → hi ≤ len l →
  get_be n l lo hi = Ret (be_value (take n (drop (Z.to_nat lo) l))).
Proof.
  intros ? -> ?. unfold get_be. rewrite slice_ret by lia. ostep.
  rewrite len_take, len_drop. zcases.
  replace (Z.to_nat (lo + Z.of_nat n - lo)) with n by lia.
  rewrite take_take. by rewrite Nat.min_id.
Qed.

Lemma set_index_app {A} (written rest : list A) lo b :
  lo = len written → 0 < len rest →
  set_index (written ++ rest) lo b = Ret ((written ++ [b]) ++ drop 1 rest).
Proof.
  intros -> Hr. destruct rest as [| r rest]; [by unfold len in Hr |].
  unfold set_index. rewrite len_app, len_cons.
  pose proof (len_nonneg written); pose proof (len_nonneg rest). zcases.
  f_equal. rewrite to_nat_len, insert_app_r_alt by lia.
  rewrite Nat.sub_diag. cbn. by rewrite <- app_assoc.
Qed.

Lemma index_app {A} (a : list A) x b lo :
  lo = len a → index (a ++ x :: b) lo = Ret x.
Proof.
  intros ->. unfold index. pose proof (len_nonneg a). zcases.
  rewrite to_nat_len, lookup_app_r by lia. by rewrite Nat.sub_diag.
Qed.

Lemma index_ret {A} (l : list A) i :
  0 ≤ i < len l → ∃ x, l !! Z.to_nat i = Some x ∧ index l i = Ret x.
Proof.
  intros [Hi Hl]. destruct (lookup_lt_is_Some_2 l (Z.to_nat i)) as [x Hx].
  { unfold len in Hl. lia. }
  exists x. split; [done |]. unfold index. zcases. by rewrite Hx.
Qed.

Lemma fill_done (w r : bytes) n : len (w ++ r) = n → n = len w → w ++ r = w.
Proof.
  intros <- H. rewrite len_app in H. rewrite (len_0_nil r) by lia. apply app_nil_r.
Qed.

Ltac fill_step :=
  first [ rewrite put_be_app | rewrite copy_into_app | rewrite set_index_app ];
  [ ostep | len_solve .. ].

Ltac fill_end := rewrite fill_done with (1 := eq_refl); [| len_solve].

(** Reading at a known position: the layout is given by its prefix. *)
Lemma get_be_at n (a b l : bytes) x lo hi :
  l = a ++ be_bytes n x ++ b → lo = len a → hi = lo + Z.of_nat n →
  0 ≤ x < 2 ^ (8 * Z.of_nat n) → get_be n l lo hi = Ret x.
Proof. intros ->. apply get_be_app. Qed.

Lemma index_at {A} (a b l : list A) x lo :
  l = a ++ x :: b → lo = len a → index l lo = Ret x.
Proof. intros ->. apply index_app. Qed.

Lemma slice_at {A} (a b c l : list A) lo hi :
  l = a ++ b ++ c → lo = len a → hi = lo + len b → slice l lo hi = Ret b.
Proof. intros -> -> ->. by apply slice_app_mid. Qed.

Ltac layout :=
  cbn [app]; rewrite <- ?app_assoc; cbn [app];
  first [ reflexivity | rewrite ?app_nil_r; reflexivity ].

(** [read_be a x]: the next [get_be] of the goal reads [x] after prefix [a]. *)
Ltac read_be a x :=
  match goal with
  | |- context [get_be ?n ?l ?lo ?hi] =>
    erewrite (get_be_at n a _ l x lo hi); [ ostep | layout | len_solve | len_solve | try done; try lia ]
  end.
Ltac read_index a x :=
  match goal with
  | |- context [index ?l ?lo] =>
    erewrite (index_at a _ l x lo); [ ostep | layout | len_solve ]
  end.
Ltac read_slice a b c :=
  match goal with
  | |- context [slice ?l ?lo ?hi] =>
    rewrite (slice_at a b c l lo hi); [ ostep | layout | len_solve | len_solve ]
  end.

(** Writes within the bounds of a buffer succeed and keep its length. *)
Lemma set_index_ok {A} (l : list A) i b : 0 ≤ i < len l → ∃ l', set_index l i b = Ret l' ∧ len l' = len l.
Proof.
  intros Hi. unfold set_index. rewrite (proj2 (Z.leb_le _ _)), (proj2 (Z.ltb_lt _ _)) by lia. cbn [andb].
  eexists. split; [done |]. unfold len. by rewrite length_insert.
Qed.

Lemma copy_into_ok (l : bytes) lo hi src :
  0 ≤ lo → lo ≤ hi → hi ≤ len l → ∃ l', copy_into l lo hi src = Ret l' ∧ len l' = len l.
Proof.
  intros H1 H2 H3. unfold copy_into. rewrite !(proj2 (Z.leb_le _ _)) by lia. cbn [andb].
  eexists. split; [done |]. rewrite !len_app, !len_take, len_drop. unfold len in *. lia.
Qed.

(** The next write of the goal, known to be within bounds. *)
Ltac write_ok :=
  match goal with
  | |- context [set_index ?l ?i ?b] =>
    let l' := fresh "l" in destruct (set_index_ok l i b) as (l' & -> & ?); [lia |]
  | |- context [copy_into ?l ?lo ?hi ?src] =>
    let l' := fresh "l" in destruct (copy_into_ok l lo hi src) as (l' & -> & ?); [lia .. |]
  end; cbn [mbind outcome_bind fmap outcome_fmap].

(** A whole buffer has been overwritten: nothing of its old content is left. *)
Lemma drop_exhaust {A} (l : list A) (n : nat) : (length l ≤ n)%nat → drop n l = [].
Proof. intros. apply drop_ge. lia. Qed.

Lemma make_drop n k : drop k (make_bytes n) = make_bytes (n - Z.of_nat k).
Proof. unfold make_bytes. rewrite drop_replicate. f_equal. lia. Qed.

Lemma is_bytes_take n l : is_bytes l → is_bytes (take n l).
Proof. apply Forall_take. Qed.
Lemma is_bytes_drop n l : is_bytes l → is_bytes (drop n l).
Proof. apply Forall_drop. Qed.

(** ** Decimal text *)

Definition undecimal (l : bytes) : Z := foldl (λ acc d, acc * 10 + (d - 48)) 0 l.

Lemma decimal_value fuel n : 0 ≤ n < 10 ^ Z.of_nat fuel → undecimal (decimal fuel n) = n.
Proof.
  revert n. induction fuel as [| fuel IH]; intros n Hn; [cbn in Hn; cbn; lia |]. cbn [decimal].
  destruct (Z.ltb_spec n 10); [cbn; lia |]. unfold undecimal in *. rewrite foldl_app, IH; [cbn [foldl]; pose proof (Z.div_mod n 10 ltac:(lia)); lia |].
  split; [apply Z.div_pos; lia |]. apply Z.div_lt_upper_bound; [lia |].
  replace (Z.of_nat (S fuel)) with (Z.of_nat fuel + 1) in Hn by lia. rewrite Z.pow_add_r in Hn by lia. lia.
Qed.

Lemma decimal_digits fuel n d : 0 ≤ n → d ∈ decimal fuel n → 48 ≤ d < 58.
Proof.
  revert n. induction fuel as [| fuel IH]; intros n Hn; cbn [decimal]; [by intros ?%elem_of_nil |].
  destruct (Z.ltb_spec n 10); [intros ->%list_elem_of_singleton; lia |].
  intros [H1 | ->%list_elem_of_singleton]%elem_of_app; [apply (IH (n / 10)); [apply Z.div_pos; lia | done] |].
  pose proof (Z.mod_pos_bound n 10 ltac:(lia)). lia.
Qed.

Lemma split_last {A} (x : A) l1 l2 d1 d2 :
  x ∉ d1 → x ∉ d2 → l1 ++ [x] ++ d1 = l2 ++ [x] ++ d2 → l1 = l2 ∧ d1 = d2.
Proof.
  intros H1 H2. revert l2. induction l1 as [| a l1 IH]; intros [| b l2] He; cbn in He.
  - by injection He.
  - injection He as -> ->. set_solver.
  - injection He as -> <-. set_solver.
  - injection He as -> He. destruct (IH l2 He) as [-> ->]. done.
Qed.

(** ** Sums over finite maps *)

Definition msum `{Countable K} {A} (w : A → Z) (m : gmap K A) : Z := map_fold (λ _ x acc, w x + acc) 0 m.

Section msum.
Context `{Countable K} {A : Type}.
Implicit Types (m : gmap K A) (w : A → Z).

Lemma msum_insert_new w m k x : m !! k = None → msum w (<[k := x]> m) = w x + msum w m.
Proof. intros Hk. unfold msum. rewrite map_fold_insert_L; [done | intros; lia | done]. Qed.

Lemma msum_delete w m k x : m !! k = Some x → msum w (delete k m) = msum w m - w x.
Proof.
  intros Hk. rewrite <- (insert_delete_id m k x Hk) at 2. rewrite msum_insert_new by apply lookup_delete_eq. lia.
Qed.

Lemma msum_insert w m k x y : m !! k = Some y → msum w (<[k := x]> m) = msum w m - w y + w x.
Proof.
  intros Hk. rewrite <- insert_delete_eq, msum_insert_new by apply lookup_delete_eq. rewrite (msum_delete w m k y Hk). lia.
Qed.

(** The same, whatever was there. *)
Definition weight w (o : option A) : Z := match o with Some x => w x | None => 0 end.
Lemma msum_set w m k x : msum w (<[k := x]> m) = msum w m - weight w (m !! k) + w x.
Proof. destruct (m !! k) as [y |] eqn:E; cbn; [by apply msum_insert | rewrite msum_insert_new by done; lia]. Qed.
Lemma msum_unset w m k : msum w (delete k m) = msum w m - weight w (m !! k).
Proof. destruct (m !! k) as [y |] eqn:E; cbn; [by apply msum_delete | rewrite delete_id by done; lia]. Qed.

Lemma msum_empty w : msum w (∅ : gmap K A) = 0.
Proof. apply map_fold_empty. Qed.

Lemma msum_nonneg w m : (∀ x, 0 ≤ w x) → 0 ≤ msum w m.
Proof.
  intros Hw. induction m as [| k x m Hk IH] using map_ind; [by rewrite msum_empty |].
  rewrite msum_insert_new by done. specialize (Hw x). lia.
Qed.

Lemma msum_lower w m k x : (∀ y, 0 ≤ w y) → m !! k = Some x → w x ≤ msum w m.
Proof.
  intros Hw Hk. pose proof (msum_nonneg w (delete k m) Hw) as H1. rewrite (msum_delete w m k x Hk) in H1. lia.
Qed.

Lemma msum_mono w w' m : (∀ k x, m !! k = Some x → w x ≤ w' x) → msum w m ≤ msum w' m.
Proof.
  induction m as [| k x m Hk IH] using map_ind; intros Hw; [by rewrite !msum_empty |].
  rewrite !msum_insert_new by done. specialize (Hw k x (lookup_insert_eq _ _ _)) as Hx. apply Z.add_le_mono; [done |].
  apply IH. intros k' x' Hk'. apply (Hw k'). rewrite lookup_insert_ne; [done |]. intros ->. congruence.
Qed.

(** Counting with a decidable property. *)
Lemma msum_size (P : A → Prop) `{∀ x, Decision (P x)} m :
  msum (λ x, if bool_decide (P x) then 1 else 0) m = Z.of_nat (size (filter (λ kv, P kv.2) m)).
Proof.
  induction m as [| k x m Hk IH] using map_ind; [by rewrite msum_empty, map_filter_empty, map_size_empty |].
  rewrite msum_insert_new, IH by done. case_bool_decide.
  - rewrite map_filter_insert_True by done. rewrite map_size_insert_None; [lia |]. apply map_lookup_filter_None. by left.
  - rewrite map_filter_insert_False by done. rewrite delete_id by done. lia.
Qed.

Lemma msum_ext w w' m : (∀ k x, m !! k = Some x → w x = w' x) → msum w m = msum w' m.
Proof.
  induction m as [| k x m Hk IH] using map_ind; intros Hw; [done |]. rewrite !msum_insert_new by done.
  rewrite (Hw k x) by apply lookup_insert_eq. rewrite IH; [done |]. intros k' x' Hk'. apply (Hw k').
  rewrite lookup_insert_ne; [done |]. intros ->. congruence.
Qed.
End msum.

#[global] Arguments be_bytes : simpl never.
#[global] Arguments be_value : simpl never.
#[global] Arguments len : simpl never.
#[global] Arguments slice : simpl never.
#[global] Arguments index : simpl never.
#[global] Arguments copy_into : simpl never.
#[global] Arguments put_be : simpl never.
#[global] Arguments get_be : simpl never.
#[global] Arguments make_bytes : simpl never.
