(* ===== verification/Primitives.v ===== *)
(** * Cryptographic primitives the code calls

    [crypto/aes] + [crypto/cipher] (AES-GCM), [nacl/box], [crypto/ecdh]
    (X25519), [hkdf] and [hmac] are used by the sources only through their
    functions.  Each is a class of operations with the documented facts the
    code relies on as a class of laws; components are proved against the laws,
    and [Toy] gives concrete instances on which witnesses are evaluated. *)

From S2P Require Import Prelude.
From stdpp Require Import base list.

#[local] Open Scope Z_scope.

(** ** AES-GCM ([crypto/cipher.AEAD])

    A cipher object is determined by its key, and is represented by it. *)

Class AEAD := {
  aead_seal : bytes → bytes → bytes → bytes → bytes;        (* key nonce plaintext aad *)
  aead_open : bytes → bytes → bytes → bytes → option bytes; (* key nonce ciphertext aad *)
}.

Class AEADLaws `{!AEAD} := {
  aead_open_seal k n p a : aead_open k n (aead_seal k n p a) a = Some p;
  aead_open_only k n c a p : aead_open k n c a = Some p → c = aead_seal k n p a;
  aead_seal_len k n p a : len (aead_seal k n p a) = len p + 16;
}.

(** ** NaCl box ([golang.org/x/crypto/nacl/box]) and X25519 ([crypto/ecdh]) *)

Class DH := {
  dh_public : bytes → bytes;                  (* private key to public key *)
  dh_shared : bytes → bytes → option bytes;   (* private key, remote public key *)
}.

Class DHLaws `{!DH} := {
  dh_agree a b : dh_shared a (dh_public b) = dh_shared b (dh_public a);
  dh_public_len a : len (dh_public a) = 32;
}.

Class NaclBox `{!DH} := {
  box_seal : bytes → bytes → bytes → bytes → bytes;        (* message nonce peer-public private *)
  box_open : bytes → bytes → bytes → bytes → option bytes; (* box nonce peer-public private *)
}.

Class NaclBoxLaws `{!DH, !NaclBox} := {
  box_open_seal m n a b :
    box_open (box_seal m n (dh_public b) a) n (dh_public a) b = Some m;
  box_seal_len m n p s : len (box_seal m n p s) = len m + 16;
  box_open_len c n p s m : box_open c n p s = Some m → len c = len m + 16;
}.

(** ** HKDF-SHA256 and HMAC-SHA256 *)

Class KDF := {
  hkdf : bytes → bytes → bytes → nat → bytes; (* secret salt info, number of bytes read *)
  hmac256 : bytes → bytes → bytes;            (* key, message *)
}.

Class KDFLaws `{!KDF} := {
  hkdf_len s t i n : (n ≤ 255 * 32)%nat → length (hkdf s t i n) = n;
  hmac256_len k m : len (hmac256 k m) = 32;
}.

(** ** Concrete instances for evaluation *)

Module Toy.

Definition mix (l : bytes) : Z := foldl (λ acc b, (acc * 31 + b + 1) mod 2 ^ 61) 7 l.

Definition tag (k n p a : bytes) : bytes :=
  be_bytes 16 (mix (k ++ [len n] ++ n ++ [len a] ++ a ++ p)).

Definition seal (k n p a : bytes) : bytes := p ++ tag k n p a.

Definition open (k n c a : bytes) : option bytes :=
  if len c <? 16 then None else
  let p := take (length c - 16) c in
  if bytes_eqb c (seal k n p a) then Some p else None.

#[export] Instance toy_aead : AEAD := {| aead_seal := seal; aead_open := open |}.

Lemma toy_seal_len k n p a : len (seal k n p a) = len p + 16.
Proof. unfold seal, tag. by rewrite len_app, len_be_bytes. Qed.

#[export] Instance toy_aead_laws : AEADLaws.
Proof.
  split.
  - intros k n p a. cbn. unfold open. rewrite toy_seal_len.
    pose proof (len_nonneg p). zcases.
    assert (take (length (seal k n p a) - 16) (seal k n p a) = p) as ->.
    { pose proof (toy_seal_len k n p a) as E. unfold len in E.
      replace (length (seal k n p a) - 16)%nat with (length p) by lia.
      apply take_app_length. }
    unfold bytes_eqb. by rewrite bool_decide_true.
  - intros k n c a p. cbn. unfold open. zcases; [done |].
    unfold bytes_eqb. case_bool_decide as E; [| done]. intros [= <-]. done.
  - apply toy_seal_len.
Qed.

(** A commutative "group": the public key of [a] is its checksum, the shared
    secret the sum of both. *)
Definition pub (a : bytes) : bytes := be_bytes 32 (mix a).
Definition shared (a p : bytes) : option bytes :=
  if len p =? 32 then Some (be_bytes 32 (mix a + be_value p)) else None.

#[export] Instance toy_dh : DH := {| dh_public := pub; dh_shared := shared |}.

Lemma mix_range l : 0 ≤ mix l < 2 ^ 61.
Proof.
  unfold mix. enough (∀ z, 0 ≤ z < 2 ^ 61 →
    0 ≤ foldl (λ acc b, (acc * 31 + b + 1) mod 2 ^ 61) z l < 2 ^ 61) as H
    by (apply H; lia).
  induction l as [| b l IH]; intros z Hz; cbn [foldl]; [done |].
  apply IH. apply Z.mod_pos_bound; lia.
Qed.

#[export] Instance toy_dh_laws : DHLaws.
Proof.
  split.
  - intros a b. cbn. unfold shared, pub. rewrite !len_be_bytes. cbn [Z.eqb Pos.eqb Z.of_nat].
    rewrite !be_value_bytes_small.
    + by rewrite Z.add_comm.
    + pose proof (mix_range a). lia.
    + pose proof (mix_range b). lia.
  - intros a. cbn. unfold pub. by rewrite len_be_bytes.
Qed.

Definition boxkey (p s : bytes) : bytes :=
  match shared s p with Some k => k | None => [] end.
#[export] Instance toy_box : NaclBox :=
  {| box_seal m n p s := seal (boxkey p s) n m [];
     box_open c n p s := open (boxkey p s) n c [] |}.

#[export] Instance toy_box_laws : NaclBoxLaws.
Proof.
  split.
  - intros m n a b. cbn. unfold boxkey.
    change (shared a (pub b)) with (dh_shared a (dh_public b)).
    rewrite dh_agree. cbn. apply (aead_open_seal (AEADLaws := toy_aead_laws)).
  - intros. cbn. apply toy_seal_len.
  - intros c n p s m E. cbn in E.
    apply (aead_open_only (AEADLaws := toy_aead_laws)) in E. subst c. apply toy_seal_len.
Qed.

#[export] Instance toy_kdf : KDF :=
  {| hkdf s t i n := be_bytes n (mix (s ++ [len t] ++ t ++ [len i] ++ i));
     hmac256 k m := be_bytes 32 (mix (k ++ [len m] ++ m)) |}.

#[export] Instance toy_kdf_laws : KDFLaws.
Proof.
  split; intros; cbn -[be_bytes].
  - apply length_be_bytes.
  - by rewrite len_be_bytes.
Qed.

End Toy.
