(* ===== verification/BufPool.v ===== *)
(** * Tiered buffer pool ([core/bufpool.go])

    Pooled buffers keep whatever their last user wrote, so the pool is modelled
    with the contents of its free buffers: a component that takes a buffer has
    to be shown not to leak or depend on the stale bytes. *)

From S2P Require Import Prelude.
From stdpp Require Import base list gmap.

#[local] Open Scope Z_scope.

Definition tierSizes : list Z := [512; 4096; 16384; 65536].

(** One free list of backing arrays per [sync.Pool]. *)
Abbreviation bufPools := (list (list bytes)).

Definition empty_pools : bufPools := [[]; []; []; []].

Fixpoint tier_scan (i : nat) (sizes : list Z) (minSize : Z) : option nat :=
  match sizes with
  | [] => None
  | s :: sizes' => if minSize <=? s then Some i else tier_scan (S i) sizes' minSize
  end.

Definition tierIndex (minSize : Z) : nat :=
  match tier_scan 0 tierSizes minSize with Some i => i | None => 3%nat end.

Definition tierSize (i : nat) : Z :=
  match tierSizes !! i with Some s => s | None => 0 end.

(** [sync.Pool.Get]: a free buffer of the tier, or a fresh one from [New]. *)
Definition pool_get (pools : bufPools) (i : nat) : bytes * bufPools :=
  match pools !! i with
  | Some (b :: free) => (b, <[i := free]> pools)
  | _ => (make_bytes (tierSize i), pools)
  end.

Definition pool_put (pools : bufPools) (i : nat) (b : bytes) : bufPools :=
  match pools !! i with
  | Some free => <[i := b :: free]> pools
  | None => pools
  end.

Definition GetBuffer (pools : bufPools) (minSize : Z) : outcome (bytes * bufPools) :=
  let idx := tierIndex minSize in
  let '(bp, pools') := pool_get pools idx in
  b ← slice bp 0 (tierSize idx);
  Ret (b, pools').

Fixpoint cap_scan (i : nat) (sizes : list Z) (c : Z) : option nat :=
  match sizes with
  | [] => None
  | s :: sizes' => if c =? s then Some i else cap_scan (S i) sizes' c
  end.

(** The argument is the backing array of the slice handed back ([buf[:cap]]). *)
Definition PutBuffer (pools : bufPools) (backing : bytes) : bufPools :=
  match cap_scan 0 tierSizes (len backing) with
  | None => pools
  | Some idx => pool_put pools idx backing
  end.

Definition ZeroBytes (b : bytes) : bytes := replicate (length b) 0.

Definition PutBufferZero (pools : bufPools) (backing : bytes) : bufPools :=
  PutBuffer pools (ZeroBytes backing).

(** ** Invariant: a free buffer has the size of its tier. *)

Definition pools_wf (pools : bufPools) : Prop :=
  length pools = 4%nat ∧
  ∀ i free b, pools !! i = Some free → b ∈ free → len b = tierSize i.

Lemma empty_pools_wf : pools_wf empty_pools.
Proof.
  split; [done |]. intros i free b Hi Hb.
  assert (free = []) as ->.
  { destruct i as [| [| [| [| i]]]]; cbn in Hi; congruence || by destruct i. }
  by apply not_elem_of_nil in Hb.
Qed.

Lemma tierSize_pos i : (i < 4)%nat → 512 ≤ tierSize i ≤ 65536.
Proof. intros. destruct i as [| [| [| [| i]]]]; cbn; lia. Qed.

Lemma tierIndex_lt m : (tierIndex m < 4)%nat.
Proof. unfold tierIndex. cbn. repeat case_match; simplify_eq; lia. Qed.

Lemma tierIndex_fits m : m ≤ 65536 → m ≤ tierSize (tierIndex m).
Proof. intros. unfold tierIndex. cbn. zcases; cbn; lia. Qed.

Lemma tierIndex_big m : 65536 < m → tierSize (tierIndex m) = 65536.
Proof. intros. unfold tierIndex. cbn. zcases. done. Qed.

Lemma cap_scan_tier c i : cap_scan 0 tierSizes c = Some i → tierSize i = c ∧ (i < 4)%nat.
Proof. cbn. repeat zcase; intros; simplify_eq; cbn; auto with lia. Qed.

Lemma tierIndex_idem i : (i < 4)%nat → cap_scan 0 tierSizes (tierSize i) = Some i.
Proof. intros. destruct i as [| [| [| [| i]]]]; cbn; done || lia. Qed.

Lemma pool_get_wf pools i b pools' :
  pools_wf pools → (i < 4)%nat → pool_get pools i = (b, pools') →
  len b = tierSize i ∧ pools_wf pools'.
Proof.
  intros [Hl Hp] Hi. unfold pool_get.
  destruct (pools !! i) as [[| b0 free] |] eqn:E; intros; simplify_eq.
  - pose proof (tierSize_pos i Hi). rewrite len_make by lia. done.
  - split; [eapply Hp; [done | left] |]. split; [by rewrite length_insert |].
    intros j fr b' Hj Hb. destruct (decide (i = j)) as [<- |].
    + rewrite list_lookup_insert_eq in Hj by lia. simplify_eq.
      eapply Hp; [done | by right].
    + rewrite list_lookup_insert_ne in Hj by done. by eapply Hp.
  - pose proof (tierSize_pos i Hi). rewrite len_make by lia. done.
Qed.

(** [GetBuffer] always succeeds on a well-formed pool. *)
Lemma GetBuffer_ok pools m :
  pools_wf pools →
  ∃ b pools', GetBuffer pools m = Ret (b, pools')
            ∧ len b = tierSize (tierIndex m) ∧ pools_wf pools'.
Proof.
  intros Hw. unfold GetBuffer.
  destruct (pool_get pools (tierIndex m)) as [b pools'] eqn:E.
  apply pool_get_wf in E as [Hb Hw']; [| done | apply tierIndex_lt].
  exists b, pools'. rewrite slice_ret.
  2:{ pose proof (tierSize_pos _ (tierIndex_lt m)); lia. }
  2: lia.
  ostep. rewrite drop_0, firstn_all2 by (unfold len in *; lia). done.
Qed.

Lemma PutBuffer_wf pools b : pools_wf pools → pools_wf (PutBuffer pools b).
Proof.
  intros [Hl Hp]. unfold PutBuffer. destruct (cap_scan _ _ _) as [i |] eqn:E; [| done].
  apply cap_scan_tier in E as [Hs Hi]. unfold pool_put.
  destruct (pools !! i) as [free |] eqn:Ei; [| done].
  split; [by rewrite length_insert |]. intros j fr b' Hj Hb.
  destruct (decide (i = j)) as [<- |].
  - rewrite list_lookup_insert_eq in Hj by lia. simplify_eq.
    apply elem_of_cons in Hb as [-> | Hb]; [done | by eapply Hp].
  - rewrite list_lookup_insert_ne in Hj by done. by eapply Hp.
Qed.

Lemma len_ZeroBytes b : len (ZeroBytes b) = len b.
Proof. unfold ZeroBytes. by rewrite len_replicate. Qed.

Lemma PutBufferZero_wf pools b : pools_wf pools → pools_wf (PutBufferZero pools b).
Proof. apply PutBuffer_wf. Qed.

(** Everything [PutBufferZero] hands back to the pool is zero. *)
Definition zeroed (b : bytes) : Prop := Forall (λ x, x = 0) b.

Lemma zeroed_ZeroBytes b : zeroed (ZeroBytes b).
Proof. unfold zeroed, ZeroBytes. apply Forall_replicate. done. Qed.

Definition free_buffers (pools : bufPools) : list bytes := concat pools.

Lemma concat_insert_cons (pools : bufPools) i free (b : bytes) :
  pools !! i = Some free → ∀ x, x ∈ concat (<[i := b :: free]> pools) → x = b ∨ x ∈ concat pools.
Proof.
  intros Hi x Hx. rewrite list_elem_of_In in Hx. apply in_concat in Hx as (l & Hl & Hx).
  rewrite <- list_elem_of_In in Hl; rewrite <- list_elem_of_In in Hx.
  apply list_elem_of_lookup in Hl as [j Hj].
  destruct (decide (i = j)) as [<- |].
  - rewrite list_lookup_insert_eq in Hj by (by eapply lookup_lt_Some). simplify_eq.
    apply elem_of_cons in Hx as [-> | Hx]; [by left |]. right.
    rewrite list_elem_of_In. apply in_concat. exists free.
    split; rewrite <- list_elem_of_In; [by eapply list_elem_of_lookup_2 | done].
  - rewrite list_lookup_insert_ne in Hj by done. right.
    rewrite list_elem_of_In. apply in_concat. exists l.
    split; rewrite <- list_elem_of_In; [by eapply list_elem_of_lookup_2 | done].
Qed.

Lemma PutBufferZero_free pools b x :
  x ∈ free_buffers (PutBufferZero pools b) → zeroed x ∨ x ∈ free_buffers pools.
Proof.
  unfold PutBufferZero, PutBuffer, free_buffers. intros Hx.
  destruct (cap_scan _ _ _) as [i |]; [| by right].
  unfold pool_put in Hx. destruct (pools !! i) as [free |] eqn:E; [| by right].
  apply (concat_insert_cons _ _ _ _ E) in Hx as [-> | Hx]; [| by right].
  left. apply zeroed_ZeroBytes.
Qed.

Lemma GetBuffer_free pools m b pools' x :
  GetBuffer pools m = Ret (b, pools') →
  x ∈ free_buffers pools' → x ∈ free_buffers pools.
Proof.
  unfold GetBuffer, pool_get, free_buffers.
  destruct (pools !! tierIndex m) as [[| b0 free] |] eqn:E; intros H Hx.
  - destruct (slice _ _ _); simplify_eq/=. done.
  - destruct (slice _ _ _); simplify_eq/=.
    rewrite list_elem_of_In in Hx |- *. apply in_concat in Hx as (l & Hl & Hx).
    apply in_concat. rewrite <- list_elem_of_In in Hl.
    apply list_elem_of_lookup in Hl as [j Hj].
    destruct (decide (tierIndex m = j)) as [<- |].
    + rewrite list_lookup_insert_eq in Hj by (by eapply lookup_lt_Some). simplify_eq.
      exists (b0 :: l). split; [| by right].
      rewrite <- list_elem_of_In. by eapply list_elem_of_lookup_2.
    + rewrite list_lookup_insert_ne in Hj by done. exists l. split; [| done].
      rewrite <- list_elem_of_In. by eapply list_elem_of_lookup_2.
  - destruct (slice _ _ _); simplify_eq/=. done.
Qed.
