(* ===== verification/Chunk.v ===== *)
(** * Chunk wire format ([core/chunk.go], [core/flowctl.go], [core/aead_context.go])

    The unified encrypted chunk, the payload layouts of every control frame,
    and the in-band flow-control capability marker.  Encoders write into
    buffers the way the code does (allocate, [PutUintN], [copy]), decoders slice
    and index with Go's bounds checks, so panics are visible. *)

From S2P Require Import Prelude Primitives BufPool.
From stdpp Require Import base list gmap strings.

#[local] Open Scope Z_scope.

(** ** Constants *)

Definition FlagData : Z := 0x01.
Definition FlagAck : Z := 0x02.
Definition FlagPadding : Z := 0x03.
Definition FlagKeepalive : Z := 0x04.
Definition FlagFin : Z := 0x05.
Definition FlagControl : Z := 0x06.
Definition FlagConnect : Z := 0x07.
Definition FlagUDP : Z := 0x08.
Definition FlagStreamOpen : Z := 0x09.
Definition FlagWindowUpdate : Z := 0x0A.
Definition FlagMigrate : Z := 0x0B.
Definition FlagResume : Z := 0x0C.
Definition FlagStreamAck : Z := 0x0D.
Definition FlagStreamClose : Z := 0x0E.

Definition NonceSize : Z := 12.
Definition HeaderSize : Z := 4 + 4 + 1.
Definition TagSize : Z := 16.
Definition MinChunk : Z := NonceSize + HeaderSize + TagSize.

Record Chunk := mkChunk {
  SessionID : Z;
  SeqNum : Z;
  Flags : Z;
  Payload : bytes;
}.

#[global] Instance Chunk_eq_dec : EqDecision Chunk.
Proof. solve_decision. Defined.

(** The field widths of the struct: [uint32], [uint32], [byte]. *)
Definition chunk_wf (c : Chunk) : Prop :=
  0 ≤ SessionID c < 2 ^ 32 ∧ 0 ≤ SeqNum c < 2 ^ 32 ∧ 0 ≤ Flags c < 2 ^ 8.

(** ** Encryption *)

Section encryption.
Context {HA : AEAD}.

(** [aes.NewCipher] + [cipher.NewGCM]: the key length decides. *)
Definition newGCM (key : bytes) : outcome bytes :=
  if (len key =? 16) || (len key =? 24) || (len key =? 32) then Ret key
  else Err "crypto/aes: invalid key size".

(** [plaintext[0:4]], [plaintext[4:8]], [plaintext[8]], [plaintext[9:]]. *)
Definition write_header (plaintext : bytes) (c : Chunk) : outcome bytes :=
  b1 ← put_be 4 plaintext 0 4 (SessionID c);
  b2 ← put_be 4 b1 4 8 (SeqNum c);
  b3 ← set_index b2 8 (Flags c);
  copy_into b3 HeaderSize (len b3) (Payload c).

(** [rnd] is what [rand.Read] delivers for the nonce, [None] when it fails. *)
Definition Encrypt (c : Chunk) (key : bytes) (rnd : option bytes) : outcome bytes :=
  gcm ← newGCM key;
  plaintext ← write_header (make_bytes (HeaderSize + len (Payload c))) c;
  match rnd with
  | None => Err "rand.Read"
  | Some nonce =>
    let ciphertext := aead_seal gcm nonce plaintext [] in
    out1 ← copy_into (make_bytes (NonceSize + len ciphertext)) 0 NonceSize nonce;
    copy_into out1 NonceSize (len out1) ciphertext
  end.

(** Nonce layout: [counter(8 BE) || zero(4)]. *)
Definition counter_nonce (nonceCounter : Z) : outcome bytes :=
  put_be 8 (make_bytes NonceSize) 0 8 nonceCounter.

Definition EncryptWithAAD (pools : bufPools) (c : Chunk) (gcm : bytes)
    (nonceCounter : Z) (aad : bytes) : outcome (bytes * bufPools) :=
  let ptSize := HeaderSize + len (Payload c) in
  '(ptBuf, pools1) ←
    (if ptSize <=? tierSize 3 then GetBuffer pools ptSize
     else Ret (make_bytes ptSize, pools));
  plaintext0 ← slice ptBuf 0 ptSize;
  plaintext ← write_header plaintext0 c;
  nonce ← counter_nonce nonceCounter;
  let out := nonce ++ aead_seal gcm nonce plaintext aad in
  Ret (out, PutBufferZero pools1 (plaintext ++ drop (length plaintext) ptBuf)).

Definition EncryptWith (pools : bufPools) (c : Chunk) (gcm : bytes) (nonceCounter : Z)
  : outcome (bytes * bufPools) :=
  EncryptWithAAD pools c gcm nonceCounter [].

Definition parse_plaintext (plaintext : bytes) : outcome Chunk :=
  if len plaintext <? HeaderSize then Err "plaintext too short" else
  sid ← get_be 4 plaintext 0 4;
  seq ← get_be 4 plaintext 4 8;
  fl ← index plaintext 8;
  pay ← slice plaintext HeaderSize (len plaintext);
  Ret (mkChunk sid seq fl pay).

Definition DecryptWithAAD (data gcm aad : bytes) : outcome Chunk :=
  if len data <? MinChunk then Err "chunk too short" else
  nonce ← slice data 0 NonceSize;
  ciphertext ← slice data NonceSize (len data);
  match aead_open gcm nonce ciphertext aad with
  | None => Err "cipher: message authentication failed"
  | Some plaintext => parse_plaintext plaintext
  end.

Definition DecryptWith (data gcm : bytes) : outcome Chunk := DecryptWithAAD data gcm [].

Definition DecryptChunk (data key : bytes) : outcome Chunk :=
  if len data <? MinChunk then Err "chunk too short" else
  gcm ← newGCM key;
  nonce ← slice data 0 NonceSize;
  ciphertext ← slice data NonceSize (len data);
  match aead_open gcm nonce ciphertext [] with
  | None => Err "cipher: message authentication failed"
  | Some plaintext => parse_plaintext plaintext
  end.

End encryption.

(** ** AEAD associated data ([core/aead_context.go]) *)

Definition aeadDirClientToServer : Z := 0x01.
Definition aeadDirServerToClient : Z := 0x02.

Definition buildAEAD (protoVersion dir : Z) : bytes :=
  if protoVersion <? 2 then [] else [dir; protoVersion].

(** ** Chunk constructors *)

Definition NewDataChunk (sessID seq : Z) (payload : bytes) : Chunk :=
  mkChunk sessID seq FlagData payload.

(** Pooled constructors return the chunk, the backing array of its payload
    (what a later [PutBuffer(chunk.Payload)] hands back) and the pool. *)
Definition NewStreamDataChunk (pools : bufPools) (sessID seq streamID : Z) (payload : bytes)
  : outcome (Chunk * bytes * bufPools) :=
  let pSize := 2 + len payload in
  '(pBuf, pools1) ← GetBuffer pools pSize;
  p ← slice pBuf 0 pSize;
  p1 ← put_be 2 p 0 2 streamID;
  p2 ← copy_into p1 2 (len p1) payload;
  Ret (mkChunk sessID seq FlagData p2, p2 ++ drop (length p2) pBuf, pools1).

Definition NewStreamDataChunkSeq (pools : bufPools) (sessID seq streamID downSeq : Z)
    (payload : bytes) : outcome (Chunk * bytes * bufPools) :=
  let pSize := 2 + 8 + len payload in
  '(pBuf, pools1) ← GetBuffer pools pSize;
  p ← slice pBuf 0 pSize;
  p1 ← put_be 2 p 0 2 streamID;
  p2 ← put_be 8 p1 2 10 downSeq;
  p3 ← copy_into p2 10 (len p2) payload;
  Ret (mkChunk sessID seq FlagData p3, p3 ++ drop (length p3) pBuf, pools1).

Definition ParseStreamDataSeq (payload : bytes) : outcome (Z * Z * bytes) :=
  if len payload <? 10 then Err "seq data payload too short" else
  streamID ← get_be 2 payload 0 2;
  downSeq ← get_be 8 payload 2 10;
  data ← slice payload 10 (len payload);
  Ret (streamID, downSeq, data).

Definition NewStreamConnectChunk (sessID seq streamID : Z) (target : bytes) : outcome Chunk :=
  let p := make_bytes (2 + len target) in
  p1 ← put_be 2 p 0 2 streamID;
  p2 ← copy_into p1 2 (len p1) target;
  Ret (mkChunk sessID seq FlagConnect p2).

Definition NewStreamFinChunk (sessID seq streamID : Z) : outcome Chunk :=
  p ← put_be 2 (make_bytes 2) 0 2 streamID;
  Ret (mkChunk sessID seq FlagFin p).

Definition NewSessionFinChunk (sessID seq : Z) : Chunk := mkChunk sessID seq FlagFin [].

Definition ParseStreamID (payload : bytes) : outcome (Z * bytes) :=
  if len payload <? 2 then Ret (0, payload) else
  sid ← get_be 2 payload 0 2;
  data ← slice payload 2 (len payload);
  Ret (sid, data).

Definition NewWindowUpdateChunk (sessID seq streamID delta : Z) : outcome Chunk :=
  p ← put_be 2 (make_bytes 6) 0 2 streamID;
  p1 ← put_be 4 p 2 6 delta;
  Ret (mkChunk sessID seq FlagWindowUpdate p1).

Definition ParseWindowUpdate (payload : bytes) : outcome (Z * Z) :=
  if len payload <? 6 then Err "window update payload too short" else
  streamID ← get_be 2 payload 0 2;
  delta ← get_be 4 payload 2 6;
  Ret (streamID, delta).

Definition BuildUDPChunkPayload (streamID : Z) (addrBytes data : bytes) : outcome bytes :=
  let p := make_bytes (2 + 2 + len addrBytes + len data) in
  p1 ← put_be 2 p 0 2 streamID;
  p2 ← put_be 2 p1 2 4 (u16 (len addrBytes));
  p3 ← copy_into p2 4 (4 + len addrBytes) addrBytes;
  copy_into p3 (4 + len addrBytes) (len p3) data.

Definition NewUDPDataChunk (sessID seq streamID : Z) (addr data : bytes) : outcome Chunk :=
  p ← BuildUDPChunkPayload streamID addr data;
  Ret (mkChunk sessID seq FlagUDP p).

(** [addrLen] is a [uint16], and so is [4+addrLen]: the sum wraps. *)
Definition ParseUDPChunk (payload : bytes) : outcome (Z * bytes * bytes) :=
  if len payload <? 4 then Err "UDP chunk payload too short" else
  streamID ← get_be 2 payload 0 2;
  addrLen ← get_be 2 payload 2 4;
  if len payload <? u16 (4 + addrLen) then Err "UDP chunk payload truncated" else
  addr ← slice payload 4 (u16 (4 + addrLen));
  data ← slice payload (u16 (4 + addrLen)) (len payload);
  Ret (streamID, addr, data).

(** [rnd] is what [rand.Read] wrote into the padding buffer. *)
Definition NewPaddingChunk (sessID seq : Z) (rnd : option bytes) : outcome Chunk :=
  match rnd with
  | None => Err "rand.Read"
  | Some padding => Ret (mkChunk sessID seq FlagPadding padding)
  end.

Definition NewKeepaliveChunk (sessID seq : Z) : Chunk := mkChunk sessID seq FlagKeepalive [].

Definition NewConnectChunk (sessID seq : Z) (target : bytes) : outcome Chunk :=
  NewStreamConnectChunk sessID seq 0 target.

(** ** Stream-migration frames *)

Definition BuildMigrateFrame (streamID : Z) (proof : bytes) : outcome bytes :=
  p ← put_be 2 (make_bytes (2 + 32)) 0 2 streamID;
  copy_into p 2 (len p) proof.

Definition ParseMigrateFrame (payload : bytes) : outcome (Z * bytes) :=
  if len payload <? 34 then Err "migrate frame too short" else
  streamID ← get_be 2 payload 0 2;
  src ← slice payload 2 34;
  proof ← copy_into (make_bytes 32) 0 32 src;
  Ret (streamID, proof).

Definition BuildStreamAckFrame (streamID ackedDownSeq : Z) : outcome bytes :=
  p ← put_be 2 (make_bytes (2 + 8)) 0 2 streamID;
  put_be 8 p 2 10 ackedDownSeq.

Definition ParseStreamAckFrame (payload : bytes) : outcome (Z * Z) :=
  if len payload <? 10 then Err "stream ack frame too short" else
  streamID ← get_be 2 payload 0 2;
  ackedDownSeq ← get_be 8 payload 2 10;
  Ret (streamID, ackedDownSeq).

Definition NewStreamCloseChunk (sessID seq streamID : Z) : outcome Chunk :=
  p ← put_be 2 (make_bytes 2) 0 2 streamID;
  Ret (mkChunk sessID seq FlagStreamClose p).

Definition ParseStreamCloseFrame (payload : bytes) : outcome Z :=
  if len payload <? 2 then Err "stream close frame too short" else
  get_be 2 payload 0 2.

Definition MigrateReplyFail : Z := 0x00.
Definition MigrateReplyOK : Z := 0x01.

Definition MigrateReasonNotFound : Z := 0x01.
Definition MigrateReasonBadProof : Z := 0x02.
Definition MigrateReasonGraceExpired : Z := 0x03.
Definition MigrateReasonLimit : Z := 0x04.
Definition MigrateReasonDestClosed : Z := 0x05.

Definition BuildMigrateOK (streamID resumeDownSeq : Z) : outcome bytes :=
  p ← set_index (make_bytes (1 + 2 + 8)) 0 MigrateReplyOK;
  p1 ← put_be 2 p 1 3 streamID;
  put_be 8 p1 3 11 resumeDownSeq.

Definition BuildMigrateFail (streamID reason : Z) : outcome bytes :=
  p ← set_index (make_bytes (1 + 2 + 1)) 0 MigrateReplyFail;
  p1 ← put_be 2 p 1 3 streamID;
  set_index p1 3 reason.

(** [(ok, streamID, resumeDownSeq, reason)] *)
Definition ParseMigrateReply (payload : bytes) : outcome (bool * Z * Z * Z) :=
  if len payload <? 4 then Err "migrate reply too short" else
  st ← index payload 0;
  if st =? MigrateReplyOK then
    if len payload <? 11 then Err "migrate OK reply too short" else
    streamID ← get_be 2 payload 1 3;
    resumeDownSeq ← get_be 8 payload 3 11;
    Ret (true, streamID, resumeDownSeq, 0)
  else if st =? MigrateReplyFail then
    streamID ← get_be 2 payload 1 3;
    reason ← index payload 3;
    Ret (false, streamID, 0, reason)
  else Err "migrate reply: unknown status byte".

(** ** Flow-control capability marker ([core/flowctl.go]) *)

Definition flowCtlMagic : bytes := bytes_of_string "FLOWCTL".
Definition flowCtlMarkerLen : Z := 7 + 4.
Definition flowCtlMarkerLenV2 : Z := 7 + 4 + 1.
Definition flowCapMigrate : Z := 0x01.

Definition BuildFlowCtlMarker (window : Z) : outcome bytes :=
  p ← copy_into (make_bytes flowCtlMarkerLen) 0 7 flowCtlMagic;
  put_be 4 p 7 11 window.

(** The loop [for i := 0; i < 7; i++] comparing payload and magic bytes. *)
Fixpoint magic_loop (payload : bytes) (i : Z) (magic : bytes) : outcome bool :=
  match magic with
  | [] => Ret true
  | m :: magic' =>
    b ← index payload i;
    if b =? m then magic_loop payload (i + 1) magic' else Ret false
  end.

(** [(window, ok)] *)
Definition ParseFlowCtlMarker (payload : bytes) : outcome (Z * bool) :=
  if len payload <? flowCtlMarkerLen then Ret (0, false) else
  m ← magic_loop payload 0 flowCtlMagic;
  if negb m then Ret (0, false) else
  w ← get_be 4 payload 7 11;
  Ret (w, true).

Definition BuildFlowCtlMarkerV2 (window : Z) (migrate : bool) : outcome bytes :=
  p ← copy_into (make_bytes flowCtlMarkerLenV2) 0 7 flowCtlMagic;
  p1 ← put_be 4 p 7 11 window;
  if migrate then
    b ← index p1 11;
    set_index p1 11 (Z.lor b flowCapMigrate)
  else Ret p1.

(** [(window, migrate, ok)] *)
Definition ParseFlowCtlMarkerV2 (payload : bytes) : outcome (Z * bool * bool) :=
  if len payload <? flowCtlMarkerLen then Ret (0, false, false) else
  m ← magic_loop payload 0 flowCtlMagic;
  if negb m then Ret (0, false, false) else
  w ← get_be 4 payload 7 11;
  if len payload >=? flowCtlMarkerLenV2 then
    b ← index payload 11;
    Ret (w, negb (Z.land b flowCapMigrate =? 0), true)
  else Ret (w, false, true).

Ltac consts :=
  unfold MinChunk, NonceSize, HeaderSize, TagSize, flowCtlMarkerLen, flowCtlMarkerLenV2 in *.

(** ** What the encoders produce *)

Definition header_bytes (c : Chunk) : bytes :=
  be_bytes 4 (SessionID c) ++ be_bytes 4 (SeqNum c) ++ [Flags c] ++ Payload c.

Lemma len_header_bytes c : len (header_bytes c) = HeaderSize + len (Payload c).
Proof. unfold header_bytes, HeaderSize. len_solve. Qed.

(** [write_header] overwrites every byte of a buffer of the right size. *)
Lemma write_header_eq buf c :
  len buf = HeaderSize + len (Payload c) → write_header buf c = Ret (header_bytes c).
Proof.
  unfold write_header, header_bytes, HeaderSize. intros Hb. fill_start.
  do 4 fill_step. fill_end. cbn [app]. by rewrite <- !app_assoc.
Qed.

Lemma parse_header_bytes c : chunk_wf c → parse_plaintext (header_bytes c) = Ret c.
Proof.
  intros (H1 & H2 & H3). unfold parse_plaintext. rewrite len_header_bytes.
  pose proof (len_nonneg (Payload c)). zcases. unfold header_bytes, HeaderSize.
  read_be (@nil Z) (SessionID c).
  read_be (be_bytes 4 (SessionID c)) (SeqNum c).
  read_index (be_bytes 4 (SessionID c) ++ be_bytes 4 (SeqNum c)) (Flags c).
  read_slice (be_bytes 4 (SessionID c) ++ be_bytes 4 (SeqNum c) ++ [Flags c]) (Payload c) (@nil Z).
  by destruct c.
Qed.

(** The deterministic 12-byte nonce of the counter regime. *)
Definition nonce_bytes (ctr : Z) : bytes := be_bytes 8 ctr ++ [0; 0; 0; 0].

Lemma counter_nonce_eq ctr : counter_nonce ctr = Ret (nonce_bytes ctr).
Proof.
  unfold counter_nonce, NonceSize. fill_start.
  rewrite put_be_app by len_solve. reflexivity.
Qed.

(** Distinct counters give distinct nonces. *)
Lemma nonce_bytes_inj a b :
  0 ≤ a < 2 ^ 64 → 0 ≤ b < 2 ^ 64 → nonce_bytes a = nonce_bytes b → a = b.
Proof.
  intros Ha Hb E. unfold nonce_bytes in E. apply app_inv_tail in E.
  by apply (be_bytes_inj 8) in E.
Qed.

Lemma slice_prefix_ret (l : bytes) n :
  0 ≤ n ≤ len l → slice l 0 n = Ret (take (Z.to_nat n) l).
Proof. intros. rewrite slice_ret by lia. by rewrite Z.sub_0_r, drop_0. Qed.

Section encryption_facts.
Context {HA : AEAD} {HL : AEADLaws}.

Lemma EncryptWithAAD_eq pools c gcm ctr aad :
  pools_wf pools →
  ∃ pools',
    EncryptWithAAD pools c gcm ctr aad
    = Ret (nonce_bytes ctr ++ aead_seal gcm (nonce_bytes ctr) (header_bytes c) aad, pools')
    ∧ pools_wf pools'
    ∧ ∀ b, b ∈ free_buffers pools' → zeroed b ∨ b ∈ free_buffers pools.
Proof.
  intros Hw. unfold EncryptWithAAD.
  pose proof (len_nonneg (Payload c)) as Hp.
  set (ptSize := HeaderSize + len (Payload c)).
  assert (∃ ptBuf pools1,
    (if ptSize <=? tierSize 3 then GetBuffer pools ptSize else Ret (make_bytes ptSize, pools))
    = Ret (ptBuf, pools1) ∧ ptSize ≤ len ptBuf ∧ pools_wf pools1
    ∧ ∀ b, b ∈ free_buffers pools1 → b ∈ free_buffers pools) as (ptBuf & pools1 & -> & Hl & Hw1 & Hf).
  { zcase.
    - destruct (GetBuffer_ok pools ptSize Hw) as (b & pools' & E & Hb & Hw').
      exists b, pools'. rewrite Hb. split_and!; try done.
      + by apply tierIndex_fits.
      + intros x. by apply (GetBuffer_free _ _ _ _ _ E).
    - exists (make_bytes ptSize), pools. rewrite len_make by (unfold ptSize, HeaderSize; lia).
      split_and!; done || lia. }
  ostep. rewrite slice_prefix_ret by (unfold ptSize, HeaderSize in *; lia). ostep.
  rewrite write_header_eq by (rewrite len_take; unfold ptSize, HeaderSize in *; lia). ostep.
  rewrite counter_nonce_eq. ostep. eexists. split; [done |]. split.
  - by apply PutBufferZero_wf.
  - intros b Hb. apply PutBufferZero_free in Hb as [Hb | Hb]; [by left | right; auto].
Qed.

Lemma DecryptWithAAD_sealed c gcm nonce aad :
  chunk_wf c → len nonce = 12 →
  DecryptWithAAD (nonce ++ aead_seal gcm nonce (header_bytes c) aad) gcm aad = Ret c.
Proof.
  intros Hc Hn. unfold DecryptWithAAD. rewrite len_app, aead_seal_len, len_header_bytes, Hn.
  pose proof (len_nonneg (Payload c)). consts. zcases.
  rewrite slice_head by lia. ostep.
  rewrite slice_tail; [ostep | lia | rewrite aead_seal_len, len_header_bytes; consts; lia].
  rewrite aead_open_seal. by apply parse_header_bytes.
Qed.

Lemma nonce_bytes_len ctr : len (nonce_bytes ctr) = 12.
Proof. unfold nonce_bytes. len_solve. Qed.

(** Sealing a chunk with a cached cipher and opening the wire bytes with
    the same cipher and associated data gives the chunk back, whatever stale
    bytes the pooled plaintext buffer held; the wire size is the payload plus
    [MinChunk], and every buffer handed back to the pool is zeroed (no
    plaintext is left behind). *)
Theorem chunk_wire_roundtrip pools c gcm ctr aad :
  pools_wf pools → chunk_wf c →
  ∃ out pools',
    EncryptWithAAD pools c gcm ctr aad = Ret (out, pools')
    ∧ DecryptWithAAD out gcm aad = Ret c
    ∧ len out = MinChunk + len (Payload c)
    ∧ pools_wf pools'
    ∧ ∀ b, b ∈ free_buffers pools' → zeroed b ∨ b ∈ free_buffers pools.
Proof.
  intros Hw Hc. destruct (EncryptWithAAD_eq pools c gcm ctr aad Hw) as (pools' & E & Hw' & Hf).
  eexists _, _. split; [done |]. split_and!; try done.
  - apply DecryptWithAAD_sealed; [done | apply nonce_bytes_len].
  - rewrite len_app, aead_seal_len, len_header_bytes, nonce_bytes_len.
    consts. lia.
Qed.

Lemma newGCM_32 key : len key = 32 → newGCM key = Ret key.
Proof. unfold newGCM. intros ->. done. Qed.

Lemma Encrypt_eq c key nonce :
  newGCM key = Ret key → len nonce = 12 →
  Encrypt c key (Some nonce) = Ret (nonce ++ aead_seal key nonce (header_bytes c) []).
Proof.
  intros Hk Hn. unfold Encrypt. rewrite Hk. ostep.
  pose proof (len_nonneg (Payload c)).
  rewrite write_header_eq by (rewrite len_make; unfold HeaderSize; lia). ostep.
  set (ct := aead_seal _ _ _ _). pose proof (len_nonneg ct).
  unfold NonceSize. fill_start. do 2 fill_step. fill_end. done.
Qed.

(** The random-nonce path is wire compatible with [DecryptChunk]. *)
Lemma Encrypt_DecryptChunk c key nonce :
  chunk_wf c → newGCM key = Ret key → len nonce = 12 →
  ∃ out, Encrypt c key (Some nonce) = Ret out ∧ DecryptChunk out key = Ret c.
Proof.
  intros Hc Hk Hn. eexists. split; [by apply Encrypt_eq |].
  pose proof (DecryptWithAAD_sealed c key nonce [] Hc Hn) as HD.
  unfold DecryptWithAAD in HD. unfold DecryptChunk. rewrite Hk. ostep. exact HD.
Qed.

End encryption_facts.

(** ** Frame layouts *)

(** Run a frame builder: every write of a fresh buffer, front to back. *)
Ltac build := consts; fill_start; repeat fill_step; try fill_end; cbn [app]; rewrite <- ?app_assoc; try done.

Lemma BuildUDPChunkPayload_eq sid addr data :
  BuildUDPChunkPayload sid addr data
  = Ret (be_bytes 2 sid ++ be_bytes 2 (u16 (len addr)) ++ addr ++ data).
Proof. unfold BuildUDPChunkPayload. build. Qed.

Lemma BuildMigrateFrame_eq sid proof :
  len proof = 32 → BuildMigrateFrame sid proof = Ret (be_bytes 2 sid ++ proof).
Proof. intros Hp. unfold BuildMigrateFrame. build. Qed.

Lemma BuildStreamAckFrame_eq sid acked :
  BuildStreamAckFrame sid acked = Ret (be_bytes 2 sid ++ be_bytes 8 acked).
Proof. unfold BuildStreamAckFrame. build. Qed.

Lemma BuildMigrateOK_eq sid r :
  BuildMigrateOK sid r = Ret (MigrateReplyOK :: be_bytes 2 sid ++ be_bytes 8 r).
Proof. unfold BuildMigrateOK. build. Qed.

Lemma BuildMigrateFail_eq sid reason :
  BuildMigrateFail sid reason = Ret (MigrateReplyFail :: be_bytes 2 sid ++ [reason]).
Proof. unfold BuildMigrateFail. build. Qed.

Lemma NewStreamConnectChunk_eq sess seq sid target :
  NewStreamConnectChunk sess seq sid target
  = Ret (mkChunk sess seq FlagConnect (be_bytes 2 sid ++ target)).
Proof. unfold NewStreamConnectChunk. build. Qed.

Lemma NewStreamFinChunk_eq sess seq sid :
  NewStreamFinChunk sess seq sid = Ret (mkChunk sess seq FlagFin (be_bytes 2 sid)).
Proof. unfold NewStreamFinChunk. build. Qed.

Lemma NewStreamCloseChunk_eq sess seq sid :
  NewStreamCloseChunk sess seq sid = Ret (mkChunk sess seq FlagStreamClose (be_bytes 2 sid)).
Proof. unfold NewStreamCloseChunk. build. Qed.

Lemma NewWindowUpdateChunk_eq sess seq sid delta :
  NewWindowUpdateChunk sess seq sid delta
  = Ret (mkChunk sess seq FlagWindowUpdate (be_bytes 2 sid ++ be_bytes 4 delta)).
Proof. unfold NewWindowUpdateChunk. build. Qed.

(** A pooled constructor either panics (payload beyond the largest tier) or
    yields exactly the frame bytes, whatever the pooled buffer held before. *)
Lemma NewStreamDataChunk_eq pools sess seq sid payload :
  pools_wf pools → 2 + len payload ≤ 65536 →
  ∃ backing pools',
    NewStreamDataChunk pools sess seq sid payload
    = Ret (mkChunk sess seq FlagData (be_bytes 2 sid ++ payload), backing, pools')
    ∧ pools_wf pools' ∧ len backing = tierSize (tierIndex (2 + len payload)).
Proof.
  intros Hw Hl. unfold NewStreamDataChunk.
  destruct (GetBuffer_ok pools (2 + len payload) Hw) as (b & pools' & -> & Hb & Hw').
  pose proof (tierIndex_fits _ Hl). pose proof (len_nonneg payload).
  ostep. rewrite slice_prefix_ret by lia. ostep.
  set (p := take _ b). assert (len p = 2 + len payload) as Hp by (unfold p; rewrite len_take; lia).
  fill_start. do 2 fill_step. fill_end. eexists _, _. split; [done |]. split; [done |].
  cbn [app]. rewrite len_app, len_app, len_be_bytes, len_drop, length_app, length_be_bytes.
  rewrite Hb. unfold len in *. lia.
Qed.

Lemma NewStreamDataChunkSeq_eq pools sess seq sid down payload :
  pools_wf pools → 10 + len payload ≤ 65536 →
  ∃ backing pools',
    NewStreamDataChunkSeq pools sess seq sid down payload
    = Ret (mkChunk sess seq FlagData (be_bytes 2 sid ++ be_bytes 8 down ++ payload), backing, pools')
    ∧ pools_wf pools' ∧ len backing = tierSize (tierIndex (10 + len payload)).
Proof.
  intros Hw Hl. unfold NewStreamDataChunkSeq. change (2 + 8) with 10.
  destruct (GetBuffer_ok pools (10 + len payload) Hw) as (b & pools' & -> & Hb & Hw').
  pose proof (tierIndex_fits _ Hl). pose proof (len_nonneg payload).
  ostep. rewrite slice_prefix_ret by lia. ostep.
  set (p := take _ b). assert (len p = 10 + len payload) as Hp by (unfold p; rewrite len_take; lia).
  fill_start. do 3 fill_step. fill_end. eexists _, _.
  cbn [app]. rewrite <- app_assoc. split; [done |]. split; [done |].
  rewrite !len_app, !len_be_bytes, len_drop, !length_app, !length_be_bytes.
  rewrite Hb. unfold len in *. lia.
Qed.

(** A payload that does not fit the largest tier panics on [pBuf[:pSize]]. *)
Lemma NewStreamDataChunk_oversize pools sess seq sid payload :
  pools_wf pools → 65536 < 2 + len payload →
  NewStreamDataChunk pools sess seq sid payload = Panic.
Proof.
  intros Hw Hl. unfold NewStreamDataChunk.
  destruct (GetBuffer_ok pools (2 + len payload) Hw) as (b & pools' & -> & Hb & Hw').
  rewrite tierIndex_big in Hb by lia. ostep. by rewrite slice_panic by lia.
Qed.

(** ** Round trips of the control frames *)

Lemma stream_seq_roundtrip sid down payload :
  0 ≤ sid < 2 ^ 16 → 0 ≤ down < 2 ^ 64 →
  ParseStreamDataSeq (be_bytes 2 sid ++ be_bytes 8 down ++ payload) = Ret (sid, down, payload).
Proof.
  intros. unfold ParseStreamDataSeq.
  assert (10 ≤ len (be_bytes 2 sid ++ be_bytes 8 down ++ payload)) by len_solve. zcases.
  read_be (@nil Z) sid. read_be (be_bytes 2 sid) down.
  read_slice (be_bytes 2 sid ++ be_bytes 8 down) payload (@nil Z). done.
Qed.

Lemma stream_id_roundtrip sid payload :
  0 ≤ sid < 2 ^ 16 → ParseStreamID (be_bytes 2 sid ++ payload) = Ret (sid, payload).
Proof.
  intros. unfold ParseStreamID.
  assert (2 ≤ len (be_bytes 2 sid ++ payload)) by len_solve. zcases.
  read_be (@nil Z) sid. read_slice (be_bytes 2 sid) payload (@nil Z). done.
Qed.

Lemma window_update_roundtrip sid delta :
  0 ≤ sid < 2 ^ 16 → 0 ≤ delta < 2 ^ 32 →
  ParseWindowUpdate (be_bytes 2 sid ++ be_bytes 4 delta) = Ret (sid, delta).
Proof.
  intros. unfold ParseWindowUpdate.
  assert (6 ≤ len (be_bytes 2 sid ++ be_bytes 4 delta)) by len_solve. zcases.
  read_be (@nil Z) sid. read_be (be_bytes 2 sid) delta. done.
Qed.

Lemma migrate_frame_roundtrip sid proof :
  0 ≤ sid < 2 ^ 16 → len proof = 32 →
  ParseMigrateFrame (be_bytes 2 sid ++ proof) = Ret (sid, proof).
Proof.
  intros. unfold ParseMigrateFrame.
  assert (34 ≤ len (be_bytes 2 sid ++ proof)) by len_solve. zcases.
  read_be (@nil Z) sid. read_slice (be_bytes 2 sid) proof (@nil Z).
  fill_start. fill_step. fill_end. done.
Qed.

Lemma stream_ack_roundtrip sid acked :
  0 ≤ sid < 2 ^ 16 → 0 ≤ acked < 2 ^ 64 →
  ParseStreamAckFrame (be_bytes 2 sid ++ be_bytes 8 acked) = Ret (sid, acked).
Proof.
  intros. unfold ParseStreamAckFrame.
  assert (10 ≤ len (be_bytes 2 sid ++ be_bytes 8 acked)) by len_solve. zcases.
  read_be (@nil Z) sid. read_be (be_bytes 2 sid) acked. done.
Qed.

Lemma stream_close_roundtrip sid :
  0 ≤ sid < 2 ^ 16 → ParseStreamCloseFrame (be_bytes 2 sid) = Ret sid.
Proof.
  intros. unfold ParseStreamCloseFrame. rewrite len_be_bytes. zcases.
  rewrite (get_be_at 2 [] [] (be_bytes 2 sid) sid) by (done || lia). done.
Qed.

Lemma migrate_ok_roundtrip sid r :
  0 ≤ sid < 2 ^ 16 → 0 ≤ r < 2 ^ 64 →
  ParseMigrateReply (MigrateReplyOK :: be_bytes 2 sid ++ be_bytes 8 r) = Ret (true, sid, r, 0).
Proof.
  intros. unfold ParseMigrateReply.
  assert (len (MigrateReplyOK :: be_bytes 2 sid ++ be_bytes 8 r) = 11) as -> by len_solve.
  cbn [Z.ltb Z.compare Pos.compare Pos.compare_cont].
  read_index (@nil Z) MigrateReplyOK. cbn [Z.eqb Pos.eqb MigrateReplyOK].
  read_be [1] sid. read_be (1 :: be_bytes 2 sid) r. done.
Qed.

Lemma migrate_fail_roundtrip sid reason :
  0 ≤ sid < 2 ^ 16 →
  ParseMigrateReply (MigrateReplyFail :: be_bytes 2 sid ++ [reason]) = Ret (false, sid, 0, reason).
Proof.
  intros. unfold ParseMigrateReply.
  assert (len (MigrateReplyFail :: be_bytes 2 sid ++ [reason]) = 4) as -> by len_solve.
  cbn [Z.ltb Z.compare Pos.compare Pos.compare_cont].
  read_index (@nil Z) MigrateReplyFail. cbn [Z.eqb MigrateReplyFail MigrateReplyOK].
  read_be [0] sid. read_index (0 :: be_bytes 2 sid) reason. done.
Qed.

Lemma udp_roundtrip sid addr data :
  0 ≤ sid < 2 ^ 16 → len addr ≤ 65531 →
  ParseUDPChunk (be_bytes 2 sid ++ be_bytes 2 (u16 (len addr)) ++ addr ++ data)
  = Ret (sid, addr, data).
Proof.
  intros Hs Ha. pose proof (len_nonneg addr). pose proof (len_nonneg data).
  assert (u16 (len addr) = len addr) as -> by (unfold u16; apply Z.mod_small; lia).
  unfold ParseUDPChunk.
  assert (len (be_bytes 2 sid ++ be_bytes 2 (len addr) ++ addr ++ data)
          = 4 + len addr + len data) as -> by len_solve.
  zcases. read_be (@nil Z) sid. read_be (be_bytes 2 sid) (len addr).
  assert (u16 (4 + len addr) = 4 + len addr) as -> by (unfold u16; apply Z.mod_small; lia).
  zcases. read_slice (be_bytes 2 sid ++ be_bytes 2 (len addr)) addr data.
  read_slice (be_bytes 2 sid ++ be_bytes 2 (len addr) ++ addr) data (@nil Z). done.
Qed.

(** ** Flow-control marker *)

Lemma BuildFlowCtlMarker_eq w :
  BuildFlowCtlMarker w = Ret (flowCtlMagic ++ be_bytes 4 w).
Proof.
  unfold BuildFlowCtlMarker. consts.
  assert (len flowCtlMagic = 7) by done. build.
Qed.

Lemma BuildFlowCtlMarkerV2_eq w mig :
  BuildFlowCtlMarkerV2 w mig = Ret (flowCtlMagic ++ be_bytes 4 w ++ [if mig : bool then 1 else 0]).
Proof.
  unfold BuildFlowCtlMarkerV2. consts. assert (len flowCtlMagic = 7) by done.
  fill_start. do 2 fill_step. cbn [app].
  rewrite length_be_bytes || idtac.
  change (drop 4 (drop (length flowCtlMagic) (make_bytes (7 + 4 + 1)))) with [0].
  destruct mig.
  - read_index (flowCtlMagic ++ be_bytes 4 w) 0.
    rewrite set_index_app by len_solve. cbn [drop]. rewrite app_nil_r. by rewrite <- app_assoc.
  - by rewrite <- app_assoc.
Qed.

Lemma magic_loop_app pre magic rest :
  magic_loop (pre ++ magic ++ rest) (len pre) magic = Ret true.
Proof.
  revert pre. induction magic as [| m magic IH]; intros pre; [done |].
  cbn [magic_loop app]. rewrite index_app by done. ostep. rewrite Z.eqb_refl.
  specialize (IH (pre ++ [m])). rewrite len_app, len_cons, len_nil in IH.
  rewrite <- app_assoc in IH. cbn [app] in IH. by rewrite Z.add_0_r in IH.
Qed.

Lemma magic_loop_total payload i magic :
  0 ≤ i → i + len magic ≤ len payload → ∃ b, magic_loop payload i magic = Ret b.
Proof.
  revert i. induction magic as [| m magic IH]; intros i Hi Hl; [by exists true |].
  rewrite len_cons in Hl. pose proof (len_nonneg magic).
  cbn [magic_loop]. destruct (index_ret payload i) as (x & _ & ->); [lia |]. ostep.
  zcase; [| by exists false]. apply IH; lia.
Qed.

Lemma magic_loop_flow rest : magic_loop (flowCtlMagic ++ rest) 0 flowCtlMagic = Ret true.
Proof. apply (magic_loop_app []). Qed.

Lemma flow_marker_v1_parse w rest :
  0 ≤ w < 2 ^ 32 → ParseFlowCtlMarker (flowCtlMagic ++ be_bytes 4 w ++ rest) = Ret (w, true).
Proof.
  intros. unfold ParseFlowCtlMarker. consts. assert (len flowCtlMagic = 7) by done.
  assert (11 ≤ len (flowCtlMagic ++ be_bytes 4 w ++ rest)) by len_solve. zcases.
  rewrite magic_loop_flow. ostep. cbn [negb].
  read_be flowCtlMagic w. done.
Qed.

Lemma flow_marker_v2_parse w mig :
  0 ≤ w < 2 ^ 32 →
  ParseFlowCtlMarkerV2 (flowCtlMagic ++ be_bytes 4 w ++ [if mig : bool then 1 else 0])
  = Ret (w, mig, true).
Proof.
  intros. unfold ParseFlowCtlMarkerV2. consts. assert (len flowCtlMagic = 7) by done.
  assert (len (flowCtlMagic ++ be_bytes 4 w ++ [if mig : bool then 1 else 0]) = 12) as -> by len_solve.
  cbn [Z.ltb Z.geb Z.compare Pos.compare Pos.compare_cont Z.add Pos.add Pos.succ Pos.add_carry].
  rewrite magic_loop_flow. ostep. cbn [negb].
  read_be flowCtlMagic w.
  read_index (flowCtlMagic ++ be_bytes 4 w) (if mig : bool then 1 else 0).
  by destruct mig.
Qed.

Lemma flow_marker_v2_parses_v1 w :
  0 ≤ w < 2 ^ 32 →
  ParseFlowCtlMarkerV2 (flowCtlMagic ++ be_bytes 4 w) = Ret (w, false, true).
Proof.
  intros. unfold ParseFlowCtlMarkerV2. consts. assert (len flowCtlMagic = 7) by done.
  assert (len (flowCtlMagic ++ be_bytes 4 w) = 11) as -> by len_solve.
  cbn [Z.ltb Z.geb Z.compare Pos.compare Pos.compare_cont Z.add Pos.add Pos.succ Pos.add_carry].
  rewrite magic_loop_flow. ostep. cbn [negb].
  read_be flowCtlMagic w. done.
Qed.

(** ** Parsers never panic *)

Ltac total_be := rewrite get_be_ret by lia; ostep.
Ltac total_slice := rewrite slice_ret by lia; ostep.
Ltac total_index :=
  match goal with
  | |- context [index ?l ?i] => destruct (index_ret l i) as (? & _ & ->); [lia | ostep]
  end.

Lemma ParseStreamDataSeq_total p : ParseStreamDataSeq p ≠ Panic.
Proof. unfold ParseStreamDataSeq. zcases; [done |]. do 2 total_be. by total_slice. Qed.

Lemma ParseStreamID_total p : ∃ sid data, ParseStreamID p = Ret (sid, data).
Proof. unfold ParseStreamID. zcases; [by eauto |]. total_be. total_slice. eauto. Qed.

Lemma ParseWindowUpdate_total p : ParseWindowUpdate p ≠ Panic.
Proof. unfold ParseWindowUpdate. zcases; [done |]. by do 2 total_be. Qed.

Lemma ParseMigrateFrame_total p : ParseMigrateFrame p ≠ Panic.
Proof.
  unfold ParseMigrateFrame. zcases; [done |]. total_be. total_slice.
  unfold copy_into. by rewrite len_make by lia.
Qed.

Lemma ParseStreamAckFrame_total p : ParseStreamAckFrame p ≠ Panic.
Proof. unfold ParseStreamAckFrame. zcases; [done |]. by do 2 total_be. Qed.

Lemma ParseStreamCloseFrame_total p : ParseStreamCloseFrame p ≠ Panic.
Proof. unfold ParseStreamCloseFrame. zcases; [done |]. by rewrite get_be_ret by lia. Qed.

Lemma ParseMigrateReply_total p : ParseMigrateReply p ≠ Panic.
Proof.
  unfold ParseMigrateReply. destruct (Z.ltb_spec (len p) 4); [done |].
  destruct (index_ret p 0) as (x & _ & ->); [lia |].
  destruct (index_ret p 3) as (y & _ & ->); [lia |]. ostep.
  rewrite (get_be_ret 2) by lia. ostep. repeat (zcase; try done).
  by rewrite get_be_ret by lia.
Qed.

Lemma ParseFlowCtlMarkerV2_total p : ParseFlowCtlMarkerV2 p ≠ Panic.
Proof.
  unfold ParseFlowCtlMarkerV2. consts. zcase; [done |].
  destruct (magic_loop_total p 0 flowCtlMagic) as [[] ->];
    [lia | assert (len flowCtlMagic = 7) by done; lia | |]; ostep; cbn [negb]; [| done].
  total_be. zcase; [| done]. by total_index.
Qed.

Lemma ParseFlowCtlMarker_total p : ParseFlowCtlMarker p ≠ Panic.
Proof.
  unfold ParseFlowCtlMarker. consts. zcase; [done |].
  destruct (magic_loop_total p 0 flowCtlMagic) as [[] ->];
    [lia | assert (len flowCtlMagic = 7) by done; lia | |]; ostep; cbn [negb]; [| done].
  by total_be.
Qed.

(** The address length a UDP payload announces. *)
Definition udp_addr_len (p : bytes) : Z := be_value (take 2 (drop 2 p)).

Lemma udp_addr_len_range p : is_bytes p → 0 ≤ udp_addr_len p < 2 ^ 16.
Proof.
  intros Hp. unfold udp_addr_len.
  pose proof (be_value_range (take 2 (drop 2 p))) as H.
  rewrite len_take in H.
  destruct H as [H1 H2]; [by apply is_bytes_take, is_bytes_drop |].
  split; [done |]. eapply Z.lt_le_trans; [exact H2 |]. apply Z.pow_le_mono_r; lia.
Qed.

Lemma ParseUDPChunk_cases p :
  is_bytes p →
  (len p < 4 ∧ ParseUDPChunk p = Err "UDP chunk payload too short")
  ∨ (4 ≤ len p ∧ udp_addr_len p < 65532 ∧ ParseUDPChunk p ≠ Panic)
  ∨ (4 ≤ len p ∧ 65532 ≤ udp_addr_len p ∧ ParseUDPChunk p = Panic).
Proof.
  intros Hp. unfold ParseUDPChunk. zcase; [by left | right].
  pose proof (udp_addr_len_range p Hp) as Hr.
  total_be. rewrite get_be_ret by lia. ostep.
  change (take 2 (drop (Z.to_nat 2) p)) with (take 2 (drop 2 p)).
  fold (udp_addr_len p). destruct (Z.ltb_spec (udp_addr_len p) 65532).
  - left. split_and!; try lia. unfold u16. rewrite Z.mod_small by lia.
    zcase; [done |]. rewrite slice_ret by lia. ostep. by rewrite slice_ret by lia.
  - right. split_and!; try lia.
    assert (u16 (4 + udp_addr_len p) = udp_addr_len p - 65532) as ->.
    { unfold u16. rewrite (Z.mod_eq _ (2 ^ 16)) by lia.
      replace ((4 + udp_addr_len p) / 2 ^ 16) with 1; [lia |].
      apply Z.div_unique with (r := udp_addr_len p - 65532); lia. }
    zcase; [lia |]. by rewrite slice_panic by lia.
Qed.

(** Each control frame the code builds is read back by its parser: stream
    data with sequence, window update, UDP datagram (addresses up to 65531
    bytes), MIGRATE/RESUME with proof, stream ack, stream close, and both
    MIGRATE replies. *)
Theorem control_frames_roundtrip sess seq sid :
  0 ≤ sid < 2 ^ 16 →
  (∀ delta, 0 ≤ delta < 2 ^ 32 →
     (c ← NewWindowUpdateChunk sess seq sid delta; ParseWindowUpdate (Payload c))
     = Ret (sid, delta))
  ∧ (∀ addr data, len addr ≤ 65531 →
     (c ← NewUDPDataChunk sess seq sid addr data; ParseUDPChunk (Payload c))
     = Ret (sid, addr, data))
  ∧ (∀ pools down data, pools_wf pools → 0 ≤ down < 2 ^ 64 → 10 + len data ≤ 65536 →
     ('(c, _, _) ← NewStreamDataChunkSeq pools sess seq sid down data;
      ParseStreamDataSeq (Payload c)) = Ret (sid, down, data))
  ∧ (∀ proof, len proof = 32 →
     (p ← BuildMigrateFrame sid proof; ParseMigrateFrame p) = Ret (sid, proof))
  ∧ (∀ acked, 0 ≤ acked < 2 ^ 64 →
     (p ← BuildStreamAckFrame sid acked; ParseStreamAckFrame p) = Ret (sid, acked))
  ∧ (c ← NewStreamCloseChunk sess seq sid; ParseStreamCloseFrame (Payload c)) = Ret sid
  ∧ (∀ r, 0 ≤ r < 2 ^ 64 →
     (p ← BuildMigrateOK sid r; ParseMigrateReply p) = Ret (true, sid, r, 0))
  ∧ (∀ reason, (p ← BuildMigrateFail sid reason; ParseMigrateReply p)
     = Ret (false, sid, 0, reason)).
Proof.
  intros Hs. split_and!.
  - intros. rewrite NewWindowUpdateChunk_eq. by apply window_update_roundtrip.
  - intros. unfold NewUDPDataChunk. rewrite BuildUDPChunkPayload_eq. by apply udp_roundtrip.
  - intros pools down data Hw Hd Hl.
    destruct (NewStreamDataChunkSeq_eq pools sess seq sid down data Hw Hl) as (? & ? & -> & _).
    by apply stream_seq_roundtrip.
  - intros. rewrite BuildMigrateFrame_eq by done. by apply migrate_frame_roundtrip.
  - intros. rewrite BuildStreamAckFrame_eq. by apply stream_ack_roundtrip.
  - rewrite NewStreamCloseChunk_eq. by apply stream_close_roundtrip.
  - intros. rewrite BuildMigrateOK_eq. by apply migrate_ok_roundtrip.
  - intros. rewrite BuildMigrateFail_eq. by apply migrate_fail_roundtrip.
Qed.

Lemma control_frames_roundtrip_witness :
  (0 ≤ 7 < 2 ^ 16) ∧
  (p ← BuildMigrateOK 7 300; ParseMigrateReply p) = Ret (true, 7, 300, 0).
Proof.
  split; [lia |].
  destruct (control_frames_roundtrip 1 2 7) as (_ & _ & _ & _ & _ & _ & H & _); [lia |].
  apply H. lia.
Defined.

(** On every byte sequence, every frame parser other than [ParseUDPChunk]
    returns a value or an error; it never panics. *)
Theorem parsers_never_panic p :
  ParseStreamDataSeq p ≠ Panic ∧ ParseStreamID p ≠ Panic ∧ ParseWindowUpdate p ≠ Panic
  ∧ ParseMigrateFrame p ≠ Panic ∧ ParseStreamAckFrame p ≠ Panic
  ∧ ParseStreamCloseFrame p ≠ Panic ∧ ParseMigrateReply p ≠ Panic
  ∧ ParseFlowCtlMarker p ≠ Panic ∧ ParseFlowCtlMarkerV2 p ≠ Panic.
Proof.
  destruct (ParseStreamID_total p) as (? & ? & E).
  split_and!; auto using ParseStreamDataSeq_total, ParseWindowUpdate_total,
    ParseMigrateFrame_total, ParseStreamAckFrame_total, ParseStreamCloseFrame_total,
    ParseMigrateReply_total, ParseFlowCtlMarker_total, ParseFlowCtlMarkerV2_total.
  by rewrite E.
Qed.

(** [ParseUDPChunk] panics exactly on the payloads of at least four bytes
    whose announced address length is 65532 or more: [4+addrLen] is computed in
    [uint16] and wraps below 4, past the truncation guard. *)
Theorem udp_parse_panics p :
  is_bytes p →
  (ParseUDPChunk p = Panic ↔ 4 ≤ len p ∧ 65532 ≤ udp_addr_len p).
Proof.
  intros Hp. destruct (ParseUDPChunk_cases p Hp) as [[? E] | [(? & ? & E) | (? & ? & E)]].
  - rewrite E. split; [done | lia].
  - split; [done | lia].
  - done.
Qed.

Lemma udp_parse_panics_witness : ParseUDPChunk [0; 1; 255; 255] = Panic.
Proof.
  apply (udp_parse_panics [0; 1; 255; 255]).
  - repeat constructor; unfold is_byte; lia.
  - vm_compute. split; congruence.
Defined.

(** The flow-control marker is compatible across versions: the old parser
    reads the window of a new marker, the new parser reads an old marker with
    migration off, and the new pair round-trips window and capability. *)
Theorem flow_marker_compat w mig :
  0 ≤ w < 2 ^ 32 →
  (p ← BuildFlowCtlMarkerV2 w mig; ParseFlowCtlMarkerV2 p) = Ret (w, mig, true)
  ∧ (p ← BuildFlowCtlMarkerV2 w mig; ParseFlowCtlMarker p) = Ret (w, true)
  ∧ (p ← BuildFlowCtlMarker w; ParseFlowCtlMarkerV2 p) = Ret (w, false, true)
  ∧ (p ← BuildFlowCtlMarker w; ParseFlowCtlMarker p) = Ret (w, true).
Proof.
  intros Hw. rewrite BuildFlowCtlMarkerV2_eq, BuildFlowCtlMarker_eq. split_and!; ostep.
  - by apply flow_marker_v2_parse.
  - by apply flow_marker_v1_parse.
  - by apply flow_marker_v2_parses_v1.
  - rewrite <- (app_nil_r (be_bytes 4 w)). by apply flow_marker_v1_parse.
Qed.

Lemma flow_marker_compat_witness :
  (0 ≤ 262144 < 2 ^ 32) ∧
  (p ← BuildFlowCtlMarkerV2 262144 true; ParseFlowCtlMarkerV2 p) = Ret (262144, true, true).
Proof. split; [lia |]. refine (proj1 (flow_marker_compat 262144 true _)). lia. Defined.

Lemma chunk_wire_roundtrip_witness :
  ∃ out pools',
    EncryptWithAAD (HA := Toy.toy_aead) empty_pools (mkChunk 7 9 FlagData [1; 2; 3])
      (make_bytes 32) 5 [] = Ret (out, pools')
    ∧ DecryptWithAAD (HA := Toy.toy_aead) out (make_bytes 32) []
      = Ret (mkChunk 7 9 FlagData [1; 2; 3]).
Proof.
  destruct (chunk_wire_roundtrip (HL := Toy.toy_aead_laws) empty_pools
    (mkChunk 7 9 FlagData [1; 2; 3]) (make_bytes 32) 5 [] empty_pools_wf)
    as (out & pools' & E1 & E2 & _).
  - unfold chunk_wf, FlagData; cbn; lia.
  - exists out, pools'. split; [exact E1 | exact E2].
Defined.
