(* ===== verification/ReplayWindow.v ===== *)
(** * Per-session anti-replay window ([core/session.go], [AcceptSeqNum])

    The sliding bitmap over the last 16384 sequence numbers, with the in-place
    word and bit shifts of the code, and its refinement to the abstract promise
    "a sequence number is accepted at most once, and a fresh one inside the
    window is accepted". *)

From S2P Require Import Prelude.
From stdpp Require Import base list gmap.

#[local] Open Scope Z_scope.

Definition WindowSize : Z := 16384.

Record window := mkWindow {
  recvHighest : Z;
  recvBitmap : list Z;
  windowResets : Z;
}.

Definition window0 : window := mkWindow 0 (replicate 256 0) 0.

(** [recvBitmap[i]]; every access of the code is in range. *)
Definition word_at (bm : list Z) (i : nat) : Z :=
  match bm !! i with Some x => x | None => 0 end.

(** [for i := k-1; i >= 0; i--]. *)
Fixpoint for_down (k : nat) (f : nat → list Z → list Z) (bm : list Z) : list Z :=
  match k with
  | O => bm
  | S k' => for_down k' f (f k' bm)
  end.

Definition word_step (ws : nat) (i : nat) (bm : list Z) : list Z :=
  <[i := if (ws <=? i)%nat then word_at bm (i - ws)%nat else 0]> bm.

Definition bit_step (bitShift : Z) (i : nat) (bm : list Z) : list Z :=
  let v := u64 (Z.shiftl (word_at bm i) bitShift) in
  <[i := if (0 <? i)%nat
         then Z.lor v (Z.shiftr (word_at bm (i - 1)%nat) (64 - bitShift))
         else v]> bm.

Definition shiftBitmap (bm : list Z) (n : Z) : list Z :=
  if n =? 0 then bm else
  let ws := Z.to_nat (n / 64) in
  let bitShift := n mod 64 in
  let bm1 := if (0 <? ws)%nat then for_down (length bm) (word_step ws) bm else bm in
  if 0 <? bitShift then for_down (length bm1) (bit_step bitShift) bm1 else bm1.

Definition setBit (bm : list Z) (pos : Z) : list Z :=
  let word := pos / 64 in
  let bit := pos mod 64 in
  if word <? len bm
  then <[Z.to_nat word := Z.lor (word_at bm (Z.to_nat word)) (u64 (Z.shiftl 1 bit))]> bm
  else bm.

Definition getBit (bm : list Z) (pos : Z) : bool :=
  let word := pos / 64 in
  let bit := pos mod 64 in
  if word >=? len bm then false
  else negb (Z.land (word_at bm (Z.to_nat word)) (u64 (Z.shiftl 1 bit)) =? 0).

Definition AcceptSeqNum (w : window) (seq : Z) : bool * window :=
  if seq >? recvHighest w then
    let shift := u32 (seq - recvHighest w) in
    let '(bm, resets) :=
      if shift >=? WindowSize
      then (map (λ _ : Z, 0) (recvBitmap w), u64 (windowResets w + 1))
      else (shiftBitmap (recvBitmap w) shift, windowResets w) in
    (true, mkWindow seq (setBit bm 0) resets)
  else
    let diff := u32 (recvHighest w - seq) in
    if diff >=? WindowSize then (false, w)
    else if getBit (recvBitmap w) diff then (false, w)
    else (true, mkWindow (recvHighest w) (setBit (recvBitmap w) diff) (windowResets w)).

(** ** Bitmap facts *)

Definition bitmap_wf (bm : list Z) : Prop :=
  length bm = 256%nat ∧ Forall (λ x, 0 ≤ x < 2 ^ 64) bm.

(** The word at index [i], zero outside the array. *)
Definition wd (bm : list Z) (i : Z) : Z := if 0 <=? i then word_at bm (Z.to_nat i) else 0.

Lemma word_at_ge l i : (length l ≤ i)%nat → word_at l i = 0.
Proof. intros. unfold word_at. by rewrite lookup_ge_None_2. Qed.

Lemma word_at_insert_eq l i x : (i < length l)%nat → word_at (<[i := x]> l) i = x.
Proof. intros. unfold word_at. by rewrite list_lookup_insert_eq. Qed.

Lemma word_at_insert_ne l i j x : i ≠ j → word_at (<[i := x]> l) j = word_at l j.
Proof. intros. unfold word_at. by rewrite list_lookup_insert_ne. Qed.

Lemma wd_range bm i : bitmap_wf bm → 0 ≤ wd bm i < 2 ^ 64.
Proof.
  intros [_ H]. unfold wd. zcases.
  destruct (decide (Z.to_nat i < length bm)%nat) as [Hi |].
  - unfold word_at. destruct (lookup_lt_is_Some_2 bm _ Hi) as [x Hx].
    rewrite Hx. by eapply Forall_lookup_1 in H.
  - rewrite word_at_ge by lia. lia.
Qed.

Lemma for_down_length k f bm :
  (∀ i b, length (f i b) = length b) → length (for_down k f bm) = length bm.
Proof. intros Hf. revert bm. induction k; intros; cbn; [done |]. by rewrite IHk. Qed.

(** A descending loop whose step at [i] reads only indices up to [i] computes
    every cell from the original array. *)
Lemma for_down_spec (g : nat → list Z → Z) k bm :
  (∀ i b b', (∀ j, (j ≤ i)%nat → word_at b j = word_at b' j) → g i b = g i b') →
  (k ≤ length bm)%nat →
  ∀ i, word_at (for_down k (λ i b, <[i := g i b]> b) bm) i
       = if (i <? k)%nat then g i bm else word_at bm i.
Proof.
  intros Hg. revert bm. induction k as [| k IH]; intros bm Hk i; [done |].
  cbn [for_down]. rewrite IH by (rewrite length_insert; lia).
  destruct (Nat.ltb_spec i k).
  - rewrite (proj2 (Nat.ltb_lt i (S k))) by lia. apply Hg. intros j Hj.
    by rewrite word_at_insert_ne by lia.
  - destruct (decide (i = k)) as [-> |].
    + rewrite (proj2 (Nat.ltb_lt k (S k))) by lia.
      by rewrite word_at_insert_eq by lia.
    + rewrite (proj2 (Nat.ltb_ge i (S k))) by lia.
      by rewrite word_at_insert_ne by lia.
Qed.

Lemma word_loop_spec ws bm i :
  0 ≤ i < len bm →
  wd (for_down (length bm) (word_step ws) bm) i = wd bm (i - Z.of_nat ws).
Proof.
  intros [Hi Hl]. unfold wd at 1. zcases. unfold word_step.
  rewrite for_down_spec; [| | done].
  - rewrite (proj2 (Nat.ltb_lt _ _)) by (unfold len in Hl; lia).
    unfold wd. destruct (Nat.leb_spec ws (Z.to_nat i)); zcases.
    f_equal. lia.
  - intros j b b' Hb. destruct (ws <=? j)%nat; [| done]. apply Hb. lia.
Qed.

Lemma bit_loop_spec bs bm i :
  0 ≤ i < len bm →
  wd (for_down (length bm) (bit_step bs) bm) i
  = Z.lor (u64 (Z.shiftl (wd bm i) bs)) (Z.shiftr (wd bm (i - 1)) (64 - bs)).
Proof.
  intros [Hi Hl]. unfold wd at 1. zcases. unfold bit_step.
  rewrite for_down_spec; [| | done].
  - rewrite (proj2 (Nat.ltb_lt _ _)) by (unfold len in Hl; lia).
    unfold wd. destruct (Nat.ltb_spec 0 (Z.to_nat i)); zcases.
    + do 2 f_equal. f_equal. lia.
    + by rewrite Z.shiftr_0_l, Z.lor_0_r.
  - intros j b b' Hb. rewrite Hb by lia. destruct (0 <? j)%nat; [| done].
    by rewrite Hb by lia.
Qed.

Lemma word_step_length ws i b : length (word_step ws i b) = length b.
Proof. unfold word_step. by rewrite length_insert. Qed.
Lemma bit_step_length bs i b : length (bit_step bs i b) = length b.
Proof. unfold bit_step. by rewrite length_insert. Qed.

Lemma bitmap_wf_of_wd bm :
  length bm = 256%nat → (∀ i, 0 ≤ i < 256 → 0 ≤ wd bm i < 2 ^ 64) → bitmap_wf bm.
Proof.
  intros Hl H. split; [done |]. apply Forall_lookup_2. intros i x Hx.
  specialize (H (Z.of_nat i)). pose proof (lookup_lt_Some _ _ _ Hx).
  rewrite Hl in *. unfold wd in H. rewrite Nat2Z.id in H.
  unfold word_at in H. rewrite Hx in H.
  rewrite (proj2 (Z.leb_le 0 (Z.of_nat i))) in H by lia. apply H. lia.
Qed.

Lemma u64_range x : 0 ≤ u64 x < 2 ^ 64.
Proof. apply Z.mod_pos_bound. lia. Qed.

Lemma bits_above x i : 0 ≤ x < 2 ^ 64 → 64 ≤ i → Z.testbit x i = false.
Proof.
  intros Hx Hi. rewrite <- (Z.mod_small x (2 ^ 64)) by done.
  by apply Z.mod_pow2_bits_high.
Qed.

Lemma lor_range64 x y : 0 ≤ x < 2 ^ 64 → 0 ≤ y < 2 ^ 64 → 0 ≤ Z.lor x y < 2 ^ 64.
Proof.
  intros Hx Hy. assert (Z.lor x y = Z.lor x y mod 2 ^ 64) as ->.
  2: apply Z.mod_pos_bound; lia.
  apply Z.bits_inj'. intros i Hi. destruct (Z.ltb_spec i 64).
  - by rewrite Z.mod_pow2_bits_low by lia.
  - rewrite Z.mod_pow2_bits_high by lia. rewrite Z.lor_spec.
    by rewrite !bits_above by done.
Qed.

Lemma shiftr_range64 x k : 0 ≤ x < 2 ^ 64 → 0 ≤ k → 0 ≤ Z.shiftr x k < 2 ^ 64.
Proof.
  intros Hx Hk. rewrite Z.shiftr_div_pow2 by done. split.
  - apply Z.div_pos; [lia |]. apply Z.pow_pos_nonneg; lia.
  - eapply Z.le_lt_trans; [| apply Hx]. apply Z.div_le_upper_bound.
    + apply Z.pow_pos_nonneg; lia.
    + pose proof (Z.pow_pos_nonneg 2 k). nia.
Qed.

(** The bit of the bitmap for a sequence number [d] behind the highest. *)
Definition bit (bm : list Z) (d : Z) : bool := Z.testbit (wd bm (d / 64)) (d mod 64).

Lemma one_bit b : 0 ≤ b < 64 → u64 (Z.shiftl 1 b) = 2 ^ b.
Proof.
  intros Hb. rewrite Z.shiftl_1_l. unfold u64. apply Z.mod_small.
  split; [lia |]. apply Z.pow_lt_mono_r; lia.
Qed.

Lemma land_pow2 w b : 0 ≤ b → negb (Z.land w (2 ^ b) =? 0) = Z.testbit w b.
Proof.
  intros Hb. destruct (Z.testbit w b) eqn:E.
  - zcase; [| done]. apply (f_equal (λ x, Z.testbit x b)) in e.
    rewrite Z.land_spec, E, Z.pow2_bits_true, Z.bits_0 in e by done. done.
  - zcase; [done |]. exfalso. apply n. apply Z.bits_inj'. intros i Hi.
    rewrite Z.land_spec, Z.bits_0, Z.pow2_bits_eqb by done.
    destruct (Z.eqb_spec b i) as [-> |]; [by rewrite E | by rewrite andb_false_r].
Qed.

Lemma len_bitmap bm : bitmap_wf bm → len bm = 256.
Proof. intros [H _]. unfold len. lia. Qed.

Lemma div64_range d : 0 ≤ d < 16384 → 0 ≤ d / 64 < 256.
Proof. intros. split; [apply Z.div_pos; lia | apply Z.div_lt_upper_bound; lia]. Qed.

Lemma getBit_bit bm d : bitmap_wf bm → 0 ≤ d < 16384 → getBit bm d = bit bm d.
Proof.
  intros Hw Hd. unfold getBit, bit. rewrite (len_bitmap bm Hw).
  pose proof (div64_range d Hd). pose proof (Z.mod_pos_bound d 64).
  rewrite Z.geb_leb. destruct (Z.leb_spec 256 (d / 64)); [lia |].
  rewrite one_bit by lia. rewrite land_pow2 by lia. unfold wd. zcases. done.
Qed.

Lemma wd_insert bm i j x :
  0 ≤ i < len bm → 0 ≤ j → wd (<[Z.to_nat i := x]> bm) j = if i =? j then x else wd bm j.
Proof.
  intros Hi Hj. unfold wd. zcases.
  - subst. apply word_at_insert_eq. unfold len in Hi. lia.
  - apply word_at_insert_ne. lia.
Qed.

Lemma setBit_wf bm p : bitmap_wf bm → 0 ≤ p < 16384 → bitmap_wf (setBit bm p).
Proof.
  intros Hw Hp. pose proof (div64_range p Hp). unfold setBit.
  rewrite (len_bitmap bm Hw). destruct (Z.ltb_spec (p / 64) 256); [| lia].
  apply bitmap_wf_of_wd; [rewrite length_insert; apply Hw |]. intros i Hi.
  rewrite wd_insert by (rewrite ?len_bitmap; done || lia). zcase; [| by apply wd_range].
  apply lor_range64; [| apply u64_range].
  pose proof (wd_range bm (p / 64) Hw) as Hr. unfold wd in Hr.
  by rewrite (proj2 (Z.leb_le 0 _)) in Hr by lia.
Qed.

Lemma bit_setBit bm p d :
  bitmap_wf bm → 0 ≤ p < 16384 → 0 ≤ d < 16384 →
  bit (setBit bm p) d = (d =? p) || bit bm d.
Proof.
  intros Hw Hp Hd. pose proof (div64_range p Hp). pose proof (div64_range d Hd).
  pose proof (Z.mod_pos_bound p 64). pose proof (Z.mod_pos_bound d 64).
  unfold setBit. rewrite (len_bitmap bm Hw).
  destruct (Z.ltb_spec (p / 64) 256); [| lia]. unfold bit at 1.
  rewrite wd_insert by (rewrite ?len_bitmap; done || lia).
  destruct (Z.eqb_spec (p / 64) (d / 64)) as [E | E].
  - rewrite Z.lor_spec, one_bit by lia. rewrite Z.pow2_bits_eqb by lia.
    unfold bit, wd. rewrite <- E. rewrite (proj2 (Z.leb_le 0 (p / 64))) by lia.
    rewrite orb_comm. f_equal. pose proof (Z.div_mod p 64). pose proof (Z.div_mod d 64).
    destruct (Z.eqb_spec (p mod 64) (d mod 64)), (Z.eqb_spec d p); lia.
  - destruct (Z.eqb_spec d p) as [-> |]; [lia | done].
Qed.

Lemma shiftBitmap_length bm n : length (shiftBitmap bm n) = length bm.
Proof.
  unfold shiftBitmap. destruct (Z.eqb_spec n 0); [done |].
  assert (length (if (0 <? Z.to_nat (n / 64))%nat
                  then for_down (length bm) (word_step (Z.to_nat (n / 64))) bm else bm)
          = length bm) as E.
  { case_match; [| done]. apply for_down_length. intros; apply word_step_length. }
  zcase; [| done]. rewrite for_down_length by (intros; apply bit_step_length). done.
Qed.

(** The words after both shifts. *)
Lemma wd_shiftBitmap bm n i :
  bitmap_wf bm → 0 ≤ n < 16384 → 0 ≤ i < 256 →
  wd (shiftBitmap bm n) i
  = Z.lor (u64 (Z.shiftl (wd bm (i - n / 64)) (n mod 64)))
          (Z.shiftr (wd bm (i - n / 64 - 1)) (64 - n mod 64)).
Proof.
  intros Hw Hn Hi. pose proof (Z.mod_pos_bound n 64). pose proof (div64_range n Hn).
  assert (∀ j, Z.lor (u64 (Z.shiftl (wd bm j) 0)) (Z.shiftr (wd bm (j - 1)) 64) = wd bm j) as Hz.
  { intros j. pose proof (wd_range bm j Hw). pose proof (wd_range bm (j - 1) Hw).
    rewrite Z.shiftl_0_r. unfold u64. rewrite Z.mod_small by done.
    rewrite Z.shiftr_div_pow2 by lia. rewrite Z.div_small by done. by rewrite Z.lor_0_r. }
  unfold shiftBitmap. destruct (Z.eqb_spec n 0) as [-> |].
  { change (0 / 64) with 0. change (0 mod 64) with 0. rewrite Z.sub_0_r, Z.sub_0_r. by rewrite Hz. }
  set (bm1 := if (0 <? _)%nat then _ else bm).
  assert (length bm1 = length bm) as Hl.
  { unfold bm1. case_match; [| done]. apply for_down_length. intros; apply word_step_length. }
  assert (∀ j, -1 ≤ j < 256 → wd bm1 j = wd bm (j - n / 64)) as Hbm1.
  { intros j Hj. destruct (Z.leb_spec 0 j).
    - unfold bm1. destruct (Nat.ltb_spec 0 (Z.to_nat (n / 64))).
      + rewrite word_loop_spec by (rewrite len_bitmap; done || lia). f_equal. lia.
      + f_equal. lia.
    - unfold wd. zcases. }
  destruct (Z.ltb_spec 0 (n mod 64)).
  - rewrite bit_loop_spec by (unfold len; rewrite Hl; destruct Hw; lia).
    rewrite !Hbm1 by lia. do 2 f_equal. f_equal. lia.
  - rewrite Hbm1 by lia. assert (n mod 64 = 0) as -> by lia. by rewrite Hz.
Qed.

Lemma shiftBitmap_wf bm n : bitmap_wf bm → 0 ≤ n < 16384 → bitmap_wf (shiftBitmap bm n).
Proof.
  intros Hw Hn. apply bitmap_wf_of_wd; [rewrite shiftBitmap_length; apply Hw |].
  intros i Hi. pose proof (Z.mod_pos_bound n 64). rewrite wd_shiftBitmap by done.
  apply lor_range64; [apply u64_range |]. apply shiftr_range64; [by apply wd_range | lia].
Qed.

(** Shifting moves every bit [n] places towards the old history. *)
Lemma bit_shiftBitmap bm n d :
  bitmap_wf bm → 0 ≤ n < 16384 → 0 ≤ d < 16384 →
  bit (shiftBitmap bm n) d = (n <=? d) && bit bm (d - n).
Proof.
  intros Hw Hn Hd. unfold bit.
  pose proof (Z.mod_pos_bound n 64 ltac:(lia)). pose proof (Z.mod_pos_bound d 64 ltac:(lia)).
  pose proof (div64_range n Hn). pose proof (div64_range d Hd).
  pose proof (Z.div_mod n 64 ltac:(lia)). pose proof (Z.div_mod d 64 ltac:(lia)).
  rewrite wd_shiftBitmap by done. rewrite Z.lor_spec.
  rewrite Z.shiftr_spec by lia. unfold u64. rewrite Z.mod_pow2_bits_low by lia.
  destruct (Z.leb_spec (n mod 64) (d mod 64)) as [Hle | Hlt].
  - rewrite Z.shiftl_spec by lia.
    rewrite (bits_above (wd bm (d / 64 - n / 64 - 1))) by (apply wd_range || lia; done).
    rewrite orb_false_r. destruct (Z.leb_spec n d).
    + cbn [andb].
      rewrite <- (Z.div_unique (d - n) 64 (d / 64 - n / 64) (d mod 64 - n mod 64)) by lia.
      rewrite <- (Z.mod_unique (d - n) 64 (d / 64 - n / 64) (d mod 64 - n mod 64)) by lia.
      done.
    + unfold wd. destruct (Z.leb_spec 0 (d / 64 - n / 64)); [lia |]. by rewrite Z.bits_0.
  - rewrite Z.shiftl_spec_low by lia. cbn [orb]. destruct (Z.leb_spec n d).
    + cbn [andb].
      rewrite <- (Z.div_unique (d - n) 64 (d / 64 - n / 64 - 1) (d mod 64 - n mod 64 + 64)) by lia.
      rewrite <- (Z.mod_unique (d - n) 64 (d / 64 - n / 64 - 1) (d mod 64 - n mod 64 + 64)) by lia.
      f_equal. lia.
    + unfold wd. destruct (Z.leb_spec 0 (d / 64 - n / 64 - 1)); [lia |]. by rewrite Z.bits_0.
Qed.

Lemma bitmap_zero_wf bm : bitmap_wf bm → bitmap_wf (map (λ _ : Z, 0) bm).
Proof.
  intros [Hl H]. split; [by rewrite length_map |].
  apply Forall_fmap. apply Forall_true. intros. cbn. lia.
Qed.

Lemma bit_zero bm d : bit (map (λ _ : Z, 0) bm) d = false.
Proof.
  unfold bit, wd. zcases; [| by rewrite Z.bits_0]. unfold word_at.
  rewrite list_lookup_fmap. destruct (bm !! _); cbn; by rewrite Z.bits_0.
Qed.

(** ** Abstract specification

    What the window promises: it remembers the highest sequence number and the
    set of all accepted ones; a number is accepted when it is new and not
    [WindowSize] or more behind. *)

Record spec_window := mkSpec { s_highest : Z; s_seen : gset Z }.

Definition spec0 : spec_window := mkSpec 0 ∅.

Definition spec_accept (s : spec_window) (seq : Z) : bool * spec_window :=
  if seq >? s_highest s then (true, mkSpec seq ({[seq]} ∪ s_seen s))
  else if s_highest s - seq >=? WindowSize then (false, s)
  else if bool_decide (seq ∈ s_seen s) then (false, s)
  else (true, mkSpec (s_highest s) ({[seq]} ∪ s_seen s)).

(** The representation relation. *)
Record represents (w : window) (s : spec_window) : Prop := {
  rep_wf : bitmap_wf (recvBitmap w);
  rep_highest : recvHighest w = s_highest s;
  rep_range : 0 ≤ s_highest s < 2 ^ 32;
  rep_seen : ∀ x, x ∈ s_seen s → 0 ≤ x ≤ s_highest s;
  rep_bits : ∀ d, 0 ≤ d < 16384 →
    bit (recvBitmap w) d = bool_decide (s_highest s - d ∈ s_seen s);
}.

Lemma represents_init : represents window0 spec0.
Proof.
  split; cbn [recvBitmap recvHighest s_highest s_seen window0 spec0]; try lia; try done.
  - split; [by rewrite length_replicate | apply Forall_replicate; lia].
  - intros d Hd. pose proof (div64_range d Hd). unfold bit, wd. zcases.
    unfold word_at. rewrite lookup_replicate_2 by lia. rewrite Z.bits_0.
    by rewrite bool_decide_false.
Qed.

(** Bits after a new highest number: everything remembered moves, bit 0 is new. *)
Lemma bits_new_highest (bm : list Z) (h seq : Z) (seen : gset Z) :
  bitmap_wf bm → h < seq →
  (∀ x, x ∈ seen → 0 ≤ x ≤ h) →
  (∀ d, 0 ≤ d < 16384 → bit bm d = (seq - h <=? d) && bool_decide (seq - d ∈ seen)) →
  ∀ d, 0 ≤ d < 16384 →
    bit (setBit bm 0) d = bool_decide (seq - d ∈ ({[seq]} ∪ seen)).
Proof.
  intros Hw Hs Hseen Hbm d Hd. rewrite bit_setBit by (done || lia). rewrite Hbm by done.
  destruct (Z.eqb_spec d 0) as [-> |]; cbn [orb].
  - rewrite bool_decide_true; [done |]. rewrite Z.sub_0_r. set_solver.
  - destruct (Z.leb_spec (seq - h) d); cbn [andb].
    + apply bool_decide_ext. set_solver by lia.
    + rewrite bool_decide_false; [done |].
      intros [Hx%elem_of_singleton | Hx%Hseen]%elem_of_union; lia.
Qed.

(** One step of the implementation is one step of the specification. *)
Lemma accept_refines w s seq :
  represents w s → 0 ≤ seq < 2 ^ 32 →
  fst (AcceptSeqNum w seq) = fst (spec_accept s seq)
  ∧ represents (snd (AcceptSeqNum w seq)) (snd (spec_accept s seq)).
Proof.
  intros [Hw Hh Hr Hseen Hbits] Hseq. unfold AcceptSeqNum, spec_accept, u32, WindowSize. rewrite Hh.
  rewrite !Z.gtb_ltb. destruct (Z.ltb_spec (s_highest s) seq) as [Hgt | Hle].
  - (* a new highest number *)
    rewrite (Z.mod_small (seq - _)) by lia. rewrite Z.geb_leb.
    destruct (Z.leb_spec 16384 (seq - s_highest s)) as [Hreset | Hshift];
      (split; [done |]); split; cbn; try done; try lia.
    + apply setBit_wf; [by apply bitmap_zero_wf | lia].
    + intros x [->%elem_of_singleton | Hx%Hseen]%elem_of_union; lia.
    + apply bits_new_highest with (h := s_highest s); try done; [by apply bitmap_zero_wf |].
      intros d Hd. rewrite bit_zero. destruct (Z.leb_spec (seq - s_highest s) d); lia || done.
    + apply setBit_wf; [apply shiftBitmap_wf | ]; done || lia.
    + intros x [->%elem_of_singleton | Hx%Hseen]%elem_of_union; lia.
    + apply bits_new_highest with (h := s_highest s); try done; [apply shiftBitmap_wf; done || lia |].
      intros d Hd. rewrite bit_shiftBitmap by (done || lia).
      destruct (Z.leb_spec (seq - s_highest s) d); [| done]. cbn [andb].
      rewrite Hbits by lia. apply bool_decide_ext. by replace (s_highest s - (d - (seq - s_highest s))) with (seq - d) by lia.
  - rewrite (Z.mod_small (s_highest s - seq)) by lia. rewrite Z.geb_leb.
    destruct (Z.leb_spec 16384 (s_highest s - seq)) as [Hold | Hin]; [done |].
    rewrite getBit_bit by (done || lia). rewrite Hbits by lia.
    replace (s_highest s - (s_highest s - seq)) with seq by lia.
    case_bool_decide; [done |]. split; [done |]. split; cbn; try done; try lia.
    + apply setBit_wf; done || lia.
    + intros x [->%elem_of_singleton | Hx%Hseen]%elem_of_union; lia.
    + intros d Hd. rewrite bit_setBit by (done || lia). rewrite Hbits by done.
      destruct (Z.eqb_spec d (s_highest s - seq)) as [-> |]; cbn [orb].
      * rewrite bool_decide_true; [done |]. replace (s_highest s - _) with seq by lia. set_solver.
      * apply bool_decide_ext. set_solver by lia.
Qed.

(** ** Sequences of received numbers *)

(** The numbers accepted when [seqs] arrive in order. *)
Fixpoint run_accept (w : window) (seqs : list Z) : list Z * window :=
  match seqs with
  | [] => ([], w)
  | x :: seqs' =>
    let '(ok, w') := AcceptSeqNum w x in
    let '(acc, w'') := run_accept w' seqs' in
    (if ok then x :: acc else acc, w'')
  end.

Fixpoint spec_run (s : spec_window) (seqs : list Z) : list Z * spec_window :=
  match seqs with
  | [] => ([], s)
  | x :: seqs' =>
    let '(ok, s') := spec_accept s x in
    let '(acc, s'') := spec_run s' seqs' in
    (if ok then x :: acc else acc, s'')
  end.

Lemma run_refines w s seqs :
  represents w s → Forall (λ x, 0 ≤ x < 2 ^ 32) seqs →
  fst (run_accept w seqs) = fst (spec_run s seqs)
  ∧ represents (snd (run_accept w seqs)) (snd (spec_run s seqs)).
Proof.
  intros Hr Hs. revert w s Hr. induction Hs as [| x seqs Hx Hs IH]; intros w s Hr; [done |].
  cbn. destruct (accept_refines w s x Hr Hx) as [E1 E2].
  destruct (AcceptSeqNum w x) as [ok w'], (spec_accept s x) as [ok' s']. cbn in E1, E2. subst ok'.
  destruct (IH w' s' E2) as [I1 I2].
  destruct (run_accept w' seqs) as [acc w''], (spec_run s' seqs) as [acc' s'']. cbn in *. by subst.
Qed.

Definition spec_inv (s : spec_window) : Prop := ∀ x, x ∈ s_seen s → x ≤ s_highest s.

Lemma spec_accept_seen s x ok s' :
  spec_accept s x = (ok, s') → spec_inv s →
  spec_inv s' ∧ s_seen s ⊆ s_seen s' ∧ (ok = true → x ∉ s_seen s ∧ x ∈ s_seen s').
Proof.
  unfold spec_accept. intros E Hi.
  destruct (x >? s_highest s) eqn:E1; simplify_eq/=.
  { rewrite Z.gtb_lt in E1. split_and!.
    - intros y [->%elem_of_singleton | Hy%Hi]%elem_of_union; cbn; lia.
    - set_solver.
    - intros _. split; [intros Hx%Hi; lia | set_solver]. }
  destruct (_ >=? _); simplify_eq/=; [done |].
  case_bool_decide; simplify_eq/=; [done |]. rewrite Z.gtb_ltb, Z.ltb_ge in E1. split_and!.
  - intros y [->%elem_of_singleton | Hy%Hi]%elem_of_union; cbn; [lia | done].
  - set_solver.
  - intros _. split; [done | set_solver].
Qed.

Lemma spec_run_nodup s seqs :
  spec_inv s → NoDup (fst (spec_run s seqs)) ∧ ∀ x, x ∈ fst (spec_run s seqs) → x ∉ s_seen s.
Proof.
  revert s. induction seqs as [| x seqs IH]; intros s Hi; cbn.
  { split; [constructor | intros ? ?%elem_of_nil; done]. }
  destruct (spec_accept s x) as [ok s'] eqn:E.
  apply spec_accept_seen in E as (Hi' & Hsub & Hok); [| done].
  destruct (IH s' Hi') as [IH1 IH2].
  destruct (spec_run s' seqs) as [acc s'']. cbn in *. destruct ok; cbn.
  - destruct Hok as [Hx Hx']; [done |]. split.
    + constructor; [| done]. intros Hin. by apply IH2 in Hin.
    + intros y [-> | Hy%IH2]%elem_of_cons; [done | set_solver].
  - split; [done |]. intros y Hy%IH2. set_solver.
Qed.

(** C5: anti-replay.  Whatever 32-bit sequence numbers arrive on a session, in
    whatever order and with whatever repetitions and jumps (window resets
    included), [AcceptSeqNum] accepts no number twice. *)
Theorem no_seq_accepted_twice seqs :
  Forall (λ x, 0 ≤ x < 2 ^ 32) seqs → NoDup (fst (run_accept window0 seqs)).
Proof.
  intros Hs. destruct (run_refines window0 spec0 seqs represents_init Hs) as [-> _].
  apply spec_run_nodup. intros x Hx. set_solver.
Qed.

Lemma no_seq_accepted_twice_witness :
  Forall (λ x, 0 ≤ x < 2 ^ 32) [5; 3; 5; 20000; 3]
  ∧ fst (run_accept window0 [5; 3; 5; 20000; 3]) = [5; 3; 20000]
  ∧ NoDup (fst (run_accept window0 [5; 3; 5; 20000; 3])).
Proof.
  split; [repeat constructor; lia |]. split; [vm_compute; reflexivity |].
  apply (no_seq_accepted_twice [5; 3; 5; 20000; 3]). repeat constructor; lia.
Defined.

(** C19: the bitmap window refines the abstract window: after any sequence of
    arrivals the next number is accepted exactly when it is above the highest
    accepted number, or less than [WindowSize] below it and never accepted
    before. *)
Theorem window_refines_spec seqs x :
  Forall (λ x, 0 ≤ x < 2 ^ 32) seqs → 0 ≤ x < 2 ^ 32 →
  let w := snd (run_accept window0 seqs) in
  let s := snd (spec_run spec0 seqs) in
  represents w s
  ∧ (fst (AcceptSeqNum w x) = true ↔
     s_highest s < x ∨ (s_highest s - x < WindowSize ∧ x ∉ s_seen s)).
Proof.
  intros Hs Hx w s. destruct (run_refines window0 spec0 seqs represents_init Hs) as [_ Hr].
  fold w s in Hr. split; [done |]. destruct (accept_refines w s x Hr Hx) as [-> _].
  unfold spec_accept. rewrite Z.gtb_ltb, Z.geb_leb. destruct (Z.ltb_spec (s_highest s) x); cbn.
  - naive_solver.
  - destruct (Z.leb_spec WindowSize (s_highest s - x)); cbn; [naive_solver lia |].
    case_bool_decide; cbn; naive_solver lia.
Qed.

Lemma window_refines_spec_witness :
  fst (AcceptSeqNum (snd (run_accept window0 [100; 7; 20000])) 7) = false
  ∧ fst (AcceptSeqNum (snd (run_accept window0 [100; 7; 20000])) 5000) = true.
Proof.
  split; [vm_compute; reflexivity |].
  refine (proj2 (proj2 (window_refines_spec [100; 7; 20000] 5000 _ _)) _);
    [repeat constructor; lia | lia |].
  right. split; [vm_compute; done |].
  apply (bool_decide_eq_false_1 (5000 ∈ s_seen (snd (spec_run spec0 [100; 7; 20000])))).
  vm_compute. reflexivity.
Defined.
