(* ===== verification/Session.v ===== *)
(** * Sessions ([core/session.go])

    One session: keys, cached AES-GCM ciphers, the counter-nonce epoch, the
    replay window, rekeying with a grace period and destruction.  The epochs
    ([sendEpoch] objects) live in a heap of their own because encrypting
    goroutines keep pointers to them across a [Rekey] or a [Destroy]; the
    interleavings are in [SessionConc.v], the manager in [SessionManager.v]. *)

From S2P Require Import Prelude.
From S2P Require Import Primitives.
From S2P Require Import BufPool.
From S2P Require Import Chunk.
From S2P Require Import ReplayWindow.
From stdpp Require Import base list gmap strings.

#[local] Open Scope Z_scope.

(** [sendEpoch]: a cipher (represented by its key) with its nonce counter. *)
Record sendEpoch := mkEpoch { ep_gcm : bytes; ep_nonce : Z }.

(** Instants and durations are nanoseconds. *)
Definition Second : Z := 1000000000.
Definition Hour : Z := 3600 * Second.

Record Session := mkSession {
  ID : Z;
  SendKey : bytes;
  RecvKey : bytes;
  ProtoVersion : Z;
  sendSeq : Z;
  recvWindow : window;
  CreatedAt : Z;
  AttachedAt : Z;
  DetachedAt : Z;
  epochs : list sendEpoch;          (* every epoch object ever allocated *)
  sendEpochPtr : option nat;        (* index into [epochs] *)
  recvGCM : option bytes;
  oldRecvGCM : option bytes;
  oldRecvKey : option bytes;
  oldKeyExpiry : Z;
  lastRekey : Z;
  lastActivity : Z;
  destroyed : bool;
  MigrateNonce : bytes;
}.

Definition ErrSessionDestroyed : string := "session destroyed: key material zeroed".

Definition set_activity (s : Session) (now : Z) : Session :=
  mkSession (ID s) (SendKey s) (RecvKey s) (ProtoVersion s) (sendSeq s) (recvWindow s)
    (CreatedAt s) (AttachedAt s) (DetachedAt s) (epochs s) (sendEpochPtr s) (recvGCM s)
    (oldRecvGCM s) (oldRecvKey s) (oldKeyExpiry s) (lastRekey s) now (destroyed s)
    (MigrateNonce s).

Definition set_epochs (s : Session) (eps : list sendEpoch) (p : option nat) : Session :=
  mkSession (ID s) (SendKey s) (RecvKey s) (ProtoVersion s) (sendSeq s) (recvWindow s)
    (CreatedAt s) (AttachedAt s) (DetachedAt s) eps p (recvGCM s)
    (oldRecvGCM s) (oldRecvKey s) (oldKeyExpiry s) (lastRekey s) (lastActivity s) (destroyed s)
    (MigrateNonce s).

Definition set_seq_window (s : Session) (seq : Z) (w : window) : Session :=
  mkSession (ID s) (SendKey s) (RecvKey s) (ProtoVersion s) seq w
    (CreatedAt s) (AttachedAt s) (DetachedAt s) (epochs s) (sendEpochPtr s) (recvGCM s)
    (oldRecvGCM s) (oldRecvKey s) (oldKeyExpiry s) (lastRekey s) (lastActivity s) (destroyed s)
    (MigrateNonce s).

Definition set_attach (s : Session) (att det : Z) : Session :=
  mkSession (ID s) (SendKey s) (RecvKey s) (ProtoVersion s) (sendSeq s) (recvWindow s)
    (CreatedAt s) att det (epochs s) (sendEpochPtr s) (recvGCM s)
    (oldRecvGCM s) (oldRecvKey s) (oldKeyExpiry s) (lastRekey s) (lastActivity s) (destroyed s)
    (MigrateNonce s).

Definition set_recv_gcm (s : Session) (g : option bytes) : Session :=
  mkSession (ID s) (SendKey s) (RecvKey s) (ProtoVersion s) (sendSeq s) (recvWindow s)
    (CreatedAt s) (AttachedAt s) (DetachedAt s) (epochs s) (sendEpochPtr s) g
    (oldRecvGCM s) (oldRecvKey s) (oldKeyExpiry s) (lastRekey s) (lastActivity s) (destroyed s)
    (MigrateNonce s).

Definition set_old (s : Session) (g k : option bytes) : Session :=
  mkSession (ID s) (SendKey s) (RecvKey s) (ProtoVersion s) (sendSeq s) (recvWindow s)
    (CreatedAt s) (AttachedAt s) (DetachedAt s) (epochs s) (sendEpochPtr s) (recvGCM s)
    g k (oldKeyExpiry s) (lastRekey s) (lastActivity s) (destroyed s)
    (MigrateNonce s).

(** [zeroKeyMaterialLocked], split where a lock-free reader can see the middle:
    the key bytes are zeroed and the epoch pointer cleared, then the flag is
    latched. *)
Definition zero_keys (s : Session) : Session :=
  mkSession (ID s) (ZeroBytes (SendKey s)) (ZeroBytes (RecvKey s)) (ProtoVersion s) (sendSeq s)
    (recvWindow s) (CreatedAt s) (AttachedAt s) (DetachedAt s) (epochs s) None None
    None None (oldKeyExpiry s) (lastRekey s) (lastActivity s) (destroyed s)
    (MigrateNonce s).

Definition latch (s : Session) : Session :=
  mkSession (ID s) (SendKey s) (RecvKey s) (ProtoVersion s) (sendSeq s) (recvWindow s)
    (CreatedAt s) (AttachedAt s) (DetachedAt s) (epochs s) (sendEpochPtr s) (recvGCM s)
    (oldRecvGCM s) (oldRecvKey s) (oldKeyExpiry s) (lastRekey s) (lastActivity s) true
    (MigrateNonce s).

Definition zeroKeyMaterialLocked (s : Session) : Session := latch (zero_keys s).

Definition IsDestroyed (s : Session) : bool := destroyed s.

(** [rnd] is what [rand.Read] delivers; on its failure the nonce stays zero. *)
Definition NewSession (id : Z) (sendKey recvKey : bytes) (now : Z) (rnd : option bytes) : Session :=
  mkSession id sendKey recvKey 0 0 window0 now 0 0 [] None None None None 0 now now false
    (match rnd with Some b => b | None => make_bytes 16 end).

Definition InitSendEpoch (s : Session) : outcome Session :=
  if destroyed s then Err ErrSessionDestroyed else
  match sendEpochPtr s with
  | Some _ => Ret s
  | None =>
    gcm ← newGCM (SendKey s);
    Ret (set_epochs s (epochs s ++ [mkEpoch gcm 0]) (Some (length (epochs s))))
  end.

Definition NextSeqNum (s : Session) : Z * Session :=
  (sendSeq s, set_seq_window s (u32 (sendSeq s + 1)) (recvWindow s)).

(** [Session.AcceptSeqNum]: the window of [ReplayWindow.v], and the activity
    stamp, which rejected packets refresh too. *)
Definition SessionAcceptSeqNum (s : Session) (seq now : Z) : bool * Session :=
  let '(ok, w) := AcceptSeqNum (recvWindow s) seq in
  (ok, set_activity (set_seq_window s (sendSeq s) w) now).

Definition WindowResetCount (s : Session) : Z := windowResets (recvWindow s).

Definition IsExpired (s : Session) (now timeout : Z) : bool := timeout <? now - lastActivity s.

Definition isExpiredAndDestroy (s : Session) (now timeout : Z) : bool * Session :=
  if now - lastActivity s <=? timeout then (false, s)
  else (true, zeroKeyMaterialLocked s).

Definition Rekey (s : Session) (newSendKey newRecvKey : bytes) (now : Z) : outcome Session :=
  newSendGCM ← newGCM newSendKey;
  newRecvGCM ← newGCM newRecvKey;
  if destroyed s then Err ErrSessionDestroyed else
  Ret (mkSession (ID s) newSendKey newRecvKey (ProtoVersion s) (sendSeq s) (recvWindow s)
    (CreatedAt s) (AttachedAt s) (DetachedAt s)
    (epochs s ++ [mkEpoch newSendGCM 0]) (Some (length (epochs s)))
    (Some newRecvGCM) (recvGCM s) (Some (RecvKey s)) (now + 10 * Second) now
    (lastActivity s) (destroyed s) (MigrateNonce s)).

Definition OldRecvKey (s : Session) (now : Z) : option bytes * Session :=
  match oldRecvKey s with
  | None => (None, s)
  | Some k =>
    if oldKeyExpiry s <? now then (None, set_old s None None)
    else (Some k, s)
  end.

Definition RekeyNeeded (s : Session) (now : Z) : bool :=
  (Hour <? now - lastRekey s) || (0xFF000000 <? sendSeq s).

Definition Keys (s : Session) : bytes * bytes := (SendKey s, RecvKey s).

Definition LastActivity (s : Session) : Z := lastActivity s.

Definition Destroy (s : Session) : Session := zeroKeyMaterialLocked s.

(** [ep.nonce.Add(1) - 1] on the epoch object behind pointer [p]. *)
Definition epoch_fetch_add (eps : list sendEpoch) (p : nat) : option (bytes * Z * list sendEpoch) :=
  match eps !! p with
  | Some ep =>
    let n := u64 (ep_nonce ep + 1) in
    Some (ep_gcm ep, u64 (n - 1), <[p := mkEpoch (ep_gcm ep) n]> eps)
  | None => None
  end.

Section crypto.
Context {HA : AEAD}.

(** [EncryptChunk] run without interference; [rnd] feeds the random nonce of
    the fallback branch.  (A dangling epoch pointer cannot occur, see
    [session_wf]; Go would panic on a nil dereference.) *)
Definition EncryptChunk (pools : bufPools) (s : Session) (c : Chunk) (rnd : option bytes)
  : outcome (bytes * bufPools * Session) :=
  if destroyed s then Err ErrSessionDestroyed else
  match sendEpochPtr s with
  | Some p =>
    match epoch_fetch_add (epochs s) p with
    | Some (gcm, nonce, eps) =>
      '(out, pools') ← EncryptWith pools c gcm nonce;
      Ret (out, pools', set_epochs s eps (sendEpochPtr s))
    | None => Panic
    end
  | None =>
    if destroyed s then Err ErrSessionDestroyed else
    out ← Encrypt c (SendKey s) rnd;
    Ret (out, pools, s)
  end.

(** One decryption attempt of [DecryptChunkSafe]: [err == nil] ends the search. *)
Definition or_else {A} (m k : outcome A) : outcome A :=
  match m with Err _ => k | _ => m end.

Definition DecryptChunkSafe (s : Session) (data : bytes) (now : Z) : outcome (Chunk * Session) :=
  if destroyed s then Err ErrSessionDestroyed else
  let oldKey := match oldRecvKey s with
                | Some k => if now <? oldKeyExpiry s then Some k else None
                | None => None
                end in
  match recvGCM s with
  | Some gcm =>
    c ← or_else (DecryptWith data gcm)
        (or_else (match oldRecvGCM s with Some g => DecryptWith data g | None => Err "nil" end)
        (or_else (match oldKey with Some k => DecryptChunk data k | None => Err "nil" end)
        (Err "decrypt failed with cached GCM")));
    Ret (c, set_activity s now)
  | None =>
    c ← match DecryptChunk data (RecvKey s) with
        | Err e => match oldKey with Some k => DecryptChunk data k | None => Err e end
        | r => r
        end;
    Ret (c, set_activity s now)
  end.

End crypto.

(** ** Well-formedness *)

Record session_wf (s : Session) : Prop := {
  wf_epoch p : sendEpochPtr s = Some p → ∃ n, epochs s !! p = Some (mkEpoch (SendKey s) n);
  wf_nonces : Forall (λ ep, 0 ≤ ep_nonce ep < 2 ^ 64) (epochs s);
  wf_recv g : recvGCM s = Some g → g = RecvKey s ∧ newGCM g = Ret g;
  wf_old g : oldRecvGCM s = Some g → oldRecvKey s = Some g;
  wf_seq : 0 ≤ sendSeq s < 2 ^ 32;
  wf_destroyed : destroyed s = true →
    sendEpochPtr s = None ∧ recvGCM s = None ∧ oldRecvGCM s = None ∧ oldRecvKey s = None
    ∧ zeroed (SendKey s) ∧ zeroed (RecvKey s);
}.

Lemma newGCM_inv k g : newGCM k = Ret g → g = k.
Proof. unfold newGCM. by case_match; intros [= <-]. Qed.

Lemma newGCM_cases k : newGCM k = Ret k ∨ ∃ e, newGCM k = Err e.
Proof. unfold newGCM. case_match; eauto. Qed.

Lemma NewSession_wf id sk rk now rnd : session_wf (NewSession id sk rk now rnd).
Proof. split; cbn; done || lia. Qed.

Lemma set_activity_wf s now : session_wf s → session_wf (set_activity s now).
Proof. intros []. by split. Qed.

Lemma set_attach_wf s a d : session_wf s → session_wf (set_attach s a d).
Proof. intros []. by split. Qed.

Lemma zeroKey_wf s : session_wf s → session_wf (zeroKeyMaterialLocked s).
Proof. intros []. split; cbn; try done. intros _. split_and!; try done; apply zeroed_ZeroBytes. Qed.

Lemma InitSendEpoch_wf s s' : session_wf s → InitSendEpoch s = Ret s' → session_wf s'.
Proof.
  intros [He Hn Hr Ho Hs Hd] E. unfold InitSendEpoch in E.
  destruct (destroyed s) eqn:Ed; [done |].
  destruct (sendEpochPtr s) eqn:Ep; [by injection E as <-; split; rewrite ?Ep, ?Ed |].
  destruct (newGCM (SendKey s)) as [g | |] eqn:Eg; try done. injection E as <-.
  apply newGCM_inv in Eg as ->. split; cbn; try done.
  - intros p [= <-]. exists 0. by rewrite lookup_app_r, Nat.sub_diag by lia.
  - apply Forall_app. split; [done |]. by repeat constructor.
  - congruence.
Qed.

Lemma Rekey_wf s sk rk now s' : session_wf s → Rekey s sk rk now = Ret s' → session_wf s'.
Proof.
  intros [He Hn Hr Ho Hs Hd] E. unfold Rekey in E.
  destruct (newGCM sk) as [g | |] eqn:Eg; try done.
  destruct (newGCM rk) as [g' | |] eqn:Eg'; try done.
  unfold mbind, outcome_bind in E. destruct (destroyed s) eqn:Ed; [done |]. injection E as <-.
  pose proof (newGCM_inv _ _ Eg) as ->. pose proof (newGCM_inv _ _ Eg') as ->.
  split; cbn; try done.
  - intros p [= <-]. exists 0. by rewrite lookup_app_r, Nat.sub_diag by lia.
  - apply Forall_app. split; [done |]. by repeat constructor.
  - naive_solver.
  - intros g Hg. destruct (Hr _ Hg) as [-> _]. done.
Qed.

Lemma OldRecvKey_wf s now : session_wf s → session_wf (snd (OldRecvKey s now)).
Proof.
  intros Hw. unfold OldRecvKey. destruct (oldRecvKey s) eqn:E; [| done].
  zcases; [| done]. destruct Hw. split; cbn; try done. naive_solver.
Qed.

Lemma epoch_fetch_add_spec eps p ep :
  eps !! p = Some ep → 0 ≤ ep_nonce ep < 2 ^ 64 →
  epoch_fetch_add eps p
  = Some (ep_gcm ep, ep_nonce ep, <[p := mkEpoch (ep_gcm ep) (u64 (ep_nonce ep + 1))]> eps).
Proof.
  intros E Hn. unfold epoch_fetch_add. rewrite E. do 3 f_equal.
  unfold u64. rewrite Zminus_mod_idemp_l. rewrite Z.mod_small; lia.
Qed.

Lemma fetch_add_nonces eps p ep :
  Forall (λ ep, 0 ≤ ep_nonce ep < 2 ^ 64) eps →
  Forall (λ ep, 0 ≤ ep_nonce ep < 2 ^ 64) (<[p := mkEpoch (ep_gcm ep) (u64 (ep_nonce ep + 1))]> eps).
Proof.
  intros H. apply Forall_insert; [done |]. cbn. apply Z.mod_pos_bound. lia.
Qed.

Lemma u32_range x : 0 ≤ u32 x < 2 ^ 32.
Proof. apply Z.mod_pos_bound. lia. Qed.

Section crypto_facts.
Context {HA : AEAD} {HL : AEADLaws}.

Lemma EncryptChunk_wf pools s c rnd out pools' s' :
  session_wf s → EncryptChunk pools s c rnd = Ret (out, pools', s') → session_wf s'.
Proof.
  intros Hw E. unfold EncryptChunk in E. destruct (destroyed s) eqn:Ed; [done |].
  destruct (sendEpochPtr s) as [p |] eqn:Ep.
  - destruct (wf_epoch s Hw p Ep) as [n Hn].
    pose proof (Forall_lookup_1 _ _ _ _ (wf_nonces s Hw) Hn) as Hr. cbn in Hr.
    rewrite (epoch_fetch_add_spec _ _ _ Hn) in E by done.
    destruct (EncryptWith _ _ _ _) as [[o q] | |]; try done. injection E as <- <- <-.
    destruct Hw as [He Hns Hr' Ho Hs Hd]. split; cbn; try done.
    + intros q' Hq. assert (q' = p) as -> by congruence.
      eexists. rewrite list_lookup_insert_eq by (eapply lookup_lt_Some; eauto). done.
    + by apply (fetch_add_nonces _ _ (mkEpoch (SendKey s) n)).
    + congruence.
  - destruct (Encrypt c (SendKey s) rnd); try done. by injection E as <- <- <-.
Qed.

Lemma DecryptChunkSafe_state s data now c s' :
  DecryptChunkSafe s data now = Ret (c, s') → s' = set_activity s now ∧ destroyed s = false.
Proof.
  unfold DecryptChunkSafe. destruct (destroyed s); [done |].
  destruct (recvGCM s).
  - destruct (or_else _ _); try done. by intros [= <- <-].
  - destruct (match DecryptChunk _ _ with Ret _ => _ | Err _ => _ | Panic => _ end); try done.
    by intros [= <- <-].
Qed.

(** ** Any use of a session *)

(** The calls a session receives; a failed call leaves the session as it is. *)
Inductive session_op :=
| OpInitSendEpoch
| OpNextSeqNum
| OpAcceptSeqNum (seq now : Z)
| OpRekey (sk rk : bytes) (now : Z)
| OpOldRecvKey (now : Z)
| OpEncrypt (pools : bufPools) (c : Chunk) (rnd : option bytes)
| OpDecrypt (data : bytes) (now : Z)
| OpExpire (now timeout : Z)
| OpAttach (now : Z)
| OpDetach (now : Z)
| OpDestroy.

Definition keep {A B} (s : B) (f : A → B) (m : outcome A) : B :=
  match m with Ret a => f a | _ => s end.

Definition run_op (s : Session) (o : session_op) : Session :=
  match o with
  | OpInitSendEpoch => keep s id (InitSendEpoch s)
  | OpNextSeqNum => snd (NextSeqNum s)
  | OpAcceptSeqNum seq now => snd (SessionAcceptSeqNum s seq now)
  | OpRekey sk rk now => keep s id (Rekey s sk rk now)
  | OpOldRecvKey now => snd (OldRecvKey s now)
  | OpEncrypt pools c rnd => keep s snd (EncryptChunk pools s c rnd)
  | OpDecrypt data now => keep s snd (DecryptChunkSafe s data now)
  | OpExpire now timeout => snd (isExpiredAndDestroy s now timeout)
  | OpAttach now => set_attach s now 0
  | OpDetach now => set_attach s (AttachedAt s) now
  | OpDestroy => Destroy s
  end.

Definition run_ops (s : Session) (ops : list session_op) : Session := foldl run_op s ops.

Lemma run_op_wf s o : session_wf s → session_wf (run_op s o).
Proof.
  intros Hw. destruct o; cbn [run_op].
  - destruct (InitSendEpoch s) eqn:E; cbn; try done. by eapply InitSendEpoch_wf.
  - destruct Hw. split; cbn; try done. apply u32_range.
  - unfold SessionAcceptSeqNum. destruct (AcceptSeqNum _ _). cbn. apply set_activity_wf.
    destruct Hw. by split.
  - destruct (Rekey _ _ _ _) eqn:E; cbn; try done. by eapply Rekey_wf.
  - by apply OldRecvKey_wf.
  - destruct (EncryptChunk _ _ _ _) as [[[? ?] ?] | |] eqn:E; cbn; try done. by eapply EncryptChunk_wf.
  - destruct (DecryptChunkSafe _ _ _) as [[? ?] | |] eqn:E; cbn; try done.
    apply DecryptChunkSafe_state in E as [-> _]. by apply set_activity_wf.
  - unfold isExpiredAndDestroy. zcases; cbn; [done | by apply zeroKey_wf].
  - by apply set_attach_wf.
  - by apply set_attach_wf.
  - by apply zeroKey_wf.
Qed.

Lemma run_ops_wf s ops : session_wf s → session_wf (run_ops s ops).
Proof.
  revert s. induction ops as [| o ops IH]; intros s Hs; [done |]. cbn. by apply IH, run_op_wf.
Qed.

Lemma InitSendEpoch_destroyed s : destroyed s = true → InitSendEpoch s = Err ErrSessionDestroyed.
Proof. unfold InitSendEpoch. by intros ->. Qed.

Lemma Rekey_destroyed s sk rk now : destroyed s = true → ∃ e, Rekey s sk rk now = Err e.
Proof.
  intros E. unfold Rekey. rewrite E.
  destruct (newGCM_cases sk) as [-> | [e ->]], (newGCM_cases rk) as [-> | [e' ->]]; ostep; eauto.
Qed.

Lemma EncryptChunk_destroyed pools s c rnd :
  destroyed s = true → EncryptChunk pools s c rnd = Err ErrSessionDestroyed.
Proof. unfold EncryptChunk. by intros ->. Qed.

Lemma DecryptChunkSafe_destroyed s data now :
  destroyed s = true → DecryptChunkSafe s data now = Err ErrSessionDestroyed.
Proof. unfold DecryptChunkSafe. by intros ->. Qed.

(** Nothing brings a destroyed session back. *)
Lemma run_op_destroyed s o : destroyed s = true → destroyed (run_op s o) = true.
Proof.
  intros E. destruct o; cbn [run_op]; try done.
  - by rewrite InitSendEpoch_destroyed.
  - unfold SessionAcceptSeqNum. by destruct (AcceptSeqNum _ _).
  - destruct (Rekey_destroyed s sk rk now E) as [e ->]. done.
  - unfold OldRecvKey. destruct (oldRecvKey s); [| done]. by case_match.
  - by rewrite EncryptChunk_destroyed.
  - by rewrite DecryptChunkSafe_destroyed.
  - unfold isExpiredAndDestroy. by case_match.
Qed.

Lemma run_ops_destroyed s ops : destroyed s = true → destroyed (run_ops s ops) = true.
Proof.
  revert s. induction ops as [| o ops IH]; intros s Hs; [done |]. cbn. by apply IH, run_op_destroyed.
Qed.

(** C27: fail closed.  Once a session has been destroyed, no sequence of calls
    whatsoever (re-initialising its epoch, rekeying it, attaching a transport)
    makes it usable again: all key bytes stay zero, no cipher is cached, and
    every entry point that would use a key returns an error. *)
Theorem destroyed_session_fails_closed s ops :
  session_wf s →
  let d := run_ops (Destroy s) ops in
  zeroed (SendKey d) ∧ zeroed (RecvKey d) ∧ sendEpochPtr d = None ∧ recvGCM d = None
  ∧ oldRecvGCM d = None ∧ oldRecvKey d = None
  ∧ InitSendEpoch d = Err ErrSessionDestroyed
  ∧ (∀ sk rk now, ∃ e, Rekey d sk rk now = Err e)
  ∧ (∀ pools c rnd, EncryptChunk pools d c rnd = Err ErrSessionDestroyed)
  ∧ (∀ data now, DecryptChunkSafe d data now = Err ErrSessionDestroyed).
Proof.
  intros Hw d.
  assert (destroyed d = true) as Hd by by apply run_ops_destroyed.
  assert (session_wf d) as Hwd by by apply run_ops_wf, zeroKey_wf.
  destruct (wf_destroyed d Hwd Hd) as (? & ? & ? & ? & ? & ?).
  split_and!; try done.
  - by apply InitSendEpoch_destroyed.
  - intros. by apply Rekey_destroyed.
  - intros. by apply EncryptChunk_destroyed.
  - intros. by apply DecryptChunkSafe_destroyed.
Qed.

(** ** Round trip between two peers *)

Lemma DecryptChunk_eq data key : newGCM key = Ret key → DecryptChunk data key = DecryptWith data key.
Proof. intros E. unfold DecryptChunk, DecryptWith, DecryptWithAAD. by rewrite E. Qed.

Definition alive (s : Session) : Prop := destroyed s = false.

(** The wire form of a chunk: its nonce, and the sealed header and payload. *)
Definition wire (key nonce : bytes) (c : Chunk) : bytes :=
  nonce ++ aead_seal key nonce (header_bytes c) [].

Lemma DecryptWith_wire key nonce c :
  chunk_wf c → len nonce = 12 → DecryptWith (wire key nonce c) key = Ret c.
Proof. apply DecryptWithAAD_sealed. Qed.

Lemma EncryptChunk_eq pools s c nonce :
  pools_wf pools → session_wf s → alive s → newGCM (SendKey s) = Ret (SendKey s) → len nonce = 12 →
  ∃ n pools' s',
    EncryptChunk pools s c (Some nonce) = Ret (wire (SendKey s) n c, pools', s')
    ∧ len n = 12 ∧ pools_wf pools' ∧ session_wf s' ∧ alive s'
    ∧ SendKey s' = SendKey s ∧ sendSeq s' = sendSeq s ∧ ID s' = ID s.
Proof.
  intros Hp Hw Ha Hk Hn.
  assert (∃ n pools' s', EncryptChunk pools s c (Some nonce) = Ret (wire (SendKey s) n c, pools', s')
    ∧ len n = 12 ∧ pools_wf pools' ∧ alive s' ∧ SendKey s' = SendKey s
    ∧ sendSeq s' = sendSeq s ∧ ID s' = ID s) as (n & pools' & s' & E & ?).
  { unfold EncryptChunk. rewrite Ha. destruct (sendEpochPtr s) as [p |] eqn:Ep.
    - destruct (wf_epoch s Hw p Ep) as [k Hn'].
      pose proof (Forall_lookup_1 _ _ _ _ (wf_nonces s Hw) Hn') as Hr. cbn in Hr.
      rewrite (epoch_fetch_add_spec _ _ _ Hn') by done. cbn [ep_gcm ep_nonce].
      destruct (EncryptWithAAD_eq pools c (SendKey s) k [] Hp) as (pools' & E & Hp' & _).
      unfold EncryptWith. rewrite E. ostep. eexists _, _, _. split; [done |].
      split_and!; try done.
    - rewrite Encrypt_eq by done. ostep. by eexists _, _, _. }
  exists n, pools', s'. pose proof (EncryptChunk_wf _ _ _ _ _ _ _ Hw E). naive_solver.
Qed.

Lemma DecryptChunkSafe_wire r key nonce c now :
  session_wf r → alive r → RecvKey r = key → newGCM key = Ret key → chunk_wf c → len nonce = 12 →
  DecryptChunkSafe r (wire key nonce c) now = Ret (c, set_activity r now).
Proof.
  intros Hw Ha <- Hk Hc Hn. unfold DecryptChunkSafe. rewrite Ha.
  destruct (recvGCM r) as [g |] eqn:Eg.
  - destruct (wf_recv r Hw g Eg) as [-> _]. by rewrite DecryptWith_wire.
  - by rewrite DecryptChunk_eq, DecryptWith_wire.
Qed.

(** A sender numbers and encrypts its messages one after the other
    ([NextSeqNum], a data chunk, [EncryptChunk]). *)
Fixpoint send_all (pools : bufPools) (s : Session) (nonce : bytes) (msgs : list bytes)
  : outcome (list bytes) :=
  match msgs with
  | [] => Ret []
  | m :: msgs' =>
    let '(seq, s1) := NextSeqNum s in
    '(out, pools', s2) ← EncryptChunk pools s1 (NewDataChunk (ID s) seq m) (Some nonce);
    outs ← send_all pools' s2 nonce msgs';
    Ret (out :: outs)
  end.

(** A receiver drops what does not decrypt and what the window rejects. *)
Fixpoint recv_all (r : Session) (now : Z) (wires : list bytes) : list bytes * Session :=
  match wires with
  | [] => ([], r)
  | w :: wires' =>
    match DecryptChunkSafe r w now with
    | Ret (c, r1) =>
      let '(ok, r2) := SessionAcceptSeqNum r1 (SeqNum c) now in
      let '(got, r3) := recv_all r2 now wires' in
      (if ok then Payload c :: got else got, r3)
    | _ => recv_all r now wires'
    end
  end.

(** The receiver has accepted exactly the numbers below [k]. *)
Definition accepted_below (r : Session) (k : Z) : Prop :=
  ∃ s, represents (recvWindow r) s ∧ s_highest s = Z.max 0 (k - 1) ∧ ∀ x, x ∈ s_seen s ↔ 0 ≤ x < k.

Lemma accept_next r k now :
  accepted_below r k → 0 ≤ k < 2 ^ 32 →
  ∃ r', SessionAcceptSeqNum r k now = (true, r') ∧ accepted_below r' (k + 1)
    ∧ RecvKey r' = RecvKey r ∧ (alive r → alive r') ∧ (session_wf r → session_wf r').
Proof.
  intros (s & Hr & Hh & Hs) Hk. unfold SessionAcceptSeqNum.
  destruct (accept_refines (recvWindow r) s k Hr Hk) as [Hok Hr'].
  assert (spec_accept s k = (true, mkSpec k ({[k]} ∪ s_seen s))) as E.
  { unfold spec_accept. rewrite Hh, Z.gtb_ltb. destruct (Z.ltb_spec (Z.max 0 (k - 1)) k); [done |].
    assert (k = 0) as -> by lia. replace (Z.max 0 (0 - 1)) with 0 by lia. cbn.
    rewrite bool_decide_false; [done |]. rewrite Hs. lia. }
  rewrite E in Hok, Hr'. destruct (AcceptSeqNum _ _) as [ok w]. cbn in Hok, Hr'. subst ok.
  eexists. split; [done |]. split; [| split; [done |]].
  - exists (mkSpec k ({[k]} ∪ s_seen s)). split; [done |]. cbn. split; [lia |].
    intros x. set_unfold. rewrite Hs. lia.
  - split; [done |]. intros []. by split.
Qed.

(** A number already accepted is rejected. *)
Lemma reject_seen r k x now :
  accepted_below r k → 0 ≤ x < k → k ≤ 2 ^ 32 → fst (SessionAcceptSeqNum r x now) = false.
Proof.
  intros (s & Hr & Hh & Hs) Hx Hk. unfold SessionAcceptSeqNum.
  destruct (accept_refines (recvWindow r) s x Hr ltac:(lia)) as [Hok _].
  destruct (AcceptSeqNum _ _) as [ok w]. cbn in *. rewrite Hok. unfold spec_accept.
  rewrite Z.gtb_ltb, Hh. destruct (Z.ltb_spec (Z.max 0 (k - 1)) x); [lia |].
  case_match; [done |]. rewrite bool_decide_true; [done |]. by apply Hs.
Qed.

(** What is on the wire once messages up to number [k] have been sent. *)
Definition numbered_wire (key : bytes) (id k : Z) (w : bytes) : Prop :=
  ∃ n seq m, w = wire key n (NewDataChunk id seq m) ∧ len n = 12 ∧ 0 ≤ seq < k.

Definition linked (s r : Session) : Prop :=
  session_wf s ∧ session_wf r ∧ alive s ∧ alive r ∧ RecvKey r = SendKey s
  ∧ newGCM (SendKey s) = Ret (SendKey s) ∧ 0 ≤ ID s < 2 ^ 32 ∧ accepted_below r (sendSeq s).

Lemma data_chunk_wf id seq m :
  0 ≤ id < 2 ^ 32 → 0 ≤ seq < 2 ^ 32 → chunk_wf (NewDataChunk id seq m).
Proof. intros. unfold chunk_wf, NewDataChunk, FlagData. cbn. lia. Qed.

Lemma recv_send_all msgs pools s r nonce now :
  pools_wf pools → linked s r → len nonce = 12 → sendSeq s + len msgs < 2 ^ 32 →
  ∃ wires r',
    send_all pools s nonce msgs = Ret wires ∧ recv_all r now wires = (msgs, r')
    ∧ accepted_below r' (sendSeq s + len msgs) ∧ session_wf r' ∧ alive r' ∧ RecvKey r' = SendKey s
    ∧ Forall (numbered_wire (SendKey s) (ID s) (sendSeq s + len msgs)) wires.
Proof.
  revert pools s r. induction msgs as [| m msgs IH]; intros pools s r Hp Hl Hn Hlt;
    destruct Hl as (Hs & Hr & Has & Har & Hkey & Hk & Hid & Hacc).
  { exists [], r. rewrite len_nil, Z.add_0_r. by split_and!. }
  rewrite len_cons in Hlt |- *. pose proof (len_nonneg msgs).
  pose proof (wf_seq s Hs). cbn [send_all NextSeqNum].
  set (s1 := set_seq_window s (u32 (sendSeq s + 1)) (recvWindow s)).
  assert (sendSeq s1 = sendSeq s + 1) as Hseq1 by (apply Z.mod_small; lia).
  assert (session_wf s1) as Hs1 by apply (run_op_wf s OpNextSeqNum Hs).
  set (c := NewDataChunk (ID s) (sendSeq s) m).
  destruct (EncryptChunk_eq pools s1 c nonce Hp Hs1 Has Hk Hn)
    as (n & pools' & s2 & -> & Hn' & Hp' & Hs2 & Ha2 & Hk2 & Hq2 & Hi2). ostep.
  destruct (accept_next (set_activity r now) (sendSeq s) now) as (r2 & Eacc & Hacc2 & Hrk2 & Har2 & Hrw2);
    [done | lia |].
  assert (linked s2 r2) as Hl2.
  { split_and!; rewrite ?Hk2, ?Hi2; cbn; try done || lia.
    - by apply Hrw2, set_activity_wf.
    - by apply Har2.
    - by rewrite Hrk2.
    - by rewrite Hq2, Hseq1. }
  destruct (IH pools' s2 r2 Hp' Hl2 Hn ltac:(lia)) as (wires & r' & -> & Erecv & Hacc' & Hw' & Ha' & Hk' & Hf).
  ostep. eexists _, r'. split; [done |].
  replace (sendSeq s + (1 + len msgs)) with (sendSeq s2 + len msgs) by lia.
  rewrite Hk2 in Hf, Hk'. rewrite Hi2 in Hf. split_and!; try done.
  - cbn [recv_all].
    rewrite (DecryptChunkSafe_wire r (SendKey s1) n c) by (try done; by apply data_chunk_wf; lia).
    change (SeqNum c) with (sendSeq s). rewrite Eacc, Erecv. done.
  - constructor; [| done]. exists n, (sendSeq s), m. split_and!; try done; lia.
Qed.

(** C2: a conversation.  Every message a session sends is decrypted, accepted
    and delivered unchanged and in order by its peer (with or without a cached
    receive cipher, by counter or by random nonce), and a recording of any of
    these frames, sent again later, is dropped. *)
Theorem conversation_delivered_once pools s r nonce now later msgs :
  pools_wf pools → linked s r → len nonce = 12 → sendSeq s + len msgs < 2 ^ 32 →
  ∃ wires r',
    send_all pools s nonce msgs = Ret wires
    ∧ recv_all r now wires = (msgs, r')
    ∧ ∀ w, w ∈ wires → fst (recv_all r' later [w]) = [].
Proof.
  intros Hp Hl Hn Hlt.
  pose proof (wf_seq s (proj1 Hl)) as Hq. pose proof Hl as (_ & _ & _ & _ & _ & Hk & Hid & _).
  destruct (recv_send_all msgs pools s r nonce now Hp Hl Hn Hlt)
    as (wires & r' & E1 & E2 & Hacc & Hw & Ha & Hrk & Hf).
  exists wires, r'. split_and!; try done. intros w Hin.
  destruct (proj1 (Forall_forall _ _) Hf w Hin) as (n & seq & m & -> & Hn' & Hseq).
  cbn [recv_all].
  rewrite (DecryptChunkSafe_wire r' (SendKey s)) by (try done; apply data_chunk_wf; lia).
  pose proof (reject_seen (set_activity r' later) _ seq later Hacc Hseq ltac:(lia)) as Hrej.
  cbn [SeqNum NewDataChunk]. destruct (SessionAcceptSeqNum _ seq later) as [ok r2].
  cbn in Hrej. by subst ok.
Qed.

(** ** Rekeying *)

Lemma Rekey_eq r sk rk t :
  alive r → newGCM sk = Ret sk → newGCM rk = Ret rk →
  ∃ r', Rekey r sk rk t = Ret r' ∧ alive r' ∧ SendKey r' = sk ∧ RecvKey r' = rk
    ∧ recvGCM r' = Some rk ∧ oldRecvGCM r' = recvGCM r ∧ oldRecvKey r' = Some (RecvKey r)
    ∧ oldKeyExpiry r' = t + 10 * Second
    ∧ sendEpochPtr r' = Some (length (epochs r)) ∧ epochs r' = epochs r ++ [mkEpoch sk 0].
Proof.
  intros Ha Hs Hr. unfold Rekey. rewrite Hs, Hr. ostep. rewrite Ha. eexists. by split_and!.
Qed.

(** The grace period of [Rekey].  Right after a rekey frames under the new
    receive key decrypt, and until ten seconds later so do frames the peer had
    sealed under the old key, unless the new key opens them too. *)
Theorem rekey_grace_period r sk rk t now c n :
  session_wf r → alive r → newGCM sk = Ret sk → newGCM rk = Ret rk →
  newGCM (RecvKey r) = Ret (RecvKey r) → chunk_wf c → len n = 12 →
  now < t + 10 * Second →
  DecryptWith (wire (RecvKey r) n c) rk = Err "cipher: message authentication failed" →
  ∃ r', Rekey r sk rk t = Ret r'
    ∧ DecryptChunkSafe r' (wire rk n c) now = Ret (c, set_activity r' now)
    ∧ DecryptChunkSafe r' (wire (RecvKey r) n c) now = Ret (c, set_activity r' now).
Proof.
  intros Hw Ha Hsk Hrk Hold Hc Hn Hnow Hbad.
  destruct (Rekey_eq r sk rk t Ha Hsk Hrk)
    as (r' & E & Ha' & _ & Hk' & Hg' & Hog & Hok & Hex & _).
  exists r'. split; [done |]. pose proof (Rekey_wf _ _ _ _ _ Hw E) as Hw'. split.
  - by apply DecryptChunkSafe_wire.
  - unfold DecryptChunkSafe. rewrite Ha', Hg', Hog, Hok, Hex. cbn [or_else]. rewrite Hbad.
    cbn [or_else]. zcases. destruct (recvGCM r) as [g |] eqn:Eg.
    + destruct (wf_recv r Hw g Eg) as [-> _]. by rewrite DecryptWith_wire.
    + cbn [or_else]. by rewrite DecryptChunk_eq, DecryptWith_wire.
Qed.

(** On a session with a cached receive cipher the old key outlives the
    grace period: at any time whatsoever after the rekey, a frame sealed under
    the old key is still accepted, because the cached old cipher is tried
    without looking at [oldKeyExpiry]. *)
Theorem old_cipher_outlives_grace r sk rk t now c n :
  session_wf r → alive r → recvGCM r = Some (RecvKey r) → newGCM sk = Ret sk → newGCM rk = Ret rk →
  chunk_wf c → len n = 12 → t + 10 * Second < now →
  DecryptWith (wire (RecvKey r) n c) rk = Err "cipher: message authentication failed" →
  ∃ r', Rekey r sk rk t = Ret r'
    ∧ DecryptChunkSafe r' (wire (RecvKey r) n c) now = Ret (c, set_activity r' now).
Proof.
  intros Hw Ha Hg Hsk Hrk Hc Hn Hnow Hbad.
  destruct (Rekey_eq r sk rk t Ha Hsk Hrk)
    as (r' & E & Ha' & _ & Hk' & Hg' & Hog & Hok & Hex & _).
  exists r'. split; [done |].
  unfold DecryptChunkSafe. rewrite Ha', Hg', Hog, Hok, Hex, Hg. cbn [or_else]. rewrite Hbad.
  cbn [or_else]. by rewrite DecryptWith_wire.
Qed.

End crypto_facts.

(** ** Witnesses *)

Definition key_a : bytes := replicate 32 7.
Definition key_b : bytes := replicate 32 9.
Definition nonce_a : bytes := replicate 12 1.

Lemma accepted_below_0 s : recvWindow s = window0 → accepted_below s 0.
Proof.
  intros Hw. exists spec0. rewrite Hw. split; [apply represents_init |]. split; [done |].
  intros x. cbn. split; [set_solver | lia].
Qed.

Lemma accepted_below_new id sk rk now rnd : accepted_below (NewSession id sk rk now rnd) 0.
Proof. by apply accepted_below_0. Qed.

Lemma linked_new id a b now :
  0 ≤ id < 2 ^ 32 → newGCM a = Ret a →
  linked (NewSession id a b now None) (NewSession id b a now None).
Proof.
  intros. split_and!; try done; try (by apply NewSession_wf). all: cbn; try lia. apply accepted_below_new.
Qed.

Lemma destroyed_session_fails_closed_witness :
  let d := @run_ops Toy.toy_aead (Destroy (NewSession 1 key_a key_b 0 None))
             [OpInitSendEpoch; OpRekey key_b key_a 5; OpAttach 6] in
  InitSendEpoch d = Err ErrSessionDestroyed.
Proof.
  refine (proj1 (proj2 (proj2 (proj2 (proj2 (proj2 (proj2
    (@destroyed_session_fails_closed Toy.toy_aead (NewSession 1 key_a key_b 0 None)
    [OpInitSendEpoch; OpRekey key_b key_a 5; OpAttach 6] _)))))))).
  apply NewSession_wf.
Defined.

Lemma conversation_delivered_once_witness :
  ∃ wires r',
    @send_all Toy.toy_aead empty_pools (NewSession 1 key_a key_b 0 None) nonce_a [[1; 2]; []; [3]] = Ret wires
    ∧ @recv_all Toy.toy_aead (NewSession 1 key_b key_a 0 None) 5 wires = ([[1; 2]; []; [3]], r')
    ∧ ∀ w, w ∈ wires → fst (@recv_all Toy.toy_aead r' 9 [w]) = [].
Proof.
  apply (@conversation_delivered_once Toy.toy_aead Toy.toy_aead_laws empty_pools
    (NewSession 1 key_a key_b 0 None) (NewSession 1 key_b key_a 0 None) nonce_a 5 9 [[1; 2]; []; [3]]).
  - apply empty_pools_wf.
  - apply linked_new; [lia | reflexivity].
  - reflexivity.
  - reflexivity.
Defined.

Definition grace_session : Session := set_recv_gcm (NewSession 1 key_b key_a 0 None) (Some key_a).

Lemma grace_session_wf : session_wf grace_session.
Proof. split; cbn; try done; try lia. intros g [= <-]. done. Qed.

Lemma rekey_grace_period_witness :
  ∃ r', Rekey grace_session key_a key_b 100 = Ret r'
    ∧ @DecryptChunkSafe Toy.toy_aead r' (@wire Toy.toy_aead key_b nonce_a (NewDataChunk 1 0 [5])) 200
      = Ret (NewDataChunk 1 0 [5], set_activity r' 200)
    ∧ @DecryptChunkSafe Toy.toy_aead r' (@wire Toy.toy_aead key_a nonce_a (NewDataChunk 1 0 [5])) 200
      = Ret (NewDataChunk 1 0 [5], set_activity r' 200).
Proof.
  apply (@rekey_grace_period Toy.toy_aead Toy.toy_aead_laws grace_session key_a key_b 100 200
    (NewDataChunk 1 0 [5]) nonce_a); try reflexivity.
  - apply grace_session_wf.
  - by apply data_chunk_wf.
Defined.

Lemma old_cipher_outlives_grace_witness :
  ∃ r', Rekey grace_session key_a key_b 100 = Ret r'
    ∧ @DecryptChunkSafe Toy.toy_aead r' (@wire Toy.toy_aead key_a nonce_a (NewDataChunk 1 0 [5]))
        (3600 * Second)
      = Ret (NewDataChunk 1 0 [5], set_activity r' (3600 * Second)).
Proof.
  apply (@old_cipher_outlives_grace Toy.toy_aead Toy.toy_aead_laws grace_session key_a key_b 100
    (3600 * Second) (NewDataChunk 1 0 [5]) nonce_a); try reflexivity.
  - apply grace_session_wf.
  - by apply data_chunk_wf.
Defined.
