(* ===== verification/SessionConc.v ===== *)
(** * Concurrent encryption ([core/session.go], [EncryptChunk])

    [EncryptChunk] takes no lock on its hot path: it checks [destroyed], loads
    the epoch pointer, does an atomic fetch-and-add on that epoch's counter and
    seals.  Here every one of these steps is an action of its own, interleaved
    arbitrarily with other encrypting goroutines and with [Rekey],
    [InitSendEpoch] and the two visible halves of [zeroKeyMaterialLocked].
    The mutex [s.mu] is [locked]; only [Destroy] keeps it across two actions. *)

From S2P Require Import Prelude.
From S2P Require Import Primitives.
From S2P Require Import BufPool.
From S2P Require Import Chunk.
From S2P Require Import Session.
From stdpp Require Import base list gmap strings.

#[local] Open Scope Z_scope.

(** Where a goroutine is inside [EncryptChunk]. *)
Inductive tstate :=
| TCheck (c : Chunk)                                  (* before [destroyed.Load()] *)
| TLoad (c : Chunk)                                   (* before [sendEpochPtr.Load()] *)
| TAdd (c : Chunk) (p : nat)                          (* before [ep.nonce.Add(1)] *)
| TSeal (c : Chunk) (p : nat) (gcm : bytes) (n : Z)   (* before [EncryptWith] *)
| TFallback (c : Chunk)                               (* before [s.mu.Lock()] *)
| TSealRnd (c : Chunk) (key : bytes)                  (* before [chunk.Encrypt] *)
| TDone (res : outcome bytes).

(** A frame handed to the transport. [em_ctr] is the epoch and counter value
    of a counter nonce, [None] for a random one. *)
Record emission := mkEm {
  em_chunk : Chunk;
  em_key : bytes;
  em_nonce : bytes;
  em_ctr : option (nat * Z);
  em_wire : bytes;
}.

Record world := mkWorld {
  w_session : Session;
  w_locked : bool;
  w_pools : bufPools;
  w_threads : gmap nat tstate;
  w_emitted : list emission;
}.

Inductive action :=
| ASpawn (t : nat) (c : Chunk)
| ATick (t : nat) (rnd : option bytes)
| ARekey (sk rk : bytes) (now : Z)
| AInitSendEpoch
| ADestroyZero
| ADestroyLatch.

Definition set_thread (w : world) (t : nat) (st : tstate) : world :=
  mkWorld (w_session w) (w_locked w) (w_pools w) (<[t := st]> (w_threads w)) (w_emitted w).

Definition set_session (w : world) (s : Session) (l : bool) : world :=
  mkWorld s l (w_pools w) (w_threads w) (w_emitted w).

Section conc.
Context {HA : AEAD}.

Definition emit (w : world) (t : nat) (pools : bufPools) (e : emission) : world :=
  mkWorld (w_session w) (w_locked w) pools (<[t := TDone (Ret (em_wire e))]> (w_threads w))
    (w_emitted w ++ [e]).

(** One atomic step of goroutine [t]; [None] when it cannot move (it waits for
    the mutex, or is done). *)
Definition tick (w : world) (t : nat) (rnd : option bytes) (st : tstate) : option world :=
  let s := w_session w in
  match st with
  | TCheck c =>
    Some (set_thread w t (if destroyed s then TDone (Err ErrSessionDestroyed) else TLoad c))
  | TLoad c =>
    Some (set_thread w t (match sendEpochPtr s with Some p => TAdd c p | None => TFallback c end))
  | TAdd c p =>
    match epoch_fetch_add (epochs s) p with
    | Some (gcm, n, eps) =>
      Some (set_thread (set_session w (set_epochs s eps (sendEpochPtr s)) (w_locked w)) t
              (TSeal c p gcm n))
    | None => Some (set_thread w t (TDone Panic))
    end
  | TSeal c p gcm n =>
    match EncryptWith (w_pools w) c gcm n with
    | Ret (out, pools') => Some (emit w t pools' (mkEm c gcm (nonce_bytes n) (Some (p, n)) out))
    | Err e => Some (set_thread w t (TDone (Err e)))
    | Panic => Some (set_thread w t (TDone Panic))
    end
  | TFallback c =>
    if w_locked w then None
    else Some (set_thread w t (if destroyed s then TDone (Err ErrSessionDestroyed)
                               else TSealRnd c (SendKey s)))
  | TSealRnd c key =>
    match rnd, Encrypt c key rnd with
    | Some nonce, Ret out => Some (emit w t (w_pools w) (mkEm c key nonce None out))
    | _, Err e => Some (set_thread w t (TDone (Err e)))
    | _, _ => Some (set_thread w t (TDone Panic))
    end
  | TDone _ => None
  end.

Definition step (w : world) (a : action) : option world :=
  match a with
  | ASpawn t c =>
    match w_threads w !! t with
    | None => Some (set_thread w t (TCheck c))
    | Some _ => None
    end
  | ATick t rnd => match w_threads w !! t with Some st => tick w t rnd st | None => None end
  | ARekey sk rk now =>
    if w_locked w then None
    else Some (set_session w (keep (w_session w) id (Rekey (w_session w) sk rk now)) false)
  | AInitSendEpoch =>
    if w_locked w then None
    else Some (set_session w (keep (w_session w) id (InitSendEpoch (w_session w))) false)
  | ADestroyZero =>
    if w_locked w then None else Some (set_session w (zero_keys (w_session w)) true)
  | ADestroyLatch =>
    if w_locked w then Some (set_session w (latch (w_session w)) false) else None
  end.

Fixpoint run (w : world) (acts : list action) : option world :=
  match acts with
  | [] => Some w
  | a :: acts' => match step w a with Some w' => run w' acts' | None => None end
  end.

(** A new session: from [NewSession], or from [SessionManager.Create]. *)
Definition fresh_session (s : Session) : Prop :=
  destroyed s = false ∧
  ((epochs s = [] ∧ sendEpochPtr s = None)
   ∨ (epochs s = [mkEpoch (SendKey s) 0] ∧ sendEpochPtr s = Some 0%nat)).

Definition start (s : Session) (pools : bufPools) : world := mkWorld s false pools ∅ [].

(** The send keys the run tries to install. *)
Definition rekey_keys (acts : list action) : list bytes :=
  omap (λ a, match a with ARekey sk _ _ => Some sk | _ => None end) acts.

(** The (key, nonce) pairs consumed by counter nonces. *)
Definition counter_uses (w : world) : list (bytes * bytes) :=
  omap (λ e, match em_ctr e with Some _ => Some (em_key e, em_nonce e) | None => None end)
    (w_emitted w).

(** ** Invariant

    [ks] are the keys installed so far (newest last), [steps] the number of
    actions taken. *)

Definition ticket_ok (eps : list sendEpoch) (gcm : bytes) (p : nat) (n : Z) : Prop :=
  ∃ ep, eps !! p = Some ep ∧ ep_gcm ep = gcm ∧ 0 ≤ n < ep_nonce ep.

Definition ticket_of (st : tstate) : option (nat * Z) :=
  match st with TSeal _ p _ n => Some (p, n) | _ => None end.

Definition tickets_emitted (w : world) : list (nat * Z) := omap em_ctr (w_emitted w).

(** A goroutine's local state agrees with the session's history. *)
Definition thread_ok (eps : list sendEpoch) (ks : list bytes) (st : tstate) : Prop :=
  match st with
  | TAdd _ p => (p < length eps)%nat
  | TSeal _ p gcm n => ticket_ok eps gcm p n
  | TSealRnd _ key => key ∈ ks
  | _ => True
  end.

Definition emission_ok (eps : list sendEpoch) (ks : list bytes) (e : emission) : Prop :=
  em_key e ∈ ks ∧ em_wire e = wire (em_key e) (em_nonce e) (em_chunk e) ∧
  match em_ctr e with
  | Some (p, n) => ticket_ok eps (em_key e) p n ∧ em_nonce e = nonce_bytes n
  | None => True
  end.

Record inv (ks : list bytes) (steps : Z) (w : world) : Prop := {
  inv_steps : 0 ≤ steps;
  inv_keys : (ep_gcm <$> epochs (w_session w)) `sublist_of` ks;
  inv_nonces : Forall (λ ep, 0 ≤ ep_nonce ep ≤ steps) (epochs (w_session w));
  inv_nil : sendEpochPtr (w_session w) = None → w_locked w = false →
    destroyed (w_session w) = false → epochs (w_session w) = [] ∧ ks !! 0%nat = Some (SendKey (w_session w));
  inv_ptr p : sendEpochPtr (w_session w) = Some p → (p < length (epochs (w_session w)))%nat;
  inv_send : w_locked w = false → destroyed (w_session w) = false → SendKey (w_session w) ∈ ks;
  inv_pools : pools_wf (w_pools w);
  inv_threads t st : w_threads w !! t = Some st → thread_ok (epochs (w_session w)) ks st;
  inv_emitted : Forall (emission_ok (epochs (w_session w)) ks) (w_emitted w);
  inv_distinct t t' st st' x : w_threads w !! t = Some st → w_threads w !! t' = Some st' →
    ticket_of st = Some x → ticket_of st' = Some x → t = t';
  inv_unused t st x : w_threads w !! t = Some st → ticket_of st = Some x → x ∉ tickets_emitted w;
  inv_nodup : NoDup (tickets_emitted w);
}.

(** Epochs are only appended, and their counters only grow. *)
Definition eps_le (eps eps' : list sendEpoch) : Prop :=
  ∀ p ep, eps !! p = Some ep →
    ∃ ep', eps' !! p = Some ep' ∧ ep_gcm ep' = ep_gcm ep ∧ ep_nonce ep ≤ ep_nonce ep'.

Lemma eps_le_refl eps : eps_le eps eps.
Proof. intros p ep H. exists ep. by split_and!. Qed.

Lemma eps_le_app eps ep : eps_le eps (eps ++ [ep]).
Proof.
  intros p e H. exists e. rewrite lookup_app_l by (by eapply lookup_lt_Some). by split_and!.
Qed.

Lemma eps_le_add eps p ep n :
  eps !! p = Some ep → ep_nonce ep ≤ n → eps_le eps (<[p := mkEpoch (ep_gcm ep) n]> eps).
Proof.
  intros H Hn q e Hq. destruct (decide (p = q)) as [<- | Hne].
  - assert (e = ep) as -> by congruence. exists (mkEpoch (ep_gcm ep) n).
    rewrite list_lookup_insert_eq by (by eapply lookup_lt_Some). by split_and!.
  - exists e. rewrite list_lookup_insert_ne by done. by split_and!.
Qed.

Lemma ticket_ok_mono eps eps' g p n : eps_le eps eps' → ticket_ok eps g p n → ticket_ok eps' g p n.
Proof.
  intros Hle (ep & E & Hg & Hn). destruct (Hle p ep E) as (ep' & E' & Hg' & Hn').
  exists ep'. split_and!; try congruence; lia.
Qed.

Lemma eps_le_length eps eps' p : eps_le eps eps' → (p < length eps)%nat → (p < length eps')%nat.
Proof.
  intros Hle [ep E]%lookup_lt_is_Some_2. destruct (Hle p ep E) as (ep' & E' & _).
  by eapply lookup_lt_Some.
Qed.

Lemma thread_ok_mono eps eps' ks ks' st :
  eps_le eps eps' → (∀ k, k ∈ ks → k ∈ ks') → thread_ok eps ks st → thread_ok eps' ks' st.
Proof. destruct st; cbn; eauto using ticket_ok_mono, eps_le_length. Qed.

Lemma emission_ok_mono eps eps' ks ks' e :
  eps_le eps eps' → (∀ k, k ∈ ks → k ∈ ks') → emission_ok eps ks e → emission_ok eps' ks' e.
Proof.
  intros Hle Hks (Hk & Hw & Hc). split_and!; [by apply Hks | done |].
  destruct (em_ctr e) as [[p n] |]; naive_solver eauto using ticket_ok_mono.
Qed.

Lemma inv_session ks ks' steps w s' l' :
  inv ks steps w →
  eps_le (epochs (w_session w)) (epochs s') → (∀ k, k ∈ ks → k ∈ ks') →
  (ep_gcm <$> epochs s') `sublist_of` ks' →
  Forall (λ ep, 0 ≤ ep_nonce ep ≤ steps + 1) (epochs s') →
  (sendEpochPtr s' = None → l' = false → destroyed s' = false →
    epochs s' = [] ∧ ks' !! 0%nat = Some (SendKey s')) →
  (∀ p, sendEpochPtr s' = Some p → (p < length (epochs s'))%nat) →
  (l' = false → destroyed s' = false → SendKey s' ∈ ks') →
  inv ks' (steps + 1) (set_session w s' l').
Proof.
  intros [] Hle Hks **. split; cbn; try done; try lia.
  - intros t st Ht. eauto using thread_ok_mono.
  - eapply Forall_impl; [done |]. intros e. by apply emission_ok_mono.
Qed.

(** Time passes for a session that does not change. *)
Lemma inv_later ks ks' steps w :
  inv ks steps w → ks `prefix_of` ks' → ks ≠ [] → inv ks' (steps + 1) w.
Proof.
  intros Hi [k ->] Hne.
  replace w with (set_session w (w_session w) (w_locked w)) by (by destruct w).
  pose proof Hi as [_ Hk Hn Hnil Hp Hs _ _ _ _ _ _].
  apply inv_session with ks; try done; eauto using eps_le_refl.
  - intros x Hx. apply elem_of_app. by left.
  - by apply sublist_inserts_r.
  - eapply Forall_impl; [done |]. cbn. lia.
  - intros H1 H2 H3. destruct (Hnil H1 H2 H3) as [? Hl]. split; [done |].
    by apply lookup_app_l_Some.
  - intros. apply elem_of_app. left. by apply Hs.
Qed.

Lemma inv_set_thread ks steps w t st :
  inv ks steps w → ticket_of st = None → thread_ok (epochs (w_session w)) ks st →
  inv ks steps (set_thread w t st).
Proof.
  intros [] Ht Hok. split; cbn; try done.
  - intros t' st'. rewrite lookup_insert_Some. naive_solver.
  - intros t1 t2 s1 s2 x. rewrite !lookup_insert_Some. naive_solver.
  - intros t1 s1 x. rewrite !lookup_insert_Some. naive_solver.
Qed.

(** A goroutine takes the next number of its epoch. *)
Lemma inv_ticket ks steps w t c p ep :
  inv ks steps w → epochs (w_session w) !! p = Some ep → 0 ≤ ep_nonce ep → steps + 1 < 2 ^ 64 →
  inv ks (steps + 1)
    (set_thread (set_session w (set_epochs (w_session w)
        (<[p := mkEpoch (ep_gcm ep) (u64 (ep_nonce ep + 1))]> (epochs (w_session w)))
        (sendEpochPtr (w_session w))) (w_locked w)) t (TSeal c p (ep_gcm ep) (ep_nonce ep))).
Proof.
  intros Hi E H0 Hb.
  pose proof (Forall_lookup_1 _ _ _ _ (inv_nonces _ _ _ Hi) E) as Hr. cbn in Hr.
  replace (u64 (ep_nonce ep + 1)) with (ep_nonce ep + 1) by (symmetry; apply Z.mod_small; lia).
  set (eps' := <[p := mkEpoch (ep_gcm ep) (ep_nonce ep + 1)]> (epochs (w_session w))).
  assert (eps_le (epochs (w_session w)) eps') as Hle by (apply eps_le_add; [done | lia]).
  assert (inv ks (steps + 1) (set_session w (set_epochs (w_session w) eps' (sendEpochPtr (w_session w)))
    (w_locked w))) as Hi'.
  { pose proof Hi as [_ Hk Hn Hnil Hp Hs _ _ _ _ _ _]. apply inv_session with ks;
      cbn [epochs set_epochs sendEpochPtr destroyed SendKey]; try done.
    - unfold eps'. rewrite list_fmap_insert. cbn [ep_gcm]. rewrite list_insert_id; [done |].
      by rewrite list_lookup_fmap, E.
    - apply Forall_insert; cbn; [| lia]. eapply Forall_impl; [done |]. cbn. lia.
    - intros H1 H2 H3. destruct (Hnil H1 H2 H3) as [Hnil' _]. by rewrite Hnil' in E.
    - intros q Hq. eapply eps_le_length; eauto. }
  (* the ticket is new: all others are below the counter *)
  assert (∀ g n, ticket_ok (epochs (w_session w)) g p n → n < ep_nonce ep) as Hnew.
  { intros g n (ep1 & E1 & _ & Hn1). assert (ep1 = ep) as -> by congruence. lia. }
  assert (∀ t' st', w_threads w !! t' = Some st' → ticket_of st' ≠ Some (p, ep_nonce ep)) as Hnt.
  { intros t' st' Ht' Hst'. apply (inv_threads _ _ _ Hi) in Ht'. destruct st'; try done.
    injection Hst' as -> ->. apply Hnew in Ht'. lia. }
  assert ((p, ep_nonce ep) ∉ tickets_emitted w) as Hne.
  { intros (e & He & Hec)%list_elem_of_omap.
    destruct (proj1 (Forall_forall _ _) (inv_emitted _ _ _ Hi) e He) as (_ & _ & Hok).
    rewrite Hec in Hok. destruct Hok as [Hok _]. apply Hnew in Hok. lia. }
  destruct Hi'. split; cbn in *; try done.
  - intros t' st'. rewrite lookup_insert_Some. intros [[<- <-] | [_ Ht']]; [| by eauto]. cbn.
    exists (mkEpoch (ep_gcm ep) (ep_nonce ep + 1)). split_and!; cbn; try done; try lia.
    unfold eps'. rewrite list_lookup_insert_eq; [done | by eapply lookup_lt_Some].
  - intros t1 t2 s1 s2 x. rewrite !lookup_insert_Some. naive_solver.
  - intros t1 s1 x. rewrite !lookup_insert_Some. naive_solver.
Qed.

(** A goroutine uses the number it holds (if any) and hands the frame out. *)
Lemma inv_emit ks steps w t st pools e :
  inv ks steps w → w_threads w !! t = Some st → em_ctr e = ticket_of st →
  emission_ok (epochs (w_session w)) ks e → pools_wf pools → inv ks steps (emit w t pools e).
Proof.
  intros [] Ht Hct He Hp.
  assert (tickets_emitted (emit w t pools e)
    = tickets_emitted w ++ match ticket_of st with Some x => [x] | None => [] end) as Htk.
  { unfold tickets_emitted. cbn. rewrite omap_app. cbn. by rewrite Hct; destruct (ticket_of st). }
  unfold emit in *. split; cbn [w_session w_locked w_pools w_threads w_emitted]; try done.
  - intros t' st'. rewrite lookup_insert_Some. naive_solver.
  - apply Forall_app. split; [done |]. by constructor.
  - intros t1 t2 s1 s2 x. rewrite !lookup_insert_Some. naive_solver.
  - intros t1 s1 x. rewrite lookup_insert_Some. intros [[<- <-] | [Hne H1]] Hx; [done |].
    rewrite Htk. intros [Hin | Hin]%elem_of_app; [by eapply inv_unused0 |].
    destruct (ticket_of st) as [y |] eqn:Ey; [| by apply not_elem_of_nil in Hin].
    apply list_elem_of_singleton in Hin as ->. apply Hne. symmetry. by eapply inv_distinct0.
  - rewrite Htk. apply NoDup_app. split_and!; [done | |].
    + intros x Hx. destruct (ticket_of st) as [y |] eqn:Ey; [| apply not_elem_of_nil].
      intros ->%list_elem_of_singleton. by eapply inv_unused0.
    + destruct (ticket_of st); [apply NoDup_singleton | constructor].
Qed.

Context {HL : AEADLaws}.

Lemma EncryptWith_wire pools c gcm n :
  pools_wf pools →
  ∃ pools', EncryptWith pools c gcm n = Ret (wire gcm (nonce_bytes n) c, pools') ∧ pools_wf pools'.
Proof.
  intros Hp. destruct (EncryptWithAAD_eq pools c gcm n [] Hp) as (pools' & E & Hp' & _).
  by exists pools'.
Qed.

(** [rand.Read] fills the twelve bytes it is asked for. *)
Definition rnd_ok (a : action) : Prop :=
  match a with ATick _ (Some nonce) => len nonce = 12 | _ => True end.

Lemma tick_inv ks steps w t rnd st w' :
  inv ks steps w → ks ≠ [] → steps + 1 < 2 ^ 64 → rnd_ok (ATick t rnd) → w_threads w !! t = Some st →
  tick w t rnd st = Some w' → inv ks (steps + 1) w'.
Proof.
  intros Hi Hne Hb Hrnd Ht E.
  assert (inv ks (steps + 1) w) as Hi1 by by apply inv_later with ks.
  pose proof (inv_threads _ _ _ Hi t st Ht) as Hok.
  destruct st as [c | c | c p | c p gcm n | c | c key | r]; cbn [tick] in E; try done.
  - injection E as <-. apply inv_set_thread; [done | |]; by destruct (destroyed _).
  - injection E as <-. destruct (sendEpochPtr _) as [p |] eqn:Ep; apply inv_set_thread; try done.
    cbn. by apply (inv_ptr _ _ _ Hi).
  - apply lookup_lt_is_Some_2 in Hok as [ep Hep].
    pose proof (Forall_lookup_1 _ _ _ _ (inv_nonces _ _ _ Hi) Hep) as Hr. cbn in Hr.
    rewrite (epoch_fetch_add_spec _ _ _ Hep) in E by lia. injection E as <-. apply inv_ticket; done || lia.
  - destruct (EncryptWith_wire (w_pools w) c gcm n (inv_pools _ _ _ Hi)) as (pools' & Ew & Hp').
    rewrite Ew in E. injection E as <-. eapply inv_emit; try done. split_and!; try done. cbn.
    destruct Hok as (ep & Hep & <- & _). eapply elem_of_sublist; [| apply (inv_keys _ _ _ Hi)].
    apply list_elem_of_fmap. eauto using list_elem_of_lookup_2.
  - destruct (w_locked w) eqn:El; [done |]. injection E as <-.
    destruct (destroyed _) eqn:Ed; apply inv_set_thread; try done. by apply (inv_send _ _ _ Hi).
  - destruct rnd as [nonce |].
    + destruct (Encrypt c key (Some nonce)) as [out | |] eqn:Ee; injection E as <-;
        [| by apply inv_set_thread ..].
      assert (newGCM key = Ret key) as Hk.
      { unfold Encrypt in Ee. destruct (newGCM_cases key) as [-> | [e Hk]]; [done |].
        by rewrite Hk in Ee. }
      rewrite Encrypt_eq in Ee by done. injection Ee as <-. eapply inv_emit; try done. apply (inv_pools _ _ _ Hi).
    + unfold Encrypt in E. destruct (newGCM key); cbn in E; [| by injection E as <-; apply inv_set_thread ..].
      destruct (write_header _ _); cbn in E; injection E as <-; by apply inv_set_thread.
Qed.

(** The keys installed after one more action. *)
Definition keys_after (ks : list bytes) (a : action) : list bytes := ks ++ rekey_keys [a].

Lemma keys_after_prefix ks a : ks `prefix_of` keys_after ks a.
Proof. by eexists. Qed.

Lemma rekey_inv ks steps w sk rk now :
  inv ks steps w → ks ≠ [] → w_locked w = false →
  inv (ks ++ [sk]) (steps + 1)
    (set_session w (keep (w_session w) id (Rekey (w_session w) sk rk now)) false).
Proof.
  intros Hi Hne Hl. pose proof (inv_later _ (ks ++ [sk]) _ _ Hi ltac:(by eexists) Hne) as Hi1.
  destruct (newGCM_cases sk) as [Esk | [e Esk]], (newGCM_cases rk) as [Erk | [e' Erk]];
    unfold Rekey; rewrite Esk, ?Erk; ostep; cbn [keep];
    try (rewrite <- Hl; destruct w; exact Hi1).
  destruct (destroyed (w_session w)) eqn:Ed; cbn [keep id].
  { rewrite <- Hl. by destruct w. }
  apply inv_session with ks; cbn [epochs sendEpochPtr destroyed SendKey]; try done.
  - apply eps_le_app.
  - intros k Hk. apply elem_of_app. by left.
  - rewrite fmap_app. apply sublist_app; [apply (inv_keys _ _ _ Hi) | done].
  - apply Forall_app. split.
    + eapply Forall_impl; [apply (inv_nonces _ _ _ Hi) |]. cbn. lia.
    + constructor; [cbn | constructor].
      pose proof (inv_steps _ _ _ Hi). lia.
  - intros p [= <-]. rewrite length_app. cbn. lia.
  - intros _ _. apply elem_of_app. right. by apply list_elem_of_singleton.
Qed.

Lemma init_inv ks steps w :
  inv ks steps w → ks ≠ [] → w_locked w = false →
  inv ks (steps + 1) (set_session w (keep (w_session w) id (InitSendEpoch (w_session w))) false).
Proof.
  intros Hi Hne Hl. pose proof (inv_later _ ks _ _ Hi ltac:(done) Hne) as Hi1.
  assert (set_session w (w_session w) false = w) as Hsame by (rewrite <- Hl; by destruct w).
  unfold InitSendEpoch. destruct (destroyed (w_session w)) eqn:Ed; cbn [keep]; [by rewrite Hsame |].
  destruct (sendEpochPtr (w_session w)) as [p |] eqn:Ep; cbn [keep id]; [by rewrite Hsame |].
  destruct (newGCM_cases (SendKey (w_session w))) as [-> | [e ->]]; ostep; cbn [keep id];
    [| by rewrite Hsame].
  destruct (inv_nil _ _ _ Hi Ep Hl Ed) as [-> Hk0]. cbn [app length].
  destruct ks as [| k0 ks]; [done |]. injection Hk0 as ->.
  apply inv_session with (SendKey (w_session w) :: ks);
    cbn [epochs sendEpochPtr destroyed SendKey set_epochs]; try done.
  - intros p ep Hp. destruct (inv_nil _ _ _ Hi Ep Hl Ed) as [Hnil _]. by rewrite Hnil in Hp.
  - cbn. apply sublist_skip, sublist_nil_l.
  - constructor; [cbn; pose proof (inv_steps _ _ _ Hi); lia | constructor].
  - intros p [= <-]. cbn. lia.
  - intros _ _. by left.
Qed.

Lemma step_inv ks steps w a w' :
  inv ks steps w → ks ≠ [] → steps + 1 < 2 ^ 64 → rnd_ok a → step w a = Some w' →
  inv (keys_after ks a) (steps + 1) w'.
Proof.
  intros Hi Hne Hb Hrnd E.
  pose proof (inv_later _ _ _ _ Hi (keys_after_prefix ks a) Hne) as Hi1.
  destruct a as [t c | t rnd | sk rk now | | |]; cbn [step] in E; unfold keys_after in *; cbn in Hi1 |- *;
    rewrite ?app_nil_r in *.
  - destruct (w_threads w !! t); [done |]. injection E as <-. by apply inv_set_thread.
  - destruct (w_threads w !! t) eqn:Et; [| done]. by eapply tick_inv.
  - destruct (w_locked w) eqn:El; [done |]. injection E as <-. by apply rekey_inv.
  - destruct (w_locked w) eqn:El; [done |]. injection E as <-. by apply init_inv.
  - destruct (w_locked w) eqn:El; [done |]. injection E as <-.
    apply inv_session with ks; try done; cbn; try apply eps_le_refl; [apply (inv_keys _ _ _ Hi) |].
    apply (inv_nonces _ _ _ Hi1).
  - destruct (w_locked w) eqn:El; [| done]. injection E as <-.
    apply inv_session with ks; try done; cbn; try apply eps_le_refl; [apply (inv_keys _ _ _ Hi) | |].
    + apply (inv_nonces _ _ _ Hi1).
    + apply (inv_ptr _ _ _ Hi).
Qed.

Lemma run_inv acts ks steps w w' :
  inv ks steps w → ks ≠ [] → steps + len acts < 2 ^ 64 → Forall rnd_ok acts → run w acts = Some w' →
  inv (ks ++ rekey_keys acts) (steps + len acts) w'.
Proof.
  revert ks steps w. induction acts as [| a acts IH]; intros ks steps w Hi Hne Hb Hr E.
  - injection E as <-. cbn. by rewrite app_nil_r, len_nil, Z.add_0_r.
  - rewrite len_cons in Hb |- *. pose proof (len_nonneg acts). cbn [run] in E.
    destruct (step w a) as [w1 |] eqn:E1; [| done]. apply Forall_cons_1 in Hr as [Hra Hr].
    apply step_inv with (ks := ks) (steps := steps) in E1; try done; [| lia].
    apply IH with (ks := keys_after ks a) (steps := steps + 1) in E; try done; try lia.
    + replace (steps + (1 + len acts)) with (steps + 1 + len acts) by lia.
      replace (ks ++ rekey_keys (a :: acts)) with (keys_after ks a ++ rekey_keys acts); [done |].
      unfold keys_after, rekey_keys. rewrite <- app_assoc, <- omap_app. done.
    + unfold keys_after. destruct ks; done.
Qed.

Lemma start_inv s pools : fresh_session s → pools_wf pools → inv [SendKey s] 0 (start s pools).
Proof.
  intros [Hd [[He Hp] | [He Hp]]] Hw.
  all: split; cbn [start w_session w_threads w_locked w_emitted w_pools]; rewrite ?He, ?Hp; try done; try lia.
  - apply sublist_nil_l.
  - intros _ _. by left.
  - constructor.
  - by repeat constructor.
  - intros p [= <-]. cbn. lia.
  - intros _ _. by left.
  - constructor.
Qed.

(** With pairwise distinct keys, distinct tickets are distinct (key, nonce) pairs. *)
Lemma counter_uses_nodup ks steps w :
  inv ks steps w → NoDup ks → steps < 2 ^ 64 → NoDup (counter_uses w).
Proof.
  intros Hi Hks Hb. pose proof (inv_nodup _ _ _ Hi) as Hnd. pose proof (inv_emitted _ _ _ Hi) as Hem.
  pose proof (sublist_NoDup _ _ Hks (inv_keys _ _ _ Hi)) as Hkeys.
  unfold counter_uses, tickets_emitted in *.
  induction (w_emitted w) as [| e em IH]; [constructor |].
  apply Forall_cons_1 in Hem as [He Hem]. cbn in Hnd |- *.
  destruct (em_ctr e) as [[p n] |] eqn:Ec; [| by apply IH].
  apply NoDup_cons in Hnd as [Hnot Hnd]. constructor; [| by apply IH].
  intros (e' & He' & Eq)%list_elem_of_omap. apply Hnot. apply list_elem_of_omap.
  exists e'. split; [done |].
  destruct (em_ctr e') as [[p' n'] |] eqn:Ec'; [| done]. injection Eq as Ek En.
  destruct He as (_ & _ & Hok). rewrite Ec in Hok. destruct Hok as [(ep & Hep & Hg & Hn) Hne].
  destruct (proj1 (Forall_forall _ _) Hem e' He') as (_ & _ & Hok'). rewrite Ec' in Hok'.
  destruct Hok' as [(ep' & Hep' & Hg' & Hn') Hne'].
  pose proof (Forall_lookup_1 _ _ _ _ (inv_nonces _ _ _ Hi) Hep) as Hr.
  pose proof (Forall_lookup_1 _ _ _ _ (inv_nonces _ _ _ Hi) Hep') as Hr'. cbn in Hr, Hr'.
  assert (n' = n) as -> by (apply nonce_bytes_inj; try lia; congruence).
  assert (p' = p) as ->; [| done].
  apply (NoDup_lookup _ p' p (em_key e) Hkeys).
  - by rewrite list_lookup_fmap, Hep', <- Ek, <- Hg'.
  - by rewrite list_lookup_fmap, Hep, <- Hg.
Qed.

(** C3: no nonce reuse.  Under every interleaving of encrypting goroutines with
    rekeys, epoch initialisation and destruction, no two frames sealed by
    counter nonce use the same key with the same nonce, provided the keys
    installed are pairwise different (and the run is shorter than the 64-bit
    counter). *)
Theorem nonce_never_reused s pools acts w :
  fresh_session s → pools_wf pools → Forall rnd_ok acts → len acts < 2 ^ 64 →
  NoDup (SendKey s :: rekey_keys acts) → run (start s pools) acts = Some w →
  NoDup (counter_uses w).
Proof.
  intros Hf Hp Hr Hl Hk E.
  apply run_inv with (ks := [SendKey s]) (steps := 0) in E; try done; [| by apply start_inv].
  by eapply counter_uses_nodup.
Qed.

(** No frame under a zeroed key.  Under every interleaving, whatever races
    with the teardown of the session, each frame handed out is the encryption
    of its chunk under a send key that was installed at creation or by a rekey;
    a goroutine that reaches the key after it was zeroed gets an error. *)
Theorem frames_only_under_installed_keys s pools acts w e :
  fresh_session s → pools_wf pools → Forall rnd_ok acts → len acts < 2 ^ 64 →
  run (start s pools) acts = Some w → e ∈ w_emitted w →
  em_key e ∈ SendKey s :: rekey_keys acts ∧ em_wire e = wire (em_key e) (em_nonce e) (em_chunk e).
Proof.
  intros Hf Hp Hr Hl E He.
  apply run_inv with (ks := [SendKey s]) (steps := 0) in E; try done; [| by apply start_inv].
  destruct (proj1 (Forall_forall _ _) (inv_emitted _ _ _ E) e He) as (Hk & Hw & _). done.
Qed.

(** A goroutine that runs [EncryptChunk] alone, step by step, hands out the
    same frame and leaves the same session as the sequential [EncryptChunk]. *)
Theorem encrypt_steps_sequential s pools ths em t c nonce out pools' s' :
  session_wf s → ths !! t = None →
  EncryptChunk pools s c (Some nonce) = Ret (out, pools', s') →
  ∃ w', run (mkWorld s false pools ths em) (ASpawn t c :: replicate 4 (ATick t (Some nonce))) = Some w'
    ∧ w_session w' = s' ∧ w_pools w' = pools' ∧ w_threads w' !! t = Some (TDone (Ret out)).
Proof.
  intros Hw Ht E. unfold EncryptChunk in E. destruct (destroyed s) eqn:Ed; [done |].
  cbn -[insert lookup EncryptWith Encrypt]. rewrite Ht. cbn -[insert lookup EncryptWith Encrypt].
  rewrite lookup_insert_eq. cbn -[insert lookup EncryptWith Encrypt]. rewrite Ed.
  rewrite lookup_insert_eq. cbn -[insert lookup EncryptWith Encrypt].
  destruct (sendEpochPtr s) as [p |] eqn:Ep.
  - destruct (epoch_fetch_add (epochs s) p) as [[[gcm n] eps] |] eqn:Ea; [| done].
    rewrite lookup_insert_eq. cbn -[insert lookup EncryptWith Encrypt]. rewrite Ea.
    destruct (EncryptWith pools c gcm n) as [[o q] | |] eqn:Ee; try done. injection E as <- <- <-.
    cbn -[insert lookup EncryptWith]. rewrite lookup_insert_eq. cbn -[insert lookup EncryptWith].
    rewrite Ee. eexists. split; [done |]. cbn. rewrite lookup_insert_eq, Ep. done.
  - destruct (Encrypt c (SendKey s) (Some nonce)) as [o | |] eqn:Ee; try done. injection E as <- <- <-.
    rewrite lookup_insert_eq. cbn -[insert lookup EncryptWith Encrypt]. rewrite Ed.
    rewrite lookup_insert_eq. cbn -[insert lookup EncryptWith Encrypt]. rewrite Ee.
    eexists. split; [done |]. cbn. by rewrite lookup_insert_eq.
Qed.

End conc.

(** ** Witnesses *)

(** Two goroutines race with a rekey and a teardown: the first loads the old
    epoch before the rekey and seals after it, the second reads the key too
    late. *)
Definition race : list action :=
  [ASpawn 0 (NewDataChunk 1 0 [5]); ATick 0 None; AInitSendEpoch; ATick 0 None;
   ASpawn 1 (NewDataChunk 1 1 [6]); ATick 1 None; ARekey key_b key_a 7; ATick 0 None;
   ADestroyZero; ATick 1 None; ATick 0 None; ADestroyLatch; ATick 1 None].

Definition race_session : Session := NewSession 1 key_a key_b 0 None.

Lemma race_fresh : fresh_session race_session.
Proof. split; [done |]. by left. Qed.

Lemma race_keys_nodup : NoDup (SendKey race_session :: rekey_keys race).
Proof. apply (bool_decide_unpack _). vm_compute. exact I. Qed.

Lemma race_rnd_ok : Forall rnd_ok race.
Proof. repeat constructor. Qed.

Definition race_end : world :=
  match @run Toy.toy_aead (start race_session empty_pools) race with
  | Some w => w
  | None => start race_session empty_pools
  end.

Lemma race_runs : @run Toy.toy_aead (start race_session empty_pools) race = Some race_end.
Proof. vm_compute. reflexivity. Qed.

Lemma nonce_never_reused_witness :
  length (w_emitted race_end) = 1%nat ∧ NoDup (counter_uses race_end).
Proof.
  split; [vm_compute; reflexivity |].
  apply (@nonce_never_reused Toy.toy_aead race_session empty_pools race race_end).
  - apply race_fresh.
  - apply empty_pools_wf.
  - apply race_rnd_ok.
  - vm_compute. reflexivity.
  - apply race_keys_nodup.
  - apply race_runs.
Defined.

Lemma frames_only_under_installed_keys_witness :
  ∃ e, w_emitted race_end = [e] ∧ em_key e ∈ [key_a; key_b].
Proof.
  eexists. split; [vm_compute; reflexivity |].
  refine (proj1 (@frames_only_under_installed_keys Toy.toy_aead race_session
    empty_pools race race_end _ _ _ _ _ _ _)).
  - apply race_fresh.
  - apply empty_pools_wf.
  - apply race_rnd_ok.
  - vm_compute. reflexivity.
  - apply race_runs.
  - vm_compute. left.
Defined.

Lemma encrypt_steps_sequential_witness :
  ∃ out pools' s', @EncryptChunk Toy.toy_aead empty_pools race_session (NewDataChunk 1 0 [5]) (Some nonce_a)
    = Ret (out, pools', s')
  ∧ ∃ w', @run Toy.toy_aead (start race_session empty_pools)
        (ASpawn 0 (NewDataChunk 1 0 [5]) :: replicate 4 (ATick 0 (Some nonce_a))) = Some w'
    ∧ w_session w' = s' ∧ w_pools w' = pools' ∧ w_threads w' !! 0%nat = Some (TDone (Ret out)).
Proof.
  eexists _, _, _. split; [vm_compute; reflexivity |].
  apply (@encrypt_steps_sequential Toy.toy_aead race_session empty_pools ∅ [] 0 (NewDataChunk 1 0 [5]) nonce_a).
  - apply NewSession_wf.
  - reflexivity.
  - vm_compute. reflexivity.
Defined.
