(* ===== verification/SessionManager.v ===== *)
(** * Session manager ([core/session.go], [SessionManager])

    Session objects live in a heap and the manager maps ids to pointers: a
    transport that holds a [*Session] after it was removed still sees that
    object, destroyed.  The two-phase sweeps release the lock between their
    windows; [env i] is whatever the other goroutines do to the manager before
    the [i]-th window. *)

From S2P Require Import Prelude.
From S2P Require Import Primitives.
From S2P Require Import BufPool.
From S2P Require Import Chunk.
From S2P Require Import ReplayWindow.
From S2P Require Import Session.
From stdpp Require Import base list gmap strings fin_maps.

#[local] Open Scope Z_scope.

Record SessionManager := mkSM {
  sm_heap : gmap nat Session;       (* every allocated session object *)
  sm_sessions : gmap Z nat;         (* [sessions]: id to pointer *)
  sm_timeout : Z;
  sm_nextID : Z;
}.

Definition set_maps (sm : SessionManager) (h : gmap nat Session) (m : gmap Z nat) : SessionManager :=
  mkSM h m (sm_timeout sm) (sm_nextID sm).

(** [rnd]: the four bytes of [rand.Read]; its failure panics at start-up. *)
Definition NewSessionManager (timeout : Z) (rnd : option bytes) : outcome SessionManager :=
  match rnd with
  | None => Panic
  | Some buf => id0 ← get_be 4 buf 0 4; Ret (mkSM ∅ ∅ timeout id0)
  end.

(** [*Session] dereference through the id map. *)
Definition session_at (sm : SessionManager) (id : Z) : option Session :=
  p ← sm_sessions sm !! id; sm_heap sm !! p.

Definition nextID_add (n : Z) : Z :=
  let id := u32 (n + 1) in if id =? 0 then u32 (id + 1) else id.

(** [Create] returns the pointer of the new session. *)
Definition Create (sm : SessionManager) (sendKey recvKey : bytes) (now : Z) (rnd : option bytes)
  : outcome (nat * SessionManager) :=
  sendGCM ← newGCM sendKey;
  recvGCM ← newGCM recvKey;
  let id := nextID_add (sm_nextID sm) in
  let s := set_recv_gcm (set_epochs (NewSession id sendKey recvKey now rnd)
                           [mkEpoch sendGCM 0] (Some 0%nat)) (Some recvGCM) in
  let p := fresh (dom (sm_heap sm)) in
  Ret (p, mkSM (<[p := s]> (sm_heap sm)) (<[id := p]> (sm_sessions sm)) (sm_timeout sm) id).

Definition Get (sm : SessionManager) (id : Z) : option nat := sm_sessions sm !! id.

(** [s.mu.Lock(); s.zeroKeyMaterialLocked(); s.mu.Unlock(); delete(sm.sessions, id)] *)
Definition destroy_and_delete (sm : SessionManager) (id : Z) (p : nat) : SessionManager :=
  set_maps sm (alter zeroKeyMaterialLocked p (sm_heap sm)) (delete id (sm_sessions sm)).

Definition Remove (sm : SessionManager) (id : Z) : SessionManager :=
  match sm_sessions sm !! id with
  | Some p => destroy_and_delete sm id p
  | None => sm
  end.

Definition set_detached (sm : SessionManager) (p : nat) (det : Z) : SessionManager :=
  set_maps sm (alter (λ s, set_attach s (AttachedAt s) det) p (sm_heap sm)) (sm_sessions sm).

Definition ReattachClearDetached (sm : SessionManager) (id : Z) : bool * SessionManager :=
  match sm_sessions sm !! id with
  | None => (false, sm)
  | Some p => (true, set_detached sm p 0)
  end.

(** [for id, s := range sm.sessions]: every entry once, in some order. *)
Definition session_list (sm : SessionManager) : list (Z * nat) := map_to_list (sm_sessions sm).

Definition cleanup_one (now : Z) (acc : nat * SessionManager) (e : Z * nat) : nat * SessionManager :=
  let '(count, sm) := acc in
  match sm_heap sm !! e.2 with
  | Some s =>
    let '(expired, s') := isExpiredAndDestroy s now (sm_timeout sm) in
    if expired
    then (S count, set_maps sm (<[e.2 := s']> (sm_heap sm)) (delete e.1 (sm_sessions sm)))
    else (count, sm)
  | None => (count, sm)
  end.

Definition Cleanup (sm : SessionManager) (now : Z) : nat * SessionManager :=
  foldl (cleanup_one now) (0%nat, sm) (session_list sm).

(** ** [CleanupNewbornOrphans] *)

Definition newborn_orphan (now maxAge : Z) (s : Session) : bool :=
  negb (negb (AttachedAt s =? 0) || (now - CreatedAt s <=? maxAge)).

Definition newborn_candidates (sm : SessionManager) (now maxAge : Z) : list Z :=
  omap (λ e, match sm_heap sm !! e.2 with
             | Some s =>
               if negb (AttachedAt s =? 0) then None
               else if now - CreatedAt s <=? maxAge then None
               else Some e.1
             | None => None
             end) (session_list sm).

(** One write-lock window of a sweep: re-validate, zero, delete. *)
Definition evict_window (ok : Session → bool) (sm : SessionManager) (id : Z) : bool * SessionManager :=
  match sm_sessions sm !! id with
  | None => (false, sm)
  | Some p =>
    match sm_heap sm !! p with
    | None => (false, sm)
    | Some s => if ok s then (true, destroy_and_delete sm id p) else (false, sm)
    end
  end.

(** The windows one after the other, with interference in between; [gate] is
    consulted (outside the lock, on the state of that moment) first. *)
Fixpoint sweep (ok : Session → bool) (gate : SessionManager → Z → bool)
    (env : nat → SessionManager → SessionManager) (i : nat)
    (sm : SessionManager) (ids : list Z) : list Z * SessionManager :=
  match ids with
  | [] => ([], sm)
  | id :: ids' =>
    let sm1 := env (2 * i)%nat sm in
    let sm2 := env (2 * i + 1)%nat sm1 in
    if gate sm1 id then
      let '(ev, sm3) := evict_window ok sm2 id in
      let '(evs, sm4) := sweep ok gate env (S i) sm3 ids' in
      (if ev then id :: evs else evs, sm4)
    else sweep ok gate env (S i) sm2 ids'
  end.

Definition CleanupNewbornOrphans (env : nat → SessionManager → SessionManager)
    (sm : SessionManager) (now maxAge : Z) : list Z * SessionManager :=
  sweep (newborn_orphan now maxAge) (λ _ _, true) env 0 sm (newborn_candidates sm now maxAge).

(** ** [CleanupDetachedGhosts] *)

Definition detached_ghost (now grace : Z) (s : Session) : bool :=
  negb ((AttachedAt s =? 0) || (DetachedAt s =? 0) || (now - DetachedAt s <=? grace)).

(** A [nil] gate lets everything through. *)
Definition gate_of (gate : option (SessionManager → Z → bool)) (sm : SessionManager) (id : Z) : bool :=
  match gate with Some g => g sm id | None => true end.

Definition ghost_candidates (gate : option (SessionManager → Z → bool)) (sm : SessionManager)
    (now grace : Z) : list Z :=
  omap (λ e, match sm_heap sm !! e.2 with
             | Some s =>
               if AttachedAt s =? 0 then None
               else if DetachedAt s =? 0 then None
               else if now - DetachedAt s <=? grace then None
               else if negb (gate_of gate sm e.1) then None
               else Some e.1
             | None => None
             end) (session_list sm).

Definition CleanupDetachedGhosts (gate : option (SessionManager → Z → bool))
    (env : nat → SessionManager → SessionManager)
    (sm : SessionManager) (now grace : Z) : list Z * SessionManager :=
  sweep (detached_ghost now grace) (gate_of gate) env 0 sm (ghost_candidates gate sm now grace).

Definition Count (sm : SessionManager) : nat := size (sm_sessions sm).

(** [ForEach]: the callback's first [true] ends the iteration. *)
Fixpoint ForEach_list {A} (fn : A → Session → A * bool) (acc : A) (h : gmap nat Session)
    (l : list (Z * nat)) : A :=
  match l with
  | [] => acc
  | e :: l' =>
    match h !! e.2 with
    | Some s => let '(acc', stop) := fn acc s in if stop then acc' else ForEach_list fn acc' h l'
    | None => ForEach_list fn acc h l'
    end
  end.
Definition ForEach {A} (fn : A → Session → A * bool) (acc : A) (sm : SessionManager) : A :=
  ForEach_list fn acc (sm_heap sm) (session_list sm).

(** ** Invariant: the map holds live sessions under their own ids *)

Definition registered (sm : SessionManager) (id : Z) (p : nat) (s : Session) : Prop :=
  sm_sessions sm !! id = Some p ∧ sm_heap sm !! p = Some s.

Record sm_wf (sm : SessionManager) : Prop := {
  smwf_entry id p : sm_sessions sm !! id = Some p →
    ∃ s, sm_heap sm !! p = Some s ∧ ID s = id ∧ alive s ∧ session_wf s ∧ 0 < id < 2 ^ 32;
  smwf_next : 0 ≤ sm_nextID sm < 2 ^ 32;
}.

Lemma smwf_inj sm id id' p :
  sm_wf sm → sm_sessions sm !! id = Some p → sm_sessions sm !! id' = Some p → id = id'.
Proof.
  intros Hw H H'. destruct (smwf_entry sm Hw _ _ H) as (s & Hs & <- & _).
  destruct (smwf_entry sm Hw _ _ H') as (s' & Hs' & <- & _). congruence.
Qed.

Lemma nextID_add_eq n : 0 ≤ n < 2 ^ 32 → nextID_add n = n mod (2 ^ 32 - 1) + 1.
Proof.
  intros Hn. unfold nextID_add, u32. destruct (decide (n = 2 ^ 32 - 1)) as [-> | Hne].
  - vm_compute. reflexivity.
  - rewrite (Z.mod_small (n + 1)) by lia. rewrite (Z.mod_small n) by lia. by zcases.
Qed.

Lemma nextID_add_range n : 0 ≤ n < 2 ^ 32 → 0 < nextID_add n < 2 ^ 32.
Proof.
  intros Hn. rewrite nextID_add_eq by done.
  pose proof (Z.mod_pos_bound n (2 ^ 32 - 1) ltac:(lia)). lia.
Qed.

Lemma get_be4_range buf lo hi v : is_bytes buf → get_be 4 buf lo hi = Ret v → 0 ≤ v < 2 ^ 32.
Proof.
  intros Hb. unfold get_be. destruct (slice buf lo hi) as [s | |] eqn:E; try done. ostep.
  zcases; [| done]. intros [= <-].
  assert (is_bytes (take 4 s)) as Hs.
  { unfold slice in E. case_match; [| done]. injection E as <-.
    apply is_bytes_take, is_bytes_take, is_bytes_drop. done. }
  apply be_value_range in Hs. rewrite len_take in Hs.
  replace (Z.of_nat 4 `min` len s) with 4 in Hs by lia. done.
Qed.

Lemma NewSessionManager_wf timeout buf sm :
  is_bytes buf → NewSessionManager timeout (Some buf) = Ret sm → sm_wf sm.
Proof.
  intros Hb. cbn. destruct (get_be 4 buf 0 4) as [v | |] eqn:E; try done. intros [= <-].
  split; [done |]. cbn. by eapply get_be4_range.
Qed.

Lemma Create_eq sm sk rk now rnd p sm' :
  Create sm sk rk now rnd = Ret (p, sm') →
  ∃ s, sm_heap sm !! p = None ∧ sm_nextID sm' = nextID_add (sm_nextID sm)
    ∧ sm_heap sm' = <[p := s]> (sm_heap sm)
    ∧ sm_sessions sm' = <[sm_nextID sm' := p]> (sm_sessions sm)
    ∧ ID s = sm_nextID sm' ∧ alive s ∧ SendKey s = sk ∧ RecvKey s = rk ∧ session_wf s
    ∧ sendEpochPtr s = Some 0%nat ∧ epochs s = [mkEpoch sk 0] ∧ recvGCM s = Some rk
    ∧ recvWindow s = window0 ∧ sendSeq s = 0.
Proof.
  unfold Create. destruct (newGCM_cases sk) as [-> | [e ->]]; [| done].
  destruct (newGCM_cases rk) as [Erk | [e ->]]; [rewrite Erk | done]. ostep.
  intros [= <- <-]. eexists. split; [apply not_elem_of_dom, is_fresh |].
  split; [done |]. split; [done |]. split_and!; try done. split; cbn; try done.
  - intros p [= <-]. by exists 0.
  - by repeat constructor.
  - intros g [= <-]. done.
Qed.

Lemma Create_wf sm sk rk now rnd p sm' :
  sm_wf sm → Create sm sk rk now rnd = Ret (p, sm') → sm_wf sm'.
Proof.
  intros Hw E. apply Create_eq in E as (s & Hp & Hn & Hh & Hm & Hid & Ha & _ & _ & Hs & _).
  pose proof (nextID_add_range _ (smwf_next sm Hw)) as Hr.
  split; [| rewrite Hn; lia]. intros id q. rewrite Hm, Hh.
  rewrite lookup_insert_Some. intros [[<- <-] | [Hne Hq]].
  - exists s. rewrite lookup_insert_eq, Hid, Hn. by split_and!; try done; lia.
  - destruct (smwf_entry sm Hw id q Hq) as (s' & Hs' & ?). exists s'.
    rewrite lookup_insert_ne by congruence. done.
Qed.

Lemma destroy_and_delete_wf sm id p :
  sm_wf sm → sm_sessions sm !! id = Some p → sm_wf (destroy_and_delete sm id p).
Proof.
  intros Hw Hp. split; [| apply (smwf_next sm Hw)]. cbn. intros id' q.
  rewrite lookup_delete_Some. intros [Hne Hq].
  destruct (smwf_entry sm Hw id' q Hq) as (s & Hs & ?). exists s.
  rewrite lookup_alter_ne; [done |]. intros <-. apply Hne. by eapply smwf_inj.
Qed.

Lemma set_detached_wf sm p det : sm_wf sm → sm_wf (set_detached sm p det).
Proof.
  intros Hw. split; [| apply (smwf_next sm Hw)]. cbn. intros id q Hq.
  destruct (smwf_entry sm Hw id q Hq) as (s & Hs & Hid & Ha & Hsw & Hr).
  destruct (decide (p = q)) as [<- | Hne].
  - exists (set_attach s (AttachedAt s) det). rewrite lookup_alter_eq, Hs.
    split_and!; try done; try lia. by apply set_attach_wf.
  - exists s. by rewrite lookup_alter_ne.
Qed.

Lemma session_at_Some sm id s : session_at sm id = Some s ↔ ∃ p, registered sm id p s.
Proof. unfold session_at, registered. rewrite bind_Some. done. Qed.

Lemma session_at_destroy sm id p id' :
  sm_wf sm → sm_sessions sm !! id = Some p →
  session_at (destroy_and_delete sm id p) id' = if decide (id' = id) then None else session_at sm id'.
Proof.
  intros Hw Hp. unfold session_at. cbn. case_decide as E.
  - by rewrite E, lookup_delete_eq.
  - rewrite lookup_delete_ne by done. destruct (sm_sessions sm !! id') as [q |] eqn:Hq; [| done]. cbn.
    rewrite lookup_alter_ne; [done |]. intros <-. apply E. by eapply smwf_inj.
Qed.

(** ** Sweeps *)

Lemma evict_window_cases ok sm id ev sm' :
  evict_window ok sm id = (ev, sm') →
  (ev = false ∧ sm' = sm ∧ (∀ s, session_at sm id = Some s → ok s = false))
  ∨ (ev = true ∧ ∃ p s, registered sm id p s ∧ ok s = true ∧ sm' = destroy_and_delete sm id p).
Proof.
  unfold evict_window, session_at, registered. destruct (sm_sessions sm !! id) as [p |] eqn:Ep; cbn.
  - destruct (sm_heap sm !! p) as [s |] eqn:Es; [destruct (ok s) eqn:Eo |]; intros [= <- <-].
    + right. split; [done |]. exists p, s. by split_and!.
    + left. split_and!; try done. naive_solver.
    + by left.
  - intros [= <- <-]. by left.
Qed.

(** Every eviction happens in a window where the session, as it is at that
    moment, passes the test, and the gate was open just before. *)
Lemma sweep_sound ok gate env ids i sm id :
  id ∈ fst (sweep ok gate env i sm ids) →
  ∃ j sm1 s, gate sm1 id = true ∧ session_at (env (2 * j + 1)%nat sm1) id = Some s ∧ ok s = true.
Proof.
  revert i sm. induction ids as [| x ids IH]; intros i sm; cbn [sweep].
  { intros H. by apply not_elem_of_nil in H. }
  destruct (gate (env (2 * i)%nat sm) x) eqn:Eg; [| apply IH].
  destruct (evict_window ok (env (2 * i + 1)%nat (env (2 * i)%nat sm)) x) as [ev sm3] eqn:Ew.
  specialize (IH (S i) sm3). destruct (sweep ok gate env (S i) sm3 ids) as [evs sm4]. cbn in IH |- *.
  apply evict_window_cases in Ew as [(-> & _) | (-> & p & s & Hreg & Hok & _)]; [apply IH |].
  intros [-> | Hin]%elem_of_cons; [| by apply IH].
  exists i, (env (2 * i)%nat sm), s. split_and!; try done. apply session_at_Some. by exists p.
Qed.

(** Once destroyed, a session object stays destroyed through a sweep. *)
Definition object_destroyed (sm : SessionManager) (p : nat) : Prop :=
  ∃ s, sm_heap sm !! p = Some s ∧ destroyed s = true.

Lemma destroy_object_destroyed sm id p q :
  object_destroyed sm q → object_destroyed (destroy_and_delete sm id p) q.
Proof.
  intros (s & Hs & Hd). destruct (decide (p = q)) as [<- | Hne].
  - exists (zeroKeyMaterialLocked s). cbn. by rewrite lookup_alter_eq, Hs.
  - exists s. cbn. by rewrite lookup_alter_ne.
Qed.

Lemma destroy_destroys sm id p s :
  registered sm id p s → object_destroyed (destroy_and_delete sm id p) p.
Proof.
  intros [_ Hs]. exists (zeroKeyMaterialLocked s). cbn. by rewrite lookup_alter_eq, Hs.
Qed.

Lemma sweep_keeps_destroyed ok gate ids i sm q :
  object_destroyed sm q →
  object_destroyed (snd (sweep ok gate (λ _ sm, sm) i sm ids)) q.
Proof.
  revert i sm. induction ids as [| x ids IH]; intros i sm H; cbn [sweep]; [done |].
  destruct (gate sm x); [| by apply IH].
  destruct (evict_window ok sm x) as [ev sm3] eqn:Ew.
  assert (object_destroyed sm3 q) as H3.
  { apply evict_window_cases in Ew as [(_ & -> & _) | (_ & p & s & _ & _ & ->)]; [done |].
    by apply destroy_object_destroyed. }
  specialize (IH (S i) sm3 H3). by destruct (sweep _ _ _ _ sm3 _).
Qed.

(** Without interference a sweep evicts exactly the listed sessions that pass
    the test and leaves every other entry alone. *)
Lemma sweep_exact ok gate ids i sm evs sm' :
  sm_wf sm → NoDup ids → sweep ok (λ _, gate) (λ _ sm, sm) i sm ids = (evs, sm') →
  sm_wf sm'
  ∧ (∀ id, id ∈ evs ↔ id ∈ ids ∧ gate id = true ∧ ∃ s, session_at sm id = Some s ∧ ok s = true)
  ∧ (∀ id, session_at sm' id = if decide (id ∈ evs) then None else session_at sm id)
  ∧ (∀ id p s, id ∈ evs → registered sm id p s → object_destroyed sm' p).
Proof.
  revert i sm evs. induction ids as [| x ids IH]; intros i sm evs Hw Hnd E; cbn [sweep] in E.
  { injection E as <- <-. split; [done |]. set_solver. }
  apply NoDup_cons in Hnd as [Hx Hnd].
  destruct (gate x) eqn:Eg.
  2: { destruct (IH _ _ _ Hw Hnd E) as (? & Hin & ? & ?). split_and!; try done.
       intros id. rewrite Hin, elem_of_cons. split; [tauto |].
       intros ([-> | Hid] & Hg & Hs); [congruence | tauto]. }
  destruct (evict_window ok sm x) as [ev sm3] eqn:Ew.
  destruct (sweep ok (λ _, gate) (λ _ sm, sm) (S i) sm3 ids) as [evs' sm4] eqn:Es.
  injection E as <- <-.
  apply evict_window_cases in Ew as [(-> & -> & Hno) | (-> & p & s & Hreg & Hok & ->)].
  - destruct (IH _ _ _ Hw Hnd Es) as (? & Hin & ? & ?). split_and!; try done.
    intros id. rewrite Hin, elem_of_cons. split; [tauto |].
    intros ([-> | Hid] & Hg & s & Hs & Hok); [| by eauto]. by rewrite (Hno s Hs) in Hok.
  - pose proof (destroy_and_delete_wf sm x p Hw (proj1 Hreg)) as Hw3.
    pose proof (session_at_destroy sm x p) as Hat.
    destruct (IH _ _ _ Hw3 Hnd Es) as (Hw4 & Hin & Hat4 & Hdes).
    assert (x ∉ evs') as Hx' by (rewrite Hin; tauto).
    split_and!; try done.
    + intros id. rewrite !elem_of_cons, Hin, Hat by (done || apply Hreg). case_decide as Ed.
      * subst id. split; [| by left]. intros _. split_and!; [by left | done |].
        exists s. split; [| done]. apply session_at_Some. by exists p.
      * tauto.
    + intros id. rewrite Hat4, Hat by (done || apply Hreg).
      repeat case_decide; set_solver.
    + intros id q s1 Hid Hq. apply elem_of_cons in Hid as [-> | Hid].
      * assert (q = p) as -> by (destruct Hreg, Hq; congruence).
        pose proof (sweep_keeps_destroyed ok (λ _, gate) ids (S i) _ p (destroy_destroys _ _ _ _ Hreg)) as Hk.
        by rewrite Es in Hk.
      * apply (Hdes id q s1 Hid). destruct Hq as [Hq Hs1]. split; cbn.
        -- rewrite lookup_delete_ne; [done |]. intros <-. done.
        -- rewrite lookup_alter_ne; [done |]. intros <-. apply Hx'.
           by rewrite (smwf_inj sm x id p Hw (proj1 Hreg) Hq).
Qed.

Lemma elem_of_omap_sessions (f : Z * nat → option Z) sm id :
  (∀ e x, f e = Some x → x = e.1) →
  id ∈ omap f (session_list sm) ↔ ∃ p, sm_sessions sm !! id = Some p ∧ f (id, p) = Some id.
Proof.
  intros Hf. rewrite list_elem_of_omap. split.
  - intros ([x p] & Hin & E). pose proof (Hf _ _ E) as ->. exists p.
    split; [by apply elem_of_map_to_list | done].
  - intros (p & Hp & E). exists (id, p). split; [by apply elem_of_map_to_list | done].
Qed.

Lemma NoDup_omap_sessions (f : Z * nat → option Z) sm :
  (∀ e x, f e = Some x → x = e.1) → NoDup (omap f (session_list sm)).
Proof.
  intros Hf. pose proof (NoDup_fst_map_to_list (sm_sessions sm)) as Hnd. fold (session_list sm) in Hnd.
  induction (session_list sm) as [| e l IH]; [constructor |]. cbn in Hnd |- *.
  apply NoDup_cons in Hnd as [Hne Hnd]. destruct (f e) as [x |] eqn:E; [| by apply IH].
  constructor; [| by apply IH]. intros (e' & He' & E')%list_elem_of_omap.
  apply Hne. rewrite <- (Hf _ _ E), (Hf _ _ E'). by apply list_elem_of_fmap_2.
Qed.

Lemma newborn_candidates_spec sm now maxAge id :
  id ∈ newborn_candidates sm now maxAge
  ↔ ∃ s, session_at sm id = Some s ∧ newborn_orphan now maxAge s = true.
Proof.
  unfold newborn_candidates. rewrite elem_of_omap_sessions by (intros e x; repeat case_match; naive_solver).
  unfold session_at, newborn_orphan. cbn. split.
  - intros (p & Hp & E). rewrite Hp. cbn. destruct (sm_heap sm !! p) as [s |]; [| done].
    exists s. split; [done |]. destruct (AttachedAt s =? 0), (now - CreatedAt s <=? maxAge); done.
  - intros (s & Hs & E). destruct (sm_sessions sm !! id) as [p |]; [| done]. cbn in Hs. exists p.
    split; [done |]. rewrite Hs. destruct (AttachedAt s =? 0), (now - CreatedAt s <=? maxAge); done.
Qed.

Lemma newborn_candidates_nodup sm now maxAge : NoDup (newborn_candidates sm now maxAge).
Proof. apply NoDup_omap_sessions. intros e x. repeat case_match; naive_solver. Qed.

Lemma ghost_candidates_spec gate sm now grace id :
  id ∈ ghost_candidates gate sm now grace
  ↔ gate_of gate sm id = true ∧ ∃ s, session_at sm id = Some s ∧ detached_ghost now grace s = true.
Proof.
  unfold ghost_candidates. rewrite elem_of_omap_sessions by (intros e x; repeat case_match; naive_solver).
  unfold session_at, detached_ghost. cbn. split.
  - intros (p & Hp & E). rewrite Hp. cbn. destruct (sm_heap sm !! p) as [s |]; [| done].
    destruct (AttachedAt s =? 0) eqn:E1, (DetachedAt s =? 0) eqn:E2, (now - DetachedAt s <=? grace) eqn:E3,
      (gate_of gate sm id); try done. split; [done |]. exists s. by rewrite E1, E2, E3.
  - intros (Hg & s & Hs & E). destruct (sm_sessions sm !! id) as [p |]; [| done]. cbn in Hs. exists p.
    split; [done |]. rewrite Hs, Hg.
    by destruct (AttachedAt s =? 0), (DetachedAt s =? 0), (now - DetachedAt s <=? grace).
Qed.

Lemma ghost_candidates_nodup gate sm now grace : NoDup (ghost_candidates gate sm now grace).
Proof. apply NoDup_omap_sessions. intros e x. repeat case_match; naive_solver. Qed.

(** [Cleanup] as a sweep of the idle-timeout test over all ids. *)
Lemma cleanup_is_sweep now sm l n i :
  sm_wf sm → NoDup l.*1 → (∀ e, e ∈ l → sm_sessions sm !! e.1 = Some e.2) →
  let r := sweep (λ s, IsExpired s now (sm_timeout sm)) (λ _ _, true) (λ _ sm, sm) i sm l.*1 in
  foldl (cleanup_one now) (n, sm) l = ((n + length (fst r))%nat, snd r).
Proof.
  revert sm n i. induction l as [| [id p] l IH]; intros sm n i Hw Hnd Hl.
  { cbn. f_equal. lia. }
  rewrite fmap_cons in Hnd |- *. cbn [foldl sweep fst]. apply NoDup_cons in Hnd as [Hid Hnd].
  pose proof (Hl (id, p) ltac:(by left)) as Hp. cbn in Hp.
  destruct (smwf_entry sm Hw id p Hp) as (s & Hs & _).
  unfold cleanup_one at 2, evict_window, isExpiredAndDestroy, IsExpired. cbn [fst snd].
  rewrite Hp, Hs. rewrite Z.leb_antisym. destruct (sm_timeout sm <? now - lastActivity s); cbn [negb].
  - assert (set_maps sm (<[p:=zeroKeyMaterialLocked s]> (sm_heap sm)) (delete id (sm_sessions sm))
      = destroy_and_delete sm id p) as ->.
    { unfold destroy_and_delete. f_equal. apply map_eq. intros q. destruct (decide (p = q)) as [<- | ?].
      - by rewrite lookup_insert_eq, lookup_alter_eq, Hs.
      - by rewrite lookup_insert_ne, lookup_alter_ne. }
    rewrite (IH _ _ (S i)).
    + cbn [sm_timeout destroy_and_delete set_maps].
      destruct (sweep _ _ _ (S i) (destroy_and_delete sm id p) _) as [evs sm4]. cbn. f_equal. lia.
    + by apply destroy_and_delete_wf.
    + done.
    + intros e He. cbn. rewrite lookup_delete_ne; [by apply Hl; right |].
      intros Eid. apply Hid. cbn. rewrite Eid. by apply list_elem_of_fmap_2.
  - rewrite (IH _ _ (S i)); try done.
    + by destruct (sweep _ _ _ (S i) sm _).
    + intros e He. apply Hl. by right.
Qed.

(** What a sweep with test [ok] promises when nothing interferes. *)
Definition sweeps_exactly (ok : Session → bool) (gate : Z → bool) (sm : SessionManager)
    (evs : list Z) (sm' : SessionManager) : Prop :=
  sm_wf sm'
  ∧ (∀ id, id ∈ evs ↔ gate id = true ∧ ∃ s, session_at sm id = Some s ∧ ok s = true)
  ∧ (∀ id, session_at sm' id = if decide (id ∈ evs) then None else session_at sm id)
  ∧ (∀ id p s, id ∈ evs → registered sm id p s → object_destroyed sm' p).

(** The three garbage collectors evict exactly what their policy names:
    idle sessions ([Cleanup]), sessions whose handshake response was never
    flushed ([CleanupNewbornOrphans]), sessions whose transport detached longer
    than the grace ago and whose gate is open ([CleanupDetachedGhosts]); every
    other session stays, every evicted session object is destroyed for whoever
    still holds it, and [Cleanup] reports the number evicted. *)
Theorem manager_sweeps_exact sm now maxAge grace gate :
  sm_wf sm →
  (let '(evs, sm') := CleanupNewbornOrphans (λ _ sm, sm) sm now maxAge in
   sweeps_exactly (newborn_orphan now maxAge) (λ _, true) sm evs sm')
  ∧ (let '(evs, sm') := CleanupDetachedGhosts (Some (λ _, gate)) (λ _ sm, sm) sm now grace in
     sweeps_exactly (detached_ghost now grace) gate sm evs sm')
  ∧ (let '(n, sm') := Cleanup sm now in
     ∃ evs, n = length evs ∧ sweeps_exactly (λ s, IsExpired s now (sm_timeout sm)) (λ _, true) sm evs sm').
Proof.
  intros Hw. split_and!.
  - unfold CleanupNewbornOrphans. destruct (sweep _ _ _ _ _ _) as [evs sm'] eqn:E.
    destruct (sweep_exact _ _ _ _ _ _ _ Hw (newborn_candidates_nodup _ _ _) E) as (? & Hin & ? & ?).
    split_and!; try done. intros id. rewrite Hin, newborn_candidates_spec. naive_solver.
  - unfold CleanupDetachedGhosts. destruct (sweep _ _ _ _ _ _) as [evs sm'] eqn:E.
    destruct (sweep_exact _ gate _ _ _ _ _ Hw (ghost_candidates_nodup _ _ _ _) E) as (? & Hin & ? & ?).
    split_and!; try done. intros id. rewrite Hin, ghost_candidates_spec. cbn. naive_solver.
  - unfold Cleanup, session_list.
    assert (NoDup (map_to_list (sm_sessions sm)).*1) as Hnd by apply NoDup_fst_map_to_list.
    rewrite (cleanup_is_sweep _ _ _ _ 0 Hw Hnd); [| by intros [id p] ?%elem_of_map_to_list].
    destruct (sweep _ _ _ _ _ _) as [evs sm'] eqn:E. cbn. exists evs. split; [done |].
    destruct (sweep_exact _ _ _ _ _ _ _ Hw Hnd E) as (? & Hin & ? & ?).
    split_and!; try done. intros id. rewrite Hin. split; [tauto |].
    intros (_ & s & Hs & Hok). split_and!; [| done | by eauto].
    apply session_at_Some in Hs as (p & Hp & _). apply list_elem_of_fmap.
    exists (id, p). split; [done |]. by apply elem_of_map_to_list.
Qed.

(** ** Sweeps under interference *)

(** Session [id] is registered at [p], alone, alive, and its transport is
    attached ([DetachedAt] is zero). *)
Definition holds_at (det : Z → Prop) (id : Z) (p : nat) (sm : SessionManager) : Prop :=
  sm_sessions sm !! id = Some p
  ∧ (∀ id', sm_sessions sm !! id' = Some p → id' = id)
  ∧ ∃ s, sm_heap sm !! p = Some s ∧ alive s ∧ det (DetachedAt s).

Definition mapped : Z → nat → SessionManager → Prop := holds_at (λ _, True).
Definition attached : Z → nat → SessionManager → Prop := holds_at (λ d, d = 0).

(** What the sweep does to another id leaves the session alone. *)
Lemma window_other det ok sm id id' p ev sm' :
  holds_at det id p sm → id' ≠ id → evict_window ok sm id' = (ev, sm') → holds_at det id p sm'.
Proof.
  intros (Hm & Hu & s & Hs & Ha) Hne E.
  apply evict_window_cases in E as [(_ & -> & _) | (_ & q & s' & [Hq _] & _ & ->)].
  { split_and!; try done. by exists s. }
  split_and!; cbn.
  - by rewrite lookup_delete_ne.
  - intros id1. rewrite lookup_delete_Some. intros [_ ?]. by apply Hu.
  - exists s. rewrite lookup_alter_ne; [done |]. intros ->. by apply Hne, Hu.
Qed.

Lemma window_attached now grace sm id p :
  attached id p sm → evict_window (detached_ghost now grace) sm id = (false, sm).
Proof.
  intros (Hm & _ & s & Hs & _ & Hd). unfold evict_window, detached_ghost. rewrite Hm, Hs, Hd.
  by rewrite orb_true_r.
Qed.

Section interference.
Context (env : nat → SessionManager → SessionManager) (gate : SessionManager → Z → bool).
Context (now grace : Z) (id : Z) (p : nat) (k : nat).
(** Before action [k] the others leave the registration of [id] alone, action
    [k] commits a re-attach, and from then on the transport stays attached. *)
Context (Hbefore : ∀ i sm, (i < k)%nat → mapped id p sm → mapped id p (env i sm)).
Context (Hcommit : ∀ sm, mapped id p sm → env k sm = snd (ReattachClearDetached sm id)).
Context (Hafter : ∀ i sm, (k < i)%nat → attached id p sm → attached id p (env i sm)).

Lemma reattach_attaches sm : mapped id p sm → attached id p (snd (ReattachClearDetached sm id)).
Proof.
  intros (Hm & Hu & s & Hs & Ha & _). unfold ReattachClearDetached. rewrite Hm. cbn. split_and!; try done.
  exists (set_attach s (AttachedAt s) 0). cbn. by rewrite lookup_alter_eq, Hs.
Qed.

(** The state of [id] before action [i]. *)
Definition at_action (i : nat) (sm : SessionManager) : Prop :=
  if decide (i ≤ k)%nat then mapped id p sm else attached id p sm.

Lemma at_action_env i sm : at_action i sm → at_action (S i) (env i sm).
Proof.
  unfold at_action. intros H. repeat case_decide; try lia.
  - apply Hbefore; [lia | done].
  - assert (i = k) as -> by lia. rewrite Hcommit by done. by apply reattach_attaches.
  - apply Hafter; [lia | done].
Qed.

Lemma at_action_window ok i sm id' ev sm' :
  at_action i sm → id' ≠ id → evict_window ok sm id' = (ev, sm') → at_action i sm'.
Proof. unfold at_action. intros H Hne E. case_decide; by eapply window_other. Qed.

Lemma at_action_mapped i sm : at_action i sm → mapped id p sm.
Proof.
  unfold at_action. case_decide; [done |]. intros (? & ? & s & ? & ? & ?). split_and!; eauto.
Qed.

Lemma sweep_spares ids i sm :
  at_action (2 * i) sm →
  (∀ j, ids !! j = Some id → (k ≤ 2 * (i + j) + 1)%nat) →
  id ∉ fst (sweep (detached_ghost now grace) gate env i sm ids)
  ∧ mapped id p (snd (sweep (detached_ghost now grace) gate env i sm ids)).
Proof.
  revert i sm. induction ids as [| x ids IH]; intros i sm Hat Hpos; cbn [sweep].
  { cbn. split; [apply not_elem_of_nil |]. by eapply at_action_mapped. }
  assert (∀ j, ids !! j = Some id → (k ≤ 2 * (S i + j) + 1)%nat) as Hpos'.
  { intros j Hj. specialize (Hpos (S j) Hj). lia. }
  pose proof (at_action_env _ _ (at_action_env _ _ Hat)) as Hat2.
  replace (S (S (2 * i))) with (2 * S i)%nat in Hat2 by lia.
  replace (S (2 * i)) with (2 * i + 1)%nat in Hat2 by lia.
  destruct (gate (env (2 * i)%nat sm) x) eqn:Eg; [| by apply IH].
  set (sm2 := env (2 * i + 1)%nat (env (2 * i)%nat sm)) in *.
  destruct (decide (x = id)) as [-> | Hne].
  - assert (attached id p sm2) as Hatt.
    { specialize (Hpos 0%nat eq_refl). unfold at_action in Hat2. case_decide; [lia | done]. }
    rewrite (window_attached now grace sm2 id p Hatt).
    destruct (IH (S i) sm2 Hat2 Hpos') as [H1 H2]. by destruct (sweep _ _ _ _ sm2 _).
  - destruct (evict_window _ sm2 x) as [ev sm3] eqn:Ew.
    pose proof (at_action_window _ _ _ _ _ _ Hat2 Hne Ew) as Hat3.
    destruct (IH (S i) sm3 Hat3 Hpos') as [H1 H2]. destruct (sweep _ _ _ _ sm3 _) as [evs sm4].
    split; [| done]. cbn in *. destruct ev; [| done]. rewrite not_elem_of_cons. done.
Qed.

End interference.

(** A re-attach wins over the sweep.  Whatever the other goroutines do to
    the manager while [CleanupDetachedGhosts] runs, if one of their actions is a
    [ReattachClearDetached] of a session that happens before the sweep locks the
    manager for that session (even after it was listed as a ghost and its gate
    was found open), the session is not evicted and stays registered. *)
Theorem reattach_beats_sweep env gate sm now grace id p j k :
  mapped id p sm →
  ghost_candidates gate sm now grace !! j = Some id →
  (k ≤ 2 * j + 1)%nat →
  (∀ i sm, (i < k)%nat → mapped id p sm → mapped id p (env i sm)) →
  (∀ sm, mapped id p sm → env k sm = snd (ReattachClearDetached sm id)) →
  (∀ i sm, (k < i)%nat → attached id p sm → attached id p (env i sm)) →
  id ∉ fst (CleanupDetachedGhosts gate env sm now grace)
  ∧ mapped id p (snd (CleanupDetachedGhosts gate env sm now grace)).
Proof.
  intros Hm Hj Hk Hb Hc Ha. unfold CleanupDetachedGhosts.
  apply (sweep_spares env (gate_of gate) now grace id p k Hb Hc Ha).
  - unfold at_action. case_decide; [done | lia].
  - intros j' Hj'. cbn. assert (j' = j) as ->; [| lia].
    eapply NoDup_lookup; [apply ghost_candidates_nodup | done | done].
Qed.

(** A ghost sweep evicts, under any interference, only sessions which at
    the very moment of their eviction had been attached, had stayed detached
    for longer than the grace period, and whose gate had just been open. *)
Theorem ghost_eviction_justified env gate sm now grace id :
  id ∈ fst (CleanupDetachedGhosts gate env sm now grace) →
  ∃ i sm1 s, gate_of gate sm1 id = true ∧ session_at (env i sm1) id = Some s
    ∧ AttachedAt s ≠ 0 ∧ DetachedAt s ≠ 0 ∧ grace < now - DetachedAt s.
Proof.
  intros Hin. apply sweep_sound in Hin as (j & sm1 & s & Hg & Hs & Hok).
  exists (2 * j + 1)%nat, sm1, s. unfold detached_ghost in Hok.
  destruct (Z.eqb_spec (AttachedAt s) 0), (Z.eqb_spec (DetachedAt s) 0),
    (Z.leb_spec (now - DetachedAt s) grace); done || (split_and!; done || lia).
Qed.

(** ** Session ids *)

Fixpoint create_all (sm : SessionManager) (keys : list (bytes * bytes)) (now : Z)
  : outcome (list nat * SessionManager) :=
  match keys with
  | [] => Ret ([], sm)
  | (sk, rk) :: keys' =>
    '(p, sm1) ← Create sm sk rk now None;
    '(ps, sm2) ← create_all sm1 keys' now;
    Ret (p :: ps, sm2)
  end.

(** The id given [n] creations from now. *)
Definition id_after (start n : Z) : Z := (start + n) mod (2 ^ 32 - 1) + 1.

Lemma id_after_next start n : 0 ≤ start < 2 ^ 32 → id_after (nextID_add start) n = id_after start (1 + n).
Proof.
  intros H. unfold id_after. rewrite nextID_add_eq by done. f_equal.
  rewrite <- Z.add_assoc, Zplus_mod_idemp_l. f_equal. 
Qed.

Lemma id_after_inj start m n :
  0 ≤ m < 2 ^ 32 - 1 → 0 ≤ n < 2 ^ 32 - 1 → id_after start m = id_after start n → m = n.
Proof.
  unfold id_after. intros Hm Hn E. assert ((start + m) mod (2 ^ 32 - 1) = (start + n) mod (2 ^ 32 - 1)) as E' by lia.
  assert (((start + m) - (start + n)) mod (2 ^ 32 - 1) = 0) as D.
  { rewrite Zminus_mod, E', Z.sub_diag. done. }
  apply Z.mod_divide in D as [q Hq]; [| lia].
  assert (q = 0) by (destruct (Z.lt_trichotomy q 0) as [? | [? | ?]]; nia). lia.
Qed.

(** Created sessions keep the ids handed out in order; each is registered under
    its own id as long as fewer than [2^32 - 1] sessions are created. *)
Lemma create_all_spec keys sm now ps sm' :
  sm_wf sm → create_all sm keys now = Ret (ps, sm') →
  sm_wf sm' ∧ length ps = length keys
  ∧ (∀ i p, ps !! i = Some p → ∃ s, sm_heap sm' !! p = Some s ∧ ID s = id_after (sm_nextID sm) (Z.of_nat i))
  ∧ (∀ q s, sm_heap sm !! q = Some s → sm_heap sm' !! q = Some s).
Proof.
  revert sm ps. induction keys as [| [sk rk] keys IH]; intros sm ps Hw E; cbn [create_all] in E.
  { injection E as <- <-. split_and!; try done. }
  destruct (Create sm sk rk now None) as [[p sm1] | |] eqn:E1; try done. cbn in E.
  destruct (create_all sm1 keys now) as [[ps1 sm2] | |] eqn:E2; try done. cbn in E. injection E as <- <-.
  pose proof (Create_wf _ _ _ _ _ _ _ Hw E1) as Hw1.
  apply Create_eq in E1 as (s & Hp & Hn & Hh & Hm & Hid & _).
  destruct (IH sm1 ps1 Hw1 E2) as (Hw2 & Hl & Hids & Hkeep). split_and!; try done.
  - cbn. by rewrite Hl.
  - intros [| i] q Hq.
    + injection Hq as <-. exists s. split; [apply Hkeep; by rewrite Hh, lookup_insert_eq |].
      rewrite Hid, Hn, nextID_add_eq by apply (smwf_next sm Hw). unfold id_after.
      by rewrite Z.add_0_r.
    + destruct (Hids i q Hq) as (s' & Hs' & Hid'). exists s'. split; [done |].
      rewrite Hid', Hn, id_after_next by apply (smwf_next sm Hw). f_equal. lia.
  - intros q s' Hq. apply Hkeep. rewrite Hh, lookup_insert_ne; [done |]. congruence.
Qed.

(** Session ids.  Up to [2^32 - 1] consecutively created sessions have
    pairwise different ids, none of them the reserved id 0, whatever the random
    start of the counter and through its wrap-around. *)
Theorem session_ids_unique sm keys now ps sm' :
  sm_wf sm → len keys ≤ 2 ^ 32 - 1 → create_all sm keys now = Ret (ps, sm') →
  ∃ ids, length ids = length keys ∧ NoDup ids ∧ 0 ∉ ids
    ∧ ∀ i p id, ps !! i = Some p → ids !! i = Some id →
        ∃ s, sm_heap sm' !! p = Some s ∧ ID s = id ∧ 0 < id < 2 ^ 32.
Proof.
  intros Hw Hlen E. destruct (create_all_spec _ _ _ _ _ Hw E) as (_ & Hl & Hids & _).
  assert (∀ n, 0 < id_after (sm_nextID sm) n < 2 ^ 32) as Hr.
  { intros n. unfold id_after. pose proof (Z.mod_pos_bound (sm_nextID sm + n) (2 ^ 32 - 1) ltac:(lia)). lia. }
  exists ((λ i, id_after (sm_nextID sm) (Z.of_nat i)) <$> seq 0 (length keys)). split_and!.
  - by rewrite length_fmap, length_seq.
  - unfold len in Hlen. apply NoDup_fmap_2_strong; [| apply NoDup_seq].
    intros m n Hm%elem_of_seq Hn%elem_of_seq Heq. apply id_after_inj in Heq; lia.
  - intros (i & Hi & _)%list_elem_of_fmap. specialize (Hr (Z.of_nat i)). lia.
  - intros i p id Hp Hid. destruct (Hids i p Hp) as (s & Hs & His). exists s.
    rewrite list_lookup_fmap in Hid.
    assert (i < length keys)%nat as Hi by (rewrite <- Hl; by eapply lookup_lt_Some).
    rewrite lookup_seq_lt in Hid by done. injection Hid as <-. split_and!; try done; apply Hr.
Qed.

(** ** Witnesses *)

Definition force {A} (d : A) (m : outcome A) : A := match m with Ret a => a | _ => d end.

Definition sm_new : SessionManager := mkSM ∅ ∅ (300 * Second) 0.
(** Session 1, attached at 10 and detached at 20. *)
Definition sm_one : SessionManager :=
  let sm := snd (force (0%nat, sm_new) (Create sm_new key_a key_b 5 None)) in
  set_maps sm (alter (λ s, set_attach s 10 20) 0%nat (sm_heap sm)) (sm_sessions sm).

Lemma sm_new_wf : sm_wf sm_new.
Proof. split; [done | cbn; lia]. Qed.

Lemma sm_one_wf : sm_wf sm_one.
Proof.
  assert (sm_wf (snd (force (0%nat, sm_new) (Create sm_new key_a key_b 5 None)))) as Hw.
  { destruct (Create sm_new key_a key_b 5 None) as [[p sm] | |] eqn:E;
      [eapply Create_wf; [apply sm_new_wf | exact E] | apply sm_new_wf ..]. }
  split; [| apply (smwf_next _ Hw)]. cbn [sm_sessions sm_one set_maps]. intros id q Hq.
  destruct (smwf_entry _ Hw id q Hq) as (s & Hs & Hid & Ha & Hsw & Hr). unfold sm_one. cbn [sm_heap set_maps].
  destruct (decide (0%nat = q)) as [<- | Hne].
  - exists (set_attach s 10 20). rewrite lookup_alter_eq, Hs. split_and!; try done; try lia.
    by apply set_attach_wf.
  - exists s. by rewrite lookup_alter_ne.
Qed.

Lemma manager_sweeps_exact_witness :
  fst (CleanupDetachedGhosts (Some (λ _ _, true)) (λ _ sm, sm) sm_one (100 * Second) Second) = [1]
  ∧ let '(evs, sm') := CleanupDetachedGhosts (Some (λ _ _, true)) (λ _ sm, sm) sm_one (100 * Second) Second in
     sweeps_exactly (detached_ghost (100 * Second) Second) (λ _, true) sm_one evs sm'.
Proof.
  split; [vm_compute; reflexivity |].
  exact (proj1 (proj2 (manager_sweeps_exact sm_one (100 * Second) Second Second (λ _, true) sm_one_wf))).
Defined.

(** The session is listed as a ghost, then re-attached between the gate check
    and the lock. *)
Definition reattach_at (k : nat) (id : Z) (i : nat) (sm : SessionManager) : SessionManager :=
  if (i =? k)%nat then snd (ReattachClearDetached sm id) else sm.

Lemma sm_one_mapped : mapped 1 0 sm_one.
Proof.
  split; [vm_compute; reflexivity |]. split.
  - intros id' H. destruct (smwf_entry _ sm_one_wf id' 0%nat H) as (s & Hs & <- & _).
    assert (option_map ID (sm_heap sm_one !! 0%nat) = Some 1) as E by (vm_compute; reflexivity).
    rewrite Hs in E. by injection E.
  - eexists. split; [vm_compute; reflexivity | done].
Qed.

Lemma reattach_beats_sweep_witness :
  1 ∉ fst (CleanupDetachedGhosts None (reattach_at 1 1) sm_one (100 * Second) Second).
Proof.
  refine (proj1 (reattach_beats_sweep (reattach_at 1 1) None sm_one (100 * Second) Second 1 0 0 1 _ _ _ _ _ _)).
  - apply sm_one_mapped.
  - vm_compute. reflexivity.
  - lia.
  - intros i sm Hi. unfold reattach_at. destruct (Nat.eqb_spec i 1); [lia | done].
  - intros sm _. reflexivity.
  - intros i sm Hi. unfold reattach_at. destruct (Nat.eqb_spec i 1); [lia | done].
Defined.

Lemma ghost_eviction_justified_witness :
  ∃ i sm1 s, gate_of None sm1 1 = true ∧ session_at ((λ (_ : nat) sm, sm) i sm1) 1 = Some s
    ∧ AttachedAt s ≠ 0 ∧ DetachedAt s ≠ 0 ∧ Second < 100 * Second - DetachedAt s.
Proof.
  apply (ghost_eviction_justified (λ _ sm, sm) None sm_one (100 * Second) Second 1).
  vm_compute. left.
Defined.

Definition two_created : list nat * SessionManager :=
  force ([], sm_new) (create_all sm_new [(key_a, key_b); (key_b, key_a)] 7).

Lemma session_ids_unique_witness :
  ∃ ids, length ids = 2%nat ∧ NoDup ids ∧ 0 ∉ ids
    ∧ ∀ i p id, (fst two_created) !! i = Some p → ids !! i = Some id →
        ∃ s, sm_heap (snd two_created) !! p = Some s ∧ ID s = id ∧ 0 < id < 2 ^ 32.
Proof.
  apply (session_ids_unique sm_new [(key_a, key_b); (key_b, key_a)] 7 (fst two_created) (snd two_created)).
  - apply sm_new_wf.
  - vm_compute. discriminate.
  - vm_compute. reflexivity.
Defined.
