(* ===== verification/ReplayCache.v ===== *)
(** * Handshake replay cache ([core/replay_cache.go])

    The linked list [order] (element pointers, oldest first), the elements'
    entries, and the [index] from client-id ciphertext to element. *)

From S2P Require Import Prelude.
From stdpp Require Import base list gmap.

#[local] Open Scope Z_scope.

Record replayEntry := mkEntry { re_clientID : bytes; re_ts : Z }.

Record ReplayCache := mkRC {
  rc_maxSize : Z;
  rc_windowSecs : Z;
  rc_order : list nat;
  rc_cells : gmap nat replayEntry;
  rc_index : gmap bytes nat;
  rc_next : nat;
}.

(** Durations in nanoseconds. *)
Definition NewReplayCacheWithOptions (maxSize window : Z) : ReplayCache :=
  let maxSize := if maxSize <=? 0 then 10000 else maxSize in
  let window := if window <=? 0 then 5 * 60 * 1000000000 else window in
  let w := window / 1000000000 in
  let w := if w <? 1 then 1 else w in
  mkRC maxSize w [] ∅ ∅ 0.

Definition NewReplayCache := NewReplayCacheWithOptions.

(** [delete(c.index, old.clientID)] for the element taken off the front. *)
Definition unindex (cells : gmap nat replayEntry) (index : gmap bytes nat) (el : nat) : gmap bytes nat :=
  match cells !! el with Some old => delete (re_clientID old) index | None => index end.

(** [for c.order.Len() >= c.maxSize] *)
Fixpoint evict_capacity (maxSize : Z) (cells : gmap nat replayEntry) (order : list nat)
    (index : gmap bytes nat) : list nat * gmap bytes nat :=
  if maxSize <=? len order then
    match order with
    | [] => (order, index)
    | el :: order' => evict_capacity maxSize cells order' (unindex cells index el)
    end
  else (order, index).

Definition Accept (c : ReplayCache) (clientID : bytes) (ts : Z) : bool * ReplayCache :=
  if rc_windowSecs c =? 0 then (true, c) else
  match rc_index c !! clientID with
  | Some el =>
    match rc_cells c !! el with
    | Some ent =>
      let diff := i64 (ts - re_ts ent) in
      let diff := if diff <? 0 then i64 (- diff) else diff in
      if diff <? rc_windowSecs c then (false, c)
      else (true, mkRC (rc_maxSize c) (rc_windowSecs c)
                    (filter (λ x, x ≠ el) (rc_order c) ++ [el])
                    (<[el := mkEntry (re_clientID ent) ts]> (rc_cells c)) (rc_index c) (rc_next c))
    | None => (false, c)
    end
  | None =>
    let '(order, index) := evict_capacity (rc_maxSize c) (rc_cells c) (rc_order c) (rc_index c) in
    let el := rc_next c in
    (true, mkRC (rc_maxSize c) (rc_windowSecs c) (order ++ [el])
             (<[el := mkEntry clientID ts]> (rc_cells c)) (<[clientID := el]> index) (S el))
  end.

Definition rc_size (c : ReplayCache) : Z := len (rc_order c).

(** The loop of [evictExpired]: stop at the first entry still in the window. *)
Fixpoint evict_old (threshold : Z) (cells : gmap nat replayEntry) (order : list nat)
    (index : gmap bytes nat) : list nat * gmap bytes nat :=
  match order with
  | [] => (order, index)
  | el :: order' =>
    match cells !! el with
    | Some ent =>
      if threshold <? re_ts ent then (order, index)
      else evict_old threshold cells order' (delete (re_clientID ent) index)
    | None => (order, index)
    end
  end.

Definition evictExpired (c : ReplayCache) (now : Z) : ReplayCache :=
  let threshold := i64 (now - rc_windowSecs c) in
  let '(order, index) := evict_old threshold (rc_cells c) (rc_order c) (rc_index c) in
  mkRC (rc_maxSize c) (rc_windowSecs c) order (rc_cells c) index (rc_next c).

(** ** Invariant *)

(** List and index agree: the index names exactly the listed elements, each
    under its own client id. *)
Record lists_agree (cells : gmap nat replayEntry) (order : list nat) (index : gmap bytes nat) : Prop := {
  la_nodup : NoDup order;
  la_listed el : el ∈ order → ∃ ent, cells !! el = Some ent ∧ index !! re_clientID ent = Some el;
  la_indexed k el : index !! k = Some el → el ∈ order ∧ ∃ ts, cells !! el = Some (mkEntry k ts);
}.

Record cache_wf (c : ReplayCache) : Prop := {
  cw_lists : lists_agree (rc_cells c) (rc_order c) (rc_index c);
  cw_size : 0 < rc_maxSize c ∧ len (rc_order c) ≤ rc_maxSize c;
  cw_window : 1 ≤ rc_windowSecs c;
  cw_next el : is_Some (rc_cells c !! el) → (el < rc_next c)%nat;
}.

Lemma cache_new_wf maxSize window : cache_wf (NewReplayCacheWithOptions maxSize window).
Proof.
  split; cbn.
  - split; [constructor | set_solver | done].
  - unfold len; cbn; repeat zcase; lia.
  - repeat zcase; lia.
  - intros el [x Hx]. done.
Qed.

(** Taking the front element off both structures. *)
Lemma lists_agree_tail cells el order index :
  lists_agree cells (el :: order) index → lists_agree cells order (unindex cells index el).
Proof.
  intros [Hnd Hl Hi]. apply NoDup_cons in Hnd as [Hel Hnd].
  destruct (Hl el ltac:(by left)) as (ent & Hc & Hix). unfold unindex. rewrite Hc. split; [done | |].
  - intros x Hx. destruct (Hl x ltac:(by right)) as (e & He & Hie). exists e. split; [done |].
    rewrite lookup_delete_ne; [done |]. intros Heq. rewrite <- Heq, Hix in Hie. congruence.
  - intros k x. rewrite lookup_delete_Some. intros [Hne Hx].
    destruct (Hi k x Hx) as [[-> | Hin]%elem_of_cons [ts Hts]]; [| by eauto].
    rewrite Hc in Hts. injection Hts as ->. done.
Qed.

Lemma evict_capacity_spec m cells order index order' index' :
  lists_agree cells order index → 0 < m → evict_capacity m cells order index = (order', index') →
  lists_agree cells order' index' ∧ len order' < m ∧ ∃ k, order' = drop k order
    ∧ (∀ key el, index' !! key = Some el → index !! key = Some el)
    ∧ (k = 0%nat ∨ m ≤ len order' + 1).
Proof.
  revert index. induction order as [| el order IH]; intros index Ha Hm E; cbn [evict_capacity] in E.
  - rewrite (@len_nil nat) in E. zcase_in E; [lia |]. injection E as <- <-. rewrite len_nil.
    split_and!; [done | lia |]. exists 0%nat. by split_and!; [done | done | left].
  - zcase_in E.
    + destruct (IH _ (lists_agree_tail _ _ _ _ Ha) Hm E) as (Ha' & Hlen & k & Hk & Hix & Hmin).
      split_and!; [done | done |]. exists (S k). split_and!; [done | |].
      * intros key x Hx. apply Hix in Hx. unfold unindex in Hx. destruct (cells !! el); [| done].
        by apply lookup_delete_Some in Hx as [_ ?].
      * right. destruct Hmin as [-> | ?]; [| done]. rewrite drop_0 in Hk. subst order'.
        rewrite len_cons in *. lia.
    + injection E as <- <-. split_and!; [done | lia |]. exists 0%nat. by split_and!; [done | done | left].
Qed.

Lemma evict_old_spec th cells order index order' index' :
  lists_agree cells order index → evict_old th cells order index = (order', index') →
  lists_agree cells order' index' ∧ ∃ k, order' = drop k order
    ∧ ∀ el, el ∈ take k order → ∃ ent, cells !! el = Some ent ∧ re_ts ent ≤ th.
Proof.
  revert index. induction order as [| el order IH]; intros index Ha E; cbn [evict_old] in E.
  - injection E as <- <-. split; [done |]. exists 0%nat. split; [done |]. set_solver.
  - destruct (la_listed _ _ _ Ha el ltac:(by left)) as (ent & Hc & _). rewrite Hc in E.
    zcase_in E.
    + injection E as <- <-. split; [done |]. exists 0%nat. split; [done |]. set_solver.
    + pose proof (lists_agree_tail _ _ _ _ Ha) as Ht. unfold unindex in Ht. rewrite Hc in Ht.
      destruct (IH _ Ht E) as (Ha' & k & Hk & Hold). split; [done |]. exists (S k). split; [done |].
      cbn. intros x [-> | Hx]%elem_of_cons; [by exists ent; split; [| lia] | by apply Hold].
Qed.

Lemma len_filter_le {A} (P : A → Prop) `{∀ x, Decision (P x)} (l : list A) : len (filter P l) ≤ len l.
Proof. unfold len. pose proof (length_filter P l). lia. Qed.

Lemma filter_ne_length (order : list nat) el :
  NoDup order → el ∈ order → len (filter (λ x, x ≠ el) order) = len order - 1.
Proof.
  intros Hnd [l1 [l2 ->]]%list_elem_of_split. apply NoDup_app in Hnd as (H1 & H12 & H2).
  apply NoDup_cons in H2 as [H2 H3]. rewrite filter_app, filter_cons_False by auto.
  assert (∀ l : list nat, el ∉ l → filter (λ x, x ≠ el) l = l) as Hid.
  { intros l Hl. induction l as [| y l IH]; [done |]. apply not_elem_of_cons in Hl as [Hy Hl].
    rewrite filter_cons_True by auto. by rewrite IH. }
  rewrite !Hid; [| done | intros Hx; apply (H12 el Hx); by left].
  rewrite !len_app, len_cons. lia.
Qed.

Lemma Accept_wf c k ts : cache_wf c → cache_wf (snd (Accept c k ts)).
Proof.
  intros [Ha [Hm Hs] Hwin Hn]. unfold Accept. destruct (rc_windowSecs c =? 0); [done |].
  destruct (rc_index c !! k) as [el |] eqn:Ei.
  - destruct (la_indexed _ _ _ Ha k el Ei) as [Hin [ts0 Hc]]. rewrite Hc. cbn [re_ts re_clientID].
    set (diff := i64 (ts - ts0)). destruct (_ <? rc_windowSecs c); [done |]. cbn [snd].
    destruct Ha as [Hnd Hl Hi]. split; cbn; try done.
    + split.
      * apply NoDup_app. split_and!; [by apply NoDup_filter | | apply NoDup_singleton].
        intros x [Hx _]%list_elem_of_filter ->%list_elem_of_singleton. done.
      * intros x [[Hx Hx']%list_elem_of_filter | ->%list_elem_of_singleton]%elem_of_app.
        -- rewrite lookup_insert_ne by done. by apply Hl.
        -- rewrite lookup_insert_eq. eexists. split; [done |]. done.
      * intros k' x Hx. destruct (Hi k' x Hx) as [Hx' [ts' Hts]]. split.
        -- apply elem_of_app. destruct (decide (x = el)); [right; by apply list_elem_of_singleton |].
           left. by apply list_elem_of_filter.
        -- destruct (decide (el = x)) as [<- | Hne].
           ++ exists ts. rewrite lookup_insert_eq. rewrite Hc in Hts. by injection Hts as ->.
           ++ exists ts'. by rewrite lookup_insert_ne.
    + rewrite len_app, filter_ne_length, len_cons, (@len_nil nat) by done. lia.
    + intros x. rewrite lookup_insert_is_Some. intros [<- | [_ Hx]]; apply Hn; [by rewrite Hc | done].
  - destruct (evict_capacity _ _ _ _) as [order index] eqn:Ee. cbn [snd].
    destruct (evict_capacity_spec _ _ _ _ _ _ Ha Hm Ee) as ([Hnd Hl Hi] & Hlen & n & -> & Hsub & _).
    assert (∀ x, x ∈ drop n (rc_order c) → x ≠ rc_next c) as Hfresh.
    { intros x Hx ->. destruct (Hl _ Hx) as (e & He & _). specialize (Hn (rc_next c)). rewrite He in Hn.
      specialize (Hn ltac:(done)). lia. }
    split; cbn; try done.
    + split.
      * apply NoDup_app. split_and!; [done | | apply NoDup_singleton].
        intros x Hx ->%list_elem_of_singleton. by apply Hfresh in Hx.
      * intros x [Hx | ->%list_elem_of_singleton]%elem_of_app.
        -- rewrite lookup_insert_ne by (intros E; by apply (Hfresh x Hx)).
           destruct (Hl x Hx) as (e & He & Hie). exists e. split; [done |].
           rewrite lookup_insert_ne; [done |]. intros Heq. apply Hsub in Hie. congruence.
        -- rewrite lookup_insert_eq. eexists. split; [done |]. by rewrite lookup_insert_eq.
      * intros k' x. rewrite lookup_insert_Some. intros [[<- <-] | [Hne Hx]].
        -- split; [apply elem_of_app; right; by apply list_elem_of_singleton |].
           exists ts. by rewrite lookup_insert_eq.
        -- destruct (Hi k' x Hx) as [Hx' Hts]. split; [apply elem_of_app; by left |].
           rewrite lookup_insert_ne; [done |]. intros E. by apply (Hfresh x Hx').
    + rewrite len_app, len_cons, (@len_nil nat). lia.
    + intros x. rewrite lookup_insert_is_Some. intros [<- | [_ Hx]]; [lia |]. specialize (Hn x Hx). lia.
Qed.

Lemma len_drop_le {A} n (l : list A) : len (drop n l) ≤ len l.
Proof. rewrite len_drop. pose proof (len_nonneg l). lia. Qed.

Lemma evictExpired_wf c now : cache_wf c → cache_wf (evictExpired c now).
Proof.
  intros [Ha [Hm Hs] Hwin Hn]. unfold evictExpired. destruct (evict_old _ _ _ _) as [order index] eqn:E.
  destruct (evict_old_spec _ _ _ _ _ _ Ha E) as (Ha' & k & -> & _). split; cbn; try done.
  split; [done |]. pose proof (len_drop_le k (rc_order c)). lia.
Qed.

(** ** Replays are blocked *)

(** [k] was last accepted at [ts]; at most [n] elements were listed after it. *)
Definition remembered (c : ReplayCache) (k : bytes) (ts n : Z) : Prop :=
  ∃ el l1 l2, rc_index c !! k = Some el ∧ rc_cells c !! el = Some (mkEntry k ts)
    ∧ rc_order c = l1 ++ el :: l2 ∧ len l2 ≤ n.

Lemma i64_small x : - 2 ^ 63 ≤ x < 2 ^ 63 → i64 x = x.
Proof. intros. unfold i64. rewrite Z.mod_small; lia. Qed.

(** An accepted client id is remembered. *)
Lemma Accept_remembers c k ts c' :
  cache_wf c → Accept c k ts = (true, c') → remembered c' k ts 0.
Proof.
  intros [Ha [Hm Hs] Hwin Hn] E. unfold Accept in E.
  destruct (Z.eqb_spec (rc_windowSecs c) 0); [lia |].
  destruct (rc_index c !! k) as [el |] eqn:Ei.
  - destruct (la_indexed _ _ _ Ha k el Ei) as [Hin [ts0 Hc]]. rewrite Hc in E. cbn [re_ts re_clientID] in E.
    destruct (_ <? rc_windowSecs c); [done |]. injection E as <-.
    exists el, (filter (λ x, x ≠ el) (rc_order c)), []. cbn.
    rewrite lookup_insert_eq. by split_and!.
  - destruct (evict_capacity _ _ _ _) as [order index]. injection E as <-.
    exists (rc_next c), order, []. cbn. rewrite !lookup_insert_eq. by split_and!.
Qed.

(** While it is remembered, a second use inside the window is rejected. *)
Lemma remembered_rejects c k ts n t2 :
  cache_wf c → remembered c k ts n → 0 ≤ ts → ts ≤ t2 < 2 ^ 63 → t2 - ts < rc_windowSecs c →
  Accept c k t2 = (false, c).
Proof.
  intros Hw (el & l1 & l2 & Hi & Hc & _) H0 Ht Hd. unfold Accept.
  destruct (Z.eqb_spec (rc_windowSecs c) 0); [pose proof (cw_window c Hw); lia |].
  rewrite Hi, Hc. cbn [re_ts]. rewrite i64_small by lia. destruct (Z.ltb_spec (t2 - ts) 0); [lia |].
  destruct (Z.ltb_spec (t2 - ts) (rc_windowSecs c)); [done | lia].
Qed.

Lemma elem_of_drop_in {A} (l1 l2 : list A) x n :
  (n ≤ length l1)%nat → ∃ l1', drop n (l1 ++ x :: l2) = l1' ++ x :: l2.
Proof. intros Hn. exists (drop n l1). by rewrite drop_app_le. Qed.

(** Accepting another client id keeps the memory, unless capacity pushes it out. *)
Lemma remembered_other c k ts n k' t' :
  cache_wf c → remembered c k ts n → k' ≠ k → n + 1 < rc_maxSize c →
  remembered (snd (Accept c k' t')) k ts (n + 1).
Proof.
  intros Hw (el & l1 & l2 & Hi & Hc & Ho & Hn) Hne Hcap. destruct Hw as [Ha [Hm Hs] Hwin Hnext].
  unfold Accept. destruct (Z.eqb_spec (rc_windowSecs c) 0); [lia |].
  destruct (rc_index c !! k') as [el' |] eqn:Ei.
  - destruct (la_indexed _ _ _ Ha k' el' Ei) as [Hin [ts0 Hc']]. rewrite Hc'. cbn [re_ts re_clientID].
    assert (el ≠ el') as Hel by (intros ->; congruence).
    destruct (_ <? rc_windowSecs c); cbn [snd].
    { exists el, l1, l2. split_and!; done || lia. }
    exists el, (filter (λ x, x ≠ el') l1), (filter (λ x, x ≠ el') l2 ++ [el']). cbn.
    rewrite lookup_insert_ne by done. split_and!; try done.
    + rewrite Ho, filter_app, filter_cons_True by done. by rewrite <- app_assoc.
    + rewrite len_app, len_cons, (@len_nil nat). pose proof (len_filter_le (λ x, x ≠ el') l2). lia.
  - destruct (evict_capacity _ _ _ _) as [order index] eqn:Ee. cbn [snd].
    destruct (evict_capacity_spec _ _ _ _ _ _ Ha Hm Ee) as (Ha' & Hlen & d & Hd & Hsub & Hmin).
    pose proof (len_nonneg l1). pose proof (len_nonneg l2).
    assert (d ≤ length l1)%nat as Hdl.
    { destruct Hmin as [-> | Hmin]; [lia |]. rewrite Hd, len_drop, Ho, len_app, len_cons in Hmin.
      unfold len in *. rewrite Ho, length_app in Hs. cbn in Hs. lia. }
    destruct (elem_of_drop_in l1 l2 el d Hdl) as [l1' Hl1']. rewrite Ho, Hl1' in Hd.
    assert (index !! k = Some el) as Hik.
    { destruct (la_listed _ _ _ Ha' el) as (ent & Hent & Hidx).
      - rewrite Hd. apply elem_of_app. right. by left.
      - rewrite Hc in Hent. injection Hent as <-. done. }
    exists el, l1', (l2 ++ [rc_next c]). cbn.
    assert (el ≠ rc_next c) as Hf.
    { specialize (Hnext el). rewrite Hc in Hnext. specialize (Hnext ltac:(done)). lia. }
    rewrite !lookup_insert_ne by done. split_and!; try done.
    + rewrite Hd, <- app_assoc. done.
    + rewrite len_app, len_cons, (@len_nil nat). lia.
Qed.

(** Eviction of expired entries keeps it while the window lasts. *)
Lemma remembered_evict c k ts n now :
  cache_wf c → remembered c k ts n → 0 ≤ now < 2 ^ 62 → rc_windowSecs c < 2 ^ 62 →
  now - ts < rc_windowSecs c → remembered (evictExpired c now) k ts n.
Proof.
  intros Hw (el & l1 & l2 & Hi & Hc & Ho & Hn) H1 H2 Hd. pose proof (cw_window c Hw).
  unfold evictExpired. rewrite i64_small by lia.
  destruct (evict_old _ _ _ _) as [order index] eqn:Ee.
  destruct (evict_old_spec _ _ _ _ _ _ (cw_lists c Hw) Ee) as (Ha' & d & Hd' & Hold).
  assert (d ≤ length l1)%nat as Hdl.
  { destruct (decide (d ≤ length l1)%nat) as [? | Hgt]; [done |]. exfalso.
    destruct (Hold el) as (ent & Hent & Hts).
    - rewrite Ho, take_app_ge by lia. apply elem_of_app. right.
      destruct (d - length l1)%nat eqn:Ed; [lia |]. cbn. by left.
    - rewrite Hc in Hent. injection Hent as <-. cbn in Hts. lia. }
  destruct (elem_of_drop_in l1 l2 el d Hdl) as [l1' Hl1']. rewrite Ho, Hl1' in Hd'.
  exists el, l1', l2. cbn. split_and!; try done.
  destruct (la_listed _ _ _ Ha' el) as (ent & Hent & Hidx).
  - rewrite Hd'. apply elem_of_app. right. by left.
  - rewrite Hc in Hent. injection Hent as <-. done.
Qed.

(** ** Any use of the cache *)

Inductive cache_op :=
| RAccept (k : bytes) (ts : Z)
| REvict (now : Z).

Definition run_cache_op (c : ReplayCache) (o : cache_op) : ReplayCache :=
  match o with
  | RAccept k ts => snd (Accept c k ts)
  | REvict now => evictExpired c now
  end.

Definition run_cache (c : ReplayCache) (ops : list cache_op) : ReplayCache := foldl run_cache_op c ops.

Definition op_time (o : cache_op) : Z := match o with RAccept _ ts => ts | REvict now => now end.

Definition is_accept (o : cache_op) : Prop :=
  match o with RAccept _ _ => True | REvict _ => False end.

#[global] Instance is_accept_dec (o : cache_op) : Decision (is_accept o).
Proof. destruct o; apply _. Defined.

Definition accepts (ops : list cache_op) : list cache_op := filter is_accept ops.

Lemma run_cache_wf c ops : cache_wf c → cache_wf (run_cache c ops).
Proof.
  revert c. induction ops as [| o ops IH]; intros c Hw; [done |]. cbn. apply IH.
  destruct o; [by apply Accept_wf | by apply evictExpired_wf].
Qed.

Lemma Accept_consts c k ts :
  rc_maxSize (snd (Accept c k ts)) = rc_maxSize c ∧ rc_windowSecs (snd (Accept c k ts)) = rc_windowSecs c.
Proof.
  unfold Accept. destruct (rc_windowSecs c =? 0); [done |].
  destruct (rc_index c !! k) as [el |]; [destruct (rc_cells c !! el) |]; try done.
  - by destruct (_ <? _).
  - by destruct (evict_capacity _ _ _ _).
Qed.

Lemma evictExpired_consts c now :
  rc_maxSize (evictExpired c now) = rc_maxSize c ∧ rc_windowSecs (evictExpired c now) = rc_windowSecs c.
Proof. unfold evictExpired. by destruct (evict_old _ _ _ _). Qed.

Lemma remembered_run ops c k ts t2 n :
  cache_wf c → remembered c k ts n → 0 ≤ n → 0 ≤ ts → ts ≤ t2 < 2 ^ 62 →
  t2 - ts < rc_windowSecs c < 2 ^ 62 →
  Forall (λ o, ts ≤ op_time o ≤ t2) ops → n + len (accepts ops) < rc_maxSize c →
  ∃ n', remembered (run_cache c ops) k ts n' ∧ rc_windowSecs (run_cache c ops) = rc_windowSecs c.
Proof.
  revert c n. induction ops as [| o ops IH]; intros c n Hw Hr Hn0 H0 Ht Hwin Hops Hcap; [by exists n |].
  apply Forall_cons_1 in Hops as [Ho Hops]. cbn [run_cache foldl].
  pose proof (len_nonneg (accepts ops)).
  destruct o as [k' t' | now]; cbn [run_cache_op op_time] in *.
  - destruct (Accept_consts c k' t') as [Hm Hws].
    unfold accepts in Hcap. rewrite filter_cons_True, len_cons in Hcap by done. fold (accepts ops) in Hcap.
    destruct (decide (k' = k)) as [-> | Hne].
    + rewrite (remembered_rejects c k ts n t') by (done || lia). cbn [snd].
      apply (IH c n); done || lia.
    + rewrite <- Hws. apply (IH _ (n + 1)); rewrite ?Hm, ?Hws; try done || lia.
      * by apply Accept_wf.
      * apply remembered_other; done || lia.
  - destruct (evictExpired_consts c now) as [Hm Hws].
    unfold accepts in Hcap. rewrite filter_cons_False in Hcap by auto. fold (accepts ops) in Hcap.
    rewrite <- Hws. apply (IH _ n); rewrite ?Hm, ?Hws; try done.
    + by apply evictExpired_wf.
    + apply remembered_evict; done || lia.
Qed.


(** Whatever is accepted or evicted, the list and the index of the cache
    name the same entries, each once, and never more than [maxSize]. *)
Theorem cache_consistent_bounded maxSize window ops :
  let c := run_cache (NewReplayCacheWithOptions maxSize window) ops in
  rc_size c ≤ rc_maxSize c ∧ len (map_to_list (rc_index c)) = rc_size c
  ∧ ∀ k el, rc_index c !! k = Some el ↔ el ∈ rc_order c ∧ ∃ ts, rc_cells c !! el = Some (mkEntry k ts).
Proof.
  intros c. assert (cache_wf c) as [Ha [_ Hs] _ _] by apply run_cache_wf, cache_new_wf.
  destruct Ha as [Hnd Hl Hi].
  assert (∀ k el, rc_index c !! k = Some el ↔ el ∈ rc_order c ∧ ∃ ts, rc_cells c !! el = Some (mkEntry k ts)) as Hiff.
  { intros k el. split; [by apply Hi |]. intros [Hin [ts Hc]].
    destruct (Hl el Hin) as (ent & Hent & Hidx). rewrite Hc in Hent. by injection Hent as <-. }
  split_and!; [done | | done]. unfold rc_size, len. f_equal.
  assert ((map_to_list (rc_index c)).*2 ≡ₚ rc_order c) as Hp.
  { apply NoDup_Permutation; [| done |].
    - apply NoDup_fmap_2_strong; [| apply NoDup_map_to_list].
      intros [k1 e1] [k2 e2] H1%elem_of_map_to_list H2%elem_of_map_to_list Heq. cbn in Heq. subst e2.
      destruct (Hi _ _ H1) as [_ [t1 E1]], (Hi _ _ H2) as [_ [t2 E2]]. rewrite E1 in E2. by injection E2 as ->.
    - intros el. rewrite list_elem_of_fmap. split.
      + intros ([k e] & -> & Hin%elem_of_map_to_list). by apply (Hi k e).
      + intros Hin. destruct (Hl el Hin) as (ent & _ & Hidx). exists (re_clientID ent, el).
        split; [done |]. by apply elem_of_map_to_list. }
  by rewrite <- Hp, length_fmap.
Qed.

(** ** Witnesses *)

Definition cache2 : ReplayCache := NewReplayCacheWithOptions 3 (300 * 1000000000).

