(* ===== verification/Handshake.v ===== *)
(** * Key exchange and stream ownership proofs
      ([core/crypto.go], [core/handshake.go], [core/migrate.go])

    X25519, NaCl box, HKDF and HMAC are the parameters of [Primitives.v].  The
    clock and every [rand.Read] are arguments. *)

From S2P Require Import Prelude.
From S2P Require Import Primitives.
From S2P Require Import BufPool.
From S2P Require Import Chunk.
From S2P Require Import ReplayWindow.
From S2P Require Import Session.
From S2P Require Import SessionManager.
From S2P Require Import ReplayCache.
From stdpp Require Import base list gmap strings.

#[local] Open Scope Z_scope.

Definition HandshakeDriftWindowSecs : Z := 300.
Definition EncryptedClientIDSize : Z := 65.

Record KeyPair := mkKeyPair { Public : bytes; Private : bytes }.
Record SessionKeys := mkKeys { sk_SendKey : bytes; sk_RecvKey : bytes }.

Record ClientHello := mkClientHello {
  ch_EphemeralPub : bytes;
  ch_EncryptedClientID : bytes;
}.

Record ServerHello := mkServerHello {
  sh_EphemeralPub : bytes;
  sh_EncryptedSessionToken : bytes;
  sh_SessionID : Z;
  sh_MaxConnsPerClient : Z;
  sh_ChunkSize : Z;
  sh_ProtoVersion : option Z;
  sh_FingerprintWeights : option (gmap string Z);
}.

Record HandshakeClientState := mkClientState {
  cs_Ephemeral : KeyPair;
  cs_ClientID : bytes;
  cs_ServerPub : bytes;
}.

(** [var a [32]byte; copy(a[:], b)] *)
Definition to_array (n : nat) (b : bytes) : bytes := take n (b ++ replicate n 0).

Section handshake.
Context {HA : AEAD} {HDH : DH} {HB : NaclBox} {HK : KDF}.

(** [priv]: the 32 random bytes, [None] when the generator fails. *)
Definition GenerateKeyPair (priv : option bytes) : outcome KeyPair :=
  match priv with Some p => Ret (mkKeyPair (dh_public p) p) | None => Err "rand" end.

Definition KeyPairFromPrivate (privBytes : bytes) : outcome KeyPair :=
  if len privBytes =? 32 then Ret (mkKeyPair (dh_public privBytes) privBytes)
  else Err "crypto/ecdh: invalid private key size".

Definition ComputeSharedSecret (local : KeyPair) (remotePub : bytes) : outcome bytes :=
  if len remotePub =? 32 then
    match dh_shared (Private local) remotePub with Some k => Ret k | None => Err "ecdh" end
  else Err "crypto/ecdh: invalid public key".

Definition kdf_salt (clientPub serverPub : bytes) : bytes := clientPub ++ serverPub.
Definition kdf_info (clientPub serverPub clientID : bytes) (protoVersion : Z) : bytes :=
  bytes_of_string "shadowlink-v" ++ [protoVersion] ++ clientPub ++ serverPub ++ clientID.

(** The HKDF reader delivers 64 bytes: the send key, then the receive key. *)
Definition DeriveSessionKeys (sharedSecret clientPub serverPub clientID : bytes) (protoVersion : Z)
  : outcome SessionKeys :=
  let okm := hkdf sharedSecret (kdf_salt clientPub serverPub)
               (kdf_info clientPub serverPub clientID protoVersion) 64 in
  sendKey ← slice okm 0 32;
  recvKey ← slice okm 32 64;
  Ret (mkKeys sendKey recvKey).

Definition EncryptClientID (clientID receiverPub : bytes) (sender : KeyPair) (now : Z)
    (rnd : option bytes) : outcome bytes :=
  if 16 <? len clientID then Err "ShadowLink: client_id too long" else
  p1 ← put_be 8 (make_bytes (8 + 1 + len clientID)) 0 8 (u64 now);
  p2 ← set_index p1 8 (u8 (len clientID));
  plaintext ← copy_into p2 9 (len p2) clientID;
  match rnd with
  | None => Err "rand"
  | Some nonce =>
    Ret (nonce ++ box_seal plaintext nonce (to_array 32 receiverPub) (to_array 32 (Private sender)))
  end.

Definition DecryptClientID (encrypted senderPub : bytes) (receiver : KeyPair) (now : Z) : outcome bytes :=
  if negb (len encrypted =? EncryptedClientIDSize) then Err "invalid encrypted clientID size" else
  if len encrypted <? 24 then Err "ciphertext too short" else
  nonce ← slice encrypted 0 24;
  body ← slice encrypted 24 (len encrypted);
  match box_open body nonce (to_array 32 senderPub) (to_array 32 (Private receiver)) with
  | None => Err "decryption failed"
  | Some decrypted =>
    if len decrypted <? 9 then Err "invalid plaintext: too short" else
    tsu ← get_be 8 decrypted 0 8;
    let ts := i64 tsu in
    let diff := i64 (now - ts) in
    if (HandshakeDriftWindowSecs <? diff) || (diff <? - HandshakeDriftWindowSecs)
    then Err "handshake timestamp expired" else
    idLen ← index decrypted 8;
    if negb (idLen =? 16) then Err "invalid clientID size" else
    if len decrypted - 9 <? idLen then Err "invalid padding" else
    slice decrypted 9 (9 + idLen)
  end.

Definition encryptSessionToken (sessionID : Z) (key : bytes) (rnd : option bytes) : outcome bytes :=
  gcm ← newGCM key;
  plaintext ← put_be 4 (make_bytes 4) 0 4 sessionID;
  match rnd with
  | None => Err "rand"
  | Some nonce => Ret (nonce ++ aead_seal gcm nonce plaintext [])
  end.

Definition decryptSessionToken (data key : bytes) : outcome Z :=
  gcm ← newGCM key;
  if len data <? 12 + 4 + 16 then Err "session token too short" else
  nonce ← slice data 0 12;
  ciphertext ← slice data 12 (len data);
  match aead_open gcm nonce ciphertext [] with
  | None => Err "cipher: message authentication failed"
  | Some plaintext =>
    if len plaintext <? 4 then Err "invalid session token" else get_be 4 plaintext 0 4
  end.

Definition NewClientHello (clientID serverStaticPub : bytes) (now : Z) (rndKey rndNonce : option bytes)
  : outcome (ClientHello * HandshakeClientState) :=
  ephemeral ← GenerateKeyPair rndKey;
  encClientID ← EncryptClientID clientID serverStaticPub ephemeral now rndNonce;
  Ret (mkClientHello (Public ephemeral) encClientID, mkClientState ephemeral clientID serverStaticPub).

(** The randomness and clock readings of one server handshake. *)
Record server_inputs := mkInputs {
  in_unix : Z;                  (* [timeNow()] in [DecryptClientID] *)
  in_now : Z;                   (* [time.Now()] in [NewSession] *)
  in_eph : option bytes;
  in_migrate : option bytes;
  in_token : option bytes;
}.

(** [session.ID] of the session object at [p]. *)
Definition id_of (sm : SessionManager) (p : nat) : Z :=
  match sm_heap sm !! p with Some s => ID s | None => 0 end.

(** A failure after [sm.Create] leaves the new session in the manager. *)
Definition HandleClientHelloWithVersion (hello : ClientHello) (serverStatic : KeyPair)
    (maxConns chunkSize : Z) (sm : SessionManager) (protoVersion : Z) (i : server_inputs)
  : SessionManager * outcome (ServerHello * nat * bytes) :=
  match wrap_err (DecryptClientID (ch_EncryptedClientID hello) (ch_EphemeralPub hello) serverStatic (in_unix i))
          "invalid client hello: cannot decrypt client_id" with
  | Ret clientID =>
    match (serverEph ← GenerateKeyPair (in_eph i);
           shared ← ComputeSharedSecret serverEph (ch_EphemeralPub hello);
           keys ← DeriveSessionKeys shared (ch_EphemeralPub hello) (Public serverEph) clientID protoVersion;
           '(p, sm') ← Create sm (sk_RecvKey keys) (sk_SendKey keys) (in_now i) (in_migrate i);
           Ret (serverEph, keys, p, sm')) with
    | Ret (serverEph, keys, p, sm') =>
      (sm',
       sessionToken ← encryptSessionToken (id_of sm' p) (sk_SendKey keys) (in_token i);
       Ret (mkServerHello (Public serverEph) sessionToken (id_of sm' p) maxConns chunkSize None None,
            p, clientID))
    | Err e => (sm, Err e)
    | Panic => (sm, Panic)
    end
  | Err e => (sm, Err e)
  | Panic => (sm, Panic)
  end.

Definition HandleClientHello (hello : ClientHello) (serverStatic : KeyPair) (maxConns chunkSize : Z)
    (sm : SessionManager) (i : server_inputs) :=
  HandleClientHelloWithVersion hello serverStatic maxConns chunkSize sm 0 i.

Definition CompleteHandshakeWithVersion (state : HandshakeClientState) (hello : ServerHello)
    (protoVersion now : Z) (rnd : option bytes) : outcome Session :=
  shared ← ComputeSharedSecret (cs_Ephemeral state) (sh_EphemeralPub hello);
  keys ← DeriveSessionKeys shared (Public (cs_Ephemeral state)) (sh_EphemeralPub hello)
           (cs_ClientID state) protoVersion;
  sessID ← wrap_err (decryptSessionToken (sh_EncryptedSessionToken hello) (sk_SendKey keys))
             "invalid server hello: cannot decrypt session token";
  Ret (NewSession sessID (sk_SendKey keys) (sk_RecvKey keys) now rnd).

(** [hello == nil] is [None]; an absent version means 0. *)
Definition CompleteHandshake (state : HandshakeClientState) (hello : option ServerHello)
    (now : Z) (rnd : option bytes) : outcome Session :=
  match hello with
  | None => Err "ShadowLink: ServerHello = nil"
  | Some h =>
    let pv := match sh_ProtoVersion h with Some v => v | None => 0 end in
    CompleteHandshakeWithVersion state h pv now rnd
  end.

(** ** Stream ownership proofs ([core/migrate.go]) *)

Definition migrateHKDFSalt : bytes := bytes_of_string "shadowlink-migrate-v1".

Definition DeriveServerPerClientKey (serverMasterKey clientID : bytes) : bytes :=
  hkdf serverMasterKey migrateHKDFSalt clientID 32.

Definition proof_message (clientID : bytes) (globalStreamID : Z) (nonce : bytes) : bytes :=
  clientID ++ be_bytes 2 globalStreamID ++ nonce.

Definition ComputeStreamProof (perClientKey clientID : bytes) (globalStreamID : Z) (nonce : bytes) : bytes :=
  to_array 32 (hmac256 perClientKey (proof_message clientID globalStreamID nonce)).

Definition VerifyStreamProof (received perClientKey clientID : bytes) (globalStreamID : Z) (nonce : bytes)
  : bool :=
  bytes_eqb received (ComputeStreamProof perClientKey clientID globalStreamID nonce).

End handshake.

(** ** Facts *)

Lemma to_array_id n b : length b = n → to_array n b = b.
Proof. intros <-. unfold to_array. by rewrite take_app_length. Qed.

Lemma to_array_len n b : len (to_array n b) = Z.of_nat n.
Proof. unfold to_array. rewrite len_take, len_app, len_replicate. pose proof (len_nonneg b). lia. Qed.

Lemma i64_u64 x : - 2 ^ 63 ≤ x < 2 ^ 63 → i64 (u64 x) = x.
Proof.
  intros H. unfold i64, u64. rewrite Zplus_mod_idemp_l. rewrite Z.mod_small; lia.
Qed.

Section facts.
Context {HA : AEAD} {HL : AEADLaws} {HDH : DH} {HDL : DHLaws} {HB : NaclBox} {HBL : NaclBoxLaws}.
Context {HK : KDF} {HKL : KDFLaws}.

Definition hello_plaintext (clientID : bytes) (now : Z) : bytes :=
  be_bytes 8 (u64 now) ++ [len clientID] ++ clientID.

Lemma EncryptClientID_eq clientID receiverPub sender now nonce :
  len clientID ≤ 16 →
  EncryptClientID clientID receiverPub sender now (Some nonce)
  = Ret (nonce ++ box_seal (hello_plaintext clientID now) nonce
           (to_array 32 receiverPub) (to_array 32 (Private sender))).
Proof.
  intros Hl. pose proof (len_nonneg clientID). unfold EncryptClientID. zcases.
  fill_start. fill_step. fill_step. fill_step.
  rewrite (drop_exhaust (drop 1 _)), app_nil_r
    by (unfold make_bytes; rewrite !length_drop, length_replicate; unfold len; lia).
  unfold u8. rewrite Z.mod_small by lia. unfold hello_plaintext. rewrite <- !app_assoc. done.
Qed.

Lemma len_hello_plaintext clientID now : len (hello_plaintext clientID now) = 9 + len clientID.
Proof. unfold hello_plaintext. rewrite !len_app, len_be_bytes, len_cons, (@len_nil Z). lia. Qed.

(** Opening a genuine hello: only its age and its id length matter. *)
Lemma DecryptClientID_eq clientID server sender t now nonce :
  len clientID = 16 → len nonce = 24 → length (Private server) = 32%nat → length (Private sender) = 32%nat →
  Public server = dh_public (Private server) → Public sender = dh_public (Private sender) →
  0 ≤ t < 2 ^ 62 → 0 ≤ now < 2 ^ 62 →
  ∃ ct, EncryptClientID clientID (Public server) sender t (Some nonce) = Ret ct
    ∧ DecryptClientID ct (Public sender) server now
      = if (300 <? now - t) || (now - t <? -300) then Err "handshake timestamp expired" else Ret clientID.
Proof.
  intros Hid Hn Hps Hpc Es Ec Ht Hnow. eexists. split; [apply EncryptClientID_eq; lia |].
  set (pt := hello_plaintext clientID t).
  rewrite Es, Ec, !to_array_id;
    try (pose proof (dh_public_len (Private server)); pose proof (dh_public_len (Private sender));
         unfold len in *; lia).
  unfold DecryptClientID, EncryptedClientIDSize.
  assert (len (nonce ++ box_seal pt nonce (dh_public (Private server)) (Private sender)) = 65) as Hlen.
  { rewrite len_app, box_seal_len, Hn. unfold pt. rewrite len_hello_plaintext. lia. }
  rewrite Hlen. cbn [negb Z.eqb Pos.eqb Z.ltb Z.compare Pos.compare Pos.compare_cont].
  rewrite slice_head by lia. ostep. rewrite slice_tail by (rewrite ?len_app in *; lia). ostep.
  rewrite !to_array_id by (try done; pose proof (dh_public_len (Private sender)); unfold len in *; lia).
  rewrite box_open_seal. unfold pt. rewrite len_hello_plaintext, Hid.
  cbn [Z.add Z.ltb Z.compare Pos.compare Pos.compare_cont Pos.add Pos.succ].
  unfold hello_plaintext. rewrite Hid.
  read_be ([] : bytes) (u64 t); [| apply Z.mod_pos_bound; lia].
  change (9 + 16 <? 9) with false. cbn iota.
  rewrite i64_u64 by lia. rewrite i64_small by lia. unfold HandshakeDriftWindowSecs. change (- (300)) with (-300).
  destruct ((300 <? now - t) || (now - t <? -300)); [done |].
  read_index (be_bytes 8 (u64 t)) 16.
  change (negb (16 =? 16)) with false. cbn iota.
  change (9 + 16 - 9 <? 16) with false. cbn iota.
  rewrite (slice_at (be_bytes 8 (u64 t) ++ [16]) clientID []); [done | layout | len_solve | lia].
Qed.

Lemma DeriveSessionKeys_eq shared cp sp id v :
  ∃ ks, DeriveSessionKeys shared cp sp id v = Ret ks ∧ len (sk_SendKey ks) = 32 ∧ len (sk_RecvKey ks) = 32.
Proof.
  unfold DeriveSessionKeys. set (okm := hkdf _ _ _ _).
  assert (len okm = 64) as Hl by (unfold len, okm; rewrite hkdf_len; [done | lia]).
  rewrite slice_ret by lia. ostep. rewrite slice_ret by lia. ostep.
  eexists. split; [done |]. cbn [sk_SendKey sk_RecvKey]. rewrite !len_take, !len_drop. lia.
Qed.

Lemma session_token_roundtrip id key nonce :
  0 ≤ id < 2 ^ 32 → len key = 32 → len nonce = 12 →
  ∃ tok, encryptSessionToken id key (Some nonce) = Ret tok ∧ decryptSessionToken tok key = Ret id.
Proof.
  intros Hid Hk Hn. unfold encryptSessionToken. rewrite newGCM_32 by done. ostep.
  fill_start. fill_step. change (drop 4 (make_bytes 4)) with (@nil Z). rewrite app_nil_r. cbn [app].
  eexists. split; [done |].
  unfold decryptSessionToken. rewrite newGCM_32 by done. ostep.
  rewrite len_app, aead_seal_len, len_be_bytes, Hn.
  change (12 + (Z.of_nat 4 + 16) <? 12 + 4 + 16) with false. cbn iota.
  rewrite slice_head by lia. ostep.
  rewrite slice_tail; [ostep | lia | rewrite aead_seal_len, len_be_bytes; lia].
  rewrite aead_open_seal, len_be_bytes. cbn -[get_be].
  rewrite <- (app_nil_r (be_bytes 4 id)). by apply (get_be_app 4 [] []).
Qed.

Definition keypair_ok (k : KeyPair) : Prop :=
  length (Private k) = 32%nat ∧ Public k = dh_public (Private k).

Lemma handshake_agrees mc cs clientID static cpriv spriv cnonce snonce t now v sm i rnd :
  len clientID = 16 → keypair_ok static → length cpriv = 32%nat → length spriv = 32%nat →
  len cnonce = 24 → len snonce = 12 →
  0 ≤ t < 2 ^ 62 → 0 ≤ in_unix i < 2 ^ 62 → Z.abs (in_unix i - t) ≤ 300 →
  in_eph i = Some spriv → in_token i = Some snonce →
  dh_shared spriv (dh_public cpriv) ≠ None → sm_wf sm →
  ∃ hello state sm' shello tok p client server,
    NewClientHello clientID (Public static) t (Some cpriv) (Some cnonce) = Ret (hello, state)
    ∧ HandleClientHelloWithVersion hello static mc cs sm v i = (sm', Ret (shello, p, clientID))
    ∧ CompleteHandshakeWithVersion state shello v now rnd = Ret client
    ∧ registered sm' (ID server) p server
    ∧ ID client = ID server ∧ SendKey client = RecvKey server ∧ RecvKey client = SendKey server
    ∧ linked client server ∧ linked server client
    ∧ hello = mkClientHello (dh_public cpriv) (ch_EncryptedClientID hello)
    ∧ len (ch_EncryptedClientID hello) = EncryptedClientIDSize
    ∧ shello = mkServerHello (dh_public spriv) tok (ID server) mc cs None None
    ∧ encryptSessionToken (ID server) (RecvKey server) (Some snonce) = Ret tok ∧ 0 ≤ ID server < 2 ^ 32 ∧ len (RecvKey server) = 32
    ∧ destroyed client = false.
Proof.
  intros Hid [Hst Epub] Hcp Hsp Hcn Hsn Ht Hu Habs Heph Htok Hdh Hw.
  set (eph := mkKeyPair (dh_public cpriv) cpriv).
  destruct (DecryptClientID_eq clientID static eph t (in_unix i) cnonce) as (ct & Ect & Edec); try done.
  destruct ((300 <? in_unix i - t) || (in_unix i - t <? -300)) eqn:Eb.
  { exfalso. apply orb_true_iff in Eb as [?%Z.ltb_lt | ?%Z.ltb_lt]; lia. }
  destruct (dh_shared spriv (dh_public cpriv)) as [shared |] eqn:Esh; [| done].
  pose proof (dh_public_len cpriv) as Hcl. pose proof (dh_public_len spriv) as Hsl.
  destruct (DeriveSessionKeys_eq shared (dh_public cpriv) (dh_public spriv) clientID v)
    as (ks & Eks & Hk1 & Hk2).
  assert (∃ p sm', Create sm (sk_RecvKey ks) (sk_SendKey ks) (in_now i) (in_migrate i) = Ret (p, sm'))
    as (p & sm' & Ecr).
  { unfold Create. rewrite !newGCM_32 by done. ostep. eauto. }
  pose proof (Create_wf _ _ _ _ _ _ _ Hw Ecr) as Hw'.
  pose proof (Create_eq _ _ _ _ _ _ _ Ecr) as (s & _ & Hn & Hh & Hm & His & Has & Hss & Hrs & Hws & _ & _ & _ & Hwin & Hseq).
  assert (registered sm' (ID s) p s) as Hreg.
  { split; [by rewrite Hm, His, lookup_insert_eq | by rewrite Hh, lookup_insert_eq]. }
  destruct (smwf_entry sm' Hw' _ _ (proj1 Hreg)) as (s' & Hs' & _ & _ & _ & Hrange).
  destruct (session_token_roundtrip (ID s) (sk_SendKey ks) snonce) as (tok & Etok & Edtok);
    [lia | done | done |].
  exists (mkClientHello (dh_public cpriv) ct), (mkClientState eph clientID (Public static)), sm',
    (mkServerHello (dh_public spriv) tok (ID s) mc cs None None), tok, p,
    (NewSession (ID s) (sk_SendKey ks) (sk_RecvKey ks) now rnd), s.
  split_and!; try done.
  - unfold NewClientHello, GenerateKeyPair. ostep. fold eph. by rewrite Ect.
  - unfold HandleClientHelloWithVersion. cbn [ch_EncryptedClientID ch_EphemeralPub].
    change (dh_public cpriv) with (Public eph) at 1. rewrite Edec. cbn [wrap_err].
    unfold GenerateKeyPair, ComputeSharedSecret. rewrite Heph. ostep.
    rewrite Hcl. cbn [Private Public]. change (32 =? 32) with true. cbn iota. rewrite Esh. ostep. rewrite Eks. ostep.
    rewrite Ecr. ostep. unfold id_of. rewrite (proj2 Hreg), Htok, Etok. done.
  - unfold CompleteHandshakeWithVersion, ComputeSharedSecret. cbn [sh_EphemeralPub cs_Ephemeral Private eph].
    rewrite Hsl. change (32 =? 32) with true. cbn iota. rewrite dh_agree, Esh. ostep.
    cbn [cs_ClientID cs_Ephemeral Public sh_EphemeralPub eph]. rewrite Eks. ostep.
    cbn [sh_EncryptedSessionToken]. rewrite Edtok. done.
  - unfold linked. split_and!; auto using NewSession_wf, newGCM_32, accepted_below_0; done || (cbn; lia).
  - unfold linked. rewrite Hss, Hseq.
    split_and!; auto using NewSession_wf, newGCM_32, accepted_below_new; done || lia.
  - cbn [ch_EncryptedClientID]. rewrite EncryptClientID_eq in Ect by lia. injection Ect as <-. rewrite len_app, box_seal_len, len_hello_plaintext, Hcn, Hid. done.
  - by rewrite Hrs.
  - lia.
  - lia.
  - by rewrite Hrs.
Qed.

(** C6: the handshake agrees.  A client whose 16-byte id and ephemeral key
    reach the server within the drift window, and that completes with the
    version the server used, ends with a session under the server's session id,
    with the two keys crossed over, so that traffic flows in both directions;
    the server has recovered the client id. *)
Theorem handshake_agreement clientID static cpriv spriv cnonce snonce t now v sm i rnd :
  len clientID = 16 → keypair_ok static → length cpriv = 32%nat → length spriv = 32%nat →
  len cnonce = 24 → len snonce = 12 →
  0 ≤ t < 2 ^ 62 → 0 ≤ in_unix i < 2 ^ 62 → Z.abs (in_unix i - t) ≤ 300 →
  in_eph i = Some spriv → in_token i = Some snonce →
  dh_shared spriv (dh_public cpriv) ≠ None → sm_wf sm →
  ∃ hello state sm' shello p client server,
    NewClientHello clientID (Public static) t (Some cpriv) (Some cnonce) = Ret (hello, state)
    ∧ HandleClientHelloWithVersion hello static 4 8192 sm v i = (sm', Ret (shello, p, clientID))
    ∧ CompleteHandshakeWithVersion state shello v now rnd = Ret client
    ∧ registered sm' (ID server) p server
    ∧ ID client = ID server ∧ SendKey client = RecvKey server ∧ RecvKey client = SendKey server
    ∧ linked client server ∧ linked server client.
Proof.
  intros Hid Hst Hcp Hsp Hcn Hsn Ht Hu Habs Heph Htok Hdh Hw.
  destruct (handshake_agrees 4 8192 clientID static cpriv spriv cnonce snonce t now v sm i rnd Hid Hst Hcp Hsp Hcn Hsn Ht Hu Habs Heph Htok Hdh Hw)
    as (hello & state & sm' & shello & tok & p & client & server & H1 & H2 & H3 & H4 & H5 & H6 & H7 & H8 & H9 & _).
  by exists hello, state, sm', shello, p, client, server.
Qed.

(** Freshness of a hello.  A genuine client hello opens to the client id
    exactly while the two clocks differ by at most 300 seconds, in either
    direction, and is refused as expired otherwise. *)
Theorem hello_freshness clientID static sender t now nonce :
  len clientID = 16 → len nonce = 24 → keypair_ok static → keypair_ok sender →
  0 ≤ t < 2 ^ 62 → 0 ≤ now < 2 ^ 62 →
  ∃ ct, EncryptClientID clientID (Public static) sender t (Some nonce) = Ret ct
    ∧ (Z.abs (now - t) ≤ 300 → DecryptClientID ct (Public sender) static now = Ret clientID)
    ∧ (300 < Z.abs (now - t) →
       DecryptClientID ct (Public sender) static now = Err "handshake timestamp expired").
Proof.
  intros Hid Hn [Hs Es] [Hc Ec] Ht Hnow.
  destruct (DecryptClientID_eq clientID static sender t now nonce) as (ct & E & D); try done.
  exists ct. split; [done |]. rewrite D.
  split; intros Habs; destruct (Z.ltb_spec 300 (now - t)), (Z.ltb_spec (now - t) (-300)); done || lia.
Qed.

(** A client id shorter than 16 bytes is sealed without complaint, but the
    server refuses every such hello, at any time: the ciphertext does not have
    the protocol-fixed size. *)
Theorem short_client_id_never_opens clientID static sender t now nonce pub :
  len clientID < 16 → len nonce = 24 →
  ∃ ct, EncryptClientID clientID pub sender t (Some nonce) = Ret ct
    ∧ DecryptClientID ct (Public sender) static now = Err "invalid encrypted clientID size".
Proof.
  intros Hid Hn. eexists. split; [apply EncryptClientID_eq; lia |]. unfold DecryptClientID.
  rewrite len_app, box_seal_len, len_hello_plaintext, Hn. unfold EncryptedClientIDSize.
  destruct (Z.eqb_spec (24 + (9 + len clientID + 16)) 65); [lia | done].
Qed.

(** Downgrade defence.  What goes into HKDF determines the protocol
    version, both ephemeral keys and the client id: two handshakes that differ
    in any of them derive their keys from different inputs. *)
Theorem key_schedule_binds cp sp id v cp' sp' id' v' :
  len cp = 32 → len sp = 32 → len cp' = 32 → len sp' = 32 →
  kdf_salt cp sp = kdf_salt cp' sp' → kdf_info cp sp id v = kdf_info cp' sp' id' v' →
  cp = cp' ∧ sp = sp' ∧ id = id' ∧ v = v'.
Proof.
  intros H1 H2 H3 H4 Es Ei. unfold kdf_salt in Es. unfold kdf_info in Ei.
  apply app_inj_1 in Es as [-> ->]; [| unfold len in *; lia].
  apply app_inv_head in Ei. injection Ei as -> Ei. do 2 apply app_inv_head in Ei. by subst.
Qed.

(** Stream ownership.  A proof verifies exactly when it is the HMAC of the
    client id, the stream id and the session nonce, and the message determines
    all three, whatever the length of the client id. *)
Theorem stream_proof_binding key clientID sid nonce received clientID' sid' nonce' :
  len nonce = 16 → len nonce' = 16 → 0 ≤ sid < 2 ^ 16 → 0 ≤ sid' < 2 ^ 16 →
  VerifyStreamProof (ComputeStreamProof key clientID sid nonce) key clientID sid nonce = true
  ∧ (VerifyStreamProof received key clientID sid nonce = true →
     received = hmac256 key (proof_message clientID sid nonce))
  ∧ (proof_message clientID sid nonce = proof_message clientID' sid' nonce' →
     clientID = clientID' ∧ sid = sid' ∧ nonce = nonce').
Proof.
  intros Hn Hn' Hs Hs'. unfold VerifyStreamProof, bytes_eqb. split_and!.
  - by apply bool_decide_eq_true.
  - intros ->%bool_decide_eq_true. unfold ComputeStreamProof. apply to_array_id.
    pose proof (hmac256_len key (proof_message clientID sid nonce)). unfold len in *. lia.
  - unfold proof_message. rewrite !app_assoc. intros E.
    apply app_inj_2 in E as [E ->]; [| unfold len in *; lia].
    apply app_inj_2 in E as [-> E]; [| by rewrite !length_be_bytes].
    apply (be_bytes_inj 2) in E; done.
Qed.

(** ** Replays at the server *)

(** [handleHandshakeNew] after its rate limits: the hello must open (drift
    check) and its ciphertext must be new to the replay cache, both at the
    server's present time. *)
Definition admit_hello (c : ReplayCache) (hello : ClientHello) (static : KeyPair) (now : Z)
  : bool * ReplayCache :=
  match DecryptClientID (ch_EncryptedClientID hello) (ch_EphemeralPub hello) static now with
  | Ret _ => Accept c (ch_EncryptedClientID hello) now
  | _ => (false, c)
  end.

(** With a replay window of more than twice the drift window, no recorded
    hello is ever admitted a second time (as long as capacity did not push it
    out of the cache): while it is young enough to open, the cache knows it. *)
Theorem hello_admitted_once clientID static sender nonce t c c1 t1 t2 ops hello :
  len clientID = 16 → len nonce = 24 → keypair_ok static → keypair_ok sender →
  0 ≤ t < 2 ^ 62 → 0 ≤ t1 → t1 ≤ t2 < 2 ^ 62 →
  EncryptClientID clientID (Public static) sender t (Some nonce) = Ret (ch_EncryptedClientID hello) →
  ch_EphemeralPub hello = Public sender →
  cache_wf c → 2 * HandshakeDriftWindowSecs < rc_windowSecs c < 2 ^ 62 →
  admit_hello c hello static t1 = (true, c1) →
  Forall (λ o, t1 ≤ op_time o ≤ t2) ops → len (accepts ops) < rc_maxSize c →
  fst (admit_hello (run_cache c1 ops) hello static t2) = false.
Proof.
  intros Hid Hn Hs Hc Ht H1 H2 He Hp Hw Hwin Ha Hops Hcap. unfold admit_hello in *. rewrite Hp in *.
  destruct (DecryptClientID_eq clientID static sender t t1 nonce) as (ct & E & D1); try done; [apply Hs | apply Hc | apply Hs | apply Hc | lia |].
  destruct (DecryptClientID_eq clientID static sender t t2 nonce) as (ct' & E' & D2); try done; [apply Hs | apply Hc | apply Hs | apply Hc | lia |].
  assert (ct = ch_EncryptedClientID hello) as -> by congruence.
  assert (ct' = ch_EncryptedClientID hello) as -> by congruence. rewrite D1 in Ha. rewrite D2.
  destruct (Z.ltb_spec 300 (t1 - t)), (Z.ltb_spec (t1 - t) (-300)); try done.
  destruct (Z.ltb_spec 300 (t2 - t)), (Z.ltb_spec (t2 - t) (-300)); try done. cbn [orb] in *.
  unfold HandshakeDriftWindowSecs in Hwin.
  assert (cache_wf c1) as Hw1 by (pose proof (Accept_wf c (ch_EncryptedClientID hello) t1 Hw) as H'; by rewrite Ha in H').
  destruct (Accept_consts c (ch_EncryptedClientID hello) t1) as [Hm Hws]. rewrite Ha in Hm, Hws. cbn in Hm, Hws.
  destruct (remembered_run ops c1 (ch_EncryptedClientID hello) t1 t2 0) as (n & Hr & Hws');
    rewrite ?Hm, ?Hws; try done || lia; [by apply (Accept_remembers c) |].
  rewrite (remembered_rejects _ _ t1 n t2); try done; try lia. by apply run_cache_wf.
Qed.

(** The window the server actually enforces (it clamps the configured one
    up to the drift window, 300 s) is too short: a hello stamped up to 300 s
    ahead of the server's clock opens for up to 600 s, so a recording of it is
    admitted a second time once 300 s have passed. *)
Theorem hello_replay_gap clientID static sender nonce t c c1 t1 t2 hello :
  len clientID = 16 → len nonce = 24 → keypair_ok static → keypair_ok sender →
  0 ≤ t1 → t < 2 ^ 62 → t2 < 2 ^ 62 →
  t1 < t ≤ t1 + 300 → t1 + 300 ≤ t2 ≤ t + 300 →
  EncryptClientID clientID (Public static) sender t (Some nonce) = Ret (ch_EncryptedClientID hello) →
  ch_EphemeralPub hello = Public sender →
  cache_wf c → rc_windowSecs c = HandshakeDriftWindowSecs →
  admit_hello c hello static t1 = (true, c1) →
  fst (admit_hello c1 hello static t2) = true.
Proof.
  intros Hid Hn Hs Hc H0 Ht Ht2' Ht1 Ht2 He Hp Hw Hwin Ha. unfold admit_hello in *. rewrite Hp in *.
  destruct (DecryptClientID_eq clientID static sender t t1 nonce) as (ct & E & D1); try done; [apply Hs | apply Hc | apply Hs | apply Hc | lia | lia |].
  destruct (DecryptClientID_eq clientID static sender t t2 nonce) as (ct' & E' & D2); try done; [apply Hs | apply Hc | apply Hs | apply Hc | lia | lia |].
  assert (ct = ch_EncryptedClientID hello) as -> by congruence.
  assert (ct' = ch_EncryptedClientID hello) as -> by congruence. rewrite D1 in Ha. rewrite D2.
  destruct (Z.ltb_spec 300 (t1 - t)), (Z.ltb_spec (t1 - t) (-300)); try lia.
  destruct (Z.ltb_spec 300 (t2 - t)), (Z.ltb_spec (t2 - t) (-300)); try lia. cbn [orb] in *.
  pose proof (Accept_remembers _ _ _ _ Hw Ha) as (el & _ & _ & Hi & Hcell & _).
  destruct (Accept_consts c (ch_EncryptedClientID hello) t1) as [_ Hws]. rewrite Ha, Hwin in Hws. cbn in Hws.
  unfold Accept. rewrite Hws, Hi, Hcell. unfold HandshakeDriftWindowSecs. cbn [re_ts Z.eqb].
  rewrite i64_small by lia. destruct (Z.ltb_spec (t2 - t1) 0); [lia |].
  destruct (Z.ltb_spec (t2 - t1) 300); [lia | done].
Qed.

End facts.

(** ** Witnesses *)

Section witnesses.
Import Toy.

Definition priv_c : bytes := replicate 32 3.
Definition priv_s : bytes := replicate 32 4.
Definition static_kp : KeyPair := mkKeyPair (pub (replicate 32 5)) (replicate 32 5).
Definition client_kp : KeyPair := mkKeyPair (pub priv_c) priv_c.
Definition uuid : bytes := replicate 16 6.
Definition nonce24 : bytes := replicate 24 8.
Definition inputs : server_inputs := mkInputs 1100 7 (Some priv_s) None (Some nonce_a).

Lemma static_kp_ok : keypair_ok static_kp.
Proof. split; reflexivity. Qed.
Lemma client_kp_ok : keypair_ok client_kp.
Proof. split; reflexivity. Qed.

Definition hello_ct (t : Z) : bytes := force [] (EncryptClientID uuid (Public static_kp) client_kp t (Some nonce24)).
Definition hello_at (t : Z) : ClientHello := mkClientHello (Public client_kp) (hello_ct t).

Lemma handshake_agreement_witness :
  ∃ hello state sm' shello p client server,
    NewClientHello uuid (Public static_kp) 1000 (Some priv_c) (Some nonce24) = Ret (hello, state)
    ∧ HandleClientHelloWithVersion hello static_kp 4 8192 sm_new 1 inputs = (sm', Ret (shello, p, uuid))
    ∧ CompleteHandshakeWithVersion state shello 1 9 None = Ret client
    ∧ registered sm' (ID server) p server
    ∧ ID client = ID server ∧ SendKey client = RecvKey server ∧ RecvKey client = SendKey server
    ∧ linked client server ∧ linked server client.
Proof.
  apply (handshake_agreement uuid static_kp priv_c priv_s nonce24 nonce_a 1000 9 1 sm_new inputs None);
    try reflexivity; try (cbn; lia).
  - apply static_kp_ok.
  - vm_compute. discriminate.
  - apply sm_new_wf.
Defined.

Lemma hello_freshness_witness :
  ∃ ct, EncryptClientID uuid (Public static_kp) client_kp 1000 (Some nonce24) = Ret ct
    ∧ (Z.abs (1300 - 1000) ≤ 300 → DecryptClientID ct (Public client_kp) static_kp 1300 = Ret uuid)
    ∧ (300 < Z.abs (1300 - 1000) →
       DecryptClientID ct (Public client_kp) static_kp 1300 = Err "handshake timestamp expired").
Proof.
  apply (hello_freshness uuid static_kp client_kp 1000 1300 nonce24); try reflexivity; try lia.
  - apply static_kp_ok.
  - apply client_kp_ok.
Defined.

Lemma short_client_id_never_opens_witness :
  ∃ ct, EncryptClientID (bytes_of_string "user_42") (Public static_kp) client_kp 1000 (Some nonce24) = Ret ct
    ∧ DecryptClientID ct (Public client_kp) static_kp 1000 = Err "invalid encrypted clientID size".
Proof.
  apply (short_client_id_never_opens (bytes_of_string "user_42") static_kp client_kp 1000 1000 nonce24
    (Public static_kp)); reflexivity.
Defined.

Lemma key_schedule_binds_witness :
  Public static_kp = Public static_kp ∧ Public client_kp = Public client_kp ∧ uuid = uuid ∧ 1 = 1.
Proof.
  apply (key_schedule_binds (Public static_kp) (Public client_kp) uuid 1
    (Public static_kp) (Public client_kp) uuid 1); reflexivity.
Defined.

Lemma stream_proof_binding_witness :
  VerifyStreamProof (ComputeStreamProof key_a uuid 7 (replicate 16 2)) key_a uuid 7 (replicate 16 2) = true.
Proof.
  refine (proj1 (stream_proof_binding key_a uuid 7 (replicate 16 2) [] uuid 7 (replicate 16 2) _ _ _ _));
    reflexivity || lia.
Defined.

Definition wide_cache : ReplayCache := NewReplayCacheWithOptions 100 (601 * Second).
Definition default_cache : ReplayCache := NewReplayCacheWithOptions 100 (300 * Second).

Lemma hello_admitted_once_witness :
  fst (admit_hello (run_cache (snd (admit_hello wide_cache (hello_at 1200) static_kp 1000))
    [REvict 1400]) (hello_at 1200) static_kp 1450) = false.
Proof.
  apply (hello_admitted_once uuid static_kp client_kp nonce24 1200 wide_cache
    (snd (admit_hello wide_cache (hello_at 1200) static_kp 1000)) 1000 1450 [REvict 1400] (hello_at 1200));
    first [ apply cache_new_wf | apply static_kp_ok | apply client_kp_ok | lia | idtac ];
    try (repeat constructor; cbn; lia); vm_compute; done.
Defined.

Lemma hello_replay_gap_witness :
  fst (admit_hello (snd (admit_hello default_cache (hello_at 1200) static_kp 1000))
    (hello_at 1200) static_kp 1300) = true.
Proof.
  apply (hello_replay_gap uuid static_kp client_kp nonce24 1200 default_cache
    (snd (admit_hello default_cache (hello_at 1200) static_kp 1000)) 1000 1300 (hello_at 1200));
    first [ apply cache_new_wf | apply static_kp_ok | apply client_kp_ok | lia | idtac ];
    vm_compute; reflexivity.
Defined.

End witnesses.
