(* ===== verification/Base64.v ===== *)
(** * Base64 ([encoding/base64])

    The two encodings the program uses: [RawURLEncoding] for the bodies of
    requests and responses, [StdEncoding] for byte fields of JSON objects.  The
    decoder is the library's: line breaks are skipped, trailing bits of a short
    last group are not checked, anything else outside the alphabet is an error. *)

From S2P Require Import Prelude.
From stdpp Require Import base list.

#[local] Open Scope Z_scope.

(** ** Alphabets *)

Definition b64_char (url : bool) (v : Z) : Z :=
  if v <? 26 then 65 + v else if v <? 52 then 71 + v else if v <? 62 then v - 4
  else if v =? 62 then (if url then 45 else 43) else (if url then 95 else 47).

Definition b64_val (url : bool) (c : Z) : option Z :=
  if (65 <=? c) && (c <=? 90) then Some (c - 65)
  else if (97 <=? c) && (c <=? 122) then Some (c - 71)
  else if (48 <=? c) && (c <=? 57) then Some (c + 4)
  else if c =? (if url then 45 else 43) then Some 62
  else if c =? (if url then 95 else 47) then Some 63
  else None.

(** ** Groups *)

(** The 6-bit digit [i] (from the right) of a 24-bit group. *)
Definition sextet (v i : Z) : Z := Z.land (Z.shiftr v (6 * i)) 63.
Definition group (v0 v1 v2 v3 : Z) : Z :=
  Z.lor (Z.lor (Z.lor (Z.shiftl v0 18) (Z.shiftl v1 12)) (Z.shiftl v2 6)) v3.
Definition octet (v i : Z) : Z := Z.land (Z.shiftr v (8 * i)) 255.

(** [EncodeToString]; [pad]: with ['='] padding. *)
Fixpoint b64_encode (url pad : bool) (l : bytes) : bytes :=
  match l with
  | [] => []
  | [a] => let v := be_value [a; 0; 0] in
           map (b64_char url) [sextet v 3; sextet v 2] ++ (if pad then [61; 61] else [])
  | [a; b] => let v := be_value [a; b; 0] in
              map (b64_char url) [sextet v 3; sextet v 2; sextet v 1] ++ (if pad then [61] else [])
  | a :: b :: c :: r =>
    let v := be_value [a; b; c] in
    map (b64_char url) [sextet v 3; sextet v 2; sextet v 1; sextet v 0] ++ b64_encode url pad r
  end.

(** The text without line breaks, four characters at a time. *)
Fixpoint b64_groups (url pad : bool) (l : bytes) : option bytes :=
  match l with
  | [] => Some []
  | [_] => None
  | [x; y] =>
    if pad then None else
    v0 ← b64_val url x; v1 ← b64_val url y; Some [octet (group v0 v1 0 0) 2]
  | [x; y; z] =>
    if pad then None else
    v0 ← b64_val url x; v1 ← b64_val url y; v2 ← b64_val url z;
    Some [octet (group v0 v1 v2 0) 2; octet (group v0 v1 v2 0) 1]
  | x :: y :: z :: w :: r =>
    v0 ← b64_val url x; v1 ← b64_val url y;
    if pad && (z =? 61) then
      if (w =? 61) && (len r =? 0) then Some [octet (group v0 v1 0 0) 2] else None
    else
    v2 ← b64_val url z;
    if pad && (w =? 61) then
      if len r =? 0 then Some [octet (group v0 v1 v2 0) 2; octet (group v0 v1 v2 0) 1] else None
    else
    v3 ← b64_val url w;
    rest ← b64_groups url pad r;
    Some (octet (group v0 v1 v2 v3) 2 :: octet (group v0 v1 v2 v3) 1 :: octet (group v0 v1 v2 v3) 0 :: rest)
  end.

Definition is_crlf (c : Z) : bool := (c =? 10) || (c =? 13).

(** [DecodeString]; the partial output that comes with an error is not used. *)
Definition b64_decode (url pad : bool) (s : bytes) : option bytes :=
  b64_groups url pad (filter (λ c, is_crlf c = false) s).

Definition RawURL_Encode (l : bytes) : bytes := b64_encode true false l.
Definition RawURL_Decode (s : bytes) : option bytes := b64_decode true false s.
Definition Std_Encode (l : bytes) : bytes := b64_encode false true l.
Definition Std_Decode (s : bytes) : option bytes := b64_decode false true s.

(** ** Round trip *)

(** A fact about the 64 digits, by trying them. *)
Lemma digits64 (f : Z → bool) v : forallb (λ n, f (Z.of_nat n)) (seq 0 64) = true → 0 ≤ v < 64 → f v = true.
Proof.
  intros H Hv. rewrite forallb_forall in H. rewrite <- (Z2Nat.id v) by lia. apply H, in_seq. lia.
Qed.

Lemma b64_val_char url v : 0 ≤ v < 64 → b64_val url (b64_char url v) = Some v.
Proof.
  intros Hv. eapply bool_decide_unpack, Is_true_true.
  refine (digits64 (λ v, bool_decide (b64_val url (b64_char url v) = Some v)) v _ Hv). destruct url; vm_compute; reflexivity.
Qed.

(** Characters of the output are in the alphabet: no line break, no quote and
    nothing that JSON escapes. *)
Definition b64_plain (c : Z) : bool :=
  ((65 <=? c) && (c <=? 90)) || ((97 <=? c) && (c <=? 122)) || ((48 <=? c) && (c <=? 57))
  || (c =? 45) || (c =? 43) || (c =? 95) || (c =? 47) || (c =? 61).

Lemma b64_char_plain url v : 0 ≤ v < 64 → b64_plain (b64_char url v) = true ∧ b64_char url v ≠ 61.
Proof.
  intros Hv. assert (b64_plain (b64_char url v) && negb (b64_char url v =? 61) = true) as [E1 E2%negb_true_iff]%andb_true_iff; [| by rewrite Z.eqb_neq in E2].
  apply (digits64 (λ v, b64_plain (b64_char url v) && negb (b64_char url v =? 61))); [| done]. destruct url; vm_compute; reflexivity.
Qed.

Lemma sextet_range v i : 0 ≤ sextet v i < 64.
Proof. unfold sextet. change 63 with (Z.ones 6). rewrite Z.land_ones by lia. apply Z.mod_pos_bound. lia. Qed.

Lemma sextet_eq v i : 0 ≤ i → sextet v i = (v / 2 ^ (6 * i)) mod 64.
Proof. intros. unfold sextet. change 63 with (Z.ones 6). rewrite Z.land_ones, Z.shiftr_div_pow2 by lia. done. Qed.

Lemma octet_eq v i : 0 ≤ i → octet v i = (v / 2 ^ (8 * i)) mod 256.
Proof. intros. unfold octet. change 255 with (Z.ones 8). rewrite Z.land_ones, Z.shiftr_div_pow2 by lia. done. Qed.

Lemma lor_shift_add n a b : 0 ≤ n → 0 ≤ b < 2 ^ n → Z.lor (Z.shiftl a n) b = a * 2 ^ n + b.
Proof.
  intros Hn Hb. rewrite <- Z.add_nocarry_lor, Z.shiftl_mul_pow2 by (done || (apply Z.bits_inj'; intros i Hi;
    rewrite Z.land_spec, Z.bits_0; destruct (Z.ltb_spec i n); [by rewrite Z.shiftl_spec_low by lia |];
    replace b with (b mod 2 ^ n) by (rewrite Z.mod_small; lia); rewrite Z.mod_pow2_bits_high by lia; by rewrite andb_false_r)).
  done.
Qed.

Lemma group_eq v0 v1 v2 v3 : 0 ≤ v0 < 64 → 0 ≤ v1 < 64 → 0 ≤ v2 < 64 → 0 ≤ v3 < 64 → group v0 v1 v2 v3 = v0 * 2 ^ 18 + v1 * 2 ^ 12 + v2 * 2 ^ 6 + v3.
Proof.
  intros H0 H1 H2 H3. unfold group.
  replace (Z.lor (Z.lor (Z.lor (Z.shiftl v0 18) (Z.shiftl v1 12)) (Z.shiftl v2 6)) v3)
    with (Z.lor (Z.shiftl (Z.lor (Z.shiftl (Z.lor (Z.shiftl v0 6) v1) 6) v2) 6) v3) by (rewrite !Z.shiftl_lor, !Z.shiftl_shiftl by lia; done).
  rewrite !lor_shift_add by (change (2 ^ 6) with 64; lia). lia.
Qed.

Lemma be_value_3 a b c : is_byte a → is_byte b → is_byte c → be_value [a; b; c] = a * 65536 + b * 256 + c.
Proof. unfold is_byte. intros. unfold be_value. cbn [be_acc]. rewrite !lor_shiftl8 by lia. lia. Qed.

(** A group printed and read back, in full and with its last digits cut. *)
Lemma group_back a b c : is_byte a → is_byte b → is_byte c →
  let v := be_value [a; b; c] in
  let g := group (sextet v 3) (sextet v 2) (sextet v 1) (sextet v 0) in
  [octet g 2; octet g 1; octet g 0] = [a; b; c]
  ∧ (c = 0 → sextet v 0 = 0) ∧ (b = 0 → c = 0 → sextet v 1 = 0).
Proof.
  intros Ha Hb Hc v g. assert (v = a * 65536 + b * 256 + c) as Ev by by apply be_value_3. unfold is_byte in *.
  assert (g = v) as Eg.
  { unfold g. rewrite group_eq by apply sextet_range. rewrite !sextet_eq by lia. change (2 ^ (6 * 3)) with 262144. change (2 ^ (6 * 2)) with 4096.
    change (2 ^ (6 * 1)) with 64. change (2 ^ (6 * 0)) with 1. clear g. clearbody v. subst v. Z.to_euclidean_division_equations. lia. }
  rewrite Eg, !octet_eq, !sextet_eq by lia. change (2 ^ (8 * 2)) with 65536. change (2 ^ (8 * 1)) with 256. change (2 ^ (8 * 0)) with 1.
  change (2 ^ (6 * 1)) with 64. change (2 ^ (6 * 0)) with 1. clear Eg g. clearbody v. subst v.
  split_and!; [| intros ->; Z.to_euclidean_division_equations; lia | intros -> ->; Z.to_euclidean_division_equations; lia].
  repeat f_equal; Z.to_euclidean_division_equations; lia.
Qed.

Lemma b64_encode_plain url pad l : Forall (λ c, b64_plain c = true) (b64_encode url pad l).
Proof.
  assert (∀ v i, b64_plain (b64_char url (sextet v i)) = true) as Hp by (intros; apply b64_char_plain, sextet_range).
  induction l as [l IH] using (induction_ltof1 _ length). destruct l as [| a [| b [| c r]]]; cbn [b64_encode map app].
  - constructor.
  - destruct pad; repeat (constructor; [done |]); constructor.
  - destruct pad; repeat (constructor; [done |]); constructor.
  - repeat (constructor; [done |]). apply IH. unfold ltof. cbn. lia.
Qed.

Lemma b64_groups_encode url pad l : is_bytes l → b64_groups url pad (b64_encode url pad l) = Some l.
Proof.
  assert (is_byte 0) as H0 by (unfold is_byte; lia).
  assert (∀ v i, b64_val url (b64_char url (sextet v i)) = Some (sextet v i)) as Hv by (intros; apply b64_val_char, sextet_range).
  assert (∀ v i, (b64_char url (sextet v i) =? 61) = false) as Hn by (intros; apply Z.eqb_neq, b64_char_plain, sextet_range).
  induction l as [l IH] using (induction_ltof1 _ length). unfold is_bytes in *. destruct l as [| a [| b [| c r]]]; intros Hl; cbn [b64_encode map app].
  - done.
  - rewrite Forall_singleton in Hl. destruct (group_back a 0 0 Hl H0 H0) as (E & E0 & E1). rewrite E0, E1 in E by done. injection E as E _ _.
    destruct pad; cbn [app b64_groups andb]; rewrite !Hv; cbn; by rewrite E.
  - apply Forall_cons in Hl as [Ha Hl]. rewrite Forall_singleton in Hl. destruct (group_back a b 0 Ha Hl H0) as (E & E0 & _). rewrite E0 in E by done. injection E as E E' _.
    destruct pad; cbn [app b64_groups andb]; rewrite !Hv, ?Hn; cbn [mbind option_bind]; rewrite ?Hv; cbn; by rewrite E, E'.
  - rewrite !Forall_cons in Hl. destruct Hl as (Ha & Hb & Hc & Hr). destruct (group_back a b c Ha Hb Hc) as (E & _). injection E as E E' E''.
    cbn [app b64_groups andb]. rewrite !Hv, !Hn, !andb_false_r. cbn [mbind option_bind]. rewrite IH; [| unfold ltof; cbn; lia | done].
    cbn [mbind option_bind]. by rewrite E, E', E''.
Qed.

Lemma no_crlf l : Forall (λ c, b64_plain c = true) l → filter (λ c, is_crlf c = false) l = l.
Proof.
  induction 1 as [| c l Hc Hl IH]; [done |]. rewrite filter_cons_True, IH; [done |].
  unfold is_crlf. destruct (Z.eqb_spec c 10) as [-> | ]; [done |]. by destruct (Z.eqb_spec c 13) as [-> | ].
Qed.

Lemma b64_roundtrip url pad l : is_bytes l → b64_decode url pad (b64_encode url pad l) = Some l.
Proof.
  intros Hl. unfold b64_decode. rewrite no_crlf by apply b64_encode_plain. by apply b64_groups_encode.
Qed.

Lemma b64_encode_len l : len (RawURL_Encode l) = (4 * len l + 2) / 3.
Proof.
  unfold RawURL_Encode. induction l as [l IH] using (induction_ltof1 _ length). destruct l as [| a [| b [| c r]]]; try done.
  cbn [b64_encode map app]. rewrite !len_cons, IH by (unfold ltof; cbn; lia). replace (4 * (1 + (1 + (1 + len r))) + 2) with (4 * len r + 2 + 4 * 3) by lia.
  rewrite Z.div_add by lia. lia.
Qed.

Lemma b64_encode_nil l : RawURL_Encode l = [] → l = [].
Proof. by destruct l as [| a [| b [| c r]]]. Qed.
