(* ===== verification/Json.v ===== *)
(** * JSON as [encoding/json] reads and writes it

    The text of a value, the compact encoder with its HTML-safe escapes, the
    decoder with Go's syntax, nesting limit and replacement of malformed UTF-8,
    and the conversions to struct fields: keys are matched up to case, unknown
    keys are skipped, [null] leaves a field alone, a value of the wrong type is an
    error.  A key that occurs twice is decoded afresh each time. *)

From S2P Require Import Prelude.
From S2P Require Import Base64.
From stdpp Require Import base list gmap strings.

#[local] Open Scope Z_scope.

#[local] Set Warnings "-register-all".

Inductive json :=
| JNull | JBool (b : bool) | JNum (lit : bytes) | JStr (s : bytes) | JArr (l : list json) | JObj (l : list (bytes * json)).

(** ** UTF-8 *)

Definition is_cont (c : Z) : bool := (128 <=? c) && (c <=? 191).
Definition within (lo c hi : Z) : bool := (lo <=? c) && (c <=? hi).

(** The length of the well-formed rune at the front; 0: there is none. *)
Definition rune_size (s : bytes) : nat :=
  match s with
  | [] => 0%nat
  | c :: r =>
    if c <? 128 then 1%nat else
    if within 194 c 223 then match r with c1 :: _ => if is_cont c1 then 2%nat else 0%nat | _ => 0%nat end else
    if within 224 c 239 then
      match r with
      | c1 :: c2 :: _ =>
        let lo := if c =? 224 then 160 else 128 in let hi := if c =? 237 then 159 else 191 in
        if within lo c1 hi && is_cont c2 then 3%nat else 0%nat
      | _ => 0%nat
      end else
    if within 240 c 244 then
      match r with
      | c1 :: c2 :: c3 :: _ =>
        let lo := if c =? 240 then 144 else 128 in let hi := if c =? 244 then 143 else 191 in
        if within lo c1 hi && is_cont c2 && is_cont c3 then 4%nat else 0%nat
      | _ => 0%nat
      end else 0%nat
  end.

Definition encode_rune (r : Z) : bytes :=
  if r <? 128 then [r]
  else if r <? 2048 then [192 + r / 64; 128 + r mod 64]
  else if r <? 65536 then [224 + r / 4096; 128 + r / 64 mod 64; 128 + r mod 64]
  else [240 + r / 262144; 128 + r / 4096 mod 64; 128 + r / 64 mod 64; 128 + r mod 64].

Definition RuneError : bytes := [239; 191; 189].

(** ** Strings *)

Definition hex_digit (v : Z) : Z := if v <? 10 then 48 + v else 87 + v.
Definition hex_val (c : Z) : option Z :=
  if within 48 c 57 then Some (c - 48) else if within 97 c 102 then Some (c - 87) else if within 65 c 70 then Some (c - 55) else None.

Definition u_escape (r : Z) : bytes := [92; 117; hex_digit (r / 4096); hex_digit (r / 256 mod 16); hex_digit (r / 16 mod 16); hex_digit (r mod 16)].

(** What the encoder writes for the first character of [s], and the number of
    bytes it covers. *)
Definition quote_step (s : bytes) : bytes * nat :=
  match s with
  | [] => ([], 0%nat)
  | c :: _ =>
    if c <? 128 then
      ((if (c =? 34) || (c =? 92) then [92; c]
        else if c =? 8 then [92; 98] else if c =? 12 then [92; 102] else if c =? 10 then [92; 110]
        else if c =? 13 then [92; 114] else if c =? 9 then [92; 116]
        else if (c <? 32) || (c =? 60) || (c =? 62) || (c =? 38) then u_escape c else [c]), 1%nat)
    else match rune_size s with
         | O => (u_escape 65533, 1%nat)
         | n => if bool_decide (take n s = [226; 128; 168]) then (u_escape 8232, n)
                else if bool_decide (take n s = [226; 128; 169]) then (u_escape 8233, n)
                else (take n s, n)
         end
  end.

Fixpoint quote_chars (fuel : nat) (s : bytes) : bytes :=
  match fuel, s with
  | S fuel', _ :: _ => let '(out, n) := quote_step s in out ++ quote_chars fuel' (drop n s)
  | _, _ => []
  end.
Definition quote (s : bytes) : bytes := 34 :: quote_chars (length s) s ++ [34].

(** [\uXXXX] at the front. *)
Definition getu4 (s : bytes) : option (Z * bytes) :=
  match s with
  | b :: u :: h1 :: h2 :: h3 :: h4 :: r =>
    if (b =? 92) && (u =? 117) then
      v1 ← hex_val h1; v2 ← hex_val h2; v3 ← hex_val h3; v4 ← hex_val h4;
      Some (v1 * 4096 + v2 * 256 + v3 * 16 + v4, r)
    else None
  | _ => None
  end.

(** One character of a string literal and what follows it. *)
Definition unquote_step (s : bytes) : option (bytes * bytes) :=
  match s with
  | [] => None
  | c :: r =>
    if c <? 32 then None else
    if c =? 92 then
      match r with
      | [] => None
      | e :: r' =>
        if (e =? 34) || (e =? 92) || (e =? 47) then Some ([e], r')
        else if e =? 98 then Some ([8], r') else if e =? 102 then Some ([12], r') else if e =? 110 then Some ([10], r')
        else if e =? 114 then Some ([13], r') else if e =? 116 then Some ([9], r')
        else
          '(u, r1) ← getu4 s;
          if within 55296 u 57343 then
            match getu4 r1 with
            | Some (u', r2) =>
              if (u <? 56320) && within 56320 u' 57343
              then Some (encode_rune (65536 + (u - 55296) * 1024 + (u' - 56320)), r2) else Some (RuneError, r1)
            | None => Some (RuneError, r1)
            end
          else Some (encode_rune u, r1)
      end
    else match rune_size s with O => Some (RuneError, r) | n => Some (take n s, drop n s) end
  end.

(** The rest of a literal after the opening quote. *)
Fixpoint parse_string (fuel : nat) (s : bytes) : option (bytes * bytes) :=
  match fuel with
  | O => None
  | S fuel' =>
    match s with
    | [] => None
    | c :: r0 =>
      if c =? 34 then Some ([], r0)
      else '(out, r) ← unquote_step s; '(t, r') ← parse_string fuel' r; Some (out ++ t, r')
    end
  end.

(** ** Numbers *)

Definition is_dig (c : Z) : bool := within 48 c 57.
Fixpoint span (s : bytes) : bytes * bytes :=
  match s with
  | c :: r => if is_dig c then let '(d, r') := span r in (c :: d, r') else ([], s)
  | [] => ([], [])
  end.

(** At least one digit. *)
Definition digits1 (s : bytes) : option (bytes * bytes) := match span s with ([], _) => None | p => Some p end.

Definition parse_frac (s : bytes) : option (bytes * bytes) :=
  match s with
  | c :: r => if c =? 46 then '(d, r') ← digits1 r; Some (c :: d, r') else Some ([], s)
  | [] => Some ([], [])
  end.
Definition parse_exp (s : bytes) : option (bytes * bytes) :=
  match s with
  | c :: r =>
    if (c =? 101) || (c =? 69) then
      let '(sg, r1) := match r with x :: r1 => if (x =? 43) || (x =? 45) then ([x], r1) else ([], r) | [] => ([], []) end in
      '(d, r') ← digits1 r1; Some (c :: sg ++ d, r')
    else Some ([], s)
  | [] => Some ([], [])
  end.
Definition parse_int_part (s : bytes) : option (bytes * bytes) :=
  match s with c :: r => if c =? 48 then Some ([c], r) else digits1 s | [] => None end.
Definition parse_num (s : bytes) : option (bytes * bytes) :=
  let '(sg, s1) := match s with c :: r => if c =? 45 then ([c], r) else ([], s) | [] => ([], []) end in
  '(i, s2) ← parse_int_part s1; '(f, s3) ← parse_frac s2; '(e, s4) ← parse_exp s3;
  Some (sg ++ i ++ f ++ e, s4).

(** ** Values *)

Fixpoint skip_ws (s : bytes) : bytes :=
  match s with c :: r => if (c =? 32) || (c =? 9) || (c =? 10) || (c =? 13) then skip_ws r else s | [] => [] end.

Fixpoint strip (p s : bytes) : option bytes :=
  match p, s with
  | [], _ => Some s
  | a :: p', b :: s' => if a =? b then strip p' s' else None
  | _, [] => None
  end.

(** Items separated by commas up to the closing bracket. *)
Fixpoint parse_list {A} (item : bytes → option (A * bytes)) (close : Z) (fuel : nat) (s : bytes) : option (list A * bytes) :=
  match fuel with
  | O => None
  | S fuel' =>
    '(v, r) ← item s;
    match skip_ws r with
    | c :: r' =>
      if c =? 44 then '(vs, r'') ← parse_list item close fuel' r'; Some (v :: vs, r'')
      else if c =? close then Some ([v], r') else None
    | [] => None
    end
  end.

(** After the opening bracket. *)
Definition parse_items {A} (item : bytes → option (A * bytes)) (close : Z) (s : bytes) : option (list A * bytes) :=
  match skip_ws s with
  | c :: r => if c =? close then Some ([], r) else parse_list item close (S (length s)) s
  | [] => None
  end.

Definition parse_member (value : bytes → option (json * bytes)) (s : bytes) : option ((bytes * json) * bytes) :=
  match skip_ws s with
  | c :: r =>
    if c =? 34 then
      '(k, r1) ← parse_string (S (length r)) r;
      match skip_ws r1 with
      | c2 :: r2 => if c2 =? 58 then '(v, r3) ← value r2; Some ((k, v), r3) else None
      | [] => None
      end
    else None
  | [] => None
  end.

Fixpoint parse_value (depth : nat) (s : bytes) : option (json * bytes) :=
  let s := skip_ws s in
  match s with
  | [] => None
  | c :: r =>
    if c =? 123 then match depth with O => None | S d => '(l, r') ← parse_items (parse_member (parse_value d)) 125 r; Some (JObj l, r') end
    else if c =? 91 then match depth with O => None | S d => '(l, r') ← parse_items (parse_value d) 93 r; Some (JArr l, r') end
    else if c =? 34 then '(t, r') ← parse_string (S (length r)) r; Some (JStr t, r')
    else if c =? 116 then r' ← strip (bytes_of_string "true") s; Some (JBool true, r')
    else if c =? 102 then r' ← strip (bytes_of_string "false") s; Some (JBool false, r')
    else if c =? 110 then r' ← strip (bytes_of_string "null") s; Some (JNull, r')
    else '(n, r') ← parse_num s; Some (JNum n, r')
  end.

Definition maxNestingDepth : nat := Z.to_nat 10000.

Definition parse (s : bytes) : option json :=
  '(v, r) ← parse_value maxNestingDepth s; match skip_ws r with [] => Some v | _ => None end.

Fixpoint commas (l : list bytes) : bytes :=
  match l with [] => [] | [x] => x | x :: l' => x ++ 44 :: commas l' end.

Fixpoint print (v : json) : bytes :=
  match v with
  | JNull => bytes_of_string "null"
  | JBool b => bytes_of_string (if b then "true" else "false")
  | JNum lit => lit
  | JStr s => quote s
  | JArr l => 91 :: commas (map print l) ++ [93]
  | JObj l => 123 :: commas (map (λ kv, quote (fst kv) ++ 58 :: print (snd kv)) l) ++ [125]
  end.

(** ** Conversions to Go values *)

(** Keys are compared up to case, with the two other letters that fold to ASCII. *)
Fixpoint foldName (k : bytes) : bytes :=
  match k with
  | [] => []
  | c :: r =>
    match c, r with
    | 197, 191 :: r' => 83 :: foldName r'
    | 226, 132 :: 170 :: r' => 75 :: foldName r'
    | _, _ => (if within 97 c 122 then c - 32 else c) :: foldName r
    end
  end.
Definition key_is (name : string) (k : bytes) : bool := bytes_eqb (foldName (bytes_of_string name)) (foldName k).

Section struct.
Context {T : Type} (field : T → bytes → json → option T).

Fixpoint dec_members (t : T) (l : list (bytes * json)) : option T :=
  match l with [] => Some t | (k, v) :: l' => t' ← field t k v; dec_members t' l' end.
Definition dec_struct (t : T) (v : json) : option T :=
  match v with JObj l => dec_members t l | JNull => Some t | _ => None end.
End struct.

(** Each decoder takes the value the field has. *)
Definition dec_string (old : bytes) (v : json) : option bytes := match v with JStr s => Some s | JNull => Some old | _ => None end.
Definition dec_bool (old : bool) (v : json) : option bool := match v with JBool b => Some b | JNull => Some old | _ => None end.

(** A literal with a fraction or an exponent is not an integer. *)
Definition lit_int (lit : bytes) : option Z :=
  match lit with
  | c :: r => if c =? 45 then if forallb is_dig r then Some (- undecimal r) else None
              else if forallb is_dig lit then Some (undecimal lit) else None
  | [] => None
  end.
Definition dec_int (lo hi : Z) (old : Z) (v : json) : option Z :=
  match v with
  | JNum lit => n ← lit_int lit; if within lo n hi then Some n else None
  | JNull => Some old
  | _ => None
  end.
Definition dec_uint (hi : Z) (old : Z) (v : json) : option Z :=
  match v with
  | JNum (c :: r) => if c =? 45 then None else dec_int 0 hi old v
  | _ => dec_int 0 hi old v
  end.
Definition dec_list {A} (dec : json → option A) (old : list A) (v : json) : option (list A) :=
  match v with JArr l => mapM dec l | JNull => Some [] | _ => None end.
Definition dec_bytes (old : bytes) (v : json) : option bytes :=
  match v with JStr s => Std_Decode s | _ => dec_list (dec_uint 255 0) old v end.
Definition dec_ptr {A} (dec : json → option A) (v : json) : option (option A) :=
  match v with JNull => Some None | _ => a ← dec v; Some (Some a) end.
Fixpoint dec_entries {A} (dec : json → option A) (m : gmap bytes A) (l : list (bytes * json)) : option (gmap bytes A) :=
  match l with [] => Some m | (k, v) :: l' => a ← dec v; dec_entries dec (<[k := a]> m) l' end.
Definition dec_map {A} (dec : json → option A) (old : gmap bytes A) (v : json) : option (gmap bytes A) :=
  match v with JObj l => dec_entries dec old l | JNull => Some ∅ | _ => None end.

(** Integers as the encoder writes them: 20 digits are enough for 64 bits. *)
Definition enc_int (n : Z) : json := JNum (if n <? 0 then 45 :: decimal 20 (- n) else decimal 20 n).
Definition enc_bytes (b : bytes) : json := JStr (Std_Encode b).

(** ** What the encoder writes, the decoder reads *)

Definition is_ascii (s : bytes) : Prop := Forall (λ c, 0 ≤ c < 128) s.

(** An integer literal. *)
Definition int_digits (ds : bytes) : bool :=
  forallb is_dig ds && match ds with [] => false | [_] => true | c :: _ => negb (c =? 48) end.
Definition int_lit (lit : bytes) : bool :=
  match lit with c :: r => if c =? 45 then int_digits r else int_digits lit | [] => false end.

Fixpoint json_wf (v : json) : Prop :=
  match v with
  | JNull | JBool _ => True
  | JNum lit => int_lit lit = true
  | JStr s => is_ascii s
  | JArr l => (fix go l := match l with [] => True | x :: l' => json_wf x ∧ go l' end) l
  | JObj l => (fix go l := match l with [] => True | (k, x) :: l' => is_ascii k ∧ json_wf x ∧ go l' end) l
  end.

Fixpoint jdepth (v : json) : nat :=
  match v with
  | JArr l => S (max_list (map jdepth l))
  | JObj l => S (max_list (map (λ kv, jdepth (snd kv)) l))
  | _ => 0%nat
  end.

Section json_ind.
Context (P : json → Prop) (H0 : P JNull) (H1 : ∀ b, P (JBool b)) (H2 : ∀ l, P (JNum l)) (H3 : ∀ s, P (JStr s))
  (H4 : ∀ l, Forall P l → P (JArr l)) (H5 : ∀ l, Forall (λ kv : bytes * json, P (snd kv)) l → P (JObj l)).
Fixpoint json_rec' (v : json) : P v :=
  match v with
  | JNull => H0 | JBool b => H1 b | JNum l => H2 l | JStr s => H3 s
  | JArr l => H4 l ((fix go l := match l return Forall P l with [] => Forall_nil_2 _ | x :: l' => Forall_cons_2 _ x _ (json_rec' x) (go l') end) l)
  | JObj l => H5 l ((fix go l := match l return Forall (λ kv : bytes * json, P (snd kv)) l with [] => Forall_nil_2 _ | kv :: l' => Forall_cons_2 _ kv _ (json_rec' (snd kv)) (go l') end) l)
  end.
End json_ind.

Lemma wf_arr l : json_wf (JArr l) ↔ Forall json_wf l.
Proof. induction l as [| x l IH]; [done |]. rewrite Forall_cons, <- IH. done. Qed.
Lemma wf_obj l : json_wf (JObj l) ↔ Forall (λ kv : bytes * json, is_ascii (fst kv) ∧ json_wf (snd kv)) l.
Proof. induction l as [| [k x] l IH]; [done |]. rewrite Forall_cons, <- IH. cbn. tauto. Qed.

(** *** Strings *)

Definition esc (c : Z) : bytes := fst (quote_step [c]).

Lemma quote_step_ascii c s : 0 ≤ c < 128 → quote_step (c :: s) = (esc c, 1%nat).
Proof. intros Hc. unfold esc, quote_step. assert (c <? 128 = true) as -> by (apply Z.ltb_lt; lia). done. Qed.

Lemma hex_back v : 0 ≤ v < 16 → hex_val (hex_digit v) = Some v.
Proof. intros Hv. assert (v ∈ [0;1;2;3;4;5;6;7;8;9;10;11;12;13;14;15]) as H by (rewrite !elem_of_cons; lia). rewrite !elem_of_cons, elem_of_nil in H. destruct_or! H; by subst. Qed.

Lemma u_escape_back c r : 0 ≤ c < 128 → unquote_step (u_escape c ++ r) = Some ([c], r).
Proof.
  intros Hc. unfold u_escape, unquote_step. cbn [app]. change (92 <? 32) with false. change (92 =? 92) with true. cbn [orb Z.eqb].
  change (117 =? 34) with false. cbn -[getu4 encode_rune within].
  unfold getu4. change ((92 =? 92) && (117 =? 117)) with true. cbn iota.
  rewrite !hex_back; [| Z.to_euclidean_division_equations; lia ..]. cbn [mbind option_bind].
  replace (c / 4096 * 4096 + c / 256 mod 16 * 256 + c / 16 mod 16 * 16 + c mod 16) with c by (Z.to_euclidean_division_equations; lia).
  unfold within. rewrite (proj2 (Z.leb_gt 55296 c)) by lia. cbn [andb]. unfold encode_rune. by rewrite (proj2 (Z.ltb_lt c 128)) by lia.
Qed.

Lemma esc_back c r : 0 ≤ c < 128 → unquote_step (esc c ++ r) = Some ([c], r) ∧ ∃ x t, esc c = x :: t ∧ x ≠ 34.
Proof.
  intros Hc. assert (∃ x t, u_escape c = x :: t ∧ x ≠ 34) as Hu by (by eexists _, _).
  unfold esc, quote_step. rewrite (proj2 (Z.ltb_lt c 128)) by lia. cbn [fst].
  destruct (Z.eqb_spec c 34) as [-> | N34]; [split; [done | by eexists _, _] |].
  destruct (Z.eqb_spec c 92) as [-> | N92]; [split; [done | by eexists _, _] |]. cbn [orb].
  destruct (Z.eqb_spec c 8) as [-> | ]; [split; [done | by eexists _, _] |].
  destruct (Z.eqb_spec c 12) as [-> | ]; [split; [done | by eexists _, _] |].
  destruct (Z.eqb_spec c 10) as [-> | ]; [split; [done | by eexists _, _] |].
  destruct (Z.eqb_spec c 13) as [-> | ]; [split; [done | by eexists _, _] |].
  destruct (Z.eqb_spec c 9) as [-> | ]; [split; [done | by eexists _, _] |].
  destruct (_ || _ || _ || _) eqn:E; [split; [by apply u_escape_back | done] |].
  rewrite !orb_false_iff in E. destruct E as (((E%Z.ltb_ge & _) & _) & _). split; [| by eexists _, _].
  cbn [app]. unfold unquote_step, rune_size. rewrite (proj2 (Z.ltb_ge c 32)), (proj2 (Z.eqb_neq c 92)), (proj2 (Z.ltb_lt c 128)) by lia. done.
Qed.

Lemma quote_back s f r : is_ascii s → (length s < f)%nat → parse_string f (quote_chars (length s) s ++ 34 :: r) = Some (s, r).
Proof.
  intros Hs. revert f. induction Hs as [| c s Hc Hs IH]; intros f Hf; (destruct f as [| f]; [cbn in Hf; lia |]); [done |].
  cbn [length quote_chars]. rewrite quote_step_ascii by done. cbn [drop]. rewrite drop_0, <- app_assoc.
  destruct (esc_back c (quote_chars (length s) s ++ 34 :: r) Hc) as (E & x & t & Ex & Hx). cbn [parse_string].
  rewrite Ex in *. cbn [app] in *. rewrite (proj2 (Z.eqb_neq x 34)) by done. rewrite E. cbn [mbind option_bind]. rewrite IH by (cbn in Hf; lia). done.
Qed.

Lemma quote_chars_len s : is_ascii s → (length s ≤ length (quote_chars (length s) s))%nat.
Proof.
  induction 1 as [| c s Hc Hs IH]; [done |]. cbn [length quote_chars]. rewrite quote_step_ascii, length_app by done. cbn [drop]. rewrite drop_0.
  destruct (esc_back c [] Hc) as (_ & x & t & -> & _). cbn. lia.
Qed.

Lemma parse_quote s r : is_ascii s → parse_string (S (length (quote_chars (length s) s ++ 34 :: r))) (quote_chars (length s) s ++ 34 :: r) = Some (s, r).
Proof. intros Hs. apply quote_back; [done |]. rewrite length_app. pose proof (quote_chars_len s Hs). cbn. lia. Qed.

(** *** Numbers *)

(** What can follow a number without continuing it. *)
Definition stops (r : bytes) : Prop :=
  match r with [] => True | c :: _ => is_dig c = false ∧ c ≠ 46 ∧ c ≠ 101 ∧ c ≠ 69 end.

Lemma span_app ds r : forallb is_dig ds = true → stops r → span (ds ++ r) = (ds, r).
Proof.
  intros Hd Hr. induction ds as [| c ds IH]; cbn [app span].
  - destruct r as [| c r]; [done |]. cbn. by destruct Hr as [-> _].
  - cbn in Hd. apply andb_true_iff in Hd as [-> Hd]. by rewrite IH.
Qed.

Lemma int_part_back ds r : int_digits ds = true → stops r → parse_int_part (ds ++ r) = Some (ds, r).
Proof.
  unfold int_digits. intros [Hd Hh]%andb_true_iff Hr. pose proof (span_app ds r Hd Hr) as Hs. destruct ds as [| c ds]; [done |]. unfold parse_int_part. cbn [app] in *.
  destruct (Z.eqb_spec c 48) as [-> |].
  - by destruct ds.
  - unfold digits1. by rewrite Hs.
Qed.

Lemma frac_exp_none r : stops r → parse_frac r = Some ([], r) ∧ parse_exp r = Some ([], r).
Proof.
  destruct r as [| c r]; [done |]. intros (_ & H1 & H2 & H3). unfold parse_frac, parse_exp.
  by rewrite (proj2 (Z.eqb_neq c 46)), (proj2 (Z.eqb_neq c 101)), (proj2 (Z.eqb_neq c 69)).
Qed.

Lemma parse_int_lit lit r : int_lit lit = true → stops r → parse_num (lit ++ r) = Some (lit, r).
Proof.
  intros Hl Hr. destruct (frac_exp_none r Hr) as [Ef Ee]. unfold int_lit in Hl. destruct lit as [| c l]; [done |]. unfold parse_num. cbn [app].
  destruct (c =? 45) eqn:Ec.
  - rewrite int_part_back by done. cbn [mbind option_bind]. rewrite Ef. cbn [mbind option_bind]. rewrite Ee. cbn. by rewrite app_nil_r.
  - change (c :: l ++ r) with ((c :: l) ++ r). rewrite (int_part_back (c :: l) r) by done. cbn [mbind option_bind]. rewrite Ef. cbn [mbind option_bind]. rewrite Ee. cbn. by rewrite app_nil_r.
Qed.

(** *** Lists and values *)

Definition is_ws (c : Z) : bool := (c =? 32) || (c =? 9) || (c =? 10) || (c =? 13).

(** A first character that is neither blank nor punctuation of a list. *)
Definition opens (s : bytes) : Prop := ∃ c r, s = c :: r ∧ is_ws c = false ∧ c ≠ 44 ∧ c ≠ 93 ∧ c ≠ 125.

Lemma skip_ws_opens c r : is_ws c = false → skip_ws (c :: r) = c :: r.
Proof. unfold is_ws. cbn. by intros ->. Qed.

Lemma parse_list_commas {A} (item : bytes → option (A * bytes)) (pr : A → bytes) close l f rest :
  close = 93 ∨ close = 125 → l ≠ [] → (length l ≤ f)%nat →
  (∀ x r, x ∈ l → stops r → item (pr x ++ r) = Some (x, r)) →
  parse_list item close f (commas (map pr l) ++ close :: rest) = Some (l, rest).
Proof.
  intros Hc. revert f. induction l as [| x l IH]; [done |]. intros f _ Hf Hi. destruct f as [| f]; [cbn in Hf; lia |]. cbn [parse_list].
  destruct l as [| y l].
  - cbn [map commas]. rewrite Hi; [| left | destruct Hc as [-> | ->]; done]. cbn [mbind option_bind]. by destruct Hc as [-> | ->].
  - change (commas (map pr (x :: y :: l))) with (pr x ++ 44 :: commas (map pr (y :: l))). rewrite <- app_assoc. cbn [app].
    rewrite Hi; [| left | done]. cbn [mbind option_bind]. rewrite skip_ws_opens by done. change (44 =? 44) with true. cbn iota.
    rewrite IH; [done | done | cbn in *; lia | intros z r Hz; apply Hi; by right].
Qed.

Lemma commas_len l : (length l ≤ S (length (commas l)))%nat.
Proof. induction l as [| x [| y l] IH]; cbn [length commas] in *; [lia | lia |]. rewrite length_app. cbn. lia. Qed.

Lemma parse_items_commas {A} (item : bytes → option (A * bytes)) (pr : A → bytes) close l rest :
  close = 93 ∨ close = 125 →
  (∀ x, x ∈ l → opens (pr x)) → (∀ x r, x ∈ l → stops r → item (pr x ++ r) = Some (x, r)) →
  parse_items item close (commas (map pr l) ++ close :: rest) = Some (l, rest).
Proof.
  intros Hc Ho Hi. destruct l as [| x l].
  - cbn [map commas app]. unfold parse_items. rewrite skip_ws_opens by by destruct Hc as [-> | ->]. by rewrite Z.eqb_refl.
  - assert (∃ c r, commas (map pr (x :: l)) = c :: r ∧ is_ws c = false ∧ c ≠ close) as (c & r & Ej & Hw & Hn).
    { destruct (Ho x ltac:(left)) as (c & r & E & Hw & _ & H1 & H2). exists c. destruct l as [| y l]; cbn [map commas]; rewrite E; eexists; (split; [done |]); (split; [done |]); destruct Hc as [-> | ->]; done. }
    unfold parse_items. rewrite Ej. cbn [app]. rewrite skip_ws_opens by done. rewrite (proj2 (Z.eqb_neq c close)) by done.
    change (c :: r ++ close :: rest) with ((c :: r) ++ close :: rest). rewrite <- Ej. apply parse_list_commas; [done | done | | done].
    rewrite length_app. pose proof (commas_len (map pr (x :: l))) as H. rewrite length_map in H. lia.
Qed.

Lemma digits_open c : is_dig c = true → is_ws c = false ∧ c ≠ 44 ∧ c ≠ 93 ∧ c ≠ 125.
Proof. unfold is_dig, within, is_ws. intros [?%Z.leb_le ?%Z.leb_le]%andb_true_iff. split_and!; lia. Qed.

Lemma int_lit_head lit : int_lit lit = true → ∃ c r, lit = c :: r ∧ (c = 45 ∨ is_dig c = true).
Proof.
  unfold int_lit, int_digits. destruct lit as [| c r]; [done |]. intros H. exists c, r. split; [done |]. destruct (Z.eqb_spec c 45); [by left |]. right. cbn in H. by apply andb_true_iff in H as [[H _]%andb_true_iff _].
Qed.

Lemma print_opens v : json_wf v → opens (print v).
Proof.
  destruct v as [| [] | lit | s | l | l]; intros Hw; try (by eexists _, _).
  cbn in Hw. destruct (int_lit_head lit Hw) as (c & r & -> & [-> | Hc]); cbn; [by eexists _, _ |]. destruct (digits_open c Hc) as (H1 & H2). exists c, r. done.
Qed.

Lemma parse_print d v r : json_wf v → (jdepth v ≤ d)%nat → stops r → parse_value d (print v ++ r) = Some (v, r).
Proof.
  revert d r. induction v as [| b | lit | s | l IH | l IH] using json_rec'; intros d r Hw Hd Hr.
  - by destruct d.
  - destruct b, d; done.
  - cbn in Hw. destruct (int_lit_head lit Hw) as (c & t & E & Hc). cbn [print]. destruct d; cbn [parse_value]; rewrite E; cbn [app].
    all: assert (is_ws c = false ∧ c ≠ 123 ∧ c ≠ 91 ∧ c ≠ 34 ∧ c ≠ 116 ∧ c ≠ 102 ∧ c ≠ 110) as (Hws & N1 & N2 & N3 & N4 & N5 & N6)
      by (destruct Hc as [-> | Hc]; [done |]; split; [by apply digits_open |]; unfold is_dig, within in Hc; apply andb_true_iff in Hc as [?%Z.leb_le ?%Z.leb_le]; lia).
    all: rewrite skip_ws_opens by done; rewrite !(proj2 (Z.eqb_neq _ _)) by done; change (c :: t ++ r) with ((c :: t) ++ r); rewrite <- E, parse_int_lit by done; done.
  - cbn in Hw. unfold print, quote. cbn [app]. rewrite <- app_assoc. cbn [app]. destruct d; cbn [parse_value]; rewrite skip_ws_opens by done;
      change (34 =? 123) with false; change (34 =? 91) with false; change (34 =? 34) with true; cbn iota; by rewrite parse_quote.
  - rewrite wf_arr in Hw. rewrite Forall_forall in IH, Hw. cbn [print app]. rewrite <- app_assoc. cbn [app]. cbn [jdepth] in Hd. destruct d as [| d]; [lia |]. cbn [parse_value].
    rewrite skip_ws_opens by done. change (91 =? 123) with false. change (91 =? 91) with true. cbn iota.
    rewrite (parse_items_commas _ print) ; [done | by left | intros x Hx; by apply print_opens, Hw |].
    intros x t Hx Ht. apply IH; [done | by apply Hw | | done]. pose proof (max_list_elem_of_le (jdepth x) (map jdepth l)) as Hm. rewrite list_elem_of_fmap in Hm. apply Nat.le_trans with (max_list (map jdepth l)); [apply Hm; by exists x | lia].
  - rewrite wf_obj in Hw. rewrite Forall_forall in IH, Hw. cbn [print app]. rewrite <- app_assoc. cbn [app]. cbn [jdepth] in Hd. destruct d as [| d]; [lia |]. cbn [parse_value].
    rewrite skip_ws_opens by done. change (123 =? 123) with true. cbn iota.
    rewrite (parse_items_commas _ (λ kv, quote (fst kv) ++ 58 :: print (snd kv))); [done | by right | intros x Hx; by eexists _, _ |].
    intros [k x] t Hx Ht. destruct (Hw _ Hx) as [Hk Hwx]. cbn [fst snd] in *. unfold parse_member, quote. cbn [app]. rewrite skip_ws_opens by done. change (34 =? 34) with true. cbn iota.
    rewrite <- !app_assoc. cbn [app]. rewrite parse_quote by done. cbn [mbind option_bind]. rewrite skip_ws_opens by done. change (58 =? 58) with true. cbn iota.
    rewrite (IH (k, x) Hx); [done | done | | done]. cbn [snd]. pose proof (max_list_elem_of_le (jdepth x) (map (λ kv, jdepth (snd kv)) l)) as Hm. rewrite list_elem_of_fmap in Hm.
    apply Nat.le_trans with (max_list (map (λ kv, jdepth (snd kv)) l)); [apply Hm; by exists (k, x) | lia].
Qed.

(** The text is ASCII itself. *)
Lemma ascii_check s : forallb (λ c, (0 <=? c) && (c <? 128)) s = true → is_ascii s.
Proof. intros H. apply Forall_forall. intros c Hc%list_elem_of_In. rewrite forallb_forall in H. specialize (H c Hc). lia. Qed.

Lemma esc_ascii c : 0 ≤ c < 128 → is_ascii (esc c).
Proof.
  intros Hc. assert (is_ascii (u_escape c)) as Hu.
  { unfold u_escape, is_ascii. assert (∀ v, 0 ≤ v < 16 → 0 ≤ hex_digit v < 128) as Hx by (intros v Hv; unfold hex_digit; destruct (v <? 10) eqn:E; lia).
    repeat (constructor; [first [lia | apply Hx; Z.to_euclidean_division_equations; lia] |]). constructor. }
  unfold esc, quote_step. rewrite (proj2 (Z.ltb_lt c 128)) by lia. cbn [fst].
  repeat match goal with |- context [if ?b then _ else _] => destruct b; [solve [exact Hu | repeat (constructor; [lia |]); constructor] |] end. repeat (constructor; [lia |]). constructor.
Qed.

Lemma quote_ascii s : is_ascii s → is_ascii (quote s).
Proof.
  intros Hs. unfold quote. constructor; [lia |]. apply Forall_app. split; [| by repeat (constructor; [lia |])].
  induction Hs as [| c s Hc Hs IH]; [constructor |]. cbn [length quote_chars]. rewrite quote_step_ascii by done. cbn [drop]. rewrite drop_0. apply Forall_app. split; [by apply esc_ascii | exact IH].
Qed.

Lemma commas_ascii l : Forall is_ascii l → is_ascii (commas l).
Proof. induction 1 as [| x [| y l] Hx Hl IH]; [constructor | exact Hx |]. apply Forall_app. split; [exact Hx |]. constructor; [lia | exact IH]. Qed.

Lemma print_ascii v : json_wf v → is_ascii (print v).
Proof.
  induction v as [| b | lit | s | l IH | l IH] using json_rec'; intros Hw.
  - by apply ascii_check.
  - destruct b; by apply ascii_check.
  - cbn in *. assert (∀ ds, forallb is_dig ds = true → is_ascii ds) as Hd.
    { intros ds H. apply Forall_forall. intros c Hc%list_elem_of_In. rewrite forallb_forall in H. specialize (H c Hc). unfold is_dig, within in H. lia. }
    unfold int_lit, int_digits in Hw. destruct lit as [| c r]; [done |]. destruct (Z.eqb_spec c 45) as [-> |]; apply andb_true_iff in Hw as [Hw _]; [constructor; [lia |] |]; by apply Hd.
  - by apply quote_ascii.
  - rewrite wf_arr in Hw. cbn [print]. constructor; [lia |]. apply Forall_app. split; [| by repeat (constructor; [lia |])]. apply commas_ascii, Forall_map.
    rewrite Forall_forall in *. intros x Hx. by apply IH, Hw.
  - rewrite wf_obj in Hw. cbn [print]. constructor; [lia |]. apply Forall_app. split; [| by repeat (constructor; [lia |])]. apply commas_ascii, Forall_map.
    rewrite Forall_forall in *. intros [k x] Hx. destruct (Hw _ Hx) as [Hk Hv]. cbn [fst snd] in *. apply Forall_app. split; [by apply quote_ascii |]. constructor; [lia |]. by apply (IH _ Hx).
Qed.

(** What [json.Marshal] writes for a value of ASCII strings and integers,
    nested up to the decoder's limit, [json.Unmarshal] reads back. *)
Theorem json_roundtrip v : json_wf v → (jdepth v ≤ maxNestingDepth)%nat → parse (print v) = Some v.
Proof.
  intros Hw Hd. unfold parse. generalize dependent maxNestingDepth. intros n Hd. pose proof (parse_print n v [] Hw Hd I) as H. rewrite app_nil_r in H. by rewrite H.
Qed.

(** Conversion should not look into the decoder. *)
#[global] Strategy 1000 [maxNestingDepth parse_value parse].
