(* ===== verification/BrowserWire.v ===== *)
(** * Requests and responses of the browser skin ([skins/browser/request.go])

    The HTTP bodies that carry chunks and handshakes: JSON envelopes with base64
    payloads, and the server's hello ([encodeServerHello] of [server/handler.go]).
    Random draws, the clock and the output of the system's random generator are
    arguments. *)

From S2P Require Import Prelude.
From S2P Require Import Handshake.
From S2P Require Import Base64.
From S2P Require Import Json.
From stdpp Require Import base list gmap strings sorting.

#[local] Open Scope Z_scope.

Notation "'str' s" := (bytes_of_string s) (at level 9, s at level 8, only parsing).

(** ** Envelopes *)

Record uploadEvent := mkEvent { ev_Type : bytes; ev_TS : Z; ev_Data : bytes }.
Record downloadResult := mkResult { res_ID : bytes; res_Payload : bytes }.
Record downloadEnvelope := mkDownload { Status : bytes; Results : list downloadResult; NextPoll : Z; Pad : bytes }.

Definition enc_event (e : uploadEvent) : json :=
  JObj [(str "type", JStr (ev_Type e)); (str "ts", enc_int (ev_TS e)); (str "data", JStr (ev_Data e))].
Definition enc_upload (events : list uploadEvent) : json := JObj [(str "events", JArr (map enc_event events))].

Definition enc_result (r : downloadResult) : json := JObj [(str "id", JStr (res_ID r)); (str "payload", JStr (res_Payload r))].
(** Members marked [omitempty] are left out when empty. *)
Definition enc_download (e : downloadEnvelope) : json :=
  JObj ([(str "status", JStr (Status e)); (str "results", JArr (map enc_result (Results e)))]
        ++ (if NextPoll e =? 0 then [] else [(str "next_poll", enc_int (NextPoll e))])
        ++ (if len (Pad e) =? 0 then [] else [(str "_p", JStr (Pad e))])).

Definition i64_min : Z := - 2 ^ 63.
Definition i64_max : Z := 2 ^ 63 - 1.

Definition dec_event_field (e : uploadEvent) (k : bytes) (v : json) : option uploadEvent :=
  if key_is "type" k then t ← dec_string (ev_Type e) v; Some (mkEvent t (ev_TS e) (ev_Data e))
  else if key_is "ts" k then t ← dec_int i64_min i64_max (ev_TS e) v; Some (mkEvent (ev_Type e) t (ev_Data e))
  else if key_is "data" k then d ← dec_string (ev_Data e) v; Some (mkEvent (ev_Type e) (ev_TS e) d)
  else Some e.
Definition dec_event : json → option uploadEvent := dec_struct dec_event_field (mkEvent [] 0 []).
Definition dec_upload_field (events : list uploadEvent) (k : bytes) (v : json) : option (list uploadEvent) :=
  if key_is "events" k then dec_list dec_event events v else Some events.
Definition dec_upload : json → option (list uploadEvent) := dec_struct dec_upload_field [].

Definition dec_result_field (r : downloadResult) (k : bytes) (v : json) : option downloadResult :=
  if key_is "id" k then i ← dec_string (res_ID r) v; Some (mkResult i (res_Payload r))
  else if key_is "payload" k then p ← dec_string (res_Payload r) v; Some (mkResult (res_ID r) p)
  else Some r.
Definition dec_result : json → option downloadResult := dec_struct dec_result_field (mkResult [] []).
Definition dec_download_field (e : downloadEnvelope) (k : bytes) (v : json) : option downloadEnvelope :=
  if key_is "status" k then s ← dec_string (Status e) v; Some (mkDownload s (Results e) (NextPoll e) (Pad e))
  else if key_is "results" k then r ← dec_list dec_result (Results e) v; Some (mkDownload (Status e) r (NextPoll e) (Pad e))
  else if key_is "next_poll" k then n ← dec_int i64_min i64_max (NextPoll e) v; Some (mkDownload (Status e) (Results e) n (Pad e))
  else if key_is "_p" k then p ← dec_string (Pad e) v; Some (mkDownload (Status e) (Results e) (NextPoll e) p)
  else Some e.
Definition dec_download : json → option downloadEnvelope := dec_struct dec_download_field (mkDownload [] [] 0 []).

(** ** Payloads *)

Definition BuildDataPayload (tokenWithHint encryptedChunk : bytes) : bytes := tokenWithHint ++ encryptedChunk.

Definition ParseDataPayload (payload : bytes) (sessionTokenSize : Z) : outcome (bytes * bytes) :=
  if len payload <? sessionTokenSize + 1 then Err "data payload: too short for token + chunk"
  else token ← slice payload 0 sessionTokenSize; chunk ← slice payload sessionTokenSize (len payload); Ret (token, chunk).

(** [target]: the draw of [handshakePadDraw]; [rnd]: random bytes, as many as asked
    for. *)
Definition BuildHandshakePayload (ephPub encClientID : bytes) (target : Z) (rnd : Z → bytes) : bytes :=
  let base := ephPub ++ encClientID in
  if target <=? len base then base else base ++ rnd (target - len base).

Definition ParseHandshakePayload (payload : bytes) : outcome (bytes * bytes) :=
  if len payload <? 32 then Err "handshake payload: too short for ephPub" else
  let need := 32 + EncryptedClientIDSize in
  if len payload <? need then Err "handshake payload: too short for encClientID" else
  eph ← slice payload 0 32; enc ← slice payload 32 need; Ret (eph, enc).

(** ** Upload requests *)

Definition LockedChromeMajor : Z := 133.
Definition Itoa (n : Z) : bytes := decimal 20 n.

Definition ChromeUAForMajor (major : Z) : bytes :=
  str "Mozilla/5.0 (Windows NT 10.0; Win64; x64) AppleWebKit/537.36 (KHTML, like Gecko) Chrome/" ++ Itoa major ++ str ".0.0.0 Safari/537.36".
Definition LockedChromeUA : bytes := ChromeUAForMajor LockedChromeMajor.
Definition defaultUserAgent : bytes := LockedChromeUA.

Definition ChromeCHUAForMajor (major : Z) : list (string * bytes) :=
  let v := Itoa major in
  let q := [34] in
  [("sec-ch-ua"%string, q ++ str "Chromium" ++ q ++ str ";v=" ++ q ++ v ++ q ++ str ", " ++ q ++ str "Not(A:Brand" ++ q ++ str ";v=" ++ q ++ str "99" ++ q
                        ++ str ", " ++ q ++ str "Google Chrome" ++ q ++ str ";v=" ++ q ++ v ++ q);
   ("sec-ch-ua-mobile"%string, str "?0"); ("sec-ch-ua-platform"%string, q ++ str "Windows" ++ q)].
Definition LockedChromeCHUA : list (string * bytes) := ChromeCHUAForMajor LockedChromeMajor.

Fixpoint is_prefix (p s : bytes) : bool :=
  match p, s with [], _ => true | a :: p', b :: s' => (a =? b) && is_prefix p' s' | _, [] => false end.
(** [strings.Contains] *)
Fixpoint Contains (s sub : bytes) : bool :=
  is_prefix sub s || match s with [] => false | _ :: s' => Contains s' sub end.

(** A header map; the names the code sets differ up to case. *)
Abbreviation Header := (gmap string bytes).
Definition set_all (h : Header) (l : list (string * bytes)) : Header := foldl (λ h kv, <[fst kv := snd kv]> h) h l.
Definition ApplyChromeCHUA (h : Header) : Header := set_all h LockedChromeCHUA.
Definition ApplyChromeCHUAForUA (h : Header) (ua : bytes) : Header :=
  if Contains ua (str "Chrome/") then ApplyChromeCHUA h else h.

(** [%08x] of a 32-bit number. *)
Definition hex8 (n : Z) : bytes := map (λ i, hex_digit (Z.land (Z.shiftr n (4 * i)) 15)) [7; 6; 5; 4; 3; 2; 1; 0].

Record Request := mkRequest { rq_URL : bytes; rq_Header : Header; rq_Body : bytes }.

(** The draws of one request: event type, clock, path and request id. *)
Record draws := mkDraws { dr_type : bytes; dr_now : Z; dr_path : bytes; dr_id : Z }.

(** [urlOK]: what [http.NewRequest] says of the URL. *)
Definition BuildUploadRequest (urlOK : bytes → bool) (baseURL encryptedChunk sessionToken : bytes) (userAgent : list bytes) (d : draws) : option Request :=
  let ua := match userAgent with u :: _ => if len u =? 0 then defaultUserAgent else u | [] => defaultUserAgent end in
  let combined := BuildDataPayload sessionToken encryptedChunk in
  let payload := RawURL_Encode combined in
  let body := print (enc_upload [mkEvent (dr_type d) (dr_now d) payload]) in
  let url := baseURL ++ dr_path d in
  if urlOK url then
    let header := set_all ∅
      [("Content-Type"%string, str "application/json"); ("X-Request-ID"%string, hex8 (dr_id d)); ("User-Agent"%string, ua);
       ("Accept"%string, str "application/json"); ("Accept-Encoding"%string, str "gzip, deflate, br");
       ("Accept-Language"%string, str "en-US,en;q=0.9"); ("Origin"%string, baseURL); ("Referer"%string, baseURL ++ str "/");
       ("Cache-Control"%string, str "no-cache")] in
    Some (mkRequest url (ApplyChromeCHUAForUA header ua) body)
  else None.

Definition BuildCoverTrafficRequest (urlOK : bytes → bool) (baseURL sessionToken userAgent encryptedPadding : bytes) (d : draws) : option Request :=
  let userAgent := if len userAgent =? 0 then defaultUserAgent else userAgent in
  let combined := BuildDataPayload sessionToken encryptedPadding in
  let payload := RawURL_Encode combined in
  let body := print (enc_upload [mkEvent (dr_type d) (dr_now d) payload]) in
  let url := baseURL ++ dr_path d in
  if urlOK url then
    let header := set_all ∅
      [("Content-Type"%string, str "application/json"); ("X-Request-ID"%string, hex8 (dr_id d)); ("User-Agent"%string, userAgent);
       ("Accept"%string, str "application/json"); ("Accept-Encoding"%string, str "gzip, deflate, br");
       ("Accept-Language"%string, str "en-US,en;q=0.9"); ("Origin"%string, baseURL); ("Referer"%string, baseURL ++ str "/");
       ("Cache-Control"%string, str "no-cache")] in
    Some (mkRequest url (ApplyChromeCHUAForUA header userAgent) body)
  else None.

Definition MaxUploadDataField : Z := 65536.

Definition ParseUploadRequest (body : bytes) : outcome bytes :=
  match (v ← parse body; dec_upload v) with
  | None => Err "json"
  | Some [] => Err "no events in request"
  | Some (e :: _) =>
    if len (ev_Data e) =? 0 then Err "empty payload"
    else if MaxUploadDataField <? len (ev_Data e) then Err "upload data field exceeds limit"
    else match RawURL_Decode (ev_Data e) with Some d => Ret d | None => Err "base64" end
  end.

(** ** Download responses *)

Definition BuildDownloadResponse (encryptedChunk : bytes) (id : Z) : bytes :=
  print (enc_download (mkDownload (str "ok") [mkResult (hex8 id) (RawURL_Encode encryptedChunk)] 0 [])).

(** One random id per chunk. *)
Definition BuildDownloadResponseMulti (encryptedChunks : list (bytes * Z)) : bytes :=
  print (enc_download (mkDownload (str "ok") (map (λ ci, mkResult (hex8 (snd ci)) (RawURL_Encode (fst ci))) encryptedChunks) 0 [])).

Definition padKeyOverhead : Z := 8.

(** [nextPoll]: the poll interval drawn, 0 for none; [target]: the size drawn;
    [rnd]: the random bytes, [None] when the generator fails. *)
Definition BuildInflatedDownloadResponse (encryptedChunk : bytes) (id nextPoll target : Z) (rnd : Z → option bytes) : bytes :=
  let env := mkDownload (str "ok") [mkResult (hex8 id) (RawURL_Encode encryptedChunk)] nextPoll [] in
  let preliminary := print (enc_download env) in
  let needed := target - len preliminary in
  let pad :=
    if 0 <? needed then
      let needed := needed - padKeyOverhead in
      if 0 <? needed then
        let rawNeeded := needed * 3 / 4 + 1 in
        match rnd rawNeeded with Some rawPad => RawURL_Encode rawPad | None => [] end
      else []
    else [] in
  print (enc_download (mkDownload (Status env) (Results env) nextPoll pad)).

(** [strconv.ParseUint(s, 16, 32)] without its error: what is returned at the
    first character that settles it. *)
Fixpoint parse_hex (acc : Z) (s : bytes) : Z :=
  match s with
  | [] => acc
  | c :: s' =>
    match hex_val c with
    | None => 0
    | Some d => if 2 ^ 32 - 1 <? acc * 16 + d then 2 ^ 32 - 1 else parse_hex (acc * 16 + d) s'
    end
  end.

Definition ParseDownloadResponse (body : bytes) : outcome (bytes * Z) :=
  match (v ← parse body; dec_download v) with
  | None => Err "json"
  | Some env =>
    if negb (bytes_eqb (Status env) (str "ok")) then Err "server returned status" else
    match Results env with
    | [] => Err "no results in response"
    | r :: _ => match RawURL_Decode (res_Payload r) with Some d => Ret (d, parse_hex 0 (res_ID r)) | None => Err "base64" end
    end
  end.

Definition ParseDownloadResponseMulti (body : bytes) : outcome (list bytes) :=
  match (v ← parse body; dec_download v) with
  | None => Err "json"
  | Some env =>
    if negb (bytes_eqb (Status env) (str "ok")) then Err "server returned status" else
    match Results env with
    | [] => Err "no results in response"
    | rs =>
      match omap (λ r, if len (res_Payload r) =? 0 then None else RawURL_Decode (res_Payload r)) rs with
      | [] => Err "no results in response"
      | chunks => Ret chunks
      end
    end
  end.

(** ** Reading back what was built *)

Lemma is_dig_digit d : 48 ≤ d < 58 → is_dig d = true.
Proof. unfold is_dig, within. lia. Qed.

Lemma digits_all fuel n : 0 ≤ n → forallb is_dig (decimal fuel n) = true.
Proof. intros Hn. apply forallb_forall. intros d Hd. apply is_dig_digit, (decimal_digits fuel n); [done | by apply list_elem_of_In]. Qed.

Lemma decimal_int fuel n : 0 ≤ n < 10 ^ Z.of_nat (S fuel) → int_digits (decimal (S fuel) n) = true.
Proof.
  intros Hn. unfold int_digits. rewrite digits_all by lia. cbn [andb].
  assert (∀ f m, 0 < m < 10 ^ Z.of_nat f → ∃ c r, decimal f m = c :: r ∧ c ≠ 48) as Hh.
  { induction f as [| f IH]; intros m Hm; [cbn in Hm; lia |]. cbn [decimal]. destruct (Z.ltb_spec m 10); [exists (48 + m), []; split; [done | lia] |].
    rewrite Nat2Z.inj_succ, Z.pow_succ_r in Hm by lia. destruct (IH (m / 10)) as (c & r & -> & Hc); [Z.to_euclidean_division_equations; lia |]. by eexists _, _. }
  destruct (Z.eq_dec n 0) as [-> |]; [done |]. destruct (Hh (S fuel) n ltac:(lia)) as (c & r & -> & Hc). rewrite (proj2 (Z.eqb_neq c 48)) by done. by destruct r.
Qed.

Lemma enc_int_wf n : - 10 ^ 20 < n < 10 ^ 20 → json_wf (enc_int n).
Proof.
  intros Hn. unfold enc_int. cbn [json_wf]. destruct (Z.ltb_spec n 0); cbn [int_lit]; [apply (decimal_int 19); change (Z.of_nat 20) with 20; lia |].
  pose proof (decimal_int 19 n) as H1. change (Z.of_nat 20) with 20 in H1. specialize (H1 ltac:(lia)). unfold int_lit. destruct (decimal 20 n) as [| c r] eqn:E; [done |].
  destruct (Z.eqb_spec c 45) as [-> |]; [| done]. exfalso. pose proof (digits_all 20 n ltac:(lia)) as H2. rewrite E in H2. done.
Qed.

Lemma lit_int_enc n lo hi old : lo ≤ n ≤ hi → - 10 ^ 20 < n < 10 ^ 20 → dec_int lo hi old (enc_int n) = Some n.
Proof.
  intros Hr Hn. assert (lit_int (match enc_int n with JNum l => l | _ => [] end) = Some n) as H.
  { unfold enc_int. destruct (Z.ltb_spec n 0); unfold lit_int.
    - cbn [Z.eqb Pos.eqb]. rewrite digits_all by lia. rewrite decimal_value; [f_equal; lia |]. change (Z.of_nat 20) with 20. lia.
    - pose proof (digits_all 20 n ltac:(lia)) as H1. pose proof (decimal_value 20 n) as H2. change (Z.of_nat 20) with 20 in H2. specialize (H2 ltac:(lia)).
      pose proof (decimal_int 19 n) as H3. change (Z.of_nat 20) with 20 in H3. specialize (H3 ltac:(lia)).
      destruct (decimal 20 n) as [| c r]; [done |]. rewrite H1, H2. destruct (Z.eqb_spec c 45) as [-> |]; [done |]. done. }
  unfold dec_int. unfold enc_int in *. rewrite H. cbn [mbind option_bind]. unfold within. by rewrite !(proj2 (Z.leb_le _ _)) by lia.
Qed.

Lemma plain_ascii s : Forall (λ c, b64_plain c = true) s → is_ascii s.
Proof. intros H. eapply Forall_impl; [exact H |]. intros c. unfold b64_plain. lia. Qed.

Lemma b64_ascii l : is_ascii (RawURL_Encode l).
Proof. apply plain_ascii, b64_encode_plain. Qed.

Lemma hex8_ascii n : is_ascii (hex8 n).
Proof.
  unfold hex8, is_ascii. apply Forall_map, Forall_true. intros i. unfold hex_digit. change 15 with (Z.ones 4). rewrite Z.land_ones by lia.
  pose proof (Z.mod_pos_bound (Z.shiftr n (4 * i)) (2 ^ 4) ltac:(lia)). destruct (Z.ltb_spec (Z.shiftr n (4 * i) mod 2 ^ 4) 10); lia.
Qed.

Lemma str_ascii s : forallb (λ c, (0 <=? c) && (c <? 128)) (str s) = true → is_ascii (str s).
Proof. apply ascii_check. Qed.

Ltac key_eqs := repeat match goal with |- context [key_is ?a ?b] => let r := eval vm_compute in (key_is a b) in change (key_is a b) with r; cbn iota end.

Lemma dec_enc_event t ts data : i64_min ≤ ts ≤ i64_max → dec_event (enc_event (mkEvent t ts data)) = Some (mkEvent t ts data).
Proof.
  intros Hts. unfold dec_event, enc_event, dec_struct, dec_members. cbn [ev_Type ev_TS ev_Data]. unfold dec_event_field. key_eqs.
  cbn [dec_string mbind option_bind ev_Type ev_TS ev_Data]. rewrite lit_int_enc; [done | done |]. unfold i64_min, i64_max in Hts. lia.
Qed.

Lemma mapM_enc {A} (enc : A → json) (dec : json → option A) l : Forall (λ a, dec (enc a) = Some a) l → mapM dec (map enc l) = Some l.
Proof. induction 1 as [| a l Ha Hl IH]; [done |]. cbn [map mapM]. rewrite Ha. cbn [mbind option_bind]. by rewrite IH. Qed.

Lemma dec_enc_upload t ts data : i64_min ≤ ts ≤ i64_max → dec_upload (enc_upload [mkEvent t ts data]) = Some [mkEvent t ts data].
Proof.
  intros Hts. unfold dec_upload, enc_upload, dec_struct, dec_members, dec_upload_field. key_eqs. cbn [dec_list].
  rewrite mapM_enc; [done |]. by apply Forall_singleton, dec_enc_event.
Qed.

Lemma depth_ok n : (n ≤ 10)%nat → (n ≤ maxNestingDepth)%nat.
Proof. unfold maxNestingDepth. lia. Qed.

Lemma upload_body_back t ts data : is_ascii t → is_ascii data → i64_min ≤ ts ≤ i64_max →
  (v ← parse (print (enc_upload [mkEvent t ts data])); dec_upload v) = Some [mkEvent t ts data].
Proof.
  intros Ht Hd Hts. rewrite json_roundtrip.
  - cbn [mbind option_bind]. by apply dec_enc_upload.
  - unfold enc_upload, enc_event. rewrite wf_obj, Forall_singleton. cbn [fst snd]. split; [by apply str_ascii |]. rewrite wf_arr. cbn [map]. rewrite Forall_singleton. unfold enc_event. rewrite wf_obj.
    cbn [ev_Type ev_TS ev_Data]. repeat (apply Forall_cons; split; [split; [by apply str_ascii | try done] |]); [| done].
    apply enc_int_wf. unfold i64_min, i64_max in Hts. lia.
  - apply depth_ok. cbn. lia.
Qed.

(** A body with a data field of [len] characters is read back up to the limit and
    refused past it. *)
Lemma upload_payload_back t ts combined : is_ascii t → is_bytes combined → i64_min ≤ ts ≤ i64_max →
  ParseUploadRequest (print (enc_upload [mkEvent t ts (RawURL_Encode combined)])) =
  if len combined =? 0 then Err "empty payload"
  else if 49152 <? len combined then Err "upload data field exceeds limit" else Ret combined.
Proof.
  intros Ht Hc Hts. unfold ParseUploadRequest. rewrite upload_body_back by (done || apply b64_ascii). cbn [ev_Data]. rewrite b64_encode_len.
  pose proof (len_nonneg combined). unfold MaxUploadDataField. unfold RawURL_Decode, RawURL_Encode. rewrite b64_roundtrip by done.
  destruct (Z.eqb_spec (len combined) 0) as [-> |]; [done |]. rewrite (proj2 (Z.eqb_neq ((4 * len combined + 2) / 3) 0)) by (Z.to_euclidean_division_equations; lia).
  destruct (Z.ltb_spec 49152 (len combined)).
  - by rewrite (proj2 (Z.ltb_lt 65536 _)) by (Z.to_euclidean_division_equations; lia).
  - by rewrite (proj2 (Z.ltb_ge 65536 _)) by (Z.to_euclidean_division_equations; lia).
Qed.

Lemma dec_enc_result r : dec_result (enc_result r) = Some r.
Proof. destruct r as [i p]. unfold dec_result, enc_result, dec_struct, dec_members, dec_result_field. key_eqs. done. Qed.

Lemma dec_enc_results rs : mapM dec_result (map enc_result rs) = Some rs.
Proof. apply mapM_enc, Forall_true, dec_enc_result. Qed.

Lemma dec_enc_download e : i64_min ≤ NextPoll e ≤ i64_max → dec_download (enc_download e) = Some e.
Proof.
  destruct e as [st rs n p]. cbn [NextPoll]. intros Hn. unfold dec_download, enc_download, dec_struct. cbn [Status Results NextPoll Pad].
  assert (- 10 ^ 20 < n < 10 ^ 20) by (unfold i64_min, i64_max in Hn; lia).
  destruct (Z.eqb_spec n 0) as [-> |], (Z.eqb_spec (len p) 0) as [->%len_0_nil |]; cbn [app dec_members]; unfold dec_download_field; key_eqs;
    cbn [dec_string dec_list mbind option_bind Status Results NextPoll Pad]; rewrite dec_enc_results; cbn [mbind option_bind]; key_eqs;
    cbn [dec_string mbind option_bind Status Results NextPoll Pad]; rewrite ?lit_int_enc by done; try done; cbn [mbind option_bind]; key_eqs; done.
Qed.

Lemma enc_result_wf r : is_ascii (res_ID r) → is_ascii (res_Payload r) → json_wf (enc_result r).
Proof. intros H1 H2. unfold enc_result. rewrite wf_obj. repeat (apply Forall_cons; split; [split; [by apply str_ascii | done] |]). done. Qed.

Lemma enc_download_wf e : is_ascii (Status e) → Forall (λ r, is_ascii (res_ID r) ∧ is_ascii (res_Payload r)) (Results e) → is_ascii (Pad e) →
  i64_min ≤ NextPoll e ≤ i64_max → json_wf (enc_download e).
Proof.
  intros H1 H2 H3 H4. unfold enc_download. rewrite wf_obj, !Forall_app. split_and!.
  - repeat (apply Forall_cons; split; [split; [by apply str_ascii | cbn [snd]; try done] |]); [| done]. rewrite wf_arr, Forall_map.
    eapply Forall_impl; [exact H2 |]. intros r [? ?]. by apply enc_result_wf.
  - destruct (NextPoll e =? 0); [done |]. apply Forall_singleton. split; [by apply str_ascii |]. apply enc_int_wf. unfold i64_min, i64_max in H4. lia.
  - destruct (len (Pad e) =? 0); [done |]. apply Forall_singleton. split; [by apply str_ascii | done].
Qed.

Lemma result_depth rs : (max_list (map jdepth (map enc_result rs)) ≤ 1)%nat.
Proof. induction rs as [| r rs IH]; cbn; [lia |]. cbn in IH. lia. Qed.

Lemma download_body_back e : is_ascii (Status e) → Forall (λ r, is_ascii (res_ID r) ∧ is_ascii (res_Payload r)) (Results e) → is_ascii (Pad e) →
  i64_min ≤ NextPoll e ≤ i64_max → (v ← parse (print (enc_download e)); dec_download v) = Some e.
Proof.
  intros H1 H2 H3 H4. rewrite json_roundtrip; [by apply dec_enc_download | by apply enc_download_wf |]. apply depth_ok.
  unfold enc_download. cbn [jdepth]. pose proof (result_depth (Results e)).
  destruct (NextPoll e =? 0), (len (Pad e) =? 0); cbn [app map snd jdepth max_list foldr] in *; unfold max_list in *; cbn in *; lia.
Qed.

(** *** Ids and padding *)

Lemma hex_step n k r : 0 ≤ n < 2 ^ 32 → 0 ≤ k →
  parse_hex (n / 16 ^ (k + 1)) (hex_digit (Z.land (Z.shiftr n (4 * k)) 15) :: r) = parse_hex (n / 16 ^ k) r.
Proof.
  intros Hn Hk. change 15 with (Z.ones 4). rewrite Z.land_ones, Z.shiftr_div_pow2 by lia. replace (2 ^ (4 * k)) with (16 ^ k) by (rewrite Z.pow_mul_r by lia; done).
  cbn [parse_hex]. rewrite hex_back by (apply Z.mod_pos_bound; lia). rewrite Z.pow_add_r, <- Z.div_div by lia. change (16 ^ 1) with 16.
  replace (n / 16 ^ k / 16 * 16 + (n / 16 ^ k) mod 2 ^ 4) with (n / 16 ^ k) by (pose proof (Z.div_mod (n / 16 ^ k) 16); change (2 ^ 4) with 16; lia).
  rewrite (proj2 (Z.ltb_ge _ _)); [done |]. assert (n / 16 ^ k ≤ n); [| lia]. apply Z.div_le_upper_bound; [lia |]. assert (0 < 16 ^ k) by lia. nia.
Qed.

Lemma hex8_back n : 0 ≤ n < 2 ^ 32 → parse_hex 0 (hex8 n) = n.
Proof.
  intros Hn. unfold hex8. cbn [map]. assert (n / 16 ^ (7 + 1) = 0) as E by (apply Z.div_small; lia). rewrite <- E at 1.
  rewrite (hex_step n 7), (hex_step n 6), (hex_step n 5), (hex_step n 4), (hex_step n 3), (hex_step n 2), (hex_step n 1), (hex_step n 0) by lia. cbn [parse_hex]. by rewrite Z.pow_0_r, Z.div_1_r.
Qed.

Lemma quote_plain s : Forall (λ c, b64_plain c = true) s → quote s = 34 :: s ++ [34].
Proof.
  intros H. unfold quote. do 2 f_equal. induction H as [| c s Hc Hs IH]; [done |]. cbn [length quote_chars].
  assert (0 ≤ c < 128 ∧ (c = 45 ∨ 43 ≤ c ∧ c ≠ 60 ∧ c ≠ 62 ∧ c ≠ 92)) as [H1 H2] by (unfold b64_plain in Hc; lia).
  rewrite quote_step_ascii by done. cbn [drop]. rewrite drop_0, IH. unfold esc, quote_step. rewrite (proj2 (Z.ltb_lt c 128)) by lia. cbn [fst].
  rewrite !(proj2 (Z.eqb_neq _ _)), (proj2 (Z.ltb_ge c 32)) by lia. done.
Qed.

Lemma commas_snoc l x : l ≠ [] → commas (l ++ [x]) = commas l ++ 44 :: x.
Proof. induction l as [| a [| b l] IH]; [done | done |]. intros _. cbn [app commas] in *. rewrite IH by done. by rewrite <- app_assoc. Qed.

Lemma print_snoc l k v : l ≠ [] → len (print (JObj (l ++ [(k, v)]))) = len (print (JObj l)) + 1 + len (quote k) + 1 + len (print v).
Proof. intros Hl. cbn [print]. rewrite map_app. cbn [map fst snd]. rewrite commas_snoc by by destruct l. autorewrite with go_len. lia. Qed.

(** The body with padding is longer by the member [,"_p":"..."]. *)
Lemma padded_len e p : Pad e = [] → len p ≠ 0 → Forall (λ c, b64_plain c = true) p →
  len (print (enc_download (mkDownload (Status e) (Results e) (NextPoll e) p))) = len (print (enc_download e)) + padKeyOverhead + len p.
Proof.
  intros He Hp Hc. unfold enc_download. cbn [Status Results NextPoll Pad]. rewrite He, (proj2 (Z.eqb_neq (len p) 0)) by done. change (len [] =? 0) with true. cbn iota.
  rewrite app_nil_r, app_assoc, print_snoc by by destruct (NextPoll e =? 0). cbn [print].
  rewrite (quote_plain p) by done. change (len (quote (str "_p"))) with 4. autorewrite with go_len. unfold padKeyOverhead. lia.
Qed.

(** A response around one chunk, whatever else is in the envelope. *)
Lemma response_back chunk id n pad : is_bytes chunk → 0 ≤ id < 2 ^ 32 → i64_min ≤ n ≤ i64_max → is_ascii pad →
  ParseDownloadResponse (print (enc_download (mkDownload (str "ok") [mkResult (hex8 id) (RawURL_Encode chunk)] n pad))) = Ret (chunk, id).
Proof.
  intros Hc Hid Hn Hpad. unfold ParseDownloadResponse. rewrite download_body_back; [| by apply str_ascii | | done | done].
  - cbn [Status Results res_Payload res_ID]. change (bytes_eqb (str "ok") (str "ok")) with true. cbn iota. unfold RawURL_Decode, RawURL_Encode. rewrite b64_roundtrip by done. by rewrite hex8_back.
  - apply Forall_singleton. split; [apply hex8_ascii | apply b64_ascii].
Qed.

(** ** The properties *)

(** C30: a request built around a session token and a chunk, as data or as cover
    traffic, is the same request for the same draws; the server reads token and
    chunk back from its body as long as the two have at most 49152 bytes and the
    chunk is not empty, and refuses the body when they have more. *)
Theorem upload_roundtrip urlOK baseURL chunk token ua d :
  is_bytes token → is_bytes chunk → is_ascii (dr_type d) → i64_min ≤ dr_now d ≤ i64_max →
  BuildCoverTrafficRequest urlOK baseURL token ua chunk d = BuildUploadRequest urlOK baseURL chunk token [ua] d
  ∧ ∀ req, BuildUploadRequest urlOK baseURL chunk token [ua] d = Some req →
      (chunk ≠ [] → len token + len chunk ≤ 49152 →
       (payload ← ParseUploadRequest (rq_Body req); ParseDataPayload payload (len token)) = Ret (token, chunk))
      ∧ (49152 < len token + len chunk → ParseUploadRequest (rq_Body req) = Err "upload data field exceeds limit").
Proof.
  intros Ht Hc Hty Hts. split; [done |]. intros req. unfold BuildUploadRequest. destruct (urlOK _); [| done]. intros <-%Some_inj. cbv beta zeta. cbn [rq_Body].
  assert (is_bytes (BuildDataPayload token chunk)) as Hb by by apply Forall_app.
  rewrite upload_payload_back by done. unfold BuildDataPayload. rewrite len_app. pose proof (len_nonneg token). pose proof (len_nonneg chunk). split.
  - intros Hne Hl. assert (0 < len chunk) by (destruct chunk; [done | rewrite len_cons; pose proof (len_nonneg chunk); lia]).
    rewrite (proj2 (Z.eqb_neq _ 0)), (proj2 (Z.ltb_ge 49152 _)) by lia. cbn [mbind outcome_bind]. unfold ParseDataPayload. rewrite len_app.
    rewrite (proj2 (Z.ltb_ge _ _)) by lia. rewrite slice_head by lia. ostep. rewrite slice_tail; [done | done | lia].
  - intros Hl. by rewrite (proj2 (Z.eqb_neq _ 0)), (proj2 (Z.ltb_lt 49152 _)) by lia.
Qed.

(** The client reads back the chunk of a response, plain or inflated, with its
    random id; of a batch it reads the chunks that are not empty, in order.  The
    inflated body has the drawn size plus one or two bytes, unless the chunk alone
    comes within eight bytes of it, when nothing is added. *)
Theorem download_roundtrip chunk id nextPoll target rnd :
  is_bytes chunk → 0 ≤ id < 2 ^ 32 → 0 ≤ nextPoll ≤ i64_max →
  (∀ n, 0 < n → ∃ p, rnd n = Some p ∧ len p = n) →
  ParseDownloadResponse (BuildDownloadResponse chunk id) = Ret (chunk, id)
  ∧ let body := BuildInflatedDownloadResponse chunk id nextPoll target rnd in
    let plain := BuildInflatedDownloadResponse chunk id nextPoll 0 rnd in
    ParseDownloadResponse body = Ret (chunk, id)
    ∧ (len plain + 8 < target → target + 1 ≤ len body ≤ target + 2) ∧ (target ≤ len plain + 8 → body = plain).
Proof.
  intros Hc Hid Hp Hr. set (res := mkResult (hex8 id) (RawURL_Encode chunk)).
  pose proof (response_back chunk id) as Hparse. fold res in Hparse.
  assert (i64_min ≤ nextPoll ≤ i64_max) as Hp' by (unfold i64_min; lia). split; [apply Hparse; [done | done | unfold i64_min, i64_max; lia | constructor] |]. intros body plain.
  set (e := mkDownload (str "ok") [res] nextPoll []).
  assert (plain = print (enc_download e)) as Epl.
  { unfold plain, BuildInflatedDownloadResponse. pose proof (len_nonneg (print (enc_download e))). fold res. fold e. by rewrite (proj2 (Z.ltb_ge 0 _)) by lia. }
  unfold body, BuildInflatedDownloadResponse. fold res. fold e. rewrite <- Epl. unfold padKeyOverhead. change (Status e) with (str "ok"). change (Results e) with [res].
  destruct (Z.ltb_spec 0 (target - len plain)); [destruct (Z.ltb_spec 0 (target - len plain - 8)) |].
  - destruct (Hr ((target - len plain - 8) * 3 / 4 + 1)) as (p & -> & Hl); [Z.to_euclidean_division_equations; lia |].
    split; [apply Hparse; [done | done | done | apply b64_ascii] |]. split; [intros _ | lia].
    assert (len (RawURL_Encode p) = (4 * ((target - len plain - 8) * 3 / 4 + 1) + 2) / 3) as Ep by by rewrite b64_encode_len, Hl.
    rewrite (padded_len e); [| done | rewrite Ep; Z.to_euclidean_division_equations; lia | apply b64_encode_plain].
    rewrite <- Epl, Ep. unfold padKeyOverhead. Z.to_euclidean_division_equations; lia.
  - split; [apply Hparse; [done | done | done | constructor] |]. split; [lia | done].
  - split; [apply Hparse; [done | done | done | constructor] |]. split; [lia | done].
Qed.

(** A batch: empty chunks are dropped, and a batch of nothing else is an error. *)
Theorem multi_roundtrip cs : Forall (λ ci, is_bytes (fst ci)) cs →
  ParseDownloadResponseMulti (BuildDownloadResponseMulti cs) =
  match filter (λ c, c ≠ []) (map fst cs) with [] => Err "no results in response" | l => Ret l end.
Proof.
  intros Hcs. unfold ParseDownloadResponseMulti, BuildDownloadResponseMulti. rewrite download_body_back; [| by apply str_ascii | | constructor | unfold i64_min, i64_max; cbn; lia].
  - cbn [Status Results]. change (bytes_eqb (str "ok") (str "ok")) with true. cbn iota.
    assert (omap (λ r, if len (res_Payload r) =? 0 then None else RawURL_Decode (res_Payload r)) (map (λ ci : bytes * Z, mkResult (hex8 (snd ci)) (RawURL_Encode (fst ci))) cs) = filter (λ c, c ≠ []) (map fst cs)) as E.
    { induction Hcs as [| [c i] cs Hc Hcs IH]; [done |]. cbn [map fst snd omap list_omap res_Payload]. cbn in Hc. destruct c as [| b c].
      - rewrite filter_cons_False by (intros H; by apply H). exact IH.
      - rewrite filter_cons_True by done. destruct (Z.eqb_spec (len (RawURL_Encode (b :: c))) 0) as [E%len_0_nil%b64_encode_nil |]; [done |].
        unfold RawURL_Decode at 1, RawURL_Encode at 1. rewrite b64_roundtrip by done. f_equal. exact IH. }
    destruct cs as [| ci cs]; [done |]. cbn [map]. cbn [map] in E. by rewrite E.
  - apply Forall_map, Forall_true. intros ci. split; [apply hex8_ascii | apply b64_ascii].
Qed.

(** The padded handshake payload is read back whatever the padding. *)
Theorem handshake_payload_roundtrip eph enc target rnd : len eph = 32 → len enc = EncryptedClientIDSize →
  ParseHandshakePayload (BuildHandshakePayload eph enc target rnd) = Ret (eph, enc).
Proof.
  intros He Hc. assert (∃ t, BuildHandshakePayload eph enc target rnd = eph ++ enc ++ t) as [t ->].
  { unfold BuildHandshakePayload. destruct (_ <=? _); [exists []; by rewrite app_nil_r | eexists; by rewrite <- app_assoc]. }
  unfold ParseHandshakePayload. autorewrite with go_len. rewrite He, Hc. unfold EncryptedClientIDSize in *. pose proof (len_nonneg t).
  rewrite !(proj2 (Z.ltb_ge _ _)) by lia. rewrite slice_head by lia. ostep. rewrite slice_app_mid by lia. done.
Qed.

(** ** The server's hello *)

(** Maps are written in the order of their keys. *)
Fixpoint bytes_leb (a b : bytes) : bool :=
  match a, b with [], _ => true | _, [] => false | x :: a', y :: b' => (x <? y) || ((x =? y) && bytes_leb a' b') end.
Definition key_le {A} (a b : bytes * A) : Prop := bytes_leb (fst a) (fst b) = true.
#[global] Instance key_le_dec {A} : RelDecision (@key_le A).
Proof. intros a b. unfold key_le. apply _. Defined.

Definition enc_map {A} (enc : A → json) (m : gmap bytes A) : json :=
  JObj (map (λ kv, (fst kv, enc (snd kv))) (merge_sort key_le (map_to_list m))).

Record serverHelloJSON := mkHelloJSON {
  hj_EphPub : bytes; hj_Token : bytes; hj_MaxConns : Z; hj_ChunkSize : Z;
  hj_ProtoVersion : option Z; hj_Deprecated : bool;
  hj_UA : gmap bytes bytes; hj_FW : gmap bytes Z;
}.

Definition enc_hello (h : serverHelloJSON) : json :=
  JObj ([(str "eph", enc_bytes (hj_EphPub h)); (str "tok", enc_bytes (hj_Token h)); (str "mc", enc_int (hj_MaxConns h)); (str "cs", enc_int (hj_ChunkSize h))]
        ++ match hj_ProtoVersion h with Some v => [(str "_v", enc_int v)] | None => [] end
        ++ (if hj_Deprecated h then [(str "_deprecated", JBool true)] else [])
        ++ (if decide (hj_UA h = ∅) then [] else [(str "ua", enc_map JStr (hj_UA h))])
        ++ (if decide (hj_FW h = ∅) then [] else [(str "fw", enc_map enc_int (hj_FW h))])).

(** [encodeServerHello]; [uas]: what [browser.ProfileUAs] returns. *)
Definition encodeServerHello (sh : ServerHello) (uas : gmap bytes bytes) : bytes :=
  print (enc_hello (mkHelloJSON (sh_EphemeralPub sh) (sh_EncryptedSessionToken sh) (sh_MaxConnsPerClient sh) (sh_ChunkSize sh)
    (sh_ProtoVersion sh) (bool_decide (sh_ProtoVersion sh = None)) uas
    (match sh_FingerprintWeights sh with Some w => kmap bytes_of_string w | None => ∅ end))).

Definition zero_hello : serverHelloJSON := mkHelloJSON [] [] 0 0 None false ∅ ∅.

Definition dec_hello_field (h : serverHelloJSON) (k : bytes) (v : json) : option serverHelloJSON :=
  let '(mkHelloJSON e t mc cs pv dp ua fw) := h in
  if key_is "eph" k then x ← dec_bytes e v; Some (mkHelloJSON x t mc cs pv dp ua fw)
  else if key_is "tok" k then x ← dec_bytes t v; Some (mkHelloJSON e x mc cs pv dp ua fw)
  else if key_is "mc" k then x ← dec_uint 255 mc v; Some (mkHelloJSON e t x cs pv dp ua fw)
  else if key_is "cs" k then x ← dec_uint 65535 cs v; Some (mkHelloJSON e t mc x pv dp ua fw)
  else if key_is "_v" k then x ← dec_ptr (dec_uint 255 0) v; Some (mkHelloJSON e t mc cs x dp ua fw)
  else if key_is "_deprecated" k then x ← dec_bool dp v; Some (mkHelloJSON e t mc cs pv x ua fw)
  else if key_is "ua" k then x ← dec_map (dec_string []) ua v; Some (mkHelloJSON e t mc cs pv dp x fw)
  else if key_is "fw" k then x ← dec_map (dec_int i64_min i64_max 0) fw v; Some (mkHelloJSON e t mc cs pv dp ua x)
  else Some h.

(** [json.Unmarshal(respData, &sh)] *)
Definition dec_hello (data : bytes) : option serverHelloJSON := v ← parse data; dec_struct dec_hello_field zero_hello v.

Lemma dec_entries_enc {A} (enc : A → json) (dec : json → option A) (l : list (bytes * A)) m :
  NoDup l.*1 → Forall (λ kv, dec (enc (snd kv)) = Some (snd kv)) l →
  dec_entries dec m (map (λ kv, (fst kv, enc (snd kv))) l) = Some (list_to_map l ∪ m).
Proof.
  intros Hn Hl. revert m. induction Hl as [| [k a] l Ha Hl IH]; intros m; cbn [map dec_entries fst snd].
  - f_equal. symmetry. apply (left_id_L ∅ (∪)).
  - cbn in Hn. apply NoDup_cons in Hn as [Hk Hn]. cbn in Ha. rewrite Ha. cbn [mbind option_bind]. rewrite IH by done. f_equal. cbn [list_to_map foldr fst snd].
    rewrite <- insert_union_r; [by rewrite insert_union_l | by apply not_elem_of_list_to_map_1].
Qed.

Lemma dec_enc_map {A} (enc : A → json) (dec : json → option A) (m : gmap bytes A) :
  map_Forall (λ _ a, dec (enc a) = Some a) m → dec_map dec ∅ (enc_map enc m) = Some m.
Proof.
  intros Hm. unfold dec_map, enc_map. pose proof (merge_sort_Permutation key_le (map_to_list m)) as Hp. rewrite dec_entries_enc.
  - rewrite (right_id_L ∅ (∪)). f_equal. rewrite <- (list_to_map_to_list m) at 2. apply list_to_map_proper; [| done]. rewrite Hp. apply NoDup_fst_map_to_list.
  - rewrite Hp. apply NoDup_fst_map_to_list.
  - rewrite Hp. apply map_Forall_to_list in Hm. eapply Forall_impl; [exact Hm |]. by intros [k a].
Qed.

Definition hello_ok (h : serverHelloJSON) : Prop :=
  is_bytes (hj_EphPub h) ∧ is_bytes (hj_Token h) ∧ 0 ≤ hj_MaxConns h ≤ 255 ∧ 0 ≤ hj_ChunkSize h ≤ 65535
  ∧ (∀ v, hj_ProtoVersion h = Some v → 0 ≤ v ≤ 255)
  ∧ map_Forall (λ k ua, is_ascii k ∧ is_ascii ua) (hj_UA h) ∧ map_Forall (λ k w, is_ascii k ∧ i64_min ≤ w ≤ i64_max) (hj_FW h).

Lemma dec_uint_enc n hi old : 0 ≤ n ≤ hi → hi < 10 ^ 20 → dec_uint hi old (enc_int n) = Some n.
Proof.
  intros Hn Hh. pose proof (lit_int_enc n 0 hi old Hn ltac:(lia)) as H. pose proof (digits_all 20 n ltac:(lia)) as Hd. unfold enc_int in *.
  rewrite (proj2 (Z.ltb_ge n 0)) in * by lia. unfold dec_uint. destruct (decimal 20 n) as [| c r]; [done |]. destruct (Z.eqb_spec c 45) as [-> |]; [done | exact H].
Qed.

Lemma std_ascii l : is_ascii (Std_Encode l).
Proof. apply plain_ascii, b64_encode_plain. Qed.

Lemma dec_enc_bytes old l : is_bytes l → dec_bytes old (enc_bytes l) = Some l.
Proof. apply b64_roundtrip. Qed.

Lemma enc_map_wf {A} (enc : A → json) (m : gmap bytes A) : map_Forall (λ k a, is_ascii k ∧ json_wf (enc a)) m → json_wf (enc_map enc m).
Proof.
  intros Hm. unfold enc_map. rewrite wf_obj, Forall_map. cbn [fst snd]. rewrite (merge_sort_Permutation key_le (map_to_list m)).
  apply map_Forall_to_list in Hm. eapply Forall_impl; [exact Hm |]. by intros [k a].
Qed.

Lemma enc_map_depth {A} (enc : A → json) (m : gmap bytes A) : (∀ a, jdepth (enc a) = 0%nat) → (jdepth (enc_map enc m) ≤ 1)%nat.
Proof.
  intros H. unfold enc_map. generalize (merge_sort key_le (map_to_list m)). intros l. cbn [jdepth]. apply le_n_S.
  induction l as [| kv l IH]; [done |]. cbn. rewrite H. exact IH.
Qed.

Lemma hello_member_wf h : hello_ok h → json_wf (enc_hello h) ∧ (jdepth (enc_hello h) ≤ 10)%nat.
Proof.
  destruct h as [e t mc cs pv dp ua fw]. intros (He & Ht & Hm & Hc & Hv & Hu & Hf). unfold enc_hello. cbn [hj_EphPub hj_Token hj_MaxConns hj_ChunkSize hj_ProtoVersion hj_Deprecated hj_UA hj_FW] in *.
  assert (∀ n, 0 ≤ n ≤ 65535 → json_wf (enc_int n)) as Hint by (intros n Hn; apply enc_int_wf; lia).
  assert (json_wf (enc_map JStr ua)) as Wu by (apply enc_map_wf; exact Hu).
  assert (json_wf (enc_map enc_int fw)) as Wf by (apply enc_map_wf; intros k w Hk; destruct (Hf k w Hk) as [? Hw]; split; [done |]; apply enc_int_wf; unfold i64_min, i64_max in Hw; lia).
  pose proof (enc_map_depth JStr ua (λ _, eq_refl)) as Du. pose proof (enc_map_depth enc_int fw (λ _, eq_refl)) as Df. split.
  - assert (∀ name v, json_wf v → forallb (λ c, (0 <=? c) && (c <? 128)) (str name) = true → is_ascii (fst (str name, v)) ∧ json_wf (snd (str name, v))) as Hm1
      by (intros name v W N; split; [by apply str_ascii | done]).
    rewrite wf_obj, !Forall_app. split_and!.
    + repeat (apply Forall_cons; split; [apply Hm1; [first [apply std_ascii | apply Hint; lia] | done] |]). constructor.
    + destruct pv as [v |]; [| constructor]. apply Forall_singleton, Hm1; [| done]. specialize (Hv v eq_refl). apply Hint. lia.
    + destruct dp; [| constructor]. by apply Forall_singleton, Hm1.
    + case_decide; [constructor |]. by apply Forall_singleton, Hm1.
    + case_decide; [constructor |]. by apply Forall_singleton, Hm1.
  - cbn [jdepth]. repeat first [ case_decide | destruct pv as [v |] | destruct dp ]; cbn [app map snd max_list foldr]; unfold max_list; cbn -[enc_map]; lia.
Qed.

Lemma dec_cons {T} (field : T → bytes → json → option T) t k v l t' :
  field t k v = Some t' → dec_members field t ((k, v) :: l) = dec_members field t' l.
Proof. cbn. by intros ->. Qed.

Lemma dec_enc_hello h : hello_ok h → dec_struct dec_hello_field zero_hello (enc_hello h) = Some h.
Proof.
  destruct h as [e t mc cs pv dp ua fw]. intros (He & Ht & Hm & Hc & Hv & Hu & Hf). cbn in He, Ht, Hm, Hc, Hv, Hu, Hf.
  assert (dec_map (dec_string []) ∅ (enc_map JStr ua) = Some ua) as Eu by (apply dec_enc_map; by intros k a _).
  assert (dec_map (dec_int i64_min i64_max 0) ∅ (enc_map enc_int fw) = Some fw) as Ef.
  { apply dec_enc_map. intros k a Ha. destruct (Hf k a Ha) as [_ Hw]. apply lit_int_enc; [done |]. unfold i64_min, i64_max in Hw. lia. }
  assert (∀ v, pv = Some v → dec_uint 255 0 (enc_int v) = Some v) as Ev by (intros v Hpv; apply dec_uint_enc; [by apply Hv | lia]).
  unfold enc_hello, dec_struct, zero_hello. cbn [hj_EphPub hj_Token hj_MaxConns hj_ChunkSize hj_ProtoVersion hj_Deprecated hj_UA hj_FW app].
  erewrite dec_cons by (unfold dec_hello_field; key_eqs; rewrite dec_enc_bytes by done; reflexivity).
  erewrite dec_cons by (unfold dec_hello_field; key_eqs; rewrite dec_enc_bytes by done; reflexivity).
  erewrite dec_cons by (unfold dec_hello_field; key_eqs; rewrite dec_uint_enc by lia; reflexivity).
  erewrite dec_cons by (unfold dec_hello_field; key_eqs; rewrite dec_uint_enc by lia; reflexivity).
  assert (∀ h l, dec_members dec_hello_field h (match pv with Some v => [(str "_v", enc_int v)] | None => [] end ++ l)
    = dec_members dec_hello_field (let '(mkHelloJSON e t mc cs _ dp ua fw) := h in mkHelloJSON e t mc cs (match pv with Some v => Some v | None => hj_ProtoVersion h end) dp ua fw) l) as Epv.
  { intros [????????] l. destruct pv as [v |]; [| done]. cbn [app]. erewrite dec_cons; [reflexivity |]. unfold dec_hello_field. key_eqs.
    change (dec_ptr (dec_uint 255 0) (enc_int v)) with (a ← dec_uint 255 0 (enc_int v); Some (Some a)). by rewrite Ev. }
  rewrite Epv. cbn [hj_ProtoVersion].
  destruct dp; cbn [app]; [erewrite dec_cons by (unfold dec_hello_field; key_eqs; reflexivity) |].
  all: destruct (decide (ua = ∅)) as [Eua | _]; cbn [app]; [| erewrite dec_cons by (unfold dec_hello_field; key_eqs; rewrite Eu; reflexivity)].
  all: destruct (decide (fw = ∅)) as [Efw | _]; [| erewrite dec_cons by (unfold dec_hello_field; key_eqs; rewrite Ef; reflexivity)].
  all: rewrite ?Eua, ?Efw; by destruct pv.
Qed.

Lemma hello_roundtrip h : hello_ok h → dec_hello (print (enc_hello h)) = Some h.
Proof.
  intros Hh. destruct (hello_member_wf h Hh) as [Hw Hd]. unfold dec_hello. rewrite json_roundtrip by (done || by apply depth_ok). by apply dec_enc_hello.
Qed.

(** ** Witnesses *)

Module WireDemo.
Definition token : bytes := [1; 2; 3; 255].
Definition chunk : bytes := [0; 128; 7].
Definition pad (n : Z) : option bytes := Some (replicate (Z.to_nat n) 120).
Definition drawn : draws := mkDraws (str "click") 1700000000000 (str "/api/v1/events") 5.
Definition anyURL (u : bytes) : bool := true.

Lemma token_ok : is_bytes token.
Proof. unfold is_bytes, is_byte. apply (bool_decide_unpack _). vm_compute. exact I. Qed.
Lemma chunk_ok : is_bytes chunk.
Proof. unfold is_bytes, is_byte. apply (bool_decide_unpack _). vm_compute. exact I. Qed.

Lemma upload_roundtrip_witness :
  BuildCoverTrafficRequest anyURL (str "https://a.example") token LockedChromeUA chunk drawn = BuildUploadRequest anyURL (str "https://a.example") chunk token [LockedChromeUA] drawn
  ∧ ∀ req, BuildUploadRequest anyURL (str "https://a.example") chunk token [LockedChromeUA] drawn = Some req →
      (chunk ≠ [] → len token + len chunk ≤ 49152 →
       (payload ← ParseUploadRequest (rq_Body req); ParseDataPayload payload (len token)) = Ret (token, chunk))
      ∧ (49152 < len token + len chunk → ParseUploadRequest (rq_Body req) = Err "upload data field exceeds limit").
Proof.
  apply (upload_roundtrip anyURL (str "https://a.example") chunk token LockedChromeUA drawn).
  - exact token_ok.
  - exact chunk_ok.
  - by apply (str_ascii "click").
  - unfold i64_min, i64_max, drawn. cbn. lia.
Defined.

Lemma download_roundtrip_witness :
  ParseDownloadResponse (BuildDownloadResponse chunk 77) = Ret (chunk, 77)
  ∧ let body := BuildInflatedDownloadResponse chunk 77 3000 400 pad in
    let plain := BuildInflatedDownloadResponse chunk 77 3000 0 pad in
    ParseDownloadResponse body = Ret (chunk, 77)
    ∧ (len plain + 8 < 400 → 400 + 1 ≤ len body ≤ 400 + 2) ∧ (400 ≤ len plain + 8 → body = plain).
Proof.
  apply (download_roundtrip chunk 77 3000 400 pad).
  - exact chunk_ok.
  - lia.
  - unfold i64_max. lia.
  - intros n Hn. exists (replicate (Z.to_nat n) 120). split; [reflexivity |]. unfold len. rewrite length_replicate. lia.
Defined.
End WireDemo.
