(* ===== verification/Fingerprints.v ===== *)
(** * Browser profiles ([skins/browser/profile.go], [fingerprint.go], [client/fpstate.go])

    The registry of browser profiles with its lock-step check, the weighted choice
    of a profile and its persistence, and the user agents a server may push.  What
    the TLS libraries say of a profile is a pair of strings in the profile. *)

From S2P Require Import Prelude.
From S2P Require Import Base64.
From S2P Require Import Json.
From S2P Require Import BrowserWire.
From stdpp Require Import base list gmap strings sorting.

#[local] Open Scope Z_scope.

(** ** Text helpers ([strings], [strconv]) *)

(** What follows the first occurrence of [sub]. *)
Fixpoint after (sub s : bytes) : option bytes :=
  if is_prefix sub s then Some (drop (length sub) s) else match s with [] => None | _ :: s' => after sub s' end.
(** What precedes the first [c]. *)
Fixpoint before (c : Z) (s : bytes) : option bytes :=
  match s with [] => None | x :: s' => if x =? c then Some [] else t ← before c s'; Some (x :: t) end.

Definition Atoi (s : bytes) : option Z :=
  let '(neg, ds) := match s with c :: r => if c =? 45 then (true, r) else if c =? 43 then (false, r) else (false, s) | [] => (false, []) end in
  if (len ds =? 0) || negb (forallb is_dig ds) then None else
  let v := if neg : bool then - undecimal ds else undecimal ds in
  if within i64_min v i64_max then Some v else None.

(** ** Profiles *)

Definition FamilyChrome : bytes := str "chrome".
Definition FamilyFirefox : bytes := str "firefox".
Definition ProfileChrome120 : bytes := str "chrome120".
Definition ProfileChrome131 : bytes := str "chrome131".
Definition ProfileChrome133 : bytes := str "chrome133".
Definition ProfileChrome : bytes := str "chrome".

Record BrowserProfile := mkProfile {
  bp_Name : bytes; bp_Family : bytes; bp_Major : Z;
  bp_UTLSClient : bytes;              (* UTLSHelloID.Client *)
  bp_HelloStr : bytes;                (* BogdanfinnID.GetClientHelloStr() *)
  bp_UAString : bytes;
  bp_CHUA : option (list (string * bytes));
  bp_PQKeyShare : bool;
}.

Definition extractMajorFromUA (ua : bytes) : option Z :=
  rest ← after (str "Chrome/") ua; d ← before 46 rest; Atoi d.

Fixpoint extractMajorFromCHUA (kvs : list (string * bytes)) : option Z :=
  match kvs with
  | [] => None
  | (k, v) :: kvs' =>
    if String.eqb k "sec-ch-ua" then
      rest ← after ([34] ++ str "Google Chrome" ++ [34] ++ str ";v=" ++ [34]) v; d ← before 34 rest; Atoi d
    else extractMajorFromCHUA kvs'
  end.

(** The digits at the end. *)
Definition trailing_digits (s : bytes) : bytes := rev (fst (span (rev s))).
Definition extractMajorFromBogdanfinn (s : bytes) : option Z :=
  let d := trailing_digits s in if len d =? 0 then None else Atoi d.

Definition validateProfile (p : BrowserProfile) : bool :=
  negb (len (bp_Name p) =? 0) && negb (len (bp_UAString p) =? 0) && negb (len (bp_UTLSClient p) =? 0)
  && negb (bytes_eqb (bp_HelloStr p) []) && negb (bytes_eqb (bp_HelloStr p) (str "-"))
  && (if bytes_eqb (bp_Family p) FamilyChrome then
        Contains (bp_UAString p) (str "Chrome/") && negb (Contains (bp_UAString p) (str "Firefox/"))
        && match bp_CHUA p with
           | None => false
           | Some chua =>
             bool_decide (extractMajorFromUA (bp_UAString p) = Some (bp_Major p))
             && bool_decide (extractMajorFromCHUA chua = Some (bp_Major p))
             && match extractMajorFromBogdanfinn (bp_HelloStr p) with Some m => m =? bp_Major p | None => true end
           end
      else if bytes_eqb (bp_Family p) FamilyFirefox then
        Contains (bp_UAString p) (str "Firefox/") && negb (Contains (bp_UAString p) (str "Chrome/")) && bool_decide (bp_CHUA p = None)
      else false).

Abbreviation registry := (gmap bytes BrowserProfile).

Definition register (reg : registry) (p : BrowserProfile) : outcome registry :=
  if validateProfile p then Ret (<[bp_Name p := p]> reg) else Panic.

(** The strings of the two TLS libraries for Chrome majors. *)
Record tls_strings := mkTLS { utls_client : Z → bytes; hello_str : Z → bytes }.

Definition chrome_profile (t : tls_strings) (name : bytes) (major : Z) (pq : bool) : BrowserProfile :=
  mkProfile name FamilyChrome major (utls_client t major) (hello_str t major) (ChromeUAForMajor major) (Some (ChromeCHUAForMajor major)) pq.

(** [init], built without the Firefox tag. *)
Definition init_registry (t : tls_strings) : outcome registry :=
  reg ← register ∅ (chrome_profile t ProfileChrome133 133 true);
  reg ← register reg (chrome_profile t ProfileChrome131 131 true);
  register reg (chrome_profile t ProfileChrome120 120 false).

Definition LookupProfile (reg : registry) (name : bytes) : option BrowserProfile :=
  match reg !! name with
  | Some p => Some p
  | None => if bytes_eqb name ProfileChrome then reg !! ProfileChrome133 else None
  end.

Definition ProfileUAs (reg : registry) : gmap bytes bytes := omap (λ p, if len (bp_UAString p) =? 0 then None else Some (bp_UAString p)) reg.
Definition IsChromeFamily (reg : registry) (name : bytes) : bool :=
  match LookupProfile reg name with Some p => bytes_eqb (bp_Family p) FamilyChrome | None => false end.
Definition DefaultFPWeights : gmap bytes Z := {[ProfileChrome133 := 60; ProfileChrome131 := 30; ProfileChrome120 := 10]}.

(** ** The weighted choice *)

Fixpoint pick_cand (cands : list (bytes * Z)) (r : Z) : bytes :=
  match cands with
  | [] => ProfileChrome133
  | (name, w) :: cands' => if r <? w then name else pick_cand cands' (r - w)
  end.

Definition candidates (reg : registry) (weights : gmap bytes Z) : list (bytes * Z) :=
  merge_sort key_le (map_to_list (filter (λ kv, 0 < snd kv ∧ is_Some (reg !! fst kv)) weights)).
(** [total] wraps at 64 bits. *)
Definition cand_total (cands : list (bytes * Z)) : Z := foldl (λ t kv, i64 (t + snd kv)) 0 cands.

Definition ChooseProfileName (reg : registry) (weights : gmap bytes Z) (seed : Z) : bytes :=
  let cands := candidates reg weights in
  let total := cand_total cands in
  if (total =? 0) || (len cands =? 0) then ProfileChrome133
  else pick_cand cands (i64 (seed mod u64 total)).

(** ** Persistence: the state file holds JSON; [None]: no such file *)

Record FPState := mkFP { fp_ProfileName : bytes; fp_CachedWeights : gmap bytes Z }.

Definition enc_fpstate (st : FPState) : json :=
  JObj ([(str "profile", JStr (fp_ProfileName st))]
        ++ (if decide (fp_CachedWeights st = ∅) then [] else [(str "weights", enc_map enc_int (fp_CachedWeights st))])).
Definition dec_fp_field (st : FPState) (k : bytes) (v : json) : option FPState :=
  if key_is "profile" k then n ← dec_string (fp_ProfileName st) v; Some (mkFP n (fp_CachedWeights st))
  else if key_is "weights" k then w ← dec_map (dec_int i64_min i64_max 0) (fp_CachedWeights st) v; Some (mkFP (fp_ProfileName st) w)
  else Some st.

(** [fileOK]: the directory can be made and the file written and renamed. *)
Definition SaveFPState (file : option bytes) (st : FPState) (fileOK : bool) : bool * option bytes :=
  if fileOK then (true, Some (print (enc_fpstate st))) else (false, file).
Definition LoadFPState (file : option bytes) : option FPState :=
  match file with
  | None => None
  | Some raw => match parse raw with Some v => dec_struct dec_fp_field (mkFP [] ∅) v | None => None end
  end.

Definition ResolveProfile (reg : registry) (file : option bytes) (weights : gmap bytes Z) (seed : Z) (fileOK : bool) : bytes * bool * option bytes :=
  let fresh :=
    let weights := if decide (weights = ∅) then DefaultFPWeights else weights in
    let chosen := ChooseProfileName reg weights seed in
    (chosen, true, snd (SaveFPState file (mkFP chosen weights) fileOK)) in
  match LoadFPState file with
  | Some st => match LookupProfile reg (fp_ProfileName st) with Some _ => (fp_ProfileName st, false, file) | None => fresh end
  | None => fresh
  end.

(** [switch]: the environment turns the pool off. *)
Definition resolveProfileWithEnv (reg : registry) (file : option bytes) (weights : gmap bytes Z) (seed : Z) (fileOK switch : bool) : bytes * option bytes :=
  if switch then (ProfileChrome133, file) else let '(name, _, file') := ResolveProfile reg file weights seed fileOK in (name, file').

(** [NewClient]: the cached weights come from the same file. *)
Definition NewClient_profile (reg : registry) (file : option bytes) (seed : Z) (fileOK switch : bool) : bytes * option bytes :=
  let cachedWeights := match LoadFPState file with Some st => fp_CachedWeights st | None => ∅ end in
  resolveProfileWithEnv reg file cachedWeights seed fileOK switch.

(** [applyServerHello] with weights in the hello: the name in the file is kept. *)
Definition cache_weights (file : option bytes) (selected : bytes) (fw : gmap bytes Z) (fileOK : bool) : option bytes :=
  if decide (fw = ∅) then file else
  let st := match LoadFPState file with Some st => st | None => mkFP selected ∅ end in
  snd (SaveFPState file (mkFP (fp_ProfileName st) fw) fileOK).

(** ** User agents pushed by the server *)

Definition isAllowedUAKey (reg : registry) (k : bytes) : bool := bool_decide (is_Some (LookupProfile reg k)).

Definition isValidUAForProfile (reg : registry) (ua profileName : bytes) : bool :=
  if (len ua <? 80) || (200 <? len ua) then false else
  if negb (forallb (λ c, (32 <=? c) && (c <=? 126)) ua) then false else
  if existsb (λ bad, bool_decide (bad ∈ ua)) [60; 62; 10; 13; 0] then false else
  if negb (Contains ua (str "Mozilla/")) then false else
  match LookupProfile reg profileName with
  | None => false
  | Some p =>
    if bytes_eqb (bp_Family p) FamilyChrome then
      if Contains ua (str "Firefox/") then false else Contains ua (str "Chrome/" ++ Itoa (bp_Major p) ++ str ".")
    else if bytes_eqb (bp_Family p) FamilyFirefox then
      if Contains ua (str "Chrome/") then false else Contains ua (str "Firefox/")
    else false
  end.

(** [UpdateUserAgents] on the package's user agent. *)
Definition UpdateUserAgents (chromeUA : bytes) (uas : gmap bytes bytes) : bytes :=
  match uas !! ProfileChrome with Some ua => if len ua =? 0 then chromeUA else ua | None => chromeUA end.

(** The last part of [applyServerHello]. *)
Definition apply_uas (reg : registry) (selected chromeUA : bytes) (uas : gmap bytes bytes) : bytes :=
  let validUAs := filter (λ kv, isAllowedUAKey reg (fst kv) = true ∧ isValidUAForProfile reg (snd kv) selected = true) uas in
  if decide (validUAs = ∅) then chromeUA else UpdateUserAgents chromeUA validUAs.

Record Fingerprint := mkFingerprint { fg_name : bytes; fg_userAgent : bytes; fg_profile : option BrowserProfile }.

(** [NewFingerprint]: the parameter is ignored. *)
Definition NewFingerprint (reg : registry) (chromeUA : bytes) : Fingerprint :=
  let p := LookupProfile reg ProfileChrome in
  let ua := match p with Some p => bp_UAString p | None => [] end in
  mkFingerprint (match p with Some p => bp_Name p | None => [] end) (if len chromeUA =? 0 then ua else chromeUA) p.
Definition NewFingerprintForProfile (reg : registry) (name : bytes) : Fingerprint :=
  let p := match LookupProfile reg name with Some p => Some p | None => LookupProfile reg ProfileChrome133 end in
  mkFingerprint (match p with Some p => bp_Name p | None => [] end) (match p with Some p => bp_UAString p | None => [] end) p.


(** ** The registry *)

Definition registry_ok (reg : registry) : Prop := map_Forall (λ name p, bp_Name p = name ∧ validateProfile p = true) reg.

Lemma register_ok reg p reg' : registry_ok reg → register reg p = Ret reg' → registry_ok reg' ∧ reg' = <[bp_Name p := p]> reg.
Proof.
  unfold register. intros Hr. destruct (validateProfile p) eqn:E; [| done]. intros [= <-]. split; [| done]. by apply map_Forall_insert_2.
Qed.

Lemma lookup_registered reg name p : registry_ok reg → LookupProfile reg name = Some p → validateProfile p = true.
Proof.
  intros Hr. unfold LookupProfile. destruct (reg !! name) eqn:E; [intros [= <-]; by apply (Hr _ _ E) |]. destruct (bytes_eqb _ _); [| done]. intros H. by apply (Hr _ _ H).
Qed.

(** What the check means for a Chrome profile: every surface says the same major. *)
Definition lockstep (p : BrowserProfile) : Prop :=
  bp_Family p = FamilyChrome →
  extractMajorFromUA (bp_UAString p) = Some (bp_Major p)
  ∧ (∃ chua, bp_CHUA p = Some chua ∧ extractMajorFromCHUA chua = Some (bp_Major p))
  ∧ (∀ m, extractMajorFromBogdanfinn (bp_HelloStr p) = Some m → m = bp_Major p).

Lemma valid_lockstep p : validateProfile p = true → lockstep p.
Proof.
  intros H Hf. unfold validateProfile in H. apply andb_true_iff in H as [_ H]. rewrite Hf in H. change (bytes_eqb FamilyChrome FamilyChrome) with true in H. cbn iota in H.
  apply andb_true_iff in H as [_ H]. destruct (bp_CHUA p) as [chua |]; [| done]. apply andb_true_iff in H as [[H1%bool_decide_eq_true H2%bool_decide_eq_true]%andb_true_iff H3].
  split; [done |]. split; [by exists chua |]. intros m E. rewrite E in H3. by apply Z.eqb_eq.
Qed.

(** What the documentation of the TLS libraries says of the three profiles. *)
Definition tls_documented (t : tls_strings) : Prop :=
  ∀ m, m ∈ [120; 131; 133] → utls_client t m ≠ [] ∧ hello_str t m = str "Chrome-" ++ Itoa m.

Lemma chrome_profile_valid t name m pq : tls_documented t → m ∈ [120; 131; 133] → name ≠ [] → validateProfile (chrome_profile t name m pq) = true.
Proof.
  intros Ht Hm Hn. destruct (Ht m Hm) as [Hu Hh]. unfold validateProfile, chrome_profile. cbn [bp_Name bp_UAString bp_UTLSClient bp_HelloStr bp_Family bp_CHUA bp_Major].
  assert ((len name =? 0) = false) as -> by (apply Z.eqb_neq; intros E%len_0_nil; done). assert ((len (utls_client t m) =? 0) = false) as -> by (apply Z.eqb_neq; intros E%len_0_nil; done).
  rewrite Hh. clear -Hm. rewrite !elem_of_cons, elem_of_nil in Hm. destruct_or! Hm; subst; vm_compute; done.
Qed.

(** The registry the package builds at start-up, with the library strings as
    documented: no registration panics, exactly the three Chrome profiles are
    there, each under its name, and in each the user agent, the [sec-ch-ua] header
    and the HTTP/2 profile name the same major. *)
Theorem registry_lockstep t : tls_documented t →
  ∃ reg, init_registry t = Ret reg ∧ dom reg = {[ProfileChrome120; ProfileChrome131; ProfileChrome133]}
    ∧ ∀ name p, reg !! name = Some p → bp_Name p = name ∧ lockstep p ∧ name = str "chrome" ++ Itoa (bp_Major p).
Proof.
  intros Ht. unfold init_registry, register.
  rewrite !chrome_profile_valid by (done || (rewrite !elem_of_cons; lia)). ostep. eexists. split; [done |]. cbn [bp_Name chrome_profile]. split; [rewrite !dom_insert_L, dom_empty_L; set_solver |].
  intros name p. rewrite !lookup_insert_Some, lookup_empty.
  assert (∀ nm m pq, nm ≠ [] → m ∈ [120; 131; 133] → nm = str "chrome" ++ Itoa m → nm = name ∧ chrome_profile t nm m pq = p → bp_Name p = name ∧ lockstep p ∧ name = str "chrome" ++ Itoa (bp_Major p)) as Hone.
  { intros nm m pq Hne Hm Hnm [<- <-]. split; [done |]. split; [by apply valid_lockstep, chrome_profile_valid | done]. }
  intros [H | (_ & [H | (_ & [H | (_ & [=])])])]; (eapply Hone; [| | | exact H]); (done || (rewrite !elem_of_cons; lia)).
Qed.

(** ** The choice is weighted *)

Definition wsum (l : list (bytes * Z)) : Z := foldr (λ kv t, snd kv + t) 0 l.

Lemma wsum_nonneg l : Forall (λ kv, 0 < snd kv) l → 0 ≤ wsum l.
Proof. induction 1 as [| kv l H Hl IH]; [done |]. cbn [wsum foldr]. fold (wsum l). lia. Qed.

Lemma i64_fits z : - 2 ^ 63 ≤ z < 2 ^ 63 → i64 z = z.
Proof. intros H. unfold i64. rewrite Z.mod_small; lia. Qed.

Lemma cand_total_sum l : Forall (λ kv, 0 < snd kv) l → wsum l < 2 ^ 63 → cand_total l = wsum l.
Proof.
  intros Hp Hb. unfold cand_total. assert (∀ t, 0 ≤ t → t + wsum l < 2 ^ 63 → foldl (λ t kv, i64 (t + snd kv)) t l = t + wsum l) as H; [| rewrite (H 0); lia].
  clear Hb. induction Hp as [| kv l Hk Hl IH]; intros t Ht Hb; cbn [foldl wsum foldr] in *; [lia |]. fold (wsum l) in *. pose proof (wsum_nonneg l Hl). rewrite i64_fits, IH by lia. lia.
Qed.

(** How many of the first [n] values the choice maps to [name]. *)
Definition hits (l : list (bytes * Z)) (name : bytes) (n : nat) : nat := length (filter (λ k, pick_cand l (Z.of_nat k) = name) (seq 0 n)).

Lemma filter_map (f g : nat → Prop) `{∀ k, Decision (f k), ∀ k, Decision (g k)} (h : nat → nat) l :
  (∀ k, k ∈ l → g k ↔ f (h k)) → length (filter g l) = length (filter f (h <$> l)).
Proof.
  induction l as [| k l IH]; [done |]. intros Hl. rewrite fmap_cons. assert (length (filter g l) = length (filter f (h <$> l))) as E by (apply IH; intros j Hj; apply Hl; by right).
  destruct (decide (g k)) as [Hk | Hk].
  - rewrite !filter_cons_True by (done || by apply Hl; [left |]). cbn. by rewrite E.
  - rewrite !filter_cons_False; [done | by rewrite <- Hl by left | done].
Qed.

Lemma filter_full (f : nat → Prop) `{∀ k, Decision (f k)} l : (∀ k, k ∈ l → f k) → length (filter f l) = length l.
Proof. induction l as [| k l IH]; [done |]. intros Hl. rewrite filter_cons_True by (apply Hl; left). cbn. f_equal. apply IH. intros j Hj. apply Hl. by right. Qed.

Lemma filter_none (f : nat → Prop) `{∀ k, Decision (f k)} l : (∀ k, k ∈ l → ¬ f k) → length (filter f l) = 0%nat.
Proof. induction l as [| k l IH]; [done |]. intros Hl. rewrite filter_cons_False by (apply Hl; left). apply IH. intros j Hj. apply Hl. by right. Qed.

Lemma hits_weight l name : NoDup l.*1 → Forall (λ kv, 0 < snd kv) l →
  hits l name (Z.to_nat (wsum l)) = match list_to_map (M := gmap bytes Z) l !! name with Some w => Z.to_nat w | None => 0%nat end.
Proof.
  intros Hn Hp. induction Hp as [| [k w] l Hk Hl IH]; [done |]. cbn in Hn. apply NoDup_cons in Hn as [Hni Hn]. specialize (IH Hn). cbn [snd] in Hk.
  unfold hits in *. cbn [wsum foldr snd list_to_map]. fold (wsum l). pose proof (wsum_nonneg l Hl). rewrite Z2Nat.inj_add by lia. rewrite seq_app, filter_app, length_app. cbn [pick_cand].
  assert (length (filter (λ j, (if Z.of_nat j <? w then k else pick_cand l (Z.of_nat j - w)) = name) (seq (0 + Z.to_nat w) (Z.to_nat (wsum l)))) = hits l name (Z.to_nat (wsum l))) as ->.
  { rewrite <- (Nat.add_0_r (0 + Z.to_nat w)), <- fmap_add_seq. symmetry. apply filter_map. intros j _. rewrite (proj2 (Z.ltb_ge _ _)) by lia. by replace (Z.of_nat (0 + Z.to_nat w + j) - w) with (Z.of_nat j) by lia. }
  unfold hits. rewrite IH. cbn [fst]. destruct (decide (k = name)) as [-> | Hne].
  - rewrite filter_full, length_seq, lookup_insert_eq. 2: { intros j Hj%elem_of_seq. rewrite (proj2 (Z.ltb_lt _ _)) by lia. done. }
    rewrite not_elem_of_list_to_map_1 by done. lia.
  - rewrite filter_none, lookup_insert_ne by done || (intros j Hj%elem_of_seq; rewrite (proj2 (Z.ltb_lt _ _)) by lia; done). done.
Qed.

(** The weights that count: positive ones of registered profiles. *)
Definition eligible (reg : registry) (weights : gmap bytes Z) : gmap bytes Z := filter (λ kv, 0 < snd kv ∧ is_Some (reg !! fst kv)) weights.

Lemma candidates_perm reg weights : candidates reg weights ≡ₚ map_to_list (eligible reg weights).
Proof. apply merge_sort_Permutation. Qed.

Lemma candidates_facts reg weights :
  NoDup (candidates reg weights).*1 ∧ Forall (λ kv, 0 < snd kv) (candidates reg weights) ∧ list_to_map (candidates reg weights) = eligible reg weights.
Proof.
  pose proof (candidates_perm reg weights) as Hp. split; [rewrite Hp; apply NoDup_fst_map_to_list |]. split.
  - rewrite Hp, Forall_forall. intros [k w] H%elem_of_map_to_list. unfold eligible in H. by apply map_lookup_filter_Some in H as [_ [H _]].
  - rewrite <- (list_to_map_to_list (eligible reg weights)). apply list_to_map_proper; [rewrite Hp; apply NoDup_fst_map_to_list | done].
Qed.

Lemma pick_in l r : 0 ≤ r < wsum l → Forall (λ kv, 0 < snd kv) l → pick_cand l r ∈ l.*1.
Proof.
  intros Hr Hl. revert r Hr. induction Hl as [| [k w] l Hk Hl IH]; intros r Hr; cbn [wsum foldr snd pick_cand fmap list_fmap fst] in *; [lia |]. fold (wsum l) in *.
  destruct (Z.ltb_spec r w); [by left |]. right. apply IH. lia.
Qed.

(** The profile is chosen by weight.  With weights whose positive part on
    registered names sums to [total], below 2^63 and not zero, a profile of weight
    [w] is chosen for exactly [w] of the seeds 0 ... [total] - 1, the others
    repeating with period [total]; unknown names and weights that are not positive
    are never chosen. *)
Theorem choice_weighted reg weights total :
  wsum (map_to_list (eligible reg weights)) = total → 0 < total < 2 ^ 63 →
  (∀ name, length (filter (λ n, ChooseProfileName reg weights (Z.of_nat n) = name) (seq 0 (Z.to_nat total)))
           = match eligible reg weights !! name with Some w => Z.to_nat w | None => 0%nat end)
  ∧ ∀ seed, 0 ≤ seed → ChooseProfileName reg weights seed = ChooseProfileName reg weights (seed mod total)
                       ∧ is_Some (eligible reg weights !! ChooseProfileName reg weights seed).
Proof.
  intros Ht Hb. destruct (candidates_facts reg weights) as (Hn & Hp & Hm).
  assert (wsum (candidates reg weights) = total) as Hs.
  { rewrite <- Ht. unfold wsum. apply (foldr_permutation_proper (=) (λ (kv : bytes * Z) t, snd kv + t)); [intros kv x y ->; done | intros a1 a2 b0; lia | apply candidates_perm]. }
  assert (∀ seed, 0 ≤ seed → ChooseProfileName reg weights seed = pick_cand (candidates reg weights) (seed mod total)) as Hc.
  { intros seed Hseed. unfold ChooseProfileName. rewrite cand_total_sum, Hs by (done || lia). rewrite (proj2 (Z.eqb_neq total 0)) by lia.
    destruct (Z.eqb_spec (len (candidates reg weights)) 0) as [E%len_0_nil |]; [rewrite E in Hs; cbn in Hs; lia |]. cbn [orb].
    unfold u64. rewrite (Z.mod_small total) by lia. pose proof (Z.mod_pos_bound seed total ltac:(lia)). by rewrite i64_fits by lia. }
  split.
  - intros name. rewrite <- Hm, <- hits_weight, Hs by done. unfold hits. rewrite <- (list_fmap_id (seq 0 (Z.to_nat total))) at 2. apply filter_map. intros k [_ Hk]%elem_of_seq. by rewrite Hc, Z.mod_small by lia.
  - intros seed Hseed. pose proof (Z.mod_pos_bound seed total ltac:(lia)). rewrite !Hc, Z.mod_mod by lia. split; [done |].
    rewrite <- Hm. pose proof (pick_in (candidates reg weights) (seed mod total) ltac:(lia) Hp) as Hin. apply list_elem_of_fmap in Hin as ([k w] & E & Hin). cbn in E. rewrite E. exists w. by apply elem_of_list_to_map_1.
Qed.

(** ** The choice is kept *)

Definition weights_ok (w : gmap bytes Z) : Prop := map_Forall (λ k x, is_ascii k ∧ i64_min ≤ x ≤ i64_max) w.

Lemma load_parsed raw v : parse raw = Some v → LoadFPState (Some raw) = dec_struct dec_fp_field (mkFP [] ∅) v.
Proof. unfold LoadFPState. by intros ->. Qed.

Lemma fpstate_roundtrip st : is_ascii (fp_ProfileName st) → weights_ok (fp_CachedWeights st) → LoadFPState (Some (print (enc_fpstate st))) = Some st.
Proof.
  destruct st as [n w]. cbn [fp_ProfileName fp_CachedWeights]. intros Hn Hw.
  assert (json_wf (enc_map enc_int w)) as Ww.
  { apply enc_map_wf. intros k x Hk. destruct (Hw k x Hk) as [? Hx]. split; [done |]. apply enc_int_wf. unfold i64_min, i64_max in Hx. lia. }
  pose proof (enc_map_depth enc_int w (λ _, eq_refl)) as Dw.
  assert (json_wf (enc_fpstate (mkFP n w)) ∧ (jdepth (enc_fpstate (mkFP n w)) ≤ 10)%nat) as [Hj Hd].
  { unfold enc_fpstate. cbn [fp_ProfileName fp_CachedWeights]. split.
    - rewrite wf_obj, Forall_app. split; [apply Forall_singleton; split; [by apply str_ascii | done] |]. case_decide; [constructor |]. apply Forall_singleton. split; [by apply str_ascii | done].
    - cbn [jdepth app]. case_decide; cbn [app map snd]; unfold max_list; cbn -[enc_map]; lia. }
  rewrite (load_parsed _ (enc_fpstate (mkFP n w))) by (apply json_roundtrip; [exact Hj | by apply depth_ok]). clear Hj Hd.
  unfold enc_fpstate, dec_struct. cbn [fp_ProfileName fp_CachedWeights app].
  erewrite dec_cons by (unfold dec_fp_field; key_eqs; reflexivity). case_decide as Ew; [by rewrite Ew |].
  erewrite dec_cons; [done |]. unfold dec_fp_field. key_eqs. cbn [fp_CachedWeights fp_ProfileName]. rewrite dec_enc_map; [done |]. intros k x Hk. destruct (Hw k x Hk) as [_ Hx]. apply lit_int_enc; [done |]. unfold i64_min, i64_max in Hx. lia.
Qed.

(** Starts of the client and hellos with weights, in any order; the result lists
    the profile of every start. *)
Inductive fp_op := Restart (seed : Z) | Push (fw : gmap bytes Z) (fileOK : bool).

Fixpoint fp_run (reg : registry) (selected : bytes) (file : option bytes) (ops : list fp_op) : list bytes :=
  match ops with
  | [] => []
  | Restart seed :: ops' => let '(name, file') := NewClient_profile reg file seed true false in name :: fp_run reg name file' ops'
  | Push fw ok :: ops' => fp_run reg selected (cache_weights file selected fw ok) ops'
  end.

Definition push_ok (o : fp_op) : Prop := match o with Push fw _ => weights_ok fw | Restart _ => True end.

Lemma kept_run reg name file st ops : LoadFPState file = Some st → fp_ProfileName st = name → is_Some (LookupProfile reg name) → is_ascii name →
  Forall push_ok ops → Forall (λ n, n = name) (fp_run reg name file ops).
Proof.
  intros Hl Hn [p Hp] Ha Ho. revert file st Hl Hn. induction Ho as [| o ops Ho Hops IH]; intros file st Hl Hn; [constructor |]. destruct o as [seed | fw ok]; cbn [fp_run].
  - unfold NewClient_profile, resolveProfileWithEnv, ResolveProfile. rewrite Hl, Hn, Hp. constructor; [done |]. by eapply IH.
  - unfold cache_weights. destruct (decide (fw = ∅)); [by eapply IH |]. rewrite Hl. unfold SaveFPState. destruct ok; cbn [snd]; [| by eapply IH].
    eapply IH; [apply fpstate_roundtrip; cbn; [by rewrite Hn | exact Ho] | exact Hn].
Qed.

Lemma choose_registered reg weights seed : is_Some (reg !! ProfileChrome133) → is_Some (reg !! ChooseProfileName reg weights seed).
Proof.
  intros Hd. unfold ChooseProfileName. destruct (_ || _); [done |].
  assert (Forall (λ kv, is_Some (reg !! fst kv)) (candidates reg weights)) as Hc.
  { rewrite candidates_perm, Forall_forall. intros [k w] H%elem_of_map_to_list. unfold eligible in H. by apply map_lookup_filter_Some in H as [_ [_ H]]. }
  generalize (i64 (seed mod u64 (cand_total (candidates reg weights)))). induction Hc as [| [k w] l Hk Hl IH]; intros r; cbn [pick_cand]; [done |]. by destruct (r <? w).
Qed.

(** A client keeps its profile.  Once a start has chosen one and written it,
    every later start uses it, whatever seeds are drawn and whatever weights the
    server pushes in between. *)
Theorem profile_sticky reg seed ops name file :
  is_Some (reg !! ProfileChrome133) → (∀ k, is_Some (reg !! k) → is_ascii k) → Forall push_ok ops →
  NewClient_profile reg None seed true false = (name, file) →
  is_Some (reg !! name) ∧ Forall (λ n, n = name) (fp_run reg name file ops).
Proof.
  intros Hd Ha Ho. unfold NewClient_profile, resolveProfileWithEnv, ResolveProfile. change (LoadFPState None) with (@None FPState). cbn iota. rewrite decide_True by done.
  unfold SaveFPState. cbv iota. cbn [snd]. intros E. apply pair_equal_spec in E as [En Ef]. pose proof (choose_registered reg DefaultFPWeights seed Hd) as Hr. rewrite En in *. split; [done |]. subst file.
  eapply kept_run; [apply fpstate_roundtrip; cbn; [by apply Ha |] | done | | by apply Ha | done].
  - intros k x Hk. unfold DefaultFPWeights in Hk. rewrite !lookup_insert_Some, lookup_empty in Hk.
    destruct Hk as [[<- <-] | (_ & [[<- <-] | (_ & [[<- <-] | (_ & [=])])])]; (split; [first [by apply (str_ascii "chrome133") | by apply (str_ascii "chrome131") | by apply (str_ascii "chrome120")] | unfold i64_min, i64_max; lia]).
  - destruct Hr as [p Hp]. exists p. unfold LookupProfile. by rewrite Hp.
Qed.

(** ** Pushed user agents *)

(** A server cannot give the client a user agent of another browser: whatever
    names and strings its hello carries, the user agent stays or becomes a printable
    one of 80 to 200 characters that fits the family of the client's own profile and,
    for Chrome, its major. *)
Theorem pushed_ua_fits reg selected chromeUA uas p :
  LookupProfile reg selected = Some p → bp_Family p = FamilyChrome →
  let ua := apply_uas reg selected chromeUA uas in
  ua = chromeUA ∨ (80 ≤ len ua ≤ 200 ∧ Forall (λ c, 32 ≤ c ≤ 126) ua ∧ Contains ua (str "Firefox/") = false
                   ∧ Contains ua (str "Chrome/" ++ Itoa (bp_Major p) ++ str ".") = true).
Proof.
  intros Hp Hf ua. unfold ua, apply_uas. case_decide; [by left |]. unfold UpdateUserAgents. destruct (filter _ uas !! ProfileChrome) as [u |] eqn:E; [| by left].
  apply map_lookup_filter_Some in E as [_ [_ Hv]]. cbn [snd] in Hv. destruct (len u =? 0); [by left |]. right. unfold isValidUAForProfile in Hv.
  destruct ((len u <? 80) || (200 <? len u)) eqn:El; [done |]. apply orb_false_iff in El as [?%Z.ltb_ge ?%Z.ltb_ge].
  destruct (negb (forallb _ u)) eqn:Ec; [done |]. apply negb_false_iff in Ec. destruct (existsb _ _); [done |]. destruct (negb (Contains u _)); [done |].
  rewrite Hp, Hf in Hv. change (bytes_eqb FamilyChrome FamilyChrome) with true in Hv. cbn iota in Hv. destruct (Contains u (str "Firefox/")); [done |].
  split; [lia |]. split; [| done]. apply Forall_forall. intros c Hc%list_elem_of_In. rewrite forallb_forall in Ec. specialize (Ec c Hc). lia.
Qed.

(** ** Witnesses and defects *)

Module ProfileDemo.

Definition tls : tls_strings := mkTLS (λ _, str "Chrome") (λ m, str "Chrome-" ++ Itoa m).
Definition reg : registry := match init_registry tls with Ret r => r | _ => ∅ end.

Lemma registry_lockstep_witness :
  ∃ reg, init_registry tls = Ret reg ∧ dom reg = {[ProfileChrome120; ProfileChrome131; ProfileChrome133]}
    ∧ ∀ name p, reg !! name = Some p → bp_Name p = name ∧ lockstep p ∧ name = str "chrome" ++ Itoa (bp_Major p).
Proof. apply (registry_lockstep tls). intros m _. by split. Defined.

Definition weights : gmap bytes Z := {[ProfileChrome133 := 3; ProfileChrome120 := 2; str "safari" := 7; ProfileChrome131 := -4]}.

Lemma choice_weighted_witness :
  (∀ name, length (filter (λ n, ChooseProfileName reg weights (Z.of_nat n) = name) (seq 0 (Z.to_nat 5)))
           = match eligible reg weights !! name with Some w => Z.to_nat w | None => 0%nat end)
  ∧ ∀ seed, 0 ≤ seed → ChooseProfileName reg weights seed = ChooseProfileName reg weights (seed mod 5)
                       ∧ is_Some (eligible reg weights !! ChooseProfileName reg weights seed).
Proof. apply (choice_weighted reg weights 5); [vm_compute; reflexivity | lia]. Defined.

Example choices : map (ChooseProfileName reg weights) [0; 1; 2; 3; 4; 5] = [ProfileChrome120; ProfileChrome120; ProfileChrome133; ProfileChrome133; ProfileChrome133; ProfileChrome120].
Proof. vm_compute. reflexivity. Qed.

Definition sticky_ops : list fp_op := [Push {[ProfileChrome120 := 100]} true; Restart 5; Push ∅ true; Restart 77].

Lemma profile_sticky_witness :
  let '(name, file) := NewClient_profile reg None 12 true false in
  is_Some (reg !! name) ∧ Forall (λ n, n = name) (fp_run reg name file sticky_ops).
Proof.
  destruct (NewClient_profile reg None 12 true false) as [name file] eqn:E. apply (profile_sticky reg 12 sticky_ops name file).
  - vm_compute. eexists. reflexivity.
  - intros k Hk. assert (k ∈ dom reg) as Hd by by apply elem_of_dom. assert (dom reg = {[ProfileChrome120; ProfileChrome131; ProfileChrome133]}) as Ed by (vm_compute; reflexivity).
    rewrite Ed in Hd. apply elem_of_union in Hd as [Hd | ->%elem_of_singleton]; [apply elem_of_union in Hd as [->%elem_of_singleton | ->%elem_of_singleton] |]; [by apply (str_ascii "chrome120") | by apply (str_ascii "chrome131") | by apply (str_ascii "chrome133")].
  - apply Forall_cons; split; [intros k x Hk; apply lookup_singleton_Some in Hk as [<- <-]; split; [by apply (str_ascii "chrome120") | unfold i64_min, i64_max; lia] |].
    apply Forall_cons; split; [done |]. apply Forall_cons; split; [intros k x Hk; by rewrite lookup_empty in Hk |]. apply Forall_cons; split; [done |]. constructor.
  - exact E.
Defined.

Definition uas : gmap bytes bytes := {[ProfileChrome := ChromeUAForMajor 131]}.

Lemma pushed_ua_fits_witness :
  let ua := apply_uas reg ProfileChrome131 LockedChromeUA uas in
  ua = LockedChromeUA ∨ (80 ≤ len ua ≤ 200 ∧ Forall (λ c, 32 ≤ c ≤ 126) ua ∧ Contains ua (str "Firefox/") = false
                   ∧ Contains ua (str "Chrome/" ++ Itoa 131 ++ str ".") = true).
Proof. apply (pushed_ua_fits reg ProfileChrome131 LockedChromeUA uas (chrome_profile tls ProfileChrome131 131 true)); vm_compute; reflexivity. Defined.

(** The server sends the user agents of its registry under the names of the
    profiles; the client keeps only the name "chrome", which is not among them, so
    the mechanism does nothing, for any client. *)
Theorem pushed_uas_ignored selected chromeUA : apply_uas reg selected chromeUA (ProfileUAs reg) = chromeUA.
Proof.
  unfold apply_uas. case_decide; [done |]. unfold UpdateUserAgents. destruct (filter _ _ !! ProfileChrome) as [u |] eqn:E; [| done].
  apply map_lookup_filter_Some in E as [E _]. vm_compute in E. discriminate.
Qed.

(** A user agent accepted for a client on profile chrome131 is then used by
    [NewFingerprint] together with the profile chrome133: the surfaces disagree. *)
Theorem pushed_ua_breaks_lockstep :
  let chromeUA := apply_uas reg ProfileChrome131 LockedChromeUA uas in
  let fp := NewFingerprint reg chromeUA in
  extractMajorFromUA (fg_userAgent fp) = Some 131 ∧ bp_Major <$> fg_profile fp = Some 133.
Proof. vm_compute. split; reflexivity. Qed.

(** A request with the user agent of chrome131 carries the [sec-ch-ua] of 133. *)
Theorem chua_of_another_major :
  ∃ req, BuildUploadRequest (λ _, true) (str "https://a.b") [1] [2] [fg_userAgent (NewFingerprintForProfile reg ProfileChrome131)] (mkDraws (str "click") 0 (str "/x") 7) = Some req
    ∧ (ua ← rq_Header req !! "User-Agent"%string; extractMajorFromUA ua) = Some 131
    ∧ (v ← rq_Header req !! "sec-ch-ua"%string; extractMajorFromCHUA [("sec-ch-ua"%string, v)]) = Some 133.
Proof. eexists. split; [vm_compute; reflexivity |]. split; vm_compute; reflexivity. Qed.

(** Weights pushed by the server are stored, and not used by the next start. *)
Theorem pushed_weights_unused : fp_run reg ProfileChrome133 (snd (NewClient_profile reg None 99 true false)) [Push {[ProfileChrome120 := 100]} true; Restart 3] = [ProfileChrome133].
Proof. vm_compute. reflexivity. Qed.

End ProfileDemo.
