(* ===== verification/AsyncWriter.v ===== *)
(** * Asynchronous WebSocket writer ([core/wsasyncwriter.go])

    One writer goroutine ([Run]) drains a bounded control and a bounded data
    channel; any number of producers enqueue.  A producer first checks [done],
    copies the frame, then selects between sending and [done]; the writer's
    [select] picks either channel when both are ready.  Each of these is one
    action of the step function; the argument of the action is the choice the
    scheduler makes. *)

From S2P Require Import Prelude.
From stdpp Require Import base list gmap strings.

#[local] Open Scope Z_scope.

Inductive prio := Control | Data.

#[global] Instance prio_eq_dec : EqDecision prio.
Proof. solve_decision. Defined.

(** [wsOutboundMsg], with the channel it travels on. *)
Record frame := mkFrame { f_prio : prio; f_type : Z; f_data : bytes }.

(** Where [Run] is. *)
Inductive writer_pc :=
| WPhase1                          (* non-blocking drain of the control channel *)
| WPhase2                          (* select on control, outbound and done *)
| WWriting (f : frame) (draining : option prio)
                                   (* inside [writeFrame]; [Some p] in [drainRemaining]'s loop [p] *)
| WDrainControl
| WDrainData
| WExit (err : option string).     (* [Run] returned; [runDone] is closed *)

(** [Enqueue], [EnqueueControl] and [TryEnqueueControl] *)
Inductive enqueue_kind := KEnqueue | KEnqueueControl | KTryEnqueueControl.

Inductive producer :=
| PChecked (k : enqueue_kind) (f : frame)  (* passed the closed check, copied the data *)
| PReturned (ok : bool).                   (* [nil]/[true], or [ErrWSWriterClosed]/[false] *)

Record WSAsyncWriter := mkWriter {
  control : list frame;
  outbound : list frame;
  bufSize : Z;
  w_done : bool;
  w_pc : writer_pc;
  producers : gmap nat producer;
  taken : list frame;        (* frames received from a channel, in order *)
  written : list frame;      (* frames [conn.WriteMessage] accepted *)
  accepted : list frame;     (* frames a producer was told are queued *)
}.

Definition controlCap : Z := 64.

Definition NewWSAsyncWriter (bufSize : Z) : WSAsyncWriter :=
  mkWriter [] [] (if bufSize <? 1 then 1 else bufSize) false WPhase1 ∅ [] [] [].

Definition prio_of (k : enqueue_kind) : prio := match k with KEnqueue => Data | _ => Control end.

Definition set_pc (w : WSAsyncWriter) (pc : writer_pc) : WSAsyncWriter :=
  mkWriter (control w) (outbound w) (bufSize w) (w_done w) pc (producers w) (taken w) (written w) (accepted w).

Definition set_done (w : WSAsyncWriter) : WSAsyncWriter :=
  mkWriter (control w) (outbound w) (bufSize w) true (w_pc w) (producers w) (taken w) (written w) (accepted w).

Definition set_producer (w : WSAsyncWriter) (p : nat) (st : producer) : WSAsyncWriter :=
  mkWriter (control w) (outbound w) (bufSize w) (w_done w) (w_pc w) (<[p := st]> (producers w))
    (taken w) (written w) (accepted w).

(** [msg := <-w.control] / [msg := <-w.outbound], when a frame is there. *)
Definition receive (w : WSAsyncWriter) (pr : prio) (draining : option prio) : option WSAsyncWriter :=
  match pr with
  | Control =>
    match control w with
    | f :: rest => Some (mkWriter rest (outbound w) (bufSize w) (w_done w) (WWriting f draining)
                           (producers w) (taken w ++ [f]) (written w) (accepted w))
    | [] => None
    end
  | Data =>
    match outbound w with
    | f :: rest => Some (mkWriter (control w) rest (bufSize w) (w_done w) (WWriting f draining)
                           (producers w) (taken w ++ [f]) (written w) (accepted w))
    | [] => None
    end
  end.

(** The outcome of [writeFrame]. *)
Definition finish_write (w : WSAsyncWriter) (f : frame) (draining : option prio) (ok : bool) : WSAsyncWriter :=
  if ok then
    mkWriter (control w) (outbound w) (bufSize w) (w_done w)
      (match draining with None => WPhase1 | Some Control => WDrainControl | Some Data => WDrainData end)
      (producers w) (taken w) (written w ++ [f]) (accepted w)
  else
    match draining with
    | None => set_pc (set_done w) (WExit (Some "write error"%string))
    | Some _ => set_pc w (WExit (Some "write error"%string))
    end.

(** Which ready case the writer's [select] takes in phase 2, and whether the
    write in progress succeeds. *)
Inductive choice := CControl | COutbound | CDone | COk | CFail.

Definition writer_step (w : WSAsyncWriter) (c : choice) : option WSAsyncWriter :=
  match w_pc w with
  | WPhase1 =>
    match receive w Control None with
    | Some w' => Some w'
    | None => Some (set_pc w WPhase2)
    end
  | WPhase2 =>
    match c with
    | CControl => receive w Control None
    | COutbound => receive w Data None
    | CDone => if w_done w then Some (set_pc w WDrainControl) else None
    | _ => None
    end
  | WWriting f draining =>
    match c with
    | COk => Some (finish_write w f draining true)
    | CFail => Some (finish_write w f draining false)
    | _ => None
    end
  | WDrainControl =>
    match receive w Control (Some Control) with
    | Some w' => Some w'
    | None => Some (set_pc w WDrainData)
    end
  | WDrainData =>
    match receive w Data (Some Data) with
    | Some w' => Some w'
    | None => Some (set_pc w (WExit None))
    end
  | WExit _ => None
  end.

Definition has_room (w : WSAsyncWriter) (pr : prio) : bool :=
  match pr with
  | Control => len (control w) <? controlCap
  | Data => len (outbound w) <? bufSize w
  end.

Definition send (w : WSAsyncWriter) (f : frame) : WSAsyncWriter :=
  match f_prio f with
  | Control => mkWriter (control w ++ [f]) (outbound w) (bufSize w) (w_done w) (w_pc w) (producers w)
                 (taken w) (written w) (accepted w ++ [f])
  | Data => mkWriter (control w) (outbound w ++ [f]) (bufSize w) (w_done w) (w_pc w) (producers w)
              (taken w) (written w) (accepted w ++ [f])
  end.

Inductive waction :=
| WStart (p : nat) (k : enqueue_kind) (msgType : Z) (data : bytes)  (* the closed check *)
| WSend (p : nat)                                                   (* the send case *)
| WGiveUp (p : nat)                                                 (* the other case *)
| WWriter (c : choice)
| WClose.

Definition wstep (w : WSAsyncWriter) (a : waction) : option WSAsyncWriter :=
  match a with
  | WStart p k ty data =>
    match producers w !! p with
    | Some _ => None
    | None => Some (set_producer w p (if w_done w then PReturned false
                                      else PChecked k (mkFrame (prio_of k) ty data)))
    end
  | WSend p =>
    match producers w !! p with
    | Some (PChecked k f) =>
      if has_room w (prio_of k) then Some (set_producer (send w f) p (PReturned true)) else None
    | _ => None
    end
  | WGiveUp p =>
    match producers w !! p with
    | Some (PChecked KTryEnqueueControl f) =>
      if has_room w Control then None else Some (set_producer w p (PReturned false))
    | Some (PChecked _ f) => if w_done w then Some (set_producer w p (PReturned false)) else None
    | _ => None
    end
  | WWriter c => writer_step w c
  | WClose => Some (set_done w)
  end.

Fixpoint wrun (w : WSAsyncWriter) (acts : list waction) : option WSAsyncWriter :=
  match acts with
  | [] => Some w
  | a :: acts' => match wstep w a with Some w' => wrun w' acts' | None => None end
  end.

Definition of_prio (pr : prio) (l : list frame) : list frame := filter (λ f, f_prio f = pr) l.
#[global] Arguments of_prio : simpl never.

(** ** Invariant *)

Definition in_flight (w : WSAsyncWriter) : list frame :=
  match w_pc w with WWriting f _ => [f] | _ => [] end.

Definition failed (w : WSAsyncWriter) : bool :=
  match w_pc w with WExit (Some _) => true | _ => false end.

Record writer_inv (w : WSAsyncWriter) : Prop := {
  wi_control : of_prio Control (accepted w) = of_prio Control (taken w) ++ control w;
  wi_data : of_prio Data (accepted w) = of_prio Data (taken w) ++ outbound w;
  wi_kinds : Forall (λ f, f_prio f = Control) (control w) ∧ Forall (λ f, f_prio f = Data) (outbound w);
  wi_bounds : len (control w) ≤ controlCap ∧ len (outbound w) ≤ bufSize w ∧ 1 ≤ bufSize w;
  wi_written : failed w = false → taken w = written w ++ in_flight w;
  wi_prefix : written w `prefix_of` taken w;
  wi_producers p k f : producers w !! p = Some (PChecked k f) → f_prio f = prio_of k;
  wi_drain : match w_pc w with
             | WDrainControl | WDrainData | WWriting _ (Some _) => w_done w = true
             | _ => True
             end;
}.

Lemma of_prio_app pr l k : of_prio pr (l ++ k) = of_prio pr l ++ of_prio pr k.
Proof. apply filter_app. Qed.

Lemma of_prio_one pr f : of_prio pr [f] = if decide (f_prio f = pr) then [f] else [].
Proof. unfold of_prio. rewrite filter_cons. by destruct (decide _). Qed.

Lemma writer_inv_new n : writer_inv (NewWSAsyncWriter n).
Proof.
  split; cbn; try done; try (repeat constructor; done).
  unfold len, controlCap. cbn. repeat zcase; lia.
Qed.

(** Nothing the invariant speaks of changes except the place of the writer. *)
Lemma writer_inv_pc w pc :
  writer_inv w → in_flight w = [] → in_flight (set_pc w pc) = [] → failed w = false →
  (match pc with WDrainControl | WDrainData | WWriting _ (Some _) => w_done w = true | _ => True end) →
  writer_inv (set_pc w pc).
Proof. intros [] H1 H2 H3 H4. split; cbn; try done. intros _. rewrite H2, <- H1. auto. Qed.

Lemma receive_inv w pr dr w' :
  writer_inv w → in_flight w = [] → failed w = false → (dr = None ∨ w_done w = true) →
  receive w pr dr = Some w' → writer_inv w' ∧ ∃ f, w_pc w' = WWriting f dr ∧ f_prio f = pr
    ∧ taken w' = taken w ++ [f] ∧ accepted w' = accepted w ∧ w_done w' = w_done w
    ∧ producers w' = producers w.
Proof.
  intros [Hc Hd [Hkc Hkd] [Hb1 [Hb2 Hb3]] Hw Hp Hpr Hdr] Hf Hfl Hok E.
  specialize (Hw Hfl). rewrite Hf, app_nil_r in Hw.
  destruct pr; cbn [receive] in E.
  - destruct (control w) as [| f rest] eqn:Ec; [done |]. injection E as <-.
    apply Forall_cons_1 in Hkc as [Hkf Hkc]. rewrite len_cons in Hb1.
    split; [| by exists f]. split; cbn; try done.
    + by rewrite of_prio_app, of_prio_one, decide_True, <- app_assoc.
    + rewrite of_prio_app, of_prio_one, decide_False by congruence. by rewrite app_nil_r.
    + split; [lia | done].
    + intros _. by rewrite Hw.
    + rewrite Hw. by eexists.
    + destruct dr; [| done]. by destruct Hok.
  - destruct (outbound w) as [| f rest] eqn:Ec; [done |]. injection E as <-.
    apply Forall_cons_1 in Hkd as [Hkf Hkd]. rewrite len_cons in Hb2.
    split; [| by exists f]. split; cbn; try done.
    + rewrite of_prio_app, of_prio_one, decide_False by congruence. by rewrite app_nil_r.
    + by rewrite of_prio_app, of_prio_one, decide_True, <- app_assoc.
    + split_and!; [done | lia | done].
    + intros _. by rewrite Hw.
    + rewrite Hw. by eexists.
    + destruct dr; [| done]. by destruct Hok.
Qed.

Lemma writer_step_inv w c w' : writer_inv w → writer_step w c = Some w' → writer_inv w'.
Proof.
  intros Hi E. unfold writer_step in E. pose proof (wi_drain w Hi) as Hdr.
  destruct (w_pc w) as [| | f dr | | | e] eqn:Epc; try done.
  - destruct (receive w Control None) as [w1 |] eqn:Er.
    + injection E as <-. eapply receive_inv; eauto; unfold in_flight, failed; by rewrite ?Epc.
    + injection E as <-. apply writer_inv_pc; unfold in_flight, failed; by rewrite ?Epc.
  - destruct c; try done.
    + eapply receive_inv; eauto; unfold in_flight, failed; by rewrite ?Epc.
    + eapply receive_inv; eauto; unfold in_flight, failed; by rewrite ?Epc.
    + destruct (w_done w) eqn:Ed; [| done]. injection E as <-.
      apply writer_inv_pc; unfold in_flight, failed; by rewrite ?Epc.
  - destruct Hi as [Hc Hd Hk Hb Hw Hp Hpr _].
    unfold failed, in_flight in Hw. rewrite Epc in Hw. specialize (Hw eq_refl).
    destruct c; try done; injection E as <-.
    + split; cbn; try done.
      * intros _. rewrite Hw. by destruct dr as [[|] |]; rewrite ?app_nil_r.
      * by rewrite Hw.
      * by destruct dr as [[|] |].
    + destruct dr as [pr |]; split; cbn; try done.
  - destruct (receive w Control (Some Control)) as [w1 |] eqn:Er.
    + injection E as <-. eapply receive_inv; eauto; unfold in_flight, failed; by rewrite ?Epc.
    + injection E as <-. apply writer_inv_pc; unfold in_flight, failed; by rewrite ?Epc.
  - destruct (receive w Data (Some Data)) as [w1 |] eqn:Er.
    + injection E as <-. eapply receive_inv; eauto; unfold in_flight, failed; by rewrite ?Epc.
    + injection E as <-. apply writer_inv_pc; unfold in_flight, failed; by rewrite ?Epc.
Qed.

Lemma send_inv w k f :
  writer_inv w → f_prio f = prio_of k → has_room w (prio_of k) = true → writer_inv (send w f).
Proof.
  intros [Hc Hd [Hkc Hkd] [Hb1 [Hb2 Hb3]] Hw Hp Hpr Hdr] Hk Hroom. unfold send, has_room in *. rewrite <- Hk in Hroom.
  destruct (f_prio f) eqn:Ef; apply Z.ltb_lt in Hroom; split; cbn; try done.
  - by rewrite of_prio_app, of_prio_one, decide_True, Hc, app_assoc.
  - rewrite of_prio_app, of_prio_one, decide_False by congruence. by rewrite app_nil_r.
  - split; [| done]. apply Forall_app. by split; [| constructor].
  - rewrite len_app, len_cons, (@len_nil frame). lia.
  - rewrite of_prio_app, of_prio_one, decide_False by congruence. by rewrite app_nil_r.
  - by rewrite of_prio_app, of_prio_one, decide_True, Hd, app_assoc.
  - split; [done |]. apply Forall_app. by split; [| constructor].
  - rewrite len_app, len_cons, (@len_nil frame). lia.
Qed.

Lemma set_producer_inv w p st :
  writer_inv w → (∀ k f, st = PChecked k f → f_prio f = prio_of k) → writer_inv (set_producer w p st).
Proof.
  intros [] Hst. split; cbn; try done. intros q k f. rewrite lookup_insert_Some. naive_solver.
Qed.

Lemma wstep_inv w a w' : writer_inv w → wstep w a = Some w' → writer_inv w'.
Proof.
  intros Hi E. destruct a as [p k ty data | p | p | c |]; cbn [wstep] in E.
  - destruct (producers w !! p); [done |]. injection E as <-. apply set_producer_inv; [done |].
    destruct (w_done w); [done |]. intros k' f [= <- <-]. done.
  - destruct (producers w !! p) as [[k f |] |] eqn:Ep; try done.
    destruct (has_room w (prio_of k)) eqn:Er; [| done]. injection E as <-.
    apply set_producer_inv; [| done]. eapply send_inv; eauto. by eapply wi_producers.
  - destruct (producers w !! p) as [[k f |] |] eqn:Ep; try done.
    assert (w' = set_producer w p (PReturned false)) as -> by (destruct k, (w_done w), (has_room w Control); congruence).
    by apply set_producer_inv.
  - by eapply writer_step_inv.
  - injection E as <-. destruct Hi. split; cbn; try done.
    by destruct (w_pc w) as [| | ? [|] | | |].
Qed.

Lemma wrun_inv acts w w' : writer_inv w → wrun w acts = Some w' → writer_inv w'.
Proof.
  revert w. induction acts as [| a acts IH]; intros w Hi E; cbn [wrun] in E; [by injection E as <- |].
  destruct (wstep w a) as [w1 |] eqn:E1; [| done]. eapply IH; [| done]. by eapply wstep_inv.
Qed.

Lemma wrun_bufSize acts w w' : wrun w acts = Some w' → bufSize w' = bufSize w.
Proof.
  revert w. induction acts as [| a acts IH]; intros w E; cbn in E; [by injection E as <- |].
  destruct (wstep w a) as [w1 |] eqn:E1; [| done]. rewrite (IH _ E). clear E IH.
  destruct a; cbn in E1; unfold writer_step, receive, finish_write, send in E1;
    simplify_eq/=; repeat (case_match; simplify_eq/=); done.
Qed.

(** Order and bounds.  Under every schedule, the frames written on each of
    the two channels are a prefix of the frames accepted on it, in the order of
    acceptance, with nothing invented, duplicated or reordered; what is not
    yet written sits in the queue (or is the one frame being written), and the
    queues never exceed 64 control and [bufSize] data frames. *)
Theorem writer_fifo_bounded n acts w pr :
  wrun (NewWSAsyncWriter n) acts = Some w →
  of_prio pr (written w) `prefix_of` of_prio pr (accepted w)
  ∧ (failed w = false →
     of_prio pr (accepted w)
     = of_prio pr (written w) ++ of_prio pr (in_flight w)
       ++ match pr with Control => control w | Data => outbound w end)
  ∧ len (control w) ≤ 64 ∧ len (outbound w) ≤ Z.max 1 n.
Proof.
  intros E. pose proof (wrun_inv _ _ _ (writer_inv_new n) E) as [Hc Hd Hk Hb Hw Hp _ _].
  assert (bufSize w = Z.max 1 n) as Hn.
  { rewrite (wrun_bufSize _ _ _ E). cbn. zcase; lia. }
  destruct Hp as [rest Hrest]. split_and!.
  - destruct pr; [rewrite Hc | rewrite Hd]; rewrite Hrest, of_prio_app, <- app_assoc; by eexists.
  - intros Hf. specialize (Hw Hf). destruct pr; [rewrite Hc | rewrite Hd]; rewrite Hw, of_prio_app;
      by rewrite <- app_assoc.
  - apply Hb.
  - rewrite <- Hn. apply Hb.
Qed.

(** ** Priority of control frames *)

Definition draining (w : WSAsyncWriter) : bool :=
  match w_pc w with
  | WDrainControl | WDrainData | WWriting _ (Some _) | WExit _ => true
  | _ => false
  end.

Lemma receive_eq w pr dr w' :
  receive w pr dr = Some w' →
  ∃ f, w_pc w' = WWriting f dr ∧ taken w' = taken w ++ [f]
    ∧ match pr with
      | Control => control w = f :: control w' ∧ outbound w' = outbound w
      | Data => outbound w = f :: outbound w' ∧ control w' = control w
      end.
Proof.
  destruct pr; cbn [receive].
  - destruct (control w) as [| f rest]; [done |]. intros [= <-]. by exists f.
  - destruct (outbound w) as [| f rest]; [done |]. intros [= <-]. by exists f.
Qed.

(** An action other than the writer's leaves the writer where it is; the
    control queue only grows. *)
Lemma wstep_other w a w' :
  wstep w a = Some w' → (∀ c, a ≠ WWriter c) →
  w_pc w' = w_pc w ∧ taken w' = taken w ∧ written w' = written w
  ∧ control w `prefix_of` control w' ∧ outbound w `prefix_of` outbound w'.
Proof.
  intros E Hne. destruct a as [p k ty data | p | p | c |]; cbn [wstep] in E.
  - destruct (producers w !! p); [done |]. by injection E as <-.
  - destruct (producers w !! p) as [[k f |] |]; try done.
    destruct (has_room w (prio_of k)); [| done]. injection E as <-. unfold send.
    destruct (f_prio f); cbn; split_and!; done || by eexists.
  - destruct (producers w !! p) as [[k f |] |]; try done.
    destruct k, (w_done w), (has_room w Control); simplify_eq; by split_and!.
  - by destruct (Hne c).
  - by injection E as <-.
Qed.

Lemma writer_step_taken w c w' :
  writer_step w c = Some w' → taken w `prefix_of` taken w' ∧ (draining w = true → draining w' = true).
Proof.
  unfold writer_step, draining. intros E.
  destruct (w_pc w) as [| | f dr | | | e] eqn:Epc; try done.
  - destruct (receive w Control None) eqn:Er; injection E as <-; [| done].
    apply receive_eq in Er as (f & -> & -> & _). split; [by eexists | done].
  - destruct c; try done.
    + apply receive_eq in E as (f & -> & -> & _). split; [by eexists | done].
    + apply receive_eq in E as (f & -> & -> & _). split; [by eexists | done].
    + destruct (w_done w); [| done]. by injection E as <-.
  - destruct c; try done; injection E as <-; by destruct dr as [[|] |].
  - destruct (receive w Control (Some Control)) eqn:Er; injection E as <-; [| done].
    apply receive_eq in Er as (f & -> & -> & _). split; [by eexists | done].
  - destruct (receive w Data (Some Data)) eqn:Er; injection E as <-; [| done].
    apply receive_eq in Er as (f & -> & -> & _). split; [by eexists | done].
Qed.

Lemma wstep_taken w a w' :
  wstep w a = Some w' → taken w `prefix_of` taken w' ∧ (draining w = true → draining w' = true).
Proof.
  intros E. destruct a as [p k ty data | p | p | c |]; [..| by eapply writer_step_taken |];
    unfold draining; by destruct (wstep_other w _ w' E ltac:(done)) as (-> & -> & _).
Qed.

Lemma wrun_taken acts w w' :
  wrun w acts = Some w' → taken w `prefix_of` taken w' ∧ (draining w = true → draining w' = true).
Proof.
  revert w. induction acts as [| a acts IH]; intros w E; cbn in E; [by injection E as <- |].
  destruct (wstep w a) as [w1 |] eqn:E1; [| done]. apply wstep_taken in E1 as [H1 H2].
  apply IH in E as [H3 H4]. split; [by etrans | auto].
Qed.

(** Data frames that may still be taken before the writer is back at the
    control channel. *)
Definition slack (w : WSAsyncWriter) : Z := match w_pc w with WPhase2 => 1 | _ => 0 end.

Lemma taken_control_grows w f w' :
  taken w ++ [f] `prefix_of` taken w' → f_prio f = Control →
  of_prio Control (taken w') ≠ of_prio Control (taken w).
Proof.
  intros [k E] Hf Heq. rewrite E, !of_prio_app, of_prio_one, decide_True in Heq by done.
  apply (f_equal length) in Heq. rewrite !length_app in Heq. cbn in Heq. lia.
Qed.

Lemma overtaken_slack acts w w' :
  writer_inv w → control w ≠ [] → wrun w acts = Some w' → draining w' = false →
  of_prio Control (taken w') = of_prio Control (taken w) →
  len (of_prio Data (taken w')) ≤ len (of_prio Data (taken w)) + slack w.
Proof.
  revert w. induction acts as [| a acts IH]; intros w Hi Hne E Hdr Hsame; cbn in E.
  { injection E as <-. unfold slack. destruct (w_pc w); lia. }
  destruct (wstep w a) as [w1 |] eqn:E1; [| done].
  pose proof (wstep_inv _ _ _ Hi E1) as Hi1. destruct (wrun_taken _ _ _ E) as [Hpre Hdrm].
  destruct (draining w1) eqn:Edr1; [by rewrite Hdrm in Hdr |].
  assert (∀ f, taken w1 = taken w ++ [f] → f_prio f = Control → False) as Hcontra.
  { intros f Ht Hf. apply (taken_control_grows w f w'); [by rewrite <- Ht | done | done]. }
  destruct a as [p k ty data | p | p | c |].
  4: { cbn [wstep] in E1. unfold writer_step in E1. unfold slack.
       destruct (wi_kinds w Hi) as [Hkc Hkd].
       destruct (w_pc w) as [| | f dr | | | e] eqn:Epc; try done.
       - destruct (receive w Control None) as [w2 |] eqn:Er; injection E1 as <-.
         + apply receive_eq in Er as (f & _ & Ht & Hc & _). rewrite Hc in Hkc.
           apply Forall_cons_1 in Hkc as [Hf _]. by destruct (Hcontra f).
         + cbn in Er. by destruct (control w).
       - destruct c; try done.
         + apply receive_eq in E1 as (f & _ & Ht & Hc & _). rewrite Hc in Hkc.
           apply Forall_cons_1 in Hkc as [Hf _]. by destruct (Hcontra f).
         + apply receive_eq in E1 as (f & Hpc & Ht & Ho & Hc). rewrite Ho in Hkd.
           apply Forall_cons_1 in Hkd as [Hf _].
           assert (of_prio Control (taken w1) = of_prio Control (taken w)) as Hs1.
           { rewrite Ht, of_prio_app, of_prio_one, decide_False by congruence. apply app_nil_r. }
           specialize (IH w1 Hi1 ltac:(by rewrite Hc) E Hdr ltac:(by rewrite Hs1)).
           rewrite Ht, of_prio_app, of_prio_one, decide_True, len_app, len_cons, (@len_nil frame) in IH by done.
           unfold slack in IH. rewrite Hpc in IH. lia.
         + destruct (w_done w); [| done]. injection E1 as <-. done.
       - destruct c; try done; injection E1 as <-.
         + destruct dr as [[|] |]; try done. apply (IH _ Hi1 Hne E Hdr Hsame).
         + by destruct dr as [[|] |].
       - by destruct (receive w Control (Some Control)) as [w2 |] eqn:Er; injection E1 as <-;
           [apply receive_eq in Er as (f & Hpc & _); unfold draining in Edr1; rewrite Hpc in Edr1 |].
       - by destruct (receive w Data (Some Data)) as [w2 |] eqn:Er; injection E1 as <-;
           [apply receive_eq in Er as (f & Hpc & _); unfold draining in Edr1; rewrite Hpc in Edr1 |]. }
  all: destruct (wstep_other w _ w1 E1 ltac:(done)) as (Hpc & Ht & _ & [k' Hc] & _);
    assert (control w1 ≠ []) as Hne1 by (rewrite Hc; by destruct (control w));
    rewrite <- Ht in Hsame |- *; specialize (IH w1 Hi1 Hne1 E Hdr Hsame);
    unfold slack in *; by rewrite Hpc in IH.
Qed.

(** Control frames jump the queue.  While the writer is not shutting down,
    at most one data frame is taken from the queue between the moment a control
    frame is waiting and the moment the next control frame is taken, whatever
    the producers do and however [select] chooses. *)
Theorem control_overtaken_once n acts1 acts2 w1 w2 :
  wrun (NewWSAsyncWriter n) acts1 = Some w1 → control w1 ≠ [] →
  wrun w1 acts2 = Some w2 → draining w2 = false →
  of_prio Control (taken w2) = of_prio Control (taken w1) →
  len (of_prio Data (taken w2)) ≤ len (of_prio Data (taken w1)) + 1.
Proof.
  intros E1 Hne E2 Hdr Hsame. pose proof (wrun_inv _ _ _ (writer_inv_new n) E1) as Hi.
  pose proof (overtaken_slack _ _ _ Hi Hne E2 Hdr Hsame) as H. unfold slack in H. destruct (w_pc w1); lia.
Qed.

(** ** Closing *)

(** What has been flushed, when nothing is enqueued any more. *)
Definition flushed (w : WSAsyncWriter) : Prop :=
  match w_pc w with
  | WDrainData | WWriting _ (Some Data) => control w = []
  | WExit None => control w = [] ∧ outbound w = []
  | _ => True
  end.

Lemma wstep_flushed w a w' :
  wstep w a = Some w' → (∀ p, a ≠ WSend p) → flushed w → flushed w'.
Proof.
  intros E Hns Hf. destruct a as [p k ty data | p | p | c |]; cbn [wstep] in E.
  - destruct (producers w !! p); [done |]. by injection E as <-.
  - by destruct (Hns p).
  - destruct (producers w !! p) as [[k f |] |]; try done.
    destruct k, (w_done w), (has_room w Control); by simplify_eq.
  - unfold writer_step, flushed in *. destruct (w_pc w) as [| | f dr | | | e] eqn:Epc; try done.
    + destruct (receive w Control None) as [w1 |] eqn:Er; injection E as <-; [| done].
      by apply receive_eq in Er as (f & -> & _).
    + destruct c; try done.
      * by apply receive_eq in E as (f & -> & _).
      * by apply receive_eq in E as (f & -> & _).
      * destruct (w_done w); [| done]. by injection E as <-.
    + destruct c; try done; injection E as <-; by destruct dr as [[|] |].
    + destruct (receive w Control (Some Control)) as [w1 |] eqn:Er; injection E as <-.
      * by apply receive_eq in Er as (f & -> & _).
      * cbn in *. by destruct (control w).
    + destruct (receive w Data (Some Data)) as [w1 |] eqn:Er; injection E as <-.
      * by apply receive_eq in Er as (f & -> & _ & _ & ->).
      * cbn in *. by destruct (outbound w).
  - by injection E as <-.
Qed.

Lemma wrun_flushed acts w w' :
  wrun w acts = Some w' → (∀ p, WSend p ∉ acts) → flushed w → flushed w'.
Proof.
  revert w. induction acts as [| a acts IH]; intros w E Hns Hf; cbn in E; [by injection E as <- |].
  destruct (wstep w a) as [w1 |] eqn:E1; [| done]. eapply IH; [done | |].
  - intros p Hp. apply (Hns p). by right.
  - eapply wstep_flushed; [done | | done]. intros p ->. apply (Hns p). by left.
Qed.

(** Graceful close.  If no send completes once the writer has started to
    drain, then when [Run] returns without an error every frame any producer
    was told is queued has been written, in order. *)
Theorem graceful_close_flushes n acts1 acts2 w1 w2 pr :
  wrun (NewWSAsyncWriter n) acts1 = Some w1 → draining w1 = false →
  wrun w1 acts2 = Some w2 → (∀ p, WSend p ∉ acts2) → w_pc w2 = WExit None →
  of_prio pr (written w2) = of_prio pr (accepted w2).
Proof.
  intros E1 Hdr E2 Hns Hpc.
  pose proof (wrun_inv _ _ _ (wrun_inv _ _ _ (writer_inv_new n) E1) E2) as [Hc Hd _ _ Hw _ _ _].
  assert (flushed w1) as Hf1 by (unfold flushed, draining in *; by destruct (w_pc w1) as [| | ? [[|] |] | | |]).
  pose proof (wrun_flushed _ _ _ E2 Hns Hf1) as Hf. unfold flushed in Hf. rewrite Hpc in Hf. destruct Hf as [Hf1' Hf2].
  unfold failed, in_flight in Hw. rewrite Hpc, app_nil_r in Hw. specialize (Hw eq_refl).
  destruct pr; [rewrite Hc, Hf1' | rewrite Hd, Hf2]; by rewrite app_nil_r, Hw.
Qed.

Lemma exit_final acts w w' e :
  w_pc w = WExit e → wrun w acts = Some w' → written w' = written w ∧ w_pc w' = WExit e.
Proof.
  revert w. induction acts as [| a acts IH]; intros w Hpc E; cbn in E; [by injection E as <- |].
  destruct (wstep w a) as [w1 |] eqn:E1; [| done].
  assert (w_pc w1 = WExit e ∧ written w1 = written w) as [Hpc1 Hw1].
  { destruct a as [p k ty data | p | p | c |];
      [..| cbn [wstep] in E1; unfold writer_step in E1; by rewrite Hpc in E1 |];
      by destruct (wstep_other w _ w1 E1 ltac:(done)) as (-> & _ & -> & _). }
  rewrite <- Hw1. by apply IH.
Qed.

(** The schedule that loses a frame: the producer passes the closed check, the
    writer is closed, drains and returns, then the producer's send succeeds. *)
Definition late_schedule (ty : Z) (data : bytes) : list waction :=
  [WStart 0 KEnqueue ty data; WClose; WWriter CDone; WWriter CDone; WWriter CDone; WWriter CDone; WSend 0].

(** A frame accepted during shutdown can be lost.  There is a schedule in
    which [Enqueue] reports success, [Run] returns without an error, and the
    frame is never written, whatever happens afterwards. *)
Theorem late_enqueue_lost n ty data :
  ∃ w, wrun (NewWSAsyncWriter n) (late_schedule ty data) = Some w
    ∧ producers w !! 0%nat = Some (PReturned true)
    ∧ accepted w = [mkFrame Data ty data] ∧ w_pc w = WExit None
    ∧ ∀ acts w', wrun w acts = Some w' → written w' = [].
Proof.
  assert (len (@nil frame) <? (if n <? 1 then 1 else n) = true) as Hroom by (destruct (Z.ltb_spec n 1); [done | rewrite (@len_nil frame); apply Z.ltb_lt; lia]).
  unfold late_schedule. cbn -[lookup insert]. rewrite lookup_empty. cbn -[lookup insert].
  rewrite lookup_insert_eq. cbn -[lookup insert]. rewrite Hroom.
  eexists. split; [done |]. cbn -[lookup insert]. rewrite lookup_insert_eq. split_and!; try done.
  intros acts w' E. by apply (exit_final acts _ _ None) in E as [-> _].
Qed.

(** ** Termination of the drain *)

Lemma drain_data_ends w :
  w_pc w = WDrainData →
  ∃ cs w', wrun w (WWriter <$> cs) = Some w' ∧ w_pc w' = WExit None
    ∧ (length cs = 2 * length (outbound w) + 1)%nat.
Proof.
  remember (outbound w) as l eqn:El. revert w El. induction l as [| f l IH]; intros w El Hpc.
  - exists [CDone], (set_pc w (WExit None)). cbn. unfold writer_step, receive. rewrite Hpc, <- El. done.
  - set (w1 := mkWriter (control w) l (bufSize w) (w_done w) (WDrainData) (producers w) (taken w ++ [f])
      (written w ++ [f]) (accepted w)).
    destruct (IH w1 eq_refl eq_refl) as (cs & w' & Hrun & Hend & Hlen).
    exists (CDone :: COk :: cs), w'. cbn. unfold writer_step at 1, receive. rewrite Hpc, <- El. cbn.
    split_and!; [exact Hrun | done | lia].
Qed.

Lemma drain_control_ends w :
  w_pc w = WDrainControl →
  ∃ cs w', wrun w (WWriter <$> cs) = Some w' ∧ w_pc w' = WExit None
    ∧ (length cs = 2 * length (control w) + 2 * length (outbound w) + 2)%nat.
Proof.
  remember (control w) as l eqn:El. revert w El. induction l as [| f l IH]; intros w El Hpc.
  - destruct (drain_data_ends (set_pc w WDrainData) eq_refl) as (cs & w' & Hrun & Hend & Hlen).
    exists (CDone :: cs), w'. cbn. unfold writer_step at 1, receive. rewrite Hpc, <- El.
    split_and!; [exact Hrun | done |]. cbn in Hlen. lia.
  - set (w1 := mkWriter l (outbound w) (bufSize w) (w_done w) (WDrainControl) (producers w) (taken w ++ [f])
      (written w ++ [f]) (accepted w)).
    destruct (IH w1 eq_refl eq_refl) as (cs & w' & Hrun & Hend & Hlen).
    exists (CDone :: COk :: cs), w'. cbn. unfold writer_step at 1, receive. rewrite Hpc, <- El. cbn.
    split_and!; [exact Hrun | done |]. cbn in *. lia.
Qed.

(** Termination.  From every reachable state with the writer closed and
    waiting, if nothing more is enqueued and the connection accepts the writes,
    [Run] returns after two steps per queued frame. *)
Theorem closed_writer_returns n acts w :
  wrun (NewWSAsyncWriter n) acts = Some w → w_done w = true → w_pc w = WPhase2 →
  ∃ cs w', wrun w (WWriter <$> cs) = Some w' ∧ w_pc w' = WExit None
    ∧ len cs ≤ 2 * (64 + Z.max 1 n) + 3
    ∧ ∀ pr, of_prio pr (written w') = of_prio pr (accepted w').
Proof.
  intros E Hd Hpc.
  destruct (drain_control_ends (set_pc w WDrainControl) eq_refl) as (cs & w' & Hrun & Hend & Hlen).
  assert (wrun w (WWriter <$> CDone :: cs) = Some w') as Hrun'.
  { cbn. unfold writer_step. rewrite Hpc, Hd. exact Hrun. }
  exists (CDone :: cs), w'. split_and!; [done | done | |].
  - pose proof (wrun_inv _ _ _ (writer_inv_new n) E) as [_ _ _ Hb _ _ _ _].
    rewrite (wrun_bufSize _ _ _ E) in Hb. cbn in Hb, Hlen. unfold controlCap, len in *. cbn.
    destruct (n <? 1) eqn:En; [apply Z.ltb_lt in En | apply Z.ltb_ge in En]; lia.
  - intros pr.
    pose proof (wrun_inv _ _ _ (wrun_inv _ _ _ (writer_inv_new n) E) Hrun') as [Hc Hda _ _ Hw _ _ _].
    assert (flushed w) as Hf by (unfold flushed; by rewrite Hpc).
    apply (wrun_flushed _ _ _ Hrun') in Hf; [| intros p (c & Hc' & _)%list_elem_of_fmap; done].
    unfold flushed in Hf. rewrite Hend in Hf. destruct Hf as [Hf1 Hf2].
    unfold failed, in_flight in Hw. rewrite Hend, app_nil_r in Hw. specialize (Hw eq_refl).
    destruct pr; [rewrite Hc, Hf1 | rewrite Hda, Hf2]; by rewrite app_nil_r, Hw.
Qed.

(** ** Witnesses *)

Definition forceW (m : option WSAsyncWriter) : WSAsyncWriter :=
  match m with Some w => w | None => NewWSAsyncWriter 1 end.

(** Two data frames and a control frame; the writer is waiting when they
    arrive, and its select takes data first. *)
Definition busy : list waction :=
  [WWriter CDone; WStart 0 KEnqueue 2 [1]; WSend 0; WStart 1 KEnqueue 2 [2]; WSend 1;
   WStart 2 KEnqueueControl 2 [9]; WSend 2].
Definition overtaken : list waction := [WWriter COutbound; WWriter COk].
Definition drained : list waction :=
  [WWriter COk; WWriter COk; WWriter CDone; WWriter COutbound; WWriter COk; WWriter CDone; WClose;
   WWriter CDone; WWriter CDone; WWriter CDone].

Definition busy_w : WSAsyncWriter := forceW (wrun (NewWSAsyncWriter 4) busy).
Definition overtaken_w : WSAsyncWriter := forceW (wrun busy_w overtaken).
Definition drained_w : WSAsyncWriter := forceW (wrun overtaken_w drained).

Lemma writer_fifo_bounded_witness :
  of_prio Data (written overtaken_w) = [mkFrame Data 2 [1]]
  ∧ of_prio Data (written overtaken_w) `prefix_of` of_prio Data (accepted overtaken_w).
Proof.
  split; [vm_compute; reflexivity |].
  refine (proj1 (writer_fifo_bounded 4 (busy ++ overtaken) overtaken_w Data _)).
  vm_compute. reflexivity.
Defined.

Lemma control_overtaken_once_witness :
  len (of_prio Data (taken overtaken_w)) ≤ len (of_prio Data (taken busy_w)) + 1.
Proof.
  apply (control_overtaken_once 4 busy overtaken busy_w overtaken_w).
  - vm_compute. reflexivity.
  - vm_compute. discriminate.
  - vm_compute. reflexivity.
  - vm_compute. reflexivity.
  - vm_compute. reflexivity.
Defined.

Lemma no_send_drained p : WSend p ∉ drained.
Proof. unfold drained. intros H. repeat (apply elem_of_cons in H as [H | H]; [done |]). by apply not_elem_of_nil in H. Qed.

Lemma graceful_close_flushes_witness :
  of_prio Data (written drained_w) = of_prio Data (accepted drained_w).
Proof.
  apply (graceful_close_flushes 4 (busy ++ overtaken) drained overtaken_w drained_w Data).
  - vm_compute. reflexivity.
  - vm_compute. reflexivity.
  - vm_compute. reflexivity.
  - apply no_send_drained.
  - vm_compute. reflexivity.
Defined.

Lemma closed_writer_returns_witness :
  ∃ cs w', wrun (forceW (wrun busy_w [WClose])) (WWriter <$> cs) = Some w' ∧ w_pc w' = WExit None
    ∧ len cs ≤ 2 * (64 + Z.max 1 4) + 3
    ∧ ∀ pr, of_prio pr (written w') = of_prio pr (accepted w').
Proof.
  apply (closed_writer_returns 4 (busy ++ [WClose]) (forceW (wrun busy_w [WClose]))).
  - vm_compute. reflexivity.
  - vm_compute. reflexivity.
  - vm_compute. reflexivity.
Defined.
