(* ===== verification/Reassembler.v ===== *)
(** * Downlink reassembler ([proxy/socks5/reassembler.go])

    Reorders the per-stream downlink frames by the sequence numbers the server
    assigned, across slot migrations that may duplicate and reorder them. *)

From S2P Require Import Prelude.
From stdpp Require Import base list gmap.

#[local] Open Scope Z_scope.

Inductive reasmStatus := reasmOK | reasmDup | reasmOverflow.

Record reassembler := mkReasm {
  expectedSeq : Z;
  pending : gmap Z bytes;
  bufBytes : Z;
  maxBytes : Z;
}.

Definition newReassembler (maxBytes : Z) : reassembler := mkReasm 1 ∅ 0 maxBytes.

(** The loop that hands out the run starting at [expectedSeq]; every turn
    deletes a pending frame, so [size pending] turns are enough. *)
Fixpoint take_run (fuel : nat) (r : reassembler) : list bytes * reassembler :=
  match fuel with
  | O => ([], r)
  | S fuel' =>
    match pending r !! expectedSeq r with
    | None => ([], r)
    | Some nf =>
      let '(out, r') := take_run fuel'
        (mkReasm (u64 (expectedSeq r + 1)) (delete (expectedSeq r) (pending r))
           (bufBytes r - len nf) (maxBytes r)) in
      (nf :: out, r')
    end
  end.

Definition push (r : reassembler) (seq : Z) (data : bytes) : list bytes * reasmStatus * reassembler :=
  if seq <? expectedSeq r then ([], reasmDup, r) else
  let r1 := match pending r !! seq with
            | Some _ => r
            | None => mkReasm (expectedSeq r) (<[seq := data]> (pending r))
                        (bufBytes r + len data) (maxBytes r)
            end in
  let '(out, r2) := take_run (S (size (pending r1))) r1 in
  if maxBytes r2 <? bufBytes r2 then (out, reasmOverflow, r2) else (out, reasmOK, r2).

Definition hasGap (r : reassembler) : bool := negb (size (pending r) =? 0)%nat.

(** ** Specification

    The server assigns frame number [i] the bytes [src i].  A set of numbers
    has been received; what has been handed out is the longest run from 1. *)

Definition total_len (m : gmap Z bytes) : Z := map_fold (λ _ d acc, len d + acc) 0 m.

Lemma total_len_insert m i d : m !! i = None → total_len (<[i := d]> m) = len d + total_len m.
Proof.
  intros H. unfold total_len. apply (map_fold_insert_L (λ _ d acc, len d + acc) 0); [| done].
  intros. lia.
Qed.

Lemma total_len_delete m i d : m !! i = Some d → total_len m = len d + total_len (delete i m).
Proof.
  intros H. rewrite <- (insert_delete_id m i d) at 1 by done.
  apply total_len_insert. apply lookup_delete_eq.
Qed.

Lemma total_len_empty : total_len ∅ = 0.
Proof. apply map_fold_empty. Qed.

Section spec.
Context (src : Z → bytes) (got : gset Z).

(** [run from n]: the bytes of frames [from], [from+1], ... ([n] of them). *)
Fixpoint run_from (from : Z) (n : nat) : list bytes :=
  match n with O => [] | S n' => src from :: run_from (from + 1) n' end.

Lemma run_from_app from n m : run_from from (n + m) = run_from from n ++ run_from (from + Z.of_nat n) m.
Proof.
  revert from. induction n as [| n IH]; intros from; cbn [run_from plus app].
  - by rewrite Z.add_0_r.
  - rewrite IH. do 3 f_equal. lia.
Qed.

(** The state while a run is being handed out: below [expectedSeq] everything
    was received, from there on the pending map is what was received. *)
Record reasm_inv (r : reassembler) : Prop := {
  ri_below i : 1 ≤ i < expectedSeq r → i ∈ got;
  ri_pending i : pending r !! i = if decide (i ∈ got ∧ expectedSeq r ≤ i) then Some (src i) else None;
  ri_bytes : bufBytes r = total_len (pending r);
  ri_range : 1 ≤ expectedSeq r < 2 ^ 64;
}.

Lemma take_run_spec fuel r :
  reasm_inv r → (∀ i, i ∈ got → i < 2 ^ 64 - 1) → (size (pending r) < fuel)%nat →
  ∃ n r', take_run fuel r = (run_from (expectedSeq r) n, r') ∧ reasm_inv r'
    ∧ expectedSeq r' = expectedSeq r + Z.of_nat n ∧ expectedSeq r' ∉ got ∧ maxBytes r' = maxBytes r.
Proof.
  revert r. induction fuel as [| fuel IH]; intros r Hi Hmax Hf; [lia |]. cbn [take_run].
  pose proof (ri_pending r Hi (expectedSeq r)) as Hp. destruct (pending r !! expectedSeq r) as [nf |] eqn:E.
  - case_decide as Hin; [| done]. injection Hp as ->. destruct Hin as [Hin _].
    pose proof (Hmax _ Hin) as Hlt. pose proof (ri_range r Hi) as Hr.
    assert (u64 (expectedSeq r + 1) = expectedSeq r + 1) as -> by (apply Z.mod_small; lia).
    set (r1 := mkReasm (expectedSeq r + 1) (delete (expectedSeq r) (pending r))
                 (bufBytes r - len (src (expectedSeq r))) (maxBytes r)).
    assert (reasm_inv r1) as Hi1.
    { split; cbn.
      - intros i Hii. destruct (decide (i = expectedSeq r)) as [-> | ?]; [done |].
        apply (ri_below r Hi). lia.
      - intros i. destruct (decide (i = expectedSeq r)) as [-> | Hne].
        + rewrite lookup_delete_eq, decide_False; [done | lia].
        + rewrite lookup_delete_ne by done. rewrite (ri_pending r Hi).
          repeat case_decide; try done; exfalso; intuition lia.
      - rewrite (ri_bytes r Hi), (total_len_delete _ _ _ E). lia.
      - lia. }
    destruct (IH r1 Hi1 Hmax) as (n & r' & Erun & Hi' & Hexp & Hnot & Hmb).
    { cbn. rewrite map_size_delete_Some by (by rewrite E).
      assert (size (pending r) ≠ 0)%nat; [| lia].
      intros Hz. apply map_size_empty_inv in Hz. by rewrite Hz in E. }
    exists (S n), r'. rewrite Erun. split_and!; try done. cbn in Hexp. lia.
  - exists 0%nat, r. cbn [run_from]. split_and!; try done; [lia |].
    intros Hin. rewrite decide_True in Hp; done || lia.
Qed.

End spec.

(** What the code has done after receiving the numbers [got]. *)
Definition reasm_state (src : Z → bytes) (got : gset Z) (r : reassembler) : Prop :=
  reasm_inv src got r ∧ expectedSeq r ∉ got.

Lemma reasm_state_new src m : reasm_state src ∅ (newReassembler m).
Proof.
  split; [| cbn; set_solver]. split; cbn; try lia.
  - intros i. rewrite lookup_empty, decide_False; set_solver.
  - by rewrite total_len_empty.
Qed.

Lemma push_spec src got r seq out st r' :
  reasm_state src got r → 1 ≤ seq < 2 ^ 64 - 1 → (∀ i, i ∈ got → i < 2 ^ 64 - 1) →
  push r seq (src seq) = (out, st, r') →
  reasm_state src ({[seq]} ∪ got) r'
  ∧ (∃ n, out = run_from src (expectedSeq r) n ∧ expectedSeq r' = expectedSeq r + Z.of_nat n)
  ∧ maxBytes r' = maxBytes r
  ∧ (st = reasmDup ↔ seq < expectedSeq r) ∧ (st = reasmOverflow ↔ expectedSeq r ≤ seq ∧ maxBytes r < bufBytes r').
Proof.
  intros [Hi Hn] Hseq Hmax E. unfold push in E. destruct (Z.ltb_spec seq (expectedSeq r)) as [Hlt | Hge].
  - injection E as <- <- <-.
    assert ({[seq]} ∪ got = got) as ->.
    { apply leibniz_equiv. assert (seq ∈ got) by (apply (ri_below _ _ r Hi); lia). set_solver. }
    split; [done |]. split; [exists 0%nat; split; [done | lia] |]. split; [done |].
    split; [done |]. split; [done | lia].
  - set (r1 := match pending r !! seq with Some _ => r | None => _ end) in E.
    assert (reasm_inv src ({[seq]} ∪ got) r1 ∧ expectedSeq r1 = expectedSeq r ∧ maxBytes r1 = maxBytes r)
      as (Hi1 & Hexp1 & Hmb1).
    { pose proof (ri_pending _ _ r Hi seq) as Hp. subst r1. destruct (pending r !! seq) as [d |] eqn:Ep.
      - case_decide as Hin; [| done].
        assert ({[seq]} ∪ got = got) as -> by (apply leibniz_equiv; set_solver). by split_and!.
      - destruct Hi as [Hb Hpe Hby Hra]. split_and!; try done. split; cbn; try done.
        + intros i Hii. apply elem_of_union. right. by apply Hb.
        + intros i. destruct (decide (i = seq)) as [-> | Hne].
          * rewrite lookup_insert_eq, decide_True; [done |]. set_solver.
          * rewrite lookup_insert_ne by done. rewrite Hpe. repeat case_decide; try done; set_solver.
        + rewrite total_len_insert by done. lia. }
    destruct (take_run_spec src ({[seq]} ∪ got) (S (size (pending r1))) r1 Hi1) as (n & r2 & Er & Hi2 & Hexp2 & Hnot & Hmb2);
      [set_solver by lia | lia |].
    rewrite Er in E. rewrite Hexp1 in *.
    assert (out = run_from src (expectedSeq r) n ∧ r' = r2
      ∧ st = if maxBytes r2 <? bufBytes r2 then reasmOverflow else reasmOK) as (-> & -> & ->).
    { by destruct (maxBytes r2 <? bufBytes r2); injection E as <- <- <-. }
    split; [done |]. split; [by exists n |]. split; [congruence |].
    rewrite Hmb2, Hmb1. destruct (Z.ltb_spec (maxBytes r) (bufBytes r2)); split; split; done || lia.
Qed.

(** ** Any delivery order *)

(** The bytes handed out while the frames numbered [seqs] arrive in this order. *)
Fixpoint push_all (src : Z → bytes) (r : reassembler) (seqs : list Z) : list bytes * reassembler :=
  match seqs with
  | [] => ([], r)
  | s :: seqs' =>
    let '(out, _, r1) := push r s (src s) in
    let '(outs, r2) := push_all src r1 seqs' in
    (out ++ outs, r2)
  end.

Lemma push_all_spec src seqs got r :
  reasm_state src got r → Forall (λ s, 1 ≤ s < 2 ^ 64 - 1) seqs → (∀ i, i ∈ got → i < 2 ^ 64 - 1) →
  ∃ n r', push_all src r seqs = (run_from src (expectedSeq r) n, r')
    ∧ reasm_state src (list_to_set seqs ∪ got) r' ∧ expectedSeq r' = expectedSeq r + Z.of_nat n.
Proof.
  revert got r. induction seqs as [| s seqs IH]; intros got r Hst Hs Hmax; cbn [push_all].
  - exists 0%nat, r. split; [done |]. split; [| lia].
    replace (list_to_set [] ∪ got) with got by (apply leibniz_equiv; set_solver). done.
  - apply Forall_cons_1 in Hs as [Hs1 Hs]. destruct (push r s (src s)) as [[out st] r1] eqn:Ep.
    destruct (push_spec src got r s out st r1 Hst Hs1 Hmax Ep) as (Hst1 & (n & -> & Hexp) & _).
    destruct (IH ({[s]} ∪ got) r1 Hst1 Hs) as (m & r2 & -> & Hst2 & Hexp2); [set_solver by lia |].
    exists (n + m)%nat, r2. rewrite run_from_app, <- Hexp. split; [done |].
    split; [| lia]. replace (list_to_set (s :: seqs) ∪ got) with (list_to_set seqs ∪ ({[s]} ∪ got)); [done |].
    apply leibniz_equiv. set_solver.
Qed.

(** In-order delivery.  In whatever order and however often the frames
    arrive, what is handed to the client connection is the longest run 1, 2, ...
    of received frames, each exactly once, and the byte counter is the size of
    what is held back.  If frames 1 to [n] have all arrived, the stream up to
    [n] has been delivered. *)
Theorem reassembler_in_order src m seqs :
  Forall (λ s, 1 ≤ s < 2 ^ 64 - 1) seqs →
  let '(outs, r) := push_all src (newReassembler m) seqs in
  ∃ n, outs = run_from src 1 n ∧ expectedSeq r = 1 + Z.of_nat n
    ∧ (∀ i, 1 ≤ i ≤ Z.of_nat n → i ∈ seqs) ∧ 1 + Z.of_nat n ∉ seqs
    ∧ bufBytes r = total_len (pending r)
    ∧ (hasGap r = true ↔ ∃ i, i ∈ seqs ∧ Z.of_nat n + 1 < i).
Proof.
  intros Hs. destruct (push_all_spec src seqs ∅ (newReassembler m) (reasm_state_new src m) Hs)
    as (n & r & -> & [Hi Hnot] & Hexp); [set_solver |].
  cbn [expectedSeq newReassembler] in *. rewrite union_empty_r_L in *.
  exists n. split_and!; try done.
  - intros i Hin. assert (i ∈ (list_to_set seqs : gset Z)) by (apply (ri_below _ _ r Hi); lia). set_solver.
  - rewrite <- Hexp. set_solver.
  - apply (ri_bytes _ _ r Hi).
  - unfold hasGap. rewrite negb_true_iff, Nat.eqb_neq. split.
    + intros Hsz. destruct (map_choose (pending r)) as (i & d & Hid).
      { intros He. apply Hsz. by rewrite He, map_size_empty. }
      rewrite (ri_pending _ _ r Hi) in Hid. case_decide as Hin; [| done]. destruct Hin as [Hin Hle].
      exists i. split; [set_solver |]. destruct (decide (i = expectedSeq r)) as [-> | ?]; [done | lia].
    + intros (i & Hin & Hlt) Hz. apply map_size_empty_inv in Hz.
      pose proof (ri_pending _ _ r Hi i) as Hp. rewrite Hz, lookup_empty, decide_True in Hp; [done |].
      split; [set_solver | lia].
Qed.

Lemma reassembler_in_order_witness :
  fst (push_all (λ i, [i]) (newReassembler 100) [2; 1; 2; 4; 3; 6]) = [[1]; [2]; [3]; [4]]
  ∧ let '(outs, r) := push_all (λ i, [i]) (newReassembler 100) [2; 1; 2; 4; 3; 6] in
    ∃ n, outs = run_from (λ i, [i]) 1 n ∧ expectedSeq r = 1 + Z.of_nat n
      ∧ (∀ i, 1 ≤ i ≤ Z.of_nat n → i ∈ [2; 1; 2; 4; 3; 6]) ∧ 1 + Z.of_nat n ∉ [2; 1; 2; 4; 3; 6]
      ∧ bufBytes r = total_len (pending r)
      ∧ (hasGap r = true ↔ ∃ i, i ∈ [2; 1; 2; 4; 3; 6] ∧ Z.of_nat n + 1 < i).
Proof.
  split; [vm_compute; reflexivity |].
  apply (reassembler_in_order (λ i, [i]) 100 [2; 1; 2; 4; 3; 6]). repeat constructor; lia.
Defined.
