(* ===== verification/Credit.v ===== *)
(** * Per-stream send credit ([server/stream_credit.go]) *)

From S2P Require Import Prelude.
From stdpp Require Import base list.

#[local] Open Scope Z_scope.

Definition negotiateFlowWindow (clientWindow serverMax : Z) : Z :=
  if clientWindow =? 0 then 0
  else if serverMax <? clientWindow then serverMax
  else clientWindow.

Definition negotiateMigration (serverEnabled clientAdvertised : bool) : bool :=
  serverEnabled && clientAdvertised.

Record streamCredit := mkCredit { available : Z; cr_closed : bool }.

Definition newStreamCredit (window : Z) : streamCredit := mkCredit window false.

(** One evaluation of [waitForCredit]'s loop condition, [done] being the state
    of the channel at that moment: [None] parks on the condition variable. *)
Definition waitForCredit (c : streamCredit) (done : bool) : option Z :=
  if (available c <=? 0) && negb (cr_closed c) then
    if done then Some (-1) else None
  else if cr_closed c then Some (-1)
  else Some (available c).

Definition consume (c : streamCredit) (n : Z) : streamCredit :=
  mkCredit (available c - n) (cr_closed c).

Definition add (c : streamCredit) (delta window : Z) : streamCredit :=
  let a := available c + delta in
  let capLimit := 2 * window in
  mkCredit (if capLimit <? a then capLimit else a) (cr_closed c).

Definition close (c : streamCredit) : streamCredit := mkCredit (available c) true.

Definition snapshot (c : streamCredit) : Z := available c.

(** ** The relay's use of the credit

    [relayLoop] waits for credit, reads at most that many bytes (and at most
    its buffer, 32768) from the target and consumes what it sent; the peer's
    WINDOW_UPDATE frames add.  [EUpdate] is any update, of an honest or a
    dishonest peer. *)

Inductive credit_event :=
| ESend (n : Z)
| EUpdate (delta : Z)
| EClose.

(** [ESend n] is possible when [waitForCredit] returned at least [n]. *)
Definition credit_step (window : Z) (c : streamCredit) (e : credit_event) : option streamCredit :=
  match e with
  | ESend n =>
    match waitForCredit c false with
    | Some got => if (0 <? n) && (n <=? Z.min 32768 got) then Some (consume c n) else None
    | None => None
    end
  | EUpdate d => Some (add c d window)
  | EClose => Some (close c)
  end.

Fixpoint credit_run (window : Z) (c : streamCredit) (es : list credit_event) : option streamCredit :=
  match es with
  | [] => Some c
  | e :: es' => match credit_step window c e with Some c' => credit_run window c' es' | None => None end
  end.

Definition sent_bytes (es : list credit_event) : Z :=
  foldr (λ e acc, match e with ESend n => n + acc | _ => acc end) 0 es.
Definition credited_bytes (es : list credit_event) : Z :=
  foldr (λ e acc, match e with EUpdate d => d + acc | _ => acc end) 0 es.

(** The peer only returns what it was sent. *)
Fixpoint honest (sent credited : Z) (es : list credit_event) : Prop :=
  match es with
  | [] => True
  | ESend n :: es' => honest (sent + n) credited es'
  | EUpdate d :: es' => 0 ≤ d ∧ credited + d ≤ sent ∧ honest sent (credited + d) es'
  | EClose :: es' => honest sent credited es'
  end.

Lemma credit_step_send window c n c' :
  credit_step window c (ESend n) = Some c' →
  0 < n ≤ Z.min 32768 (available c) ∧ cr_closed c = false ∧ c' = consume c n.
Proof.
  cbn. unfold waitForCredit. destruct (Z.leb_spec (available c) 0), (cr_closed c); cbn; try done.
  - destruct (Z.ltb_spec 0 n), (Z.leb_spec n (Z.min 32768 (-1))); cbn; try done. lia.
  - destruct (Z.ltb_spec 0 n), (Z.leb_spec n (Z.min 32768 (-1))); cbn; try done. lia.
  - destruct (Z.ltb_spec 0 n), (Z.leb_spec n (Z.min 32768 (available c))); cbn; try done.
    intros [= <-]. done.
Qed.

Lemma credit_honest_run window es c c' sent credited :
  honest sent credited es → credit_run window c es = Some c' →
  0 ≤ available c → available c = window - (sent - credited) → credited ≤ sent →
  0 ≤ available c' ∧ available c' = window - ((sent + sent_bytes es) - (credited + credited_bytes es))
  ∧ credited + credited_bytes es ≤ sent + sent_bytes es.
Proof.
  revert c sent credited. induction es as [| e es IH]; intros c sent credited Hh E H0 Ha Hle.
  { injection E as <-. cbn. lia. }
  cbn [credit_run] in E. destruct (credit_step window c e) as [c1 |] eqn:E1; [| done].
  destruct e as [n | d |]; cbn [honest sent_bytes credited_bytes foldr] in *.
  - apply credit_step_send in E1 as (Hn & _ & ->).
    destruct (IH _ _ _ Hh E) as (H1 & H2 & H3); cbn; fold (sent_bytes es) (credited_bytes es) in *; lia.
  - destruct Hh as (Hd & Hc & Hh). injection E1 as <-.
    assert (available (add c d window) = available c + d) as Hadd by (cbn; zcase; lia).
    destruct (IH _ _ _ Hh E) as (H1 & H2 & H3); rewrite ?Hadd; fold (sent_bytes es) (credited_bytes es) in *; lia.
  - injection E1 as <-. by apply (IH _ _ _ Hh E).
Qed.

(** Flow control bounds what is in flight.  With an honest peer the bytes
    sent and not yet confirmed never exceed the negotiated window, and the
    credit is exactly the window minus what is in flight (no update is lost to
    the clamp).  With any peer the credit never exceeds twice the window. *)
Theorem credit_bounds_in_flight window es c :
  0 ≤ window → credit_run window (newStreamCredit window) es = Some c →
  available c ≤ 2 * window
  ∧ (honest 0 0 es →
     0 ≤ sent_bytes es - credited_bytes es ≤ window
     ∧ available c = window - (sent_bytes es - credited_bytes es)).
Proof.
  intros Hw E. split.
  - assert (∀ es c c', available c ≤ 2 * window → credit_run window c es = Some c' →
      available c' ≤ 2 * window) as Hinv.
    { clear. intros es. induction es as [| e es IH]; intros c c' Ha E; cbn in E; [by injection E as <- |].
      destruct (credit_step window c e) as [c1 |] eqn:E1; [| done]. apply (IH c1); [| done].
      destruct e; [apply credit_step_send in E1 as (? & _ & ->); cbn; lia |..]; injection E1 as <-; cbn;
        [zcase; lia | done]. }
    apply (Hinv es (newStreamCredit window)); [cbn; lia | done].
  - intros Hh. destruct (credit_honest_run window es _ _ 0 0 Hh E) as (H1 & H2 & H3); cbn; lia.
Qed.

Lemma credit_bounds_in_flight_witness :
  credit_run 100 (newStreamCredit 100) [ESend 60; EUpdate 50; ESend 70] = Some (mkCredit 20 false)
  ∧ available (mkCredit 20 false) ≤ 2 * 100.
Proof.
  split; [vm_compute; reflexivity |].
  refine (proj1 (credit_bounds_in_flight 100 [ESend 60; EUpdate 50; ESend 70] (mkCredit 20 false) _ _)).
  - lia.
  - vm_compute. reflexivity.
Defined.

(** Closing never leaves the relay parked: the next evaluation returns. *)
Lemma close_unparks c done : waitForCredit (close c) done = Some (-1).
Proof. unfold waitForCredit, close. cbn. by rewrite andb_false_r. Qed.

Lemma negotiate_min cw sm : 0 ≤ cw → 0 ≤ sm → negotiateFlowWindow cw sm = Z.min cw sm.
Proof. intros. unfold negotiateFlowWindow. zcases; lia. Qed.
