(* ===== verification/ClientFlow.v ===== *)
(** * The client's half of flow control ([client/stream_flow.go])

    The credit sender of a stream, as steps that interleave with the relay that
    delivers data to the application, and the closed loop it forms with the
    server's credit ([Credit]): data frames one way, WINDOW_UPDATEs the other. *)

From S2P Require Import Prelude.
From S2P Require Import Credit.
From stdpp Require Import base list relations.

#[local] Open Scope Z_scope.

(** ** The window *)

Definition maxFlowWindow : Z := Z.shiftl 6 20.

Definition clampFlowWindow (w : Z) : Z := if maxFlowWindow <? w then maxFlowWindow else w.

(** [strconv.ParseUint(v, 10, 64)] *)
Fixpoint parse_digits (acc : Z) (v : bytes) : option Z :=
  match v with
  | [] => Some acc
  | c :: v' =>
    if (48 <=? c) && (c <=? 57)
    then let acc' := acc * 10 + (c - 48) in if acc' <? 2 ^ 64 then parse_digits acc' v' else None
    else None
  end.
Definition parseUint (v : bytes) : option Z := match v with [] => None | _ => parse_digits 0 v end.

(** [v] is the trimmed value of the environment variable. *)
Definition flowWindowFromEnv (v : bytes) (def : Z) : Z :=
  if len v =? 0 then clampFlowWindow def else
  match parseUint v with
  | None => clampFlowWindow def
  | Some n => if n =? 0 then 0 else clampFlowWindow n
  end.

(** ** The accumulated credit of one stream *)

Record streamFlowState := mkFlowState { pendingDelta : Z; fl_window : Z; lastSentNs : Z }.

Definition creditWatchdogNs : Z := 200 * 1000000.
Definition creditFlushFloor : Z := 32 * 1024.

Definition set_pending (st : streamFlowState) (d : Z) : streamFlowState := mkFlowState d (fl_window st) (lastSentNs st).
Definition set_sent (st : streamFlowState) (now : Z) : streamFlowState := mkFlowState (pendingDelta st) (fl_window st) now.

(** [OnStreamConsumed], for a stream with flow state *)
Definition OnStreamConsumed (enabled : bool) (st : streamFlowState) (n : Z) : streamFlowState :=
  if negb enabled || (n <=? 0) then st else set_pending st (u64 (pendingDelta st + n)).

(** The guards of [creditSenderTick] for one stream. *)
Definition credit_due (st : streamFlowState) (d nowNs : Z) : bool :=
  if d =? 0 then false else
  let stale := negb (lastSentNs st =? 0) && (creditWatchdogNs <=? nowNs - lastSentNs st) in
  negb ((d <? creditFlushFloor) && negb stale).

(** Where the sender goroutine is in its loop body. *)
Inductive ticker := TIdle | TLoaded (d nowNs : Z) | TTaken (d nowNs : Z).

Definition tick_load (st : streamFlowState) (nowNs : Z) : ticker :=
  let d := pendingDelta st in if credit_due st d nowNs then TLoaded d nowNs else TIdle.

(** The compare-and-swap. *)
Definition tick_cas (st : streamFlowState) (d nowNs : Z) : ticker * streamFlowState :=
  if pendingDelta st =? d then (TTaken d nowNs, set_pending st 0) else (TIdle, st).

(** The outcome of [sendWindowUpdate]: the frame that left, if any. *)
Definition tick_result (st : streamFlowState) (d nowNs : Z) (sent : bool) : option Z * streamFlowState :=
  if sent then (Some (u32 d), set_sent st nowNs)
  else (None, set_pending st (u64 (pendingDelta st + d))).

(** ** The loop *)

Record loop := mkLoop {
  lp_credit : streamCredit;        (* the server's *)
  lp_down : list Z;                (* sizes of the data frames not yet taken by the application *)
  lp_flow : streamFlowState;
  lp_tick : ticker;
  lp_up : list Z;                  (* updates on the way to the server *)
}.

Definition loop0 (window : Z) : loop := mkLoop (newStreamCredit window) [] (mkFlowState 0 window 0) TIdle [].

Inductive flow_op :=
| FSend (n : Z)                    (* the server's relay sends [n] bytes *)
| FConsume                         (* the application takes the next frame *)
| FLoad (nowNs : Z) | FCas | FResult (sent : bool)
| FUpdate.                         (* the server receives the next update *)

Definition flow_step (window : Z) (s : loop) (o : flow_op) : option loop :=
  match o with
  | FSend n =>
    match credit_step window (lp_credit s) (ESend n) with
    | Some c => Some (mkLoop c (lp_down s ++ [n]) (lp_flow s) (lp_tick s) (lp_up s))
    | None => None
    end
  | FConsume =>
    match lp_down s with
    | n :: rest => Some (mkLoop (lp_credit s) rest (OnStreamConsumed true (lp_flow s) n) (lp_tick s) (lp_up s))
    | [] => None
    end
  | FLoad now =>
    match lp_tick s with
    | TIdle => Some (mkLoop (lp_credit s) (lp_down s) (lp_flow s) (tick_load (lp_flow s) now) (lp_up s))
    | _ => None
    end
  | FCas =>
    match lp_tick s with
    | TLoaded d now => let '(t, f) := tick_cas (lp_flow s) d now in Some (mkLoop (lp_credit s) (lp_down s) f t (lp_up s))
    | _ => None
    end
  | FResult sent =>
    match lp_tick s with
    | TTaken d now =>
      let '(u, f) := tick_result (lp_flow s) d now sent in
      Some (mkLoop (lp_credit s) (lp_down s) f TIdle (lp_up s ++ option_list u))
    | _ => None
    end
  | FUpdate =>
    match lp_up s with
    | d :: rest => Some (mkLoop (add (lp_credit s) d window) (lp_down s) (lp_flow s) (lp_tick s) rest)
    | [] => None
    end
  end.

Fixpoint flow_run (window : Z) (s : loop) (ops : list flow_op) : option loop :=
  match ops with
  | [] => Some s
  | o :: ops' => match flow_step window s o with Some s1 => flow_run window s1 ops' | None => None end
  end.

(** ** Nothing is lost *)

Definition sum (l : list Z) : Z := foldr Z.add 0 l.
Arguments sum _ : simpl never.
Definition taken (t : ticker) : Z := match t with TTaken d _ => d | _ => 0 end.

Lemma sum_nil : sum [] = 0.
Proof. done. Qed.
Lemma sum_cons n l : sum (n :: l) = n + sum l.
Proof. done. Qed.

Lemma sum_app l l' : sum (l ++ l') = sum l + sum l'.
Proof. induction l as [| n l IH]; cbn [app]; [done |]. rewrite !sum_cons, IH. lia. Qed.

Lemma sum_nonneg l : Forall (λ n, 0 ≤ n) l → 0 ≤ sum l.
Proof. induction 1; [done |]. rewrite sum_cons. lia. Qed.

Record loop_inv (window : Z) (s : loop) : Prop := {
  lo_total : available (lp_credit s) + sum (lp_down s) + pendingDelta (lp_flow s) + taken (lp_tick s) + sum (lp_up s) = window;
  lo_open : cr_closed (lp_credit s) = false;
  lo_avail : 0 ≤ available (lp_credit s);
  lo_down : Forall (λ n, 0 < n) (lp_down s);
  lo_pending : 0 ≤ pendingDelta (lp_flow s);
  lo_taken : 0 ≤ taken (lp_tick s);
  lo_up : Forall (λ n, 0 ≤ n) (lp_up s);
  lo_loaded : match lp_tick s with TLoaded d _ => d ≠ 0 | _ => True end;
}.

Lemma due_nonzero st d now : credit_due st d now = true → d ≠ 0.
Proof. unfold credit_due. by destruct (Z.eqb_spec d 0). Qed.

Section loop_facts.
Context (window : Z) (Hw : 0 ≤ window ≤ maxFlowWindow).

Lemma loop0_inv : loop_inv window (loop0 window).
Proof. split; cbn; rewrite ?sum_nil; try done; try lia; constructor. Qed.

Lemma down_nonneg l : Forall (λ n, 0 < n) l → 0 ≤ sum l.
Proof. intros H. apply sum_nonneg. eapply Forall_impl; [exact H |]. cbn. lia. Qed.

Lemma flow_step_inv s o s' : loop_inv window s → flow_step window s o = Some s' → loop_inv window s'.
Proof.
  intros [Ht Ho Ha Hd Hp Hk Hu Hl] E. change maxFlowWindow with 6291456 in Hw.
  pose proof (down_nonneg _ Hd) as Hd0. pose proof (sum_nonneg _ Hu) as Hu0.
  destruct o as [n | | now | | sent |]; unfold flow_step in E.
  - destruct (credit_step _ _ _) as [c |] eqn:Ec; [| done]. injection E as <-.
    apply credit_step_send in Ec as (Hn & _ & ->). split; cbn; try done; try lia.
    + rewrite sum_app, sum_cons, sum_nil. lia.
    + apply Forall_app. split; [done |]. constructor; [lia | done].
  - destruct (lp_down s) as [| n rest] eqn:Ed; [done |]. injection E as <-. apply Forall_cons in Hd as [Hn Hd].
    rewrite sum_cons in Ht, Hd0. pose proof (down_nonneg _ Hd) as Hd1.
    unfold OnStreamConsumed. cbn [negb orb]. destruct (Z.leb_spec n 0); [lia |].
    assert (u64 (pendingDelta (lp_flow s) + n) = pendingDelta (lp_flow s) + n) as Hadd by (apply Z.mod_small; lia).
    split; cbn; try done; rewrite ?Hadd; lia.
  - destruct (lp_tick s) eqn:Etk; try done. injection E as <-. unfold tick_load.
    destruct (credit_due _ _ _) eqn:Ec; split; cbn; try done; try (cbn in Ht; lia). by apply due_nonzero in Ec.
  - destruct (lp_tick s) as [| d now |] eqn:Etk; try done. unfold tick_cas in E.
    destruct (Z.eqb_spec (pendingDelta (lp_flow s)) d) as [<- | Hne]; injection E as <-; split; cbn in *; try done; lia.
  - destruct (lp_tick s) as [| | d now] eqn:Etk; try done. cbn in Ht, Hk. unfold tick_result in E. destruct sent; injection E as <-.
    + assert (u32 d = d) as Hud by (apply Z.mod_small; lia).
      split; cbn; rewrite ?Hud, ?sum_app, ?sum_cons, ?sum_nil; try done; try lia. apply Forall_app. split; [done |]. by constructor.
    + assert (u64 (pendingDelta (lp_flow s) + d) = pendingDelta (lp_flow s) + d) as Hadd by (apply Z.mod_small; lia).
      rewrite app_nil_r. split; cbn; try done; rewrite ?Hadd; lia.
  - destruct (lp_up s) as [| d rest] eqn:Eu; [done |]. injection E as <-. apply Forall_cons in Hu as [Hd1 Hu].
    rewrite sum_cons in Ht, Hu0. pose proof (sum_nonneg _ Hu) as Hu1.
    assert (available (add (lp_credit s) d window) = available (lp_credit s) + d) as Hadd by (cbn; zcase; lia).
    split; cbn -[add available]; rewrite ?Hadd; try done; lia.
Qed.

Lemma flow_run_inv ops s s' : loop_inv window s → flow_run window s ops = Some s' → loop_inv window s'.
Proof.
  revert s. induction ops as [| o ops IH]; intros s Hi E; cbn in E; [by injection E as <- |].
  destruct (flow_step window s o) as [s1 |] eqn:Es; [| done]. eapply IH; [| exact E]. by eapply flow_step_inv.
Qed.

(** ** The loop does not stall *)

(** What the client and the network do on their own, as long as sends succeed:
    everything but the server's sending, when it changes the state. *)
Definition moves (s s' : loop) : Prop :=
  ∃ o, match o with FSend _ | FResult false => False | _ => True end ∧ flow_step window s o = Some s' ∧ s' ≠ s.

(** A bound on the moves that are left. *)
Definition tick_weight (p : Z) (t : ticker) : nat :=
  match t with TIdle => 3 | TLoaded d _ => if p =? d then 2 else 4 | TTaken _ _ => 5 end.
Definition potential (s : loop) : nat :=
  7 * length (lp_down s) + length (lp_up s) + (if (pendingDelta (lp_flow s) =? 0)%Z then 0 else 4)
  + tick_weight (pendingDelta (lp_flow s)) (lp_tick s).

Lemma moves_potential s s' : loop_inv window s → moves s s' → (potential s' < potential s)%nat.
Proof.
  intros [Ht _ _ Hd Hp Hk _ Hl] (o & Ho & E & Hne). destruct o as [| | now | | sent |]; try done; unfold flow_step in E.
  - destruct (lp_down s) as [| n rest] eqn:Ed; [done |]. injection E as <-. unfold potential. rewrite Ed. cbn [lp_down lp_up lp_flow lp_tick length].
    destruct (pendingDelta (OnStreamConsumed _ _ _) =? 0), (pendingDelta (lp_flow s) =? 0);
      destruct (lp_tick s) as [| d ? |]; cbn [tick_weight]; try destruct (_ =? d); try destruct (_ =? d); lia.
  - destruct (lp_tick s) eqn:Etk; try done. injection E as <-. unfold tick_load in *.
    destruct (credit_due _ _ _) eqn:Ec; [| exfalso; apply Hne; destruct s; cbn in *; by subst].
    apply due_nonzero in Ec. unfold potential. cbn [lp_down lp_up lp_flow lp_tick]. rewrite Etk. cbn [tick_weight].
    rewrite Z.eqb_refl. lia.
  - destruct (lp_tick s) as [| d now |] eqn:Etk; try done. unfold tick_cas in E. unfold potential. rewrite Etk. cbn [tick_weight].
    destruct (Z.eqb_spec (pendingDelta (lp_flow s)) d) as [<- | Hnd]; injection E as <-; cbn [lp_down lp_up lp_flow lp_tick tick_weight set_pending pendingDelta].
    + apply Z.eqb_neq in Hl. rewrite Hl. cbn. lia.
    + lia.
  - destruct (lp_tick s) as [| | d now] eqn:Etk; try done. destruct sent; [| done]. cbn [tick_result] in E. injection E as <-.
    unfold potential. rewrite Etk. cbn [lp_down lp_up lp_flow lp_tick tick_weight set_sent pendingDelta option_list]. rewrite length_app. cbn. lia.
  - destruct (lp_up s) as [| d rest] eqn:Eu; [done |]. injection E as <-. unfold potential. rewrite Eu. cbn. lia.
Qed.

Lemma moves_inv s s' : loop_inv window s → moves s s' → loop_inv window s'.
Proof. intros Hi (o & _ & E & _). by eapply flow_step_inv. Qed.

Lemma moves_bounded k s s' : loop_inv window s → nsteps moves k s s' → (k + potential s' ≤ potential s)%nat ∧ loop_inv window s'.
Proof.
  intros Hi H. induction H as [s | k s s1 s2 Hm _ IH]; [by split |]. pose proof (moves_potential _ _ Hi Hm).
  destruct (IH (moves_inv _ _ Hi Hm)). split; [lia | done].
Qed.

Lemma quiet_credit s :
  loop_inv window s → (¬ ∃ s', moves s s') → window - creditFlushFloor < available (lp_credit s).
Proof.
  intros [Ht _ _ Hd Hp Hk Hu Hl] Hq.
  destruct (lp_down s) as [| n rest] eqn:Ed.
  2: { exfalso. apply Hq. eexists. exists FConsume. cbn [flow_step]. rewrite Ed. split; [done |]. split; [done |].
       intros H%(f_equal (λ s, length (lp_down s))). cbn in H. rewrite Ed in H. cbn in H. lia. }
  destruct (lp_up s) as [| d rest] eqn:Eu.
  2: { exfalso. apply Hq. eexists. exists FUpdate. cbn [flow_step]. rewrite Eu. split; [done |]. split; [done |].
       intros H%(f_equal (λ s, length (lp_up s))). cbn in H. rewrite Eu in H. cbn in H. lia. }
  destruct (lp_tick s) as [| d now | d now] eqn:Ek.
  2: { exfalso. apply Hq. destruct (tick_cas (lp_flow s) d now) as [t f] eqn:Ec.
       eexists. exists FCas. cbn [flow_step]. rewrite Ek, Ec. split; [done |]. split; [done |].
       intros H%(f_equal lp_tick). cbn in H. rewrite Ek in H. unfold tick_cas in Ec.
       destruct (_ =? d); injection Ec as <- _; done. }
  2: { exfalso. apply Hq. eexists. exists (FResult true). cbn [flow_step tick_result]. rewrite Ek. split; [done |]. split; [done |].
       intros H%(f_equal lp_tick). cbn in H. by rewrite Ek in H. }
  rewrite !sum_nil in Ht. cbn in Ht.
  assert (pendingDelta (lp_flow s) < creditFlushFloor) as Hlt; [| lia].
  destruct (Z.lt_ge_cases (pendingDelta (lp_flow s)) creditFlushFloor) as [| Hge]; [done |]. exfalso. apply Hq.
  eexists. exists (FLoad 0). cbn [flow_step]. rewrite Ek. split; [done |]. split; [done |].
  intros H%(f_equal lp_tick). cbn in H. rewrite Ek in H. unfold tick_load, credit_due in H.
  destruct (Z.eqb_spec (pendingDelta (lp_flow s)) 0) as [H0 |]; [unfold creditFlushFloor in Hge; lia |].
  destruct (Z.ltb_spec (pendingDelta (lp_flow s)) creditFlushFloor); [lia | done].
Qed.

End loop_facts.

(** C12: the flow-control loop is exact.  For any window up to the client's cap
    and any interleaving of the server's relay, the application, the credit
    sender and the two directions of the transport: the server's credit, the
    bytes not yet taken by the application, the credit not yet sent and the
    updates on their way add up to the window.  So the application never has
    more than a window queued, the 32-bit update never truncates, and the
    server's clamp never takes credit away. *)
Theorem flow_loop_exact window ops s :
  0 ≤ window ≤ maxFlowWindow → flow_run window (loop0 window) ops = Some s →
  available (lp_credit s) + sum (lp_down s) + pendingDelta (lp_flow s) + taken (lp_tick s) + sum (lp_up s) = window
  ∧ 0 ≤ available (lp_credit s) ∧ 0 ≤ sum (lp_down s) ≤ window
  ∧ (∀ d now, lp_tick s = TTaken d now → u32 d = d)
  ∧ (∀ d rest, lp_up s = d :: rest → available (add (lp_credit s) d window) = available (lp_credit s) + d).
Proof.
  intros Hw E. pose proof (flow_run_inv window Hw ops _ _ (loop0_inv window Hw) E) as [Ht _ Ha Hd Hp Hk Hu _].
  pose proof (down_nonneg _ Hd). pose proof (sum_nonneg _ Hu). change maxFlowWindow with 6291456 in Hw.
  split_and!; try done; try lia.
  - intros d now Etk. rewrite Etk in *. cbn in *. apply Z.mod_small. lia.
  - intros d rest Eu. rewrite Eu in *. apply Forall_cons in Hu as [Hd1 Hu]. pose proof (sum_nonneg _ Hu).
    rewrite sum_cons in Ht. cbn. zcase; lia.
Qed.

(** C20: the loop does not stall.  For a window between the flush floor and the
    cap, in every reachable state: the client and the network can make only
    finitely many moves on their own (a bound is computed), and when they have
    made all of them the server holds more than the window less the flush floor
    in credit, so it can send. *)
Theorem flow_never_stalls window ops s :
  creditFlushFloor ≤ window ≤ maxFlowWindow → flow_run window (loop0 window) ops = Some s →
  (∀ k s', nsteps (moves window) k s s' → (k ≤ potential s)%nat)
  ∧ ∀ s', rtc (moves window) s s' → (¬ ∃ s'', moves window s' s'') →
      0 ≤ window - creditFlushFloor < available (lp_credit s').
Proof.
  intros Hw E. assert (0 ≤ window ≤ maxFlowWindow) as Hw0 by (unfold creditFlushFloor in Hw; lia).
  pose proof (flow_run_inv window Hw0 ops _ _ (loop0_inv window Hw0) E) as Hi. split.
  - intros k s' Hk. destruct (moves_bounded window Hw0 k s s' Hi Hk). lia.
  - intros s' [k Hk]%rtc_nsteps Hq. destruct (moves_bounded window Hw0 k s s' Hi Hk) as [_ Hi'].
    split; [lia |]. by apply quiet_credit.
Qed.

(** A window below the flush floor stalls for good: once the application has
    taken the first window's worth, the sender never finds enough to send (and
    its watchdog only starts with the first update), so the server is left
    without credit whatever happens next. *)
Theorem small_window_stalls window :
  0 < window < creditFlushFloor →
  ∃ s, flow_run window (loop0 window) [FSend window; FConsume] = Some s
    ∧ available (lp_credit s) = 0
    ∧ ∀ ops s', flow_run window s ops = Some s' → available (lp_credit s') = 0.
Proof.
  intros Hw. unfold creditFlushFloor in Hw. set (st := mkFlowState window window 0).
  exists (mkLoop (mkCredit 0 false) [] st TIdle []). split; [| split; [done |]].
  - cbn -[Z.ltb Z.leb u64]. unfold waitForCredit, newStreamCredit. cbn -[Z.ltb Z.leb u64].
    destruct (Z.leb_spec window 0); [lia |]. cbn -[Z.ltb Z.leb u64].
    destruct (Z.ltb_spec 0 window); [| lia]. destruct (Z.leb_spec window (Z.min 32768 window)); [| lia].
    cbn -[Z.ltb Z.leb u64]. unfold OnStreamConsumed. cbn -[Z.ltb Z.leb u64]. destruct (Z.leb_spec window 0); [lia |].
    unfold set_pending, consume. cbn -[u64]. rewrite Z.sub_diag. do 3 f_equal. apply Z.mod_small. lia.
  - assert (∀ now, tick_load st now = TIdle) as Hload.
    { intros now. unfold tick_load, credit_due. cbn -[Z.ltb]. destruct (Z.eqb_spec window 0); [done |].
      unfold creditFlushFloor. destruct (Z.ltb_spec window (32 * 1024)); [done | lia]. }
    induction ops as [| o ops IH]; intros s' E; cbn [flow_run] in E; [by injection E as <- |].
    destruct o as [n | | now | | sent |]; cbn [flow_step lp_credit lp_down lp_flow lp_tick lp_up] in E; try done.
    rewrite Hload in E. by apply IH.
Qed.

(** The client's receive queue of a stream holds 512 frames.  A window bounds
    the frames in it when every frame has a known size: of [m] bytes each, at
    most [window / m] are queued. *)
Theorem frames_in_window window ops s m :
  0 ≤ window ≤ maxFlowWindow → 0 < m → flow_run window (loop0 window) ops = Some s →
  Forall (λ n, m ≤ n) (lp_down s) → len (lp_down s) * m ≤ window.
Proof.
  intros Hw Hm E Hf. pose proof (flow_run_inv window Hw ops _ _ (loop0_inv window Hw) E) as [Ht _ Ha Hd Hp Hk Hu _].
  pose proof (sum_nonneg _ Hu). assert (len (lp_down s) * m ≤ sum (lp_down s)); [| lia]. clear -Hf.
  induction Hf as [| n l Hn _ IH]; [done |]. rewrite len_cons, sum_cons. lia.
Qed.

(** With the largest window and the smallest read size (1024), more frames fit
    the window than the queue: the 513th is in flight with credit to spare. *)
Theorem window_exceeds_queue :
  ∃ s, flow_run maxFlowWindow (loop0 maxFlowWindow) (repeat (FSend 1024) 513) = Some s
    ∧ len (lp_down s) = 513 ∧ available (lp_credit s) = 5766144.
Proof. eexists. split; [vm_compute; reflexivity |]. vm_compute. by split. Qed.

(** ** Witnesses *)

Definition demo_flow : list flow_op :=
  [FSend 32768; FSend 8192; FConsume; FLoad 5; FSend 100; FCas; FConsume; FResult true; FUpdate].
Definition demo_loop : loop := default (loop0 0) (flow_run 65536 (loop0 65536) demo_flow).

Lemma flow_loop_exact_witness :
  demo_loop = mkLoop (mkCredit 57244 false) [100] (mkFlowState 8192 65536 5) TIdle []
  ∧ available (lp_credit demo_loop) + sum (lp_down demo_loop) + pendingDelta (lp_flow demo_loop)
    + taken (lp_tick demo_loop) + sum (lp_up demo_loop) = 65536
  ∧ 0 ≤ available (lp_credit demo_loop) ∧ 0 ≤ sum (lp_down demo_loop) ≤ 65536
  ∧ (∀ d now, lp_tick demo_loop = TTaken d now → u32 d = d)
  ∧ (∀ d rest, lp_up demo_loop = d :: rest → available (add (lp_credit demo_loop) d 65536) = available (lp_credit demo_loop) + d).
Proof.
  split; [vm_compute; reflexivity |]. apply (flow_loop_exact 65536 demo_flow demo_loop).
  - change maxFlowWindow with 6291456. lia.
  - vm_compute. reflexivity.
Defined.

Lemma flow_never_stalls_witness :
  (∀ k s', nsteps (moves 65536) k demo_loop s' → (k ≤ potential demo_loop)%nat)
  ∧ ∀ s', rtc (moves 65536) demo_loop s' → (¬ ∃ s'', moves 65536 s' s'') →
      0 ≤ 65536 - creditFlushFloor < available (lp_credit s').
Proof.
  apply (flow_never_stalls 65536 demo_flow demo_loop).
  - change maxFlowWindow with 6291456. unfold creditFlushFloor. lia.
  - vm_compute. reflexivity.
Defined.
