(* ===== verification/ClientStreams.v ===== *)
(** * Streams on the client ([client/client.go], [client/ws_pool.go],
    [proxy/socks5/tcp.go])

    The stream table of [Client], the slot readers that route downlink frames
    into per-stream channels, and the downlink goroutine of a tunnelled TCP
    connection that takes them out.  Routing is two steps, because the channel
    is looked up under the lock and used after it. *)

From S2P Require Import Prelude.
From S2P Require Import Primitives.
From S2P Require Import BufPool.
From S2P Require Import Chunk.
From S2P Require Import Session.
From S2P Require Import Reassembler.
From S2P Require Import ClientFlow.
From stdpp Require Import base list gmap fin_maps strings.

#[local] Open Scope Z_scope.

(** ** State *)

Record chan (A : Type) := mkChan { ch_items : list A; ch_closed : bool }.
Arguments mkChan {A}.
Arguments ch_items {A}.
Arguments ch_closed {A}.

(** [StreamFrame]: a number (0 for control) and data. *)
Definition StreamFrame : Type := Z * bytes.

Record streamOverflowState := mkOverflow { drops : Z; droppedBytes : Z }.

Definition maxClientStreams : nat := Z.to_nat 4096.
Definition chanCap : nat := Z.to_nat 512.

Record Client := mkClient {
  streamCounter : Z;
  streamChans : gmap Z nat;            (* channels are objects, ... *)
  streamFramesChans : gmap Z nat;
  cl_flat : gmap nat (chan bytes);     (* ... which live here *)
  cl_seq : gmap nat (chan StreamFrame);
  streamFlow : gmap Z streamFlowState;
  streamProof : gmap Z bytes;
  streamAckLast : gmap Z Z;
  streamOverflow : gmap Z streamOverflowState;
  flowControlEnabled : bool;
  flowWindow : Z;
}.

Definition new_client : Client := mkClient 0 ∅ ∅ ∅ ∅ ∅ ∅ ∅ ∅ false 0.

Definition with_counter (c : Client) (n : Z) : Client :=
  mkClient n (streamChans c) (streamFramesChans c) (cl_flat c) (cl_seq c) (streamFlow c) (streamProof c) (streamAckLast c)
    (streamOverflow c) (flowControlEnabled c) (flowWindow c).
Definition with_tables (c : Client) (m1 m2 : gmap Z nat) (h1 : gmap nat (chan bytes)) (h2 : gmap nat (chan StreamFrame)) : Client :=
  mkClient (streamCounter c) m1 m2 h1 h2 (streamFlow c) (streamProof c) (streamAckLast c)
    (streamOverflow c) (flowControlEnabled c) (flowWindow c).
Definition with_flow (c : Client) (f : gmap Z streamFlowState) : Client :=
  mkClient (streamCounter c) (streamChans c) (streamFramesChans c) (cl_flat c) (cl_seq c) f (streamProof c) (streamAckLast c)
    (streamOverflow c) (flowControlEnabled c) (flowWindow c).
Definition with_aux (c : Client) (p : gmap Z bytes) (a : gmap Z Z) (o : gmap Z streamOverflowState) : Client :=
  mkClient (streamCounter c) (streamChans c) (streamFramesChans c) (cl_flat c) (cl_seq c) (streamFlow c) p a o
    (flowControlEnabled c) (flowWindow c).
Definition with_flowctl (c : Client) (b : bool) (w : Z) : Client :=
  mkClient (streamCounter c) (streamChans c) (streamFramesChans c) (cl_flat c) (cl_seq c) (streamFlow c) (streamProof c)
    (streamAckLast c) (streamOverflow c) b w.
Definition put_flat (c : Client) (p : nat) (ch : chan bytes) : Client :=
  with_tables c (streamChans c) (streamFramesChans c) (<[p := ch]> (cl_flat c)) (cl_seq c).
Definition put_seq (c : Client) (p : nat) (ch : chan StreamFrame) : Client :=
  with_tables c (streamChans c) (streamFramesChans c) (cl_flat c) (<[p := ch]> (cl_seq c)).

(** ** The stream table *)

Definition id_used (c : Client) (id : Z) : bool :=
  bool_decide (is_Some (streamChans c !! id)) || bool_decide (is_Some (streamFramesChans c !! id)).

(** The loop of [NextStreamID]. *)
Fixpoint next_id (fuel : nat) (used : Z → bool) (counter : Z) : Z :=
  match fuel with
  | O => counter
  | S fuel' =>
    let n := u16 (counter + 1) in
    let n := if n =? 0 then 1 else n in
    if used n then next_id fuel' used n else n
  end.

Definition NextStreamID (c : Client) : Z * Client :=
  let n := next_id (Z.to_nat 65535) (id_used c) (streamCounter c) in (n, with_counter c n).

(** [EnableFlowControl] *)
Definition EnableFlowControl (c : Client) (window : Z) : Client :=
  if flowControlEnabled c then c else with_flowctl c true window.

Definition add_flow (c : Client) (id : Z) : Client :=
  if flowControlEnabled c then with_flow c (<[id := mkFlowState 0 (flowWindow c) 0]> (streamFlow c)) else c.

Definition RegisterStreamSeq (c : Client) (id : Z) : option (nat * Client) :=
  if (maxClientStreams <=? size (streamChans c) + size (streamFramesChans c))%nat then None else
  let p := fresh (dom (cl_seq c)) in
  Some (p, add_flow (with_tables c (streamChans c) (<[id := p]> (streamFramesChans c)) (cl_flat c)
                       (<[p := mkChan [] false]> (cl_seq c))) id).

Definition RegisterStream (c : Client) (id : Z) : option (nat * Client) :=
  if (maxClientStreams <=? size (streamChans c))%nat then None else
  let p := fresh (dom (cl_flat c)) in
  Some (p, add_flow (with_tables c (<[id := p]> (streamChans c)) (streamFramesChans c)
                       (<[p := mkChan [] false]> (cl_flat c)) (cl_seq c)) id).

Definition HasStream (c : Client) (id : Z) : bool := id_used c id.

(** [recordBufferOverflow], [flushBufferOverflow] (their counters). *)
Definition recordBufferOverflow (c : Client) (id size : Z) : Client :=
  let st := default (mkOverflow 0 0) (streamOverflow c !! id) in
  with_aux c (streamProof c) (streamAckLast c)
    (<[id := mkOverflow (u32 (drops st + 1)) (u64 (droppedBytes st + size))]> (streamOverflow c)).
Definition flushBufferOverflow (c : Client) (id : Z) : Client :=
  with_aux c (streamProof c) (streamAckLast c) (delete id (streamOverflow c)).

Definition UnregisterStream (c : Client) (id : Z) : Client :=
  let c1 := with_tables c (delete id (streamChans c)) (delete id (streamFramesChans c)) (cl_flat c) (cl_seq c) in
  let c2 := with_flow c1 (delete id (streamFlow c1)) in
  let c3 := with_aux c2 (delete id (streamProof c2)) (delete id (streamAckLast c2)) (streamOverflow c2) in
  flushBufferOverflow c3 id.

(** [close(ch)]: closing a closed channel panics. *)
Definition close_chan {A} (h : gmap nat (chan A)) (p : nat) : outcome (gmap nat (chan A)) :=
  match h !! p with
  | Some ch => if ch_closed ch then Panic else Ret (<[p := mkChan (ch_items ch) true]> h)
  | None => Panic
  end.

(** [handleStreamClose], the client's part. *)
Definition handleStreamClose (c : Client) (id : Z) : outcome Client :=
  c1 ← match streamChans c !! id with
       | Some p => h ← close_chan (cl_flat c) p; Ret (with_tables c (delete id (streamChans c)) (streamFramesChans c) h (cl_seq c))
       | None => Ret c
       end;
  match streamFramesChans c1 !! id with
  | Some p => h ← close_chan (cl_seq c1) p; Ret (with_tables c1 (streamChans c1) (delete id (streamFramesChans c1)) (cl_flat c1) h)
  | None => Ret c1
  end.

(** A send in a [select] with a default: [None] is a full channel. *)
Definition try_send {A} (ch : chan A) (x : A) : outcome (option (chan A)) :=
  if ch_closed ch then Panic
  else if (length (ch_items ch) <? chanCap)%nat then Ret (Some (mkChan (ch_items ch ++ [x]) false))
  else Ret None.

(** The second step of [RouteToStream] and [RouteToStreamSeq]. *)
Definition route_flat (c : Client) (p : nat) (id : Z) (data : bytes) : outcome Client :=
  match cl_flat c !! p with
  | None => Panic
  | Some ch => r ← try_send ch data; Ret (match r with Some ch' => put_flat c p ch' | None => recordBufferOverflow c id (len data) end)
  end.
Definition route_seq (c : Client) (p : nat) (id : Z) (f : StreamFrame) : outcome Client :=
  match cl_seq c !! p with
  | None => Panic
  | Some ch => r ← try_send ch f; Ret (match r with Some ch' => put_seq c p ch' | None => recordBufferOverflow c id (len f.2) end)
  end.

(** ** What a slot reader makes of a frame *)

Definition connectOKMarker : bytes := bytes_of_string "CONNECT_OK".
Definition connectFailMarker : bytes := bytes_of_string "CONNECT_FAIL".

Definition parseConnectOKProof (body : bytes) : option bytes :=
  if negb (len body =? len connectOKMarker + 32) then None
  else if bool_decide (take (length connectOKMarker) body = connectOKMarker)
  then Some (drop (length connectOKMarker) body) else None.

Definition isStreamControlMsg (body : bytes) : bool :=
  if bool_decide (body = connectOKMarker) || bool_decide (body = connectFailMarker) then true
  else match parseConnectOKProof body with Some _ => true | None => false end.

Inductive downlink :=
| DNone                                  (* dropped *)
| DMigrateReply (payload : bytes)        (* to [resolveMigrateReplyPayload] *)
| DClose (id : Z)                        (* [handleStreamClose] *)
| DFlat (id : Z) (data : bytes)          (* [RouteToStream] *)
| DSeq (id seq : Z) (data : bytes).      (* [RouteToStreamSeq] *)

(** [routeDownlinkFlagData]; the payload has at least two bytes. *)
Definition routeDownlinkFlagData (seqTagged : bool) (id : Z) (payload : bytes) : outcome downlink :=
  body ← slice payload 2 (len payload);
  if negb seqTagged then Ret (DFlat id body) else
  if isStreamControlMsg body then Ret (DSeq id 0 body) else
  match ParseStreamDataSeq payload with
  | Ret (sid, downSeq, sdata) => Ret (DSeq sid downSeq sdata)
  | Err _ => Ret (DClose id)
  | Panic => Panic
  end.

(** The body of [slotReader]'s loop for a frame read on slot [idx];
    [streamMap] gives the slot a stream is assigned to. *)
Definition slot_frame {HA : AEAD} (seqTagged : bool) (idx : Z) (streamMap : gmap Z Z) (s : Session) (data : bytes) (now : Z)
  : outcome (downlink * Session) :=
  match DecryptChunkSafe s data now with
  | Panic => Panic
  | Err _ => Ret (DNone, s)
  | Ret (chunk, s1) =>
    if (Flags chunk =? FlagMigrate) || (Flags chunk =? FlagResume) then Ret (DMigrateReply (Payload chunk), s1) else
    if Flags chunk =? FlagStreamClose then
      match ParseStreamCloseFrame (Payload chunk) with
      | Ret sid => Ret (DClose sid, s1)
      | Err _ => Ret (DNone, s1)
      | Panic => Panic
      end
    else
    let '(fresh, s2) := SessionAcceptSeqNum s1 (SeqNum chunk) now in
    if negb fresh then Ret (DNone, s2) else
    if len (Payload chunk) <? 2 then Ret (DNone, s2) else
    id ← get_be 2 (Payload chunk) 0 2;
    let routed :=
      if Flags chunk =? FlagUDP then Ret (DFlat id (Payload chunk)) else routeDownlinkFlagData seqTagged id (Payload chunk) in
    match streamMap !! id with
    | Some owner => if owner =? idx then d ← routed; Ret (d, s2) else Ret (DNone, s2)
    | None => d ← routed; Ret (d, s2)
    end
  end.

(** ** The downlink goroutine of a stream with migration *)

(** [sendStreamAckThrottled]; [jitter] is the sampled extension of the window. *)
Definition streamAckThrottleInterval : Z := 50 * 1000000.
Definition sendStreamAckThrottled (c : Client) (id : Z) (forced : bool) (nowNs jitter : Z) : bool * Client :=
  let window := streamAckThrottleInterval + jitter in
  let skip := match streamAckLast c !! id with
              | Some last => negb forced && (nowNs - last <? window)
              | None => false
              end in
  if skip then (false, c) else (true, with_aux c (streamProof c) (<[id := nowNs]> (streamAckLast c)) (streamOverflow c)).

Definition StoreStreamProof (c : Client) (id : Z) (proof : bytes) : Client :=
  with_aux c (<[id := proof]> (streamProof c)) (streamAckLast c) (streamOverflow c).
Definition StreamProof (c : Client) (id : Z) : option bytes := streamProof c !! id.

Definition client_consumed (c : Client) (id n : Z) : Client :=
  match streamFlow c !! id with
  | Some st => with_flow c (<[id := OnStreamConsumed (flowControlEnabled c) st n]> (streamFlow c))
  | None => c
  end.

(** One run of [downlinkReassemblyLoop], which reads the channel at its key. *)
Record reader := mkReader {
  rd_stream : Z;
  rd_reasm : reassembler;
  connectConfirmed : bool;
  rd_live : bool;
  rd_written : list bytes;             (* what [conn.Write] took *)
  rd_acks : list Z;                    (* the acknowledgements that were due *)
}.

Definition stop_reader (r : reader) : reader :=
  mkReader (rd_stream r) (rd_reasm r) (connectConfirmed r) false (rd_written r) (rd_acks r).
Definition set_reasm (r : reader) (m : reassembler) : reader :=
  mkReader (rd_stream r) m (connectConfirmed r) (rd_live r) (rd_written r) (rd_acks r).
Definition confirm (r : reader) : reader :=
  mkReader (rd_stream r) (rd_reasm r) true (rd_live r) (rd_written r) (rd_acks r).
Definition wrote (r : reader) (d : bytes) : reader :=
  mkReader (rd_stream r) (rd_reasm r) (connectConfirmed r) (rd_live r) (rd_written r ++ [d]) (rd_acks r).
Definition acked (r : reader) (n : Z) : reader :=
  mkReader (rd_stream r) (rd_reasm r) (connectConfirmed r) (rd_live r) (rd_written r) (rd_acks r ++ [n]).

(** [onControl]: whether the loop goes on. *)
Definition onControl (c : Client) (r : reader) (msg : bytes) : Client * reader :=
  match parseConnectOKProof msg with
  | Some proof => (StoreStreamProof c (rd_stream r) proof, confirm r)
  | None =>
    if connectConfirmed r then (c, r)
    else if bool_decide (msg = connectOKMarker) then (c, confirm r)
    else if bool_decide (msg = connectFailMarker) then (c, stop_reader r)
    else (c, confirm r)
  end.

(** The writes of one run; [room] is how many succeed before one fails. *)
Fixpoint write_run (c : Client) (r : reader) (out : list bytes) (room : option nat) : bool * Client * reader :=
  match out with
  | [] => (true, c, r)
  | d :: out' =>
    match room with
    | Some O => (false, c, r)
    | _ => write_run (client_consumed c (rd_stream r) (len d)) (wrote r d) out' (pred <$> room)
    end
  end.

(** The loop's body for one frame. *)
Definition reader_frame (c : Client) (r : reader) (f : StreamFrame) (room : option nat) (nowNs jitter : Z) : Client * reader :=
  if f.1 =? 0 then onControl c r f.2 else
  let '(out, st, m) := push (rd_reasm r) f.1 f.2 in
  let r1 := set_reasm r m in
  match st with
  | reasmOverflow => (c, stop_reader r1)
  | _ =>
    let '(ok, c2, r2) := write_run c r1 out room in
    if negb ok then (c2, stop_reader r2) else
    match out with
    | [] => (c2, r2)
    | _ =>
      let ack := expectedSeq m - 1 in
      let '(send, c3) := sendStreamAckThrottled c2 (rd_stream r2) false nowNs jitter in
      (c3, if send then acked r2 ack else r2)
    end
  end.

(** ** Runs *)

Record world := mkWorld {
  w_client : Client;
  w_readers : gmap nat reader;         (* by channel *)
  w_routing : gmap nat (nat * Z * StreamFrame);  (* slot readers between lookup and send *)
}.

Definition newReader (id maxBuffered : Z) : reader := mkReader id (newReassembler maxBuffered) false true [] [].

Inductive client_op :=
| COpen (id maxBuffered : Z)           (* [RegisterStreamSeq] and its goroutine *)
| CTake (g : nat) (id : Z) (f : StreamFrame) | CSend (g : nat)
| CRead (p : nat) (room : option nat) (nowNs jitter : Z)
| CStop (p : nat)                      (* gap timeout, full close, cancellation *)
| CUnregister (id : Z)
| CClose (id : Z)
| CEnable (window : Z).

Definition client_step (w : world) (o : client_op) : outcome world :=
  let c := w_client w in
  match o with
  | COpen id maxBuffered =>
    match RegisterStreamSeq c id with
    | Some (p, c') => Ret (mkWorld c' (<[p := newReader id maxBuffered]> (w_readers w)) (w_routing w))
    | None => Ret w
    end
  | CTake g id f =>
    match streamFramesChans c !! id with
    | Some p => Ret (mkWorld c (w_readers w) (<[g := (p, id, f)]> (w_routing w)))
    | None => Ret w
    end
  | CSend g =>
    match w_routing w !! g with
    | Some (p, id, f) => c' ← route_seq c p id f; Ret (mkWorld c' (w_readers w) (delete g (w_routing w)))
    | None => Ret w
    end
  | CRead p room nowNs jitter =>
    match w_readers w !! p, cl_seq c !! p with
    | Some r, Some ch =>
      if negb (rd_live r) then Ret w else
      match ch_items ch with
      | [] => Ret (if ch_closed ch then mkWorld c (<[p := stop_reader r]> (w_readers w)) (w_routing w) else w)
      | f :: rest =>
        let '(c', r') := reader_frame (put_seq c p (mkChan rest (ch_closed ch))) r f room nowNs jitter in
        Ret (mkWorld c' (<[p := r']> (w_readers w)) (w_routing w))
      end
    | _, _ => Ret w
    end
  | CStop p => Ret (mkWorld c (alter stop_reader p (w_readers w)) (w_routing w))
  | CUnregister id => Ret (mkWorld (UnregisterStream c id) (w_readers w) (w_routing w))
  | CClose id => c' ← handleStreamClose c id; Ret (mkWorld c' (w_readers w) (w_routing w))
  | CEnable window => Ret (mkWorld (EnableFlowControl c window) (w_readers w) (w_routing w))
  end.

Fixpoint client_run (w : world) (ops : list client_op) : outcome world :=
  match ops with
  | [] => Ret w
  | o :: ops' => w1 ← client_step w o; client_run w1 ops'
  end.

Definition world0 : world := mkWorld new_client ∅ ∅.

(** ** Stream ids *)

Lemma next_id_spec used fuel counter :
  0 ≤ counter < 65536 →
  let n := next_id fuel used counter in
  (fuel ≠ O → 1 ≤ n ≤ 65535)
  ∧ (used n = true → ∀ k, 1 ≤ k ≤ Z.of_nat fuel →
       let m := (counter + k - 1) mod 65535 + 1 in used m = true).
Proof.
  revert counter. induction fuel as [| fuel IH]; intros counter Hc; cbn [next_id]; [split; [done | lia] |].
  set (n := if u16 (counter + 1) =? 0 then 1 else u16 (counter + 1)).
  assert (1 ≤ n ≤ 65535 ∧ n = counter mod 65535 + 1) as [Hn Hm].
  { unfold n, u16. destruct (decide (counter = 65535)) as [-> | ?]; [done |].
    rewrite (Z.mod_small (counter + 1)) by lia. destruct (Z.eqb_spec (counter + 1) 0); [lia |]. rewrite Z.mod_small; lia. }
  destruct (used n) eqn:Eu.
  - destruct (IH n ltac:(lia)) as [H1 H2]. split.
    + intros _. destruct fuel as [| fuel]; [cbn; lia | by apply H1].
    + intros H k Hk. destruct (decide (k = 1)) as [-> | Hk1].
      * replace (counter + 1 - 1) with counter by lia. by rewrite <- Hm.
      * specialize (H2 H (k - 1) ltac:(lia)). cbn in H2. rewrite Hm in H2.
        replace (counter mod 65535 + 1 + (k - 1) - 1) with (counter mod 65535 + (k - 1)) in H2 by lia.
        rewrite Zplus_mod_idemp_l in H2. by replace (counter + k - 1) with (counter + (k - 1)) by lia.
  - split; [lia |]. congruence.
Qed.

(** A table operation of one of the transports. *)
Inductive table_op := ONext | ORegister (id : Z) | ORegisterSeq (id : Z) | OUnregister (id : Z) | OClose (id : Z).

Definition table_step (c : Client) (o : table_op) : outcome Client :=
  match o with
  | ONext => Ret (snd (NextStreamID c))
  | ORegister id => Ret (match RegisterStream c id with Some (_, c') => c' | None => c end)
  | ORegisterSeq id => Ret (match RegisterStreamSeq c id with Some (_, c') => c' | None => c end)
  | OUnregister id => Ret (UnregisterStream c id)
  | OClose id => handleStreamClose c id
  end.

Fixpoint table_run (c : Client) (ops : list table_op) : outcome Client :=
  match ops with [] => Ret c | o :: ops' => c1 ← table_step c o; table_run c1 ops' end.

(** Every registered channel exists, is open and is registered once; the
    tables are bounded. *)
Record table_inv (c : Client) : Prop := {
  ti_counter : 0 ≤ streamCounter c < 65536;
  ti_flat id p : streamChans c !! id = Some p → ∃ ch, cl_flat c !! p = Some ch ∧ ch_closed ch = false;
  ti_seq id p : streamFramesChans c !! id = Some p → ∃ ch, cl_seq c !! p = Some ch ∧ ch_closed ch = false;
  ti_flat_once i j p : streamChans c !! i = Some p → streamChans c !! j = Some p → i = j;
  ti_seq_once i j p : streamFramesChans c !! i = Some p → streamFramesChans c !! j = Some p → i = j;
  ti_size1 : (size (streamChans c) ≤ maxClientStreams)%nat;
  ti_size2 : (size (streamFramesChans c) ≤ maxClientStreams)%nat;
}.

Lemma new_client_inv : table_inv new_client.
Proof. split; cbn; try done; rewrite ?map_size_empty; try lia. Qed.

Lemma fresh_absent {A} (h : gmap nat A) : h !! fresh (dom h) = None.
Proof. apply not_elem_of_dom, is_fresh. Qed.

(** The steps are the same for the two tables. *)
Definition chan_ok {A} (m : gmap Z nat) (h : gmap nat (chan A)) : Prop :=
  (∀ id p, m !! id = Some p → ∃ ch, h !! p = Some ch ∧ ch_closed ch = false)
  ∧ (∀ i j p, m !! i = Some p → m !! j = Some p → i = j).

Lemma chan_ok_register {A} (m : gmap Z nat) (h : gmap nat (chan A)) id :
  chan_ok m h → chan_ok (<[id := fresh (dom h)]> m) (<[fresh (dom h) := mkChan [] false]> h).
Proof.
  intros [H1 H2]. pose proof (fresh_absent h) as Hf. set (q := fresh (dom h)) in *.
  assert (∀ i, m !! i ≠ Some q) as Hq by (intros i Hi; destruct (H1 i q Hi) as (ch & ? & _); congruence).
  split.
  - intros i p. rewrite lookup_insert_Some. intros [[<- <-] | [_ Hi]].
    + rewrite lookup_insert_eq. by eexists.
    + destruct (H1 i p Hi) as (ch & Hch & Ho). exists ch. rewrite lookup_insert_ne; [done |]. congruence.
  - intros i j p. rewrite !lookup_insert_Some. intros [[<- <-] | [_ Hi]] [[<- Hj] | [_ Hj]]; try done.
    + by apply Hq in Hj.
    + subst p. by apply Hq in Hi.
    + by eapply H2.
Qed.

Lemma chan_ok_delete {A} (m : gmap Z nat) (h : gmap nat (chan A)) id : chan_ok m h → chan_ok (delete id m) h.
Proof.
  intros [H1 H2]. split.
  - intros i p [_ Hi]%lookup_delete_Some. by eapply H1.
  - intros i j p [_ Hi]%lookup_delete_Some [_ Hj]%lookup_delete_Some. by eapply H2.
Qed.

Lemma chan_ok_close {A} (m : gmap Z nat) (h : gmap nat (chan A)) id p :
  chan_ok m h → m !! id = Some p → ∃ h', close_chan h p = Ret h' ∧ chan_ok (delete id m) h'.
Proof.
  intros Hok Hm. pose proof Hok as [H1 H2]. destruct (H1 id p Hm) as (ch & Hch & Ho).
  eexists. split; [unfold close_chan; by rewrite Hch, Ho |]. split.
  - intros i q [Hne Hi]%lookup_delete_Some. destruct (H1 i q Hi) as (ch' & Hc' & Ho'). exists ch'.
    rewrite lookup_insert_ne; [done |]. intros ->. apply Hne. by eapply H2.
  - by apply (chan_ok_delete m h id).
Qed.

Lemma table_inv_ok c :
  table_inv c ↔ 0 ≤ streamCounter c < 65536 ∧ chan_ok (streamChans c) (cl_flat c) ∧ chan_ok (streamFramesChans c) (cl_seq c)
    ∧ (size (streamChans c) ≤ maxClientStreams)%nat ∧ (size (streamFramesChans c) ≤ maxClientStreams)%nat.
Proof.
  split.
  - intros [Hc ? ? ? ? ? ?]. split_and!; try done; apply Hc.
  - intros (? & [? ?] & [? ?] & ? & ?). by split.
Qed.

Lemma size_delete_le {A} (m : gmap Z A) id : (size (delete id m) ≤ size m)%nat.
Proof. rewrite map_size_delete. destruct (m !! id); cbn; lia. Qed.
Lemma size_insert_le {A} (m : gmap Z A) id x n : (size m < n → size (<[id := x]> m) ≤ n)%nat.
Proof. rewrite map_size_insert. destruct (m !! id); cbn; lia. Qed.

Lemma add_flow_tables c id :
  streamCounter (add_flow c id) = streamCounter c ∧ streamChans (add_flow c id) = streamChans c
  ∧ streamFramesChans (add_flow c id) = streamFramesChans c ∧ cl_flat (add_flow c id) = cl_flat c ∧ cl_seq (add_flow c id) = cl_seq c.
Proof. unfold add_flow. by destruct (flowControlEnabled c). Qed.

(** Closing a stream never closes a channel twice. *)
Lemma handleStreamClose_ok c id :
  table_inv c → ∃ c', handleStreamClose c id = Ret c' ∧ table_inv c'
    ∧ streamChans c' = delete id (streamChans c) ∧ streamFramesChans c' = delete id (streamFramesChans c).
Proof.
  rewrite table_inv_ok. intros (Hn & H1 & H2 & Hs1 & Hs2). unfold handleStreamClose.
  assert (∃ c1, (match streamChans c !! id with
       | Some p => h ← close_chan (cl_flat c) p; Ret (with_tables c (delete id (streamChans c)) (streamFramesChans c) h (cl_seq c))
       | None => Ret c end) = Ret c1
    ∧ streamCounter c1 = streamCounter c ∧ chan_ok (streamChans c1) (cl_flat c1) ∧ streamChans c1 = delete id (streamChans c)
    ∧ streamFramesChans c1 = streamFramesChans c ∧ cl_seq c1 = cl_seq c) as (c1 & -> & En & Hc1 & Ec1 & Es1 & Eh1).
  { destruct (streamChans c !! id) as [p |] eqn:Ep.
    - destruct (chan_ok_close _ _ _ _ H1 Ep) as (h' & -> & Hok). cbn [mbind outcome_bind]. by eexists.
    - exists c. split_and!; try done. by rewrite delete_id. }
  cbn [mbind outcome_bind]. rewrite Es1, Eh1. pose proof (size_delete_le (streamChans c) id).
  pose proof (size_delete_le (streamFramesChans c) id). destruct (streamFramesChans c !! id) as [p |] eqn:Ep.
  - destruct (chan_ok_close _ _ _ _ H2 Ep) as (h' & -> & Hok). cbn [mbind outcome_bind]. eexists. split; [done |].
    rewrite table_inv_ok. cbn. rewrite En, Ec1 in *. split_and!; try done; lia.
  - eexists. split; [done |]. rewrite table_inv_ok, En, Ec1, Es1, Eh1 in *. rewrite (delete_id (streamFramesChans c)) in * by done.
    split_and!; try done; lia.
Qed.

Lemma NextStreamID_range c : table_inv c → 1 ≤ fst (NextStreamID c) ≤ 65535.
Proof. intros [Hn _ _ _ _ _ _]. unfold NextStreamID. cbn [fst]. destruct (next_id_spec (id_used c) (Z.to_nat 65535) _ Hn) as [H _]. apply H. lia. Qed.

Lemma table_step_inv c o : table_inv c → ∃ c', table_step c o = Ret c' ∧ table_inv c'.
Proof.
  intros Hi. pose proof Hi as (Hn & H1 & H2 & Hs1 & Hs2)%table_inv_ok. destruct o as [| id | id | id | id]; cbn [table_step].
  - eexists. split; [done |]. pose proof (NextStreamID_range c Hi) as Hr. rewrite table_inv_ok. cbn [NextStreamID fst snd] in *.
    cbn. split_and!; try done; lia.
  - eexists. split; [done |]. unfold RegisterStream. destruct (Nat.leb_spec maxClientStreams (size (streamChans c))); [done |].
    rewrite table_inv_ok. destruct (add_flow_tables (with_tables c (<[id := fresh (dom (cl_flat c))]> (streamChans c)) (streamFramesChans c)
                       (<[fresh (dom (cl_flat c)) := mkChan [] false]> (cl_flat c)) (cl_seq c)) id) as (-> & -> & -> & -> & ->).
    cbn -[maxClientStreams]. split_and!; try done; try lia; [by apply chan_ok_register | by apply size_insert_le].
  - eexists. split; [done |]. unfold RegisterStreamSeq.
    destruct (Nat.leb_spec maxClientStreams (size (streamChans c) + size (streamFramesChans c))); [done |].
    rewrite table_inv_ok. destruct (add_flow_tables (with_tables c (streamChans c) (<[id := fresh (dom (cl_seq c))]> (streamFramesChans c)) (cl_flat c)
                       (<[fresh (dom (cl_seq c)) := mkChan [] false]> (cl_seq c))) id) as (-> & -> & -> & -> & ->).
    cbn -[maxClientStreams]. split_and!; try done; try lia; [by apply chan_ok_register | apply size_insert_le; lia].
  - eexists. split; [done |]. rewrite table_inv_ok. cbn -[maxClientStreams]. pose proof (size_delete_le (streamChans c) id).
    pose proof (size_delete_le (streamFramesChans c) id). split_and!; try done; try lia; by apply chan_ok_delete.
  - destruct (handleStreamClose_ok c id Hi) as (c' & ? & ? & _). by exists c'.
Qed.

Lemma table_run_inv ops c : table_inv c → ∃ c', table_run c ops = Ret c' ∧ table_inv c'.
Proof.
  revert c. induction ops as [| o ops IH]; intros c Hi; cbn [table_run]; [by exists c |].
  destruct (table_step_inv c o Hi) as (c1 & -> & Hi1). cbn [mbind outcome_bind]. by apply IH.
Qed.

Lemma fresh_id_unused c : table_inv c → id_used c (fst (NextStreamID c)) = false.
Proof.
  intros [Hn _ _ _ _ Hs1 Hs2]. unfold NextStreamID. cbn [fst]. set (n := next_id _ _ _).
  destruct (id_used c n) eqn:Eu; [| done]. exfalso.
  destruct (next_id_spec (id_used c) (Z.to_nat 65535) _ Hn) as [_ Hall]. specialize (Hall Eu).
  assert (list_to_set (seqZ 1 65535) ⊆ dom (streamChans c) ∪ dom (streamFramesChans c)) as Hsub.
  { intros m Hm. apply elem_of_list_to_set, elem_of_seqZ in Hm.
    specialize (Hall ((m - 1 - streamCounter c) mod 65535 + 1)). cbn in Hall.
    replace (streamCounter c + ((m - 1 - streamCounter c) mod 65535 + 1) - 1)
      with (streamCounter c + (m - 1 - streamCounter c) mod 65535) in Hall by lia.
    rewrite Zplus_mod_idemp_r in Hall. replace (streamCounter c + (m - 1 - streamCounter c)) with (m - 1) in Hall by lia.
    rewrite (Z.mod_small (m - 1)) in Hall by lia. replace (m - 1 + 1) with m in Hall by lia.
    pose proof (Z.mod_pos_bound (m - 1 - streamCounter c) 65535 ltac:(lia)).
    specialize (Hall ltac:(rewrite Z2Nat.id; lia)). unfold id_used in Hall. apply orb_true_iff in Hall as [H'%bool_decide_eq_true | H'%bool_decide_eq_true];
      apply elem_of_union; rewrite !elem_of_dom; [by left | by right]. }
  apply subseteq_size in Hsub. rewrite size_list_to_set in Hsub by apply NoDup_seqZ. rewrite length_seqZ in Hsub.
  pose proof (size_union_alt (dom (streamChans c)) (dom (streamFramesChans c))) as Hu.
  assert (size (dom (streamFramesChans c) ∖ dom (streamChans c)) ≤ size (dom (streamFramesChans c)))%nat
    by (apply subseteq_size; by apply subseteq_difference_l).
  rewrite !size_dom in *. unfold maxClientStreams in *. clear - Hs1 Hs2 Hsub Hu H. lia.
Qed.

(** C26: stream ids.  Whatever sequence of allocations, registrations,
    unregistrations and closes came before, none of them panics (no channel is
    closed twice), [NextStreamID] returns an id between 1 and 65535 that no
    registered stream has, and neither table exceeds its limit. *)
Theorem stream_ids_fresh ops :
  ∃ c, table_run new_client ops = Ret c
    ∧ 1 ≤ fst (NextStreamID c) ≤ 65535 ∧ HasStream c (fst (NextStreamID c)) = false
    ∧ (size (streamChans c) ≤ maxClientStreams)%nat ∧ (size (streamFramesChans c) ≤ maxClientStreams)%nat.
Proof.
  destruct (table_run_inv ops new_client new_client_inv) as (c & E & Hi). exists c.
  split_and!; [done | by apply NextStreamID_range .. | by apply fresh_id_unused | apply Hi | apply Hi].
Qed.

(** ** Delivery *)

#[local] Instance reasmStatus_eq_dec : EqDecision reasmStatus.
Proof. solve_decision. Defined.

Section delivery.
(** The server has numbered the frames 1 to [top p - 1] of the stream of channel
    [p], and [src p i] are the bytes of number [i]. *)
Context (src : nat → Z → bytes) (top : nat → Z) (Htop : ∀ p, top p ≤ 2 ^ 64 - 1).

Definition good_frame (p : nat) (f : StreamFrame) : Prop :=
  f.1 = 0 ∨ (1 ≤ f.1 < top p ∧ f.2 = src p f.1).

(** Every frame a slot reader takes up for a channel is one of its stream. *)
Fixpoint genuine (w : world) (ops : list client_op) : Prop :=
  match ops with
  | [] => True
  | o :: ops' =>
    match o with
    | CTake g id f => ∀ p, streamFramesChans (w_client w) !! id = Some p → good_frame p f
    | _ => True
    end
    ∧ match client_step w o with Ret w1 => genuine w1 ops' | _ => True end
  end.

(** The application has the first [n] frames; what is acknowledged is among them. *)
Definition delivered (p : nat) (r : reader) (n : nat) : Prop :=
  rd_written r = run_from (src p) 1 n ∧ Forall (λ a, a ≤ Z.of_nat n) (rd_acks r).

Definition reader_ok (p : nat) (r : reader) : Prop :=
  ∃ got n, reasm_state (src p) got (rd_reasm r) ∧ (∀ i, i ∈ got → i < top p) ∧ delivered p r n
    ∧ Z.of_nat n < expectedSeq (rd_reasm r) ∧ (rd_live r = true → expectedSeq (rd_reasm r) = 1 + Z.of_nat n).

Record world_inv (w : world) : Prop := {
  wo_chan p ch : cl_seq (w_client w) !! p = Some ch → Forall (good_frame p) (ch_items ch);
  wo_table id p : streamFramesChans (w_client w) !! id = Some p → is_Some (cl_seq (w_client w) !! p);
  wo_routing g p id f : w_routing w !! g = Some (p, id, f) → good_frame p f ∧ is_Some (cl_seq (w_client w) !! p);
  wo_reader p r : w_readers w !! p = Some r → reader_ok p r ∧ is_Some (cl_seq (w_client w) !! p);
}.

Lemma stop_ok p r : reader_ok p r → reader_ok p (stop_reader r).
Proof. intros (got & n & H1 & H2 & H3 & H4 & _). exists got, n. split_and!; try done. Qed.

Lemma new_reader_ok p id m : reader_ok p (newReader id m).
Proof.
  exists ∅, 0%nat. split_and!; try done. apply reasm_state_new.
Qed.

(** The writes of a run that starts at frame [n + 1]. *)
Lemma write_run_spec p k : ∀ c r n room ok c' r',
  write_run c r (run_from (src p) (1 + Z.of_nat n) k) room = (ok, c', r') → delivered p r n →
  (∃ j, (j ≤ k)%nat ∧ delivered p r' (n + j) ∧ (ok = true → j = k))
  ∧ rd_reasm r' = rd_reasm r ∧ rd_live r' = rd_live r ∧ cl_seq c' = cl_seq c ∧ streamFramesChans c' = streamFramesChans c.
Proof.
  induction k as [| k IH]; intros c r n room ok c' r' E Hd; cbn [run_from write_run] in E.
  { injection E as <- <- <-. split; [| done]. exists 0%nat. rewrite Nat.add_0_r. split_and!; [lia | done | done]. }
  assert (delivered p (wrote r (src p (1 + Z.of_nat n))) (S n)) as Hd1.
  { destruct Hd as [H1 H2]. split; cbn [wrote rd_written rd_acks].
    - replace (S n) with (n + 1)%nat by lia. rewrite H1, run_from_app. done.
    - eapply Forall_impl; [exact H2 |]. cbn. lia. }
  destruct (decide (room = Some 0%nat)) as [-> | Hroom].
  { injection E as <- <- <-. split; [| done]. exists 0%nat. rewrite Nat.add_0_r. split_and!; [lia | done | done]. }
  replace (1 + Z.of_nat n + 1) with (1 + Z.of_nat (S n)) in E by lia.
  assert (write_run (client_consumed c (rd_stream r) (len (src p (1 + Z.of_nat n)))) (wrote r (src p (1 + Z.of_nat n)))
            (run_from (src p) (1 + Z.of_nat (S n)) k) (pred <$> room) = (ok, c', r')) as E'.
  { by destruct room as [[|] |]. }
  destruct (IH _ _ _ _ _ _ _ E' Hd1) as ((j & Hj & Hdj & Hok) & Hr & Hl & Hs & Hf).
  split; [exists (S j); replace (n + S j)%nat with (S n + j)%nat by lia; split_and!; [lia | done | by intros ->%Hok] |].
  unfold client_consumed in Hs, Hf. destruct (streamFlow c !! _); done.
Qed.

Lemma reader_frame_ok c r p f room now jit c' r' :
  reader_ok p r → rd_live r = true → good_frame p f → reader_frame c r f room now jit = (c', r') →
  reader_ok p r' ∧ cl_seq c' = cl_seq c ∧ streamFramesChans c' = streamFramesChans c.
Proof.
  intros Hok Hl Hf E. unfold reader_frame in E. destruct (Z.eqb_spec (f.1) 0) as [H0 | H0].
  - unfold onControl in E. assert (reader_ok p (confirm r)) as Hc by exact Hok.
    destruct (parseConnectOKProof _); [by injection E as <- <- |]. destruct (connectConfirmed r); [by injection E as <- <- |].
    destruct (bool_decide _); [by injection E as <- <- |].
    destruct (bool_decide _); injection E as <- <-; [| done]. split; [by apply stop_ok | done].
  - destruct Hf as [? | [Hseq Hdat]]; [done |]. destruct Hok as (got & n & Hst & Hmax & Hd & Hlt & Hlive).
    specialize (Hlive Hl). rewrite Hdat in E. destruct (push (rd_reasm r) f.1 (src p f.1)) as [[out st] m] eqn:Ep.
    pose proof (Htop p) as Ht64.
    destruct (push_spec (src p) got (rd_reasm r) f.1 out st m Hst ltac:(lia) ltac:(intros i Hi; specialize (Hmax i Hi); lia) Ep) as (Hst' & (k & -> & Hexp) & _ & _ & _).
    assert (∀ i, i ∈ {[f.1]} ∪ got → i < top p) as Hmax' by set_solver by lia.
    assert (reader_ok p (stop_reader (set_reasm r m))) as Hstop.
    { exists ({[f.1]} ∪ got), n. split_and!; try done; cbn; lia. }
    destruct (decide (st = reasmOverflow)) as [-> | Hov]; [by injection E as <- <- |].
    destruct (write_run c (set_reasm r m) (run_from (src p) (expectedSeq (rd_reasm r)) k) room) as [[ok c2] r2] eqn:Ew.
    rewrite Hlive in Ew. destruct (write_run_spec p k _ _ n _ _ _ _ Ew Hd) as ((j & Hj & Hdj & Hjk) & Hrm & Hrl & Hs & Ht).
    assert (∀ r3, rd_reasm r3 = m → delivered p r3 (n + j) → (rd_live r3 = true → j = k) → reader_ok p r3) as Hmk.
    { intros r3 <- Hd3 Hl3. exists ({[f.1]} ∪ got), (n + j)%nat. split_and!; try done; [lia |]. intros ->%Hl3. lia. }
    assert (match ok with false => (c2, stop_reader r2) | true =>
        match run_from (src p) (1 + Z.of_nat n) k with [] => (c2, r2) | _ =>
          let '(send, c3) := sendStreamAckThrottled c2 (rd_stream r2) false now jit in
          (c3, if send then acked r2 (expectedSeq m - 1) else r2) end end = (c', r')) as E'.
    { rewrite Hlive in E. destruct st; try done; by destruct ok. }
    clear E. destruct ok.
    + specialize (Hjk eq_refl). subst j. assert (reader_ok p r2) as Hok2 by (by apply Hmk).
      destruct (run_from _ _ k) as [| d ds]; [by injection E' as <- <- |]. unfold sendStreamAckThrottled in E'.
      destruct (match streamAckLast c2 !! _ with Some _ => _ | None => _ end); injection E' as <- <-; [done |].
      split; [| done]. apply Hmk; [done | | done]. destruct Hdj as [H1 H2]. split; [done |]. cbn. apply Forall_app. split; [done |].
      constructor; [lia | done].
    + injection E' as <- <-. split; [| done]. by apply Hmk.
Qed.

Lemma Forall_tail {A} (P : A → Prop) x l : Forall P (x :: l) → P x ∧ Forall P l.
Proof. apply Forall_cons. Qed.

(** Replacing the content of an existing channel. *)
Lemma put_seq_inv w c' p ch ch' readers' routing' :
  world_inv w → cl_seq (w_client w) !! p = Some ch → Forall (good_frame p) (ch_items ch') →
  cl_seq c' = <[p := ch']> (cl_seq (w_client w)) → streamFramesChans c' = streamFramesChans (w_client w) →
  (∀ g q id f, routing' !! g = Some (q, id, f) → w_routing w !! g = Some (q, id, f)) →
  (∀ q r, readers' !! q = Some r → reader_ok q r ∧ (w_readers w !! q = Some r ∨ q = p)) →
  world_inv (mkWorld c' readers' routing').
Proof.
  intros [H1 H2 H3 H4] Hp Hg Hs Ht Hr Hd.
  assert (∀ q, is_Some (cl_seq (w_client w) !! q) → is_Some (cl_seq c' !! q)) as Hdom.
  { intros q Hq. rewrite Hs. apply lookup_insert_is_Some. destruct (decide (p = q)); [by left | by right]. }
  split; cbn.
  - intros q c. rewrite Hs, lookup_insert_Some. intros [[<- <-] | [_ Hq]]; [done | by eapply H1].
  - intros id q. rewrite Ht. intros Hq. by eapply Hdom, H2.
  - intros g q id f Hgq. apply Hr in Hgq. destruct (H3 _ _ _ _ Hgq) as [? ?]. split; [done | by apply Hdom].
  - intros q r Hq. destruct (Hd q r Hq) as [Hok [Ho | ->]]; (split; [done |]); apply Hdom; [by destruct (H4 q r Ho) | by exists ch].
Qed.

Lemma open_inv w id m p c' :
  world_inv w → RegisterStreamSeq (w_client w) id = Some (p, c') →
  world_inv (mkWorld c' (<[p := newReader id m]> (w_readers w)) (w_routing w)).
Proof.
  intros [H1 H2 H3 H4] E. unfold RegisterStreamSeq in E. destruct (_ <=? _)%nat; [done |]. injection E as <- <-.
  pose proof (fresh_absent (cl_seq (w_client w))) as Hf. set (p := fresh (dom (cl_seq (w_client w)))) in *.
  set (c1 := with_tables _ _ _ _ _). destruct (add_flow_tables c1 id) as (_ & _ & Et & _ & Es).
  assert (∀ q, is_Some (cl_seq (w_client w) !! q) → is_Some (cl_seq c1 !! q)) as Hdom.
  { intros q Hq. cbn. apply lookup_insert_is_Some. destruct (decide (p = q)); [by left | by right]. }
  split; cbn; rewrite ?Et, ?Es.
  - intros q ch. cbn. rewrite lookup_insert_Some. intros [[<- <-] | [_ Hq]]; [constructor | by eapply H1].
  - intros i q. cbn. rewrite lookup_insert_Some. intros [[_ <-] | [_ Hq]]; [rewrite lookup_insert_eq; by eexists | by eapply Hdom, H2].
  - intros g q i f Hg. destruct (H3 _ _ _ _ Hg) as [? ?]. split; [done | by apply Hdom].
  - intros q r. rewrite lookup_insert_Some. intros [[<- <-] | [Hne Hq]].
    + split; [apply new_reader_ok |]. cbn. rewrite lookup_insert_eq. by eexists.
    + destruct (H4 q r Hq) as [? ?]. split; [done | by apply Hdom].
Qed.

(** Operations that leave the frame channels' content alone. *)
Lemma tables_inv w c' readers' :
  world_inv w → (∀ p ch', cl_seq c' !! p = Some ch' → ∃ ch, cl_seq (w_client w) !! p = Some ch ∧ ch_items ch = ch_items ch') →
  (∀ p, is_Some (cl_seq (w_client w) !! p) → is_Some (cl_seq c' !! p)) →
  (∀ id p, streamFramesChans c' !! id = Some p → streamFramesChans (w_client w) !! id = Some p) →
  (∀ p r, readers' !! p = Some r → ∃ r0, w_readers w !! p = Some r0 ∧ (reader_ok p r0 → reader_ok p r)) →
  world_inv (mkWorld c' readers' (w_routing w)).
Proof.
  intros [H1 H2 H3 H4] Hc Hdom Ht Hr. split; cbn.
  - intros p ch Hp. destruct (Hc p ch Hp) as (ch0 & H0 & <-). by eapply H1.
  - intros id p Hp. by eapply Hdom, H2, Ht.
  - intros g p id f Hg. destruct (H3 _ _ _ _ Hg). split; [done | by apply Hdom].
  - intros p r Hp. destruct (Hr p r Hp) as (r0 & H0 & Hok). destruct (H4 p r0 H0). split; [by apply Hok | by apply Hdom].
Qed.

Lemma close_chan_items {A} (h h' : gmap nat (chan A)) p :
  close_chan h p = Ret h' →
  (∀ q ch', h' !! q = Some ch' → ∃ ch, h !! q = Some ch ∧ ch_items ch = ch_items ch') ∧ (∀ q, is_Some (h !! q) → is_Some (h' !! q)).
Proof.
  unfold close_chan. destruct (h !! p) as [ch |] eqn:Ep; [| done]. destruct (ch_closed ch); [done |]. intros [= <-]. split.
  - intros q ch'. rewrite lookup_insert_Some. intros [[<- <-] | [_ ?]]; eauto.
  - intros q Hq. apply lookup_insert_is_Some. destruct (decide (p = q)); [by left | by right].
Qed.

Lemma close_inv w id c' : world_inv w → handleStreamClose (w_client w) id = Ret c' → world_inv (mkWorld c' (w_readers w) (w_routing w)).
Proof.
  intros Hi E. unfold handleStreamClose in E. set (c := w_client w) in *.
  assert (∃ c1, cl_seq c1 = cl_seq c ∧ streamFramesChans c1 = streamFramesChans c
    ∧ match streamFramesChans c1 !! id with
      | Some p => h ← close_chan (cl_seq c1) p; Ret (with_tables c1 (streamChans c1) (delete id (streamFramesChans c1)) (cl_flat c1) h)
      | None => Ret c1 end = Ret c') as (c1 & Es & Et & E1).
  { destruct (streamChans c !! id); [| by exists c]. destruct (close_chan (cl_flat c) _) as [h | |]; try done.
    cbn [mbind outcome_bind] in E. by exists (with_tables c (delete id (streamChans c)) (streamFramesChans c) h (cl_seq c)). }
  clear E. destruct (streamFramesChans c1 !! id) as [p |].
  - destruct (close_chan (cl_seq c1) p) as [h | |] eqn:Ec; try done. injection E1 as <-. rewrite Es in Ec.
    apply close_chan_items in Ec as [H1 H2]. apply (tables_inv w); try done; cbn; [| by eauto].
    intros i q. rewrite Et. by intros [_ ?]%lookup_delete_Some.
  - injection E1 as <-. apply (tables_inv w); try done; rewrite ?Es, ?Et; eauto.
Qed.

Lemma client_step_inv w o w' :
  world_inv w → match o with CTake _ id f => ∀ p, streamFramesChans (w_client w) !! id = Some p → good_frame p f | _ => True end →
  client_step w o = Ret w' → world_inv w'.
Proof.
  intros Hi Hg E. pose proof Hi as [H1 H2 H3 H4]. destruct o as [id m | g id f | g | p room now jit | p | id | id | win]; cbn [client_step] in E.
  - destruct (RegisterStreamSeq _ _) as [[p c'] |] eqn:Er; injection E as <-; [by eapply open_inv | done].
  - destruct (streamFramesChans _ !! id) as [p |] eqn:Ep; injection E as <-; [| done]. split; cbn; try done.
    intros g' q i f'. rewrite lookup_insert_Some. intros [[_ [= <- <- <-]] | [_ ?]]; [split; [by apply Hg | by eapply H2] | by eapply H3].
  - destruct (w_routing w !! g) as [[[p id] f] |] eqn:Eg; [| by injection E as <-]. destruct (H3 _ _ _ _ Eg) as [Hgood _].
    unfold route_seq in E. destruct (cl_seq (w_client w) !! p) as [ch |] eqn:Ep; [| done]. unfold try_send in E.
    destruct (ch_closed ch); [done |].
    assert (∀ g0 q i f0, delete g (w_routing w) !! g0 = Some (q, i, f0) → w_routing w !! g0 = Some (q, i, f0)) as Hdel
      by (by intros ? ? ? ? [_ ?]%lookup_delete_Some).
    assert (∀ q r, w_readers w !! q = Some r → reader_ok q r ∧ (w_readers w !! q = Some r ∨ q = p)) as Hrd
      by (intros q r Hq; destruct (H4 q r Hq); eauto).
    destruct (_ <? _)%nat; injection E as <-.
    + eapply (put_seq_inv w _ p ch); try done. cbn. apply Forall_app. split; [by eapply H1 | by constructor].
    + eapply (put_seq_inv w _ p ch ch); try done; [by eapply H1 |]. cbn. by rewrite insert_id.
  - destruct (w_readers w !! p) as [r |] eqn:Er; [| by injection E as <-]. destruct (H4 p r Er) as [Hok _].
    destruct (cl_seq (w_client w) !! p) as [ch |] eqn:Ep; [| by injection E as <-].
    destruct (rd_live r) eqn:El; cbn [negb] in E; [| by injection E as <-]. pose proof (H1 p ch Ep) as Hch.
    destruct (ch_items ch) as [| f rest] eqn:Eit.
    + destruct (ch_closed ch); injection E as <-; [| done]. apply (tables_inv w); try done; [by eauto |].
      intros q r'. rewrite lookup_insert_Some. intros [[<- <-] | [_ ?]]; [exists r; split; [done | apply stop_ok] | by eauto].
    + apply Forall_tail in Hch as [Hf Hrest]. destruct (reader_frame _ r f room now jit) as [c' r'] eqn:Ef. injection E as <-.
      destruct (reader_frame_ok _ r p f room now jit c' r' Hok El Hf Ef) as (Hok' & Hs & Ht).
      eapply (put_seq_inv w _ p ch (mkChan rest (ch_closed ch))); try done.
      intros q r1. rewrite lookup_insert_Some. intros [[<- <-] | [_ Hq]]; [by eauto | destruct (H4 q r1 Hq); by eauto].
  - injection E as <-. apply (tables_inv w); try done; [by eauto |]. intros q r. rewrite lookup_alter_Some.
    intros [(<- & r0 & H0 & ->) | [_ ?]]; [exists r0; split; [done | apply stop_ok] | by eauto].
  - injection E as <-. apply (tables_inv w); try done; cbn; [by eauto | | by eauto]. by intros i q [_ ?]%lookup_delete_Some.
  - destruct (handleStreamClose _ id) as [c' | |] eqn:Ec; try done. injection E as <-. by eapply close_inv.
  - injection E as <-. unfold EnableFlowControl. destruct (flowControlEnabled _); by split.
Qed.

Lemma client_run_inv ops w w' : world_inv w → genuine w ops → client_run w ops = Ret w' → world_inv w'.
Proof.
  revert w. induction ops as [| o ops IH]; intros w Hi Hg E; cbn [client_run] in E; [by injection E as <- |].
  destruct (client_step w o) as [w1 | |] eqn:Es; try done. cbn [genuine] in Hg. destruct Hg as [Hg1 Hg2]. rewrite Es in Hg2.
  eapply IH; [| exact Hg2 | exact E]. by eapply client_step_inv.
Qed.

Lemma world0_inv : world_inv world0.
Proof. split; cbn; intros *; by rewrite lookup_empty. Qed.

Lemma reader_delivered w p r :
  w_readers w !! p = Some r → world_inv w →
  ∃ n, rd_written r = run_from (src p) 1 n ∧ ((0 < n)%nat → Z.of_nat n < top p) ∧ (∀ a, a ∈ rd_acks r → a ≤ Z.of_nat n)
    ∧ (rd_live r = true → expectedSeq (rd_reasm r) = 1 + Z.of_nat n).
Proof.
  intros Hr Hi. destruct (wo_reader w Hi p r Hr) as [(got & n & [Hri _] & Hm & [H1 H2] & Hn & H3) _].
  exists n. split_and!; [done | | by apply Forall_forall | done]. intros Hpos. apply Hm, (ri_below _ _ _ Hri). lia.
Qed.

(** In-order delivery to the application.  In every interleaving of slot
    readers (which may be overtaken between lookup and send), downlink
    goroutines, full channels, failing writes, timeouts, closes and reuse of
    stream ids, what a stream's goroutine wrote to its application is the
    frames 1, 2, ..., n of that stream for some n, each once and in order:
    lost frames end the stream early and never leave a hole.  No frame is
    acknowledged to the server that the application has not been given. *)
Theorem client_downlink_prefix ops w p r :
  genuine world0 ops → client_run world0 ops = Ret w → w_readers w !! p = Some r →
  ∃ n, rd_written r = run_from (src p) 1 n ∧ ((0 < n)%nat → Z.of_nat n < top p) ∧ (∀ a, a ∈ rd_acks r → a ≤ Z.of_nat n)
    ∧ (rd_live r = true → expectedSeq (rd_reasm r) = 1 + Z.of_nat n).
Proof. intros Hg E Hr. eapply reader_delivered, client_run_inv, E; [exact Hr | apply world0_inv | exact Hg]. Qed.

End delivery.

(** ** The server's frames, as the client reads them *)

(** A numbered frame starts like a control message only with a number above
    [2 ^ 62]. *)
Lemma numbered_not_control down data : 0 ≤ down < 2 ^ 62 → isStreamControlMsg (be_bytes 8 down ++ data) = false.
Proof.
  intros Hd. assert (∀ rest, be_bytes 8 down ++ data ≠ bytes_of_string "CONNECT_" ++ rest) as Hne.
  { intros rest H. apply (f_equal (take 8)) in H.
    rewrite take_app_le in H by (by rewrite length_be_bytes). rewrite take_ge in H by (by rewrite length_be_bytes).
    apply (f_equal be_value) in H. rewrite be_value_bytes_small in H by (cbn; lia). vm_compute in H. subst down. vm_compute in Hd. by destruct Hd. }
  unfold isStreamControlMsg. rewrite (bool_decide_eq_false_2 (_ = connectOKMarker)), (bool_decide_eq_false_2 (_ = connectFailMarker)).
  - unfold parseConnectOKProof. destruct (negb _); [done |]. rewrite bool_decide_eq_false_2; [done |]. intros H.
    apply (Hne ([79; 75] ++ drop (length connectOKMarker) (be_bytes 8 down ++ data))).
    rewrite app_assoc. change (bytes_of_string "CONNECT_" ++ [79; 75]) with connectOKMarker.
    rewrite <- (take_drop (length connectOKMarker) (be_bytes 8 down ++ data)) at 1. by rewrite H.
  - intros H. by apply (Hne (bytes_of_string "FAIL")).
  - intros H. by apply (Hne (bytes_of_string "OK")).
Qed.

Lemma proof_parsed proof : len proof = 32 → parseConnectOKProof (connectOKMarker ++ proof) = Some proof.
Proof.
  intros Hp. unfold parseConnectOKProof. rewrite len_app, Hp, Z.eqb_refl. cbn [negb].
  rewrite take_app_length, drop_app_length. by rewrite bool_decide_eq_true_2.
Qed.

Lemma slice_past_id sid payload : slice (be_bytes 2 sid ++ payload) 2 (len (be_bytes 2 sid ++ payload)) = Ret payload.
Proof. apply slice_tail; rewrite ?len_app, ?len_be_bytes; lia. Qed.

(** What the server sends on a stream, the client routes.  On a slot with
    migration, a numbered data frame of the server's relay goes to its stream
    with its number and its bytes, and is never mistaken for a control message;
    the CONNECT_OK that carries a stream proof goes to the stream as control,
    with the proof the client stores.  On a plain slot the bytes go to the
    stream as they are. *)
Theorem downlink_frames_routed pools sess seq sid down data proof :
  pools_wf pools → 10 + len data ≤ 65536 → 0 ≤ sid < 2 ^ 16 → 1 ≤ down < 2 ^ 62 → len proof = 32 →
  (∃ c back pools', NewStreamDataChunkSeq pools sess seq sid down data = Ret (c, back, pools')
     ∧ routeDownlinkFlagData true sid (Payload c) = Ret (DSeq sid down data))
  ∧ (∃ c back pools', NewStreamDataChunk pools sess seq sid (connectOKMarker ++ proof) = Ret (c, back, pools')
     ∧ routeDownlinkFlagData true sid (Payload c) = Ret (DSeq sid 0 (connectOKMarker ++ proof))
     ∧ parseConnectOKProof (connectOKMarker ++ proof) = Some proof)
  ∧ (∃ c back pools', NewStreamDataChunk pools sess seq sid data = Ret (c, back, pools')
     ∧ routeDownlinkFlagData false sid (Payload c) = Ret (DFlat sid data)).
Proof.
  intros Hw Hl Hs Hd Hp. split_and!.
  - destruct (NewStreamDataChunkSeq_eq pools sess seq sid down data Hw Hl) as (back & pools' & -> & _).
    do 3 eexists. split; [done |]. cbn [Payload]. unfold routeDownlinkFlagData. rewrite slice_past_id. cbn [mbind outcome_bind negb].
    rewrite numbered_not_control by lia. rewrite stream_seq_roundtrip by lia. done.
  - destruct (NewStreamDataChunk_eq pools sess seq sid (connectOKMarker ++ proof) Hw) as (back & pools' & -> & _).
    { rewrite len_app, Hp. change (len connectOKMarker) with 10. lia. }
    do 3 eexists. split; [done |]. cbn [Payload]. unfold routeDownlinkFlagData. rewrite slice_past_id. cbn [mbind outcome_bind negb].
    assert (isStreamControlMsg (connectOKMarker ++ proof) = true) as ->; [| split; [done | by apply proof_parsed]].
    unfold isStreamControlMsg. rewrite proof_parsed by done. by destruct (_ || _).
  - destruct (NewStreamDataChunk_eq pools sess seq sid data Hw ltac:(lia)) as (back & pools' & -> & _).
    do 3 eexists. split; [done |]. cbn [Payload]. unfold routeDownlinkFlagData. by rewrite slice_past_id.
Qed.

(** ** Witnesses *)

Section stream_witnesses.

Definition demo_src (p : nat) (i : Z) : bytes := [10 * i; 10 * i + 1].

(** Two frames arrive swapped and one twice; control comes first. *)
Definition demo_client_ops : list client_op :=
  [CEnable 65536; COpen 1 1000; CTake 0 1 (0, connectOKMarker ++ replicate 32 9); CSend 0;
   CTake 0 1 (2, demo_src 0 2); CTake 1 1 (1, demo_src 0 1); CSend 0; CSend 1; CTake 0 1 (2, demo_src 0 2); CSend 0;
   CRead 0 None 0 0; CRead 0 None 1 0; CRead 0 None 2 0; CRead 0 None 3 0].
Definition demo_world : world := match client_run world0 demo_client_ops with Ret w => w | _ => world0 end.
Definition demo_reader : reader := default (newReader 0 0) (w_readers demo_world !! 0%nat).

Lemma demo_genuine : genuine demo_src (λ _, 3) world0 demo_client_ops.
Proof.
  vm_compute. repeat match goal with |- _ ∧ _ => split | |- True => exact I | |- ∀ p, _ → _ ∨ _ => intros p [= <-] end;
    first [left; reflexivity | right; split; [split; [by intros ? | reflexivity] | reflexivity]].
Qed.

Lemma client_downlink_prefix_witness :
  rd_written demo_reader = [[10; 11]; [20; 21]] ∧ StreamProof (w_client demo_world) 1 = Some (replicate 32 9)
  ∧ ∃ n, rd_written demo_reader = run_from (demo_src 0) 1 n ∧ ((0 < n)%nat → Z.of_nat n < 3) ∧ (∀ a, a ∈ rd_acks demo_reader → a ≤ Z.of_nat n)
    ∧ (rd_live demo_reader = true → expectedSeq (rd_reasm demo_reader) = 1 + Z.of_nat n).
Proof.
  split; [vm_compute; reflexivity |]. split; [vm_compute; reflexivity |].
  apply (client_downlink_prefix demo_src (λ _, 3) ltac:(done) demo_client_ops demo_world 0%nat demo_reader).
  - apply demo_genuine.
  - vm_compute. reflexivity.
  - vm_compute. reflexivity.
Defined.

Lemma downlink_frames_routed_witness :
  (∃ c back pools', NewStreamDataChunkSeq empty_pools 1 2 7 1 [5; 6] = Ret (c, back, pools')
     ∧ routeDownlinkFlagData true 7 (Payload c) = Ret (DSeq 7 1 [5; 6]))
  ∧ (∃ c back pools', NewStreamDataChunk empty_pools 1 2 7 (connectOKMarker ++ replicate 32 9) = Ret (c, back, pools')
     ∧ routeDownlinkFlagData true 7 (Payload c) = Ret (DSeq 7 0 (connectOKMarker ++ replicate 32 9))
     ∧ parseConnectOKProof (connectOKMarker ++ replicate 32 9) = Some (replicate 32 9))
  ∧ (∃ c back pools', NewStreamDataChunk empty_pools 1 2 7 [5; 6] = Ret (c, back, pools')
     ∧ routeDownlinkFlagData false 7 (Payload c) = Ret (DFlat 7 [5; 6])).
Proof.
  apply (downlink_frames_routed empty_pools 1 2 7 1 [5; 6] (replicate 32 9)); try done; try lia; apply empty_pools_wf.
Defined.

(** ** What the code does beside its comments *)

(** A slot reader that has looked up a channel panics when another one closes
    the stream before it sends; the recovery in [slotReader] then declares the
    whole slot dead, with every other stream on it. *)
Theorem route_races_close :
  client_run world0 [COpen 1 1000; CTake 0 1 (1, [5]); CClose 1; CSend 0] = Panic.
Proof. vm_compute. reflexivity. Qed.

(** On a slot without migration a frame that finds the channel full is dropped
    and the ones after it are delivered: the application's byte stream has a
    hole. *)
Definition fill_flat (n : nat) : outcome Client :=
  match RegisterStream new_client 1 with
  | Some (p, c) => foldl (λ (m : outcome Client) i, c ← m; route_flat c p 1 [Z.of_nat i]) (Ret c) (seq 1 n)
  | None => Panic
  end.
Theorem flat_overflow_makes_hole :
  ∃ c ch, fill_flat 513 = Ret c ∧ cl_flat c !! 0%nat = Some ch ∧ ch_items ch = (λ i, [Z.of_nat i]) <$> seq 1 512
    ∧ ∃ c', route_flat (put_flat c 0 (mkChan (drop 1 (ch_items ch)) false)) 0 1 [514] = Ret c'
      ∧ ch_items <$> cl_flat c' !! 0%nat = Some (((λ i, [Z.of_nat i]) <$> seq 2 511) ++ [[514]]).
Proof. eexists _, _. split; [vm_compute; reflexivity |]. vm_compute. split_and!; try reflexivity. eexists. by split. Qed.

End stream_witnesses.
