(* ===== verification/Relay.v ===== *)
(** * Migratable relays ([server/relay_registry.go], [handleMigrateOrResume]
      and the session-death cleanup of [server/websocket.go])

    A relay owns an egress connection and survives the WebSocket slot it was
    opened on: it is active, orphaned (waiting for a RESUME) or closing.  The
    registry maps (client, stream) to relay objects; credits are shared objects
    too.  Every section the code runs under [perEntryMu], or decides by a
    compare-and-swap of the state, is one operation; the relay loop releases
    the lock between numbering a frame and sending it, so that is two.

    A writer is represented by what [WSAsyncWriter.Enqueue] accepts (FIFO, see
    [AsyncWriter.v]); a closed writer drops the frame, as the ignored error of
    the code does. *)

From S2P Require Import Prelude.
From S2P Require Import Primitives.
From S2P Require Import BufPool.
From S2P Require Import Chunk.
From S2P Require Import Session.
From S2P Require Import Handshake.
From S2P Require Import Reassembler.
From S2P Require Import Credit.
From stdpp Require Import base list gmap strings.

#[local] Open Scope Z_scope.

(** ** Bounded buffers *)

Record pendingDownFrame := mkPending { pf_seq : Z; pf_data : bytes }.

Record boundedBuffer := mkBuf {
  bb_frames : list pendingDownFrame;
  bb_bytes : Z;
  bb_maxByte : Z;
}.

Definition newBoundedBuffer (maxByte : Z) : boundedBuffer := mkBuf [] 0 maxByte.

Definition Push (b : boundedBuffer) (f : pendingDownFrame) : bool * boundedBuffer :=
  if bb_maxByte b <? bb_bytes b + len (pf_data f) then (false, b)
  else (true, mkBuf (bb_frames b ++ [f]) (bb_bytes b + len (pf_data f)) (bb_maxByte b)).

Definition byteLen (b : boundedBuffer) : Z := bb_bytes b.

Definition drainAll (b : boundedBuffer) : list pendingDownFrame * boundedBuffer :=
  (bb_frames b, mkBuf [] 0 (bb_maxByte b)).

Fixpoint evict_loop (ackedSeq : Z) (fs : list pendingDownFrame) : list pendingDownFrame * Z :=
  match fs with
  | [] => ([], 0)
  | f :: fs' =>
    let '(kept, n) := evict_loop ackedSeq fs' in
    if pf_seq f <=? ackedSeq then (kept, n) else (f :: kept, len (pf_data f) + n)
  end.

Definition evictUpTo (b : boundedBuffer) (ackedSeq : Z) : boundedBuffer :=
  let '(kept, n) := evict_loop ackedSeq (bb_frames b) in mkBuf kept n (bb_maxByte b).

Definition tailFrames (b : boundedBuffer) : list pendingDownFrame := bb_frames b.

(** ** Relay entries *)

Inductive rstate := stActive | stOrphaned | stClosing.
#[global] Instance rstate_eq_dec : EqDecision rstate.
Proof. solve_decision. Defined.

(** Pointers to the crypto session and the writer of a slot. *)
Record binding := mkBinding { b_session : nat; b_writer : nat }.
#[global] Instance binding_eq_dec : EqDecision binding.
Proof. solve_decision. Defined.

(** Where the entry's [relayLoop] is: about to wait and read, holding a frame
    it has to send, or returned. *)
Inductive loop_pc :=
| LRead
| LSend (b : binding) (f : pendingDownFrame)
| LExit.

Record relayEntry := mkRelay {
  originClientID : bytes;
  globalStreamID : Z;
  originSessionNonce : bytes;
  tc_open : bool;
  bound : option binding;
  en_state : rstate;
  orphanedAt : Z;
  downSeqCounter : Z;
  downBuffer : boundedBuffer;
  unackedTail : boundedBuffer;
  holdsFD : bool;
  destClosed : bool;
  lastDownlinkNs : Z;
  en_credit : option nat;        (* pointer to the shared [streamCredit] *)
  closeCh_closed : bool;
  en_loop : loop_pc;
  egress : list bytes;           (* ghost: the reads that were given a number *)
}.

Definition set_state (e : relayEntry) (st : rstate) : relayEntry :=
  mkRelay (originClientID e) (globalStreamID e) (originSessionNonce e) (tc_open e) (bound e) st
    (orphanedAt e) (downSeqCounter e) (downBuffer e) (unackedTail e) (holdsFD e) (destClosed e)
    (lastDownlinkNs e) (en_credit e) (closeCh_closed e) (en_loop e) (egress e).

Definition set_bound (e : relayEntry) (b : binding) : relayEntry :=
  mkRelay (originClientID e) (globalStreamID e) (originSessionNonce e) (tc_open e) (Some b) (en_state e)
    (orphanedAt e) (downSeqCounter e) (downBuffer e) (unackedTail e) (holdsFD e) (destClosed e)
    (lastDownlinkNs e) (en_credit e) (closeCh_closed e) (en_loop e) (egress e).

Definition set_orphanedAt (e : relayEntry) (now : Z) : relayEntry :=
  mkRelay (originClientID e) (globalStreamID e) (originSessionNonce e) (tc_open e) (bound e) (en_state e)
    now (downSeqCounter e) (downBuffer e) (unackedTail e) (holdsFD e) (destClosed e)
    (lastDownlinkNs e) (en_credit e) (closeCh_closed e) (en_loop e) (egress e).

Definition set_buffers (e : relayEntry) (db ut : boundedBuffer) : relayEntry :=
  mkRelay (originClientID e) (globalStreamID e) (originSessionNonce e) (tc_open e) (bound e) (en_state e)
    (orphanedAt e) (downSeqCounter e) db ut (holdsFD e) (destClosed e)
    (lastDownlinkNs e) (en_credit e) (closeCh_closed e) (en_loop e) (egress e).

(** A frame has been numbered: the counter moves, and the read is recorded. *)
Definition set_numbered (e : relayEntry) (seq : Z) (db ut : boundedBuffer) (data : bytes) : relayEntry :=
  mkRelay (originClientID e) (globalStreamID e) (originSessionNonce e) (tc_open e) (bound e) (en_state e)
    (orphanedAt e) seq db ut (holdsFD e) (destClosed e)
    (lastDownlinkNs e) (en_credit e) (closeCh_closed e) (en_loop e) (egress e ++ [data]).

Definition set_fd (e : relayEntry) (h : bool) : relayEntry :=
  mkRelay (originClientID e) (globalStreamID e) (originSessionNonce e) (tc_open e) (bound e) (en_state e)
    (orphanedAt e) (downSeqCounter e) (downBuffer e) (unackedTail e) h (destClosed e)
    (lastDownlinkNs e) (en_credit e) (closeCh_closed e) (en_loop e) (egress e).

Definition set_destClosed (e : relayEntry) : relayEntry :=
  mkRelay (originClientID e) (globalStreamID e) (originSessionNonce e) (tc_open e) (bound e) (en_state e)
    (orphanedAt e) (downSeqCounter e) (downBuffer e) (unackedTail e) (holdsFD e) true
    (lastDownlinkNs e) (en_credit e) (closeCh_closed e) (en_loop e) (egress e).

Definition set_loop (e : relayEntry) (pc : loop_pc) : relayEntry :=
  mkRelay (originClientID e) (globalStreamID e) (originSessionNonce e) (tc_open e) (bound e) (en_state e)
    (orphanedAt e) (downSeqCounter e) (downBuffer e) (unackedTail e) (holdsFD e) (destClosed e)
    (lastDownlinkNs e) (en_credit e) (closeCh_closed e) pc (egress e).

Definition set_lastDown (e : relayEntry) (now : Z) : relayEntry :=
  mkRelay (originClientID e) (globalStreamID e) (originSessionNonce e) (tc_open e) (bound e) (en_state e)
    (orphanedAt e) (downSeqCounter e) (downBuffer e) (unackedTail e) (holdsFD e) (destClosed e)
    now (en_credit e) (closeCh_closed e) (en_loop e) (egress e).

(** [closeReader]'s channel and the egress connection. *)
Definition set_closed (e : relayEntry) : relayEntry :=
  mkRelay (originClientID e) (globalStreamID e) (originSessionNonce e) (tc_open e) (bound e) (en_state e)
    (orphanedAt e) (downSeqCounter e) (downBuffer e) (unackedTail e) (holdsFD e) (destClosed e)
    (lastDownlinkNs e) (en_credit e) true (en_loop e) (egress e).
Definition set_tc_closed (e : relayEntry) : relayEntry :=
  mkRelay (originClientID e) (globalStreamID e) (originSessionNonce e) false (bound e) (en_state e)
    (orphanedAt e) (downSeqCounter e) (downBuffer e) (unackedTail e) (holdsFD e) (destClosed e)
    (lastDownlinkNs e) (en_credit e) (closeCh_closed e) (en_loop e) (egress e).

(** ** Sessions and writers the relays send on *)

Record net := mkNet {
  n_sessions : gmap nat Session;
  n_pools : bufPools;
  n_writers : gmap nat (bool * list bytes);          (* open?, frames accepted *)
  n_log : list (nat * binding * pendingDownFrame);   (* ghost: downlink frames accepted, by entry *)
}.

(** [writer.Enqueue]: a closed (or unknown) writer drops the frame. *)
Definition enqueue (n : net) (w : nat) (enc : bytes) : bool * net :=
  match n_writers n !! w with
  | Some (true, sent) =>
    (true, mkNet (n_sessions n) (n_pools n) (<[w := (true, sent ++ [enc])]> (n_writers n)) (n_log n))
  | _ => (false, n)
  end.

Definition log_frame (n : net) (x : nat * binding * pendingDownFrame) : net :=
  mkNet (n_sessions n) (n_pools n) (n_writers n) (n_log n ++ [x]).

Section relay.
Context {HA : AEAD} {HK : KDF}.

(** [b.session.NextSeqNum()], the chunk, [b.session.EncryptChunk(chunk)],
    [PutBuffer], [b.writer.Enqueue]; an encryption error drops the frame.
    [mk] builds the chunk for the session id and number; the backing array is
    what the chunk's payload gives back to the pool. *)
Definition send_chunk (n : net) (b : binding)
    (mk : bufPools → Z → Z → outcome (Chunk * bytes * bufPools)) : outcome (bool * net) :=
  match n_sessions n !! b_session b with
  | None => Panic
  | Some s =>
    let '(seq, s1) := NextSeqNum s in
    '(chunk, backing, pools1) ← mk (n_pools n) (ID s) seq;
    match EncryptChunk pools1 s1 chunk None with
    | Ret (enc, pools2, s2) =>
      Ret (enqueue (mkNet (<[b_session b := s2]> (n_sessions n)) (PutBuffer pools2 backing)
                     (n_writers n) (n_log n)) (b_writer b) enc)
    | Err _ => Ret (false, mkNet (<[b_session b := s1]> (n_sessions n)) (PutBuffer pools1 backing)
                       (n_writers n) (n_log n))
    | Panic => Panic
    end
  end.

(** [enqueueDownFrame]; [p] is the entry, for the log. *)
Definition enqueueDownFrame (n : net) (p : nat) (sid : Z) (b : binding) (migrateEnabled : bool)
    (f : pendingDownFrame) : outcome net :=
  let mk := λ pools id seq,
    if migrateEnabled then NewStreamDataChunkSeq pools id seq sid (pf_seq f) (pf_data f)
    else NewStreamDataChunk pools id seq sid (pf_data f) in
  r ← send_chunk n b mk;
  Ret (if (fst r : bool) then log_frame (snd r) (p, b, f) else snd r).

Fixpoint enqueue_all (n : net) (p : nat) (sid : Z) (b : binding) (migrateEnabled : bool)
    (fs : list pendingDownFrame) : outcome net :=
  match fs with
  | [] => Ret n
  | f :: fs' =>
    n1 ← enqueueDownFrame n p sid b migrateEnabled f;
    enqueue_all n1 p sid b migrateEnabled fs'
  end.

(** A control chunk without a pooled payload. *)
Definition unpooled (c : Z → Z → outcome Chunk) (pools : bufPools) (id seq : Z)
  : outcome (Chunk * bytes * bufPools) :=
  c0 ← c id seq; Ret (c0, Payload c0, pools).

(** ** The registry *)

Record limits := mkLimits {
  maxOrphanedPerClient : Z;
  maxOrphanedTotal : Z;
  orphanFDBudget : Z;
  evictIdleThreshold : Z;
  originDeathTeardown : bool;
}.

Record relays := mkRelays {
  rl_entries : gmap nat relayEntry;
  byClient : gmap bytes (gmap Z nat);
  rl_credits : gmap nat streamCredit;
  rl_limits : limits;
  orphanedFDInUse : Z;
  orphanFDRejected : Z;
  orphanedEvictedLimit : Z;
  rl_net : net;
}.

Definition with_entries (r : relays) (es : gmap nat relayEntry) : relays :=
  mkRelays es (byClient r) (rl_credits r) (rl_limits r) (orphanedFDInUse r) (orphanFDRejected r)
    (orphanedEvictedLimit r) (rl_net r).
Definition with_net (r : relays) (n : net) : relays :=
  mkRelays (rl_entries r) (byClient r) (rl_credits r) (rl_limits r) (orphanedFDInUse r) (orphanFDRejected r)
    (orphanedEvictedLimit r) n.
Definition with_byClient (r : relays) (m : gmap bytes (gmap Z nat)) : relays :=
  mkRelays (rl_entries r) m (rl_credits r) (rl_limits r) (orphanedFDInUse r) (orphanFDRejected r)
    (orphanedEvictedLimit r) (rl_net r).
Definition with_credits (r : relays) (c : gmap nat streamCredit) : relays :=
  mkRelays (rl_entries r) (byClient r) c (rl_limits r) (orphanedFDInUse r) (orphanFDRejected r)
    (orphanedEvictedLimit r) (rl_net r).
Definition with_counters (r : relays) (fd rej ev : Z) : relays :=
  mkRelays (rl_entries r) (byClient r) (rl_credits r) (rl_limits r) fd rej ev (rl_net r).

Definition upd (r : relays) (p : nat) (f : relayEntry → relayEntry) : relays :=
  with_entries r (alter f p (rl_entries r)).

Definition defaultEvictIdleThreshold : Z := 2 * Second.

Definition streams_of (r : relays) (clientID : bytes) : gmap Z nat :=
  match byClient r !! clientID with Some m => m | None => ∅ end.

Definition relay_add (r : relays) (clientID : bytes) (streamID : Z) (p : nat) : relays :=
  with_byClient r (<[clientID := <[streamID := p]> (streams_of r clientID)]> (byClient r)).

Definition relay_find (r : relays) (clientID : bytes) (streamID : Z) : option nat :=
  streams_of r clientID !! streamID.

Definition relay_remove (r : relays) (clientID : bytes) (streamID : Z) : relays :=
  match byClient r !! clientID with
  | None => r
  | Some m =>
    let m' := delete streamID m in
    with_byClient r (if (size m' =? 0)%nat then delete clientID (byClient r)
                     else <[clientID := m']> (byClient r))
  end.

(** The client's entries, in the order the map iteration happens to have. *)
Definition client_list (r : relays) (clientID : bytes) : list nat :=
  (map_to_list (streams_of r clientID)).*2.

Definition bound_to (r : relays) (sess : nat) (p : nat) : bool :=
  match rl_entries r !! p with
  | Some e => match bound e with Some b => bool_decide (b_session b = sess) | None => false end
  | None => false
  end.

Definition entriesForSession (r : relays) (clientID : bytes) (sess : nat) : list nat :=
  filter (λ p, bound_to r sess p = true) (client_list r clientID).

Definition hasBoundEntriesForSession (r : relays) (clientID : bytes) (sess : nat) : bool :=
  existsb (bound_to r sess) (client_list r clientID).

Definition countForClient (r : relays) (clientID : bytes) : Z := Z.of_nat (size (streams_of r clientID)).

Definition totalCount (r : relays) : Z :=
  foldr (λ m acc, Z.of_nat (size m) + acc) 0 (map_to_list (byClient r)).*2.

(** ** Teardown *)

Definition closeReader (r : relays) (p : nat) : relays :=
  match rl_entries r !! p with
  | Some e =>
    if closeCh_closed e then r
    else
      let r1 := upd r p set_closed in
      match en_credit e with
      | Some c => with_credits r1 (alter close c (rl_credits r1))
      | None => r1
      end
  | None => r
  end.

Definition releaseOrphanFD (r : relays) (p : nat) : relays :=
  match rl_entries r !! p with
  | Some e =>
    if holdsFD e
    then with_counters (upd r p (λ e, set_fd e false)) (orphanedFDInUse r - 1)
           (orphanFDRejected r) (orphanedEvictedLimit r)
    else r
  | None => r
  end.

(** What the winner of the state change to closing does: [remove],
    [closeReader], [tc.Close], [releaseOrphanFD]; the broadcast lets the relay
    loop see the state (here it sees it anyway). *)
Definition teardown (r : relays) (p : nat) : relays :=
  match rl_entries r !! p with
  | Some e =>
    let r1 := relay_remove r (originClientID e) (globalStreamID e) in
    let r2 := upd (closeReader r1 p) p set_tc_closed in
    releaseOrphanFD r2 p
  | None => r
  end.

(** [state.CompareAndSwap(from, to)] *)
Definition cas (r : relays) (p : nat) (from to : rstate) : bool * relays :=
  match rl_entries r !! p with
  | Some e => if decide (en_state e = from) then (true, upd r p (λ e, set_state e to)) else (false, r)
  | None => (false, r)
  end.

(** ** Orphan admission *)

(** [consider]: [e] is a better victim than the one found so far. *)
Definition consider (r : relays) (except : option nat) (cutoff : Z) (acc : option (nat * Z)) (p : nat)
  : option (nat * Z) :=
  if bool_decide (except = Some p) then acc else
  match rl_entries r !! p with
  | Some e =>
    if bool_decide (en_state e = stOrphaned) then
      if cutoff <? lastDownlinkNs e then acc
      else match acc with
           | Some (_, oldest) => if lastDownlinkNs e <? oldest then Some (p, lastDownlinkNs e) else acc
           | None => Some (p, lastDownlinkNs e)
           end
    else acc
  | None => acc
  end.

(** The empty scope is all clients. *)
Definition candidates (r : relays) (scope : bytes) : list nat :=
  match scope with
  | [] => concat ((λ m : gmap Z nat, (map_to_list m).*2) <$> (map_to_list (byClient r)).*2)
  | _ => client_list r scope
  end.

Definition pick_victim (r : relays) (scope : bytes) (except : option nat) (now : Z) : option nat :=
  let threshold := if evictIdleThreshold (rl_limits r) <=? 0 then defaultEvictIdleThreshold
                   else evictIdleThreshold (rl_limits r) in
  option_map fst (foldl (consider r except (now - threshold)) None (candidates r scope)).

Definition evictIdleOrphanExcept (r : relays) (scope : bytes) (except : option nat) (now : Z) : relays :=
  match pick_victim r scope except now with
  | None => r
  | Some v =>
    let '(won, r1) := cas r v stOrphaned stClosing in
    if won then
      let r2 := teardown r1 v in
      with_counters r2 (orphanedFDInUse r2) (orphanFDRejected r2) (orphanedEvictedLimit r2 + 1)
    else r1
  end.

Definition evictIdleOrphan (r : relays) (scope : bytes) (now : Z) : relays :=
  evictIdleOrphanExcept r scope None now.

Definition fd_reject (r : relays) : relays :=
  with_counters r (orphanedFDInUse r) (orphanFDRejected r + 1) (orphanedEvictedLimit r).

(** One cap: try an eviction when it is exceeded; [false] when that is not enough. *)
Definition enforce_cap (cap : Z) (count : relays → Z) (evict : relays → relays) (r : relays) : bool * relays :=
  if (0 <? cap) && (cap <? count r) then
    let r1 := evict r in
    if cap <? count r1 then (false, r1) else (true, r1)
  else (true, r).

(** [admitOrphan] up to its charge: budget, per-client cap, global cap. *)
Definition admit_check (r : relays) (clientID : bytes) (p : nat) (now : Z) : bool * relays :=
  let l := rl_limits r in
  if orphanFDBudget l <=? 0 then (false, fd_reject r) else
  if orphanFDBudget l <=? orphanedFDInUse r then (false, fd_reject r) else
  let '(ok1, r1) := enforce_cap (maxOrphanedPerClient l) (λ r, countForClient r clientID)
                      (λ r, evictIdleOrphanExcept r clientID (Some p) now) r in
  if negb ok1 then (false, r1) else
  enforce_cap (maxOrphanedTotal l) totalCount (λ r, evictIdleOrphanExcept r [] (Some p) now) r1.

(** The charge: [orphanedFDInUse.Add(1); holdsFD.Store(true)]. *)
Definition charge (r : relays) (p : nat) : relays :=
  upd (with_counters r (orphanedFDInUse r + 1) (orphanFDRejected r) (orphanedEvictedLimit r))
    p (λ e, set_fd e true).

Definition admitOrphan (r : relays) (clientID : bytes) (p : nat) (now : Z) : bool * relays :=
  let '(ok, r1) := admit_check r clientID p now in
  if ok then (true, charge r1 p) else (false, r1).

Definition toOrphaned (r : relays) (p : nat) (now : Z) : bool * relays :=
  let '(won, r1) := cas r p stActive stOrphaned in
  (won, if won then upd r1 p (λ e, set_orphanedAt e now) else r1).

(** ** Session death, entry by entry *)

(** The admission decision for one entry bound to the dead session. *)
Definition death_admit (r : relays) (clientID : bytes) (p : nat) (now : Z) : option bool * relays :=
  match rl_entries r !! p with
  | Some e =>
    if bool_decide (en_state e = stActive)
    then let '(ok, r1) := admitOrphan r clientID p now in (Some ok, r1)
    else (None, r)
  | None => (None, r)
  end.

Definition death_reject (r : relays) (p : nat) : relays :=
  let '(won, r1) := cas r p stActive stClosing in
  if won then
    match rl_entries r1 !! p with
    | Some e =>
      upd (closeReader (relay_remove r1 (originClientID e) (globalStreamID e)) p) p set_tc_closed
    | None => r1
    end
  else r1.

Definition death_publish (r : relays) (p : nat) (now : Z) : relays :=
  let '(won, r1) := toOrphaned r p now in
  if won then r1 else releaseOrphanFD r1 p.

Definition death_entry (clientID : bytes) (now : Z) (r : relays) (p : nat) : relays :=
  match death_admit r clientID p now with
  | (None, r1) => r1
  | (Some true, r1) => death_publish r1 p now
  | (Some false, r1) => death_reject r1 p
  end.

Definition session_death (r : relays) (clientID : bytes) (sess : nat) (now : Z) : relays :=
  foldl (death_entry clientID now) r (entriesForSession r clientID sess).

(** The grace timer fires. *)
Definition grace_expire (r : relays) (p : nat) : relays :=
  let '(won, r1) := cas r p stOrphaned stClosing in
  if won then teardown r1 p else r1.

(** The registry part of the FIN handler. *)
Definition fin_relay (r : relays) (clientID : bytes) (streamID : Z) : relays :=
  match relay_find r clientID streamID with
  | None => r
  | Some p =>
    match rl_entries r !! p with
    | Some e =>
      if bool_decide (en_state e = stActive) || bool_decide (en_state e = stOrphaned) then
        let '(won, r1) := cas r p (en_state e) stClosing in
        if won then teardown r1 p else r1
      else r
    | None => r
    end
  end.

(** ** Downlink *)

Definition onStreamAck (r : relays) (p : nat) (ackedSeq : Z) : relays :=
  upd r p (λ e, set_buffers e (evictUpTo (downBuffer e) ackedSeq) (evictUpTo (unackedTail e) ackedSeq)).

Definition resendTail (r : relays) (p : nat) : list pendingDownFrame :=
  match rl_entries r !! p with Some e => tailFrames (unackedTail e) | None => [] end.

Inductive route_result :=
| RouteDead                                                       (* alive = false *)
| RouteSend (b : binding) (f : pendingDownFrame) (e : relayEntry) (* send directly *)
| RouteBuffered (e : relayEntry)
| RouteParked.                                                    (* [cond.Wait()] *)

(** One turn of [routeDownFrame]'s loop, under [perEntryMu]. *)
Definition routeDownFrame (e : relayEntry) (data : bytes) : route_result :=
  if closeCh_closed e then RouteDead else
  if bool_decide (en_state e = stClosing) then RouteDead else
  let seq := u64 (downSeqCounter e + 1) in
  let f := mkPending seq data in
  match bound e with
  | Some b =>
    if byteLen (downBuffer e) =? 0 then
      let '(_, ut) := Push (unackedTail e) f in
      RouteSend b f (set_numbered e seq (downBuffer e) ut data)
    else
      let '(ok, db) := Push (downBuffer e) f in
      if ok then RouteBuffered (set_numbered e seq db (unackedTail e) data) else RouteParked
  | None =>
    let '(ok, db) := Push (downBuffer e) f in
    if ok then RouteBuffered (set_numbered e seq db (unackedTail e) data) else RouteParked
  end.

Definition blocked {A} : outcome A := Err "blocked".

(** The end of a loop turn: stamp the clock and [e.credit.consume(n)], which
    dereferences the credit pointer. *)
Definition finish_frame (r : relays) (p : nat) (n now : Z) : outcome relays :=
  match rl_entries r !! p with
  | None => Panic
  | Some e =>
    match en_credit e with
    | None => Panic
    | Some c =>
      Ret (with_credits (upd r p (λ e, set_loop (set_lastDown e now) LRead))
             (alter (λ cr, consume cr n) c (rl_credits r)))
    end
  end.

(** How many bytes the loop may read: [None] while it waits for credit, a
    value at most 0 when it must return. *)
Definition read_limit (r : relays) (e : relayEntry) : option Z :=
  match en_credit e with
  | None => Some 32768
  | Some c =>
    match rl_credits r !! c with
    | Some cr => match waitForCredit cr (closeCh_closed e) with
                 | Some got => Some (if got <=? 0 then got else Z.min 32768 got)
                 | None => None
                 end
    | None => None
    end
  end.

(** [relayLoop]: wait for credit, read [data] from the egress, route it. *)
Definition loop_read (r : relays) (p : nat) (data : bytes) (now : Z) : outcome relays :=
  match rl_entries r !! p with
  | None => blocked
  | Some e =>
    match en_loop e with
    | LRead =>
      match read_limit r e with
      | None => blocked
      | Some limit =>
        if limit <=? 0 then Ret (upd r p (λ e, set_loop e LExit)) else
        if negb ((0 <? len data) && (len data <=? limit)) || negb (tc_open e) then blocked else
        match routeDownFrame e data with
        | RouteDead => Ret (upd r p (λ e, set_loop e LExit))
        | RouteSend b f e' => Ret (with_entries r (<[p := set_loop e' (LSend b f)]> (rl_entries r)))
        | RouteBuffered e' => finish_frame (with_entries r (<[p := e']> (rl_entries r))) p (len data) now
        | RouteParked => blocked
        end
      end
    | _ => blocked
    end
  end.

(** ... then, off the lock, send the frame it was given. *)
Definition loop_send (r : relays) (p : nat) (migrateEnabled : bool) (now : Z) : outcome relays :=
  match rl_entries r !! p with
  | Some e =>
    match en_loop e with
    | LSend b f =>
      n' ← enqueueDownFrame (rl_net r) p (globalStreamID e) b migrateEnabled f;
      finish_frame (with_net r n') p (len (pf_data f)) now
    | _ => blocked
    end
  | None => blocked
  end.

(** The egress read fails or ends. *)
Definition loop_eof (r : relays) (p : nat) : relays :=
  upd r p (λ e, match en_loop e with LRead => set_loop (set_destClosed e) LExit | _ => e end).

Definition send_close (n : net) (b : binding) (sid : Z) : outcome net :=
  r ← send_chunk n b (unpooled (λ id seq, NewStreamCloseChunk id seq sid));
  Ret (snd r).

(** [reassociate]: drain and flush under the lock; the caller has published the
    binding. *)
Definition reassociate (r : relays) (p : nat) (b : binding) (migrateEnabled aDead : bool)
  : outcome (Z * relays) :=
  match rl_entries r !! p with
  | None => Panic
  | Some e =>
    let resumeDownSeq := downSeqCounter e in
    let '(buffered, db) := drainAll (downBuffer e) in
    let resend := if aDead then tailFrames (unackedTail e) else [] in
    let r1 := upd r p (λ e, set_buffers e db (unackedTail e)) in
    n1 ← enqueue_all (rl_net r1) p (globalStreamID e) b migrateEnabled (buffered ++ resend);
    n2 ← (if originDeathTeardown (rl_limits r) && destClosed e
          then send_close n1 b (globalStreamID e) else Ret n1);
    Ret (resumeDownSeq, with_net r1 n2)
  end.

Definition signalStreamEnd (r : relays) (p : nat) (migrateEnabled : bool) : outcome relays :=
  if negb migrateEnabled then Ret r else
  match rl_entries r !! p with
  | None => Panic
  | Some e =>
    let '(won, r1) := cas r p stActive stClosing in
    if won then
      n' ← (match bound e with
            | Some b => if originDeathTeardown (rl_limits r) then send_close (rl_net r1) b (globalStreamID e)
                        else Ret (rl_net r1)
            | None => Ret (rl_net r1)
            end);
      Ret (teardown (with_net r1 n') p)
    else
      Ret (upd r1 p (λ e, if bool_decide (en_state e = stOrphaned) then set_destClosed e else e))
  end.

(** ** Migration *)

Definition enqueueMigrateOK (n : net) (b : binding) (flag sid resumeDownSeq : Z) : outcome net :=
  r ← send_chunk n b (unpooled (λ id seq, p ← BuildMigrateOK sid resumeDownSeq; Ret (mkChunk id seq flag p)));
  Ret (snd r).

Definition enqueueMigrateFail (n : net) (b : binding) (flag sid reason : Z) : outcome net :=
  r ← send_chunk n b (unpooled (λ id seq, p ← BuildMigrateFail sid reason; Ret (mkChunk id seq flag p)));
  Ret (snd r).

Definition reply_fail (r : relays) (b : binding) (flag sid reason : Z) : outcome relays :=
  n' ← enqueueMigrateFail (rl_net r) b flag sid reason; Ret (with_net r n').

(** [b] is the session and writer of the slot the frame arrived on. *)
Definition handleMigrateOrResume (masterKey : bytes) (r : relays) (flag : Z) (payload clientID : bytes)
    (b : binding) (migrateEnabled : bool) : outcome relays :=
  match ParseMigrateFrame payload with
  | Panic => Panic
  | Err _ => Ret r
  | Ret (sid, proof) =>
    match relay_find r clientID sid with
    | None => reply_fail r b flag sid MigrateReasonNotFound
    | Some p =>
      match rl_entries r !! p with
      | None => Panic
      | Some entry =>
        let perClientKey := DeriveServerPerClientKey masterKey clientID in
        if negb (VerifyStreamProof proof perClientKey clientID sid (originSessionNonce entry))
        then reply_fail r b flag sid MigrateReasonBadProof
        else
          let aDead := flag =? FlagResume in
          let r1 := upd r p (λ e, set_bound e b) in
          let '(ok, r2) :=
            if aDead then let '(won, r') := cas r1 p stOrphaned stActive in
                          (won, if won then releaseOrphanFD r' p else r')
            else (true, r1) in
          if negb ok then reply_fail r2 b flag sid MigrateReasonGraceExpired
          else
            '(resumeSeq, r3) ← reassociate r2 p b migrateEnabled aDead;
            n' ← enqueueMigrateOK (rl_net r3) b flag sid resumeSeq;
            Ret (with_net r3 n')
      end
    end
  end.

(** The entry registered when a CONNECT of a migration session has dialled. *)
Definition connect_entry (clientID : bytes) (sid : Z) (nonce : bytes) (flowWindow : Z) (credit : option nat)
    (b : binding) : relayEntry :=
  mkRelay clientID sid nonce true (Some b) stActive 0 0 (newBoundedBuffer flowWindow)
    (newBoundedBuffer flowWindow) false false 0 credit false LRead [].

Definition connect_register (r : relays) (p : nat) (e : relayEntry) : relays :=
  relay_add (with_entries r (<[p := e]> (rl_entries r))) (originClientID e) (globalStreamID e) p.

(** ** Operations of the server on its relays *)

Inductive relay_op :=
| RConnect (p : nat) (clientID : bytes) (sid : Z) (nonce : bytes) (flowWindow : Z) (credit : nat) (b : binding)
| RRead (p : nat) (data : bytes) (now : Z)
| RSendFrame (p : nat) (now : Z)
| REof (p : nat)
| RAck (p : nat) (ackedSeq : Z)
| RWindowUpdate (credit : nat) (delta window : Z)
| RMigrate (flag : Z) (payload clientID : bytes) (b : binding)
| RDeathCheck (clientID : bytes) (p : nat) (now : Z)
| RDeathCharge (p : nat)
| RDeathReject (p : nat)
| RDeathPublish (p : nat) (now : Z)
| RGraceExpire (p : nat)
| RFin (clientID : bytes) (sid : Z)
| ROriginDeath (p : nat)
| RWriterClose (w : nat).

Definition close_writer (n : net) (w : nat) : net :=
  mkNet (n_sessions n) (n_pools n) (alter (λ x, (false, snd x)) w (n_writers n)) (n_log n).

Definition relay_step (masterKey : bytes) (r : relays) (o : relay_op) : outcome relays :=
  match o with
  | RConnect p clientID sid nonce w c b =>
    match rl_entries r !! p with
    | Some _ => blocked
    | None => Ret (connect_register r p (connect_entry clientID sid nonce w (Some c) b))
    end
  | RRead p data now => loop_read r p data now
  | RSendFrame p now => loop_send r p true now
  | REof p => Ret (loop_eof r p)
  | RAck p a => Ret (onStreamAck r p a)
  | RWindowUpdate c d w => Ret (with_credits r (alter (λ cr, add cr d w) c (rl_credits r)))
  | RMigrate flag payload clientID b => handleMigrateOrResume masterKey r flag payload clientID b true
  | RDeathCheck clientID p now => Ret (snd (admit_check r clientID p now))
  | RDeathCharge p => Ret (charge r p)
  | RDeathReject p => Ret (death_reject r p)
  | RDeathPublish p now => Ret (death_publish r p now)
  | RGraceExpire p => Ret (grace_expire r p)
  | RFin clientID sid => Ret (fin_relay r clientID sid)
  | ROriginDeath p => signalStreamEnd r p true
  | RWriterClose w => Ret (with_net r (close_writer (rl_net r) w))
  end.

Fixpoint relay_run (masterKey : bytes) (r : relays) (ops : list relay_op) : outcome relays :=
  match ops with
  | [] => Ret r
  | o :: ops' => r' ← relay_step masterKey r o; relay_run masterKey r' ops'
  end.

(** ** What the control operations can do

    The operations that orphan, evict, reclaim and tear down relays are built
    from a few elementary changes; a relation on registries that is preserved by
    those is preserved by all of them. *)

Inductive control_change (r : relays) : relays → Prop :=
| cc_state p e st : rl_entries r !! p = Some e → en_state e ≠ stClosing →
    control_change r (upd r p (λ e, set_state e st))
| cc_orphanedAt p t : control_change r (upd r p (λ e, set_orphanedAt e t))
| cc_dest p : control_change r (upd r p (λ e, if bool_decide (en_state e = stOrphaned) then set_destClosed e else e))
| cc_closed p : control_change r (upd r p set_closed)
| cc_tc p : control_change r (upd r p set_tc_closed)
| cc_byClient m : control_change r (with_byClient r m)
| cc_credits m : control_change r (with_credits r m)
| cc_stats x y : control_change r (with_counters r (orphanedFDInUse r) x y)
| cc_release p : control_change r (releaseOrphanFD r p).

Section control.
Context (Q : relays → relays → Prop) `{!PreOrder Q} (HQ : ∀ r r', control_change r r' → Q r r').

Lemma relay_remove_Q r c s : Q r (relay_remove r c s).
Proof using All. unfold relay_remove. destruct (byClient r !! c); [apply HQ; constructor | done]. Qed.

Lemma closeReader_Q r p : Q r (closeReader r p).
Proof using All.
  unfold closeReader. destruct (rl_entries r !! p) as [e |]; [| done]. destruct (closeCh_closed e); [done |].
  destruct (en_credit e); [| apply HQ; constructor].
  transitivity (upd r p set_closed); apply HQ; constructor.
Qed.

Lemma teardown_Q r p : Q r (teardown r p).
Proof using All.
  unfold teardown. destruct (rl_entries r !! p) as [e |]; [| done].
  etransitivity; [apply relay_remove_Q |]. etransitivity; [apply closeReader_Q |].
  etransitivity; apply HQ; [apply cc_tc | apply cc_release].
Qed.

Lemma cas_Q r p from to : from ≠ stClosing → Q r (snd (cas r p from to)).
Proof using All.
  intros Hf. unfold cas. destruct (rl_entries r !! p) as [e |] eqn:E; [| done].
  case_decide; [| done]. apply HQ. eapply cc_state; [done | congruence].
Qed.

Lemma cas_teardown_Q r p from :
  from ≠ stClosing → Q r (let '(won, r1) := cas r p from stClosing in if won then teardown r1 p else r1).
Proof using All.
  intros Hf. pose proof (cas_Q r p from stClosing Hf) as H. destruct (cas r p from stClosing) as [[|] r1]; [| done].
  etransitivity; [done | apply teardown_Q].
Qed.

Lemma evict_Q r scope ex now : Q r (evictIdleOrphanExcept r scope ex now).
Proof using All.
  unfold evictIdleOrphanExcept. destruct (pick_victim r scope ex now) as [v |]; [| done].
  pose proof (cas_teardown_Q r v stOrphaned ltac:(done)) as H.
  destruct (cas r v stOrphaned stClosing) as [[|] r1]; [| done].
  etransitivity; [done | apply HQ, cc_stats].
Qed.

Lemma enforce_cap_Q cap count evict r :
  (∀ r, Q r (evict r)) → Q r (snd (enforce_cap cap count evict r)).
Proof using All.
  intros He. unfold enforce_cap. destruct ((0 <? cap) && (cap <? count r)); [| done].
  by destruct (cap <? count (evict r)).
Qed.

Lemma admit_check_Q r c p now : Q r (snd (admit_check r c p now)).
Proof using All.
  unfold admit_check. destruct (_ <=? 0); [apply HQ, cc_stats |].
  destruct (_ <=? orphanedFDInUse r); [apply HQ, cc_stats |].
  match goal with |- context [enforce_cap ?a ?b ?f r] =>
    pose proof (enforce_cap_Q a b f r (λ r, evict_Q r _ _ _)) as H1; destruct (enforce_cap a b f r) as [ok1 r1] end.
  destruct ok1; [| done]. etransitivity; [done |]. apply enforce_cap_Q. intros. apply evict_Q.
Qed.

Lemma death_reject_Q r p : Q r (death_reject r p).
Proof using All.
  unfold death_reject. pose proof (cas_Q r p stActive stClosing ltac:(done)) as H.
  destruct (cas r p stActive stClosing) as [[|] r1]; cbn in H; [| done].
  destruct (rl_entries r1 !! p) as [e |]; [| done].
  etransitivity; [done |]. etransitivity; [apply relay_remove_Q |].
  etransitivity; [apply closeReader_Q |]. apply HQ, cc_tc.
Qed.

Lemma death_publish_Q r p now : Q r (death_publish r p now).
Proof using All.
  unfold death_publish, toOrphaned. pose proof (cas_Q r p stActive stOrphaned ltac:(done)) as H.
  destruct (cas r p stActive stOrphaned) as [[|] r1]; cbn in H; (etransitivity; [done |]; apply HQ).
  - apply cc_orphanedAt.
  - apply cc_release.
Qed.

Lemma fin_relay_Q r c s : Q r (fin_relay r c s).
Proof using All.
  unfold fin_relay. destruct (relay_find r c s) as [p |]; [| done]. destruct (rl_entries r !! p) as [e |]; [| done].
  destruct (_ || _) eqn:Eb; [| done]. apply cas_teardown_Q. intros E. by rewrite E in Eb.
Qed.

Lemma grace_expire_Q r p : Q r (grace_expire r p).
Proof using All. by apply cas_teardown_Q. Qed.

Lemma signalStreamEnd_Q r p m r' :
  (∀ r n, Q r (with_net r n)) → signalStreamEnd r p m = Ret r' → Q r r'.
Proof using All.
  intros Hnet. unfold signalStreamEnd. destruct m; cbn [negb]; [| by intros [= <-]].
  destruct (rl_entries r !! p) as [e |]; [| done]. pose proof (cas_Q r p stActive stClosing ltac:(done)) as H.
  destruct (cas r p stActive stClosing) as [won r1]. cbn in H. destruct won.
  - destruct (match bound e with Some _ => _ | None => _ end) as [n' | |]; try done. intros [= <-].
    etransitivity; [done |]. etransitivity; [apply Hnet | apply teardown_Q].
  - intros [= <-]. etransitivity; [done |]. apply HQ, cc_dest.
Qed.

End control.

(** The same entries exist, each related by [R]. *)
Definition entries_rel (R : relayEntry → relayEntry → Prop) (r r' : relays) : Prop :=
  ∀ p, option_Forall2 R (rl_entries r !! p) (rl_entries r' !! p).

Record control_rel (R : relayEntry → relayEntry → Prop) : Prop := {
  cr_pre :: PreOrder R;
  cr_state e st : en_state e ≠ stClosing → R e (set_state e st);
  cr_bound e b : R e (set_bound e b);
  cr_orphanedAt e t : R e (set_orphanedAt e t);
  cr_fd e h : R e (set_fd e h);
  cr_dest e : R e (set_destClosed e);
  cr_closed e : R e (set_closed e);
  cr_tc e : R e (set_tc_closed e);
}.

Section entries.
Context (R : relayEntry → relayEntry → Prop) (HR : control_rel R).

#[local] Instance entries_rel_pre : PreOrder (entries_rel R).
Proof using HR.
  pose proof (cr_pre R HR). split.
  - intros r p. destruct (rl_entries r !! p); by constructor.
  - intros r1 r2 r3 H1 H2 p. specialize (H1 p). specialize (H2 p).
    destruct H1 as [e1 e2 H12 |]; inversion H2; constructor. subst. by etransitivity.
Qed.

Lemma upd_rel r p f :
  (∀ e, rl_entries r !! p = Some e → R e (f e)) → entries_rel R r (upd r p f).
Proof using HR.
  pose proof (cr_pre R HR). intros Hf q. cbn. destruct (decide (p = q)) as [<- | Hne].
  - rewrite lookup_alter_eq. destruct (rl_entries r !! p) eqn:E; constructor. by apply Hf.
  - rewrite lookup_alter_ne by done. by destruct (rl_entries r !! q); constructor.
Qed.

(** Changes outside the entries do not matter. *)
Lemma same_entries_rel r r' : rl_entries r' = rl_entries r → entries_rel R r r'.
Proof using HR. intros E p. rewrite E. apply entries_rel_pre. Qed.

Lemma charge_rel r p : entries_rel R r (charge r p).
Proof using HR.
  unfold charge. etransitivity; [| apply upd_rel; intros; apply (cr_fd R HR)]. by apply same_entries_rel.
Qed.

Lemma control_entries r r' : control_change r r' → entries_rel R r r'.
Proof using HR.
  pose proof (cr_pre R HR).
  destruct 1 as [p e st Ee Hs | p t | p | p | p | m | m | x y | p]; try by apply same_entries_rel.
  - apply upd_rel. intros e' Ee'. apply (cr_state R HR). congruence.
  - apply upd_rel. intros. apply (cr_orphanedAt R HR).
  - apply upd_rel. intros. case_bool_decide; [apply (cr_dest R HR) | done].
  - apply upd_rel. intros. apply (cr_closed R HR).
  - apply upd_rel. intros. apply (cr_tc R HR).
  - unfold releaseOrphanFD. destruct (rl_entries r !! p) as [e |]; [| done]. destruct (holdsFD e); [| done].
    transitivity (upd r p (λ e, set_fd e false)); [| by apply same_entries_rel].
    apply upd_rel. intros. apply (cr_fd R HR).
Qed.

End entries.

(** Control operations do not touch the network. *)
Definition same_net (r r' : relays) : Prop := rl_net r' = rl_net r.
#[global] Instance same_net_pre : PreOrder same_net.
Proof. split; unfold same_net; congruence. Qed.
Lemma control_net r r' : control_change r r' → same_net r r'.
Proof.
  destruct 1; try done. unfold same_net, releaseOrphanFD.
  destruct (rl_entries r !! p) as [e |]; [| done]. by destruct (holdsFD e).
Qed.

(** ** Numbering of the downlink *)

(** Frame [f] carries the [pf_seq f]-th read of the egress. *)
Definition frame_ok (reads : list bytes) (f : pendingDownFrame) : Prop :=
  1 ≤ pf_seq f ∧ reads !! Z.to_nat (pf_seq f - 1) = Some (pf_data f).

Lemma frame_ok_app reads more f : frame_ok reads f → frame_ok (reads ++ more) f.
Proof. intros [H1 H2]. split; [done |]. by apply lookup_app_l_Some. Qed.

Record entry_down (k : Z) (log : list (nat * binding * pendingDownFrame)) (p : nat) (e : relayEntry) : Prop := {
  ed_counter : downSeqCounter e = len (egress e) ∧ len (egress e) ≤ k;
  ed_buffer : Forall (frame_ok (egress e)) (bb_frames (downBuffer e));
  ed_tail : Forall (frame_ok (egress e)) (bb_frames (unackedTail e));
  ed_loop : match en_loop e with LSend _ f => frame_ok (egress e) f | _ => True end;
  ed_log b f : (p, b, f) ∈ log → frame_ok (egress e) f;
}.

Record down_inv (k : Z) (r : relays) : Prop := {
  di_entry p e : rl_entries r !! p = Some e → entry_down k (n_log (rl_net r)) p e;
  di_log p b f : (p, b, f) ∈ n_log (rl_net r) → is_Some (rl_entries r !! p);
}.

Definition same_down (e e' : relayEntry) : Prop :=
  egress e' = egress e ∧ downSeqCounter e' = downSeqCounter e ∧ downBuffer e' = downBuffer e
  ∧ unackedTail e' = unackedTail e ∧ en_loop e' = en_loop e
  ∧ globalStreamID e' = globalStreamID e ∧ originClientID e' = originClientID e.

Lemma same_down_control : control_rel same_down.
Proof.
  split; [| by unfold same_down; intros; cbn ..]. split; unfold same_down.
  - intros e. by split_and!.
  - intros e1 e2 e3. intuition congruence.
Qed.

Lemma entry_down_same k log p e e' : same_down e e' → entry_down k log p e → entry_down k log p e'.
Proof.
  intros (He & Hc & Hd & Ht & Hl & _) [H1 H2 H3 H4 H5].
  split; rewrite ?He, ?Hc, ?Hd, ?Ht, ?Hl; done.
Qed.

Lemma down_inv_rel k r r' :
  entries_rel same_down r r' → n_log (rl_net r') = n_log (rl_net r) → down_inv k r → down_inv k r'.
Proof.
  intros Hrel Hlog [H1 H2]. split; rewrite Hlog.
  - intros p e' He'. specialize (Hrel p). rewrite He' in Hrel.
    destruct (rl_entries r !! p) as [e |] eqn:E; inversion Hrel; subst. eapply entry_down_same; eauto.
  - intros p b f Hin. destruct (H2 p b f Hin) as [e He]. specialize (Hrel p). rewrite He in Hrel.
    destruct (rl_entries r' !! p); [done | inversion Hrel].
Qed.

Lemma entry_down_later k k' log p e : k ≤ k' → entry_down k log p e → entry_down k' log p e.
Proof. intros Hk [[H1 H1'] H2 H3 H4 H5]. split; try done. lia. Qed.

Lemma down_inv_later k k' r : k ≤ k' → down_inv k r → down_inv k' r.
Proof. intros Hk [H1 H2]. split; [| done]. intros p e He. eapply entry_down_later; eauto. Qed.

(** *** What sending does to the log *)

Lemma enqueue_log n w enc : n_log (snd (enqueue n w enc)) = n_log n.
Proof. unfold enqueue. by destruct (n_writers n !! w) as [[[|] sent] |]. Qed.

Lemma send_chunk_log n b mk ok n' : send_chunk n b mk = Ret (ok, n') → n_log n' = n_log n.
Proof.
  unfold send_chunk. destruct (n_sessions n !! b_session b) as [s |]; [| done]. cbn [NextSeqNum].
  destruct (mk _ _ _) as [[[chunk backing] pools1] | |]; try done. unfold mbind, outcome_bind.
  destruct (EncryptChunk _ _ _ _) as [[[enc pools2] s2] | |]; try done.
  - match goal with |- Ret (enqueue ?a ?b ?c) = _ → _ => pose proof (enqueue_log a b c) as Hl; destruct (enqueue a b c) end.
    by intros [= <- <-].
  - by intros [= <- <-].
Qed.

Lemma send_close_log n b sid n' : send_close n b sid = Ret n' → n_log n' = n_log n.
Proof.
  unfold send_close. destruct (send_chunk n b _) as [[ok m] | |] eqn:E; try done. intros [= <-].
  by apply send_chunk_log in E.
Qed.

Lemma migrate_reply_log n b mk n' :
  (r ← send_chunk n b mk; Ret (snd r)) = Ret n' → n_log n' = n_log n.
Proof.
  destruct (send_chunk n b mk) as [[ok m] | |] eqn:E; try done. intros [= <-].
  by apply send_chunk_log in E.
Qed.

Lemma enqueueDownFrame_log n p sid b m f n' :
  enqueueDownFrame n p sid b m f = Ret n' → n_log n' = n_log n ∨ n_log n' = n_log n ++ [(p, b, f)].
Proof.
  unfold enqueueDownFrame. destruct (send_chunk n b _) as [[ok m'] | |] eqn:E; try done.
  apply send_chunk_log in E. intros [= <-]. destruct ok; cbn; [right; by rewrite E | by left].
Qed.

Lemma enqueue_all_log fs n p sid b m n' :
  enqueue_all n p sid b m fs = Ret n' →
  ∃ fs', n_log n' = n_log n ++ ((λ f, (p, b, f)) <$> fs') ∧ fs' `sublist_of` fs.
Proof.
  revert n. induction fs as [| f fs IH]; intros n E; cbn [enqueue_all] in E.
  - injection E as <-. exists []. by rewrite app_nil_r.
  - destruct (enqueueDownFrame n p sid b m f) as [n1 | |] eqn:E1; try done. cbn in E.
    destruct (IH n1 E) as (fs' & Hlog & Hsub). apply enqueueDownFrame_log in E1 as [E1 | E1].
    + exists fs'. rewrite Hlog, E1. split; [done |]. by constructor.
    + exists (f :: fs'). rewrite Hlog, E1, <- app_assoc. split; [done |]. by constructor.
Qed.

Lemma elem_of_log_fmap (p q : nat) (b b' : binding) (f : pendingDownFrame) (fs : list pendingDownFrame) :
  (q, b', f) ∈ ((λ f, (p, b, f)) <$> fs) → q = p ∧ f ∈ fs.
Proof. intros (g & E & Hg)%list_elem_of_fmap. by injection E as -> -> ->. Qed.

(** Frames that are right may be sent by their own entry. *)
Lemma down_inv_log k r p e n' fs b :
  down_inv k r → rl_entries r !! p = Some e → Forall (frame_ok (egress e)) fs →
  n_log n' = n_log (rl_net r) ++ ((λ f, (p, b, f)) <$> fs) → down_inv k (with_net r n').
Proof.
  intros [H1 H2] He Hfs Hlog. split; cbn; rewrite Hlog.
  - intros q e' He'. destruct (H1 q e' He') as [A1 A2 A3 A4 A5]. split; try done.
    intros b' f [Hin | Hin]%elem_of_app; [by eapply A5 |].
    apply elem_of_log_fmap in Hin as [-> Hf]. assert (e' = e) as -> by congruence.
    exact (proj1 (Forall_forall _ _) Hfs f Hf).
  - intros q b' f [Hin | Hin]%elem_of_app; [by eapply H2 |].
    apply elem_of_log_fmap in Hin as [-> _]. by rewrite He.
Qed.

(** Replacing one entry. *)
Lemma down_inv_entry k r p e' :
  down_inv k r → is_Some (rl_entries r !! p) → entry_down k (n_log (rl_net r)) p e' →
  down_inv k (with_entries r (<[p := e']> (rl_entries r))).
Proof.
  intros [H1 H2] Hp He'. split; cbn.
  - intros q e. rewrite lookup_insert_Some. intros [[<- <-] | [_ Hq]]; [done | by apply H1].
  - intros q b f Hin. rewrite lookup_insert_is_Some. destruct (H2 q b f Hin).
    destruct (decide (p = q)); [by left | right]. split; [done |]. by eexists.
Qed.

Lemma upd_eq r p f e :
  rl_entries r !! p = Some e → upd r p f = with_entries r (<[p := f e]> (rl_entries r)).
Proof. intros E. unfold upd. f_equal. by rewrite <- (insert_id _ _ _ E) at 1; rewrite alter_insert_eq. Qed.

Lemma upd_none r p f : rl_entries r !! p = None → rl_entries (upd r p f) = rl_entries r.
Proof. intros E. cbn. apply map_eq. intros q. destruct (decide (p = q)) as [<- | ?]; [by rewrite lookup_alter_eq, E | by rewrite lookup_alter_ne]. Qed.

(** *** The invariant, operation by operation *)

Lemma Push_frames b f ok b' : Push b f = (ok, b') →
  bb_frames b' = (if ok then bb_frames b ++ [f] else bb_frames b) ∧ (ok = false → b' = b).
Proof. unfold Push. destruct (_ <? _); intros [= <- <-]; done. Qed.

Lemma evict_loop_sub a fs : fst (evict_loop a fs) `sublist_of` fs.
Proof.
  induction fs as [| f fs IH]; [done |]. cbn. destruct (evict_loop a fs) as [kept n]. cbn in IH.
  destruct (pf_seq f <=? a); cbn; by constructor.
Qed.

Lemma Forall_sublist {A} (P : A → Prop) l k : l `sublist_of` k → Forall P k → Forall P l.
Proof. intros Hs Hk. apply Forall_forall. intros x Hx. eapply (proj1 (Forall_forall _ _) Hk), elem_of_sublist; done. Qed.

Lemma evictUpTo_Forall P b a : Forall P (bb_frames b) → Forall P (bb_frames (evictUpTo b a)).
Proof.
  intros H. unfold evictUpTo. pose proof (evict_loop_sub a (bb_frames b)) as Hs.
  destruct (evict_loop a (bb_frames b)). cbn in *. by eapply Forall_sublist.
Qed.

(** The number given to a read is one more than the number of reads before. *)
Lemma frame_ok_new reads data : frame_ok (reads ++ [data]) (mkPending (len reads + 1) data).
Proof.
  split; cbn; [pose proof (len_nonneg reads); lia |].
  replace (Z.to_nat (len reads + 1 - 1)) with (length reads) by (unfold len; lia).
  by rewrite lookup_app_r, Nat.sub_diag by lia.
Qed.

Lemma Forall_frame_app reads data fs :
  Forall (frame_ok reads) fs → Forall (frame_ok (reads ++ [data])) fs.
Proof. intros H. eapply Forall_impl; [done |]. intros f. apply frame_ok_app. Qed.

(** Numbering a frame into the buffer, the tail or the loop's hand. *)
Lemma entry_down_numbered k log p e db ut data pc :
  entry_down k log p e → k + 1 < 2 ^ 64 →
  Forall (frame_ok (egress e ++ [data])) (bb_frames db) →
  Forall (frame_ok (egress e ++ [data])) (bb_frames ut) →
  match pc with LSend _ f => frame_ok (egress e ++ [data]) f | _ => True end →
  entry_down (k + 1) log p (set_loop (set_numbered e (u64 (downSeqCounter e + 1)) db ut data) pc).
Proof.
  intros [[H1 H1'] H2 H3 H4 H5] Hk Hdb Hut Hpc. split; cbn; try done.
  - rewrite len_app, len_cons, (@len_nil (list Z)). pose proof (len_nonneg (egress e)).
    rewrite H1. unfold u64. rewrite Z.mod_small by lia. lia.
  - intros b f Hin. apply frame_ok_app. by eapply H5.
Qed.

Lemma u64_next k log p e : entry_down k log p e → k + 1 < 2 ^ 64 →
  u64 (downSeqCounter e + 1) = len (egress e) + 1.
Proof.
  intros [[H1 H1'] _ _ _ _] Hk. pose proof (len_nonneg (egress e)). rewrite H1. apply Z.mod_small. lia.
Qed.

Lemma routeDownFrame_down k log p e data :
  entry_down k log p e → k + 1 < 2 ^ 64 → en_loop e = LRead →
  match routeDownFrame e data with
  | RouteSend b f e' => entry_down (k + 1) log p (set_loop e' (LSend b f)) ∧ pf_data f = data
  | RouteBuffered e' => entry_down (k + 1) log p e' ∧ en_credit e' = en_credit e
  | _ => True
  end.
Proof.
  intros He Hk Hpc. unfold routeDownFrame. destruct (closeCh_closed e); [done |].
  case_bool_decide; [done |]. pose proof (u64_next _ _ _ _ He Hk) as Hseq. rewrite Hseq.
  set (f := mkPending (len (egress e) + 1) data).
  assert (frame_ok (egress e ++ [data]) f) as Hf by apply frame_ok_new.
  pose proof (Forall_frame_app _ data _ (ed_buffer _ _ _ _ He)) as Hb.
  pose proof (Forall_frame_app _ data _ (ed_tail _ _ _ _ He)) as Ht.
  assert (∀ ok db, Push (downBuffer e) f = (ok, db) →
    match (if ok then RouteBuffered (set_numbered e (len (egress e) + 1) db (unackedTail e) data) else RouteParked)
    with RouteBuffered e' => entry_down (k + 1) log p e' ∧ en_credit e' = en_credit e | _ => True end) as Hbuf.
  { intros ok db E. apply Push_frames in E as [E _]. destruct ok; [| done]. split; [| done].
    replace (set_numbered e (len (egress e) + 1) db (unackedTail e) data) with
      (set_loop (set_numbered e (u64 (downSeqCounter e + 1)) db (unackedTail e) data) LRead)
      by (rewrite Hseq; unfold set_loop, set_numbered; cbn; by rewrite Hpc).
    apply entry_down_numbered; try done. rewrite E. apply Forall_app. by split; [| constructor]. }
  destruct (bound e) as [b |].
  - destruct (byteLen (downBuffer e) =? 0).
    + destruct (Push (unackedTail e) f) as [ok ut] eqn:E. apply Push_frames in E as [E _].
      rewrite <- Hseq. split; [| done]. apply entry_down_numbered; try done.
      rewrite E. destruct ok; [| done]. apply Forall_app. by split; [| constructor].
    + destruct (Push (downBuffer e) f) as [ok db] eqn:E. specialize (Hbuf ok db eq_refl). by destruct ok.
  - destruct (Push (downBuffer e) f) as [ok db] eqn:E. specialize (Hbuf ok db eq_refl). by destruct ok.
Qed.

Lemma entry_down_idle k log p e now :
  entry_down k log p e → entry_down k log p (set_loop (set_lastDown e now) LRead).
Proof. intros []. by split. Qed.

Lemma finish_frame_down k r p n now r' :
  down_inv k r → finish_frame r p n now = Ret r' → down_inv k r'.
Proof.
  intros Hi E. unfold finish_frame in E. destruct (rl_entries r !! p) as [e |] eqn:Ee; [| done].
  destruct (en_credit e) as [c |]; [| done]. injection E as <-.
  assert (down_inv k (upd r p (λ e, set_loop (set_lastDown e now) LRead))) as H.
  { rewrite (upd_eq _ _ _ _ Ee). apply down_inv_entry; [done | by rewrite Ee |].
    apply entry_down_idle. by apply (di_entry k r Hi). }
  destruct H. by split.
Qed.

Lemma loop_exit_down k r p : down_inv k r → down_inv k (upd r p (λ e, set_loop e LExit)).
Proof.
  intros Hi. destruct (rl_entries r !! p) as [e |] eqn:Ee.
  - rewrite (upd_eq _ _ _ _ Ee). apply down_inv_entry; [done | by rewrite Ee |].
    destruct (di_entry k r Hi p e Ee). by split.
  - destruct Hi as [H1 H2]. split; rewrite (upd_none _ _ _ Ee); done.
Qed.

Lemma loop_read_down k r p data now r' :
  down_inv k r → k + 1 < 2 ^ 64 → loop_read r p data now = Ret r' → down_inv (k + 1) r'.
Proof.
  intros Hi Hk E. pose proof (down_inv_later k (k + 1) r ltac:(lia) Hi) as Hi1.
  unfold loop_read in E. destruct (rl_entries r !! p) as [e |] eqn:Ee; [| done].
  destruct (en_loop e) eqn:Epc; try done. destruct (read_limit r e) as [limit |]; [| done].
  destruct (limit <=? 0); [injection E as <-; by apply loop_exit_down |].
  destruct (negb _ || negb _); [done |].
  pose proof (routeDownFrame_down k _ p e data (di_entry k r Hi p e Ee) Hk Epc) as Hr.
  destruct (routeDownFrame e data) as [| b f e' | e' |]; try done.
  - injection E as <-. by apply loop_exit_down.
  - injection E as <-. apply down_inv_entry; [done | by rewrite Ee | apply Hr].
  - eapply finish_frame_down; [| done]. apply down_inv_entry; [done | by rewrite Ee | apply Hr].
Qed.

Lemma loop_send_down k r p m now r' :
  down_inv k r → loop_send r p m now = Ret r' → down_inv k r'.
Proof.
  intros Hi E. unfold loop_send in E. destruct (rl_entries r !! p) as [e |] eqn:Ee; [| done].
  destruct (en_loop e) as [| b f |] eqn:Epc; try done.
  destruct (enqueueDownFrame _ _ _ _ _ _) as [n' | |] eqn:En; try done. cbn [mbind outcome_bind] in E.
  eapply finish_frame_down; [| done].
  pose proof (ed_loop _ _ _ _ (di_entry k r Hi p e Ee)) as Hf. rewrite Epc in Hf.
  apply enqueueDownFrame_log in En as [En | En].
  - destruct Hi. split; cbn; by rewrite En.
  - eapply (down_inv_log k r p e n' [f] b); try done. by constructor.
Qed.

Lemma reassociate_down k r p b m aDead seq r' :
  down_inv k r → reassociate r p b m aDead = Ret (seq, r') → down_inv k r'.
Proof.
  intros Hi E. unfold reassociate in E. destruct (rl_entries r !! p) as [e |] eqn:Ee; [| done].
  cbn [drainAll] in E. set (r1 := upd r p _) in E.
  pose proof (di_entry k r Hi p e Ee) as He.
  assert (down_inv k r1) as Hi1.
  { subst r1. rewrite (upd_eq _ _ _ _ Ee). apply down_inv_entry; [done | by rewrite Ee |].
    destruct He. by split. }
  assert (rl_entries r1 !! p = Some (set_buffers e (mkBuf [] 0 (bb_maxByte (downBuffer e))) (unackedTail e))) as Ee1.
  { subst r1. cbn. by rewrite lookup_alter_eq, Ee. }
  destruct (enqueue_all _ _ _ _ _ _) as [n1 | |] eqn:En; try done. cbn [mbind outcome_bind] in E.
  apply enqueue_all_log in En as (fs & Hlog & Hsub).
  assert (down_inv k (with_net r1 n1)) as Hi2.
  { eapply (down_inv_log k r1 p _ n1 fs b Hi1 Ee1); [| done]. eapply Forall_sublist; [done |].
    apply Forall_app. split; [apply (ed_buffer _ _ _ _ He) |].
    destruct aDead; [apply (ed_tail _ _ _ _ He) | constructor]. }
  destruct (if _ && _ then _ else _) as [n2 | |] eqn:E2; try done. injection E as <- <-.
  assert (n_log n2 = n_log n1) as Hn2.
  { destruct (_ && _); [by apply send_close_log in E2 | by injection E2 as <-]. }
  destruct Hi2 as [A1 A2]. split; cbn in *; by rewrite Hn2.
Qed.

(** Control operations keep the downlink invariant. *)
Definition keeps_down (r r' : relays) : Prop := entries_rel same_down r r' ∧ same_net r r'.
#[local] Instance keeps_down_pre : PreOrder keeps_down.
Proof.
  pose proof (entries_rel_pre _ same_down_control). split.
  - intros r. split; reflexivity.
  - intros r1 r2 r3 [A1 B1] [A2 B2]. split; etransitivity; eassumption.
Qed.
Lemma control_down r r' : control_change r r' → keeps_down r r'.
Proof. intros H. split; [by apply (control_entries _ same_down_control) | by apply control_net]. Qed.
Lemma down_inv_control k r r' : keeps_down r r' → down_inv k r → down_inv k r'.
Proof. intros [H1 H2]. apply down_inv_rel; [done | by rewrite H2]. Qed.

Lemma signalStreamEnd_log r p m r' : signalStreamEnd r p m = Ret r' → n_log (rl_net r') = n_log (rl_net r).
Proof.
  unfold signalStreamEnd. destruct m; cbn [negb]; [| by intros [= <-]].
  destruct (rl_entries r !! p) as [e |]; [| done].
  pose proof (cas_Q _ control_net r p stActive stClosing ltac:(done)) as Hn. unfold same_net in Hn.
  destruct (cas r p stActive stClosing) as [[|] r1]; cbn in Hn.
  - destruct (match bound e with Some _ => _ | None => _ end) as [n' | |] eqn:En; try done. intros [= <-].
    rewrite (teardown_Q _ control_net (with_net r1 n') p). cbn.
    destruct (bound e); [destruct (originDeathTeardown _) |]; [apply send_close_log in En | injection En as <- ..]; congruence.
  - intros [= <-]. cbn. by rewrite Hn.
Qed.

Lemma handleMigrate_down k key r flag payload c b m r' :
  down_inv k r → handleMigrateOrResume key r flag payload c b m = Ret r' → down_inv k r'.
Proof.
  intros Hi E. unfold handleMigrateOrResume in E.
  assert (∀ r sid reason r', down_inv k r → reply_fail r b flag sid reason = Ret r' → down_inv k r') as Hfail.
  { clear. intros r sid reason r' Hi E. unfold reply_fail, enqueueMigrateFail in E.
    match type of E with ?m ≫= _ = _ => destruct m as [n1 | |] eqn:En; try done end.
    injection E as <-. apply migrate_reply_log in En. destruct Hi. split; cbn; by rewrite En. }
  destruct (ParseMigrateFrame payload) as [[sid proof] | |]; [| by injection E as <- | done].
  destruct (relay_find r c sid) as [p |]; [| by eapply Hfail].
  destruct (rl_entries r !! p) as [e |] eqn:Ee; [| done].
  destruct (negb (VerifyStreamProof _ _ _ _ _)); [by eapply Hfail |].
  set (r1 := upd r p (λ e, set_bound e b)) in E.
  assert (down_inv k r1) as Hi1.
  { apply (down_inv_rel k r); [| done | done]. apply upd_rel; [apply same_down_control |].
    intros. apply (cr_bound _ same_down_control). }
  assert (∃ ok r2, (if flag =? FlagResume then let '(won, r') := cas r1 p stOrphaned stActive in
      (won, if won then releaseOrphanFD r' p else r') else (true, r1)) = (ok, r2) ∧ down_inv k r2)
    as (ok & r2 & Eok & Hi2).
  { destruct (flag =? FlagResume); [| by eexists _, _].
    pose proof (down_inv_control k r1 _ (cas_Q _ control_down r1 p stOrphaned stActive ltac:(done)) Hi1) as Hc.
    destruct (cas r1 p stOrphaned stActive) as [[|] r'']; cbn in Hc; eexists _, _; (split; [done |]); [| done].
    eapply down_inv_control; [| done]. apply control_down, cc_release. }
  rewrite Eok in E. destruct ok; cbn [negb] in E; [| by eapply Hfail].
  destruct (reassociate r2 p b m (flag =? FlagResume)) as [[seq r3] | |] eqn:Er; try done.
  cbn [mbind outcome_bind] in E. pose proof (reassociate_down _ _ _ _ _ _ _ _ Hi2 Er) as [A1 A2].
  unfold enqueueMigrateOK in E. match type of E with ?m ≫= _ = _ => destruct m as [n' | |] eqn:En; try done end.
  injection E as <-. apply migrate_reply_log in En. split; cbn; by rewrite En.
Qed.

Lemma connect_down k r p e :
  down_inv k r → rl_entries r !! p = None → 0 ≤ k →
  egress e = [] → downSeqCounter e = 0 → bb_frames (downBuffer e) = [] → bb_frames (unackedTail e) = [] →
  en_loop e = LRead → down_inv k (connect_register r p e).
Proof.
  intros [H1 H2] Hp Hk Heg Hc Hb Ht Hpc. split; cbn.
  - intros q e'. rewrite lookup_insert_Some. intros [[<- <-] | [Hne Hq]]; [| by apply H1].
    split; [rewrite Heg, Hc; unfold len; cbn; lia | rewrite Hb; constructor | rewrite Ht; constructor | by rewrite Hpc |].
    intros b' f Hin. destruct (H2 p b' f Hin) as [x Hx]. congruence.
  - intros q b f Hin. rewrite lookup_insert_is_Some. destruct (H2 q b f Hin).
    destruct (decide (p = q)); [by left | right]. split; [done |]. by eexists.
Qed.

Lemma relay_step_down k key r o r' :
  down_inv k r → 0 ≤ k → k + 1 < 2 ^ 64 → relay_step key r o = Ret r' → down_inv (k + 1) r'.
Proof.
  intros Hi H0 Hk E. pose proof (down_inv_later k (k + 1) r ltac:(lia) Hi) as Hi1.
  pose proof same_down_control as HC.
  destruct o as [p c sid nonce w cr b | p data now | p now | p | p a | c d w | flag payload c b
    | c p now | p | p | p now | p | c sid | p | w]; cbn [relay_step] in E.
  - destruct (rl_entries r !! p) eqn:Ep; [done |]. injection E as <-. apply connect_down; try done. lia.
  - by eapply loop_read_down.
  - by eapply loop_send_down.
  - injection E as <-. unfold loop_eof. destruct (rl_entries r !! p) as [e |] eqn:Ee.
    + rewrite (upd_eq _ _ _ _ Ee). apply down_inv_entry; [done | by rewrite Ee |].
      destruct (di_entry _ r Hi1 p e Ee). by destruct (en_loop e) eqn:Epc; split; rewrite ?Epc.
    + destruct Hi1. split; rewrite (upd_none _ _ _ Ee); done.
  - injection E as <-. unfold onStreamAck. destruct (rl_entries r !! p) as [e |] eqn:Ee.
    + rewrite (upd_eq _ _ _ _ Ee). apply down_inv_entry; [done | by rewrite Ee |].
      destruct (di_entry _ r Hi1 p e Ee). split; cbn; try done; by apply evictUpTo_Forall.
    + destruct Hi1. split; rewrite (upd_none _ _ _ Ee); done.
  - injection E as <-. destruct Hi1. by split.
  - by eapply handleMigrate_down.
  - injection E as <-. eapply down_inv_control; [apply (admit_check_Q _ control_down) | done].
  - injection E as <-. apply (down_inv_rel _ r); [by apply charge_rel | done | done].
  - injection E as <-. eapply down_inv_control; [apply (death_reject_Q _ control_down) | done].
  - injection E as <-. eapply down_inv_control; [apply (death_publish_Q _ control_down) | done].
  - injection E as <-. eapply down_inv_control; [apply (grace_expire_Q _ control_down) | done].
  - injection E as <-. eapply down_inv_control; [apply (fin_relay_Q _ control_down) | done].
  - apply (down_inv_rel _ r); [| | done].
    + pose proof (entries_rel_pre _ HC).
      eapply (signalStreamEnd_Q _ (control_entries _ HC)); [| done]. intros. by apply same_entries_rel.
    + by eapply signalStreamEnd_log.
  - injection E as <-. destruct Hi1. by split.
Qed.

Lemma relay_run_down ops k key r r' :
  down_inv k r → 0 ≤ k → k + len ops < 2 ^ 64 → relay_run key r ops = Ret r' → down_inv (k + len ops) r'.
Proof.
  revert k r. induction ops as [| o ops IH]; intros k r Hi H0 Hk E.
  - injection E as <-. by rewrite (@len_nil relay_op), Z.add_0_r.
  - rewrite len_cons in *. pose proof (len_nonneg ops). cbn [relay_run] in E.
    destruct (relay_step key r o) as [r1 | |] eqn:E1; try done. cbn in E.
    replace (k + (1 + len ops)) with (k + 1 + len ops) by lia.
    eapply IH; [| lia | lia | done]. eapply relay_step_down; try done. lia.
Qed.

(** ** What the other end reassembles *)

Lemma frame_ok_range reads f : frame_ok reads f → 1 ≤ pf_seq f ≤ len reads.
Proof. intros [H1 H2]. apply lookup_lt_Some in H2. unfold len. lia. Qed.

(** The client pushes the frames it receives, in the order they arrive. *)
Fixpoint receive_frames (rm : reassembler) (fs : list pendingDownFrame) : list bytes :=
  match fs with
  | [] => []
  | f :: fs' => let '(out, _, rm') := push rm (pf_seq f) (pf_data f) in out ++ receive_frames rm' fs'
  end.

Definition read_number (eg : list bytes) (i : Z) : bytes := default [] (eg !! Z.to_nat (i - 1)).

Lemma receive_frames_push_all eg fs rm :
  Forall (frame_ok eg) fs →
  receive_frames rm fs = fst (push_all (read_number eg) rm (pf_seq <$> fs)).
Proof.
  intros H. revert rm. induction H as [| f fs [Hr Hf] _ IH]; intros rm; [done |].
  cbn [receive_frames fmap list_fmap push_all].
  replace (read_number eg (pf_seq f)) with (pf_data f) by (unfold read_number; by rewrite Hf).
  destruct (push rm (pf_seq f) (pf_data f)) as [[out st] rm1]. rewrite IH.
  by destruct (push_all _ rm1 _).
Qed.

Lemma run_from_take eg n :
  (n ≤ length eg)%nat → run_from (read_number eg) 1 n = take n eg.
Proof.
  intros Hn. apply list_eq. intros i.
  assert (∀ m s, run_from (read_number eg) s m !! i =
    if decide (i < m)%nat then Some (read_number eg (s + Z.of_nat i)) else None) as Hrun.
  { clear. revert i. intros i m. revert i. induction m as [| m IH]; intros i s; cbn [run_from].
    - by rewrite decide_False by lia.
    - destruct i as [| i]; cbn; [by rewrite Z.add_0_r |]. rewrite IH.
      repeat case_decide; try lia; [| done]. do 2 f_equal. lia. }
  rewrite Hrun. case_decide as Hi.
  - rewrite lookup_take_lt by done. unfold read_number. replace (Z.to_nat (1 + Z.of_nat i - 1)) with i by lia.
    destruct (eg !! i) eqn:E; [done |]. apply lookup_ge_None in E. lia.
  - by rewrite lookup_take_ge by lia.
Qed.

(** C4: the downlink of a relay survives migration.  Take any run of the
    server from an empty registry - connects, reads, sends, acks, MIGRATEs,
    RESUMEs, session deaths, evictions, in any interleaving - and any relay in
    it.  Whatever frames of it the client receives, over whatever slots, in
    whatever order, with whatever repetitions and losses, the reassembler hands
    to the application a prefix of what the relay read from its destination:
    nothing is duplicated, reordered, invented or taken from another stream.
    If every number up to [n] arrives, the first [n] reads are handed out. *)
Theorem relay_downlink_prefix key ops r0 r p e fs m :
  rl_entries r0 = ∅ → n_log (rl_net r0) = [] → len ops < 2 ^ 64 - 1 →
  relay_run key r0 ops = Ret r → rl_entries r !! p = Some e →
  (∀ f, f ∈ fs → ∃ b, (p, b, f) ∈ n_log (rl_net r)) →
  ∃ n, receive_frames (newReassembler m) fs = take n (egress e) ∧ (n ≤ length (egress e))%nat
    ∧ (∀ i, 1 ≤ i ≤ Z.of_nat n → i ∈ pf_seq <$> fs) ∧ 1 + Z.of_nat n ∉ pf_seq <$> fs.
Proof.
  intros He0 Hl0 Hlen Hrun He Hfs.
  assert (down_inv 0 r0) as Hi0.
  { split; intros *; [by rewrite He0 |]. rewrite Hl0. by rewrite elem_of_nil. }
  pose proof (relay_run_down ops 0 key r0 r Hi0 ltac:(lia) ltac:(lia) Hrun) as Hi.
  pose proof (di_entry _ _ Hi p e He) as Hd. destruct (ed_counter _ _ _ _ Hd) as [_ Hk].
  assert (Forall (frame_ok (egress e)) fs) as Hok.
  { apply Forall_forall. intros f Hf. destruct (Hfs f Hf) as [b Hb]. by apply (ed_log _ _ _ _ Hd b). }
  assert (Forall (λ s, 1 ≤ s < 2 ^ 64 - 1) (pf_seq <$> fs)) as Hs.
  { apply Forall_fmap. eapply Forall_impl; [done |]. intros f Hf%frame_ok_range. cbn. lia. }
  rewrite (receive_frames_push_all _ _ _ Hok).
  destruct (push_all_spec (read_number (egress e)) (pf_seq <$> fs) ∅ (newReassembler m) (reasm_state_new _ m) Hs)
    as (n & rm & -> & [Hri Hnot] & Hexp); [set_solver |].
  cbn [expectedSeq newReassembler fst] in *. rewrite union_empty_r_L in *.
  assert (∀ i, 1 ≤ i ≤ Z.of_nat n → i ∈ pf_seq <$> fs) as Hall.
  { intros i Hin. assert (i ∈ (list_to_set (pf_seq <$> fs) : gset Z)) by (apply (ri_below _ _ rm Hri); lia).
    set_solver. }
  assert (n ≤ length (egress e))%nat as Hn.
  { destruct n as [| n]; [lia |]. specialize (Hall (Z.of_nat (S n)) ltac:(lia)).
    apply list_elem_of_fmap in Hall as (f & Hf & Hin). rewrite Forall_forall in Hok.
    pose proof (frame_ok_range _ _ (Hok f Hin)) as Hr. unfold len in Hr. lia. }
  exists n. split_and!; [by apply run_from_take | done | done |]. rewrite <- Hexp. set_solver.
Qed.

(** ** The descriptor budget *)

Definition fd_of (r : relays) (p : nat) : bool :=
  match rl_entries r !! p with Some e => holdsFD e | None => false end.

(** The relays charged to the budget. *)
Definition fd_holders (r : relays) : gset nat :=
  dom (filter (λ pe, holdsFD (snd pe) = true) (rl_entries r)).

Lemma elem_of_holders r p : p ∈ fd_holders r ↔ fd_of r p = true.
Proof.
  unfold fd_holders, fd_of. rewrite elem_of_dom. split.
  - intros [e He]. apply map_lookup_filter_Some in He as [He Hf]. by rewrite He.
  - destruct (rl_entries r !! p) as [e |] eqn:E; [| done]. intros Hf. exists e. by apply map_lookup_filter_Some.
Qed.

(** Charges are only given back, each at most once. *)
Definition fd_step (r r' : relays) : Prop :=
  fd_holders r' ⊆ fd_holders r
  ∧ orphanedFDInUse r' - orphanedFDInUse r = Z.of_nat (size (fd_holders r')) - Z.of_nat (size (fd_holders r)).

#[local] Instance fd_step_pre : PreOrder fd_step.
Proof.
  split; unfold fd_step; [intros r; split; [done | lia] |].
  intros r1 r2 r3 [A1 B1] [A2 B2]. split; [set_solver | lia].
Qed.

Lemma fd_step_same r r' :
  (∀ p, fd_of r' p = fd_of r p) → orphanedFDInUse r' = orphanedFDInUse r → fd_step r r'.
Proof.
  intros Hp Hu. assert (fd_holders r' = fd_holders r) as E.
  { apply leibniz_equiv. intros p. by rewrite !elem_of_holders, Hp. }
  split; rewrite E; [done | lia].
Qed.

Lemma fd_step_upd r p f : (∀ e, holdsFD (f e) = holdsFD e) → fd_step r (upd r p f).
Proof.
  intros Hf. apply fd_step_same; [| done]. intros q. unfold fd_of. cbn.
  destruct (decide (p = q)) as [<- | Hne]; [| by rewrite lookup_alter_ne].
  rewrite lookup_alter_eq. destruct (rl_entries r !! p); [apply Hf | done].
Qed.

Lemma fd_of_upd_fd r p h q e :
  rl_entries r !! p = Some e → fd_of (upd r p (λ e, set_fd e h)) q = if decide (p = q) then h else fd_of r q.
Proof.
  intros Ee. unfold fd_of. cbn. case_decide as Hq; [subst q; by rewrite lookup_alter_eq, Ee |].
  by rewrite lookup_alter_ne.
Qed.

Lemma releaseOrphanFD_fd r p : fd_step r (releaseOrphanFD r p).
Proof.
  unfold releaseOrphanFD. destruct (rl_entries r !! p) as [e |] eqn:Ee; [| done].
  destruct (holdsFD e) eqn:Eh; [| done].
  match goal with |- fd_step _ ?r1 => assert (fd_holders r1 = fd_holders r ∖ {[p]}) as E end.
  { apply leibniz_equiv. intros q. rewrite elem_of_difference, !elem_of_holders, elem_of_singleton.
    change (fd_of (upd r p (λ e, set_fd e false)) q = true ↔ fd_of r q = true ∧ q ≠ p).
    rewrite (fd_of_upd_fd _ _ _ _ _ Ee). case_decide; naive_solver. }
  assert (p ∈ fd_holders r) as Hin by (apply elem_of_holders; unfold fd_of; by rewrite Ee).
  split; rewrite E; cbn; [set_solver |].
  rewrite size_difference by set_solver. rewrite size_singleton.
  assert (size (fd_holders r) ≠ 0)%nat; [| lia].
  intros Hz. apply size_empty_inv in Hz. set_solver.
Qed.

Lemma control_fd r r' : control_change r r' → fd_step r r'.
Proof.
  destruct 1; try (by apply fd_step_same); try (apply fd_step_upd; intros; done || by case_bool_decide).
  apply releaseOrphanFD_fd.
Qed.

Lemma charge_fd r p e :
  rl_entries r !! p = Some e → holdsFD e = false →
  orphanedFDInUse (charge r p) = orphanedFDInUse r + 1
  ∧ size (fd_holders (charge r p)) = S (size (fd_holders r)).
Proof.
  intros Ee Hh. split; [done |].
  assert (fd_holders (charge r p) = {[p]} ∪ fd_holders r) as ->.
  { apply leibniz_equiv. intros q. rewrite elem_of_union, !elem_of_holders, elem_of_singleton.
    unfold charge. rewrite (fd_of_upd_fd _ p true q e) by done. case_decide; naive_solver. }
  rewrite size_union, size_singleton; [done |].
  assert (p ∉ fd_holders r); [| set_solver]. rewrite elem_of_holders. unfold fd_of. by rewrite Ee, Hh.
Qed.

Definition fd_balanced (r : relays) : Prop := orphanedFDInUse r = Z.of_nat (size (fd_holders r)).

Lemma fd_step_balanced r r' : fd_step r r' → fd_balanced r → fd_balanced r'.
Proof. unfold fd_step, fd_balanced. lia. Qed.

(** ** What the other operations can do *)

(** The relay has a binding and holds nothing in its buffer. *)
Definition unbuffered (e : relayEntry) : Prop :=
  bound e ≠ None ∧ bb_frames (downBuffer e) = [] ∧ bb_bytes (downBuffer e) = 0.

(** Everything but the data of the downlink is unchanged, and the data too once
    the relay is closing. *)
Record same_control (e e' : relayEntry) : Prop := {
  sc_state : en_state e' = en_state e;
  sc_fd : holdsFD e' = holdsFD e;
  sc_tc : tc_open e' = tc_open e;
  sc_closed : closeCh_closed e' = closeCh_closed e;
  sc_key : originClientID e' = originClientID e ∧ globalStreamID e' = globalStreamID e
           ∧ originSessionNonce e' = originSessionNonce e;
  sc_data : en_state e = stClosing → egress e' = egress e ∧ downSeqCounter e' = downSeqCounter e;
  sc_buffer : unbuffered e → unbuffered e';
}.

#[local] Instance same_control_pre : PreOrder same_control.
Proof.
  split; [by split |]. intros e1 e2 e3 [S1 F1 T1 C1 K1 D1 B1] [S2 F2 T2 C2 K2 D2 B2].
  split; try congruence; [intuition congruence | | auto].
  intros Hs. destruct (D1 Hs), (D2 ltac:(congruence)). split; congruence.
Qed.

Inductive data_change (r : relays) : relays → Prop :=
| dc_net n : data_change r (with_net r n)
| dc_credits m : data_change r (with_credits r m)
| dc_entry p e e' : rl_entries r !! p = Some e → same_control e e' →
    data_change r (with_entries r (<[p := e']> (rl_entries r))).

Section steps.
Context (Q : relays → relays → Prop) `{!PreOrder Q}.
Context (HQ : ∀ r r', control_change r r' → Q r r') (HD : ∀ r r', data_change r r' → Q r r').

Lemma upd_D r p f : (∀ e, same_control e (f e)) → Q r (upd r p f).
Proof using HD PreOrder0.
  intros Hf. destruct (rl_entries r !! p) as [e |] eqn:Ee.
  - rewrite (upd_eq _ _ _ _ Ee). by eapply HD, dc_entry.
  - unfold upd. replace (alter f p (rl_entries r)) with (rl_entries r); [by destruct r |].
    apply map_eq. intros q. destruct (decide (p = q)) as [<- | Hne]; [by rewrite lookup_alter_eq, Ee |].
    by rewrite lookup_alter_ne.
Qed.

Lemma finish_frame_D r p n now r' : finish_frame r p n now = Ret r' → Q r r'.
Proof using HD PreOrder0.
  unfold finish_frame. destruct (rl_entries r !! p) as [e |]; [| done].
  destruct (en_credit e) as [c |]; [| done]. intros [= <-].
  etransitivity; [apply (upd_D r p (λ e, set_loop (set_lastDown e now) LRead)); by split |].
  apply HD, dc_credits.
Qed.

Lemma routeDownFrame_control e data :
  match routeDownFrame e data with
  | RouteSend _ _ e' | RouteBuffered e' => same_control e e'
  | _ => True
  end.
Proof using.
  unfold routeDownFrame. destruct (closeCh_closed e); [done |]. case_bool_decide as Hs; [done |].
  destruct (bound e) as [b |] eqn:Eb; [unfold byteLen; destruct (Z.eqb_spec (bb_bytes (downBuffer e)) 0) as [Hz | Hz] |].
  - destruct (Push (unackedTail e) _). by split.
  - destruct (Push (downBuffer e) _) as [[|] db]; [| done]. split; try done. by intros (_ & _ & ?).
  - destruct (Push (downBuffer e) _) as [[|] db]; [| done]. split; try done. by intros [? _].
Qed.

Lemma loop_read_D r p data now r' : loop_read r p data now = Ret r' → Q r r'.
Proof using HD PreOrder0.
  unfold loop_read. destruct (rl_entries r !! p) as [e |] eqn:Ee; [| done].
  destruct (en_loop e); try done. destruct (read_limit r e) as [limit |]; [| done].
  destruct (limit <=? 0); [intros [= <-]; apply upd_D; by split |].
  destruct (negb _ || negb _); [done |]. pose proof (routeDownFrame_control e data) as Hc.
  destruct (routeDownFrame e data) as [| b f e' | e' |]; try done.
  - intros [= <-]. apply upd_D. by split.
  - intros [= <-]. eapply HD, dc_entry; [done |]. etransitivity; [exact Hc | by split].
  - intros E. etransitivity; [by eapply HD, dc_entry | by eapply finish_frame_D].
Qed.

Lemma loop_send_D r p m now r' : loop_send r p m now = Ret r' → Q r r'.
Proof using HD PreOrder0.
  unfold loop_send. destruct (rl_entries r !! p) as [e |]; [| done]. destruct (en_loop e); try done.
  destruct (enqueueDownFrame _ _ _ _ _ _) as [n' | |]; try done. cbn [mbind outcome_bind].
  intros E. etransitivity; [apply HD, dc_net | by eapply finish_frame_D].
Qed.

Lemma reassociate_D r p b m aDead seq r' : reassociate r p b m aDead = Ret (seq, r') → Q r r'.
Proof using HD PreOrder0.
  unfold reassociate. destruct (rl_entries r !! p) as [e |]; [| done]. cbn [drainAll].
  destruct (enqueue_all _ _ _ _ _ _) as [n1 | |]; try done. cbn [mbind outcome_bind].
  destruct (if _ && _ then _ else _) as [n2 | |]; try done. intros [= <- <-].
  etransitivity; [| apply HD, dc_net]. apply upd_D. split; try done. by intros (? &  _).
Qed.

Lemma reply_fail_D r b flag sid reason r' : reply_fail r b flag sid reason = Ret r' → Q r r'.
Proof using HD.
  unfold reply_fail. destruct (enqueueMigrateFail _ _ _ _ _) as [n' | |]; try done. intros [= <-].
  apply HD, dc_net.
Qed.

Lemma handleMigrate_Q key r flag payload c b m r' :
  handleMigrateOrResume key r flag payload c b m = Ret r' → Q r r'.
Proof using All.
  unfold handleMigrateOrResume. destruct (ParseMigrateFrame payload) as [[sid proof] | |]; [| by intros [= <-] | done].
  destruct (relay_find r c sid) as [p |]; [| by apply reply_fail_D].
  destruct (rl_entries r !! p) as [e |]; [| done].
  destruct (negb (VerifyStreamProof _ _ _ _ _)); [by apply reply_fail_D |].
  set (r1 := upd r p (λ e, set_bound e b)).
  assert (Q r r1) as H1 by (apply upd_D; intros e0; split; try done; by intros (_ & ? & ?)).
  pose proof (cas_Q Q HQ r1 p stOrphaned stActive ltac:(done)) as Hc.
  assert (∀ ok r2, (if flag =? FlagResume then let '(won, r') := cas r1 p stOrphaned stActive in
      (won, if won then releaseOrphanFD r' p else r') else (true, r1)) = (ok, r2) → Q r r2) as H2.
  { intros ok r2. destruct (flag =? FlagResume); [| by intros [= <- <-]].
    destruct (cas r1 p stOrphaned stActive) as [[|] r'']; cbn in Hc; intros [= <- <-];
      (etransitivity; [exact H1 |]); [| exact Hc].
    etransitivity; [exact Hc | apply HQ, cc_release]. }
  destruct (if flag =? FlagResume then _ else _) as [ok r2] eqn:E2. specialize (H2 ok r2 eq_refl).
  destruct ok; cbn [negb]; [| intros E; etransitivity; [exact H2 | by eapply reply_fail_D]].
  destruct (reassociate r2 p b m _) as [[seq r3] | |] eqn:Er; try done. cbn [mbind outcome_bind].
  destruct (enqueueMigrateOK _ _ _ _ _) as [n' | |]; try done. intros [= <-].
  etransitivity; [exact H2 |]. etransitivity; [by eapply reassociate_D | apply HD, dc_net].
Qed.

Lemma relay_step_Q key r o r' :
  relay_step key r o = Ret r' →
  match o with
  | RConnect p c sid nonce w cr b =>
    rl_entries r !! p = None ∧ r' = connect_register r p (connect_entry c sid nonce w (Some cr) b)
  | RDeathCharge p => r' = charge r p
  | _ => Q r r'
  end.
Proof using All.
  destruct o as [p c sid nonce w cr b | p data now | p now | p | p a | c d w | flag payload c b
    | c p now | p | p | p now | p | c sid | p | w]; cbn [relay_step].
  - destruct (rl_entries r !! p); [done |]. by intros [= <-].
  - apply loop_read_D.
  - apply loop_send_D.
  - intros [= <-]. apply upd_D. intros e. by destruct (en_loop e); split.
  - intros [= <-]. apply upd_D. intros e. split; try done.
    intros (Hb & Hf & Hn). split; [done |]. cbn. unfold evictUpTo. by rewrite Hf.
  - intros [= <-]. apply HD, dc_credits.
  - apply handleMigrate_Q.
  - intros [= <-]. by apply admit_check_Q.
  - by intros [= <-].
  - intros [= <-]. by apply death_reject_Q.
  - intros [= <-]. by apply death_publish_Q.
  - intros [= <-]. by apply grace_expire_Q.
  - intros [= <-]. by apply fin_relay_Q.
  - apply (signalStreamEnd_Q Q HQ). intros. apply HD, dc_net.
  - intros [= <-]. apply HD, dc_net.
Qed.

End steps.

Lemma data_fd r r' : data_change r r' → fd_step r r'.
Proof.
  destruct 1 as [n | m | p e e' Ee Hs]; [by apply fd_step_same .. |].
  apply fd_step_same; [| done]. intros q. unfold fd_of. cbn. destruct (decide (p = q)) as [<- | Hne].
  - rewrite lookup_insert_eq, Ee. apply (sc_fd _ _ Hs).
  - by rewrite lookup_insert_ne.
Qed.

(** Every charge of the run is of a registered relay that holds none. *)
Fixpoint charges_fresh (masterKey : bytes) (r : relays) (ops : list relay_op) : bool :=
  match ops with
  | [] => true
  | o :: ops' =>
    (match o with
     | RDeathCharge p => match rl_entries r !! p with Some e => negb (holdsFD e) | None => false end
     | _ => true
     end)
    && match relay_step masterKey r o with
       | Ret r' => charges_fresh masterKey r' ops'
       | _ => true
       end
  end.

Lemma connect_register_fd r p c sid nonce w cr b :
  rl_entries r !! p = None → fd_balanced r → fd_balanced (connect_register r p (connect_entry c sid nonce w cr b)).
Proof.
  intros Hp. apply fd_step_balanced, fd_step_same; [| done].
  intros q. unfold fd_of. cbn. destruct (decide (p = q)) as [<- | Hne]; [by rewrite lookup_insert_eq, Hp |].
  by rewrite lookup_insert_ne.
Qed.

(** The descriptor counter is exact.  In any run whose charges are each of
    a relay that holds none - what the cleanup of a dying session intends - the
    counter compared with the budget is the number of relays charged to it,
    however RESUMEs, evictions, grace timers, FINs and lost state changes
    interleave with the charges: no path gives a descriptor back twice or
    forgets it. *)
Theorem fd_accounting key ops r r' :
  fd_balanced r → charges_fresh key r ops = true → relay_run key r ops = Ret r' → fd_balanced r'.
Proof.
  revert r. induction ops as [| o ops IH]; intros r Hb Hf E; cbn [charges_fresh relay_run] in *.
  - by injection E as <-.
  - destruct (relay_step key r o) as [r1 | |] eqn:Es; try done. cbn [mbind outcome_bind] in E.
    apply andb_prop in Hf as [Hc Hf]. apply (IH r1); [| done | done].
    pose proof (relay_step_Q fd_step control_fd data_fd key r o r1 Es) as Hq.
    destruct o; try (eapply fd_step_balanced; [exact Hq | exact Hb]).
    + destruct Hq as [Hp ->]. by apply connect_register_fd.
    + subst r1. destruct (rl_entries r !! p) as [e |] eqn:Ee; [| done]. apply negb_true_iff in Hc.
      destruct (charge_fd r p e Ee Hc) as [H1 H2]. unfold fd_balanced in *. lia.
Qed.

(** ** Closing is final *)

(** How an entry may have changed since it was closing. *)
Record closing_after (e e' : relayEntry) : Prop := {
  ca_state : en_state e' = stClosing;
  ca_tc : tc_open e = false → tc_open e' = false;
  ca_closed : closeCh_closed e = true → closeCh_closed e' = true;
  ca_data : egress e' = egress e ∧ downSeqCounter e' = downSeqCounter e;
}.

Definition closing_rel (e e' : relayEntry) : Prop := en_state e = stClosing → closing_after e e'.

Lemma closing_rel_control : control_rel closing_rel.
Proof.
  split; [| unfold closing_rel; by intros; try (by split; cbn) ..].
  split; unfold closing_rel; [by split |]. intros e1 e2 e3 H1 H2 Hs. destruct (H1 Hs) as [S1 T1 C1 D1].
  destruct (H2 S1) as [S2 T2 C2 D2]. split; [done | naive_solver .. | intuition congruence].
Qed.

Lemma data_closing r r' : data_change r r' → entries_rel closing_rel r r'.
Proof.
  pose proof closing_rel_control as HC. destruct 1 as [n | m | p e e' Ee Hs]; [by apply same_entries_rel .. |].
  intros q. cbn. destruct (decide (p = q)) as [<- | Hne].
  - rewrite lookup_insert_eq, Ee. constructor. intros Hcl. destruct Hs as [S1 F1 T1 C1 _ D1 _].
    split; [congruence .. | by apply D1].
  - rewrite lookup_insert_ne by done. apply (entries_rel_pre _ HC).
Qed.

Lemma relay_step_closing key r o r' p e :
  relay_step key r o = Ret r' → rl_entries r !! p = Some e → en_state e = stClosing →
  ∃ e', rl_entries r' !! p = Some e' ∧ closing_after e e'.
Proof.
  intros E Ee Hs. pose proof closing_rel_control as HC. pose proof (entries_rel_pre _ HC).
  pose proof (relay_step_Q _ (control_entries _ HC) data_closing key r o r' E) as Hq.
  assert (entries_rel closing_rel r r' → ∃ e', rl_entries r' !! p = Some e' ∧ closing_after e e') as Hend.
  { intros Hr. specialize (Hr p). rewrite Ee in Hr. inversion Hr; subst. eexists. split; [done |]. auto. }
  destruct o; try (by apply Hend).
  - destruct Hq as [Hp ->]. exists e. split; [cbn; rewrite lookup_insert_ne; [done | congruence] | by split].
  - subst r'. by apply Hend, charge_rel.
Qed.

(** A relay that is closing stays closed.  Once the state is closing, no
    later operation - no RESUME, MIGRATE, session death, timer or read -
    revives the relay or gives another read a number, and a closed egress
    connection or close channel is never opened again. *)
Theorem closing_is_final key ops r r' p e :
  relay_run key r ops = Ret r' → rl_entries r !! p = Some e → en_state e = stClosing →
  ∃ e', rl_entries r' !! p = Some e' ∧ closing_after e e'.
Proof.
  revert r e. induction ops as [| o ops IH]; intros r e E Ee Hs; cbn [relay_run] in E.
  - injection E as <-. exists e. split; [done | by split].
  - destruct (relay_step key r o) as [r1 | |] eqn:Es; try done. cbn [mbind outcome_bind] in E.
    destruct (relay_step_closing _ _ _ _ _ _ Es Ee Hs) as (e1 & Ee1 & H1).
    destruct (IH r1 e1 E Ee1 (ca_state _ _ H1)) as (e2 & Ee2 & H2).
    exists e2. split; [done |]. destruct H1 as [S1 T1 C1 D1], H2 as [S2 T2 C2 D2].
    split; [done | auto .. | intuition congruence].
Qed.

(** ** Migration *)

(** A slot that can send: a live session with its send epoch, an open writer. *)
Definition slot_ready (n : net) (b : binding) : Prop :=
  ∃ s ep sent, n_sessions n !! b_session b = Some s ∧ session_wf s ∧ alive s
    ∧ newGCM (SendKey s) = Ret (SendKey s) ∧ sendEpochPtr s = Some ep
    ∧ n_writers n !! b_writer b = Some (true, sent) ∧ pools_wf (n_pools n).

Lemma EncryptChunk_ready pools s c ep :
  pools_wf pools → session_wf s → alive s → newGCM (SendKey s) = Ret (SendKey s) → sendEpochPtr s = Some ep →
  ∃ enc pools' s', EncryptChunk pools s c None = Ret (enc, pools', s') ∧ pools_wf pools' ∧ session_wf s'
    ∧ alive s' ∧ SendKey s' = SendKey s ∧ sendEpochPtr s' = Some ep.
Proof.
  intros Hp Hw Ha Hk Hep.
  assert (EncryptChunk pools s c None = EncryptChunk pools s c (Some (replicate 12 0))) as ->
    by (unfold EncryptChunk; by rewrite Hep).
  destruct (EncryptChunk_eq pools s c (replicate 12 0) Hp Hw Ha Hk) as (n & pools' & s' & E & _ & Hp' & Hw' & Ha' & Hk' & _);
    [done |].
  exists (wire (SendKey s) n c), pools', s'. split_and!; try done.
  unfold EncryptChunk in E. rewrite Ha, Hep in E. destruct (epoch_fetch_add _ _) as [[[g k] eps] |]; [| done].
  destruct (EncryptWith _ _ _ _) as [[o q] | |]; try done. injection E. intros <- _ _. done.
Qed.

Lemma send_chunk_ready n b mk :
  slot_ready n b →
  (∀ pools id seq, pools_wf pools → ∃ c back pools', mk pools id seq = Ret (c, back, pools') ∧ pools_wf pools') →
  ∃ n', send_chunk n b mk = Ret (true, n') ∧ slot_ready n' b ∧ n_log n' = n_log n.
Proof.
  intros (s & ep & sent & Hs & Hw & Ha & Hk & Hep & Hwr & Hp) Hmk. unfold send_chunk. rewrite Hs.
  destruct (NextSeqNum s) as [seq s1] eqn:Es.
  assert (session_wf s1 ∧ alive s1 ∧ SendKey s1 = SendKey s ∧ sendEpochPtr s1 = Some ep) as (Hw1 & Ha1 & Hk1 & Hep1).
  { unfold NextSeqNum in Es. injection Es as <- <-. split_and!; try done.
    destruct Hw. split; cbn; try done. apply u32_range. }
  destruct (Hmk (n_pools n) (ID s) seq Hp) as (c & back & pools1 & -> & Hp1). cbn [mbind outcome_bind].
  destruct (EncryptChunk_ready pools1 s1 c ep Hp1 Hw1 Ha1) as (enc & pools2 & s2 & -> & Hp2 & Hw2 & Ha2 & Hk2 & Hep2);
    [by rewrite Hk1 | done |].
  unfold enqueue. cbn [n_writers]. rewrite Hwr. eexists. split; [done |]. split; [| done].
  exists s2, ep, (sent ++ [enc]). cbn. rewrite !lookup_insert_eq. split_and!; try done; [congruence |].
  by apply PutBuffer_wf.
Qed.

(** A frame fits a pooled buffer with its header. *)
Definition frame_small (f : pendingDownFrame) : Prop := 10 + len (pf_data f) ≤ 65536.

Lemma enqueueDownFrame_ready n p sid b m f :
  slot_ready n b → frame_small f →
  ∃ n', enqueueDownFrame n p sid b m f = Ret n' ∧ slot_ready n' b ∧ n_log n' = n_log n ++ [(p, b, f)].
Proof.
  intros Hr Hf. unfold frame_small in Hf. unfold enqueueDownFrame.
  match goal with |- context [send_chunk n b ?mk] =>
    destruct (send_chunk_ready n b mk Hr) as (n' & -> & (s & ep & sent & Hr') & Hl) end.
  { intros pools id seq Hp. destruct m.
    - destruct (NewStreamDataChunkSeq_eq pools id seq sid (pf_seq f) (pf_data f) Hp) as (back & pools' & -> & H);
        [lia |]. eexists _, _, _. split; [done | apply H].
    - destruct (NewStreamDataChunk_eq pools id seq sid (pf_data f) Hp) as (back & pools' & -> & H);
        [lia |]. eexists _, _, _. split; [done | apply H]. }
  eexists. split; [done |]. split; [by exists s, ep, sent | cbn; by rewrite Hl].
Qed.

Lemma enqueue_all_ready p sid b m fs n :
  slot_ready n b → Forall frame_small fs →
  ∃ n', enqueue_all n p sid b m fs = Ret n' ∧ slot_ready n' b
    ∧ n_log n' = n_log n ++ ((λ f, (p, b, f)) <$> fs).
Proof.
  revert n. induction fs as [| f fs IH]; intros n Hr Hs; cbn [enqueue_all fmap list_fmap].
  - exists n. by rewrite app_nil_r.
  - apply Forall_cons_1 in Hs as [Hf Hs].
    destruct (enqueueDownFrame_ready n p sid b m f Hr Hf) as (n1 & -> & Hr1 & Hl1). cbn [mbind outcome_bind].
    destruct (IH n1 Hr1 Hs) as (n2 & -> & Hr2 & Hl2). exists n2. split_and!; try done.
    by rewrite Hl2, Hl1, <- app_assoc.
Qed.

Lemma unpooled_ready c :
  (∀ id seq, ∃ x, c id seq = Ret x) →
  ∀ pools id seq, pools_wf pools →
    ∃ x back pools', unpooled c pools id seq = Ret (x, back, pools') ∧ pools_wf pools'.
Proof. intros H pools id seq Hp. unfold unpooled. destruct (H id seq) as [x ->]. by eexists _, _, _. Qed.

Lemma send_close_ready n b sid :
  slot_ready n b → ∃ n', send_close n b sid = Ret n' ∧ slot_ready n' b ∧ n_log n' = n_log n.
Proof.
  intros Hr. unfold send_close.
  match goal with |- context [send_chunk n b ?mk] => destruct (send_chunk_ready n b mk Hr) as (n' & -> & H) end.
  { apply unpooled_ready. intros id seq. by eexists. }
  by exists n'.
Qed.

Lemma VerifyStreamProof_eq proof key c sid nonce :
  VerifyStreamProof proof key c sid nonce = true ↔ proof = ComputeStreamProof key c sid nonce.
Proof. unfold VerifyStreamProof, bytes_eqb. by rewrite bool_decide_eq_true. Qed.

(** Every entry but [p] is the same. *)
Definition only_entry (p : nat) (r r' : relays) : Prop :=
  ∀ q, q ≠ p → rl_entries r' !! q = rl_entries r !! q.

Lemma upd_only r p f : only_entry p r (upd r p f).
Proof. intros q Hq. cbn. by rewrite lookup_alter_ne. Qed.

Lemma releaseOrphanFD_only r p : only_entry p r (releaseOrphanFD r p).
Proof.
  unfold releaseOrphanFD. destruct (rl_entries r !! p) as [e |]; [| done]. destruct (holdsFD e); [| done].
  intros q Hq. cbn. by rewrite lookup_alter_ne.
Qed.

Lemma reassociate_only r p b m aDead seq r' : reassociate r p b m aDead = Ret (seq, r') → only_entry p r r'.
Proof.
  unfold reassociate. destruct (rl_entries r !! p) as [e |]; [| done]. cbn [drainAll].
  destruct (enqueue_all _ _ _ _ _ _) as [n1 | |]; try done. cbn [mbind outcome_bind].
  destruct (if _ && _ then _ else _) as [n2 | |]; try done. intros [= <- <-]. apply upd_only.
Qed.

(** C22: only the owner of a stream can move it.  A MIGRATE or RESUME frame
    leaves every relay, the registry and the descriptor counter as they were,
    unless it names a stream of the sending client and carries the proof
    computed from that client's key, the stream and the nonce of the session
    the stream was opened in; then no relay but that one is touched. *)
Theorem migrate_needs_proof key r flag payload c b m r' :
  handleMigrateOrResume key r flag payload c b m = Ret r' →
  (rl_entries r' = rl_entries r ∧ byClient r' = byClient r ∧ orphanedFDInUse r' = orphanedFDInUse r)
  ∨ ∃ sid p e,
      ParseMigrateFrame payload
        = Ret (sid, ComputeStreamProof (DeriveServerPerClientKey key c) c sid (originSessionNonce e))
      ∧ relay_find r c sid = Some p ∧ rl_entries r !! p = Some e ∧ only_entry p r r'.
Proof.
  intros E. unfold handleMigrateOrResume in E.
  assert (∀ r0 sid reason r', reply_fail r0 b flag sid reason = Ret r' →
    rl_entries r' = rl_entries r0 ∧ byClient r' = byClient r0 ∧ orphanedFDInUse r' = orphanedFDInUse r0) as Hfail.
  { intros r0 sid reason r0'. unfold reply_fail. destruct (enqueueMigrateFail _ _ _ _ _); try done. by intros [= <-]. }
  destruct (ParseMigrateFrame payload) as [[sid proof] | |] eqn:Ep; [| injection E as <-; by left | done].
  destruct (relay_find r c sid) as [p |] eqn:Ef; [| left; by eapply Hfail].
  destruct (rl_entries r !! p) as [e |] eqn:Ee; [| done].
  destruct (VerifyStreamProof proof _ c sid _) eqn:Ev; cbn [negb] in E; [| left; by eapply Hfail].
  apply VerifyStreamProof_eq in Ev as ->. right. exists sid, p, e. split_and!; try done.
  set (r1 := upd r p (λ e, set_bound e b)) in E.
  assert (only_entry p r r1) as H1 by apply upd_only.
  assert (∀ ok r2, (if flag =? FlagResume then let '(won, r') := cas r1 p stOrphaned stActive in
      (won, if won then releaseOrphanFD r' p else r') else (true, r1)) = (ok, r2) → only_entry p r r2) as H2.
  { intros ok r2. destruct (flag =? FlagResume); [| by intros [= <- <-]].
    destruct (cas r1 p stOrphaned stActive) as [won r''] eqn:Ec.
    assert (only_entry p r r'') as H3.
    { unfold cas in Ec. destruct (rl_entries r1 !! p); [| by injection Ec as <- <-].
      case_decide; injection Ec as <- <-; [| done]. intros q Hq. rewrite <- H1 by done. by apply upd_only. }
    destruct won; intros [= <- <-]; [| done]. intros q Hq. rewrite <- H3 by done. by apply releaseOrphanFD_only. }
  destruct (if flag =? FlagResume then _ else _) as [ok r2] eqn:E2. specialize (H2 ok r2 eq_refl).
  destruct ok; cbn [negb] in E.
  - destruct (reassociate r2 p b m _) as [[seq r3] | |] eqn:Er; try done. cbn [mbind outcome_bind] in E.
    destruct (enqueueMigrateOK _ _ _ _ _) as [n' | |]; try done. injection E as <-.
    intros q Hq. rewrite <- H2 by done. by apply (reassociate_only _ _ _ _ _ _ _ Er).
  - apply Hfail in E as [E _]. intros q Hq. by rewrite E, H2.
Qed.

Lemma enqueueMigrateOK_ready n b flag sid seq :
  slot_ready n b → ∃ n', enqueueMigrateOK n b flag sid seq = Ret n' ∧ n_log n' = n_log n.
Proof.
  intros Hr. unfold enqueueMigrateOK.
  match goal with |- context [send_chunk n b ?mk] => destruct (send_chunk_ready n b mk Hr) as (n' & -> & H) end.
  { apply unpooled_ready. intros id q. rewrite BuildMigrateOK_eq. by eexists. }
  exists n'. split; [done | apply H].
Qed.

Lemma reassociate_ready r p b m aDead e :
  rl_entries r !! p = Some e → slot_ready (rl_net r) b →
  Forall frame_small (bb_frames (downBuffer e) ++ bb_frames (unackedTail e)) →
  ∃ n', reassociate r p b m aDead
      = Ret (downSeqCounter e,
             with_net (upd r p (λ e, set_buffers e (mkBuf [] 0 (bb_maxByte (downBuffer e))) (unackedTail e))) n')
    ∧ slot_ready n' b
    ∧ n_log n' = n_log (rl_net r)
        ++ ((λ f, (p, b, f)) <$> bb_frames (downBuffer e) ++ if aDead then bb_frames (unackedTail e) else []).
Proof.
  intros Ee Hr Hs. unfold reassociate. rewrite Ee. cbn [drainAll]. unfold tailFrames.
  destruct (enqueue_all_ready p (globalStreamID e) b m
    (bb_frames (downBuffer e) ++ if aDead then bb_frames (unackedTail e) else []) (rl_net r) Hr)
    as (n1 & E1 & Hr1 & Hl1).
  { apply Forall_app in Hs as [? ?]. apply Forall_app. split; [done |]. by destruct aDead. }
  change (rl_net (upd r p _)) with (rl_net r). rewrite E1. cbn [mbind outcome_bind].
  assert (∃ n2, (if originDeathTeardown (rl_limits r) && destClosed e then send_close n1 b (globalStreamID e)
                 else Ret n1) = Ret n2 ∧ slot_ready n2 b ∧ n_log n2 = n_log n1) as (n2 & E2 & Hr2 & Hl2).
  { destruct (_ && _); [by apply send_close_ready | by exists n1]. }
  rewrite E2. cbn [mbind outcome_bind]. exists n2. split_and!; [| done | congruence].
  do 3 f_equal. unfold upd. f_equal. apply map_eq. intros q.
  destruct (decide (p = q)) as [<- | Hne]; [by rewrite !lookup_alter_eq, Ee | by rewrite !lookup_alter_ne].
Qed.

(** RESUME brings an orphaned relay back whole.  On a slot that can send,
    a proven RESUME returns normally, makes the relay active on the new slot,
    gives its descriptor back, and sends there - once each, before the reply -
    every frame held while nobody listened and every frame the client has not
    acknowledged; a grace timer that fires afterwards does nothing. *)
Theorem resume_replays key r payload c b sid p e :
  ParseMigrateFrame payload
    = Ret (sid, ComputeStreamProof (DeriveServerPerClientKey key c) c sid (originSessionNonce e)) →
  relay_find r c sid = Some p → rl_entries r !! p = Some e → en_state e = stOrphaned →
  slot_ready (rl_net r) b →
  Forall frame_small (bb_frames (downBuffer e) ++ bb_frames (unackedTail e)) →
  ∃ r' e', handleMigrateOrResume key r FlagResume payload c b true = Ret r'
    ∧ rl_entries r' !! p = Some e'
    ∧ en_state e' = stActive ∧ bound e' = Some b ∧ holdsFD e' = false
    ∧ bb_frames (downBuffer e') = [] ∧ unackedTail e' = unackedTail e ∧ downSeqCounter e' = downSeqCounter e
    ∧ n_log (rl_net r') = n_log (rl_net r)
        ++ ((λ f, (p, b, f)) <$> bb_frames (downBuffer e) ++ bb_frames (unackedTail e))
    ∧ orphanedFDInUse r' = orphanedFDInUse r - (if holdsFD e then 1 else 0)
    ∧ grace_expire r' p = r'.
Proof.
  intros Ep Ef Ee Hs Hr Hsm. unfold handleMigrateOrResume. rewrite Ep, Ef, Ee.
  rewrite (proj2 (VerifyStreamProof_eq _ _ _ _ _) eq_refl), Z.eqb_refl. cbn [negb].
  set (r1 := upd r p (λ e, set_bound e b)).
  assert (rl_entries r1 !! p = Some (set_bound e b)) as Ee1 by (cbn; by rewrite lookup_alter_eq, Ee).
  assert (cas r1 p stOrphaned stActive = (true, upd r1 p (λ e, set_state e stActive))) as ->.
  { unfold cas. rewrite Ee1. by rewrite decide_True. }
  set (r2 := upd r1 p _). assert (rl_entries r2 !! p = Some (set_state (set_bound e b) stActive)) as Ee2.
  { cbn. cbn in Ee1. by rewrite lookup_alter_eq, Ee1. }
  set (e3 := set_fd (set_state (set_bound e b) stActive) false). set (r3 := releaseOrphanFD r2 p).
  assert (rl_entries r3 !! p = Some e3 ∧ rl_net r3 = rl_net r
    ∧ orphanedFDInUse r3 = orphanedFDInUse r - (if holdsFD e then 1 else 0)) as (Ee3 & Hn3 & Hfd3).
  { subst r3. unfold releaseOrphanFD. rewrite Ee2. change (holdsFD (set_state (set_bound e b) stActive)) with (holdsFD e).
    destruct (holdsFD e) eqn:Eh; [cbn; cbn in Ee2; by rewrite lookup_alter_eq, Ee2 |].
    rewrite Ee2. split_and!; [| done | cbn; lia]. subst e3. f_equal. unfold set_fd. cbn. by rewrite <- Eh. }
  destruct (reassociate_ready r3 p b true true e3 Ee3) as (n' & Ere & Hr' & Hl'); [by rewrite Hn3 | done |].
  cbn zeta. cbn [negb]. rewrite Ere. cbn [mbind outcome_bind].
  destruct (enqueueMigrateOK_ready n' b FlagResume sid (downSeqCounter e3) Hr') as (n2 & E2 & Hl2).
  cbn [rl_net with_net]. rewrite E2. cbn [mbind outcome_bind].
  set (r' := with_net _ n2).
  assert (rl_entries r' !! p = Some (set_buffers e3 (mkBuf [] 0 (bb_maxByte (downBuffer e))) (unackedTail e))) as Ee'.
  { cbn. by rewrite lookup_alter_eq, Ee3. }
  exists r', (set_buffers e3 (mkBuf [] 0 (bb_maxByte (downBuffer e))) (unackedTail e)).
  split_and!; try done.
  - cbn. by rewrite Hl2, Hl', Hn3.
  - unfold grace_expire, cas. by rewrite Ee'.
Qed.

(** ** What the buffering does not do *)

Definition unbuffered_rel (e e' : relayEntry) : Prop := unbuffered e → unbuffered e'.

Lemma unbuffered_control : control_rel unbuffered_rel.
Proof.
  split; [split; unfold unbuffered_rel; [intros e ? | intros e1 e2 e3 ???]; auto |
          unfold unbuffered_rel, unbuffered; cbn; intros; intuition congruence ..].
Qed.

Lemma data_unbuffered r r' : data_change r r' → entries_rel unbuffered_rel r r'.
Proof.
  pose proof unbuffered_control as HC. destruct 1 as [n | m | p e e' Ee Hs]; [by apply same_entries_rel .. |].
  intros q. cbn. destruct (decide (p = q)) as [<- | Hne].
  - rewrite lookup_insert_eq, Ee. constructor. exact (sc_buffer _ _ Hs).
  - rewrite lookup_insert_ne by done. apply (entries_rel_pre _ HC).
Qed.

(** The downlink buffer is never used.  Nothing ever clears a relay's
    binding, so in every run an orphaned relay still has the binding of its dead
    slot and nothing in its buffer: while orphaned it takes the direct path and
    depends on the unacknowledged tail alone (the comments on [routeDownFrame]
    and on the cleanup say that an orphaned relay buffers and applies
    backpressure). *)
Theorem downBuffer_never_used key ops r r' :
  (∀ p e, rl_entries r !! p = Some e → unbuffered e) → relay_run key r ops = Ret r' →
  ∀ p e, rl_entries r' !! p = Some e → unbuffered e.
Proof.
  pose proof unbuffered_control as HC. pose proof (entries_rel_pre _ HC).
  revert r. induction ops as [| o ops IH]; intros r H0 E; cbn [relay_run] in E; [by injection E as <- |].
  destruct (relay_step key r o) as [r1 | |] eqn:Es; try done. cbn [mbind outcome_bind] in E.
  apply (IH r1); [| done]. pose proof (relay_step_Q _ (control_entries _ HC) data_unbuffered key r o r1 Es) as Hq.
  assert (entries_rel unbuffered_rel r r1 → ∀ p e, rl_entries r1 !! p = Some e → unbuffered e) as Hend.
  { intros Hr p e He. specialize (Hr p). rewrite He in Hr. inversion Hr as [e0 e1 Hee Hx |]; subst. eauto. }
  destruct o; try (by apply Hend).
  - destruct Hq as [Hp ->]. intros q e. cbn. rewrite lookup_insert_Some. intros [[<- <-] | [_ Hq]]; [done | eauto].
  - subst r1. by apply Hend, charge_rel.
Qed.

(** A RESUME for a relay that is still active is answered "grace expired", and
    has moved the relay to the slot that was refused. *)
Theorem refused_resume_rebinds key r payload c b sid p e :
  ParseMigrateFrame payload
    = Ret (sid, ComputeStreamProof (DeriveServerPerClientKey key c) c sid (originSessionNonce e)) →
  relay_find r c sid = Some p → rl_entries r !! p = Some e → en_state e = stActive →
  ∃ r1, rl_entries r1 !! p = Some (set_bound e b) ∧ en_state (set_bound e b) = stActive
    ∧ handleMigrateOrResume key r FlagResume payload c b true = reply_fail r1 b FlagResume sid MigrateReasonGraceExpired.
Proof.
  intros Ep Ef Ee Hs. unfold handleMigrateOrResume. rewrite Ep, Ef, Ee.
  rewrite (proj2 (VerifyStreamProof_eq _ _ _ _ _) eq_refl), Z.eqb_refl. cbn [negb].
  set (r1 := upd r p (λ e, set_bound e b)).
  assert (rl_entries r1 !! p = Some (set_bound e b)) as Ee1 by (cbn; by rewrite lookup_alter_eq, Ee).
  assert (cas r1 p stOrphaned stActive = (false, r1)) as ->.
  { unfold cas. rewrite Ee1. rewrite decide_False; [done |]. cbn. congruence. }
  by exists r1.
Qed.

(** A relay registered without a credit object brings the server down with the
    first frame it relays: the loop reads without a limit, then dereferences
    the pointer. *)
Theorem nil_credit_crashes r p e b f m now n' :
  rl_entries r !! p = Some e → en_credit e = None → en_loop e = LSend b f →
  enqueueDownFrame (rl_net r) p (globalStreamID e) b m f = Ret n' →
  loop_send r p m now = Panic.
Proof.
  intros Ee Hc Hl En. unfold loop_send. rewrite Ee, Hl, En. cbn [mbind outcome_bind].
  unfold finish_frame. cbn [rl_entries with_net]. by rewrite Ee, Hc.
Qed.

(** A second CONNECT for a stream id that is still registered (on another slot)
    hides the first relay: nothing can find it any more, and it stays open. *)
Theorem duplicate_connect_hides r p q e e' :
  p ≠ q → rl_entries r !! p = Some e →
  (∀ c sid, relay_find r c sid = Some p → (c, sid) = (originClientID e, globalStreamID e)) →
  originClientID e' = originClientID e → globalStreamID e' = globalStreamID e →
  rl_entries (connect_register r q e') !! p = Some e
  ∧ ∀ c sid, relay_find (connect_register r q e') c sid ≠ Some p.
Proof.
  intros Hne Ee Hu Hc Hs. split; [cbn; by rewrite lookup_insert_ne |].
  intros c sid. unfold connect_register, relay_add, relay_find, streams_of. cbn. rewrite Hc, Hs.
  destruct (decide (c = originClientID e)) as [-> | Hcn].
  - rewrite lookup_insert_eq. destruct (decide (sid = globalStreamID e)) as [-> | Hsn].
    + rewrite lookup_insert_eq. congruence.
    + rewrite lookup_insert_ne by done. intros H. apply Hu in H. congruence.
  - rewrite lookup_insert_ne by done. intros H. apply Hu in H. congruence.
Qed.

End relay.

(** ** A concrete server *)

Module Demo.

#[local] Existing Instances Toy.toy_aead Toy.toy_kdf.

Definition slot_session (id : Z) : Session :=
  match InitSendEpoch (NewSession id (replicate 32 id) (replicate 32 2) 0 None) with
  | Ret s => s
  | _ => NewSession id [] [] 0 None
  end.

Definition net0 : net :=
  mkNet {[ 0%nat := slot_session 10; 1%nat := slot_session 11; 2%nat := slot_session 12 ]} empty_pools
    {[ 0%nat := (true, []); 1%nat := (true, []); 2%nat := (true, []) ]} [].

Definition relays0 : relays :=
  mkRelays ∅ ∅ {[ 0%nat := newStreamCredit 100; 1%nat := newStreamCredit 100 ]}
    (mkLimits 4 8 2 0 true) 0 0 0 net0.

Definition client : bytes := replicate 36 97.
Definition master : bytes := replicate 32 5.
Definition nonce : bytes := replicate 16 9.
Definition slot (i : nat) : binding := mkBinding i i.

Definition connect (p : nat) (sid : Z) (i : nat) : relay_op := RConnect p client sid nonce 100 p (slot i).

(** A MIGRATE or RESUME with the right proof. *)
Definition move_payload (sid : Z) : bytes :=
  match BuildMigrateFrame sid (ComputeStreamProof (DeriveServerPerClientKey master client) client sid nonce) with
  | Ret p => p
  | _ => []
  end.
Definition move (flag sid : Z) (i : nat) : relay_op := RMigrate flag (move_payload sid) client (slot i).

Definition die (p : nat) : list relay_op := [RDeathCheck client p 50; RDeathCharge p; RDeathPublish p 50].

Definition run (ops : list relay_op) : relays :=
  match relay_run master relays0 ops with Ret r => r | _ => relays0 end.
Definition entry (r : relays) (p : nat) : relayEntry :=
  default (connect_entry [] 0 [] 0 None (slot 0)) (rl_entries r !! p).

(** Two frames are sent on slot 0; the slot dies while the second is on its
    way; a third is read while the relay is orphaned; RESUME on slot 1. *)
Definition orphan_ops : list relay_op :=
  [connect 0 7 0; RRead 0 [1; 2] 10; RSendFrame 0 11; RRead 0 [3] 12; RWriterClose 0; RSendFrame 0 13]
  ++ die 0 ++ [RRead 0 [4; 5] 14; RSendFrame 0 15].
Definition resume_ops : list relay_op := orphan_ops ++ [move FlagResume 7 1].

Definition sent_to (r : relays) (p : nat) : list pendingDownFrame :=
  snd <$> filter (λ x, fst (fst x) = p) (n_log (rl_net r)).

End Demo.

Section witnesses.
Import Demo.
#[local] Existing Instances Toy.toy_aead Toy.toy_kdf.

Lemma sent_to_log r p f : f ∈ sent_to r p → ∃ b, (p, b, f) ∈ n_log (rl_net r).
Proof.
  unfold sent_to. rewrite list_elem_of_fmap. intros ([[q b] g] & -> & Hin).
  apply list_elem_of_filter in Hin as [Hq Hin]. cbn in Hq. subst q. by exists b.
Qed.

Lemma slot_session_ready : session_wf (slot_session 11).
Proof. split; cbn; try done; try lia. - intros p [= <-]. by eexists. - repeat constructor; cbn; lia. Qed.

Lemma relay_downlink_prefix_witness :
  receive_frames (newReassembler 100) (sent_to (run resume_ops) 0) = [[1; 2]; [3]; [4; 5]]
  ∧ ∃ n, receive_frames (newReassembler 100) (sent_to (run resume_ops) 0) = take n (egress (entry (run resume_ops) 0))
      ∧ (n ≤ length (egress (entry (run resume_ops) 0)))%nat
      ∧ (∀ i, 1 ≤ i ≤ Z.of_nat n → i ∈ pf_seq <$> sent_to (run resume_ops) 0)
      ∧ 1 + Z.of_nat n ∉ pf_seq <$> sent_to (run resume_ops) 0.
Proof.
  split; [vm_compute; reflexivity |].
  apply (@relay_downlink_prefix Toy.toy_aead Toy.toy_kdf master resume_ops relays0 (run resume_ops) 0
    (entry (run resume_ops) 0) (sent_to (run resume_ops) 0) 100).
  - reflexivity.
  - reflexivity.
  - vm_compute; reflexivity.
  - vm_compute; reflexivity.
  - vm_compute; reflexivity.
  - apply sent_to_log.
Defined.

Lemma fd_accounting_witness : fd_balanced (run resume_ops).
Proof.
  apply (@fd_accounting Toy.toy_aead Toy.toy_kdf master resume_ops relays0 (run resume_ops));
    vm_compute; reflexivity.
Defined.

Definition expired_ops : list relay_op := orphan_ops ++ [RGraceExpire 0].
Definition late_ops : list relay_op := [move FlagResume 7 1; RRead 0 [6] 16; RAck 0 2].
Definition late : relays := match relay_run master (run expired_ops) late_ops with Ret r => r | _ => relays0 end.

Lemma closing_is_final_witness :
  ∃ e', rl_entries late !! 0%nat = Some e' ∧ closing_after (entry (run expired_ops) 0) e'.
Proof.
  apply (@closing_is_final Toy.toy_aead Toy.toy_kdf master late_ops (run expired_ops) late 0
    (entry (run expired_ops) 0)); vm_compute; reflexivity.
Defined.

Definition forged : bytes := [0; 7] ++ replicate 32 1.
Definition after_forged : relays :=
  match handleMigrateOrResume master (run orphan_ops) FlagResume forged client (slot 1) true with
  | Ret r => r | _ => relays0 end.

Lemma migrate_needs_proof_witness :
  (rl_entries after_forged = rl_entries (run orphan_ops) ∧ byClient after_forged = byClient (run orphan_ops)
    ∧ orphanedFDInUse after_forged = orphanedFDInUse (run orphan_ops))
  ∨ ∃ sid p e,
      ParseMigrateFrame forged
        = Ret (sid, ComputeStreamProof (DeriveServerPerClientKey master client) client sid (originSessionNonce e))
      ∧ relay_find (run orphan_ops) client sid = Some p ∧ rl_entries (run orphan_ops) !! p = Some e
      ∧ only_entry p (run orphan_ops) after_forged.
Proof.
  apply (@migrate_needs_proof Toy.toy_aead Toy.toy_kdf master (run orphan_ops) FlagResume forged client (slot 1) true).
  vm_compute; reflexivity.
Defined.

Lemma orphan_slot_ready : slot_ready (rl_net (run orphan_ops)) (slot 1).
Proof.
  exists (slot_session 11), 0%nat, []. split_and!; try (vm_compute; reflexivity); [apply slot_session_ready |].
  split; [by vm_compute |]. intros i free b Hi Hb. vm_compute in Hi.
  destruct i as [| [| [| [| i]]]]; cbn in Hi; try discriminate; injection Hi as <-; try by apply elem_of_nil in Hb.
  all: repeat (apply elem_of_cons in Hb as [-> | Hb]; [reflexivity |]); by apply elem_of_nil in Hb.
Qed.

Lemma resume_replays_witness :
  let e := entry (run orphan_ops) 0 in
  ∃ r' e', handleMigrateOrResume master (run orphan_ops) FlagResume (move_payload 7) client (slot 1) true = Ret r'
    ∧ rl_entries r' !! 0%nat = Some e'
    ∧ en_state e' = stActive ∧ bound e' = Some (slot 1) ∧ holdsFD e' = false
    ∧ bb_frames (downBuffer e') = [] ∧ unackedTail e' = unackedTail e ∧ downSeqCounter e' = downSeqCounter e
    ∧ n_log (rl_net r') = n_log (rl_net (run orphan_ops))
        ++ ((λ f, (0%nat, slot 1, f)) <$> bb_frames (downBuffer e) ++ bb_frames (unackedTail e))
    ∧ orphanedFDInUse r' = orphanedFDInUse (run orphan_ops) - (if holdsFD e then 1 else 0)
    ∧ grace_expire r' 0 = r'.
Proof.
  intros e. apply (@resume_replays Toy.toy_aead Toy.toy_kdf master (run orphan_ops) (move_payload 7) client (slot 1) 7 0 e);
    try (vm_compute; reflexivity).
  - apply orphan_slot_ready.
  - vm_compute. repeat constructor; discriminate.
Defined.

Lemma downBuffer_never_used_witness : unbuffered (entry (run orphan_ops) 0).
Proof.
  apply (@downBuffer_never_used Toy.toy_aead Toy.toy_kdf master orphan_ops relays0 (run orphan_ops)) with (p := 0%nat);
    [| vm_compute; reflexivity ..].
  intros p e He. vm_compute in He. destruct p; discriminate.
Defined.

(** The cleanup of slot 0 has taken its snapshot; the client moves the stream to
    the live slot 1; the cleanup, which looks at the state and not at the
    binding, orphans it all the same, and the grace timer kills it. *)
Theorem migrated_relay_killed :
  let r := run ([connect 0 7 0; RRead 0 [1] 10; RSendFrame 0 11; move FlagMigrate 7 1] ++ die 0 ++ [RGraceExpire 0]) in
  bound (entry r 0) = Some (slot 1) ∧ en_state (entry r 0) = stClosing ∧ tc_open (entry r 0) = false
  ∧ fst <$> n_writers (rl_net r) !! 1%nat = Some true.
Proof. vm_compute. by split_and!. Qed.

(** Two cleanups charge the same relay: the descriptor count stays one too
    high for ever. *)
Theorem double_charge_leaks :
  let r := run ([connect 0 7 0; RDeathCheck client 0 50; RDeathCharge 0; move FlagMigrate 7 1]
                ++ die 0 ++ [RDeathPublish 0 50; RGraceExpire 0]) in
  orphanedFDInUse r = 1 ∧ fd_holders r = ∅.
Proof. vm_compute. by split. Qed.

(** The budget is checked before it is charged, so concurrent cleanups exceed it. *)
Theorem budget_overshoot :
  let r := run [connect 0 7 0; connect 1 8 1; connect 2 9 2; RDeathCheck client 0 50; RDeathCheck client 1 50;
                RDeathCheck client 2 50; RDeathCharge 0; RDeathCharge 1; RDeathCharge 2] in
  orphanFDBudget (rl_limits r) = 2 ∧ orphanedFDInUse r = 3.
Proof. vm_compute. by split. Qed.

(** The client acknowledges late: the tail is full, the next read is numbered and
    handed to the dead slot, and RESUME cannot bring it back - the stream has a
    hole (frame 2) that the reassembler waits for. *)
Definition overrun_ops : list relay_op :=
  [connect 0 7 0; RRead 0 (replicate 80 1) 10; RSendFrame 0 11; RWindowUpdate 0 80 100; RWriterClose 0]
  ++ die 0 ++ [RRead 0 (replicate 60 2) 12; RSendFrame 0 13; RRead 0 (replicate 5 3) 14; RSendFrame 0 15;
               move FlagResume 7 1].
Theorem tail_overflow_loses_frame :
  let r := run overrun_ops in
  en_state (entry r 0) = stActive ∧ length (egress (entry r 0)) = 3%nat
  ∧ pf_seq <$> sent_to r 0 = [1; 1; 3]
  ∧ receive_frames (newReassembler 1000) (sent_to r 0) = [replicate 80 1].
Proof. vm_compute. by split_and!. Qed.

End witnesses.
