(* ===== verification/Tunnel.v ===== *)
(** * The downlink of a tunnelled connection, end to end

    The server's relays ([Relay]) and the client's stream readers
    ([ClientStreams]) put together: what a target sends and what the
    application is given. *)

From S2P Require Import Prelude.
From S2P Require Import Primitives.
From S2P Require Import Reassembler.
From S2P Require Import Relay.
From S2P Require Import ClientStreams.
From stdpp Require Import base list gmap.

#[local] Open Scope Z_scope.

Section tunnel.
Context {HA : AEAD} {HK : KDF}.
(** Which relay the stream of a client channel is connected to. *)
Context (relay_of : nat → nat).

(** The network: what a slot reader takes up for a channel is a control message
    or a frame its relay sent, at any time, in any order, any number of times. *)
Fixpoint fed (r : relays) (w : world) (ops : list client_op) : Prop :=
  match ops with
  | [] => True
  | o :: ops' =>
    match o with
    | CTake g id f => ∀ p, streamFramesChans (w_client w) !! id = Some p →
        f.1 = 0 ∨ ∃ b fr, (relay_of p, b, fr) ∈ n_log (rl_net r) ∧ f = (pf_seq fr, pf_data fr)
    | _ => True
    end
    ∧ match client_step w o with Ret w1 => fed r w1 ops' | _ => True end
  end.

Definition reads_of (r : relays) (p : nat) : list bytes :=
  match rl_entries r !! relay_of p with Some e => egress e | None => [] end.

Lemma fed_genuine k r ops w :
  down_inv k r → fed r w ops → genuine (λ p, read_number (reads_of r p)) (λ p, 1 + len (reads_of r p)) w ops.
Proof.
  intros Hi. revert w. induction ops as [| o ops IH]; intros w; cbn [fed genuine]; [done |]. intros [Ho Hr]. split.
  - destruct o as [| g id f | | | | | |]; try done. intros p Hp. destruct (Ho p Hp) as [H0 | (b & fr & Hin & ->)]; [by left |]. right.
    destruct (di_log _ _ Hi _ _ _ Hin) as [e He]. pose proof (ed_log _ _ _ _ (di_entry _ _ Hi _ _ He) b fr Hin) as Hok.
    pose proof (frame_ok_range _ _ Hok). destruct Hok as [_ Hl]. cbn [fst snd]. unfold reads_of. rewrite He. split; [lia |].
    unfold read_number. by rewrite Hl.
  - destruct (client_step w o) as [w1 | |]; [by apply IH | done | done].
Qed.

(** C1: the tunnel carries the target's bytes.  Let the server's relays run
    under any interleaving of reads, acknowledgements, migrations, resumes,
    slot deaths, evictions and timers, and the client under any interleaving of
    its slot readers and stream goroutines, with the network losing,
    duplicating and reordering frames at will.  Then what the application of a
    stream has been given is the first [n] reads its relay took from the
    target, in order, and the client has acknowledged only frames among those. *)
Theorem tunnel_downlink key ops r0 r cops w p rd :
  rl_entries r0 = ∅ → n_log (rl_net r0) = [] → len ops < 2 ^ 64 - 1 → relay_run key r0 ops = Ret r →
  fed r world0 cops → client_run world0 cops = Ret w → w_readers w !! p = Some rd →
  ∃ n, (n ≤ length (reads_of r p))%nat ∧ rd_written rd = take n (reads_of r p)
    ∧ ∀ a, a ∈ rd_acks rd → a ≤ Z.of_nat n.
Proof.
  intros He0 Hl0 Hlen Hrun Hfed Hc Hp.
  assert (down_inv 0 r0) as Hi0 by (split; intros *; [by rewrite He0 | by rewrite Hl0, elem_of_nil]).
  pose proof (relay_run_down ops 0 key r0 r Hi0 ltac:(lia) ltac:(lia) Hrun) as Hi.
  assert (∀ q, len (reads_of r q) ≤ len ops) as Hq.
  { intros q. unfold reads_of. destruct (rl_entries r !! relay_of q) as [e |] eqn:E; [| apply len_nonneg].
    destruct (ed_counter _ _ _ _ (di_entry _ _ Hi _ _ E)). lia. }
  set (src := λ p, read_number (reads_of r p)). set (top := λ p, 1 + len (reads_of r p)).
  assert (∀ q, top q ≤ 2 ^ 64 - 1) as Htop by (intros q; unfold top; specialize (Hq q); lia).
  destruct (reader_delivered src top w p rd Hp) as (n & Hw & Hn & Ha & _).
  { eapply (client_run_inv src top Htop); [apply world0_inv | by eapply fed_genuine | exact Hc]. }
  assert (n ≤ length (reads_of r p))%nat as Hle.
  { destruct n as [| n]; [lia |]. specialize (Hn ltac:(lia)). unfold top, len in Hn. lia. }
  exists n. split_and!; [done | | done]. rewrite Hw. by apply run_from_take.
Qed.

End tunnel.

(** ** Witness: a stream that is resumed on another slot *)

Section tunnel_witness.
Import Relay.Demo.
#[local] Existing Instances Toy.toy_aead Toy.toy_kdf.

Definition arrive (fr : pendingDownFrame) : list client_op := [CTake 0 7 (pf_seq fr, pf_data fr); CSend 0; CRead 0 None 0 0].
Definition arrivals : list client_op := COpen 7 1000 :: concat (arrive <$> sent_to (run resume_ops) 0).
Definition app_world : world := match client_run world0 arrivals with Ret w => w | _ => world0 end.
Definition app_reader : reader := default (newReader 0 0) (w_readers app_world !! 0%nat).

Lemma arrive_fed r fs w : (∀ f, f ∈ fs → f ∈ sent_to r 0) → fed (λ _, 0%nat) r w (concat (arrive <$> fs)).
Proof.
  revert w. induction fs as [| f fs IH]; intros w Hin; [done |].
  assert (∀ w', fed (λ _, 0%nat) r w' (concat (arrive <$> fs))) as Hrest by (intros w'; apply IH; intros f' Hf'; apply Hin; by right).
  destruct (sent_to_log r 0 f (Hin f ltac:(by left))) as [b Hb]. rewrite fmap_cons. cbn [arrive concat app fed].
  split; [intros p _; right; by exists b, f |]. destruct (client_step w _) as [w1 | |]; [| done | done].
  split; [done |]. destruct (client_step w1 _) as [w2 | |]; [| done | done].
  split; [done |]. by destruct (client_step w2 _).
Qed.

Lemma tunnel_downlink_witness :
  rd_written app_reader = [[1; 2]; [3]; [4; 5]]
  ∧ ∃ n, (n ≤ length (reads_of (λ _, 0%nat) (run resume_ops) 0))%nat
    ∧ rd_written app_reader = take n (reads_of (λ _, 0%nat) (run resume_ops) 0)
    ∧ ∀ a, a ∈ rd_acks app_reader → a ≤ Z.of_nat n.
Proof.
  split; [vm_compute; reflexivity |].
  apply (@tunnel_downlink Toy.toy_aead Toy.toy_kdf (λ _, 0%nat) master resume_ops relays0 (run resume_ops) arrivals app_world 0%nat app_reader).
  - reflexivity.
  - reflexivity.
  - vm_compute; reflexivity.
  - vm_compute; reflexivity.
  - split; [done |]. apply arrive_fed. done.
  - vm_compute; reflexivity.
  - vm_compute; reflexivity.
Defined.

End tunnel_witness.
