(* ===== verification/MemConn.v ===== *)
(** * In-memory connections ([proxy/socks5/memconn.go])

    The buffered pair of connections between the TUN side (the application end)
    and the stream relay: two bounded byte queues with half-close, full close
    and deadlines.  A blocked call is one that cannot take its next step; every
    turn of the loops of [read] and [write] is a step. *)

From S2P Require Import Prelude.
From stdpp Require Import base list gmap.

#[local] Open Scope Z_scope.

(** ** One direction *)

Definition memPipeBufferSize : Z := 256 * 1024.

Record memBuffer := mkMem {
  mb_buf : bytes;
  mb_max : Z;
  mb_closed : bool;
  rdeadline : option Z;            (* [None] is the zero time *)
  wdeadline : option Z;
}.

Definition newMemBuffer (max : Z) : memBuffer := mkMem [] max false None None.

Definition set_buf (b : memBuffer) (l : bytes) : memBuffer := mkMem l (mb_max b) (mb_closed b) (rdeadline b) (wdeadline b).

Definition timedOut (deadline : option Z) (now : Z) : bool :=
  match deadline with None => false | Some t => negb (now <? t) end.

Inductive write_turn := WDone | WBlocked | WClosed | WTimeout | WSome (n : Z).

(** One turn of [write]'s loop for what is left of its argument. *)
Definition mem_write (b : memBuffer) (p : bytes) (now : Z) : write_turn * memBuffer :=
  if len p =? 0 then (WDone, b) else
  if negb (mb_closed b) && (mb_max b <=? len (mb_buf b)) && negb (timedOut (wdeadline b) now) then (WBlocked, b) else
  if mb_closed b then (WClosed, b) else
  if timedOut (wdeadline b) now then (WTimeout, b) else
  let n := Z.min (len p) (mb_max b - len (mb_buf b)) in
  (WSome n, set_buf b (mb_buf b ++ take (Z.to_nat n) p)).

Inductive read_turn := RData (d : bytes) | REOF | RTimeout | RBlocked.

(** One turn of [read]'s loop, for a buffer of [n] bytes. *)
Definition mem_read (b : memBuffer) (n : Z) (now : Z) : read_turn * memBuffer :=
  if 0 <? len (mb_buf b) then (RData (take (Z.to_nat n) (mb_buf b)), set_buf b (drop (Z.to_nat n) (mb_buf b))) else
  if mb_closed b then (REOF, b) else
  if timedOut (rdeadline b) now then (RTimeout, b) else (RBlocked, b).

Definition mem_close (b : memBuffer) : memBuffer := mkMem (mb_buf b) (mb_max b) true (rdeadline b) (wdeadline b).
Definition isClosed (b : memBuffer) : bool := mb_closed b.
Definition setReadDeadline (b : memBuffer) (t : option Z) : memBuffer := mkMem (mb_buf b) (mb_max b) (mb_closed b) t (wdeadline b).
Definition setWriteDeadline (b : memBuffer) (t : option Z) : memBuffer := mkMem (mb_buf b) (mb_max b) (mb_closed b) (rdeadline b) t.

(** ** The pair *)

Inductive side := App | Relay.
#[global] Instance side_eq_dec : EqDecision side.
Proof. solve_decision. Defined.

Definition peer (e : side) : side := match e with App => Relay | Relay => App end.

(** [pp_dir e] is the direction [e] writes to; [writers e] is the write call in
    progress on [e], what is left and what it has placed. *)
Record pipe := mkPipe {
  pp_app : memBuffer; pp_relay : memBuffer;
  closedOnce : gset bool;                  (* the ends whose [closeOnce] ran: [true] is [App] *)
  peerFullClose : bool;
  downlinkDeadlineImmune : bool;
  wr_app : option (bytes * bytes); wr_relay : option (bytes * bytes);
}.

Definition pp_dir (s : pipe) (e : side) : memBuffer := match e with App => pp_app s | Relay => pp_relay s end.
Definition pp_writer (s : pipe) (e : side) : option (bytes * bytes) := match e with App => wr_app s | Relay => wr_relay s end.
Definition put_dir (s : pipe) (e : side) (b : memBuffer) : pipe :=
  match e with
  | App => mkPipe b (pp_relay s) (closedOnce s) (peerFullClose s) (downlinkDeadlineImmune s) (wr_app s) (wr_relay s)
  | Relay => mkPipe (pp_app s) b (closedOnce s) (peerFullClose s) (downlinkDeadlineImmune s) (wr_app s) (wr_relay s)
  end.
Definition put_writer (s : pipe) (e : side) (w : option (bytes * bytes)) : pipe :=
  match e with
  | App => mkPipe (pp_app s) (pp_relay s) (closedOnce s) (peerFullClose s) (downlinkDeadlineImmune s) w (wr_relay s)
  | Relay => mkPipe (pp_app s) (pp_relay s) (closedOnce s) (peerFullClose s) (downlinkDeadlineImmune s) (wr_app s) w
  end.
Definition set_once (s : pipe) (e : side) : pipe :=
  mkPipe (pp_app s) (pp_relay s) ({[ bool_decide (e = App) ]} ∪ closedOnce s)
    (peerFullClose s || bool_decide (e = App)) (downlinkDeadlineImmune s) (wr_app s) (wr_relay s).
Definition set_immune (s : pipe) : pipe :=
  mkPipe (pp_app s) (pp_relay s) (closedOnce s) (peerFullClose s) true (wr_app s) (wr_relay s).

Definition newMemPipe : pipe :=
  mkPipe (newMemBuffer memPipeBufferSize) (newMemBuffer memPipeBufferSize) ∅ false false None None.

(** [Close] on an end: both directions, once; the application's end also
    signals its full close. *)
Definition Close (s : pipe) (e : side) : pipe :=
  if bool_decide (bool_decide (e = App) ∈ closedOnce s) then s else
  let s1 := put_dir s e (mem_close (pp_dir s e)) in
  set_once (put_dir s1 (peer e) (mem_close (pp_dir s1 (peer e)))) e.

Definition CloseWrite (s : pipe) (e : side) : pipe :=
  let s1 := put_dir s e (mem_close (pp_dir s e)) in
  match e with
  | Relay => s1
  | App => let s2 := set_immune s1 in put_dir s2 Relay (setReadDeadline (pp_relay s2) None)
  end.

Definition CloseRead (s : pipe) (e : side) : pipe := put_dir s (peer e) (mem_close (pp_dir s (peer e))).

Definition writeClosed (s : pipe) (e : side) : bool := isClosed (pp_dir s e).

Definition SetReadDeadline (s : pipe) (e : side) (t : option Z) : pipe :=
  match e with
  | App => if downlinkDeadlineImmune s then s else put_dir s Relay (setReadDeadline (pp_relay s) t)
  | Relay => put_dir s App (setReadDeadline (pp_app s) t)
  end.
Definition SetWriteDeadline (s : pipe) (e : side) (t : option Z) : pipe := put_dir s e (setWriteDeadline (pp_dir s e) t).
Definition SetDeadline (s : pipe) (e : side) (t : option Z) : pipe := SetWriteDeadline (SetReadDeadline s e t) e t.

(** ** Runs *)

Inductive pipe_op :=
| PWrite (e : side) (p : bytes)          (* a call of [Write] begins *)
| PTurn (e : side) (now : Z)             (* its next turn *)
| PRead (e : side) (n : Z) (now : Z)
| PClose (e : side) | PCloseWrite (e : side) | PCloseRead (e : side)
| PReadDeadline (e : side) (t : option Z) | PWriteDeadline (e : side) (t : option Z) | PDeadline (e : side) (t : option Z).

(** What the callers saw. *)
Inductive pipe_event := EWrote (e : side) (d : bytes) | ERead (e : side) (r : read_turn).

Definition pipe_step (s : pipe) (o : pipe_op) : option (list pipe_event * pipe) :=
  match o with
  | PWrite e p => match pp_writer s e with None => Some ([], put_writer s e (Some (p, []))) | Some _ => None end
  | PTurn e now =>
    match pp_writer s e with
    | None => None
    | Some (p, put) =>
      let '(t, b) := mem_write (pp_dir s e) p now in
      match t with
      | WBlocked => None
      | WSome n => Some ([EWrote e (take (Z.to_nat n) p)],
                         put_writer (put_dir s e b) e (Some (drop (Z.to_nat n) p, put ++ take (Z.to_nat n) p)))
      | _ => Some ([], put_writer s e None)
      end
    end
  | PRead e n now =>
    let '(r, b) := mem_read (pp_dir s (peer e)) n now in
    match r with RBlocked => None | _ => Some ([ERead e r], put_dir s (peer e) b) end
  | PClose e => Some ([], Close s e)
  | PCloseWrite e => Some ([], CloseWrite s e)
  | PCloseRead e => Some ([], CloseRead s e)
  | PReadDeadline e t => Some ([], SetReadDeadline s e t)
  | PWriteDeadline e t => Some ([], SetWriteDeadline s e t)
  | PDeadline e t => Some ([], SetDeadline s e t)
  end.

Fixpoint pipe_run (s : pipe) (ops : list pipe_op) : option (list pipe_event * pipe) :=
  match ops with
  | [] => Some ([], s)
  | o :: ops' =>
    match pipe_step s o with
    | None => None
    | Some (ev, s1) => match pipe_run s1 ops' with Some (evs, s2) => Some (ev ++ evs, s2) | None => None end
    end
  end.

Definition written (e : side) (evs : list pipe_event) : bytes :=
  concat (omap (λ ev, match ev with EWrote e' d => if decide (e' = e) then Some d else None | _ => None end) evs).
Definition received (e : side) (evs : list pipe_event) : bytes :=
  concat (omap (λ ev, match ev with ERead e' (RData d) => if decide (e' = e) then Some d else None | _ => None end) evs).

Arguments written _ _ : simpl never.
Arguments received _ _ : simpl never.

(** ** Facts *)

Lemma written_app e a b : written e (a ++ b) = written e a ++ written e b.
Proof. unfold written. by rewrite omap_app, concat_app. Qed.
Lemma received_app e a b : received e (a ++ b) = received e a ++ received e b.
Proof. unfold received. by rewrite omap_app, concat_app. Qed.

Lemma dir_put s e e' b : pp_dir (put_dir s e b) e' = if decide (e = e') then b else pp_dir s e'.
Proof. by destruct e, e'. Qed.
Lemma dir_writer s e e' w : pp_dir (put_writer s e w) e' = pp_dir s e'.
Proof. by destruct e, e'. Qed.
Lemma immune_put s e b : downlinkDeadlineImmune (put_dir s e b) = downlinkDeadlineImmune s.
Proof. by destruct e. Qed.
Lemma immune_writer s e w : downlinkDeadlineImmune (put_writer s e w) = downlinkDeadlineImmune s.
Proof. by destruct e. Qed.
Lemma peer_inj e e' : peer e = peer e' ↔ e = e'.
Proof. by destruct e, e'. Qed.
Lemma peer_peer e : peer (peer e) = e.
Proof. by destruct e. Qed.

(** What a step does to a direction. *)
Record dir_step (e : side) (ev : list pipe_event) (b b' : memBuffer) : Prop := {
  ds_bytes : received (peer e) ev ++ mb_buf b' = mb_buf b ++ written e ev;
  ds_max : mb_max b' = mb_max b;
  ds_bound : len (mb_buf b) ≤ mb_max b → len (mb_buf b') ≤ mb_max b';
  ds_closed : mb_closed b = true → mb_closed b' = true ∧ written e ev = [];
}.

Lemma dir_same e ev b : received (peer e) ev = [] → written e ev = [] → dir_step e ev b b.
Proof. intros H1 H2. split; rewrite ?H1, ?H2, ?app_nil_r; done. Qed.

Lemma dir_keep e ev b b' :
  received (peer e) ev = [] → written e ev = [] → mb_buf b' = mb_buf b → mb_max b' = mb_max b →
  (mb_closed b = true → mb_closed b' = true) → dir_step e ev b b'.
Proof. intros H1 H2 H3 H4 H5. split; rewrite ?H1, ?H2, ?H3, ?H4, ?app_nil_r; try done. by intros ?%H5. Qed.

Lemma dir_trans_keep e ev b b1 b' :
  dir_step e ev b b1 → mb_buf b' = mb_buf b1 → mb_max b' = mb_max b1 → (mb_closed b1 = true → mb_closed b' = true) → dir_step e ev b b'.
Proof. intros [H1 H2 H3 H4] E1 E2 E3. split; rewrite ?E1, ?E2; try done. intros Hc. destruct (H4 Hc). by split; [apply E3 |]. Qed.

Lemma written_turn e e' d : written e [EWrote e' d] = if decide (e' = e) then d else [].
Proof. unfold written. cbn. destruct (decide (e' = e)); cbn; [by rewrite app_nil_r | done]. Qed.
Lemma received_turn e e' r :
  received e [ERead e' r] = match r with RData d => if decide (e' = e) then d else [] | _ => [] end.
Proof. unfold received. cbn. destruct r; cbn; try done. destruct (decide (e' = e)); cbn; [by rewrite app_nil_r | done]. Qed.

Lemma write_dir b p now n b' e :
  mem_write b p now = (WSome n, b') → dir_step e [EWrote e (take (Z.to_nat n) p)] b b'.
Proof.
  unfold mem_write. destruct (Z.eqb_spec (len p) 0); [done |]. destruct (negb (mb_closed b) && _ && _) eqn:Eb; [done |].
  destruct (mb_closed b) eqn:Ec; [done |]. destruct (timedOut _ _) eqn:Et; [done |]. intros [= <- <-].
  split; cbn.
  - rewrite written_turn, decide_True by done. by destruct e.
  - done.
  - intros Hle. rewrite len_app, len_take. lia.
  - congruence.
Qed.

Lemma read_dir b n now r b' e :
  mem_read b n now = (r, b') → dir_step e [ERead (peer e) r] b b'.
Proof.
  unfold mem_read. destruct (0 <? len (mb_buf b)).
  - intros [= <- <-]. split; cbn.
    + rewrite received_turn, decide_True by done. rewrite take_drop. unfold written. cbn. by rewrite app_nil_r.
    + done.
    + rewrite len_drop. pose proof (len_nonneg (mb_buf b)). lia.
    + by intros ->.
  - destruct (mb_closed b); [| destruct (timedOut _ _)]; intros [= <- <-]; apply dir_same; try done; by rewrite received_turn.
Qed.

Lemma pipe_step_dir s o ev s' e : pipe_step s o = Some (ev, s') → dir_step e ev (pp_dir s e) (pp_dir s' e).
Proof.
  destruct o as [e' p | e' now | e' n now | e' | e' | e' | e' t | e' t | e' t]; cbn [pipe_step]; intros E.
  - destruct (pp_writer s e'); [done |]. injection E as <- <-. rewrite dir_writer. by apply dir_same.
  - destruct (pp_writer s e') as [[p put] |]; [| done]. destruct (mem_write (pp_dir s e') p now) as [t b] eqn:Ew.
    destruct t; try done; injection E as <- <-; rewrite dir_writer; try by apply dir_same.
    rewrite dir_put. destruct (decide (e' = e)) as [-> | Hne]; [by eapply write_dir |].
    apply dir_same; [by destruct e | by rewrite written_turn, decide_False].
  - destruct (mem_read (pp_dir s (peer e')) n now) as [r b] eqn:Er.
    assert (([ERead e' r], put_dir s (peer e') b) = (ev, s')) as [= <- <-] by (destruct r; try done; by injection E as <- <-). clear E.
    rewrite dir_put. destruct (decide (peer e' = e)) as [<- | Hne].
    + rewrite <- (peer_peer e') at 2. by eapply read_dir.
    + apply dir_same; [| done]. rewrite received_turn. destruct r; try done. rewrite decide_False; [done |].
      intros ->. apply Hne. apply peer_peer.
  - injection E as <- <-. unfold Close. destruct (bool_decide _); [by apply dir_same |]. by destruct e', e; apply dir_keep.
  - injection E as <- <-. by destruct e', e; apply dir_keep.
  - injection E as <- <-. by destruct e', e; apply dir_keep.
  - injection E as <- <-. destruct e', e; cbn; try destruct (downlinkDeadlineImmune s); by apply dir_keep.
  - injection E as <- <-. by destruct e', e; apply dir_keep.
  - injection E as <- <-. destruct e', e; cbn; try destruct (downlinkDeadlineImmune s); by apply dir_keep.
Qed.

Lemma pipe_run_dir ops s evs s' e : pipe_run s ops = Some (evs, s') → dir_step e evs (pp_dir s e) (pp_dir s' e).
Proof.
  revert s evs. induction ops as [| o ops IH]; intros s evs E; cbn [pipe_run] in E; [injection E as <- <-; by apply dir_same |].
  destruct (pipe_step s o) as [[ev s1] |] eqn:Es; [| done]. destruct (pipe_run s1 ops) as [[evs' s2] |] eqn:Er; [| done].
  injection E as <- <-. destruct (pipe_step_dir _ _ _ _ e Es) as [H1 H2 H3 H4]. destruct (IH _ _ Er) as [H5 H6 H7 H8]. split.
  - rewrite received_app, written_app, <- app_assoc, H5, app_assoc, H1. by rewrite app_assoc.
  - congruence.
  - intros H. by apply H7, H3.
  - intros H. destruct (H4 H) as [Hc Hw]. destruct (H8 Hc) as [Hc' Hw']. by rewrite written_app, Hw, Hw'.
Qed.

Lemma pipe_reach ops evs s e :
  pipe_run newMemPipe ops = Some (evs, s) →
  written e evs = received (peer e) evs ++ mb_buf (pp_dir s e) ∧ mb_max (pp_dir s e) = memPipeBufferSize
  ∧ len (mb_buf (pp_dir s e)) ≤ memPipeBufferSize.
Proof.
  intros E. destruct (pipe_run_dir _ _ _ _ e E) as [H1 H2 H3 _].
  assert (pp_dir newMemPipe e = newMemBuffer memPipeBufferSize) as Hn by (by destruct e). rewrite Hn in *. cbn in H1, H2.
  split_and!; [done | done |]. rewrite <- H2. apply H3. cbn. rewrite (@len_nil Z). unfold memPipeBufferSize. lia.
Qed.


(** ** Progress *)

(** A reader that reads again and again. *)
Fixpoint drain (b : memBuffer) (ns : list Z) (now : Z) : list read_turn :=
  match ns with
  | [] => []
  | n :: ns' => let '(r, b') := mem_read b n now in r :: drain b' ns' now
  end.

Definition data_of (r : read_turn) : bytes := match r with RData d => d | _ => [] end.

Lemma drain_closed ns b now :
  mb_closed b = true → Forall (λ n, 0 < n) ns →
  (mb_buf b = [] → concat (data_of <$> drain b ns now) = [])
  ∧ (len (mb_buf b) < len ns → concat (data_of <$> drain b ns now) = mb_buf b ∧ last (drain b ns now) = Some REOF)
  ∧ RBlocked ∉ drain b ns now ∧ RTimeout ∉ drain b ns now.
Proof.
  intros Hc Hn. revert b Hc. induction Hn as [| n ns Hn _ IH]; intros b Hc.
  { cbn [drain fmap list_fmap concat length take]. split_and!; try done; [| apply not_elem_of_nil ..].
    pose proof (len_nonneg (mb_buf b)). rewrite (@len_nil Z). lia. }
  cbn [drain]. unfold mem_read. destruct (Z.ltb_spec 0 (len (mb_buf b))) as [Hpos | Hz].
  - set (b' := set_buf b (drop (Z.to_nat n) (mb_buf b))). destruct (IH b' Hc) as (H1 & H2 & H3 & H4).
    rewrite fmap_cons. cbn [data_of concat]. split_and!.
    + intros Hnil. rewrite Hnil, (@len_nil Z) in Hpos. lia.
    + intros Hlt. destruct H2 as [H2 H5].
      * cbn. rewrite len_drop. rewrite len_cons in Hlt. lia.
      * rewrite H2. cbn. rewrite take_drop. split; [done |]. destruct (drain b' ns now) eqn:Ed; [done |]. by rewrite last_cons, H5.
    + rewrite not_elem_of_cons. by split.
    + rewrite not_elem_of_cons. by split.
  - rewrite Hc. destruct (IH b Hc) as (H1 & H2 & H3 & H4). assert (mb_buf b = []) as Hnil by (apply len_0_nil; pose proof (len_nonneg (mb_buf b)); lia).
    rewrite fmap_cons. cbn [data_of concat app]. split_and!; [done | | rewrite not_elem_of_cons; by split ..].
    intros Hlt. split.
    + rewrite Hnil. by apply H1.
    + destruct ns as [| m ns]; [done |]. rewrite last_cons. destruct H2 as [_ ->]; [| done]. rewrite Hnil, len_nil, len_cons. pose proof (len_nonneg ns). lia.
Qed.

(** Nobody waits for ever.  In every reachable state of the pair, for each
    direction: the reader and the writer are never both blocked; a read that
    took something lets the writer go on; and once the direction is closed, a
    reader that keeps reading is never blocked and never times out, gets every
    byte left in the buffer and then end of file, within one call more than
    there are bytes. *)
Theorem pipe_progress ops evs s e p n now :
  pipe_run newMemPipe ops = Some (evs, s) → p ≠ [] → 0 < n →
  let b := pp_dir s e in
  (fst (mem_read b n now) = RBlocked → fst (mem_write b p now) ≠ WBlocked)
  ∧ (∀ d b', mem_read b n now = (RData d, b') → fst (mem_write b' p now) ≠ WBlocked)
  ∧ (mb_closed b = true → ∀ ns, Forall (λ m, 0 < m) ns → len (mb_buf b) < len ns →
       concat (data_of <$> drain b ns now) = mb_buf b ∧ last (drain b ns now) = Some REOF
       ∧ RBlocked ∉ drain b ns now ∧ RTimeout ∉ drain b ns now).
Proof.
  intros E Hp Hn b. destruct (pipe_reach _ _ _ e E) as (_ & Hmax & Hle). fold b in Hmax, Hle. split_and!.
  - unfold mem_read, mem_write. destruct (Z.ltb_spec 0 (len (mb_buf b))); [done |]. intros _.
    destruct (Z.eqb_spec (len p) 0); [done |]. destruct (Z.leb_spec (mb_max b) (len (mb_buf b))).
    + rewrite Hmax in *. unfold memPipeBufferSize in *. lia.
    + rewrite andb_false_r. cbn [andb]. by destruct (mb_closed b), (timedOut (wdeadline b) now).
  - intros d b'. unfold mem_read. destruct (Z.ltb_spec 0 (len (mb_buf b))) as [Hpos |].
    + intros [= <- <-]. unfold mem_write, set_buf. cbn [mb_buf mb_max mb_closed wdeadline]. destruct (Z.eqb_spec (len p) 0); [done |].
      destruct (Z.leb_spec (mb_max b) (len (drop (Z.to_nat n) (mb_buf b)))) as [Hfull |].
      * rewrite len_drop in Hfull. lia.
      * rewrite andb_false_r. cbn [andb]. by destruct (mb_closed b), (timedOut (wdeadline b) now).
    + by destruct (mb_closed b), (timedOut (rdeadline b) now).
  - intros Hc ns Hns Hlen. destruct (drain_closed ns b now Hc Hns) as (_ & H2 & H3 & H4). destruct (H2 Hlen). by split_and!.
Qed.

(** ** Half-close *)

Definition immune_ok (s : pipe) : Prop := downlinkDeadlineImmune s = true → rdeadline (pp_relay s) = None.

Lemma pipe_step_immune s o ev s' :
  immune_ok s → pipe_step s o = Some (ev, s') →
  immune_ok s' ∧ (downlinkDeadlineImmune s = true → downlinkDeadlineImmune s' = true)
  ∧ (downlinkDeadlineImmune s = true → ERead App RTimeout ∉ ev).
Proof.
  intros Hi E. unfold immune_ok in *. destruct o as [e p | e now | e n now | e | e | e | e t | e t | e t]; cbn [pipe_step] in E.
  - destruct (pp_writer s e); [done |]. injection E as <- <-. split_and!; try done; destruct e; try done; intros _; apply not_elem_of_nil.
  - destruct (pp_writer s e) as [[p put] |]; [| done]. destruct (mem_write (pp_dir s e) p now) as [t b] eqn:Ew.
    assert (rdeadline b = rdeadline (pp_dir s e)) as Hb.
    { unfold mem_write in Ew. by repeat case_match; simplify_eq. }
    destruct t; try done; injection E as <- <-; destruct e; cbn in *; rewrite ?Hb; split_and!; try done;
      intros _; rewrite ?list_elem_of_singleton; try apply not_elem_of_nil; done.
  - destruct (mem_read (pp_dir s (peer e)) n now) as [r b] eqn:Er.
    assert (rdeadline b = rdeadline (pp_dir s (peer e))) as Hb.
    { unfold mem_read in Er. by repeat case_match; simplify_eq. }
    assert (([ERead e r], put_dir s (peer e) b) = (ev, s')) as [= <- <-] by (destruct r; try done; by injection E as <- <-).
    split_and!; [by destruct e; cbn in *; rewrite ?Hb | by destruct e |]. intros Hm. rewrite list_elem_of_singleton. intros [= <- <-].
    unfold mem_read in Er. cbn [peer pp_dir] in Er. rewrite (Hi Hm) in Er. cbn in Er.
    by repeat case_match.
  - injection E as <- <-. unfold Close. destruct (bool_decide _); destruct e; split_and!; try done; intros _; apply not_elem_of_nil.
  - injection E as <- <-. destruct e; split_and!; try done; intros _; apply not_elem_of_nil.
  - injection E as <- <-. destruct e; split_and!; try done; intros _; apply not_elem_of_nil.
  - injection E as <- <-. unfold SetReadDeadline. destruct e; [destruct (downlinkDeadlineImmune s) eqn:Ed |]; split_and!; try done;
      cbn; rewrite ?Ed; try done; intros _; apply not_elem_of_nil.
  - injection E as <- <-. destruct e; split_and!; try done; intros _; apply not_elem_of_nil.
  - injection E as <- <-. unfold SetDeadline, SetReadDeadline. destruct e; [destruct (downlinkDeadlineImmune s) eqn:Ed |];
      split_and!; try done; cbn; rewrite ?Ed; try done; intros _; apply not_elem_of_nil.
Qed.

Lemma pipe_run_immune ops s evs s' :
  immune_ok s → pipe_run s ops = Some (evs, s') →
  immune_ok s' ∧ (downlinkDeadlineImmune s = true → downlinkDeadlineImmune s' = true ∧ ERead App RTimeout ∉ evs).
Proof.
  revert s evs. induction ops as [| o ops IH]; intros s evs Hi E; cbn [pipe_run] in E.
  { injection E as <- <-. split; [done |]. intros Hm. split; [done | apply not_elem_of_nil]. }
  destruct (pipe_step s o) as [[ev s1] |] eqn:Es; [| done]. destruct (pipe_run s1 ops) as [[evs' s2] |] eqn:Er; [| done].
  injection E as <- <-. destruct (pipe_step_immune _ _ _ _ Hi Es) as (H1 & H2 & H3). destruct (IH _ _ H1 Er) as [H4 H5].
  split; [done |]. intros Hm. destruct (H5 (H2 Hm)) as [H6 H7]. split; [done |]. rewrite elem_of_app. intros [? | ?]; [by apply H3 | done].
Qed.

(** A half-closed connection keeps its downlink.  After the application's
    end has closed its write side, its reads never time out, whatever deadlines
    are set before or after and whatever else happens; the relay's end sees the
    end of the uplink, and its write side is still open unless it was closed
    before. *)
Theorem half_close_keeps_downlink ops evs s ops' evs' s' :
  pipe_run newMemPipe ops = Some (evs, s) → pipe_run (CloseWrite s App) ops' = Some (evs', s') →
  ERead App RTimeout ∉ evs'
  ∧ mb_closed (pp_dir (CloseWrite s App) App) = true
  ∧ writeClosed (CloseWrite s App) Relay = writeClosed s Relay.
Proof.
  intros E E'. assert (immune_ok newMemPipe) as H0 by done. destruct (pipe_run_immune _ _ _ _ H0 E) as [Hi _].
  assert (immune_ok (CloseWrite s App)) as Hc by done.
  destruct (pipe_run_immune _ _ _ _ Hc E') as [_ H]. split_and!; [by apply H | done | done].
Qed.

(** ** Witnesses *)

Definition demo_pipe_ops : list pipe_op :=
  [PWrite App [1; 2; 3]; PTurn App 0; PTurn App 0; PRead Relay 2 1; PDeadline App (Some 5); PCloseWrite App;
   PReadDeadline App (Some 9)].
Definition demo_pipe : list pipe_event * pipe := default ([], newMemPipe) (pipe_run newMemPipe demo_pipe_ops).


Lemma pipe_progress_witness :
  let b := pp_dir (snd demo_pipe) App in
  (fst (mem_read b 4 2) = RBlocked → fst (mem_write b [7] 2) ≠ WBlocked)
  ∧ (∀ d b', mem_read b 4 2 = (RData d, b') → fst (mem_write b' [7] 2) ≠ WBlocked)
  ∧ (mb_closed b = true → ∀ ns, Forall (λ m, 0 < m) ns → len (mb_buf b) < len ns →
       concat (data_of <$> drain b ns 2) = mb_buf b ∧ last (drain b ns 2) = Some REOF
       ∧ RBlocked ∉ drain b ns 2 ∧ RTimeout ∉ drain b ns 2).
Proof.
  apply (pipe_progress demo_pipe_ops (fst demo_pipe) (snd demo_pipe) App [7] 4 2); [vm_compute; reflexivity | done | lia].
Defined.

Lemma half_close_keeps_downlink_witness :
  let s := snd demo_pipe in
  let later := default ([], s) (pipe_run (CloseWrite s App) [PReadDeadline App (Some 3); PWrite Relay [8]; PTurn Relay 70; PRead App 5 80]) in
  fst later = [EWrote Relay [8]; ERead App (RData [8])]
  ∧ ERead App RTimeout ∉ fst later ∧ mb_closed (pp_dir (CloseWrite s App) App) = true
  ∧ writeClosed (CloseWrite s App) Relay = writeClosed s Relay.
Proof.
  intros s later. split; [vm_compute; reflexivity |].
  apply (half_close_keeps_downlink demo_pipe_ops (fst demo_pipe) s
    [PReadDeadline App (Some 3); PWrite Relay [8]; PTurn Relay 70; PRead App 5 80] (fst later) (snd later)); vm_compute; reflexivity.
Defined.
