(* ===== verification/SlotStreams.v ===== *)
(** * Streams on the slots of the client's pool ([client/ws_pool.go],
      [client/stream_entry.go], [client/migrate_send.go], [client/migrate_watchdog.go])

    Choosing a slot for a stream, the binding of streams to slots with the
    per-slot counters, and the move of a stream to another slot: the claim, the
    MIGRATE or RESUME frame, the wait for the server's reply against a timer, and
    the new binding.  Every access to the shared map, to a counter or to a channel
    is a step, so that all goroutines interleave; the timeout streak and the
    [migrating] flag move with the step that causes it.  The life cycle of the
    slots is the environment here: any cell may change at any time. *)

From S2P Require Import Prelude.
From S2P Require Import Chunk.
From stdpp Require Import base list gmap.

#[local] Open Scope Z_scope.

(** ** Data *)

Inductive slotState := slotConnecting | slotReady | slotDead | slotDraining.
#[global] Instance slotState_eq_dec : EqDecision slotState.
Proof. solve_decision. Defined.

Record poolSlot := mkSlot {
  state : slotState; streams : Z; pendingConnects : Z; startedAtNs : Z; lastDeathNs : Z;
}.

(** [ofStream] is the stream the entry was made for; the code has it as the key. *)
Record streamEntry := mkEntry { ofStream : Z; slotIdx : nat; migrating : bool; migrationScheduled : bool; lastWriteNs : Z }.
Definition newStreamEntry (sid : Z) (idx : nat) (now : Z) : streamEntry := mkEntry sid idx false false now.

Inductive migrateResult :=
| migrateResultOK (resumeDownSeq : Z) | migrateResultFail (reason : Z) | migrateResultTimeout | migrateResultNoSend.
#[global] Instance migrateResult_eq_dec : EqDecision migrateResult.
Proof. solve_decision. Defined.

(** A move of a stream: its id, the entry that was claimed, where it goes, and
    whether it is a RESUME after the death of its slot. *)
Record move := mkMove { mv_sid : Z; mv_entry : nat; mv_target : nat; mv_resume : bool }.

(** Where a goroutine is. *)
Inductive go :=
(* [AssignStream] *)
| GPicked (sid : Z) (idx : nat) | GChecked (sid : Z) (idx : nat) | GCounted (sid : Z) (idx : nat)
(* [ReleaseStream], [handleStreamClose]: to take the binding out; it is out and
   its slot is known; to close the stream's channels *)
| GClosing (sid : Z) | GDropped (idx : nat) (closing : option Z) | GShutting (sid : Z)
(* [migrateStream]: the entry is loaded, then claimed *)
| GFound (sid : Z) (e : nat) | GOwned (sid : Z) (e : nat)
(* [resumeStreamOnDeath]: the entry is loaded, was not moving, has a target *)
| GResume (sid : Z) (e dead : nat) | GUnmoved (sid : Z) (e dead : nat) | GTarget (m : move)
(* [sendMigrate]: called, encrypted, registered, sent, timed out without its registration *)
| GClaimed (m : move) | GSealed (m : move) | GRegistered (m : move) (ch : nat) | GWaiting (m : move) (ch : nat)
| GDrain (m : move) (ch : nat) | GAccepted (m : move)
(* [rebindStreamToSlot] *)
| GLoaded (m : move) (src : nat) | GRaised (m : move) (src : nat) | GRebound (src : nat)
(* [resolveMigrateReplyPayload]: the registration is out, the channel is known *)
| GReply (ch : nat) (r : migrateResult).

Record pool := mkPool {
  slots : list (option poolSlot);
  entries : list streamEntry;                (* the heap of entries *)
  streamMap : gmap Z nat;
  pendingMigrateAcks : gmap Z nat;           (* stream to channel *)
  chans : list (Z * option migrateResult);   (* channels of capacity one, and the stream of the call *)
  migrateEnabled : bool; migrateCapable : bool;
  consecutiveMigrateTimeouts : Z;
  proofs : gset Z;                           (* streams whose proof is stored *)
  closed : list Z;                           (* streams whose channels were closed *)
  gos : gmap nat go;
  taken : list (nat * Z * migrateResult);    (* replies matched to a call, by channel *)
  results : list (nat * Z * migrateResult);  (* what the calls returned *)
}.

Definition with_slots (p : pool) (l : list (option poolSlot)) : pool :=
  mkPool l (entries p) (streamMap p) (pendingMigrateAcks p) (chans p) (migrateEnabled p) (migrateCapable p)
    (consecutiveMigrateTimeouts p) (proofs p) (closed p) (gos p) (taken p) (results p).
Definition with_bindings (p : pool) (es : list streamEntry) (sm : gmap Z nat) : pool :=
  mkPool (slots p) es sm (pendingMigrateAcks p) (chans p) (migrateEnabled p) (migrateCapable p)
    (consecutiveMigrateTimeouts p) (proofs p) (closed p) (gos p) (taken p) (results p).
Definition with_acks (p : pool) (pa : gmap Z nat) (cs : list (Z * option migrateResult)) : pool :=
  mkPool (slots p) (entries p) (streamMap p) pa cs (migrateEnabled p) (migrateCapable p)
    (consecutiveMigrateTimeouts p) (proofs p) (closed p) (gos p) (taken p) (results p).
Definition with_capability (p : pool) (en cap : bool) (n : Z) : pool :=
  mkPool (slots p) (entries p) (streamMap p) (pendingMigrateAcks p) (chans p) en cap n
    (proofs p) (closed p) (gos p) (taken p) (results p).
Definition with_streams (p : pool) (pr : gset Z) (cl : list Z) : pool :=
  mkPool (slots p) (entries p) (streamMap p) (pendingMigrateAcks p) (chans p) (migrateEnabled p) (migrateCapable p)
    (consecutiveMigrateTimeouts p) pr cl (gos p) (taken p) (results p).
Definition with_gos (p : pool) (g : gmap nat go) : pool :=
  mkPool (slots p) (entries p) (streamMap p) (pendingMigrateAcks p) (chans p) (migrateEnabled p) (migrateCapable p)
    (consecutiveMigrateTimeouts p) (proofs p) (closed p) g (taken p) (results p).
Definition with_logs (p : pool) (tk rs : list (nat * Z * migrateResult)) : pool :=
  mkPool (slots p) (entries p) (streamMap p) (pendingMigrateAcks p) (chans p) (migrateEnabled p) (migrateCapable p)
    (consecutiveMigrateTimeouts p) (proofs p) (closed p) (gos p) tk rs.

Definition slotAt (p : pool) (idx : nat) : option poolSlot := mjoin (slots p !! idx).

Definition setStreams (s : poolSlot) (n : Z) : poolSlot := mkSlot (state s) n (pendingConnects s) (startedAtNs s) (lastDeathNs s).
Definition setPending (s : poolSlot) (n : Z) : poolSlot := mkSlot (state s) (streams s) n (startedAtNs s) (lastDeathNs s).
Definition upd_slot (f : poolSlot → poolSlot) (p : pool) (idx : nat) : pool :=
  with_slots p (alter (fmap f) idx (slots p)).

Definition incStreams (s : poolSlot) : poolSlot := setStreams s (streams s + 1).
Definition decStreamsFloor (s : poolSlot) : poolSlot := if streams s <=? 0 then s else setStreams s (streams s - 1).

(** ** [AssignStream]: the choice *)

Definition slotFreshnessPenaltyWindow : Z := 30 * 1000000000.
Definition maxInt32 : Z := 2 ^ 31 - 1.
Definition int32 (x : Z) : Z := (x + 2 ^ 31) mod 2 ^ 32 - 2 ^ 31.

Definition isReady (s : poolSlot) : bool := bool_decide (state s = slotReady).

(** One candidate of a pass, with its score. *)
Definition candidate (maxStreamsPerSlot : Z) (allowFresh : bool) (now : Z) (s : poolSlot) : option Z :=
  if negb (isReady s) then None else
  if (0 <? maxStreamsPerSlot) && (maxStreamsPerSlot <=? streams s) then None else
  if negb allowFresh && (0 <? lastDeathNs s) && (now - lastDeathNs s <? slotFreshnessPenaltyWindow) then None
  else Some (int32 (pendingConnects s * 4 + streams s)).

(** The first index with the least score below [best]. *)
Fixpoint least (score : poolSlot → option Z) (l : list (option poolSlot)) (i : nat) (best : option nat) (low : Z) : option nat :=
  match l with
  | [] => best
  | None :: l' => least score l' (S i) best low
  | Some s :: l' =>
    match score s with
    | Some x => if x <? low then least score l' (S i) (Some i) x else least score l' (S i) best low
    | None => least score l' (S i) best low
    end
  end.

Fixpoint first_slot (l : list (option poolSlot)) (i : nat) : option nat :=
  match l with
  | [] => None
  | Some _ :: _ => Some i
  | None :: l' => first_slot l' (S i)
  end.

Definition orElse {A} (a b : option A) : option A := match a with Some x => Some x | None => b end.

Definition pick (maxStreamsPerSlot : Z) (snap : list (option poolSlot)) (now : Z) : option nat :=
  orElse (least (candidate maxStreamsPerSlot false now) snap 0 None maxInt32)
  (orElse (least (candidate maxStreamsPerSlot true now) snap 0 None maxInt32)
  (orElse (least (λ s, if isReady s then Some (streams s) else None) snap 0 None maxInt32)
  (first_slot snap 0))).

(** ** Moves *)

Definition MigrateCapable (p : pool) : bool := migrateEnabled p && migrateCapable p.

(** [selectYoungTargetSlot] *)
Fixpoint youngest (agingIdx : nat) (l : list (option poolSlot)) (i : nat) (best : option (nat * Z)) : option nat :=
  match l with
  | [] => fst <$> best
  | os :: l' =>
    let better :=
      match os with
      | Some s =>
        negb (i =? agingIdx)%nat && isReady s && negb (startedAtNs s =? 0)
        && match best with None => true | Some (_, b) => b <? startedAtNs s end
      | None => false
      end in
    youngest agingIdx l' (S i) (if better then match os with Some s => Some (i, startedAtNs s) | None => best end else best)
  end.
Definition selectYoungTargetSlot (p : pool) (agingIdx : nat) : option nat := youngest agingIdx (slots p) 0 None.

Definition migrateHysteresisThreshold : Z := 3.

Definition noteMigrateTimeout (p : pool) : pool :=
  let n := consecutiveMigrateTimeouts p + 1 in
  with_capability p (migrateEnabled p) (if (n =? migrateHysteresisThreshold) && migrateCapable p then false else migrateCapable p) n.
Definition noteMigrateAck (p : pool) : pool := with_capability p (migrateEnabled p) (migrateCapable p) 0.
Definition resetMigrateHysteresis (p : pool) : pool := with_capability p (migrateEnabled p) true 0.

(** Whether [slotForMigrate] gives a session; a slot that is ready or draining
    has its transport and session. *)
Definition slotForMigrate (p : pool) (target : nat) : bool :=
  match slotAt p target with
  | Some s => bool_decide (state s = slotReady) || bool_decide (state s = slotDraining)
  | None => false
  end.

Definition set_entry (f : streamEntry → streamEntry) (p : pool) (e : nat) : pool :=
  with_bindings p (alter f e (entries p)) (streamMap p).
Definition set_migrating (p : pool) (e : nat) (b : bool) : pool :=
  set_entry (λ x, mkEntry (ofStream x) (slotIdx x) b (migrationScheduled x) (lastWriteNs x)) p e.
Definition is_migrating (p : pool) (e : nat) : bool := match entries p !! e with Some x => migrating x | None => false end.
Definition entry_idx (p : pool) (e : nat) : nat := match entries p !! e with Some x => slotIdx x | None => 0%nat end.

(** [streamMap.Store(sid, newStreamEntry(idx))] *)
Definition bind_stream (p : pool) (sid : Z) (idx : nat) (now : Z) : pool :=
  with_bindings p (entries p ++ [newStreamEntry sid idx now]) (<[sid := length (entries p)]> (streamMap p)).
Definition unbind_stream (p : pool) (sid : Z) : pool := with_bindings p (entries p) (delete sid (streamMap p)).

Definition end_go (p : pool) (g : nat) : pool := with_gos p (delete g (gos p)).
Definition set_go (p : pool) (g : nat) (x : go) : pool := with_gos p (<[g := x]> (gos p)).

(** A move that did not succeed: the flag falls, and a RESUME closes the stream. *)
Definition move_failed (p : pool) (g : nat) (m : move) : pool :=
  let p1 := set_migrating p (mv_entry m) false in
  if mv_resume m then set_go p1 g (GClosing (mv_sid m)) else end_go p1 g.

Definition log_result (p : pool) (ch : nat) (sid : Z) (r : migrateResult) : pool :=
  with_logs p (taken p) (results p ++ [(ch, sid, r)]).

(** [sendMigrate] returns: with a reply, with the time out, without a send. *)
Definition move_replied (p : pool) (g : nat) (m : move) (ch : nat) (r : migrateResult) : pool :=
  let p1 := log_result (noteMigrateAck (with_acks p (pendingMigrateAcks p) (<[ch := (mv_sid m, None)]> (chans p)))) ch (mv_sid m) r in
  match r with
  | migrateResultOK _ => set_go p1 g (GAccepted m)
  | _ => move_failed p1 g m
  end.
Definition move_timed_out (p : pool) (g : nat) (m : move) (ch : nat) : pool :=
  move_failed (log_result (noteMigrateTimeout p) ch (mv_sid m) migrateResultTimeout) g m.
Definition move_unsent (p : pool) (g : nat) (m : move) (ch : nat) : pool :=
  let pa := pendingMigrateAcks p in
  let pa' := if bool_decide (pa !! mv_sid m = Some ch) then delete (mv_sid m) pa else pa in
  move_failed (log_result (with_acks p pa' (chans p)) ch (mv_sid m) migrateResultNoSend) g m.

(** What a reply says, if it parses. *)
Definition reply_of (payload : bytes) : option (Z * migrateResult) :=
  match ParseMigrateReply payload with
  | Ret (true, sid, seq, _) => Some (sid, migrateResultOK seq)
  | Ret (false, sid, _, reason) => Some (sid, migrateResultFail reason)
  | _ => None
  end.

(** ** Steps *)

(** What an operation starts, run by a goroutine of its own. *)
Inductive op :=
| SAssign (g : nat) (sid now maxStreamsPerSlot : Z) | SRelease (g : nat) (sid : Z) | SClose (g : nat) (sid : Z)
| SMigrate (g : nat) (sid : Z) | SResume (g : nat) (sid : Z) (dead : nat) | SReply (g : nat) (payload : bytes)
(* a goroutine goes on; [ok] is what the encryption and the writer's queue say *)
| SStep (g : nat) (ok : bool) (now : Z)
(* the two arms of the wait for the reply *)
| SRecv (g : nat) | STimer (g : nat)
| SIncr (sid : Z) | SDecr (sid : Z) | STouch (sid now : Z)
(* other components: the slot's cell, the handshake, the store of proofs *)
| SCell (idx : nat) (c : option poolSlot) | SNegotiated | SProof (sid : Z) (stored : bool).

(** [LoadAndDelete] of a stream's binding, in [ReleaseStream] and [handleStreamClose]. *)
Definition take_binding (p : pool) (g : nat) (sid : Z) (closing : option Z) : pool :=
  match streamMap p !! sid with
  | Some e => set_go (unbind_stream p sid) g (GDropped (entry_idx p e) closing)
  | None => match closing with Some s => set_go p g (GShutting s) | None => end_go p g end
  end.

(** *** The goroutines, by the function they are in *)

(** [AssignStream], after the choice *)
Definition AssignStream_go (p : pool) (g : nat) (now : Z) (x : go) : pool :=
  match x with
  | GPicked sid idx => match streamMap p !! sid with Some _ => end_go p g | None => set_go p g (GChecked sid idx) end
  | GChecked sid idx => set_go (upd_slot incStreams p idx) g (GCounted sid idx)
  | GCounted sid idx => end_go (bind_stream p sid idx now) g
  | _ => p
  end.

(** [handleStreamClose], and the decrement of [ReleaseStream] *)
Definition handleStreamClose_go (p : pool) (g : nat) (x : go) : pool :=
  match x with
  | GClosing sid => take_binding p g sid (Some sid)
  | GDropped idx closing =>
    let p1 := upd_slot decStreamsFloor p idx in
    match closing with Some sid => set_go p1 g (GShutting sid) | None => end_go p1 g end
  | GShutting sid => end_go (with_streams p (proofs p) (sid :: closed p)) g
  | _ => p
  end.

(** [migrateStream], up to the send *)
Definition migrateStream_go (p : pool) (g : nat) (x : go) : pool :=
  match x with
  | GFound sid e => if is_migrating p e then end_go p g else set_go (set_migrating p e true) g (GOwned sid e)
  | GOwned sid e =>
    match selectYoungTargetSlot p (entry_idx p e) with
    | Some target => set_go p g (GClaimed (mkMove sid e target false))
    | None => end_go (set_migrating p e false) g
    end
  | _ => p
  end.

(** [resumeStreamOnDeath], up to the send *)
Definition resumeStreamOnDeath_go (p : pool) (g : nat) (x : go) : pool :=
  match x with
  | GResume sid e dead => if is_migrating p e then end_go p g else set_go p g (GUnmoved sid e dead)
  | GUnmoved sid e dead =>
    match selectYoungTargetSlot p dead with
    | Some target => set_go p g (GTarget (mkMove sid e target true))
    | None => set_go p g (GClosing sid)
    end
  | GTarget m =>
    if is_migrating p (mv_entry m) then end_go p g else set_go (set_migrating p (mv_entry m) true) g (GClaimed m)
  | _ => p
  end.

(** [sendMigrate]; its wait is in [step] *)
Definition sendMigrate_go (p : pool) (g : nat) (ok : bool) (x : go) : pool :=
  match x with
  | GClaimed m =>
    if bool_decide (mv_sid m ∈ proofs p) && slotForMigrate p (mv_target m) && ok then set_go p g (GSealed m)
    else move_failed p g m
  | GSealed m =>
    let ch := length (chans p) in
    set_go (with_acks p (<[mv_sid m := ch]> (pendingMigrateAcks p)) (chans p ++ [(mv_sid m, None)])) g (GRegistered m ch)
  | GRegistered m ch => if ok then set_go p g (GWaiting m ch) else move_unsent p g m ch
  | GDrain m ch =>
    match chans p !! ch with
    | Some (_, Some r) => move_replied p g m ch r
    | _ => move_timed_out p g m ch
    end
  | _ => p
  end.

(** [rebindStreamToSlot] *)
Definition rebindStreamToSlot_go (p : pool) (g : nat) (now : Z) (x : go) : pool :=
  match x with
  | GAccepted m =>
    match streamMap p !! mv_sid m with
    | Some e => if (entry_idx p e =? mv_target m)%nat then end_go p g else set_go p g (GLoaded m (entry_idx p e))
    | None => end_go p g
    end
  | GLoaded m src => set_go (upd_slot incStreams p (mv_target m)) g (GRaised m src)
  | GRaised m src => set_go (bind_stream p (mv_sid m) (mv_target m) now) g (GRebound src)
  | GRebound src => end_go (upd_slot decStreamsFloor p src) g
  | _ => p
  end.

(** [resolveMigrateReplyPayload], after the registration is out *)
Definition resolveMigrateReply_go (p : pool) (g : nat) (x : go) : pool :=
  match x with
  | GReply ch r =>
    match chans p !! ch with
    | Some (sid, None) => end_go (with_acks p (pendingMigrateAcks p) (<[ch := (sid, Some r)]> (chans p))) g
    | _ => p
    end
  | _ => p
  end.

Definition go_on (p : pool) (g : nat) (ok : bool) (now : Z) (x : go) : pool :=
  match x with
  | GPicked _ _ | GChecked _ _ | GCounted _ _ => AssignStream_go p g now x
  | GClosing _ | GDropped _ _ | GShutting _ => handleStreamClose_go p g x
  | GFound _ _ | GOwned _ _ => migrateStream_go p g x
  | GResume _ _ _ | GUnmoved _ _ _ | GTarget _ => resumeStreamOnDeath_go p g x
  | GClaimed _ | GSealed _ | GRegistered _ _ | GWaiting _ _ | GDrain _ _ => sendMigrate_go p g ok x
  | GAccepted _ | GLoaded _ _ | GRaised _ _ | GRebound _ => rebindStreamToSlot_go p g now x
  | GReply _ _ => resolveMigrateReply_go p g x
  end.
Ltac go_cbn :=
  cbn [go_on AssignStream_go handleStreamClose_go migrateStream_go resumeStreamOnDeath_go sendMigrate_go rebindStreamToSlot_go resolveMigrateReply_go].

Definition pend (d : Z) (p : pool) (sid : Z) : pool :=
  match streamMap p !! sid with
  | Some e => upd_slot (λ s, setPending s (pendingConnects s + d)) p (entry_idx p e)
  | None => p
  end.
Definition IncrPending : pool → Z → pool := pend 1.
Definition DecrPending : pool → Z → pool := pend (-1).

(** A goroutine starts only under a number that is free. *)
Definition start (p : pool) (g : nat) (f : pool → pool) : pool := match gos p !! g with Some _ => p | None => f p end.

Definition AssignStream (p : pool) (g : nat) (sid now maxStreamsPerSlot : Z) : pool :=
  match pick maxStreamsPerSlot (slots p) now with Some idx => set_go p g (GPicked sid idx) | None => p end.
Definition ReleaseStream (p : pool) (g : nat) (sid : Z) : pool := take_binding p g sid None.
Definition handleStreamClose (p : pool) (g : nat) (sid : Z) : pool := take_binding p g sid (Some sid).
Definition migrateStream (p : pool) (g : nat) (sid : Z) : pool :=
  if MigrateCapable p then
    match streamMap p !! sid with Some e => set_go p g (GFound sid e) | None => p end
  else p.
(** The part of [handleSlotDeath]'s walk that concerns one stream. *)
Definition resumeStreamOnDeath (p : pool) (g : nat) (sid : Z) (dead : nat) : pool :=
  match streamMap p !! sid with
  | Some e => if migrateEnabled p && (entry_idx p e =? dead)%nat then set_go p g (GResume sid e dead) else p
  | None => p
  end.
Definition resolveMigrateReplyPayload (p : pool) (g : nat) (payload : bytes) : pool :=
  match reply_of payload with
  | Some (sid, r) =>
    match pendingMigrateAcks p !! sid with
    | Some ch =>
      set_go (with_logs (with_acks p (delete sid (pendingMigrateAcks p)) (chans p)) (taken p ++ [(ch, sid, r)]) (results p))
        g (GReply ch r)
    | None => p
    end
  | None => p
  end.
(** The two arms of [sendMigrate]'s select. *)
Definition sendMigrate_reply (p : pool) (g : nat) : pool :=
  match gos p !! g with
  | Some (GWaiting m ch) => match chans p !! ch with Some (_, Some r) => move_replied p g m ch r | _ => p end
  | _ => p
  end.
Definition sendMigrate_timer (p : pool) (g : nat) : pool :=
  match gos p !! g with
  | Some (GWaiting m ch) =>
    match pendingMigrateAcks p !! mv_sid m with
    | Some _ => move_timed_out (with_acks p (delete (mv_sid m) (pendingMigrateAcks p)) (chans p)) g m ch
    | None => set_go p g (GDrain m ch)
    end
  | _ => p
  end.
(** The stamp of [lastWriteNs] when a stream sends or receives. *)
Definition touch (p : pool) (sid now : Z) : pool :=
  match streamMap p !! sid with
  | Some e => set_entry (λ x, mkEntry (ofStream x) (slotIdx x) (migrating x) (migrationScheduled x) now) p e
  | None => p
  end.

Definition step (p : pool) (o : op) : pool :=
  match o with
  | SAssign g sid now maxStreams => start p g (λ p, AssignStream p g sid now maxStreams)
  | SRelease g sid => start p g (λ p, ReleaseStream p g sid)
  | SClose g sid => start p g (λ p, handleStreamClose p g sid)
  | SMigrate g sid => start p g (λ p, migrateStream p g sid)
  | SResume g sid dead => start p g (λ p, resumeStreamOnDeath p g sid dead)
  | SReply g payload => start p g (λ p, resolveMigrateReplyPayload p g payload)
  | SStep g ok now => match gos p !! g with Some x => go_on p g ok now x | None => p end
  | SRecv g => sendMigrate_reply p g
  | STimer g => sendMigrate_timer p g
  | SIncr sid => IncrPending p sid
  | SDecr sid => DecrPending p sid
  | STouch sid now => touch p sid now
  | SCell idx c => with_slots p (<[idx := c]> (slots p))
  | SNegotiated => resetMigrateHysteresis (with_capability p true (migrateCapable p) (consecutiveMigrateTimeouts p))
  | SProof sid stored => with_streams p (if stored then proofs p ∪ {[sid]} else proofs p ∖ {[sid]}) (closed p)
  end.
Ltac step_cbn :=
  cbn [step]; unfold AssignStream, ReleaseStream, handleStreamClose, migrateStream, resumeStreamOnDeath, resolveMigrateReplyPayload,
    sendMigrate_reply, sendMigrate_timer, touch.

Definition run (p : pool) (os : list op) : pool := foldl step p os.

Definition newPool (n : nat) : pool := mkPool (replicate n None) [] ∅ ∅ [] false false 0 ∅ [] ∅ [] [].

(** ** The wait for replies *)

(** The call of [sendMigrate] a goroutine is in, with its channel. *)
Definition call (x : go) : option (move * nat) :=
  match x with
  | GRegistered m ch | GWaiting m ch | GDrain m ch => Some (m, ch)
  | _ => None
  end.
Definition awaits (x : go) (ch : nat) : bool :=
  match x with GRegistered _ c | GWaiting _ c => (c =? ch)%nat | _ => false end.
Definition replying (x : go) : option nat := match x with GReply ch _ => Some ch | _ => None end.
Definition answered (r : migrateResult) : bool :=
  match r with migrateResultOK _ | migrateResultFail _ => true | _ => false end.

Definition ch_of (x : nat * Z * migrateResult) : nat := x.1.1.

Record acks (p : pool) : Prop := {
  a_pend : ∀ sid ch, pendingMigrateAcks p !! sid = Some ch →
    chans p !! ch = Some (sid, None) ∧ ch ∉ (ch_of <$> taken p)
    ∧ ∃ g x, gos p !! g = Some x ∧ awaits x ch = true;
  a_call : ∀ g x m ch, gos p !! g = Some x → call x = Some (m, ch) →
    fst <$> chans p !! ch = Some (mv_sid m) ∧ ch ∉ (ch_of <$> results p);
  a_call_one : ∀ g g' x x' m m' ch, gos p !! g = Some x → gos p !! g' = Some x' →
    call x = Some (m, ch) → call x' = Some (m', ch) → g = g';
  a_reply : ∀ g ch r, gos p !! g = Some (GReply ch r) →
    ∃ sid, chans p !! ch = Some (sid, None) ∧ (ch, sid, r) ∈ taken p;
  a_reply_one : ∀ g g' x x' ch, gos p !! g = Some x → gos p !! g' = Some x' →
    replying x = Some ch → replying x' = Some ch → g = g';
  a_full : ∀ ch sid r, chans p !! ch = Some (sid, Some r) → (ch, sid, r) ∈ taken p;
  a_taken : NoDup (ch_of <$> taken p) ∧ ∀ ch sid r, (ch, sid, r) ∈ taken p → fst <$> chans p !! ch = Some sid ∧ answered r = true;
  a_results : NoDup (ch_of <$> results p) ∧ ∀ ch sid r, (ch, sid, r) ∈ results p →
    fst <$> chans p !! ch = Some sid ∧ (answered r = true → (ch, sid, r) ∈ taken p);
}.

(** A goroutine that is in no call and delivers no reply. *)
Definition plain (x : go) : Prop := call x = None ∧ replying x = None.

Lemma awaits_call x ch : awaits x ch = true → ∃ m, call x = Some (m, ch).
Proof. destruct x; cbn; try done; intros ->%Nat.eqb_eq; eauto. Qed.

Lemma replying_inv x ch : replying x = Some ch → ∃ r, x = GReply ch r.
Proof. destruct x; cbn; try done. intros [= ->]. eauto. Qed.

(** Only goroutine [g] changed. *)
Definition only (g : nat) (p p' : pool) : Prop := ∀ g', g' ≠ g → gos p' !! g' = gos p !! g'.

Lemma only_set p q g x : gos q = gos p → only g p (set_go q g x).
Proof. intros E g' Hg. cbn. by rewrite lookup_insert_ne, E. Qed.
Lemma only_end p q g : gos q = gos p → only g p (end_go q g).
Proof. intros E g' Hg. cbn. by rewrite lookup_delete_ne, E. Qed.
Lemma only_refl p q g : gos q = gos p → only g p q.
Proof. intros E g' _. by rewrite E. Qed.

Definition same_acks (p p' : pool) : Prop :=
  pendingMigrateAcks p' = pendingMigrateAcks p ∧ chans p' = chans p ∧ taken p' = taken p ∧ results p' = results p.

(** The two cases of a lookup after goroutine [g] changed. *)
Ltac at_go Ho g g' H :=
  destruct (decide (g' = g)) as [-> | ?]; [| rewrite (Ho g') in H by done].

Lemma acks_quiet p p' g :
  acks p → same_acks p p' → only g p p' →
  (∀ x, gos p !! g = Some x → plain x) → (∀ x, gos p' !! g = Some x → plain x) → acks p'.
Proof.
  intros A (E1 & E2 & E3 & E4) Ho Hb Ha. split; rewrite ?E1, ?E2, ?E3, ?E4.
  - intros sid ch Hp. destruct (a_pend p A sid ch Hp) as (Hc & Ht & g1 & x & Hg1 & Hx).
    split_and!; [done | done |]. exists g1, x. rewrite Ho; [done |]. intros ->.
    destruct (awaits_call x ch Hx) as [m Hm]. by destruct (Hb x Hg1); congruence.
  - intros g1 x m ch Hg1 Hx. at_go Ho g g1 Hg1; [by destruct (Ha x Hg1); congruence |]. by apply (a_call p A g1 x m ch).
  - intros g1 g2 x x' m m' ch H1 H2 Hx Hx'.
    at_go Ho g g1 H1; [by destruct (Ha x H1); congruence |]. at_go Ho g g2 H2; [by destruct (Ha x' H2); congruence |].
    by apply (a_call_one p A g1 g2 x x' m m' ch).
  - intros g1 ch r Hg1. at_go Ho g g1 Hg1; [by destruct (Ha _ Hg1) |]. by apply (a_reply p A g1).
  - intros g1 g2 x x' ch H1 H2 Hx Hx'.
    at_go Ho g g1 H1; [by destruct (Ha x H1); congruence |]. at_go Ho g g2 H2; [by destruct (Ha x' H2); congruence |].
    by apply (a_reply_one p A g1 g2 x x' ch).
  - apply (a_full p A).
  - apply (a_taken p A).
  - apply (a_results p A).
Qed.

(** A call returns: its registration is gone, and what it returns was taken for it. *)
Lemma acks_return p p' g x m ch r :
  acks p → gos p !! g = Some x → call x = Some (m, ch) → only g p p' → (∀ y, gos p' !! g = Some y → plain y) →
  taken p' = taken p → results p' = results p ++ [(ch, mv_sid m, r)] →
  (∀ sid c, pendingMigrateAcks p' !! sid = Some c → pendingMigrateAcks p !! sid = Some c ∧ c ≠ ch) →
  (chans p' = chans p ∧ answered r = false
   ∨ chans p !! ch = Some (mv_sid m, Some r) ∧ chans p' = <[ch := (mv_sid m, None)]> (chans p)) →
  acks p'.
Proof.
  intros A Hg Hx Ho Ha Et Er Hp Hc. destruct (a_call p A g x m ch Hg Hx) as [Htag Hnr].
  assert (∀ c, fst <$> chans p' !! c = fst <$> chans p !! c) as Etag.
  { intros c. destruct Hc as [[-> _] | [Hful ->]]; [done |]. destruct (decide (c = ch)) as [-> |].
    - rewrite list_lookup_insert_eq by by eapply lookup_lt_Some. by rewrite Hful.
    - by rewrite list_lookup_insert_ne. }
  assert (∀ c s o, c ≠ ch → chans p !! c = Some (s, o) → chans p' !! c = Some (s, o)) as Eoth.
  { intros c s o Hne Hcs. destruct Hc as [[-> _] | [_ ->]]; [done |]. by rewrite list_lookup_insert_ne. }
  assert (∀ c s, chans p !! c = Some (s, None) → chans p' !! c = Some (s, None)) as Enone.
  { intros c s Hcs. destruct Hc as [[-> _] | [Hful ->]]; [done |]. rewrite list_lookup_insert_ne; [done |]. congruence. }
  split; rewrite ?Et, ?Er.
  - intros sid c Hs. destruct (Hp sid c Hs) as [Hs' Hne]. destruct (a_pend p A sid c Hs') as (Hcs & Hnt & g1 & y & Hg1 & Hy).
    split_and!; [by apply Enone | done |]. exists g1, y. rewrite Ho; [done |]. intros ->.
    destruct (awaits_call y c Hy) as [m' Hm']. congruence.
  - intros g1 y m1 c Hg1 Hy. at_go Ho g g1 Hg1; [by destruct (Ha y Hg1); congruence |].
    destruct (a_call p A g1 y m1 c Hg1 Hy) as [H1 H2]. rewrite Etag. split; [done |].
    rewrite fmap_app, not_elem_of_app. split; [done |]. cbn. rewrite list_elem_of_singleton. intros ->.
    by assert (g1 = g) by (by eapply (a_call_one p A)).
  - intros g1 g2 y y' m1 m2 c H1 H2 Hy Hy'.
    at_go Ho g g1 H1; [by destruct (Ha y H1); congruence |]. at_go Ho g g2 H2; [by destruct (Ha y' H2); congruence |].
    by apply (a_call_one p A g1 g2 y y' m1 m2 c).
  - intros g1 c q Hg1. at_go Ho g g1 Hg1; [by destruct (Ha _ Hg1) |].
    destruct (a_reply p A g1 c q Hg1) as (sid & Hcs & Hin). exists sid. split; [by apply Enone | done].
  - intros g1 g2 y y' c H1 H2 Hy Hy'.
    at_go Ho g g1 H1; [by destruct (Ha y H1); congruence |]. at_go Ho g g2 H2; [by destruct (Ha y' H2); congruence |].
    by apply (a_reply_one p A g1 g2 y y' c).
  - intros c sid q Hcs. apply (a_full p A). destruct Hc as [[Ec _] | [Hful Ec]]; rewrite Ec in Hcs; [done |].
    destruct (decide (c = ch)) as [-> |]; [| by rewrite list_lookup_insert_ne in Hcs].
    rewrite list_lookup_insert_eq in Hcs by (by eapply lookup_lt_Some). done.
  - destruct (a_taken p A) as [Hnd Hta]. split; [done |]. intros c sid q Hin. rewrite Etag. by apply Hta.
  - destruct (a_results p A) as [Hnd Hre]. split.
    + rewrite fmap_app. apply NoDup_app. split_and!; [done | | apply NoDup_singleton].
      intros c Hin. cbn. rewrite list_elem_of_singleton. intros ->. done.
    + intros c sid q. rewrite Etag, elem_of_app, list_elem_of_singleton. intros [Hin | [= -> -> ->]]; [by apply Hre |].
      split; [done |]. intros Hans. destruct Hc as [[_ Hc] | [Hful _]]; [congruence |]. by apply (a_full p A).
Qed.

(** A call goes on with the same channel, still awaiting it or with its registration gone. *)
Lemma acks_keep p p' g x y m ch :
  acks p → gos p !! g = Some x → call x = Some (m, ch) → only g p p' → gos p' !! g = Some y → call y = Some (m, ch) →
  same_acks p p' → (awaits y ch = true ∨ pendingMigrateAcks p !! mv_sid m = None) → acks p'.
Proof.
  intros A Hg Hx Ho Hy Hcy (E1 & E2 & E3 & E4) Haw. destruct (a_call p A g x m ch Hg Hx) as [Htag Hnr].
  assert (replying y = None) as Hry by (by destruct y).
  split; rewrite ?E1, ?E2, ?E3, ?E4.
  - intros sid c Hs. destruct (a_pend p A sid c Hs) as (Hcs & Hnt & g1 & z & Hg1 & Hz). split_and!; [done | done |].
    destruct (decide (g1 = g)) as [-> | Hne]; [| exists g1, z; by rewrite Ho].
    destruct (awaits_call z c Hz) as [m' Hm']. assert (c = ch) as -> by congruence.
    destruct Haw as [Haw | Hno]; [by exists g, y |]. rewrite Hcs in Htag. cbn in Htag. congruence.
  - intros g1 z m1 c Hg1 Hz. at_go Ho g g1 Hg1; [| by apply (a_call p A g1 z m1 c)].
    assert (m1 = m ∧ c = ch) as [-> ->] by (split; congruence). done.
  - intros g1 g2 z z' m1 m2 c H1 H2 Hz Hz'.
    at_go Ho g g1 H1; at_go Ho g g2 H2; [done | | | by eapply (a_call_one p A)].
    + assert (c = ch) as -> by congruence. by eapply (a_call_one p A g g2 x z').
    + assert (c = ch) as -> by congruence. by eapply (a_call_one p A g1 g z x).
  - intros g1 c q Hg1. at_go Ho g g1 Hg1; [by assert (y = GReply c q) as -> by congruence | by apply (a_reply p A g1)].
  - intros g1 g2 z z' c H1 H2 Hz Hz'.
    at_go Ho g g1 H1; [congruence |]. at_go Ho g g2 H2; [congruence |]. by apply (a_reply_one p A g1 g2 z z' c).
  - apply (a_full p A).
  - apply (a_taken p A).
  - apply (a_results p A).
Qed.

Lemma acks_register p g m :
  acks p → gos p !! g = Some (GSealed m) → acks (go_on p g true 0 (GSealed m)).
Proof.
  intros A Hg. go_cbn. set (ch := length (chans p)).
  assert (chans p !! ch = None) as Hfresh by (by apply lookup_ge_None_2).
  assert (∀ c s, fst <$> chans p !! c = Some s → (chans p ++ [(mv_sid m, None)]) !! c = chans p !! c) as Hold.
  { intros c s Hc. apply lookup_app_l, lookup_lt_is_Some. destruct (chans p !! c); [by eexists | done]. }
  assert (only g p (go_on p g true 0 (GSealed m))) as Ho by (by apply only_set).
  set (p' := go_on p g true 0 (GSealed m)) in *. assert (gos p' !! g = Some (GRegistered m ch)) as Hg' by apply lookup_insert_eq.
  change (acks p'). split.
  - intros sid c. cbn. destruct (decide (sid = mv_sid m)) as [-> | Hne].
    + rewrite lookup_insert_eq. intros [= <-]. split_and!.
      * by rewrite lookup_app_r, Nat.sub_diag by (unfold ch; lia).
      * intros ([[c s] r] & Ec & Hin)%list_elem_of_fmap. cbv [ch_of fst snd] in Ec.
        destruct (a_taken p A) as [_ Ht]. destruct (Ht _ _ _ Hin) as [Hc _]. rewrite <- Ec in Hc.
        by change (fst <$> chans p !! ch = Some s) in Hc; rewrite Hfresh in Hc.
      * exists g, (GRegistered m ch). split; [exact Hg' |]. cbn. apply Nat.eqb_refl.
    + rewrite lookup_insert_ne by done. intros Hs. destruct (a_pend p A sid c Hs) as (Hcs & Hnt & g1 & x & Hg1 & Hx).
      split_and!; [by rewrite (Hold c sid) by by rewrite Hcs | done |]. exists g1, x.
      change (gos p' !! g1 = Some x ∧ awaits x c = true). rewrite Ho; [done |]. intros ->.
      by assert (x = GSealed m) as -> by congruence.
  - intros g1 x m1 c Hg1 Hx. at_go Ho g g1 Hg1.
    + assert (x = GRegistered m ch) as -> by congruence. injection Hx as <- <-. cbn. split.
      * by rewrite lookup_app_r, Nat.sub_diag by (unfold ch; lia).
      * intros ([[c s] r] & Ec & Hin)%list_elem_of_fmap. cbv [ch_of fst snd] in Ec.
        destruct (a_results p A) as [_ Ht]. destruct (Ht _ _ _ Hin) as [Hc _]. rewrite <- Ec in Hc.
        by change (fst <$> chans p !! ch = Some s) in Hc; rewrite Hfresh in Hc.
    + destruct (a_call p A g1 x m1 c Hg1 Hx) as [Hc Hr]. cbn. by rewrite (Hold c (mv_sid m1)).
  - assert (∀ g1 x m1, g1 ≠ g → gos p' !! g1 = Some x → call x = Some (m1, ch) → False) as Hno.
    { intros g1 x m1 Hne H1 Hx. rewrite Ho in H1 by done. destruct (a_call p A g1 x m1 ch H1 Hx) as [Hc _].
      by rewrite Hfresh in Hc. }
    intros g1 g2 x x' m1 m2 c H1 H2 Hx Hx'. destruct (decide (g1 = g)) as [-> | N1], (decide (g2 = g)) as [-> | N2]; [done | | |].
    + assert (x = GRegistered m ch) as -> by congruence. injection Hx as <- <-. by destruct (Hno g2 x' m2).
    + assert (x' = GRegistered m ch) as -> by congruence. injection Hx' as <- <-. by destruct (Hno g1 x m1).
    + rewrite Ho in H1, H2 by done. by apply (a_call_one p A g1 g2 x x' m1 m2 c).
  - intros g1 c r Hg1. at_go Ho g g1 Hg1; [congruence |]. destruct (a_reply p A g1 c r Hg1) as (sid & Hc & Hin).
    exists sid. cbn. by rewrite (Hold c sid) by by rewrite Hc.
  - intros g1 g2 x x' c H1 H2 Hx Hx'.
    at_go Ho g g1 H1; [by assert (x = GRegistered m ch) as -> by congruence |].
    at_go Ho g g2 H2; [by assert (x' = GRegistered m ch) as -> by congruence |].
    by apply (a_reply_one p A g1 g2 x x' c).
  - intros c sid r. cbn. intros Hc. apply (a_full p A). apply lookup_app_Some in Hc as [Hc | [_ Hc]]; [done |].
    apply list_lookup_singleton_Some in Hc as [_ [=]].
  - destruct (a_taken p A) as [Hn Ht]. split; [done |]. intros c sid r Hin. cbn. rewrite (Hold c sid); by apply (Ht c sid r).
  - destruct (a_results p A) as [Hn Ht]. split; [done |]. intros c sid r Hin. cbn. rewrite (Hold c sid); by apply (Ht c sid r).
Qed.

Lemma reply_of_answered payload sid r : reply_of payload = Some (sid, r) → answered r = true.
Proof. unfold reply_of. intros. repeat case_match; by simplify_eq. Qed.

Lemma acks_take p g ch sid r :
  acks p → gos p !! g = None → pendingMigrateAcks p !! sid = Some ch → answered r = true →
  acks (set_go (with_logs (with_acks p (delete sid (pendingMigrateAcks p)) (chans p)) (taken p ++ [(ch, sid, r)]) (results p))
          g (GReply ch r)).
Proof.
  intros A Hg Hp Hans. destruct (a_pend p A sid ch Hp) as (Hch & Hnt & _).
  set (p' := set_go _ g _). assert (only g p p') as Ho by (by apply only_set).
  assert (gos p' !! g = Some (GReply ch r)) as Hg' by apply lookup_insert_eq.
  assert (∀ g1 x, gos p' !! g1 = Some x → replying x = None → gos p !! g1 = Some x) as Hback.
  { intros g1 x H1 Hx. at_go Ho g g1 H1; [by assert (x = GReply ch r) as -> by congruence | done]. }
  assert (∀ g1 c q, gos p !! g1 = Some (GReply c q) → c ≠ ch) as Hnr.
  { intros g1 c q H1 ->. destruct (a_reply p A g1 ch q H1) as (s & _ & Hin). apply Hnt.
    apply (list_elem_of_fmap_2 ch_of) in Hin. done. }
  split.
  - intros s c Hs. change (delete sid (pendingMigrateAcks p) !! s = Some c) in Hs. apply lookup_delete_Some in Hs as [Hne Hs].
    destruct (a_pend p A s c Hs) as (Hcs & Hn & g1 & x & Hg1 & Hx).
    split_and!; [done | |].
    + change (c ∉ ch_of <$> taken p ++ [(ch, sid, r)]). rewrite fmap_app, not_elem_of_app. split; [done |]. cbn.
      rewrite list_elem_of_singleton. intros ->. congruence.
    + exists g1, x. rewrite Ho; [done |]. intros ->. congruence.
  - intros g1 x m c H1 Hx. apply (a_call p A g1 x m c); [| done]. apply Hback; [done | by destruct x].
  - intros g1 g2 x x' m m' c H1 H2 Hx Hx'. apply (a_call_one p A g1 g2 x x' m m' c); [| | done | done].
    + apply Hback; [done | by destruct x].
    + apply Hback; [done | by destruct x'].
  - intros g1 c q H1. change (taken p') with (taken p ++ [(ch, sid, r)]). at_go Ho g g1 H1.
    + assert (c = ch ∧ q = r) as [-> ->] by (split; congruence). exists sid. rewrite elem_of_app, list_elem_of_singleton. auto.
    + destruct (a_reply p A g1 c q H1) as (s & Hc & Hin). exists s. rewrite elem_of_app. auto.
  - intros g1 g2 x x' c H1 H2 Hx Hx'. destruct (replying_inv x c Hx) as [q1 ->], (replying_inv x' c Hx') as [q2 ->].
    at_go Ho g g1 H1; at_go Ho g g2 H2; [done | | | by eapply (a_reply_one p A)].
    + assert (c = ch) as -> by congruence. by destruct (Hnr _ _ _ H2).
    + assert (c = ch) as -> by congruence. by destruct (Hnr _ _ _ H1).
  - intros c s q Hc. change (taken p') with (taken p ++ [(ch, sid, r)]). rewrite elem_of_app. left. by apply (a_full p A).
  - destruct (a_taken p A) as [Hn Ht]. change (taken p') with (taken p ++ [(ch, sid, r)]). split.
    + rewrite fmap_app. apply NoDup_app. split_and!; [done | | apply NoDup_singleton].
      intros c Hin. cbn. rewrite list_elem_of_singleton. intros ->. done.
    + intros c s q. rewrite elem_of_app, list_elem_of_singleton. intros [Hin | [= -> -> ->]]; [by apply Ht |].
      split; [| done]. change (chans p') with (chans p). by rewrite Hch.
  - destruct (a_results p A) as [Hn Ht]. split; [done |]. intros c s q Hin. destruct (Ht c s q Hin) as [H1 H2]. split; [done |].
    intros H3. change (taken p') with (taken p ++ [(ch, sid, r)]). rewrite elem_of_app. auto.
Qed.

Lemma acks_deliver p g ch r sid :
  acks p → gos p !! g = Some (GReply ch r) → chans p !! ch = Some (sid, None) →
  acks (end_go (with_acks p (pendingMigrateAcks p) (<[ch := (sid, Some r)]> (chans p))) g).
Proof.
  intros A Hg Hc. destruct (a_reply p A g ch r Hg) as (sid' & Hc' & Hin). assert (sid' = sid) as -> by congruence.
  set (p' := end_go _ g). assert (only g p p') as Ho by (by apply only_end).
  assert (gos p' !! g = None) as Hg' by apply lookup_delete_eq.
  assert (chans p' = <[ch := (sid, Some r)]> (chans p)) as Ec by done.
  assert (∀ c, fst <$> chans p' !! c = fst <$> chans p !! c) as Etag.
  { intros c. rewrite Ec. destruct (decide (c = ch)) as [-> |]; [| by rewrite list_lookup_insert_ne].
    rewrite list_lookup_insert_eq by (by eapply lookup_lt_Some). by rewrite Hc. }
  assert (∀ c s, c ≠ ch → chans p !! c = Some (s, None) → chans p' !! c = Some (s, None)) as Eoth.
  { intros c s Hne Hcs. by rewrite Ec, list_lookup_insert_ne. }
  assert (∀ g1 x, gos p' !! g1 = Some x → g1 ≠ g ∧ gos p !! g1 = Some x) as Hback.
  { intros g1 x H1. at_go Ho g g1 H1; [congruence | done]. }
  split.
  - intros s c Hs. destruct (a_pend p A s c Hs) as (Hcs & Hn & g1 & x & Hg1 & Hx). split_and!; [| done |].
    + apply Eoth; [| done]. intros ->. apply Hn. apply (list_elem_of_fmap_2 ch_of) in Hin. done.
    + exists g1, x. rewrite Ho; [done |]. intros ->. by assert (x = GReply ch r) as -> by congruence.
  - intros g1 x m c [_ H1]%Hback Hx. destruct (a_call p A g1 x m c H1 Hx). by rewrite Etag.
  - intros g1 g2 x x' m m' c [_ H1]%Hback [_ H2]%Hback Hx Hx'. by apply (a_call_one p A g1 g2 x x' m m' c).
  - intros g1 c q [Hne H1]%Hback. destruct (a_reply p A g1 c q H1) as (s & Hcs & Hi). exists s. split; [| done].
    apply Eoth; [| done]. intros ->. apply Hne. by eapply (a_reply_one p A g1 g _ _ ch).
  - intros g1 g2 x x' c [_ H1]%Hback [_ H2]%Hback Hx Hx'. by apply (a_reply_one p A g1 g2 x x' c).
  - intros c s q. rewrite Ec. destruct (decide (c = ch)) as [-> |]; [| by rewrite list_lookup_insert_ne by done; apply (a_full p A)].
    rewrite list_lookup_insert_eq by (by eapply lookup_lt_Some). intros [= <- <-]. done.
  - destruct (a_taken p A) as [Hn Ht]. split; [done |]. intros c s q Hi. rewrite Etag. by apply Ht.
  - destruct (a_results p A) as [Hn Ht]. split; [done |]. intros c s q Hi. rewrite Etag. by apply Ht.
Qed.

Lemma move_failed_only p q g m : gos q = gos p → only g p (move_failed q g m).
Proof. intros E. unfold move_failed. destruct (mv_resume m); [by apply only_set | by apply only_end]. Qed.
Lemma move_failed_plain q g m y : gos (move_failed q g m) !! g = Some y → plain y.
Proof.
  unfold move_failed. destruct (mv_resume m); cbn; [| by rewrite lookup_delete_eq].
  rewrite lookup_insert_eq. by intros [= <-].
Qed.
Lemma move_failed_acks q g m : same_acks q (move_failed q g m).
Proof. unfold move_failed. by destruct (mv_resume m). Qed.

Lemma acks_move_replied p g x m ch sid r :
  acks p → gos p !! g = Some x → call x = Some (m, ch) → chans p !! ch = Some (sid, Some r) → acks (move_replied p g m ch r).
Proof.
  intros A Hg Hx Hc. destruct (a_call p A g x m ch Hg Hx) as [Htag _]. rewrite Hc in Htag. injection Htag as ->.
  assert (∀ s c, pendingMigrateAcks p !! s = Some c → pendingMigrateAcks p !! s = Some c ∧ c ≠ ch) as Hp.
  { intros s c Hs. split; [done |]. intros ->. destruct (a_pend p A s ch Hs) as [? _]. congruence. }
  unfold move_replied. set (q := log_result _ _ _ _).
  assert (only g p (set_go q g (GAccepted m))) by (by apply only_set).
  assert (only g p (move_failed q g m)) by (by apply move_failed_only).
  destruct (move_failed_acks q g m) as (E1 & E2 & E3 & E4).
  destruct r; [| eapply (acks_return p _ g x m ch); rewrite ?E1, ?E2, ?E3, ?E4; eauto using move_failed_plain ..].
  eapply (acks_return p _ g x m ch); eauto. cbn. intros y. rewrite lookup_insert_eq. by intros [= <-].
Qed.

Lemma acks_move_ended p q g x m ch r :
  acks p → gos p !! g = Some x → call x = Some (m, ch) → answered r = false →
  gos q = gos p → chans q = chans p → taken q = taken p → results q = results p ++ [(ch, mv_sid m, r)] →
  (∀ sid c, pendingMigrateAcks q !! sid = Some c → pendingMigrateAcks p !! sid = Some c ∧ c ≠ ch) →
  acks (move_failed q g m).
Proof.
  intros A Hg Hx Hr Eg Ec Et Er Hp. destruct (move_failed_acks q g m) as (E1 & E2 & E3 & E4).
  eapply (acks_return p _ g x m ch); rewrite ?E1, ?E2, ?E3, ?E4; eauto using move_failed_plain, move_failed_only.
Qed.

(** A channel that is pending is pending for its own stream. *)
Lemma pend_own p g x m ch sid c :
  acks p → gos p !! g = Some x → call x = Some (m, ch) → pendingMigrateAcks p !! sid = Some c → sid ≠ mv_sid m → c ≠ ch.
Proof.
  intros A Hg Hx Hs Hne ->. destruct (a_call p A g x m ch Hg Hx) as [Htag _]. destruct (a_pend p A sid ch Hs) as [Hc _].
  rewrite Hc in Htag. cbn in Htag. congruence.
Qed.

Lemma take_binding_acks p g sid cl :
  acks p → (∀ x, gos p !! g = Some x → plain x) → acks (take_binding p g sid cl).
Proof.
  intros A Hpl. apply (acks_quiet p _ g); [done | | | done |]; unfold take_binding.
  - by destruct (streamMap p !! sid), cl.
  - destruct (streamMap p !! sid), cl; by (apply only_set || apply only_end).
  - intros x. destruct (streamMap p !! sid), cl; cbn; rewrite ?lookup_insert_eq, ?lookup_delete_eq; intros; by simplify_eq.
Qed.

(** A goroutine in no call takes a step that concerns no reply. *)
Lemma acks_plain_step p q g x y :
  acks p → gos p !! g = Some x → plain x → plain y → same_acks p q → gos q = gos p →
  acks (set_go q g y) ∧ acks (end_go q g).
Proof.
  intros A Hg Hx Hy Hs Eg. split; apply (acks_quiet p _ g); try done.
  - by apply only_set.
  - congruence.
  - cbn. intros z. rewrite lookup_insert_eq. congruence.
  - by apply only_end.
  - congruence.
  - cbn. intros z. by rewrite lookup_delete_eq.
Qed.
Ltac plain_step A Hg :=
  match goal with
  | |- acks (set_go ?q _ ?y) => by eapply (acks_plain_step _ q _ _ y A Hg)
  | |- acks (end_go ?q _) => by eapply (acks_plain_step _ q _ _ (GShutting 0) A Hg)
  end.

Lemma acks_go_on p g ok now x : acks p → gos p !! g = Some x → acks (go_on p g ok now x).
Proof.
  intros A Hg. destruct x as [sid idx | sid idx | sid idx | sid | idx cl | sid | sid e | sid e | sid e dd | sid e dd | m | m | m | m ch | m ch | m ch | m | m src | m src | src | ch r];
    go_cbn.
  - destruct (streamMap p !! sid); plain_step A Hg.
  - plain_step A Hg.
  - plain_step A Hg.
  - apply take_binding_acks; [done |]. intros y Hy. by assert (y = GClosing sid) as -> by congruence.
  - destruct cl; plain_step A Hg.
  - plain_step A Hg.
  - destruct (is_migrating p e); plain_step A Hg.
  - destruct (selectYoungTargetSlot p (entry_idx p e)); plain_step A Hg.
  - destruct (is_migrating p e); plain_step A Hg.
  - destruct (selectYoungTargetSlot p dd); plain_step A Hg.
  - destruct (is_migrating p (mv_entry m)); plain_step A Hg.
  - destruct (bool_decide _ && _ && _); [plain_step A Hg |]. unfold move_failed. destruct (mv_resume m); plain_step A Hg.
  - by apply acks_register.
  - destruct ok.
    + eapply (acks_keep p _ g _ (GWaiting m ch) m ch A Hg); [done | by apply only_set | apply lookup_insert_eq | done | done |].
      left. cbn. apply Nat.eqb_refl.
    + eapply (acks_move_ended p _ g _ m ch migrateResultNoSend A Hg); try done. cbn. intros sid c.
      case_bool_decide as Hp.
      * intros [Hne Hs]%lookup_delete_Some. split; [done |]. eapply pend_own; eauto.
      * intros Hs. split; [done |]. destruct (decide (sid = mv_sid m)) as [-> |]; [congruence |]. eapply pend_own; eauto.
  - done.
  - assert (acks (move_timed_out p g m ch)) as Ht.
    { eapply (acks_move_ended p _ g _ m ch migrateResultTimeout A Hg); try done. cbn. intros sid c Hs. split; [done |].
      intros ->. destruct (a_pend p A sid ch Hs) as (_ & _ & g1 & y & H1 & Hy). destruct (awaits_call y ch Hy) as [m1 Hm1].
      assert (g1 = g) as -> by (by eapply (a_call_one p A)). by assert (y = GDrain m ch) as -> by congruence. }
    destruct (chans p !! ch) as [[s [r |]] |] eqn:Hc; [by eapply (acks_move_replied p g _ m ch s) | done | done].
  - destruct (streamMap p !! mv_sid m); [destruct (_ =? _)%nat |]; plain_step A Hg.
  - plain_step A Hg.
  - plain_step A Hg.
  - plain_step A Hg.
  - destruct (chans p !! ch) as [[s [q |]] |] eqn:Hc; [done | by apply acks_deliver | done].
Qed.

Lemma acks_start p g f : acks p → (gos p !! g = None → acks (f p)) → acks (start p g f).
Proof. intros A Hf. unfold start. destruct (gos p !! g) eqn:E; [done | by apply Hf]. Qed.

Lemma acks_begin p g y : acks p → gos p !! g = None → plain y → acks (set_go p g y).
Proof.
  intros A Hg Hy. apply (acks_quiet p _ g); [done | done | by apply only_set | congruence |].
  cbn. intros z. rewrite lookup_insert_eq. congruence.
Qed.

Lemma acks_other p p' : acks p → same_acks p p' → gos p' = gos p → acks p'.
Proof.
  intros [B1 B2 B3 B4 B5 B6 B7 B8] (E1 & E2 & E3 & E4) E5. by split; rewrite ?E1, ?E2, ?E3, ?E4, ?E5.
Qed.

Lemma acks_step p o : acks p → acks (step p o).
Proof.
  intros A. destruct o as [g sid now mx | g sid | g sid | g sid | g sid dd | g pl | g ok now | g | g | sid | sid | sid now | idx c | | sid b];
    step_cbn.
  - apply acks_start; [done |]. intros Hg. destruct (pick _ _ _); [by apply acks_begin | done].
  - apply acks_start; [done |]. intros Hg. apply take_binding_acks; [done | congruence].
  - apply acks_start; [done |]. intros Hg. apply take_binding_acks; [done | congruence].
  - apply acks_start; [done |]. intros Hg. destruct (MigrateCapable p); [| done].
    destruct (streamMap p !! sid); [by apply acks_begin | done].
  - apply acks_start; [done |]. intros Hg. destruct (streamMap p !! sid); [| done].
    destruct (migrateEnabled p && _); [by apply acks_begin | done].
  - apply acks_start; [done |]. intros Hg. destruct (reply_of pl) as [[sid r] |] eqn:Hr; [| done].
    destruct (pendingMigrateAcks p !! sid) eqn:Hp; [| done]. by eapply acks_take, reply_of_answered.
  - destruct (gos p !! g) as [x |] eqn:Hg; [by apply acks_go_on | done].
  - destruct (gos p !! g) as [x |] eqn:Hg; [| done]. destruct x; try done.
    destruct (chans p !! ch) as [[s [r |]] |] eqn:Hc; try done. by eapply acks_move_replied.
  - destruct (gos p !! g) as [x |] eqn:Hg; [| done]. destruct x; try done.
    destruct (pendingMigrateAcks p !! mv_sid m) as [c |] eqn:Hp.
    + eapply (acks_move_ended p _ g _ m ch migrateResultTimeout A Hg); try done. cbn.
      intros sid c'. rewrite lookup_delete_Some. intros [Hne Hs]. split; [done |]. eapply pend_own; eauto.
    + eapply (acks_keep p _ g _ (GDrain m ch) m ch A Hg); try done; [by apply only_set | apply lookup_insert_eq | auto].
  - apply (acks_other p); [done | |]; unfold IncrPending, pend; by destruct (streamMap p !! sid).
  - apply (acks_other p); [done | |]; unfold DecrPending, pend; by destruct (streamMap p !! sid).
  - apply (acks_other p); [done | |]; by destruct (streamMap p !! sid).
  - by apply (acks_other p).
  - by apply (acks_other p).
  - by apply (acks_other p).
Qed.

Lemma acks_new n : acks (newPool n).
Proof.
  split; cbn; try (intros *; rewrite ?lookup_empty; done).
  - split; [constructor |]. intros ch sid r H. by apply elem_of_nil in H.
  - split; [constructor |]. intros ch sid r H. by apply elem_of_nil in H.
Qed.

Lemma acks_run os p : acks p → acks (run p os).
Proof. revert p. induction os as [| o os IH]; intros p A; [done |]. apply IH, acks_step, A. Qed.

(** Only a reply is ever taken. *)
Definition replied (os : list op) (x : nat * Z * migrateResult) : Prop :=
  ∃ g payload, SReply g payload ∈ os ∧ reply_of payload = Some (x.1.2, x.2).

Lemma taken_go_on p g ok now x : taken (go_on p g ok now x) = taken p.
Proof.
  destruct x; go_cbn; unfold take_binding, move_unsent, move_timed_out, move_replied, move_failed; repeat case_match; done.
Qed.
Lemma taken_step p o : taken (step p o) = taken p ∨ ∃ x, taken (step p o) = taken p ++ [x] ∧ replied [o] x.
Proof.
  destruct o as [| | | | | g pl | g ok now | | | | | | | |]; step_cbn; unfold start;
    try (left; unfold take_binding, move_timed_out, move_replied, move_failed, IncrPending, DecrPending, pend; repeat case_match; done).
  - destruct (gos p !! g); [by left |]. destruct (reply_of pl) as [[sid r] |] eqn:Hr; [| by left].
    destruct (pendingMigrateAcks p !! sid) as [ch |]; [| by left]. right. exists (ch, sid, r). split; [done |].
    exists g, pl. by rewrite list_elem_of_singleton.
  - left. destruct (gos p !! g); [apply taken_go_on | done].
Qed.
Lemma taken_run os p x : x ∈ taken (run p os) → x ∈ taken p ∨ replied os x.
Proof.
  revert p. induction os as [| o os IH]; intros p Hx; [by left |]. destruct (IH _ Hx) as [H | (g & pl & Hi & Hr)].
  - destruct (taken_step p o) as [E | (y & E & g & pl & Hi & Hr)]; rewrite E in H; [by left |].
    apply elem_of_app in H as [H | ->%list_elem_of_singleton]; [by left |]. right. apply list_elem_of_singleton in Hi as <-.
    exists g, pl. rewrite elem_of_cons. auto.
  - right. exists g, pl. rewrite elem_of_cons. auto.
Qed.

Lemma results_go_on p g ok now x y : y ∈ results p → y ∈ results (go_on p g ok now x).
Proof.
  intros Hy. destruct x; go_cbn; unfold take_binding, move_unsent, move_timed_out, move_replied, move_failed;
    repeat case_match; cbn; rewrite ?elem_of_app; auto.
Qed.
Lemma move_timed_out_result p g m ch : (ch, mv_sid m, migrateResultTimeout) ∈ results (move_timed_out p g m ch).
Proof. unfold move_timed_out, move_failed. case_match; cbn; apply elem_of_app; right; by apply list_elem_of_singleton. Qed.
Lemma move_replied_result p g m ch r : (ch, mv_sid m, r) ∈ results (move_replied p g m ch r).
Proof. unfold move_replied, move_failed. repeat case_match; cbn; apply elem_of_app; right; by apply list_elem_of_singleton. Qed.

Lemma waiting_returns p g m ch ok now :
  gos p !! g = Some (GWaiting m ch) → ∃ r, (ch, mv_sid m, r) ∈ results (run p [STimer g; SStep g ok now]).
Proof.
  intros Hg. cbn [run foldl]; step_cbn. rewrite Hg. destruct (pendingMigrateAcks p !! mv_sid m).
  - exists migrateResultTimeout. destruct (gos (move_timed_out _ _ _ _) !! g); [apply results_go_on |]; apply move_timed_out_result.
  - cbn [set_go with_gos gos]. rewrite lookup_insert_eq. go_cbn; cbn [set_go with_gos chans].
    destruct (chans p !! ch) as [[s [r |]] |]; eauto using move_timed_out_result, move_replied_result.
Qed.

(** Whatever the interleaving of moves, replies, timers and releases, every
    registration for a reply belongs to a call that still waits for it; the delivery
    of a reply never blocks; a call returns once, with an accept or a refusal only
    if a reply with that content for its stream was received and taken for that
    call; no two replies are taken for one call; and the timer returns a waiting
    call within a step. *)
Theorem migrate_acks_sound n os :
  let p := run (newPool n) os in
  (∀ sid ch, pendingMigrateAcks p !! sid = Some ch → ∃ g x, gos p !! g = Some x ∧ awaits x ch = true)
  ∧ (∀ g ch r ok now, gos p !! g = Some (GReply ch r) → gos (step p (SStep g ok now)) !! g = None)
  ∧ NoDup (ch_of <$> results p) ∧ NoDup (ch_of <$> taken p)
  ∧ (∀ ch sid r, (ch, sid, r) ∈ results p → answered r = true → (ch, sid, r) ∈ taken p)
  ∧ (∀ x, x ∈ taken p → replied os x)
  ∧ (∀ g m ch ok now, gos p !! g = Some (GWaiting m ch) →
       ∃ r, (ch, mv_sid m, r) ∈ results (run p [STimer g; SStep g ok now])).
Proof.
  intros p. assert (acks p) as A by apply acks_run, acks_new. split_and!.
  - intros sid ch Hp. by apply (a_pend p A sid).
  - intros g ch r ok now Hg. destruct (a_reply p A g ch r Hg) as (sid & Hc & _). step_cbn. rewrite Hg. go_cbn.
    rewrite Hc. apply lookup_delete_eq.
  - apply (a_results p A).
  - apply (a_taken p A).
  - intros ch sid r Hin. by apply (a_results p A).
  - intros x Hx. apply taken_run in Hx as [Hx | Hx]; [by apply elem_of_nil in Hx | done].
  - intros g m ch ok now. apply waiting_returns.
Qed.

(** ** The counters *)

(** The stream a goroutine works on; whether it is assigning it; whether it has
    claimed its move, with the claimed entry; the entry it has seen without a claim. *)
Definition touches (x : go) : option Z :=
  match x with
  | GPicked sid _ | GChecked sid _ | GCounted sid _ | GClosing sid
  | GFound sid _ | GOwned sid _ | GResume sid _ _ | GUnmoved sid _ _ => Some sid
  | GTarget m | GClaimed m | GSealed m | GRegistered m _ | GWaiting m _ | GDrain m _ | GAccepted m
  | GLoaded m _ | GRaised m _ => Some (mv_sid m)
  | GDropped _ _ | GShutting _ | GRebound _ | GReply _ _ => None
  end.
Definition assigning (x : go) : bool := match x with GPicked _ _ | GChecked _ _ | GCounted _ _ => true | _ => false end.
Definition claim (x : go) : option nat :=
  match x with
  | GOwned _ e => Some e
  | GClaimed m | GSealed m | GRegistered m _ | GWaiting m _ | GDrain m _ | GAccepted m | GLoaded m _ | GRaised m _ => Some (mv_entry m)
  | _ => None
  end.
Definition seen (x : go) : option nat :=
  match x with
  | GFound _ e | GResume _ e _ | GUnmoved _ e _ => Some e
  | GTarget m => Some (mv_entry m)
  | _ => None
  end.
(** Between the load and the store of [rebindStreamToSlot]. *)
Definition rebinding (x : go) : option (move * nat) :=
  match x with GLoaded m src | GRaised m src => Some (m, src) | _ => None end.

(** What goroutine counts on slot [idx] beside the bindings. *)
Definition inflight (idx : nat) (x : go) : Z :=
  match x with
  | GCounted _ i | GDropped i _ | GRebound i => if (i =? idx)%nat then 1 else 0
  | GRaised m _ => if (mv_target m =? idx)%nat then 1 else 0
  | _ => 0
  end.
Definition bindings (p : pool) (idx : nat) : Z := msum (λ e, if (entry_idx p e =? idx)%nat then 1 else 0) (streamMap p).
Definition bound (p : pool) (idx : nat) : Z := bindings p idx + msum (inflight idx) (gos p).

Definition no_rebind (p : pool) (sid : Z) : Prop :=
  map_Forall (λ _ x, (mv_sid ∘ fst) <$> rebinding x ≠ Some sid) (gos p).

(** A stream id is assigned when it is unbound and no goroutine is left from its
    last use; a binding is not dropped while a rebind of it is between its load
    and its store; and a cell that changes keeps its counter, or starts at zero with
    nothing on it. *)
Definition calm (p : pool) (o : op) : Prop :=
  match o with
  | SAssign _ sid _ _ => streamMap p !! sid = None ∧ map_Forall (λ _ x, touches x ≠ Some sid) (gos p)
  | SRelease _ sid | SClose _ sid => no_rebind p sid
  | SStep g _ _ => match gos p !! g with Some (GClosing sid) => no_rebind p sid | _ => True end
  | SCell idx (Some s) => streams <$> slotAt p idx = Some (streams s) ∨ streams s = 0 ∧ bound p idx = 0
  | _ => True
  end.
Fixpoint calm_run (p : pool) (os : list op) : Prop :=
  match os with
  | [] => True
  | o :: os' => calm p o ∧ calm_run (step p o) os'
  end.

#[global] Instance calm_dec p o : Decision (calm p o).
Proof.
  destruct o as [| | | | | | g ok now | | | | | | idx [c |] | |]; cbn; unfold no_rebind; try apply _.
  destruct (gos p !! g) as [[] |]; apply _.
Defined.
#[global] Instance calm_run_dec p os : Decision (calm_run p os).
Proof. revert p. induction os as [| o os IH]; intros p; cbn; [apply _ |]. specialize (IH (step p o)). apply _. Defined.

Definition tag (p : pool) (e : nat) : option Z := ofStream <$> entries p !! e.
Definition latest (p : pool) (sid : Z) (e : nat) : Prop :=
  tag p e = Some sid ∧ ∀ e', tag p e' = Some sid → (e' ≤ e)%nat.

Lemma latest_unique p sid e e' : latest p sid e → latest p sid e' → e = e'.
Proof. intros [H1 H2] [H3 H4]. specialize (H2 _ H3). specialize (H4 _ H1). lia. Qed.

Definition conflict (x y : go) : bool :=
  match touches x, touches y with
  | Some s, Some s' =>
    (s =? s') && (assigning x || assigning y || bool_decide (is_Some (claim x)) && bool_decide (is_Some (claim y)))
  | _, _ => false
  end.

(** What a goroutine relies on. *)
Record fits (p : pool) (x : go) : Prop := {
  f_assign : ∀ sid, touches x = Some sid → assigning x = true → streamMap p !! sid = None;
  f_claim : ∀ sid e, touches x = Some sid → claim x = Some e → latest p sid e ∧ is_migrating p e = true;
  f_seen : ∀ sid e, touches x = Some sid → seen x = Some e →
    tag p e = Some sid ∧ (latest p sid e ∨ is_migrating p e = true);
  f_rebind : ∀ m src, rebinding x = Some (m, src) →
    streamMap p !! mv_sid m = Some (mv_entry m) ∧ entry_idx p (mv_entry m) = src;
}.

Record protocol (p : pool) : Prop := {
  p_map : ∀ sid e, streamMap p !! sid = Some e → latest p sid e;
  p_fits : ∀ g x, gos p !! g = Some x → fits p x;
  p_apart : ∀ g g' x x', g ≠ g' → gos p !! g = Some x → gos p !! g' = Some x' → conflict x x' = false;
}.

(** The entries after a step: the same streams and slots, the flags no lower. *)
Definition entries_grow (p p' : pool) : Prop :=
  (∀ e, tag p' e = tag p e) ∧ (∀ e, entry_idx p' e = entry_idx p e)
  ∧ (∀ e, is_migrating p e = true → is_migrating p' e = true) ∧ streamMap p' = streamMap p.

Lemma latest_tags p p' sid e : (∀ e, tag p' e = tag p e) → latest p sid e → latest p' sid e.
Proof. intros E [H1 H2]. split; [by rewrite E |]. intros e'. rewrite E. apply H2. Qed.

Lemma fits_grow p p' x : entries_grow p p' → fits p x → fits p' x.
Proof.
  intros (Et & Ei & Em & Es) [F1 F2 F3 F4]. split; rewrite ?Es; [done | | |].
  - intros sid e H1 H2. destruct (F2 sid e H1 H2). eauto using latest_tags.
  - intros sid e H1 H2. destruct (F3 sid e H1 H2) as [? [? | ?]]; rewrite Et; eauto using latest_tags.
  - intros m src H. rewrite Ei. eauto.
Qed.

(** [y] stands in no one's way that [x] did not stand in. *)
Definition narrower (y x : go) : Prop :=
  (touches y = None ∨ touches y = touches x) ∧ (assigning y = true → assigning x = true) ∧ (is_Some (claim y) → is_Some (claim x)).

Lemma conflict_sym x y : conflict x y = conflict y x.
Proof.
  unfold conflict. destruct (touches x), (touches y); try done. rewrite Z.eqb_sym. f_equal.
  by rewrite (orb_comm (assigning x)), (andb_comm (bool_decide (is_Some (claim x)))).
Qed.
Lemma conflict_narrower x y z : narrower y x → conflict x z = false → conflict y z = false.
Proof.
  unfold narrower, conflict. intros (Ht & Ha & Hc). destruct Ht as [-> | ->]; [done |].
  destruct (touches x), (touches z); try done. destruct (_ =? _); [| done]. cbn.
  destruct (assigning y), (assigning x), (assigning z); cbn; try done; [by specialize (Ha eq_refl) |].
  repeat case_bool_decide; cbn; tauto.
Qed.

(** Goroutine [g] goes from [x] to [y], or ends, and the entries only grow. *)
Lemma protocol_go p p' g :
  protocol p → only g p p' → entries_grow p p' →
  (∀ y, gos p' !! g = Some y → fits p' y ∧
     ((∃ x, gos p !! g = Some x ∧ narrower y x) ∨ ∀ g' z, g' ≠ g → gos p !! g' = Some z → conflict y z = false)) →
  protocol p'.
Proof.
  intros [P1 P2 P3] Ho He Hy. pose proof He as (Et & _ & _ & Es).
  assert (∀ g' y z, g' ≠ g → gos p' !! g = Some y → gos p !! g' = Some z → conflict y z = false) as Hone.
  { intros g' y z Hne Hg Hz. destruct (Hy y Hg) as [_ [(x & Hx & Hn) | Hn]]; [| by eapply Hn].
    eapply conflict_narrower; [done |]. by apply (P3 g g'). }
  split.
  - intros sid e. rewrite Es. intros H. eapply latest_tags; eauto.
  - intros g1 x H1. at_go Ho g g1 H1; [by apply Hy | eauto using fits_grow].
  - intros g1 g2 x x' Hne H1 H2. at_go Ho g g1 H1; at_go Ho g g2 H2; [done | by eapply Hone | | by apply (P3 g1 g2)].
    rewrite conflict_sym. by eapply Hone.
Qed.

(** A new entry for [sid], which no other goroutine claims or assigns, and whose older
    entry keeps its flag if one is seen. *)
Lemma tag_snoc p sid idx now e :
  tag (bind_stream p sid idx now) e = if decide (e = length (entries p)) then Some sid else tag p e.
Proof.
  unfold tag, bind_stream. cbn. case_decide as E; [by subst; rewrite lookup_app_r, Nat.sub_diag |].
  destruct (decide (e < length (entries p))%nat); [by rewrite lookup_app_l |].
  rewrite !lookup_ge_None_2; [done | lia |]. rewrite length_app. cbn. lia.
Qed.
Lemma old_entry p sid idx now e s :
  tag p e = Some s →
  entry_idx (bind_stream p sid idx now) e = entry_idx p e ∧ is_migrating (bind_stream p sid idx now) e = is_migrating p e
  ∧ tag (bind_stream p sid idx now) e = Some s ∧ (e < length (entries p))%nat.
Proof.
  unfold tag, entry_idx, is_migrating. cbn. intros Ht. destruct (entries p !! e) as [x |] eqn:E; [| done].
  pose proof (lookup_lt_Some _ _ _ E). by rewrite lookup_app_l, E by done.
Qed.
Lemma latest_new p sid idx now : latest (bind_stream p sid idx now) sid (length (entries p)).
Proof.
  split; [by rewrite tag_snoc, decide_True |]. intros e'. rewrite tag_snoc. case_decide; [lia |].
  unfold tag. destruct (entries p !! e') eqn:E; [| done]. intros _. apply lookup_lt_Some in E. lia.
Qed.
Lemma latest_old p sid idx now s e : s ≠ sid → latest p s e → latest (bind_stream p sid idx now) s e.
Proof.
  intros Hne [H1 H2]. destruct (old_entry p sid idx now e s H1) as (_ & _ & H3 & _). split; [done |].
  intros e'. rewrite tag_snoc. case_decide; [congruence | apply H2].
Qed.

Lemma fits_bind p sid idx now z :
  fits p z →
  (touches z = Some sid → assigning z = false ∧ claim z = None ∧ ∀ e, seen z = Some e → is_migrating p e = true) →
  fits (bind_stream p sid idx now) z.
Proof.
  intros [F1 F2 F3 F4] Hz. split.
  - intros s Hs Ha. cbn. rewrite lookup_insert_ne; [by apply F1 |]. intros <-. destruct (Hz Hs). congruence.
  - intros s e Hs Hc. assert (s ≠ sid) by (intros ->; destruct (Hz Hs) as (_ & ? & _); congruence).
    destruct (F2 s e Hs Hc) as [Hl Hm]. destruct Hl as [Ht Hl].
    destruct (old_entry p sid idx now e s Ht) as (_ & -> & _). split; [by apply latest_old | done].
  - intros s e Hs Hc. destruct (F3 s e Hs Hc) as [Ht Hl]. destruct (old_entry p sid idx now e s Ht) as (_ & -> & -> & _).
    split; [done |]. destruct (decide (s = sid)) as [-> |]; [right; by apply (Hz Hs) |].
    destruct Hl; [left; by apply latest_old | by right].
  - intros m src Hr. destruct (F4 m src Hr) as [Hs Hi].
    assert (touches z = Some (mv_sid m) ∧ claim z = Some (mv_entry m)) as [Ht Hc] by (destruct z; cbn in *; by simplify_eq).
    assert (mv_sid m ≠ sid) by (intros E; rewrite E in Ht; destruct (Hz Ht) as (_ & ? & _); congruence).
    cbn. rewrite lookup_insert_ne by done. split; [done |]. destruct (F2 _ _ Ht Hc) as [[Htag _] _].
    by destruct (old_entry p sid idx now _ _ Htag) as (-> & _).
Qed.

(** A goroutine that works on no stream any more fits any state. *)
Lemma fits_none p y : touches y = None → fits p y.
Proof. intros E. split; try congruence. intros m src H. by destruct y. Qed.

Lemma protocol_bind p p' g x sid idx now :
  protocol p → gos p !! g = Some x → touches x = Some sid → (assigning x = true ∨ ∃ e, claim x = Some e) →
  only g p p' → (∀ y, gos p' !! g = Some y → touches y = None) →
  streamMap p' = streamMap (bind_stream p sid idx now) → entries p' = entries (bind_stream p sid idx now) → protocol p'.
Proof.
  intros [P1 P2 P3] Hx Hs Hcl Ho Hy Em Ee.
  assert (∀ z, fits (bind_stream p sid idx now) z → fits p' z) as Hf.
  { intros z. apply fits_grow. unfold entries_grow, tag, entry_idx, is_migrating. by rewrite Ee, Em. }
  assert (∀ s e, latest (bind_stream p sid idx now) s e → latest p' s e) as Hl.
  { intros s e. apply latest_tags. unfold tag. by rewrite Ee. }
  split.
  - intros s e. rewrite Em. cbn. intros [[<- <-] | [Hne H]]%lookup_insert_Some; apply Hl; [apply latest_new |].
    by apply latest_old, P1.
  - intros g1 z H1. at_go Ho g g1 H1; [by eapply fits_none, Hy |]. apply Hf, fits_bind; [by eapply P2 |].
    intros Hz. specialize (P3 g g1 x z (not_eq_sym n) Hx H1). unfold conflict in P3. rewrite Hs, Hz, Z.eqb_refl in P3.
    cbn in P3. apply orb_false_iff in P3 as [[Ha1 Ha2]%orb_false_iff Hc2]. split; [done |].
    destruct Hcl as [? | [e He]]; [congruence |]. rewrite He in Hc2. rewrite bool_decide_true in Hc2 by eauto.
    apply bool_decide_eq_false in Hc2. split; [destruct (claim z); [by destruct Hc2 | done] |].
    intros e' He'. destruct (f_seen _ _ (P2 _ _ H1) sid e' Hz He') as [_ [Hlat |]]; [| done].
    destruct (f_claim _ _ (P2 _ _ Hx) sid e Hs He) as [Hlat' Hm]. by rewrite (latest_unique _ _ _ _ Hlat Hlat').
  - intros g1 g2 z z' Hne H1 H2. at_go Ho g g1 H1; at_go Ho g g2 H2; [done | | | by apply (P3 g1 g2)].
    + unfold conflict. by rewrite (Hy z H1).
    + rewrite conflict_sym. unfold conflict. by rewrite (Hy z' H2).
Qed.

Lemma protocol_unbind p p' g sid :
  protocol p → no_rebind p sid → only g p p' → (∀ y, gos p' !! g = Some y → touches y = None) →
  streamMap p' = delete sid (streamMap p) → entries p' = entries p → protocol p'.
Proof.
  intros [P1 P2 P3] Hn Ho Hy Em Ee.
  assert (∀ e, tag p' e = tag p e ∧ is_migrating p' e = is_migrating p e ∧ entry_idx p' e = entry_idx p e) as E.
  { intros e. unfold tag, is_migrating, entry_idx. by rewrite Ee. }
  assert (∀ s e, latest p s e → latest p' s e) as Hl by (intros s e; apply latest_tags; apply E).
  split.
  - intros s e. rewrite Em. intros [_ H]%lookup_delete_Some. by apply Hl, P1.
  - intros g1 z H1. at_go Ho g g1 H1; [by eapply fits_none, Hy |]. destruct (P2 _ _ H1) as [F1 F2 F3 F4]. split.
    + intros s Hs Ha. rewrite Em. apply lookup_delete_None. right. by apply F1.
    + intros s e Hs Hc. destruct (E e) as (_ & -> & _). destruct (F2 s e Hs Hc). auto.
    + intros s e Hs Hc. destruct (E e) as (-> & -> & _). destruct (F3 s e Hs Hc) as [? []]; auto.
    + intros m src Hr. destruct (E (mv_entry m)) as (_ & _ & ->). rewrite Em, lookup_delete_ne; [by apply F4 |].
      intros ->. apply (Hn g1 z H1). by rewrite Hr.
  - intros g1 g2 z z' Hne H1 H2. at_go Ho g g1 H1; at_go Ho g g2 H2; [done | | | by apply (P3 g1 g2)].
    + unfold conflict. by rewrite (Hy z H1).
    + rewrite conflict_sym. unfold conflict. by rewrite (Hy z' H2).
Qed.

Lemma set_entry_lookup f p e e' :
  (∀ x, ofStream (f x) = ofStream x ∧ slotIdx (f x) = slotIdx x) →
  tag (set_entry f p e) e' = tag p e' ∧ entry_idx (set_entry f p e) e' = entry_idx p e'
  ∧ (e' ≠ e → is_migrating (set_entry f p e) e' = is_migrating p e').
Proof.
  intros Hf. unfold tag, entry_idx, is_migrating. cbn. destruct (decide (e' = e)) as [-> |].
  - rewrite list_lookup_alter_eq. destruct (entries p !! e) as [x |]; [| done]. cbn. destruct (Hf x) as [-> ->]. done.
  - by rewrite list_lookup_alter_ne.
Qed.

(** The owner of a claim gives it up. *)
Lemma protocol_clear p p' g x sid e :
  protocol p → gos p !! g = Some x → touches x = Some sid → claim x = Some e → only g p p' →
  (∀ y, gos p' !! g = Some y → narrower y x ∧ assigning y = false ∧ claim y = None ∧ seen y = None) →
  streamMap p' = streamMap p → entries p' = entries (set_migrating p e false) → protocol p'.
Proof.
  intros [P1 P2 P3] Hx Hs Hc Ho Hy Em Ee. destruct (f_claim _ _ (P2 _ _ Hx) sid e Hs Hc) as [Hlat Hmig].
  assert (∀ e', tag p' e' = tag p e' ∧ entry_idx p' e' = entry_idx p e' ∧ (e' ≠ e → is_migrating p' e' = is_migrating p e')) as E.
  { intros e'. unfold tag, is_migrating, entry_idx. rewrite Ee. by apply set_entry_lookup. }
  assert (∀ s e, latest p s e → latest p' s e) as Hl by (intros s e0; apply latest_tags; apply E).
  split.
  - intros s e'. rewrite Em. intros H. by apply Hl, P1.
  - intros g1 z H1. at_go Ho g g1 H1.
    { destruct (Hy z H1) as (_ & Ha & Hcl & Hse). split; try congruence. intros m src Hr. by destruct z. }
    destruct (P2 _ _ H1) as [F1 F2 F3 F4]. split.
    + by rewrite Em.
    + intros s e' Hs' Hc'. destruct (F2 s e' Hs' Hc') as [Hl' Hm']. split; [by apply Hl |].
      destruct (E e') as (_ & _ & E3). rewrite E3; [done |]. intros ->.
      assert (s = sid) as -> by (destruct Hlat as [T1 _], Hl' as [T2 _]; congruence).
      specialize (P3 g g1 x z (not_eq_sym n) Hx H1). unfold conflict in P3. rewrite Hs, Hs', Z.eqb_refl, Hc, Hc' in P3.
      cbn in P3. rewrite orb_true_r in P3. done.
    + intros s e' Hs' Hc'. destruct (F3 s e' Hs' Hc') as [Ht' Hm']. destruct (E e') as (-> & _ & E3). split; [done |].
      destruct (decide (e' = e)) as [-> | Hne]; [| rewrite E3 by done; destruct Hm'; auto].
      left. assert (s = sid) as -> by (destruct Hlat as [T1 _]; congruence). by apply Hl.
    + intros m src Hr. rewrite Em. destruct (E (mv_entry m)) as (_ & -> & _). by apply F4.
  - intros g1 g2 z z' Hne H1 H2. at_go Ho g g1 H1; at_go Ho g g2 H2; [done | | | by apply (P3 g1 g2)].
    + eapply conflict_narrower; [by apply Hy |]. by apply (P3 g g2).
    + rewrite conflict_sym. eapply conflict_narrower; [by apply Hy |]. by apply (P3 g g1).
Qed.

Definition same_binds (p q : pool) : Prop := gos q = gos p ∧ entries q = entries p ∧ streamMap q = streamMap p.
Lemma same_binds_grow p q p' : same_binds p q → entries p' = entries q → streamMap p' = streamMap q → entries_grow p p'.
Proof. intros (_ & E2 & E3) E4 E5. unfold entries_grow, tag, entry_idx, is_migrating. by rewrite E4, E5, E2, E3. Qed.

Lemma protocol_next p q g x y :
  protocol p → gos p !! g = Some x → same_binds p q → narrower y x → fits p y → protocol (set_go q g y).
Proof.
  intros P Hx Hq Hn Hf. pose proof (same_binds_grow p q (set_go q g y) Hq eq_refl eq_refl) as Hgr.
  apply (protocol_go p _ g); [done | apply only_set; apply Hq | done |]. cbn. intros z. rewrite lookup_insert_eq. intros [= <-].
  split; [by eapply fits_grow |]. left. eauto.
Qed.
Lemma protocol_end p q g : protocol p → same_binds p q → protocol (end_go q g).
Proof.
  intros P Hq. pose proof (same_binds_grow p q (end_go q g) Hq eq_refl eq_refl) as Hgr.
  apply (protocol_go p _ g); [done | apply only_end; apply Hq | done |]. cbn. intros z. by rewrite lookup_delete_eq.
Qed.
Lemma protocol_same p q : protocol p → same_binds p q → protocol q.
Proof.
  intros P Hq. pose proof (same_binds_grow p q q Hq eq_refl eq_refl) as Hgr. destruct P as [P1 P2 P3]. destruct Hq as (E1 & E2 & E3).
  split; rewrite ?E1, ?E3; [| | done].
  - intros sid e H. eapply latest_tags; [apply Hgr | eauto].
  - intros g x H. eapply fits_grow; eauto.
Qed.

Lemma protocol_failed p q g x m :
  protocol p → gos p !! g = Some x → touches x = Some (mv_sid m) → claim x = Some (mv_entry m) → same_binds p q →
  protocol (move_failed q g m).
Proof.
  intros P Hx Ht Hc (E1 & E2 & E3).
  eapply (protocol_clear p _ g x (mv_sid m) (mv_entry m) P Hx Ht Hc).
  - by apply move_failed_only.
  - intros y. unfold move_failed. destruct (mv_resume m); cbn; [| by rewrite lookup_delete_eq].
    rewrite lookup_insert_eq. intros [= <-]. split_and!; try done. split_and!; [by right | done | by intros []].
  - unfold move_failed. destruct (mv_resume m); exact E3.
  - unfold move_failed, set_migrating, set_entry. by destruct (mv_resume m); cbn; rewrite E2.
Qed.

Lemma protocol_take p g sid cl : protocol p → no_rebind p sid → protocol (take_binding p g sid cl).
Proof.
  intros P Hn. unfold take_binding. destruct (streamMap p !! sid) as [e |] eqn:Hs.
  - apply (protocol_unbind p _ g sid P Hn); [by apply only_set | | done | done].
    cbn. intros y. rewrite lookup_insert_eq. by intros [= <-].
  - destruct cl; [| by apply (protocol_end p)]. apply (protocol_go p _ g); [done | by apply only_set | done |].
    cbn. intros y. rewrite lookup_insert_eq. intros [= <-]. split; [by apply fits_none |]. right. done.
Qed.

(** The claim of a move: no one else has the stream's move. *)
Lemma protocol_claim p g x y sid e :
  protocol p → gos p !! g = Some x → touches x = Some sid → seen x = Some e → is_migrating p e = false →
  touches y = Some sid → claim y = Some e → assigning y = false → seen y = None → rebinding y = None →
  protocol (set_go (set_migrating p e true) g y).
Proof.
  intros P Hx Ht Hs Hm Hty Hcy Hay Hsy Hry. pose proof (p_fits p P _ _ Hx) as [F1 F2 F3 F4].
  destruct (F3 sid e Ht Hs) as [Htag [Hlat |]]; [| congruence].
  assert (entries_grow p (set_migrating p e true)) as Hgr.
  { assert (∀ e', _) as E by exact (λ e', set_entry_lookup (λ x, mkEntry (ofStream x) (slotIdx x) true (migrationScheduled x) (lastWriteNs x)) p e e' (λ _, conj eq_refl eq_refl)).
    split_and!; [apply E | apply E | | done]. intros e' He'. unfold set_migrating. destruct (E e') as (_ & _ & ->); [done | congruence]. }
  assert (is_migrating (set_migrating p e true) e = true) as Hset.
  { unfold tag in Htag. unfold is_migrating. cbn. rewrite list_lookup_alter_eq. by destruct (entries p !! e). }
  apply (protocol_go p _ g); [done | by apply only_set | exact Hgr |]. cbn. intros z. rewrite lookup_insert_eq. intros [= <-]. split.
  - split; try congruence. intros s e' Hs' He'. rewrite Hty in Hs'. rewrite Hcy in He'. simplify_eq.
    split; [| exact Hset]. eapply (latest_tags p); [apply Hgr | done].
  - right. intros g' z Hne Hz. unfold conflict. rewrite Hty. destruct (touches z) as [s |] eqn:Htz; [| done].
    destruct (Z.eqb_spec sid s) as [-> |]; [| done]. cbn. rewrite Hay, Hcy. cbn.
    pose proof (p_apart p P g g' x z (not_eq_sym Hne) Hx Hz) as Hap. unfold conflict in Hap. rewrite Ht, Htz, Z.eqb_refl in Hap.
    cbn in Hap. apply orb_false_iff in Hap as [[_ ->]%orb_false_iff _]. cbn.
    apply bool_decide_eq_false. intros [e' He']. destruct (f_claim _ _ (p_fits p P _ _ Hz) s e' Htz He') as [Hl' Hm'].
    rewrite (latest_unique _ _ _ _ Hlat Hl') in Hm. congruence.
Qed.

Ltac narrow := split_and!; [by (left + right) | done | by (intros [] || eauto)].
(** The next position of the same goroutine relies on nothing more. *)
Ltac next P Hx :=
  match goal with
  | |- protocol (end_go ?q _) => by eapply (protocol_end _ q)
  | |- protocol (set_go ?q ?g ?y) =>
    eapply (protocol_next _ q g _ y P Hx); [done | narrow |]; first [by apply fits_none | destruct (p_fits _ P _ _ Hx); by split]
  end.

Lemma protocol_go_on p g ok now x :
  protocol p → gos p !! g = Some x → (∀ sid, x = GClosing sid → no_rebind p sid) → protocol (go_on p g ok now x).
Proof.
  intros P Hx Hcl. pose proof (p_fits p P _ _ Hx) as F.
  destruct x as [sid idx | sid idx | sid idx | sid | idx cl | sid | sid e | sid e | sid e dd | sid e dd | m | m | m | m ch | m ch | m ch | m | m src | m src | src | ch r];
    go_cbn.
  - destruct (streamMap p !! sid); next P Hx.
  - next P Hx.
  - eapply (protocol_bind p _ g _ sid idx now P Hx); [done | by left | by apply only_end | | done | done].
    cbn. intros y. by rewrite lookup_delete_eq.
  - apply protocol_take; [done | by apply Hcl].
  - destruct cl; next P Hx.
  - next P Hx.
  - destruct (is_migrating p e) eqn:Hm; [next P Hx |]. by eapply (protocol_claim p g _ _ sid e P Hx).
  - destruct (selectYoungTargetSlot p (entry_idx p e)); [next P Hx |].
    eapply (protocol_clear p _ g _ sid e P Hx); [done | done | by apply only_end | | done | done].
    cbn. intros y. by rewrite lookup_delete_eq.
  - destruct (is_migrating p e) eqn:Hm; next P Hx.
  - destruct (selectYoungTargetSlot p dd); next P Hx.
  - destruct (is_migrating p (mv_entry m)) eqn:Hm; [next P Hx |]. by eapply (protocol_claim p g _ _ (mv_sid m) (mv_entry m) P Hx).
  - destruct (bool_decide _ && _ && _); [next P Hx |]. by eapply protocol_failed.
  - next P Hx.
  - destruct ok; [next P Hx |]. by eapply protocol_failed.
  - done.
  - assert (protocol (move_timed_out p g m ch)) as Ht by (by eapply protocol_failed).
    destruct (chans p !! ch) as [[s [r |]] |]; [| done | done]. unfold move_replied. cbv zeta.
    destruct r; [| by eapply (protocol_failed p) ..]. next P Hx.
  - destruct (streamMap p !! mv_sid m) as [e |] eqn:Hs; [| next P Hx]. destruct (_ =? _)%nat; [next P Hx |].
    eapply (protocol_next p p g _ _ P Hx); [done | narrow |]. destruct F as [F1 F2 F3 F4]. split; [done | exact F2 | done |].
    intros m' src. cbn. intros [= <- <-]. destruct (F2 (mv_sid m) (mv_entry m) eq_refl eq_refl) as [Hl _].
    by rewrite (latest_unique _ _ _ _ Hl (p_map p P _ _ Hs)).
  - next P Hx.
  - eapply (protocol_bind p _ g _ (mv_sid m) (mv_target m) now P Hx); [done | right; by eexists | by apply only_set | | done | done].
    cbn. intros y. rewrite lookup_insert_eq. by intros [= <-].
  - next P Hx.
  - destruct (chans p !! ch) as [[s [q |]] |]; [done | next P Hx | done].
Qed.

Lemma protocol_begin p g y :
  protocol p → gos p !! g = None → fits p y → (∀ g' z, gos p !! g' = Some z → conflict y z = false) → protocol (set_go p g y).
Proof.
  intros P Hg Hf Hc. apply (protocol_go p _ g); [done | by apply only_set | by apply (same_binds_grow p p) |].
  cbn. intros z. rewrite lookup_insert_eq. intros [= <-]. split; [by apply (fits_grow p); [apply (same_binds_grow p p) |] |]. eauto.
Qed.

(** A goroutine that has just loaded the entry of a bound stream. *)
Lemma protocol_seen p g y sid e :
  protocol p → gos p !! g = None → streamMap p !! sid = Some e →
  touches y = Some sid → seen y = Some e → assigning y = false → claim y = None → rebinding y = None → protocol (set_go p g y).
Proof.
  intros P Hg Hs Ht He Ha Hc Hr. apply protocol_begin; [done | done | |].
  - split; try congruence. intros s e' Hs' He'. assert (s = sid ∧ e' = e) as [-> ->] by (split; congruence).
    destruct (p_map p P _ _ Hs) as [H1 H2]. split; [done |]. left. by split.
  - intros g' z Hz. unfold conflict. rewrite Ht, Ha, Hc. destruct (touches z) as [s |] eqn:Htz; [| done].
    destruct (Z.eqb_spec sid s) as [<- |]; [| done]. cbn. rewrite orb_false_r.
    destruct (assigning z) eqn:Haz; [| done]. pose proof (f_assign _ _ (p_fits p P _ _ Hz) sid Htz Haz). congruence.
Qed.

Lemma protocol_step p o : protocol p → calm p o → protocol (step p o).
Proof.
  intros P Hcalm.
  destruct o as [g sid now mx | g sid | g sid | g sid | g sid dd | g pl | g ok now | g | g | sid | sid | sid now | idx c | | sid b];
    cbn [calm] in *; step_cbn; unfold start;
    try (destruct (gos p !! g) as [x |] eqn:Hg; [try done | try done]).
  - destruct Hcalm as [Hn Ht]. destruct (pick _ _ _) as [idx |]; [| done]. apply protocol_begin; [done | done | |].
    + split; try done. cbn. by intros s [= <-] _.
    + intros g' z Hz. unfold conflict. cbn. destruct (touches z) as [s |] eqn:Htz; [| done].
      destruct (Z.eqb_spec sid s) as [<- |]; [by destruct (Ht g' z Hz) | done].
  - by apply protocol_take.
  - by apply protocol_take.
  - destruct (MigrateCapable p); [| done]. destruct (streamMap p !! sid) as [e |] eqn:Hs; [| done].
    by apply (protocol_seen p g _ sid e).
  - destruct (streamMap p !! sid) as [e |] eqn:Hs; [| done]. destruct (migrateEnabled p && _); [| done].
    by apply (protocol_seen p g _ sid e).
  - destruct (reply_of pl) as [[sid r] |]; [| done]. destruct (pendingMigrateAcks p !! sid) as [ch |]; [| done].
    set (q := with_logs _ _ _). assert (protocol q) as Pq by (by apply (protocol_same p)).
    apply protocol_begin; [done | done | by apply fits_none | done].
  - apply protocol_go_on; [done | done |]. intros sid ->. done.
  - destruct x; try done. destruct (chans p !! ch) as [[s [r |]] |]; [| done | done]. unfold move_replied. cbv zeta.
    destruct r; [| by eapply (protocol_failed p) ..]. next P Hg.
  - destruct x; try done. destruct (pendingMigrateAcks p !! mv_sid m); [| next P Hg]. by eapply (protocol_failed p).
  - apply (protocol_same p); [done |]. unfold IncrPending, pend. by destruct (streamMap p !! sid).
  - apply (protocol_same p); [done |]. unfold DecrPending, pend. by destruct (streamMap p !! sid).
  - destruct (streamMap p !! sid) as [e |]; [| done]. set (f := λ x : streamEntry, _).
    assert (entries_grow p (set_entry f p e)) as Hgr.
    { split_and!; [intros e' ..| done]; [by apply set_entry_lookup.. |]. unfold is_migrating. cbn.
      destruct (decide (e' = e)) as [-> |]; [| by rewrite list_lookup_alter_ne].
      rewrite list_lookup_alter_eq. by destruct (entries p !! e). }
    destruct P as [P1 P2 P3]. split; [| | done].
    + intros s e' H. eapply (latest_tags p); [apply Hgr | by apply P1].
    + intros g x H. eapply (fits_grow p); [done | by eapply P2].
  - by apply (protocol_same p).
  - by apply (protocol_same p).
  - by apply (protocol_same p).
Qed.

(** The counter of every slot. *)
Definition counted (p : pool) : Prop := ∀ idx s, slotAt p idx = Some s → streams s = bound p idx.

Lemma counted_same p p' :
  counted p → (∀ idx, streams <$> slotAt p' idx = streams <$> slotAt p idx) → (∀ idx, bound p' idx = bound p idx) → counted p'.
Proof.
  intros C Hs Hb idx s Hi. specialize (Hs idx). rewrite Hi in Hs. rewrite Hb. destruct (slotAt p idx) as [s0 |] eqn:E; [| done].
  cbn in Hs. injection Hs as ->. by apply C.
Qed.

Lemma bound_set q g y idx : bound (set_go q g y) idx = bound q idx - weight (inflight idx) (gos q !! g) + inflight idx y.
Proof. unfold bound. cbn [set_go with_gos gos]. rewrite msum_set. change (bindings _ idx) with (bindings q idx) at 1. lia. Qed.
Lemma bound_end q g idx : bound (end_go q g) idx = bound q idx - weight (inflight idx) (gos q !! g).
Proof. unfold bound. cbn [end_go with_gos gos]. rewrite msum_unset. change (bindings _ idx) with (bindings q idx) at 1. lia. Qed.

Lemma bound_cong p q idx :
  gos q = gos p → streamMap q = streamMap p → (∀ e, entry_idx q e = entry_idx p e) → bound q idx = bound p idx.
Proof.
  intros E1 E2 E3. unfold bound, bindings. rewrite E1, E2. f_equal. apply msum_ext. intros k e _. by rewrite E3.
Qed.

Lemma set_migrating_idx p e b e' : entry_idx (set_migrating p e b) e' = entry_idx p e'.
Proof. by apply set_entry_lookup. Qed.

Lemma bindings_bind p sid i now idx :
  protocol p →
  bindings (bind_stream p sid i now) idx
  = bindings p idx - weight (λ e, if (entry_idx p e =? idx)%nat then 1 else 0) (streamMap p !! sid) + (if (i =? idx)%nat then 1 else 0).
Proof.
  intros P. unfold bindings. cbn [bind_stream with_bindings streamMap]. rewrite msum_set.
  assert (entry_idx (bind_stream p sid i now) (length (entries p)) = i) as ->.
  { unfold entry_idx. cbn. by rewrite lookup_app_r, Nat.sub_diag. }
  assert (∀ k e, streamMap p !! k = Some e → entry_idx (bind_stream p sid i now) e = entry_idx p e) as E.
  { intros k e Hk. destruct (p_map p P k e Hk) as [Ht _]. by apply (old_entry p sid i now e k). }
  rewrite (msum_ext _ (λ e, if (entry_idx p e =? idx)%nat then 1 else 0)) by (intros k e Hk; by rewrite (E k)).
  destruct (streamMap p !! sid) as [e |] eqn:Hs; cbn [weight]; [by rewrite (E sid) | done].
Qed.
Lemma bindings_unbind p sid idx :
  bindings (unbind_stream p sid) idx = bindings p idx - weight (λ e, if (entry_idx p e =? idx)%nat then 1 else 0) (streamMap p !! sid).
Proof. unfold bindings. cbn [unbind_stream with_bindings streamMap]. by rewrite msum_unset. Qed.

Lemma slotAt_upd f p i idx : slotAt (upd_slot f p i) idx = if (i =? idx)%nat then f <$> slotAt p idx else slotAt p idx.
Proof.
  unfold slotAt, upd_slot. cbn. destruct (Nat.eqb_spec i idx) as [-> |]; [| by rewrite list_lookup_alter_ne].
  rewrite list_lookup_alter_eq. by destruct (slots p !! idx) as [[] |].
Qed.

Lemma inflight_nonneg idx x : 0 ≤ inflight idx x.
Proof. destruct x; cbn; repeat case_match; lia. Qed.
Lemma bound_holds p g x idx : gos p !! g = Some x → inflight idx x ≤ bound p idx.
Proof.
  intros Hx. unfold bound. pose proof (msum_lower (inflight idx) (gos p) g x (inflight_nonneg idx) Hx).
  assert (0 ≤ bindings p idx) by (apply msum_nonneg; intros; case_match; lia). lia.
Qed.

(** A goroutine raises the counter of slot [i], then counts on it. *)
Lemma counted_inc p g x y i :
  counted p → gos p !! g = Some x → (∀ idx, inflight idx x = 0) → (∀ idx, inflight idx y = if (i =? idx)%nat then 1 else 0) →
  counted (set_go (upd_slot incStreams p i) g y).
Proof.
  intros C Hx Hi Hy idx s Hs. change (slotAt (set_go _ g y) idx) with (slotAt (upd_slot incStreams p i) idx) in Hs.
  rewrite bound_set, slotAt_upd in *. change (gos (upd_slot incStreams p i)) with (gos p). rewrite Hx. cbn [weight].
  rewrite Hi, Hy, (bound_cong p) by done. destruct (i =? idx)%nat; [| rewrite (C idx s Hs); lia].
  destruct (slotAt p idx) as [s0 |] eqn:E; [| done]. injection Hs as <-. cbn. rewrite (C idx s0 E). lia.
Qed.

(** A goroutine that counts on slot [i] lowers its counter and goes on or ends. *)
Lemma counted_dec p g x i :
  counted p → gos p !! g = Some x → (∀ idx, inflight idx x = if (i =? idx)%nat then 1 else 0) →
  counted (end_go (upd_slot decStreamsFloor p i) g)
  ∧ ∀ y, (∀ idx, inflight idx y = 0) → counted (set_go (upd_slot decStreamsFloor p i) g y).
Proof.
  intros C Hx Hi.
  assert (∀ idx s, slotAt (upd_slot decStreamsFloor p i) idx = Some s → streams s = bound p idx - inflight idx x) as H.
  { intros idx s. rewrite slotAt_upd, Hi. destruct (i =? idx)%nat eqn:Ei; [| intros Hs; rewrite (C idx s Hs); lia].
    destruct (slotAt p idx) as [s0 |] eqn:E; [| done]. intros [= <-]. pose proof (bound_holds p g x idx Hx) as Hb.
    rewrite Hi, Ei in Hb. pose proof (C idx s0 E). unfold decStreamsFloor. destruct (Z.leb_spec (streams s0) 0); cbn; lia. }
  split; [| intros y Hy]; intros idx s Hs.
  - rewrite bound_end. change (gos (upd_slot decStreamsFloor p i)) with (gos p). rewrite Hx, (bound_cong p) by done. by apply H.
  - rewrite bound_set. change (gos (upd_slot decStreamsFloor p i)) with (gos p). rewrite Hx, (bound_cong p), Hy by done.
    cbn [weight]. rewrite (H idx s Hs). lia.
Qed.

Definition same_counts (p q : pool) : Prop :=
  gos q = gos p ∧ streamMap q = streamMap p ∧ (∀ e, entry_idx q e = entry_idx p e) ∧ slots q = slots p.

Lemma counted_quiet p q g :
  counted p → same_counts p q → (∀ idx, weight (inflight idx) (gos p !! g) = 0) →
  counted (end_go q g) ∧ ∀ y, (∀ idx, inflight idx y = 0) → counted (set_go q g y).
Proof.
  intros C (E1 & E2 & E3 & E4) Hw. split; [| intros y Hy]; apply (counted_same p); try done; intros idx.
  - unfold slotAt. cbn. by rewrite E4.
  - rewrite bound_end, E1, Hw, (bound_cong p q) by done. lia.
  - unfold slotAt. cbn. by rewrite E4.
  - rewrite bound_set, E1, Hw, Hy, (bound_cong p q) by done. lia.
Qed.

Lemma counted_failed p q g m :
  counted p → same_counts p q → (∀ idx, weight (inflight idx) (gos p !! g) = 0) → counted (move_failed q g m).
Proof.
  intros C (E1 & E2 & E3 & E4) Hw. destruct (counted_quiet p (set_migrating q (mv_entry m) false) g C) as [H1 H2]; [| done |].
  - split_and!; try done. intros e. by rewrite set_migrating_idx.
  - unfold move_failed. destruct (mv_resume m); [by apply H2 | done].
Qed.

Lemma counted_take p g sid cl :
  counted p → (∀ idx, weight (inflight idx) (gos p !! g) = 0) → counted (take_binding p g sid cl).
Proof.
  intros C Hw. unfold take_binding. destruct (streamMap p !! sid) as [e |] eqn:Hs.
  - apply (counted_same p); [done | done |]. intros idx. rewrite bound_set. cbn [inflight].
    change (gos (unbind_stream p sid)) with (gos p). rewrite Hw. unfold bound.
    rewrite bindings_unbind, Hs. cbn [weight]. change (gos (unbind_stream p sid)) with (gos p). lia.
  - destruct (counted_quiet p p g C) as [H1 H2]; [done | done |]. destruct cl; [by apply H2 | done].
Qed.

Ltac quiet C Hx :=
  match goal with
  | |- counted (end_go ?q ?g) =>
    apply (counted_quiet _ q g C); [split_and!; try done; intros; by apply set_migrating_idx | intros; by rewrite Hx]
  | |- counted (set_go ?q ?g _) =>
    apply (counted_quiet _ q g C); [split_and!; try done; intros; by apply set_migrating_idx | intros; by rewrite Hx | done]
  | |- counted (move_failed ?q ?g _) => apply (counted_failed _ q g _ C); [done | intros; by rewrite Hx]
  end.

Lemma counted_replied p g x m ch r :
  counted p → gos p !! g = Some x → (∀ idx, inflight idx x = 0) → counted (move_replied p g m ch r).
Proof.
  intros C Hx Hi. assert (∀ idx, weight (inflight idx) (gos p !! g) = 0) as Hw by (intros; rewrite Hx; cbn; auto).
  unfold move_replied. cbv zeta. destruct r; try by apply (counted_failed p). by apply (counted_quiet p).
Qed.

Lemma counted_go_on p g ok now x : protocol p → counted p → gos p !! g = Some x → counted (go_on p g ok now x).
Proof.
  intros P C Hx. pose proof (p_fits p P _ _ Hx) as F.
  destruct x as [sid idx | sid idx | sid idx | sid | idx cl | sid | sid e | sid e | sid e dd | sid e dd | m | m | m | m ch | m ch | m ch | m | m src | m src | src | ch r];
    go_cbn.
  - destruct (streamMap p !! sid); quiet C Hx.
  - by eapply counted_inc.
  - apply (counted_same p); [done | done |]. intros i. rewrite bound_end. change (gos (bind_stream p sid idx now)) with (gos p).
    rewrite Hx. unfold bound. rewrite bindings_bind, (f_assign _ _ F sid) by done. cbn [weight inflight].
    change (gos (bind_stream p sid idx now)) with (gos p). lia.
  - apply counted_take; [done |]. intros. by rewrite Hx.
  - destruct (counted_dec p g _ idx C Hx) as [H1 H2]; [done |]. destruct cl; [by apply H2 | done].
  - quiet C Hx.
  - destruct (is_migrating p e); quiet C Hx.
  - destruct (selectYoungTargetSlot p (entry_idx p e)); quiet C Hx.
  - destruct (is_migrating p e); quiet C Hx.
  - destruct (selectYoungTargetSlot p dd); quiet C Hx.
  - destruct (is_migrating p (mv_entry m)); quiet C Hx.
  - destruct (bool_decide _ && _ && _); quiet C Hx.
  - quiet C Hx.
  - destruct ok; [| unfold move_unsent; cbv zeta]; quiet C Hx.
  - done.
  - assert (counted (move_timed_out p g m ch)) as Ht by (unfold move_timed_out; quiet C Hx).
    destruct (chans p !! ch) as [[s [r |]] |]; [| done | done]. by eapply counted_replied.
  - destruct (streamMap p !! mv_sid m); [destruct (_ =? _)%nat |]; quiet C Hx.
  - by eapply counted_inc.
  - apply (counted_same p); [done | done |]. intros i. rewrite bound_set.
    change (gos (bind_stream p (mv_sid m) (mv_target m) now)) with (gos p). destruct (f_rebind _ _ F m src eq_refl) as [Hs Hi].
    rewrite Hx. unfold bound. rewrite bindings_bind, Hs by done. cbn [weight inflight]. rewrite Hi.
    change (gos (bind_stream p (mv_sid m) (mv_target m) now)) with (gos p). lia.
  - by apply (counted_dec p g _ src C Hx).
  - destruct (chans p !! ch) as [[s [q |]] |]; [done | quiet C Hx | done].
Qed.

Lemma counted_pending p d i : counted p → counted (upd_slot (λ s, setPending s (pendingConnects s + d)) p i).
Proof.
  intros C. apply (counted_same p); [done | | done]. intros idx. rewrite slotAt_upd.
  destruct (i =? idx)%nat; [| done]. by destruct (slotAt p idx).
Qed.

Lemma counted_step p o : protocol p → counted p → calm p o → counted (step p o).
Proof.
  intros P C Hcalm.
  destruct o as [g sid now mx | g sid | g sid | g sid | g sid dd | g pl | g ok now | g | g | sid | sid | sid now | idx c | | sid b];
    cbn [calm] in *; step_cbn; unfold start;
    try (destruct (gos p !! g) as [x |] eqn:Hg; [try done | try done]).
  - destruct (pick _ _ _) as [idx |]; [quiet C Hg | done].
  - apply counted_take; [done |]. intros. by rewrite Hg.
  - apply counted_take; [done |]. intros. by rewrite Hg.
  - destruct (MigrateCapable p); [| done]. destruct (streamMap p !! sid) as [e |]; [quiet C Hg | done].
  - destruct (streamMap p !! sid) as [e |]; [| done]. destruct (migrateEnabled p && _); [quiet C Hg | done].
  - destruct (reply_of pl) as [[sid r] |]; [| done]. destruct (pendingMigrateAcks p !! sid) as [ch |]; [quiet C Hg | done].
  - by apply counted_go_on.
  - destruct x; try done. destruct (chans p !! ch) as [[s [r |]] |]; [| done | done]. by eapply counted_replied.
  - destruct x; try done. destruct (pendingMigrateAcks p !! mv_sid m); [unfold move_timed_out |]; quiet C Hg.
  - unfold IncrPending, pend. destruct (streamMap p !! sid); [| done]. by apply counted_pending.
  - unfold DecrPending, pend. destruct (streamMap p !! sid); [| done]. by apply counted_pending.
  - destruct (streamMap p !! sid) as [e |]; [| done]. apply (counted_same p); [done | done |]. intros idx.
    apply bound_cong; [done | done |]. intros e'. by apply set_entry_lookup.
  - intros i s Hs. change (bound _ i) with (bound p i). unfold slotAt in Hs. cbn in Hs.
    destruct (decide (idx = i)) as [-> | Hne]; [| rewrite list_lookup_insert_ne in Hs by done; by apply C].
    destruct (decide (i < length (slots p))%nat); [| rewrite list_insert_ge in Hs by lia; by apply C].
    rewrite list_lookup_insert_eq in Hs by done. cbn in Hs. subst c. destruct Hcalm as [Hk | [-> ->]]; [| done].
    destruct (slotAt p i) as [s0 |] eqn:E; [| done]. cbn in Hk. injection Hk as <-. by apply C.
  - by apply (counted_same p).
  - by apply (counted_same p).
Qed.

Lemma counted_run os p : protocol p → counted p → calm_run p os → counted (run p os).
Proof.
  revert p. induction os as [| o os IH]; intros p P C H; [done |]. destruct H as [H1 H2].
  apply IH; [by apply protocol_step | by apply counted_step | done].
Qed.

Lemma protocol_new n : protocol (newPool n).
Proof. split; cbn; intros *; rewrite ?lookup_empty; done. Qed.
Lemma counted_new n : counted (newPool n).
Proof.
  intros idx s. unfold slotAt. cbn. destruct (replicate n None !! idx) as [c |] eqn:E; [| done].
  apply lookup_replicate in E as [-> _]. done.
Qed.

(** The streams bound to a slot. *)
Definition bound_to (p : pool) (idx : nat) : gmap Z nat := filter (λ kv, entry_idx p kv.2 = idx) (streamMap p).

Lemma bindings_size p idx : bindings p idx = Z.of_nat (size (bound_to p idx)).
Proof.
  transitivity (msum (λ e, if bool_decide (entry_idx p e = idx) then 1 else 0) (streamMap p)); [| apply msum_size].
  apply msum_ext. intros k e _.
  case_bool_decide as E; [by rewrite E, Nat.eqb_refl | by rewrite (proj2 (Nat.eqb_neq _ _) E)].
Qed.

(** In a run where stream ids are reused only after their last use has ended,
    no stream is released between the load and the store of its rebind, and a
    cell's counter survives its changes, the counter of every slot is exact at every
    moment: the streams bound to it and the assigns, releases and rebinds that have
    counted and not yet bound, or unbound and not yet counted.  It is the number of
    streams bound to the slot when no goroutine runs, and never negative. *)
Theorem stream_counters_exact n os :
  calm_run (newPool n) os → let p := run (newPool n) os in
  ∀ idx s, slotAt p idx = Some s →
    streams s = Z.of_nat (size (bound_to p idx)) + msum (inflight idx) (gos p)
    ∧ 0 ≤ streams s ∧ (gos p = ∅ → streams s = Z.of_nat (size (bound_to p idx))).
Proof.
  intros H p idx s Hs. assert (streams s = bound p idx) as ->.
  { apply (counted_run os (newPool n)); eauto using protocol_new, counted_new. }
  unfold bound. rewrite bindings_size. pose proof (msum_nonneg (inflight idx) (gos p) (inflight_nonneg idx)).
  split_and!; [done | lia |]. intros ->. rewrite msum_empty. lia.
Qed.

(** ** The choice of a slot *)

Definition score_at (score : poolSlot → option Z) (l : list (option poolSlot)) (k : nat) : option Z := mjoin (l !! k) ≫= score.

(** The first of the cells with the least score. *)
Definition best_of (score : poolSlot → option Z) (l : list (option poolSlot)) (low : Z) (j : nat) : Prop :=
  ∃ x, score_at score l j = Some x ∧ x < low ∧ ∀ k y, score_at score l k = Some y → x ≤ y ∧ ((k < j)%nat → x < y).
Definition none_of (score : poolSlot → option Z) (l : list (option poolSlot)) (low : Z) : Prop :=
  ∀ k y, score_at score l k = Some y → low ≤ y.

Lemma least_spec score l i best low :
  (∃ j, best_of score l low j ∧ least score l i best low = Some (i + j)%nat)
  ∨ none_of score l low ∧ least score l i best low = best.
Proof.
  revert i best low. induction l as [| c l IH]; intros i best low; [right; split; [by intros [] | done] |].
  assert (least score (c :: l) i best low
          = match c ≫= score with
            | Some x => if x <? low then least score l (S i) (Some i) x else least score l (S i) best low
            | None => least score l (S i) best low
            end) as E by (by destruct c).
  rewrite E. clear E. destruct (c ≫= score) as [x |] eqn:Hc; [destruct (Z.ltb_spec x low) |].
  - left. destruct (IH (S i) (Some i) x) as [(j & (y & Hy & Hlt & Hmin) & ->) | [Hno ->]].
    + exists (S j). split; [| f_equal; lia]. exists y. split_and!; [done | lia |]. intros [| k] z Hz.
      * unfold score_at in Hz. cbn in Hz. assert (z = x) as -> by congruence. lia.
      * destruct (Hmin k z Hz). lia.
    + exists 0%nat. split; [| f_equal; lia]. exists x. split_and!; [done | lia |]. intros [| k] z Hz; [| specialize (Hno k z Hz); lia].
      unfold score_at in Hz. cbn in Hz. assert (z = x) as -> by congruence. lia.
  - destruct (IH (S i) best low) as [(j & (y & Hy & Hlt & Hmin) & ->) | [Hno ->]].
    + left. exists (S j). split; [| f_equal; lia]. exists y. split_and!; [done | lia |]. intros [| k] z Hz.
      * unfold score_at in Hz. cbn in Hz. assert (z = x) as -> by congruence. lia.
      * destruct (Hmin k z Hz). lia.
    + right. split; [| done]. intros [| k] z Hz; [| by apply (Hno k)]. unfold score_at in Hz. cbn in Hz. by assert (z = x) as -> by congruence.
  - destruct (IH (S i) best low) as [(j & (y & Hy & Hlt & Hmin) & ->) | [Hno ->]].
    + left. exists (S j). split; [| f_equal; lia]. exists y. split_and!; [done | lia |]. intros [| k] z Hz.
      * unfold score_at in Hz. cbn in Hz. congruence.
      * destruct (Hmin k z Hz). lia.
    + right. split; [| done]. intros [| k] z Hz; [| by apply (Hno k)]. unfold score_at in Hz. cbn in Hz. congruence.
Qed.

Lemma first_slot_spec l i :
  match first_slot l i with
  | Some j => (i ≤ j)%nat ∧ (∃ s, l !! (j - i)%nat = Some (Some s)) ∧ ∀ k s, (k < j - i)%nat → l !! k ≠ Some (Some s)
  | None => ∀ k s, l !! k ≠ Some (Some s)
  end.
Proof.
  revert i. induction l as [| [s |] l IH]; intros i; cbn.
  - by intros [].
  - rewrite Nat.sub_diag. split_and!; [lia | by exists s | lia].
  - specialize (IH (S i)). destruct (first_slot l (S i)) as [j |].
    + destruct IH as (H1 & [s Hs] & H2). replace (j - i)%nat with (S (j - S i)) by lia. split_and!; [lia | by exists s |].
      intros [| k] s' Hk; [done |]. apply H2. lia.
    + intros [| k] s; [done | apply IH].
Qed.

(** The four rounds of the choice. *)
Definition rested (mx now : Z) := candidate mx false now.
Definition with_room (mx now : Z) := candidate mx true now.
Definition by_streams (s : poolSlot) : option Z := if isReady s then Some (streams s) else None.

(** A new stream goes to the first slot of least load among the ready slots
    with room that did not just reconnect; only if there is none, among all ready
    slots with room; only if there is none, to the ready slot with the fewest streams;
    only if none is ready, to the first slot there is; it gets none only if there is none. *)
Theorem assign_picks_least mx snap now :
  match pick mx snap now with
  | Some i =>
    best_of (rested mx now) snap maxInt32 i
    ∨ none_of (rested mx now) snap maxInt32 ∧ best_of (with_room mx now) snap maxInt32 i
    ∨ none_of (with_room mx now) snap maxInt32 ∧ best_of by_streams snap maxInt32 i
    ∨ none_of by_streams snap maxInt32 ∧ (∃ s, snap !! i = Some (Some s)) ∧ ∀ k s, (k < i)%nat → snap !! k ≠ Some (Some s)
  | None => ∀ k s, snap !! k ≠ Some (Some s)
  end.
Proof.
  unfold pick. destruct (least_spec (candidate mx false now) snap 0 None maxInt32) as [(j & Hj & ->) | [H1 ->]]; [by left |].
  cbn [orElse]. destruct (least_spec (candidate mx true now) snap 0 None maxInt32) as [(j & Hj & ->) | [H2 ->]]; [by right; left |].
  cbn [orElse]. destruct (least_spec by_streams snap 0 None maxInt32) as [(j & Hj & Ej) | [H3 Ej]]; unfold by_streams in Ej; rewrite Ej;
    cbn [orElse]; [by right; right; left |].
  pose proof (first_slot_spec snap 0) as Hf. destruct (first_slot snap 0) as [j |]; [| done].
  rewrite Nat.sub_0_r in Hf. destruct Hf as (_ & Hs & Hk). by right; right; right.
Qed.

(** ** Idle streams of a slot *)

Record drainStreamSnapshot := mkSnap { total : Z; idleAge30sCount : Z; activeCount : Z; maxStreamAgeMs : Z; minStreamAgeMs : Z }.

Definition nsPerMs : Z := 1000000.
Definition idleThresholdMs : Z := 30000.

Definition age_ms (now : Z) (e : streamEntry) : Z := Z.max 0 (Z.quot (now - lastWriteNs e) nsPerMs).

(** One visit of [streamMap.Range]. *)
Definition snap_visit (idx : nat) (now : Z) (snap : drainStreamSnapshot) (e : streamEntry) : drainStreamSnapshot :=
  if negb (slotIdx e =? idx)%nat then snap else
  let n := total snap + 1 in
  let age := age_ms now e in
  let quiet := (idleThresholdMs <=? age) || migrating e in
  mkSnap n (idleAge30sCount snap + (if quiet then 1 else 0)) (activeCount snap + (if quiet then 0 else 1))
    (if (n =? 1) || (maxStreamAgeMs snap <? age) then age else maxStreamAgeMs snap)
    (if (n =? 1) || (age <? minStreamAgeMs snap) then age else minStreamAgeMs snap).

(** The map visits its entries in some order, [order]. *)
Definition snapshotDrainStreams (order : list streamEntry) (idx : nat) (now : Z) : drainStreamSnapshot :=
  foldl (snap_visit idx now) (mkSnap 0 0 0 0 0) order.

Fixpoint idle_visits (idx : nat) (threshold now : Z) (found : bool) (order : list streamEntry) : bool :=
  match order with
  | [] => found
  | e :: l =>
    if negb (slotIdx e =? idx)%nat then idle_visits idx threshold now found l else
    if migrating e then idle_visits idx threshold now true l else
    if now - lastWriteNs e <? threshold then false
    else idle_visits idx threshold now true l
  end.
Definition allStreamsIdle (order : list streamEntry) (idx : nat) (threshold now : Z) : bool :=
  idle_visits idx threshold now false order.

Definition on_slot (idx : nat) (l : list streamEntry) : list streamEntry := filter (λ e, slotIdx e = idx) l.
Definition busy (now : Z) (e : streamEntry) : bool := negb ((idleThresholdMs <=? age_ms now e) || migrating e).
Definition busy_on (idx : nat) (now : Z) (l : list streamEntry) : list streamEntry := filter (λ e, busy now e = true) (on_slot idx l).

Lemma snap_visit_counts idx now s e :
  slotIdx e = idx →
  total (snap_visit idx now s e) = total s + 1
  ∧ activeCount (snap_visit idx now s e) = activeCount s + (if busy now e then 1 else 0)
  ∧ idleAge30sCount (snap_visit idx now s e) = idleAge30sCount s + (if busy now e then 0 else 1).
Proof. intros E. unfold snap_visit, busy. rewrite E, Nat.eqb_refl. by destruct (_ || _). Qed.

Lemma snap_counts idx now l : ∀ s,
  let s' := foldl (snap_visit idx now) s l in
  total s' = total s + len (on_slot idx l) ∧ activeCount s' = activeCount s + len (busy_on idx now l)
  ∧ idleAge30sCount s' + activeCount s' - total s' = idleAge30sCount s + activeCount s - total s.
Proof.
  unfold busy_on. induction l as [| e l IH]; intros s; [cbn; rewrite !len_nil; lia |].
  cbn [foldl]. specialize (IH (snap_visit idx now s e)). cbv zeta in IH. unfold on_slot in *.
  rewrite !filter_cons. destruct (decide (slotIdx e = idx)) as [E | E].
  - destruct (snap_visit_counts idx now s e E) as (E1 & E2 & E3). rewrite E1, E2 in IH. rewrite E3 in IH.
    rewrite filter_cons. destruct (decide (busy now e = true)) as [Hb | Hb%not_true_is_false]; rewrite Hb in IH; rewrite ?len_cons; lia.
  - assert (snap_visit idx now s e = s) as Es.
    { unfold snap_visit. by rewrite (proj2 (Nat.eqb_neq _ _) E). }
    rewrite Es in IH |- *. exact IH.
Qed.

Lemma age_idle now e : (idleThresholdMs <=? age_ms now e) = negb (now - lastWriteNs e <? idleThresholdMs * nsPerMs).
Proof.
  unfold age_ms, idleThresholdMs, nsPerMs. set (a := now - lastWriteNs e).
  destruct (Z.ltb_spec a (30000 * 1000000)); cbn; [apply Z.leb_gt | apply Z.leb_le].
  - apply Z.max_lub_lt; [lia |]. destruct (Z.leb_spec 0 a); [apply Z.quot_lt_upper_bound; lia |].
    assert (Z.quot a 1000000 ≤ 0); [| lia]. rewrite <- (Z.opp_involutive a), Z.quot_opp_l by lia.
    pose proof (Z.quot_pos (- a) 1000000). lia.
  - apply Z.max_le_iff. right. apply Z.quot_le_lower_bound; lia.
Qed.

Lemma idle_visits_spec idx now l : ∀ found,
  idle_visits idx (idleThresholdMs * nsPerMs) now found l
  = (found || (0 <? len (on_slot idx l))) && (len (busy_on idx now l) =? 0).
Proof.
  unfold busy_on. induction l as [| e l IH]; intros found; [by destruct found |].
  cbn [idle_visits]. unfold on_slot in *. rewrite !filter_cons. destruct (decide (slotIdx e = idx)) as [E | E].
  - rewrite E, Nat.eqb_refl, filter_cons. cbn [negb]. rewrite len_cons.
    pose proof (len_nonneg (filter (λ e, slotIdx e = idx) l)) as Hn.
    pose proof (len_nonneg (filter (λ e, busy now e = true) (filter (λ e, slotIdx e = idx) l))) as Hb.
    rewrite (proj2 (Z.ltb_lt 0 _)) by lia. rewrite orb_true_r. cbn [andb].
    assert (busy now e = (now - lastWriteNs e <? idleThresholdMs * nsPerMs) && negb (migrating e)) as Eb.
    { unfold busy. by rewrite age_idle, negb_orb, negb_involutive. }
    destruct (decide (busy now e = true)) as [Hy | Hy%not_true_is_false]; rewrite Hy in Eb.
    + symmetry in Eb. apply andb_true_iff in Eb as [-> ->%negb_true_iff]. rewrite len_cons. symmetry. apply Z.eqb_neq. lia.
    + destruct (migrating e); [by rewrite IH |]. rewrite andb_true_r in Eb. rewrite <- Eb. by rewrite IH.
  - rewrite (proj2 (Nat.eqb_neq _ _) E). cbn [negb]. apply IH.
Qed.

(** Over any two orders of visiting the bindings, the early-exit test of a
    drain, at its thirty seconds, agrees with the snapshot that is logged: the slot is
    idle exactly if it has streams and none of them is active; and the snapshot's
    idle and active streams are all its streams. *)
Theorem idle_agrees_with_snapshot order order' idx now :
  order ≡ₚ order' →
  let snap := snapshotDrainStreams order' idx now in
  allStreamsIdle order idx (idleThresholdMs * nsPerMs) now = (0 <? total snap) && (activeCount snap =? 0)
  ∧ total snap = idleAge30sCount snap + activeCount snap ∧ total snap = len (on_slot idx order).
Proof.
  intros Hp. unfold snapshotDrainStreams, allStreamsIdle. rewrite idle_visits_spec. cbn [orb].
  destruct (snap_counts idx now order' (mkSnap 0 0 0 0 0)) as (E1 & E2 & E3). cbn in E1, E2, E3. cbv zeta. rewrite E1, E2.
  assert (len (on_slot idx order) = len (on_slot idx order') ∧ len (busy_on idx now order) = len (busy_on idx now order')) as [-> ->].
  { unfold busy_on, on_slot, len. split; f_equal; apply Permutation_length; by rewrite Hp. }
  split_and!; [done | lia | done].
Qed.

(** ** Runs *)

Definition ready_slot (started : Z) : option poolSlot := Some (mkSlot slotReady 0 0 started 0).
Definition steps (g : nat) (n : nat) : list op := replicate n (SStep g true 0).
(** The server's accept of a move of stream 7. *)
Definition accept7 : bytes := MigrateReplyOK :: be_bytes 2 7 ++ be_bytes 8 5.

(** Stream 7 on slot 0, and a younger slot 1. *)
Definition bound7 : list op :=
  [SCell 0 (ready_slot 100); SCell 1 (ready_slot 200); SNegotiated; SProof 7 true; SAssign 1 7 1000 0] ++ steps 1 3.
(** A move of stream 7 that the server accepts, up to the load of its rebind. *)
Definition accepted7 : list op := bound7 ++ [SMigrate 2 7] ++ steps 2 5 ++ [SReply 3 accept7] ++ steps 3 1 ++ [SRecv 2] ++ steps 2 1.

(** A stream that is released while its rebind is between its load and its store is
    bound again: it stays in the map with no one to release it, and the new slot
    counts it for ever. *)
Lemma rebind_resurrects_stream :
  let p := run (newPool 2) (accepted7 ++ [SRelease 4 7] ++ steps 4 1 ++ steps 2 3) in
  gos p = ∅ ∧ streamMap p = {[7 := 1%nat]} ∧ entry_idx p 1 = 1%nat ∧ streams <$> slotAt p 1 = Some 1.
Proof. vm_compute. split_and!; reflexivity. Qed.

(** A reply names its stream and not its request.  Here a MIGRATE to slot 1 times out,
    and its accept arrives while the RESUME to slot 2 is registered and not sent: the
    RESUME returns accepted, and the stream is bound to slot 2. *)
Lemma late_reply_confirms_next :
  let before := bound7 ++ [SMigrate 2 7] ++ steps 2 5 ++ [STimer 2; SCell 2 (ready_slot 300); SResume 4 7 0] ++ steps 4 5 in
  let p := run (newPool 3) (before ++ [SReply 5 accept7] ++ steps 5 1 ++ steps 4 1 ++ [SRecv 4] ++ steps 4 4) in
  gos (run (newPool 3) before) !! 4%nat = Some (GRegistered (mkMove 7 0 2 true) 1)
  ∧ results p = [(0%nat, 7, migrateResultTimeout); (1%nat, 7, migrateResultOK 5)] ∧ streams <$> slotAt p 2 = Some 1.
Proof. vm_compute. split_and!; reflexivity. Qed.

Lemma stream_counters_exact_witness :
  let os := accepted7 ++ steps 2 3 ++ [SClose 4 7] ++ steps 4 2 in
  calm_run (newPool 2) os
  ∧ ∀ idx s, slotAt (run (newPool 2) os) idx = Some s →
      gos (run (newPool 2) os) = ∅ → streams s = Z.of_nat (size (bound_to (run (newPool 2) os) idx)).
Proof.
  cbv zeta. assert (calm_run (newPool 2) (accepted7 ++ steps 2 3 ++ [SClose 4 7] ++ steps 4 2)) as H.
  { apply (bool_decide_unpack _). vm_compute. exact I. }
  split; [exact H |]. intros idx s Hs. apply (stream_counters_exact 2 _ H idx s Hs).
Defined.

Lemma idle_agrees_with_snapshot_witness :
  let es := [mkEntry 1 0 false false 0; mkEntry 2 0 true false 99000000000] in
  allStreamsIdle es 0 (idleThresholdMs * nsPerMs) 100000000000 = true
  ∧ total (snapshotDrainStreams (rev es) 0 100000000000) = 2.
Proof.
  cbv zeta.
  destruct (idle_agrees_with_snapshot [mkEntry 1 0 false false 0; mkEntry 2 0 true false 99000000000]
     [mkEntry 2 0 true false 99000000000; mkEntry 1 0 false false 0] 0 100000000000) as (_ & _ & E);
     [apply perm_swap |]. split; [reflexivity | exact E].
Defined.
