(* ===== verification/SlotCells.v ===== *)
(** * The cells of the client's slot pool ([client/ws_pool.go], [client/ws_pool_drain.go])

    A slot is an object with a state and a connection; a cell holds at most one.
    Connecting a slot, the reconnect loop, the death of a slot, the drain of a slot
    with its replacement and its watchdog, and the evictions run as goroutines.
    A critical section of [reserveMu], a read or update of an atomic, and a walk
    over one snapshot of the cells are each one step.  The bindings of streams are in
    [SlotStreams]; here the number of streams of a slot is set from outside. *)

From S2P Require Import Prelude.
From S2P Require Import SlotStreams.
From stdpp Require Import base list gmap.

#[local] Open Scope Z_scope.

(** ** Data *)

Record slotObj := mkObj { ost : slotState; open : bool; nstreams : Z; isSticky : bool }.

Inductive slotDeathCause :=
| deathCauseNatural | deathCauseAgeCut | deathCauseNetworkChange | deathCausePreemptiveRotation | deathCauseDrainTeardown.
#[global] Instance slotDeathCause_eq_dec : EqDecision slotDeathCause.
Proof. solve_decision. Defined.

(** Who called [connectSlot]: the reconnect loop, with its retargets so far, the
    reserve of a drain, or the start of the pool. *)
Inductive caller := KLoop (retargets : nat) | KReserve | KInit.

(** Where [handleSlotDeath] returns to: nowhere, the watchdog of a drain of
    object [o], or a drain that evicted a slot for object [o] of cell [idx].
    [n] is what the drain read from [inflightDrains]. *)
Inductive back := BNone | BWatch (o : nat) (n : Z) | BEvict (idx o : nat) (n : Z).

Inductive cgo :=
(* [connectSlot] *)
| CInstall (idx : nat) (k : caller) | CDialing (idx o : nat) (k : caller) | CUp (idx o : nat) (k : caller)
(* [connectReserveSlot]: the connect failed *)
| CFree (idx : nat)
(* [reconnectLoopInner] *)
| LWait (idx retargets : nat) | LRetarget (idx retargets : nat)
(* [handleSlotDeath] *)
| HEnter (idx : nat) (cause : slotDeathCause) (k : back) | HSlot (idx o : nat) (cause : slotDeathCause) (k : back)
| HDead (idx o : nat) (cause : slotDeathCause) (k : back) | HClosed (idx : nat) (cause : slotDeathCause) (k : back)
(* [startDrain]: entered, counted, below the cap, above the floor, marked, evicting, retrying, reverting, giving up *)
| DEnter (idx o : nat) | DAdmit (idx o : nat) (n : Z) | DFloor (idx o : nat) (n : Z) | DMark (idx o : nat) (n : Z) | DClaim (idx o : nat) (n : Z)
| DEvict (idx o : nat) (n : Z) (snap : list (option nat)) (i : nat) | DVictim (idx o : nat) (n : Z) (snap : list (option nat)) (i v : nat)
| DAged (idx o : nat) (n : Z) | DClaimAgain (idx o : nat) (n : Z) | DRevert (o : nat) (n : Z) | DRelease (n : Z)
(* [drainWatchdog]: watching, to become sticky, leaving *)
| WWatch (idx o : nat) (n : Z) | WStick (idx o : nat) (n : Z) | WLeave (o : nat) (n : Z)
(* [legacyRotateOneSlot]: chosen, draining *)
| REnter (idx o : nat) | RDrain (idx o : nat).

Record cells := mkCells {
  poolSize : Z; floorRaw : Z;      (* [math.Floor(poolSize * readyCapacityFloorFraction)] *)
  stickyMaxSlots : Z;
  objs : list slotObj; slotsOf : list (option nat);
  inflightDrains : Z; stickyDrainCount : Z;
  cgos : gmap nat cgo;
}.

Definition with_objs (p : cells) (l : list slotObj) : cells :=
  mkCells (poolSize p) (floorRaw p) (stickyMaxSlots p) l (slotsOf p) (inflightDrains p) (stickyDrainCount p) (cgos p).
Definition with_cells (p : cells) (l : list (option nat)) : cells :=
  mkCells (poolSize p) (floorRaw p) (stickyMaxSlots p) (objs p) l (inflightDrains p) (stickyDrainCount p) (cgos p).
Definition with_drains (p : cells) (d s : Z) : cells :=
  mkCells (poolSize p) (floorRaw p) (stickyMaxSlots p) (objs p) (slotsOf p) d s (cgos p).
Definition with_cgos (p : cells) (m : gmap nat cgo) : cells :=
  mkCells (poolSize p) (floorRaw p) (stickyMaxSlots p) (objs p) (slotsOf p) (inflightDrains p) (stickyDrainCount p) m.

Definition goto (p : cells) (g : nat) (x : cgo) : cells := with_cgos p (<[g := x]> (cgos p)).
Definition leave (p : cells) (g : nat) : cells := with_cgos p (delete g (cgos p)).

Definition cellAt (p : cells) (idx : nat) : option nat := mjoin (slotsOf p !! idx).
Definition getState (p : cells) (o : nat) : slotState := match objs p !! o with Some x => ost x | None => slotDead end.
Definition streamsOf (p : cells) (o : nat) : Z := match objs p !! o with Some x => nstreams x | None => 0 end.
Definition is_open (p : cells) (o : nat) : bool := match objs p !! o with Some x => open x | None => false end.
Definition sticky (p : cells) (o : nat) : bool := match objs p !! o with Some x => isSticky x | None => false end.

Definition upd_obj (f : slotObj → slotObj) (p : cells) (o : nat) : cells := with_objs p (alter f o (objs p)).
Definition setState (p : cells) (o : nat) (st : slotState) : cells :=
  upd_obj (λ x, mkObj st (open x) (nstreams x) (isSticky x)) p o.
Definition setOpen (p : cells) (o : nat) (b : bool) : cells := upd_obj (λ x, mkObj (ost x) b (nstreams x) (isSticky x)) p o.
Definition setStreamsOf (p : cells) (o : nat) (n : Z) : cells := upd_obj (λ x, mkObj (ost x) (open x) n (isSticky x)) p o.
Definition setSticky (p : cells) (o : nat) (b : bool) : cells := upd_obj (λ x, mkObj (ost x) (open x) (nstreams x) b) p o.
Definition storeSlot (p : cells) (idx : nat) (c : option nat) : cells := with_cells p (<[idx := c]> (slotsOf p)).

(** A new object, at the end of the heap, put in cell [idx]. *)
Definition fresh_slot : slotObj := mkObj slotConnecting false 0 false.
Definition install (p : cells) (idx : nat) : cells :=
  storeSlot (with_objs p (objs p ++ [fresh_slot])) idx (Some (length (objs p))).

Definition has_state (p : cells) (st : slotState) (c : option nat) : bool :=
  match c with Some o => bool_decide (getState p o = st) | None => false end.

(** ** Capacity *)

Definition readyCapacity (p : cells) : Z := len (filter (λ c, has_state p slotReady c = true) (slotsOf p)).
Definition readyCapacityFloor (p : cells) : Z :=
  let floor := Z.max 1 (floorRaw p) in
  if poolSize p <=? floor then poolSize p - 1 else floor.
Definition maxConcurrentDrains (p : cells) : Z :=
  let mcd := (poolSize p + 1) / 2 in
  let mcd := if poolSize p <=? mcd then poolSize p - 1 else mcd in
  Z.max 1 mcd.

Definition effectiveStickyMaxSlots (p : cells) : Z :=
  if 0 <? stickyMaxSlots p then stickyMaxSlots p else
  if stickyMaxSlots p <? 0 then 0 else Z.max 1 (poolSize p / 2).
Definition markSticky (p : cells) (o : nat) : cells :=
  match objs p !! o with
  | Some x => if isSticky x then p else with_drains (setSticky p o true) (inflightDrains p) (stickyDrainCount p + 1)
  | None => p
  end.
Definition releaseSticky (p : cells) (o : nat) : cells :=
  if sticky p o then with_drains (setSticky p o false) (inflightDrains p) (stickyDrainCount p - 1) else p.
Definition stickyQuotaAvailable (p : cells) (o : nat) : bool :=
  sticky p o || negb (effectiveStickyMaxSlots p <=? stickyDrainCount p) && negb (readyCapacity p <=? readyCapacityFloor p).

(** ** Cells *)

Definition cellIsOverwritable (p : cells) (c : option nat) : bool :=
  match c with
  | None => true
  | Some o => match getState p o with slotReady | slotDraining => false | _ => true end
  end.

Fixpoint first_free (l : list (option nat)) (i : nat) : option nat :=
  match l with
  | [] => None
  | None :: _ => Some i
  | Some _ :: l' => first_free l' (S i)
  end.
(** The cell and the pool with its placeholder. *)
Definition claimFreeSlot (p : cells) : option (nat * cells) :=
  match first_free (slotsOf p) 0 with
  | Some i => Some (i, install p i)
  | None => None
  end.
Definition claimFreeCellForHealing (p : cells) : option nat :=
  let healthy := len (filter (λ c, has_state p slotReady c || has_state p slotConnecting c = true) (slotsOf p)) in
  if poolSize p <=? healthy then None else first_free (slotsOf p) 0.

(** ** Steps *)

Definition maxHealingRetargets : nat := 3.

Definition tryMarkDead (p : cells) (o : nat) : option cells :=
  if bool_decide (getState p o = slotDead) then None else Some (setState p o slotDead).
Definition tryMarkDraining (p : cells) (o : nat) : option cells :=
  if bool_decide (getState p o = slotReady) then Some (setState p o slotDraining) else None.
(** [state.CompareAndSwap(slotDraining, slotReady)] *)
Definition revert (p : cells) (o : nat) : cells :=
  if bool_decide (getState p o = slotDraining) then setState p o slotReady else p.

(** [tryForceEvictIdleSlot]: the next idle slot of the snapshot from [i] on. *)
Fixpoint idle_from (p : cells) (skip : nat) (l : list (option nat)) (j i : nat) : option (nat * nat) :=
  match l with
  | [] => None
  | c :: l' =>
    match c with
    | Some v =>
      if (i <=? j)%nat && negb (j =? skip)%nat && bool_decide (getState p v = slotReady) && (streamsOf p v =? 0) then Some (j, v)
      else idle_from p skip l' (S j) i
    | None => idle_from p skip l' (S j) i
    end
  end.

(** [tryEmergencyEvictMinStreamsSlot]: the ready slot with the fewest streams. *)
Fixpoint fewest (p : cells) (skip : nat) (l : list (option nat)) (j : nat) (best : option (nat * nat)) (low : Z) : option (nat * nat) :=
  match l with
  | [] => best
  | Some v :: l' =>
    if negb (j =? skip)%nat && bool_decide (getState p v = slotReady) && (streamsOf p v <? low)
    then fewest p skip l' (S j) (Some (j, v)) (streamsOf p v)
    else fewest p skip l' (S j) best low
  | None :: l' => fewest p skip l' (S j) best low
  end.

Definition go_back (p : cells) (g : nat) (k : back) : cells :=
  match k with
  | BNone => leave p g
  | BWatch o n => goto p g (WLeave o n)
  | BEvict idx o n => goto p g (DClaimAgain idx o n)
  end.

(** The drain is on: this goroutine watches it, another connects the replacement. *)
Definition commit (p : cells) (g new idx o : nat) (n : Z) (i : nat) : cells :=
  goto (goto p g (WWatch idx o n)) new (CInstall i KReserve).

(** [connectSlot] failed, or found the cell taken. *)
Definition connect_failed (p : cells) (g idx : nat) (k : caller) : cells :=
  match k with
  | KLoop r => goto p g (LWait idx r)
  | KReserve => goto p g (CFree idx)
  | KInit => goto p g (LWait idx 0)
  end.
Definition connect_occupied (p : cells) (g idx : nat) (k : caller) : cells :=
  match k with
  | KLoop r => goto p g (LRetarget idx r)
  | KReserve => leave p g
  | KInit => goto p g (LWait idx 0)
  end.

(** *** The goroutines, by the function they are in *)

(** [connectSlot] *)
Definition connectSlot_go (p : cells) (g : nat) (ok : bool) (x : cgo) : cells :=
  match x with
  | CInstall idx k =>
    if (length (slotsOf p) <=? idx)%nat then p else  (* an index out of range stops the program *)
    if cellIsOverwritable p (cellAt p idx) then goto (install p idx) g (CDialing idx (length (objs p)) k)
    else connect_occupied p g idx k
  | CDialing idx o k =>
    if ok then goto (setOpen p o true) g (CUp idx o k) else connect_failed (setState p o slotDead) g idx k
  | CUp idx o k => leave (setState p o slotReady) g
  | _ => p
  end.

(** [connectReserveSlot], after a failed connect *)
Definition connectReserveSlot_go (p : cells) (g : nat) (x : cgo) : cells :=
  match x with
  | CFree idx =>
    let p1 := match cellAt p idx with
              | Some o => if bool_decide (getState p o = slotReady) then p else storeSlot p idx None
              | None => p
              end in
    goto p1 g (LWait idx 0)
  | _ => p
  end.

(** [reconnectLoopInner]: one turn of the loop, after its wait *)
Definition reconnectLoopInner_go (p : cells) (g : nat) (x : cgo) : cells :=
  match x with
  | LWait idx r =>
    match cellAt p idx with
    | Some o =>
      if bool_decide (getState p o = slotDead) then goto p g (CInstall idx (KLoop r)) else goto p g (LRetarget idx r)
    | None => goto p g (CInstall idx (KLoop r))
    end
  | LRetarget idx r =>
    if (maxHealingRetargets <=? r)%nat then leave p g else
    match claimFreeCellForHealing p with
    | Some free => goto p g (LWait free (S r))
    | None => leave p g
    end
  | _ => p
  end.

(** [handleSlotDeath] *)
Definition handleSlotDeath_go (p : cells) (g : nat) (new : nat) (x : cgo) : cells :=
  match x with
  | HEnter idx cause k => match cellAt p idx with Some o => goto p g (HSlot idx o cause k) | None => go_back p g k end
  | HSlot idx o cause k =>
    match tryMarkDead p o with Some p1 => goto p1 g (HDead idx o cause k) | None => go_back p g k end
  | HDead idx o cause k => goto (setOpen (setStreamsOf p o 0) o false) g (HClosed idx cause k)
  | HClosed idx cause k =>
    match cause with
    | deathCauseDrainTeardown => go_back (storeSlot p idx None) g k
    | _ => goto (go_back p g k) new (LWait idx 0)
    end
  | _ => p
  end.

(** [startDrain]; [ok] is [drainTargetOverAged] *)
Definition startDrain_go (p : cells) (g : nat) (ok : bool) (new : nat) (x : cgo) : cells :=
  match x with
  | DEnter idx o => goto (with_drains p (inflightDrains p + 1) (stickyDrainCount p)) g (DAdmit idx o (inflightDrains p + 1))
  | DAdmit idx o n => if maxConcurrentDrains p <? n then goto p g (DRelease n) else goto p g (DFloor idx o n)
  | DFloor idx o n => if readyCapacity p <? readyCapacityFloor p then goto p g (DRelease n) else goto p g (DMark idx o n)
  | DMark idx o n => match tryMarkDraining p o with Some p1 => goto p1 g (DClaim idx o n) | None => goto p g (DRelease n) end
  | DClaim idx o n =>
    match claimFreeSlot p with
    | Some (i, p1) => commit p1 g new idx o n i
    | None => goto p g (DEvict idx o n (slotsOf p) 0)
    end
  | DAged idx o n =>
    if ok then
      match fewest p idx (slotsOf p) 0 None maxInt32 with
      | Some (j, v) => goto (setState p v slotDraining) g (HEnter j deathCauseDrainTeardown (BEvict idx o n))
      | None => goto p g (DRevert o n)
      end
    else goto p g (DRevert o n)
  | DClaimAgain idx o n =>
    match claimFreeSlot p with
    | Some (i, p1) => commit p1 g new idx o n i
    | None => goto p g (DRevert o n)
    end
  | DRevert o n => goto (revert p o) g (DRelease n)
  | DRelease _ => leave (with_drains p (inflightDrains p - 1) (stickyDrainCount p)) g
  | _ => p
  end.

(** [tryForceEvictIdleSlot] *)
Definition tryForceEvictIdleSlot_go (p : cells) (g : nat) (x : cgo) : cells :=
  match x with
  | DEvict idx o n snap i =>
    match idle_from p idx snap 0 i with
    | Some (j, v) => goto (setState p v slotDraining) g (DVictim idx o n snap j v)
    | None => goto p g (DAged idx o n)
    end
  | DVictim idx o n snap j v =>
    if streamsOf p v =? 0 then goto p g (HEnter j deathCauseDrainTeardown (BEvict idx o n))
    else goto (revert p v) g (DEvict idx o n snap (S j))
  | _ => p
  end.

(** [drainWatchdog]: it extends the drain, and what it defers; its wait is in [cstep] *)
Definition drainWatchdog_go (p : cells) (g : nat) (x : cgo) : cells :=
  match x with
  | WStick idx o n => goto (markSticky p o) g (WWatch idx o n)
  | WLeave o _ => let p1 := releaseSticky p o in leave (with_drains p1 (inflightDrains p1 - 1) (stickyDrainCount p1)) g
  | _ => p
  end.

(** [legacyRotateOneSlot] *)
Definition legacyRotateOneSlot_go (p : cells) (g : nat) (x : cgo) : cells :=
  match x with
  | REnter idx o => goto (setState p o slotDraining) g (RDrain idx o)
  | RDrain idx o => goto (setOpen p o false) g (CInstall idx KInit)
  | _ => p
  end.

Definition cgo_on (p : cells) (g : nat) (ok : bool) (new : nat) (x : cgo) : cells :=
  match x with
  | CInstall _ _ | CDialing _ _ _ | CUp _ _ _ => connectSlot_go p g ok x
  | CFree _ => connectReserveSlot_go p g x
  | LWait _ _ | LRetarget _ _ => reconnectLoopInner_go p g x
  | HEnter _ _ _ | HSlot _ _ _ _ | HDead _ _ _ _ | HClosed _ _ _ => handleSlotDeath_go p g new x
  | DEvict _ _ _ _ _ | DVictim _ _ _ _ _ _ => tryForceEvictIdleSlot_go p g x
  | DEnter _ _ | DAdmit _ _ _ | DFloor _ _ _ | DMark _ _ _ | DClaim _ _ _ | DAged _ _ _ | DClaimAgain _ _ _
  | DRevert _ _ | DRelease _ => startDrain_go p g ok new x
  | WWatch _ _ _ | WStick _ _ _ | WLeave _ _ => drainWatchdog_go p g x
  | REnter _ _ | RDrain _ _ => legacyRotateOneSlot_go p g x
  end.
Ltac cgo_cbn :=
  cbn [cgo_on connectSlot_go connectReserveSlot_go reconnectLoopInner_go handleSlotDeath_go tryForceEvictIdleSlot_go startDrain_go
       drainWatchdog_go legacyRotateOneSlot_go].

(** What the watchdog does on its ticker or its deadline; [None]: it stays, and
    [Some false]: it stays as a sticky drain. *)
Definition drainWatchdog (p : cells) (o : nat) (deadline stickyOn idleOn idle ageOver bytesOver phantom : bool) : option bool :=
  if deadline then
    if negb stickyOn || negb idleOn then Some true else
    if phantom then Some true else
    if streamsOf p o =? 0 then Some true else
    if idle then Some true else
    if ageOver then Some true else
    if bytesOver then Some true else
    if sticky p o && (readyCapacity p <=? readyCapacityFloor p) then Some true else
    if negb (stickyQuotaAvailable p o) then Some true else Some false
  else
    if streamsOf p o =? 0 then Some true else
    if phantom then Some true else
    if idleOn && idle then Some true else None.

Inductive cop :=
| OConnect (g idx : nat) | ODeath (g idx : nat) (cause : slotDeathCause) | ODrain (g idx : nat) | OLegacy (g idx : nat)
| OStep (g : nat) (ok : bool) (new : nat)
| OTick (g : nat) (deadline stickyOn idleOn idle ageOver bytesOver phantom : bool) | OCancel (g : nat)
| OStreams (o : nat) (n : Z).

Definition is_free (p : cells) (g : nat) : bool := match cgos p !! g with Some _ => false | None => true end.

Definition cstep (p : cells) (o : cop) : cells :=
  match o with
  | OConnect g idx => if is_free p g then goto p g (CInstall idx KInit) else p
  | ODeath g idx cause => if is_free p g then goto p g (HEnter idx cause BNone) else p
  | ODrain g idx =>
    if is_free p g then
      match cellAt p idx with Some o => goto p g (DEnter idx o) | None => p end
    else p
  | OLegacy g idx =>
    if is_free p g then match cellAt p idx with Some o => goto p g (REnter idx o) | None => p end else p
  | OStep g ok new =>
    match cgos p !! g with
    | Some x => if is_free p new then cgo_on p g ok new x else p
    | None => p
    end
  | OTick g deadline stickyOn idleOn idle ageOver bytesOver phantom =>
    match cgos p !! g with
    | Some (WWatch idx o n) =>
      match drainWatchdog p o deadline stickyOn idleOn idle ageOver bytesOver phantom with
      | Some true => goto p g (HEnter idx deathCauseDrainTeardown (BWatch o n))
      | Some false => goto p g (WStick idx o n)
      | None => p
      end
    | _ => p
    end
  | OCancel g => match cgos p !! g with Some (WWatch idx o n) => goto p g (WLeave o n) | _ => p end
  | OStreams o n => setStreamsOf p o n
  end.
Definition crun (p : cells) (os : list cop) : cells := foldl cstep p os.

(** [allocSlots]: as many spare cells as slots. *)
Definition newCells (size raw stickyMax : Z) : cells :=
  mkCells size raw stickyMax [] (replicate (Z.to_nat (size * 2)) None) 0 0 ∅.

(** ** The cap on drains *)

Definition back_ticket (k : back) : option Z := match k with BNone => None | BWatch _ n | BEvict _ _ n => Some n end.

(** What a drain read from [inflightDrains] when it entered; it counts there until it leaves. *)
Definition ticket (x : cgo) : option Z :=
  match x with
  | HEnter _ _ k | HSlot _ _ _ k | HDead _ _ _ k | HClosed _ _ k => back_ticket k
  | DAdmit _ _ n | DFloor _ _ n | DMark _ _ n | DClaim _ _ n | DEvict _ _ n _ _ | DVictim _ _ n _ _ _
  | DAged _ _ n | DClaimAgain _ _ n | DRevert _ n | DRelease n | WWatch _ _ n | WStick _ _ n | WLeave _ n => Some n
  | _ => None
  end.
(** A drain that was let in: it has marked a slot, or may. *)
Definition admitted (x : cgo) : bool :=
  match x with
  | DAdmit _ _ _ | DRelease _ => false
  | _ => bool_decide (is_Some (ticket x))
  end.

Definition counts (x : cgo) : Z := match ticket x with Some _ => 1 | None => 0 end.
Definition within (k : Z) (x : cgo) : Z := match ticket x with Some n => if n <=? k then 1 else 0 | None => 0 end.

Record drains_ok (p : cells) : Prop := {
  d_count : inflightDrains p = msum counts (cgos p);
  d_within : ∀ k, 0 ≤ k → msum (within k) (cgos p) ≤ k;
  d_admitted : ∀ g x n, cgos p !! g = Some x → ticket x = Some n → admitted x = true → n ≤ maxConcurrentDrains p;
}.

Lemma within_counts k x : within k x ≤ counts x.
Proof. unfold within, counts. destruct (ticket x); [case_match; lia | lia]. Qed.

Definition same_drains (p q : cells) : Prop := cgos q = cgos p ∧ inflightDrains q = inflightDrains p ∧ poolSize q = poolSize p.
Lemma same_cap p q : poolSize q = poolSize p → maxConcurrentDrains q = maxConcurrentDrains p.
Proof. unfold maxConcurrentDrains. by intros ->. Qed.

Lemma weight_ticket k x y : ticket y = ticket x → counts y = counts x ∧ within k y = within k x.
Proof. unfold counts, within. by intros ->. Qed.
Lemma no_ticket k x : ticket x = None → counts x = 0 ∧ within k x = 0.
Proof. unfold counts, within. by intros ->. Qed.

Lemma drains_goto p q g x y :
  drains_ok p → same_drains p q → cgos p !! g = Some x → ticket y = ticket x →
  (admitted y = true → admitted x = true ∨ ∀ n, ticket x = Some n → n ≤ maxConcurrentDrains p) → drains_ok (goto q g y).
Proof.
  intros [D1 D2 D3] (E1 & E2 & E3) Hx Ht Ha. split; cbn [goto with_cgos cgos inflightDrains].
  - rewrite E1, E2, D1, (msum_insert _ _ g y x Hx). destruct (weight_ticket 0 x y Ht). lia.
  - intros k Hk. rewrite E1, (msum_insert _ _ g y x Hx). destruct (weight_ticket k x y Ht). specialize (D2 k Hk). lia.
  - intros g1 z n Hz Hn Had. change (maxConcurrentDrains _) with (maxConcurrentDrains q). rewrite (same_cap p q E3).
    rewrite E1 in Hz. apply lookup_insert_Some in Hz as [[<- <-] | [_ Hz]]; [| by eapply D3].
    destruct (Ha Had) as [Hax | Hcap]; [eapply (D3 g x); congruence | apply Hcap; congruence].
Qed.

Lemma drains_spawn p g y : drains_ok p → cgos p !! g = None → ticket y = None → drains_ok (goto p g y).
Proof.
  intros [D1 D2 D3] Hg Ht. split; cbn [goto with_cgos cgos inflightDrains].
  - rewrite msum_insert_new by done. destruct (no_ticket 0 y Ht). lia.
  - intros k Hk. rewrite msum_insert_new by done. destruct (no_ticket k y Ht). specialize (D2 k Hk). lia.
  - intros g1 z n Hz Hn Had. apply lookup_insert_Some in Hz as [[<- <-] | [_ Hz]]; [congruence | by eapply (D3 g1 z)].
Qed.

Lemma drains_leave p q g x :
  drains_ok p → cgos q = cgos p → poolSize q = poolSize p → cgos p !! g = Some x →
  inflightDrains q = inflightDrains p - counts x → drains_ok (leave q g).
Proof.
  intros [D1 D2 D3] E1 E3 Hx E2. split; cbn [leave with_cgos cgos inflightDrains].
  - rewrite E1, E2, D1, (msum_delete _ _ g x Hx). lia.
  - intros k Hk. rewrite E1, (msum_delete _ _ g x Hx). specialize (D2 k Hk).
    assert (0 ≤ within k x) by (unfold within; repeat case_match; lia). lia.
  - intros g1 z n Hz Hn Had. change (maxConcurrentDrains _) with (maxConcurrentDrains q). rewrite (same_cap p q E3).
    rewrite E1 in Hz. apply lookup_delete_Some in Hz as [_ Hz]. by eapply D3.
Qed.

Lemma drains_enter p g idx o :
  drains_ok p → cgos p !! g = Some (DEnter idx o) →
  drains_ok (goto (with_drains p (inflightDrains p + 1) (stickyDrainCount p)) g (DAdmit idx o (inflightDrains p + 1))).
Proof.
  intros [D1 D2 D3] Hx. split; cbn [goto with_cgos with_drains cgos inflightDrains].
  - rewrite (msum_insert _ _ g _ _ Hx). cbn. lia.
  - intros k Hk. rewrite (msum_insert _ _ g _ _ Hx). change (within k (DEnter idx o)) with 0. unfold within at 2. cbn [ticket].
    specialize (D2 k Hk). pose proof (msum_mono (within k) counts (cgos p) (λ _ x _, within_counts k x)). destruct (Z.leb_spec (inflightDrains p + 1) k); lia.
  - intros g1 z n Hz Hn Had. apply lookup_insert_Some in Hz as [[<- <-] | [_ Hz]]; [done | by eapply (D3 g1 z)].
Qed.

Lemma drains_same p q : drains_ok p → same_drains p q → drains_ok q.
Proof.
  intros [D1 D2 D3] (E1 & E2 & E3). split; rewrite ?E1, ?E2, ?(same_cap p q E3); [done | done |].
  exact D3.
Qed.

Lemma drains_back p q g x k :
  drains_ok p → same_drains p q → cgos p !! g = Some x → ticket x = back_ticket k →
  admitted x = bool_decide (is_Some (back_ticket k)) → drains_ok (go_back q g k).
Proof.
  intros D E Hx Ht Ha. destruct k as [| o n | idx o n]; cbn [go_back].
  - destruct E as (E1 & E2 & E3). eapply (drains_leave p q g x D); try done. unfold counts. rewrite Ht, E2. cbn. lia.
  - eapply (drains_goto p q g x _ D); try done. rewrite Ha. by left.
  - eapply (drains_goto p q g x _ D); try done. rewrite Ha. by left.
Qed.

Lemma same_upd p f o : same_drains p (upd_obj f p o).
Proof. done. Qed.
Lemma revert_same p o : same_drains p (revert p o).
Proof. unfold revert. by case_bool_decide. Qed.
Lemma claim_same p i q : claimFreeSlot p = Some (i, q) → same_drains p q.
Proof. unfold claimFreeSlot. destruct (first_free _ _); [| done]. by intros [= <- <-]. Qed.

Lemma drains_commit p q g new x idx o n i :
  drains_ok p → same_drains p q → cgos p !! g = Some x → ticket x = Some n → admitted x = true → cgos p !! new = None →
  drains_ok (commit q g new idx o n i).
Proof.
  intros D E Hx Ht Ha Hn. unfold commit. apply drains_spawn; [| | done].
  - eapply (drains_goto p q g x _ D); try done. by left.
  - cbn. destruct E as (E1 & _ & _). rewrite E1. rewrite lookup_insert_ne; [done |]. congruence.
Qed.

Ltac on_goto D Hx := eapply (drains_goto _ _ _ _ _ D); [try done | exact Hx | done | try (by left); try done].

Lemma drains_cgo_on p g ok new x :
  drains_ok p → cgos p !! g = Some x → cgos p !! new = None → drains_ok (cgo_on p g ok new x).
Proof.
  intros D Hx Hn.
  destruct x as [idx k | idx o k | idx o k | idx | idx r | idx r | idx c k | idx o c k | idx o c k | idx c k | idx o | idx o n | idx o n
    | idx o n | idx o n | idx o n snap i | idx o n snap i v | idx o n | idx o n | o n | n | idx o n | idx o n | o n | idx o | idx o]; cgo_cbn.
  - destruct (_ <=? _)%nat; [done |]. destruct (cellIsOverwritable _ _); [on_goto D Hx |]. destruct k; cbn [connect_occupied]; try (on_goto D Hx).
    eapply (drains_leave p p g _ D); try done. cbn. lia.
  - destruct ok; [on_goto D Hx |]. destruct k; cbn [connect_failed]; on_goto D Hx.
  - eapply (drains_leave p _ g _ D); try done. cbn. lia.
  - on_goto D Hx. destruct (cellAt p idx); [by case_bool_decide | done].
  - destruct (cellAt p idx); [case_bool_decide |]; on_goto D Hx.
  - destruct (_ <=? _)%nat; [eapply (drains_leave p p g _ D); try done; cbn; lia |].
    destruct (claimFreeCellForHealing p); [on_goto D Hx |]. eapply (drains_leave p p g _ D); try done; cbn; lia.
  - destruct (cellAt p idx); [on_goto D Hx | by eapply (drains_back p p g _ k D)].
  - unfold tryMarkDead. case_bool_decide; [by eapply (drains_back p p g _ k D) | on_goto D Hx].
  - on_goto D Hx.
  - assert (drains_ok (go_back p g k)) as Db by (by eapply (drains_back p p g _ k D)).
    assert (drains_ok (goto (go_back p g k) new (LWait idx 0))) as Ds.
    { apply drains_spawn; [done | | done]. assert (g ≠ new) by congruence.
      destruct k; cbn; rewrite ?lookup_insert_ne, ?lookup_delete_ne; done. }
    destruct c; try done. by eapply (drains_back p _ g _ k D).
  - by apply drains_enter.
  - destruct (Z.ltb_spec (maxConcurrentDrains p) n); [on_goto D Hx |]. on_goto D Hx. intros _. right. by intros ? [= <-].
  - destruct (_ <? _); on_goto D Hx.
  - unfold tryMarkDraining. case_bool_decide; on_goto D Hx.
  - destruct (claimFreeSlot p) as [[i q] |] eqn:Hc; [| on_goto D Hx]. eapply (drains_commit p); eauto using claim_same.
  - destruct (idle_from p idx snap 0 i) as [[j v] |]; on_goto D Hx.
  - destruct (_ =? _); on_goto D Hx. apply revert_same.
  - destruct ok; [| on_goto D Hx]. destruct (fewest _ _ _ _ _ _) as [[j v] |]; on_goto D Hx.
  - destruct (claimFreeSlot p) as [[i q] |] eqn:Hc; [| on_goto D Hx]. eapply (drains_commit p); eauto using claim_same.
  - on_goto D Hx. apply revert_same.
  - by eapply (drains_leave p _ g _ D).
  - done.
  - on_goto D Hx. unfold markSticky. destruct (objs p !! o) as [x |]; [by destruct (isSticky x) | done].
  - eapply (drains_leave p _ g _ D); try done; unfold releaseSticky; by destruct (sticky p o).
  - on_goto D Hx.
  - on_goto D Hx.
Qed.

Lemma is_free_none p g : is_free p g = true → cgos p !! g = None.
Proof. unfold is_free. by destruct (cgos p !! g). Qed.

Lemma drains_cstep p o : drains_ok p → drains_ok (cstep p o).
Proof.
  intros D. destruct o as [g idx | g idx c | g idx | g idx | g ok new | g b1 b2 b3 b4 b5 b6 b7 | g | o n]; cbn [cstep].
  - destruct (is_free p g) eqn:Hf; [| done]. apply is_free_none in Hf. by apply drains_spawn.
  - destruct (is_free p g) eqn:Hf; [| done]. apply is_free_none in Hf. by apply drains_spawn.
  - destruct (is_free p g) eqn:Hf; [| done]. apply is_free_none in Hf. destruct (cellAt p idx); [by apply drains_spawn | done].
  - destruct (is_free p g) eqn:Hf; [| done]. apply is_free_none in Hf. destruct (cellAt p idx); [by apply drains_spawn | done].
  - destruct (cgos p !! g) eqn:Hx; [| done]. destruct (is_free p new) eqn:Hf; [| done]. by apply drains_cgo_on, is_free_none.
  - destruct (cgos p !! g) as [x |] eqn:Hx; [| done]. destruct x; try done.
    destruct (drainWatchdog _ _ _ _ _ _ _ _ _) as [[] |]; [| | done]; on_goto D Hx.
  - destruct (cgos p !! g) as [x |] eqn:Hx; [| done]. destruct x; try done. on_goto D Hx.
  - by apply (drains_same p).
Qed.

Lemma drains_crun os p : drains_ok p → drains_ok (crun p os).
Proof. revert p. induction os as [| o os IH]; intros p D; [done |]. apply IH, drains_cstep, D. Qed.
Lemma drains_new size raw sm : drains_ok (newCells size raw sm).
Proof.
  split; cbn.
  - by rewrite msum_empty.
  - intros k Hk. by rewrite msum_empty.
  - intros g x m Hx. by rewrite lookup_empty in Hx.
Qed.

(** The sticky drains. *)
Definition stickies (p : cells) : Z := len (filter (λ b, b = true) (isSticky <$> objs p)).

Lemma stickies_same p f o :
  (∀ x, isSticky (f x) = isSticky x) → isSticky <$> alter f o (objs p) = isSticky <$> objs p.
Proof.
  intros Hf. apply list_eq. intros i. rewrite !list_lookup_fmap. destruct (decide (i = o)) as [-> |].
  - rewrite list_lookup_alter_eq. destruct (objs p !! o); [cbn; by rewrite Hf | done].
  - by rewrite list_lookup_alter_ne.
Qed.
Lemma stickies_flip (l : list slotObj) o x b :
  l !! o = Some x → isSticky x = negb b →
  len (filter (λ b, b = true) (isSticky <$> alter (λ x, mkObj (ost x) (open x) (nstreams x) b) o l))
  = len (filter (λ b, b = true) (isSticky <$> l)) + (if b then 1 else -1).
Proof.
  revert o. induction l as [| y l IH]; intros [| o] Hx Hb; try done.
  - cbn in Hx. injection Hx as ->. change (alter ?f 0%nat (x :: l)) with (f x :: l).
    rewrite !fmap_cons, !filter_cons. cbn [isSticky]. rewrite Hb. destruct b; cbn [negb]; repeat case_decide; rewrite ?len_cons; try done; lia.
  - change (alter ?f (S o) (y :: l)) with (y :: alter f o l). rewrite !fmap_cons, !filter_cons.
    specialize (IH o Hx Hb). case_decide; rewrite ?len_cons; lia.
Qed.

Definition sticky_ok (p : cells) : Prop := stickyDrainCount p = stickies p.

Lemma sticky_mark p o : sticky_ok p → sticky_ok (markSticky p o).
Proof.
  unfold markSticky. intros H. destruct (objs p !! o) as [x |] eqn:Hx; [| done]. destruct (isSticky x) eqn:E; [done |].
  unfold sticky_ok, stickies in *. cbn. rewrite (stickies_flip _ _ x true) by done. lia.
Qed.
Lemma sticky_release p o : sticky_ok p → sticky_ok (releaseSticky p o).
Proof.
  unfold releaseSticky, sticky. intros H. destruct (objs p !! o) as [x |] eqn:Hx; [| done]. destruct (isSticky x) eqn:E; [| done].
  unfold sticky_ok, stickies in *. cbn. rewrite (stickies_flip _ _ x false) by done. lia.
Qed.

(** Everything else leaves the sticky flags and their count alone. *)
Definition sticky_same (p q : cells) : Prop := stickyDrainCount q = stickyDrainCount p ∧ stickies q = stickies p.
Lemma sticky_keep p q : sticky_ok p → sticky_same p q → sticky_ok q.
Proof. unfold sticky_ok. intros H [-> ->]. done. Qed.
Lemma sticky_same_upd f p o : (∀ x, isSticky (f x) = isSticky x) → sticky_same p (upd_obj f p o).
Proof. intros Hf. split; [done |]. unfold stickies. cbn. by rewrite stickies_same. Qed.
Lemma sticky_same_install p idx : sticky_same p (install p idx).
Proof. split; [done |]. unfold stickies. cbn. rewrite fmap_app, filter_app, len_app. change (len (filter _ (isSticky <$> [fresh_slot]))) with 0. lia. Qed.
Lemma sticky_same_trans p q r : sticky_same p q → sticky_same q r → sticky_same p r.
Proof. unfold sticky_same. intros [] []. split; congruence. Qed.
Lemma sticky_same_revert p o : sticky_same p (revert p o).
Proof. unfold revert. case_bool_decide; [by apply sticky_same_upd | done]. Qed.
Lemma sticky_same_claim p i q : claimFreeSlot p = Some (i, q) → sticky_same p q.
Proof. unfold claimFreeSlot. destruct (first_free _ _); [| done]. intros [= <- <-]. apply sticky_same_install. Qed.
Lemma sticky_same_back p g k : sticky_same p (go_back p g k).
Proof. by destruct k. Qed.

Lemma sticky_cgo_on p g ok new x : sticky_ok p → sticky_ok (cgo_on p g ok new x).
Proof.
  intros H. destruct x as [idx k | idx o k | idx o k | idx | idx r | idx r | idx c k | idx o c k | idx o c k | idx c k | idx o | idx o n | idx o n
    | idx o n | idx o n | idx o n snap i | idx o n snap i v | idx o n | idx o n | o n | n | idx o n | idx o n | o n | idx o | idx o]; cgo_cbn.
  22-24: try done.
  22: by apply (sticky_mark p o) in H.
  22: by apply (sticky_release p o) in H.
  all: apply (sticky_keep p); [done |]; try done.
  - destruct (_ <=? _)%nat; [done |]. destruct (cellIsOverwritable _ _); [apply sticky_same_install | by destruct k].
  - destruct ok; [by apply sticky_same_upd |]. destruct k; by apply sticky_same_upd.
  - by apply sticky_same_upd.
  - destruct (cellAt p idx); [by case_bool_decide | done].
  - destruct (cellAt p idx); [by case_bool_decide | done].
  - destruct (_ <=? _)%nat; [done |]. by destruct (claimFreeCellForHealing p).
  - destruct (cellAt p idx); [done | apply sticky_same_back].
  - unfold tryMarkDead. case_bool_decide; [apply sticky_same_back | by apply sticky_same_upd].
  - eapply sticky_same_trans; by apply sticky_same_upd.
  - destruct c; by destruct k.
  - by destruct (_ <? _).
  - by destruct (_ <? _).
  - unfold tryMarkDraining. case_bool_decide; [by apply sticky_same_upd | done].
  - destruct (claimFreeSlot p) as [[i q] |] eqn:Hc; [by apply sticky_same_claim in Hc | done].
  - destruct (idle_from p idx snap 0 i) as [[j v] |]; [by apply sticky_same_upd | done].
  - destruct (_ =? _); [done | apply sticky_same_revert].
  - destruct ok; [| done]. destruct (fewest _ _ _ _ _ _) as [[j v] |]; [by apply sticky_same_upd | done].
  - destruct (claimFreeSlot p) as [[i q] |] eqn:Hc; [by apply sticky_same_claim in Hc | done].
  - apply sticky_same_revert.
  - by apply sticky_same_upd.
  - by apply sticky_same_upd.
Qed.
Lemma sticky_crun os p : sticky_ok p → sticky_ok (crun p os).
Proof.
  revert p. induction os as [| o os IH]; intros p H; [done |]. apply IH.
  destruct o as [g idx | g idx c | g idx | g idx | g ok new | g b1 b2 b3 b4 b5 b6 b7 | g | o n]; cbn [cstep];
    try (apply (sticky_keep p); [done |]; repeat case_match; by try apply sticky_same_upd).
  destruct (cgos p !! g); [| done]. destruct (is_free p new); [by apply sticky_cgo_on | done].
Qed.

Lemma poolSize_cgo_on p g ok new x : poolSize (cgo_on p g ok new x) = poolSize p.
Proof.
  destruct x; cgo_cbn; unfold go_back, connect_occupied, connect_failed, tryMarkDead, tryMarkDraining, revert, releaseSticky,
    markSticky, claimFreeSlot; repeat case_match; simplify_eq; done.
Qed.
Lemma poolSize_crun size raw sm os : poolSize (crun (newCells size raw sm) os) = size.
Proof.
  assert (∀ p, poolSize (crun p os) = poolSize p) as H; [| apply H].
  induction os as [| o os IH]; intros p; [done |]. cbn. rewrite IH. destruct o; cbn [cstep]; repeat case_match; try done.
  apply poolSize_cgo_on.
Qed.

(** The goroutines of a kind. *)
Definition goroutines (P : cgo → Prop) `{∀ x, Decision (P x)} (p : cells) : gmap nat cgo := filter (λ kv, P kv.2) (cgos p).

(** However many drains start at once, with evictions, reverts, deaths and
    reconnects in between, no more than the cap are let in at any time; the in-flight
    counter is the number of goroutines between entering and leaving a drain, so it is
    zero when none runs; and the count of sticky drains is the number of slots marked
    sticky.  The cap leaves a slot undrained in any pool of two or more. *)
Theorem drains_bounded size raw stickyMax os :
  let p := crun (newCells size raw stickyMax) os in
  inflightDrains p = Z.of_nat (base.size (goroutines (λ x, is_Some (ticket x)) p))
  ∧ Z.of_nat (base.size (goroutines (λ x, admitted x = true) p)) ≤ maxConcurrentDrains p
  ∧ (2 ≤ size → maxConcurrentDrains p < size)
  ∧ stickyDrainCount p = stickies p.
Proof.
  intros p. assert (drains_ok p) as [D1 D2 D3] by apply drains_crun, drains_new. split_and!.
  - rewrite D1. etransitivity; [| apply (msum_size (λ x, is_Some (ticket x)))]. apply msum_ext. intros g x _.
    unfold counts. destruct (ticket x); case_bool_decide as Hs; [done | by destruct Hs | by destruct Hs | done].
  - etransitivity; [| apply D2; unfold maxConcurrentDrains; lia]. 
    eapply Z.le_trans; [apply Z.eq_le_incl; symmetry; apply (msum_size (λ x, admitted x = true)) |].
    apply msum_mono. intros g x Hx. case_bool_decide as Ha; [| unfold within; repeat case_match; lia].
    unfold within. destruct (ticket x) as [m |] eqn:Ht.
    + specialize (D3 g x m Hx Ht Ha). by rewrite (proj2 (Z.leb_le _ _) D3).
    + unfold admitted in Ha. rewrite Ht in Ha. by destruct x.
  - intros Hs. change (maxConcurrentDrains p) with (maxConcurrentDrains p). assert (poolSize p = size) as E by apply poolSize_crun.
    unfold maxConcurrentDrains. rewrite E. pose proof (Z.div_lt_upper_bound (size + 1) 2 (size + 1)). case_match; lia.
  - by apply sticky_crun.
Qed.

(** ** Connections and their cells *)

(** The object whose connection a goroutine is setting up. *)
Definition dials (x : cgo) : option nat := match x with CDialing _ o _ | CUp _ o _ => Some o | _ => None end.
Definition closes (x : cgo) : option nat := match x with HDead _ o _ _ => Some o | _ => None end.
Definition lifts (x : cgo) : option nat := match x with CUp _ o _ => Some o | _ => None end.

Definition in_cell (p : cells) (o : nat) : Prop := ∃ idx, cellAt p idx = Some o.
Definition someone (f : cgo → option nat) (p : cells) (o : nat) : Prop := ∃ g x, cgos p !! g = Some x ∧ f x = Some o.
Definition live (p : cells) (o : nat) : bool := match getState p o with slotReady | slotDraining => true | _ => false end.

(** The object in a cell, if any, is not being connected. *)
Definition undialled (p : cells) (idx : nat) : Prop :=
  match cellAt p idx with
  | None => True
  | Some o => map_Forall (λ _ x, dials x ≠ Some o) (cgos p)
  end.
(** A cell is free to be written: it is empty, or holds an object that is neither
    serving nor being connected. *)
Definition displaceable (p : cells) (idx : nat) : Prop :=
  match cellAt p idx with
  | None => True
  | Some o => live p o = false ∧ map_Forall (λ _ x, dials x ≠ Some o) (cgos p)
  end.
(** [connectSlot] looks at the state of the cell before it writes; the end of a drain and
    a failed reserve do not. *)
Definition gentle (p : cells) (o : cop) : Prop :=
  match o with
  | OStep g _ _ =>
    match cgos p !! g with
    | Some (CInstall idx _) => cellIsOverwritable p (cellAt p idx) = true → undialled p idx
    | Some (HClosed idx deathCauseDrainTeardown _) => displaceable p idx
    | Some (CFree idx) => has_state p slotReady (cellAt p idx) = false → displaceable p idx
    | _ => True
    end
  | _ => True
  end.
Fixpoint gentle_run (p : cells) (os : list cop) : Prop :=
  match os with
  | [] => True
  | o :: os' => gentle p o ∧ gentle_run (cstep p o) os'
  end.
#[global] Instance undialled_dec p idx : Decision (undialled p idx).
Proof. unfold undialled. destruct (cellAt p idx); apply _. Defined.
#[global] Instance displaceable_dec p idx : Decision (displaceable p idx).
Proof. unfold displaceable. destruct (cellAt p idx); apply _. Defined.
#[global] Instance gentle_dec p o : Decision (gentle p o).
Proof. destruct o as [| | | | g ok new | | |]; cbn; try apply _. destruct (cgos p !! g) as [[] |]; try apply _. destruct cause; apply _. Defined.
#[global] Instance gentle_run_dec p os : Decision (gentle_run p os).
Proof. revert p. induction os as [| o os IH]; intros p; cbn; [apply _ |]. specialize (IH (cstep p o)). apply _. Defined.

Record placed (p : cells) : Prop := {
  c_open : ∀ o, is_open p o = true → in_cell p o ∨ someone closes p o;
  c_state : ∀ o, is_open p o = true → someone lifts p o ∨ live p o = true ∨ someone closes p o;
  c_dial : ∀ g x o, cgos p !! g = Some x → dials x = Some o → in_cell p o ∧ (o < length (objs p))%nat;
  c_dialing : ∀ g idx o k, cgos p !! g = Some (CDialing idx o k) → is_open p o = false;
  c_one : ∀ g g' x x' o, cgos p !! g = Some x → cgos p !! g' = Some x' → dials x = Some o → dials x' = Some o → g = g';
  c_valid : ∀ o, in_cell p o → (o < length (objs p))%nat;
}.

(** Goroutine [g] takes a step; [others] start that connect nothing. *)
Record moves (p p' : cells) (g : nat) : Prop := {
  m_keep : ∀ g' x, g' ≠ g → cgos p !! g' = Some x → cgos p' !! g' = Some x;
  m_back : ∀ g' x, g' ≠ g → cgos p' !! g' = Some x → cgos p !! g' = Some x ∨ dials x = None;
  m_closes : ∀ x o, cgos p !! g = Some x → closes x = Some o → is_open p' o = false ∨ someone closes p' o;
  m_lifts : ∀ x o, cgos p !! g = Some x → lifts x = Some o → is_open p' o = false ∨ live p' o = true ∨ someone lifts p' o;
  m_dials : ∀ y o, cgos p' !! g = Some y → dials y = Some o →
    in_cell p' o ∧ (o < length (objs p'))%nat ∧ (lifts y = None → is_open p' o = false)
    ∧ ∀ g' x', g' ≠ g → cgos p !! g' = Some x' → dials x' ≠ Some o;
  m_cell : ∀ o, in_cell p o → in_cell p' o ∨
    (∀ g' x', cgos p' !! g' = Some x' → dials x' ≠ Some o) ∧ (is_open p' o = true → someone closes p' o);
  m_open : ∀ o, is_open p' o = true → is_open p o = true ∨ in_cell p' o ∧ ∃ y, cgos p' !! g = Some y ∧ lifts y = Some o;
  m_live : ∀ o, live p o = true → live p' o = true ∨ is_open p' o = false ∨ someone closes p' o;
  m_len : (length (objs p) ≤ length (objs p'))%nat;
  m_valid : ∀ o, in_cell p' o → in_cell p o ∨ (o < length (objs p'))%nat;
}.

Lemma someone_keep f p p' g o :
  moves p p' g → someone f p o → someone f p' o ∨ ∃ x, cgos p !! g = Some x ∧ f x = Some o.
Proof.
  intros M (g1 & x & H1 & Hf). destruct (decide (g1 = g)) as [-> | Hne]; [right; eauto |]. left. exists g1, x. split; [| done].
  by apply (m_keep p p' g M).
Qed.
Lemma lifts_dials x o : lifts x = Some o → dials x = Some o.
Proof. by destruct x. Qed.

Lemma placed_moves p p' g : placed p → moves p p' g → placed p'.
Proof.
  intros [P1 P2 P3 P4 P5 P6] M.
  assert (∀ o, someone closes p o → is_open p' o = true → someone closes p' o) as Hcl.
  { intros o Ho Hop. destruct (someone_keep closes p p' g o M Ho) as [? | (x & Hx & Hc)]; [done |].
    destruct (m_closes _ _ _ M x o Hx Hc); [congruence | done]. }
  assert (∀ o, is_open p' o = true → (∃ y, cgos p' !! g = Some y ∧ lifts y = Some o) → someone lifts p' o) as Hlf.
  { intros o _ (y & Hy & Hl). exists g, y. done. }
  split.
  - intros o Ho. destruct (m_open _ _ _ M o Ho) as [Hp | [? _]]; [| by left].
    destruct (P1 o Hp) as [Hc | Hc]; [| right; auto]. destruct (m_cell _ _ _ M o Hc) as [? | [_ ?]]; auto.
  - intros o Ho. destruct (m_open _ _ _ M o Ho) as [Hp | [_ ?]]; [| left; auto].
    destruct (P2 o Hp) as [Hl | [Hl | Hl]]; [| | auto].
    + destruct (someone_keep lifts p p' g o M Hl) as [? | (x & Hx & Hlx)]; [by left |].
      destruct (m_lifts _ _ _ M x o Hx Hlx) as [? | [? | ?]]; [congruence | auto | auto].
    + destruct (m_live _ _ _ M o Hl) as [? | [? | ?]]; [auto | congruence | auto].
  - intros g1 x o Hx Hd. destruct (decide (g1 = g)) as [-> | Hne].
    { destruct (m_dials _ _ _ M x o Hx Hd) as (? & ? & _). done. }
    destruct (m_back _ _ _ M g1 x Hne Hx) as [Hp | ?]; [| congruence]. destruct (P3 g1 x o Hp Hd) as [Hc Hlen].
    pose proof (m_len _ _ _ M). split; [| lia]. destruct (m_cell _ _ _ M o Hc) as [? | [Hno _]]; [done |]. by destruct (Hno g1 x Hx).
  - intros g1 idx o k Hx. destruct (decide (g1 = g)) as [-> | Hne].
    { by apply (m_dials _ _ _ M (CDialing idx o k) o Hx). }
    destruct (m_back _ _ _ M g1 _ Hne Hx) as [Hp | ?]; [| done]. destruct (is_open p' o) eqn:Ho; [| done].
    destruct (m_open _ _ _ M o Ho) as [Hp' | [_ (y & Hy & Hly)]]; [by rewrite (P4 _ _ _ _ Hp) in Hp' |].
    destruct (m_dials _ _ _ M y o Hy (lifts_dials y o Hly)) as (_ & _ & _ & Hu). by destruct (Hu g1 _ Hne Hp).
  - intros g1 g2 x x' o H1 H2 Hd Hd'. destruct (decide (g1 = g)) as [-> | N1], (decide (g2 = g)) as [-> | N2]; [done | | |].
    + destruct (m_back _ _ _ M g2 x' N2 H2) as [Hp | ?]; [| congruence]. destruct (m_dials _ _ _ M x o H1 Hd) as (_ & _ & _ & Hu).
      by destruct (Hu g2 x' N2 Hp).
    + destruct (m_back _ _ _ M g1 x N1 H1) as [Hp | ?]; [| congruence]. destruct (m_dials _ _ _ M x' o H2 Hd') as (_ & _ & _ & Hu).
      by destruct (Hu g1 x N1 Hp).
    + destruct (m_back _ _ _ M g1 x N1 H1) as [Hp | ?]; [| congruence]. destruct (m_back _ _ _ M g2 x' N2 H2) as [Hp' | ?]; [| congruence].
      by apply (P5 g1 g2 x x' o).
  - intros o Ho. destruct (m_valid _ _ _ M o Ho) as [Hp | ?]; [| done]. apply P6 in Hp. pose proof (m_len _ _ _ M). lia.
Qed.

(** The goroutines after [g] went on or left, and after [new] started. *)
Definition gos_step (p p' : cells) (g : nat) : Prop :=
  (∀ g' x, g' ≠ g → cgos p !! g' = Some x → cgos p' !! g' = Some x)
  ∧ (∀ g' x, g' ≠ g → cgos p' !! g' = Some x → cgos p !! g' = Some x ∨ dials x = None).

Lemma gos_goto p q g y : cgos q = cgos p → gos_step p (goto q g y) g.
Proof. intros E. split; intros g' x Hne; cbn; rewrite lookup_insert_ne, E by done; auto. Qed.
Lemma gos_leave p q g : cgos q = cgos p → gos_step p (leave q g) g.
Proof. intros E. split; intros g' x Hne; cbn; rewrite lookup_delete_ne, E by done; auto. Qed.
Lemma gos_spawn p q g new y : gos_step p q g → cgos p !! new = None → g ≠ new → dials y = None → gos_step p (goto q new y) g.
Proof.
  intros [H1 H2] Hn Hne Hd. split; intros g' x Hg'; cbn.
  - intros Hx. rewrite lookup_insert_ne by congruence. by apply H1.
  - intros [[<- <-] | [_ Hx]]%lookup_insert_Some; [by right | by apply H2].
Qed.
Lemma gos_back p q g k : cgos q = cgos p → gos_step p (go_back q g k) g.
Proof. intros E. destruct k; [by apply gos_leave | by apply gos_goto ..]. Qed.
Lemma gos_commit p q g new idx o n i : cgos q = cgos p → cgos p !! new = None → g ≠ new → gos_step p (commit q g new idx o n i) g.
Proof. intros. unfold commit. apply gos_spawn; [by apply gos_goto | done | done | done]. Qed.

(** What [g] is at after the step, if it still runs. *)
Definition at_go (P : cgo → Prop) (p : cells) (g : nat) : Prop := ∀ y, cgos p !! g = Some y → P y.
Lemma at_goto P q g y : P y → at_go P (goto q g y) g.
Proof. intros H z. cbn. rewrite lookup_insert_eq. by intros [= <-]. Qed.
Lemma at_leave P q g : at_go P (leave q g) g.
Proof. intros z. cbn. by rewrite lookup_delete_eq. Qed.
Lemma at_spawn P q g new y : at_go P q g → g ≠ new → at_go P (goto q new y) g.
Proof. intros H Hne z. cbn. rewrite lookup_insert_ne by done. apply H. Qed.
Lemma at_back P q g k : (∀ o n, P (WLeave o n)) → (∀ i o n, P (DClaimAgain i o n)) → at_go P (go_back q g k) g.
Proof. intros. destruct k; [apply at_leave | by apply at_goto ..]. Qed.

(** A step that connects and closes nothing. *)
Lemma moves_plain p p' g :
  gos_step p p' g → at_go (λ y, dials y = None) p' g → at_go (λ x, closes x = None ∧ lifts x = None) p g →
  (∀ o, in_cell p o → in_cell p' o) → (∀ o, is_open p' o = true → is_open p o = true) →
  (∀ o, live p o = true → live p' o = true ∨ is_open p' o = false ∨ someone closes p' o) →
  (length (objs p) ≤ length (objs p'))%nat → (∀ o, in_cell p' o → in_cell p o ∨ (o < length (objs p'))%nat) → moves p p' g.
Proof.
  intros [G1 G2] Hy Hx Hc Ho Hl Hn Hv. split; eauto.
  - intros x o Hg Hcl. destruct (Hx x Hg). congruence.
  - intros x o Hg Hcl. destruct (Hx x Hg). congruence.
  - intros y o Hg Hd. rewrite (Hy y Hg) in Hd. done.
Qed.

Lemma obj_upd f p o o' :
  objs (upd_obj f p o) !! o' = if decide (o' = o) then f <$> objs p !! o' else objs p !! o'.
Proof. cbn. case_decide as E; [by subst; rewrite list_lookup_alter_eq | by rewrite list_lookup_alter_ne]. Qed.

(** Setting a state leaves the connections, and a state it does not touch. *)
Lemma setState_open p o st o' : is_open (setState p o st) o' = is_open p o'.
Proof. unfold is_open, setState. rewrite obj_upd. case_decide; [by destruct (objs p !! o') | done]. Qed.
Lemma setState_state p o st o' :
  getState (setState p o st) o' = if decide (o' = o ∧ (o < length (objs p))%nat) then st else getState p o'.
Proof.
  unfold getState, setState. rewrite obj_upd. destruct (decide (o' = o)) as [-> |].
  - destruct (objs p !! o) as [x |] eqn:E.
    + rewrite decide_True; [done |]. split; [done | by eapply lookup_lt_Some].
    + rewrite decide_False; [done |]. intros [_ H]. apply lookup_ge_None in E. lia.
  - rewrite decide_False; [done |]. by intros [].
Qed.
Lemma setOpen_open p o b o' : is_open (setOpen p o b) o' = if decide (o' = o ∧ (o < length (objs p))%nat) then b else is_open p o'.
Proof.
  unfold is_open, setOpen. rewrite obj_upd. destruct (decide (o' = o)) as [-> |].
  - destruct (objs p !! o) as [x |] eqn:E.
    + rewrite decide_True; [done |]. split; [done | by eapply lookup_lt_Some].
    + rewrite decide_False; [done |]. intros [_ H]. apply lookup_ge_None in E. lia.
  - rewrite decide_False; [done |]. by intros [].
Qed.
Lemma setOpen_live p o b o' : live (setOpen p o b) o' = live p o'.
Proof. unfold live, getState, setOpen. rewrite obj_upd. case_decide; [by destruct (objs p !! o') | done]. Qed.
Lemma setStreams_open p o n o' : is_open (setStreamsOf p o n) o' = is_open p o'.
Proof. unfold is_open, setStreamsOf. rewrite obj_upd. case_decide; [by destruct (objs p !! o') | done]. Qed.
Lemma setStreams_live p o n o' : live (setStreamsOf p o n) o' = live p o'.
Proof. unfold live, getState, setStreamsOf. rewrite obj_upd. case_decide; [by destruct (objs p !! o') | done]. Qed.
Lemma setSticky_open p o b o' : is_open (setSticky p o b) o' = is_open p o'.
Proof. unfold is_open, setSticky. rewrite obj_upd. case_decide; [by destruct (objs p !! o') | done]. Qed.
Lemma setSticky_live p o b o' : live (setSticky p o b) o' = live p o'.
Proof. unfold live, getState, setSticky. rewrite obj_upd. case_decide; [by destruct (objs p !! o') | done]. Qed.
Lemma upd_len f p o : length (objs (upd_obj f p o)) = length (objs p).
Proof. cbn. apply length_alter. Qed.

Lemma install_open p idx o : is_open (install p idx) o = is_open p o.
Proof.
  unfold is_open. cbn. destruct (decide (o < length (objs p))%nat); [by rewrite lookup_app_l |].
  rewrite (lookup_ge_None_2 (objs p)) by lia. rewrite lookup_app_r by lia. by destruct (o - length (objs p))%nat.
Qed.
Lemma install_live p idx o : live p o = true → live (install p idx) o = true.
Proof.
  unfold live, getState. cbn. destruct (objs p !! o) as [x |] eqn:E; [| done]. by rewrite (lookup_app_l_Some _ _ _ _ E).
Qed.
Lemma install_len p idx : length (objs (install p idx)) = S (length (objs p)).
Proof. cbn. rewrite length_app. cbn. lia. Qed.
Lemma install_cell p idx :
  (idx < length (slotsOf p))%nat → cellAt (install p idx) idx = Some (length (objs p)).
Proof. intros H. unfold cellAt. cbn. by rewrite list_lookup_insert_eq. Qed.
Lemma write_cell_ne p idx c idx' : idx' ≠ idx → cellAt (storeSlot p idx c) idx' = cellAt p idx'.
Proof. intros H. unfold cellAt. cbn. by rewrite list_lookup_insert_ne. Qed.
Lemma free_write p idx c o : cellAt p idx = None → in_cell p o → in_cell (storeSlot p idx c) o.
Proof. intros Hn [i Hi]. exists i. rewrite write_cell_ne; [done |]. congruence. Qed.

Lemma install_in_cell p idx o : in_cell (install p idx) o → in_cell p o ∨ (o < S (length (objs p)))%nat.
Proof.
  intros [j Hj]. unfold cellAt in Hj. cbn in Hj. destruct (decide (j = idx)) as [-> |].
  - destruct (decide (idx < length (slotsOf p))%nat).
    + rewrite list_lookup_insert_eq in Hj by done. cbn in Hj. injection Hj as <-. right. lia.
    + rewrite list_insert_ge in Hj by lia. left. by exists idx.
  - rewrite list_lookup_insert_ne in Hj by done. left. by exists j.
Qed.

Lemma first_free_spec l i j : first_free l i = Some j → (i ≤ j)%nat ∧ l !! (j - i)%nat = Some None.
Proof.
  revert i. induction l as [| [o |] l IH]; intros i; cbn; [done | |].
  - intros [H1 H2]%IH. split; [lia |]. by replace (j - i)%nat with (S (j - S i)) by lia.
  - intros [= <-]. by rewrite Nat.sub_diag.
Qed.
Lemma claim_spec p i q : claimFreeSlot p = Some (i, q) → q = install p i ∧ cellAt p i = None.
Proof.
  unfold claimFreeSlot. destruct (first_free (slotsOf p) 0) as [j |] eqn:E; [| done]. intros [= <- <-]. split; [done |].
  apply first_free_spec in E as [_ E]. rewrite Nat.sub_0_r in E. unfold cellAt. by rewrite E.
Qed.

(** The data a step leaves behind, where it connects nothing. *)
Record calmer (p q : cells) : Prop := {
  q_gos : cgos q = cgos p;
  q_cell : ∀ o, in_cell p o → in_cell q o;
  q_open : ∀ o, is_open q o = true → is_open p o = true;
  q_live : ∀ o, live p o = true → live q o = true ∨ is_open q o = false;
  q_len : (length (objs p) ≤ length (objs q))%nat;
  q_valid : ∀ o, in_cell q o → in_cell p o ∨ (o < length (objs q))%nat;
}.
Lemma calmer_refl p : calmer p p.
Proof. by split; auto. Qed.
Lemma calmer_state p o st :
  (live p o = true → st = slotReady ∨ st = slotDraining ∨ is_open p o = false) → calmer p (setState p o st).
Proof.
  intros H. split; [done | done | intros o'; by rewrite setState_open | | by unfold setState; rewrite upd_len | auto].
  intros o' Hl. rewrite setState_open. unfold live at 1. rewrite setState_state. case_decide as E; [| by left].
  destruct E as [-> _]. destruct (H Hl) as [-> | [-> | ->]]; auto.
Qed.
Lemma calmer_install p i : cellAt p i = None → calmer p (install p i).
Proof.
  intros Hn. split; [done | | intros o; by rewrite install_open | | rewrite install_len; lia |].
  - intros o [j Hj]. exists j. unfold cellAt in *. cbn. rewrite list_lookup_insert_ne; [done |]. intros ->. congruence.
  - intros o Hl. left. by apply install_live.
  - intros o. rewrite install_len. apply install_in_cell.
Qed.
Lemma calmer_close p o : calmer p (setOpen p o false).
Proof.
  split; [done | done | | | by unfold setOpen; rewrite upd_len | auto].
  - intros o'. rewrite setOpen_open. by case_decide.
  - intros o'. rewrite setOpen_live. auto.
Qed.
Lemma calmer_draining p o : getState p o = slotReady → calmer p (setState p o slotDraining).
Proof. intros _. apply calmer_state. auto. Qed.
Lemma calmer_revert p o : calmer p (revert p o).
Proof. unfold revert. case_bool_decide; [apply calmer_state; auto | apply calmer_refl]. Qed.
Lemma calmer_mark p o : calmer p (markSticky p o).
Proof.
  unfold markSticky. destruct (objs p !! o); [| apply calmer_refl]. destruct (isSticky s); [apply calmer_refl |].
  split; [done | done | | | by cbn; rewrite length_alter | auto].
  - intros o' Ho. by rewrite <- (setSticky_open p o true).
  - intros o' Hl. left. by rewrite <- (setSticky_live p o true) in Hl.
Qed.
Lemma calmer_release p o : calmer p (releaseSticky p o).
Proof.
  unfold releaseSticky. destruct (sticky p o); [| apply calmer_refl].
  split; [done | done | | | by cbn; rewrite length_alter | auto].
  - intros o' Ho. by rewrite <- (setSticky_open p o false).
  - intros o' Hl. left. by rewrite <- (setSticky_live p o false) in Hl.
Qed.

Lemma moves_calmer p q p' g x :
  calmer p q → objs p' = objs q → slotsOf p' = slotsOf q → gos_step p p' g → at_go (λ y, dials y = None) p' g →
  cgos p !! g = Some x → closes x = None → lifts x = None → moves p p' g.
Proof.
  intros [Q1 Q2 Q3 Q4 Q5 Q6] Eo Es G Hy Hx Hc Hl.
  assert (∀ o, is_open p' o = is_open q o) as E1 by (intros; unfold is_open; by rewrite Eo).
  assert (∀ o, live p' o = live q o) as E2 by (intros; unfold live, getState; by rewrite Eo).
  assert (∀ o, in_cell q o → in_cell p' o) as E3 by (intros o [i Hi]; exists i; unfold cellAt in *; by rewrite Es).
  apply moves_plain; [done | done | | auto | intros o; rewrite E1; apply Q3 | | by rewrite Eo |].
  - intros z Hz. assert (z = x) as -> by congruence. done.
  - intros o Ho. rewrite E1, E2. destruct (Q4 o Ho); auto.
  - intros o [i Hi]. rewrite Eo. apply Q6. exists i. unfold cellAt in *. by rewrite <- Es.
Qed.
Ltac calm_move q Hx :=
  match goal with |- moves ?p _ _ => eapply (moves_calmer p q) end;
  [ first [apply calmer_refl | assumption | apply calmer_close | apply calmer_revert | apply calmer_mark | apply calmer_release]
  | try done | try done
  | first [by apply gos_goto | by apply gos_leave | by apply gos_back | (apply gos_goto || apply gos_leave); apply (q_gos _ q); assumption | idtac]
  | first [by apply at_goto | by apply at_leave | by apply at_back | idtac]
  | exact Hx | done | done].

(** A write that displaces what may be displaced. *)
Lemma displaced p p' g x idx c :
  placed p → displaceable p idx → cgos p !! g = Some x → closes x = None → gos_step p p' g →
  at_go (λ y, ∀ o, in_cell p o → dials y ≠ Some o) p' g → (∀ o, is_open p' o = true → is_open p o = true) →
  slotsOf p' = <[idx := c]> (slotsOf p) → ∀ o, in_cell p o →
  in_cell p' o ∨ (∀ g' x', cgos p' !! g' = Some x' → dials x' ≠ Some o) ∧ (is_open p' o = true → someone closes p' o).
Proof.
  intros P Hd Hx Hc [G1 G2] Hy Ho Es o [i Hi]. unfold displaceable in Hd.
  destruct (decide (i = idx)) as [-> | Hne].
  - right. rewrite Hi in Hd. destruct Hd as [Hnl Hnd]. split.
    + intros g' x' Hx'. destruct (decide (g' = g)) as [-> | Hg]; [apply (Hy x' Hx'); by exists idx |].
      destruct (G2 g' x' Hg Hx') as [Hp | ?]; [| congruence]. by apply (Hnd g' x' Hp).
    + intros Hop%Ho. destruct (c_state p P o Hop) as [(g1 & y & H1 & Hl) | [Hl | (g1 & y & H1 & Hcl)]].
      * destruct (Hnd g1 y H1). by apply lifts_dials.
      * congruence.
      * exists g1, y. split; [| done]. apply G1; [| done]. intros ->. congruence.
  - left. exists i. unfold cellAt in *. rewrite Es. by rewrite list_lookup_insert_ne.
Qed.

Lemma overwritable_displaceable p idx :
  cellIsOverwritable p (cellAt p idx) = true → undialled p idx → displaceable p idx.
Proof.
  unfold cellIsOverwritable, undialled, displaceable, live. destruct (cellAt p idx); [| done]. by destruct (getState p n).
Qed.

Lemma moves_install p g idx k :
  placed p → cgos p !! g = Some (CInstall idx k) → (idx < length (slotsOf p))%nat → displaceable p idx →
  moves p (goto (install p idx) g (CDialing idx (length (objs p)) k)) g.
Proof.
  intros P Hx Hi Hd. set (p' := goto _ g _). assert (gos_step p p' g) as G by (by apply gos_goto).
  assert (cgos p' !! g = Some (CDialing idx (length (objs p)) k)) as Hy by apply lookup_insert_eq.
  assert (∀ o, is_open p' o = true → is_open p o = true) as Hop.
  { intros o Ho. by rewrite <- (install_open p idx). }
  destruct G as [G1 G2]. split; [done | done | | | | | | | |].
  - intros x o H. assert (x = CInstall idx k) as -> by congruence. done.
  - intros x o H. assert (x = CInstall idx k) as -> by congruence. done.
  - intros y o H Hdy. assert (y = CDialing idx (length (objs p)) k) as -> by congruence. injection Hdy as <-.
    split_and!.
    + exists idx. by apply install_cell.
    + change (length (objs p) < length (objs (install p idx)))%nat. rewrite install_len. lia.
    + intros _. change (is_open (install p idx) (length (objs p)) = false). rewrite install_open. unfold is_open.
      by rewrite lookup_ge_None_2.
    + intros g' x' Hne Hx' Hdx. destruct (c_dial p P g' x' _ Hx' Hdx). lia.
  - eapply (displaced p p' g _ idx); try done.
    intros y Hy' o Ho Hdy. assert (y = CDialing idx (length (objs p)) k) as -> by congruence. injection Hdy as <-.
    apply (c_valid p P) in Ho. lia.
  - auto.
  - intros o Hl. left. by apply (install_live p idx).
  - change (length (objs p) ≤ length (objs (install p idx)))%nat. rewrite install_len. lia.
  - intros o Ho. change (length (objs p')) with (length (objs (install p idx))). rewrite install_len. by apply install_in_cell in Ho.
Qed.

Lemma moves_up p g idx o k :
  placed p → cgos p !! g = Some (CDialing idx o k) → moves p (goto (setOpen p o true) g (CUp idx o k)) g.
Proof.
  intros P Hx. destruct (c_dial p P g _ o Hx eq_refl) as [Hcell Hlen]. set (p' := goto _ g _).
  assert (cgos p' !! g = Some (CUp idx o k)) as Hy by apply lookup_insert_eq.
  destruct (gos_goto p (setOpen p o true) g (CUp idx o k) eq_refl) as [G1 G2]. fold p' in G1, G2.
  split; [done | done | | | | auto | | | |].
  - intros x o' H. assert (x = CDialing idx o k) as -> by congruence. done.
  - intros x o' H. assert (x = CDialing idx o k) as -> by congruence. done.
  - intros y o' H Hdy. assert (y = CUp idx o k) as -> by congruence. injection Hdy as <-. split_and!; [done | | done |].
    + change (o < length (objs (setOpen p o true)))%nat. unfold setOpen. by rewrite upd_len.
    + intros g' x' Hne Hx' Hdx. apply Hne. by eapply (c_one p P g' g).
  - intros o' Ho. change (is_open (setOpen p o true) o' = true) in Ho. rewrite setOpen_open in Ho. case_decide as E; [| by left].
    destruct E as [-> _]. right. split; [done |]. eexists. done.
  - intros o' Hl. left. change (live (setOpen p o true) o' = true). by rewrite setOpen_live.
  - change (length (objs p) ≤ length (objs (setOpen p o true)))%nat. unfold setOpen. by rewrite upd_len.
  - auto.
Qed.

Lemma moves_ready p g idx o k : placed p → cgos p !! g = Some (CUp idx o k) → moves p (leave (setState p o slotReady) g) g.
Proof.
  intros P Hx. destruct (c_dial p P g _ o Hx eq_refl) as [Hcell Hlen]. set (p' := leave _ g).
  destruct (calmer_state p o slotReady ltac:(auto)) as [_ Q2 Q3 Q4 Q5 Q6].
  destruct (gos_leave p (setState p o slotReady) g eq_refl) as [G1 G2]. fold p' in G1, G2.
  split; [done | done | | | | | | | done | done].
  - intros x o' H. assert (x = CUp idx o k) as -> by congruence. done.
  - intros x o' H Hl. assert (x = CUp idx o k) as -> by congruence. injection Hl as <-. right. left.
    change (live (setState p o slotReady) o = true). unfold live. by rewrite setState_state, decide_True.
  - intros y o' H. unfold p' in H. cbn in H. by rewrite lookup_delete_eq in H.
  - auto.
  - intros o' Ho. left. by apply Q3.
  - intros o' Hl. destruct (Q4 o' Hl); auto.
Qed.

Lemma moves_marked p g idx o c k :
  cgos p !! g = Some (HSlot idx o c k) → moves p (goto (setState p o slotDead) g (HDead idx o c k)) g.
Proof.
  intros Hx. set (p' := goto _ g _). assert (cgos p' !! g = Some (HDead idx o c k)) as Hy by apply lookup_insert_eq.
  apply moves_plain; [by apply gos_goto | by apply at_goto | | done | | | | auto].
  - intros x H. by assert (x = HSlot idx o c k) as -> by congruence.
  - intros o' Ho. by rewrite <- (setState_open p o slotDead).
  - intros o' Hl. change (live p' o') with (live (setState p o slotDead) o'). unfold live at 1. rewrite setState_state.
    case_decide as E; [| by left]. destruct E as [-> _]. right. right. eexists g, _. done.
  - change (length (objs p) ≤ length (objs (setState p o slotDead)))%nat. unfold setState. by rewrite upd_len.
Qed.

Lemma moves_closed p g idx o c k :
  cgos p !! g = Some (HDead idx o c k) → moves p (goto (setOpen (setStreamsOf p o 0) o false) g (HClosed idx c k)) g.
Proof.
  intros Hx. set (q := setStreamsOf p o 0). set (p' := goto _ g _).
  assert (∀ o', is_open p' o' = if decide (o' = o ∧ (o < length (objs p))%nat) then false else is_open p o') as Eo.
  { intros o'. change (is_open p' o') with (is_open (setOpen q o false) o'). rewrite setOpen_open. unfold q, setStreamsOf.
    rewrite upd_len. fold (setStreamsOf p o 0). by rewrite setStreams_open. }
  destruct (gos_goto p (setOpen q o false) g (HClosed idx c k) eq_refl) as [G1 G2]. fold p' in G1, G2.
  split; [done | done | | | | auto | | | | auto].
  - intros x o' H Hc. assert (x = HDead idx o c k) as -> by congruence. injection Hc as <-. left. rewrite Eo.
    destruct (decide (o = o ∧ (o < length (objs p))%nat)) as [E | E]; [reflexivity |]. unfold is_open. rewrite lookup_ge_None_2; [done |].
    destruct (decide (o < length (objs p))%nat); [by destruct E | lia].
  - intros x o' H. assert (x = HDead idx o c k) as -> by congruence. done.
  - intros y o' H. unfold p' in H. cbn in H. rewrite lookup_insert_eq in H. by injection H as <-.
  - intros o'. rewrite Eo. destruct (decide (o' = o ∧ (o < length (objs p))%nat)); [done | by left].
  - intros o' Hl. left. change (live (setOpen q o false) o' = true). unfold q. by rewrite setOpen_live, setStreams_live.
  - change (length (objs p) ≤ length (objs (setOpen q o false)))%nat. unfold setOpen. rewrite upd_len. unfold q, setStreamsOf. by rewrite upd_len.
Qed.

(** A cell is emptied. *)
Lemma moves_emptied p p' g x idx :
  placed p → displaceable p idx → cgos p !! g = Some x → closes x = None → lifts x = None → gos_step p p' g →
  at_go (λ y, dials y = None) p' g → objs p' = objs p → slotsOf p' = <[idx := None]> (slotsOf p) → moves p p' g.
Proof.
  intros P Hd Hx Hc Hl G Hy Eo Es.
  assert (∀ o, is_open p' o = is_open p o) as E1 by (intros; unfold is_open; by rewrite Eo).
  assert (∀ o, live p' o = live p o) as E2 by (intros; unfold live, getState; by rewrite Eo).
  pose proof G as [G1 G2]. split; [done | done | | | | | | | |].
  - intros z o H. assert (z = x) as -> by congruence. congruence.
  - intros z o H. assert (z = x) as -> by congruence. congruence.
  - intros y o H. by rewrite (Hy y H).
  - eapply (displaced p p' g x idx None); try done; [| intros o; by rewrite E1]. intros y H o _. by rewrite (Hy y H).
  - intros o. rewrite E1. by left.
  - intros o. rewrite E2. by left.
  - by rewrite Eo.
  - intros o [j Hj]. left. unfold cellAt in Hj. rewrite Es in Hj. destruct (decide (j = idx)) as [-> |].
    + destruct (decide (idx < length (slotsOf p))%nat); [by rewrite list_lookup_insert_eq in Hj |].
      rewrite list_insert_ge in Hj by lia. by exists idx.
    + rewrite list_lookup_insert_ne in Hj by done. by exists j.
Qed.

Lemma moves_failed p g idx o k :
  placed p → cgos p !! g = Some (CDialing idx o k) → moves p (connect_failed (setState p o slotDead) g idx k) g.
Proof.
  intros P Hx. pose proof (c_dialing p P g idx o k Hx) as Ho.
  assert (calmer p (setState p o slotDead)) as Q by (apply calmer_state; auto). destruct k; cbn [connect_failed]; calm_move (setState p o slotDead) Hx.
Qed.

Lemma moves_commit p q g new x idx o n i :
  claimFreeSlot p = Some (i, q) → cgos p !! g = Some x → closes x = None → lifts x = None → cgos p !! new = None →
  moves p (commit q g new idx o n i) g.
Proof.
  intros Hc Hx Hcl Hl Hn. apply claim_spec in Hc as [-> Hf]. assert (g ≠ new) by congruence.
  eapply (moves_calmer p (install p i) _ g x); [by apply calmer_install | done | done | by apply gos_commit | | done | done | done].
  unfold commit. apply at_spawn; [by apply at_goto | done].
Qed.

Lemma moves_cgo_on p g ok new x :
  placed p → cgos p !! g = Some x → cgos p !! new = None → gentle p (OStep g ok new) →
  cgo_on p g ok new x = p ∨ moves p (cgo_on p g ok new x) g.
Proof.
  intros P Hx Hn Hg. cbn [gentle] in Hg. rewrite Hx in Hg. assert (g ≠ new) as Hne by congruence.
  destruct x as [idx k | idx o k | idx o k | idx | idx r | idx r | idx c k | idx o c k | idx o c k | idx c k | idx o | idx o n | idx o n
    | idx o n | idx o n | idx o n snap i | idx o n snap i v | idx o n | idx o n | o n | n | idx o n | idx o n | o n | idx o | idx o]; cgo_cbn.
  22: by left.
  1: destruct (Nat.leb_spec (length (slotsOf p)) idx); [by left |].
  all: right.
  - destruct (cellIsOverwritable _ _) eqn:Hov; [apply moves_install; auto using overwritable_displaceable |]. destruct k; cbn [connect_occupied]; calm_move p Hx.
  - destruct ok; [by apply moves_up | by apply moves_failed].
  - by eapply moves_ready.
  - assert (moves p (goto p g (LWait idx 0)) g) as Hm by calm_move p Hx.
    destruct (cellAt p idx) as [o |] eqn:Hc; [| done]. case_bool_decide as Hs; [done |].
    eapply (moves_emptied p _ g _ idx P); try done; [| by apply gos_goto | by apply at_goto]. apply Hg. cbn. by apply bool_decide_eq_false.
  - destruct (cellAt p idx); [case_bool_decide |]; calm_move p Hx.
  - destruct (_ <=? _)%nat; [calm_move p Hx |]. destruct (claimFreeCellForHealing p); calm_move p Hx.
  - destruct (cellAt p idx); [calm_move p Hx |]. calm_move p Hx; by destruct k.
  - unfold tryMarkDead. case_bool_decide; [calm_move p Hx; by destruct k | by apply moves_marked].
  - by apply moves_closed.
  - assert (moves p (goto (go_back p g k) new (LWait idx 0)) g) as Hs.
    { eapply (moves_calmer p p _ g _ (calmer_refl p)); [by destruct k | by destruct k | | | exact Hx | done | done].
      - apply gos_spawn; [by apply gos_back | done | done | done].
      - apply at_spawn; [by apply at_back | done]. }
    destruct c; try done. eapply (moves_emptied p _ g _ idx P); try done; [by apply gos_back | by apply at_back | by destruct k | by destruct k].
  - calm_move p Hx.
  - destruct (_ <? _); calm_move p Hx.
  - destruct (_ <? _); calm_move p Hx.
  - unfold tryMarkDraining. case_bool_decide as Hr; [| calm_move p Hx].
    pose proof (calmer_draining p o Hr). calm_move (setState p o slotDraining) Hx.
  - destruct (claimFreeSlot p) as [[i q] |] eqn:Hc; [by eapply moves_commit | calm_move p Hx].
  - destruct (idle_from p idx snap 0 i) as [[j v] |]; [| calm_move p Hx].
    assert (calmer p (setState p v slotDraining)) by (apply calmer_state; auto). calm_move (setState p v slotDraining) Hx.
  - destruct (_ =? _); [calm_move p Hx |]. pose proof (calmer_revert p v). calm_move (revert p v) Hx.
  - destruct ok; [| calm_move p Hx]. destruct (fewest _ _ _ _ _ _) as [[j v] |]; [| calm_move p Hx].
    assert (calmer p (setState p v slotDraining)) by (apply calmer_state; auto). calm_move (setState p v slotDraining) Hx.
  - destruct (claimFreeSlot p) as [[i q] |] eqn:Hc; [by eapply moves_commit | calm_move p Hx].
  - pose proof (calmer_revert p o). calm_move (revert p o) Hx.
  - calm_move p Hx.
  - pose proof (calmer_mark p o). calm_move (markSticky p o) Hx.
  - pose proof (calmer_release p o). calm_move (releaseSticky p o) Hx.
  - assert (calmer p (setState p o slotDraining)) by (apply calmer_state; auto). calm_move (setState p o slotDraining) Hx.
  - calm_move (setOpen p o false) Hx.
Qed.

Lemma moves_start p g y : cgos p !! g = None → dials y = None → moves p (goto p g y) g.
Proof.
  intros Hg Hd. apply moves_plain; [by apply gos_goto | by apply at_goto | | done | done | auto | done | auto].
  intros x Hx. congruence.
Qed.

Lemma placed_cstep p o : placed p → gentle p o → placed (cstep p o).
Proof.
  intros P G. destruct o as [g idx | g idx c | g idx | g idx | g ok new | g b1 b2 b3 b4 b5 b6 b7 | g | o n]; cbn [cstep].
  - destruct (is_free p g) eqn:Hf; [| done]. apply is_free_none in Hf. by eapply placed_moves, moves_start.
  - destruct (is_free p g) eqn:Hf; [| done]. apply is_free_none in Hf. by eapply placed_moves, moves_start.
  - destruct (is_free p g) eqn:Hf; [| done]. apply is_free_none in Hf. destruct (cellAt p idx); [by eapply placed_moves, moves_start | done].
  - destruct (is_free p g) eqn:Hf; [| done]. apply is_free_none in Hf. destruct (cellAt p idx); [by eapply placed_moves, moves_start | done].
  - destruct (cgos p !! g) as [x |] eqn:Hx; [| done]. destruct (is_free p new) eqn:Hf; [| done]. apply is_free_none in Hf.
    destruct (moves_cgo_on p g ok new x P Hx Hf G) as [-> | Hm]; [done | by eapply placed_moves].
  - destruct (cgos p !! g) as [x |] eqn:Hx; [| done]. destruct x; try done.
    destruct (drainWatchdog _ _ _ _ _ _ _ _ _) as [[] |]; [| | done]; (eapply placed_moves; [exact P |]; calm_move p Hx).
  - destruct (cgos p !! g) as [x |] eqn:Hx; [| done]. destruct x; try done. eapply placed_moves; [exact P |]. calm_move p Hx.
  - set (g := fresh (dom (cgos p))). assert (cgos p !! g = None) as Hg by (apply not_elem_of_dom, is_fresh).
    apply (placed_moves p _ g P). apply moves_plain.
    + by split; auto.
    + intros y Hy. change (cgos p !! g = Some y) in Hy. congruence.
    + intros y Hy. congruence.
    + done.
    + intros o'. by rewrite setStreams_open.
    + intros o'. rewrite setStreams_live. auto.
    + unfold setStreamsOf. by rewrite upd_len.
    + auto.
Qed.
Lemma placed_crun os p : placed p → gentle_run p os → placed (crun p os).
Proof. revert p. induction os as [| o os IH]; intros p P G; [done |]. destruct G as [G1 G2]. apply IH; [by apply placed_cstep | done]. Qed.
Lemma placed_new size raw sm : placed (newCells size raw sm).
Proof.
  split; cbn; try (intros *; by rewrite ?lookup_empty).
  intros o [i Hi]. unfold cellAt in Hi. cbn in Hi. destruct (replicate _ None !! i) as [c |] eqn:E; [| done].
    apply lookup_replicate in E as [-> _]. done.
Qed.

(** If a connect does not overwrite a slot that is being connected, and the end of
    a drain and a failed reserve empty only cells whose slot neither serves nor is being
    connected, then in any interleaving no connection is ever lost: every open connection
    is in a cell, where readers, writers and teardowns find it, or a goroutine is about
    to close it; and one in a cell serves, is coming up, or is being closed. *)
Theorem connections_never_orphaned size raw stickyMax os :
  gentle_run (newCells size raw stickyMax) os →
  let p := crun (newCells size raw stickyMax) os in
  ∀ o, is_open p o = true →
    (in_cell p o ∨ someone closes p o) ∧ (live p o = true ∨ someone lifts p o ∨ someone closes p o).
Proof.
  intros G p o Ho. assert (placed p) as P by (apply placed_crun; [apply placed_new | done]). split; [by apply (c_open p P) |].
  destruct (c_state p P o Ho) as [? | [? | ?]]; auto.
Qed.

(** ** Runs *)

Definition go_steps (g n : nat) : list cop := replicate n (OStep g true (100 + g)).
(** A pool of two; slots 0 and 1 are connected. *)
Definition up2 : list cop := [OConnect 1 0; OConnect 2 1] ++ go_steps 1 3 ++ go_steps 2 3.
(** A drain of slot 0 up to its watchdog, with its replacement connected in cell 2. *)
Definition draining0 : list cop := up2 ++ [ODrain 3 0] ++ go_steps 3 5 ++ go_steps 103 3.
Definition pool2 : cells := newCells 2 1 0.

Lemma connections_never_orphaned_witness :
  gentle_run pool2 (draining0 ++ [OTick 3 false false false false false false false] ++ go_steps 3 5)
  ∧ is_open (crun pool2 draining0) 3 = true ∧ in_cell (crun pool2 draining0) 3.
Proof.
  assert (gentle_run pool2 draining0) as G by (apply (bool_decide_unpack _); vm_compute; exact I).
  assert (is_open (crun pool2 draining0) 3 = true) as Ho by (vm_compute; reflexivity).
  split; [apply (bool_decide_unpack _); vm_compute; exact I |]. split; [exact Ho |].
  destruct (connections_never_orphaned 2 1 0 draining0 G 3 Ho) as [[H | (g & x & Hg & Hc)] _]; [exact H |].
  exists 2%nat. vm_compute. reflexivity.
Defined.

(** An object that is connected and serving, and in no cell. *)
Definition orphan (p : cells) (o : nat) : bool :=
  is_open p o && live p o && bool_decide (Forall (λ c, c ≠ Some o) (slotsOf p)).

(** The watchdog of a drain tears down by index.  When its slot is cut while it drains,
    the reconnect puts a new slot in the cell, and the watchdog, which sees that its
    own slot has no streams, marks the new slot dead, closes it and empties the cell. *)
Lemma watchdog_kills_replacement :
  let cut := draining0 ++ [ODeath 4 0 deathCauseAgeCut] ++ go_steps 4 4 ++ go_steps 104 5 in
  let p := crun pool2 (cut ++ [OTick 3 false false false false false false false] ++ go_steps 3 4) in
  cellAt (crun pool2 cut) 0 = Some 4%nat ∧ live (crun pool2 cut) 4 = true
  ∧ cellAt p 0 = None ∧ getState p 4 = slotDead ∧ is_open p 4 = false.
Proof. vm_compute. split_and!; reflexivity. Qed.

(** If the new slot is still connecting, it comes up outside every cell. *)
Lemma watchdog_orphans_replacement :
  let cut := draining0 ++ [ODeath 4 0 deathCauseAgeCut] ++ go_steps 4 4 ++ go_steps 104 2 in
  orphan (crun pool2 (cut ++ [OTick 3 false false false false false false false] ++ go_steps 3 4 ++ go_steps 104 3)) 4 = true.
Proof. vm_compute. reflexivity. Qed.

(** A network change kills slots that are still connecting: [connectSlot] then marks the
    dead slot ready, while the reconnect has put another in its cell. *)
Lemma network_change_orphans_connection :
  orphan (crun pool2 ([OConnect 1 0] ++ go_steps 1 1 ++ [ODeath 4 0 deathCauseNetworkChange] ++ go_steps 4 4
                      ++ go_steps 104 2 ++ go_steps 1 2)) 0 = true.
Proof. vm_compute. reflexivity. Qed.

(** A connecting slot is taken for the placeholder of a claim, and overwritten while
    its connection is being made: here by a reconnect loop that checked the cell
    before a drain claimed it. *)
Lemma connecting_slot_overwritten :
  let up4 := [OConnect 1 0; OConnect 2 1; OConnect 3 2; OConnect 4 3] ++ go_steps 1 3 ++ go_steps 2 3 ++ go_steps 3 3 ++ go_steps 4 3 in
  let race := [ODrain 5 0] ++ go_steps 5 5 ++ go_steps 105 1 ++ [OStep 105 false 200] ++ go_steps 105 2
              ++ [ODrain 6 1] ++ go_steps 6 5 ++ go_steps 106 1 ++ go_steps 105 1 ++ go_steps 106 2 in
  orphan (crun (newCells 4 3 0) (up4 ++ race)) 7 = true.
Proof. vm_compute. reflexivity. Qed.

(** The legacy rotation marks its slot draining and closes it; [connectSlot] then always
    finds the cell taken, and the cell stays with a closed draining slot. *)
Lemma legacy_rotation_leaks_cell :
  let p := crun pool2 (up2 ++ [OLegacy 3 0] ++ go_steps 3 9) in
  cgos p = ∅ ∧ cellAt p 0 = Some 0%nat ∧ getState p 0 = slotDraining ∧ is_open p 0 = false.
Proof. vm_compute. split_and!; reflexivity. Qed.
