(* ===== verification/BypassRoute.v ===== *)
(** * Which connections bypass the tunnel ([client/bypassroute])

    The binary trie of IPv4 prefixes, the reserved ranges, the include/exclude
    pair built from the embedded list and the administrator's override, and the
    decision of [BypassDialer].  An address is its number. *)

From S2P Require Import Prelude.
From stdpp Require Import base list gmap.

#[local] Open Scope Z_scope.

(** ** Addresses ([netip.Addr], without zones) *)

Inductive Addr := AddrNone | Addr4 (a : Z) | Addr6 (a : Z).
#[global] Instance Addr_eq_dec : EqDecision Addr.
Proof. solve_decision. Defined.

Definition IsValid (x : Addr) : bool := match x with AddrNone => false | _ => true end.
Definition Is4 (x : Addr) : bool := match x with Addr4 _ => true | _ => false end.
Definition Is4In6 (x : Addr) : bool := match x with Addr6 a => Z.shiftr a 32 =? 65535 | _ => false end.
Definition Is6 (x : Addr) : bool := match x with Addr6 _ => true | _ => false end.
Definition Unmap (x : Addr) : Addr :=
  match x with Addr6 a => if Is4In6 x then Addr4 (Z.land a (2 ^ 32 - 1)) else x | _ => x end.

Definition addr_wf (x : Addr) : Prop :=
  match x with AddrNone => True | Addr4 a => 0 ≤ a < 2 ^ 32 | Addr6 a => 0 ≤ a < 2 ^ 128 end.

Record Prefix := mkPrefix { pf_addr : Addr; pf_bits : Z }.
#[global] Instance Prefix_eq_dec : EqDecision Prefix.
Proof. solve_decision. Defined.

(** [Prefix.Contains] for addresses of the same family. *)
Definition contains (p : Prefix) (x : Addr) : bool :=
  match pf_addr p, x with
  | Addr4 a, Addr4 b => Z.shiftr a (32 - pf_bits p) =? Z.shiftr b (32 - pf_bits p)
  | Addr6 a, Addr6 b => Z.shiftr a (128 - pf_bits p) =? Z.shiftr b (128 - pf_bits p)
  | _, _ => false
  end.

(** ** The trie *)

Inductive node := Leaf0 | Node (leaf : bool) (child0 child1 : node).    (* [Leaf0] is nil *)

Record Trie := mkTrie { root : node; size_ : Z }.

Definition New : Trie := mkTrie (Node false Leaf0 Leaf0) 0.

(** [bitAt], on the four bytes of an address *)
Definition bitAt (addr : bytes) (i : nat) : bool :=
  Z.land (Z.shiftr (default 0 (addr !! (i / 8)%nat)) (7 - Z.of_nat (i mod 8))) 1 =? 1.

(** The walk of [Insert] from a node, creating what is missing; whether the
    prefix was new. *)
Fixpoint insert_at (bits : list bool) (n : node) : node * bool :=
  match bits with
  | [] =>
    match n with
    | Leaf0 => (Node true Leaf0 Leaf0, true)
    | Node l c0 c1 => (Node true c0 c1, negb l)
    end
  | b :: bits' =>
    let '(l, c0, c1) := match n with Leaf0 => (false, Leaf0, Leaf0) | Node l c0 c1 => (l, c0, c1) end in
    if b then let '(c, new) := insert_at bits' c1 in (Node l c0 c, new)
    else let '(c, new) := insert_at bits' c0 in (Node l c c1, new)
  end.

Definition addr_bytes (a : Z) : bytes := be_bytes 4 a.
Definition path (a : Z) (n : nat) : list bool := bitAt (addr_bytes a) <$> seq 0 n.

Definition Insert (t : Trie) (p : Prefix) : Trie :=
  match pf_addr p with
  | Addr4 a =>
    if (pf_bits p <? 0) || (32 <? pf_bits p) then t else
    let '(r, new) := insert_at (path a (Z.to_nat (pf_bits p))) (root t) in
    mkTrie r (if new then size_ t + 1 else size_ t)
  | _ => t
  end.

(** The loop of [Match] below a node that is not a leaf. *)
Fixpoint match_below (bits : list bool) (n : node) : bool :=
  match bits, n with
  | b :: bits', Node _ c0 c1 =>
    match (if b then c1 else c0) with
    | Leaf0 => false
    | Node l _ _ as next => if l then true else match_below bits' next
    end
  | _, _ => false
  end.

Definition Match (t : Trie) (ip : Addr) : bool :=
  match ip with
  | Addr4 a =>
    match root t with
    | Node true _ _ => true
    | r => match_below (path a 32) r
    end
  | _ => false
  end.

(** ** The include/exclude pair *)

Record Resolved := mkResolved { include : option Trie; exclude : option Trie; prefixes : list Prefix }.

Definition ResolvedMatch (r : Resolved) (ip : Addr) : bool :=
  match include r with
  | None => false
  | Some t =>
    if negb (Match t ip) then false
    else match exclude r with Some e => negb (Match e ip) | None => true end
  end.

Record AdminOverride := mkOverride { Adds : list Prefix; Excludes : list Prefix }.

(** [Load]; [embedded] is what [loadEmbedded] and the extra list gave, if asked for. *)
Definition Load (embedded : option (list Prefix * list Prefix)) (override : option AdminOverride) : Resolved :=
  let wanted := match embedded with Some (ripe, extra) => ripe ++ extra | None => [] end
                ++ match override with Some o => Adds o | None => [] end in
  let v4 := filter (λ p, Is4 (pf_addr p) = true) wanted in
  let excl := match override with Some o => Excludes o | None => [] end in
  mkResolved (Some (foldl Insert New v4)) (Some (foldl Insert New excl)) v4.

(** [SnapshotPrefixes] *)
Fixpoint snapshot_loop (r : Resolved) (ps : list Prefix) (seen : list Prefix) : list Prefix :=
  match ps with
  | [] => []
  | p :: ps' =>
    if match exclude r with Some e => Match e (pf_addr p) | None => false end then snapshot_loop r ps' seen else
    if bool_decide (p ∈ seen) then snapshot_loop r ps' seen
    else p :: snapshot_loop r ps' (p :: seen)
  end.
Definition SnapshotPrefixes (r : Resolved) : list Prefix := snapshot_loop r (prefixes r) [].

(** ** Reserved ranges *)

Record reservedRange := mkRange { rr_prefix : Prefix; rr_drop : bool }.

Definition ipv4 (a b c d : Z) : Z := ((a * 256 + b) * 256 + c) * 256 + d.
Definition cidr4 (a b c d bits : Z) (drop : bool) : reservedRange := mkRange (mkPrefix (Addr4 (ipv4 a b c d)) bits) drop.
Definition cidr6 (hi : Z) (bits : Z) (drop : bool) : reservedRange := mkRange (mkPrefix (Addr6 hi) bits) drop.

Definition reservedRanges : list reservedRange :=
  [cidr4 0 0 0 0 8 true; cidr4 10 0 0 0 8 false; cidr4 127 0 0 0 8 true; cidr4 169 254 0 0 16 true;
   cidr4 172 16 0 0 12 false; cidr4 192 168 0 0 16 false; cidr4 224 0 0 0 4 true; cidr4 240 0 0 0 4 true].

Definition reservedRangesV6 : list reservedRange :=
  [cidr6 1 128 true; cidr6 0 128 true; cidr6 (Z.shiftl 0xfe80 112) 10 true; cidr6 (Z.shiftl 0xff00 112) 8 true;
   cidr6 (Z.shiftl 0xfd00 112 + Z.shiftl 0x0ec2 96 + 0x254) 128 true; cidr6 (Z.shiftl 0xfc00 112) 7 false].

Definition reservedTrie : Trie := foldl Insert New (rr_prefix <$> reservedRanges).
Definition unreachableTrie : Trie := foldl Insert New (rr_prefix <$> filter (λ r, rr_drop r = true) reservedRanges).

Definition isReservedIPv4 (x : Addr) : bool := if negb (Is4 x) then false else Match reservedTrie x.
Definition isUnreachableReserved (x : Addr) : bool := if negb (Is4 x) then false else Match unreachableTrie x.
Definition isReservedIPv6 (x : Addr) : bool :=
  if negb (Is6 x) || Is4In6 x then false else existsb (λ r, contains (rr_prefix r) x) reservedRangesV6.
Definition isUnreachableReservedIPv6 (x : Addr) : bool :=
  if negb (Is6 x) || Is4In6 x then false else existsb (λ r, contains (rr_prefix r) x) (filter (λ r, rr_drop r = true) reservedRangesV6).

(** ** The decision *)

Definition dohResolverAddrs : list Addr := [Addr4 (ipv4 1 1 1 1); Addr4 (ipv4 94 140 14 140)].
Definition isPinnedDoHResolver (x : Addr) : bool := existsb (λ a, bool_decide (x = a)) dohResolverAddrs.

Inductive route := routeTunnel | routeDirect | routeDrop.

(** [BypassDialer.route]; [None] is a dial without metadata. *)
Definition routeOf (resolved : option Resolved) (m : option Addr) : route :=
  match m with
  | None => routeTunnel
  | Some addr =>
    if negb (IsValid addr) then routeTunnel else
    let addr := Unmap addr in
    if negb (Is4 addr) then
      if isUnreachableReservedIPv6 addr then routeDrop else
      if isReservedIPv6 addr then routeDirect else routeTunnel
    else
    if isUnreachableReserved addr then routeDrop else
    if isReservedIPv4 addr then routeDirect else
    if isPinnedDoHResolver addr then routeTunnel else
    match resolved with
    | None => routeTunnel
    | Some r => if ResolvedMatch r addr then routeDirect else routeTunnel
    end
  end.

(** ** The trie is the set of its prefixes *)

(** Whether some stored path is a prefix of [bits]. *)
Fixpoint covers (bits : list bool) (n : node) {struct n} : bool :=
  match n with
  | Leaf0 => false
  | Node l c0 c1 =>
    if l then true else
    match bits with
    | [] => false
    | b :: bits' => covers bits' (if b then c1 else c0)
    end
  end.

Lemma match_covers bits n : match n with Node false _ _ => match_below bits n = covers bits n | _ => True end.
Proof.
  revert n. induction bits as [| b bits IH]; intros n; destruct n as [| [] c0 c1]; cbn; try done.
  specialize (IH (if b then c1 else c0)). destruct (if b then c1 else c0) as [| [] d0 d1]; [done | done |]. exact IH.
Qed.

Lemma Match_covers t a : root t ≠ Leaf0 → Match t (Addr4 a) = covers (path a 32) (root t).
Proof.
  intros Hr. unfold Match. pose proof (match_covers (path a 32) (root t)) as H.
  destruct (root t) as [| [] c0 c1]; [done | done | exact H].
Qed.

Lemma covers_insert p bits n :
  covers bits (fst (insert_at p n)) = covers bits n || bool_decide (p `prefix_of` bits).
Proof.
  revert bits n. induction p as [| b p IH]; intros bits n.
  - cbn [insert_at]. rewrite (bool_decide_eq_true_2 ([] `prefix_of` bits)) by apply prefix_nil. rewrite orb_true_r. by destruct n.
  - cbn [insert_at]. set (d := match n with Leaf0 => _ | Node l c0 c1 => _ end).
    assert (∃ l c0 c1, d = (l, c0, c1) ∧ covers bits n = covers bits (Node l c0 c1)) as (l & c0 & c1 & -> & ->).
    { destruct n as [| l c0 c1]; [exists false, Leaf0, Leaf0; split; [done |]; destruct bits as [| [] bits]; done | by exists l, c0, c1]. }
    destruct bits as [| b' bits].
    { rewrite bool_decide_eq_false_2; [| by intros ?%prefix_nil_inv]. rewrite orb_false_r.
      destruct b; [destruct (insert_at p c1) | destruct (insert_at p c0)]; done. }
    assert (bool_decide (b :: p `prefix_of` b' :: bits) = bool_decide (b = b') && bool_decide (p `prefix_of` bits)) as ->.
    { rewrite <- bool_decide_and. apply bool_decide_ext. split; [intros H; split; [by eapply prefix_cons_inv_1 | by eapply prefix_cons_inv_2] |].
      intros [-> H]. by apply prefix_cons. }
    destruct b; [specialize (IH bits c1); destruct (insert_at p c1) as [c new] | specialize (IH bits c0); destruct (insert_at p c0) as [c new]];
      cbn [fst] in IH; cbn [fst covers]; destruct l, b'; rewrite ?IH; cbn; rewrite ?orb_false_r; done.
Qed.

(** The bits of the path are those of the number. *)
Lemma addr_byte a j : (j < 4)%nat → default 0 (addr_bytes a !! j) = Z.shiftr a (8 * (3 - Z.of_nat j)) mod 2 ^ 8.
Proof.
  intros Hj. unfold addr_bytes.
  assert (be_bytes 4 a = [Z.land (Z.shiftr a 24) 255; Z.land (Z.shiftr a 16) 255; Z.land (Z.shiftr a 8) 255; Z.land a 255]) as ->.
  { unfold be_bytes. cbn [app]. rewrite !Z.shiftr_shiftr by lia. done. }
  assert (∀ x, Z.land x 255 = x mod 2 ^ 8) as Hl by (intros x; change 255 with (Z.ones 8); by rewrite Z.land_ones).
  rewrite !Hl. destruct j as [| [| [| [|]]]]; [..| lia]; cbn [lookup list_lookup default]; try reflexivity.
Qed.

Lemma bitAt_testbit a i : (i < 32)%nat → bitAt (addr_bytes a) i = Z.testbit a (31 - Z.of_nat i).
Proof.
  intros Hi. unfold bitAt. assert (i / 8 < 4)%nat as Hj by (apply Nat.Div0.div_lt_upper_bound; lia).
  rewrite addr_byte by done. pose proof (Nat.div_mod_eq i 8) as He. pose proof (Nat.mod_upper_bound i 8 ltac:(lia)) as Hm.
  set (j := (i / 8)%nat) in *. set (k := (i mod 8)%nat) in *.
  rewrite Z.land_comm. change 1 with (Z.ones 1) at 1. rewrite Z.land_comm, Z.land_ones by lia.
  rewrite Z.pow_1_r, <- Z.bit0_mod, Z.shiftr_spec by lia. rewrite Z.add_0_l, Z.mod_pow2_bits_low by lia.
  rewrite Z.shiftr_spec by lia. replace (7 - Z.of_nat k + 8 * (3 - Z.of_nat j)) with (31 - Z.of_nat i) by lia.
  by destruct (Z.testbit a _).
Qed.

Lemma path_length a n : length (path a n) = n.
Proof. unfold path. by rewrite length_fmap, length_seq. Qed.

Lemma path_prefix a b n :
  0 ≤ a < 2 ^ 32 → 0 ≤ b < 2 ^ 32 → (n ≤ 32)%nat →
  path a n `prefix_of` path b 32 ↔ Z.shiftr a (32 - Z.of_nat n) = Z.shiftr b (32 - Z.of_nat n).
Proof.
  intros Ha Hb Hn.
  assert (∀ x i, (i < n)%nat → path x n !! i = Some (Z.testbit x (31 - Z.of_nat i))) as Hp.
  { intros x i Hi. unfold path. rewrite list_lookup_fmap, lookup_seq_lt by done. cbn. f_equal. apply bitAt_testbit. lia. }
  assert (path b 32 = path b n ++ (bitAt (addr_bytes b) <$> seq n (32 - n))) as ->.
  { unfold path. replace 32%nat with (n + (32 - n))%nat at 1 by lia. by rewrite seq_app, fmap_app. }
  transitivity (path a n = path b n).
  { split; [| intros ->; apply prefix_app_r; done]. intros [k Hk]. apply (f_equal (take n)) in Hk.
    rewrite !take_app_le, !take_ge in Hk by (by rewrite path_length). done. }
  split.
  - intros He. apply Z.bits_inj'. intros i Hi. rewrite !Z.shiftr_spec by lia.
    destruct (Z.lt_ge_cases (i + (32 - Z.of_nat n)) 32) as [Hlt | Hge].
    + pose proof (Hp a (Z.to_nat (31 - (i + (32 - Z.of_nat n)))) ltac:(lia)) as H1.
      pose proof (Hp b (Z.to_nat (31 - (i + (32 - Z.of_nat n)))) ltac:(lia)) as H2. rewrite He, H2 in H1. injection H1 as H1.
      rewrite Z2Nat.id in H1 by lia. replace (31 - (31 - (i + (32 - Z.of_nat n)))) with (i + (32 - Z.of_nat n)) in H1 by lia. done.
    + assert (∀ x, 0 ≤ x < 2 ^ 32 → Z.testbit x (i + (32 - Z.of_nat n)) = false) as Hz.
      { intros x Hx. rewrite <- (Z.mod_small x (2 ^ 32)) by done. by rewrite Z.mod_pow2_bits_high by lia. }
      by rewrite !Hz.
  - intros He. apply list_eq_same_length with n; rewrite ?path_length; try done. intros i x y Hi Hx Hy.
    rewrite Hp in Hx, Hy by done. injection Hx as <-. injection Hy as <-.
    apply (f_equal (λ z, Z.testbit z (Z.of_nat n - 1 - Z.of_nat i))) in He. rewrite !Z.shiftr_spec in He by lia.
    by replace (Z.of_nat n - 1 - Z.of_nat i + (32 - Z.of_nat n)) with (31 - Z.of_nat i) in He by lia.
Qed.

Definition prefix_wf (p : Prefix) : Prop := addr_wf (pf_addr p).
(** An IPv4 prefix with a length that makes sense. *)
Definition usable (p : Prefix) : bool := Is4 (pf_addr p) && (0 <=? pf_bits p) && (pf_bits p <=? 32).
Definition key (p : Prefix) : list bool := match pf_addr p with Addr4 a => path a (Z.to_nat (pf_bits p)) | _ => [] end.

Fixpoint stored (p : list bool) (n : node) : bool :=
  match p, n with
  | _, Leaf0 => false
  | [], Node l _ _ => l
  | b :: p', Node _ c0 c1 => stored p' (if b then c1 else c0)
  end.

Lemma insert_new p n : snd (insert_at p n) = negb (stored p n).
Proof.
  revert n. induction p as [| b p IH]; intros [| l c0 c1]; cbn [insert_at stored]; try done.
  - destruct b; specialize (IH Leaf0); destruct (insert_at p Leaf0); cbn in *; rewrite IH; by destruct p.
  - destruct b; [specialize (IH c1); destruct (insert_at p c1) | specialize (IH c0); destruct (insert_at p c0)]; exact IH.
Qed.

Lemma insert_stored p q n : stored q (fst (insert_at p n)) = stored q n || bool_decide (p = q).
Proof.
  revert q n. induction p as [| b p IH]; intros q n; cbn [insert_at].
  - destruct n as [| l c0 c1], q as [| b' q]; cbn; rewrite ?orb_true_r, ?orb_false_r; try done. by destruct b', q.
  - set (d := match n with Leaf0 => _ | Node l c0 c1 => _ end).
    assert (∃ l c0 c1, d = (l, c0, c1) ∧ stored q n = stored q (Node l c0 c1)) as (l & c0 & c1 & -> & ->).
    { destruct n as [| l c0 c1]; [exists false, Leaf0, Leaf0; split; [done |]; destruct q as [| [] [|]]; done | by exists l, c0, c1]. }
    destruct q as [| b' q].
    { rewrite bool_decide_eq_false_2 by done. rewrite orb_false_r. destruct b; [destruct (insert_at p c1) | destruct (insert_at p c0)]; done. }
    assert (bool_decide (b :: p = b' :: q) = bool_decide (b = b') && bool_decide (p = q)) as ->.
    { rewrite <- bool_decide_and. apply bool_decide_ext. split; [by intros [= -> ->] | by intros [-> ->]]. }
    destruct b; [specialize (IH q c1); destruct (insert_at p c1) as [c new] | specialize (IH q c0); destruct (insert_at p c0) as [c new]];
      cbn [fst] in IH; cbn [fst stored]; destruct b'; rewrite ?IH; cbn; rewrite ?orb_false_r; done.
Qed.

Definition keys (ps : list Prefix) : list (list bool) := key <$> filter (λ p, usable p = true) ps.

Lemma keys_snoc ps p : keys (ps ++ [p]) = keys ps ++ (if usable p then [key p] else []).
Proof. unfold keys. rewrite filter_app, fmap_app. f_equal. rewrite filter_cons, filter_nil. by destruct (usable p). Qed.

(** What the trie has become after inserting [ps]. *)
Record trie_of (ps : list Prefix) (t : Trie) : Prop := {
  to_root : root t ≠ Leaf0;
  to_covers a : 0 ≤ a < 2 ^ 32 → covers (path a 32) (root t) = existsb (λ p, usable p && contains p (Addr4 a)) ps;
  to_stored q : stored q (root t) = bool_decide (q ∈ keys ps);
  to_size : size_ t = Z.of_nat (size (list_to_set (keys ps) : gset (list bool)));
}.

Lemma insert_root p n : fst (insert_at p n) ≠ Leaf0.
Proof. destruct p as [| [] p], n as [| l c0 c1]; cbn; try done; by destruct (insert_at p _). Qed.

Lemma trie_of_insert ps t p : prefix_wf p → trie_of ps t → trie_of (ps ++ [p]) (Insert t p).
Proof.
  intros Hwf [Hr Hc Hs Hz]. destruct (usable p) eqn:Eu.
  - assert (∃ a, pf_addr p = Addr4 a) as [a Ea] by (unfold usable in Eu; destruct (pf_addr p); try done; by eexists).
    unfold prefix_wf in Hwf. rewrite Ea in Hwf. cbn in Hwf.
    assert (0 ≤ pf_bits p ≤ 32) as Hb.
    { unfold usable in Eu. apply andb_true_iff in Eu as [[_ H1]%andb_true_iff H2]. lia. }
    assert (Insert t p = (let '(r, new) := insert_at (key p) (root t) in mkTrie r (if new then size_ t + 1 else size_ t))) as ->.
    { unfold Insert, key. rewrite Ea. destruct (Z.ltb_spec (pf_bits p) 0); [lia |]. by destruct (Z.ltb_spec 32 (pf_bits p)); [lia |]. }
    pose proof (insert_new (key p) (root t)) as Hn. pose proof (insert_root (key p) (root t)) as Hr'.
    pose proof (covers_insert (key p)) as Hci. pose proof (insert_stored (key p)) as Hsi.
    specialize (λ bits, Hci bits (root t)) as Hci'. specialize (λ q, Hsi q (root t)) as Hsi'. clear Hci Hsi.
    destruct (insert_at (key p) (root t)) as [r new]. cbn [fst snd] in *.
    assert (keys (ps ++ [p]) = keys ps ++ [key p]) as Hk by (by rewrite keys_snoc, Eu).
    split; cbn [root size_].
    + done.
    + intros x Hx. rewrite Hci', Hc by done. rewrite existsb_app. cbn [existsb]. rewrite Eu, orb_false_r. cbn [andb]. f_equal.
      apply eq_true_iff_eq. rewrite bool_decide_eq_true. unfold key, contains. rewrite Ea, Z.eqb_eq.
      rewrite path_prefix by (done || lia). by rewrite Z2Nat.id by lia.
    + intros q. rewrite Hsi', Hs, <- bool_decide_or. apply bool_decide_ext. rewrite Hk, elem_of_app, list_elem_of_singleton. by split; (intros [?|?]; [by left | by right]).
    + rewrite Hk, list_to_set_app_L. cbn [list_to_set]. rewrite union_empty_r_L. rewrite Hn, Hs, Hz.
      case_bool_decide as Hin; cbn [negb].
      * f_equal. f_equal. set_solver.
      * rewrite size_union by set_solver. rewrite size_singleton. lia.
  - assert (Insert t p = t) as ->.
    { unfold Insert, usable in *. destruct (pf_addr p); try done. cbn [Is4 andb] in Eu.
      destruct (Z.ltb_spec (pf_bits p) 0), (Z.ltb_spec 32 (pf_bits p)), (Z.leb_spec 0 (pf_bits p)), (Z.leb_spec (pf_bits p) 32); done || lia. }
    split; [done | | |].
    + intros x Hx. rewrite existsb_app. cbn [existsb]. rewrite Eu. cbn [andb orb]. rewrite orb_false_r. by apply Hc.
    + intros q. rewrite Hs. apply bool_decide_ext. by rewrite keys_snoc, Eu, app_nil_r.
    + by rewrite keys_snoc, Eu, app_nil_r.
Qed.

Lemma trie_of_foldl ps : Forall prefix_wf ps → trie_of ps (foldl Insert New ps).
Proof.
  intros Hw. induction ps as [| p ps IH] using rev_ind.
  - split; [done | | | done].
    + intros a _. cbn [foldl New root covers existsb]. by destruct (path a 32) as [| [] l].
    + intros [| [] q]; [done | by destruct q ..].
  - apply Forall_app in Hw as [Hw [Hp _]%Forall_cons]. rewrite foldl_app. cbn [foldl]. apply trie_of_insert; [done |]. by apply IH.
Qed.

(** No usable prefix contains an address that is not IPv4. *)
Lemma scan_other ps x : Is4 x = false → existsb (λ p, usable p && contains p x) ps = false.
Proof.
  intros Hx. induction ps as [| p ps IH]; [done |]. cbn [existsb]. rewrite IH, orb_false_r.
  unfold usable, contains. by destruct (pf_addr p), x; rewrite ?andb_false_r, ?andb_false_l.
Qed.

Lemma Match_list ps x :
  Forall prefix_wf ps → addr_wf x → Match (foldl Insert New ps) x = existsb (λ p, usable p && contains p x) ps.
Proof.
  intros Hp Hx. destruct (trie_of_foldl ps Hp) as [Hr Hc _ _]. destruct x as [| a | a].
  - rewrite scan_other by done. done.
  - rewrite Match_covers by done. by apply Hc.
  - rewrite scan_other by done. done.
Qed.

(** C25: the trie is a set of prefixes.  For every list of prefixes, of either
    family and any length, looking an address up in the trie built by inserting
    them one by one gives what a scan of the list for an IPv4 prefix that
    contains it gives; and the reported size is the number of different ones. *)
Theorem trie_matches_list ps x :
  Forall prefix_wf ps → addr_wf x →
  Match (foldl Insert New ps) x = existsb (λ p, usable p && contains p x) ps
  ∧ size_ (foldl Insert New ps) = Z.of_nat (size (list_to_set (keys ps) : gset (list bool))).
Proof.
  intros Hp Hx. split; [| apply (trie_of_foldl ps Hp)]. by apply Match_list.
Qed.

(** ** The decision, against the lists it was built from *)

(** Some range of the given kind contains the address. *)
Definition reserved (drop : bool) (x : Addr) : bool :=
  existsb (λ r, Bool.eqb (rr_drop r) drop && contains (rr_prefix r) x) (reservedRanges ++ reservedRangesV6).

(** Some IPv4 prefix of the list contains the address. *)
Definition listed (ps : list Prefix) (x : Addr) : bool := existsb (λ p, usable p && contains p x) ps.

Definition wanted (embedded : option (list Prefix * list Prefix)) (override : option AdminOverride) : list Prefix :=
  match embedded with Some (ripe, extra) => ripe ++ extra | None => [] end
  ++ match override with Some o => Adds o | None => [] end.
Definition excluded (override : option AdminOverride) : list Prefix :=
  match override with Some o => Excludes o | None => [] end.

Lemma listed_filter ps x : listed (filter (λ p, Is4 (pf_addr p) = true) ps) x = listed ps x.
Proof.
  induction ps as [| p ps IH]; [done |]. rewrite filter_cons. unfold listed in *. cbn [existsb].
  destruct (decide _) as [H | H]; cbn [existsb]; rewrite IH; [done |].
  unfold usable. by destruct (pf_addr p).
Qed.

Lemma Load_match embedded override x :
  Forall prefix_wf (wanted embedded override) → Forall prefix_wf (excluded override) → addr_wf x →
  ResolvedMatch (Load embedded override) x = listed (wanted embedded override) x && negb (listed (excluded override) x).
Proof.
  intros Hw He Hx. unfold ResolvedMatch, Load. cbn [include exclude].
  fold (wanted embedded override) (excluded override).
  assert (Forall prefix_wf (filter (λ p, Is4 (pf_addr p) = true) (wanted embedded override))) as Hf.
  { rewrite Forall_forall in Hw |- *. intros p [_ Hp]%list_elem_of_filter. by apply Hw. }
  rewrite !Match_list by done. fold (listed (excluded override) x).
  fold (listed (filter (λ p, Is4 (pf_addr p) = true) (wanted embedded override)) x). rewrite listed_filter.
  by destruct (listed (wanted embedded override) x).
Qed.

Lemma ranges_wf : Forall prefix_wf (rr_prefix <$> reservedRanges).
Proof. repeat constructor; cbn; done. Qed.

Definition in_ranges (rs : list reservedRange) (x : Addr) : bool := existsb (λ r, contains (rr_prefix r) x) rs.

Lemma in_ranges_split rs x :
  in_ranges rs x = existsb (λ r, Bool.eqb (rr_drop r) true && contains (rr_prefix r) x) rs
                   || existsb (λ r, Bool.eqb (rr_drop r) false && contains (rr_prefix r) x) rs.
Proof.
  induction rs as [| r rs IH]; [done |]. unfold in_ranges in *. cbn [existsb]. rewrite IH.
  destruct (rr_drop r), (contains (rr_prefix r) x); cbn; rewrite ?orb_true_r; done.
Qed.

Lemma in_ranges_drop rs x :
  in_ranges (filter (λ r, rr_drop r = true) rs) x = existsb (λ r, Bool.eqb (rr_drop r) true && contains (rr_prefix r) x) rs.
Proof.
  induction rs as [| r rs IH]; [done |]. unfold in_ranges in *. rewrite filter_cons. cbn [existsb].
  destruct (rr_drop r) eqn:E; cbn [decide]; rewrite <- IH; by case_decide.
Qed.

Lemma listed_ranges rs x : Forall (λ r, usable (rr_prefix r) = true) rs → listed (rr_prefix <$> rs) x = in_ranges rs x.
Proof.
  induction 1 as [| r rs Hr _ IH]; [done |]. unfold listed, in_ranges in *. rewrite fmap_cons. cbn [existsb]. by rewrite IH, Hr.
Qed.

(** The ranges of one family say nothing of the other's addresses. *)
Lemma reserved_4 d a :
  reserved d (Addr4 a) = existsb (λ r, Bool.eqb (rr_drop r) d && contains (rr_prefix r) (Addr4 a)) reservedRanges.
Proof.
  unfold reserved. rewrite existsb_app. unfold reservedRangesV6, cidr6. cbn [existsb contains rr_prefix pf_addr].
  by rewrite !andb_false_r, !orb_false_r.
Qed.

Lemma reserved_6 d a :
  reserved d (Addr6 a) = existsb (λ r, Bool.eqb (rr_drop r) d && contains (rr_prefix r) (Addr6 a)) reservedRangesV6.
Proof.
  unfold reserved. rewrite existsb_app. unfold reservedRanges at 1, cidr4. cbn [existsb contains rr_prefix pf_addr].
  by rewrite !andb_false_r, !orb_false_l.
Qed.

Lemma unreachable_4 a : 0 ≤ a < 2 ^ 32 → isUnreachableReserved (Addr4 a) = reserved true (Addr4 a).
Proof.
  intros Ha. unfold isUnreachableReserved, unreachableTrie. cbn [Is4 negb].
  rewrite Match_list; [| by repeat constructor | done].
  fold (listed (rr_prefix <$> filter (λ r, rr_drop r = true) reservedRanges) (Addr4 a)).
  rewrite listed_ranges by (by repeat constructor). by rewrite in_ranges_drop, reserved_4.
Qed.

Lemma reserved_any_4 a : 0 ≤ a < 2 ^ 32 → isReservedIPv4 (Addr4 a) = reserved true (Addr4 a) || reserved false (Addr4 a).
Proof.
  intros Ha. unfold isReservedIPv4, reservedTrie. cbn [Is4 negb].
  rewrite Match_list; [| by repeat constructor | done]. fold (listed (rr_prefix <$> reservedRanges) (Addr4 a)).
  rewrite listed_ranges by (by repeat constructor). by rewrite in_ranges_split, !reserved_4.
Qed.

Lemma Unmap_wf x : addr_wf x → addr_wf (Unmap x).
Proof.
  destruct x as [| a | a]; [done | done |]. intros Ha. unfold Unmap. destruct (Is4In6 (Addr6 a)); [| exact Ha]. unfold addr_wf.
  change (2 ^ 32 - 1) with (Z.ones 32). rewrite Z.land_ones by lia. apply Z.mod_pos_bound. lia.
Qed.

Lemma Unmap_6 x a : Unmap x = Addr6 a → Is4In6 (Addr6 a) = false.
Proof. destruct x as [| b | b]; [done | done |]. unfold Unmap. destruct (Is4In6 (Addr6 b)) eqn:E; [done |]. by intros [= ->]. Qed.

(** C14: where a connection goes depends on the lists, not on the tries built
    from them.  For every destination, with an IPv4 address carried in IPv6
    taken as the IPv4 address it is: inside a range without reachable hosts the
    dial is refused; otherwise inside a local range it goes out directly;
    otherwise the pinned DNS-over-HTTPS resolvers always go through the tunnel,
    whatever the administrator's list says; otherwise an address of the merged
    include list that no exclude covers goes out directly, and everything else,
    every other IPv6 address among it, through the tunnel. *)
Theorem route_decides embedded override x :
  Forall prefix_wf (wanted embedded override) → Forall prefix_wf (excluded override) → addr_wf x →
  routeOf (Some (Load embedded override)) (Some x) =
    if negb (IsValid x) then routeTunnel
    else if reserved true (Unmap x) then routeDrop
    else if reserved false (Unmap x) then routeDirect
    else if isPinnedDoHResolver (Unmap x) then routeTunnel
    else if listed (wanted embedded override) (Unmap x) && negb (listed (excluded override) (Unmap x))
    then routeDirect else routeTunnel.
Proof.
  intros Hw He Hx%Unmap_wf. unfold routeOf. destruct (IsValid x) eqn:Ev; cbn [negb]; [| done].
  destruct (Unmap x) as [| a | a] eqn:Eu.
  - by destruct x as [| b | b]; cbn in Eu; [| | destruct (_ =? _)].
  - cbn [Is4 negb]. rewrite unreachable_4, reserved_any_4 by done.
    destruct (reserved true (Addr4 a)); [done |]. destruct (reserved false (Addr4 a)); [done |]. cbn [orb].
    destruct (isPinnedDoHResolver _); [done |]. by rewrite Load_match.
  - cbn [Is4 negb]. unfold isUnreachableReservedIPv6, isReservedIPv6. rewrite (Unmap_6 x a) by done. cbn [Is6 negb orb].
    fold (in_ranges (filter (λ r, rr_drop r = true) reservedRangesV6) (Addr6 a)) (in_ranges reservedRangesV6 (Addr6 a)).
    rewrite in_ranges_drop, in_ranges_split, <- !reserved_6.
    destruct (reserved true (Addr6 a)); [done |]. destruct (reserved false (Addr6 a)); [done |]. cbn [orb].
    unfold listed. rewrite (scan_other (wanted _ _)) by done. cbn [andb]. by destruct (isPinnedDoHResolver _).
Qed.

(** The export of allow rules drops a prefix only when its own network address
    is excluded: an exclude that covers another part of it leaves the whole
    prefix allowed, although the dialer sends those addresses to the tunnel. *)
Theorem snapshot_allows_excluded :
  let p := mkPrefix (Addr4 (ipv4 5 0 0 0)) 8 in
  let r := Load None (Some (mkOverride [p] [mkPrefix (Addr4 (ipv4 5 5 0 0)) 16])) in
  let x := Addr4 (ipv4 5 5 5 5) in
  SnapshotPrefixes r = [p] ∧ contains p x = true ∧ routeOf (Some r) (Some x) = routeTunnel.
Proof. by vm_compute. Qed.

Lemma trie_matches_list_witness :
  Match (foldl Insert New [mkPrefix (Addr4 (ipv4 5 0 0 0)) 8; mkPrefix (Addr6 7) 64; mkPrefix (Addr4 (ipv4 5 1 0 0)) 8;
                           mkPrefix (Addr4 (ipv4 6 0 0 0)) 33]) (Addr4 (ipv4 5 200 0 1)) = true
  ∧ size_ (foldl Insert New [mkPrefix (Addr4 (ipv4 5 0 0 0)) 8; mkPrefix (Addr6 7) 64; mkPrefix (Addr4 (ipv4 5 1 0 0)) 8;
                           mkPrefix (Addr4 (ipv4 6 0 0 0)) 33]) = 1.
Proof.
  destruct (trie_matches_list [mkPrefix (Addr4 (ipv4 5 0 0 0)) 8; mkPrefix (Addr6 7) 64; mkPrefix (Addr4 (ipv4 5 1 0 0)) 8;
                           mkPrefix (Addr4 (ipv4 6 0 0 0)) 33] (Addr4 (ipv4 5 200 0 1))) as [H1 H2].
  - by repeat constructor.
  - done.
  - split; [by rewrite H1; vm_compute | by rewrite H2; vm_compute].
Defined.

Lemma route_decides_witness :
  let o := mkOverride [mkPrefix (Addr4 (ipv4 1 0 0 0)) 8; mkPrefix (Addr4 (ipv4 5 0 0 0)) 8] [mkPrefix (Addr4 (ipv4 5 5 0 0)) 16] in
  let r := Some (Load None (Some o)) in
  let mapped x := Addr6 (Z.shiftl 65535 32 + x) in
  routeOf r (Some (mapped (ipv4 169 254 169 254))) = routeDrop ∧ routeOf r (Some (Addr4 (ipv4 192 168 1 1))) = routeDirect
  ∧ routeOf r (Some (Addr4 (ipv4 1 1 1 1))) = routeTunnel ∧ routeOf r (Some (Addr4 (ipv4 5 6 7 8))) = routeDirect
  ∧ routeOf r (Some (mapped (ipv4 5 5 7 8))) = routeTunnel.
Proof.
  cbv zeta. split_and!; (rewrite route_decides; [by vm_compute | by repeat constructor | by repeat constructor | by vm_compute]).
Defined.
