(* ===== verification/DnsCache.v ===== *)
(** * The DNS messages and the answer cache ([client/dnsproxy/cache.go])

    Messages are what the code reads of [dns.Msg]; copies are values.  Times are
    nanoseconds.  The order in which Go visits a map is a class with its law:
    every entry once. *)

From S2P Require Import Prelude.
From stdpp Require Import base list gmap strings.

#[local] Open Scope Z_scope.

(** ** Messages *)

Definition TypeA : Z := 1.
Definition TypeNS : Z := 2.
Definition TypeCNAME : Z := 5.
Definition TypeSOA : Z := 6.
Definition TypePTR : Z := 12.
Definition TypeMX : Z := 15.
Definition TypeTXT : Z := 16.
Definition TypeAAAA : Z := 28.
Definition TypeSRV : Z := 33.
Definition TypeOPT : Z := 41.

Definition RcodeSuccess : Z := 0.
Definition RcodeFormatError : Z := 1.
Definition RcodeServerFailure : Z := 2.
Definition RcodeNameError : Z := 3.
Definition RcodeRefused : Z := 5.

Inductive rdata := RdA (ip : bytes) | RdSOA (minttl : Z) | RdOther (d : bytes).
#[global] Instance rdata_eq_dec : EqDecision rdata.
Proof. solve_decision. Defined.

Record RR := mkRR { rr_name : bytes; Rrtype : Z; Ttl : Z; rr_data : rdata }.
#[global] Instance RR_eq_dec : EqDecision RR.
Proof. solve_decision. Defined.

Record Msg := mkMsg {
  Id : Z; Response : bool; Rcode : Z; Truncated : bool; RecursionAvailable : bool;
  Question : list (bytes * Z); Answer : list RR; Ns : list RR; Extra : list RR;
}.
#[global] Instance Msg_eq_dec : EqDecision Msg.
Proof. solve_decision. Defined.

Definition with_sections (m : Msg) (an ns ex : list RR) : Msg :=
  mkMsg (Id m) (Response m) (Rcode m) (Truncated m) (RecursionAvailable m) (Question m) an ns ex.

(** ** Lifetimes *)

Definition second : Z := 1000000000.
Definition minCacheTTL : Z := 30 * second.
Definition maxCacheTTL : Z := 3600 * second.
Definition unarbitratedCacheTTL : Z := 30 * second.
Definition maxCacheEntries : nat := Z.to_nat 4096.

Definition clampTTL (d : Z) : Z :=
  if d <? minCacheTTL then minCacheTTL else if maxCacheTTL <? d then maxCacheTTL else d.

Fixpoint first_soa (rrs : list RR) : option (Z * Z) :=
  match rrs with
  | [] => None
  | r :: rrs' => match rr_data r with RdSOA m => Some (Ttl r, m) | _ => first_soa rrs' end
  end.

Definition negativeTTL (m : Msg) : Z :=
  match first_soa (Ns m) with
  | None => 0
  | Some (ttl, minttl) => (if minttl <? ttl then minttl else ttl) * second
  end.

Definition minAnswerTTL (m : Msg) : Z :=
  if bool_decide (Answer m = []) then 0
  else foldl (λ lowest r, if Ttl r <? lowest then Ttl r else lowest) (2 ^ 32 - 1) (Answer m) * second.

Definition cacheLifetime (m : Msg) : Z :=
  if (Rcode m =? RcodeNameError) || bool_decide (Answer m = []) then negativeTTL m else minAnswerTTL m.

Definition stripOPT (rrs : list RR) : list RR := filter (λ r, Rrtype r ≠ TypeOPT) rrs.

Definition setTtl (t : Z) (r : RR) : RR :=
  if Rrtype r =? TypeOPT then r else mkRR (rr_name r) (Rrtype r) t (rr_data r).
Definition setRRTTLs (rrs : list RR) (t : Z) : list RR := setTtl t <$> rrs.
Definition decTtl (elapsed : Z) (r : RR) : RR :=
  if Rrtype r =? TypeOPT then r
  else mkRR (rr_name r) (Rrtype r) (if elapsed <? Ttl r then Ttl r - elapsed else 0) (rr_data r).
Definition decrementRRTTLs (rrs : list RR) (elapsed : Z) : list RR := decTtl elapsed <$> rrs.

(** ** The cache *)

Notation cacheKey := (bytes * Z)%type.
Record cacheEntry := mkEntry { ce_msg : Msg; storedAt : Z; expiresAt : Z }.
Notation dnsCache := (gmap cacheKey cacheEntry).
Definition newDNSCache : dnsCache := ∅.

(** Go visits the entries of a map in an order of its own choosing. *)
Class MapRange := {
  range_order : Z → dnsCache → list (cacheKey * cacheEntry);
  range_perm seed c : range_order seed c ≡ₚ map_to_list c;
}.

Definition expired (now : Z) (e : cacheEntry) : bool := expiresAt e <=? now.

Definition aged (e : cacheEntry) (now : Z) : Msg :=
  let delta := now - storedAt e in
  let elapsed := u32 ((if delta <? 0 then 0 else delta) / second) in
  with_sections (ce_msg e) (decrementRRTTLs (Answer (ce_msg e)) elapsed)
    (decrementRRTTLs (Ns (ce_msg e)) elapsed) (decrementRRTTLs (Extra (ce_msg e)) elapsed).

Definition get (c : dnsCache) (key : cacheKey) (now : Z) : option Msg * dnsCache :=
  match c !! key with
  | None => (None, c)
  | Some e => if expired now e then (None, delete key c) else (Some (aged e now), c)
  end.

Section cache.
Context {MR : MapRange}.

Definition evictOneLocked (c : dnsCache) (now seed : Z) : dnsCache :=
  match list_find (λ kv, expired now (snd kv) = true) (range_order seed c) with
  | Some (_, kv) => delete (fst kv) c
  | None => match range_order (seed + 1) c with kv :: _ => delete (fst kv) c | [] => c end
  end.

(** What is kept of a message: without OPT, every TTL the lifetime. *)
Definition stored_copy (m : Msg) (lifetime : Z) : Msg :=
  let secs := u32 (lifetime / second) in
  with_sections m (setRRTTLs (Answer m) secs) (setRRTTLs (Ns m) secs) (setRRTTLs (stripOPT (Extra m)) secs).

Definition putWithLifetime (c : dnsCache) (key : cacheKey) (m : Msg) (lifetime now seed : Z) : dnsCache :=
  let c1 := if bool_decide (c !! key = None) && (maxCacheEntries <=? size c)%nat then evictOneLocked c now seed else c in
  <[key := mkEntry (stored_copy m lifetime) now (now + lifetime)]> c1.

Definition put (c : dnsCache) (key : cacheKey) (m : Msg) (now seed : Z) : dnsCache :=
  putWithLifetime c key m (clampTTL (cacheLifetime m)) now seed.

Definition sweep (c : dnsCache) (now : Z) : dnsCache := filter (λ kv, expired now (snd kv) = false) c.

(** ** Runs *)

(** Every call carries the time its goroutine read before taking the lock, so
    times may go backwards from one call to the next. *)
Inductive cache_op :=
| CGet (key : cacheKey) (now : Z)
| CPut (key : cacheKey) (m : Msg) (now seed : Z)
| CPutShort (key : cacheKey) (m : Msg) (now seed : Z)
| CSweep (now : Z).

Definition cache_step (c : dnsCache) (o : cache_op) : dnsCache :=
  match o with
  | CGet key now => snd (get c key now)
  | CPut key m now seed => put c key m now seed
  | CPutShort key m now seed => putWithLifetime c key m unarbitratedCacheTTL now seed
  | CSweep now => sweep c now
  end.
Definition cache_run (c : dnsCache) (ops : list cache_op) : dnsCache := foldl cache_step c ops.

(** The last thing put under a key: the message, the lifetime, the moment. *)
Definition put_of (key : cacheKey) (o : cache_op) : option (Msg * Z * Z) :=
  match o with
  | CPut k m now _ => if bool_decide (k = key) then Some (m, clampTTL (cacheLifetime m), now) else None
  | CPutShort k m now _ => if bool_decide (k = key) then Some (m, unarbitratedCacheTTL, now) else None
  | _ => None
  end.
Definition last_put (key : cacheKey) (ops : list cache_op) : option (Msg * Z * Z) := last (omap (put_of key) ops).

Definition entry_of (p : Msg * Z * Z) : cacheEntry := let '(m, l, t) := p in mkEntry (stored_copy m l) t (t + l).

(** ** Lemmas *)

Lemma clampTTL_range d : minCacheTTL ≤ clampTTL d ≤ maxCacheTTL.
Proof. unfold clampTTL, minCacheTTL, maxCacheTTL, second. zcases. Qed.

Lemma negativeTTL_secs m : (second | negativeTTL m).
Proof. unfold negativeTTL. destruct (first_soa (Ns m)) as [[a b] |]; [| apply Z.divide_0_r]. apply Z.divide_factor_r. Qed.
Lemma minAnswerTTL_secs m : (second | minAnswerTTL m).
Proof. unfold minAnswerTTL. destruct (bool_decide _); [apply Z.divide_0_r |]. apply Z.divide_factor_r. Qed.

Lemma lifetime_secs m : (second | clampTTL (cacheLifetime m)).
Proof.
  assert (second | cacheLifetime m) as Hd.
  { unfold cacheLifetime. destruct (_ || _); [apply negativeTTL_secs | apply minAnswerTTL_secs]. }
  unfold clampTTL. destruct (_ <? _); [by exists 30 |]. destruct (_ <? _); [by exists 3600 | done].
Qed.

Lemma put_of_lifetime key o m l t : put_of key o = Some (m, l, t) → (second | l) ∧ minCacheTTL ≤ l ≤ maxCacheTTL.
Proof.
  unfold put_of. destruct o; try done; (destruct (bool_decide _); [| done]); intros [= <- <- <-].
  - split; [apply lifetime_secs | apply clampTTL_range].
  - split; [by exists 30 | done].
Qed.

Lemma last_put_snoc key ops o :
  last_put key (ops ++ [o]) = match put_of key o with Some p => Some p | None => last_put key ops end.
Proof.
  unfold last_put. rewrite omap_app. cbn. destruct (put_of key o); [apply last_snoc | by rewrite app_nil_r].
Qed.

Lemma last_put_lifetime key ops m l t : last_put key ops = Some (m, l, t) → (second | l) ∧ minCacheTTL ≤ l ≤ maxCacheTTL.
Proof.
  induction ops as [| o ops IH] using rev_ind; [done |]. rewrite last_put_snoc.
  destruct (put_of key o) as [p |] eqn:E; [intros [= ->]; by eapply put_of_lifetime | done].
Qed.

Lemma evict_sub c now seed : evictOneLocked c now seed ⊆ c.
Proof. unfold evictOneLocked. repeat case_match; (apply delete_subseteq || done). Qed.

Lemma range_elem seed c kv : kv ∈ range_order seed c → c !! kv.1 = Some kv.2.
Proof. rewrite range_perm. destruct kv as [k e]. apply elem_of_map_to_list. Qed.

Lemma evict_size c now seed : c ≠ ∅ → (size (evictOneLocked c now seed) < size c)%nat.
Proof.
  intros Hc. assert (∀ kv s, kv ∈ range_order s c → (size (delete kv.1 c) < size c)%nat) as Hd.
  { intros kv s H%range_elem. rewrite map_size_delete_Some by (by eexists).
    assert (size c ≠ 0)%nat by (by apply map_size_ne_0_lookup_2 with (i := kv.1); eexists). lia. }
  unfold evictOneLocked. destruct (list_find _ _) as [[i kv] |] eqn:E.
  - apply list_find_Some in E as (E & _ & _). apply (Hd kv seed). by eapply list_elem_of_lookup_2.
  - destruct (range_order (seed + 1) c) as [| kv l] eqn:E2.
    + exfalso. apply Hc. apply map_to_list_empty_iff. apply Permutation_nil. rewrite <- (range_perm (seed + 1)). by rewrite E2.
    + apply (Hd kv (seed + 1)). rewrite E2. constructor.
Qed.

Lemma put_lookup c key m l now seed k :
  putWithLifetime c key m l now seed !! k = Some (mkEntry (stored_copy m l) now (now + l)) ∧ k = key
  ∨ k ≠ key ∧ (putWithLifetime c key m l now seed !! k = c !! k ∨ (putWithLifetime c key m l now seed !! k = None ∧ (maxCacheEntries ≤ size c)%nat)).
Proof.
  unfold putWithLifetime. destruct (decide (k = key)) as [-> | Hne]; [left; split; [by rewrite lookup_insert_eq | done] | right].
  split; [done |]. rewrite lookup_insert_ne by done. destruct (bool_decide (c !! key = None) && _) eqn:E; [| by left].
  apply andb_true_iff in E as [_ E%Nat.leb_le].
  destruct (evictOneLocked c now seed !! k) as [e |] eqn:E2; [| by right].
  left. symmetry. by eapply lookup_weaken, evict_sub.
Qed.

Lemma put_size c key m l now seed :
  (size c ≤ maxCacheEntries)%nat → (size (putWithLifetime c key m l now seed) ≤ maxCacheEntries)%nat.
Proof.
  intros Hs. unfold putWithLifetime. destruct (c !! key) as [e |] eqn:Ek.
  - rewrite bool_decide_eq_false_2 by done. cbn [andb]. by rewrite map_size_insert_Some by (by eexists).
  - rewrite bool_decide_eq_true_2 by done. cbn [andb]. destruct (Nat.leb_spec maxCacheEntries (size c)) as [Hle | Hlt].
    + assert (c ≠ ∅) as Hne.
      { intros ->. rewrite map_size_empty in Hle. unfold maxCacheEntries in Hle. lia. }
      pose proof (evict_size c now seed Hne). rewrite map_size_insert.
      destruct (evictOneLocked c now seed !! key); unfold id; lia.
    + rewrite map_size_insert_None by done. lia.
Qed.

Record cache_inv (ops : list cache_op) (c : dnsCache) : Prop := {
  ci_size : (size c ≤ maxCacheEntries)%nat;
  ci_last key e : c !! key = Some e → ∃ p, last_put key ops = Some p ∧ e = entry_of p;
}.

Lemma cache_step_size c o : (size c ≤ maxCacheEntries)%nat → (size (cache_step c o) ≤ maxCacheEntries)%nat.
Proof.
  intros Hs. destruct o as [k now | k m now seed | k m now seed | now]; cbn [cache_step].
  - unfold get. destruct (c !! k) as [e |]; [| done]. destruct (expired now e); [| done]. cbn [snd].
    etrans; [apply map_subseteq_size, delete_subseteq | done].
  - by apply put_size.
  - by apply put_size.
  - etrans; [apply map_subseteq_size, map_filter_subseteq | done].
Qed.

Lemma cache_step_lookup c o k e :
  cache_step c o !! k = Some e →
  (∃ p, put_of k o = Some p ∧ e = entry_of p) ∨ (put_of k o = None ∧ c !! k = Some e).
Proof.
  intros H. destruct o as [k' now | k' m now seed | k' m now seed | now]; cbn [cache_step put_of] in *.
  - right. split; [done |]. unfold get in H. destruct (c !! k') as [e' |]; [| done]. destruct (expired now e'); [| done].
    cbn [snd] in H. apply lookup_delete_Some in H as [_ H]. done.
  - unfold put in H. destruct (put_lookup c k' m (clampTTL (cacheLifetime m)) now seed k) as [[E ->] | [Hne [E | [E _]]]];
      rewrite E in H; [left | right | done].
    + rewrite bool_decide_eq_true_2 by done. eexists. split; [done |]. cbn. congruence.
    + by rewrite bool_decide_eq_false_2 by congruence.
  - destruct (put_lookup c k' m unarbitratedCacheTTL now seed k) as [[E ->] | [Hne [E | [E _]]]]; rewrite E in H; [left | right | done].
    + rewrite bool_decide_eq_true_2 by done. eexists. split; [done |]. cbn. congruence.
    + by rewrite bool_decide_eq_false_2 by congruence.
  - right. split; [done |]. by apply map_lookup_filter_Some in H as [H _].
Qed.

Lemma cache_run_inv ops : cache_inv ops (cache_run newDNSCache ops).
Proof.
  induction ops as [| o ops [IHs IHl]] using rev_ind.
  - split; [unfold cache_run, newDNSCache; cbn [foldl]; rewrite map_size_empty; lia | done].
  - unfold cache_run in *. rewrite foldl_app. cbn [foldl]. split; [by apply cache_step_size |].
    intros key e [(p & Hp & ->) | [Hp H]]%cache_step_lookup; rewrite last_put_snoc, Hp; [by exists p | by apply IHl].
Qed.

(** ** Hits that must happen *)

Definition op_time (o : cache_op) : Z :=
  match o with CGet _ now | CPut _ _ now _ | CPutShort _ _ now _ | CSweep now => now end.
Definition op_key (o : cache_op) : list cacheKey :=
  match o with CPut k _ _ _ | CPutShort k _ _ _ => [k] | _ => [] end.
Definition used (ops : list cache_op) : gset cacheKey := list_to_set (ops ≫= op_key).

Lemma used_snoc ops o : used (ops ++ [o]) = used ops ∪ list_to_set (op_key o).
Proof. unfold used. by rewrite bind_app, list_to_set_app_L, bind_singleton. Qed.

Lemma put_of_key key o p : put_of key o = Some p → op_key o = [key].
Proof. destruct o; cbn; try done; case_bool_decide; naive_solver. Qed.

Lemma cache_dom ops : dom (cache_run newDNSCache ops) ⊆ used ops.
Proof.
  intros k [e He]%elem_of_dom. destruct (cache_run_inv ops) as [_ Hl]. destruct (Hl _ _ He) as (p & Hp & _). clear He Hl.
  induction ops as [| o ops IH] using rev_ind; [done |]. rewrite last_put_snoc in Hp. rewrite used_snoc.
  destruct (put_of k o) as [q |] eqn:E; [rewrite (put_of_key _ _ _ E); set_solver | set_solver].
Qed.

(** A step that does not put the key, comes before its entry expires and finds
    room keeps the entry. *)
Lemma cache_step_keeps c o k e :
  c !! k = Some e → put_of k o = None → op_time o < expiresAt e →
  (∀ k', op_key o = [k'] → c !! k' = None → (size c < maxCacheEntries)%nat) → cache_step c o !! k = Some e.
Proof.
  intros He Hp Ht Hroom. assert (∀ now, now < expiresAt e → expired now e = false) as Hx by (intros; unfold expired; by apply Z.leb_gt).
  assert (∀ k' m l now seed, k' ≠ k → op_key o = [k'] → putWithLifetime c k' m l now seed !! k = Some e) as Hput.
  { intros k' m l now seed Hne Hk. unfold putWithLifetime. rewrite lookup_insert_ne by done.
    destruct (c !! k') eqn:E; [by rewrite bool_decide_eq_false_2|]. specialize (Hroom k' Hk E).
    destruct (Nat.leb_spec maxCacheEntries (size c)); [lia |]. by rewrite andb_false_r. }
  destruct o as [k' now | k' m now seed | k' m now seed | now]; cbn [cache_step put_of op_time op_key] in *.
  - unfold get. destruct (c !! k') as [e' |] eqn:E; [| done]. destruct (expired now e') eqn:Ex; [| done]. cbn [snd].
    rewrite lookup_delete_ne; [done |]. intros ->. rewrite He in E. injection E as <-. by rewrite Hx in Ex.
  - case_bool_decide; [done |]. by apply Hput.
  - case_bool_decide; [done |]. by apply Hput.
  - apply map_lookup_filter_Some. split; [done |]. by apply Hx.
Qed.

Lemma cache_hit_present ops key p now :
  (size (used ops) ≤ maxCacheEntries)%nat → (∀ o, o ∈ ops → op_time o ≤ now) →
  last_put key ops = Some p → now < expiresAt (entry_of p) →
  cache_run newDNSCache ops !! key = Some (entry_of p).
Proof.
  intros Hu Ht Hl Hx. induction ops as [| o ops IH] using rev_ind; [done |].
  rewrite last_put_snoc in Hl. rewrite used_snoc in Hu. unfold cache_run in *. rewrite foldl_app. cbn [foldl].
  destruct (put_of key o) as [q |] eqn:E.
  - injection Hl as ->. destruct o as [k' t | k' m t seed | k' m t seed | t]; cbn [put_of cache_step] in *; try done;
      (case_bool_decide; [| done]); injection E as <-; subst k'; unfold put, putWithLifetime; by rewrite lookup_insert_eq.
  - apply cache_step_keeps; [| done | |].
    + apply IH; [| set_solver | done]. etrans; [| exact Hu]. apply subseteq_size. set_solver.
    + assert (op_time o ≤ now) by (apply Ht; set_solver). lia.
    + intros k' Hk Hn. rewrite Hk in Hu.
      assert (size (dom (foldl cache_step newDNSCache ops) ∪ {[k']}) ≤ maxCacheEntries)%nat as Hsz.
      { etrans; [apply subseteq_size | exact Hu]. pose proof (cache_dom ops) as Hd. unfold cache_run in Hd. set_solver. }
      rewrite size_union, size_singleton, size_dom in Hsz; [lia |].
      apply disjoint_singleton_r. by apply not_elem_of_dom.
Qed.

(** ** What a hit looks like *)

(** The message with every TTL set to [ttl] and without OPT. *)
Definition served (m : Msg) (ttl : Z) : Msg :=
  with_sections m (setRRTTLs (Answer m) ttl) (setRRTTLs (Ns m) ttl) (setRRTTLs (stripOPT (Extra m)) ttl).

Lemma dec_set rrs a b : 0 ≤ b < a → decrementRRTTLs (setRRTTLs rrs a) b = setRRTTLs rrs (a - b).
Proof.
  intros Hab. unfold decrementRRTTLs, setRRTTLs. rewrite <- list_fmap_compose. apply list_fmap_ext. intros i r _.
  unfold decTtl, setTtl. cbn. destruct (Rrtype r =? TypeOPT) eqn:E; cbn; rewrite E; [done |].
  by destruct (Z.ltb_spec b a); [| lia].
Qed.

Lemma aged_served m l t now :
  (second | l) → minCacheTTL ≤ l ≤ maxCacheTTL → now < t + l →
  let left := t + l - Z.max now t in
  ∃ ttl, aged (entry_of (m, l, t)) now = served m ttl ∧ 1 ≤ ttl ≤ l / second ∧ (ttl - 1) * second < left ≤ ttl * second.
Proof.
  intros [q ->] Hr Hn left. unfold minCacheTTL, maxCacheTTL, second in *.
  assert (30 ≤ q ≤ 3600) as Hq by lia.
  set (d := if now - t <? 0 then 0 else now - t).
  assert (d = Z.max now t - t) as Hd by (unfold d; destruct (Z.ltb_spec (now - t) 0); lia).
  assert (0 ≤ d < q * 1000000000) as Hdr by lia.
  pose proof (Z.div_mod d 1000000000 ltac:(lia)) as He. pose proof (Z.mod_pos_bound d 1000000000 ltac:(lia)) as Hm.
  set (el := d / 1000000000) in *. assert (0 ≤ el < q) as Hel by lia.
  exists (q - el). split; [| rewrite Z.div_mul by lia; lia].
  unfold aged, entry_of, stored_copy, served. cbn [ce_msg storedAt with_sections Answer Ns Extra]. unfold second. fold d. fold el.
  rewrite Z.div_mul by lia. unfold u32. rewrite (Z.mod_small q), (Z.mod_small el) by lia. by rewrite !dec_set by lia.
Qed.

(** C24: the cache is a map with time to live.  After any calls, with the time
    each goroutine read for itself: there are at most 4096 entries; a hit is the
    message put last under exactly that key, before its lifetime (clamped to
    30 s .. 1 h, or the short one) has run out, without OPT, and all its records
    carry the lifetime left, rounded up to a second, never zero; and as long as
    at most 4096 keys were used and the clock is not behind any call's, what was
    put last is a hit until its lifetime has run out. *)
Theorem cache_refines_ttl_map ops key now :
  let c := cache_run newDNSCache ops in
  (size c ≤ maxCacheEntries)%nat ∧
  (∀ m', fst (get c key now) = Some m' →
     ∃ m l t ttl, last_put key ops = Some (m, l, t) ∧ minCacheTTL ≤ l ≤ maxCacheTTL ∧ now < t + l ∧
                  m' = served m ttl ∧ 1 ≤ ttl ∧ (ttl - 1) * second < t + l - Z.max now t ≤ ttl * second) ∧
  ((size (used ops) ≤ maxCacheEntries)%nat → (∀ o, o ∈ ops → op_time o ≤ now) →
     ∀ m l t, last_put key ops = Some (m, l, t) → now < t + l → is_Some (fst (get c key now))).
Proof.
  intros c. destruct (cache_run_inv ops) as [Hs Hl]. split_and!; [done | |].
  - intros m'. unfold get. destruct (c !! key) as [e |] eqn:He; [| done].
    destruct (expired now e) eqn:Ex; [done |]. intros [= <-].
    destruct (Hl _ _ He) as ([[m l] t] & Hp & ->). unfold expired in Ex. cbn [entry_of expiresAt] in Ex. apply Z.leb_gt in Ex.
    destruct (last_put_lifetime _ _ _ _ _ Hp) as [Hd Hr]. destruct (aged_served m l t now Hd Hr Ex) as (ttl & Ha & Ht & Hb).
    exists m, l, t, ttl. split_and!; (done || lia).
  - intros Hu Ht m l t Hp Hx. subst c. unfold get. rewrite (cache_hit_present ops key (m, l, t) now) by done.
    unfold expired. cbn [entry_of expiresAt]. destruct (Z.leb_spec (t + l) now); [lia | by eexists].
Qed.

End cache.

(** An order of visits, for examples. *)
#[global] Instance list_order : MapRange :=
  {| range_order _ c := map_to_list c; range_perm _ c := Permutation_refl (map_to_list c) |}.

Definition demo_key : cacheKey := (bytes_of_string "example.org.", TypeA).
Definition demo_answer (ttl : Z) : Msg :=
  mkMsg 7 true RcodeSuccess false true [demo_key]
    [mkRR (fst demo_key) TypeA ttl (RdA [93; 184; 216; 34])] [] [mkRR [] TypeOPT 32768 (RdOther [])].
Definition demo_cache_ops : list cache_op :=
  [CPut demo_key (demo_answer 300) 0 0; CGet demo_key (10 * second); CPutShort demo_key (demo_answer 300) (20 * second) 0].

Lemma cache_refines_ttl_map_witness :
  ∃ m', fst (get (cache_run newDNSCache demo_cache_ops) demo_key (45 * second + 1)) = Some m' ∧ m' = served (demo_answer 300) 5.
Proof.
  destruct (cache_refines_ttl_map demo_cache_ops demo_key (45 * second + 1)) as (_ & H1 & H2).
  destruct (H2 ltac:(by vm_compute; lia) ltac:(by apply Forall_forall; repeat constructor)
              (demo_answer 300) (30 * second) (20 * second) ltac:(by vm_compute) ltac:(done)) as [m' Hm].
  exists m'. split; [done |]. destruct (H1 m' Hm) as (m & l & t & ttl & Hp & _ & _ & -> & _ & Ht).
  assert (last_put demo_key demo_cache_ops = Some (demo_answer 300, 30 * second, 20 * second)) as Hq by (by vm_compute).
  rewrite Hq in Hp. injection Hp as <- <- <-. f_equal. unfold second in Ht. lia.
Defined.
