(* ===== verification/WSStream.v ===== *)
(** * Uplink streams of a WebSocket session ([wsStream] of [server/websocket.go])

    A stream takes data from the session's reader before the target has been
    dialled (it is buffered), while [Activate] flushes that buffer, and after a
    writer goroutine has been started on the channel.  The state machine below
    has one action per section the code runs under [s.mu] or per channel
    operation of the goroutines, so its runs are the interleavings. *)

From S2P Require Import Prelude.
From S2P Require Import BufPool.
From stdpp Require Import base list strings.

#[local] Open Scope Z_scope.

Definition pendingBufMax : Z := 64.
Definition writeChCap : Z := 256.

(** The goroutine [startWriter] launches. *)
Inductive wwriter :=
| WWNone                      (* not started *)
| WWSelect
| WWWrite (d : bytes)         (* about to write to the target *)
| WWDrain                     (* saw [done]: throws away what is queued *)
| WWExit.

Record wsStream := mkStream {
  hasTarget : bool;           (* [s.targetConn != nil] *)
  writeCh : list bytes;
  st_done : bool;
  closeOnce : bool;
  connected : bool;
  pendingBuf : list bytes;
  onWriteErr : bool;          (* a callback is installed *)
  rd : option bytes;          (* [Write] after its locked section *)
  act : option (list bytes);  (* [Activate]: what is left to flush *)
  wr : wwriter;
  tc_up : bool;               (* the target connection accepts data *)
  got : list bytes;           (* ghost: what the target received *)
  input : list bytes;         (* ghost: what [Write] was called with *)
  overflowed : bool;          (* ghost: the pending buffer dropped something *)
}.

Definition newPendingWSStream : wsStream :=
  mkStream false [] false false false [] false None None WWNone true [] [] false.

(** [cp := GetBuffer(len(data)); cp = cp[:len(data)]; copy(cp, data)] *)
Definition write_copy (pools : bufPools) (data : bytes) : outcome (bytes * bufPools) :=
  '(b, pools1) ← GetBuffer pools (len data);
  cp ← slice b 0 (len data);
  cp1 ← copy_into cp 0 (len cp) data;
  Ret (cp1, pools1).

Definition set_rd (s : wsStream) (x : option bytes) : wsStream :=
  mkStream (hasTarget s) (writeCh s) (st_done s) (closeOnce s) (connected s) (pendingBuf s) (onWriteErr s)
    x (act s) (wr s) (tc_up s) (got s) (input s) (overflowed s).
Definition set_act (s : wsStream) (x : option (list bytes)) : wsStream :=
  mkStream (hasTarget s) (writeCh s) (st_done s) (closeOnce s) (connected s) (pendingBuf s) (onWriteErr s)
    (rd s) x (wr s) (tc_up s) (got s) (input s) (overflowed s).
Definition set_wr (s : wsStream) (x : wwriter) : wsStream :=
  mkStream (hasTarget s) (writeCh s) (st_done s) (closeOnce s) (connected s) (pendingBuf s) (onWriteErr s)
    (rd s) (act s) x (tc_up s) (got s) (input s) (overflowed s).
Definition set_ch (s : wsStream) (x : list bytes) : wsStream :=
  mkStream (hasTarget s) x (st_done s) (closeOnce s) (connected s) (pendingBuf s) (onWriteErr s)
    (rd s) (act s) (wr s) (tc_up s) (got s) (input s) (overflowed s).
Definition set_pending (s : wsStream) (x : list bytes) (o : bool) : wsStream :=
  mkStream (hasTarget s) (writeCh s) (st_done s) (closeOnce s) (connected s) x (onWriteErr s)
    (rd s) (act s) (wr s) (tc_up s) (got s) (input s) o.
Definition set_onWriteErr (s : wsStream) : wsStream :=
  mkStream (hasTarget s) (writeCh s) (st_done s) (closeOnce s) (connected s) (pendingBuf s) true
    (rd s) (act s) (wr s) (tc_up s) (got s) (input s) (overflowed s).
Definition add_input (s : wsStream) (d : bytes) : wsStream :=
  mkStream (hasTarget s) (writeCh s) (st_done s) (closeOnce s) (connected s) (pendingBuf s) (onWriteErr s)
    (rd s) (act s) (wr s) (tc_up s) (got s) (input s ++ [d]) (overflowed s).
(** The target receives [d], if it still accepts data. *)
Definition deliver (s : wsStream) (d : bytes) : wsStream :=
  mkStream (hasTarget s) (writeCh s) (st_done s) (closeOnce s) (connected s) (pendingBuf s) (onWriteErr s)
    (rd s) (act s) (wr s) (tc_up s) (if tc_up s then got s ++ [d] else got s) (input s) (overflowed s).
Definition set_tc_down (s : wsStream) : wsStream :=
  mkStream (hasTarget s) (writeCh s) (st_done s) (closeOnce s) (connected s) (pendingBuf s) (onWriteErr s)
    (rd s) (act s) (wr s) false (got s) (input s) (overflowed s).

(** ** Operations *)

(** [Write] up to the end of its locked section. *)
Definition Write (s : wsStream) (d : bytes) : wsStream :=
  let s1 := add_input s d in
  if negb (connected s) then
    if len (pendingBuf s) <? pendingBufMax then set_pending s1 (pendingBuf s ++ [d]) (overflowed s)
    else set_pending s1 (pendingBuf s) true
  else set_rd s1 (Some d).

(** The locked section of [Activate]. *)
Definition Activate (s : wsStream) : wsStream :=
  mkStream true (writeCh s) (st_done s) (closeOnce s) true [] (onWriteErr s)
    (rd s) (Some (pendingBuf s)) (wr s) (tc_up s) (got s) (input s) (overflowed s).

(** What [Close] and [CloseKeepTarget] do once: the channel and the pending
    buffers, then (for [Close]) the connection if there is one. *)
Definition close_common (s : wsStream) : wsStream :=
  mkStream (hasTarget s) (writeCh s) true true (connected s) [] (onWriteErr s)
    (rd s) (act s) (wr s) (tc_up s) (got s) (input s) (overflowed s).

Definition CloseKeepTarget (s : wsStream) : wsStream := if closeOnce s then s else close_common s.
Definition Close (s : wsStream) : wsStream :=
  if closeOnce s then s
  else let s1 := close_common s in if hasTarget s then set_tc_down s1 else s1.

(** ** Interleavings *)

Inductive saction :=
| SWrite (d : bytes)          (* the reader calls [Write] *)
| SSend                       (* ... its select sends *)
| SGiveUp                     (* ... or sees [done] *)
| SActivate                   (* the dial has succeeded *)
| SFlush                      (* [Activate] writes the next pending chunk *)
| SStart                      (* ... and starts the writer *)
| SInstall                    (* [onWriteErr] is set *)
| SRecv | SSeeDone            (* the writer's select *)
| SWriteOut (ok : bool)
| SDrain | SDrainEnd
| SClose | SCloseKeep
| STargetGone.                (* the peer resets the connection *)

Definition not_now : outcome wsStream := Err "not enabled".

Definition sstep (s : wsStream) (a : saction) : outcome wsStream :=
  match a with
  | SWrite d => if 65536 <? len d then Panic else match rd s with None => Ret (Write s d) | Some _ => not_now end
  | SSend =>
    match rd s with
    | Some d => if len (writeCh s) <? writeChCap then Ret (set_rd (set_ch s (writeCh s ++ [d])) None) else not_now
    | None => not_now
    end
  | SGiveUp =>
    match rd s with Some _ => if st_done s then Ret (set_rd s None) else not_now | None => not_now end
  | SActivate => if connected s then not_now else Ret (Activate s)
  | SFlush => match act s with Some (d :: ds) => Ret (set_act (deliver s d) (Some ds)) | _ => not_now end
  | SStart => match act s with Some [] => Ret (set_wr (set_act s None) WWSelect) | _ => not_now end
  | SInstall => Ret (set_onWriteErr s)
  | SRecv =>
    match wr s, writeCh s with
    | WWSelect, d :: ds => Ret (set_wr (set_ch s ds) (WWWrite d))
    | _, _ => not_now
    end
  | SSeeDone => match wr s with WWSelect => if st_done s then Ret (set_wr s WWDrain) else not_now | _ => not_now end
  | SWriteOut ok =>
    match wr s with
    | WWWrite d =>
      if ok then if tc_up s then Ret (set_wr (deliver s d) WWSelect) else not_now
      else if onWriteErr s then Ret (set_wr (set_tc_down s) WWExit)
      else Ret (set_wr (Close (set_tc_down s)) WWExit)
    | _ => not_now
    end
  | SDrain => match wr s, writeCh s with WWDrain, _ :: ds => Ret (set_ch s ds) | _, _ => not_now end
  | SDrainEnd => match wr s, writeCh s with WWDrain, [] => Ret (set_wr s WWExit) | _, _ => not_now end
  | SClose => Ret (Close s)
  | SCloseKeep => Ret (CloseKeepTarget s)
  | STargetGone => Ret (set_tc_down s)
  end.

Fixpoint srun (s : wsStream) (acts : list saction) : outcome wsStream :=
  match acts with
  | [] => Ret s
  | a :: acts' => s' ← sstep s a; srun s' acts'
  end.

(** ** The pipeline *)

Definition in_hand (w : wwriter) : list bytes := match w with WWWrite d => [d] | _ => [] end.

(** What the stream holds, oldest first. *)
Definition held (s : wsStream) : list bytes :=
  in_hand (wr s) ++ default [] (act s) ++ pendingBuf s ++ writeCh s ++ option_list (rd s).

(** Open, nothing dropped: everything is delivered or held, in order.  The
    channel is used only after the pending buffer, and the writer only runs
    after the flush. *)
Record stream_inv (s : wsStream) : Prop := {
  si_order : st_done s = false → overflowed s = false → tc_up s = true → input s = got s ++ held s;
  si_pending : connected s = true → pendingBuf s = [];
  si_early : connected s = false → writeCh s = [] ∧ rd s = None ∧ act s = None ∧ wr s = WWNone;
  si_writer : wr s ≠ WWNone → act s = None;
  si_target : connected s = true → hasTarget s = true;
  si_done : closeOnce s = false → st_done s = false;
  si_exit : (wr s = WWExit ∨ wr s = WWDrain) → st_done s = true ∨ tc_up s = false;
  si_started : connected s = true → act s = None → wr s ≠ WWNone;
  si_room : len (pendingBuf s) ≤ pendingBufMax ∧ len (writeCh s) ≤ writeChCap;
}.

Lemma stream_inv_new : stream_inv newPendingWSStream.
Proof. split; cbn; try done; unfold len, pendingBufMax, writeChCap; cbn; try tauto || lia. intros [? | ?]; done. Qed.

Lemma Close_inv s : stream_inv s → stream_inv (Close s).
Proof.
  intros Hi. unfold Close. destruct (closeOnce s); [done |]. destruct Hi as [H1 H2 H3 H4 H5 H6 H7 H9 H8].
  destruct (hasTarget s) eqn:Et; split; cbn; try done; try tauto; rewrite ?Et; try done; try tauto.
  all: split; [by vm_compute | tauto].
Qed.

Lemma CloseKeep_inv s : stream_inv s → stream_inv (CloseKeepTarget s).
Proof.
  intros Hi. unfold CloseKeepTarget. destruct (closeOnce s); [done |]. destruct Hi as [H1 H2 H3 H4 H5 H6 H7 H9 H8].
  split; cbn; try done; try tauto. split; [by vm_compute | tauto].
Qed.

Lemma tc_down_inv s : stream_inv s → stream_inv (set_tc_down s).
Proof. intros []. split; cbn; try done. tauto. Qed.

Lemma wr_exit_inv s : stream_inv s → st_done s = true ∨ tc_up s = false → act s = None → wr s ≠ WWNone →
  stream_inv (set_wr s WWExit).
Proof.
  intros [H1 H2 H3 H4 H5 H6 H7 H9 H8] Hd Ha Hw. split; cbn; try done.
  - intros E1 _ E2. destruct Hd; congruence.
  - intros Hc. by destruct (H3 Hc) as (_ & _ & _ & ?).
Qed.

Lemma Write_inv s d : stream_inv s → rd s = None → stream_inv (Write s d).
Proof.
  intros [H1 H2 H3 H4 H5 H6 H7 H9 H8] Hr. unfold Write. destruct (connected s) eqn:Ec; cbn [negb].
  - split; cbn; try done; rewrite ?Ec; try done.
    intros E1 E2 E3. rewrite (H1 E1 E2 E3). unfold held. cbn. rewrite Hr. cbn. by rewrite <- !app_assoc.
  - destruct (H3 eq_refl) as (Hw & _ & Ha & Hn).
    destruct (Z.ltb_spec (len (pendingBuf s)) pendingBufMax) as [Hlt | Hge]; split; cbn; rewrite ?Ec; try done.
    + intros E1 E2 E3. rewrite (H1 E1 E2 E3). unfold held. cbn. rewrite Hr, Hw, Ha, Hn. cbn.
      by rewrite !app_nil_r, <- app_assoc.
    + rewrite len_app, (@len_cons bytes), (@len_nil bytes). lia.
Qed.

Lemma Activate_inv s : stream_inv s → connected s = false → stream_inv (Activate s).
Proof.
  intros [H1 H2 H3 H4 H5 H6 H7 H9 H8] Hc. destruct (H3 Hc) as (Hw & Hr & Ha & Hn).
  split; cbn; try done; rewrite ?Hn; try done.
  - intros E1 E2 E3. rewrite (H1 E1 E2 E3). unfold held. cbn. rewrite Hn, Ha, Hw, Hr. cbn. by rewrite !app_nil_r.
  - split; [by vm_compute | tauto].
Qed.

Ltac open_inv Hi :=
  let H1 := fresh "H1" in let H2 := fresh "H2" in let H3 := fresh "H3" in let H4 := fresh "H4" in
  let H5 := fresh "H5" in let H6 := fresh "H6" in let H7 := fresh "H7" in let H8 := fresh "H8" in let H9 := fresh "H9" in
  pose proof Hi as [H1 H2 H3 H4 H5 H6 H7 H9 H8].

Lemma running_connected s : stream_inv s → wr s ≠ WWNone → connected s = true.
Proof.
  intros Hi Hw. destruct (connected s) eqn:E; [done |]. by destruct (si_early s Hi E) as (_ & _ & _ & ?).
Qed.

Lemma sstep_inv s a s' : stream_inv s → sstep s a = Ret s' → stream_inv s'.
Proof.
  intros Hi E. destruct a; cbn [sstep] in E.
  - destruct (65536 <? len d); [done |]. destruct (rd s) eqn:Er; [done |]. injection E as <-. by apply Write_inv.
  - destruct (rd s) as [d |] eqn:Er; [| done]. destruct (Z.ltb_spec (len (writeCh s)) writeChCap); [| done].
    injection E as <-. open_inv Hi. split; cbn; try done.
    + intros E1 E2 E3. rewrite (H1 E1 E2 E3). unfold held. cbn. rewrite Er. cbn. by rewrite app_nil_r, !app_assoc.
    + intros Hc. destruct (H3 Hc) as (_ & ? & _). congruence.
    + rewrite len_app, (@len_cons bytes), (@len_nil bytes). lia.
  - destruct (rd s) as [d |] eqn:Er; [| done]. destruct (st_done s) eqn:Ed; [| done]. injection E as <-. open_inv Hi.
    split; cbn; try done; rewrite ?Ed; try done.
    intros Hc. by destruct (H3 Hc) as (? & _ & ? & ?).
  - destruct (connected s) eqn:Ec; [done |]. injection E as <-. by apply Activate_inv.
  - destruct (act s) as [[| d ds] |] eqn:Ea; try done. injection E as <-. open_inv Hi.
    assert (wr s = WWNone) as Hh by (destruct (wr s); [done | by (rewrite H4 in Ea) ..]).
    split; cbn; try done.
    + intros E1 E2 E3. rewrite E3. rewrite (H1 E1 E2 E3). unfold held. cbn. rewrite Ea, Hh. cbn. by rewrite <- app_assoc.
    + intros Hc. destruct (H3 Hc) as (_ & _ & ? & _). congruence.
  - destruct (act s) as [[| d ds] |] eqn:Ea; try done. injection E as <-. open_inv Hi.
    assert (wr s = WWNone) as Hw by (destruct (wr s); [done | by (rewrite H4 in Ea) ..]).
    split; cbn; try done.
    + intros E1 E2 E3. rewrite (H1 E1 E2 E3). unfold held. cbn. by rewrite Ea, Hw.
    + intros Hc. destruct (H3 Hc) as (_ & _ & ? & _). congruence.
    + by intros [? | ?].
  - injection E as <-. open_inv Hi. by split.
  - destruct (wr s) eqn:Ew; try done. destruct (writeCh s) as [| d ds] eqn:Ech; [done |]. injection E as <-. open_inv Hi.
    assert (act s = None) as Ha by (apply H4; by rewrite Ew).
    assert (connected s = true) as Hc by (by eapply running_connected; [done | rewrite Ew]).
    split; cbn; rewrite ?Hc; try done; auto.
    + intros E1 E2 E3. rewrite (H1 E1 E2 E3). unfold held. cbn. by rewrite Ew, Ha, Ech, (H2 Hc).
    + by intros [? | ?].
    + rewrite Ech, (@len_cons bytes) in H8. pose proof (len_nonneg ds). lia.
  - destruct (wr s) eqn:Ew; try done. destruct (st_done s) eqn:Ed; [| done]. injection E as <-. open_inv Hi.
    assert (connected s = true) as Hc by (by eapply running_connected; [done | rewrite Ew]).
    split; cbn; rewrite ?Hc; try done; auto; try congruence. intros _. apply H4. by rewrite Ew.
  - destruct (wr s) eqn:Ew; try done.
    assert (act s = None) as Ha by (apply (si_writer s Hi); by rewrite Ew).
    assert (connected s = true) as Hc by (by eapply running_connected; [done | rewrite Ew]). destruct ok.
    + destruct (tc_up s) eqn:Et; [| done]. injection E as <-. open_inv Hi. split; cbn; rewrite ?Hc, ?Et; try done; auto.
      * intros E1 E2 E3. rewrite (H1 E1 E2 Et). unfold held. cbn. rewrite Ew. cbn. by rewrite <- app_assoc.
      * by intros [? | ?].
    + pose proof (tc_down_inv s Hi) as Hd. destruct (onWriteErr s); injection E as <-.
      * apply wr_exit_inv; cbn; auto. by rewrite Ew.
      * pose proof (Close_inv _ Hd) as Hcl. apply wr_exit_inv; try done; unfold Close; cbn;
          destruct (closeOnce s); cbn; auto; destruct (hasTarget s); cbn; auto; by rewrite Ew.
  - destruct (wr s) eqn:Ew; try done. destruct (writeCh s) as [| d ds] eqn:Ech; [done |]. injection E as <-. open_inv Hi.
    assert (connected s = true) as Hc by (by eapply running_connected; [done | rewrite Ew]).
    specialize (H7 (or_intror Ew)). split; cbn; rewrite ?Hc; try done; auto.
    + intros E1 _ E3. destruct H7; congruence.
    + rewrite Ech, (@len_cons bytes) in H8. pose proof (len_nonneg ds). lia.
  - destruct (wr s) eqn:Ew; try done. destruct (writeCh s) as [| d ds] eqn:Ech; [| done]. injection E as <-.
    apply wr_exit_inv; [done | apply (si_exit s Hi); by right | apply (si_writer s Hi); by rewrite Ew | by rewrite Ew].
  - injection E as <-. by apply Close_inv.
  - injection E as <-. by apply CloseKeep_inv.
  - injection E as <-. by apply tc_down_inv.
Qed.

Lemma srun_inv s acts s' : stream_inv s → srun s acts = Ret s' → stream_inv s'.
Proof.
  revert s. induction acts as [| a acts IH]; intros s Hi E; cbn in E; [by injection E as <- |].
  destruct (sstep s a) as [s1 | |] eqn:Es; try done. eapply IH; [| done]. by eapply sstep_inv.
Qed.

(** ** Delivery *)

(** Actions of the goroutines that move data towards the target. *)
Definition moves (a : saction) : Prop :=
  match a with SSend | SFlush | SStart | SRecv | SWriteOut true => True | _ => False end.

Definition work (s : wsStream) : nat :=
  (match act s with Some l => S (3 * length l) | None => 0 end
   + 2 * length (writeCh s) + 3 * length (option_list (rd s)) + length (in_hand (wr s)))%nat.

(** The stream is open on a live target. *)
Definition flowing (s : wsStream) : Prop :=
  stream_inv s ∧ connected s = true ∧ st_done s = false ∧ overflowed s = false ∧ tc_up s = true.

Lemma flowing_step s a s' :
  flowing s → moves a → sstep s a = Ret s' → flowing s' ∧ input s' = input s.
Proof.
  intros (Hi & Hc & Hd & Ho & Ht) Ha E. pose proof (sstep_inv _ _ _ Hi E) as Hi'.
  assert (connected s' = connected s ∧ st_done s' = st_done s ∧ overflowed s' = overflowed s
    ∧ tc_up s' = tc_up s ∧ input s' = input s) as (C1 & C2 & C3 & C4 & C5);
    [| unfold flowing; by rewrite C1, C2, C3, C4, C5].
  clear Hi' Hi. destruct a as [d | | | | | | | | | ok | | | | |]; cbn [moves] in Ha; try done; cbn [sstep] in E.
  - destruct (rd s); [| done]. destruct (_ <? _); [| done]. by injection E as <-.
  - destruct (act s) as [[| d ds] |]; try done. by injection E as <-.
  - destruct (act s) as [[| d ds] |]; try done. by injection E as <-.
  - destruct (wr s); try done. destruct (writeCh s); [done |]. by injection E as <-.
  - destruct ok; [| done]. destruct (wr s); try done. rewrite Ht in E. by injection E as <-.
Qed.

Lemma work_progress s :
  flowing s → held s ≠ [] → ∃ a s', moves a ∧ sstep s a = Ret s' ∧ (work s' < work s)%nat.
Proof.
  intros (Hi & Hc & Hd & Ho & Ht) Hh. open_inv Hi. unfold held in Hh. unfold work. rewrite (H2 Hc) in Hh. cbn in Hh.
  destruct (act s) as [[| d ds] |] eqn:Ea.
  - exists SStart. cbn. rewrite Ea. eexists. split_and!; try done. cbn.
    destruct (wr s) eqn:Ew; [cbn; lia | by specialize (H4 ltac:(done)) ..].
  - exists SFlush. cbn. rewrite Ea. eexists. split_and!; try done. cbn. lia.
  - destruct (wr s) eqn:Ew; cbn in Hh.
    + by specialize (H9 Hc eq_refl).
    + destruct (writeCh s) as [| d ds] eqn:Ech; cbn in Hh.
      * destruct (rd s) as [d |] eqn:Er; [| done]. exists SSend. cbn. rewrite Er, Ech. eexists. split_and!; try done.
        cbn. rewrite ?Ech, ?Ea, ?Ew. cbn. lia.
      * exists SRecv. cbn. rewrite Ew, Ech. eexists. split_and!; try done. cbn. rewrite ?Ea. cbn. lia.
    + exists (SWriteOut true). cbn. rewrite Ew, Ht. eexists. split_and!; try done. cbn. rewrite ?Ea. cbn. lia.
    + destruct (H7 (or_intror eq_refl)); congruence.
    + destruct (H7 (or_introl eq_refl)); congruence.
Qed.

Lemma flowing_drains s :
  flowing s → ∃ acts s', Forall moves acts ∧ srun s acts = Ret s' ∧ got s' = input s.
Proof.
  remember (work s) as n eqn:En. revert s En. induction n as [n IH] using lt_wf_ind. intros s -> Hf.
  assert (held s = [] ∨ held s ≠ []) as [Hh | Hh] by (destruct (held s); auto).
  - exists [], s. split_and!; [constructor | done |]. destruct Hf as (Hi & _ & Hd & Ho & Ht).
    by rewrite (si_order s Hi Hd Ho Ht), Hh, app_nil_r.
  - destruct (work_progress s Hf Hh) as (a & s1 & Ha & Es & Hw).
    destruct (flowing_step s a s1 Hf Ha Es) as [Hf1 Hin].
    destruct (IH _ Hw s1 eq_refl Hf1) as (acts & s2 & Hacts & Er & Hg).
    exists (a :: acts), s2. split_and!; [by constructor | cbn; by rewrite Es | congruence].
Qed.

(** C36: the uplink is in order and complete.  In every interleaving of the
    reader, the dial, the flush, the writer goroutine and data arriving before,
    during and after the dial, as long as the stream is open, the target up and
    the pending buffer has not overflowed: what the target has received is
    exactly what the client sent, in order, up to what the stream still holds;
    the buffers stay within their bounds; and once the dial has succeeded the
    goroutines can always deliver the rest. *)
Theorem uplink_in_order acts s :
  srun newPendingWSStream acts = Ret s →
  len (pendingBuf s) ≤ pendingBufMax ∧ len (writeCh s) ≤ writeChCap
  ∧ (st_done s = false → overflowed s = false → tc_up s = true →
     input s = got s ++ held s
     ∧ (connected s = true →
        ∃ acts' s', Forall moves acts' ∧ srun s acts' = Ret s' ∧ got s' = input s)).
Proof.
  intros E. pose proof (srun_inv _ _ _ stream_inv_new E) as Hi. destruct (si_room s Hi).
  split_and!; try done. intros Hd Ho Ht. split; [by apply si_order |].
  intros Hc. by apply flowing_drains.
Qed.

(** Sixty-four chunks may wait for a dial; one more is dropped and the rest of
    the stream is delivered without it. *)
Definition early_chunks : list saction := (λ i, SWrite [Z.of_nat i]) <$> seq 0 65.
Theorem pending_overflow_makes_hole :
  ∃ s, srun newPendingWSStream (early_chunks ++ [SActivate] ++ replicate 64 SFlush
         ++ [SStart; SWrite [99]; SSend; SRecv; SWriteOut true]) = Ret s
    ∧ st_done s = false ∧ got s = ((λ i, [Z.of_nat i]) <$> seq 0 64) ++ [[99]]
    ∧ input s = ((λ i, [Z.of_nat i]) <$> seq 0 65) ++ [[99]].
Proof. eexists. split; [vm_compute; reflexivity |]. by vm_compute. Qed.

(** Data queued for a target that survives its session ([CloseKeepTarget]) is
    thrown away. *)
Theorem kept_target_loses_queue :
  ∃ s, srun newPendingWSStream [SActivate; SStart; SWrite [1]; SSend; SRecv; SWriteOut true; SWrite [2]; SSend;
         SCloseKeep; SSeeDone; SDrain; SDrainEnd] = Ret s
    ∧ tc_up s = true ∧ got s = [[1]] ∧ input s = [[1]; [2]] ∧ held s = [].
Proof. eexists. split; [vm_compute; reflexivity |]. by vm_compute. Qed.

(** The copy of an uplink chunk is its content, except that a chunk larger than
    the largest pooled buffer - which a 256 KiB WebSocket message can carry -
    panics in the reader goroutine. *)
Theorem oversized_uplink_panics pools d :
  pools_wf pools →
  (len d ≤ 65536 → ∃ pools', write_copy pools d = Ret (d, pools') ∧ pools_wf pools')
  ∧ (65536 < len d → write_copy pools d = Panic).
Proof.
  intros Hp. unfold write_copy. destruct (GetBuffer_ok pools (len d) Hp) as (b & pools' & -> & Hb & Hp').
  cbn [mbind outcome_bind]. split; intros Hd.
  - pose proof (tierIndex_fits _ Hd). pose proof (len_nonneg d).
    rewrite slice_ret by lia. cbn [mbind outcome_bind]. rewrite Z.sub_0_r. change (drop (Z.to_nat 0) b) with b.
    set (cp := take (Z.to_nat (len d)) b).
    assert (len cp = len d) as Hl by (unfold cp; rewrite len_take; lia).
    change cp with ([] ++ cp). rewrite copy_into_app by (rewrite ?len_app, ?(@len_nil Z); lia).
    cbn [mbind outcome_bind app]. exists pools'. split; [| done]. do 2 f_equal.
    rewrite drop_ge; [by rewrite app_nil_r | unfold len in Hl; lia].
  - rewrite slice_panic; [done |]. right. rewrite Hb, tierIndex_big by done. lia.
Qed.

(** After MIGRATE the new slot's reader writes to the same connection directly
    ([deliver]); a chunk the old slot had only queued is then written after a
    chunk the client sent later. *)
Theorem migrated_uplink_reorders :
  ∃ s s', srun newPendingWSStream [SActivate; SStart; SWrite [1]; SSend] = Ret s
    ∧ srun (deliver s [2]) [SRecv; SWriteOut true] = Ret s' ∧ got s' = [[2]; [1]].
Proof. eexists _, _. split; [vm_compute; reflexivity |]. by vm_compute. Qed.

(** ** Witnesses *)

Definition demo_acts : list saction :=
  [SWrite [1]; SWrite [2]; SActivate; SWrite [3]; SSend; SFlush; SWrite [4]; SFlush; SStart; SRecv].
Definition demo_stream : wsStream := match srun newPendingWSStream demo_acts with Ret s => s | _ => newPendingWSStream end.

Lemma uplink_in_order_witness :
  got demo_stream = [[1]; [2]] ∧ held demo_stream = [[3]; [4]]
  ∧ len (pendingBuf demo_stream) ≤ pendingBufMax ∧ len (writeCh demo_stream) ≤ writeChCap
  ∧ (st_done demo_stream = false → overflowed demo_stream = false → tc_up demo_stream = true →
     input demo_stream = got demo_stream ++ held demo_stream
     ∧ (connected demo_stream = true →
        ∃ acts' s', Forall moves acts' ∧ srun demo_stream acts' = Ret s' ∧ got s' = input demo_stream)).
Proof.
  split; [reflexivity |]. split; [reflexivity |].
  apply (uplink_in_order demo_acts demo_stream). vm_compute; reflexivity.
Defined.

Definition big_chunk : bytes := replicate (Z.to_nat 70000) 1.
Lemma len_big_chunk : len big_chunk = 70000.
Proof. unfold big_chunk. rewrite len_replicate. lia. Qed.

Lemma oversized_uplink_panics_witness :
  (∃ pools', write_copy empty_pools [1; 2] = Ret ([1; 2], pools') ∧ pools_wf pools')
  ∧ write_copy empty_pools big_chunk = Panic.
Proof.
  split.
  - apply (oversized_uplink_panics empty_pools [1; 2] empty_pools_wf). by vm_compute.
  - apply (oversized_uplink_panics empty_pools big_chunk empty_pools_wf). rewrite len_big_chunk. reflexivity.
Defined.
