(* ===== verification/EgressGuard.v ===== *)
(** * What the server will dial ([server/safedial.go], the block list of
      [server/handler.go])

    A target "host:port" is split, the host resolved, and every resolved
    address checked against the reserved ranges before the connection is made to
    the checked address itself.  The resolver, reverse lookups and the textual
    address parser are parameters.  Names are ASCII byte strings. *)

From S2P Require Import Prelude.
From stdpp Require Import base list strings.
From Stdlib Require Import Btauto.

#[local] Open Scope Z_scope.

(** ** Strings *)

Definition lower (c : Z) : Z := if (65 <=? c) && (c <=? 90) then c + 32 else c.
Definition ToLower (s : bytes) : bytes := lower <$> s.
Definition HasPrefix (s p : bytes) : bool := bytes_eqb (take (length p) s) p.
Definition HasSuffix (s p : bytes) : bool :=
  (length p <=? length s)%nat && bytes_eqb (drop (length s - length p) s) p.
Definition TrimSuffix (s p : bytes) : bytes :=
  if HasSuffix s p then take (length s - length p) s else s.

Fixpoint IndexByte (s : bytes) (c : Z) : option nat :=
  match s with
  | [] => None
  | x :: s' => if x =? c then Some 0%nat else option_map S (IndexByte s' c)
  end.
Fixpoint LastIndexByte (s : bytes) (c : Z) : option nat :=
  match s with
  | [] => None
  | x :: s' =>
    match LastIndexByte s' c with
    | Some i => Some (S i)
    | None => if x =? c then Some 0%nat else None
    end
  end.

Definition colon : Z := 58.
Definition lbracket : Z := 91.
Definition rbracket : Z := 93.
Definition dot : Z := 46.

(** [net.SplitHostPort] *)
Definition SplitHostPort (hp : bytes) : outcome (bytes * bytes) :=
  match LastIndexByte hp colon with
  | None => Err "missing port in address"
  | Some i =>
    let finish (host : bytes) (j k : nat) : outcome (bytes * bytes) :=
      match IndexByte (drop j hp) lbracket, IndexByte (drop k hp) rbracket with
      | Some _, _ => Err "unexpected '[' in address"
      | None, Some _ => Err "unexpected ']' in address"
      | None, None => Ret (host, drop (S i) hp)
      end in
    if bool_decide (hp !! 0%nat = Some lbracket) then
      match IndexByte hp rbracket with
      | None => Err "missing ']' in address"
      | Some e =>
        if (S e =? length hp)%nat then Err "missing port in address"
        else if (S e =? i)%nat then finish (take (e - 1) (drop 1 hp)) 1%nat (S e)
        else if bool_decide (hp !! S e = Some colon) then Err "too many colons in address"
        else Err "missing port in address"
      end
    else
      let host := take i hp in
      match IndexByte host colon with
      | Some _ => Err "too many colons in address"
      | None => finish host 0%nat 0%nat
      end
  end.

(** ** Addresses *)

(** A [net.IP]: four or sixteen bytes; the empty list is [nil]. *)
Definition IP : Type := bytes.

Definition v4InV6Prefix : bytes := replicate 10 0 ++ [255; 255].

Definition To4 (ip : IP) : option bytes :=
  if (length ip =? 4)%nat then Some ip
  else if (length ip =? 16)%nat && bytes_eqb (take 12 ip) v4InV6Prefix then Some (drop 12 ip)
  else None.

Definition byte_at (ip : bytes) (i : nat) : Z := default 0 (ip !! i).

Definition IsUnspecified (ip : IP) : bool :=
  match To4 ip with
  | Some ip4 => bytes_eqb ip4 (replicate 4 0)
  | None => bytes_eqb ip (replicate 16 0)
  end.

Definition IsMulticast (ip : IP) : bool :=
  match To4 ip with
  | Some ip4 => Z.land (byte_at ip4 0) 0xf0 =? 0xe0
  | None => (length ip =? 16)%nat && (byte_at ip 0 =? 0xff)
  end.

Definition IsLinkLocalMulticast (ip : IP) : bool :=
  match To4 ip with
  | Some ip4 => (byte_at ip4 0 =? 224) && (byte_at ip4 1 =? 0) && (byte_at ip4 2 =? 0)
  | None => (length ip =? 16)%nat && (byte_at ip 0 =? 0xff) && (Z.land (byte_at ip 1) 0x0f =? 0x02)
  end.

(** A parsed CIDR: network number (four or sixteen bytes) and mask. *)
Record IPNet := mkNet { net_ip : bytes; net_mask : bytes }.

Fixpoint mask_bytes (n : nat) (ones : Z) : bytes :=
  match n with
  | O => []
  | S n' =>
    (if 8 <=? ones then 255 else if ones <=? 0 then 0 else 256 - 2 ^ (8 - ones)) :: mask_bytes n' (ones - 8)
  end.

Definition CIDR (ip : bytes) (ones : Z) : IPNet := mkNet ip (mask_bytes (length ip) ones).

Definition Contains (n : IPNet) (ip : IP) : bool :=
  let x := default ip (To4 ip) in
  (length x =? length (net_ip n))%nat
  && forallb (λ t, Z.land (fst (fst t)) (snd (fst t)) =? Z.land (snd t) (snd (fst t)))
       (zip (zip (net_ip n) (net_mask n)) x).

Definition v6 (l : bytes) : bytes := l ++ replicate (16 - length l) 0.

Definition privateNets : list IPNet :=
  [ CIDR [127; 0; 0; 0] 8; CIDR [10; 0; 0; 0] 8; CIDR [172; 16; 0; 0] 12; CIDR [192; 168; 0; 0] 16;
    CIDR [169; 254; 0; 0] 16; CIDR (replicate 15 0 ++ [1]) 128; CIDR (v6 [0xfc]) 7; CIDR (v6 [0xfe; 0x80]) 10;
    CIDR [100; 64; 0; 0] 10; CIDR [0; 0; 0; 0] 8;
    CIDR (v6 [0; 0x64; 0xff; 0x9b]) 96; CIDR (v6 [0; 0x64; 0xff; 0x9b; 0; 1]) 48; CIDR (v6 [0x20; 0x02]) 16;
    CIDR (v6 [0x20; 0x01]) 32; CIDR (v6 [0x01; 0]) 64; CIDR [198; 18; 0; 0] 15; CIDR [255; 255; 255; 255] 32 ].

Definition isPrivateIP (ip : IP) : bool :=
  if (length ip =? 0)%nat then true
  else if IsUnspecified ip || IsMulticast ip || IsLinkLocalMulticast ip then true
  else existsb (λ n, Contains n ip) privateNets.

(** ** Dialling *)

Inductive dial := DialIP (ip : IP) (port : bytes) | DialRaw (target : bytes).

(** The loop over the resolved addresses. *)
Fixpoint pick_ip (ips : list IP) (validIP : option IP) : outcome (option IP) :=
  match ips with
  | [] => Ret validIP
  | ip :: ips' =>
    if isPrivateIP ip then Err "target resolves to private IP"
    else pick_ip ips' (match validIP with None => Some ip | _ => validIP end)
  end.

Section egress.
(** [resolver.LookupIPAddr]; [None] is an error. *)
Context (LookupIPAddr : bytes → option (list IP)).
(** [net.ParseIP] *)
Context (ParseIP : bytes → option IP).
(** [net.DefaultResolver.LookupAddr]: the names of an address. *)
Context (LookupAddr : bytes → option (list bytes)).

(** What [SafeDial] hands to the dialer. *)
Definition SafeDial (target : bytes) : outcome dial :=
  match SplitHostPort target with
  | Ret (host, port) =>
    if (length port =? 0)%nat then Err "missing port in target" else
    match LookupIPAddr host with
    | None =>
      match ParseIP host with
      | None => Err "cannot resolve target"
      | Some ip => if isPrivateIP ip then Err "target IP is in private range" else Ret (DialRaw target)
      end
    | Some ips =>
      validIP ← pick_ip ips None;
      match validIP with
      | None => Err "target resolved to no valid IPs"
      | Some ip => Ret (DialIP ip port)
      end
    end
  | Err e => Err e
  | Panic => Panic
  end.

(** ** The block list *)

Definition matchesBlockList (host : bytes) (blockDomains : list bytes) : bool :=
  let host := ToLower host in
  existsb (λ pattern,
    let p := ToLower pattern in
    if HasPrefix p [42; dot] then HasSuffix host (drop 1 p)
    else bytes_eqb host p || HasSuffix host (dot :: p)) blockDomains.

Definition isBlockedDomain (host : bytes) (blockDomains : list bytes) : bool :=
  if matchesBlockList host blockDomains then true else
  match ParseIP host with
  | Some _ =>
    match LookupAddr host with
    | Some names => existsb (λ name, matchesBlockList (TrimSuffix name [dot]) blockDomains) names
    | None => false
    end
  | None => false
  end.

(** The UDP branch: block list, resolution, reserved ranges. *)
Definition udp_target (ResolveUDPAddr : bytes → option (IP * bytes)) (targetAddr : bytes)
    (blockDomains : list bytes) : option (IP * bytes) :=
  let udpHost := match SplitHostPort targetAddr with Ret (h, _) => h | _ => targetAddr end in
  if isBlockedDomain udpHost blockDomains then None else
  match ResolveUDPAddr targetAddr with
  | None => None
  | Some (ip, port) => if isPrivateIP ip then None else Some (ip, port)
  end.

(** ** What can be dialled *)

Lemma pick_ip_public ips v r :
  pick_ip ips v = Ret r → (∀ ip, v = Some ip → isPrivateIP ip = false) →
  Forall (λ ip, isPrivateIP ip = false) ips ∧ ∀ ip, r = Some ip → isPrivateIP ip = false.
Proof using.
  revert v. induction ips as [| ip ips IH]; intros v E Hv; cbn in E; [injection E as <-; by split |].
  destruct (isPrivateIP ip) eqn:Ep; [done |]. destruct (IH _ E) as [Hips Hr].
  { intros ip' Hip. destruct v; [by apply Hv | by injection Hip as <-]. }
  split; [by constructor | done].
Qed.


End egress.

(** ** The reserved ranges *)

(** The IPv4 ranges, by number. *)
Definition reserved_v4 (a b c d : Z) : bool :=
  (a =? 0) || (a =? 10) || (a =? 127) || ((224 <=? a) && (a <=? 239))
  || ((a =? 100) && (64 <=? b) && (b <=? 127)) || ((a =? 169) && (b =? 254))
  || ((a =? 172) && (16 <=? b) && (b <=? 31)) || ((a =? 192) && (b =? 168))
  || ((a =? 198) && (18 <=? b) && (b <=? 19))
  || ((a =? 255) && (b =? 255) && (c =? 255) && (d =? 255)).

(** A property of bytes holds if it holds of the 256 bytes. *)
Lemma byte_cases (P : Z → bool) :
  forallb P (Z.of_nat <$> seq 0 256) = true → ∀ x, is_byte x → P x = true.
Proof.
  intros H x Hx. rewrite forallb_forall in H. apply H. apply list_elem_of_In, list_elem_of_fmap.
  exists (Z.to_nat x). unfold is_byte in Hx. split; [lia |]. apply elem_of_seq. lia.
Qed.

Lemma land_byte_255 x : is_byte x → Z.land x 255 = x.
Proof.
  intros Hx. apply Z.eqb_eq. revert x Hx. apply (byte_cases (λ x, Z.land x 255 =? x)). vm_compute. reflexivity.
Qed.

(** A mask of the leading bits is a range test. *)
Lemma land_mask_range m lo hi :
  forallb (λ x, eqb (Z.land lo m =? Z.land x m) ((lo <=? x) && (x <=? hi))) (Z.of_nat <$> seq 0 256) = true →
  ∀ x, is_byte x → (Z.land lo m =? Z.land x m) = ((lo <=? x) && (x <=? hi)).
Proof. intros H x Hx. apply eqb_prop. by apply (byte_cases (λ x, eqb _ _) H). Qed.

Lemma land_mask_range' m lo hi v :
  Z.land lo m = v → 
  forallb (λ x, eqb (Z.land x m =? v) ((lo <=? x) && (x <=? hi))) (Z.of_nat <$> seq 0 256) = true →
  ∀ x, is_byte x → (Z.land x m =? v) = ((lo <=? x) && (x <=? hi)).
Proof. intros _ H x Hx. apply eqb_prop. by apply (byte_cases (λ x, eqb _ _) H). Qed.

Lemma mask12 x : is_byte x → (16 =? Z.land x 240) = ((16 <=? x) && (x <=? 31)).
Proof. apply (land_mask_range 240 16 31). vm_compute. reflexivity. Qed.
Lemma mask10 x : is_byte x → (64 =? Z.land x 192) = ((64 <=? x) && (x <=? 127)).
Proof. apply (land_mask_range 192 64 127). vm_compute. reflexivity. Qed.
Lemma mask15 x : is_byte x → (18 =? Z.land x 254) = ((18 <=? x) && (x <=? 19)).
Proof. apply (land_mask_range 254 18 19). vm_compute. reflexivity. Qed.
Lemma mask4 x : is_byte x → (Z.land x 240 =? 224) = ((224 <=? x) && (x <=? 239)).
Proof. rewrite Z.eqb_sym. apply (land_mask_range 240 224 239). vm_compute. reflexivity. Qed.

Lemma privateNets_v4 a b c d :
  is_byte a → is_byte b → is_byte c → is_byte d →
  existsb (λ n, Contains n [a; b; c; d]) privateNets
  = ((127 =? a) || ((10 =? a) || (((172 =? a) && ((16 <=? b) && (b <=? 31))) || (((192 =? a) && (168 =? b))
     || (((169 =? a) && (254 =? b)) || (((100 =? a) && ((64 <=? b) && (b <=? 127))) || ((0 =? a)
     || (((198 =? a) && ((18 <=? b) && (b <=? 19)))
     || ((255 =? a) && ((255 =? b) && ((255 =? c) && (255 =? d)))))))))))).
Proof.
  intros Ha Hb Hc Hd.
  let l := eval vm_compute in privateNets in change privateNets with l.
  unfold Contains. cbn -[Z.land Z.eqb Z.leb].
  change (Z.land 127 255) with 127. change (Z.land 10 255) with 10. change (Z.land 172 255) with 172.
  change (Z.land 192 255) with 192. change (Z.land 168 255) with 168. change (Z.land 169 255) with 169.
  change (Z.land 254 255) with 254. change (Z.land 100 255) with 100. change (Z.land 198 255) with 198.
  change (Z.land 255 255) with 255. change (Z.land 0 255) with 0. change (Z.land 16 240) with 16.
  change (Z.land 64 192) with 64. change (Z.land 18 254) with 18. change (Z.land 0 0) with 0.
  rewrite !Z.land_0_r, !(land_byte_255 _ Ha), !(land_byte_255 _ Hb), !(land_byte_255 _ Hc), !(land_byte_255 _ Hd).
  rewrite (mask12 _ Hb), (mask10 _ Hb), (mask15 _ Hb). change (0 =? 0) with true.
  by rewrite ?andb_true_r, ?orb_false_r.
Qed.

(** The range check decides exactly the reserved IPv4 ranges, also for the
    addresses written in IPv6 form. *)
Theorem private_v4_exact a b c d :
  is_byte a → is_byte b → is_byte c → is_byte d →
  isPrivateIP [a; b; c; d] = reserved_v4 a b c d
  ∧ isPrivateIP (v4InV6Prefix ++ [a; b; c; d]) = reserved_v4 a b c d.
Proof.
  intros Ha Hb Hc Hd.
  assert (isPrivateIP [a; b; c; d] = reserved_v4 a b c d) as H4.
  { unfold isPrivateIP, IsUnspecified, IsMulticast, IsLinkLocalMulticast. cbn [length Nat.eqb To4 byte_at].
    rewrite (privateNets_v4 a b c d Ha Hb Hc Hd). unfold byte_at. cbn [lookup list_lookup default].
    unfold id. rewrite (mask4 _ Ha). unfold bytes_eqb, reserved_v4.
    case_bool_decide as E; [injection E as -> -> -> ->; reflexivity |].
    cbn [orb]. clear E. rewrite !(Z.eqb_sym _ a), !(Z.eqb_sym _ b), !(Z.eqb_sym _ c), !(Z.eqb_sym _ d).
    destruct (Z.eqb_spec a 224) as [-> | _]; [reflexivity |]. cbn [andb]. rewrite orb_false_r.
    match goal with |- (if ?x then true else ?y) = _ => change (if x then true else y) with (x || y) end. btauto. }
  split; [done |]. rewrite <- H4. unfold isPrivateIP, IsUnspecified, IsMulticast, IsLinkLocalMulticast.
  assert (To4 (v4InV6Prefix ++ [a; b; c; d]) = Some [a; b; c; d]) as -> by reflexivity.
  cbn [length app v4InV6Prefix replicate Nat.eqb To4].
  assert (∀ n, Contains n (v4InV6Prefix ++ [a; b; c; d]) = Contains n [a; b; c; d]) as Hc' by done.
  done.
Qed.

(** Prefixes that embed an IPv4 address are refused whatever they embed. *)
Theorem embedded_v4_refused a b c d :
  isPrivateIP (v6 [0; 0x64; 0xff; 0x9b; 0; 0; 0; 0; 0; 0; 0; 0; a; b; c; d]) = true
  ∧ isPrivateIP (v6 [0x20; 0x02; a; b; c; d]) = true.
Proof.
  unfold isPrivateIP. cbn [v6 length app replicate Nat.sub Nat.eqb].
  let l := eval vm_compute in privateNets in change privateNets with l.
  split; match goal with |- (if ?x then true else existsb ?f ?l) = true => change (x || existsb f l = true) end;
    apply orb_true_iff; right; apply existsb_exists;
    [exists (mkNet (v6 [0; 0x64; 0xff; 0x9b]) (mask_bytes 16 96)) | exists (mkNet (v6 [0x20; 0x02]) (mask_bytes 16 16))];
    (split; [cbn; tauto |]); unfold Contains;
    match goal with |- context [To4 ?ip] => change (To4 ip) with (@None bytes) end;
    cbn -[Z.land Z.eqb]; rewrite !Z.land_0_r; reflexivity.
Qed.

(** A blocked name with a final dot - the same name to a resolver - is not
    blocked. *)
Theorem trailing_dot_not_blocked name :
  name = bytes_of_string "illegal.com" →
  matchesBlockList name [name] = true ∧ matchesBlockList (bytes_of_string "www.illegal.com") [name] = true
  ∧ matchesBlockList (name ++ [dot]) [name] = false.
Proof. intros ->. by vm_compute. Qed.

(** ** Witnesses *)

Definition demo_lookup (h : bytes) : option (list IP) :=
  if bytes_eqb h (bytes_of_string "good.example") then Some [[93; 184; 216; 34]]
  else if bytes_eqb h (bytes_of_string "evil.example") then Some [[93; 184; 216; 34]; [10; 0; 0; 1]]
  else None.
Definition demo_parse (h : bytes) : option IP := None.
Definition demo_udp (a : bytes) : option (IP * bytes) := Some ([8; 8; 8; 8], bytes_of_string "53").


Lemma private_v4_exact_witness :
  isPrivateIP [172; 20; 0; 1] = true ∧ isPrivateIP (v4InV6Prefix ++ [172; 20; 0; 1]) = true.
Proof.
  apply (private_v4_exact 172 20 0 1); unfold is_byte; split; discriminate || reflexivity.
Defined.
