(* ===== verification/Socks5.v ===== *)
(** * The SOCKS5 front end ([proxy/socks5/parse.go], the handshake of
      [server.go])

    The textual destinations the client works with, the two parsers and the
    header builder, and the handshake of one connection as a function of what
    arrives on it.  The reference is RFC 1928: a destination is an IPv4 address,
    a name or an IPv6 address with a port; [encode_dest] is its wire form and
    [print_dest] the "host:port" text.  IPv4 text is [net.ParseIP]'s own; the text
    of IPv6 addresses is a class with the round trip the standard library
    documents. *)

From S2P Require Import Prelude.
From S2P Require Import EgressGuard.
From stdpp Require Import base list sets strings.

#[local] Open Scope Z_scope.

(** ** Constants *)

Definition reply_code (rep : Z) : bytes := [5; rep; 0; 1; 0; 0; 0; 0; 0; 0].
Definition ReplySuccess : bytes := reply_code 0.
Definition ReplyGeneralFailure : bytes := reply_code 1.
Definition ReplyNotAllowed : bytes := reply_code 2.
Definition ReplyNetUnreachable : bytes := reply_code 3.
Definition ReplyHostUnreachable : bytes := reply_code 4.
Definition ReplyConnRefused : bytes := reply_code 5.
Definition ReplyCmdNotSupported : bytes := reply_code 7.
Definition ReplyAddrNotSupported : bytes := reply_code 8.

Definition AtypIPv4 : Z := 1.
Definition AtypDomain : Z := 3.
Definition AtypIPv6 : Z := 4.
Definition CmdConnect : Z := 1.
Definition CmdUDPAssociate : Z := 3.

(** ** Addresses as text *)

Class IPv6Text := {
  parse6 : bytes → option IP;
  format6 : IP → bytes;
}.
Class IPv6TextLaws `{!IPv6Text} := {
  parse_format6 ip : length ip = 16%nat → is_bytes ip → To4 ip = None → parse6 (format6 ip) = Some ip;
  format6_shape ip : length ip = 16%nat → is_bytes ip → To4 ip = None →
    ∃ l r, format6 ip = l ++ colon :: r ∧ dot ∉ l ∧ colon ∉ l ∧ 37 ∉ l ∧ lbracket ∉ format6 ip ∧ rbracket ∉ format6 ip;
}.

(** [%d] of a number below 100000. *)
Definition Itoa (n : Z) : bytes := decimal 5 n.

(** [%d.%d.%d.%d] *)
Definition dotted (a b c d : Z) : bytes := Itoa a ++ dot :: Itoa b ++ dot :: Itoa c ++ dot :: Itoa d.

Fixpoint split_dots (cur s : bytes) : list bytes :=
  match s with
  | [] => [cur]
  | c :: s' => if c =? dot then cur :: split_dots [] s' else split_dots (cur ++ [c]) s'
  end.

(** A field of a dotted address: one to three digits without a leading zero, at
    most 255. *)
Definition field4 (f : bytes) : option Z :=
  if (len f =? 0) || (3 <? len f) || negb (forallb (λ d, (48 <=? d) && (d <=? 57)) f) then None else
  if (1 <? len f) && (bool_decide (f !! 0%nat = Some 48)) then None else
  if 255 <? undecimal f then None else Some (undecimal f).

Definition parse4 (s : bytes) : option IP :=
  match split_dots [] s with
  | [f1; f2; f3; f4] =>
    match field4 f1, field4 f2, field4 f3, field4 f4 with
    | Some a, Some b, Some c, Some d => Some (v4InV6Prefix ++ [a; b; c; d])
    | _, _, _, _ => None
    end
  | _ => None
  end.

(** [netip.ParseAddr] looks for the first of '.', ':' and '%'. *)
Fixpoint addr_kind (s : bytes) : option Z :=
  match s with
  | [] => None
  | c :: s' => if (c =? dot) || (c =? colon) || (c =? 37) then Some c else addr_kind s'
  end.

Section text.
Context {T6 : IPv6Text}.

Definition ParseIP (s : bytes) : option IP :=
  match addr_kind s with
  | Some c => if c =? dot then parse4 s else if c =? colon then parse6 s else None
  | None => None
  end.

(** [net.IP.String] of a 16-byte address. *)
Definition IPString (ip : IP) : bytes :=
  match To4 ip with
  | Some [a; b; c; d] => dotted a b c d
  | _ => format6 ip
  end.

(** ** The parsers *)

Definition port_of (hi lo : Z) : Z := Z.lor (Z.shiftl hi 8) lo.

Definition ParseDestAddr (buf : bytes) (n : Z) : outcome bytes :=
  if n <? 4 then Ret [] else
  atyp ← index buf 3;
  if atyp =? AtypIPv4 then
    if n <? 10 then Ret [] else
    a ← index buf 4; b ← index buf 5; c ← index buf 6; d ← index buf 7; p1 ← index buf 8; p2 ← index buf 9;
    Ret (dotted a b c d ++ colon :: Itoa (port_of p1 p2))
  else if atyp =? AtypDomain then
    if n <? 5 then Ret [] else
    domainLen ← index buf 4;
    if n <? 5 + domainLen + 2 then Ret [] else
    domain ← slice buf 5 (5 + domainLen);
    p1 ← index buf (5 + domainLen); p2 ← index buf (5 + domainLen + 1);
    Ret (domain ++ colon :: Itoa (port_of p1 p2))
  else if atyp =? AtypIPv6 then
    if n <? 22 then Ret [] else
    ip ← slice buf 4 20; p1 ← index buf 20; p2 ← index buf 21;
    Ret (lbracket :: IPString ip ++ rbracket :: colon :: Itoa (port_of p1 p2))
  else Ret [].

(** [None] is the result [("", 0, false)]. *)
Definition ParseSOCKS5UDPHeader (buf : bytes) (n : Z) : outcome (option (bytes * Z)) :=
  if n <? 4 then Ret None else
  frag ← index buf 2;
  if negb (frag =? 0) then Ret None else
  atyp ← index buf 3;
  if atyp =? AtypIPv4 then
    if n <? 10 then Ret None else
    a ← index buf 4; b ← index buf 5; c ← index buf 6; d ← index buf 7; p1 ← index buf 8; p2 ← index buf 9;
    Ret (Some (dotted a b c d ++ colon :: Itoa (port_of p1 p2), 10))
  else if atyp =? AtypDomain then
    if n <? 5 then Ret None else
    domainLen ← index buf 4;
    if n <? 5 + domainLen + 2 then Ret None else
    domain ← slice buf 5 (5 + domainLen);
    p1 ← index buf (5 + domainLen); p2 ← index buf (5 + domainLen + 1);
    Ret (Some (domain ++ colon :: Itoa (port_of p1 p2), 5 + domainLen + 2))
  else if atyp =? AtypIPv6 then
    if n <? 22 then Ret None else
    ip ← slice buf 4 20; p1 ← index buf 20; p2 ← index buf 21;
    Ret (Some (lbracket :: IPString ip ++ rbracket :: colon :: Itoa (port_of p1 p2), 22))
  else Ret None.

(** ** The header builder *)

Definition is_space (c : Z) : bool := (c =? 32) || ((9 <=? c) && (c <=? 13) && negb (c =? 10)).
Definition is_digit (c : Z) : bool := (48 <=? c) && (c <=? 57).

Fixpoint take_while (f : Z → bool) (s : bytes) : bytes :=
  match s with c :: s' => if f c then c :: take_while f s' else [] | [] => [] end.
Fixpoint drop_while (f : Z → bool) (s : bytes) : bytes :=
  match s with c :: s' => if f c then drop_while f s' else s | [] => [] end.

(** [fmt.Sscanf(s, "%d", &v)] with [v] zero before: blanks, a sign, digits;
    without a digit or past 64 bits [v] is left alone. *)
Definition Sscanf_d (s : bytes) : Z :=
  let s := drop_while is_space s in
  let '(neg, s) := match s with
                   | c :: s' => if c =? 45 then (true, s') else if c =? 43 then (false, s') else (false, s)
                   | [] => (false, [])
                   end in
  let ds := take_while is_digit s in
  let v := if neg then - undecimal ds else undecimal ds in
  if len ds =? 0 then 0 else
  if (- 2 ^ 63 <=? v) && (v <? 2 ^ 63) then v else 0.

Definition To16 (ip : IP) : bytes := if (length ip =? 4)%nat then v4InV6Prefix ++ ip else ip.

(** [hdr := make(size)], RSV, FRAG and ATYP. *)
Definition udp_hdr (size atyp : Z) : outcome bytes :=
  h ← set_index (make_bytes size) 0 0; h ← set_index h 1 0; h ← set_index h 2 0; set_index h 3 atyp.

(** [None] is the [nil] slice. *)
Definition BuildSOCKS5UDPHeader (addr data : bytes) : outcome (option bytes) :=
  match SplitHostPort addr with
  | Ret (host, portStr) =>
    let port := Sscanf_d portStr in
    let phi := u8 (Z.shiftr port 8) in
    let plo := u8 (Z.land port 0xff) in
    match ParseIP host with
    | Some ip =>
      match To4 ip with
      | Some ip4 =>
        h ← udp_hdr (10 + len data) AtypIPv4;
        h ← copy_into h 4 8 ip4;
        h ← set_index h 8 phi; h ← set_index h 9 plo;
        Some <$> copy_into h 10 (len h) data
      | None =>
        h ← udp_hdr (22 + len data) AtypIPv6;
        h ← copy_into h 4 20 (To16 ip);
        h ← set_index h 20 phi; h ← set_index h 21 plo;
        Some <$> copy_into h 22 (len h) data
      end
    | None =>
      let n := len host in
      h ← udp_hdr (5 + n + 2 + len data) AtypDomain;
      h ← set_index h 4 (u8 n);
      h ← copy_into h 5 (5 + n) host;
      h ← set_index h (5 + n) phi; h ← set_index h (5 + n + 1) plo;
      Some <$> copy_into h (5 + n + 2) (len h) data
    end
  | _ => Ret None
  end.

(** ** The handshake of one connection *)

Record Server := mkServer { Username : bytes; Password : bytes; PerStreamWS : bool; WST : bool }.

Definition bufSize : Z := 513.

(** What arrives on the connection: one list per read that can be satisfied at
    once; after the last the peer has closed or the deadline has passed.  A read
    takes at most the room offered and leaves the rest. *)
Definition unread (rest : bytes) (segs : list bytes) : list bytes := match rest with [] => segs | _ => rest :: segs end.
Definition conn_read (room : Z) (segs : list bytes) : option (bytes * list bytes) :=
  match segs with
  | [] => None
  | s :: segs' => Some (take (Z.to_nat room) s, unread (drop (Z.to_nat room) s) segs')
  end.

(** The bytes of a read replace those of the buffer from [n] on. *)
Definition overlay (buf : bytes) (n : Z) (m : bytes) : bytes :=
  take (Z.to_nat n) buf ++ m ++ drop (Z.to_nat n + length m) buf.

(** [io.ReadAtLeast(conn, buf, 7)], [n] bytes read so far. *)
Fixpoint ReadAtLeast (buf : bytes) (n : Z) (segs : list bytes) : option (bytes * Z * list bytes) :=
  if 7 <=? n then Some (buf, n, segs) else
  match segs with
  | [] => None
  | s :: segs' =>
    let m := take (Z.to_nat (bufSize - n)) s in
    match drop (Z.to_nat (bufSize - n)) s with
    | [] => ReadAtLeast (overlay buf n m) (n + len m) segs'
    | rest => Some (overlay buf n m, n + len m, rest :: segs')
    end
  end.

(** The sub-negotiation of RFC 1929. *)
Definition authenticate (s : Server) (buf : bytes) (n : Z) : outcome bool :=
  if n <? 3 then Ret false else
  b0 ← index buf 0;
  if negb (b0 =? 1) then Ret false else
  ulen ← index buf 1;
  if n <? 2 + ulen + 1 then Ret false else
  user ← slice buf 2 (2 + ulen);
  plen ← index buf (2 + ulen);
  if n <? 2 + ulen + 1 + plen then Ret false else
  pass ← slice buf (2 + ulen + 1) (2 + ulen + 1 + plen);
  Ret (bytes_eqb user (Username s) && bytes_eqb pass (Password s)).

Inductive mode := PerStream | OverWS | Poll.
Inductive handled := HClosed | HConnect (m : mode) (dest : bytes) | HAssociate (ws : bool).

Definition dispatch (s : Server) (buf : bytes) (n : Z) : outcome (list bytes * handled) :=
  cmd ← index buf 1;
  if cmd =? CmdConnect then
    destAddr ← ParseDestAddr buf n;
    if len destAddr =? 0 then Ret ([ReplyAddrNotSupported], HClosed) else
    Ret ([], HConnect (if PerStreamWS s then PerStream else if WST s then OverWS else Poll) destAddr)
  else if cmd =? CmdUDPAssociate then Ret ([], HAssociate (WST s))
  else Ret ([ReplyCmdNotSupported], HClosed).

(** The request, once the method is settled; [written] is what has been sent. *)
Definition serve_request (s : Server) (written : list bytes) (buf : bytes) (segs : list bytes) : outcome (list bytes * handled) :=
  match ReadAtLeast buf 0 segs with
  | None => Ret (written, HClosed)
  | Some (buf, n, _) => r ← dispatch s buf n; Ret (written ++ fst r, snd r)
  end.

(** [handleConn]: what is written and which handler is entered. *)
Definition handleConn (s : Server) (segs : list bytes) : outcome (list bytes * handled) :=
  let buf := make_bytes bufSize in
  match conn_read bufSize segs with
  | None => Ret ([], HClosed)
  | Some (m, segs) =>
    let buf := overlay buf 0 m in
    if len m <? 2 then Ret ([], HClosed) else
    b0 ← index buf 0;
    if negb (b0 =? 5) then Ret ([], HClosed) else
    if bytes_eqb (Username s) [] then serve_request s [[5; 0]] buf segs else
    match conn_read bufSize segs with
    | None => Ret ([[5; 2]; [1; 1]], HClosed)
    | Some (m, segs) =>
      let buf := overlay buf 0 m in
      ok ← authenticate s buf (len m);
      if (ok : bool) then serve_request s [[5; 2]; [1; 0]] buf segs else Ret ([[5; 2]; [1; 1]], HClosed)
    end
  end.

(** ** Reference *)

Inductive dest :=
| DV4 (a b c d : Z) (port : Z)
| DName (name : bytes) (port : Z)
| DV6 (ip : IP) (port : Z).

Definition dest_wf (d : dest) : Prop :=
  match d with
  | DV4 a b c e p => is_bytes [a; b; c; e] ∧ 0 ≤ p < 2 ^ 16
  | DName nm p => is_bytes nm ∧ len nm < 256 ∧ 0 ≤ p < 2 ^ 16
  | DV6 ip p => is_bytes ip ∧ length ip = 16%nat ∧ 0 ≤ p < 2 ^ 16
  end.

(** RFC 1928: ATYP, address, port. *)
Definition encode_dest (d : dest) : bytes :=
  match d with
  | DV4 a b c e p => AtypIPv4 :: [a; b; c; e] ++ be_bytes 2 p
  | DName nm p => AtypDomain :: len nm :: nm ++ be_bytes 2 p
  | DV6 ip p => AtypIPv6 :: ip ++ be_bytes 2 p
  end.

Definition print_dest (d : dest) : bytes :=
  match d with
  | DV4 a b c e p => dotted a b c e ++ colon :: Itoa p
  | DName nm p => nm ++ colon :: Itoa p
  | DV6 ip p => lbracket :: IPString ip ++ rbracket :: colon :: Itoa p
  end.

Definition decode_port (mk : Z → dest) (s : bytes) : option (dest * bytes) :=
  match s with p1 :: p2 :: rest => Some (mk (be_value [p1; p2]), rest) | _ => None end.

Definition decode_dest (s : bytes) : option (dest * bytes) :=
  match s with
  | [] => None
  | atyp :: s' =>
    if atyp =? AtypIPv4 then
      match s' with a :: b :: c :: e :: s'' => decode_port (DV4 a b c e) s'' | _ => None end
    else if atyp =? AtypDomain then
      match s' with
      | n :: s'' => if n <=? len s'' then decode_port (DName (take (Z.to_nat n) s'')) (drop (Z.to_nat n) s'') else None
      | [] => None
      end
    else if atyp =? AtypIPv6 then
      if 16 <=? len s' then decode_port (DV6 (take 16 s')) (drop 16 s') else None
    else None
  end.

Lemma decode_port_spec mk s d rest :
  is_bytes s → decode_port mk s = Some (d, rest) → ∃ p, 0 ≤ p < 2 ^ 16 ∧ d = mk p ∧ s = be_bytes 2 p ++ rest.
Proof.
  destruct s as [| p1 [| p2 s]]; try done. intros Hs [= <- <-].
  assert (is_bytes [p1; p2]) as Hp by (apply (is_bytes_take 2) in Hs; done).
  exists (be_value [p1; p2]). split_and!; [apply (be_value_range _ Hp) .. | done |].
  by rewrite (be_bytes_value [p1; p2] Hp : be_bytes 2 _ = _).
Qed.

Lemma decode_port_encode mk p rest : 0 ≤ p < 2 ^ 16 → decode_port mk (be_bytes 2 p ++ rest) = Some (mk p, rest).
Proof.
  intros Hp. pose proof (length_be_bytes 2 p) as Hl. pose proof (be_value_bytes_small 2 p ltac:(lia)) as Hv.
  destruct (be_bytes 2 p) as [| p1 [| p2 [|]]]; try discriminate. cbn [decode_port app]. by rewrite Hv.
Qed.

Lemma decode_encode d rest : dest_wf d → decode_dest (encode_dest d ++ rest) = Some (d, rest).
Proof.
  destruct d as [a b c e p | nm p | ip p]; cbn [dest_wf encode_dest app decode_dest].
  - intros [_ Hp]. by apply decode_port_encode.
  - intros (_ & _ & Hp). rewrite <- app_assoc. rewrite (proj2 (Z.leb_le _ _)) by len_solve.
    rewrite to_nat_len, drop_app_length, take_app_length. by apply decode_port_encode.
  - intros (_ & Hl & Hp). rewrite <- app_assoc. rewrite (proj2 (Z.leb_le _ _)) by (unfold len; rewrite length_app; lia).
    rewrite <- Hl, drop_app_length, take_app_length. by apply decode_port_encode.
Qed.

Lemma decode_sound s d rest : is_bytes s → decode_dest s = Some (d, rest) → dest_wf d ∧ s = encode_dest d ++ rest.
Proof.
  destruct s as [| atyp s]; [done |]. intros [Ha Hs]%Forall_cons. cbn [decode_dest].
  destruct (Z.eqb_spec atyp AtypIPv4) as [-> | _].
  { destruct s as [| a [| b [| c [| e s]]]]; try done. apply (Forall_app _ [a; b; c; e]) in Hs as [H4 Hs].
    intros (p & Hp & -> & ->)%decode_port_spec; done. }
  destruct (Z.eqb_spec atyp AtypDomain) as [-> | _].
  { destruct s as [| n s]; [done |]. apply Forall_cons in Hs as [Hn Hs]. unfold is_byte in Hn.
    destruct (Z.leb_spec n (len s)); [| done].
    intros (p & Hp & -> & Hd)%decode_port_spec; [| by apply is_bytes_drop].
    cbn [dest_wf encode_dest]. assert (len (take (Z.to_nat n) s) = n) as Hl by len_solve. rewrite Hl.
    split; [split_and!; [by apply is_bytes_take | lia ..] |].
    cbn [app]. do 2 f_equal. rewrite <- app_assoc, <- Hd. symmetry. apply take_drop. }
  destruct (Z.eqb_spec atyp AtypIPv6) as [-> | _]; [| done].
  destruct (Z.leb_spec 16 (len s)); [| done].
  intros (p & Hp & -> & Hd)%decode_port_spec; [| by apply is_bytes_drop].
  cbn [dest_wf encode_dest]. split; [split_and!; [by apply is_bytes_take | rewrite length_take; unfold len in *; lia | lia ..] |].
  cbn [app]. f_equal. rewrite <- app_assoc, <- Hd. symmetry. apply take_drop.
Qed.

(** ** The parsers against the reference *)

(** What the two parsers share, from the address type on. *)
Definition parse_body {R} (ok : bytes → Z → R) (no : R) (buf : bytes) (n : Z) : outcome R :=
  atyp ← index buf 3;
  if atyp =? AtypIPv4 then
    if n <? 10 then Ret no else
    a ← index buf 4; b ← index buf 5; c ← index buf 6; d ← index buf 7; p1 ← index buf 8; p2 ← index buf 9;
    Ret (ok (dotted a b c d ++ colon :: Itoa (port_of p1 p2)) 10)
  else if atyp =? AtypDomain then
    if n <? 5 then Ret no else
    domainLen ← index buf 4;
    if n <? 5 + domainLen + 2 then Ret no else
    domain ← slice buf 5 (5 + domainLen);
    p1 ← index buf (5 + domainLen); p2 ← index buf (5 + domainLen + 1);
    Ret (ok (domain ++ colon :: Itoa (port_of p1 p2)) (5 + domainLen + 2))
  else if atyp =? AtypIPv6 then
    if n <? 22 then Ret no else
    ip ← slice buf 4 20; p1 ← index buf 20; p2 ← index buf 21;
    Ret (ok (lbracket :: IPString ip ++ rbracket :: colon :: Itoa (port_of p1 p2)) 22)
  else Ret no.

Definition decoded {R} (ok : bytes → Z → R) (no : R) (s : bytes) (n : Z) : R :=
  match decode_dest s with Some (d, rest) => ok (print_dest d) (n - len rest) | None => no end.

Lemma cut_port k (s : bytes) :
  0 ≤ k → k + 2 ≤ len s →
  ∃ nm p1 p2 r, s = nm ++ p1 :: p2 :: r ∧ len nm = k ∧ take (Z.to_nat k) s = nm ∧ drop (Z.to_nat k) s = p1 :: p2 :: r.
Proof.
  intros Hk Hs. destruct (drop (Z.to_nat k) s) as [| p1 [| p2 r]] eqn:Ed.
  1, 2: pose proof (len_drop (Z.to_nat k) s) as Hl; rewrite Ed in Hl; unfold len in *; cbn in Hl; lia.
  exists (take (Z.to_nat k) s), p1, p2, r. split_and!; [rewrite <- Ed; symmetry; apply take_drop | rewrite len_take; lia | done ..].
Qed.

Lemma no_port mk k s : 0 ≤ k → len s < k + 2 → decode_port mk (drop (Z.to_nat k) s) = None.
Proof.
  intros Hk Hs. destruct (drop (Z.to_nat k) s) as [| p1 [| p2 r]] eqn:Ed; [done .. |].
  pose proof (len_drop (Z.to_nat k) s) as Hl. rewrite Ed, !len_cons in Hl. pose proof (len_nonneg r). lia.
Qed.

Lemma bind_ret {A B} (a : A) (f : A → outcome B) : (Ret a ≫= f) = f a.
Proof. done. Qed.

(** Reading a field of known length and the port after it. *)
Lemma read_field {R} (pre f : bytes) p1 p2 rest lo hi hi' (k : bytes → Z → Z → outcome R) :
  lo = len pre → hi = lo + len f → hi' = hi + 1 →
  (x ← slice (pre ++ f ++ p1 :: p2 :: rest) lo hi; y ← index (pre ++ f ++ p1 :: p2 :: rest) hi;
   z ← index (pre ++ f ++ p1 :: p2 :: rest) hi'; k x y z) = k f p1 p2.
Proof.
  intros -> -> ->. rewrite slice_app_mid by lia. ostep.
  rewrite (app_assoc pre f), index_app by len_solve. ostep.
  change (p1 :: p2 :: rest) with ([p1] ++ p2 :: rest). rewrite (app_assoc _ [p1]), index_app by len_solve. by ostep.
Qed.

Lemma parse_body_spec {R} (ok : bytes → Z → R) no x0 x1 x2 s tail :
  is_bytes s → s ≠ [] →
  parse_body ok no ([x0; x1; x2] ++ s ++ tail) (3 + len s) = Ret (decoded ok no s (3 + len s)).
Proof.
  destruct s as [| atyp s]; [done |]. intros [Ha Hs]%Forall_cons _. unfold parse_body, decoded. cbn [decode_dest].
  change (index ([x0; x1; x2] ++ (atyp :: s) ++ tail) 3) with (Ret (A := Z) atyp). rewrite bind_ret, len_cons.
  destruct (Z.eqb_spec atyp AtypIPv4) as [-> | _].
  { destruct (Z.ltb_spec (3 + (1 + len s)) 10) as [Hn | Hn];
      destruct s as [| a [| b [| c [| e [| p1 [| p2 s]]]]]]; try done; rewrite ?len_cons, ?len_nil in Hn;
      try (pose proof (len_nonneg s)); try lia.
    cbn [decode_port]. rewrite !len_cons. replace (3 + _ - len s) with 10 by lia. reflexivity. }
  destruct (Z.eqb_spec atyp AtypDomain) as [-> | _].
  { destruct s as [| n s]; [done |]. apply Forall_cons in Hs as [Hn Hs]. unfold is_byte in Hn.
    change (index ([x0; x1; x2] ++ (AtypDomain :: n :: s) ++ tail) 4) with (Ret (A := Z) n).
    rewrite bind_ret, len_cons. pose proof (len_nonneg s). rewrite (proj2 (Z.ltb_ge _ 5)) by lia.
    destruct (Z.ltb_spec (3 + (1 + (1 + len s))) (5 + n + 2)).
    - rewrite no_port by lia. by destruct (n <=? len s).
    - rewrite (proj2 (Z.leb_le _ _)) by lia.
      destruct (cut_port n s) as (nm & p1 & p2 & r & -> & Hl & -> & ->); [lia .. |].
      replace ([x0; x1; x2] ++ (AtypDomain :: n :: nm ++ p1 :: p2 :: r) ++ tail)
        with ([x0; x1; x2; AtypDomain; n] ++ nm ++ p1 :: p2 :: r ++ tail) by (cbn; by rewrite <- app_assoc).
      rewrite (read_field [x0; x1; x2; AtypDomain; n] nm) by (rewrite ?Hl, ?len_cons, ?len_nil; lia).
      cbn [decode_port print_dest]. do 2 f_equal. len_solve. }
  destruct (Z.eqb_spec atyp AtypIPv6) as [-> | _]; [| done].
  destruct (Z.ltb_spec (3 + (1 + len s)) 22).
  - change 16%nat with (Z.to_nat 16). rewrite no_port by lia. by destruct (16 <=? len s).
  - rewrite (proj2 (Z.leb_le _ _)) by lia. change 16%nat with (Z.to_nat 16).
    destruct (cut_port 16 s) as (ip & p1 & p2 & r & -> & Hl & -> & ->); [lia .. |].
    replace ([x0; x1; x2] ++ (AtypIPv6 :: ip ++ p1 :: p2 :: r) ++ tail)
      with ([x0; x1; x2; AtypIPv6] ++ ip ++ p1 :: p2 :: r ++ tail) by (cbn; by rewrite <- app_assoc).
    rewrite (read_field [x0; x1; x2; AtypIPv6] ip) by (rewrite ?Hl, ?len_cons, ?len_nil; lia).
    cbn [decode_port print_dest]. do 2 f_equal. len_solve.
Qed.

Definition parse_request_ref (s : bytes) : bytes :=
  match s with _ :: _ :: _ :: s' => decoded (λ t _, t) [] s' (3 + len s') | _ => [] end.

Definition parse_udp_ref (s : bytes) : option (bytes * Z) :=
  match s with
  | _ :: _ :: frag :: s' => if frag =? 0 then decoded (λ t off, Some (t, off)) None s' (3 + len s') else None
  | _ => None
  end.

Lemma three_prefix (buf : bytes) n :
  4 ≤ n ≤ len buf → ∃ x0 x1 x2 s tail,
    buf = [x0; x1; x2] ++ s ++ tail ∧ take (Z.to_nat n) buf = x0 :: x1 :: x2 :: s ∧ n = 3 + len s ∧ s ≠ [].
Proof.
  intros Hn. pose proof (take_drop (Z.to_nat n) buf) as Ht.
  assert (len (take (Z.to_nat n) buf) = n) as Hl by (rewrite len_take; lia).
  destruct (take (Z.to_nat n) buf) as [| x0 [| x1 [| x2 s]]]; rewrite ?len_cons, ?len_nil in Hl; try lia.
  exists x0, x1, x2, s, (drop (Z.to_nat n) buf). split_and!; [by rewrite <- Ht at 1 | done | lia |].
  intros ->. rewrite len_nil in Hl. lia.
Qed.

Lemma parsers_eq buf n :
  is_bytes buf → 0 ≤ n ≤ len buf →
  ParseDestAddr buf n = Ret (parse_request_ref (take (Z.to_nat n) buf))
  ∧ ParseSOCKS5UDPHeader buf n = Ret (parse_udp_ref (take (Z.to_nat n) buf)).
Proof.
  intros Hb Hn. unfold ParseDestAddr, ParseSOCKS5UDPHeader. destruct (Z.ltb_spec n 4) as [H4 | H4].
  - assert (len (take (Z.to_nat n) buf) = n) as Hl by (rewrite len_take; lia).
    destruct (take (Z.to_nat n) buf) as [| x0 [| x1 [| x2 s]]]; try done.
    destruct s; [cbn [parse_udp_ref]; by destruct (x2 =? 0) |].
    rewrite !len_cons in Hl. pose proof (len_nonneg s). lia.
  - destruct (three_prefix buf n) as (x0 & x1 & x2 & s & tail & -> & -> & -> & Hs); [lia |].
    assert (is_bytes s) as Hbs by (apply Forall_app in Hb as [_ Hb]; by apply Forall_app in Hb as [Hb _]).
    split; [exact (parse_body_spec (λ t _, t) [] x0 x1 x2 s tail Hbs Hs) |].
    change (index ([x0; x1; x2] ++ s ++ tail) 2) with (Ret (A := Z) x2). rewrite bind_ret. cbn [parse_udp_ref].
    destruct (Z.eqb_spec x2 0); [| done]. exact (parse_body_spec (λ t off, Some (t, off)) None x0 x1 x2 s tail Hbs Hs).
Qed.


(** ** The builder against the reference *)

Lemma last_index_snoc a b c : c ∉ b → LastIndexByte (a ++ c :: b) c = Some (length a).
Proof.
  intros Hb. induction a as [| x a IH]; cbn [app LastIndexByte length].
  - replace (LastIndexByte b c) with (@None nat); [by rewrite Z.eqb_refl |].
    induction b as [| y b IHb]; [done |]. apply not_elem_of_cons in Hb as [? Hb]. cbn [LastIndexByte]. rewrite <- IHb by done.
    by destruct (Z.eqb_spec y c).
  - by rewrite IH.
Qed.

Lemma index_none s c : c ∉ s → IndexByte s c = None.
Proof.
  induction s as [| y s IH]; [done |]. intros [? Hs]%not_elem_of_cons. cbn [IndexByte].
  destruct (Z.eqb_spec y c); [done |]. by rewrite IH.
Qed.

Lemma index_first a b c : c ∉ a → IndexByte (a ++ c :: b) c = Some (length a).
Proof.
  induction a as [| x a IH]; cbn [app IndexByte length]; [by rewrite Z.eqb_refl |].
  intros [? Ha]%not_elem_of_cons. destruct (Z.eqb_spec x c); [done |]. by rewrite IH.
Qed.

Definition plain (s : bytes) : Prop := colon ∉ s ∧ lbracket ∉ s ∧ rbracket ∉ s.

Lemma Itoa_digits n d : 0 ≤ n → d ∈ Itoa n → 48 ≤ d < 58.
Proof. apply decimal_digits. Qed.

Lemma Itoa_plain n : 0 ≤ n → plain (Itoa n).
Proof. intros Hn. split_and!; intros Hi%Itoa_digits; unfold colon, lbracket, rbracket in *; lia. Qed.

Lemma drop_past {A} (a b : list A) (n : nat) : n = length a → drop n (a ++ b) = b.
Proof. intros ->. apply drop_app_length. Qed.

Lemma split_plain host port : plain host → plain port → SplitHostPort (host ++ colon :: port) = Ret (host, port).
Proof.
  intros (Hc & Hl & Hr) (Pc & Pl & Pr). unfold SplitHostPort. rewrite last_index_snoc by done.
  rewrite bool_decide_eq_false_2.
  2: { destruct host as [| x h]; cbn; [done |]. intros [= ->]. set_solver. }
  rewrite take_app_length, index_none by done. cbn zeta. rewrite !drop_0.
  rewrite !index_none by (rewrite not_elem_of_app, not_elem_of_cons; split_and!; done).
  by rewrite (cons_middle colon), app_assoc, drop_past by (rewrite length_app; cbn; lia).
Qed.

Lemma split_bracketed host port :
  lbracket ∉ host → rbracket ∉ host → plain port →
  SplitHostPort (lbracket :: host ++ rbracket :: colon :: port) = Ret (host, port).
Proof.
  intros Hl Hr (Pc & Pl & Pr). unfold SplitHostPort.
  set (hp := lbracket :: host ++ rbracket :: colon :: port).
  assert (hp = (lbracket :: host ++ [rbracket]) ++ colon :: port) as E1 by (unfold hp; cbn; by rewrite <- app_assoc).
  assert (LastIndexByte hp colon = Some (S (S (length host)))) as ->.
  { rewrite E1, last_index_snoc by done. cbn. rewrite length_app. cbn. f_equal. lia. }
  assert (IndexByte hp rbracket = Some (S (length host))) as ->.
  { apply (index_first (lbracket :: host) (colon :: port) rbracket). by rewrite not_elem_of_cons. }
  rewrite bool_decide_eq_true_2 by done.
  rewrite (proj2 (Nat.eqb_neq _ _)) by (rewrite E1, length_app; cbn; rewrite length_app; cbn; lia).
  rewrite Nat.eqb_refl. cbn zeta.
  assert (drop 1 hp = host ++ rbracket :: colon :: port) as -> by done.
  rewrite index_none by (rewrite not_elem_of_app, !not_elem_of_cons; split_and!; done).
  assert (drop (S (S (length host))) hp = colon :: port) as ->.
  { rewrite E1. apply drop_past. cbn. rewrite length_app. cbn. lia. }
  rewrite index_none by (rewrite not_elem_of_cons; split_and!; done).
  assert (drop (S (S (S (length host)))) hp = port) as ->.
  { rewrite E1, (cons_middle colon), app_assoc. apply drop_past. rewrite length_app. cbn. rewrite length_app. cbn. lia. }
  cbn [Nat.sub]. by rewrite Nat.sub_0_r, take_app_length.
Qed.

Lemma take_while_all f s : Forall (λ c, f c = true) s → take_while f s = s.
Proof. induction 1 as [| c s Hc _ IH]; cbn [take_while]; [done |]. by rewrite Hc, IH. Qed.

(** A printed port is read back. *)
Lemma Sscanf_Itoa p : 0 ≤ p < 2 ^ 16 → Sscanf_d (Itoa p) = p.
Proof.
  intros Hp. assert (∀ d, d ∈ Itoa p → 48 ≤ d < 58) as Hd by (intros d; apply Itoa_digits; lia).
  assert (undecimal (Itoa p) = p) as Hv by (apply (decimal_value 5); change (10 ^ Z.of_nat 5) with 100000; lia).
  assert (take_while is_digit (Itoa p) = Itoa p) as Ht.
  { apply take_while_all, Forall_forall. intros d Hi. specialize (Hd d Hi). unfold is_digit. zcases. }
  unfold Sscanf_d. destruct (Itoa p) as [| d0 s] eqn:E; [cbn in Hv; rewrite <- Hv; done |].
  specialize (Hd d0 ltac:(set_solver)). cbn [drop_while].
  replace (is_space d0) with false by (unfold is_space; zcases).
  rewrite (proj2 (Z.eqb_neq d0 45)), (proj2 (Z.eqb_neq d0 43)) by lia. rewrite Ht, Hv.
  rewrite (proj2 (Z.eqb_neq _ 0)) by (rewrite len_cons; pose proof (len_nonneg s); lia).
  by rewrite (proj2 (Z.leb_le _ _)), (proj2 (Z.ltb_lt _ _)) by lia.
Qed.

Lemma split_dots_field cur f rest :
  dot ∉ f → split_dots cur (f ++ dot :: rest) = (cur ++ f) :: split_dots [] rest.
Proof.
  revert cur. induction f as [| c f IH]; intros cur; cbn [app split_dots]; [by rewrite app_nil_r |].
  intros [? Hf]%not_elem_of_cons. destruct (Z.eqb_spec c dot); [done |]. rewrite IH, <- app_assoc by done. done.
Qed.

Lemma split_dots_last cur f : dot ∉ f → split_dots cur f = [cur ++ f].
Proof.
  revert cur. induction f as [| c f IH]; intros cur; cbn [split_dots]; [by rewrite app_nil_r |].
  intros [? Hf]%not_elem_of_cons. destruct (Z.eqb_spec c dot); [done |]. rewrite IH, <- app_assoc by done. done.
Qed.

Lemma Itoa_no_dot n : 0 ≤ n → dot ∉ Itoa n.
Proof. intros Hn Hi%Itoa_digits; unfold dot in *; lia. Qed.

Lemma field4_Itoa n : is_byte n → field4 (Itoa n) = Some n.
Proof.
  intros Hn. assert (∀ k : nat, (k < 256)%nat → field4 (Itoa (Z.of_nat k)) = Some (Z.of_nat k)) as H.
  { assert (Forall (λ k : nat, field4 (Itoa (Z.of_nat k)) = Some (Z.of_nat k)) (seq 0 256)) as Hf.
    { apply (bool_decide_unpack _). vm_compute. exact I. }
    intros k Hk. rewrite Forall_forall in Hf. apply Hf, elem_of_seq. lia. }
  unfold is_byte in Hn. specialize (H (Z.to_nat n) ltac:(lia)). by rewrite Z2Nat.id in H by lia.
Qed.

Lemma parse4_dotted a b c d : is_bytes [a; b; c; d] → parse4 (dotted a b c d) = Some (v4InV6Prefix ++ [a; b; c; d]).
Proof.
  intros (Ha & (Hb & (Hc & (Hd & _)%Forall_cons)%Forall_cons)%Forall_cons)%Forall_cons. unfold parse4, dotted.
  rewrite !split_dots_field, split_dots_last by (apply Itoa_no_dot; unfold is_byte in *; lia). cbn [app].
  by rewrite !field4_Itoa.
Qed.

Lemma addr_kind_first l c r :
  dot ∉ l → colon ∉ l → 37 ∉ l → (c = dot ∨ c = colon ∨ c = 37) → addr_kind (l ++ c :: r) = Some c.
Proof.
  induction l as [| x l IH]; cbn [app addr_kind]; intros Hd Hc Hp Hx.
  - by destruct Hx as [-> | [-> | ->]].
  - apply not_elem_of_cons in Hd as [? ?], Hc as [? ?], Hp as [? ?].
    rewrite !(proj2 (Z.eqb_neq _ _)) by done. by apply IH.
Qed.

Lemma ParseIP_dotted a b c d : is_bytes [a; b; c; d] → ParseIP (dotted a b c d) = Some (v4InV6Prefix ++ [a; b; c; d]).
Proof.
  intros Hb. unfold ParseIP. replace (addr_kind (dotted a b c d)) with (Some dot); [by apply parse4_dotted |].
  unfold dotted. symmetry. assert (0 ≤ a) by (apply Forall_cons in Hb as [[? _] _]; done).
  apply addr_kind_first; [by apply Itoa_no_dot | | | by left]; intros Hi%Itoa_digits; unfold colon in *; lia.
Qed.

(** A name without colons that is an address is an IPv4 address. *)
Lemma ParseIP_plain nm ip :
  colon ∉ nm → ParseIP nm = Some ip → ∃ a b c d, ip = v4InV6Prefix ++ [a; b; c; d] ∧ is_bytes [a; b; c; d].
Proof.
  intros Hc. unfold ParseIP. assert (addr_kind nm ≠ Some colon) as Hk.
  { revert Hc. clear. induction nm as [| x nm IH]; [done |]. intros [? Hn]%not_elem_of_cons. cbn [addr_kind].
    destruct ((x =? dot) || (x =? colon) || (x =? 37)); [congruence | by apply IH]. }
  destruct (addr_kind nm) as [k |]; [| done]. destruct (Z.eqb_spec k dot); [| destruct (Z.eqb_spec k colon); congruence].
  unfold parse4. assert (∀ f x, field4 f = Some x → is_byte x) as Hf.
  { intros f x. unfold field4. destruct (_ || _ || _) eqn:E0; [done |]. destruct (_ && _); [done |].
    destruct (Z.ltb_spec 255 (undecimal f)); [done |]. intros [= <-]. split; [| lia].
    apply orb_false_iff in E0 as [_ E0%negb_false_iff]. unfold undecimal.
    assert (∀ acc, 0 ≤ acc → 0 ≤ foldl (λ acc d, acc * 10 + (d - 48)) acc f) as Hu; [| apply Hu; lia].
    clear -E0. induction f as [| d f IH]; intros acc Ha; [done |]. cbn [forallb] in E0. apply andb_true_iff in E0 as [Hd E0].
    cbn [foldl]. apply IH; [done |]. lia. }
  destruct (split_dots [] nm) as [| f1 [| f2 [| f3 [| f4 [|]]]]]; try done.
  destruct (field4 f1) eqn:E1; [| done]. destruct (field4 f2) eqn:E2; [| done].
  destruct (field4 f3) eqn:E3; [| done]. destruct (field4 f4) eqn:E4; [| done].
  intros [= <-]. do 4 eexists. split; [done |]. repeat apply Forall_cons_2; eauto.
Qed.

Definition canon (ip : IP) (p : Z) : dest := match To4 ip with Some [a; b; c; e] => DV4 a b c e p | _ => DV6 ip p end.

(** The destination a reply names: an address in the shortest of its forms. *)
Definition norm_dest (d : dest) : dest :=
  match d with
  | DV4 _ _ _ _ _ => d
  | DName nm p => match ParseIP nm with Some ip => canon ip p | None => d end
  | DV6 ip p => canon ip p
  end.

Lemma To4_mapped a b c d : To4 (v4InV6Prefix ++ [a; b; c; d]) = Some [a; b; c; d].
Proof. reflexivity. Qed.

Lemma To4_cases ip : length ip = 16%nat → is_bytes ip →
  To4 ip = None ∨ ∃ a b c d, ip = v4InV6Prefix ++ [a; b; c; d] ∧ is_bytes [a; b; c; d].
Proof.
  intros Hl Hb. unfold To4. rewrite Hl. cbn [Nat.eqb andb]. unfold bytes_eqb.
  case_bool_decide as Ht; [right | by left].
  assert (length (drop 12 ip) = 4%nat) as Hd by (rewrite length_drop; lia).
  pose proof (is_bytes_drop 12 ip Hb) as Hbd. pose proof (take_drop 12 ip) as Htd. rewrite Ht in Htd.
  destruct (drop 12 ip) as [| a [| b [| c [| d [|]]]]]; try discriminate. eauto 10.
Qed.

Lemma udp_hdr_eq size atyp : 4 ≤ size → udp_hdr size atyp = Ret ([0; 0; 0; atyp] ++ make_bytes (size - 4)).
Proof.
  intros Hs. unfold udp_hdr. fill_start. do 3 fill_step. rewrite set_index_app by len_solve. cbn [app]. do 4 f_equal.
  by rewrite !drop_drop, make_drop.
Qed.

Lemma port_bytes p : 0 ≤ p < 2 ^ 16 → [u8 (Z.shiftr p 8); u8 (Z.land p 0xff)] = be_bytes 2 p.
Proof.
  intros Hp. change (be_bytes 2 p) with [Z.land (Z.shiftr p 8) 255; Z.land p 255]. rewrite !land_255, shiftr_8. unfold u8.
  change (2 ^ 8) with 256. by rewrite Z.mod_mod by lia.
Qed.

Ltac fill_bind := first [rewrite copy_into_app | rewrite set_index_app]; [rewrite ?bind_ret | len_solve ..].

Lemma build_ip addr host p ip data :
  SplitHostPort addr = Ret (host, Itoa p) → ParseIP host = Some ip → length ip = 16%nat → is_bytes ip → 0 ≤ p < 2 ^ 16 →
  BuildSOCKS5UDPHeader addr data = Ret (Some ([0; 0; 0] ++ encode_dest (canon ip p) ++ data)).
Proof.
  intros Es Ep Hl Hb Hp. unfold BuildSOCKS5UDPHeader, canon. rewrite Es, Ep, Sscanf_Itoa by done. cbn zeta.
  pose proof (port_bytes p Hp) as Hpb. revert Hpb. generalize (u8 (Z.shiftr p 8)) (u8 (Z.land p 0xff)). intros hi lo Hpb.
  pose proof (len_nonneg data). destruct (To4_cases ip Hl Hb) as [-> | (a & b & c & d & -> & Hb4)].
  - assert (len ip = 16) by (unfold len; lia). rewrite udp_hdr_eq, bind_ret by lia.
    unfold To16. rewrite Hl. cbn [Nat.eqb]. do 3 fill_bind.
    rewrite copy_into_app by len_solve. fill_end. cbn [fmap outcome_fmap encode_dest]. rewrite <- Hpb. cbn [app]. by rewrite <- !app_assoc.
  - rewrite To4_mapped, udp_hdr_eq, bind_ret by lia. cbn [encode_dest].
    assert (length [a; b; c; d] = 4%nat) as H4 by done. revert H4. generalize [a; b; c; d]. intros ip4 H4.
    do 3 fill_bind. rewrite copy_into_app by len_solve. fill_end. cbn [fmap outcome_fmap]. rewrite <- Hpb. cbn [app]. by rewrite <- !app_assoc.
Qed.

Lemma build_name addr host p data :
  SplitHostPort addr = Ret (host, Itoa p) → ParseIP host = None → len host < 256 → 0 ≤ p < 2 ^ 16 →
  BuildSOCKS5UDPHeader addr data = Ret (Some ([0; 0; 0] ++ encode_dest (DName host p) ++ data)).
Proof.
  intros Es Ep Hl Hp. unfold BuildSOCKS5UDPHeader. rewrite Es, Ep, Sscanf_Itoa by done. cbn zeta.
  pose proof (port_bytes p Hp) as Hpb. revert Hpb. generalize (u8 (Z.shiftr p 8)) (u8 (Z.land p 0xff)). intros hi lo Hpb.
  pose proof (len_nonneg data). pose proof (len_nonneg host). rewrite udp_hdr_eq, bind_ret by lia.
  replace (u8 (len host)) with (len host) by (unfold u8; rewrite Z.mod_small; lia).
  do 4 fill_bind. rewrite copy_into_app by len_solve. fill_end. cbn [fmap outcome_fmap encode_dest].
  rewrite <- Hpb. cbn [app]. by rewrite <- !app_assoc.
Qed.

Definition nameable (d : dest) : Prop := match d with DName nm _ => plain nm | _ => True end.

Context {TL : IPv6TextLaws}.

Lemma v4_bytes16 a b c d : is_bytes [a; b; c; d] → is_bytes (v4InV6Prefix ++ [a; b; c; d]).
Proof. intros. apply Forall_app_2; [| done]. apply (bool_decide_unpack _). vm_compute. exact I. Qed.

Lemma dotted_plain a b c d : is_bytes [a; b; c; d] → plain (dotted a b c d).
Proof.
  intros (Ha & (Hb & (Hc & (Hd & _)%Forall_cons)%Forall_cons)%Forall_cons)%Forall_cons. unfold is_byte in *.
  pose proof (Itoa_plain a ltac:(lia)) as (? & ? & ?). pose proof (Itoa_plain b ltac:(lia)) as (? & ? & ?).
  pose proof (Itoa_plain c ltac:(lia)) as (? & ? & ?). pose proof (Itoa_plain d ltac:(lia)) as (? & ? & ?).
  unfold dotted, plain. split_and!; rewrite !not_elem_of_app, !not_elem_of_cons, ?not_elem_of_app, ?not_elem_of_cons;
    repeat split; try done; rewrite ?not_elem_of_app, ?not_elem_of_cons; repeat split; done.
Qed.

Lemma IPString_text ip : length ip = 16%nat → is_bytes ip →
  lbracket ∉ IPString ip ∧ rbracket ∉ IPString ip ∧ ParseIP (IPString ip) = Some ip.
Proof.
  intros Hl Hb. unfold IPString. destruct (To4_cases ip Hl Hb) as [E | (a & b & c & d & -> & Hb4)].
  - rewrite E. destruct (format6_shape ip Hl Hb E) as (l & r & Ef & Hd & Hc & Hp & H1 & H2).
    split_and!; [done .. |]. unfold ParseIP. rewrite Ef at 1. rewrite addr_kind_first by eauto.
    by apply parse_format6.
  - rewrite To4_mapped. destruct (dotted_plain _ _ _ _ Hb4) as (_ & ? & ?). split_and!; [done .. | by apply ParseIP_dotted].
Qed.

Lemma canon_v4 a b c d p : canon (v4InV6Prefix ++ [a; b; c; d]) p = DV4 a b c d p.
Proof. reflexivity. Qed.

Lemma canon_wf ip p : length ip = 16%nat → is_bytes ip → 0 ≤ p < 2 ^ 16 → dest_wf (canon ip p).
Proof.
  intros Hl Hb Hp. unfold canon. destruct (To4_cases ip Hl Hb) as [-> | (a & b & c & d & -> & Hb4)]; done.
Qed.

Lemma norm_wf d : dest_wf d → nameable d → dest_wf (norm_dest d).
Proof.
  destruct d as [a b c e p | nm p | ip p]; cbn [dest_wf nameable norm_dest]; [done | |].
  - intros (Hb & Hl & Hp) (Hc & _). destruct (ParseIP nm) as [ip |] eqn:E; [| done].
    apply ParseIP_plain in E as (a & b & c & d & -> & Hb4); [| done]. apply canon_wf; [done | by apply v4_bytes16 | done].
  - intros (Hb & Hl & Hp) _. by apply canon_wf.
Qed.

Lemma build_print d data :
  dest_wf d → nameable d → BuildSOCKS5UDPHeader (print_dest d) data = Ret (Some ([0; 0; 0] ++ encode_dest (norm_dest d) ++ data)).
Proof.
  destruct d as [a b c e p | nm p | ip p]; cbn [dest_wf nameable norm_dest print_dest].
  - intros [Hb Hp] _. rewrite <- canon_v4.
    eapply build_ip; [apply split_plain; [by apply dotted_plain | apply Itoa_plain; lia] | by apply ParseIP_dotted | done | by apply v4_bytes16 | done].
  - intros (Hb & Hl & Hp) Hpl. assert (SplitHostPort (nm ++ colon :: Itoa p) = Ret (nm, Itoa p)) as Es by (apply split_plain; [done | apply Itoa_plain; lia]).
    destruct (ParseIP nm) as [ip |] eqn:E; [| by eapply build_name].
    destruct (ParseIP_plain nm ip (proj1 Hpl) E) as (a & b & c & d & -> & Hb4).
    eapply build_ip; [done | done | done | by apply v4_bytes16 | done].
  - intros (Hb & Hl & Hp) _. destruct (IPString_text ip Hl Hb) as (H1 & H2 & H3).
    eapply build_ip; [apply split_bracketed; [done .. | apply Itoa_plain; lia] | done ..].
Qed.

(** ** The handshake *)

Lemma len_overlay buf n m : 0 ≤ n → n + len m ≤ len buf → len (overlay buf n m) = len buf.
Proof. intros Hn Hm. unfold overlay. rewrite !len_app, len_take, len_drop. unfold len in *. lia. Qed.

Lemma take_overlay buf n m :
  0 ≤ n → n + len m ≤ len buf → take (Z.to_nat (n + len m)) (overlay buf n m) = take (Z.to_nat n) buf ++ m.
Proof.
  intros Hn Hm. unfold overlay. rewrite app_assoc, take_app_length'; [done |].
  rewrite length_app, length_take. unfold len in *. lia.
Qed.

Lemma bytes_overlay buf n m : is_bytes buf → is_bytes m → is_bytes (overlay buf n m).
Proof. intros. unfold overlay. apply Forall_app_2; [by apply is_bytes_take |]. apply Forall_app_2; [done | by apply is_bytes_drop]. Qed.

Lemma make_is_bytes n : is_bytes (make_bytes n).
Proof. apply Forall_replicate. unfold is_byte. lia. Qed.

(** What a successful [ReadAtLeast] leaves in the buffer. *)
Lemma ReadAtLeast_spec segs buf n buf' n' rest :
  len buf = bufSize → is_bytes buf → Forall is_bytes segs → 0 ≤ n ≤ bufSize →
  ReadAtLeast buf n segs = Some (buf', n', rest) →
  len buf' = bufSize ∧ is_bytes buf' ∧ 7 ≤ n' ≤ bufSize
  ∧ take (Z.to_nat n') buf' = take (Z.to_nat n) buf ++ take (Z.to_nat (n' - n)) (concat segs).
Proof.
  revert buf n. induction segs as [| s segs IH]; intros buf n Hl Hb Hs Hn; cbn [ReadAtLeast]; destruct (Z.leb_spec 7 n).
  - intros [= <- <- <-]. split_and!; [done | done | lia | lia |]. by rewrite Z.sub_diag, app_nil_r.
  - done.
  - intros [= <- <- <-]. split_and!; [done | done | lia | lia |]. by rewrite Z.sub_diag, app_nil_r.
  - apply Forall_cons in Hs as [Hs0 Hs]. set (m := take (Z.to_nat (bufSize - n)) s).
    assert (is_bytes m) by by apply is_bytes_take.
    assert (n + len m ≤ bufSize) by (unfold m; rewrite len_take; lia).
    pose proof (take_overlay buf n m ltac:(lia) ltac:(lia)) as Ht. pose proof (len_nonneg m).
    destruct (drop (Z.to_nat (bufSize - n)) s) as [| r0 r] eqn:Ed.
    + assert (m = s) as Hms by (rewrite <- (take_drop (Z.to_nat (bufSize - n)) s); rewrite Ed; by rewrite app_nil_r).
      intros HR. apply IH in HR as (? & ? & Hn' & HR); [| rewrite len_overlay; lia | by apply bytes_overlay | done | lia].
      split_and!; [done | done | lia | lia |]. rewrite HR, Ht, <- app_assoc. f_equal. cbn [concat]. rewrite <- Hms.
      assert (len m ≤ n' - n) as Hge.
      { apply (f_equal len) in HR. rewrite len_app, !len_take, len_overlay in HR by lia.
        pose proof (len_nonneg (concat segs)). lia. }
      rewrite take_app, (take_ge m) by (unfold len in *; lia). do 2 f_equal. unfold len in *. lia.
    + intros [= <- <- <-]. assert (len m = bufSize - n) as Hlm.
      { unfold m. rewrite len_take. pose proof (len_drop (Z.to_nat (bufSize - n)) s) as Hld. rewrite Ed, len_cons in Hld. pose proof (len_nonneg r). lia. }
      split_and!; [rewrite len_overlay; lia | by apply bytes_overlay | unfold bufSize in *; lia | lia |]. rewrite Ht. f_equal.
      replace (n + len m - n) with (bufSize - n) by lia. cbn [concat]. rewrite take_app. fold m.
      rewrite (proj2 (Nat.sub_0_le _ _)); [by rewrite app_nil_r |]. unfold m, len in *. rewrite length_take in Hlm. lia.
Qed.

(** The message that authenticates. *)
Definition credentials (s : Server) : bytes :=
  [1; len (Username s)] ++ Username s ++ [len (Password s)] ++ Password s.

Lemma app_exact {A} (a b c d : list A) : length a = length c → a ++ b = c ++ d → a = c ∧ b = d.
Proof. intros Hl He. by apply app_inj_1. Qed.

Lemma cut_one k (s : bytes) : 0 ≤ k < len s → ∃ a x r, s = a ++ x :: r ∧ len a = k.
Proof.
  intros Hk. destruct (drop (Z.to_nat k) s) as [| x r] eqn:Ed.
  { pose proof (len_drop (Z.to_nat k) s) as Hd. rewrite Ed, len_nil in Hd. lia. }
  exists (take (Z.to_nat k) s), x, r. split; [by rewrite <- Ed, take_drop | rewrite len_take; lia].
Qed.

Lemma authenticate_spec s buf n :
  is_bytes buf → 0 ≤ n ≤ len buf →
  ∃ ok, authenticate s buf n = Ret ok ∧ (ok = true ↔ ∃ junk, take (Z.to_nat n) buf = credentials s ++ junk).
Proof.
  intros Hb Hn. unfold authenticate, credentials. pose proof (take_drop (Z.to_nat n) buf) as Htd.
  assert (len (take (Z.to_nat n) buf) = n) as Hl by (rewrite len_take; lia).
  assert (is_bytes (take (Z.to_nat n) buf)) as Hbm by by apply is_bytes_take.
  set (m := take (Z.to_nat n) buf) in *. set (tl := drop (Z.to_nat n) buf) in *. clearbody m tl. subst buf n. clear Hn Hb.
  destruct (Z.ltb_spec (len m) 3) as [H3 | H3].
  { exists false. split; [done |]. split; [done |]. intros [junk ->]. revert H3. rewrite !len_app, !len_cons, !len_nil.
    pose proof (len_nonneg (Username s)). pose proof (len_nonneg (Password s)). pose proof (len_nonneg junk). lia. }
  destruct m as [| b0 [| ulen m]]; [by cbn in H3 .. |]. cbn [app].
  change (index (b0 :: ulen :: m ++ tl) 0) with (Ret (A := Z) b0). rewrite bind_ret.
  destruct (Z.eqb_spec b0 1) as [-> |]; cbn [negb].
  2: { exists false. split; [done |]. split; [done |]. intros [junk [=]]. done. }
  change (index (1 :: ulen :: m ++ tl) 1) with (Ret (A := Z) ulen). rewrite bind_ret, !len_cons.
  apply Forall_cons in Hbm as [_ [Hu Hbm]%Forall_cons]. unfold is_byte in Hu.
  destruct (Z.ltb_spec (1 + (1 + len m)) (2 + ulen + 1)) as [H4 | H4].
  { exists false. split; [done |]. split; [done |]. intros [junk [= -> ->]]. revert H4. rewrite !len_app, !len_cons.
    pose proof (len_nonneg (Password s)). pose proof (len_nonneg junk). rewrite ?len_app, ?len_cons, ?len_nil. lia. }
  destruct (cut_one ulen m) as (user & plen & r & -> & Hlu); [lia .. |].
  assert (is_byte plen) as Hp by (apply Forall_app in Hbm as [_ Hbm]; by apply Forall_cons in Hbm as [? _]). unfold is_byte in Hp.
  replace (1 :: ulen :: (user ++ plen :: r) ++ tl) with ([1; ulen] ++ user ++ plen :: r ++ tl) by (by rewrite <- app_assoc).
  rewrite slice_app_mid by (rewrite ?len_cons, ?len_nil; lia). rewrite bind_ret.
  rewrite (app_assoc _ user), index_app by (rewrite len_app, ?len_cons, ?len_nil; lia). rewrite bind_ret.
  rewrite len_app, len_cons in *. 
  destruct (Z.ltb_spec (1 + (1 + (len user + (1 + len r)))) (2 + ulen + 1 + plen)) as [H5 | H5].
  { exists false. split; [done |]. split; [done |]. intros [junk [= E1 E2]]. rewrite <- app_assoc in E2.
    apply app_exact in E2 as [-> [= -> ->]]; [| unfold len in *; lia]. rewrite len_app in H5. pose proof (len_nonneg junk). lia. }
  assert (len (take (Z.to_nat plen) r) = plen) as Hlp by (rewrite len_take; lia).
  rewrite (slice_at (([1; ulen] ++ user) ++ [plen]) (take (Z.to_nat plen) r) (drop (Z.to_nat plen) r ++ tl));
    [| rewrite (app_assoc (take _ r)), take_drop; layout | rewrite ?len_app, ?len_cons, ?len_nil; lia ..].
  rewrite bind_ret. eexists. split; [done |]. unfold bytes_eqb. rewrite andb_true_iff, !bool_decide_eq_true. split.
  - intros [<- <-]. exists (drop (Z.to_nat plen) r). rewrite Hlp, Hlu, <- !app_assoc. cbn [app]. by rewrite take_drop.
  - intros [junk [= E1 E2]]. rewrite <- app_assoc in E2. apply app_exact in E2 as [-> [= -> ->]]; [| unfold len in *; lia].
    split; [done |]. apply take_app_length'. unfold len. lia.
Qed.

Lemma read_fragments frs last more buf n :
  len buf = bufSize → 0 ≤ n → n + len (concat frs) < 7 → 7 ≤ n + len (concat frs) + len last ≤ bufSize →
  ∃ buf', ReadAtLeast buf n (frs ++ last :: more) = Some (buf', n + len (concat frs) + len last, more).
Proof.
  revert buf n. assert (∀ buf n s rest, 0 ≤ n → n < 7 → n + len s ≤ bufSize →
    ReadAtLeast buf n (s :: rest) = ReadAtLeast (overlay buf n s) (n + len s) rest) as Hstep.
  { intros buf n s rest Hn H7 Hs. cbn [ReadAtLeast]. rewrite (proj2 (Z.leb_gt _ _)) by lia.
    rewrite drop_ge, take_ge by (unfold len in *; lia). done. }
  induction frs as [| f frs IH]; intros buf n Hl Hn H7 Ht; cbn [app concat] in *.
  - rewrite len_nil in *. pose proof (len_nonneg last). rewrite Hstep by lia. eexists.
    rewrite Z.add_0_r. by destruct more; cbn [ReadAtLeast]; rewrite (proj2 (Z.leb_le _ _)) by lia.
  - rewrite len_app in *. pose proof (len_nonneg f). pose proof (len_nonneg (concat frs)). pose proof (len_nonneg last).
    rewrite Hstep by (unfold bufSize in *; lia).
    destruct (IH (overlay buf n f) (n + len f)) as [buf' E]; [rewrite len_overlay; unfold bufSize in *; lia | lia .. |].
    exists buf'. rewrite E. do 2 f_equal. f_equal. lia.
Qed.

Lemma encode_len d : dest_wf d → 4 ≤ len (encode_dest d) ≤ 259.
Proof.
  destruct d as [a b c e p | nm p | ip p]; cbn [dest_wf encode_dest]; intros H; rewrite !len_cons, !len_app, len_be_bytes, ?len_cons, ?len_nil.
  - lia.
  - pose proof (len_nonneg nm). lia.
  - destruct H as (_ & Hl & _). unfold len. lia.
Qed.

Lemma encode_bytes d : dest_wf d → is_bytes (encode_dest d).
Proof.
  assert (∀ l p, is_bytes l → is_bytes (l ++ be_bytes 2 p)) as Hp by (intros; apply Forall_app_2; [done | apply be_bytes_is_bytes]).
  destruct d as [a b c e p | nm p | ip p]; cbn [dest_wf encode_dest]; unfold AtypIPv4, AtypIPv6, AtypDomain.
  - intros [Hb _]. apply Forall_cons_2; [unfold is_byte; lia | by apply Hp].
  - intros (Hb & Hl & _). pose proof (len_nonneg nm). apply Forall_cons_2; [unfold is_byte; lia |].
    apply Forall_cons_2; [unfold is_byte; lia | by apply Hp].
  - intros (Hb & _ & _). apply Forall_cons_2; [unfold is_byte; lia | by apply Hp].
Qed.

Lemma dispatch_total s buf n : is_bytes buf → 2 ≤ n ≤ len buf → ∃ w h, dispatch s buf n = Ret (w, h).
Proof.
  intros Hb Hn. unfold dispatch. destruct buf as [| x0 [| x1 r]]; [rewrite ?len_cons, ?len_nil in Hn; lia .. |].
  change (index (x0 :: x1 :: r) 1) with (Ret (A := Z) x1). rewrite bind_ret, (proj1 (parsers_eq _ n Hb ltac:(lia))), bind_ret.
  destruct (x1 =? CmdConnect); [destruct (_ =? 0); eauto |]. destruct (x1 =? CmdUDPAssociate); eauto.
Qed.

Lemma dispatch_served s buf n w h : dispatch s buf n = Ret (w, h) → h ≠ HClosed → w = [].
Proof.
  unfold dispatch. destruct (index buf 1) as [cmd | |]; try done. rewrite bind_ret.
  destruct (cmd =? CmdConnect).
  - destruct (ParseDestAddr buf n) as [t | |]; try done. rewrite bind_ret. destruct (len t =? 0); intros [= <- <-]; done.
  - destruct (cmd =? CmdUDPAssociate); intros [= <- <-]; done.
Qed.

Lemma serve_request_total s written buf segs :
  len buf = bufSize → is_bytes buf → Forall is_bytes segs →
  ∃ w h, serve_request s written buf segs = Ret (w, h) ∧ (h ≠ HClosed → w = written).
Proof.
  intros Hl Hb Hs. unfold serve_request. destruct (ReadAtLeast buf 0 segs) as [[[buf' n] rest] |] eqn:E; [| eauto].
  apply ReadAtLeast_spec in E as (Hl' & Hb' & Hn & _); [| done .. | unfold bufSize; lia].
  destruct (dispatch_total s buf' n Hb' ltac:(lia)) as (w & h & Ed). rewrite Ed, bind_ret. cbn [fst snd].
  eexists _, _. split; [done |]. intros Hh. apply dispatch_served in Ed as ->; [apply app_nil_r | done].
Qed.

Lemma conn_read_spec segs m segs' :
  Forall is_bytes segs → conn_read bufSize segs = Some (m, segs') → is_bytes m ∧ len m ≤ bufSize ∧ Forall is_bytes segs'.
Proof.
  destruct segs as [| s segs]; [done |]. intros [Hs Hss]%Forall_cons [= <- <-].
  split_and!; [by apply is_bytes_take | rewrite len_take; unfold bufSize; lia |].
  unfold unread. destruct (drop _ s) as [| r rs] eqn:Ed; [done |]. apply Forall_cons_2; [rewrite <- Ed; by apply is_bytes_drop | done].
Qed.

(** A read into the buffer from its start. *)
Lemma overlay_start buf m : is_bytes buf → len buf = bufSize → is_bytes m → len m ≤ bufSize →
  is_bytes (overlay buf 0 m) ∧ len (overlay buf 0 m) = bufSize ∧ take (Z.to_nat (len m)) (overlay buf 0 m) = m
  ∧ overlay buf 0 m = m ++ drop (length m) buf.
Proof.
  intros Hb Hl Hm Hlm. split_and!; [by apply bytes_overlay | rewrite len_overlay; lia | | done].
  exact (take_overlay buf 0 m ltac:(lia) ltac:(lia)).
Qed.

Lemma dispatch_connect s buf n x0 x2 d :
  is_bytes buf → 0 ≤ n ≤ len buf → dest_wf d → take (Z.to_nat n) buf = [x0; CmdConnect; x2] ++ encode_dest d →
  dispatch s buf n = Ret ([], HConnect (if PerStreamWS s then PerStream else if WST s then OverWS else Poll) (print_dest d)).
Proof.
  intros Hb Hn Hd Ht. unfold dispatch. rewrite (proj1 (parsers_eq buf n Hb Hn)), Ht.
  rewrite <- (take_drop (Z.to_nat n) buf), Ht. change (index (([x0; CmdConnect; x2] ++ ?e) ++ ?t) 1) with (Ret (A := Z) CmdConnect).
  cbn [app]. change (index (x0 :: CmdConnect :: x2 :: ?e) 1) with (Ret (A := Z) CmdConnect).
  rewrite bind_ret. cbn [Z.eqb CmdConnect]. cbn [parse_request_ref]. unfold decoded.
  rewrite <- (app_nil_r (encode_dest d)), decode_encode, bind_ret by done.
  destruct (Z.eqb_spec (len (print_dest d)) 0) as [E |]; [| done].
  destruct d; cbn [print_dest] in E; rewrite ?len_app, ?len_cons in E; unfold len in E; lia.
Qed.

Lemma conn_read_whole m segs : len m ≤ bufSize → conn_read bufSize (m :: segs) = Some (m, segs).
Proof. intros Hm. cbn [conn_read]. rewrite drop_ge, take_ge by (unfold len in *; lia). done. Qed.

Lemma credentials_len s : is_bytes (credentials s) → len (credentials s) ≤ bufSize.
Proof.
  unfold credentials. intros H. rewrite !len_app, !len_cons, !len_nil.
  apply Forall_app in H as [(_ & (Hu & _)%Forall_cons)%Forall_cons H].
  apply Forall_app in H as [_ ((Hp & _)%Forall_cons & _)%Forall_app]. unfold is_byte, bufSize in *. lia.
Qed.

Lemma serve_connect s written buf frs last more d :
  is_bytes buf → len buf = bufSize → dest_wf d → Forall is_bytes more →
  len (concat frs) < 7 → concat frs ++ last = [5; CmdConnect; 0] ++ encode_dest d →
  serve_request s written buf (frs ++ last :: more)
  = Ret (written, HConnect (if PerStreamWS s then PerStream else if WST s then OverWS else Poll) (print_dest d)).
Proof.
  intros Hb Hl Hd Hm Hf He. unfold serve_request.
  pose proof (encode_len d Hd) as Hed. assert (len (concat frs) + len last = 3 + len (encode_dest d)) as Hlen.
  { apply (f_equal len) in He. rewrite !len_app, !len_cons, len_nil in He. lia. }
  assert (is_bytes (concat frs ++ last)) as Hbr.
  { rewrite He. apply (Forall_app_2 _ [5; CmdConnect; 0]); [apply (bool_decide_unpack _); vm_compute; exact I | by apply encode_bytes]. }
  destruct (read_fragments frs last more buf 0) as [buf' E]; [done | lia | lia | unfold bufSize; lia |].
  rewrite E. apply ReadAtLeast_spec in E as (Hl' & Hb' & Hn & Ht); [| done | done | | unfold bufSize; lia].
  2: { apply Forall_app in Hbr as [Hc Hlast]. apply Forall_app_2; [by apply Forall_concat | by apply Forall_cons_2]. }
  rewrite (dispatch_connect s buf' (0 + len (concat frs) + len last) 5 0 d Hb' ltac:(lia) Hd), bind_ret; [by rewrite app_nil_r |].
  rewrite Ht, <- He, concat_app. cbn [concat]. rewrite app_assoc. apply take_app_length'.
  rewrite length_app. unfold len. lia.
Qed.

(** The connection is closed without a handler. *)
Ltac closed := eexists _, _; split; [reflexivity | intros _ []; reflexivity].

(** ** Properties *)

(** C32: on every buffer and every count of bytes read into it, the SOCKS5 request
    parser and the UDP header parser return exactly what the reference decoder of
    RFC 1928 finds in those bytes: the "host:port" text of the one destination
    whose wire form starts there and, for datagrams, where the data begin; a
    truncated address, an unknown address type or a fragment gives the failure
    value.  They never panic. *)
Theorem socks_parsers_exact buf n :
  is_bytes buf → 0 ≤ n ≤ len buf →
  ParseDestAddr buf n = Ret (parse_request_ref (take (Z.to_nat n) buf))
  ∧ ParseSOCKS5UDPHeader buf n = Ret (parse_udp_ref (take (Z.to_nat n) buf)).
Proof. apply parsers_eq. Qed.

(** The header built for an answer from a destination the client named (an
    address, or a name free of colons and brackets) is the RFC 1928 header of that
    destination followed by the data, an address standing in the shortest of its
    forms; parsing it gives the destination's text and the data back. *)
Theorem udp_header_roundtrip d data :
  dest_wf d → nameable d → is_bytes data →
  ∃ hdr off, BuildSOCKS5UDPHeader (print_dest d) data = Ret (Some hdr)
    ∧ hdr = [0; 0; 0] ++ encode_dest (norm_dest d) ++ data
    ∧ ParseSOCKS5UDPHeader hdr (len hdr) = Ret (Some (print_dest (norm_dest d), off))
    ∧ drop (Z.to_nat off) hdr = data.
Proof.
  intros Hd Hn Hdata. pose proof (norm_wf d Hd Hn) as Hw. set (e := encode_dest (norm_dest d)).
  exists ([0; 0; 0] ++ e ++ data), (3 + len e). split_and!; [by apply build_print | done | |].
  - assert (is_bytes ([0; 0; 0] ++ e ++ data)) as Hb.
    { apply (Forall_app_2 _ [0; 0; 0]); [apply (bool_decide_unpack _); vm_compute; exact I |].
      apply Forall_app_2; [by apply encode_bytes | done]. }
    rewrite (proj2 (parsers_eq _ (len ([0; 0; 0] ++ e ++ data)) Hb ltac:(split; [apply len_nonneg | lia]))). f_equal. rewrite to_nat_len, firstn_all.
    cbn [app parse_udp_ref Z.eqb]. unfold decoded, e. rewrite decode_encode by done. rewrite !len_app. do 2 f_equal. lia.
  - rewrite app_assoc. apply drop_past. rewrite length_app. unfold len. cbn. lia.
Qed.


(** A client that sends the greeting, the credentials when they are asked
    for, and a CONNECT request for any destination, each message in one piece but
    for the first six bytes of the request, is handed to the handler of the
    configured mode with the text of that destination. *)
Theorem socks_connect_served s g frs last more d :
  dest_wf d → is_bytes g → 1 ≤ len g < bufSize → is_bytes (credentials s) → Forall is_bytes more →
  len (concat frs) < 7 → concat frs ++ last = [5; CmdConnect; 0] ++ encode_dest d →
  handleConn s ((5 :: g) :: (if bytes_eqb (Username s) [] then [] else [credentials s]) ++ frs ++ last :: more)
  = Ret (if bytes_eqb (Username s) [] then [[5; 0]] else [[5; 2]; [1; 0]],
         HConnect (if PerStreamWS s then PerStream else if WST s then OverWS else Poll) (print_dest d)).
Proof.
  intros Hd Hg Hlg Hc Hm Hf He. unfold handleConn.
  assert (is_bytes (5 :: g)) as Hg5 by (apply Forall_cons_2; [unfold is_byte; lia | done]).
  assert (len (5 :: g) ≤ bufSize) as Hl5 by (rewrite len_cons; lia). rewrite conn_read_whole by done.
  destruct (overlay_start (make_bytes bufSize) (5 :: g)) as (Hb1 & Hl1 & _ & Ho); [apply make_is_bytes | done .. |].
  rewrite (proj2 (Z.ltb_ge _ 2)) by (rewrite len_cons; lia).
  rewrite Ho. change (index ((5 :: g) ++ _) 0) with (Ret (A := Z) 5). rewrite bind_ret, <- Ho. cbn [negb Z.eqb Pos.eqb].
  destruct (bytes_eqb (Username s) []); cbn [app]; [by apply serve_connect |].
  assert (len (credentials s) ≤ bufSize) as Hlc by by apply credentials_len. rewrite conn_read_whole by done.
  destruct (overlay_start (overlay (make_bytes bufSize) 0 (5 :: g)) (credentials s)) as (Hb2 & Hl2 & Ht & _); [done .. |].
  destruct (authenticate_spec s _ (len (credentials s)) Hb2) as (ok & -> & Hok).
  { pose proof (len_nonneg (credentials s)). lia. }
  rewrite bind_ret. rewrite Ht in Hok. destruct ok; [by apply serve_connect |].
  assert (false = true) by (apply Hok; exists []; by rewrite app_nil_r). done.
Qed.

End text.

(** ** Witnesses *)

Module ToyText.

Definition hex (b : Z) : bytes := [103 + b / 16; 103 + b mod 16].
Fixpoint unhex (s : bytes) : option bytes :=
  match s with
  | [] => Some []
  | a :: b :: s' => (λ r, (a - 103) * 16 + (b - 103) :: r) <$> unhex s'
  | [_] => None
  end.

Lemma unhex_hex l : unhex (concat (hex <$> l)) = Some l.
Proof.
  induction l as [| x l IH]; [done |]. cbn [fmap list_fmap concat hex app unhex]. rewrite IH. cbn [fmap option_fmap option_map].
  do 2 f_equal. pose proof (Z.div_mod x 16 ltac:(lia)). lia.
Qed.

#[export] Instance text : IPv6Text := {|
  parse6 s := match s with
              | _ :: s' => match unhex s' with Some ip => if (length ip =? 16)%nat then Some ip else None | None => None end
              | [] => None
              end;
  format6 ip := colon :: concat (hex <$> ip);
|}.

Lemma hex_range l c : is_bytes l → c ∈ concat (hex <$> l) → 103 ≤ c.
Proof.
  induction 1 as [| x l Hx _ IH]; cbn [fmap list_fmap concat hex app]; [by intros ?%elem_of_nil |]. unfold is_byte in Hx.
  intros [-> | [-> | Hi]%elem_of_cons]%elem_of_cons; [| | by apply IH].
  - pose proof (Z.div_pos x 16). lia.
  - pose proof (Z.mod_pos_bound x 16). lia.
Qed.

#[export] Instance text_laws : IPv6TextLaws.
Proof.
  split.
  - intros ip Hl _ _. cbn [parse6 format6 text]. by rewrite unhex_hex, Hl.
  - intros ip _ Hb _. cbn [format6 text]. exists [], (concat (hex <$> ip)).
    assert (∀ c, c < 103 → c ∉ concat (hex <$> ip)) as Hn by (intros c Hc Hi%hex_range; [lia | done]).
    split_and!; try apply not_elem_of_nil; [done | |]; apply not_elem_of_cons; (split; [done | by apply Hn]).
Qed.

(** A SOCKS5 client that asks for example.org:443. *)
Definition demo_server : Server := mkServer (bytes_of_string "u") (bytes_of_string "pw") false true.
Definition demo_dest : dest := DName (bytes_of_string "example.org") 443.

Lemma socks_parsers_exact_witness :
  ParseDestAddr ([5; 1; 0] ++ encode_dest demo_dest ++ [9]) 18 = Ret (bytes_of_string "example.org:443")
  ∧ ParseSOCKS5UDPHeader ([0; 0; 0] ++ encode_dest demo_dest ++ [7; 8]) 20 = Ret (Some (bytes_of_string "example.org:443", 18)).
Proof.
  split.
  - apply (socks_parsers_exact ([5; 1; 0] ++ encode_dest demo_dest ++ [9]) 18);
      [apply (bool_decide_unpack _); vm_compute; exact I | split; vm_compute; discriminate].
  - apply (socks_parsers_exact ([0; 0; 0] ++ encode_dest demo_dest ++ [7; 8]) 20);
      [apply (bool_decide_unpack _); vm_compute; exact I | split; vm_compute; discriminate].
Defined.

Lemma udp_header_roundtrip_witness :
  ∃ hdr off, BuildSOCKS5UDPHeader (print_dest demo_dest) [1; 2] = Ret (Some hdr)
    ∧ hdr = [0; 0; 0] ++ encode_dest (norm_dest demo_dest) ++ [1; 2]
    ∧ ParseSOCKS5UDPHeader hdr (len hdr) = Ret (Some (print_dest (norm_dest demo_dest), off)) ∧ drop (Z.to_nat off) hdr = [1; 2].
Proof.
  apply (udp_header_roundtrip demo_dest [1; 2]).
  - split; [apply (bool_decide_unpack _); vm_compute; exact I | split; [vm_compute; reflexivity | split; [vm_compute; discriminate | vm_compute; reflexivity]]].
  - split_and!; apply (bool_decide_unpack _); vm_compute; exact I.
  - apply (bool_decide_unpack _); vm_compute; exact I.
Defined.


Lemma socks_connect_served_witness :
  handleConn demo_server ([5; 1; 2] :: [credentials demo_server] ++ [[5; 1]] ++ [0 :: encode_dest demo_dest])
  = Ret ([[5; 2]; [1; 0]], HConnect OverWS (print_dest demo_dest)).
Proof.
  apply (socks_connect_served demo_server [1; 2] [[5; 1]] (0 :: encode_dest demo_dest) [] demo_dest).
  - split; [apply (bool_decide_unpack _); vm_compute; exact I | split; [vm_compute; reflexivity | split; [vm_compute; discriminate | vm_compute; reflexivity]]].
  - apply (bool_decide_unpack _); vm_compute; exact I.
  - split; [vm_compute; discriminate | vm_compute; reflexivity].
  - apply (bool_decide_unpack _); vm_compute; exact I.
  - apply Forall_nil_2.
  - vm_compute; reflexivity.
  - vm_compute; reflexivity.
Defined.

(** A request that arrives in two pieces, the first of at least seven bytes, is
    refused as an address type that is not supported: [ReadAtLeast] stops at
    seven bytes, and the parser does not ask for the rest. *)
Theorem fragmented_request_refused :
  handleConn (mkServer [] [] false true) [[5; 1; 0]; [5; 1; 0; 1; 93; 184; 216]; [34; 1; 187]]
  = Ret ([[5; 0]; ReplyAddrNotSupported], HClosed).
Proof. vm_compute. reflexivity. Qed.

(** A host of 256 bytes or more gets a header whose length byte has wrapped: the
    client reads another destination and takes the rest of the name for data. *)
Theorem long_host_header_wraps :
  ∃ host, len host = 257 ∧ plain host
  ∧ ∃ hdr, BuildSOCKS5UDPHeader (host ++ colon :: Itoa 53) [42] = Ret (Some hdr)
    ∧ ParseSOCKS5UDPHeader hdr (len hdr) = Ret (Some ([97; colon] ++ Itoa 24929, 8)).
Proof.
  exists (replicate (Z.to_nat 257) 97). split; [vm_compute; reflexivity |].
  split; [split_and!; apply (bool_decide_unpack _); vm_compute; exact I |]. eexists. split; vm_compute; reflexivity.
Qed.

End ToyText.
