(* ===== verification/SocksUDP.v ===== *)
(** * SOCKS5 UDP associations ([proxy/socks5/udp.go], [udp_drops.go])

    One association: the set of senders that share it, the goroutine that takes
    the client's datagrams, the goroutine that returns the answers, the idle
    watchdog and the control connection, as a state machine whose steps are the
    atomic accesses of the two goroutines, in any order.  What has been accepted,
    sent and answered is kept as history.  Setting an association up is a function
    of the client's stream table ([ClientStreams]). *)

From S2P Require Import Prelude.
From S2P Require Import Chunk.
From S2P Require Import ClientStreams.
From S2P Require Import EgressGuard.
From S2P Require Import Socks5.
From stdpp Require Import base list gmap sets strings.

#[local] Open Scope Z_scope.

(** ** Senders *)

Record UDPAddr := mkUDPAddr { addr_ip : IP; addr_port : Z; addr_zone : bytes }.
#[global] Instance UDPAddr_eq_dec : EqDecision UDPAddr.
Proof. solve_decision. Defined.

(** [net.IP.Equal] *)
Definition IPEqual (ip x : IP) : bool :=
  if (length ip =? length x)%nat then bytes_eqb ip x
  else if (length ip =? 4)%nat && (length x =? 16)%nat then bytes_eqb (take 12 x) v4InV6Prefix && bytes_eqb ip (drop 12 x)
  else if (length ip =? 16)%nat && (length x =? 4)%nat then bytes_eqb (take 12 ip) v4InV6Prefix && bytes_eqb (drop 12 ip) x
  else false.

Definition maxUDPDestinations : nat := Z.to_nat 512.

Record udpSenderSet := mkSenders { pinnedIP : option IP; lastAddr : option UDPAddr; byDest : gmap bytes UDPAddr }.
Definition newSenders : udpSenderSet := mkSenders None None ∅.

(** [accept] in its atomic parts: the pin, the last sender, the map under its
    lock.  [None] is the result [false]. *)
Definition accept_pin (s : udpSenderSet) (src : UDPAddr) : option udpSenderSet :=
  match pinnedIP s with
  | None => Some (mkSenders (Some (addr_ip src)) (lastAddr s) (byDest s))
  | Some cur => if IPEqual cur (addr_ip src) then Some s else None
  end.
Definition accept_last (s : udpSenderSet) (addr : UDPAddr) : udpSenderSet :=
  mkSenders (pinnedIP s) (Some addr) (byDest s).
Definition accept_dest (s : udpSenderSet) (addr : UDPAddr) (dest : bytes) : udpSenderSet :=
  if bytes_eqb dest [] then s else
  let m := if (maxUDPDestinations <=? size (byDest s))%nat then ∅ else byDest s in
  mkSenders (pinnedIP s) (lastAddr s) (<[dest := addr]> m).

Definition accept (s : udpSenderSet) (src : option UDPAddr) (dest : bytes) : udpSenderSet * bool :=
  match src with
  | None => (s, false)
  | Some addr =>
    match accept_pin s addr with
    | None => (s, false)
    | Some s1 => (accept_dest (accept_last s1 addr) addr dest, true)
    end
  end.

Definition reply_lookup (s : udpSenderSet) (src : bytes) : option UDPAddr :=
  if bytes_eqb src [] then None else byDest s !! src.
Definition replyTo (s : udpSenderSet) (src : bytes) : option UDPAddr :=
  match reply_lookup s src with Some a => Some a | None => lastAddr s end.

(** ** Drop counters *)

Inductive udpDropReason :=
| dropReasonShort | dropReasonBadHeader | dropReasonForeignIP | dropReasonEmptyPayload
| dropReasonBadChunk | dropReasonUnroutableReply | dropReasonNoClientYet.
Definition reason_index (r : udpDropReason) : Z :=
  match r with
  | dropReasonShort => 0 | dropReasonBadHeader => 1 | dropReasonForeignIP => 2 | dropReasonEmptyPayload => 3
  | dropReasonBadChunk => 4 | dropReasonUnroutableReply => 5 | dropReasonNoClientYet => 6
  end.
Definition udpDropReasonCount : Z := 7.

(** The counters and the aggregate in [client.Stats]. *)
Record udpDropCounters := mkDrops { drop_n : list Z; UDPDatagramsDroppedTotal : Z }.
Definition noDrops : udpDropCounters := mkDrops (replicate 7 0) 0.

Definition Add (c : udpDropCounters) (reason delta : Z) : udpDropCounters :=
  if (reason <? 0) || (udpDropReasonCount <=? reason) then c else
  mkDrops (alter (λ v, u64 (v + delta)) (Z.to_nat reason) (drop_n c)) (u64 (UDPDatagramsDroppedTotal c + delta)).
Definition Get (c : udpDropCounters) (reason : Z) : Z :=
  if (reason <? 0) || (udpDropReasonCount <=? reason) then 0 else default 0 (drop_n c !! Z.to_nat reason).
Definition Total (c : udpDropCounters) : Z := foldl (λ acc v, u64 (acc + v)) 0 (drop_n c).

(** ** The association *)

Definition udpAssociationIdle : Z := 120 * 10 ^ 9.
Definition udpAssociationIdleExpired (last now idle : Z) : bool := idle <? now - last.

(** Between its atomic accesses the sending goroutine holds a datagram, the
    receiving one an answer that matched no destination. *)
Inductive sender_pc := SIdle | SPinned (addr : UDPAddr) (target data : bytes) | SLast (addr : UDPAddr) (target data : bytes).
Inductive reader_pc := RIdle | RMiss (resp : bytes).

Record assoc := mkAssoc {
  senders : udpSenderSet; lastUDPActivity : Z; live : bool; spc : sender_pc; rpc : reader_pc; drops : udpDropCounters;
  log : list (UDPAddr * bytes);        (* accepted senders and their targets, newest first *)
  sent : list bytes;                   (* payloads of the chunks written to the tunnel *)
  replies : list (UDPAddr * bytes);    (* datagrams written to the client *)
}.

Definition assoc0 (now : Z) : assoc := mkAssoc newSenders now true SIdle RIdle noDrops [] [] [].

Definition set_senders (a : assoc) (s : udpSenderSet) (pc : sender_pc) : assoc :=
  mkAssoc s (lastUDPActivity a) (live a) pc (rpc a) (drops a) (log a) (sent a) (replies a).
Definition active (a : assoc) (now : Z) : assoc :=
  mkAssoc (senders a) now (live a) (spc a) (rpc a) (drops a) (log a) (sent a) (replies a).
Definition stop (a : assoc) : assoc :=
  mkAssoc (senders a) (lastUDPActivity a) false (spc a) (rpc a) (drops a) (log a) (sent a) (replies a).
Definition set_rpc (a : assoc) (r : reader_pc) : assoc :=
  mkAssoc (senders a) (lastUDPActivity a) (live a) (spc a) r (drops a) (log a) (sent a) (replies a).
Definition dropped (a : assoc) (r : udpDropReason) : assoc :=
  mkAssoc (senders a) (lastUDPActivity a) (live a) (spc a) (rpc a) (Add (drops a) (reason_index r) 1) (log a) (sent a) (replies a).
Definition logged (a : assoc) (src : UDPAddr) (target : bytes) : assoc :=
  mkAssoc (senders a) (lastUDPActivity a) (live a) (spc a) (rpc a) (drops a) ((src, target) :: log a) (sent a) (replies a).
Definition emit (a : assoc) (p : bytes) : assoc :=
  mkAssoc (senders a) (lastUDPActivity a) (live a) (spc a) (rpc a) (drops a) (log a) (p :: sent a) (replies a).
Definition answer (a : assoc) (to : UDPAddr) (resp : bytes) : assoc :=
  mkAssoc (senders a) (lastUDPActivity a) (live a) (spc a) (rpc a) (drops a) (log a) (sent a) ((to, resp) :: replies a).

(** ** Setting an association up *)

Definition udpMinReadySlots : Z := 2.

Inductive pool_call := AssignStream (id : Z) | ReleaseStream (id : Z).
#[global] Instance pool_call_eq_dec : EqDecision pool_call.
Proof. solve_decision. Defined.

(** The success reply: the bound address, loopback when it is not IPv4. *)
Definition bound_reply (ip : IP) (port : Z) : bytes :=
  [5; 0; 0; 1] ++ default [127; 0; 0; 1] (To4 ip) ++ [u8 (Z.shiftr port 8); u8 (Z.land port 0xff)].

(** The reply written and, when the association is up, its stream; the stream
    table and the calls on the slot pool, deferred ones included. *)
Record setup := mkSetup { su_reply : bytes; su_stream : option (Z * nat); su_client : Client; su_pool : list pool_call }.

(** [HandleUDPAssociateWS] up to its goroutines.  [ready]: the transport is a
    pool with that many ready slots; [listen]: the bound address ([None]: an
    error); [aware]: the transport assigns streams to slots; [session]: whether the
    stream has a session. *)
Definition associate_ws (c : Client) (ready : option Z) (listen : option (IP * Z)) (aware : bool) (session : Z → bool) : setup :=
  if match ready with Some r => r <? udpMinReadySlots | None => false end then mkSetup ReplyNetUnreachable None c [] else
  match listen with
  | None => mkSetup ReplyGeneralFailure None c []
  | Some (ip, port) =>
    let '(id, c1) := NextStreamID c in
    match RegisterStream c1 id with
    | None => mkSetup ReplyGeneralFailure None c1 []
    | Some (ch, c2) =>
      let assign := if aware then [AssignStream id] else [] in
      if negb (session id)
      then mkSetup ReplyGeneralFailure None (UnregisterStream c2 id) (assign ++ if aware then [ReleaseStream id] else [])
      else mkSetup (bound_reply ip port) (Some (id, ch)) c2 assign
    end
  end.

(** [HandleUDPAssociate]: the same over the polling transport. *)
Definition associate_poll (c : Client) (listen : option (IP * Z)) (session : bool) : setup :=
  match listen with
  | None => mkSetup ReplyGeneralFailure None c []
  | Some (ip, port) =>
    let '(id, c1) := NextStreamID c in
    match RegisterStream c1 id with
    | None => mkSetup ReplyGeneralFailure None c1 []
    | Some (ch, c2) =>
      if negb session then mkSetup ReplyGeneralFailure None (UnregisterStream c2 id) []
      else mkSetup (bound_reply ip port) (Some (id, ch)) c2 []
    end
  end.

Section assoc.
Context {T6 : IPv6Text} (streamID : Z).

(** The sending goroutine reads a datagram of [n] bytes. *)
Definition on_datagram (a : assoc) (src : UDPAddr) (buf : bytes) (n : Z) : outcome assoc :=
  if n <? 4 then Ret (dropped a dropReasonShort) else
  h ← ParseSOCKS5UDPHeader buf n;
  match h with
  | None => Ret (dropped a dropReasonBadHeader)
  | Some (targetAddr, dataOffset) =>
    match accept_pin (senders a) src with
    | None => Ret (dropped a dropReasonForeignIP)
    | Some s =>
      data ← slice buf dataOffset n;
      Ret (logged (set_senders a s (SPinned src targetAddr data)) src targetAddr)
    end
  end.

(** The rest of its turn, after the destination is recorded.  [sess] is the
    session of the stream ([nil] is [None]) with its next sequence number. *)
Definition forward (a : assoc) (now : Z) (target data : bytes) (sess : option (Z * Z)) (enc_ok write_ok : bool) : outcome assoc :=
  let a := active a now in
  if len data =? 0 then Ret (dropped a dropReasonEmptyPayload) else
  match sess with
  | None => Ret (stop a)
  | Some (id, seq) =>
    chunk ← NewUDPDataChunk id seq streamID target data;
    if negb enc_ok then Ret (stop a) else
    if negb write_ok then Ret (stop a) else
    Ret (emit a (Payload chunk))
  end.

(** [WriteToUDP]: it fails on a closed socket. *)
Definition write_reply (a : assoc) (to : UDPAddr) (resp : bytes) (now : Z) (ok : bool) : assoc :=
  if ok && live a then active (answer a to resp) now else dropped a dropReasonUnroutableReply.

(** The receiving goroutine takes a payload; [None] is a closed channel. *)
Definition on_downlink (a : assoc) (payload : option bytes) (now : Z) (ok : bool) : outcome assoc :=
  match payload with
  | None => Ret (stop a)
  | Some p =>
    match ParseUDPChunk p with
    | Panic => Panic
    | Err _ => Ret (dropped a dropReasonBadChunk)
    | Ret (_, addr, data) =>
      if len data =? 0 then Ret (dropped a dropReasonBadChunk) else
      r ← BuildSOCKS5UDPHeader addr data;
      match r with
      | None => Ret (dropped a dropReasonBadChunk)
      | Some udpResp =>
        match reply_lookup (senders a) addr with
        | Some ca => Ret (write_reply a ca udpResp now ok)
        | None => Ret (set_rpc a (RMiss udpResp))
        end
      end
    end
  end.

Definition on_fallback (a : assoc) (resp : bytes) (now : Z) (ok : bool) : assoc :=
  let a := set_rpc a RIdle in
  match lastAddr (senders a) with
  | None => dropped a dropReasonNoClientYet
  | Some ca => write_reply a ca resp now ok
  end.

Inductive op :=
| ODatagram (src : UDPAddr) (buf : bytes) (n : Z)
| OStoreLast
| OStoreDest (now : Z) (sess : option (Z * Z)) (enc_ok write_ok : bool)
| OReadError
| ODown (payload : option bytes) (now : Z) (ok : bool)
| OFallback (now : Z) (ok : bool)
| OTick (now : Z)
| OControlData
| OControlClose.

Definition step (a : assoc) (o : op) : outcome assoc :=
  match o with
  | ODatagram src buf n => match spc a with SIdle => if live a then on_datagram a src buf n else Ret a | _ => Ret a end
  | OStoreLast => match spc a with SPinned d t x => Ret (set_senders a (accept_last (senders a) d) (SLast d t x)) | _ => Ret a end
  | OStoreDest now sess e w =>
    match spc a with
    | SLast d t x => forward (set_senders a (accept_dest (senders a) d t) SIdle) now t x sess e w
    | _ => Ret a
    end
  | OReadError => match spc a with SIdle => Ret (stop a) | _ => Ret a end
  | ODown p now ok => match rpc a with RIdle => on_downlink a p now ok | _ => Ret a end
  | OFallback now ok => match rpc a with RMiss resp => Ret (on_fallback a resp now ok) | _ => Ret a end
  | OTick now => Ret (if udpAssociationIdleExpired (lastUDPActivity a) now udpAssociationIdle then stop a else a)
  | OControlData => Ret a
  | OControlClose => Ret (stop a)
  end.

Fixpoint run (a : assoc) (ops : list op) : outcome assoc :=
  match ops with [] => Ret a | o :: ops' => a' ← step a o; run a' ops' end.

(** ** The invariant *)

(** The last sender to a target, in a history with the newest entry first. *)
Fixpoint last_to (t : bytes) (l : list (UDPAddr * bytes)) : option UDPAddr :=
  match l with
  | [] => None
  | (x, t') :: l' => if bool_decide (t' = t) then Some x else last_to t l'
  end.

Definition targets (l : list (UDPAddr * bytes)) : gset bytes := list_to_set (snd <$> l).

(** The part of the history that is in the map of destinations. *)
Definition stored (pc : sender_pc) (l : list (UDPAddr * bytes)) : list (UDPAddr * bytes) :=
  match pc with SIdle => l | _ => tail l end.

Record senders_inv (s : udpSenderSet) (pc : sender_pc) (l : list (UDPAddr * bytes)) : Prop := {
  si_pin x t : (x, t) ∈ l → ∃ ip, pinnedIP s = Some ip ∧ IPEqual ip (addr_ip x) = true;
  si_last x : lastAddr s = Some x → ∃ t, (x, t) ∈ l;
  si_map t x : byDest s !! t = Some x → last_to t (stored pc l) = Some x;
  si_named : byDest s !! [] = None;
  si_size : (size (byDest s) ≤ maxUDPDestinations)%nat;
  si_full t x : (size (targets l) < maxUDPDestinations)%nat → t ≠ [] → last_to t (stored pc l) = Some x → byDest s !! t = Some x;
  si_pc : match pc with SIdle => True | SPinned d t _ | SLast d t _ => head l = Some (d, t) end;
}.

Definition sent_from (l : list (UDPAddr * bytes)) (p : bytes) : Prop :=
  ∃ src t data, (src, t) ∈ l ∧ data ≠ [] ∧ p = be_bytes 2 streamID ++ be_bytes 2 (u16 (len t)) ++ t ++ data.

Record assoc_inv (a : assoc) : Prop := {
  ai_senders : senders_inv (senders a) (spc a) (log a);
  ai_replies x r : (x, r) ∈ replies a → ∃ t, (x, t) ∈ log a;
  ai_sent p : p ∈ sent a → sent_from (log a) p;
  ai_drops : length (drop_n (drops a)) = 7%nat ∧ Total (drops a) = UDPDatagramsDroppedTotal (drops a);
}.

Lemma IPEqual_refl ip : IPEqual ip ip = true.
Proof. unfold IPEqual, bytes_eqb. rewrite Nat.eqb_refl. by apply bool_decide_eq_true. Qed.

Lemma u64_add_l x y : u64 (u64 x + y) = u64 (x + y).
Proof. unfold u64. by rewrite Zplus_mod_idemp_l. Qed.
Lemma u64_add_r x y : u64 (x + u64 y) = u64 (x + y).
Proof. unfold u64. by rewrite Zplus_mod_idemp_r. Qed.

Lemma total_shift l x y : foldl (λ acc v, u64 (acc + v)) (u64 (x + y)) l = u64 (foldl (λ acc v, u64 (acc + v)) (u64 x) l + y).
Proof.
  revert x. induction l as [| v l IH]; intros x; cbn [foldl].
  - by rewrite u64_add_l.
  - rewrite !u64_add_l. replace (x + y + v) with (x + v + y) by lia. apply IH.
Qed.

Lemma total_alter l i d x :
  (i < length l)%nat →
  foldl (λ acc v, u64 (acc + v)) (u64 x) (alter (λ v, u64 (v + d)) i l) = u64 (foldl (λ acc v, u64 (acc + v)) (u64 x) l + d).
Proof.
  revert i x. induction l as [| v l IH]; intros i x Hi; [cbn in Hi; lia |]. destruct i as [| i]; cbn [alter list_alter foldl].
  - rewrite !u64_add_l, u64_add_r. replace (x + (v + d)) with (x + v + d) by lia. apply total_shift.
  - rewrite !u64_add_l. apply IH. cbn in Hi. lia.
Qed.

Lemma Add_total c r : length (drop_n c) = 7%nat → Total c = UDPDatagramsDroppedTotal c →
  length (drop_n (Add c (reason_index r) 1)) = 7%nat
  ∧ Total (Add c (reason_index r) 1) = UDPDatagramsDroppedTotal (Add c (reason_index r) 1).
Proof.
  intros Hl Ht. unfold Add. replace ((reason_index r <? 0) || (udpDropReasonCount <=? reason_index r)) with false by by destruct r.
  unfold Total in *. cbn [drop_n UDPDatagramsDroppedTotal]. rewrite length_alter. split; [done |].
  change 0 with (u64 0). rewrite total_alter by (rewrite Hl; destruct r; cbn; lia). change (u64 0) with 0. by rewrite Ht.
Qed.

Lemma dropped_inv a r : assoc_inv a → assoc_inv (dropped a r).
Proof. intros [H1 H2 H3 [H4 H5]]. split; try done. by apply Add_total. Qed.

Lemma stop_inv a : assoc_inv a → assoc_inv (stop a).
Proof. by intros [H1 H2 H3 H4]. Qed.
Lemma active_inv a now : assoc_inv a → assoc_inv (active a now).
Proof. by intros [H1 H2 H3 H4]. Qed.
Lemma set_rpc_inv a r : assoc_inv a → assoc_inv (set_rpc a r).
Proof. by intros [H1 H2 H3 H4]. Qed.

Lemma answer_inv a x resp t : (x, t) ∈ log a → assoc_inv a → assoc_inv (answer a x resp).
Proof.
  intros Hx [H1 H2 H3 H4]. split; try done. cbn [replies answer log]. intros y r [[= -> ->] | Hy]%elem_of_cons; eauto.
Qed.

Lemma write_reply_inv a x resp now ok t : (x, t) ∈ log a → assoc_inv a → assoc_inv (write_reply a x resp now ok).
Proof.
  intros Hx Hi. unfold write_reply. destruct (ok && live a); [by eapply active_inv, answer_inv | by apply dropped_inv].
Qed.

Lemma targets_cons e l : targets l ⊆ targets (e :: l).
Proof. unfold targets. cbn. set_solver. Qed.

Lemma last_to_target t l x : last_to t l = Some x → t ∈ targets l.
Proof.
  induction l as [| [y t'] l IH]; [done |]. cbn [last_to]. case_bool_decide as E; unfold targets; cbn; [set_solver |].
  intros Hx%IH. unfold targets in Hx. set_solver.
Qed.

Lemma pin_inv s src t data l s' :
  senders_inv s SIdle l → accept_pin s src = Some s' → senders_inv s' (SPinned src t data) ((src, t) :: l).
Proof.
  intros [Hp Hl Hm Hk Hs Hf _] Ha. unfold accept_pin in Ha. destruct (pinnedIP s) as [cur |] eqn:Ec in Ha.
  - destruct (IPEqual cur (addr_ip src)) eqn:E; [| done]. injection Ha as <-. split; cbn [stored tail]; try done.
    + intros x t' [[= -> ->] | Hx]%elem_of_cons; [by exists cur | by apply (Hp x t')].
    + intros x Hx. destruct (Hl x Hx) as [t' ?]. exists t'. by apply list_elem_of_further.
    + intros t' x Hsz. apply Hf. eapply Nat.le_lt_trans; [apply subseteq_size, targets_cons | exact Hsz].
  - injection Ha as <-. assert (l = []) as ->.
    { destruct l as [| [x t'] l]; [done |]. destruct (Hp x t') as (ip & ? & _); [apply list_elem_of_here | congruence]. }
    split; cbn [pinnedIP lastAddr byDest stored tail]; try done.
    + intros x t' [= -> ->]%list_elem_of_singleton. eexists. split; [done | apply IPEqual_refl].
    + intros x Hx. destruct (Hl x Hx) as [t' ?%elem_of_nil]. done.
Qed.

Lemma last_inv s d t data l :
  senders_inv s (SPinned d t data) l → senders_inv (accept_last s d) (SLast d t data) l.
Proof.
  intros [Hp Hl Hm Hk Hs Hf Hpc]. split; try done. cbn [accept_last lastAddr]. intros x [= <-].
  destruct l as [| e l]; [done |]. injection Hpc as ->. exists t. apply list_elem_of_here.
Qed.

Lemma dest_inv s d t data l :
  senders_inv s (SLast d t data) l → senders_inv (accept_dest s d t) SIdle l.
Proof.
  intros [Hp Hl Hm Hk Hs Hf Hpc]. destruct l as [| e l]; [done |]. injection Hpc as ->. cbn [stored tail] in *.
  unfold accept_dest, bytes_eqb. case_bool_decide as Ht.
  { subst t. split; try done; cbn [stored last_to].
    - intros t x Hx. case_bool_decide; [congruence | by apply Hm].
    - intros t x Hsz Hn. rewrite bool_decide_eq_false_2 by done. apply Hf; done. }
  set (m := if (_ <=? _)%nat then ∅ else byDest s).
  assert (m ⊆ byDest s) as Hsub by (unfold m; destruct (_ <=? _)%nat; [apply map_empty_subseteq | done]).
  assert (∀ k x, m !! k = Some x → byDest s !! k = Some x) as Hml by (intros k x Hx; by eapply lookup_weaken).
  split; cbn [pinnedIP lastAddr byDest stored last_to]; try done.
  - intros k x. rewrite lookup_insert_Some. intros [[<- <-] | [Hne Hx]]; [by rewrite bool_decide_eq_true_2 |].
    rewrite bool_decide_eq_false_2 by done. by apply Hm, Hml.
  - rewrite lookup_insert_ne by done. destruct (m !! []) eqn:E; [| done]. apply Hml in E. congruence.
  - rewrite map_size_insert. unfold m. destruct (Nat.leb_spec maxUDPDestinations (size (byDest s))); [rewrite lookup_empty, map_size_empty; unfold maxUDPDestinations; lia |].
    destruct (byDest s !! t); unfold id; lia.
  - intros k x Hsz Hn. case_bool_decide as E; [subst k; intros [= <-]; by rewrite lookup_insert_eq |].
    intros Hx. rewrite lookup_insert_ne by done. unfold m.
    replace (maxUDPDestinations <=? size (byDest s))%nat with false; [by apply Hf |]. symmetry. apply Nat.leb_gt.
    eapply Nat.le_lt_trans; [| exact Hsz]. rewrite <- size_dom. apply subseteq_size. intros k' [x' Hk']%elem_of_dom.
    apply targets_cons. eapply last_to_target. by apply Hm.
Qed.

Lemma senders_step_inv a s pc :
  assoc_inv a → senders_inv s pc (log a) → assoc_inv (set_senders a s pc).
Proof. intros [H1 H2 H3 H4] Hs. by split. Qed.

Lemma on_datagram_inv a src buf n a' :
  assoc_inv a → spc a = SIdle → on_datagram a src buf n = Ret a' → assoc_inv a'.
Proof.
  intros Hi Hpc. unfold on_datagram. destruct (n <? 4); [intros [= <-]; by apply dropped_inv |].
  destruct (ParseSOCKS5UDPHeader buf n) as [[[t off] |] | |]; try done; rewrite bind_ret; [| intros [= <-]; by apply dropped_inv].
  destruct (accept_pin (senders a) src) as [s |] eqn:E; [| intros [= <-]; by apply dropped_inv].
  destruct (slice buf off n) as [data | |]; try done. intros [= <-]. destruct Hi as [H1 H2 H3 H4]. rewrite Hpc in H1.
  split; cbn [senders spc log replies sent drops logged set_senders]; [by eapply pin_inv | | | done].
  - intros x r Hx. destruct (H2 x r Hx) as [t' ?]. exists t'. by apply list_elem_of_further.
  - intros p Hp. destruct (H3 p Hp) as (src' & t' & d' & Hin & ? & ?). exists src', t', d'. split_and!; [by apply list_elem_of_further | done ..].
Qed.

Lemma forward_inv a now src t data sess e w a' :
  assoc_inv a → (src, t) ∈ log a → forward a now t data sess e w = Ret a' → assoc_inv a'.
Proof.
  intros Hi Hin. unfold forward. pose proof (active_inv _ now Hi) as Ha. set (b := active a now) in *.
  assert (log b = log a) as Hlog by done. clearbody b.
  destruct (Z.eqb_spec (len data) 0) as [| Hd]; [intros [= <-]; by apply dropped_inv |].
  destruct sess as [[id seq] |]; [| intros [= <-]; by apply stop_inv].
  unfold NewUDPDataChunk. rewrite BuildUDPChunkPayload_eq, !bind_ret. cbn [Payload].
  destruct e; [| intros [= <-]; by apply stop_inv]. destruct w; [| intros [= <-]; by apply stop_inv]. intros [= <-].
  destruct Ha as [H1 H2 H3 H4]. split; try done. cbn [sent emit log]. intros p [-> | Hp]%elem_of_cons; [| by apply H3].
  exists src, t, data. rewrite Hlog. split_and!; [done | | done]. intros ->. by rewrite len_nil in Hd.
Qed.

Lemma last_to_in t l x : last_to t l = Some x → (x, t) ∈ l.
Proof.
  induction l as [| [y t'] l IH]; [done |]. cbn [last_to]. case_bool_decide as E; [subst t'; intros [= <-]; apply list_elem_of_here |].
  intros Hx. apply list_elem_of_further. by apply IH.
Qed.

Lemma stored_in pc (l : list (UDPAddr * bytes)) e : e ∈ stored pc l → e ∈ l.
Proof. destruct pc; [done | |]; (destruct l; [done |]); intros; by apply list_elem_of_further. Qed.

Lemma on_downlink_inv a p now ok a' : assoc_inv a → on_downlink a p now ok = Ret a' → assoc_inv a'.
Proof.
  intros Hi. unfold on_downlink. destruct p as [p |]; [| intros [= <-]; by apply stop_inv].
  destruct (ParseUDPChunk p) as [[[sid addr] data] | |]; try done; [| intros [= <-]; by apply dropped_inv].
  destruct (len data =? 0); [intros [= <-]; by apply dropped_inv |].
  destruct (BuildSOCKS5UDPHeader addr data) as [[resp |] | |]; try done; rewrite bind_ret; [| intros [= <-]; by apply dropped_inv].
  unfold reply_lookup. destruct (bytes_eqb addr []); [intros [= <-]; by apply set_rpc_inv |].
  destruct (byDest (senders a) !! addr) as [ca |] eqn:E; [| intros [= <-]; by apply set_rpc_inv].
  intros [= <-]. eapply write_reply_inv; [| done]. eapply stored_in, last_to_in, (si_map _ _ _ (ai_senders _ Hi)), E.
Qed.

Lemma on_fallback_inv a resp now ok : assoc_inv a → assoc_inv (on_fallback a resp now ok).
Proof.
  intros Hi. unfold on_fallback. pose proof (set_rpc_inv _ RIdle Hi) as Hr. set (b := set_rpc a RIdle) in *. clearbody b.
  destruct (lastAddr (senders b)) as [ca |] eqn:E; [| by apply dropped_inv].
  destruct (si_last _ _ _ (ai_senders _ Hr) ca E) as [t Ht]. by eapply write_reply_inv.
Qed.

Lemma assoc_step_inv a o a' : assoc_inv a → step a o = Ret a' → assoc_inv a'.
Proof.
  intros Hi. pose proof (ai_senders _ Hi) as Hs. destruct o as [src buf n | | now sess e w | | p now ok | now ok | now | |]; cbn [step].
  - destruct (spc a) eqn:Epc; [| by intros [= <-] ..]. destruct (live a); [by apply on_datagram_inv | by intros [= <-]].
  - destruct (spc a) eqn:Epc; try by intros [= <-]. intros [= <-]. apply senders_step_inv; [done |]. by apply last_inv.
  - destruct (spc a) as [| | d t x] eqn:Epc; try by intros [= <-]. intros HF. eapply forward_inv; [| | exact HF].
    + apply senders_step_inv; [done |]. by eapply dest_inv.
    + cbn [set_senders log]. pose proof (si_pc _ _ _ Hs) as Hpc. cbn in Hpc. destruct (log a); [done |]. injection Hpc as ->. apply list_elem_of_here.
  - destruct (spc a); intros [= <-]; try done. by apply stop_inv.
  - destruct (rpc a); [by apply on_downlink_inv | by intros [= <-]].
  - destruct (rpc a); intros [= <-]; [done | by apply on_fallback_inv].
  - intros [= <-]. destruct (udpAssociationIdleExpired _ _ _); [by apply stop_inv | done].
  - by intros [= <-].
  - intros [= <-]. by apply stop_inv.
Qed.

Lemma assoc_run_inv a ops a' : assoc_inv a → run a ops = Ret a' → assoc_inv a'.
Proof.
  revert a. induction ops as [| o ops IH]; intros a Hi; cbn [run]; [by intros [= <-] |].
  destruct (step a o) as [a1 | |] eqn:E; try done. rewrite bind_ret. apply IH. by eapply assoc_step_inv.
Qed.

Lemma assoc0_inv now : assoc_inv (assoc0 now).
Proof.
  split; cbn; [| by intros * ?%elem_of_nil .. | done].
  split; first [done | by intros * ?%elem_of_nil | apply Nat.le_0_l].
Qed.

Lemma build_total addr data : ∃ r, BuildSOCKS5UDPHeader addr data = Ret r.
Proof.
  pose proof (len_nonneg data). unfold BuildSOCKS5UDPHeader.
  destruct (SplitHostPort addr) as [[host port] | |]; [| by eexists ..]. pose proof (len_nonneg host). cbn zeta.
  destruct (ParseIP host) as [ip |]; [destruct (To4 ip) as [ip4 |] |]; rewrite udp_hdr_eq, bind_ret by lia.
  - set (h := _ ++ _). assert (len h = 10 + len data) by (unfold h; rewrite len_app, len_make_bytes, !len_cons, len_nil; lia).
    clearbody h. repeat write_ok. by eexists.
  - set (h := _ ++ _). assert (len h = 22 + len data) by (unfold h; rewrite len_app, len_make_bytes, !len_cons, len_nil; lia).
    clearbody h. repeat write_ok. by eexists.
  - set (h := _ ++ _). assert (len h = 5 + len host + 2 + len data) by (unfold h; rewrite len_app, len_make_bytes, !len_cons, len_nil; lia).
    clearbody h. repeat write_ok. by eexists.
Qed.

(** What arrives is bytes, and a downlink chunk does not announce an address of
    65532 bytes or more (see [Chunk.udp_parse_panics]). *)
Definition op_wf (o : op) : Prop :=
  match o with
  | ODatagram _ buf n => is_bytes buf ∧ 0 ≤ n ≤ len buf
  | ODown (Some p) _ _ => is_bytes p ∧ (len p < 4 ∨ udp_addr_len p < 65532)
  | _ => True
  end.

Lemma parsed_offset buf n t off :
  is_bytes buf → 0 ≤ n ≤ len buf → ParseSOCKS5UDPHeader buf n = Ret (Some (t, off)) → 0 ≤ off ≤ n.
Proof.
  intros Hb Hn. rewrite (proj2 (parsers_eq buf n Hb Hn)). intros [= E]. revert E.
  assert (len (take (Z.to_nat n) buf) = n) as Hl by (rewrite len_take; lia).
  assert (is_bytes (take (Z.to_nat n) buf)) as Hbt by by apply is_bytes_take.
  destruct (take (Z.to_nat n) buf) as [| x0 [| x1 [| x2 s]]]; try done. cbn [parse_udp_ref]. destruct (x2 =? 0); [| done].
  unfold decoded. destruct (decode_dest s) as [[d rest] |] eqn:Ed; [| done]. intros [= _ <-].
  rewrite !len_cons in Hl. apply decode_sound in Ed as [_ ->].
  - rewrite len_app in *. pose proof (len_nonneg rest). pose proof (len_nonneg (encode_dest d)). lia.
  - by apply Forall_cons in Hbt as [_ [_ [_ ?]%Forall_cons]%Forall_cons].
Qed.

Lemma step_total a o : op_wf o → ∃ a', step a o = Ret a'.
Proof.
  destruct o as [src buf n | | now sess e w | | p now ok | now ok | now | |]; cbn [op_wf step]; try by eauto.
  - intros [Hb Hn]. destruct (spc a); [| by eauto ..]. destruct (live a); [| by eauto]. unfold on_datagram.
    destruct (n <? 4); [by eauto |]. destruct (ParseSOCKS5UDPHeader buf n) as [[[t off] |] | |] eqn:E.
    + rewrite bind_ret. destruct (accept_pin (senders a) src); [| by eauto].
      rewrite slice_ret by (apply parsed_offset in E; [lia | done ..]). rewrite bind_ret. by eauto.
    + rewrite bind_ret. by eauto.
    + by rewrite (proj2 (parsers_eq buf n Hb Hn)) in E.
    + by rewrite (proj2 (parsers_eq buf n Hb Hn)) in E.
  - destruct (spc a); by eauto.
  - intros _. destruct (spc a) as [| | d t x]; [by eauto .. |]. unfold forward. destruct (_ =? 0); [by eauto |].
    destruct sess as [[id seq] |]; [| by eauto]. unfold NewUDPDataChunk. rewrite BuildUDPChunkPayload_eq, !bind_ret.
    destruct e; [| by eauto]. destruct w; by eauto.
  - destruct (spc a); by eauto.
  - destruct (rpc a); [| by eauto]. destruct p as [p |]; [| by eauto]. intros [Hp Ha]. cbn [on_downlink].
    destruct (ParseUDPChunk p) as [[[sid addr] data] | |] eqn:E; [| by eauto |].
    + destruct (len data =? 0); [by eauto |]. destruct (build_total addr data) as [r ->]. rewrite bind_ret.
      destruct r; [| by eauto]. destruct (reply_lookup _ _); by eauto.
    + destruct (ParseUDPChunk_cases p Hp) as [[? Ec] | [(? & ? & Ec) | (? & ? & Ec)]]; [congruence .. | lia].
  - destruct (rpc a); by eauto.
Qed.

Lemma run_total ops a : Forall op_wf ops → ∃ a', run a ops = Ret a'.
Proof.
  revert a. induction ops as [| o ops IH]; intros a Hw; cbn [run]; [by eauto |].
  apply Forall_cons in Hw as [Ho Hw]. destruct (step_total a o Ho) as [a1 ->]. rewrite bind_ret. by apply IH.
Qed.

(** ** Properties *)


Context {TL : IPv6TextLaws}.

(** While an association has named fewer than 512 destinations, an answer
    from a destination goes to the socket that last named it, under the RFC 1928
    header of that destination with the data of the answer behind it. *)
Theorem answer_reaches_asker now ops a d x data later :
  run (assoc0 now) ops = Ret a → live a = true → spc a = SIdle → rpc a = RIdle →
  (size (targets (log a)) < maxUDPDestinations)%nat → last_to (print_dest d) (log a) = Some x →
  dest_wf d → nameable d → len (print_dest d) < 65532 → data ≠ [] → 0 ≤ streamID < 2 ^ 16 →
  ∃ a', step a (ODown (Some (be_bytes 2 streamID ++ be_bytes 2 (u16 (len (print_dest d))) ++ print_dest d ++ data)) later true) = Ret a'
  ∧ replies a' = (x, [0; 0; 0] ++ encode_dest (norm_dest d) ++ data) :: replies a.
Proof.
  intros E Hl Hs Hr Hsz Hx Hd Hn Ht Hdata Hid.
  destruct (assoc_run_inv _ _ _ (assoc0_inv now) E) as [[_ _ _ _ _ Hf _] _ _ _]. rewrite Hs in Hf.
  assert (print_dest d ≠ []) as Hne by (destruct d; cbn [print_dest]; intros E0; apply (f_equal length) in E0; rewrite ?length_app in E0; cbn in E0; lia).
  cbn [step]. rewrite Hr. unfold on_downlink. rewrite udp_roundtrip by lia.
  rewrite (proj2 (Z.eqb_neq _ 0)) by (intros ?%len_0_nil; done). rewrite build_print, bind_ret by done.
  unfold reply_lookup, bytes_eqb. rewrite bool_decide_eq_false_2 by done. rewrite (Hf _ _ Hsz Hne Hx).
  eexists. split; [done |]. unfold write_reply. by rewrite Hl.
Qed.

End assoc.

Lemma unregister_register c id p c2 :
  id_used c id = false → RegisterStream c id = Some (p, c2) →
  streamChans (UnregisterStream c2 id) = streamChans c ∧ streamFramesChans (UnregisterStream c2 id) = streamFramesChans c.
Proof.
  unfold id_used. rewrite orb_false_iff, !bool_decide_eq_false, <- !eq_None_not_Some. intros [H1 H2].
  unfold RegisterStream. destruct (_ <=? _)%nat; [done |]. intros [= <- <-]. unfold add_flow.
  destruct (flowControlEnabled _); cbn; (split; [by apply delete_insert_id | by apply delete_id]).
Qed.

Lemma refused_early (rep : bytes) (c : Client) :
  rep ∈ [ReplyNetUnreachable; ReplyGeneralFailure] →
  rep ∈ [ReplyNetUnreachable; ReplyGeneralFailure]
  ∧ streamChans c = streamChans c ∧ streamFramesChans c = streamFramesChans c
  ∧ ∀ id, AssignStream id ∈ ([] : list pool_call) → ReleaseStream id ∈ ([] : list pool_call).
Proof. intros Hr. split_and!; [done .. |]. by intros id ?%elem_of_nil. Qed.

(** An association is announced only when it is usable: a success reply
    means that its stream is registered with an open channel and has a session,
    and over a pool that at least two slots are ready and the stream is assigned.
    On every failure the client is told so, the stream tables are as before, and
    every assigned stream has been released. *)
Theorem associate_setup c ready listen aware session :
  table_inv c →
  let r := associate_ws c ready listen aware session in
  match su_stream r with
  | Some (id, ch) =>
    ∃ ip port, listen = Some (ip, port) ∧ su_reply r = bound_reply ip port
    ∧ streamChans (su_client r) !! id = Some ch ∧ cl_flat (su_client r) !! ch = Some (mkChan [] false)
    ∧ session id = true ∧ (∀ n, ready = Some n → udpMinReadySlots ≤ n)
    ∧ su_pool r = (if aware then [AssignStream id] else [])
  | None =>
    su_reply r ∈ [ReplyNetUnreachable; ReplyGeneralFailure]
    ∧ streamChans (su_client r) = streamChans c ∧ streamFramesChans (su_client r) = streamFramesChans c
    ∧ ∀ id, AssignStream id ∈ su_pool r → ReleaseStream id ∈ su_pool r
  end.
Proof.
  intros Hi. pose proof (fresh_id_unused c Hi) as Hu. unfold associate_ws.
  destruct (match ready with Some r => r <? udpMinReadySlots | None => false end) eqn:Er; [apply refused_early; set_solver + |].
  assert (∀ n, ready = Some n → udpMinReadySlots ≤ n) as Hready by (intros n ->; lia).
  destruct listen as [[ip port] |]; [| apply refused_early; set_solver +]. unfold NextStreamID in *. cbn [fst] in Hu.
  set (id := next_id _ _ _) in *. clearbody id. set (c1 := with_counter c id) in *.
  assert (id_used c1 id = false) as Hu1 by done.
  destruct (RegisterStream c1 id) as [[ch c2] |] eqn:Eg; [| refine (refused_early ReplyGeneralFailure c _); set_solver +].
  destruct (session id) eqn:Ese; cbn [negb su_stream su_reply su_client su_pool].
  - exists ip, port. unfold RegisterStream in Eg. destruct (_ <=? _)%nat; [done |]. injection Eg as <- <-. unfold add_flow.
    destruct (flowControlEnabled _); cbn; rewrite !lookup_insert_eq; done.
  - destruct (unregister_register _ _ _ _ Hu1 Eg) as [-> ->]. split_and!; [set_solver + | done | done |]. destruct aware; set_solver +.
Qed.

(** ** Witnesses *)

Module Demo.
Import ToyText.

Definition loop (port : Z) : UDPAddr := mkUDPAddr [127; 0; 0; 1] port [].
Definition resolver : dest := DV4 1 1 1 1 53.
Definition query (d : dest) (data : bytes) : bytes := [0; 0; 0] ++ encode_dest d ++ data.
Definition ask (src : UDPAddr) (q : bytes) (seq : Z) : list op :=
  [ODatagram src q (len q); OStoreLast; OStoreDest seq (Some (7, seq)) true true].
Definition from (d : dest) (data : bytes) : bytes := be_bytes 2 5 ++ be_bytes 2 (u16 (len (print_dest d))) ++ print_dest d ++ data.

Definition two_resolvers : list op := ask (loop 1000) (query resolver [1]) 1 ++ ask (loop 2000) (query (DV4 8 8 8 8 53) [2]) 2.


Definition asked : assoc := match run 5 (assoc0 0) two_resolvers with Ret a => a | _ => assoc0 0 end.

Lemma answer_reaches_asker_witness :
  ∃ a', step 5 asked (ODown (Some (from resolver [9])) 3 true) = Ret a'
  ∧ replies a' = (loop 1000, [0; 0; 0] ++ encode_dest (norm_dest resolver) ++ [9]) :: replies asked.
Proof.
  apply (answer_reaches_asker 5 0 two_resolvers asked resolver (loop 1000) [9] 3); try (vm_compute; reflexivity).
  - apply (bool_decide_unpack _). vm_compute. exact I.
  - split; [apply (bool_decide_unpack _); vm_compute; exact I | split; [vm_compute; discriminate | vm_compute; reflexivity]].
  - discriminate.
  - split; [discriminate | vm_compute; reflexivity].
Defined.

Definition demo_setup : setup := associate_ws new_client (Some 2) (Some ([127; 0; 0; 1], 4000)) true (λ _, true).

Lemma associate_setup_witness :
  ∃ ip port, Some ([127; 0; 0; 1], 4000) = Some (ip, port) ∧ su_reply demo_setup = bound_reply ip port
    ∧ streamChans (su_client demo_setup) !! 1 = Some 0%nat ∧ cl_flat (su_client demo_setup) !! 0%nat = Some (mkChan [] false)
    ∧ true = true ∧ (∀ n, Some 2 = Some n → udpMinReadySlots ≤ n) ∧ su_pool demo_setup = [AssignStream 1].
Proof.
  pose proof (associate_setup new_client (Some 2) (Some ([127; 0; 0; 1], 4000)) true (λ _, true) new_client_inv) as H.
  cbv zeta in H. fold demo_setup in H.
  assert (su_stream demo_setup = Some (1, 0%nat)) as E by (vm_compute; reflexivity). rewrite E in H. exact H.
Defined.

(** Two sockets that ask the same resolver: the answer to the first one's
    question is delivered to the second, since the map is keyed by the
    destination alone. *)
Theorem same_resolver_crossed :
  match run 5 (assoc0 0) (ask (loop 1000) (query resolver [1]) 1 ++ ask (loop 2000) (query resolver [2]) 2
                          ++ [ODown (Some (from resolver [1; 77])) 3 true]) with
  | Ret a => replies a = [(loop 2000, query resolver [1; 77])]
  | _ => False
  end.
Proof. vm_compute. reflexivity. Qed.

(** An association with exactly 512 destinations loses all of them when one is
    named again. *)
Definition fan_out (n : nat) : udpSenderSet :=
  foldl (λ s i, fst (accept s (Some (loop 1000)) (print_dest (DV4 10 0 (i / 256) (i mod 256) 53)))) newSenders (seqZ 0 (Z.of_nat n)).
Theorem full_map_cleared_by_known_destination :
  size (byDest (fan_out 512)) = 512%nat
  ∧ size (byDest (fst (accept (fan_out 512) (Some (loop 1000)) (print_dest (DV4 10 0 0 0 53))))) = 1%nat.
Proof. vm_compute. done. Qed.

End Demo.
