(* ===== verification/SocksConnect.v ===== *)
(** * SOCKS5 CONNECT: routing, direct dialling and the tunnel's books
      ([client/routing.go], [proxy/socks5/direct.go], [server.go], [tcp.go])

    A destination is blocked, dialled directly or tunnelled by the rules of the
    configuration.  A direct connection goes to an address that was checked.  A
    tunnelled one takes a token of the CONNECT semaphore, registers a stream and
    counts as pending on its slot until the server confirms it; the connections
    run concurrently, and every change of the shared counters is a step.  CIDR
    text and the resolver are parameters. *)

From S2P Require Import Prelude.
From S2P Require Import EgressGuard.
From S2P Require Import Socks5.
From stdpp Require Import base list gmap sets strings.

#[local] Open Scope Z_scope.

(** ** The router *)

Inductive Action := ActionTunnel | ActionDirect | ActionBlock.
#[global] Instance Action_eq_dec : EqDecision Action.
Proof. solve_decision. Defined.

Inductive matcher := MCidr (n : IPNet) | MPattern (p : bytes).

Record RoutingConfig := mkConfig { Block : list bytes; Force : list bytes; Bypass : list bytes }.
Record Router := mkRouter { block : list matcher; force : list matcher; bypass : list matcher }.

Section router.
Context {T6 : IPv6Text}.
(** [net.ParseCIDR]; [None] is an error. *)
Context (ParseCIDR : bytes → option IPNet).

Definition newMatcher (pattern : bytes) : matcher :=
  match ParseCIDR pattern with Some n => MCidr n | None => MPattern (ToLower pattern) end.

Definition star_dot : bytes := bytes_of_string "*.".

Definition matches (m : matcher) (host : bytes) : bool :=
  let host := ToLower host in
  match m with
  | MCidr n => match ParseIP host with Some ip => Contains n ip | None => false end
  | MPattern p =>
    if HasPrefix p star_dot then HasSuffix host (drop 1 p)
    else bytes_eqb host p || HasSuffix host (dot :: p)
  end.

Definition NewRouter (cfg : RoutingConfig) : Router :=
  mkRouter (newMatcher <$> Block cfg) (newMatcher <$> Force cfg) (newMatcher <$> Bypass cfg).

Definition Decide (r : Router) (host : bytes) : Action :=
  let host := match SplitHostPort host with Ret (h, _) => h | _ => host end in
  if existsb (λ m, matches m host) (block r) then ActionBlock
  else if existsb (λ m, matches m host) (force r) then ActionTunnel
  else if existsb (λ m, matches m host) (bypass r) then ActionDirect
  else ActionTunnel.

End router.

(** ** Direct connections *)

Definition IPv6loopback : IP := replicate 15 0 ++ [1].

Definition IsLoopback (ip : IP) : bool :=
  match To4 ip with Some ip4 => byte_at ip4 0 =? 127 | None => bytes_eqb ip IPv6loopback end.
Definition IsPrivate (ip : IP) : bool :=
  match To4 ip with
  | Some ip4 => (byte_at ip4 0 =? 10) || ((byte_at ip4 0 =? 172) && (Z.land (byte_at ip4 1) 0xf0 =? 16))
                || ((byte_at ip4 0 =? 192) && (byte_at ip4 1 =? 168))
  | None => (length ip =? 16)%nat && (Z.land (byte_at ip 0) 0xfe =? 0xfc)
  end.
Definition IsLinkLocalUnicast (ip : IP) : bool :=
  match To4 ip with
  | Some ip4 => (byte_at ip4 0 =? 169) && (byte_at ip4 1 =? 254)
  | None => (length ip =? 16)%nat && (byte_at ip 0 =? 0xfe) && (Z.land (byte_at ip 1) 0xc0 =? 0x80)
  end.

Definition isUnsafeDirectIP (ip : IP) : bool :=
  (length ip =? 0)%nat || IsLoopback ip || IsPrivate ip || IsLinkLocalUnicast ip || IsLinkLocalMulticast ip || IsUnspecified ip.

Definition JoinHostPort (host port : bytes) : bytes :=
  match IndexByte host colon with
  | Some _ => lbracket :: host ++ rbracket :: colon :: port
  | None => host ++ colon :: port
  end.

Inductive direct := Refuse (reply : bytes) | Dial (target : bytes).

Section direct.
Context {T6 : IPv6Text}.
(** [lookupIPFunc]; [None] is an error. *)
Context (lookupIP : bytes → option (list IP)).

(** The loop over the resolved addresses: [inl] when one is unsafe. *)
Fixpoint pick_direct (ips : list IP) (safeIP : option IP) : unit + option IP :=
  match ips with
  | [] => inr safeIP
  | ip :: ips' =>
    if isUnsafeDirectIP ip then inl tt
    else pick_direct ips' (match safeIP with None => Some ip | _ => safeIP end)
  end.

Definition DirectDial (destAddr : bytes) : direct :=
  match SplitHostPort destAddr with
  | Ret (host, port) =>
    if bytes_eqb host [] || bytes_eqb port [] then Refuse ReplyHostUnreachable else
    match ParseIP host with
    | Some literal =>
      if isUnsafeDirectIP literal then Refuse ReplyNotAllowed else Dial (JoinHostPort (IPString literal) port)
    | None =>
      match lookupIP host with
      | None | Some [] => Refuse ReplyHostUnreachable
      | Some ips =>
        match pick_direct ips None with
        | inl _ => Refuse ReplyNotAllowed
        | inr None => Refuse ReplyHostUnreachable
        | inr (Some safeIP) => Dial (JoinHostPort (IPString safeIP) port)
        end
      end
    end
  | _ => Refuse ReplyHostUnreachable
  end.

(** The head of the CONNECT handlers. *)
Inductive routed := RDirect (d : direct) | RTunnel.
Definition HandleTCPConnectWS_route (r : Router) (destAddr : bytes) : routed :=
  match Decide r destAddr with
  | ActionBlock => RDirect (Refuse ReplyNotAllowed)
  | ActionDirect => RDirect (DirectDial destAddr)
  | ActionTunnel => RTunnel
  end.

End direct.

(** ** Tunnelled connections *)

Definition maxConcurrentConnects : Z := 32.

Inductive pc :=
| PWait                     (* before the semaphore *)
| PHave                     (* past it *)
| PReg                      (* registered, assigned, counted as pending *)
| PSplit                    (* the CONNECT request of the split transport is out *)
| PSent                     (* success reported to the application *)
| PRelay                    (* the relay runs *)
| PDone.
#[global] Instance pc_eq_dec : EqDecision pc.
Proof. solve_decision. Defined.

(** One run of [tunnelTCPStream].  [isDNS]: the port is 53; [split]: the
    transport is a [SplitTransport]; [tracked]: it counts pending CONNECTs. *)
Record conn := mkConn { isDNS : bool; split : bool; tracked : bool; at_pc : pc; acquiredSem : bool; confirmed : bool }.

(** [connectSem]: the number of tokens in the channel, [None] when it is nil;
    [pendingConnects]: the sum over the slots; [failed_sends], the connections
    given up after they were counted, and [refused], those the server could not
    connect, are history. *)
Record books := mkBooks {
  connectSem : option Z; pendingConnects : Z; conns : gmap nat conn;
  failed_sends : Z; refused : Z;
}.

Definition AcquireConnect (b : books) : option books :=
  match connectSem b with
  | None => Some b
  | Some n => if n <? maxConcurrentConnects then Some (mkBooks (Some (n + 1)) (pendingConnects b) (conns b) (failed_sends b) (refused b)) else None
  end.
Definition ReleaseConnect (b : books) : books :=
  match connectSem b with
  | None => b
  | Some n => if 0 <? n then mkBooks (Some (n - 1)) (pendingConnects b) (conns b) (failed_sends b) (refused b) else b
  end.
Definition add_pending (b : books) (c : conn) (d : Z) : books :=
  if tracked c then mkBooks (connectSem b) (pendingConnects b + d) (conns b) (failed_sends b) (refused b) else b.
Definition put (b : books) (i : nat) (c : conn) : books :=
  mkBooks (connectSem b) (pendingConnects b) (<[i := c]> (conns b)) (failed_sends b) (refused b).
Definition note (b : books) (c : conn) (fs rf : Z) : books :=
  if tracked c then mkBooks (connectSem b) (pendingConnects b) (conns b) (failed_sends b + fs) (refused b + rf) else b.
Definition goto (c : conn) (p : pc) : conn := mkConn (isDNS c) (split c) (tracked c) p (acquiredSem c) (confirmed c).
Definition with_sem (c : conn) (s : bool) : conn := mkConn (isDNS c) (split c) (tracked c) (at_pc c) s (confirmed c).
Definition confirm (c : conn) : conn := mkConn (isDNS c) (split c) (tracked c) (at_pc c) (acquiredSem c) true.

(** A return: the deferred release, and the connection is over. *)
Definition leave (b : books) (i : nat) (c : conn) : books :=
  put (if acquiredSem c then ReleaseConnect b else b) i (with_sem (goto c PDone) false).

(** [acquiredSem = false; srv.ReleaseConnect()] *)
Definition release_early (b : books) (i : nat) (c : conn) (p : pc) : books :=
  put (ReleaseConnect b) i (with_sem (goto c p) false).

Inductive downlink_event := EvOK | EvFail | EvData | EvEnd.

(** The downlink goroutine of a relay takes one event. *)
Definition on_event (b : books) (i : nat) (c : conn) (e : downlink_event) : books :=
  match e with
  | EvOK | EvData => if confirmed c then b else put (add_pending b c (-1)) i (confirm c)
  | EvFail =>
    if confirmed c then b else
    (* the branch's own DecrPending, then the deferred one *)
    leave (note (add_pending (add_pending b c (-1)) c (-1)) c 0 1) i c
  | EvEnd => leave (if confirmed c then b else add_pending b c (-1)) i c
  end.

Inductive op :=
| ONew (i : nat) (dns split tracked : bool)
| OAcquire (i : nat)                    (* the semaphore lets it pass, or it is DNS *)
| OThrottled (i : nat)                  (* ten seconds without a token *)
| ORegister (i : nat) (ok : bool)       (* the stream, its slot, IncrPending *)
| OSend (i : nat) (ok : bool)           (* session, encryption, write of the CONNECT *)
| OSplitStart (i : nat)
| OSplitReply (i : nat) (ok : bool)
| OStart (i : nat) (ok : bool)          (* the session for the relay is there *)
| ODownlink (i : nat) (e : downlink_event).

Definition step (b : books) (o : op) : books :=
  let at_ i p k := match conns b !! i with Some c => if bool_decide (at_pc c = p) then k c else b | None => b end in
  match o with
  | ONew i d s t => match conns b !! i with None => put b i (mkConn d s t PWait false false) | Some _ => b end
  | OAcquire i => at_ i PWait (λ c,
      if isDNS c then put b i (goto c PHave)
      else match AcquireConnect b with Some b' => put b' i (with_sem (goto c PHave) true) | None => b end)
  | OThrottled i => at_ i PWait (λ c, if isDNS c then b else leave b i c)
  | ORegister i ok => at_ i PHave (λ c, if ok then put (add_pending b c 1) i (goto c PReg) else leave b i c)
  | OSend i ok => at_ i PReg (λ c, if split c then b else
      if ok then release_early b i c PSent else leave (note b c 1 0) i c)
  | OSplitStart i => at_ i PReg (λ c, if split c then release_early b i c PSplit else b)
  | OSplitReply i ok => at_ i PSplit (λ c, if ok then put b i (goto c PSent) else leave (note b c 1 0) i c)
  | OStart i ok => at_ i PSent (λ c, if ok then put b i (goto c PRelay) else leave (note b c 1 0) i c)
  | ODownlink i e => at_ i PRelay (λ c, on_event b i c e)
  end.

Definition run (b : books) (ops : list op) : books := foldl step b ops.
Definition books0 (made : bool) : books := mkBooks (if made then Some 0 else None) 0 ∅ 0 0.

(** ** The invariant *)

Definition holds_token (c : conn) : Z := if acquiredSem c then 1 else 0.
Definition in_flight (c : conn) : Z :=
  match at_pc c with
  | PReg | PSplit | PSent | PRelay => if tracked c && negb (confirmed c) then 1 else 0
  | _ => 0
  end.

Definition conn_ok (c : conn) : Prop :=
  match at_pc c with
  | PHave | PReg => acquiredSem c = negb (isDNS c)
  | _ => acquiredSem c = false
  end ∧ (at_pc c ≠ PRelay → at_pc c ≠ PDone → confirmed c = false).

Definition no_dns (b : books) : Prop := ∀ i c, conns b !! i = Some c → isDNS c = false.

Record books_inv (b : books) : Prop := {
  bi_conn i c : conns b !! i = Some c → conn_ok c;
  bi_cap n : connectSem b = Some n → 0 ≤ n ≤ maxConcurrentConnects;
  bi_tokens n : no_dns b → connectSem b = Some n → n = msum holds_token (conns b);
  bi_pending : pendingConnects b = msum in_flight (conns b) + failed_sends b - refused b;
}.

Lemma books0_inv made : books_inv (books0 made).
Proof.
  split; cbn; try done.
  - intros n. destruct made; intros [= <-]. unfold maxConcurrentConnects. lia.
  - intros n _. destruct made; intros [= <-]. by rewrite msum_empty.
Qed.

Lemma no_dns_put b b' i c : conns b' = <[i := c]> (conns b) → isDNS c = default false (isDNS <$> conns b !! i) → no_dns b' → no_dns b.
Proof.
  intros E Hd Hn j c' Hj. destruct (decide (j = i)) as [-> |].
  - rewrite Hj in Hd. cbn in Hd. rewrite <- Hd. apply (Hn i). by rewrite E, lookup_insert_eq.
  - apply (Hn j). by rewrite E, lookup_insert_ne.
Qed.

(** A step that rewrites one connection keeps the books when its changes of the
    counters match the weights. *)
Lemma books_put b b' i c c' :
  books_inv b → conns b !! i = Some c → conns b' = <[i := c']> (conns b) → isDNS c' = isDNS c → conn_ok c' →
  (∀ n', connectSem b' = Some n' → ∃ n, connectSem b = Some n ∧ 0 ≤ n' ≤ maxConcurrentConnects
     ∧ (isDNS c = false → n = msum holds_token (conns b) → n' = n - holds_token c + holds_token c')) →
  pendingConnects b' - failed_sends b' + refused b' = pendingConnects b - failed_sends b + refused b - in_flight c + in_flight c' →
  books_inv b'.
Proof.
  intros [H1 H2 H3 H4] Hi E Hd Hok Hsem Hp. split.
  - rewrite E. intros j c0. rewrite lookup_insert_Some. intros [[_ <-] | [_ Hj]]; [done | by eapply H1].
  - intros n' Hn'. destruct (Hsem n' Hn') as (n & _ & ? & _). done.
  - intros n' Hn Hn'. destruct (Hsem n' Hn') as (n & Hsn & _ & Ht).
    assert (no_dns b) as Hnb by (eapply (no_dns_put b b' i c' E); [by rewrite Hi, Hd | done]).
    rewrite (Ht (Hnb i c Hi) (H3 n Hnb Hsn)), E, (msum_insert _ _ _ _ _ Hi), (H3 n Hnb Hsn). done.
  - rewrite E, (msum_insert _ _ _ _ _ Hi). lia.
Qed.

Lemma holds_nonneg c : 0 ≤ holds_token c.
Proof. unfold holds_token. destruct (acquiredSem c); lia. Qed.

Lemma holds_eq c : holds_token c = if acquiredSem c then 1 else 0.
Proof. done. Qed.

(** Giving a token back. *)
Lemma release_sem b n' :
  books_inv b → connectSem (ReleaseConnect b) = Some n' →
  ∃ n, connectSem b = Some n ∧ 0 ≤ n' ≤ maxConcurrentConnects ∧ (1 ≤ n → n' = n - 1).
Proof.
  intros Hi. unfold ReleaseConnect. destruct (connectSem b) as [n |] eqn:E; [| congruence].
  pose proof (bi_cap _ Hi n E). destruct (Z.ltb_spec 0 n); cbn [connectSem]; [intros [= <-] | rewrite E; intros [= <-]];
    exists n; (split; [done | lia]).
Qed.

Lemma release_frame b :
  conns (ReleaseConnect b) = conns b ∧ pendingConnects (ReleaseConnect b) = pendingConnects b
  ∧ failed_sends (ReleaseConnect b) = failed_sends b ∧ refused (ReleaseConnect b) = refused b.
Proof. unfold ReleaseConnect. destruct (connectSem b) as [n |]; [destruct (0 <? n) |]; done. Qed.

Lemma token_there b i c n :
  conns b !! i = Some c → acquiredSem c = true → n = msum holds_token (conns b) → 1 ≤ n.
Proof.
  intros Hi Ha ->. pose proof (msum_lower holds_token (conns b) i c holds_nonneg Hi) as H. unfold holds_token at 1 in H. by rewrite Ha in H.
Qed.

(** Books that differ in the pending side only. *)
Definition same_tokens (b b0 : books) : Prop := connectSem b0 = connectSem b ∧ conns b0 = conns b.

Lemma release_same b b0 : same_tokens b b0 → connectSem (ReleaseConnect b0) = connectSem (ReleaseConnect b).
Proof. intros [E1 E2]. unfold ReleaseConnect. rewrite E1. destruct (connectSem b) as [n |] eqn:E; [destruct (0 <? n); cbn; congruence | congruence]. Qed.

Lemma leave_inv b b0 i c :
  books_inv b → conns b !! i = Some c → same_tokens b b0 →
  pendingConnects b0 - failed_sends b0 + refused b0 = pendingConnects b - failed_sends b + refused b - in_flight c →
  books_inv (leave b0 i c).
Proof.
  intros Hb Hi Hs Hp. pose proof Hs as [Es Ec]. pose proof (release_frame b0) as (F1 & F2 & F3 & F4).
  eapply (books_put b _ i c (with_sem (goto c PDone) false)); [done | done | | done | done | |].
  - unfold leave. destruct (acquiredSem c); cbn [put conns]; [by rewrite F1, Ec | by rewrite Ec].
  - intros n'. unfold leave. change (holds_token (with_sem (goto c PDone) false)) with 0.
    pose proof (holds_eq c) as Hh. destruct (acquiredSem c) eqn:Ea; cbn [put connectSem].
    + rewrite (release_same b b0 Hs). intros (n & E & Hr & Hd)%(release_sem b n' Hb). exists n. split_and!; [done | lia | lia |].
      intros _ Hn. rewrite Hh, Hd by (by eapply token_there). lia.
    + rewrite Es. intros E. exists n'. pose proof (bi_cap _ Hb n' E). split_and!; [done | lia | lia |]. lia.
  - unfold leave. cbn [in_flight at_pc with_sem goto]. destruct (acquiredSem c); cbn [put pendingConnects failed_sends refused]; rewrite ?F2, ?F3, ?F4; lia.
Qed.

Lemma release_early_inv b i c p :
  books_inv b → conns b !! i = Some c → at_pc c = PReg → (p = PSent ∨ p = PSplit) → books_inv (release_early b i c p).
Proof.
  intros Hb Hi Hpc Hp. pose proof (release_frame b) as (F1 & F2 & F3 & F4).
  pose proof (bi_conn _ Hb i c Hi) as [Hok1 Hok2]. rewrite Hpc in Hok1, Hok2.
  eapply (books_put b _ i c (with_sem (goto c p) false)); [done | done | | done | | |].
  - unfold release_early. cbn [put conns]. by rewrite F1.
  - destruct Hp as [-> | ->]; (split; [done |]); intros _ _; by apply Hok2.
  - intros n'. unfold release_early. cbn [put connectSem]. intros (n & E & Hr & Hd)%(release_sem b n' Hb). exists n. split_and!; [done | lia | lia |].
    intros Hdns Hn. rewrite !holds_eq. cbn [acquiredSem with_sem]. rewrite Hok1, Hdns. cbn [negb].
    rewrite Hd; [lia |]. eapply token_there; [done | by rewrite Hok1, Hdns | done].
  - unfold release_early. cbn [put pendingConnects failed_sends refused]. rewrite F2, F3, F4. unfold in_flight. rewrite Hpc.
    destruct Hp as [-> | ->]; cbn [at_pc with_sem goto tracked confirmed]; lia.
Qed.

(** Steps that touch no token. *)
Lemma plain_put_inv b b0 i c c' :
  books_inv b → conns b !! i = Some c → same_tokens b b0 → isDNS c' = isDNS c → acquiredSem c' = acquiredSem c → conn_ok c' →
  pendingConnects b0 - failed_sends b0 + refused b0 = pendingConnects b - failed_sends b + refused b - in_flight c + in_flight c' →
  books_inv (put b0 i c').
Proof.
  intros Hb Hi [Es Ec] Hd Ha Hok Hp. eapply (books_put b _ i c c'); [done | done | cbn; by rewrite Ec | done | done | | done].
  cbn [put connectSem]. rewrite Es. intros n' E. exists n'. pose proof (bi_cap _ Hb n' E). split_and!; [done | lia | lia |].
  rewrite !holds_eq, Ha. lia.
Qed.

Lemma add_pending_same b c d : same_tokens b (add_pending b c d).
Proof. unfold add_pending. by destruct (tracked c). Qed.
Lemma note_same b c x y : same_tokens b (note b c x y).
Proof. unfold note. by destruct (tracked c). Qed.
Lemma same_trans b1 b2 b3 : same_tokens b1 b2 → same_tokens b2 b3 → same_tokens b1 b3.
Proof. intros [] []. split; congruence. Qed.

Lemma token_acquire_inv b i c b' :
  books_inv b → conns b !! i = Some c → at_pc c = PWait → isDNS c = false → AcquireConnect b = Some b' →
  books_inv (put b' i (with_sem (goto c PHave) true)).
Proof.
  intros Hb Hi Hpc Hd E. pose proof (bi_conn _ Hb i c Hi) as [Hok1 Hok2]. rewrite Hpc in Hok1, Hok2.
  assert (conns b' = conns b ∧ pendingConnects b' = pendingConnects b ∧ failed_sends b' = failed_sends b ∧ refused b' = refused b) as (F1 & F2 & F3 & F4).
  { unfold AcquireConnect in E. destruct (connectSem b) as [n |]; [destruct (n <? maxConcurrentConnects) |]; by simplify_eq. }
  eapply (books_put b _ i c (with_sem (goto c PHave) true)); [done | done | cbn; by rewrite F1 | done | | |].
  - split; cbn; [by rewrite Hd | intros _ _; by apply Hok2].
  - cbn [put connectSem]. unfold AcquireConnect in E. destruct (connectSem b) as [n |] eqn:Es; [| simplify_eq; congruence].
    pose proof (bi_cap _ Hb n Es). destruct (Z.ltb_spec n maxConcurrentConnects); simplify_eq. cbn [connectSem]. intros n' [= <-].
    exists n. split_and!; [done | lia | lia |]. rewrite !holds_eq. cbn [acquiredSem with_sem]. rewrite Hok1. lia.
  - cbn [put pendingConnects failed_sends refused]. rewrite F2, F3, F4. unfold in_flight. rewrite Hpc. cbn. lia.
Qed.

Lemma event_inv b i c e :
  books_inv b → conns b !! i = Some c → at_pc c = PRelay → books_inv (on_event b i c e).
Proof.
  intros Hb Hi Hpc. pose proof (bi_conn _ Hb i c Hi) as [Hok1 Hok2]. rewrite Hpc in Hok1.
  assert (∀ d, in_flight c = (if tracked c && negb (confirmed c) then 1 else 0) ∧ same_tokens b (add_pending b c d)) as Hf.
  { intros d. unfold in_flight. rewrite Hpc. split; [done | apply add_pending_same]. }
  assert (confirmed c = false → books_inv (put (add_pending b c (-1)) i (confirm c))) as Hc.
  { intros E. eapply (plain_put_inv b _ i c); [done | done | apply add_pending_same | done | done | |].
    - split; cbn; rewrite Hpc; [done | done].
    - rewrite (proj1 (Hf 0)), E. unfold in_flight, add_pending. cbn [at_pc SocksConnect.confirm tracked confirmed]. rewrite Hpc.
      destruct (tracked c); cbn; lia. }
  destruct e; cbn [on_event]; destruct (confirmed c) eqn:E; auto.
  - eapply (leave_inv b); [done | done | | rewrite (proj1 (Hf 0)), ?E; unfold note, add_pending; destruct (tracked c); cbn; lia].
    eapply same_trans; [apply add_pending_same |]. eapply same_trans; [apply add_pending_same | apply note_same].
  - eapply (leave_inv b); [done | done | done |]. rewrite (proj1 (Hf 0)), ?E, ?andb_false_r. lia.
  - eapply (leave_inv b); [done | done | apply add_pending_same |]. rewrite (proj1 (Hf 0)), ?E. unfold add_pending. destruct (tracked c); cbn; lia.
Qed.

Lemma books_step_inv b o : books_inv b → books_inv (step b o).
Proof.
  intros Hb. destruct o as [i d s t | i | i | i ok | i ok | i | i ok | i ok | i e]; cbn [step].
  - destruct (conns b !! i) as [c |] eqn:Hi; [done |]. destruct Hb as [H1 H2 H3 H4]. split; cbn [put conns connectSem pendingConnects failed_sends refused].
    + intros j c0. rewrite lookup_insert_Some. intros [[_ <-] | [_ Hj]]; [done | by eapply H1].
    + done.
    + intros n Hn E. rewrite msum_insert_new by done. cbn [holds_token acquiredSem]. apply (H3 n) in E as <-; [lia |].
      intros j c0 Hj. apply (Hn j). cbn [put conns]. rewrite lookup_insert_ne by congruence. done.
    + rewrite msum_insert_new by done. cbn [in_flight at_pc]. lia.
  - destruct (conns b !! i) as [c |] eqn:Hi; [| done]. case_bool_decide as Hpc; [| done].
    pose proof (bi_conn _ Hb i c Hi) as [Hok1 Hok2]. rewrite Hpc in Hok1, Hok2. destruct (isDNS c) eqn:Hd.
    + eapply (plain_put_inv b _ i c); [done .. | |]; [split; cbn; [by rewrite Hd | intros _ _; by apply Hok2] |].
      unfold in_flight. rewrite Hpc. cbn. lia.
    + destruct (AcquireConnect b) as [b' |] eqn:E; [by eapply token_acquire_inv | done].
  - destruct (conns b !! i) as [c |] eqn:Hi; [| done]. case_bool_decide as Hpc; [| done]. destruct (isDNS c); [done |].
    eapply (leave_inv b); [done .. |]. unfold in_flight. rewrite Hpc. lia.
  - destruct (conns b !! i) as [c |] eqn:Hi; [| done]. case_bool_decide as Hpc; [| done].
    pose proof (bi_conn _ Hb i c Hi) as [Hok1 Hok2]. rewrite Hpc in Hok1, Hok2. destruct ok.
    + eapply (plain_put_inv b _ i c); [done | done | apply add_pending_same | done | done | |].
      * split; cbn; [done | intros _ _; by apply Hok2].
      * unfold in_flight. rewrite Hpc. cbn [at_pc goto tracked confirmed]. rewrite Hok2 by done. unfold add_pending. destruct (tracked c); cbn; lia.
    + eapply (leave_inv b); [done .. |]. unfold in_flight. rewrite Hpc. lia.
  - destruct (conns b !! i) as [c |] eqn:Hi; [| done]. case_bool_decide as Hpc; [| done]. destruct (split c); [done |].
    destruct ok; [apply release_early_inv; auto |]. eapply (leave_inv b); [done | done | apply note_same |].
    pose proof (bi_conn _ Hb i c Hi) as [_ Hok2]. unfold in_flight. rewrite Hpc, Hok2 by (by rewrite Hpc). unfold note. destruct (tracked c); cbn; lia.
  - destruct (conns b !! i) as [c |] eqn:Hi; [| done]. case_bool_decide as Hpc; [| done]. destruct (split c); [| done]. apply release_early_inv; auto.
  - destruct (conns b !! i) as [c |] eqn:Hi; [| done]. case_bool_decide as Hpc; [| done].
    pose proof (bi_conn _ Hb i c Hi) as [Hok1 Hok2]. rewrite Hpc in Hok1, Hok2. destruct ok.
    + eapply (plain_put_inv b _ i c); [done .. | |]; [split; cbn; [done | intros _ _; by apply Hok2] |].
      unfold in_flight. rewrite Hpc. cbn [at_pc goto tracked confirmed]. lia.
    + eapply (leave_inv b); [done | done | apply note_same |]. unfold in_flight. rewrite Hpc, Hok2 by done. unfold note. destruct (tracked c); cbn; lia.
  - destruct (conns b !! i) as [c |] eqn:Hi; [| done]. case_bool_decide as Hpc; [| done].
    pose proof (bi_conn _ Hb i c Hi) as [Hok1 Hok2]. rewrite Hpc in Hok1, Hok2. destruct ok.
    + eapply (plain_put_inv b _ i c); [done .. | |]; [split; cbn; [done | done] |].
      unfold in_flight. rewrite Hpc. cbn [at_pc goto tracked confirmed]. lia.
    + eapply (leave_inv b); [done | done | apply note_same |]. unfold in_flight. rewrite Hpc, Hok2 by done. unfold note. destruct (tracked c); cbn; lia.
  - destruct (conns b !! i) as [c |] eqn:Hi; [| done]. case_bool_decide as Hpc; [| done]. by apply event_inv.
Qed.

Lemma books_run_inv b ops : books_inv b → books_inv (run b ops).
Proof. revert b. induction ops as [| o ops IH]; intros b Hb; [done |]. apply IH. by apply books_step_inv. Qed.

(** ** Properties *)

Definition holders (b : books) : gmap nat conn := filter (λ kv, acquiredSem kv.2 = true) (conns b).
Definition unconfirmed (b : books) : gmap nat conn := filter (λ kv, in_flight kv.2 = 1) (conns b).

Lemma holders_size b : msum holds_token (conns b) = Z.of_nat (size (holders b)).
Proof.
  etrans; [| exact (msum_size (λ c : conn, acquiredSem c = true) (conns b))]. apply msum_ext. intros i c _.
  unfold holds_token. by destruct (acquiredSem c).
Qed.

Lemma unconfirmed_size b : msum in_flight (conns b) = Z.of_nat (size (unconfirmed b)).
Proof.
  etrans; [| exact (msum_size (λ c : conn, in_flight c = 1) (conns b))]. apply msum_ext. intros i c _.
  unfold in_flight. destruct (at_pc c), (tracked c), (confirmed c); done.
Qed.

(** Under any interleaving of CONNECT requests with their waits, failures,
    confirmations and ends, the semaphore never holds more than 32 tokens, and
    while no request is for port 53 it holds exactly one per request that is past
    it and has not sent its CONNECT, so at most 32 are in that phase and all
    tokens are back when none is.  The pending counters of the slots add up to the
    unconfirmed connections, plus the connections given up after they were counted,
    minus the connections the server refused. *)
Theorem connect_books made ops :
  let b := run (books0 made) ops in
  (∀ n, connectSem b = Some n → 0 ≤ n ≤ maxConcurrentConnects)
  ∧ (∀ n, connectSem b = Some n → no_dns b → n = Z.of_nat (size (holders b)) ∧ (size (holders b) ≤ 32)%nat)
  ∧ (∀ i c, conns b !! i = Some c → acquiredSem c = true → at_pc c = PHave ∨ at_pc c = PReg)
  ∧ pendingConnects b = Z.of_nat (size (unconfirmed b)) + failed_sends b - refused b.
Proof.
  intros b. pose proof (books_run_inv (books0 made) ops (books0_inv made)) as [H1 H2 H3 H4]. fold b in H1, H2, H3, H4.
  split_and!; [done | | | by rewrite <- unconfirmed_size].
  - intros n E Hn. pose proof (H2 n E) as Hc. rewrite (H3 n Hn E), holders_size in *. unfold maxConcurrentConnects in Hc. lia.
  - intros i c Hi Ha. destruct (H1 i c Hi) as [Hok _]. destruct (at_pc c); auto; congruence.
Qed.

Section routing.
Context {T6 : IPv6Text} (ParseCIDR : bytes → option IPNet).

Lemma HasSuffix_iff s p : HasSuffix s p = true ↔ ∃ l, s = l ++ p.
Proof.
  unfold HasSuffix, bytes_eqb. rewrite andb_true_iff, bool_decide_eq_true, Nat.leb_le. split.
  - intros [Hl E]. exists (take (length s - length p) s). rewrite <- E at 2. by rewrite take_drop.
  - intros [l ->]. rewrite length_app. split; [lia |]. by rewrite drop_app_length' by lia.
Qed.

Lemma existsb_iff {A} (f : A → bool) l : existsb f l = true ↔ ∃ x, x ∈ l ∧ f x = true.
Proof. rewrite existsb_exists. by setoid_rewrite list_elem_of_In. Qed.

(** The host part of a destination. *)
Definition host_of (dest : bytes) : bytes := match SplitHostPort dest with Ret (h, _) => h | _ => dest end.

(** Some rule of the list applies to the host: its CIDR contains the address, or
    the host is the name or below it; a name written with "*." matches only
    below it.  Case does not matter. *)
Definition applies (rule host : bytes) : Prop :=
  match ParseCIDR rule with
  | Some n => ∃ ip, ParseIP (ToLower host) = Some ip ∧ Contains n ip = true
  | None =>
    if HasPrefix (ToLower rule) star_dot then ∃ l, ToLower host = l ++ drop 1 (ToLower rule)
    else ToLower host = ToLower rule ∨ ∃ l, ToLower host = l ++ dot :: ToLower rule
  end.

Lemma matches_applies rule host : matches (newMatcher ParseCIDR rule) host = true ↔ applies rule host.
Proof.
  unfold newMatcher, applies. destruct (ParseCIDR rule) as [n |]; cbn [matches].
  - destruct (ParseIP (ToLower host)) as [ip |]; [naive_solver | naive_solver].
  - destruct (HasPrefix (ToLower rule) star_dot); [apply HasSuffix_iff |].
    unfold bytes_eqb. by rewrite orb_true_iff, bool_decide_eq_true, HasSuffix_iff.
Qed.

Lemma list_applies rules host :
  existsb (λ m, matches m host) (newMatcher ParseCIDR <$> rules) = true ↔ ∃ rule, rule ∈ rules ∧ applies rule host.
Proof.
  rewrite existsb_iff. split.
  - intros (m & (rule & -> & Hr)%list_elem_of_fmap & Hm). exists rule. by rewrite <- matches_applies.
  - intros (rule & Hr & Ha). exists (newMatcher ParseCIDR rule). rewrite matches_applies. split; [by apply list_elem_of_fmap_2 | done].
Qed.

(** A destination is refused exactly when a block rule applies to its host,
    dialled directly exactly when a bypass rule applies and no block or force rule
    does, and tunnelled otherwise; a rule names a CIDR, a domain with everything
    below it, or with "*." only what is below it, never a name that merely ends
    with the same letters. *)
Theorem routing_decision cfg dest :
  let some rules := ∃ rule, rule ∈ rules ∧ applies rule (host_of dest) in
  let a := Decide (NewRouter ParseCIDR cfg) dest in
  (a = ActionBlock ↔ some (Block cfg))
  ∧ (a = ActionDirect ↔ ¬ some (Block cfg) ∧ ¬ some (Force cfg) ∧ some (Bypass cfg))
  ∧ (a = ActionTunnel ↔ ¬ some (Block cfg) ∧ (some (Force cfg) ∨ ¬ some (Bypass cfg))).
Proof.
  cbv zeta. unfold Decide. fold (host_of dest). cbn [NewRouter block force bypass].
  rewrite <- !list_applies. destruct (existsb _ (_ <$> Block cfg)), (existsb _ (_ <$> Force cfg)), (existsb _ (_ <$> Bypass cfg)); naive_solver.
Qed.
End routing.

Section direct_safe.
Context {T6 : IPv6Text} {TL : IPv6TextLaws} (lookupIP : bytes → option (list IP)).

Lemma pick_direct_spec ips acc r :
  pick_direct ips acc = inr r →
  (∀ ip, ip ∈ ips → isUnsafeDirectIP ip = false) ∧ (∀ ip, r = Some ip → acc = Some ip ∨ (acc = None ∧ ip ∈ ips)).
Proof.
  revert acc. induction ips as [| ip ips IH]; intros acc; cbn [pick_direct].
  - intros [= ->]. split; [by intros ? ?%elem_of_nil | by left].
  - destruct (isUnsafeDirectIP ip) eqn:E; [done |]. intros (H1 & H2)%IH. split.
    + intros x [-> | Hx]%elem_of_cons; [done | by apply H1].
    + intros x Hx. destruct acc as [y |]; destruct (H2 x Hx) as [Ha | [Ha Hin]]; simplify_eq; [by left | right].
      split; [done | apply list_elem_of_here].
Qed.

(** The text of an address of four or sixteen bytes is plain or in brackets, and
    names that address. *)
Lemma join_split ip port :
  (length ip = 4 ∨ length ip = 16)%nat → is_bytes ip → plain port →
  SplitHostPort (JoinHostPort (IPString ip) port) = Ret (IPString ip, port) ∧ ParseIP (IPString ip) = Some (To16 ip).
Proof.
  intros Hl Hb Hp. assert (length (To16 ip) = 16%nat ∧ is_bytes (To16 ip) ∧ IPString ip = IPString (To16 ip)) as (Hl16 & Hb16 & ->).
  { unfold To16. destruct Hl as [Hl | Hl]; rewrite Hl; cbn [Nat.eqb].
    - destruct ip as [| a [| b [| c [| d [|]]]]]; try discriminate. split_and!; [done | by apply v4_bytes16 | done].
    - done. }
  destruct (IPString_text (To16 ip) Hl16 Hb16) as (H1 & H2 & H3). split; [| done].
  unfold JoinHostPort. destruct (decide (colon ∈ IPString (To16 ip))) as [Hc | Hc].
  - apply list_elem_of_split in Hc as (l1 & l2 & E). destruct (IndexByte (IPString (To16 ip)) colon) eqn:Ei.
    + by apply split_bracketed.
    + exfalso. rewrite E in Ei. revert Ei. clear. induction l1 as [| x l IH]; cbn [app IndexByte]; [by rewrite Z.eqb_refl |].
      destruct (x =? colon); [done |]. destruct (IndexByte (l ++ colon :: l2) colon); [done | exact IH].
  - rewrite (index_none _ _ Hc). by apply split_plain.
Qed.

(** A connection the rules send past the tunnel is dialled by address and
    only to an address that was checked: the literal of the request, or the first
    of the resolved addresses when none of them is a loopback, private,
    link-local or unspecified one; the text handed to the dialer names exactly
    that address and the port of the request.  Everything else is refused. *)
Theorem direct_dial_checked r dest target :
  HandleTCPConnectWS_route lookupIP r dest = RDirect (Dial target) →
  Decide r dest = ActionDirect
  ∧ ∃ host port ip, SplitHostPort dest = Ret (host, port) ∧ isUnsafeDirectIP ip = false
    ∧ (ParseIP host = Some ip ∨ ∃ ips, ParseIP host = None ∧ lookupIP host = Some ips ∧ ip ∈ ips ∧ ∀ x, x ∈ ips → isUnsafeDirectIP x = false)
    ∧ ((length ip = 4 ∨ length ip = 16)%nat → is_bytes ip → plain port →
       SplitHostPort target = Ret (IPString ip, port) ∧ ParseIP (IPString ip) = Some (To16 ip)).
Proof.
  unfold HandleTCPConnectWS_route. destruct (Decide r dest); try done. unfold DirectDial. intros E. split; [done |].
  destruct (SplitHostPort dest) as [[host port] | |]; try done. destruct (_ || _); [done |].
  exists host, port. destruct (ParseIP host) as [ip |] eqn:Ep.
  - destruct (isUnsafeDirectIP ip) eqn:Eu; [done |]. injection E as <-. exists ip. split_and!; [done | done | by left | by apply join_split].
  - destruct (lookupIP host) as [[| ip0 ips] |] eqn:El; try done. destruct (pick_direct (ip0 :: ips) None) as [| [ip |]] eqn:Ek; try done.
    injection E as <-. apply pick_direct_spec in Ek as [H1 H2]. destruct (H2 ip eq_refl) as [| [_ Hin]]; [done |].
    exists ip. split_and!; [done | by apply H1 | right; by exists (ip0 :: ips) | by apply join_split].
Qed.
End direct_safe.

(** ** Witnesses and defects *)

Module ConnectDemo.
Import ToyText.

Definition demo_lookup (h : bytes) : option (list IP) := if bytes_eqb h (bytes_of_string "ya.ru") then Some [[77; 88; 55; 88]] else None.
Definition demo_router : Router := NewRouter (λ _, None) (mkConfig [] [] [bytes_of_string "*.ru"; bytes_of_string "ya.ru"]).

Lemma direct_dial_checked_witness :
  Decide demo_router (bytes_of_string "ya.ru:443") = ActionDirect
  ∧ ∃ host port ip, SplitHostPort (bytes_of_string "ya.ru:443") = Ret (host, port) ∧ isUnsafeDirectIP ip = false
    ∧ (ParseIP host = Some ip ∨ ∃ ips, ParseIP host = None ∧ demo_lookup host = Some ips ∧ ip ∈ ips ∧ ∀ x, x ∈ ips → isUnsafeDirectIP x = false)
    ∧ ((length ip = 4 ∨ length ip = 16)%nat → is_bytes ip → plain port →
       SplitHostPort (bytes_of_string "77.88.55.88:443") = Ret (IPString ip, port) ∧ ParseIP (IPString ip) = Some (To16 ip)).
Proof.
  apply (direct_dial_checked demo_lookup demo_router (bytes_of_string "ya.ru:443") (bytes_of_string "77.88.55.88:443")).
  vm_compute. reflexivity.
Defined.

(** The guard of direct connections lets through addresses the server's guard,
    which it is said to mirror, refuses: carrier-grade NAT, this network,
    broadcast, multicast, and the loopback address embedded in NAT64. *)
Theorem direct_guard_is_weaker :
  Forall (λ ip, isUnsafeDirectIP ip = false ∧ isPrivateIP ip = true)
    [[100; 64; 0; 1]; [0; 1; 2; 3]; [255; 255; 255; 255]; [239; 1; 2; 3]; [0; 100; 255; 155; 0; 0; 0; 0; 0; 0; 0; 0; 127; 0; 0; 1]].
Proof. repeat (apply Forall_cons_2; [vm_compute; done |]). apply Forall_nil_2. Qed.

(** A CONNECT for port 53 takes no token and gives one back: with one such
    request 33 others are past the semaphore at once. *)
Definition enter (i : nat) : list op := [ONew i false false true; OAcquire i].
Definition dns_connect (i : nat) : list op := [ONew i true false true; OAcquire i; ORegister i true; OSend i true].
Theorem dns_connect_frees_a_token :
  size (holders (run (books0 true) (concat (enter <$> seq 0 32) ++ enter 40))) = 32%nat
  ∧ size (holders (run (books0 true) (concat (enter <$> seq 0 32) ++ dns_connect 50 ++ enter 40))) = 33%nat.
Proof. vm_compute. done. Qed.

(** A refused CONNECT is taken off the pending counter twice, a CONNECT that
    could not be written never. *)
Theorem refused_connect_counted_twice :
  pendingConnects (run (books0 true) (enter 0 ++ [ORegister 0 true; OSend 0 true; OStart 0 true; ODownlink 0 EvFail])) = -1
  ∧ pendingConnects (run (books0 true) (enter 0 ++ [ORegister 0 true; OSend 0 false])) = 1.
Proof. vm_compute. done. Qed.

End ConnectDemo.
