(* ===== verification/InProcess.v ===== *)
(** * UDP flows of the in-process dialer ([proxy/socks5/inprocess.go])

    [DialUDP] allocates a stream and binds it to a slot; the packet connection it
    returns turns the datagrams of one flow into chunks and back.  Readers,
    writers, the router that fills the stream's channel and any number of [Close]
    calls interleave; a turn of [ReadFrom]'s loop and the body of [Close] are one
    step each, and the select takes any case that is ready.  The router puts no nil
    slices on the channel. *)

From S2P Require Import Prelude.
From S2P Require Import Chunk.
From S2P Require Import ClientStreams.
From stdpp Require Import base list gmap sets strings.

#[local] Open Scope Z_scope.

(** ** Dialling *)

Definition udpMinReadySlots : Z := 2.

(** The client's tables, the streams the slot pool has bound and the FINs handed to
    the transport. *)
Record books := mkBooks { bk_client : Client; bk_assigned : gset Z; bk_fins : list Z }.

(** [ready]: what [ReadyCount] says, for a transport that has it; [isPool]: it is
    pool-aware; [session]: the stream has a session once it is bound. *)
Definition DialUDP (b : books) (ready : option Z) (isPool session : bool) : option (Z * nat) * books :=
  if match ready with Some n => n <? udpMinReadySlots | None => false end then (None, b) else
  let '(streamID, cl) := NextStreamID (bk_client b) in
  match RegisterStream cl streamID with
  | None => (None, mkBooks cl (bk_assigned b) (bk_fins b))
  | Some (incoming, cl') =>
    let assigned := if isPool then {[streamID]} ∪ bk_assigned b else bk_assigned b in
    if session then (Some (streamID, incoming), mkBooks cl' assigned (bk_fins b))
    else (None, mkBooks (UnregisterStream cl' streamID) (if isPool then assigned ∖ {[streamID]} else assigned) (bk_fins b))
  end.

(** The cleanup a [Close] runs: [CloseStream].  [sealed]: the stream still has a
    session and the FIN was encrypted. *)
Definition CloseStream (b : books) (streamID : Z) (isPool sealed : bool) : books :=
  mkBooks (UnregisterStream (bk_client b) streamID) (if isPool then bk_assigned b ∖ {[streamID]} else bk_assigned b)
    (if sealed then bk_fins b ++ [streamID] else bk_fins b).

(** ** The packet connection *)

Record streamPacketConn := mkPC {
  incoming : list bytes; chanClosed : bool;      (* the stream's channel *)
  rdeadline : Z;                                 (* 0: none *)
  pcClosed : bool; cleanups : Z;                 (* runs of [cleanup] *)
  taken : list bytes;                            (* what was received from the channel *)
  returned : list bytes;                         (* what [ReadFrom] returned *)
  sentOut : list (bytes * bytes);                (* what [send] got *)
}.

Definition new_conn : streamPacketConn := mkPC [] false 0 false 0 [] [] [].

(** The ready case the select of [ReadFrom] takes. *)
Inductive pick := PickClosed | PickTimer | PickIncoming.
Inductive read_result := RdClosed | RdTimeout | RdData (n : Z) | RdAgain.

Definition pop (p : streamPacketConn) (rest : list bytes) (x : bytes) (out : list bytes) : streamPacketConn :=
  mkPC rest (chanClosed p) (rdeadline p) (pcClosed p) (cleanups p) (taken p ++ [x]) (returned p ++ out) (sentOut p).

(** One turn of the loop with a buffer of [size] bytes; [None]: the case is not
    ready.  The address returned with data is always the connection's own [dst],
    never the one in the chunk. *)
Definition ReadFrom (p : streamPacketConn) (size : nat) (now : Z) (c : pick) : outcome (option (read_result * streamPacketConn)) :=
  if negb (rdeadline p =? 0) && (rdeadline p - now <=? 0) then Ret (Some (RdTimeout, p)) else
  match c with
  | PickClosed => Ret (if pcClosed p then Some (RdClosed, p) else None)
  | PickTimer => Ret (if rdeadline p =? 0 then None else Some (RdTimeout, p))
  | PickIncoming =>
    match incoming p with
    | [] => Ret (if chanClosed p then Some (RdClosed, p) else None)
    | payload :: rest =>
      match ParseUDPChunk payload with
      | Panic => Panic
      | Err _ => Ret (Some (RdAgain, pop p rest payload []))
      | Ret (_, _, data) =>
        if len data =? 0 then Ret (Some (RdAgain, pop p rest payload []))
        else Ret (Some (RdData (len (take size data)), pop p rest payload [take size data]))
      end
    end
  end.

(** [sendErr]: [send] failed. *)
Definition WriteTo (p : streamPacketConn) (addr b : bytes) (sendErr : bool) : option Z * streamPacketConn :=
  if pcClosed p then (None, p)
  else if sendErr then (None, p)
  else (Some (len b), mkPC (incoming p) (chanClosed p) (rdeadline p) (pcClosed p) (cleanups p) (taken p) (returned p) (sentOut p ++ [(addr, b)])).

Definition Close (p : streamPacketConn) : streamPacketConn :=
  if pcClosed p then p
  else mkPC (incoming p) (chanClosed p) (rdeadline p) true (cleanups p + 1) (taken p) (returned p) (sentOut p).

Definition SetReadDeadline (p : streamPacketConn) (t : Z) : streamPacketConn :=
  mkPC (incoming p) (chanClosed p) t (pcClosed p) (cleanups p) (taken p) (returned p) (sentOut p).

(** The client's router: a frame for the stream, and the end of its channel. *)
Definition push (p : streamPacketConn) (x : bytes) : streamPacketConn :=
  mkPC (incoming p ++ [x]) (chanClosed p) (rdeadline p) (pcClosed p) (cleanups p) (taken p) (returned p) (sentOut p).
Definition end_chan (p : streamPacketConn) : streamPacketConn :=
  mkPC (incoming p) true (rdeadline p) (pcClosed p) (cleanups p) (taken p) (returned p) (sentOut p).

Inductive conn_op :=
| CPush (x : bytes) | CEnd | CRead (size : nat) (now : Z) (c : pick) | CWrite (addr b : bytes) (sendErr : bool) | CClose | CDeadline (t : Z).

(** [None]: not possible now. *)
Definition conn_step (p : streamPacketConn) (o : conn_op) : outcome (option streamPacketConn) :=
  match o with
  | CPush x => Ret (if chanClosed p then None else if (length (incoming p) <? chanCap)%nat then Some (push p x) else None)
  | CEnd => Ret (if chanClosed p then None else Some (end_chan p))
  | CRead size now c => r ← ReadFrom p size now c; Ret (option_map snd r)
  | CWrite addr b e => Ret (Some (snd (WriteTo p addr b e)))
  | CClose => Ret (Some (Close p))
  | CDeadline t => Ret (Some (SetReadDeadline p t))
  end.

Fixpoint conn_run (p : streamPacketConn) (ops : list conn_op) : outcome (option streamPacketConn) :=
  match ops with
  | [] => Ret (Some p)
  | o :: ops' => r ← conn_step p o; match r with Some p' => conn_run p' ops' | None => Ret None end
  end.

(** ** The connection is a filter of its channel *)

(** What a chunk brings to a reader with a buffer of [size] bytes. *)
Definition datagram (payload : bytes) : option bytes :=
  match ParseUDPChunk payload with Ret (_, _, data) => if len data =? 0 then None else Some data | _ => None end.

Definition pushed (ops : list conn_op) : list bytes := omap (λ o, match o with CPush x => Some x | _ => None end) ops.

(** [out] are prefixes of the datagrams of [l], one each, in order. *)
Definition reads_of (l out : list bytes) : Prop := Forall2 (λ d r, ∃ n, r = take n d) (omap datagram l) out.

Record conn_inv (p : streamPacketConn) (ops : list conn_op) : Prop := {
  pv_flow : taken p ++ incoming p = pushed ops;
  pv_reads : reads_of (taken p) (returned p);
  pv_clean : cleanups p = if pcClosed p then 1 else 0;
}.

Lemma flow_reads_snoc l out x out' : reads_of l out → reads_of [x] out' → reads_of (l ++ [x]) (out ++ out').
Proof. unfold reads_of. rewrite omap_app. apply Forall2_app. Qed.

Lemma pushed_snoc ops o : pushed (ops ++ [o]) = pushed ops ++ pushed [o].
Proof. apply omap_app. Qed.

Lemma conn_step_inv p ops o p' : conn_inv p ops → conn_step p o = Ret (Some p') → conn_inv p' (ops ++ [o]).
Proof.
  intros [H1 H2 H3]. assert (pushed [o] = [] → conn_inv p (ops ++ [o])) as Hsame by (intros E; split; [by rewrite pushed_snoc, E, app_nil_r | done | done]).
  destruct o as [x | | size now c | addr b e | | t]; cbn [conn_step].
  - destruct (chanClosed p); [done |]. destruct (_ <? _)%nat; [| done]. intros [= <-]. split; cbn; [| done | done]. by rewrite pushed_snoc, app_assoc, H1.
  - destruct (chanClosed p); [done |]. intros [= <-]. destruct (Hsame eq_refl) as [E1 E2 E3]. by split.
  - specialize (Hsame eq_refl). unfold ReadFrom. destruct (_ && _); [by intros [= <-] |]. destruct c.
    + destruct (pcClosed p); [by intros [= <-] | done].
    + destruct (rdeadline p =? 0); [done | by intros [= <-]].
    + destruct (incoming p) as [| x rest] eqn:Ei; [destruct (chanClosed p); [by intros [= <-] | done] |].
      assert (∀ out, reads_of [x] out → conn_inv (pop p rest x out) (ops ++ [CRead size now PickIncoming])) as Hpop.
      { intros out Ho. split; cbn; [| by apply flow_reads_snoc | done]. rewrite pushed_snoc, app_nil_r, <- app_assoc. cbn. by rewrite <- H1. }
      destruct (ParseUDPChunk x) as [[[sid ad] data] | |] eqn:Ep; cbn [mbind outcome_bind option_map]; [| | done].
      * assert (datagram x = if len data =? 0 then None else Some data) as Ed by (unfold datagram; by rewrite Ep).
        destruct (len data =? 0); cbn [option_map]; intros [= <-]; apply Hpop; unfold reads_of; cbn [omap list_omap]; rewrite Ed; repeat constructor; by eexists.
      * intros [= <-]. apply Hpop. unfold reads_of, datagram. cbn [omap list_omap]. rewrite Ep. constructor.
  - specialize (Hsame eq_refl). unfold WriteTo. destruct (pcClosed p); [by intros [= <-] |]. destruct e; [by intros [= <-] |]. intros [= <-]. destruct Hsame as [E1 E2 E3]. by split.
  - specialize (Hsame eq_refl). destruct Hsame as [E1 E2 E3]. unfold Close. destruct (pcClosed p) eqn:Ec; intros [= <-]; split; cbn; rewrite ?Ec; try done; lia.
  - intros [= <-]. destruct (Hsame eq_refl) as [E1 E2 E3]. by split.
Qed.

Lemma conn_run_inv p ops ops' p' : conn_inv p ops → conn_run p ops' = Ret (Some p') → conn_inv p' (ops ++ ops').
Proof.
  revert p ops. induction ops' as [| o ops' IH]; intros p ops Hp; cbn [conn_run]; [intros [= <-]; by rewrite app_nil_r |].
  destruct (conn_step p o) as [[p1 |] | |] eqn:E; try done. cbn [mbind outcome_bind]. intros E'.
  change (o :: ops') with ([o] ++ ops'). rewrite app_assoc. eapply IH; [by eapply conn_step_inv | done].
Qed.

Lemma conn_step_total p o : (∀ x, x ∈ incoming p → ParseUDPChunk x ≠ Panic) → ∃ r, conn_step p o = Ret r.
Proof.
  intros Hw. destruct o as [x | | size now c | addr b e | | t]; cbn [conn_step]; try by eexists. unfold ReadFrom. destruct (_ && _); [by eexists |].
  destruct c; try by eexists. destruct (incoming p) as [| x rest]; [by eexists |].
  assert (ParseUDPChunk x ≠ Panic) as Hx by (apply Hw, list_elem_of_here).
  destruct (ParseUDPChunk x) as [[[sid ad] data] | |]; [destruct (len data =? 0); by eexists | by eexists | done].
Qed.

Lemma conn_run_total p ops ops' : conn_inv p ops → (∀ x, x ∈ pushed (ops ++ ops') → ParseUDPChunk x ≠ Panic) → ∃ r, conn_run p ops' = Ret r.
Proof.
  revert p ops. induction ops' as [| o ops' IH]; intros p ops Hp Hw; cbn [conn_run]; [by eexists |].
  destruct (conn_step_total p o) as [[p1 |] E].
  { intros x Hx. apply Hw. unfold pushed. rewrite omap_app. apply elem_of_app. left. fold (pushed ops). rewrite <- (pv_flow _ _ Hp). apply elem_of_app. by right. }
  - rewrite E. cbn [mbind outcome_bind]. apply (IH p1 (ops ++ [o])); [by eapply conn_step_inv |]. by rewrite <- app_assoc.
  - rewrite E. by eexists.
Qed.

Lemma new_conn_inv : conn_inv new_conn [].
Proof. split; [done | constructor | done]. Qed.

(** A UDP flow of the in-process dialer: if no chunk pushed on its channel
    makes the parser panic, no interleaving of router, readers, writers, deadlines
    and closes does; readers get, one each and in order, the datagrams of the
    chunks taken from the channel, cut only by their buffers, malformed and empty
    chunks being skipped; the stream is closed exactly once however often [Close]
    is called, and nothing is sent afterwards. *)
Theorem udp_flow_faithful ops :
  (∀ x, x ∈ pushed ops → ParseUDPChunk x ≠ Panic) →
  ∃ r, conn_run new_conn ops = Ret r ∧ ∀ p, r = Some p →
    taken p ++ incoming p = pushed ops ∧ reads_of (taken p) (returned p)
    ∧ cleanups p = (if pcClosed p then 1 else 0)
    ∧ (pcClosed p = true → Close p = p ∧ ∀ addr b e, WriteTo p addr b e = (None, p)).
Proof.
  intros Hw. destruct (conn_run_total new_conn [] ops new_conn_inv Hw) as [r E]. exists r. split; [done |]. intros p ->.
  destruct (conn_run_inv _ _ _ _ new_conn_inv E) as [H1 H2 H3]. split_and!; [done | done | done |].
  intros Hc. split; [unfold Close | intros addr b e; unfold WriteTo]; by rewrite Hc.
Qed.

(** ** Dialling keeps the books *)

Lemma delete_fresh {A} (m : gmap Z A) i x : m !! i = None → delete i (<[i := x]> m) = m.
Proof. intros H. by rewrite delete_insert_id. Qed.

Lemma NextStreamID_pair c : snd (NextStreamID c) = with_counter c (fst (NextStreamID c)).
Proof. unfold NextStreamID. by generalize (next_id (Z.to_nat 65535) (id_used c) (streamCounter c)). Qed.

(** [DialUDP] on tables in order: refused for lack of ready slots it changes
    nothing; failed later it leaves the registered streams and the bound slots as
    they were; successful it returns an unused id between 1 and 65535, registered
    on a new, open and empty channel, with no other stream touched, and the
    connection's cleanup gives exactly that back, with one FIN for the stream if it
    still has a session. *)
Theorem dial_udp_books b ready isPool session r b' :
  table_inv (bk_client b) → (∀ i, i ∈ bk_assigned b → is_Some (streamChans (bk_client b) !! i) ∨ is_Some (streamFramesChans (bk_client b) !! i)) →
  DialUDP b ready isPool session = (r, b') →
  streamFramesChans (bk_client b') = streamFramesChans (bk_client b)
  ∧ match r with
    | None => streamChans (bk_client b') = streamChans (bk_client b) ∧ bk_assigned b' = bk_assigned b
    | Some (id, p) =>
      1 ≤ id ≤ 65535 ∧ id_used (bk_client b) id = false
      ∧ streamChans (bk_client b') = <[id := p]> (streamChans (bk_client b))
      ∧ cl_flat (bk_client b) !! p = None ∧ cl_flat (bk_client b') !! p = Some (mkChan [] false)
      ∧ bk_assigned b' = (if isPool then {[id]} ∪ bk_assigned b else bk_assigned b)
      ∧ ∀ sealed, streamChans (bk_client (CloseStream b' id isPool sealed)) = streamChans (bk_client b)
        ∧ bk_assigned (CloseStream b' id isPool sealed) = bk_assigned b
        ∧ bk_fins (CloseStream b' id isPool sealed) = bk_fins b ++ (if sealed then [id] else [])
    end.
Proof.
  intros Ht Ha. unfold DialUDP. destruct (match ready with Some n => _ | None => _ end); [by intros [= <- <-] |].
  destruct (NextStreamID (bk_client b)) as [id cl] eqn:En.
  assert (1 ≤ id ≤ 65535 ∧ id_used (bk_client b) id = false) as [Hid Hun].
  { pose proof (fresh_id_unused (bk_client b) Ht) as H1. pose proof (NextStreamID_range (bk_client b) Ht) as H2. rewrite En in H1, H2. by split. }
  assert (cl = with_counter (bk_client b) id) as -> by (pose proof (NextStreamID_pair (bk_client b)) as H; rewrite En in H; exact H).
  assert (streamChans (bk_client b) !! id = None ∧ streamFramesChans (bk_client b) !! id = None) as [Hn1 Hn2].
  { unfold id_used in Hun. apply orb_false_elim in Hun as [E1%bool_decide_eq_false E2%bool_decide_eq_false]. by rewrite !eq_None_not_Some. }
  assert (id ∉ bk_assigned b) as Hna by (intros H%Ha; rewrite Hn1, Hn2 in H; destruct H as [[? ?] | [? ?]]; done).
  assert (({[id]} ∪ bk_assigned b) ∖ {[id]} = bk_assigned b) as Hasg by set_solver.
  unfold RegisterStream. cbn [with_counter streamChans]. destruct (_ <=? _)%nat; [by intros [= <- <-] |].
  set (q := fresh (dom (cl_flat (with_counter (bk_client b) id)))).
  set (cl1 := add_flow _ id).
  assert (streamChans cl1 = <[id := q]> (streamChans (bk_client b)) ∧ streamFramesChans cl1 = streamFramesChans (bk_client b)
    ∧ cl_flat cl1 = <[q := mkChan [] false]> (cl_flat (bk_client b))) as (E1 & E2 & E3) by (unfold cl1, add_flow; by destruct (flowControlEnabled _)).
  assert (streamChans (UnregisterStream cl1 id) = streamChans (bk_client b) ∧ streamFramesChans (UnregisterStream cl1 id) = streamFramesChans (bk_client b)) as [E4 E5].
  { cbn. rewrite E1, E2. split; [by apply delete_fresh | by apply delete_id]. }
  destruct session; intros [= <- <-]; cbn [bk_client bk_assigned CloseStream].
  - split; [done |]. split_and!; try done; try lia.
    + apply (fresh_absent (cl_flat (bk_client b))).
    + by rewrite E3, lookup_insert_eq.
    + intros sealed. split_and!; [done | by destruct isPool | destruct sealed; cbn; by rewrite ?app_nil_r].
  - split; [done |]. split; [done |]. by destruct isPool.
Qed.

(** ** Witnesses and a defect *)

Module FlowDemo.

Definition chunk (data : bytes) : bytes := [0; 7; 0; 3; 97; 58; 49] ++ data.
Definition flow_ops : list conn_op :=
  [CPush (chunk [1; 2; 3]); CPush [0; 7]; CPush (chunk []); CPush (chunk [4]); CRead 2 0 PickIncoming; CRead 9 0 PickIncoming; CRead 9 0 PickIncoming;
   CRead 9 0 PickIncoming; CWrite [97] [9] false; CClose; CClose; CWrite [97] [8] false].

Lemma udp_flow_faithful_witness :
  ∃ r, conn_run new_conn flow_ops = Ret r ∧ ∀ p, r = Some p →
    taken p ++ incoming p = pushed flow_ops ∧ reads_of (taken p) (returned p)
    ∧ cleanups p = (if pcClosed p then 1 else 0)
    ∧ (pcClosed p = true → Close p = p ∧ ∀ addr b e, WriteTo p addr b e = (None, p)).
Proof.
  apply (udp_flow_faithful flow_ops). apply Forall_forall. repeat constructor; vm_compute; discriminate.
Defined.

Example flow_reads : (λ r, option_map (λ p, (returned p, sentOut p, cleanups p)) r) <$> conn_run new_conn flow_ops = Ret (Some ([[1; 2]; [4]], [([97], [9])], 1)).
Proof. vm_compute. reflexivity. Qed.

Lemma dial_udp_books_witness :
  let '(r, b') := DialUDP (mkBooks new_client ∅ []) (Some 2) true true in
  streamFramesChans (bk_client b') = streamFramesChans new_client
  ∧ match r with
    | None => streamChans (bk_client b') = streamChans new_client ∧ bk_assigned b' = ∅
    | Some (id, p) =>
      1 ≤ id ≤ 65535 ∧ id_used new_client id = false
      ∧ streamChans (bk_client b') = <[id := p]> (streamChans new_client)
      ∧ cl_flat new_client !! p = None ∧ cl_flat (bk_client b') !! p = Some (mkChan [] false)
      ∧ bk_assigned b' = {[id]} ∪ ∅
      ∧ ∀ sealed, streamChans (bk_client (CloseStream b' id true sealed)) = streamChans new_client
        ∧ bk_assigned (CloseStream b' id true sealed) = ∅
        ∧ bk_fins (CloseStream b' id true sealed) = [] ++ (if sealed then [id] else [])
    end.
Proof.
  destruct (DialUDP (mkBooks new_client ∅ []) (Some 2) true true) as [r b'] eqn:E.
  apply (dial_udp_books (mkBooks new_client ∅ []) (Some 2) true true r b' new_client_inv); [| done]. intros i Hi. cbn in Hi. by apply not_elem_of_empty in Hi.
Defined.

(** A chunk whose address length wraps makes the parser slice backwards: the
    reader of a flow panics where the comment says malformed chunks are skipped. *)
Theorem malformed_chunk_panics_reader :
  conn_run new_conn [CPush [0; 7; 255; 255; 1]; CRead 100 0 PickIncoming] = Panic.
Proof. vm_compute. reflexivity. Qed.

End FlowDemo.
