(* ===== verification/Coalesce.v ===== *)
(** * The coalescing dispatcher ([proxy/socks5/coalesce.go])

    Requests for a connection that arrive within a window are queued; when the
    window ends each gets a goroutine, at most [cap(sem)] of which ask the pool at
    once.  A caller may give up at any moment, before or after its connection has
    been acquired.  The pool is the environment: an acquisition returns a new
    connection or an error.  Channel operations and the critical sections are
    steps, in any order. *)

From S2P Require Import Prelude.
From stdpp Require Import base list gmap sets.

#[local] Open Scope Z_scope.

(** ** State *)

(** The dispatching goroutine of a request. *)
Inductive worker :=
| WQueued                       (* in [pending], no goroutine yet *)
| WSpawned                      (* before the semaphore *)
| WAsking                       (* in [pool.Acquire] *)
| WResult (conn : option nat)   (* about to deliver; [None] is an error *)
| WDone.
Inductive caller := CWaiting | CGot (conn : option nat) | CLeft.

Record request := mkReq { rq_worker : worker; rq_caller : caller; rq_done : bool (* [ctx.Done()] *) }.

Record CoalescingDispatcher := mkDisp {
  sem : Z; maxParallel : Z;
  pending : list nat; timer : bool;
  reqs : gmap nat request;
  grouped : Z; groups : Z;
  made : gset nat;              (* connections the pool has given out *)
  closed : gset nat;            (* and those closed by the dispatcher *)
}.

Definition NewCoalescingDispatcher (maxPar : Z) : CoalescingDispatcher :=
  mkDisp 0 (if maxPar <=? 0 then 2 else maxPar) [] false ∅ 0 0 ∅ ∅.

Definition set_req (d : CoalescingDispatcher) (i : nat) (r : request) : CoalescingDispatcher :=
  mkDisp (sem d) (maxParallel d) (pending d) (timer d) (<[i := r]> (reqs d)) (grouped d) (groups d) (made d) (closed d).
Definition set_sem (d : CoalescingDispatcher) (n : Z) : CoalescingDispatcher :=
  mkDisp n (maxParallel d) (pending d) (timer d) (reqs d) (grouped d) (groups d) (made d) (closed d).
Definition give (d : CoalescingDispatcher) (c : option nat) : CoalescingDispatcher :=
  mkDisp (sem d) (maxParallel d) (pending d) (timer d) (reqs d) (grouped d) (groups d) (default (made d) ((λ n, {[n]} ∪ made d) <$> c)) (closed d).
Definition close (d : CoalescingDispatcher) (c : option nat) : CoalescingDispatcher :=
  mkDisp (sem d) (maxParallel d) (pending d) (timer d) (reqs d) (grouped d) (groups d) (made d) (default (closed d) ((λ n, {[n]} ∪ closed d) <$> c)).
Definition worker_to (r : request) (w : worker) : request := mkReq w (rq_caller r) (rq_done r).

(** [Acquire] up to its select. *)
Definition Acquire (d : CoalescingDispatcher) (i : nat) : CoalescingDispatcher :=
  let newGroup := negb (timer d) in
  mkDisp (sem d) (maxParallel d) (pending d ++ [i]) true (<[i := mkReq WQueued CWaiting false]> (reqs d))
    (grouped d + 1) (groups d + if newGroup then 1 else 0) (made d) (closed d).

Definition spawn (m : gmap nat request) (i : nat) : gmap nat request :=
  match m !! i with Some r => <[i := worker_to r WSpawned]> m | None => m end.
Definition flush (d : CoalescingDispatcher) : CoalescingDispatcher :=
  mkDisp (sem d) (maxParallel d) [] false (foldl spawn (reqs d) (pending d)) (grouped d) (groups d) (made d) (closed d).

Inductive op :=
| OAcquire (i : nat)
| OCancel (i : nat)                       (* the caller's context ends *)
| OLeave (i : nat)                        (* the caller returns on it *)
| OFlush
| OSem (i : nat) | OGiveUp (i : nat)      (* the first select of the goroutine *)
| OPool (i : nat) (conn : option nat)
| ODeliver (i : nat) | ODiscard (i : nat) (* the second select *).

(** [None]: the step is not possible. *)
Definition step (d : CoalescingDispatcher) (o : op) : option CoalescingDispatcher :=
  match o with
  | OAcquire i => match reqs d !! i with None => Some (Acquire d i) | Some _ => None end
  | OCancel i => r ← reqs d !! i; Some (set_req d i (mkReq (rq_worker r) (rq_caller r) true))
  | OLeave i =>
    r ← reqs d !! i;
    match rq_caller r with CWaiting => if rq_done r then Some (set_req d i (mkReq (rq_worker r) CLeft true)) else None | _ => None end
  | OFlush => if timer d then Some (flush d) else None
  | OSem i =>
    r ← reqs d !! i;
    match rq_worker r with
    | WSpawned => if sem d <? maxParallel d then Some (set_req (set_sem d (sem d + 1)) i (worker_to r WAsking)) else None
    | _ => None
    end
  | OGiveUp i =>
    r ← reqs d !! i;
    match rq_worker r with WSpawned => if rq_done r then Some (set_req d i (worker_to r WDone)) else None | _ => None end
  | OPool i c =>
    r ← reqs d !! i;
    match rq_worker r with
    | WAsking =>
      match c with
      | Some n => if bool_decide (n ∈ made d) then None else Some (set_req (give d c) i (worker_to r (WResult c)))
      | None => Some (set_req d i (worker_to r (WResult None)))
      end
    | _ => None
    end
  | ODeliver i =>
    r ← reqs d !! i;
    match rq_worker r, rq_caller r with
    | WResult c, CWaiting => Some (set_req (set_sem d (sem d - 1)) i (mkReq WDone (CGot c) (rq_done r)))
    | _, _ => None
    end
  | ODiscard i =>
    r ← reqs d !! i;
    match rq_worker r with
    | WResult c => if rq_done r then Some (set_req (close (set_sem d (sem d - 1)) c) i (worker_to r WDone)) else None
    | _ => None
    end
  end.

Fixpoint run (d : CoalescingDispatcher) (ops : list op) : option CoalescingDispatcher :=
  match ops with [] => Some d | o :: ops' => d' ← step d o; run d' ops' end.

(** ** Invariant *)

(** Where a connection of a request is: with its goroutine, or with its caller. *)
Definition in_hand (r : request) : option nat := match rq_worker r with WResult c => c | _ => None end.
Definition got (r : request) : option nat := match rq_caller r with CGot c => c | _ => None end.
Definition owns (r : request) (n : nat) : Prop := in_hand r = Some n ∨ got r = Some n.

Definition holds_sem (r : request) : Z := match rq_worker r with WAsking | WResult _ => 1 | _ => 0 end.

Definition req_ok (q : list nat) (i : nat) (r : request) : Prop :=
  (rq_worker r = WQueued ↔ i ∈ q)
  ∧ match rq_caller r with
    | CWaiting => rq_worker r = WDone → rq_done r = true
    | CGot _ => rq_worker r = WDone
    | CLeft => rq_done r = true
    end.

Record disp_inv (d : CoalescingDispatcher) : Prop := {
  di_req i r : reqs d !! i = Some r → req_ok (pending d) i r;
  di_queue i : i ∈ pending d → is_Some (reqs d !! i);
  di_timer : timer d = bool_decide (pending d ≠ []);
  di_sem : sem d = msum holds_sem (reqs d);
  di_cap : 0 < maxParallel d ∧ sem d ≤ maxParallel d;
  di_owned n : n ∈ made d → n ∈ closed d ∨ ∃ i r, reqs d !! i = Some r ∧ owns r n;
  di_made i r n : reqs d !! i = Some r → owns r n → n ∈ made d ∧ n ∉ closed d;
  di_once i j r s n : reqs d !! i = Some r → reqs d !! j = Some s → owns r n → owns s n → i = j;
  di_closed : closed d ⊆ made d;
}.

#[global] Instance owns_dec r n : Decision (owns r n).
Proof. unfold owns. apply _. Defined.

(** A step rewrites one request: the semaphore follows its weight, and a
    connection it no longer owns has been closed. *)
Lemma update_inv d d' i r r' :
  disp_inv d → reqs d !! i = Some r → reqs d' = <[i := r']> (reqs d) →
  pending d' = pending d → timer d' = timer d → maxParallel d' = maxParallel d →
  req_ok (pending d) i r' → sem d' = sem d - holds_sem r + holds_sem r' → sem d' ≤ maxParallel d →
  (∀ n, owns r' n → owns r n ∨ n ∉ made d) →
  (∀ n, n ∈ made d' ↔ n ∈ made d ∨ owns r' n) →
  (∀ n, n ∈ closed d' ↔ n ∈ closed d ∨ (owns r n ∧ ¬ owns r' n)) →
  disp_inv d'.
Proof.
  intros [H1 H2 H3 H4 H5 H6 H7 H8 H9] Hi E Ep Et Em Hok Hs Hc Ho Hm Hcl. split.
  - rewrite E, Ep. intros j s. rewrite lookup_insert_Some. intros [[<- <-] | [_ Hj]]; [done | by apply H1].
  - rewrite E, Ep. intros j Hj. apply lookup_insert_is_Some. destruct (decide (i = j)); [by left | right; auto].
  - by rewrite Et, Ep.
  - rewrite E, (msum_insert _ _ _ _ _ Hi). lia.
  - rewrite Em. by split; [apply H5 |].
  - intros n Hn. rewrite E. apply Hm in Hn as [Hn | Hn]; [| right; exists i, r'; by rewrite lookup_insert_eq].
    destruct (H6 n Hn) as [Hx | (j & s & Hj & Hx)]; [left; apply Hcl; by left |]. destruct (decide (j = i)) as [-> | Hne].
    + simplify_eq. destruct (decide (owns r' n)); [right; exists i, r'; by rewrite lookup_insert_eq | left; apply Hcl; by right].
    + right. exists j, s. by rewrite lookup_insert_ne.
  - intros j s n. rewrite E, lookup_insert_Some. intros [[<- <-] | [Hne Hj]] Hx; rewrite Hm, Hcl.
    + split; [by right |]. intros [Hc' | [_ ?]]; [| done]. destruct (Ho n Hx) as [Hr | Hr]; [by apply (H7 i r n Hi Hr) | by apply Hr, H9].
    + destruct (H7 j s n Hj Hx) as [Hmd Hcd]. split; [by left |]. intros [? | [Hr _]]; [done |]. apply Hne. by eapply H8.
  - intros j k s t n. rewrite E, !lookup_insert_Some. intros [[<- <-] | [Hn1 Hj]] [[<- <-] | [Hn2 Hk]] Hx Hy; [done | | | by eapply H8].
    + destruct (Ho n Hx) as [Hr | Hr]; [by eapply H8 | by destruct Hr; eapply H7].
    + destruct (Ho n Hy) as [Hr | Hr]; [by eapply H8 | by destruct Hr; eapply H7].
  - intros n. rewrite Hcl, Hm. intros [? | [Hr _]]; left; [by apply H9 | by eapply H7].
Qed.

(** Steps after which every connection is where it was. *)
Lemma update_same d d' i r r' :
  disp_inv d → reqs d !! i = Some r → reqs d' = <[i := r']> (reqs d) →
  pending d' = pending d → timer d' = timer d → maxParallel d' = maxParallel d → made d' = made d → closed d' = closed d →
  req_ok (pending d) i r' → sem d' = sem d - holds_sem r + holds_sem r' → sem d' ≤ maxParallel d →
  (∀ n, owns r' n ↔ owns r n) → disp_inv d'.
Proof.
  intros Hd Hi E Ep Et Em Ema Ecl Hok Hs Hc Ho. eapply (update_inv d d' i r r'); try done.
  - intros n Hn. left. by apply Ho.
  - intros n. rewrite Ema. split; [by left |]. intros [? | ?%Ho]; [done |]. by eapply (di_made _ Hd).
  - intros n. rewrite Ecl. split; [by left |]. intros [? | [? Hn]]; [done |]. by destruct Hn; apply Ho.
Qed.

Lemma new_inv n : disp_inv (NewCoalescingDispatcher n).
Proof.
  split; cbn; try done; try set_solver.
  destruct (Z.leb_spec n 0); lia.
Qed.

Lemma enqueue_inv d i : disp_inv d → reqs d !! i = None → disp_inv (Acquire d i).
Proof.
  intros [H1 H2 H3 H4 H5 H6 H7 H8 H9] Hi. assert (i ∉ pending d) as Hq by (intros [? ?]%H2; congruence).
  assert (∀ n, ¬ owns (mkReq WQueued CWaiting false) n) as Hno by (intros n [|]; done).
  split; cbn [reqs pending timer sem maxParallel made closed Acquire]; try done.
  - intros j s. rewrite lookup_insert_Some. intros [[<- <-] | [Hne Hj]].
    + split; [| done]. split; [set_solver | done].
    + destruct (H1 j s Hj) as [Hw Hc]. split; [| done]. rewrite Hw. set_solver.
  - intros j Hj. apply lookup_insert_is_Some. destruct (decide (i = j)); [by left | right; split; [done | apply H2; set_solver]].
  - symmetry. apply bool_decide_eq_true. by destruct (pending d).
  - rewrite msum_insert_new by done. cbn [holds_sem rq_worker]. lia.
  - intros n Hn. destruct (H6 n Hn) as [? | (j & s & Hj & Hx)]; [by left |]. right. exists j, s. rewrite lookup_insert_ne; [done | congruence].
  - intros j s n. rewrite lookup_insert_Some. intros [[_ <-] | [_ Hj]] Hx; [by apply Hno in Hx | by eapply H7].
  - intros j k s t n. rewrite !lookup_insert_Some. intros [[_ <-] | [_ Hj]] [[_ <-] | [_ Hk]] Hx Hy; try by apply Hno in Hx; try by apply Hno in Hy.
    + by apply Hno in Hy.
    + by eapply H8.
Qed.

Lemma spawn_lookup q m i :
  foldl spawn m q !! i = if bool_decide (i ∈ q) then (λ r, worker_to r WSpawned) <$> m !! i else m !! i.
Proof.
  revert m. induction q as [| j q IH]; intros m; cbn [foldl]; [done |]. rewrite IH. unfold spawn.
  destruct (decide (i = j)) as [-> | Hne].
  - rewrite (bool_decide_eq_true_2 (j ∈ j :: q)) by apply list_elem_of_here.
    destruct (m !! j) as [r |] eqn:E; [rewrite lookup_insert_eq; cbn; by case_bool_decide | rewrite E; by case_bool_decide].
  - assert (bool_decide (i ∈ q) = bool_decide (i ∈ j :: q)) as -> by (apply bool_decide_ext; set_solver).
    destruct (m !! j) as [r |]; [by rewrite lookup_insert_ne | done].
Qed.

Lemma spawn_sum q m : (∀ i r, m !! i = Some r → i ∈ q → holds_sem r = 0) → msum holds_sem (foldl spawn m q) = msum holds_sem m.
Proof.
  revert m. induction q as [| j q IH]; intros m Hm; cbn [foldl]; [done |]. unfold spawn.
  destruct (m !! j) as [r |] eqn:E; rewrite IH.
  - rewrite (msum_insert _ _ _ _ _ E), (Hm j r E); [cbn; lia | apply list_elem_of_here].
  - intros i s. rewrite lookup_insert_Some. intros [[<- <-] | [_ Hi]] Hq; [done |]. apply (Hm i s Hi). by apply list_elem_of_further.
  - done.
  - intros i s Hi Hq. apply (Hm i s Hi). by apply list_elem_of_further.
Qed.

Lemma flush_inv d : disp_inv d → disp_inv (flush d).
Proof.
  intros [H1 H2 H3 H4 H5 H6 H7 H8 H9].
  assert (∀ i r', foldl spawn (reqs d) (pending d) !! i = Some r' → ∃ r, reqs d !! i = Some r ∧ rq_caller r' = rq_caller r
     ∧ rq_done r' = rq_done r ∧ (∀ n, owns r' n ↔ owns r n)
     ∧ rq_worker r' = if bool_decide (i ∈ pending d) then WSpawned else rq_worker r) as Hl.
  { intros i r'. rewrite spawn_lookup. destruct (decide (i ∈ pending d)) as [Hq | Hq];
      [rewrite !bool_decide_eq_true_2 by done | rewrite !bool_decide_eq_false_2 by done; intros E; exists r'; split_and!; try done; intros ?; reflexivity].
    destruct (reqs d !! i) as [r |] eqn:E; [| done]. intros [= <-]. exists r. split_and!; try done.
    destruct (H1 i r E) as [Hw _]. intros n. unfold owns, in_hand. cbn. by rewrite (proj2 Hw Hq). }
  split; cbn [reqs pending timer sem maxParallel made closed flush]; try done.
  - intros i r' Hr'. destruct (Hl i r' Hr') as (r & E & Hc & Hdn & _ & Hw). destruct (H1 i r E) as [Hq Hcall]. unfold req_ok. rewrite Hw, Hc, Hdn.
    case_bool_decide as Hi.
    + rewrite (proj2 Hq Hi) in Hcall. split; [split; [done | by intros ?%elem_of_nil] |].
      by destruct (rq_caller r).
    + split; [| done]. split; [by intros ?%Hq | by intros ?%elem_of_nil].
  - by intros i ?%elem_of_nil.
  - rewrite spawn_sum; [done |]. intros i r E Hq. destruct (H1 i r E) as [Hw _]. unfold holds_sem. by rewrite (proj2 Hw Hq).
  - intros n Hn. destruct (H6 n Hn) as [? | (j & s & Hj & Hx)]; [by left | right].
    assert (is_Some (foldl spawn (reqs d) (pending d) !! j)) as [s' Hs'] by (rewrite spawn_lookup, Hj; destruct (bool_decide (j ∈ pending d)); eexists; reflexivity).
    exists j, s'. split; [done |]. destruct (Hl j s' Hs') as (s0 & E & _ & _ & Ho & _). simplify_eq. by apply Ho.
  - intros i r' n Hr' Hx. destruct (Hl i r' Hr') as (r & E & _ & _ & Ho & _). eapply H7; [done | by apply Ho].
  - intros i j r' s' n Hr' Hs' Hx Hy. destruct (Hl i r' Hr') as (r & E & _ & _ & Ho & _). destruct (Hl j s' Hs') as (s & E' & _ & _ & Ho' & _).
    eapply H8; [done | done | by apply Ho | by apply Ho'].
Qed.

Lemma busy_got q i r : req_ok q i r → rq_worker r ≠ WDone → got r = None.
Proof. intros [_ Hc] Hw. unfold got. destruct (rq_caller r); [done | by destruct Hw | done]. Qed.

Lemma pool_inv d i r c :
  disp_inv d → reqs d !! i = Some r → rq_worker r = WAsking → (∀ n, c = Some n → n ∉ made d) →
  disp_inv (set_req (give d c) i (worker_to r (WResult c))).
Proof.
  intros Hd Hi Ew Hc. destruct (di_cap _ Hd) as [Hc0 Hcap]. pose proof (di_req _ Hd i r Hi) as [Hq Hcl].
  assert (got r = None) as Hg by (eapply busy_got; [by eapply di_req | by rewrite Ew]).
  assert (∀ k, owns (worker_to r (WResult c)) k ↔ c = Some k) as Ho.
  { intros k. unfold owns, in_hand. change (got (worker_to r (WResult c))) with (got r). rewrite Hg. cbn. naive_solver. }
  assert (∀ k, ¬ owns r k) as Hr by (intros k; unfold owns, in_hand; rewrite Ew, Hg; naive_solver).
  eapply (update_inv d _ i r); try done; cbn [set_req give sem made closed].
  - split; cbn; [rewrite <- Hq, Ew; done | by rewrite Ew in Hcl; destruct (rq_caller r)].
  - unfold holds_sem. rewrite Ew. cbn. lia.
  - intros k ?%Ho. right. by apply Hc.
  - intros k. rewrite Ho. destruct c; cbn; set_solver.
  - intros k. specialize (Hr k). naive_solver.
Qed.

Lemma discard_inv d i r c :
  disp_inv d → reqs d !! i = Some r → rq_worker r = WResult c → rq_done r = true →
  disp_inv (set_req (close (set_sem d (sem d - 1)) c) i (worker_to r WDone)).
Proof.
  intros Hd Hi Ew Edn. destruct (di_cap _ Hd) as [Hc0 Hcap]. pose proof (di_req _ Hd i r Hi) as [Hq Hcl].
  assert (got r = None) as Hg by (eapply busy_got; [by eapply di_req | by rewrite Ew]).
  assert (∀ k, ¬ owns (worker_to r WDone) k) as Ho.
  { intros k. unfold owns. change (got (worker_to r WDone)) with (got r). rewrite Hg. cbn. naive_solver. }
  assert (∀ k, owns r k ↔ c = Some k) as Hr by (intros k; unfold owns, in_hand; rewrite Ew, Hg; naive_solver).
  eapply (update_inv d _ i r); try done; cbn [set_req close set_sem sem made closed].
  - split; cbn; [rewrite <- Hq, Ew; done | by destruct (rq_caller r)].
  - unfold holds_sem. rewrite Ew. cbn. lia.
  - lia.
  - intros k Hk. by apply Ho in Hk.
  - intros k. specialize (Ho k). naive_solver.
  - intros k. rewrite Hr. specialize (Ho k). destruct c as [n |]; cbn; [set_solver | naive_solver].
Qed.

Lemma disp_step_inv d o d' : disp_inv d → step d o = Some d' → disp_inv d'.
Proof.
  intros Hd. destruct (di_cap _ Hd) as [Hc0 Hc]. destruct o as [i | i | i | | i | i | i c | i | i]; cbn [step].
  - destruct (reqs d !! i) eqn:Hi; [done |]. intros [= <-]. by apply enqueue_inv.
  - destruct (reqs d !! i) as [r |] eqn:Hi; [| done]. intros [= <-]. destruct (di_req _ Hd i r Hi) as [Hq Hcl].
    eapply (update_same d _ i r); try done; [split; [done | by destruct (rq_caller r)] | unfold holds_sem; cbn; lia].
  - destruct (reqs d !! i) as [r |] eqn:Hi; [| done]. cbn [mbind option_bind]. destruct (di_req _ Hd i r Hi) as [Hq Hcl].
    destruct (rq_caller r) eqn:Ec; try done. destruct (rq_done r); [| done]. intros [= <-].
    eapply (update_same d _ i r); try done; [unfold holds_sem; cbn; lia |].
    intros n. unfold owns, got. cbn. by rewrite Ec.
  - destruct (timer d); [| done]. intros [= <-]. by apply flush_inv.
  - destruct (reqs d !! i) as [r |] eqn:Hi; [| done]. cbn [mbind option_bind]. destruct (di_req _ Hd i r Hi) as [Hq Hcl].
    destruct (rq_worker r) eqn:Ew; try done. destruct (Z.ltb_spec (sem d) (maxParallel d)); [| done]. intros [= <-].
    eapply (update_same d _ i r); try done; cbn [set_req set_sem sem].
    + split; cbn; [by rewrite <- Hq | by destruct (rq_caller r)].
    + unfold holds_sem. rewrite Ew. cbn. lia.
    + lia.
    + intros n. unfold owns, in_hand. cbn. by rewrite Ew.
  - destruct (reqs d !! i) as [r |] eqn:Hi; [| done]. cbn [mbind option_bind]. destruct (di_req _ Hd i r Hi) as [Hq Hcl].
    destruct (rq_worker r) eqn:Ew; try done. destruct (rq_done r) eqn:Edn; [| done]. intros [= <-].
    eapply (update_same d _ i r); try done; cbn [set_req sem].
    + split; cbn; [by rewrite <- Hq | rewrite Edn; by destruct (rq_caller r)].
    + unfold holds_sem. rewrite Ew. cbn. lia.
    + intros n. unfold owns, in_hand. cbn. by rewrite Ew.
  - destruct (reqs d !! i) as [r |] eqn:Hi; [| done]. cbn [mbind option_bind]. destruct (di_req _ Hd i r Hi) as [Hq Hcl].
    destruct (rq_worker r) eqn:Ew; try done.
    destruct c as [n |]; [case_bool_decide as Hn; [done |] |]; intros [= <-].
    + apply pool_inv; [done .. |]. by intros ? [= <-].
    + by apply (pool_inv d i r None).
  - destruct (reqs d !! i) as [r |] eqn:Hi; [| done]. cbn [mbind option_bind]. destruct (di_req _ Hd i r Hi) as [Hq Hcl].
    destruct (rq_worker r) as [| | | c |] eqn:Ew; try done. destruct (rq_caller r) eqn:Ec; try done. intros [= <-].
    eapply (update_same d _ i r); try done; cbn [set_req set_sem sem].
    + split; cbn; [by rewrite <- Hq | done].
    + unfold holds_sem. rewrite Ew. cbn. lia.
    + lia.
    + intros n. unfold owns, in_hand, got. cbn. rewrite Ew, Ec. naive_solver.
  - destruct (reqs d !! i) as [r |] eqn:Hi; [| done]. cbn [mbind option_bind]. destruct (di_req _ Hd i r Hi) as [Hq Hcl].
    destruct (rq_worker r) as [| | | c |] eqn:Ew; try done. destruct (rq_done r) eqn:Edn; [| done]. intros [= <-].
    by apply discard_inv.
Qed.

Lemma disp_run_inv d ops d' : disp_inv d → run d ops = Some d' → disp_inv d'.
Proof.
  revert d. induction ops as [| o ops IH]; intros d Hd; cbn [run]; [by intros [= <-] |].
  destruct (step d o) as [d1 |] eqn:E; [| done]. cbn [mbind option_bind]. apply IH. by eapply disp_step_inv.
Qed.

(** ** Progress *)

Definition rank (r : request) : Z :=
  match rq_worker r with WQueued => 4 | WSpawned => 3 | WAsking => 2 | WResult _ => 1 | WDone => 0 end.
Definition work (d : CoalescingDispatcher) : Z := msum rank (reqs d).

(** Steps of the dispatcher and of the pool, as against those of the callers. *)
Definition internal (o : op) : Prop := match o with OAcquire _ | OCancel _ | OLeave _ => False | _ => True end.

Lemma spawn_rank q m :
  (∀ i r, m !! i = Some r → i ∈ q → 3 ≤ rank r) → msum rank (foldl spawn m q) ≤ msum rank m.
Proof.
  revert m. induction q as [| j q IH]; intros m Hm; cbn [foldl]; [lia |].
  assert (msum rank (spawn m j) ≤ msum rank m) as Hj.
  { unfold spawn. destruct (m !! j) as [r |] eqn:E; [| lia]. rewrite (msum_insert _ _ _ _ _ E). pose proof (Hm j r E (list_elem_of_here _ _)). cbn. lia. }
  etrans; [apply IH | exact Hj]. intros i r. unfold spawn. destruct (m !! j) as [s |].
  - rewrite lookup_insert_Some. intros [[_ <-] | [_ Hi]] Hq; [cbn; lia | apply (Hm i r Hi); by apply list_elem_of_further].
  - intros Hi Hq. apply (Hm i r Hi). by apply list_elem_of_further.
Qed.

Lemma flush_work d : disp_inv d → pending d ≠ [] → work (flush d) < work d.
Proof.
  intros Hd Hp. unfold work. cbn [reqs flush]. assert (∀ i r, reqs d !! i = Some r → i ∈ pending d → rank r = 4) as Hr.
  { intros i r Hi Hq. destruct (di_req _ Hd i r Hi) as [Hw _]. unfold rank. by rewrite (proj2 Hw Hq). }
  pose proof (di_queue _ Hd) as Hs. destruct (pending d) as [| j q]; [done |]. cbn [foldl].
  destruct (Hs j (list_elem_of_here _ _)) as [r Hj]. eapply Z.le_lt_trans; [apply spawn_rank |].
  - intros i s. unfold spawn. rewrite Hj, lookup_insert_Some. intros [[_ <-] | [_ Hi]] Hq; [cbn; lia |].
    rewrite (Hr i s Hi); [lia | by apply list_elem_of_further].
  - unfold spawn. rewrite Hj, (msum_insert _ _ _ _ _ Hj), (Hr j r Hj (list_elem_of_here _ _)). cbn. lia.
Qed.

Lemma rank_step d i r r' : reqs d !! i = Some r → rank r' < rank r → msum rank (<[i := r']> (reqs d)) < work d.
Proof. intros Hi Hr. unfold work. rewrite (msum_insert _ _ _ _ _ Hi). lia. Qed.

Lemma internal_work d o d' : disp_inv d → internal o → step d o = Some d' → work d' < work d.
Proof.
  intros Hd Hint. destruct o as [i | i | i | | i | i | i c | i | i]; try done; cbn [step].
  - destruct (timer d) eqn:Et; [| done]. intros [= <-]. apply flush_work; [done |].
    rewrite (di_timer _ Hd) in Et. by apply bool_decide_eq_true in Et.
  - destruct (reqs d !! i) as [r |] eqn:Hi; [| done]. cbn [mbind option_bind].
    destruct (rq_worker r) eqn:Ew; try done. destruct (_ <? _); [| done]. intros [= <-].
    apply (rank_step d i r); [done |]. unfold rank. rewrite Ew. cbn. lia.
  - destruct (reqs d !! i) as [r |] eqn:Hi; [| done]. cbn [mbind option_bind].
    destruct (rq_worker r) eqn:Ew; try done. destruct (rq_done r); [| done]. intros [= <-].
    apply (rank_step d i r); [done |]. unfold rank. rewrite Ew. cbn. lia.
  - destruct (reqs d !! i) as [r |] eqn:Hi; [| done]. cbn [mbind option_bind].
    destruct (rq_worker r) eqn:Ew; try done. destruct c as [n |]; [case_bool_decide; [done |] |]; intros [= <-];
      (apply (rank_step d i r); [done |]; unfold rank; rewrite Ew; cbn; lia).
  - destruct (reqs d !! i) as [r |] eqn:Hi; [| done]. cbn [mbind option_bind].
    destruct (rq_worker r) as [| | | c |] eqn:Ew; try done. destruct (rq_caller r); try done. intros [= <-].
    apply (rank_step d i r); [done |]. unfold rank. rewrite Ew. cbn. lia.
  - destruct (reqs d !! i) as [r |] eqn:Hi; [| done]. cbn [mbind option_bind].
    destruct (rq_worker r) as [| | | c |] eqn:Ew; try done. destruct (rq_done r); [| done]. intros [= <-].
    apply (rank_step d i r); [done |]. unfold rank. rewrite Ew. cbn. lia.
Qed.

Lemma holder_steps d i r :
  disp_inv d → reqs d !! i = Some r → holds_sem r ≠ 0 → ∃ o, internal o ∧ is_Some (step d o).
Proof.
  intros Hd Hi Hh. pose proof (di_req _ Hd i r Hi) as [Hq Hc]. unfold holds_sem in Hh. destruct (rq_worker r) as [| | | c |] eqn:Ew; try done.
  - exists (OPool i None). split; [done |]. cbn [step]. rewrite Hi. cbn. rewrite Ew. by eexists.
  - destruct (rq_caller r) eqn:Ec; [| done |].
    + exists (ODeliver i). split; [done |]. cbn [step]. rewrite Hi. cbn. rewrite Ew, Ec. by eexists.
    + exists (ODiscard i). split; [done |]. cbn [step]. rewrite Hi. cbn. rewrite Ew, Hc. by eexists.
Qed.

Lemma msum_pos_holder (m : gmap nat request) : 0 < msum holds_sem m → ∃ i r, m !! i = Some r ∧ holds_sem r ≠ 0.
Proof.
  induction m as [| i r m Hi IH] using map_ind; [by rewrite msum_empty |]. rewrite msum_insert_new by done. intros Hp.
  destruct (decide (holds_sem r = 0)) as [E |]; [| exists i, r; by rewrite lookup_insert_eq].
  destruct IH as (j & s & Hj & Hs); [lia |]. exists j, s. rewrite lookup_insert_ne; [done | congruence].
Qed.

Lemma unfinished_steps d i r :
  disp_inv d → reqs d !! i = Some r → rq_worker r ≠ WDone → ∃ o, internal o ∧ is_Some (step d o).
Proof.
  intros Hd Hi Hw. pose proof (di_req _ Hd i r Hi) as [Hq _]. destruct (rq_worker r) as [| | | c |] eqn:Ew; try done.
  - exists OFlush. split; [done |]. cbn [step]. rewrite (di_timer _ Hd). rewrite bool_decide_eq_true_2; [by eexists |].
    pose proof (proj1 Hq eq_refl) as Hin. by intros E; rewrite E in Hin; apply elem_of_nil in Hin.
  - destruct (Z.ltb_spec (sem d) (maxParallel d)) as [Hlt | Hge].
    + exists (OSem i). split; [done |]. cbn [step]. rewrite Hi. cbn. rewrite Ew, (proj2 (Z.ltb_lt _ _)) by done. by eexists.
    + destruct (msum_pos_holder (reqs d)) as (j & s & Hj & Hs); [rewrite <- (di_sem _ Hd); destruct (di_cap _ Hd); lia |].
      by eapply holder_steps.
  - eapply (holder_steps d i r); [done | done |]. unfold holds_sem. by rewrite Ew.
  - eapply (holder_steps d i r); [done | done |]. unfold holds_sem. by rewrite Ew.
Qed.

(** ** Properties *)

Definition busy (d : CoalescingDispatcher) : gmap nat request := filter (λ kv, holds_sem kv.2 = 1) (reqs d).

(** Whatever the callers and the pool do, at most [maxParallel] acquisitions
    are in flight, and no connection is lost or shared: each one the pool gave out
    has been closed, or is in the hands of exactly one dispatching goroutine, or
    was received by exactly one caller, and a received one is not closed. *)
Theorem coalesce_no_leak n ops d :
  run (NewCoalescingDispatcher n) ops = Some d →
  sem d = Z.of_nat (size (busy d)) ∧ sem d ≤ maxParallel d
  ∧ (∀ c, c ∈ made d → c ∈ closed d ∨ ∃ i r, reqs d !! i = Some r ∧ owns r c)
  ∧ (∀ i j r s c, reqs d !! i = Some r → reqs d !! j = Some s → owns r c → owns s c → i = j)
  ∧ (∀ i r c, reqs d !! i = Some r → owns r c → c ∈ made d ∧ c ∉ closed d).
Proof.
  intros E. destruct (disp_run_inv _ _ _ (new_inv n) E) as [H1 H2 H3 H4 [_ H5] H6 H7 H8 H9]. split_and!; try done.
  rewrite H4. etrans; [| exact (msum_size (λ r : request, holds_sem r = 1) (reqs d))]. apply msum_ext. intros i r _.
  unfold holds_sem. by destruct (rq_worker r).
Qed.


(** ** Witnesses *)

Module CoalesceDemo.
Definition ops : list op := [OAcquire 0; OAcquire 1; OAcquire 2; OFlush; OSem 0; OSem 1; OCancel 1; OPool 0 (Some 7%nat); OPool 1 (Some 8%nat); OLeave 1; ODeliver 0; ODiscard 1].
Definition after : CoalescingDispatcher := default (NewCoalescingDispatcher 2) (run (NewCoalescingDispatcher 2) ops).

Lemma coalesce_no_leak_witness :
  sem after = Z.of_nat (size (busy after)) ∧ sem after ≤ maxParallel after
  ∧ (∀ c, c ∈ made after → c ∈ closed after ∨ ∃ i r, reqs after !! i = Some r ∧ owns r c)
  ∧ (∀ i j r s c, reqs after !! i = Some r → reqs after !! j = Some s → owns r c → owns s c → i = j)
  ∧ (∀ i r c, reqs after !! i = Some r → owns r c → c ∈ made after ∧ c ∉ closed after).
Proof. apply (coalesce_no_leak 2 ops after). vm_compute. reflexivity. Defined.

End CoalesceDemo.
