(* ===== verification/ReadyPool.v ===== *)
(** * The pool of ready WebSockets ([client/ws_ready_pool.go])

    Workers make connections and queue them; callers take them one by one; phases
    let the workers of a cold start go in groups.  Every channel operation is a
    step and all goroutines interleave; making a connection may succeed or fail,
    timers fire at arbitrary moments, and a keep-alive may break an idle
    connection at any time.  The last section joins the pool with the coalescing
    dispatcher ([Coalesce]) that draws from it. *)

From S2P Require Import Prelude.
From S2P Require Import Coalesce.
From stdpp Require Import base list gmap sets.

#[local] Open Scope Z_scope.

(** ** Warm-up phases *)

Record WarmupPhase := mkPhase { Slots : list nat; Delay : Z; RequireDone : bool }.

Definition rangeSlots (start count : nat) : list nat := seq start count.

Definition ms : Z := 10 ^ 6.

(** [explicit] is [c.Warmup], [phased] the environment switch. *)
Definition effectiveWarmup (explicit : list WarmupPhase) (phased : bool) (StaggerDelay : Z) (Size : nat) : list WarmupPhase :=
  match explicit with
  | _ :: _ => explicit
  | [] =>
    if negb phased then
      let stagger := if StaggerDelay <=? 0 then 300 * ms else StaggerDelay in
      (λ i, mkPhase [i] (if (i =? 0)%nat then 0 else stagger) false) <$> seq 0 Size
    else if (Size <=? 1)%nat then [mkPhase [0%nat] 0 true]
    else if (Size <=? 3)%nat then [mkPhase [0%nat] 0 true; mkPhase (rangeSlots 1 (Size - 1)) (800 * ms) false]
    else [mkPhase [0%nat] 0 true; mkPhase [1%nat; 2%nat] (800 * ms) true]
         ++ (if (0 <? Size - 3)%nat then [mkPhase (rangeSlots 3 (Size - 3)) (1600 * ms) false] else [])
  end.

Record phaseCoordinator := mkCoord { phases : list WarmupPhase; done : list bool; tally : list Z }.

Definition newPhaseCoordinator (ps : list WarmupPhase) : phaseCoordinator :=
  mkCoord ps (replicate (length ps) false) (replicate (length ps) 0).

(** [None] is -1. *)
Fixpoint phase_from (ps : list WarmupPhase) (slotIdx : nat) : option nat :=
  match ps with
  | [] => None
  | p :: ps' => if bool_decide (slotIdx ∈ Slots p) then Some 0%nat else S <$> phase_from ps' slotIdx
  end.
Definition PhaseFor (pc : phaseCoordinator) (slotIdx : nat) : option nat := phase_from (phases pc) slotIdx.

(** Whether [WaitPrior] returns. *)
Definition WaitPrior (pc : phaseCoordinator) (phaseIdx : option nat) : bool :=
  match phaseIdx with Some (S k) => default false (done pc !! k) | _ => true end.

Definition MarkSlotReady (pc : phaseCoordinator) (slotIdx : nat) : phaseCoordinator :=
  match PhaseFor pc slotIdx with
  | None => pc
  | Some ph =>
    match phases pc !! ph, tally pc !! ph with
    | Some phase, Some t =>
      let curr := t + 1 in
      let fin := negb (RequireDone phase) || (len (Slots phase) <=? curr) in
      mkCoord (phases pc) (if fin then <[ph := true]> (done pc) else done pc) (<[ph := curr]> (tally pc))
    | _, _ => pc
    end
  end.

(** ** The pool *)

Inductive place := Held (worker : nat) | Queued | Handed | Closed.
#[global] Instance place_eq_dec : EqDecision place.
Proof. solve_decision. Defined.

(** A [pooledWS]: whether a keep-alive failed, whether its loop was stopped, and
    who has the connection. *)
Record pooledWS := mkPW { broken : bool; stopped : bool; at_place : place }.

Inductive wpc := WGate | WTop | WCreating | WHolding (id : nat) | WGone.
Record worker := mkWorker { w_pc : wpc; w_marked : bool }.

Record WSReadyPool := mkPool {
  Size : nat; ready : list nat; pws : gmap nat pooledWS; workers : gmap nat worker; pc : phaseCoordinator;
  ctxDone : bool; draining : bool;       (* [Close] is in its loop *)
  created : Z; acquired : Z; agedOut : Z;
  handed : list nat;                     (* what callers received, newest first *)
}.

(** [NewWSReadyPool] and [Start]. *)
Definition startPool (size : nat) (explicit : list WarmupPhase) (phased : bool) (stagger : Z) : WSReadyPool :=
  let size := if (size <? 1)%nat then 6%nat else size in
  let stagger := if stagger <=? 0 then 300 * ms else stagger in
  mkPool size [] ∅ (list_to_map ((λ i, (i, mkWorker WGate false)) <$> seq 0 size))
    (newPhaseCoordinator (effectiveWarmup explicit phased stagger size)) false false 0 0 0 [].

Definition set_worker (p : WSReadyPool) (i : nat) (w : worker) : WSReadyPool :=
  mkPool (Size p) (ready p) (pws p) (<[i := w]> (workers p)) (pc p) (ctxDone p) (draining p) (created p) (acquired p) (agedOut p) (handed p).
Definition set_pw (p : WSReadyPool) (id : nat) (x : pooledWS) : WSReadyPool :=
  mkPool (Size p) (ready p) (<[id := x]> (pws p)) (workers p) (pc p) (ctxDone p) (draining p) (created p) (acquired p) (agedOut p) (handed p).
Definition set_ready (p : WSReadyPool) (l : list nat) : WSReadyPool :=
  mkPool (Size p) l (pws p) (workers p) (pc p) (ctxDone p) (draining p) (created p) (acquired p) (agedOut p) (handed p).
Definition set_pc (p : WSReadyPool) (c : phaseCoordinator) : WSReadyPool :=
  mkPool (Size p) (ready p) (pws p) (workers p) c (ctxDone p) (draining p) (created p) (acquired p) (agedOut p) (handed p).
Definition cancel (p : WSReadyPool) (loop : bool) : WSReadyPool :=
  mkPool (Size p) (ready p) (pws p) (workers p) (pc p) true loop (created p) (acquired p) (agedOut p) (handed p).
Definition count (p : WSReadyPool) (c a o : Z) (h : list nat) : WSReadyPool :=
  mkPool (Size p) (ready p) (pws p) (workers p) (pc p) (ctxDone p) (draining p) (created p + c) (acquired p + a) (agedOut p + o) (h ++ handed p).

Definition goto (w : worker) (pc : wpc) : worker := mkWorker pc (w_marked w).

(** [pw.stop()] and [wst.Close()] *)
Definition discard (p : WSReadyPool) (id : nat) : WSReadyPool :=
  match pws p !! id with Some x => set_pw p id (mkPW (broken x) true Closed) | None => p end.

(** One turn of the loop of [Acquire]: the head of the queue is handed out, or
    closed when its keep-alive failed. *)
Definition take_ready (p : WSReadyPool) : option (WSReadyPool * option nat) :=
  match ready p with
  | [] => None
  | id :: rest =>
    x ← pws p !! id;
    if broken x then Some (discard (set_ready p rest) id, None)
    else Some (count (set_pw (set_ready p rest) id (mkPW false true Handed)) 0 1 0 [id], Some id)
  end.

(** The worker has put its connection on the queue. *)
Definition enqueued (p : WSReadyPool) (i : nat) (w : worker) (id : nat) (x : pooledWS) : WSReadyPool :=
  let p := set_pw (set_ready p (ready p ++ [id])) id (mkPW (broken x) (stopped x) Queued) in
  let p := if w_marked w then p else set_pc p (MarkSlotReady (pc p) i) in
  set_worker p i (mkWorker WTop true).

Inductive op :=
| RGate (i : nat)                        (* the phase and its delay are over *)
| RTop (i : nat)                         (* the loop begins again *)
| RCreated (i id : nat) | RFailed (i : nat)
| REnqueue (i : nat) | RAged (i : nat)
| RCancelled (i : nat)                   (* a select takes the [ctx.Done] case *)
| RKeepaliveFailed (id : nat)
| RAcquire
| RClose | RDrain.                       (* [Close]: cancel, then one turn of its loop *)

Definition step (p : WSReadyPool) (o : op) : option WSReadyPool :=
  match o with
  | RGate i =>
    w ← workers p !! i;
    match w_pc w with
    | WGate => if WaitPrior (pc p) (PhaseFor (pc p) i) then Some (set_worker p i (goto w WTop)) else None
    | _ => None
    end
  | RTop i =>
    w ← workers p !! i;
    match w_pc w with WTop => Some (set_worker p i (goto w (if ctxDone p then WGone else WCreating))) | _ => None end
  | RCreated i id =>
    w ← workers p !! i;
    match w_pc w, pws p !! id with
    | WCreating, None => Some (count (set_worker (set_pw p id (mkPW false false (Held i))) i (goto w (WHolding id))) 1 0 0 [])
    | _, _ => None
    end
  | RFailed i =>
    w ← workers p !! i;
    match w_pc w with WCreating => Some (set_worker p i (goto w WTop)) | _ => None end
  | REnqueue i =>
    w ← workers p !! i;
    match w_pc w with
    | WHolding id => x ← pws p !! id; if (length (ready p) <? Size p)%nat then Some (enqueued p i w id x) else None
    | _ => None
    end
  | RAged i =>
    w ← workers p !! i;
    match w_pc w with WHolding id => Some (count (set_worker (discard p id) i (goto w WTop)) 0 0 1 []) | _ => None end
  | RCancelled i =>
    w ← workers p !! i;
    if ctxDone p then
      match w_pc w with
      | WHolding id => Some (set_worker (discard p id) i (goto w WGone))
      | WGate | WCreating => Some (set_worker p i (goto w WGone))
      | _ => None
      end
    else None
  | RKeepaliveFailed id =>
    x ← pws p !! id; Some (set_pw p id (mkPW true (stopped x) (at_place x)))
  | RAcquire => fst <$> take_ready p
  | RClose => Some (cancel p true)
  | RDrain =>
    if draining p then
      match ready p with [] => Some (cancel p false) | id :: rest => Some (discard (set_ready p rest) id) end
    else None
  end.

Fixpoint run (p : WSReadyPool) (ops : list op) : option WSReadyPool :=
  match ops with [] => Some p | o :: ops' => p' ← step p o; run p' ops' end.

(** ** Who has a connection *)

Record pool_inv (p : WSReadyPool) : Prop := {
  pi_cap : (length (ready p) ≤ Size p)%nat;
  pi_nodup : NoDup (ready p);
  pi_queue id : id ∈ ready p ↔ at_place <$> pws p !! id = Some Queued;
  pi_held i id : w_pc <$> workers p !! i = Some (WHolding id) ↔ at_place <$> pws p !! id = Some (Held i);
  pi_handed id : id ∈ handed p ↔ at_place <$> pws p !! id = Some Handed;
  pi_once : NoDup (handed p);
  pi_stopped id x : pws p !! id = Some x → at_place x = Handed ∨ at_place x = Closed → stopped x = true;
  pi_workers : size (workers p) = Size p;
}.

Lemma lookup_place_insert (m : gmap nat pooledWS) id x j :
  at_place <$> <[id := x]> m !! j = if decide (id = j) then Some (at_place x) else at_place <$> m !! j.
Proof. rewrite lookup_insert. by destruct (decide (id = j)). Qed.
Lemma lookup_pc_insert (m : gmap nat worker) i w j :
  w_pc <$> <[i := w]> m !! j = if decide (i = j) then Some (w_pc w) else w_pc <$> m !! j.
Proof. rewrite lookup_insert. by destruct (decide (i = j)). Qed.

Lemma pool_start_inv size ex ph st : pool_inv (startPool size ex ph st).
Proof.
  set (n := if (size <? 1)%nat then 6%nat else size). split; cbn [startPool ready Size pws workers handed]; fold n.
  - cbn. lia.
  - constructor.
  - intros id. rewrite lookup_empty. split; [by intros ?%elem_of_nil | done].
  - intros i id. rewrite lookup_empty. split; [| done]. destruct (list_to_map _ !! i) as [w |] eqn:E; [| done].
    apply elem_of_list_to_map_2, list_elem_of_fmap in E as (j & [= -> ->] & _). done.
  - intros id. rewrite lookup_empty. split; [by intros ?%elem_of_nil | done].
  - constructor.
  - intros id x. by rewrite lookup_empty.
  - rewrite <- length_map_to_list, map_to_list_to_map, length_fmap, length_seq; [done |].
    rewrite <- list_fmap_compose. unfold compose. cbn. rewrite list_fmap_id. apply NoDup_seq.
Qed.

(** A worker moves without a connection changing hands. *)
Lemma worker_moves p i w pc' :
  pool_inv p → workers p !! i = Some w → (∀ id, w_pc w ≠ WHolding id) → (∀ id, pc' ≠ WHolding id) →
  ∀ m, pool_inv (set_worker p i (mkWorker pc' m)).
Proof.
  intros [H1 H2 H3 H4 H5 H6 H7 H8] Hi Hw Hpc m. split; cbn [set_worker ready Size pws workers handed]; try done.
  - intros j id. rewrite lookup_pc_insert. destruct (decide (i = j)) as [<- |]; [| apply H4]. cbn. rewrite <- H4, Hi. cbn.
    split; intros [= E]; [by apply Hpc in E | by apply Hw in E].
  - rewrite map_size_insert_Some; [done | by eexists].
Qed.

(** The books and the coordinator do not matter. *)
Lemma pool_inv_ext p q :
  Size q = Size p → ready q = ready p → pws q = pws p → workers q = workers p → handed q = handed p → pool_inv p → pool_inv q.
Proof. intros E1 E2 E3 E4 E5 [H1 H2 H3 H4 H5 H6 H7 H8]. split; rewrite ?E1, ?E2, ?E3, ?E4, ?E5; done. Qed.

(** Taking the head of the queue, to close it or to hand it out. *)
Lemma dequeue_inv p id rest x b pl h :
  pool_inv p → ready p = id :: rest → pws p !! id = Some x → (pl = Closed ∧ h = [] ∨ pl = Handed ∧ h = [id]) →
  ∀ c a o, pool_inv (count (set_pw (set_ready p rest) id (mkPW b true pl)) c a o h).
Proof.
  intros [H1 H2 H3 H4 H5 H6 H7 H8] Er Hx Hpl c a o. rewrite Er in *. apply NoDup_cons in H2 as [Hn H2].
  assert (at_place x = Queued) as Hq by (assert (at_place <$> pws p !! id = Some Queued) as E by (apply H3, list_elem_of_here); rewrite Hx in E; by injection E).
  assert (id ∉ handed p) as Hh by (rewrite H5, Hx; cbn; congruence).
  split; cbn [count set_pw set_ready ready Size pws workers handed]; try done.
  - cbn in H1. lia.
  - intros j. rewrite lookup_place_insert. destruct (decide (id = j)) as [<- |]; cbn.
    + split; [done |]. destruct Hpl as [[-> _] | [-> _]]; done.
    + rewrite <- H3. rewrite elem_of_cons. naive_solver.
  - intros i j. rewrite lookup_place_insert. destruct (decide (id = j)) as [<- |]; cbn; [| apply H4].
    rewrite H4, Hx. cbn. rewrite Hq. destruct Hpl as [[-> _] | [-> _]]; done.
  - intros j. rewrite lookup_place_insert. destruct Hpl as [[-> ->] | [-> ->]]; destruct (decide (id = j)) as [<- |]; cbn [app].
    + by split; [intros ?%Hh | intros [=]].
    + apply H5.
    + split; [done |]. intros _. apply list_elem_of_here.
    + rewrite <- H5, elem_of_cons. naive_solver.
  - destruct Hpl as [[_ ->] | [_ ->]]; [done |]. by apply NoDup_cons.
  - intros j y. rewrite lookup_insert_Some. intros [[<- <-] | [_ Hy]]; [done | by eapply H7].
Qed.

(** A worker gives up the connection it holds. *)
Lemma let_go_inv p i w id pc' :
  pool_inv p → workers p !! i = Some w → w_pc w = WHolding id → (∀ k, pc' ≠ WHolding k) →
  ∀ c a o, pool_inv (count (set_worker (discard p id) i (goto w pc')) c a o []).
Proof.
  intros [H1 H2 H3 H4 H5 H6 H7 H8] Hi Hw Hpc c a o.
  assert (at_place <$> pws p !! id = Some (Held i)) as Hx by (apply H4; rewrite Hi; cbn; by rewrite Hw).
  unfold discard. destruct (pws p !! id) as [x |] eqn:Ex; [| done]. injection Hx as Hx.
  split; cbn [count set_worker set_pw goto ready Size pws workers handed app]; try done.
  - intros j. rewrite lookup_place_insert. destruct (decide (id = j)) as [<- |]; [| apply H3]. cbn. rewrite H3, Ex. cbn. rewrite Hx. done.
  - intros j k. rewrite lookup_place_insert, lookup_pc_insert.
    destruct (decide (i = j)) as [<- |]; destruct (decide (id = k)) as [<- |]; cbn.
    + split; [intros [= E]; by apply Hpc in E | done].
    + rewrite <- H4, Hi. cbn. rewrite Hw. split; intros [= E]; [by apply Hpc in E | congruence].
    + rewrite H4, Ex. cbn. rewrite Hx. split; [congruence | done].
    + apply H4.
  - intros j. rewrite lookup_place_insert. destruct (decide (id = j)) as [<- |]; [| apply H5]. cbn. rewrite H5, Ex. cbn. rewrite Hx. done.
  - intros j y. rewrite lookup_insert_Some. intros [[<- <-] | [_ Hy]]; [done | by eapply H7].
  - rewrite map_size_insert_Some; [done | by eexists].
Qed.

Lemma enqueued_inv p i w id x :
  pool_inv p → workers p !! i = Some w → w_pc w = WHolding id → pws p !! id = Some x → (length (ready p) < Size p)%nat →
  pool_inv (enqueued p i w id x).
Proof.
  intros [H1 H2 H3 H4 H5 H6 H7 H8] Hi Hw Hx Hlen.
  assert (at_place x = Held i) as Hp by (assert (at_place <$> pws p !! id = Some (Held i)) as E by (apply H4; rewrite Hi; cbn; by rewrite Hw); rewrite Hx in E; by injection E).
  assert (id ∉ ready p) as Hq by (rewrite H3, Hx; cbn; congruence).
  unfold enqueued. set (p1 := if w_marked w then _ else _).
  assert (Size p1 = Size p ∧ ready p1 = ready p ++ [id] ∧ pws p1 = <[id := mkPW (broken x) (stopped x) Queued]> (pws p)
    ∧ workers p1 = workers p ∧ handed p1 = handed p) as (E1 & E2 & E3 & E4 & E5) by (unfold p1; by destruct (w_marked w)). clearbody p1.
  split; cbn [set_worker ready Size pws workers handed]; rewrite ?E1, ?E2, ?E3, ?E4, ?E5; try done.
  - rewrite length_app. cbn. lia.
  - apply NoDup_app. split_and!; [done | | apply NoDup_singleton]. intros j Hj ->%list_elem_of_singleton. done.
  - intros j. rewrite lookup_place_insert, elem_of_app, list_elem_of_singleton. destruct (decide (id = j)) as [<- |]; [naive_solver |].
    rewrite <- H3. naive_solver.
  - intros j k. rewrite lookup_place_insert, lookup_pc_insert.
    destruct (decide (i = j)) as [<- |]; destruct (decide (id = k)) as [<- |]; cbn.
    + done.
    + rewrite <- H4, Hi. cbn. rewrite Hw. naive_solver.
    + rewrite H4, Hx. cbn. rewrite Hp. naive_solver.
    + apply H4.
  - intros j. rewrite lookup_place_insert. destruct (decide (id = j)) as [<- |]; [| apply H5]. rewrite H5, Hx. cbn. rewrite Hp. naive_solver.
  - intros j y. rewrite lookup_insert_Some. intros [[<- <-] | [_ Hy]]; [cbn; naive_solver | by eapply H7].
  - rewrite map_size_insert_Some; [done | by eexists].
Qed.

Lemma created_inv p i w id :
  pool_inv p → workers p !! i = Some w → w_pc w = WCreating → pws p !! id = None →
  ∀ c a o, pool_inv (count (set_worker (set_pw p id (mkPW false false (Held i))) i (goto w (WHolding id))) c a o []).
Proof.
  intros [H1 H2 H3 H4 H5 H6 H7 H8] Hi Hw Hx c a o. split; cbn [count set_worker set_pw goto ready Size pws workers handed app]; try done.
  - intros j. rewrite lookup_place_insert. destruct (decide (id = j)) as [<- |]; [| apply H3]. rewrite H3, Hx. done.
  - intros j k. rewrite lookup_place_insert, lookup_pc_insert.
    destruct (decide (i = j)) as [<- |]; destruct (decide (id = k)) as [<- |]; cbn.
    + done.
    + rewrite <- H4, Hi. cbn. rewrite Hw. naive_solver.
    + rewrite H4, Hx. naive_solver.
    + apply H4.
  - intros j. rewrite lookup_place_insert. destruct (decide (id = j)) as [<- |]; [| apply H5]. rewrite H5, Hx. done.
  - intros j y. rewrite lookup_insert_Some. intros [[<- <-] | [_ Hy]]; [cbn; naive_solver | by eapply H7].
  - rewrite map_size_insert_Some; [done | by eexists].
Qed.

Lemma broken_inv p id x : pool_inv p → pws p !! id = Some x → pool_inv (set_pw p id (mkPW true (stopped x) (at_place x))).
Proof.
  intros [H1 H2 H3 H4 H5 H6 H7 H8] Hx.
  assert (∀ j, at_place <$> <[id := mkPW true (stopped x) (at_place x)]> (pws p) !! j = at_place <$> pws p !! j) as E.
  { intros j. rewrite lookup_place_insert. destruct (decide (id = j)) as [<- |]; [by rewrite Hx | done]. }
  split; cbn [set_pw ready Size pws workers handed]; try done; try (intros *; rewrite E; auto).
  intros j y. rewrite lookup_insert_Some. intros [[<- <-] | [_ Hy]]; [cbn; by eapply H7 | by eapply H7].
Qed.

Lemma pool_step_inv p o p' : pool_inv p → step p o = Some p' → pool_inv p'.
Proof.
  intros Hp. destruct o as [i | i | i id | i | i | i | i | id | | |]; cbn [step].
  - destruct (workers p !! i) as [w |] eqn:Hi; [| done]. cbn [mbind option_bind]. destruct (w_pc w) eqn:Ew; try done.
    destruct (WaitPrior _ _); [| done]. intros [= <-]. eapply worker_moves; [done .. | |]; congruence.
  - destruct (workers p !! i) as [w |] eqn:Hi; [| done]. cbn [mbind option_bind]. destruct (w_pc w) eqn:Ew; try done.
    intros [= <-]. eapply worker_moves; [done .. | |]; [congruence | by destruct (ctxDone p)].
  - destruct (workers p !! i) as [w |] eqn:Hi; [| done]. cbn [mbind option_bind]. destruct (w_pc w) eqn:Ew; try done.
    destruct (pws p !! id) eqn:Ex; [done |]. intros [= <-]. by apply created_inv.
  - destruct (workers p !! i) as [w |] eqn:Hi; [| done]. cbn [mbind option_bind]. destruct (w_pc w) eqn:Ew; try done.
    intros [= <-]. eapply worker_moves; [done .. | |]; congruence.
  - destruct (workers p !! i) as [w |] eqn:Hi; [| done]. cbn [mbind option_bind]. destruct (w_pc w) as [| | | id |] eqn:Ew; try done.
    destruct (pws p !! id) as [x |] eqn:Ex; [| done]. cbn [mbind option_bind].
    destruct (Nat.ltb_spec (length (ready p)) (Size p)); [| done]. intros [= <-]. by apply enqueued_inv.
  - destruct (workers p !! i) as [w |] eqn:Hi; [| done]. cbn [mbind option_bind]. destruct (w_pc w) as [| | | id |] eqn:Ew; try done.
    intros [= <-]. exact (let_go_inv p i w id WTop Hp Hi Ew ltac:(done) 0 0 1).
  - destruct (workers p !! i) as [w |] eqn:Hi; [| done]. cbn [mbind option_bind]. destruct (ctxDone p); [| done].
    destruct (w_pc w) as [| | | id |] eqn:Ew; try done; intros [= <-]; try (eapply worker_moves; [done .. | |]; congruence).
    eapply pool_inv_ext; [| | | | | exact (let_go_inv p i w id WGone Hp Hi Ew ltac:(done) 0 0 0)]; done.
  - destruct (pws p !! id) as [x |] eqn:Ex; [| done]. intros [= <-]. by apply broken_inv.
  - unfold take_ready. destruct (ready p) as [| id rest] eqn:Er; [done |]. destruct (pws p !! id) as [x |] eqn:Ex; [| done]. cbn [mbind option_bind].
    destruct (broken x) eqn:Eb; intros [= <-]; cbn [fst].
    + unfold discard. cbn [set_ready pws]. rewrite Ex. eapply pool_inv_ext; [| | | | | exact (dequeue_inv p id rest x (broken x) Closed [] Hp Er Ex (or_introl (conj eq_refl eq_refl)) 0 0 0)]; done.
    + eapply dequeue_inv; eauto.
  - intros [= <-]. eapply (pool_inv_ext p); done.
  - destruct (draining p); [| done]. destruct (ready p) as [| id rest] eqn:Er; intros [= <-]; [eapply (pool_inv_ext p); done |].
    unfold discard. cbn [set_ready pws]. destruct (pws p !! id) as [x |] eqn:Ex.
    + eapply pool_inv_ext; [| | | | | exact (dequeue_inv p id rest x (broken x) Closed [] Hp Er Ex (or_introl (conj eq_refl eq_refl)) 0 0 0)]; done.
    + assert (at_place <$> pws p !! id = Some Queued) as E by (apply (pi_queue _ Hp); rewrite Er; apply list_elem_of_here). by rewrite Ex in E.
Qed.

Lemma pool_run_inv p ops p' : pool_inv p → run p ops = Some p' → pool_inv p'.
Proof.
  revert p. induction ops as [| o ops IH]; intros p Hp; cbn [run]; [by intros [= <-] |].
  destruct (step p o) as [p1 |] eqn:E; [| done]. cbn [mbind option_bind]. apply IH. by eapply pool_step_inv.
Qed.

(** ** The phases *)

Definition marked_in (p : WSReadyPool) (k : nat) : gset nat :=
  dom (filter (λ kv : nat * worker, w_marked kv.2 = true ∧ PhaseFor (pc p) kv.1 = Some k) (workers p)).

Record coord_inv (p : WSReadyPool) : Prop := {
  ci_done_len : length (done (pc p)) = length (phases (pc p));
  ci_tally_len : length (tally (pc p)) = length (phases (pc p));
  ci_tally k t : tally (pc p) !! k = Some t → t = Z.of_nat (size (marked_in p k));
  ci_done k ph : done (pc p) !! k = Some true → phases (pc p) !! k = Some ph →
    if RequireDone ph then len (Slots ph) ≤ Z.of_nat (size (marked_in p k)) else 1 ≤ Z.of_nat (size (marked_in p k));
  ci_gate i w k : workers p !! i = Some w → w_pc w ≠ WGate → w_pc w ≠ WGone → PhaseFor (pc p) i = Some (S k) → done (pc p) !! k = Some true;
  ci_marked i w : workers p !! i = Some w → w_pc w = WGate → w_marked w = false;
}.

Lemma elem_of_marked p k i :
  i ∈ marked_in p k ↔ ∃ w, workers p !! i = Some w ∧ w_marked w = true ∧ PhaseFor (pc p) i = Some k.
Proof. unfold marked_in. rewrite elem_of_dom. unfold is_Some. by setoid_rewrite map_lookup_filter_Some. Qed.

Lemma phase_from_in ps i k : phase_from ps i = Some k → ∃ ph, ps !! k = Some ph ∧ i ∈ Slots ph.
Proof.
  revert k. induction ps as [| ph ps IH]; intros k; cbn [phase_from]; [done |].
  case_bool_decide as Hin; [intros [= <-]; by exists ph |]. destruct (phase_from ps i) as [k' |]; [| done]. intros [= <-]. by apply IH.
Qed.

Lemma marked_in_slots p k ph i : phases (pc p) !! k = Some ph → i ∈ marked_in p k → i ∈ Slots ph.
Proof.
  intros Hk (w & Hw & _ & Hp)%elem_of_marked. apply phase_from_in in Hp as (ph' & Hk' & Hin). rewrite Hk in Hk'. by injection Hk' as <-.
Qed.

Lemma coord_start size ex ph st : coord_inv (startPool size ex ph st).
Proof.
  assert (∀ k, marked_in (startPool size ex ph st) k = ∅) as Hm.
  { intros k. apply elem_of_equiv_empty_L. intros i (w & Hi & Hm & _)%elem_of_marked. cbn [startPool workers] in Hi.
    apply elem_of_list_to_map_2, list_elem_of_fmap in Hi as (j & [= -> ->] & _). done. }
  split; cbn [startPool pc newPhaseCoordinator phases done tally workers].
  - apply length_replicate.
  - apply length_replicate.
  - intros k t [-> _]%lookup_replicate. by rewrite Hm, size_empty.
  - intros k q [? _]%lookup_replicate. done.
  - intros i w k Hi Hw. apply elem_of_list_to_map_2, list_elem_of_fmap in Hi as (j & [= -> ->] & _). done.
  - intros i w Hi. apply elem_of_list_to_map_2, list_elem_of_fmap in Hi as (j & [= -> ->] & _). done.
Qed.

(** Steps that leave the marks and the phases alone. *)
Lemma coord_same p q :
  pc q = pc p → (∀ i w', workers q !! i = Some w' → ∃ w, workers p !! i = Some w ∧ w_marked w' = w_marked w
    ∧ (w_pc w' = WGate → w_pc w = WGate)
    ∧ (w_pc w' ≠ WGate → w_pc w' ≠ WGone → ∀ k, PhaseFor (pc p) i = Some (S k) → done (pc p) !! k = Some true)) →
  dom (workers q) = dom (workers p) → coord_inv p → coord_inv q.
Proof.
  intros Ep Hw Hd [H1 H2 H3 H4 H5 H6].
  assert (∀ k, marked_in q k = marked_in p k) as Hm.
  { intros k. apply set_eq. intros i. rewrite !elem_of_marked, Ep. split.
    - intros (w' & Hi & Hmk & Hp). destruct (Hw i w' Hi) as (w & Hi' & Hmm & _). exists w. split_and!; [done | congruence | done].
    - intros (w & Hi & Hmk & Hp). assert (is_Some (workers q !! i)) as [w' Hi'] by (apply elem_of_dom; rewrite Hd; by apply elem_of_dom_2 in Hi).
      destruct (Hw i w' Hi') as (w0 & Hi0 & Hmm & _). exists w'. simplify_eq. split_and!; [done | congruence | done]. }
  split; rewrite ?Ep; try done.
  - intros k t Ht. rewrite Hm. by apply H3.
  - intros k ph Hk Hph. rewrite Hm. by apply H4.
  - intros i w' k Hi H7 H8. destruct (Hw i w' Hi) as (w & _ & _ & _ & Hg). by apply Hg.
  - intros i w' Hi Hg. destruct (Hw i w' Hi) as (w & Hi' & Hmm & Hgg & _). rewrite Hmm. eapply H6; eauto.
Qed.

Lemma coord_put p i w w' :
  coord_inv p → workers p !! i = Some w → w_marked w' = w_marked w → w_pc w' ≠ WGate →
  (w_pc w' = WGone ∨ w_pc w ≠ WGate ∧ w_pc w ≠ WGone ∨ WaitPrior (pc p) (PhaseFor (pc p) i) = true) →
  ∀ q, pc q = pc p → workers q = <[i := w']> (workers p) → coord_inv q.
Proof.
  intros Hc Hi Hm Hg Hgate q Ep Ew. apply (coord_same p); [done | | | done].
  - rewrite Ew. intros j w1. rewrite lookup_insert_Some. intros [[<- <-] | [Hne Hj]].
    + exists w. split_and!; [done | done | done |]. intros _ Hgone k Hk. destruct Hgate as [? | [[? ?] | Hwait]]; [done | by eapply (ci_gate _ Hc) |].
      rewrite Hk in Hwait. cbn in Hwait. destruct (done (pc p) !! k) as [[] |]; done.
    + exists w1. split_and!; [done .. |]. intros H1 H2 k Hk. by eapply (ci_gate _ Hc).
  - rewrite Ew. apply dom_insert_lookup_L. by eexists.
Qed.

(** What [MarkSlotReady] leaves alone. *)
Lemma mark_frame c i :
  phases (MarkSlotReady c i) = phases c ∧ length (done (MarkSlotReady c i)) = length (done c)
  ∧ length (tally (MarkSlotReady c i)) = length (tally c)
  ∧ ∀ k, done c !! k = Some true → done (MarkSlotReady c i) !! k = Some true.
Proof.
  unfold MarkSlotReady. destruct (PhaseFor c i) as [ph |]; [| done]. destruct (phases c !! ph); [| done].
  destruct (tally c !! ph); [| done]. cbn [phases done tally]. rewrite length_insert. split_and!; [done | | done |].
  - destruct (_ || _); [apply length_insert | done].
  - intros k Hk. destruct (_ || _); [| done]. destruct (decide (k = ph)) as [-> |];
      [rewrite list_lookup_insert_eq; [done | by eapply lookup_lt_Some] | by rewrite list_lookup_insert_ne].
Qed.

(** One more worker of its phase is marked. *)
Lemma marked_after p q i w w' k :
  workers p !! i = Some w → w_marked w = false → w_marked w' = true → phases (pc q) = phases (pc p) →
  workers q = <[i := w']> (workers p) →
  size (marked_in q k) = (size (marked_in p k) + if decide (PhaseFor (pc p) i = Some k) then 1 else 0)%nat.
Proof.
  intros Hi Hm Hm' Eph Ew. assert (∀ j, PhaseFor (pc q) j = PhaseFor (pc p) j) as Epf by (intros j; unfold PhaseFor; by rewrite Eph).
  assert (i ∉ marked_in p k) as Hni by (intros (w0 & Hi' & Hm0 & _)%elem_of_marked; congruence).
  assert (∀ j, j ∈ marked_in q k ↔ j ∈ marked_in p k ∨ (j = i ∧ PhaseFor (pc p) i = Some k)) as Hq.
  { intros j. rewrite !elem_of_marked, Ew, Epf. setoid_rewrite lookup_insert_Some. split.
    - intros (w0 & [[-> <-] | [Hne Hj]] & Hmk & Hp); [by right | left; by exists w0].
    - intros [(w0 & Hj & Hmk & Hp) | [-> Hp]]; [| exists w'; split_and!; [by left | done | done]].
      exists w0. split_and!; [right; split; [intros ->; congruence | done] | done | done]. }
  destruct (decide (PhaseFor (pc p) i = Some k)) as [Hk | Hk].
  - assert (marked_in q k = {[i]} ∪ marked_in p k) as -> by (apply set_eq; intros j; rewrite Hq; set_solver).
    rewrite size_union, size_singleton by set_solver. lia.
  - assert (marked_in q k = marked_in p k) as -> by (apply set_eq; intros j; rewrite Hq; naive_solver). lia.
Qed.

(** The first connection of a worker is marked. *)
Lemma coord_mark p i w :
  coord_inv p → workers p !! i = Some w → w_pc w ≠ WGate → w_pc w ≠ WGone → w_marked w = false →
  ∀ q, pc q = MarkSlotReady (pc p) i → workers q = <[i := mkWorker WTop true]> (workers p) → coord_inv q.
Proof.
  intros [H1 H2 H3 H4 H5 H6] Hi Hg1 Hg2 Hm q Ep Ew. destruct (mark_frame (pc p) i) as (Eph & El1 & El2 & Hmono). rewrite <- Ep in Eph, El1, El2, Hmono.
  assert (∀ j, PhaseFor (pc q) j = PhaseFor (pc p) j) as Epf by (intros j; unfold PhaseFor; by rewrite Eph).
  assert (∀ k, size (marked_in q k) = (size (marked_in p k) + if decide (PhaseFor (pc p) i = Some k) then 1 else 0)%nat) as Hsz
    by (intros k; exact (marked_after p q i w (mkWorker WTop true) k Hi Hm eq_refl Eph Ew)).
  split; [congruence | congruence | | | |].
  - intros k t. rewrite Hsz, Ep. unfold MarkSlotReady. destruct (PhaseFor (pc p) i) as [ph |] eqn:Eq.
    2: { rewrite decide_False by done. intros Ht. rewrite (H3 k t Ht). lia. }
    destruct (phase_from_in _ _ _ Eq) as (phase & Hph & _). rewrite Hph.
    destruct (lookup_lt_is_Some_2 (tally (pc p)) ph) as [t0 Ht0]; [rewrite H2; by eapply lookup_lt_Some |]. rewrite Ht0. cbn [tally].
    destruct (decide (ph = k)) as [-> | Hne].
    + rewrite list_lookup_insert_eq by (by eapply lookup_lt_Some). intros [= <-]. rewrite decide_True by done. rewrite (H3 k t0 Ht0). lia.
    + rewrite list_lookup_insert_ne by done. intros Ht. rewrite decide_False by congruence. rewrite (H3 k t Ht). lia.
  - intros k ph Hd. rewrite Eph. intros Hph. rewrite Hsz.
    destruct (decide (done (pc p) !! k = Some true)) as [Hold | Hnew]; [specialize (H4 k ph Hold Hph); destruct (RequireDone ph); lia |].
    rewrite Ep in Hd. unfold MarkSlotReady in Hd. destruct (PhaseFor (pc p) i) as [ph0 |] eqn:Eq; [| done].
    destruct (phase_from_in _ _ _ Eq) as (phase & Hph0 & _). rewrite Hph0 in Hd.
    destruct (tally (pc p) !! ph0) as [t0 |] eqn:Ht0; [| done]. cbn [done] in Hd.
    destruct (negb (RequireDone phase) || (len (Slots phase) <=? t0 + 1)) eqn:Ef; [| done].
    destruct (decide (ph0 = k)) as [-> | Hne]; [| by rewrite list_lookup_insert_ne in Hd].
    simplify_eq. rewrite (H3 k t0 Ht0) in Ef. rewrite decide_True by done. destruct (RequireDone ph); cbn [negb orb] in Ef; lia.
  - intros j w0 k Hj Hj1 Hj2. rewrite Epf. intros Hk. apply Hmono. rewrite Ew, lookup_insert_Some in Hj.
    destruct Hj as [[<- _] | [_ Hj]]; [by eapply H5 | by eapply H5].
  - intros j w0. rewrite Ew, lookup_insert_Some. intros [[<- <-] | [_ Hj]]; [done | by eapply H6].
Qed.

Lemma discard_frame p id : pc (discard p id) = pc p ∧ workers (discard p id) = workers p.
Proof. unfold discard. by destruct (pws p !! id). Qed.

Lemma coord_step p o p' : coord_inv p → step p o = Some p' → coord_inv p'.
Proof.
  intros Hc. assert (∀ q, pc q = pc p → workers q = workers p → coord_inv q) as Hsame.
  { intros q E1 E2. apply (coord_same p); [done | | by rewrite E2 | done]. rewrite E2. intros i w Hi. exists w. split_and!; [done .. |].
    intros ? ? k Hk. by eapply (ci_gate _ Hc). }
  destruct o as [i | i | i id | i | i | i | i | id | | |]; cbn [step].
  - destruct (workers p !! i) as [w |] eqn:Hi; [| done]. cbn [mbind option_bind]. destruct (w_pc w) eqn:Ew; try done.
    destruct (WaitPrior (pc p) (PhaseFor (pc p) i)) eqn:Ewt; [| done]. intros [= <-]. eapply (coord_put p i w (goto w WTop)); [done | done | done | done | by right; right | done | done].
  - destruct (workers p !! i) as [w |] eqn:Hi; [| done]. cbn [mbind option_bind]. destruct (w_pc w) eqn:Ew; try done. intros [= <-].
    eapply (coord_put p i w (goto w (if ctxDone p then WGone else WCreating))); [done | done | done | by cbn; destruct (ctxDone p) | right; left; by rewrite Ew | done | done].
  - destruct (workers p !! i) as [w |] eqn:Hi; [| done]. cbn [mbind option_bind]. destruct (w_pc w) eqn:Ew; try done.
    destruct (pws p !! id) eqn:Ex; [done |]. intros [= <-]. eapply (coord_put p i w (goto w (WHolding id))); [done | done | done | done | right; left; by rewrite Ew | done | done].
  - destruct (workers p !! i) as [w |] eqn:Hi; [| done]. cbn [mbind option_bind]. destruct (w_pc w) eqn:Ew; try done. intros [= <-].
    eapply (coord_put p i w (goto w WTop)); [done | done | done | done | right; left; by rewrite Ew | done | done].
  - destruct (workers p !! i) as [w |] eqn:Hi; [| done]. cbn [mbind option_bind]. destruct (w_pc w) as [| | | id |] eqn:Ew; try done.
    destruct (pws p !! id) as [x |] eqn:Ex; [| done]. cbn [mbind option_bind]. destruct (_ <? _)%nat; [| done]. intros [= <-]. unfold enqueued.
    destruct (w_marked w) eqn:Em.
    + eapply (coord_put p i w (mkWorker WTop true)); [done | done | done | done | right; left; by rewrite Ew | done | done].
    + eapply (coord_mark p i w); [done | done | by rewrite Ew | by rewrite Ew | done | done | done].
  - destruct (workers p !! i) as [w |] eqn:Hi; [| done]. cbn [mbind option_bind]. destruct (w_pc w) as [| | | id |] eqn:Ew; try done. intros [= <-].
    destruct (discard_frame p id) as [E1 E2]. eapply (coord_put p i w (goto w WTop)); [done | done | done | done | right; left; by rewrite Ew | cbn; by rewrite E1 | cbn; by rewrite E2].
  - destruct (workers p !! i) as [w |] eqn:Hi; [| done]. cbn [mbind option_bind]. destruct (ctxDone p); [| done].
    destruct (w_pc w) as [| | | id |] eqn:Ew; try done; intros [= <-]; try (eapply (coord_put p i w (goto w WGone)); [done | done | done | done | by left | done | done]).
    destruct (discard_frame p id) as [E1 E2]. eapply (coord_put p i w (goto w WGone)); [done | done | done | done | by left | cbn; by rewrite E1 | cbn; by rewrite E2].
  - destruct (pws p !! id) as [x |] eqn:Ex; [| done]. intros [= <-]. by apply Hsame.
  - unfold take_ready. destruct (ready p) as [| id rest] eqn:Er; [done |]. destruct (pws p !! id) as [x |] eqn:Ex; [| done]. cbn [mbind option_bind].
    destruct (broken x); intros [= <-]; cbn [fst]; [| by apply Hsame]. destruct (discard_frame (set_ready p rest) id). by apply Hsame.
  - intros [= <-]. by apply Hsame.
  - destruct (draining p); [| done]. destruct (ready p) as [| id rest]; intros [= <-]; [by apply Hsame |].
    destruct (discard_frame (set_ready p rest) id). by apply Hsame.
Qed.

Lemma coord_run p ops p' : coord_inv p → run p ops = Some p' → coord_inv p'.
Proof.
  revert p. induction ops as [| o ops IH]; intros p Hp; cbn [run]; [by intros [= <-] |].
  destruct (step p o) as [p1 |] eqn:E; [| done]. cbn [mbind option_bind]. apply IH. by eapply coord_step.
Qed.

Lemma step_phases p o p' : step p o = Some p' → phases (pc p') = phases (pc p).
Proof.
  assert (∀ c i, phases (MarkSlotReady c i) = phases c) as Hm.
  { intros c i. unfold MarkSlotReady. destruct (PhaseFor c i) as [k |]; [| done]. destruct (phases c !! k); [| done]. by destruct (tally c !! k). }
  assert (∀ q id, phases (pc (discard q id)) = phases (pc q)) as Hd by (intros q id; by rewrite (proj1 (discard_frame q id))).
  destruct o as [i | i | i id | i | i | i | i | id | | |]; cbn [step];
    try (destruct (workers p !! i) as [w |]; [| done]; cbn [mbind option_bind]).
  - destruct (w_pc w); try done. destruct (WaitPrior _ _); [| done]. by intros [= <-].
  - destruct (w_pc w); try done. by intros [= <-].
  - destruct (w_pc w); try done. destruct (pws p !! id); [done |]. by intros [= <-].
  - destruct (w_pc w); try done. by intros [= <-].
  - destruct (w_pc w) as [| | | id |]; try done. destruct (pws p !! id); [| done]. cbn [mbind option_bind].
    destruct (_ <? _)%nat; [| done]. intros [= <-]. unfold enqueued. destruct (w_marked w); [done |]. apply Hm.
  - destruct (w_pc w) as [| | | id |]; try done. intros [= <-]. cbn. by rewrite Hd.
  - destruct (ctxDone p); [| done]. destruct (w_pc w) as [| | | id |]; try done; intros [= <-]; try done. cbn. by rewrite Hd.
  - destruct (pws p !! id); [| done]. by intros [= <-].
  - unfold take_ready. destruct (ready p) as [| id rest]; [done |]. destruct (pws p !! id) as [x |]; [| done]. cbn [mbind option_bind].
    destruct (broken x); intros [= <-]; cbn [fst]; [by rewrite Hd | done].
  - by intros [= <-].
  - destruct (draining p); [| done]. destruct (ready p) as [| id rest]; intros [= <-]; [done | by rewrite Hd].
Qed.

Lemma run_phases p ops p' : run p ops = Some p' → phases (pc p') = phases (pc p).
Proof.
  revert p. induction ops as [| o ops IH]; intros p; cbn [run]; [by intros [= <-] |].
  destruct (step p o) as [p1 |] eqn:E; [| done]. cbn [mbind option_bind]. intros Hr. by rewrite (IH _ Hr), (step_phases _ _ _ E).
Qed.

(** ** The default schedule *)

Lemma default_slots phased stagger size :
  (1 ≤ size)%nat → concat (Slots <$> effectiveWarmup [] phased stagger size) = seq 0 size.
Proof.
  intros Hs. unfold effectiveWarmup, rangeSlots. destruct phased; cbn [negb].
  - destruct (Nat.leb_spec size 1); [by replace size with 1%nat by lia |].
    destruct (Nat.leb_spec size 3).
    + cbn. rewrite app_nil_r. by destruct size as [| n]; [lia |]; cbn; rewrite Nat.sub_0_r.
    + destruct (Nat.ltb_spec 0 (size - 3)); [| lia]. cbn. rewrite app_nil_r. destruct size as [| [| [| n]]]; try lia. cbn. by rewrite ?Nat.sub_0_r.
  - rewrite <- list_fmap_compose. unfold compose. cbn. generalize 0%nat as k. clear Hs. induction size as [| n IH]; intros k; [done |].
    cbn. f_equal. apply IH.
Qed.

Lemma phase_slots_nodup (ps : list WarmupPhase) k ph : NoDup (concat (Slots <$> ps)) → ps !! k = Some ph → NoDup (Slots ph).
Proof.
  revert k. induction ps as [| q ps IH]; intros k Hn Hk; [done |]. cbn in Hn. apply NoDup_app in Hn as (H1 & _ & H2).
  destruct k; cbn in Hk; [by simplify_eq | by eapply IH].
Qed.

(** ** Properties *)

Definition is_idle (x : pooledWS) : Prop := match at_place x with Held _ | Queued => True | _ => False end.
#[global] Instance is_idle_dec x : Decision (is_idle x).
Proof. unfold is_idle. destruct (at_place x); apply _. Defined.
Definition idle (p : WSReadyPool) : gset nat := dom (filter (λ kv : nat * pooledWS, is_idle kv.2) (pws p)).

Lemma size_to_set (l : list nat) : (size (list_to_set l : gset nat) ≤ length l)%nat.
Proof.
  induction l as [| x l IH]; [done |]. cbn. rewrite size_union_alt, size_singleton.
  pose proof (subseteq_size (list_to_set l ∖ {[x]}) (list_to_set l : gset nat) ltac:(set_solver)). lia.
Qed.

Definition holding (w : worker) : option nat := match w_pc w with WHolding id => Some id | _ => None end.

Lemma length_omap_le {A B} (f : A → option B) l : (length (omap f l) ≤ length l)%nat.
Proof. induction l as [| x l IH]; cbn; [lia |]. destruct (f x); cbn; lia. Qed.

Lemma idle_bound p : pool_inv p → (size (idle p) ≤ 2 * Size p)%nat.
Proof.
  intros [H1 H2 H3 H4 H5 H6 H7 H8]. set (held := omap (λ kv : nat * worker, holding kv.2) (map_to_list (workers p))).
  assert (idle p ⊆ list_to_set (ready p ++ held)) as Hsub.
  { unfold idle. intros id [x (Hx & Hid)%map_lookup_filter_Some]%elem_of_dom. cbn in Hid. apply elem_of_list_to_set, elem_of_app.
    unfold is_idle in Hid. destruct (at_place x) as [i | | |] eqn:Ep; try done.
    - right. assert (w_pc <$> workers p !! i = Some (WHolding id)) as Hw by (apply H4; rewrite Hx; cbn; by rewrite Ep).
      destruct (workers p !! i) as [w |] eqn:Hi; [| done]. injection Hw as Hw. apply list_elem_of_omap.
      exists (i, w). split; [by apply elem_of_map_to_list | unfold holding; cbn; by rewrite Hw].
    - left. apply H3. rewrite Hx. cbn. by rewrite Ep. }
  pose proof (subseteq_size _ _ Hsub) as Hle. pose proof (size_to_set (ready p ++ held)) as Hset.
  rewrite length_app in Hset. assert (length held ≤ Size p)%nat.
  { unfold held. etrans; [apply length_omap_le |]. by rewrite length_map_to_list, H8. }
  lia.
Qed.

(** In every run of workers, callers, keep-alives and [Close], each
    connection the pool made is held by one worker, waits in the queue, was handed
    to exactly one caller, or is closed; a connection that was handed out has its
    keep-alive stopped and is not closed by the pool; the queue never exceeds
    [Size] and the connections that idle in the pool never exceed twice [Size]. *)
Theorem ready_pool_owned sz explicit phased stagger ops p :
  run (startPool sz explicit phased stagger) ops = Some p →
  NoDup (handed p) ∧ (∀ id, id ∈ handed p ↔ at_place <$> pws p !! id = Some Handed)
  ∧ (∀ id, id ∈ handed p → stopped <$> pws p !! id = Some true)
  ∧ (∀ id, id ∈ ready p ↔ at_place <$> pws p !! id = Some Queued)
  ∧ (∀ i id, w_pc <$> workers p !! i = Some (WHolding id) ↔ at_place <$> pws p !! id = Some (Held i))
  ∧ (length (ready p) ≤ Size p)%nat ∧ (size (idle p) ≤ 2 * Size p)%nat.
Proof.
  intros E. pose proof (pool_run_inv _ _ _ (pool_start_inv _ _ _ _) E) as Hp. pose proof Hp as [H1 H2 H3 H4 H5 H6 H7 H8].
  split_and!; try done; [| by apply idle_bound]. intros id Hid. apply H5 in Hid. destruct (pws p !! id) as [x |] eqn:Ex; [| done].
  injection Hid as Hid. cbn. f_equal. eapply H7; eauto.
Qed.

(** The default warm-up is gated: the slots are split among the phases, each
    in one, and once a worker of a later phase is past its gate, every worker of
    the phase before it (or, where that phase does not require all, one of them)
    has put a connection on the queue. *)
Theorem warmup_gated sz phased stagger ops p i w k ph :
  run (startPool sz [] phased stagger) ops = Some p →
  workers p !! i = Some w → w_pc w ≠ WGate → w_pc w ≠ WGone →
  PhaseFor (pc p) i = Some (S k) → phases (pc p) !! k = Some ph →
  concat (Slots <$> phases (pc p)) = seq 0 (if (sz <? 1)%nat then 6%nat else sz)
  ∧ if RequireDone ph
    then ∀ j, j ∈ Slots ph → w_marked <$> workers p !! j = Some true
    else ∃ j, j ∈ Slots ph ∧ w_marked <$> workers p !! j = Some true.
Proof.
  intros E Hi Hg1 Hg2 Hk Hph. pose proof (coord_run _ _ _ (coord_start _ _ _ _) E) as Hc.
  assert (concat (Slots <$> phases (pc p)) = seq 0 (if (sz <? 1)%nat then 6%nat else sz)) as Hslots.
  { rewrite (run_phases _ _ _ E). cbn [startPool pc newPhaseCoordinator phases]. apply default_slots. destruct (Nat.ltb_spec sz 1); lia. }
  split; [done |]. pose proof (ci_done _ Hc k ph (ci_gate _ Hc i w k Hi Hg1 Hg2 Hk) Hph) as Hd.
  assert (∀ j, j ∈ marked_in p k → j ∈ Slots ph ∧ w_marked <$> workers p !! j = Some true) as Hmk.
  { intros j Hj. split; [by eapply marked_in_slots |]. apply elem_of_marked in Hj as (w' & -> & Hm & _). cbn. by f_equal. }
  destruct (RequireDone ph).
  - intros j Hj. apply Hmk. assert (NoDup (Slots ph)) as Hnd by (eapply phase_slots_nodup; [rewrite Hslots; apply NoDup_seq | done]).
    assert (marked_in p k ⊆ list_to_set (Slots ph)) as Hsub by (intros x Hx; apply elem_of_list_to_set; by apply Hmk).
    assert (marked_in p k = list_to_set (Slots ph)) as ->; [| by apply elem_of_list_to_set].
    apply set_subseteq_size_eq; [done |]. rewrite size_list_to_set by done. unfold len in Hd. lia.
  - destruct (set_choose_or_empty (marked_in p k)) as [[j Hj] | Hem]; [exists j; by apply Hmk |].
    exfalso. assert (size (marked_in p k) = 0%nat) by (by apply size_empty_iff). lia.
Qed.

(** ** The dispatcher over the pool *)

(** [wsReadyPoolAdapter]: an acquisition of the dispatcher is an [Acquire] of the
    pool; the two states move together. *)
Inductive joint_op := JPool (o : op) | JDisp (o : Coalesce.op) | JTake (i : nat).

Definition joint_step (s : WSReadyPool * CoalescingDispatcher) (o : joint_op) : option (WSReadyPool * CoalescingDispatcher) :=
  let '(p, d) := s in
  match o with
  | JPool RAcquire => None
  | JPool o => p' ← step p o; Some (p', d)
  | JDisp (OPool i (Some _)) => None
  | JDisp o => d' ← Coalesce.step d o; Some (p, d')
  | JTake i =>
    r ← take_ready p;
    match r with
    | (p', Some id) => d' ← Coalesce.step d (OPool i (Some id)); Some (p', d')
    | (p', None) => Some (p', d)
    end
  end.

Fixpoint joint_run (s : WSReadyPool * CoalescingDispatcher) (ops : list joint_op) : option (WSReadyPool * CoalescingDispatcher) :=
  match ops with [] => Some s | o :: ops' => s' ← joint_step s o; joint_run s' ops' end.

Lemma disp_made d o d' : Coalesce.step d o = Some d' → (∀ i n, o ≠ OPool i (Some n)) → made d' = made d.
Proof.
  destruct o as [i | i | i | | i | i | i c | i | i]; cbn [Coalesce.step]; intros E Hn.
  - destruct (reqs d !! i); by simplify_eq.
  - destruct (reqs d !! i); cbn in E; by simplify_eq.
  - destruct (reqs d !! i) as [r |]; [| done]. cbn in E. destruct (rq_caller r); try done. destruct (rq_done r); by simplify_eq.
  - destruct (timer d); by simplify_eq.
  - destruct (reqs d !! i) as [r |]; [| done]. cbn in E. destruct (rq_worker r); try done. destruct (_ <? _); by simplify_eq.
  - destruct (reqs d !! i) as [r |]; [| done]. cbn in E. destruct (rq_worker r); try done. destruct (rq_done r); by simplify_eq.
  - destruct c as [n |]; [by destruct (Hn i n) |]. destruct (reqs d !! i) as [r |]; [| done]. cbn in E. destruct (rq_worker r); by simplify_eq.
  - destruct (reqs d !! i) as [r |]; [| done]. cbn in E. destruct (rq_worker r); try done. destruct (rq_caller r); by simplify_eq.
  - destruct (reqs d !! i) as [r |]; [| done]. cbn in E. destruct (rq_worker r); try done. destruct (rq_done r); by simplify_eq.
Qed.

Lemma pool_handed p o p' : step p o = Some p' → o ≠ RAcquire → handed p' = handed p.
Proof.
  assert (∀ q id, handed (discard q id) = handed q) as Hd by (intros q id; unfold discard; by destruct (pws q !! id)).
  destruct o as [i | i | i id | i | i | i | i | id | | |]; cbn [step]; intros E Hn; try done;
    try (destruct (workers p !! i) as [w |]; [| done]; cbn [mbind option_bind] in E).
  - destruct (w_pc w); try done. destruct (WaitPrior _ _); by simplify_eq.
  - destruct (w_pc w); by simplify_eq.
  - destruct (w_pc w); try done. destruct (pws p !! id); by simplify_eq.
  - destruct (w_pc w); by simplify_eq.
  - destruct (w_pc w) as [| | | id |]; try done. destruct (pws p !! id); [| done]. cbn [mbind option_bind] in E.
    destruct (_ <? _)%nat; simplify_eq. unfold enqueued. by destruct (w_marked w).
  - destruct (w_pc w) as [| | | id |]; simplify_eq. cbn. by rewrite Hd.
  - destruct (ctxDone p); [| done]. destruct (w_pc w) as [| | | id |]; simplify_eq; try done. cbn. by rewrite Hd.
  - destruct (pws p !! id); cbn in E; by simplify_eq.
  - by simplify_eq.
  - destruct (draining p); [| done]. destruct (ready p) as [| id rest]; simplify_eq; [done | by rewrite Hd].
Qed.

Record joint_inv (s : WSReadyPool * CoalescingDispatcher) : Prop := {
  ji_pool : pool_inv (fst s);
  ji_disp : disp_inv (snd s);
  ji_same : made (snd s) = list_to_set (handed (fst s));
}.

Lemma joint_step_inv s o s' : joint_inv s → joint_step s o = Some s' → joint_inv s'.
Proof.
  destruct s as [p d]. intros [Hp Hd Hs]. cbn [fst snd] in *. destruct o as [o | o | i]; cbn [joint_step].
  - intros E. assert (o ≠ RAcquire ∧ ∃ p', step p o = Some p' ∧ s' = (p', d)) as (Hn & p' & E1 & ->).
    { destruct o; (split; [done |]); try (destruct (step p _) as [p' |] eqn:E1; [| done]; cbn in E; simplify_eq; by exists p'). }
    split; cbn [fst snd]; [by eapply pool_step_inv | done |]. by rewrite (pool_handed _ _ _ E1 Hn).
  - intros E. assert ((∀ i n, o ≠ OPool i (Some n)) ∧ ∃ d', Coalesce.step d o = Some d' ∧ s' = (p, d')) as (Hn & d' & E1 & ->).
    { destruct o as [| | | | | | i c | |]; [.. | destruct c; [done |] | |]; (split; [done |]);
        (destruct (Coalesce.step d _) as [d' |] eqn:E1; [| done]; cbn in E; simplify_eq; by exists d'). }
    split; cbn [fst snd]; [done | by eapply disp_step_inv |]. by rewrite (disp_made _ _ _ E1 Hn).
  - destruct (take_ready p) as [[p' r] |] eqn:Et; [| done]. cbn [mbind option_bind].
    assert (step p RAcquire = Some p') as Est by (cbn [step]; by rewrite Et). pose proof (pool_step_inv _ _ _ Hp Est) as Hp'.
    unfold take_ready in Et. destruct (ready p) as [| id rest] eqn:Er; [done |]. destruct (pws p !! id) as [x |] eqn:Ex; [| done]. cbn [mbind option_bind] in Et.
    destruct (broken x); simplify_eq.
    + intros [= <-]. split; [done | done |]. cbn [fst snd]. rewrite Hs. unfold discard. cbn [set_ready pws]. by rewrite Ex.
    + destruct (Coalesce.step d (OPool i (Some id))) as [d' |] eqn:E1; [| done]. intros [= <-]. split; [done | by eapply disp_step_inv |].
      cbn [fst snd count handed set_pw set_ready app list_to_set]. rewrite <- Hs. cbn [Coalesce.step] in E1.
      destruct (reqs d !! i) as [rq |]; [| done]. cbn in E1. destruct (rq_worker rq); try done. case_bool_decide; simplify_eq. done.
Qed.

Lemma joint_run_inv s ops s' : joint_inv s → joint_run s ops = Some s' → joint_inv s'.
Proof.
  revert s. induction ops as [| o ops IH]; intros s Hs; cbn [joint_run]; [by intros [= <-] |].
  destruct (joint_step s o) as [s1 |] eqn:E; [| done]. cbn [mbind option_bind]. apply IH. by eapply joint_step_inv.
Qed.

(** The dispatcher over the ready pool: a goroutine in [pool.Acquire] is
    never refused a connection that waits unbroken at the head of the queue, and
    in every joint run each connection the pool handed out has been closed by the
    dispatcher, is in the hands of one goroutine, or was received by exactly one
    caller; none of them is still queued or held by a worker. *)
Theorem dispatcher_over_pool sz explicit phased stagger maxPar ops p d :
  joint_run (startPool sz explicit phased stagger, NewCoalescingDispatcher maxPar) ops = Some (p, d) →
  (∀ id, id ∈ handed p → id ∈ closed d ∨ ∃ i r, reqs d !! i = Some r ∧ owns r id)
  ∧ (∀ i j r s id, reqs d !! i = Some r → reqs d !! j = Some s → owns r id → owns s id → i = j)
  ∧ (∀ i r id, reqs d !! i = Some r → owns r id → at_place <$> pws p !! id = Some Handed ∧ id ∉ closed d)
  ∧ (∀ i r id rest x, reqs d !! i = Some r → rq_worker r = WAsking → ready p = id :: rest → pws p !! id = Some x → broken x = false →
     is_Some (joint_step (p, d) (JTake i))).
Proof.
  intros E. destruct (joint_run_inv _ _ _ (Build_joint_inv (_, _) (pool_start_inv _ _ _ _) (new_inv _) eq_refl) E) as [Hp Hd Hs]. cbn [fst snd] in *.
  split_and!.
  - intros id Hid. apply (di_owned _ Hd). rewrite Hs. by apply elem_of_list_to_set.
  - apply (di_once _ Hd).
  - intros i r id Hi Ho. destruct (di_made _ Hd i r id Hi Ho) as [Hm Hc]. split; [| done]. apply (pi_handed _ Hp). rewrite Hs in Hm. by apply elem_of_list_to_set in Hm.
  - intros i r id rest x Hi Hw Er Ex Hb. cbn [joint_step]. unfold take_ready. rewrite Er, Ex. cbn [mbind option_bind]. rewrite Hb.
    cbn [Coalesce.step]. rewrite Hi. cbn [mbind option_bind]. rewrite Hw. rewrite bool_decide_eq_false_2; [by eexists |].
    rewrite Hs, elem_of_list_to_set, (pi_handed _ Hp), Ex. cbn.
    assert (at_place <$> pws p !! id = Some Queued) as Eq by (apply (pi_queue _ Hp); rewrite Er; apply list_elem_of_here). rewrite Ex in Eq. cbn in Eq. congruence.
Qed.

(** A queued connection stays queued, in its place, until a caller takes it or
    the pool is closed: nothing in the queue ages. *)
Lemma queue_only_grows p o p' :
  step p o = Some p' → o ≠ RAcquire → draining p = false → ∃ l, ready p' = ready p ++ l.
Proof.
  assert (∀ q id, ready (discard q id) = ready q) as Hd by (intros q id; unfold discard; by destruct (pws q !! id)).
  destruct o as [i | i | i id | i | i | i | i | id | | |]; cbn [step]; intros E Hn Hdr; try done;
    try (destruct (workers p !! i) as [w |]; [| done]; cbn [mbind option_bind] in E).
  - destruct (w_pc w); try done. destruct (WaitPrior _ _); simplify_eq. exists []. by rewrite app_nil_r.
  - destruct (w_pc w); simplify_eq. exists []. by rewrite app_nil_r.
  - destruct (w_pc w); try done. destruct (pws p !! id); simplify_eq. exists []. by rewrite app_nil_r.
  - destruct (w_pc w); simplify_eq. exists []. by rewrite app_nil_r.
  - destruct (w_pc w) as [| | | id |]; try done. destruct (pws p !! id); [| done]. cbn [mbind option_bind] in E.
    destruct (_ <? _)%nat; simplify_eq. exists [id]. unfold enqueued. by destruct (w_marked w).
  - destruct (w_pc w) as [| | | id |]; simplify_eq. exists []. cbn. by rewrite Hd, app_nil_r.
  - destruct (ctxDone p); [| done]. destruct (w_pc w) as [| | | id |]; simplify_eq; exists []; cbn; by rewrite ?Hd, app_nil_r.
  - destruct (pws p !! id); cbn in E; simplify_eq. exists []. by rewrite app_nil_r.
  - simplify_eq. exists []. by rewrite app_nil_r.
  - by rewrite Hdr in E.
Qed.

(** ** Witnesses and defects *)

Module ReadyDemo.

Definition refill (i id : nat) : list op := [RTop i; RCreated i id; REnqueue i].
Definition two : list op := RGate 0 :: refill 0 7 ++ refill 0 8 ++ [RAcquire].
Definition pool_after (n : nat) (ops : list op) : WSReadyPool :=
  default (startPool n [] true 0) (run (startPool n [] true 0) ops).

Lemma ready_pool_owned_witness :
  let p := pool_after 2 two in
  NoDup (handed p) ∧ (∀ id, id ∈ handed p ↔ at_place <$> pws p !! id = Some Handed)
  ∧ (∀ id, id ∈ handed p → stopped <$> pws p !! id = Some true)
  ∧ (∀ id, id ∈ ready p ↔ at_place <$> pws p !! id = Some Queued)
  ∧ (∀ i id, w_pc <$> workers p !! i = Some (WHolding id) ↔ at_place <$> pws p !! id = Some (Held i))
  ∧ (length (ready p) ≤ Size p)%nat ∧ (size (idle p) ≤ 2 * Size p)%nat.
Proof. apply (ready_pool_owned 2 [] true 0 two (pool_after 2 two)). vm_compute. reflexivity. Defined.

Definition gated : list op := RGate 0 :: refill 0 7 ++ [RGate 1].

Lemma warmup_gated_witness :
  let p := pool_after 6 gated in
  concat (Slots <$> phases (pc p)) = seq 0 6 ∧ ∀ j, j ∈ [0%nat] → w_marked <$> workers p !! j = Some true.
Proof.
  apply (warmup_gated 6 true 0 gated (pool_after 6 gated) 1 (mkWorker WTop false) 0 (mkPhase [0%nat] 0 true));
    try (vm_compute; reflexivity); discriminate.
Defined.

Definition joint_ops : list joint_op :=
  (JPool <$> (RGate 0 :: refill 0 7)) ++ [JDisp (OAcquire 3); JDisp OFlush; JDisp (OSem 3); JTake 3; JDisp (ODeliver 3)].
Definition joint_after : WSReadyPool * CoalescingDispatcher :=
  default (startPool 2 [] true 0, NewCoalescingDispatcher 2) (joint_run (startPool 2 [] true 0, NewCoalescingDispatcher 2) joint_ops).

Lemma dispatcher_over_pool_witness :
  let p := fst joint_after in let d := snd joint_after in
  (∀ id, id ∈ handed p → id ∈ closed d ∨ ∃ i r, reqs d !! i = Some r ∧ owns r id)
  ∧ (∀ i j r s id, reqs d !! i = Some r → reqs d !! j = Some s → owns r id → owns s id → i = j)
  ∧ (∀ i r id, reqs d !! i = Some r → owns r id → at_place <$> pws p !! id = Some Handed ∧ id ∉ closed d)
  ∧ (∀ i r id rest x, reqs d !! i = Some r → rq_worker r = WAsking → ready p = id :: rest → pws p !! id = Some x → broken x = false →
     is_Some (joint_step (p, d) (JTake i))).
Proof. apply (dispatcher_over_pool 2 [] true 0 2 joint_ops (fst joint_after) (snd joint_after)). vm_compute. reflexivity. Defined.

(** The worker of the first phase goes on making connections after its own is
    queued and fills the queue alone; the workers of the second phase cannot queue
    theirs, so the phase is not done and the tail does not start until somebody
    takes a connection. *)
Theorem first_worker_fills_queue :
  let p := pool_after 6 (RGate 0 :: concat ((λ id, refill 0 id) <$> seq 10 6) ++ [RGate 1; RTop 1; RCreated 1 31; RGate 2; RTop 2; RCreated 2 32]) in
  length (ready p) = 6%nat ∧ step p (REnqueue 1) = None ∧ step p (REnqueue 2) = None ∧ step p (RGate 3) = None.
Proof. vm_compute. done. Qed.

(** A pool of one keeps two connections: one in the queue, where it never ages,
    and one in the hands of the worker. *)
Theorem pool_of_one_keeps_two :
  let p := pool_after 1 (RGate 0 :: refill 0 7 ++ [RTop 0; RCreated 0 8]) in
  Size p = 1%nat ∧ size (idle p) = 2%nat ∧ ready p = [7%nat] ∧ step p (REnqueue 0) = None.
Proof. vm_compute. done. Qed.

(** [Close] returns when the queue is empty; a worker whose select then takes the
    send instead of the cancelled context leaves an open connection in the queue
    of a closed pool, with no goroutine to close it. *)
Theorem close_leaves_connection :
  let p := pool_after 1 (RGate 0 :: [RTop 0; RCreated 0 7; RClose; RDrain; REnqueue 0; RTop 0]) in
  ctxDone p = true ∧ draining p = false ∧ w_pc <$> workers p !! 0%nat = Some WGone ∧ at_place <$> pws p !! 7%nat = Some Queued.
Proof. vm_compute. done. Qed.

End ReadyDemo.
