(* ===== verification/Float64.v ===== *)
(** * Go's [float64]

    Binary64 arithmetic as the specification of the Standard Library computes it:
    53 bits of mantissa, rounding to nearest even, every operation rounded on its
    own (no fused multiply-add).  The last section bounds the one rounded product
    that becomes an integer again. *)

From S2P Require Import Prelude.
From Stdlib Require Import SpecFloat.
From stdpp Require Import base numbers.

#[local] Open Scope Z_scope.

Definition float64 := spec_float.

(** [float64(z)] *)
Definition of_int (z : Z) : float64 := binary_normalize 53 1024 z 0 false.
Definition fadd : float64 → float64 → float64 := SFadd 53 1024.
Definition fsub : float64 → float64 → float64 := SFsub 53 1024.
Definition fmul : float64 → float64 → float64 := SFmul 53 1024.
Definition fdiv : float64 → float64 → float64 := SFdiv 53 1024.
Definition fsqrt : float64 → float64 := SFsqrt 53 1024.
Definition flt : float64 → float64 → bool := SFltb.
Definition fle : float64 → float64 → bool := SFleb.
Definition feq : float64 → float64 → bool := SFeqb.
Definition fzero : float64 := S754_zero false.
(** The float nearest 4/5. *)
Definition f0_8 : float64 := S754_finite false 7205759403792794 (-53).
Definition f0_5 : float64 := fdiv (of_int 1) (of_int 2).

(** [int64(f)]: towards zero; not defined by the language for NaN, infinities and
    values out of range, here 0 and unbounded. *)
Definition to_int (f : float64) : Z :=
  match f with
  | S754_finite s m e =>
    let v := if 0 <=? e then Zpos m * 2 ^ e else Zpos m / 2 ^ (- e) in
    if s then - v else v
  | _ => 0
  end.

Example one_fifth_less : to_int (fmul (of_int 85300) f0_8) = 68240.
Proof. vm_compute. reflexivity. Qed.

(** ** Bounds on rounding *)

Lemma digits_range p : 2 ^ (Zpos (digits2_pos p) - 1) ≤ Zpos p < 2 ^ Zpos (digits2_pos p).
Proof.
  induction p as [p IH | p IH |]; cbn [digits2_pos]; [| | done];
    rewrite Pos2Z.inj_succ, Z.pow_succ_r, <- Z.add_1_r, Z.add_simpl_r by done;
    replace (Zpos (digits2_pos p)) with (Z.succ (Zpos (digits2_pos p) - 1)) at 1 by lia; rewrite Z.pow_succ_r by lia; lia.
Qed.

Lemma digits_unique p d : 2 ^ (d - 1) ≤ Zpos p < 2 ^ d → Zpos (digits2_pos p) = d.
Proof.
  intros [H1 H2]. destruct (digits_range p) as [H3 H4].
  assert (d - 1 < Zpos (digits2_pos p)) by (apply (Z.pow_lt_mono_r_iff 2); lia).
  assert (Zpos (digits2_pos p) - 1 < d); [| lia].
  apply (Z.pow_lt_mono_r_iff 2); [lia | | lia]. destruct (Z.le_gt_cases 0 d); [done |]. rewrite (Z.pow_neg_r 2 d) in H2 by done. lia.
Qed.

Lemma shr_1_div r : 0 ≤ shr_m r → shr_m (shr_1 r) = shr_m r / 2.
Proof.
  destruct r as [m b s]. cbn [shr_m]. intros H. rewrite <- Z.div2_div. by destruct m as [| [] | []].
Qed.

Lemma iter_pos_iter {A} (f : A → A) n x : SpecFloat.iter_pos f n x = Nat.iter (Pos.to_nat n) f x.
Proof.
  revert x. induction n as [n IH | n IH |]; intros x; cbn [SpecFloat.iter_pos]; [| | done]; rewrite !IH.
  - rewrite Pos2Nat.inj_xI. replace (S (2 * Pos.to_nat n)) with (Pos.to_nat n + (Pos.to_nat n + 1))%nat by lia. by rewrite !Nat.iter_add.
  - rewrite Pos2Nat.inj_xO. replace (2 * Pos.to_nat n)%nat with (Pos.to_nat n + Pos.to_nat n)%nat by lia. by rewrite !Nat.iter_add.
Qed.

Lemma shr_iter_div n r : 0 ≤ shr_m r → shr_m (Nat.iter n shr_1 r) = shr_m r / 2 ^ Z.of_nat n.
Proof.
  intros H. induction n as [| n IH]; [by rewrite Z.div_1_r |].
  change (Nat.iter (S n) shr_1 r) with (shr_1 (Nat.iter n shr_1 r)).
  rewrite shr_1_div by (rewrite IH; apply Z.div_pos; lia). rewrite IH, Z.div_div by lia. f_equal. rewrite Nat2Z.inj_succ, Z.pow_succ_r by lia. lia.
Qed.

Lemma round_even_cases m l : round_nearest_even m l = m ∨ round_nearest_even m l = m + 1.
Proof. destruct l as [| []]; cbn; auto. destruct (Z.even m); auto. Qed.

Lemma shr_div r e n : 0 ≤ shr_m r → 0 ≤ n → shr_m (fst (shr r e n)) = shr_m r / 2 ^ n ∧ snd (shr r e n) = e + n.
Proof.
  intros H Hn. destruct n as [| n |]; cbn [shr fst snd]; [split; [by rewrite Z.div_1_r | lia] | | lia].
  rewrite iter_pos_iter, shr_iter_div by done. by rewrite positive_nat_Z.
Qed.

(** A mantissa of 53 bits or 2^53 itself is not changed by the second rounding. *)
Lemma round_again m e : 2 ^ 52 ≤ m ≤ 2 ^ 53 → -1000 ≤ e →
  ∃ m' e', shr_m (fst (shr_fexp 53 1024 m e loc_Exact)) = Zpos m' ∧ snd (shr_fexp 53 1024 m e loc_Exact) = e' ∧ e ≤ e' ≤ e + 1 ∧ Zpos m' * 2 ^ (e' - e) = m.
Proof.
  intros Hm He. unfold shr_fexp, fexp, emin. cbn [shr_record_of_loc]. destruct (decide (m = 2 ^ 53)) as [-> | Hne].
  - change (Zdigits2 (2 ^ 53)) with 54. rewrite Z.max_l by lia. replace (54 + e - 53 - e) with 1 by lia.
    exists (2 ^ 52)%positive, (e + 1). split_and!; [done | done | lia | lia |]. replace (e + 1 - e) with 1 by lia. done.
  - destruct m as [| m |]; [lia | | lia]. cbn [Zdigits2]. rewrite (digits_unique m 53) by lia. rewrite Z.max_l by lia.
    replace (53 + e - 53 - e) with 0 by lia. exists m, e. split_and!; [done | done | lia | lia |]. rewrite Z.sub_diag. lia.
Qed.

(** The integer part of a rounded positive value with a mantissa of more than 53
    bits is the integer part of the value, or one more. *)
Lemma round_to_int m e n :
  0 ≤ n → 2 ^ (52 + n) ≤ Zpos m < 2 ^ (53 + n) → -1000 ≤ e + n ≤ 0 →
  Zpos m / 2 ^ (- e) ≤ to_int (binary_round_aux 53 1024 false (Zpos m) e loc_Exact) ≤ Zpos m / 2 ^ (- e) + 1.
Proof.
  intros Hn Hm He. assert (Zpos (digits2_pos m) = 53 + n) as Hd by (apply digits_unique; replace (53 + n - 1) with (52 + n) by lia; done).
  unfold binary_round_aux. destruct (shr_fexp 53 1024 (Zpos m) e loc_Exact) as [r1 e1] eqn:E1.
  unfold shr_fexp in E1. cbn [Zdigits2 shr_record_of_loc] in E1. rewrite Hd in E1. unfold fexp, emin in E1. rewrite Z.max_l in E1 by lia.
  replace (53 + n + e - 53 - e) with n in E1 by lia.
  destruct (shr_div (Build_shr_record (Zpos m) false false) e n) as [Em Ee]; [done | done |]. rewrite E1 in Em, Ee. cbn [fst snd shr_m] in Em, Ee.
  assert (2 ^ 52 ≤ shr_m r1 < 2 ^ 53) as Hr.
  { rewrite Em. rewrite !Z.pow_add_r in Hm by lia. split; [apply Z.div_le_lower_bound; lia | apply Z.div_lt_upper_bound; lia]. }
  set (m1 := round_nearest_even _ _). assert (shr_m r1 ≤ m1 ≤ shr_m r1 + 1) as Hm1 by (destruct (round_even_cases (shr_m r1) (loc_of_shr_record r1)); unfold m1; lia).
  destruct (round_again m1 e1) as (m2 & e2 & E2 & E3 & He2 & Hv); [lia | lia |].
  destruct (shr_fexp 53 1024 m1 e1 loc_Exact) as [r2 e2']. cbn [fst snd] in E2, E3. subst e2'. rewrite E2.
  destruct (Z.leb_spec e2 (1024 - 53)); [| lia]. cbn [to_int].
  assert (Zpos m / 2 ^ (- e) = shr_m r1 / 2 ^ (- e1)) as ->.
  { rewrite Em, Z.div_div by lia. f_equal. rewrite <- Z.pow_add_r by lia. f_equal. lia. }
  assert (0 < 2 ^ (- e1)) by (apply Z.pow_pos_nonneg; lia).
  assert (m1 / 2 ^ (- e1) = if 0 <=? e2 then Zpos m2 * 2 ^ e2 else Zpos m2 / 2 ^ (- e2)) as <-.
  { destruct (Z.leb_spec 0 e2).
    - rewrite <- Hv. replace (e2 - e1) with (e2 + - e1) by lia. rewrite Z.pow_add_r by lia. rewrite Z.mul_assoc. apply Z.div_mul. lia.
    - rewrite <- Hv. replace (- e1) with (- e2 + (e2 - e1)) by lia. rewrite Z.pow_add_r by lia.
      apply Z.div_mul_cancel_r; apply Z.pow_nonzero; lia. }
  split; [apply Z.div_le_mono; lia |]. etrans; [apply (Z.div_le_mono _ (shr_m r1 + 1 * 2 ^ (- e1))); lia |]. rewrite Z.div_add by lia. lia.
Qed.

Lemma iter_xO m d : Zpos (Pos.iter xO m d) = Zpos m * 2 ^ Zpos d.
Proof.
  induction d as [| d IH] using Pos.peano_ind; [cbn; lia |].
  rewrite Pos.iter_succ, Pos2Z.inj_xO, IH, Pos2Z.inj_succ, Z.pow_succ_r by lia. lia.
Qed.

(** Integers below 2^53 are exact. *)
Lemma of_int_exact p : Zpos p < 2 ^ 53 →
  ∃ m k, of_int (Zpos p) = S754_finite false m (- k) ∧ 0 ≤ k ≤ 52 ∧ Zpos m = Zpos p * 2 ^ k ∧ 2 ^ 52 ≤ Zpos m < 2 ^ 53.
Proof.
  intros Hp. destruct (digits_range p) as [H1 H2]. set (d := Zpos (digits2_pos p)) in *.
  assert (1 ≤ d) by (unfold d; lia). assert (d - 1 < 53) by (apply (Z.pow_lt_mono_r_iff 2); lia).
  assert (∃ m, shl_align p 0 (d - 53) = (m, d - 53) ∧ Zpos m = Zpos p * 2 ^ (53 - d)) as (m & Es & Em).
  { unfold shl_align. rewrite Z.sub_0_r. destruct (d - 53) as [| q | q] eqn:Eq; [| lia |].
    - exists p. replace (53 - d) with 0 by lia. split; [done | lia].
    - exists (Pos.iter xO p q). split; [done |]. rewrite iter_xO. replace (53 - d) with (Zpos q) by lia. done. }
  assert (2 ^ 52 ≤ Zpos m < 2 ^ 53) as Hm.
  { assert (0 < 2 ^ (53 - d)) by (apply Z.pow_pos_nonneg; lia). rewrite Em. split.
    - replace 52 with ((d - 1) + (53 - d)) by lia. rewrite Z.pow_add_r by lia. by apply Z.mul_le_mono_pos_r.
    - replace 53 with (d + (53 - d)) at 2 by lia. rewrite Z.pow_add_r by lia. by apply Z.mul_lt_mono_pos_r. }
  exists m, (53 - d). split_and!; [| lia | lia | done | lia | lia].
  unfold of_int, binary_normalize, binary_round. replace (fexp 53 1024 (Zpos (digits2_pos p) + 0)) with (d - 53) by (unfold fexp, emin; fold d; lia).
  rewrite Es. unfold binary_round_aux, shr_fexp. cbn [Zdigits2 shr_record_of_loc]. rewrite (digits_unique m 53) by lia.
  replace (fexp 53 1024 (53 + (d - 53)) - (d - 53)) with 0 by (unfold fexp, emin; lia). cbn [shr shr_m loc_of_shr_record round_nearest_even Zdigits2].
  rewrite (digits_unique m 53) by lia.
  replace (fexp 53 1024 (53 + (d - 53)) - (d - 53)) with 0 by (unfold fexp, emin; lia). cbn [shr shr_m].
  destruct (Z.leb_spec (d - 53) (1024 - 53)); [| lia]. f_equal. lia.
Qed.

(** Four fifths of an integer, rounded and cut, are four fifths rounded down, or
    one more. *)
Lemma four_fifths p : 0 ≤ p < 2 ^ 50 → p * 4 / 5 ≤ to_int (fmul (of_int p) f0_8) ≤ p * 4 / 5 + 1.
Proof.
  intros Hp. destruct p as [| p |]; [by cbn | | lia].
  destruct (of_int_exact p) as (m & k & -> & Hk & Em & Hm); [lia |]. unfold f0_8. cbn [fmul SFmul xorb].
  set (c := 7205759403792794%positive). replace (- k + -53) with (- (k + 53)) by lia.
  assert (Zpos (m * c) / 2 ^ (k + 53) = Zpos p * 4 / 5) as Ev.
  { rewrite Pos2Z.inj_mul, Em. replace (Zpos p * 2 ^ k * Zpos c) with (Zpos p * Zpos c * 2 ^ k) by lia. rewrite Z.pow_add_r, (Z.mul_comm (2 ^ k)) by lia.
    rewrite Z.div_mul_cancel_r by (apply Z.pow_nonzero; lia).
    pose proof (Z.div_mod (Zpos p * 4) 5) as Hq. pose proof (Z.mod_pos_bound (Zpos p * 4) 5). symmetry.
    apply (Z.div_unique _ _ _ (Zpos p * Zpos c - 2 ^ 53 * (Zpos p * 4 / 5))); [left; unfold c; lia | lia]. }
  assert (2 ^ 104 ≤ Zpos (m * c) < 2 ^ 106) as Hmc by (rewrite Pos2Z.inj_mul; unfold c; lia).
  destruct (Z.lt_ge_cases (Zpos (m * c)) (2 ^ 105)) as [Hlt | Hge].
  - pose proof (round_to_int (m * c) (- (k + 53)) 52) as H. rewrite Z.opp_involutive, Ev in H. apply H; lia.
  - pose proof (round_to_int (m * c) (- (k + 53)) 53) as H. rewrite Z.opp_involutive, Ev in H. apply H; lia.
Qed.
