(* ===== verification/RateSignal.v ===== *)
(** * The rate-limit signal ([server/sentinel_emitter.go], [server/decoy_snapshots.go], [client/ratelimit_*.go])

    A rejected request is answered with the decoy page; the state of the bucket
    travels in the page's Schema.org block, spliced over a placeholder of fixed width,
    and in a header.  The client looks for both.  The template loader, the emitter,
    the detector, the identifier derived from the host ([core/rlpropertyid.go]) and the
    wait the pool takes from a signal. *)

From S2P Require Import Prelude.
From S2P Require Import Float64.
From S2P Require Import Primitives.
From S2P Require Import Session.
From S2P Require Import Json.
From S2P Require Import BrowserWire.
From S2P Require Import Fingerprints.
From Stdlib Require Import SpecFloat.
From stdpp Require Import base list gmap strings.

#[local] Open Scope Z_scope.

(** ** Text helpers ([strings], [bytes], [fmt]) *)

(** Lower case is Unicode's; on ASCII it is what it says. *)
Class LowerCase := { ToLower : bytes → bytes }.
Definition lower_byte (c : Z) : Z := if within 65 c 90 then c + 32 else c.
Class LowerCaseLaws `{LowerCase} := { ToLower_ascii s : is_ascii s → ToLower s = map lower_byte s }.

(** [bytes.Index] *)
Fixpoint Index (sub s : bytes) : option nat :=
  if is_prefix sub s then Some 0%nat else match s with [] => None | _ :: s' => S <$> Index sub s' end.
(** [bytes.Cut], [strings.Cut] *)
Definition Cut (s sep : bytes) : option (bytes * bytes) :=
  match Index sep s with Some i => Some (take i s, drop (i + length sep) s) | None => None end.
(** [strings.Split] at one character *)
Fixpoint Split (c : Z) (s : bytes) : list bytes :=
  match s with
  | [] => [[]]
  | x :: s' => if x =? c then [] :: Split c s' else match Split c s' with w :: ws => (x :: w) :: ws | [] => [[x]] end
  end.
Definition Count (c : Z) (s : bytes) : nat := length (filter (λ x, x = c) s).
Fixpoint LastIndex (c : Z) (s : bytes) : option nat :=
  match s with
  | [] => None
  | x :: s' => match LastIndex c s' with Some i => Some (S i) | None => if x =? c then Some 0%nat else None end
  end.

(** The encodings of Unicode's white space. *)
Definition spaces : list bytes :=
  map (λ c, [c]) [9; 10; 11; 12; 13; 32] ++ [[194; 133]; [194; 160]; [225; 154; 128]]
  ++ map (λ c, [226; 128; c]) [128; 129; 130; 131; 132; 133; 134; 135; 136; 137; 138; 168; 169; 175] ++ [[226; 129; 159]; [227; 128; 128]].
Fixpoint trim_front (fuel : nat) (ws : list bytes) (s : bytes) : bytes :=
  match fuel with
  | O => s
  | S fuel' => match filter (λ w, is_prefix w s = true) ws with w :: _ => trim_front fuel' ws (drop (length w) s) | [] => s end
  end.
Definition TrimSpace (s : bytes) : bytes :=
  let t := trim_front (length s) spaces s in rev (trim_front (length t) (map (@rev Z) spaces) (rev t)).
(** [strings.TrimRight] of one character *)
Fixpoint TrimRight (s : bytes) (c : Z) : bytes :=
  match s with
  | [] => []
  | x :: s' => match TrimRight s' c with [] => if x =? c then [] else [x] | t => x :: t end
  end.
Definition TrimSuffix (s : bytes) (c : Z) : bytes :=
  match rev s with x :: t => if x =? c then rev t else s | [] => s end.

(** [%d], and [%0wd] of a number that is not negative *)
Definition fmt_d (n : Z) : bytes := if n <? 0 then 45 :: decimal 20 (- n) else decimal 20 n.
Definition fmt_0d (w : nat) (n : Z) : bytes := let d := decimal 20 n in replicate (w - length d) 48 ++ d.

(** [int(d.Seconds())] *)
Definition seconds (d : Z) : Z :=
  to_int (fadd (of_int (Z.quot d Second)) (fdiv (of_int (Z.rem d Second)) (of_int 1000000000))).

(** ** The identifier of a host ([core/rlpropertyid.go]) *)

Definition LegacyRLPropertyID : bytes := str "rl-state".
Definition rlPropertyIDContext : bytes := str "shadowlink/rl-propertyid/v1".
Definition rlPropertyIDShapes : list (string * nat * Z) :=
  [("sku-", 3%nat, 1000); ("item-", 3%nat, 1000); ("cat-", 2%nat, 100); ("ref-", 3%nat, 1000); ("pid-", 3%nat, 1000); ("prod-", 2%nat, 100);
   ("asset-", 3%nat, 1000); ("variant-", 2%nat, 100); ("listing-", 3%nat, 1000); ("catalog-", 2%nat, 100); ("inv-", 3%nat, 1000); ("model-", 3%nat, 1000)]%string.

Section host.
Context `{LowerCase} `{KDF}.

Definition NormalizeRLHost (host : bytes) : bytes :=
  let h := TrimSpace (ToLower host) in
  if len h =? 0 then []
  else if is_prefix [91] h then
    match Index [93] h with
    | Some (S e) => take e (drop 1 h)
    | _ => drop 1 h
    end
  else
    let h := if (Count 58 h =? 1)%nat then match LastIndex 58 h with Some (S i) => take (S i) h | _ => h end else h in
    TrimSuffix h 46.

Definition SignalHost (sniOverride dialAddr : bytes) : bytes :=
  if negb (len sniOverride =? 0) then sniOverride
  else if len dialAddr =? 0 then []
  else let h := NormalizeRLHost dialAddr in if negb (len h =? 0) then h else dialAddr.

Definition DeriveRLPropertyID (host : bytes) : bytes :=
  let h := NormalizeRLHost host in
  if len h =? 0 then LegacyRLPropertyID else
  let sum := hmac256 rlPropertyIDContext h in
  let at_ i := nth i sum 0 in
  let '(word, width, m) := nth (Z.to_nat (at_ 0%nat mod 12)) rlPropertyIDShapes (""%string, 0%nat, 1) in
  str word ++ fmt_0d width (Z.lor (Z.shiftl (at_ 1%nat) 8) (at_ 2%nat) mod m).
End host.

(** ** The server's side *)

Record RLSentinel := mkSentinel { sn_Bucket : bytes; sn_BurstLeft : Z; sn_RefillIn : Z; sn_Exempt : Z }.

Definition RLStateValueWidth : Z := 80.
Definition maxDecoyFileSize : Z := 256 * 1024.

Definition state_core (sig : RLSentinel) : bytes :=
  str "v1;bucket=" ++ sn_Bucket sig ++ str ";refill_in=" ++ fmt_d (seconds (sn_RefillIn sig))
  ++ str ";burst_left=" ++ fmt_d (sn_BurstLeft sig) ++ str ";exempt=" ++ fmt_d (sn_Exempt sig).

(** [strings.Repeat] panics on a negative count. *)
Definition padToWidth (s : bytes) (width : Z) : outcome bytes :=
  if len s =? width then Ret s
  else if width <? len s then Panic
  else Ret (s ++ replicate (Z.to_nat (width - len s)) 59).

Definition MakeBaselineValue : outcome bytes := padToWidth (str "v1;bucket=none;refill_in=0;burst_left=100;exempt=0") RLStateValueWidth.

Definition FormatRLStateValue (sig : RLSentinel) : outcome bytes :=
  let core := state_core sig in
  if RLStateValueWidth <? len core then Err "state string exceeds RLStateValueWidth" else padToWidth core RLStateValueWidth.

Definition formatRLStateHeader (sig : RLSentinel) : bytes := TrimRight (state_core sig) 59.

(** [writeRateLimitSentinelV2], the value. *)
Definition legacy_header (info : RLSentinel) : bytes :=
  str "bucket=" ++ sn_Bucket info ++ str ",burst_left=" ++ fmt_d (sn_BurstLeft info)
  ++ str ",refill_in=" ++ fmt_d (seconds (sn_RefillIn info)) ++ str "s,exempt=" ++ fmt_d (sn_Exempt info).

Record DecoySnapshot := mkSnapshot { HTML : bytes; IdentifierValueOffset : Z; IdentifierValueLength : Z; PropertyID : bytes }.

(** The block both sides decode: the identifier object, once it was seen. *)
Record jsonLDIdentifier := mkIdent { id_Type : bytes; id_PropertyID : bytes; id_Value : bytes }.
Definition dec_ident_field (t : jsonLDIdentifier) (k : bytes) (v : json) : option jsonLDIdentifier :=
  if key_is "@type" k then s ← dec_string (id_Type t) v; Some (mkIdent s (id_PropertyID t) (id_Value t))
  else if key_is "propertyID" k then s ← dec_string (id_PropertyID t) v; Some (mkIdent (id_Type t) s (id_Value t))
  else if key_is "value" k then s ← dec_string (id_Value t) v; Some (mkIdent (id_Type t) (id_PropertyID t) s)
  else Some t.
Definition dec_block_field (b : option jsonLDIdentifier) (k : bytes) (v : json) : option (option jsonLDIdentifier) :=
  if key_is "identifier" k then
    match v with JNull => Some None | _ => t ← dec_struct dec_ident_field (default (mkIdent [] [] []) b) v; Some (Some t) end
  else Some b.
Definition dec_block (s : bytes) : option (option jsonLDIdentifier) := v ← parse s; dec_struct dec_block_field None v.

Section server.
Context `{LowerCase}.

(** Where the content of the first such script begins. *)
Fixpoint script_content (fuel : nat) (lower : bytes) (pos : nat) : option nat :=
  match fuel with
  | O => None
  | S fuel' =>
    match Index (str "<script") (drop pos lower) with
    | None => None
    | Some idx =>
      let tagStart := (pos + idx)%nat in
      match Index [62] (drop tagStart lower) with
      | None => None
      | Some closeAngle =>
        let tagEnd := (tagStart + closeAngle)%nat in
        if Contains (take (closeAngle + 1) (drop tagStart lower)) (str "application/ld+json") then Some (tagEnd + 1)%nat
        else script_content fuel' lower (tagEnd + 1)
      end
    end
  end.

Definition findJSONLDScriptContent (html : bytes) : outcome (option bytes) :=
  let lower := ToLower html in
  match script_content (S (length lower)) lower 0 with
  | None => Ret None
  | Some i => s ← slice html (Z.of_nat i) (len html); Ret (Some s)
  end.

Definition findIdentifierValueOffset (html : bytes) : outcome (option (Z * Z * bytes)) :=
  script ← findJSONLDScriptContent html;
  match script with
  | None => Ret None
  | Some scriptStart =>
    let scriptContentStart := len html - len scriptStart in
    match Cut scriptStart (str "</script>") with
    | None => Ret None
    | Some (jsonContent, _) =>
      match dec_block (TrimSpace jsonContent) with
      | Some (Some ident) =>
        if negb (bytes_eqb (id_Type ident) (str "PropertyValue")) then Ret None
        else if len (id_PropertyID ident) =? 0 then Ret None
        else if negb (len (id_Value ident) =? RLStateValueWidth) then Ret None
        else match Index (id_Value ident) jsonContent with
             | None => Ret None
             | Some i => Ret (Some (scriptContentStart + Z.of_nat i, RLStateValueWidth, id_PropertyID ident))
             end
      | _ => Ret None
      end
    end
  end.

(** [read]: the file of a relative path. *)
Fixpoint LoadDecoySnapshots (read : bytes → option bytes) (paths : list bytes) (result : gmap bytes DecoySnapshot) : outcome (gmap bytes DecoySnapshot) :=
  match paths with
  | [] => Ret result
  | relPath :: paths' =>
    match read relPath with
    | None => Err "cannot read file"
    | Some data =>
      if maxDecoyFileSize <? len data then Err "file size exceeds limit" else
      found ← findIdentifierValueOffset data;
      match found with
      | None => Err "Schema.org JSON-LD baseline validation failed"
      | Some (offset, length, propertyID) => LoadDecoySnapshots read paths' (<[relPath := mkSnapshot data offset length propertyID]> result)
      end
    end
  end.
End server.

(** A response being written. *)
Record writer := mkWriter { w_header : gmap string bytes; w_status : option Z; w_body : bytes }.
Record emit_metrics := mkEmitted { em_sentinels : Z; em_byBody : Z; em_bodyMissing : Z }.

(** [snapshots]: a nil map has no entries. *)
Definition Emit (snapshots : gmap bytes DecoySnapshot) (m : emit_metrics) (w : writer) (sig : RLSentinel) (snapshotKey : bytes)
  : outcome (bool * writer * emit_metrics) :=
  let key := if len snapshotKey =? 0 then str "index.html" else snapshotKey in
  let w1 := mkWriter (<["X-SL-RL"%string := formatRLStateHeader sig]> (w_header w)) (w_status w) (w_body w) in
  let m1 := mkEmitted (u64 (em_sentinels m + 1)) (em_byBody m) (em_bodyMissing m) in
  let missing := mkEmitted (em_sentinels m1) (em_byBody m1) (u64 (em_bodyMissing m1 + 1)) in
  match snapshots !! key with
  | None => Ret (false, w1, missing)
  | Some snap =>
    if len (HTML snap) =? 0 then Ret (false, w1, missing) else
    match FormatRLStateValue sig with
    | Panic => Panic
    | Err _ => Ret (false, w1, missing)
    | Ret bodyVal =>
      front ← slice (HTML snap) 0 (IdentifierValueOffset snap);
      back ← slice (HTML snap) (IdentifierValueOffset snap + IdentifierValueLength snap) (len (HTML snap));
      let body := front ++ bodyVal ++ back in
      let h := <["Content-Length"%string := fmt_d (len body)]> (<["Content-Type"%string := str "text/html; charset=utf-8"]> (w_header w1)) in
      Ret (true, mkWriter h (Some 200) (w_body w1 ++ body), mkEmitted (em_sentinels m1) (u64 (em_byBody m1 + 1)) (em_bodyMissing m1))
    end
  end.

(** [failClosedToDecoyRateLimitedV2]: with an emitter ([Some] snapshots) and without;
    [decoy] is the handler of the ordinary page. *)
Definition failClosedToDecoyRateLimitedV2 (emitter : option (gmap bytes DecoySnapshot)) (decoy : writer → writer) (m : emit_metrics) (w : writer) (info : RLSentinel)
  : outcome (writer * emit_metrics) :=
  match emitter with
  | Some snapshots =>
    '(complete, w1, m1) ← Emit snapshots m w info [];
    Ret ((if complete : bool then w1 else decoy w1), m1)
  | None =>
    let w1 := mkWriter (<["X-SL-RL"%string := legacy_header info]> (w_header w)) (w_status w) (w_body w) in
    Ret (decoy w1, mkEmitted (u64 (em_sentinels m + 1)) (em_byBody m) (em_bodyMissing m))
  end.

Inductive DecoyReason := RateLimitSoftLimit | RateLimitWSUpgrade | RateLimitHandshake | RateLimitData | Unspecified.
Definition decoyReasonForRLSentinel (info : RLSentinel) : DecoyReason :=
  if sn_Exempt info =? 1 then RateLimitSoftLimit
  else if bytes_eqb (sn_Bucket info) (str "ws_upgrade") then RateLimitWSUpgrade
  else if bytes_eqb (sn_Bucket info) (str "handshake") then RateLimitHandshake
  else if bytes_eqb (sn_Bucket info) (str "data") then RateLimitData
  else Unspecified.

(** ** The client's side *)

Record RateLimitSignal := mkSignal { sg_Bucket : bytes; sg_RefillIn : Z; sg_BurstLeft : Z; sg_Exempt : bool; sg_Carrier : string }.

Definition get (found : gmap bytes bytes) (k : string) : bytes := default [] (found !! str k).
Definition int_field (v : bytes) (old : Z) : Z := if len v =? 0 then old else match Atoi v with Some n => n | None => old end.

(** One field of the semicolon form. *)
Definition value_field (found : gmap bytes bytes) (kv : bytes) : gmap bytes bytes :=
  let kv := TrimSpace kv in
  if len kv =? 0 then found else
  match Cut kv [61] with
  | None => if is_prefix (str "v") kv then <[str "v" := drop 1 kv]> found else found
  | Some (k, v) => <[k := v]> found
  end.

Definition signal_of (found : gmap bytes bytes) (refill : bytes) : option RateLimitSignal :=
  let bucket := get found "bucket" in
  if (len bucket =? 0) || bytes_eqb bucket (str "none") then None
  else Some (mkSignal bucket (i64 (int_field refill 0 * Second)) (int_field (get found "burst_left") (-1))
               (bytes_eqb (get found "exempt") (str "1")) "").

Definition parseRLStateValue (s : bytes) : option RateLimitSignal :=
  let found := foldl value_field ∅ (Split 59 s) in
  match found !! str "v" with
  | Some v => if bytes_eqb v (str "1") then signal_of found (get found "refill_in") else None
  | None => None
  end.

Definition legacy_field (found : gmap bytes bytes) (kv : bytes) : gmap bytes bytes :=
  match Cut (TrimSpace kv) [61] with Some (k, v) => <[k := v]> found | None => found end.
Definition parseRLStateLegacyHeader (s : bytes) : option RateLimitSignal :=
  let found := foldl legacy_field ∅ (Split 44 s) in
  let refill := get found "refill_in" in
  signal_of found (if len refill =? 0 then [] else TrimSuffix refill 115).

Definition with_carrier (c : string) (s : RateLimitSignal) : RateLimitSignal :=
  mkSignal (sg_Bucket s) (sg_RefillIn s) (sg_BurstLeft s) (sg_Exempt s) c.

(** [jsonLDRe] at the front of [s]: the group and what follows the match.  Neither
    a [>] in the tag nor a [<] in the group can be skipped, so the match is unique. *)
Definition match_here (s : bytes) : option (bytes * bytes) :=
  t ← strip (str "<script") s;
  i ← Index [62] t;
  if Contains (take i t) (str "type=" ++ [34] ++ str "application/ld+json" ++ [34]) then
    let r := drop (S i) t in
    j ← Index [60] r;
    let group := take j r in
    if is_prefix [123] group && is_prefix [125] (rev group) && (3 <=? len group)
    then rest ← strip (str "</script>") (drop j r); Some (group, rest) else None
  else None.
(** [FindAllSubmatch] *)
Fixpoint find_all (fuel : nat) (s : bytes) : list bytes :=
  match fuel with
  | O => []
  | S fuel' =>
    match match_here s with
    | Some (group, rest) => group :: find_all fuel' rest
    | None => match s with [] => [] | _ :: s' => find_all fuel' s' end
    end
  end.

Section client.
Context `{LowerCase} `{KDF}.

Definition acceptsPropertyID (id host : bytes) : bool :=
  if len id =? 0 then false
  else if bytes_eqb id LegacyRLPropertyID then true
  else negb (len host =? 0) && bytes_eqb id (DeriveRLPropertyID host).

Definition group_signal (host group : bytes) : option RateLimitSignal :=
  match dec_block group with
  | Some (Some ident) =>
    if negb (bytes_eqb (id_Type ident) (str "PropertyValue")) then None
    else if negb (acceptsPropertyID (id_PropertyID ident) host) then None
    else parseRLStateValue (id_Value ident)
  | _ => None
  end.
Fixpoint first_signal (host : bytes) (groups : list bytes) : option RateLimitSignal :=
  match groups with [] => None | g :: groups' => match group_signal host g with Some s => Some s | None => first_signal host groups' end end.

Definition BodyMarker_Detect (body host : bytes) : option RateLimitSignal :=
  let head := if 4096 <? len body then take 4096 body else body in
  first_signal host (find_all (S (length head)) head).

(** [v]: the value of [X-SL-RL], empty when there is none. *)
Definition Header_Detect (v : bytes) : option RateLimitSignal :=
  if len v =? 0 then None else
  match (if Contains v [59] && is_prefix (str "v") v then parseRLStateValue v else None) with
  | Some s => Some (with_carrier "header_v1" s)
  | None => with_carrier "header_legacy" <$> parseRLStateLegacyHeader v
  end.

(** The counters of the detector: all detections, and those of the two paths. *)
Record det_counters := mkDet { dc_body : Z; dc_header : Z; dc_body_hs : Z; dc_body_ws : Z; dc_header_hs : Z; dc_header_ws : Z }.

Definition incPathCounter (d : det_counters) (body : bool) (path : string) : det_counters :=
  let hs := if bool_decide (path = "handshake"%string) then 1 else 0 in
  let ws := if bool_decide (path = "ws_upgrade"%string) then 1 else 0 in
  if body then mkDet (dc_body d) (dc_header d) (u64 (dc_body_hs d + hs)) (u64 (dc_body_ws d + ws)) (dc_header_hs d) (dc_header_ws d)
  else mkDet (dc_body d) (dc_header d) (dc_body_hs d) (dc_body_ws d) (u64 (dc_header_hs d + hs)) (u64 (dc_header_ws d + ws)).

Definition count_body (d : det_counters) (path : string) : det_counters :=
  incPathCounter (mkDet (u64 (dc_body d + 1)) (dc_header d) (dc_body_hs d) (dc_body_ws d) (dc_header_hs d) (dc_header_ws d)) true path.
Definition count_header (d : det_counters) (path : string) : det_counters :=
  incPathCounter (mkDet (dc_body d) (u64 (dc_header d + 1)) (dc_body_hs d) (dc_body_ws d) (dc_header_hs d) (dc_header_ws d)) false path.

Definition DetectCarriersOnly (d : det_counters) (header body host : bytes) (path : string) : option RateLimitSignal * det_counters :=
  match BodyMarker_Detect body host with
  | Some s => (Some (with_carrier "body" s), count_body d path)
  | None =>
    match Header_Detect header with
    | Some s => (Some s, count_header d path)
    | None => (None, d)
    end
  end.
End client.

(** ** The wait of a slot ([client/ws_pool.go], [client/jitter.go]) *)

Definition rateLimitRefillFloor : Z := 5 * Second.
Definition rateLimitRefillCeil : Z := 30 * (60 * Second).
Definition clampRefillIn (d : Z) : Z :=
  if d <? rateLimitRefillFloor then rateLimitRefillFloor else if rateLimitRefillCeil <? d then rateLimitRefillCeil else d.

(** [u]: the draw of [rand.Float64]. *)
Definition JitteredInterval (base : Z) (jitterFraction u : float64) : Z :=
  if base <=? 0 then 0
  else if fle jitterFraction fzero then base
  else
    let delta := to_int (fmul (fmul (fmul (fsub u f0_5) (of_int 2)) jitterFraction) (of_int base)) in
    let out := i64 (base + delta) in
    if out <? base / 2 then base / 2 else out.

(** The literals 0.6 and 0.3. *)
Definition f0_6 : float64 := S754_finite false 5404319552844595 (-53).
Definition f0_3 : float64 := S754_finite false 5404319552844595 (-54).

Definition slotRateLimitedCooldown (u : float64) : Z :=
  let jitter := fsub (fmul u f0_6) f0_3 in
  to_int (fmul (of_int (180 * Second)) (fadd (of_int 1) jitter)).

(** The cool-down of [reconnectLoop] after a rate-limited answer. *)
Definition rate_cooldown (sig : option RateLimitSignal) (u : float64) : Z :=
  match sig with
  | Some s => if 0 <? sg_RefillIn s then JitteredInterval (clampRefillIn (sg_RefillIn s)) f0_3 u else slotRateLimitedCooldown u
  | None => slotRateLimitedCooldown u
  end.

(** ** Finding text *)

Lemma is_prefix_spec p s : is_prefix p s = true ↔ ∃ r, s = p ++ r.
Proof.
  revert s. induction p as [| a p IH]; intros s; [split; [intros _; by exists s | done] |].
  destruct s as [| b s]; cbn; [split; [done | by intros [r [=]]] |]. rewrite andb_true_iff, IH, Z.eqb_eq. split.
  - intros [-> [r ->]]. by exists r.
  - intros [r [= -> ->]]. split; [done | by exists r].
Qed.

Lemma Contains_spec s sub : Contains s sub = true ↔ ∃ a b, s = a ++ sub ++ b.
Proof.
  induction s as [| x s IH]; cbn; rewrite orb_true_iff, is_prefix_spec.
  - split; [intros [[r ->] | [=]]; by exists [], r |]. intros (a & b & E). symmetry in E. apply app_nil in E as [-> E]. left. by exists b.
  - rewrite IH. split.
    + intros [[r ->] | (a & b & ->)]; [by exists [], r | by exists (x :: a), b].
    + intros (a & b & E). destruct a as [| y a]; [left; by exists b |]. injection E as -> ->. right. by exists a, b.
Qed.

Lemma strip_prefix p s : strip p s = if is_prefix p s then Some (drop (length p) s) else None.
Proof. revert s. induction p as [| a p IH]; intros [| b s]; cbn; try done. by destruct (a =? b); cbn. Qed.

(** A pattern whose first character does not come again cannot straddle the end of a
    text that is followed by that character. *)
Lemma prefix_straddle c t a r : c ∉ t → a ≠ [] → is_prefix (c :: t) (a ++ c :: r) = true → is_prefix (c :: t) a = true.
Proof.
  intros Hc Ha [q E]%is_prefix_spec. apply is_prefix_spec. destruct a as [| x a]; [done |]. cbn in E. injection E as -> E. clear Ha.
  revert a E. induction t as [| y t IH]; intros a E; [by exists a |]. apply not_elem_of_cons in Hc as [Hy Hc].
  destruct a as [| z a]; cbn in E; injection E as -> E; [done |]. destruct (IH Hc a E) as [q' Hq']. exists q'. cbn in *. congruence.
Qed.

Lemma Index_None_cons sub x s : Index sub (x :: s) = None → is_prefix sub (x :: s) = false ∧ Index sub s = None.
Proof. cbn [Index]. destruct (is_prefix sub (x :: s)); [done |]. by destruct (Index sub s). Qed.

Lemma Index_first c t pre rest : c ∉ t → Index (c :: t) pre = None → Index (c :: t) (pre ++ (c :: t) ++ rest) = Some (length pre).
Proof.
  intros Hc. induction pre as [| x pre IH]; intros Hn.
  - change ([] ++ (c :: t) ++ rest) with (c :: (t ++ rest)). cbn [Index length]. by rewrite (proj2 (is_prefix_spec (c :: t) (c :: t ++ rest))) by by exists rest.
  - apply Index_None_cons in Hn as [Hp Hn]. change ((x :: pre) ++ (c :: t) ++ rest) with (x :: (pre ++ (c :: t) ++ rest)). cbn [Index length].
    destruct (is_prefix (c :: t) (x :: (pre ++ (c :: t) ++ rest))) eqn:E; [| by rewrite IH].
    change (x :: (pre ++ (c :: t) ++ rest)) with ((x :: pre) ++ c :: (t ++ rest)) in E. apply prefix_straddle in E; [congruence | done | done].
Qed.

Lemma Index_absent c t s : c ∉ s → Index (c :: t) s = None.
Proof.
  induction s as [| x s IH]; intros H; [done |]. apply not_elem_of_cons in H as [Hx H]. cbn [Index is_prefix]. rewrite (proj2 (Z.eqb_neq c x)) by done. cbn. by rewrite IH.
Qed.

(** ** Trimming and splitting *)

Lemma filter_all_out {A} (P : A → Prop) `{!∀ x, Decision (P x)} l : Forall (λ x, ¬ P x) l → filter P l = [].
Proof. induction 1 as [| x l Hx Hl IH]; [done |]. by rewrite filter_cons_False. Qed.

Lemma trim_front_id n ws c t : Forall (λ w, match w with x :: _ => x ≠ c | [] => False end) ws → trim_front n ws (c :: t) = c :: t.
Proof.
  intros H. destruct n; [done |]. cbn [trim_front]. rewrite filter_all_out; [done |]. eapply Forall_impl; [exact H |]. intros [| x w]; [done |]. cbn. intros Hx. by rewrite (proj2 (Z.eqb_neq x c)).
Qed.

Lemma TrimSpace_id s c t d t' : s = c :: t → s = t' ++ [d] → 33 ≤ c < 128 → 33 ≤ d < 128 → TrimSpace s = s.
Proof.
  intros E1 E2 Hc Hd. unfold TrimSpace. rewrite E1, trim_front_id, <- E1 by (unfold spaces; cbn; repeat (constructor; [lia |]); constructor).
  rewrite E2 at 2. rewrite rev_app_distr. cbn [rev app]. rewrite trim_front_id by (unfold spaces; cbn; repeat (constructor; [lia |]); constructor).
  rewrite E2. change (d :: rev t') with ([d] ++ rev t'). by rewrite rev_app_distr, rev_involutive.
Qed.

Definition visible (c : Z) : Prop := 33 ≤ c < 128.

Lemma TrimSpace_visible s : Forall visible s → TrimSpace s = s.
Proof.
  intros H. destruct s as [| c t]; [done |]. destruct (exists_last (l := c :: t) ltac:(done)) as (t' & d & E).
  apply (TrimSpace_id _ c t d t'); try done; [by inversion H |]. rewrite E in H. apply Forall_app in H as [_ H]. by inversion H.
Qed.

Lemma Split_cons c a s : c ∉ a → Split c (a ++ c :: s) = a :: Split c s.
Proof.
  induction a as [| x a IH]; intros H; cbn [app Split]; [by rewrite Z.eqb_refl |]. apply not_elem_of_cons in H as [Hx H]. rewrite (proj2 (Z.eqb_neq x c)) by done. by rewrite IH.
Qed.
Lemma Split_last c a : c ∉ a → Split c a = [a].
Proof. induction a as [| x a IH]; intros H; [done |]. apply not_elem_of_cons in H as [Hx H]. cbn. rewrite (proj2 (Z.eqb_neq x c)) by done. by rewrite IH. Qed.
Lemma Split_semis n : Split 59 (replicate n 59) = replicate (S n) [].
Proof. induction n as [| n IH]; [done |]. change (replicate (S n) 59) with (59 :: replicate n 59). cbn [Split]. rewrite Z.eqb_refl, IH. done. Qed.

(** ** Reading a state back *)

Definition label_char (c : Z) : bool := within 97 c 122 || within 48 c 57 || (c =? 95).

(** A sentinel the code can make: a label, numbers of 64 bits. *)
Record sentinel_ok (sig : RLSentinel) : Prop := {
  so_label : forallb label_char (sn_Bucket sig) = true; so_named : sn_Bucket sig ≠ [] ∧ sn_Bucket sig ≠ str "none";
  so_refill : i64_min ≤ seconds (sn_RefillIn sig) ≤ i64_max; so_burst : i64_min ≤ sn_BurstLeft sig ≤ i64_max; so_exempt : i64_min ≤ sn_Exempt sig ≤ i64_max;
}.

(** What the client should make of it. *)
Definition announced (sig : RLSentinel) (carrier : string) : RateLimitSignal :=
  mkSignal (sn_Bucket sig) (i64 (seconds (sn_RefillIn sig) * Second)) (sn_BurstLeft sig) (sn_Exempt sig =? 1) carrier.

(** The characters of a state: none needs an escape, and [;], [=] and [,] only separate. *)
Definition token_char (c : Z) : Prop := label_char c = true ∨ c = 45.

Lemma token_visible c : token_char c → visible c ∧ c ≠ 59 ∧ c ≠ 61 ∧ c ≠ 44.
Proof. unfold token_char, label_char, within, visible. lia. Qed.

Lemma token_not_in s c : Forall token_char s → c = 59 ∨ c = 61 ∨ c = 44 → c ∉ s.
Proof. intros H Hc Hin. rewrite Forall_forall in H. apply H, token_visible in Hin. lia. Qed.

Lemma label_tokens s : forallb label_char s = true → Forall token_char s.
Proof. intros H. apply Forall_forall. intros c Hc%list_elem_of_In. left. by eapply forallb_forall in H. Qed.

Lemma fmt_d_tokens n : i64_min ≤ n ≤ i64_max → Forall token_char (fmt_d n) ∧ fmt_d n ≠ [].
Proof.
  unfold i64_min, i64_max. intros Hn. assert (∀ m, 0 ≤ m → Forall token_char (decimal 20 m)) as H.
  { intros m Hm. pose proof (digits_all 20 m Hm) as Hd. apply Forall_forall. intros c Hc%list_elem_of_In. left. eapply forallb_forall in Hd; [| exact Hc]. unfold is_dig in Hd. unfold label_char. rewrite Hd. by destruct (within 97 c 122). }
  unfold fmt_d. destruct (Z.ltb_spec n 0); [split; [constructor; [by right | apply H; lia] | done] |]. split; [apply H; lia |].
  pose proof (decimal_int 19 n) as Hi. change (Z.of_nat 20) with 20 in Hi. specialize (Hi ltac:(lia)). intros E. by rewrite E in Hi.
Qed.

Lemma Atoi_fmt_d n : i64_min ≤ n ≤ i64_max → Atoi (fmt_d n) = Some n.
Proof.
  intros Hn. pose proof Hn as Hn'. unfold i64_min, i64_max in Hn'. unfold fmt_d, Atoi.
  assert (∀ m, 0 ≤ m < 10 ^ 20 → decimal 20 m ≠ [] ∧ forallb is_dig (decimal 20 m) = true ∧ undecimal (decimal 20 m) = m) as H.
  { intros m Hm. split_and!; [| apply digits_all; lia | apply decimal_value; change (Z.of_nat 20) with 20; lia]. pose proof (decimal_int 19 m) as Hi. change (Z.of_nat 20) with 20 in Hi. specialize (Hi ltac:(lia)). intros E. by rewrite E in Hi. }
  destruct (Z.ltb_spec n 0).
  - destruct (H (- n) ltac:(lia)) as (H1 & H2 & H3). cbn [Z.eqb Pos.eqb]. rewrite H2, H3. destruct (decimal 20 (- n)); [done |]. rewrite (proj2 (Z.eqb_neq _ 0)) by (unfold len; cbn; lia). cbn [orb negb]. unfold within, i64_min, i64_max. rewrite !(proj2 (Z.leb_le _ _)) by lia. cbn. f_equal. lia.
  - destruct (H n ltac:(lia)) as (H1 & H2 & H3). destruct (decimal 20 n) as [| c r]; [done |]. assert (is_dig c = true) as Hc by by apply andb_true_iff in H2 as [? _].
    assert (c ≠ 45 ∧ c ≠ 43) as [Hc1 Hc2] by (unfold is_dig, within in Hc; lia). rewrite (proj2 (Z.eqb_neq c 45)), (proj2 (Z.eqb_neq c 43)) by done. rewrite H2, H3.
    rewrite (proj2 (Z.eqb_neq _ 0)) by (unfold len; cbn; lia). cbn [orb negb]. unfold within, i64_min, i64_max. by rewrite !(proj2 (Z.leb_le _ _)) by lia.
Qed.

Lemma fmt_d_is_one n : i64_min ≤ n ≤ i64_max → bytes_eqb (fmt_d n) (str "1") = (n =? 1).
Proof.
  intros Hn. unfold bytes_eqb. case_bool_decide as E.
  - pose proof (Atoi_fmt_d n Hn) as Ha. rewrite E in Ha. vm_compute in Ha. injection Ha as <-. done.
  - symmetry. apply Z.eqb_neq. intros ->. done.
Qed.

Lemma int_field_fmt n old : i64_min ≤ n ≤ i64_max → int_field (fmt_d n) old = n.
Proof.
  intros Hn. unfold int_field. destruct (fmt_d_tokens n Hn) as [_ Hne]. destruct (fmt_d n) eqn:E; [done |]. rewrite <- E, Atoi_fmt_d by done.
  rewrite (proj2 (Z.eqb_neq _ 0)); [done |]. rewrite E. unfold len. cbn. lia.
Qed.

(** A field [key=value]. *)
Lemma Cut_field k v : 61 ∉ k → Cut (k ++ 61 :: v) [61] = Some (k, v).
Proof.
  intros Hk. unfold Cut. change (61 :: v) with ([61] ++ v). rewrite (Index_first 61 []) by (by apply not_elem_of_nil || by apply Index_absent).
  cbn [length]. rewrite take_app_length, Nat.add_comm. cbn. f_equal. f_equal. clear. induction k as [| x k IH]; [done | exact IH].
Qed.

Lemma field_visible k v : Forall visible k → Forall token_char v → Forall visible (k ++ 61 :: v).
Proof. intros Hk Hv. apply Forall_app. split; [done |]. constructor; [unfold visible; lia |]. eapply Forall_impl; [exact Hv |]. intros c Hc. by apply token_visible. Qed.

Lemma value_field_pair found k v : Forall visible k → k ≠ [] → 61 ∉ k → Forall token_char v → value_field found (k ++ 61 :: v) = <[k := v]> found.
Proof.
  intros Hk Hne He Hv. unfold value_field. rewrite TrimSpace_visible by by apply field_visible. rewrite (proj2 (Z.eqb_neq _ 0)), Cut_field by (done || (unfold len; rewrite length_app; cbn; lia)). done.
Qed.
Lemma legacy_field_pair found k v : Forall visible k → 61 ∉ k → Forall token_char v → legacy_field found (k ++ 61 :: v) = <[k := v]> found.
Proof. intros Hk He Hv. unfold legacy_field. by rewrite TrimSpace_visible, Cut_field by (done || by apply field_visible). Qed.

Lemma absent c s : forallb (λ x, negb (x =? c)) s = true → c ∉ s.
Proof. intros H Hin%list_elem_of_In. eapply forallb_forall in H; [| exact Hin]. apply negb_true_iff, Z.eqb_neq in H. done. Qed.
Lemma visible_check s : forallb (λ x, within 33 x 127) s = true → Forall visible s.
Proof. intros H. apply Forall_forall. intros c Hc%list_elem_of_In. eapply forallb_forall in H; [| exact Hc]. unfold within in H. unfold visible. lia. Qed.
(** Facts about literals. *)
Ltac literal := first [done | apply absent; reflexivity | apply visible_check; reflexivity].

Ltac look_up := repeat first [rewrite lookup_insert_eq | rewrite lookup_insert_ne by (vm_compute; discriminate)].

Lemma len_ne (s : bytes) : s ≠ [] → len s =? 0 = false.
Proof. intros H. apply Z.eqb_neq. unfold len. destruct s; [done |]. cbn. lia. Qed.

Lemma state_fields found sig n : sentinel_ok sig →
  foldl value_field found (Split 59 (state_core sig ++ replicate n 59))
  = <[str "exempt" := fmt_d (sn_Exempt sig)]> (<[str "burst_left" := fmt_d (sn_BurstLeft sig)]> (<[str "refill_in" := fmt_d (seconds (sn_RefillIn sig))]>
      (<[str "bucket" := sn_Bucket sig]> (<[str "v" := str "1"]> found)))).
Proof.
  intros [H1 _ H3 H4 H5]. apply label_tokens in H1. destruct (fmt_d_tokens _ H3) as [T3 _], (fmt_d_tokens _ H4) as [T4 _], (fmt_d_tokens _ H5) as [T5 _].
  assert (∀ k v, 59 ∉ k → Forall token_char v → 59 ∉ k ++ 61 :: v) as Hno.
  { intros k v Hk Hv. rewrite not_elem_of_app, not_elem_of_cons. split_and!; [done | done | apply (token_not_in _ _ Hv); by left]. }
  assert (state_core sig ++ replicate n 59 = str "v1" ++ 59 :: (str "bucket" ++ 61 :: sn_Bucket sig) ++ 59 :: (str "refill_in" ++ 61 :: fmt_d (seconds (sn_RefillIn sig)))
    ++ 59 :: (str "burst_left" ++ 61 :: fmt_d (sn_BurstLeft sig)) ++ 59 :: (str "exempt" ++ 61 :: fmt_d (sn_Exempt sig)) ++ replicate n 59) as ->.
  { unfold state_core. cbn. rewrite <- !app_assoc. cbn. rewrite <- !app_assoc. cbn. rewrite <- !app_assoc. cbn. by rewrite <- ?app_assoc. }
  rewrite Split_cons by literal. rewrite !Split_cons by (apply Hno; [literal | done]).
  assert (Split 59 ((str "exempt" ++ 61 :: fmt_d (sn_Exempt sig)) ++ replicate n 59) = (str "exempt" ++ 61 :: fmt_d (sn_Exempt sig)) :: replicate n []) as ->.
  { assert (59 ∉ str "exempt" ++ 61 :: fmt_d (sn_Exempt sig)) as Hn by (apply Hno; [literal | done]).
    destruct n as [| n]; [rewrite app_nil_r; by apply Split_last |]. change (replicate (S n) 59) with (59 :: replicate n 59). by rewrite Split_cons, Split_semis. }
  cbn [foldl]. change (value_field found (str "v1")) with (<[str "v" := str "1"]> found).
  rewrite !value_field_pair by literal.
  induction n as [| n IH]; [done | exact IH].
Qed.

Lemma parse_state sig n : sentinel_ok sig → parseRLStateValue (state_core sig ++ replicate n 59) = Some (announced sig "").
Proof.
  intros Hs. unfold parseRLStateValue. rewrite state_fields by done. destruct Hs as [_ [H2 H2'] H3 H4 H5].
  unfold signal_of, get. look_up.
  change (bytes_eqb (str "1") (str "1")) with true. cbn iota. cbn [default from_option id].
  rewrite len_ne by done. unfold bytes_eqb at 1. rewrite bool_decide_eq_false_2 by done. cbn [orb].
  rewrite !int_field_fmt, fmt_d_is_one by done. done.
Qed.

Lemma parse_legacy sig : sentinel_ok sig → parseRLStateLegacyHeader (legacy_header sig) = Some (announced sig "").
Proof.
  intros [H1 [H2 H2'] H3 H4 H5]. apply label_tokens in H1. destruct (fmt_d_tokens _ H3) as [T3 N3], (fmt_d_tokens _ H4) as [T4 _], (fmt_d_tokens _ H5) as [T5 _].
  assert (∀ k v, 44 ∉ k → Forall token_char v → 44 ∉ k ++ 61 :: v) as Hno.
  { intros k v Hk Hv. rewrite not_elem_of_app, not_elem_of_cons. split_and!; [done | done | apply (token_not_in _ _ Hv); by right; right]. }
  assert (Forall token_char (fmt_d (seconds (sn_RefillIn sig)) ++ [115])) as T3' by (apply Forall_app; split; [done |]; constructor; [by left | constructor]).
  unfold parseRLStateLegacyHeader.
  assert (legacy_header sig = (str "bucket" ++ 61 :: sn_Bucket sig) ++ 44 :: (str "burst_left" ++ 61 :: fmt_d (sn_BurstLeft sig))
    ++ 44 :: (str "refill_in" ++ 61 :: (fmt_d (seconds (sn_RefillIn sig)) ++ [115])) ++ 44 :: (str "exempt" ++ 61 :: fmt_d (sn_Exempt sig))) as ->.
  { unfold legacy_header. cbn. rewrite <- ?app_assoc. cbn. rewrite <- ?app_assoc. cbn. by rewrite <- ?app_assoc. }
  rewrite !Split_cons by (apply Hno; [literal | done]).
  rewrite Split_last by (apply Hno; [literal | done]). cbn [foldl].
  rewrite !legacy_field_pair by literal.
  unfold signal_of, get. look_up. cbn [default from_option id].
  rewrite !len_ne by (done || by destruct (fmt_d _)).
  assert (TrimSuffix (fmt_d (seconds (sn_RefillIn sig)) ++ [115]) 115 = fmt_d (seconds (sn_RefillIn sig))) as ->.
  { unfold TrimSuffix. rewrite rev_app_distr. cbn. apply rev_involutive. }
  unfold bytes_eqb at 1. rewrite bool_decide_eq_false_2 by done. cbn [orb]. rewrite !int_field_fmt, fmt_d_is_one by done. done.
Qed.

(** ** Templates

    A page with one block, in the compact form of the encoder, as the installer
    writes it. *)

Definition member (kv : bytes * json) : bytes := quote (fst kv) ++ 58 :: print (snd kv).
Definition block (l1 l2 : list (bytes * json)) (pid v : bytes) : json :=
  JObj (l1 ++ (str "identifier", JObj [(str "@type", JStr (str "PropertyValue")); (str "propertyID", JStr pid); (str "value", JStr v)]) :: l2).
Definition ld_tag : bytes := str "<script type=" ++ [34] ++ str "application/ld+json" ++ [34; 62].
Definition page (pre : bytes) (l1 l2 : list (bytes * json)) (pid v post : bytes) : bytes :=
  pre ++ ld_tag ++ print (block l1 l2 pid v) ++ str "</script>" ++ post.

(** The text of the block around the value. *)
Definition block_front (l1 : list (bytes * json)) (pid : bytes) : bytes :=
  123 :: concat (map (λ kv, member kv ++ [44]) l1) ++ quote (str "identifier") ++ str ":{" ++ member (str "@type", JStr (str "PropertyValue")) ++ [44]
  ++ member (str "propertyID", JStr pid) ++ [44] ++ quote (str "value") ++ [58; 34].
Definition block_back (l2 : list (bytes * json)) : bytes := [34; 125] ++ concat (map (λ kv, 44 :: member kv) l2) ++ [125].

Definition plain_value (v : bytes) : Prop := Forall (λ c, token_char c ∨ c = 59 ∨ c = 61) v.

Lemma plain_quote v : plain_value v → is_ascii v ∧ quote v = 34 :: v ++ [34].
Proof.
  intros H. assert (is_ascii v ∧ Forall (λ c, esc c = [c]) v) as [Ha He].
  { split; (eapply Forall_impl; [exact H |]); intros c Hc; unfold token_char, label_char, within in Hc; cbv beta; [lia |].
    unfold esc, quote_step. rewrite (proj2 (Z.ltb_lt c 128)) by lia. cbn [fst].
    repeat match goal with |- context [if ?b then _ else _] => destruct b eqn:?; [exfalso; lia |] end. done. }
  split; [done |]. unfold quote. do 2 f_equal. clear H. induction v as [| c v IH]; [done |]. inversion Ha as [| ? ? Hc Ha']; inversion He as [| ? ? Ec He']; subst.
  cbn [length quote_chars]. rewrite quote_step_ascii, Ec by done. cbn [drop app]. by rewrite drop_0, IH.
Qed.

Lemma commas_cons x l : commas (x :: l) = x ++ concat (map (λ y, 44 :: y) l).
Proof.
  revert x. induction l as [| y l IH]; intros x; [cbn; by rewrite app_nil_r |]. change (commas (x :: y :: l)) with (x ++ 44 :: commas (y :: l)). by rewrite IH.
Qed.
Lemma commas_mid l1 x l2 : commas (l1 ++ x :: l2) = concat (map (λ y, y ++ [44]) l1) ++ x ++ concat (map (λ y, 44 :: y) l2).
Proof.
  induction l1 as [| y l1 IH]; cbn [app map concat]; [apply commas_cons |]. rewrite <- !app_assoc, <- IH. destruct (l1 ++ x :: l2) eqn:E; [by destruct l1 |]. done.
Qed.

Lemma print_block l1 l2 pid v : plain_value v → print (block l1 l2 pid v) = block_front l1 pid ++ v ++ block_back l2.
Proof.
  intros Hv. unfold block, block_front, block_back. cbn [print]. change (λ kv : bytes * json, quote kv.1 ++ 58 :: print kv.2) with member. rewrite map_app. cbn [map].
  rewrite commas_mid, !map_map. unfold member at 2. cbn [fst snd print map]. change (λ kv : bytes * json, quote kv.1 ++ 58 :: print kv.2) with member.
  cbn [commas]. unfold member at 4. cbn [fst snd print]. rewrite (proj2 (plain_quote v Hv)). unfold member. cbn [fst snd print app]. rewrite <- !app_assoc. cbn [app]. f_equal. rewrite <- !app_assoc. cbn [app].
  repeat (f_equal; rewrite <- ?app_assoc; cbn [app]).
Qed.

(** The encoder writes no [<]. *)
Lemma esc_no_lt c : 0 ≤ c < 128 → 60 ∉ esc c.
Proof.
  intros Hc. assert (60 ∉ u_escape c) as Hu.
  { unfold u_escape. assert (∀ v, 0 ≤ v < 16 → 60 ≠ hex_digit v) as Hx by (intros v Hv; unfold hex_digit; destruct (v <? 10) eqn:E; lia).
    rewrite !not_elem_of_cons. split_and!; try lia; try (apply Hx; Z.to_euclidean_division_equations; lia). apply not_elem_of_nil. }
  unfold esc, quote_step. rewrite (proj2 (Z.ltb_lt c 128)) by lia. cbn [fst].
  repeat match goal with |- context [if ?b then _ else _] => destruct b eqn:?; [solve [exact Hu | rewrite !not_elem_of_cons; split_and!; (lia || apply not_elem_of_nil)] |] end.
  rewrite !not_elem_of_cons; split_and!; (lia || apply not_elem_of_nil).
Qed.

Lemma quote_no_lt s : is_ascii s → 60 ∉ quote s.
Proof.
  intros Hs. unfold quote. rewrite not_elem_of_cons, not_elem_of_app. split_and!; [done | | by apply (absent 60 [34])].
  induction Hs as [| c s Hc Hs IH]; [apply not_elem_of_nil |]. cbn [length quote_chars]. rewrite quote_step_ascii by done. cbn [drop]. rewrite drop_0, not_elem_of_app. split; [by apply esc_no_lt | exact IH].
Qed.

Lemma commas_no_lt l : Forall (λ s, 60 ∉ s) l → 60 ∉ commas l.
Proof.
  intros H. destruct l as [| x l]; [apply not_elem_of_nil |]. inversion_clear H as [| ? ? Hx Hl]. rewrite commas_cons, not_elem_of_app. split; [done |].
  induction Hl as [| y l Hy Hl IH]; [apply not_elem_of_nil |]. cbn [map concat]. rewrite not_elem_of_app, not_elem_of_cons. split_and!; [done | done | exact IH].
Qed.

Lemma print_no_lt v : json_wf v → 60 ∉ print v.
Proof.
  induction v as [| b | lit | s | l IH | l IH] using json_rec'; intros Hw.
  - by apply absent.
  - destruct b; by apply absent.
  - cbn in *. assert (∀ ds, forallb is_dig ds = true → 60 ∉ ds) as Hd.
    { intros ds H Hin%list_elem_of_In. eapply forallb_forall in H; [| exact Hin]. done. }
    unfold int_lit, int_digits in Hw. destruct lit as [| c r]; [done |]. destruct (Z.eqb_spec c 45) as [-> |]; apply andb_true_iff in Hw as [Hw _]; [rewrite not_elem_of_cons; split; [done |] |]; by apply Hd.
  - by apply quote_no_lt.
  - rewrite wf_arr in Hw. cbn [print]. rewrite not_elem_of_cons, not_elem_of_app. split_and!; [done | | by apply absent]. apply commas_no_lt, Forall_map.
    rewrite Forall_forall in *. intros x Hx. by apply IH, Hw.
  - rewrite wf_obj in Hw. cbn [print]. rewrite not_elem_of_cons, not_elem_of_app. split_and!; [done | | by apply absent]. apply commas_no_lt, Forall_map.
    rewrite Forall_forall in *. intros [k x] Hx. destruct (Hw _ Hx) as [Hk Hv]. cbn [fst snd] in *. rewrite not_elem_of_app, not_elem_of_cons. split_and!; [by apply quote_no_lt | done | by apply (IH _ Hx)].
Qed.

(** ** What both sides read in a template *)

Record template_ok (pre : bytes) (l1 l2 : list (bytes * json)) (pid base post : bytes) : Prop := {
  tm_ascii : is_ascii pre ∧ is_ascii post;
  tm_first : Index (str "<script") (map lower_byte pre) = None;
  tm_members : Forall (λ kv : bytes * json, is_ascii (fst kv) ∧ json_wf (snd kv) ∧ key_is "identifier" (fst kv) = false) (l1 ++ l2);
  tm_depth v : (jdepth (block l1 l2 pid v) ≤ maxNestingDepth)%nat;
  tm_pid : is_ascii pid ∧ pid ≠ [];
  tm_base : plain_value base ∧ len base = RLStateValueWidth;
  tm_once : Index base (block_front l1 pid ++ base ++ block_back l2) = Some (length (block_front l1 pid));
}.

Section templates.
Context (pre : bytes) (l1 l2 : list (bytes * json)) (pid base post : bytes) (Htm : template_ok pre l1 l2 pid base post).

Lemma block_wf v : is_ascii v → json_wf (block l1 l2 pid v).
Proof.
  intros Hv. destruct Htm as [_ _ Hm _ [Hp _] _ _]. apply Forall_app in Hm as [Hm1 Hm2]. unfold block. rewrite wf_obj. apply Forall_app. split; [by eapply Forall_impl; [exact Hm1 |]; intros kv (? & ? & _) |].
  constructor; [| by eapply Forall_impl; [exact Hm2 |]; intros kv (? & ? & _)]. split; [by apply str_ascii |]. cbn [snd]. rewrite wf_obj.
  repeat (apply Forall_cons; split; [split; [by apply str_ascii | try done] |]); [by apply (str_ascii "PropertyValue") | done].
Qed.

Lemma skip_members b l : Forall (λ kv : bytes * json, key_is "identifier" (fst kv) = false) l → dec_members dec_block_field b l = Some b.
Proof. induction 1 as [| [k v] l Hk Hl IH]; [done |]. cbn [dec_members]. cbn [fst] in Hk. assert (dec_block_field b k v = Some b) as -> by (unfold dec_block_field; by rewrite Hk). exact IH. Qed.

Lemma dec_members_app {T} (field : T → bytes → json → option T) t l l' : dec_members field t (l ++ l') = t' ← dec_members field t l; dec_members field t' l'.
Proof. revert t. induction l as [| [k v] l IH]; intros t; [done |]. cbn. destruct (field t k v); cbn; [apply IH | done]. Qed.

Lemma dec_block_print v : is_ascii v → dec_block (print (block l1 l2 pid v)) = Some (Some (mkIdent (str "PropertyValue") pid v)).
Proof.
  intros Hv. unfold dec_block. rewrite json_roundtrip by (by apply block_wf || apply Htm). cbn [mbind option_bind]. unfold block, dec_struct.
  destruct Htm as [_ _ Hm _ _ _ _]. apply Forall_app in Hm as [Hm1 Hm2]. rewrite dec_members_app, skip_members by (eapply Forall_impl; [exact Hm1 |]; by intros kv (_ & _ & ?)).
  cbn [mbind option_bind dec_members]. unfold dec_block_field at 2. change (key_is "identifier" (str "identifier")) with true. cbn iota. cbn [default from_option dec_struct dec_members].
  unfold dec_ident_field. change (key_is "@type" (str "@type")) with true. change (key_is "@type" (str "propertyID")) with false. change (key_is "propertyID" (str "propertyID")) with true.
  change (key_is "@type" (str "value")) with false. change (key_is "propertyID" (str "value")) with false. change (key_is "value" (str "value")) with true. cbn.
  apply skip_members. eapply Forall_impl; [exact Hm2 |]. by intros kv (_ & _ & ?).
Qed.

Lemma block_text v : plain_value v → 60 ∉ print (block l1 l2 pid v) ∧ ∃ t t', print (block l1 l2 pid v) = 123 :: t ∧ print (block l1 l2 pid v) = t' ++ [125] ∧ t ≠ [] ∧ t ≠ [125].
Proof.
  intros Hv. split; [apply print_no_lt, block_wf, plain_quote; done |]. rewrite print_block by done.
  assert (∃ x F, block_front l1 pid = 123 :: F ++ [x]) as (x & F & ->).
  { exists 34. eexists. unfold block_front. f_equal. rewrite !app_assoc. change [58; 34] with ([58] ++ [34]). rewrite app_assoc. reflexivity. }
  assert (∃ B, block_back l2 = B ++ [125]) as [B ->] by (eexists; unfold block_back; rewrite app_assoc; reflexivity).
  exists ((F ++ [x]) ++ v ++ B ++ [125]), ((123 :: F ++ [x]) ++ v ++ B). split; [done |]. split; [by rewrite <- !app_assoc |].
  split; intros E; apply (f_equal length) in E; rewrite !length_app in E; cbn [length] in E; lia.
Qed.

Lemma block_trim v : plain_value v → TrimSpace (print (block l1 l2 pid v)) = print (block l1 l2 pid v).
Proof. intros Hv. destruct (block_text v Hv) as (_ & t & t' & E1 & E2 & _). eapply TrimSpace_id; [exact E1 | exact E2 | lia | lia]. Qed.

Context `{HLC : LowerCase} `{HLL : !LowerCaseLaws} `{HK : KDF}.

Lemma page_ascii v : plain_value v → is_ascii (page pre l1 l2 pid v post).
Proof.
  intros Hv. destruct (tm_ascii _ _ _ _ _ _ Htm) as [H1 H2]. unfold page.
  apply Forall_app; split; [done |]. apply Forall_app; split; [by apply ascii_check |]. apply Forall_app; split; [by apply print_ascii, block_wf, plain_quote |].
  apply Forall_app; split; [by apply ascii_check | done].
Qed.

Lemma script_found v : plain_value v → findJSONLDScriptContent (page pre l1 l2 pid v post) = Ret (Some (print (block l1 l2 pid v) ++ str "</script>" ++ post)).
Proof.
  intros Hv. unfold findJSONLDScriptContent. rewrite ToLower_ascii by by apply page_ascii. unfold page. rewrite map_app. set (X := print _ ++ _).
  assert (map lower_byte (ld_tag ++ X) = ld_tag ++ map lower_byte X) as -> by by rewrite map_app. set (lower := map lower_byte pre ++ ld_tag ++ map lower_byte X).
  cbn [script_content]. rewrite drop_0.
  assert (Index (str "<script") lower = Some (length pre)) as ->.
  { unfold lower. rewrite <- (length_map lower_byte pre). change (ld_tag ++ map lower_byte X) with (str "<script" ++ (drop 7 ld_tag ++ map lower_byte X)). apply (Index_first 60 (str "script")); [by apply absent | apply Htm]. }
  rewrite Nat.add_0_l. assert (drop (length pre) lower = ld_tag ++ map lower_byte X) as ->.
  { unfold lower. rewrite <- (length_map lower_byte pre). apply drop_app_length. }
  change (Index [62] (ld_tag ++ map lower_byte X)) with (Some 34%nat). cbn iota. change (take (34 + 1) (ld_tag ++ map lower_byte X)) with ld_tag.
  change (Contains ld_tag (str "application/ld+json")) with true. cbn iota. unfold slice. rewrite !len_app. change (len ld_tag) with 35. pose proof (len_nonneg X). unfold len at 1 3 5.
  rewrite !(proj2 (Z.leb_le _ _)) by (unfold len; lia). cbn [andb mbind outcome_bind].
  replace (Z.to_nat (Z.of_nat (length pre + 34 + 1))) with (length (pre ++ ld_tag)) by (rewrite length_app; change (length ld_tag) with 35%nat; lia).
  rewrite (app_assoc pre), drop_app_length, take_ge by (unfold len; lia). done.
Qed.

Lemma template_loaded : findIdentifierValueOffset (page pre l1 l2 pid base post) = Ret (Some (len pre + 35 + len (block_front l1 pid), RLStateValueWidth, pid)).
Proof.
  destruct (tm_base _ _ _ _ _ _ Htm) as [Hp Hl]. destruct (tm_pid _ _ _ _ _ _ Htm) as [_ Hne].
  unfold findIdentifierValueOffset. rewrite script_found by done. cbn [mbind outcome_bind]. destruct (block_text base Hp) as [Hlt _].
  unfold Cut. rewrite (Index_first 60 (str "/script>")) by (by apply absent || by apply Index_absent).
  rewrite take_app_length, block_trim, dec_block_print by (done || by apply plain_quote). cbn [id_Type id_PropertyID id_Value]. unfold bytes_eqb. rewrite bool_decide_eq_true_2 by done. cbn [negb].
  rewrite len_ne, Hl, Z.eqb_refl by done. cbn [negb]. rewrite print_block, (tm_once _ _ _ _ _ _ Htm) by done. do 4 f_equal. unfold page. rewrite ?print_block, !len_app by done. change (len ld_tag) with 35. unfold len. lia.
Qed.

(** The emitter's splice. *)
Lemma spliced v : plain_value v →
  slice (page pre l1 l2 pid base post) 0 (len pre + 35 + len (block_front l1 pid)) = Ret (pre ++ ld_tag ++ block_front l1 pid)
  ∧ slice (page pre l1 l2 pid base post) (len pre + 35 + len (block_front l1 pid) + RLStateValueWidth) (len (page pre l1 l2 pid base post)) = Ret (block_back l2 ++ str "</script>" ++ post)
  ∧ (pre ++ ld_tag ++ block_front l1 pid) ++ v ++ block_back l2 ++ str "</script>" ++ post = page pre l1 l2 pid v post.
Proof.
  intros Hv. destruct (tm_base _ _ _ _ _ _ Htm) as [Hp Hl]. unfold page. rewrite !print_block by done. set (A := pre ++ ld_tag ++ block_front l1 pid). set (B := block_back l2 ++ str "</script>" ++ post).
  assert (pre ++ ld_tag ++ (block_front l1 pid ++ base ++ block_back l2) ++ str "</script>" ++ post = A ++ base ++ B) as -> by (unfold A, B; by rewrite <- !app_assoc).
  assert (len pre + 35 + len (block_front l1 pid) = len A) as -> by (unfold A; rewrite !len_app; change (len ld_tag) with 35; lia). rewrite <- Hl.
  pose proof (len_nonneg A). pose proof (len_nonneg base). pose proof (len_nonneg B). unfold slice. rewrite !len_app. rewrite !(proj2 (Z.leb_le _ _)) by lia. cbn [andb].
  split_and!; [| | unfold A, B; by rewrite <- !app_assoc].
  - rewrite Z.sub_0_r. unfold len. rewrite Nat2Z.id. cbn [Z.to_nat]. by rewrite drop_0, take_app_length.
  - replace (Z.to_nat (len A + len base)) with (length (A ++ base)) by (rewrite length_app; unfold len; lia). rewrite app_assoc, drop_app_length, take_ge by (unfold len; lia). done.
Qed.

(** ** The detector on a template *)

Lemma lower_index sub s : map lower_byte sub = sub → Index sub (map lower_byte s) = None → Index sub s = None.
Proof.
  intros Hs. assert (∀ p t, is_prefix p t = true → is_prefix (map lower_byte p) (map lower_byte t) = true) as Hp.
  { intros p t [r ->]%is_prefix_spec. apply is_prefix_spec. rewrite map_app. by eexists. }
  induction s as [| x s IH]; cbn [map Index]; [by rewrite <- Hs |]. destruct (is_prefix sub (x :: s)) eqn:E; [apply Hp in E; rewrite Hs in E; cbn [map] in E; by rewrite E |].
  destruct (is_prefix sub (lower_byte x :: map lower_byte s)); [done |]. destruct (Index sub (map lower_byte s)) eqn:E'; [done |]. intros _. by rewrite IH.
Qed.

Lemma find_all_skip a X n : Index (str "<script") a = None → find_all (length a + n) (a ++ 60 :: X) = find_all n (60 :: X).
Proof.
  induction a as [| x a IH]; intros Hn; [done |]. apply Index_None_cons in Hn as [Hp Hn]. cbn [length Nat.add app find_all].
  assert (match_here (x :: (a ++ 60 :: X)) = None) as ->; [| by apply IH]. unfold match_here. rewrite strip_prefix.
  destruct (is_prefix (str "<script") (x :: (a ++ 60 :: X))) eqn:E; [| done]. change (x :: (a ++ 60 :: X)) with ((x :: a) ++ 60 :: X) in E.
  apply (prefix_straddle 60 (str "script")) in E; [| by apply absent | done]. change (60 :: str "script") with (str "<script") in E. congruence.
Qed.

Lemma match_block v rest : plain_value v →
  match_here (ld_tag ++ print (block l1 l2 pid v) ++ str "</script>" ++ rest) = Some (print (block l1 l2 pid v), rest).
Proof.
  intros Hv. destruct (block_text v Hv) as (Hlt & t & t' & E1 & E2 & Hn1 & Hn2). unfold match_here. set (g := print _) in *.
  assert (strip (str "<script") (ld_tag ++ g ++ str "</script>" ++ rest) = Some (drop 7 ld_tag ++ g ++ str "</script>" ++ rest)) as -> by reflexivity. cbn [mbind option_bind].
  change (Index [62] (drop 7 ld_tag ++ g ++ str "</script>" ++ rest)) with (Some 27%nat). cbn [mbind option_bind].
  change (take 27 (drop 7 ld_tag ++ g ++ str "</script>" ++ rest)) with (take 27 (drop 7 ld_tag)). match goal with |- context [Contains ?a ?b] => change (Contains a b) with true end. cbn iota.
  change (drop (S 27) (drop 7 ld_tag ++ g ++ str "</script>" ++ rest)) with (g ++ str "</script>" ++ rest).
  assert (Index [60] (g ++ str "</script>" ++ rest) = Some (length g)) as ->.
  { change (g ++ str "</script>" ++ rest) with (g ++ [60] ++ (str "/script>" ++ rest)). apply Index_first; [apply not_elem_of_nil | by apply Index_absent]. }
  cbn [mbind option_bind].
  rewrite take_app_length, drop_app_length. assert (is_prefix [123] g && is_prefix [125] (rev g) && (3 <=? len g) = true) as ->.
  { rewrite E1 at 1. rewrite E2 at 1. rewrite rev_app_distr. cbn [rev app is_prefix Z.eqb Pos.eqb andb]. apply Z.leb_le. rewrite E1. unfold len. destruct t as [| a [| b t]]; [done | | cbn; lia].
    rewrite E1 in E2. destruct t' as [| x [| y t']]; cbn in E2; try done; [| injection E2; intros E; apply (f_equal length) in E; rewrite length_app in E; cbn in E; lia].
    injection E2 as -> ->. done. }
  rewrite strip_prefix. rewrite (proj2 (is_prefix_spec _ _)) by by eexists. cbn [mbind option_bind]. by rewrite drop_app_length.
Qed.

Lemma no_match_without s n : Contains s (str "application/ld+json") = false → find_all n s = [].
Proof.
  revert s. induction n as [| n IH]; intros s Hc; [done |]. cbn [find_all]. destruct (match_here s) as [[g rest] |] eqn:E.
  - exfalso. unfold match_here in E. destruct (strip (str "<script") s) as [t |] eqn:Et; [| done]. cbn in E. destruct (Index [62] t) as [i |]; [| done]. cbn [mbind option_bind] in E.
    destruct (Contains (take i t) _) eqn:Ec; [| done]. apply Contains_spec in Ec as (a & b & Ec).
    rewrite strip_prefix in Et. destruct (is_prefix _ s) eqn:Ep; [| done]. apply is_prefix_spec in Ep as [r ->]. rewrite drop_app_length in Et. injection Et as ->.
    assert (Contains (str "<script" ++ t) (str "application/ld+json") = true); [| congruence]. apply Contains_spec.
    exists (str "<script" ++ a ++ str "type=" ++ [34]), ([34] ++ b ++ drop i t). rewrite <- (take_drop i t) at 1. rewrite Ec. by rewrite <- !app_assoc.
  - destruct s as [| x s]; [done |]. apply IH. cbn [Contains] in Hc. by apply orb_false_iff in Hc as [_ ?].
Qed.

Definition marker_within : Prop := len pre + 35 + len (print (block l1 l2 pid base)) + 9 ≤ 4096.

Lemma detect_block v host : plain_value v → len v = len base → marker_within →
  ∃ n k, BodyMarker_Detect (page pre l1 l2 pid v post) host
    = match (if acceptsPropertyID pid host then parseRLStateValue v else None) with Some s => Some s | None => first_signal host (find_all n (take k post)) end.
Proof.
  intros Hv Hlen Hw. unfold BodyMarker_Detect. destruct (tm_base _ _ _ _ _ _ Htm) as [Hp Hl].
  assert (∃ k, (if 4096 <? len (page pre l1 l2 pid v post) then take 4096 (page pre l1 l2 pid v post) else page pre l1 l2 pid v post) = page pre l1 l2 pid v (take k post)) as [k ->].
  { destruct (4096 <? _); [| exists (length post); by rewrite take_ge by lia]. exists (4096 - length (pre ++ ld_tag ++ print (block l1 l2 pid v) ++ str "</script>"))%nat. unfold page.
    rewrite !(app_assoc), take_app, take_ge; [f_equal; f_equal; rewrite <- !app_assoc; done |]. rewrite <- !app_assoc, !length_app. unfold marker_within in Hw. rewrite print_block, !len_app in Hw by done.
    rewrite print_block, !length_app by done. change (length ld_tag) with 35%nat. change (length (str "</script>")) with 9%nat. unfold len in *. lia. }
  assert (Index (str "<script") pre = None) as Hpre by (apply lower_index; [done | apply Htm]).
  unfold page. set (X := ld_tag ++ _). change X with (60 :: drop 1 X) at 2.
  rewrite length_app, <- Nat.add_succ_r, find_all_skip by done. change (60 :: drop 1 X) with X. cbn [find_all]. unfold X at 1. rewrite match_block by done.
  exists (length X), k. cbn [first_signal]. unfold group_signal. rewrite dec_block_print by by apply plain_quote. cbn [id_Type id_PropertyID id_Value]. unfold bytes_eqb at 1. rewrite bool_decide_eq_true_2 by done. cbn [negb].
  by destruct (acceptsPropertyID pid host).
Qed.

(** ** From the limiter to the client *)

Lemma state_plain sig n : sentinel_ok sig → plain_value (state_core sig ++ replicate n 59).
Proof.
  intros [H1 _ H3 H4 H5]. apply label_tokens in H1. destruct (fmt_d_tokens _ H3) as [T3 _], (fmt_d_tokens _ H4) as [T4 _], (fmt_d_tokens _ H5) as [T5 _].
  assert (∀ s, forallb (λ c, label_char c || (c =? 59) || (c =? 61)) s = true → plain_value s) as Hlit.
  { intros s Hs. apply Forall_forall. intros c Hc%list_elem_of_In. eapply forallb_forall in Hs; [| exact Hc]. unfold token_char. destruct (label_char c); [by left; left | right; lia]. }
  assert (∀ s, Forall token_char s → plain_value s) as Htok by (intros s Hs; eapply Forall_impl; [exact Hs |]; by left).
  unfold state_core, plain_value. rewrite <- !app_assoc. repeat (apply Forall_app; split); try (by apply Hlit); try (by apply Htok). apply Forall_replicate. by right; left.
Qed.

Lemma TrimRight_id s c t d : s = t ++ [d] → d ≠ c → TrimRight s c = s.
Proof.
  intros -> Hd. induction t as [| x t IH]; cbn [app TrimRight]; [by rewrite (proj2 (Z.eqb_neq d c)) |]. rewrite IH. by destruct t.
Qed.

Lemma header_core sig : sentinel_ok sig → formatRLStateHeader sig = state_core sig.
Proof.
  intros [_ _ _ _ H5]. destruct (fmt_d_tokens _ H5) as [T5 N5]. destruct (exists_last N5) as (t & d & E). unfold formatRLStateHeader.
  eapply TrimRight_id; [unfold state_core; rewrite E, !app_assoc; reflexivity |]. rewrite E in T5. apply Forall_app in T5 as [_ T5]. inversion T5 as [| ? ? Hd _]; subst. apply token_visible in Hd. lia.
Qed.

Lemma header_detected sig : sentinel_ok sig →
  Header_Detect (formatRLStateHeader sig) = Some (announced sig "header_v1") ∧ Header_Detect (legacy_header sig) = Some (announced sig "header_legacy").
Proof.
  intros Hs. rewrite header_core by done. unfold Header_Detect. rewrite !len_ne by (by destruct (sn_Bucket sig)). split.
  - assert (Contains (state_core sig) [59] && is_prefix (str "v") (state_core sig) = true) as -> by reflexivity.
    pose proof (parse_state sig 0 Hs) as H. cbn [replicate] in H. rewrite app_nil_r in H. by rewrite H.
  - assert (is_prefix (str "v") (legacy_header sig) = false) as -> by reflexivity. rewrite andb_false_r. by rewrite parse_legacy.
Qed.

Lemma format_value sig : sentinel_ok sig →
  if len (state_core sig) <=? RLStateValueWidth
  then ∃ v, FormatRLStateValue sig = Ret v ∧ plain_value v ∧ len v = RLStateValueWidth ∧ parseRLStateValue v = Some (announced sig "")
  else ∃ e, FormatRLStateValue sig = Err e.
Proof.
  intros Hs. unfold FormatRLStateValue, padToWidth. destruct (Z.leb_spec (len (state_core sig)) RLStateValueWidth) as [Hl | Hl]; [| rewrite (proj2 (Z.ltb_lt _ _)) by done; by eexists].
  rewrite !(proj2 (Z.ltb_ge _ _)) by done. destruct (Z.eqb_spec (len (state_core sig)) RLStateValueWidth) as [E | E].
  - exists (state_core sig). pose proof (state_plain sig 0 Hs) as H1. pose proof (parse_state sig 0 Hs) as H2. cbn [replicate] in *. rewrite app_nil_r in *. done.
  - eexists. split; [done |]. split; [by apply state_plain |]. split; [| by apply parse_state]. rewrite len_app. unfold len at 2. rewrite length_replicate. lia.
Qed.

(** The page the loader was given, as the only template. *)
Definition templates : gmap bytes DecoySnapshot :=
  {[str "index.html" := mkSnapshot (page pre l1 l2 pid base post) (len pre + 35 + len (block_front l1 pid)) RLStateValueWidth pid]}.

Lemma templates_loaded read : read (str "index.html") = Some (page pre l1 l2 pid base post) → len (page pre l1 l2 pid base post) ≤ maxDecoyFileSize →
  LoadDecoySnapshots read [str "index.html"] ∅ = Ret templates.
Proof. intros Hr Hs. cbn [LoadDecoySnapshots]. rewrite Hr, (proj2 (Z.ltb_ge _ _)), template_loaded by done. done. Qed.

Lemma emitted m w sig : sentinel_ok sig → ∃ m' w', w_header w' !! "X-SL-RL"%string = Some (formatRLStateHeader sig) ∧
  if len (state_core sig) <=? RLStateValueWidth
  then ∃ v, Emit templates m w sig [] = Ret (true, w', m') ∧ w_status w' = Some 200 ∧ w_body w' = w_body w ++ page pre l1 l2 pid v post
         ∧ plain_value v ∧ len v = RLStateValueWidth ∧ parseRLStateValue v = Some (announced sig "")
  else Emit templates m w sig [] = Ret (false, w', m') ∧ w_body w' = w_body w.
Proof.
  intros Hs. unfold Emit. change (len (@nil Z) =? 0) with true. cbn iota. unfold templates. rewrite lookup_singleton_eq. cbn [HTML IdentifierValueOffset IdentifierValueLength].
  rewrite len_ne by (unfold page; intros E; apply app_nil in E as [_ E]; discriminate). pose proof (format_value sig Hs) as Hf. destruct (len (state_core sig) <=? RLStateValueWidth).
  - destruct Hf as (v & -> & Hv & Hl & Hp). destruct (spliced v Hv) as (E1 & E2 & E3). rewrite E1, E2. cbn [mbind outcome_bind]. rewrite E3. eexists _, _. split; [| exists v; split; [done | done]].
    cbn [w_header]. by rewrite !lookup_insert_ne, lookup_insert_eq by done.
  - destruct Hf as [e ->]. eexists _, _. split; [| done]. cbn [w_header]. apply lookup_insert_eq.
Qed.

(** C31: the rate-limit signal reaches the client.  For a template in the installer's form, with its
    block in the first 4096 bytes and an identifier the client accepts for the host, the
    loader finds the slot, and whichever way the server is deployed (templates, emitter
    without templates, no emitter) the client reads from the answer to a rejected
    request the bucket, the whole seconds to wait, the tokens left and the exemption
    that were announced: from the page when there is a template and the state fits its
    slot (also when the header was removed on the way; the page then has the same
    length as before), from the header otherwise.  The ordinary page is never taken
    for a signal. *)
Theorem sentinel_understood read decoy host sig d m h0 path :
  read (str "index.html") = Some (page pre l1 l2 pid base post) → len (page pre l1 l2 pid base post) ≤ maxDecoyFileSize →
  marker_within → parseRLStateValue base = None → Contains post (str "application/ld+json") = false →
  (∀ w, w_header (decoy w) !! "X-SL-RL"%string = w_header w !! "X-SL-RL"%string ∧ w_body (decoy w) = w_body w ++ page pre l1 l2 pid base post) →
  acceptsPropertyID pid host = true → sentinel_ok sig →
  ∃ snapshots, LoadDecoySnapshots read [str "index.html"] ∅ = Ret snapshots
  ∧ DetectCarriersOnly d [] (page pre l1 l2 pid base post) host path = (None, d)
  ∧ ∀ emitter, emitter = Some snapshots ∨ emitter = Some ∅ ∨ emitter = None →
      ∃ w m', failClosedToDecoyRateLimitedV2 emitter decoy m (mkWriter h0 None []) sig = Ret (w, m')
      ∧ let from_page := match emitter with Some s => bool_decide (s ≠ ∅) && (len (state_core sig) <=? RLStateValueWidth) | None => false end in
        let carrier := if from_page then "body" else match emitter with Some _ => "header_v1" | None => "header_legacy" end%string in
        fst (DetectCarriersOnly d (default [] (w_header w !! "X-SL-RL"%string)) (w_body w) host path) = Some (announced sig carrier)
        ∧ (from_page = true → fst (DetectCarriersOnly d [] (w_body w) host path) = Some (announced sig "body") ∧ len (w_body w) = len (page pre l1 l2 pid base post)).
Proof.
  intros Hr Hsz Hw Hbase Hpost Hdec Hacc Hs. exists templates. split; [by apply templates_loaded |]. destruct (tm_base _ _ _ _ _ _ Htm) as [Hp Hl].
  assert (BodyMarker_Detect (page pre l1 l2 pid base post) host = None) as Hplain.
  { destruct (detect_block base host Hp eq_refl Hw) as (n & k & ->). rewrite Hacc, Hbase. rewrite no_match_without; [done |]. destruct (Contains (take k post) _) eqn:E; [| done].
    apply Contains_spec in E as (a & b & E). rewrite <- (take_drop k post), E in Hpost. rewrite (proj2 (Contains_spec _ _)) in Hpost; [done |]. exists a, (b ++ drop k post). by rewrite <- !app_assoc. }
  destruct (header_detected sig Hs) as [Hh1 Hh2]. split; [unfold DetectCarriersOnly; by rewrite Hplain |].
  assert (∀ hd carrier, Header_Detect hd = Some (announced sig carrier) → fst (DetectCarriersOnly d hd (page pre l1 l2 pid base post) host path) = Some (announced sig carrier)) as Hhd.
  { intros hd carrier Hh. unfold DetectCarriersOnly. by rewrite Hplain, Hh. }
  intros emitter [-> | [-> | ->]]; unfold failClosedToDecoyRateLimitedV2.
  - rewrite (bool_decide_eq_true_2 (templates ≠ ∅)) by by apply insert_non_empty. cbn [andb]. destruct (emitted m (mkWriter h0 None []) sig Hs) as (m' & w' & Hx & H). destruct (len (state_core sig) <=? RLStateValueWidth).
    + destruct H as (v & -> & _ & Hb & Hv & Hlv & Hpv). cbn [mbind outcome_bind]. exists w', m'. split; [done |]. rewrite Hb. cbn [w_body app].
      assert (∀ hd, fst (DetectCarriersOnly d hd (page pre l1 l2 pid v post) host path) = Some (announced sig "body")) as Hb'.
      { intros hd. unfold DetectCarriersOnly. destruct (detect_block v host Hv ltac:(congruence) Hw) as (n & k & ->). by rewrite Hacc, Hpv. }
      split; [apply Hb' |]. intros _. split; [apply Hb' |]. unfold page. rewrite !print_block by done. rewrite !len_app. lia.
    + destruct H as [-> Hb]. cbn [mbind outcome_bind]. exists (decoy w'), m'. split; [done |]. destruct (Hdec w') as [-> ->]. rewrite Hx, Hb. cbn [w_body app default from_option]. split; [by apply Hhd | done].
  - cbn [Emit]. unfold Emit. rewrite lookup_empty. cbn [mbind outcome_bind]. eexists _, _. split; [done |]. destruct (Hdec (mkWriter (<["X-SL-RL"%string:=formatRLStateHeader sig]> h0) None [])) as [E1 E2].
    cbn [w_header w_body w_status]. rewrite bool_decide_eq_false_2 by (intros E; by apply E). cbn [andb]. rewrite E1, E2. cbn [w_header w_body app]. rewrite lookup_insert_eq. split; [by apply Hhd | done].
  - eexists _, _. split; [done |]. destruct (Hdec (mkWriter (<["X-SL-RL"%string:=legacy_header sig]> h0) None [])) as [E1 E2]. cbn [w_header w_body w_status]. rewrite E1, E2. cbn [w_header w_body app]. rewrite lookup_insert_eq. split; [by apply Hhd | done].
Qed.
End templates.

(** ** Witness and defects *)

Module SignalDemo.
Import Toy.
#[local] Existing Instances toy_kdf.

#[export] Instance ascii_lower : LowerCase := {| ToLower := map lower_byte |}.
#[export] Instance ascii_lower_laws : LowerCaseLaws.
Proof. by split. Qed.

Definition baseline : bytes := match MakeBaselineValue with Ret v => v | _ => [] end.
Definition before_block : bytes := str "<!DOCTYPE html><html lang=en><head><title>a.example</title>".
Definition after_block : bytes := str "<style>p{margin:1em 0}</style></head><body><h1>a.example</h1></body></html>".
Definition members1 : list (bytes * json) := [(str "@context", JStr (str "https://schema.org")); (str "@type", JStr (str "WebSite")); (str "name", JStr (str "a.example"))].
Definition home : bytes := page before_block members1 [] LegacyRLPropertyID baseline after_block.
Definition busy : RLSentinel := mkSentinel (str "ws_upgrade") 0 (7 * Second + 300000000) 0.
Definition serve (w : writer) : writer := mkWriter (w_header w) (Some 200) (w_body w ++ home).


Lemma home_ok : template_ok before_block members1 [] LegacyRLPropertyID baseline after_block.
Proof.
  split.
  - split; apply ascii_check; reflexivity.
  - vm_compute. reflexivity.
  - repeat (apply Forall_cons; split; [split_and!; [apply ascii_check; reflexivity | apply ascii_check; reflexivity | vm_compute; reflexivity] |]). constructor.
  - intros v. assert (jdepth (block members1 [] LegacyRLPropertyID v) = 2%nat) as -> by reflexivity. unfold maxNestingDepth. lia.
  - split; [apply ascii_check; reflexivity | discriminate].
  - split; [| vm_compute; reflexivity]. unfold plain_value, token_char. apply (bool_decide_unpack _). vm_compute. exact I.
  - vm_compute. reflexivity.
Qed.

Lemma busy_ok : sentinel_ok busy.
Proof. split; vm_compute; split; discriminate. Qed.

Lemma sentinel_understood_witness :
  announced busy "body" = mkSignal (str "ws_upgrade") (7 * Second) 0 false "body"
  ∧ ∃ snapshots, LoadDecoySnapshots (λ _, Some home) [str "index.html"] ∅ = Ret snapshots
  ∧ DetectCarriersOnly (mkDet 0 0 0 0 0 0) [] home (str "a.example") "handshake" = (None, mkDet 0 0 0 0 0 0)
  ∧ ∀ emitter, emitter = Some snapshots ∨ emitter = Some ∅ ∨ emitter = None →
      ∃ w m', failClosedToDecoyRateLimitedV2 emitter serve (mkEmitted 0 0 0) (mkWriter ∅ None []) busy = Ret (w, m')
      ∧ let from_page := match emitter with Some s => bool_decide (s ≠ ∅) && (len (state_core busy) <=? RLStateValueWidth) | None => false end in
        let carrier := if from_page then "body" else match emitter with Some _ => "header_v1" | None => "header_legacy" end%string in
        fst (DetectCarriersOnly (mkDet 0 0 0 0 0 0) (default [] (w_header w !! "X-SL-RL"%string)) (w_body w) (str "a.example") "handshake") = Some (announced busy carrier)
        ∧ (from_page = true → fst (DetectCarriersOnly (mkDet 0 0 0 0 0 0) [] (w_body w) (str "a.example") "handshake") = Some (announced busy "body") ∧ len (w_body w) = len home).
Proof.
  split; [vm_compute; reflexivity |].
  apply (sentinel_understood before_block members1 [] LegacyRLPropertyID baseline after_block home_ok (λ _, Some home) serve (str "a.example") busy (mkDet 0 0 0 0 0 0) (mkEmitted 0 0 0) ∅ "handshake").
  - reflexivity.
  - vm_compute. discriminate.
  - vm_compute. discriminate.
  - vm_compute. reflexivity.
  - vm_compute. reflexivity.
  - intros w. split; reflexivity.
  - reflexivity.
  - exact busy_ok.
Defined.

(** A template with a line break before the block passes the loader's checks; the
    client's pattern does not match it, so the state in the page is never read. *)
Definition indented : bytes := before_block ++ ld_tag ++ [10] ++ print (block members1 [] LegacyRLPropertyID baseline) ++ [10] ++ str "</script>" ++ after_block.

Theorem accepted_template_unread :
  ∃ snapshots w m, LoadDecoySnapshots (λ _, Some indented) [str "index.html"] ∅ = Ret snapshots
  ∧ Emit snapshots (mkEmitted 0 0 0) (mkWriter ∅ None []) busy [] = Ret (true, w, m)
  ∧ em_byBody m = 1 ∧ BodyMarker_Detect (w_body w) (str "a.example") = None.
Proof.
  destruct (LoadDecoySnapshots (λ _, Some indented) [str "index.html"] ∅) as [s | |] eqn:E; [| vm_compute in E; discriminate | vm_compute in E; discriminate]. vm_compute in E. injection E as <-.
  eexists _, _, _. split; [reflexivity |]. split; [vm_compute; reflexivity |]. split; vm_compute; reflexivity.
Qed.

(** A wait of less than a second is announced as zero, which the pool takes for
    no announcement: it waits two minutes and more, where an announced second would
    have made it wait some seconds. *)
Theorem short_wait_waits_longest :
  sg_RefillIn (announced (mkSentinel (str "handshake") 0 900000000 0) "body") = 0
  ∧ 125 * Second < rate_cooldown (Some (announced (mkSentinel (str "handshake") 0 900000000 0) "body")) fzero
  ∧ rate_cooldown (Some (announced (mkSentinel (str "handshake") 0 1000000000 0) "body")) fzero < 4 * Second.
Proof. vm_compute. repeat split. Qed.

(** The floor of five seconds is applied before the jitter. *)
Theorem jitter_undercuts_floor : rate_cooldown (Some (mkSignal (str "handshake") (5 * Second) 0 false "body")) fzero = 3500000000 ∧ 3500000000 < rateLimitRefillFloor.
Proof. vm_compute. repeat split. Qed.
End SignalDemo.
