(* ===== verification/KillSwitch.v ===== *)
(** * The kill switch of the Linux client ([client/leakguard/])

    The plan of allowed traffic, its translation to nftables and iptables commands,
    and the guard that locks DNS, IPv6 and the firewall and restores them, also after
    the process was killed in the middle.  The packet filter is a class: what a
    command that succeeds does to the rules is its documented effect.  Which commands
    and file operations succeed is an input. *)

From S2P Require Import Prelude.
From S2P Require Import BrowserWire.
From stdpp Require Import base list gmap strings.

#[local] Open Scope Z_scope.

(** ** Addresses, packets and rules *)

Record IP := mkIP { ip_v6 : bool; ip_val : Z }.
Record pfx := mkPfx { px_v6 : bool; px_addr : Z; px_bits : Z }.
#[global] Instance IP_eq_dec : EqDecision IP.
Proof. solve_decision. Defined.
#[global] Instance pfx_eq_dec : EqDecision pfx.
Proof. solve_decision. Defined.

Inductive proto := Tcp | Udp | OtherProto.
#[global] Instance proto_eq_dec : EqDecision proto.
Proof. solve_decision. Defined.

(** An outgoing packet. *)
Record packet := mkPacket { pk_oif : bytes; pk_v6 : bool; pk_dst : Z; pk_proto : proto; pk_sport : Z; pk_dport : Z }.

Definition v4net (a b c d bits : Z) : pfx := mkPfx false (a * 16777216 + b * 65536 + c * 256 + d) bits.
Definition v4addr (a b c d : Z) : IP := mkIP false (a * 16777216 + b * 65536 + c * 256 + d).

(** [daddr] in an IPv4 prefix *)
Definition in_pfx (p : packet) (n : pfx) : bool :=
  negb (pk_v6 p) && negb (px_v6 n) && (Z.shiftr (pk_dst p) (32 - px_bits n) =? Z.shiftr (px_addr n) (32 - px_bits n)).

(** What a rule looks at; [MSet] is the set [sl_ru]. *)
Inductive matcher :=
| MAny | MOut (iface : bytes) | MDst (ip : IP) (pr : proto) (dport : option Z) | MUdpPorts (sport dport : Z) | MNet (n : pfx) | MSet.
#[global] Instance matcher_eq_dec : EqDecision matcher.
Proof. solve_decision. Defined.
Abbreviation frule := (matcher * bool)%type.   (* accept, or drop *)

Definition dst_is (p : packet) (a : IP) : bool := negb (pk_v6 p) && negb (ip_v6 a) && (pk_dst p =? ip_val a).
Definition matches (set : list pfx) (m : matcher) (p : packet) : bool :=
  match m with
  | MAny => true
  | MOut i => bytes_eqb (pk_oif p) i
  | MDst a pr port => dst_is p a && bool_decide (pk_proto p = pr) && match port with Some n => pk_dport p =? n | None => true end
  | MUdpPorts s d => bool_decide (pk_proto p = Udp) && (pk_sport p =? s) && (pk_dport p =? d)
  | MNet n => in_pfx p n
  | MSet => existsb (in_pfx p) set
  end.
Fixpoint first_match (set : list pfx) (rules : list frule) (p : packet) : bool :=
  match rules with [] => true | (m, ok) :: rules' => if matches set m p then ok else first_match set rules' p end.

(** ** The packet filter *)

Inductive fwcmd :=
| NftAddTable | NftAddChain | NftAddRule (r : frule) | NftAddSet | NftAddElements (l : list pfx) | NftDeleteTable
| IptNewChain | IptJump | IptAppend (r : frule) | IptDeleteJump | IptFlush | IptDeleteChain
| IpsetCreate | IpsetAdd (n : pfx) | IpsetDestroy.

(** The part of the filter's state the commands name: the chain [SHADOWLINK-KS], the
    jumps to it from [OUTPUT], the ipset, and the nft table with its chain and set. *)
Abbreviation nft_table := (option (list frule) * option (list pfx))%type.
Record fwview := mkView { v_chain : option (list frule); v_jumps : nat; v_ipset : option (list pfx); v_table : option nft_table }.

Definition with_table (v : fwview) (t : option nft_table) : fwview := mkView (v_chain v) (v_jumps v) (v_ipset v) t.
Definition with_chain (v : fwview) (c : option (list frule)) : fwview := mkView c (v_jumps v) (v_ipset v) (v_table v).

(** What a command does when it succeeds. *)
Definition apply_cmd (c : fwcmd) (v : fwview) : fwview :=
  match c with
  | NftAddTable => with_table v (Some (default (None, None) (v_table v)))
  | NftAddChain => with_table v ((λ t : nft_table, (Some (default [] (fst t)), snd t)) <$> v_table v)
  | NftAddRule r => with_table v ((λ t : nft_table, ((λ l, l ++ [r]) <$> fst t, snd t)) <$> v_table v)
  | NftAddSet => with_table v ((λ t : nft_table, (fst t, Some (default [] (snd t)))) <$> v_table v)
  | NftAddElements l => with_table v ((λ t : nft_table, (fst t, (λ s, s ++ l) <$> snd t)) <$> v_table v)
  | NftDeleteTable => with_table v None
  | IptNewChain => with_chain v (Some [])
  | IptJump => mkView (v_chain v) (S (v_jumps v)) (v_ipset v) (v_table v)
  | IptAppend r => with_chain v ((λ l, l ++ [r]) <$> v_chain v)
  | IptDeleteJump => mkView (v_chain v) (v_jumps v - 1) (v_ipset v) (v_table v)
  | IptFlush => with_chain v (Some [])
  | IptDeleteChain => with_chain v None
  | IpsetCreate => mkView (v_chain v) (v_jumps v) (Some (default [] (v_ipset v))) (v_table v)
  | IpsetAdd n => mkView (v_chain v) (v_jumps v) ((λ s, s ++ [n]) <$> v_ipset v) (v_table v)
  | IpsetDestroy => mkView (v_chain v) (v_jumps v) None (v_table v)
  end.

(** Whether an outgoing packet passes: iptables sees IPv4, the [inet] table both. *)
Definition passes (v : fwview) (p : packet) : bool :=
  (pk_v6 p || (v_jumps v =? 0)%nat || first_match (default [] (v_ipset v)) (default [] (v_chain v)) p)
  && match v_table v with Some (Some rules, set) => first_match (default [] set) rules p | _ => true end.

(** A removal that finds what it removes, unused, succeeds. *)
Definition removable (c : fwcmd) (v : fwview) : bool :=
  match c with
  | NftDeleteTable => bool_decide (is_Some (v_table v))
  | IptDeleteJump => (0 <? v_jumps v)%nat
  | IptFlush => bool_decide (is_Some (v_chain v))
  | IptDeleteChain => bool_decide (v_chain v = Some []) && (v_jumps v =? 0)%nat
  | IpsetDestroy => bool_decide (is_Some (v_ipset v)) && match v_chain v with Some l => negb (existsb (λ r : frule, bool_decide (fst r = MSet)) l) | None => true end
  | _ => false
  end.

(** [exec]: [None] when the command fails, which changes nothing. *)
Class NetFilter := { fw : Type; exec : fwcmd → fw → option fw; view : fw → fwview }.
Class NetFilterLaws `{NetFilter} := {
  exec_view c f f' : exec c f = Some f' → view f' = apply_cmd c (view f);
  exec_remove c f : removable c (view f) = true → is_Some (exec c f);
  exec_v4_only f a pr port ok : ip_v6 a = true → exec (NftAddRule (MDst a pr port, ok)) f = None ∧ exec (IptAppend (MDst a pr port, ok)) f = None;
}.

(** ** The plan ([rules.go], [leakguard.go]) *)

Record LeakGuardConfig := mkConfig {
  ServerIP : option IP; ServerIPs : list IP; ServerPort : Z; TunName : bytes; ExtraEscapeIPs : list IP; cf_SplitTunnel : bool; BypassRanges : list pfx;
}.

Definition AllServerIPs (c : LeakGuardConfig) : list IP :=
  match ServerIPs c with [] => match ServerIP c with Some ip => [ip] | None => [] end | l => l end.

Definition tun_char (c : Z) : bool := ((97 <=? c) && (c <=? 122)) || ((65 <=? c) && (c <=? 90)) || ((48 <=? c) && (c <=? 57)) || (c =? 95) || (c =? 45).
Definition Validate (c : LeakGuardConfig) : bool :=
  negb (bool_decide (AllServerIPs c = [])) && (0 <? ServerPort c) && (ServerPort c <=? 65535)
  && negb (len (TunName c) =? 0) && forallb tun_char (TunName c).

Definition LANRanges : list pfx := [v4net 10 0 0 0 8; v4net 172 16 0 0 12; v4net 192 168 0 0 16].
Definition DefaultYandexIPs : list IP := [v4addr 77 88 8 8; v4addr 77 88 8 1].

Fixpoint dedup_from (seen : list pfx) (l : list pfx) : list pfx :=
  match l with
  | [] => []
  | p :: l' => if px_v6 p then dedup_from seen l' else if decide (p ∈ seen) then dedup_from seen l' else p :: dedup_from (p :: seen) l'
  end.
Definition dedupV4Prefixes (l : list pfx) : list pfx := dedup_from [] l.

Record KillSwitchPlan := mkPlan {
  pl_ServerIPs : list IP; pl_ServerPort : Z; pl_TunName : bytes; pl_Loopback : bool; pl_DHCP : bool; pl_ExtraEscape : list IP;
  pl_SplitTunnel : bool; pl_LANAllow : list pfx; pl_RUAllow : list pfx; pl_DNSAllow : list IP;
}.
Definition BuildKillSwitchPlan (cfg : LeakGuardConfig) (ruBypassSupported : bool) : KillSwitchPlan :=
  mkPlan (AllServerIPs cfg) (ServerPort cfg) (TunName cfg) true true (ExtraEscapeIPs cfg) (cf_SplitTunnel cfg)
    (if cf_SplitTunnel cfg then LANRanges else [])
    (if cf_SplitTunnel cfg && ruBypassSupported then dedupV4Prefixes (BypassRanges cfg) else [])
    DefaultYandexIPs.

(** ** The commands ([rules_linux.go]) *)

Definition accept (m : matcher) : frule := (m, true).
Definition server_rules (plan : KillSwitchPlan) : list frule :=
  concat (map (λ ip, [accept (MDst ip Tcp (Some (pl_ServerPort plan))); accept (MDst ip Udp (Some (pl_ServerPort plan)))]) (pl_ServerIPs plan)).

Definition linuxNFTCommands (plan : KillSwitchPlan) : list fwcmd :=
  [NftAddTable; NftAddChain; NftAddRule (accept (MOut (pl_TunName plan)))]
  ++ map NftAddRule (server_rules plan)
  ++ (if pl_Loopback plan then [NftAddRule (accept (MOut (str "lo")))] else [])
  ++ (if pl_DHCP plan then [NftAddRule (accept (MUdpPorts 68 67))] else [])
  ++ map (λ ip, NftAddRule (accept (MDst ip Udp None))) (pl_ExtraEscape plan)
  ++ map (λ ip, NftAddRule (accept (MDst ip Udp (Some 53)))) (pl_DNSAllow plan)
  ++ (if pl_SplitTunnel plan then
        map (λ n, NftAddRule (accept (MNet n))) (pl_LANAllow plan)
        ++ (if decide (pl_RUAllow plan = []) then [] else [NftAddSet; NftAddElements (pl_RUAllow plan); NftAddRule (accept MSet)])
      else [])
  ++ [NftAddRule (MAny, false)].

Definition linuxIPTablesCommands (plan : KillSwitchPlan) (ipsetAvailable : bool) : list fwcmd :=
  let ru := pl_SplitTunnel plan && negb (bool_decide (pl_RUAllow plan = [])) && ipsetAvailable in
  (if ru then IpsetCreate :: map IpsetAdd (pl_RUAllow plan) else [])
  ++ [IptNewChain; IptJump; IptAppend (accept (MOut (pl_TunName plan)))]
  ++ map IptAppend (server_rules plan)
  ++ (if pl_Loopback plan then [IptAppend (accept (MOut (str "lo")))] else [])
  ++ (if pl_DHCP plan then [IptAppend (accept (MUdpPorts 68 67))] else [])
  ++ map (λ ip, IptAppend (accept (MDst ip Udp None))) (pl_ExtraEscape plan)
  ++ map (λ ip, IptAppend (accept (MDst ip Udp (Some 53)))) (pl_DNSAllow plan)
  ++ (if pl_SplitTunnel plan then
        map (λ n, IptAppend (accept (MNet n))) (pl_LANAllow plan) ++ (if ru then [IptAppend (accept MSet)] else [])
      else [])
  ++ [IptAppend (MAny, false)].

(** ** The machine the guard changes ([guard_linux.go], [state.go]) *)

Inductive backend := NoBackend | IPTables | NFTables.
Inductive node := Regular (content : bytes) | Symlink (target : bytes).

(** [State] without the parts of other platforms and those no operation reads (times, the
    server's address and the interface); DNS entries as [backupDNS] makes them. *)
Record IPv6Backup := mkV6 { DisabledInterfaces : list bytes; OriginalSysctl : bytes }.
Record State := mkState {
  DNSBackup : option bytes; IPv6Saved : IPv6Backup; ResolvConfWasSymlink : bool; ResolvConfTarget : bytes; Backend : backend; Rules : list fwcmd;
}.

Section guard.
Context `{NF : NetFilter}.

Record sys := mkSys {
  sy_fw : fw;
  sy_resolv : option node;         (* /etc/resolv.conf *)
  sy_files : gmap bytes bytes;     (* files links point to *)
  sy_manager : list bytes;         (* servers given to resolvectl *)
  sy_sysctl : gmap bytes bytes;
  sy_state : option (option State) (* the state file; [Some None]: not readable *)
}.
Definition set_fw (s : sys) (f : fw) : sys := mkSys f (sy_resolv s) (sy_files s) (sy_manager s) (sy_sysctl s) (sy_state s).
Definition set_dns (s : sys) (r : option node) (files : gmap bytes bytes) (servers : list bytes) : sys := mkSys (sy_fw s) r files servers (sy_sysctl s) (sy_state s).
Definition set_sysctl (s : sys) (m : gmap bytes bytes) : sys := mkSys (sy_fw s) (sy_resolv s) (sy_files s) (sy_manager s) m (sy_state s).
Definition set_state (s : sys) (f : option (option State)) : sys := mkSys (sy_fw s) (sy_resolv s) (sy_files s) (sy_manager s) (sy_sysctl s) f.

(** What the machine is like while an operation runs, and what of it fails. *)
Record env := mkEnv {
  e_nft : bool;                               (* [detectBackend] finds nftables *)
  e_ipset : bool;
  e_resolved : bool; e_networkManager : bool; (* active *)
  e_resolvectl : bool; e_write : bool; e_symlink : bool; e_save : bool; e_delete : bool;
  e_torn : bool;                              (* killed inside a write of the state file rather than before it *)
  e_ifaces : option (list bytes);             (* [ls /proc/sys/net/ipv6/conf] *)
  e_sysctl : bytes → bool; e_sysctl_read : bool;
}.

(** Steps of a process that can be killed before any of its effects: [Some n] leaves
    it [n] more effects; [None] as the result: it was killed. *)
Definition M (A : Type) : Type := option nat → sys → option nat * sys * option A.
Definition done {A} (a : A) : M A := λ k s, (k, s, Some a).
Definition bind {A B} (m : M A) (f : A → M B) : M B :=
  λ k s, match m k s with (k', s', Some a) => f a k' s' | (k', s', None) => (k', s', None) end.
#[local] Notation "x <- m ; f" := (bind m (λ x, f)) (at level 100, m at level 90, right associativity).
Definition look {A} (f : sys → A) : M A := λ k s, (k, s, Some (f s)).
Definition effect (f : sys → sys * bool) : M bool :=
  λ k s, match k with
         | Some O => (Some O, s, None)
         | _ => let '(s', ok) := f s in (option_map pred k, s', Some ok)
         end.

Definition run_fw (c : fwcmd) : M bool := effect (λ s, match exec c (sy_fw s) with Some f => (set_fw s f, true) | None => (s, false) end).

(** The guard's own fields. *)
Record linuxGuard := mkGuard { g_backend : backend; preLocked : bool; wasSymlink : bool; symlinkTarget : bytes }.
Definition new_guard : linuxGuard := mkGuard NoBackend false false [].

(** *** DNS *)

Definition read_resolv (s : sys) : option bytes :=
  match sy_resolv s with Some (Regular c) => Some c | Some (Symlink t) => sy_files s !! t | None => None end.
(** [os.WriteFile] follows a link. *)
Definition write_resolv (c : bytes) (ok : bool) (s : sys) : sys * bool :=
  if negb ok then (s, false) else
  match sy_resolv s with
  | Some (Symlink t) => (set_dns s (sy_resolv s) (<[t := c]> (sy_files s)) (sy_manager s), true)
  | _ => (set_dns s (Some (Regular c)) (sy_files s) (sy_manager s), true)
  end.
Definition resolvectl (e : env) (servers : list bytes) : M bool :=
  effect (λ s, if e_resolvectl e then (set_dns s (sy_resolv s) (sy_files s) servers, true) else (s, false)).
Definition managed (e : env) : bool := e_resolved e || e_networkManager e.

Definition backupDNS (g : linuxGuard) : M (linuxGuard * option bytes) :=
  g' <- look (λ s, match sy_resolv s with
                   | Some (Symlink t) => mkGuard (g_backend g) (preLocked g) true t
                   | _ => mkGuard (g_backend g) (preLocked g) false []
                   end);
  data <- look read_resolv;
  done (g', data).

Definition safe_servers : list bytes := [str "1.1.1.1"; str "8.8.8.8"].
Definition safe_content : bytes := str "# Set by ShadowLink LeakGuard" ++ [10] ++ str "nameserver 1.1.1.1" ++ [10] ++ str "nameserver 8.8.8.8" ++ [10].

(** [resolvConfWritePlan] and [setDNS] *)
Definition resolvConfWritePlan (isSymlink : bool) : bool * bool := if isSymlink then (false, true) else (true, false).
Definition setDNS (g : linuxGuard) (e : env) : M bool :=
  if snd (resolvConfWritePlan (wasSymlink g)) || managed e then resolvectl e safe_servers
  else effect (write_resolv safe_content (e_write e)).

(** The lines [nameserver ...]; [lines] is [strings.Split] at line breaks with
    [strings.TrimSpace] of each. *)
Context (lines : bytes → list bytes).
Definition nameservers (original : bytes) : list bytes :=
  omap (λ l, if is_prefix (str "nameserver ") l then Some (drop 11 l) else None) (lines original).

Definition restoreDNS (g : linuxGuard) (e : env) (backup : option bytes) : M bool :=
  match backup with
  | None => done true
  | Some original =>
    if len original =? 0 then done true
    else if managed e then
      match nameservers original with [] => done true | servers => resolvectl e servers end
    else if wasSymlink g && negb (len (symlinkTarget g) =? 0) then
      _ <- effect (λ s, (set_dns s None (sy_files s) (sy_manager s), true));
      linked <- effect (λ s, if e_symlink e then (set_dns s (Some (Symlink (symlinkTarget g))) (sy_files s) (sy_manager s), true) else (s, false));
      if linked : bool then done true else effect (write_resolv original (e_write e))
    else effect (write_resolv original (e_write e))
  end.

(** *** IPv6 *)

Definition key_all : bytes := str "net.ipv6.conf.all.disable_ipv6".
Definition key_default : bytes := str "net.ipv6.conf.default.disable_ipv6".
Definition ipv6DisableSysctlKeys (ifaces : list bytes) : list bytes :=
  [key_all; key_default] ++ map (λ i, str "net.ipv6.conf." ++ i ++ str ".disable_ipv6") (filter (λ i, i ≠ []) ifaces).
Definition listIPv6Interfaces (e : env) : list bytes :=
  match e_ifaces e with Some l => filter (λ i, i ∉ [str "all"; str "default"; str "lo"]) l | None => [] end.

Definition write_key (e : env) (k v : bytes) : M bool :=
  effect (λ s, if e_sysctl e k then (set_sysctl s (<[k := v]> (sy_sysctl s)), true) else (s, false)).
Fixpoint write_keys (e : env) (keys : list bytes) (v : bytes) : M bool :=
  match keys with
  | [] => done true
  | k :: keys' => ok <- write_key e k v; rest <- write_keys e keys' v; done (ok && rest)
  end.

Definition backupIPv6 (e : env) : M (option IPv6Backup) :=
  look (λ s, if e_sysctl_read e then match sy_sysctl s !! key_all with Some v => Some (mkV6 (ipv6DisableSysctlKeys (listIPv6Interfaces e)) v) | None => None end else None).
Definition disableIPv6 (e : env) : M bool := write_keys e (ipv6DisableSysctlKeys (listIPv6Interfaces e)) (str "1").
Definition restoreIPv6 (e : env) (b : IPv6Backup) : M bool :=
  let val := if len (OriginalSysctl b) =? 0 then str "0" else OriginalSysctl b in
  let keys := if decide (DisabledInterfaces b = []) then [key_all; key_default] else DisabledInterfaces b in
  _ <- write_keys e keys val; done true.

(** *** The firewall *)

Fixpoint run_all (cmds : list fwcmd) (cleanup : M bool) (rules : list fwcmd) : M (option (list fwcmd)) :=
  match cmds with
  | [] => done (Some rules)
  | c :: cmds' =>
    ok <- run_fw c;
    if ok : bool then run_all cmds' cleanup (rules ++ [c]) else (_ <- cleanup; done None)
  end.
Definition cleanupIPTables : M bool :=
  _ <- run_fw IptDeleteJump; _ <- run_fw IptFlush; _ <- run_fw IptDeleteChain; _ <- run_fw IpsetDestroy; done true.
Definition cleanupNFTables : M bool := _ <- run_fw NftDeleteTable; done true.

Definition enableKillSwitchIPTables (e : env) (cfg : LeakGuardConfig) : M (option (list fwcmd)) :=
  run_all (linuxIPTablesCommands (BuildKillSwitchPlan cfg (e_ipset e)) (e_ipset e)) cleanupIPTables [].
Definition enableKillSwitchNFTables (cfg : LeakGuardConfig) : M (option (list fwcmd)) :=
  run_all (linuxNFTCommands (BuildKillSwitchPlan cfg true)) cleanupNFTables [].
Definition enableKillSwitch (g : linuxGuard) (e : env) (cfg : LeakGuardConfig) : M (option (list fwcmd)) :=
  match g_backend g with NFTables => enableKillSwitchNFTables cfg | _ => enableKillSwitchIPTables e cfg end.
Definition disableKillSwitch (g : linuxGuard) : M bool :=
  match g_backend g with NFTables => cleanupNFTables | _ => cleanupIPTables end.

(** *** The state file *)

(** [os.WriteFile] empties the file before it writes. *)
Definition write_state (e : env) (st : State) (s : sys) : sys * bool := if e_save e then (set_state s (Some (Some st)), true) else (s, false).
Definition SaveState (e : env) (st : State) : M bool :=
  λ k s, match k with
         | Some O => (Some O, if e_torn e then set_state s (Some None) else s, None)
         | _ => effect (write_state e st) k s
         end.
Definition LoadState : M (option State) := look (λ s, match sy_state s with Some (Some st) => Some st | _ => None end).
Definition DeleteState (e : env) : M bool := effect (λ s, if e_delete e then (set_state s None, true) else (s, false)).

(** *** The operations *)

Definition zero_v6 : IPv6Backup := mkV6 [] [].

(** The part [PreLock] and [Enable] share: back up and lock DNS, then IPv6. *)
Definition lock (g : linuxGuard) (e : env) : M (linuxGuard * option bytes * IPv6Backup) :=
  p <- backupDNS g;
  _ <- setDNS (fst p) e;
  v6 <- backupIPv6 e;
  _ <- disableIPv6 e;
  done (p, default zero_v6 v6).
(** The link is recorded only with a backup. *)
Definition locked_state (p : linuxGuard * option bytes * IPv6Backup) (b : backend) (rules : list fwcmd) : State :=
  let '(g, dns, v6) := p in
  mkState dns v6 (match dns with Some _ => wasSymlink g | None => false end) (match dns with Some _ => symlinkTarget g | None => [] end) b rules.

Definition PreLock (g : linuxGuard) (e : env) : M linuxGuard :=
  if preLocked g then done g else
  p <- lock g e;
  _ <- SaveState e (locked_state p NoBackend []);
  done (let g1 := fst (fst p) in mkGuard (g_backend g1) true (wasSymlink g1) (symlinkTarget g1)).

Definition detectBackend (e : env) : backend := if e_nft e then NFTables else IPTables.

(** [false]: an error is returned. *)
Definition Enable (g : linuxGuard) (e : env) (cfg : LeakGuardConfig) : M (linuxGuard * bool) :=
  if negb (Validate cfg) then done (g, false) else
  let g := mkGuard (detectBackend e) (preLocked g) (wasSymlink g) (symlinkTarget g) in
  p <- (if preLocked g then
          prev <- LoadState;
          done (g, match prev with
                   | Some st => mkState (DNSBackup st) (IPv6Saved st) (ResolvConfWasSymlink st) (ResolvConfTarget st) (g_backend g) []
                   | None => mkState None zero_v6 false [] (g_backend g) []
                   end)
        else p <- lock g e; done (fst (fst p), locked_state p (g_backend g) []));
  let '(g, st) := p in
  rules <- enableKillSwitch g e cfg;
  match rules with
  | None => _ <- restoreDNS g e (DNSBackup st); _ <- restoreIPv6 e (IPv6Saved st); done (g, false)
  | Some l =>
    ok <- SaveState e (mkState (DNSBackup st) (IPv6Saved st) (ResolvConfWasSymlink st) (ResolvConfTarget st) (Backend st) l);
    done (g, ok)
  end.

Definition blindCleanup : M bool := _ <- cleanupIPTables; cleanupNFTables.

(** Undoing what a state says. *)
Definition undo (g : linuxGuard) (e : env) (st : State) : M (linuxGuard * bool) :=
  let g := mkGuard (Backend st) (preLocked g) (ResolvConfWasSymlink st) (ResolvConfTarget st) in
  ok1 <- disableKillSwitch g;
  ok2 <- restoreDNS g e (DNSBackup st);
  ok3 <- restoreIPv6 e (IPv6Saved st);
  ok4 <- DeleteState e;
  done (g, ok1 && ok2 && ok3 && ok4).

Definition Disable (g : linuxGuard) (e : env) : M (linuxGuard * bool) :=
  prev <- LoadState;
  match prev with
  | None => _ <- blindCleanup; done (g, true)
  | Some st => undo g e st
  end.

Definition crashRecover (g : linuxGuard) (e : env) : M linuxGuard :=
  prev <- LoadState;
  match prev with
  | None => _ <- blindCleanup; _ <- DeleteState e; done g
  | Some st => r <- undo g e st; done (fst r)
  end.

(** [New] *)
Definition New (e : env) : M linuxGuard :=
  stale <- look (λ s, bool_decide (is_Some (sy_state s)));
  if stale : bool then crashRecover new_guard e else done new_guard.
End guard.

(** ** What the rules let through *)

(** The specification: through the tunnel and the loopback, to the servers on their
    port, DHCP, the escapes by UDP, the direct resolvers by UDP on port 53 and, with a
    split tunnel, local networks and (where supported) the bypassed ranges. *)
Definition allowed (cfg : LeakGuardConfig) (ru : bool) (p : packet) : bool :=
  bytes_eqb (pk_oif p) (TunName cfg) || bytes_eqb (pk_oif p) (str "lo")
  || (existsb (dst_is p) (AllServerIPs cfg) && (bool_decide (pk_proto p = Tcp) || bool_decide (pk_proto p = Udp)) && (pk_dport p =? ServerPort cfg))
  || (bool_decide (pk_proto p = Udp) && (pk_sport p =? 68) && (pk_dport p =? 67))
  || (existsb (dst_is p) (ExtraEscapeIPs cfg) && bool_decide (pk_proto p = Udp))
  || (existsb (dst_is p) DefaultYandexIPs && bool_decide (pk_proto p = Udp) && (pk_dport p =? 53))
  || (cf_SplitTunnel cfg && (existsb (in_pfx p) LANRanges || (ru && existsb (in_pfx p) (BypassRanges cfg)))).

Definition untouched (v : fwview) : Prop := v_chain v = None ∧ v_jumps v = 0%nat ∧ v_ipset v = None ∧ v_table v = None.

(** The rules in order, as matchers before the final drop. *)
Definition plan_matchers (plan : KillSwitchPlan) (ru : bool) : list matcher :=
  [MOut (pl_TunName plan)] ++ map fst (server_rules plan) ++ (if pl_Loopback plan then [MOut (str "lo")] else []) ++ (if pl_DHCP plan then [MUdpPorts 68 67] else [])
  ++ map (λ ip, MDst ip Udp None) (pl_ExtraEscape plan) ++ map (λ ip, MDst ip Udp (Some 53)) (pl_DNSAllow plan)
  ++ (if pl_SplitTunnel plan then map MNet (pl_LANAllow plan) ++ (if ru then [MSet] else []) else []).
Definition plan_rules (plan : KillSwitchPlan) (ru : bool) : list frule := map accept (plan_matchers plan ru) ++ [(MAny, false)].

Lemma first_match_accepts set ms p : first_match set (map accept ms ++ [(MAny, false)]) p = existsb (λ m, matches set m p) ms.
Proof. induction ms as [| m ms IH]; [done |]. cbn. destruct (matches set m p); [done | exact IH]. Qed.

Lemma existsb_and {A} (f : A → bool) (b : bool) l : existsb (λ x, f x && b) l = existsb f l && b.
Proof. induction l as [| x l IH]; [done |]. cbn. rewrite IH. by destruct (f x), b, (existsb f l). Qed.

Lemma existsb_map {A B} (f : B → bool) (g : A → B) l : existsb f (map g l) = existsb (λ x, f (g x)) l.
Proof. induction l as [| x l IH]; [done |]. cbn. by rewrite IH. Qed.

Lemma existsb_same {A} (f g : A → bool) l : (∀ x, f x = g x) → existsb f l = existsb g l.
Proof. intros H. induction l as [| x l IH]; [done |]. cbn. by rewrite H, IH. Qed.

Lemma existsb_dedup p seen l : existsb (in_pfx p) seen || existsb (in_pfx p) (dedup_from seen l) = existsb (in_pfx p) seen || existsb (in_pfx p) l.
Proof.
  revert seen. induction l as [| n l IH]; intros seen; [done |]. cbn [dedup_from existsb]. destruct (px_v6 n) eqn:Ev.
  - rewrite IH. assert (in_pfx p n = false) as -> by (unfold in_pfx; by rewrite Ev, andb_false_r). done.
  - case_decide as Hin.
    + rewrite IH. destruct (in_pfx p n) eqn:En; [| done]. assert (existsb (in_pfx p) seen = true) as -> by (apply existsb_exists; exists n; split; [by apply list_elem_of_In | done]). done.
    + cbn [existsb]. specialize (IH (n :: seen)). cbn [existsb] in IH. destruct (in_pfx p n), (existsb (in_pfx p) seen); cbn in *; done.
Qed.

Lemma plan_allows cfg ru p set : set = (if cf_SplitTunnel cfg && ru then dedupV4Prefixes (BypassRanges cfg) else []) →
  existsb (λ m, matches set m p) (plan_matchers (BuildKillSwitchPlan cfg ru) (negb (bool_decide (set = [])))) = allowed cfg ru p.
Proof.
  intros Hset. unfold plan_matchers, BuildKillSwitchPlan, server_rules. cbn [pl_TunName pl_ServerIPs pl_ServerPort pl_Loopback pl_DHCP pl_ExtraEscape pl_DNSAllow pl_SplitTunnel pl_LANAllow].
  rewrite !existsb_app. cbn [existsb matches]. rewrite !existsb_map.
  assert (existsb (λ x, matches set (fst x) p) (concat (map (λ ip, [accept (MDst ip Tcp (Some (ServerPort cfg))); accept (MDst ip Udp (Some (ServerPort cfg)))]) (AllServerIPs cfg)))
    = existsb (dst_is p) (AllServerIPs cfg) && (bool_decide (pk_proto p = Tcp) || bool_decide (pk_proto p = Udp)) && (pk_dport p =? ServerPort cfg)) as ->.
  { induction (AllServerIPs cfg) as [| a l IH]; [done |]. cbn [map concat app existsb accept fst matches]. rewrite IH. destruct (dst_is p a), (existsb (dst_is p) l), (bool_decide (pk_proto p = Tcp)), (bool_decide (pk_proto p = Udp)), (pk_dport p =? ServerPort cfg); done. }
  assert (∀ l, existsb (λ x, matches set (MDst x Udp None) p) l = existsb (dst_is p) l && bool_decide (pk_proto p = Udp)) as ->.
  { intros l. rewrite <- existsb_and. apply existsb_same. intros a. cbn. by rewrite andb_true_r. }
  assert (∀ l, existsb (λ x, matches set (MDst x Udp (Some 53)) p) l = existsb (dst_is p) l && bool_decide (pk_proto p = Udp) && (pk_dport p =? 53)) as ->.
  { intros l. rewrite <- !existsb_and. apply existsb_same. intros a. done. }
  assert (existsb (λ m, matches set m p) (if cf_SplitTunnel cfg then map MNet (if cf_SplitTunnel cfg then LANRanges else []) ++ (if negb (bool_decide (set = [])) then [MSet] else []) else [])
    = cf_SplitTunnel cfg && (existsb (in_pfx p) LANRanges || (ru && existsb (in_pfx p) (BypassRanges cfg)))) as ->.
  { destruct (cf_SplitTunnel cfg); [| done]. rewrite existsb_app, existsb_map. cbn [andb matches]. f_equal. cbn [andb] in Hset.
    assert (existsb (in_pfx p) set = ru && existsb (in_pfx p) (BypassRanges cfg)) as <-.
    { subst set. destruct ru; [| done]. pose proof (existsb_dedup p [] (BypassRanges cfg)) as H. cbn in H. exact H. }
    case_bool_decide as E; cbn [negb]; [by rewrite E | cbn; by rewrite orb_false_r]. }
  unfold allowed. rewrite !orb_false_r. rewrite !orb_assoc. f_equal. f_equal. f_equal. f_equal.
  destruct (bytes_eqb (pk_oif p) (TunName cfg)); [done |]. cbn [orb]. by rewrite orb_comm.
Qed.

(** ** The commands install the rules *)

Definition apply_all (cmds : list fwcmd) (v : fwview) : fwview := foldl (λ v c, apply_cmd c v) v cmds.

Lemma apply_all_app a b v : apply_all (a ++ b) v = apply_all b (apply_all a v).
Proof. apply foldl_app. Qed.

Lemma nft_add_rules rs v l set : v_table v = Some (Some l, set) → apply_all (map NftAddRule rs) v = with_table v (Some (Some (l ++ rs), set)).
Proof.
  revert v l. induction rs as [| r rs IH]; intros v l Hv; [rewrite app_nil_r; destruct v; cbn in *; by rewrite <- Hv |].
  cbn [map apply_all foldl]. change (foldl _ ?x (map NftAddRule rs)) with (apply_all (map NftAddRule rs) x). rewrite (IH _ (l ++ [r])) by (cbn; by rewrite Hv). by rewrite <- app_assoc.
Qed.
Lemma ipt_add_rules rs v l : v_chain v = Some l → apply_all (map IptAppend rs) v = with_chain v (Some (l ++ rs)).
Proof.
  revert v l. induction rs as [| r rs IH]; intros v l Hv; [rewrite app_nil_r; destruct v; cbn in *; by rewrite <- Hv |].
  cbn [map apply_all foldl]. change (foldl _ ?x (map IptAppend rs)) with (apply_all (map IptAppend rs) x). rewrite (IH _ (l ++ [r])) by (cbn; by rewrite Hv). by rewrite <- app_assoc.
Qed.
Lemma ipset_add ns v s : v_ipset v = Some s → apply_all (map IpsetAdd ns) v = mkView (v_chain v) (v_jumps v) (Some (s ++ ns)) (v_table v).
Proof.
  revert v s. induction ns as [| n ns IH]; intros v s Hv; [rewrite app_nil_r; destruct v; cbn in *; by rewrite <- Hv |].
  cbn [map apply_all foldl]. change (foldl _ ?x (map IpsetAdd ns)) with (apply_all (map IpsetAdd ns) x). rewrite (IH _ (s ++ [n])) by (cbn; by rewrite Hv). by rewrite <- app_assoc.
Qed.

(** The rules before the set, as both generators list them. *)
Definition head_matchers (plan : KillSwitchPlan) : list matcher := plan_matchers plan false.

Lemma plan_rules_split plan ru : plan_rules plan (pl_SplitTunnel plan && ru) = map accept (head_matchers plan) ++ (if pl_SplitTunnel plan && ru then [accept MSet] else []) ++ [(MAny, false)].
Proof.
  unfold plan_rules, head_matchers, plan_matchers. destruct (pl_SplitTunnel plan), ru; cbn [andb]; cbn iota; rewrite ?app_nil_r; try done;
    rewrite !map_app, <- !app_assoc; done.
Qed.

Lemma nft_commands_shape plan :
  linuxNFTCommands plan = [NftAddTable; NftAddChain] ++ map NftAddRule (map accept (head_matchers plan))
    ++ (if pl_SplitTunnel plan && negb (bool_decide (pl_RUAllow plan = [])) then [NftAddSet; NftAddElements (pl_RUAllow plan)] else [])
    ++ map NftAddRule ((if pl_SplitTunnel plan && negb (bool_decide (pl_RUAllow plan = [])) then [accept MSet] else []) ++ [(MAny, false)]).
Proof.
  unfold linuxNFTCommands, head_matchers, plan_matchers, server_rules. rewrite !map_app, !map_map.
  assert (∀ l, map (λ x : frule, NftAddRule (accept (fst x))) (concat (map (λ ip, [accept (MDst ip Tcp (Some (pl_ServerPort plan))); accept (MDst ip Udp (Some (pl_ServerPort plan)))]) l))
    = map NftAddRule (concat (map (λ ip, [accept (MDst ip Tcp (Some (pl_ServerPort plan))); accept (MDst ip Udp (Some (pl_ServerPort plan)))]) l))) as ->.
  { intros l. induction l as [| a l IH]; [done |]. cbn. by rewrite IH. }
  rewrite <- !app_assoc.
  destruct (pl_Loopback plan), (pl_DHCP plan), (pl_SplitTunnel plan); cbn [map app andb]; rewrite ?map_app, ?map_map, ?app_nil_r, <- ?app_assoc; cbn [map app]; rewrite ?app_nil_r;
    try (case_decide; case_bool_decide; try done); try done.
Qed.

Lemma ipt_commands_shape plan ipset :
  let ru := pl_SplitTunnel plan && negb (bool_decide (pl_RUAllow plan = [])) && ipset in
  linuxIPTablesCommands plan ipset = (if ru then IpsetCreate :: map IpsetAdd (pl_RUAllow plan) else []) ++ [IptNewChain; IptJump]
    ++ map IptAppend (map accept (head_matchers plan) ++ (if ru then [accept MSet] else []) ++ [(MAny, false)]).
Proof.
  intros ru. unfold linuxIPTablesCommands, head_matchers, plan_matchers, server_rules. fold ru. rewrite !map_app, !map_map.
  assert (∀ l, map (λ x : frule, IptAppend (accept (fst x))) (concat (map (λ ip, [accept (MDst ip Tcp (Some (pl_ServerPort plan))); accept (MDst ip Udp (Some (pl_ServerPort plan)))]) l))
    = map IptAppend (concat (map (λ ip, [accept (MDst ip Tcp (Some (pl_ServerPort plan))); accept (MDst ip Udp (Some (pl_ServerPort plan)))]) l))) as ->.
  { intros l. induction l as [| a l IH]; [done |]. cbn. by rewrite IH. }
  rewrite <- !app_assoc. f_equal. assert (pl_SplitTunnel plan = false → ru = false) as Hru by (unfold ru; by intros ->).
  destruct (pl_Loopback plan), (pl_DHCP plan), (pl_SplitTunnel plan); cbn [map app]; rewrite ?map_app, ?map_map, ?app_nil_r, <- ?app_assoc; cbn [map app]; rewrite ?app_nil_r;
    try (by destruct ru); rewrite (Hru eq_refl); done.
Qed.

Lemma nft_applied plan v : untouched v → apply_all (linuxNFTCommands plan) v
  = with_table v (Some (Some (plan_rules plan (pl_SplitTunnel plan && negb (bool_decide (pl_RUAllow plan = [])))), if pl_SplitTunnel plan && negb (bool_decide (pl_RUAllow plan = [])) then Some (pl_RUAllow plan) else None)).
Proof.
  intros (H1 & H2 & H3 & H4). destruct v as [? ? ? ?]. cbn in H1, H2, H3, H4. subst. rewrite nft_commands_shape, plan_rules_split. set (ru := negb _). rewrite !apply_all_app.
  rewrite (nft_add_rules (map accept (head_matchers plan)) _ [] None) by done. destruct (pl_SplitTunnel plan && ru).
  - rewrite (nft_add_rules _ _ (map accept (head_matchers plan)) (Some (pl_RUAllow plan))) by done. done.
  - rewrite (nft_add_rules _ _ (map accept (head_matchers plan)) None) by done. done.
Qed.

Lemma ipt_applied plan ipset v : untouched v →
  let ru := pl_SplitTunnel plan && (negb (bool_decide (pl_RUAllow plan = [])) && ipset) in
  apply_all (linuxIPTablesCommands plan ipset) v = mkView (Some (plan_rules plan ru)) 1 (if ru then Some (pl_RUAllow plan) else None) (v_table v).
Proof.
  intros (H1 & H2 & H3 & H4) ru. destruct v as [? ? ? ?]. cbn in H1, H2, H3, H4. subst. rewrite ipt_commands_shape, <- andb_assoc. unfold ru. rewrite plan_rules_split. fold ru. rewrite !apply_all_app.
  destruct ru.
  - change (IpsetCreate :: map IpsetAdd (pl_RUAllow plan)) with ([IpsetCreate] ++ map IpsetAdd (pl_RUAllow plan)). rewrite apply_all_app, (ipset_add _ _ []), (ipt_add_rules _ _ []) by done. done.
  - rewrite (ipt_add_rules _ _ []) by done. done.
Qed.

(** ** Reasoning about operations that can be killed *)

Section logic.
Context `{NF : NetFilter} (R : sys → Prop).

(** From [P], a run that ends returns [a] in [Q a], and a killed one leaves [R]. *)
Definition triple {A} (P : sys → Prop) (m : M A) (Q : A → sys → Prop) : Prop :=
  ∀ k s k' s' r, P s → m k s = (k', s', r) → match r with Some a => Q a s' | None => R s' end.

Lemma triple_done {A} (a : A) P (Q : A → sys → Prop) : (∀ s, P s → Q a s) → triple P (done a) Q.
Proof. intros H k s k' s' r Hp [= <- <- <-]. by apply H. Qed.
Lemma triple_look {A} (f : sys → A) P (Q : A → sys → Prop) : (∀ s, P s → Q (f s) s) → triple P (look f) Q.
Proof. intros H k s k' s' r Hp [= <- <- <-]. by apply H. Qed.
Lemma triple_bind {A B} (m : M A) (f : A → M B) P (Q : A → sys → Prop) (Q' : B → sys → Prop) :
  triple P m Q → (∀ a, triple (Q a) (f a) Q') → triple P (bind m f) Q'.
Proof.
  intros Hm Hf k s k' s' r Hp E. unfold bind in E. destruct (m k s) as [[k1 s1] [a |]] eqn:Em; specialize (Hm _ _ _ _ _ Hp Em); cbn in Hm.
  - by eapply Hf.
  - by injection E as <- <- <-.
Qed.
Lemma triple_effect (f : sys → sys * bool) P (Q : bool → sys → Prop) :
  (∀ s, P s → R s ∧ Q (snd (f s)) (fst (f s))) → triple P (effect f) Q.
Proof.
  intros H k s k' s' r Hp E. destruct (H s Hp) as [Hr Hq]. unfold effect in E. destruct k as [[| n] |]; [by injection E as <- <- <- | |];
    destruct (f s) as [s1 ok]; by injection E as <- <- <-.
Qed.
Lemma triple_save e st P (Q : bool → sys → Prop) : e_torn e = false →
  (∀ s, P s → R s ∧ Q (snd (write_state e st s)) (fst (write_state e st s))) → triple P (SaveState e st) Q.
Proof.
  intros Ht H k s k' s' r Hp E. unfold SaveState in E. rewrite Ht in E. apply (triple_effect (write_state e st) P Q H k s k' s' r Hp). by destruct k as [[|] |].
Qed.
Lemma triple_weaken {A} (m : M A) P P' (Q Q' : A → sys → Prop) : triple P m Q → (∀ s, P' s → P s) → (∀ a s, Q a s → Q' a s) → triple P' m Q'.
Proof. intros H HP HQ k s k' s' r Hp E. specialize (H _ _ _ _ _ (HP _ Hp) E). destruct r; [by apply HQ | done]. Qed.
End logic.

(** An operation that is not killed ends. *)
Definition ends `{NetFilter} {A} (m : M A) : Prop := ∀ s, ∃ s' a, m None s = (None, s', Some a).

Section ends.
Context `{NF : NetFilter}.
Lemma ends_done {A} (a : A) : ends (done a).
Proof. intros s. by exists s, a. Qed.
Lemma ends_look {A} (f : sys → A) : ends (look f).
Proof. intros s. by exists s, (f s). Qed.
Lemma ends_effect f : ends (effect f).
Proof. intros s. unfold effect. destruct (f s) as [s' ok] eqn:E. by exists s', ok. Qed.
Lemma ends_bind {A B} (m : M A) (f : A → M B) : ends m → (∀ a, ends (f a)) → ends (bind m f).
Proof. intros Hm Hf s. destruct (Hm s) as (s1 & a & E). destruct (Hf a s1) as (s2 & b & E'). exists s2, b. unfold bind. by rewrite E. Qed.
End ends.

Ltac ends := repeat first [apply ends_bind; [| intros ?] | apply ends_done | apply ends_look | apply ends_effect | case_match; try done | progress cbn [fst snd]].

Section ended.
Context `{NF : NetFilter} (lines : bytes → list bytes).
Lemma ends_keys e keys v : ends (write_keys e keys v).
Proof. induction keys as [| k keys IH]; cbn [write_keys]; [apply ends_done |]. apply ends_bind; [apply ends_effect | intros ?]. apply ends_bind; [exact IH | intros ?; apply ends_done]. Qed.
Lemma ends_cleanup : ends cleanupIPTables ∧ ends cleanupNFTables.
Proof. split; unfold cleanupIPTables, cleanupNFTables, run_fw; ends. Qed.
Lemma ends_restoreDNS g e b : ends (restoreDNS lines g e b).
Proof. unfold restoreDNS, resolvectl. ends. Qed.
Lemma ends_undo g e st : ends (undo lines g e st).
Proof.
  unfold undo, disableKillSwitch. apply ends_bind; [case_match; apply ends_cleanup | intros ?]. apply ends_bind; [apply ends_restoreDNS | intros ?].
  apply ends_bind; [unfold restoreIPv6; apply ends_bind; [apply ends_keys | intros ?; apply ends_done] | intros ?]. apply ends_bind; [apply ends_effect | intros ?; apply ends_done].
Qed.
Lemma ends_blind : ends blindCleanup.
Proof. unfold blindCleanup. apply ends_bind; [apply ends_cleanup | intros ?; apply ends_cleanup]. Qed.
Lemma ends_New e : ends (New lines e).
Proof.
  unfold New, crashRecover, LoadState. apply ends_bind; [apply ends_look | intros [|]; [| apply ends_done]]. apply ends_bind; [apply ends_look | intros [st |]].
  - apply ends_bind; [apply ends_undo | intros ?; apply ends_done].
  - apply ends_bind; [apply ends_blind | intros ?]. apply ends_bind; [apply ends_effect | intros ?; apply ends_done].
Qed.
Lemma ends_Disable g e : ends (Disable lines g e).
Proof. unfold Disable, LoadState. apply ends_bind; [apply ends_look | intros [st |]]; [apply ends_undo | apply ends_bind; [apply ends_blind | intros ?; apply ends_done]]. Qed.
End ended.

(** ** Restoring the machine *)

(** Everything the guard does to files and kernel parameters succeeds, no write of the
    state file is cut short, and no service manages [resolv.conf]. *)
Definition works (e : env) : Prop :=
  managed e = false ∧ e_write e = true ∧ e_symlink e = true ∧ e_save e = true ∧ e_delete e = true ∧ e_torn e = false ∧ e_sysctl_read e = true ∧ ∀ k, e_sysctl e k = true.

Section recovery.
Context `{NF : NetFilter} `{NFL : !NetFilterLaws} (lines : bytes → list bytes).
Context (s0 : sys) (keys : list bytes) (v0 original : bytes).

(** The machine before: no rules of ours, no state file, a readable [resolv.conf] that is
    not empty, and one value of [disable_ipv6] for the keys of [keys]. *)
Record machine_ok : Prop := {
  mo_fw : untouched (view (sy_fw s0)); mo_state : sy_state s0 = None;
  mo_resolv : read_resolv s0 = Some original ∧ original ≠ [] ∧ sy_resolv s0 ≠ Some (Symlink []);
  mo_keys : v0 ≠ [] ∧ keys ≠ [] ∧ key_all ∈ keys ∧ Forall (λ k, sy_sysctl s0 !! k = Some v0) keys;
}.
Context (Hok : machine_ok).

Definition link : option bytes := match sy_resolv s0 with Some (Symlink t) => Some t | _ => None end.
Definition knows_link (was : bool) (target : bytes) : Prop := was = bool_decide (is_Some link) ∧ target = default [] link.

Definition saved (st : State) : Prop :=
  DNSBackup st = Some original ∧ IPv6Saved st = mkV6 keys v0 ∧ knows_link (ResolvConfWasSymlink st) (ResolvConfTarget st) ∧ Backend st ≠ NFTables.

(** Rules as [Enable] may leave them with iptables. *)
Definition partial (v : fwview) : Prop := v_table v = None ∧ (v_jumps v = 0%nat ∨ (v_jumps v = 1%nat ∧ is_Some (v_chain v))).

Definition near (s : sys) : Prop :=
  sy_files s = sy_files s0 ∧ (link = None → ∃ c, sy_resolv s = Some (Regular c)) ∧ (∀ k, k ∉ keys → sy_sysctl s !! k = sy_sysctl s0 !! k).

Definition recoverable (s : sys) : Prop := (∃ st, sy_state s = Some (Some st) ∧ saved st) ∧ partial (view (sy_fw s)) ∧ near s.
Definition restored (s : sys) : Prop :=
  untouched (view (sy_fw s)) ∧ sy_resolv s = sy_resolv s0 ∧ sy_files s = sy_files s0 ∧ sy_sysctl s = sy_sysctl s0 ∧ sy_state s = None.

Lemma untouched_partial v : untouched v → partial v.
Proof. intros (? & ? & ? & ?). split; [done | by left]. Qed.

#[local] Notation hoare := (triple recoverable).

Lemma fw_triple c (P Q : fwview → Prop) :
  (∀ v, P v → partial v) → (∀ v, P v → removable c v = false → Q v) → (∀ v, P v → Q (apply_cmd c v)) → (∀ v, Q v → partial v) →
  hoare (λ s, recoverable s ∧ P (view (sy_fw s))) (run_fw c) (λ _ s, recoverable s ∧ Q (view (sy_fw s))).
Proof.
  intros HP Hf Hs HQ. apply triple_effect. intros s [(Hst & _ & Hn) Hp]. split; [split_and!; [done | by apply HP | done] |]. destruct (exec c (sy_fw s)) as [f |] eqn:E; cbn [fst snd].
  - apply exec_view in E. cbn [set_fw sy_fw]. rewrite E. split; [| by apply Hs]. split_and!; [done | cbn; rewrite E; by apply HQ, Hs | done].
  - assert (removable c (view (sy_fw s)) = false) as Hr by (destruct (removable c (view (sy_fw s))) eqn:Er; [apply exec_remove in Er as [? ?]; congruence | done]).
    pose proof (Hf _ Hp Hr) as Hq. split; [split_and!; [done | by apply HQ | done] | done].
Qed.

Lemma cleanup_triple : hoare recoverable cleanupIPTables (λ _ s, recoverable s ∧ untouched (view (sy_fw s))).
Proof.
  unfold cleanupIPTables. set (nojump := λ v, v_table v = None ∧ v_jumps v = 0%nat). set (flushed := λ v, nojump v ∧ (v_chain v = None ∨ v_chain v = Some [])). set (bare := λ v, nojump v ∧ v_chain v = None).
  eapply triple_bind; [eapply triple_weaken; [apply (fw_triple IptDeleteJump partial nojump); [done | | | by intros v [? ?]; split; [| left]] | intros s Hs; split; [done | apply Hs] | by intros ? ? ?] |].
  { intros v [Ht [Hj | [Hj _]]] Hr; [done |]. cbn in Hr. by rewrite Hj in Hr. }
  { intros v [Ht [Hj | [Hj _]]]; split; cbn; (done || lia). }
  intros ?. eapply triple_bind; [apply (fw_triple IptFlush nojump flushed) |].
  { by intros v [? ?]; split; [| left]. }
  { intros v Hv Hr. split; [done |]. cbn in Hr. apply bool_decide_eq_false in Hr. left. destruct (v_chain v); [exfalso; apply Hr; by eexists | done]. }
  { intros v [? ?]. split; [done | by right]. }
  { by intros v [[? ?] _]; split; [| left]. }
  intros ?. eapply triple_bind; [apply (fw_triple IptDeleteChain flushed bare) |].
  { by intros v [[? ?] _]; split; [| left]. }
  { intros v [[Ht Hj] [Hc | Hc]] Hr; [done |]. cbn in Hr. rewrite Hc, Hj in Hr. done. }
  { intros v [[? ?] _]. split; [done | done]. }
  { by intros v [[? ?] _]; split; [| left]. }
  intros ?. eapply triple_bind; [apply (fw_triple IpsetDestroy bare untouched) |].
  { by intros v [[? ?] _]; split; [| left]. }
  { intros v [[Ht Hj] Hc] Hr. cbn in Hr. rewrite Hc, andb_true_r in Hr. apply bool_decide_eq_false in Hr. split_and!; try done. destruct (v_ipset v); [exfalso; apply Hr; by eexists | done]. }
  { intros v [[? ?] ?]. split_and!; done. }
  { apply untouched_partial. }
  intros ?. apply triple_done. done.
Qed.


Definition dns_back (s : sys) : Prop := recoverable s ∧ untouched (view (sy_fw s)) ∧ sy_resolv s = sy_resolv s0.

Lemma link_cases : match sy_resolv s0 with Some (Symlink t) => link = Some t ∧ t ≠ [] | Some (Regular c) => link = None ∧ c = original | None => False end.
Proof.
  destruct Hok as [_ _ (Hr & _ & Hn) _]. unfold link, read_resolv in *. destruct (sy_resolv s0) as [[c | t] |]; [split; congruence | split; [done | congruence] | done].
Qed.

Lemma dns_triple g e : works e → knows_link (wasSymlink g) (symlinkTarget g) →
  hoare (λ s, recoverable s ∧ untouched (view (sy_fw s))) (restoreDNS lines g e (Some original)) (λ _, dns_back).
Proof.
  intros (Hm & Hw & Hl & _) [Hk1 Hk2]. unfold restoreDNS. pose proof link_cases as Hc. destruct Hok as [_ _ (_ & Hne & _) _].
  assert (len original =? 0 = false) as -> by (apply Z.eqb_neq; unfold len; destruct original; cbn; [done | lia]). rewrite Hm, Hk1, Hk2.
  destruct (sy_resolv s0) as [[c | t] |] eqn:E0; [| | done]; destruct Hc as [Hlk Hc]; rewrite Hlk; cbn [default from_option id].
  - rewrite bool_decide_eq_false_2 by (intros [? ?]; done). cbn [andb]. apply triple_effect. intros s [Hr Hu]. split; [done |]. unfold write_resolv. rewrite Hw. cbn [negb].
    destruct Hr as (Hst & Hp & Hf & Hre & Hs). destruct (Hre Hlk) as [x ->]. cbn [fst]. unfold dns_back. rewrite E0, Hc. split_and!; [| done | done]. split_and!; [done | done |]. split_and!; [done | | done]. intros _. by eexists.
  - rewrite bool_decide_eq_true_2 by by eexists. assert (len t =? 0 = false) as -> by (apply Z.eqb_neq; unfold len; destruct t; cbn; [done | lia]). cbn [andb negb].
    assert (∀ s r, recoverable s → recoverable (set_dns s r (sy_files s) (sy_manager s))) as Hset by (intros s r (? & ? & ? & ? & ?); split_and!; try done; split_and!; [done | congruence | done]).
    eapply triple_bind; [apply (triple_effect _ _ _ (λ _ s, recoverable s ∧ untouched (view (sy_fw s)))) |].
    { intros s [Hr Hu]. split; [done |]. cbn [fst snd]. split; [by apply Hset | done]. }
    intros ?. eapply triple_bind; [apply (triple_effect _ _ _ (λ b s, b = true ∧ dns_back s)) |].
    { intros s [Hr Hu]. split; [done |]. rewrite Hl. cbn [fst snd]. split; [done |]. unfold dns_back. rewrite E0. split; [by apply Hset | done]. }
    intros b. destruct b; [apply triple_done; by intros s [_ ?] |]. intros k s k' s' r [[=] _].
Qed.

Lemma keys_triple e l dn v (P : sys → Prop) : (∀ k, e_sysctl e k = true) → l ⊆ keys → (∀ s, P s → recoverable s) →
  (∀ s k, k ∈ keys → P s → P (set_sysctl s (<[k := v]> (sy_sysctl s)))) →
  hoare (λ s, P s ∧ ∀ k, k ∈ dn → sy_sysctl s !! k = Some v) (write_keys e l v) (λ _ s, P s ∧ ∀ k, k ∈ dn ++ l → sy_sysctl s !! k = Some v).
Proof.
  intros He Hl HP Hset. revert dn Hl. induction l as [| x l IH]; intros dn Hl; cbn [write_keys]; [apply triple_done; by rewrite app_nil_r |].
  eapply triple_bind; [apply (triple_effect _ _ _ (λ _ s, P s ∧ ∀ k, k ∈ dn ++ [x] → sy_sysctl s !! k = Some v)) |].
  - intros s [Hp Hd]. split; [by apply HP |]. rewrite He. cbn [fst snd]. split; [apply Hset; [apply Hl; left | done] |]. intros k [Hk | ->%list_elem_of_singleton]%elem_of_app; cbn; [| apply lookup_insert_eq].
    destruct (decide (x = k)) as [-> | Hne]; [apply lookup_insert_eq | rewrite lookup_insert_ne by done; by apply Hd].
  - intros ?. eapply triple_bind; [apply (IH (dn ++ [x])); set_solver |]. intros ?. apply triple_done. intros s. by rewrite <- app_assoc.
Qed.

Lemma near_keys s k v : k ∈ keys → near s → near (set_sysctl s (<[k := v]> (sy_sysctl s))).
Proof. intros Hk (? & ? & Hs). split_and!; [done | done |]. intros k' Hk'. cbn. rewrite lookup_insert_ne by (intros ->; done). by apply Hs. Qed.

Lemma v6_triple e : works e → hoare dns_back (restoreIPv6 e (mkV6 keys v0)) (λ _ s, dns_back s ∧ sy_sysctl s = sy_sysctl s0).
Proof.
  intros (_ & _ & _ & _ & _ & _ & _ & He). unfold restoreIPv6. cbn [OriginalSysctl DisabledInterfaces]. destruct Hok as [_ _ _ (Hv & Hk & _ & Hall)].
  assert (len v0 =? 0 = false) as -> by (apply Z.eqb_neq; unfold len; destruct v0; cbn; [done | lia]).
  rewrite decide_False by done.
  eapply triple_bind; [eapply triple_weaken; [apply (keys_triple e keys [] v0 dns_back He); [done | by intros s [? _] |] | intros s Hs; split; [done | by intros k ?%elem_of_nil] | by intros ? ? ?] |].
  { intros s k Hk' ((Hst & Hp & Hn) & Hu & Hr). split_and!; [| done | done]. split_and!; [done | done | by apply near_keys]. }
  intros ?. apply triple_done. intros s [Hd Hs]. split; [done |]. destruct Hd as ((_ & _ & _ & _ & Hn) & _). apply map_eq. intros k. destruct (decide (k ∈ keys)) as [Hin | Hout]; [| by apply Hn].
  rewrite Hs by done. rewrite Forall_forall in Hall. symmetry. by apply Hall.
Qed.

Lemma undo_triple g e st : works e → saved st → hoare recoverable (undo lines g e st) (λ _, restored).
Proof.
  intros He (H1 & H2 & H3 & H4). unfold undo. rewrite H1, H2. set (g' := mkGuard _ _ _ _).
  eapply triple_bind; [| intros ?; eapply triple_bind; [apply (dns_triple g' e He H3) | intros ?; eapply triple_bind; [apply (v6_triple e He) |
    intros ?; eapply (triple_bind _ _ _ _ (λ _, restored)); [| intros ?; apply triple_done; done]]]].
  - unfold disableKillSwitch. cbn [g' g_backend]. destruct (Backend st); [apply cleanup_triple | apply cleanup_triple | done].
  - destruct He as (_ & _ & _ & _ & Hd & _). apply triple_effect. intros s [(Hr & Hu & Hre) Hs]. split; [done |]. rewrite Hd. cbn [fst]. destruct Hr as (_ & _ & Hf & _). split_and!; done.
Qed.

(** A fresh process, and one that shuts down. *)
Lemma New_triple e : works e → hoare recoverable (New lines e) (λ _, restored).
Proof.
  intros He. unfold New. eapply triple_bind; [apply (triple_look _ _ _ (λ b s, b = true ∧ recoverable s)) |].
  { intros s Hr. split; [| done]. destruct Hr as ((st & -> & _) & _). by apply bool_decide_eq_true_2. }
  intros b. destruct b; [| intros k s k' s' r [[=] _]]. unfold crashRecover, LoadState.
  eapply triple_bind; [apply (triple_look _ _ _ (λ prev s, recoverable s ∧ ∃ st, prev = Some st ∧ saved st)) |].
  { intros s [_ Hr]. split; [done |]. destruct Hr as ((st & -> & Hs) & _). by exists st. }
  intros prev k s k' s' r [Hr (st & -> & Hs)]. revert Hr. generalize k s k' s' r. clear k s k' s' r. apply triple_bind with (Q := λ _, restored); [by apply undo_triple |]. intros ?. by apply triple_done.
Qed.

Lemma Disable_triple g e : works e → hoare recoverable (Disable lines g e) (λ _, restored).
Proof.
  intros He. unfold Disable, LoadState. eapply triple_bind; [apply (triple_look _ _ _ (λ prev s, recoverable s ∧ ∃ st, prev = Some st ∧ saved st)) |].
  { intros s Hr. split; [done |]. destruct Hr as ((st & -> & Hs) & _). by exists st. }
  intros prev k s k' s' r [Hr (st & -> & Hs)] E. exact (undo_triple g e st He Hs k s k' s' r Hr E).
Qed.

(** *** Enabling *)

(** A list of commands that creates the chain before it jumps to it, and jumps once. *)
Fixpoint orderly (cmds : list fwcmd) (chain jumped : bool) : Prop :=
  match cmds with
  | [] => True
  | (IpsetCreate | IpsetAdd _ | IptAppend _) :: cmds' => orderly cmds' chain jumped
  | IptNewChain :: cmds' => orderly cmds' true jumped
  | IptJump :: cmds' => chain = true ∧ jumped = false ∧ orderly cmds' chain true
  | _ => False
  end.
Definition follows (cmds : list fwcmd) (v : fwview) : Prop :=
  v_table v = None ∧ ∃ chain jumped, orderly cmds chain jumped ∧ v_jumps v = (if jumped then 1%nat else 0%nat) ∧ (jumped = true → chain = true) ∧ (chain = true → is_Some (v_chain v)).

Lemma follows_partial cmds v : follows cmds v → partial v.
Proof. intros (Ht & ch & j & _ & Hj & Hc & Hi). split; [done |]. destruct j; [right | by left]. split; [done | by apply Hi, Hc]. Qed.
Lemma follows_step c cmds v : follows (c :: cmds) v → follows cmds (apply_cmd c v).
Proof.
  intros (Ht & ch & j & Ho & Hj & Hc & Hi). split; [by destruct c |].
  destruct c; cbn in Ho; try done; try (exists ch, j; split_and!; cbn; try done; intros Hx; destruct (Hi Hx) as [l El]; rewrite ?El; by eexists).
  - exists true, j. split_and!; cbn; try done.
  - destruct Ho as (-> & -> & Ho). exists true, true. split_and!; cbn; try done; first [by rewrite Hj | intros _; by apply Hi].
Qed.

Lemma run_all_triple cmds rules :
  hoare (λ s, recoverable s ∧ follows cmds (view (sy_fw s))) (run_all cmds cleanupIPTables rules) (λ r s, recoverable s ∧ (r = None → untouched (view (sy_fw s)))).
Proof.
  revert rules. induction cmds as [| c cmds IH]; intros rules; cbn [run_all]; [apply triple_done; by intros s [? _] |].
  eapply triple_bind; [apply (triple_effect _ _ _ (λ ok s, recoverable s ∧ (ok = true → follows cmds (view (sy_fw s))))) |].
  - intros s [(Hst & Hp & Hn) Hf]. split; [done |]. destruct (exec c (sy_fw s)) as [f |] eqn:E; cbn [fst snd]; [| by split].
    apply exec_view in E. assert (follows cmds (view f)) as Hf' by (rewrite E; by apply follows_step). split; [| done]. split_and!; [done | by eapply follows_partial | done].
  - intros ok. destruct ok; [eapply triple_weaken; [apply IH | intros s [? Hf]; split; [done | by apply Hf] | done] |].
    eapply triple_bind; [eapply triple_weaken; [apply cleanup_triple | by intros s [? _] | by intros ? ? ?] |]. intros ?. apply triple_done. intros s [? ?]. by split.
Qed.

Lemma orderly_app_append rs l ch j : orderly l ch j → orderly (map IptAppend rs ++ l) ch j.
Proof. intros H. induction rs as [| r rs IH]; [done | exact IH]. Qed.
Lemma ipt_orderly plan ipset : orderly (linuxIPTablesCommands plan ipset) false false.
Proof.
  rewrite ipt_commands_shape. set (ru := _ && ipset). set (rest := map IptAppend _).
  assert (orderly ([IptNewChain; IptJump] ++ rest) false false) as H.
  { cbn. split_and!; [done | done |]. unfold rest. rewrite <- (app_nil_r (map _ _)). by apply orderly_app_append. }
  destruct ru; [| exact H]. cbn [app orderly]. induction (pl_RUAllow plan) as [| n l IH]; [exact H | exact IH].
Qed.

Lemma untouched_follows plan ipset v : untouched v → follows (linuxIPTablesCommands plan ipset) v.
Proof. intros (? & ? & ? & ?). split; [done |]. exists false, false. split_and!; try done. apply ipt_orderly. Qed.

(** [Enable] after [PreLock], with iptables: killed at any moment or not, successful
    or not, it leaves a machine that can be restored. *)
Lemma Enable_triple g e cfg : works e → e_nft e = false → preLocked g = true → knows_link (wasSymlink g) (symlinkTarget g) →
  hoare (λ s, recoverable s ∧ untouched (view (sy_fw s))) (Enable lines g e cfg) (λ _, recoverable).
Proof.
  intros He Hn Hpl Hk. unfold Enable. destruct (negb (Validate cfg)); [apply triple_done; by intros s [? _] |]. cbn [preLocked]. rewrite Hpl. unfold detectBackend. rewrite Hn. set (g1 := mkGuard IPTables _ _ _).
  eapply (triple_bind _ _ _ _ (λ p s, recoverable s ∧ untouched (view (sy_fw s)) ∧ fst p = g1 ∧ saved (snd p))).
  { eapply (triple_bind _ _ _ _ (λ prev s, recoverable s ∧ untouched (view (sy_fw s)) ∧ ∃ st, prev = Some st ∧ saved st)).
    - apply triple_look. intros s [Hr Hu]. split_and!; [done | done |]. destruct Hr as ((st & -> & Hs) & _). by exists st.
    - intros prev. apply triple_done. intros s (Hr & Hu & st & -> & H1 & H2 & H3 & H4). cbn [fst snd]. split_and!; try done. }
  intros [g2 st] k s k' s' r (Hr & Hu & Hg & Hs). cbn [fst snd] in Hg, Hs. subst g2. cbn beta iota. generalize (conj Hr Hu). revert k s k' s' r Hr Hu. cut (hoare (λ s, recoverable s ∧ untouched (view (sy_fw s)))
    (bind (enableKillSwitch g1 e cfg) (λ rules, match rules with
      | None => bind (restoreDNS lines g1 e (DNSBackup st)) (λ _, bind (restoreIPv6 e (IPv6Saved st)) (λ _, done (g1, false)))
      | Some l => bind (SaveState e (mkState (DNSBackup st) (IPv6Saved st) (ResolvConfWasSymlink st) (ResolvConfTarget st) (Backend st) l)) (λ ok, done (g1, ok)) end)) (λ _, recoverable)).
  { intros H k s k' s' r _ _ Hp. by apply H. }
  destruct Hs as (H1 & H2 & H3 & H4).
  eapply triple_bind; [eapply triple_weaken; [apply (run_all_triple (linuxIPTablesCommands (BuildKillSwitchPlan cfg (e_ipset e)) (e_ipset e)) []) | intros s [? ?]; split; [done | by apply untouched_follows] | by intros ? ? ?] |].
  intros [l |].
  - eapply (triple_bind _ _ _ _ (λ _, recoverable)); [| intros ?; apply triple_done; done]. destruct He as (_ & _ & _ & Hsv & _ & Ht & _). apply (triple_save _ _ _ _ _ Ht). intros s [(Hst & Hp & Hnr) _]. split; [done |]. unfold write_state. rewrite Hsv. cbn [fst]. split_and!; [eexists; split; [done |]; done | done | done].
  - rewrite H1, H2. eapply triple_bind; [eapply triple_weaken; [apply (dns_triple g1 e He Hk) | intros s [? Hu]; split; [done | by apply Hu] | by intros ? ? ?] |].
    intros ?. eapply triple_bind; [apply (v6_triple e He) |]. intros ?. apply triple_done. by intros s [[? _] _].
Qed.

(** [PreLock] on the machine as it was. *)
Lemma PreLock_recoverable e s1 g : works e → keys = ipv6DisableSysctlKeys (listIPv6Interfaces e) →
  PreLock new_guard e None s0 = (None, s1, Some g) → recoverable s1 ∧ untouched (view (sy_fw s1)) ∧ preLocked g = true ∧ knows_link (wasSymlink g) (symlinkTarget g).
Proof.
  intros He Hkeys. pose proof link_cases as Hc. destruct Hok as [Hu Hst (Hr & Hne & _) (Hv & Hk & Hall & Hkv)]. destruct He as (Hm & Hw & _ & Hsv & _ & _ & Hrd & Hsy).
  assert (sy_sysctl s0 !! key_all = Some v0) as Hka by (rewrite Forall_forall in Hkv; by apply Hkv).
  assert (∀ l s, l ⊆ keys → ∃ s', write_keys e l (str "1") None s = (None, s', Some true) ∧ sy_fw s' = sy_fw s ∧ sy_resolv s' = sy_resolv s ∧ sy_files s' = sy_files s ∧ sy_state s' = sy_state s
    ∧ ∀ k, k ∉ keys → sy_sysctl s' !! k = sy_sysctl s !! k) as Hwk.
  { induction l as [| x l IH]; intros s Hl; [by exists s |]. cbn [write_keys]. unfold bind at 1, write_key, effect at 1. rewrite Hsy. cbn [option_map].
    destruct (IH (set_sysctl s (<[x := str "1"]> (sy_sysctl s)))) as (s' & E & H1 & H2 & H3 & H4 & H5); [set_solver |]. exists s'. unfold bind. rewrite E. split_and!; try done.
    intros k Hk'. rewrite H5 by done. cbn. apply lookup_insert_ne. intros ->. apply Hk'. set_solver. }
  unfold PreLock. cbn [preLocked new_guard]. unfold lock, backupDNS, setDNS, backupIPv6, disableIPv6, SaveState. rewrite Hm.
  set (G := match sy_resolv s0 with Some (Symlink t) => mkGuard NoBackend false true t | _ => mkGuard NoBackend false false [] end).
  set (S1 := fst (if snd (resolvConfWritePlan (wasSymlink G)) then (if e_resolvectl e then (set_dns s0 (sy_resolv s0) (sy_files s0) safe_servers, true) else (s0, false)) else write_resolv safe_content (e_write e) s0)).
  assert (sy_fw S1 = sy_fw s0 ∧ sy_sysctl S1 = sy_sysctl s0 ∧ sy_files S1 = sy_files s0 ∧ (link = None → ∃ c, sy_resolv S1 = Some (Regular c)) ∧ knows_link (wasSymlink G) (symlinkTarget G)) as (F1 & F2 & F3 & F4 & F5).
  { unfold S1, G, knows_link, link. destruct (sy_resolv s0) as [[c | t] |] eqn:E0; [| | done]; cbn [wasSymlink symlinkTarget resolvConfWritePlan snd].
    - unfold write_resolv. rewrite E0, Hw. cbn. split_and!; try done. intros _. by eexists.
    - destruct (e_resolvectl e); cbn; split_and!; done. }
  destruct (Hwk keys S1) as (s' & E & K1 & K2 & K3 & K4 & K5); [done |].
  intros H. assert (PreLock_result : s1 = set_state s' (Some (Some (locked_state (G, Some original, mkV6 keys v0) NoBackend []))) ∧ g = mkGuard NoBackend true (wasSymlink G) (symlinkTarget G)).
  { revert H. unfold bind, look, done. cbn [fst snd]. rewrite Hr. cbn [fst snd].
    change (g_backend new_guard) with NoBackend. change (preLocked new_guard) with false. fold G.
    rewrite orb_false_r. assert ((if snd (resolvConfWritePlan (wasSymlink G)) then resolvectl e safe_servers else effect (write_resolv safe_content (e_write e))) None s0 = (None, S1, Some (snd (if snd (resolvConfWritePlan (wasSymlink G)) then (if e_resolvectl e then (set_dns s0 (sy_resolv s0) (sy_files s0) safe_servers, true) else (s0, false)) else write_resolv safe_content (e_write e) s0)))) as ->.
    { unfold S1. destruct (snd (resolvConfWritePlan (wasSymlink G))); unfold resolvectl, effect; [destruct (e_resolvectl e); done | by destruct (write_resolv _ _ _)]. }
    rewrite Hrd, F2, Hka, <- Hkeys, E. unfold effect, write_state. rewrite Hsv. cbn. intros [= <- <-]. split; [done |]. unfold G. by destruct (sy_resolv s0) as [[|] |]. }
  destruct PreLock_result as [-> ->]. split_and!; try done; [| cbn; by rewrite K1, F1].
  split_and!; [eexists; split; [done |]; split_and!; done | cbn; rewrite K1, F1; by apply untouched_partial |]. split_and!; cbn; [by rewrite K3, F3 | intros Hl; rewrite K2; by apply F4 |]. intros k Hk'. rewrite K5 by done. by rewrite F2.
Qed.
End recovery.

(** ** The theorems *)

Section theorems.
Context `{NF : NetFilter} `{NFL : !NetFilterLaws} (lines : bytes → list bytes).

#[local] Notation always := (triple (λ _, True)).
Definition fw_kept {A} (m : M A) : Prop := ∀ f, always (λ s, sy_fw s = f) m (λ _ s, sy_fw s = f).

Lemma kept_done {A} (a : A) : fw_kept (done a).
Proof. intros f. by apply triple_done. Qed.
Lemma kept_look {A} (h : sys → A) : fw_kept (look h).
Proof. intros f. by apply triple_look. Qed.
Lemma kept_bind {A B} (m : M A) (h : A → M B) : fw_kept m → (∀ a, fw_kept (h a)) → fw_kept (bind m h).
Proof. intros Hm Hh f. eapply triple_bind; [apply Hm | intros a; apply Hh]. Qed.
Lemma kept_effect h : (∀ s, sy_fw (fst (h s)) = sy_fw s) → fw_kept (effect h).
Proof. intros H f. apply triple_effect. intros s <-. split; [done | apply H]. Qed.
Lemma kept_keys e l v : fw_kept (write_keys e l v).
Proof. induction l as [| k l IH]; cbn [write_keys]; [apply kept_done |]. apply kept_bind; [apply kept_effect; intros s; by destruct (e_sysctl e k) | intros ?]. apply kept_bind; [exact IH | intros ?; apply kept_done]. Qed.
Lemma kept_lock g e : fw_kept (lock g e).
Proof.
  unfold lock. apply kept_bind; [unfold backupDNS; apply kept_bind; [apply kept_look | intros ?; apply kept_bind; [apply kept_look | intros ?; apply kept_done]] | intros ?].
  apply kept_bind; [unfold setDNS, resolvectl; case_match; apply kept_effect; intros s; [by destruct (e_resolvectl e) | unfold write_resolv; destruct (e_write e); cbn; [by case_match; [case_match |] | done]] | intros ?].
  apply kept_bind; [apply kept_look | intros ?]. apply kept_bind; [apply kept_keys | intros ?; apply kept_done].
Qed.

Lemma lock_backend g e k s k' s' p : lock g e k s = (k', s', Some p) → g_backend (fst (fst p)) = g_backend g.
Proof.
  intros E. unfold lock, backupDNS, backupIPv6, bind, look, done in E. cbn [fst snd] in E. destruct (setDNS _ e k s) as [[k3 s3] [b |]]; [| discriminate]. destruct (disableIPv6 e k3 s3) as [[k4 s4] [b' |]]; [| discriminate].
  injection E as _ _ <-. cbn. by case_match; [case_match |].
Qed.

Lemma run_all_installs cmds cleanup rules v :
  always (λ s, view (sy_fw s) = v) (run_all cmds cleanup rules) (λ r s, is_Some r → view (sy_fw s) = apply_all cmds v).
Proof.
  revert rules v. induction cmds as [| c cmds IH]; intros rules v; cbn [run_all]; [by apply triple_done |].
  eapply (triple_bind _ _ _ _ (λ ok s, ok = true → view (sy_fw s) = apply_cmd c v)).
  - apply triple_effect. intros s <-. split; [done |]. destruct (exec c (sy_fw s)) as [f |] eqn:E; cbn; [intros _; by apply exec_view | done].
  - intros ok. destruct ok; [eapply triple_weaken; [apply IH | intros s Hs; by apply Hs | done] |].
    intros k s k' s' r _ E. destruct r as [[l |] |]; [| by intros [? ?] | done]. exfalso. unfold bind in E. destruct (cleanup k s) as [[k1 s1] [b |]]; [| discriminate]. by injection E.
Qed.

(** Rules that could all be installed were each accepted by the filter. *)
Lemma run_all_accepted cmds cleanup rules : always (λ _, True) (run_all cmds cleanup rules) (λ r _, is_Some r → ∀ c, c ∈ cmds → ∃ f f', exec c f = Some f').
Proof.
  revert rules. induction cmds as [| c cmds IH]; intros rules; cbn [run_all]; [apply triple_done; intros s _ _ c Hc; by apply not_elem_of_nil in Hc |].
  eapply (triple_bind _ _ _ _ (λ ok s, ok = true → ∃ f f', exec c f = Some f')).
  - apply triple_effect. intros s _. split; [done |]. destruct (exec c (sy_fw s)) as [f |] eqn:E; cbn; [by eexists _, _ | done].
  - intros ok k s k' s' r Hc E. destruct ok.
    + specialize (IH _ _ _ _ _ _ I E). destruct r as [o |]; [| done]. intros Ho x [-> | Hx]%elem_of_cons; [by apply Hc | by apply IH].
    + destruct r as [[l |] |]; [| by intros [? ?] | done]. exfalso. unfold bind in E. destruct (cleanup k s) as [[k1 s1] [b |]]; discriminate E.
Qed.

(** The commands [Enable] runs, and that a success means they all ran. *)
Definition chosen (e : env) (cfg : LeakGuardConfig) : list fwcmd :=
  if e_nft e then linuxNFTCommands (BuildKillSwitchPlan cfg true) else linuxIPTablesCommands (BuildKillSwitchPlan cfg (e_ipset e)) (e_ipset e).
Lemma Enable_ran g e cfg k s k' s' g' : Enable lines g e cfg k s = (k', s', Some (g', true)) →
  ∃ k1 s1 k2 s2 l, sy_fw s1 = sy_fw s ∧ run_all (chosen e cfg) (if e_nft e then cleanupNFTables else cleanupIPTables) [] k1 s1 = (k2, s2, Some (Some l)) ∧ sy_fw s' = sy_fw s2.
Proof.
  intros E. unfold Enable in E. destruct (negb (Validate cfg)); [discriminate E |]. set (g1 := mkGuard _ _ _ _) in E.
  unfold bind at 1 in E. match type of E with (let (_, _) := ?m in _) = _ => destruct m as [[k1 s1] [[g2 st] |]] eqn:Ep end; [| discriminate E].
  assert (sy_fw s1 = sy_fw s ∧ g_backend g2 = detectBackend e) as [Hf Hb].
  { revert Ep. destruct (preLocked g1); [unfold bind, LoadState, look, done; by intros [= _ <- <- _] |]. unfold bind at 1.
    destruct (lock g1 e k s) as [[k2 s2] [q |]] eqn:El; [| done]. unfold done. intros [= _ <- <- _]. split; [exact (kept_lock g1 e (sy_fw s) _ _ _ _ _ eq_refl El) | by apply (lock_backend _ _ _ _ _ _ _ El)]. }
  unfold bind at 1 in E. destruct (enableKillSwitch g2 e cfg k1 s1) as [[k2 s2] [[l |] |]] eqn:Er; [| | discriminate E].
  - exists k1, s1, k2, s2, l. split_and!; [done | |].
    + unfold enableKillSwitch in Er. rewrite Hb in Er. unfold detectBackend in Er. unfold chosen. by destruct (e_nft e).
    + unfold bind, SaveState, effect, write_state in E. destruct k2 as [[| n] |]; [discriminate | |]; destruct (e_save e); injection E as _ <- _; done.
  - unfold bind in E. destruct (restoreDNS _ _ _ _ _ _) as [[k4 s4] [b |]]; [| discriminate]. destruct (restoreIPv6 _ _ _ _) as [[k5 s5] [b' |]]; discriminate E.
Qed.

(** C15: the kill switch lets through what it should and nothing else.  On a machine without
    rules of ours, after an [Enable] that reports success an outgoing packet passes
    exactly if it leaves through the tunnel or the loopback, goes to one of the servers
    on its port, is DHCP, goes to an escape by UDP or to one of the two direct
    resolvers by UDP on port 53 or, with a split tunnel, to a local network or a
    bypassed IPv4 range; with iptables IPv6 packets pass as well, and bypassed
    ranges only with ipset. *)
Theorem kill_switch_exact g e cfg k s k' s' g' :
  untouched (view (sy_fw s)) → Enable lines g e cfg k s = (k', s', Some (g', true)) →
  ∀ p, passes (view (sy_fw s')) p = if e_nft e then allowed cfg true p else pk_v6 p || allowed cfg (e_ipset e) p.
Proof.
  intros Hu (k1 & s1 & k2 & s2 & l & Hf & Er & Hs)%Enable_ran.
  pose proof (run_all_installs _ _ _ _ _ _ _ _ _ (f_equal view Hf) Er (mk_is_Some _ _ eq_refl)) as Hv. rewrite <- Hs in Hv. unfold chosen in Hv.
  intros p. unfold passes. rewrite Hv. destruct Hu as (U1 & U2 & U3 & U4). destruct (e_nft e).
  - rewrite nft_applied by done. cbn [v_jumps v_table with_table v_ipset v_chain]. rewrite U2. cbn [Nat.eqb]. rewrite orb_true_r. cbn [orb andb]. cbn [pl_SplitTunnel pl_RUAllow BuildKillSwitchPlan]. rewrite andb_true_r.
    unfold plan_rules. rewrite first_match_accepts. rewrite <- (plan_allows cfg true p _ eq_refl). rewrite !andb_true_r. destruct (cf_SplitTunnel cfg) eqn:Es; cbn [andb]; [| done].
    destruct (bool_decide_reflect (dedupV4Prefixes (BypassRanges cfg) = [])) as [E | E]; cbn [negb default from_option id]; [by rewrite E | done].
  - rewrite ipt_applied by done. cbn [v_jumps v_table v_ipset v_chain]. rewrite U4. cbn [Nat.eqb orb]. rewrite orb_false_r, andb_true_r. f_equal. cbn [default from_option id].
    unfold plan_rules. rewrite first_match_accepts. rewrite <- (plan_allows cfg (e_ipset e) p _ eq_refl). cbn [pl_SplitTunnel pl_RUAllow BuildKillSwitchPlan].
    destruct (cf_SplitTunnel cfg) eqn:Es, (e_ipset e); cbn [andb]; rewrite ?andb_true_r, ?andb_false_r; try done;
      destruct (bool_decide_reflect (dedupV4Prefixes (BypassRanges cfg) = [])) as [E | E]; cbn [negb default from_option id]; rewrite ?E; done.
Qed.


(** With a server that has an IPv6 address, which [Validate] allows, [Enable] never
    succeeds, on any machine and with either backend. *)
Theorem v6_server_never_protected g e cfg a k s k' s' g' : a ∈ AllServerIPs cfg → ip_v6 a = true → Enable lines g e cfg k s ≠ (k', s', Some (g', true)).
Proof.
  intros Ha Hv6 (k1 & s1 & k2 & s2 & l & _ & Er & _)%Enable_ran. pose proof (run_all_accepted _ _ _ _ _ _ _ _ I Er (mk_is_Some _ _ eq_refl)) as H. unfold chosen in H.
  assert (∀ plan, pl_ServerIPs plan = AllServerIPs cfg → accept (MDst a Tcp (Some (pl_ServerPort plan))) ∈ server_rules plan) as Hin.
  { intros plan Hp. unfold server_rules. rewrite Hp. apply list_elem_of_In, in_concat. eexists. split; [apply in_map; by apply list_elem_of_In | by left]. }
  destruct (e_nft e).
  - destruct (H (NftAddRule (accept (MDst a Tcp (Some (ServerPort cfg)))))) as (f & f' & Hx).
    + unfold linuxNFTCommands. rewrite !elem_of_app. right. left. apply list_elem_of_fmap. eexists. split; [done |]. by apply (Hin (BuildKillSwitchPlan cfg true)).
    + unfold accept in Hx. rewrite (proj1 (exec_v4_only f a Tcp (Some (ServerPort cfg)) true Hv6)) in Hx. discriminate.
  - destruct (H (IptAppend (accept (MDst a Tcp (Some (ServerPort cfg)))))) as (f & f' & Hx).
    + unfold linuxIPTablesCommands. rewrite !elem_of_app. right. right. left. apply list_elem_of_fmap. eexists. split; [done |]. by apply (Hin (BuildKillSwitchPlan cfg (e_ipset e))).
    + unfold accept in Hx. rewrite (proj2 (exec_v4_only f a Tcp (Some (ServerPort cfg)) true Hv6)) in Hx. discriminate.
Qed.
End theorems.

(** ** A packet filter, and what the guard does with it *)

(** Commands fail as the tools document: a new chain that exists, a rule for a chain
    that does not, an IPv6 address where an IPv4 one is expected, overlapping
    elements of an interval set, a removal of what is missing or in use. *)
Definition is_MSet (m : matcher) : bool := match m with MSet => true | _ => false end.
Definition v4_matcher (m : matcher) : bool := match m with MDst a _ _ => negb (ip_v6 a) | _ => true end.
Definition overlap (a b : pfx) : bool :=
  let w := 32 - Z.min (px_bits a) (px_bits b) in Z.shiftr (px_addr a) w =? Z.shiftr (px_addr b) w.
Fixpoint disjoint_all (l : list pfx) : bool := match l with [] => true | n :: l' => negb (existsb (overlap n) l') && disjoint_all l' end.
Definition accepts (c : fwcmd) (v : fwview) : bool :=
  match c with
  | NftAddTable | IpsetCreate => true
  | NftAddChain | NftAddSet => bool_decide (is_Some (v_table v))
  | NftAddRule (m, _) => v4_matcher m && match v_table v with Some (Some _, set) => negb (is_MSet m) || bool_decide (is_Some set) | _ => false end
  | NftAddElements l => match v_table v with Some (_, Some set) => disjoint_all (set ++ l) | _ => false end
  | IptNewChain => bool_decide (v_chain v = None)
  | IptJump => bool_decide (is_Some (v_chain v))
  | IptAppend (m, _) => v4_matcher m && bool_decide (is_Some (v_chain v)) && (negb (is_MSet m) || bool_decide (is_Some (v_ipset v)))
  | IpsetAdd _ => bool_decide (is_Some (v_ipset v))
  | _ => removable c v
  end.
#[local] Instance demo_filter : NetFilter := { fw := fwview; exec c v := if accepts c v then Some (apply_cmd c v) else None; view v := v }.
#[local] Instance demo_filter_laws : NetFilterLaws.
Proof.
  constructor; cbn.
  - intros c f f' H. by destruct (accepts c f); [injection H as <- |].
  - intros c f H. assert (accepts c f = true) as -> by (by destruct c). by eexists.
  - intros f a pr port ok H. by rewrite H.
Qed.

Module GuardDemo.
Definition no_rules : fwview := mkView None 0 None None.
Definition demo_lines (b : bytes) : list bytes := [b].
Definition eth0_key : bytes := str "net.ipv6.conf.eth0.disable_ipv6".
Definition demo_keys : list bytes := [key_all; key_default; eth0_key].
Definition dns0 : bytes := str "nameserver 192.168.1.1".
Definition machine : sys := mkSys no_rules (Some (Regular dns0)) ∅ [] (<[key_all := str "0"]> (<[key_default := str "0"]> {[eth0_key := str "0"]})) None.
Definition env0 (nft : bool) : env := mkEnv nft true false false true true true true true false (Some [str "all"; str "default"; str "lo"; str "eth0"]) (λ _, true) true.
Definition server : IP := v4addr 203 0 113 7.
Definition cfg0 : LeakGuardConfig := mkConfig (Some server) [] 443 (str "tun0") [] true [v4net 5 8 0 0 16].
Definition result {A} (d : A) (r : option nat * sys * option A) : sys * A := match r with (_, s, Some a) => (s, a) | (_, s, None) => (s, d) end.
Definition locked (nft : bool) : sys * linuxGuard := result new_guard (PreLock new_guard (env0 nft) None machine).
Definition enable_run (nft : bool) : option nat * sys * option (linuxGuard * bool) := Enable demo_lines (snd (locked nft)) (env0 nft) cfg0 None (fst (locked nft)).
Definition enabled (nft : bool) : sys * (linuxGuard * bool) := result (new_guard, false) (enable_run nft).
Definition to (oif : bytes) (a : IP) (pr : proto) (port : Z) : packet := mkPacket oif (ip_v6 a) (ip_val a) pr 40000 port.

(** A run that was not killed, taken apart. *)
Lemma result_eq {A} (d : A) (r : option nat * sys * option A) : is_Some (snd r) → r = (fst (fst r), fst (result d r), Some (snd (result d r))).
Proof. destruct r as [[k s] [a |]]; [done | by intros [? ?]]. Qed.
Lemma ran_ok (r : option nat * sys * option (linuxGuard * bool)) : snd (snd (result (new_guard, false) r)) = true →
  r = (fst (fst r), fst (result (new_guard, false) r), Some (fst (snd (result (new_guard, false) r)), true)).
Proof. destruct r as [[k s] [[g ok] |]]; cbn; [by intros -> | done]. Qed.

(** With either backend the server is reached, a bypassed range too, another host is not. *)
Lemma kill_switch_exact_witness :
  (untouched (view (sy_fw machine)) ∧ snd (snd (enabled true)) = true ∧ snd (snd (enabled false)) = true)
  ∧ map (passes (view (sy_fw (fst (enabled true))))) [to (str "eth0") server Tcp 443; to (str "eth0") (v4addr 5 8 1 1) Tcp 80; to (str "eth0") (v4addr 8 8 8 8) Udp 53; to (str "tun0") (v4addr 8 8 8 8) Udp 53] = [true; true; false; true]
  ∧ passes (view (sy_fw (fst (enabled false)))) (to (str "eth0") (v4addr 8 8 8 8) Udp 53) = false.
Proof.
  assert (∀ nft, untouched (view (sy_fw (fst (locked nft))))) as Hu by (intros [|]; repeat split).
  assert (∀ nft, snd (snd (enabled nft)) = true) as He by (intros [|]; reflexivity).
  pose proof (λ nft, kill_switch_exact demo_lines (snd (locked nft)) (env0 nft) cfg0 None (fst (locked nft)) (fst (fst (enable_run nft))) (fst (enabled nft)) (fst (snd (enabled nft))) (Hu nft) (ran_ok (enable_run nft) (He nft))) as H.
  split; [split_and!; [repeat split | apply He | apply He] |]. split; [cbn [map]; rewrite !(H true); reflexivity | rewrite (H false); reflexivity].
Defined.

Lemma machine_is_ok : machine_ok machine demo_keys (str "0") dns0.
Proof.
  constructor; [repeat split | done | split_and!; done |]. split_and!; [done | done | by left |].
  apply Forall_cons; split; [apply lookup_insert_eq |]. apply Forall_cons; split; [| apply Forall_singleton]; cbn [machine sy_sysctl]; rewrite lookup_insert_ne by done; [apply lookup_insert_eq |].
  rewrite lookup_insert_ne by done. apply lookup_singleton_eq.
Qed.

(** Enabling with iptables is killed after its fifth effect; the next start cleans up. *)
Definition killed : option nat * sys * option (linuxGuard * bool) := Enable demo_lines (snd (locked false)) (env0 false) cfg0 (Some 5%nat) (fst (locked false)).

(** With nftables a process killed between the last rule and the state file leaves the
    drop table for good: [PreLock]'s state names no backend, so the next start cleans
    iptables only, deletes the state file and reports nothing. *)
Definition killed_nft : option nat * sys * option (linuxGuard * bool) :=
  Enable demo_lines (snd (locked true)) (env0 true) cfg0 (Some (length (chosen (env0 true) cfg0))) (fst (locked true)).
Definition after_restart : sys * linuxGuard := result new_guard (New demo_lines (env0 true) None (snd (fst killed_nft))).
Lemma nft_crash_stays_locked :
  snd killed_nft = None ∧ sy_state (fst after_restart) = None ∧ sy_resolv (fst after_restart) = sy_resolv machine
  ∧ passes (view (sy_fw (fst after_restart))) (to (str "eth0") (v4addr 8 8 8 8) Udp 53) = false.
Proof. repeat split. Qed.

(** A guard that was disabled does not lock DNS and IPv6 again: [preLocked] is not
    reset, so [PreLock] does nothing, and the second [Enable] reports success. *)
Definition disabled : sys * (linuxGuard * bool) := result (new_guard, false) (Disable demo_lines (fst (snd (enabled false))) (env0 false) None (fst (enabled false))).
Definition relocked : sys * linuxGuard := result new_guard (PreLock (fst (snd disabled)) (env0 false) None (fst disabled)).
Definition again : sys * (linuxGuard * bool) := result (new_guard, false) (Enable demo_lines (snd relocked) (env0 false) cfg0 None (fst relocked)).
Lemma second_session_unprotected : snd (snd disabled) = true ∧ snd (snd again) = true ∧ fst relocked = fst disabled ∧ sy_resolv (fst again) = Some (Regular dns0).
Proof. repeat split. Qed.

(** With iptables nothing stops IPv6 when the kernel parameters cannot be written:
    [Enable] reports success and every IPv6 packet passes. *)
Definition env_ro : env := mkEnv false true false false true true true true true false (Some [str "eth0"]) (λ _, false) true.
Definition half : sys * (linuxGuard * bool) := result (new_guard, false) (Enable demo_lines new_guard env_ro cfg0 None machine).
Lemma v6_passes_unnoticed p : snd (snd half) = true ∧ sy_sysctl (fst half) = sy_sysctl machine ∧ (pk_v6 p = true → passes (view (sy_fw (fst half))) p = true).
Proof. split_and!; [reflexivity | reflexivity |]. intros H. unfold passes. rewrite H. reflexivity. Qed.

(** An interface on which IPv6 was disabled before has it enabled afterwards: the value
    of [all] is written to every key. *)
Definition machine_v6off : sys := set_sysctl machine (<[eth0_key := str "1"]> (sy_sysctl machine)).
Definition undone : sys := snd (fst (restoreIPv6 (env0 false) (default zero_v6 (snd (backupIPv6 (env0 false) None machine_v6off) ≫= id)) None machine_v6off)).
Lemma restore_flattens_ipv6 : sy_sysctl machine_v6off !! eth0_key = Some (str "1") ∧ sy_sysctl undone !! eth0_key = Some (str "0").
Proof. split; reflexivity. Qed.

(** A process killed inside [Enable]'s write of the state file destroys the backup that
    [PreLock] had saved: the next start removes the rules and the file, and DNS stays
    changed and IPv6 disabled. *)
Definition env_torn : env := mkEnv false true false false true true true true true true (Some [str "eth0"]) (λ _, true) true.
Definition torn : option nat * sys * option (linuxGuard * bool) :=
  Enable demo_lines (snd (locked false)) env_torn cfg0 (Some (length (chosen env_torn cfg0))) (fst (locked false)).
Definition after_torn : sys * linuxGuard := result new_guard (New demo_lines (env0 false) None (snd (fst torn))).
Lemma torn_state_loses_backup :
  snd torn = None ∧ untouched (view (sy_fw (fst after_torn))) ∧ sy_state (fst after_torn) = None ∧ sy_resolv (fst after_torn) = Some (Regular safe_content)
  ∧ sy_sysctl (fst after_torn) !! key_all = Some (str "1").
Proof. repeat split. Qed.
End GuardDemo.
