(* ===== verification/SlotObs.v ===== *)
(** * Slot observations and the adaptive rotation threshold
    ([client/slotobs/], and its use in [client/ws_pool.go] and [client/stats.go])

    The pool records how its slots die in two rings, infers from the deaths
    whether the network cuts connections by age or by volume, and moves the age
    at which it rotates slots.  Times are nanoseconds, ages milliseconds; floats
    are [Float64].  Reasons, which only reach the log, are an enumeration. *)

From S2P Require Import Prelude.
From S2P Require Import Float64.
From stdpp Require Import base list gmap strings sorting.

#[local] Open Scope Z_scope.

(** ** Recording *)

Record Observation := mkObs { AgeMs : Z; DownBytes : Z; LastWriteAgeMs : Z; CloseKind : string; Mature : bool }.

Definition DefaultCapacity : nat := 512.
Definition PlannedCapacity : nat := 4096.
Definition ClosePlannedRotation : string := "planned_rotation".

Record Recorder := mkRec {
  buf : list Observation; next : nat; count : nat; total : Z;
  planned : list Observation; plannedNext : nat; plannedCount : nat; plannedTotal : Z;
}.

Definition no_obs : Observation := mkObs 0 0 0 "" false.

Definition NewRecorder (capacity : Z) : Recorder :=
  let n := if capacity <=? 0 then DefaultCapacity else Z.to_nat capacity in
  mkRec (replicate n no_obs) 0 0 0 [] 0 0 0.

(** A write to either ring: index, next index, live entries. *)
Definition ring_put (b : list Observation) (nx cnt : nat) (o : Observation) : outcome (list Observation * nat * nat) :=
  if (nx <? length b)%nat
  then Ret (<[nx := o]> b, ((nx + 1) mod length b)%nat, if (cnt <? length b)%nat then S cnt else cnt)
  else Panic.

(** The live entries of a ring, oldest first. *)
Definition ring_list (b : list Observation) (nx cnt : nat) : list Observation :=
  let start := if (cnt =? length b)%nat then nx else 0%nat in
  omap (λ i, b !! ((start + i) mod length b)%nat) (seq 0 cnt).

(** [Recorder.Record] *)
Definition record_cut (r : Recorder) (o : Observation) : outcome Recorder :=
  '(b, nx, cnt) ← ring_put (buf r) (next r) (count r) o;
  Ret (mkRec b nx cnt (u64 (total r + 1)) (planned r) (plannedNext r) (plannedCount r) (plannedTotal r)).

(** The second ring is made at its first use. *)
Definition alloc_planned (l : list Observation) : list Observation :=
  match l with [] => replicate PlannedCapacity no_obs | _ => l end.

Definition RecordPlanned (r : Recorder) (o : Observation) : outcome Recorder :=
  let o := mkObs (AgeMs o) (DownBytes o) (LastWriteAgeMs o) ClosePlannedRotation (Mature o) in
  '(b, nx, cnt) ← ring_put (alloc_planned (planned r)) (plannedNext r) (plannedCount r) o;
  Ret (mkRec (buf r) (next r) (count r) (total r) b nx cnt (u64 (plannedTotal r + 1))).

Definition Snapshot (r : Recorder) : list Observation := ring_list (buf r) (next r) (count r).
Definition snapshotPlanned (r : Recorder) : list Observation := ring_list (planned r) (plannedNext r) (plannedCount r).

Definition Reset (r : Recorder) : Recorder := mkRec (buf r) 0 0 0 (planned r) 0 0 0.

(** ** Percentiles and spread *)

Definition percentileIndex (n p : Z) : Z :=
  if n =? 1 then 0 else
  let idx := Z.quot (p * (n - 1)) 100 in
  let idx := if idx <? 0 then 0 else idx in
  if n <=? idx then n - 1 else idx.

Definition percentileInt64 (sorted : list Z) (p : Z) : outcome Z :=
  match sorted with [] => Ret 0 | _ => index sorted (percentileIndex (len sorted) p) end.

Definition sqrt (x : float64) : float64 := if fle x fzero then fzero else fsqrt x.

Definition cvInt64 (xs : list Z) : float64 :=
  if len xs <? 2 then fzero else
  let sum := foldl (λ s x, fadd s (of_int x)) fzero xs in
  let mean := fdiv sum (of_int (len xs)) in
  if feq mean fzero then fzero else
  let sq := foldl (λ s x, let d := fsub (of_int x) mean in fadd s (fmul d d)) fzero xs in
  fdiv (sqrt (fdiv sq (of_int (len xs)))) mean.

(** [sort.Slice] and [slices.Sort] on integers. *)
Definition sortZ (l : list Z) : list Z := merge_sort Z.le l.

Record Summary := mkSummary {
  Count : Z; AgeP10 : Z; AgeP50 : Z; AgeP90 : Z; AgeMin : Z;
  BytesP10 : Z; BytesP50 : Z; BytesP90 : Z; AgeCV : float64; BytesCV : float64; ByCloseKind : gmap string Z;
}.

Definition Summarize (r : Recorder) : outcome Summary :=
  let obs := Snapshot r in
  match obs with
  | [] => Ret (mkSummary 0 0 0 0 0 0 0 0 fzero fzero ∅)
  | _ =>
    let ages := sortZ (AgeMs <$> obs) in
    let bytesv := sortZ (DownBytes <$> obs) in
    let byKind := foldl (λ m o, <[CloseKind o := default 0 (m !! CloseKind o) + 1]> m) ∅ obs in
    amin ← index ages 0;
    a10 ← percentileInt64 ages 10; a50 ← percentileInt64 ages 50; a90 ← percentileInt64 ages 90;
    b10 ← percentileInt64 bytesv 10; b50 ← percentileInt64 bytesv 50; b90 ← percentileInt64 bytesv 90;
    Ret (mkSummary (len obs) a10 a50 a90 amin b10 b50 b90 (cvInt64 ages) (cvInt64 bytesv) byKind)
  end.

(** ** Inference *)

Inductive Axis := AxisUnknown | AxisAge | AxisBytes.
Inductive reason := RFew | RNotSeparated | RScattered | RByAge | RByBytes.

Record RejectionStats := mkRej { ZeroAge : Z; LocalClose : Z; Timeout : Z; TooYoung : Z; AboveTeardown : Z; Planned : Z }.
Definition no_rej : RejectionStats := mkRej 0 0 0 0 0 0.
Definition rej_Total (r : RejectionStats) : Z := ZeroAge r + LocalClose r + Timeout r + TooYoung r + Planned r + AboveTeardown r.

Record Verdict := mkVerdict {
  v_Axis : Axis; ThAge : Z; ThBytes : Z; Samples : Z; AgeMinMs : Z; Rejected : RejectionStats; Reason : reason;
}.

Definition MinSamplesForInference : Z := 12.

Definition filter_one (minAgeMs teardownMs : Z) (acc : list Observation * RejectionStats) (o : Observation)
  : list Observation * RejectionStats :=
  let '(clean, mkRej z l t y a p) := acc in
  if AgeMs o <=? 0 then (clean, mkRej (z + 1) l t y a p)
  else if (0 <? teardownMs) && (teardownMs <? AgeMs o) then (clean, mkRej z l t y (a + 1) p)
  else if (0 <? minAgeMs) && (AgeMs o <? minAgeMs) then (clean, mkRej z l t (y + 1) a p)
  else if (CloseKind o =? ClosePlannedRotation)%string then (clean, mkRej z l t y a (p + 1))
  else if (CloseKind o =? "closed_local")%string then (clean, mkRej z (l + 1) t y a p)
  else if (CloseKind o =? "io_timeout")%string then (clean, mkRej z l (t + 1) y a p)
  else (clean ++ [o], mkRej z l t y a p).

Definition filterNoise (obs : list Observation) (minAgeMs teardownMs : Z) : list Observation * RejectionStats :=
  foldl (filter_one minAgeMs teardownMs) ([], no_rej) obs.

(** Which axis clusters at least twice as tightly. *)
Definition pick_axis (ageCV bytesCV : float64) : Axis :=
  if flt fzero ageCV && flt (fmul ageCV (of_int 2)) bytesCV then AxisAge
  else if flt fzero bytesCV && flt (fmul bytesCV (of_int 2)) ageCV then AxisBytes
  else AxisUnknown.

Definition ns_per_ms : Z := 10 ^ 6.

Definition InferWithMinAgeAndTeardown (r : Recorder) (minAgeMs teardownMs : Z) : outcome Verdict :=
  let '(clean, rej) := filterNoise (Snapshot r) minAgeMs teardownMs in
  let unknown := mkVerdict AxisUnknown 0 0 (len clean) 0 rej in
  if len clean <? MinSamplesForInference then Ret (unknown RFew) else
  let ages := AgeMs <$> clean in
  let bytesv := DownBytes <$> clean in
  let ageCV := cvInt64 ages in
  let bytesCV := cvInt64 bytesv in
  match pick_axis ageCV bytesCV with
  | AxisUnknown => Ret (unknown RNotSeparated)
  | ax =>
    let '(chosen, chosenCV) := match ax with AxisBytes => (bytesv, bytesCV) | _ => (ages, ageCV) end in
    if flt (of_int 1) chosenCV then Ret (unknown RScattered) else
    amin ← index (sortZ ages) 0;
    p10 ← percentileInt64 (sortZ chosen) 10;
    let safe := to_int (fmul (of_int p10) f0_8) in
    Ret match ax with
        | AxisAge => mkVerdict AxisAge (i64 (safe * ns_per_ms)) 0 (len clean) amin rej RByAge
        | _ => mkVerdict AxisBytes 0 safe (len clean) amin rej RByBytes
        end
  end.

(** ** Hazard bands *)

Record HazardBand := mkBand {
  FromMs : Z; ToMs : Z; Reached : Z; CensoredIn : Z; Cut : Z; ExposureMs : Z; RingSaturated : bool;
}.

Definition exposure (fromMs toMs ageMs : Z) : Z := (if toMs <? ageMs then toMs else ageMs) - fromMs.

Definition saturated (r : Recorder) : bool :=
  negb (length (planned r) =? 0)%nat && (plannedCount r =? length (planned r))%nat
  || negb (length (buf r) =? 0)%nat && (count r =? length (buf r))%nat.

Definition count_cut (h : HazardBand) : HazardBand :=
  mkBand (FromMs h) (ToMs h) (Reached h) (CensoredIn h) (Cut h + 1) (ExposureMs h) (RingSaturated h).
Definition count_censored (h : HazardBand) : HazardBand :=
  mkBand (FromMs h) (ToMs h) (Reached h) (CensoredIn h + 1) (Cut h) (ExposureMs h) (RingSaturated h).

(** The body of either loop of [Hazard]. *)
Definition band_step (inc : HazardBand → HazardBand) (fromMs toMs : Z) (h : HazardBand) (o : Observation) : HazardBand :=
  if AgeMs o <? fromMs then h
  else let h := mkBand (FromMs h) (ToMs h) (Reached h + 1) (CensoredIn h) (Cut h)
                  (ExposureMs h + exposure fromMs toMs (AgeMs o)) (RingSaturated h) in
       if AgeMs o <? toMs then inc h else h.

(** A band over the cuts [cs] and the planned rotations [ps]. *)
Definition band (fromMs toMs : Z) (cs ps : list Observation) (sat : bool) : HazardBand :=
  foldl (band_step count_censored fromMs toMs) (foldl (band_step count_cut fromMs toMs) (mkBand fromMs toMs 0 0 0 0 sat) cs) ps.

(** [Hazard] takes the lock three times; the recorder may change in between. *)
Definition Hazard (r0 r1 r2 : Recorder) (fromMs toMs : Z) : HazardBand :=
  band fromMs toMs (Snapshot r1) (snapshotPlanned r2) (saturated r0).

Definition RateByExposure (h : HazardBand) : float64 :=
  if ExposureMs h <=? 0 then fzero else fdiv (of_int (Cut h)) (fdiv (of_int (ExposureMs h)) (of_int 1000)).

Definition Rate (h : HazardBand) : float64 :=
  if Reached h =? 0 then fzero else
  let eff := fsub (of_int (Reached h)) (fmul f0_5 (of_int (CensoredIn h))) in
  if fle eff fzero then fzero else fdiv (of_int (Cut h)) eff.

(** [CutShare]; the two lengths are read under separate locks. *)
Definition CutShare (r0 r1 : Recorder) : float64 * Z :=
  let cuts := Z.of_nat (count r0) in
  let t := cuts + Z.of_nat (plannedCount r1) in
  if t =? 0 then (fzero, 0) else (fdiv (of_int cuts) (of_int t), t).

(** ** The adapter *)

Definition second : Z := 10 ^ 9.
Definition minAdaptiveAge : Z := 30 * second.
Definition adaptConfirmations : Z := 3.
Definition releaseStep : Z := 5 * second.
Definition quantum : Z := second.

Record Adapter := mkAdapter {
  configured : Z; current : Z; pendingTarget : Z; pendingCount : Z; changes : Z; lastReason : option reason;
}.

Definition NewAdapter (configured : Z) : Adapter := mkAdapter configured configured 0 0 0 None.

(** The receiver may be nil. *)
Definition Threshold (a : option Adapter) : Z := match a with Some a => current a | None => 0 end.

Definition with_pending (a : Adapter) (t n : Z) : Adapter :=
  mkAdapter (configured a) (current a) t n (changes a) (lastReason a).

(** The candidate a verdict names: truncated, capped, then floored. *)
Definition target_of (configured : Z) (v : Verdict) : option Z :=
  match v_Axis v with
  | AxisAge =>
    if ThAge v <=? 0 then None else
    let target := ThAge v - Z.rem (ThAge v) quantum in
    let target := if configured <? target then configured else target in
    Some (if target <? minAdaptiveAge then minAdaptiveAge else target)
  | _ => None
  end.

(** The pending candidate is confirmed: down at once, up by a step. *)
Definition apply_target (a : Adapter) (target : Z) (r : reason) : Adapter :=
  let cur := if target <? current a then target
             else let c := i64 (current a + releaseStep) in if target <? c then target else c in
  mkAdapter (configured a) cur 0 0 (changes a + 1) (Some r).

Definition Observe (a : option Adapter) (v : Verdict) : option Adapter * bool :=
  match a with
  | None => (None, false)
  | Some a =>
    if configured a <=? 0 then (Some a, false) else
    match target_of (configured a) v with
    | None => (Some (with_pending a 0 0), false)
    | Some target =>
      if target =? current a then (Some (with_pending a 0 0), false)
      else if negb (target =? pendingTarget a) then (Some (with_pending a target 1), false)
      else if pendingCount a + 1 <? adaptConfirmations then (Some (with_pending a target (pendingCount a + 1)), false)
      else let a' := apply_target a target (Reason v) in (Some a', negb (current a' =? current a))
    end
  end.

(** ** The loop through the pool *)

Definition rotationWatchdogTick : Z := 500 * ns_per_ms.
Definition sweepWorstCase : Z := 4 * rotationWatchdogTick.
Definition drainRevertBackoff : Z := 30 * second.
Definition slotRotationStaggerStep : Z := 15 * second.
Definition ageCutMinAgeMs : Z := 60000.

(** The fields of [WSPoolTransport] the loop reads. *)
Record pool := mkP {
  slotDeaths : Recorder; ageAdapter : option Adapter;
  maxSlotAge : Z; ageCutMinAge : Z; gracefulDrain : bool; drainHardCap : Z; stickyMaxDrainAge : Z;
  staggerStep : Z; staggerOffsetCap : Z; nslots : Z;
}.

Definition staggerSpan (p : pool) : Z :=
  let step := if staggerStep p <=? 0 then slotRotationStaggerStep else staggerStep p in
  let maxIdx := if nslots p - 1 <? 0 then 0 else nslots p - 1 in
  let base := i64 (maxIdx * step) in
  let base := if (0 <? staggerOffsetCap p) && (staggerOffsetCap p <? base) then staggerOffsetCap p else base in
  i64 (base + Z.quot step 2).

(** The threshold in force: the adapter's, or the configured one without it. *)
Definition base_age (p : pool) : Z :=
  let adapted := Threshold (ageAdapter p) in if 0 <? adapted then adapted else maxSlotAge p.

Definition worstCaseTeardown (p : pool) : Z :=
  let deferred := if gracefulDrain p then drainRevertBackoff else 0 in
  let tear := if gracefulDrain p
              then if drainHardCap p <? stickyMaxDrainAge p then stickyMaxDrainAge p else drainHardCap p
              else 0 in
  i64 (base_age p + staggerSpan p + sweepWorstCase + deferred + tear).

Definition inferTeardownBoundMs (p : pool) : Z :=
  if gracefulDrain p then Z.quot (worstCaseTeardown p) ns_per_ms else 0.

Definition ageCutFloor (p : pool) : Z := if 0 <? ageCutMinAge p then ageCutMinAge p else ageCutMinAgeMs * ns_per_ms.

Definition infer_now (p : pool) : outcome Verdict :=
  InferWithMinAgeAndTeardown (slotDeaths p) (Z.quot (ageCutFloor p) ns_per_ms) (inferTeardownBoundMs p).

Definition with_rec (p : pool) (r : Recorder) : pool :=
  mkP r (ageAdapter p) (maxSlotAge p) (ageCutMinAge p) (gracefulDrain p) (drainHardCap p) (stickyMaxDrainAge p) (staggerStep p) (staggerOffsetCap p) (nslots p).
Definition with_adapter (p : pool) (a : option Adapter) : pool :=
  mkP (slotDeaths p) a (maxSlotAge p) (ageCutMinAge p) (gracefulDrain p) (drainHardCap p) (stickyMaxDrainAge p) (staggerStep p) (staggerOffsetCap p) (nslots p).

(** What [logSlotDeathSummary] changes: on every path it infers once and shows
    the verdict to the adapter.  One goroutine runs it and only it moves the
    adapter, so the step can be taken as one. *)
Definition logSlotDeathSummary (p : pool) : outcome (pool * bool) :=
  s ← Summarize (slotDeaths p);
  v ← infer_now p;
  let '(a, changed) := Observe (ageAdapter p) v in
  Ret (with_adapter p a, changed).

(** [rotationWatchdogSweep]: is a slot of age [age], with its frozen offset, old
    enough to be rotated? *)
Definition rotation_due (p : pool) (age staggerOffsetNs : Z) : bool := negb (age <? i64 (base_age p + staggerOffsetNs)).

Inductive obs_op :=
| ODeath (o : Observation)        (* the read error of [slotReader] *)
| OPlanned (ageMs downBytes : Z)  (* [recordPlannedRotation] *)
| OTick.

Definition obs_step (p : pool) (o : obs_op) : outcome pool :=
  match o with
  | ODeath o => r ← record_cut (slotDeaths p) o; Ret (with_rec p r)
  | OPlanned a d => r ← RecordPlanned (slotDeaths p) (mkObs a d 0 "" false); Ret (with_rec p r)
  | OTick => '(p', _) ← logSlotDeathSummary p; Ret p'
  end.

Fixpoint obs_run (p : pool) (ops : list obs_op) : outcome pool :=
  match ops with [] => Ret p | o :: ops' => p' ← obs_step p o; obs_run p' ops' end.

(** ** The rings keep the latest observations *)

Inductive rec_op := RCut (o : Observation) | RPlan (o : Observation) | RReset.

Definition rec_step (r : Recorder) (o : rec_op) : outcome Recorder :=
  match o with RCut o => record_cut r o | RPlan o => RecordPlanned r o | RReset => Ret (Reset r) end.
Fixpoint rec_run (r : Recorder) (ops : list rec_op) : outcome Recorder :=
  match ops with [] => Ret r | o :: ops' => r' ← rec_step r o; rec_run r' ops' end.

Definition mark_planned (o : Observation) : Observation :=
  mkObs (AgeMs o) (DownBytes o) (LastWriteAgeMs o) ClosePlannedRotation (Mature o).

(** The specification: two logs, both emptied by a reset. *)
Definition spec_step (s : list Observation * list Observation) (o : rec_op) : list Observation * list Observation :=
  match o with
  | RCut o => (fst s ++ [o], snd s)
  | RPlan o => (fst s, snd s ++ [mark_planned o])
  | RReset => ([], [])
  end.

Definition latest {A} (n : nat) (l : list A) : list A := drop (length l - n) l.

(** The ring [b] holds the end of the log [l]. *)
Record ring_ok (b : list Observation) (nx cnt : nat) (l : list Observation) : Prop := {
  ro_cap : (0 < length b)%nat;
  ro_next : nx = (length l mod length b)%nat;
  ro_count : cnt = Nat.min (length l) (length b);
  ro_data : ∀ j, (length l - length b ≤ j < length l)%nat → b !! (j mod length b)%nat = l !! j;
}.

Lemma mod_same_slot (a b c : nat) : (0 < c)%nat → (a < b < a + c)%nat → (a mod c)%nat ≠ (b mod c)%nat.
Proof.
  intros Hc Hab E. pose proof (Nat.div_mod_eq a c). pose proof (Nat.div_mod_eq b c).
  assert (c * (b `div` c - a `div` c) = b - a)%nat as Hd by (rewrite Nat.mul_sub_distr_l; lia).
  destruct (b `div` c - a `div` c)%nat; nia.
Qed.

Lemma ring_put_ok b nx cnt l o : ring_ok b nx cnt l →
  ∃ b' nx' cnt', ring_put b nx cnt o = Ret (b', nx', cnt') ∧ ring_ok b' nx' cnt' (l ++ [o]) ∧ length b' = length b.
Proof.
  intros [H1 H2 H3 H4]. unfold ring_put. assert (nx < length b)%nat as Hlt by (subst; apply Nat.mod_upper_bound; lia).
  destruct (Nat.ltb_spec nx (length b)); [| lia]. eexists _, _, _. split; [done |]. split; [| apply length_insert].
  split; rewrite ?length_insert, ?length_app; cbn [length]; [done | | |].
  - rewrite H2, Nat.Div0.add_mod_idemp_l. done.
  - destruct (Nat.ltb_spec cnt (length b)); lia.
  - intros j Hj. destruct (decide (j = length l)) as [-> | Hne].
    + rewrite <- H2, list_lookup_insert_eq by done. by rewrite lookup_app_r, Nat.sub_diag by lia.
    + rewrite lookup_app_l by lia. rewrite list_lookup_insert_ne; [apply H4; lia |].
      rewrite H2. intros E. symmetry in E. revert E. apply mod_same_slot; lia.
Qed.

Lemma omap_seq_drop {A} (f : nat → option A) (l : list A) n k s :
  (∀ i, (i < n)%nat → f (s + i)%nat = l !! (k + i)%nat) → (k + n = length l)%nat → omap f (seq s n) = drop k l.
Proof.
  revert k s. induction n as [| n IH]; intros k s Hf Hn; [symmetry; apply drop_ge; lia |]. cbn [seq].
  destruct (lookup_lt_is_Some_2 l k) as [x Hx]; [lia |]. rewrite (drop_S _ x k Hx). cbn [omap list_omap].
  pose proof (Hf 0%nat) as H0. rewrite !Nat.add_0_r, Hx in H0. rewrite H0 by lia. f_equal. apply IH; [| lia].
  intros i Hi. replace (S s + i)%nat with (s + S i)%nat by lia. rewrite Hf by lia. f_equal. lia.
Qed.

Lemma ring_list_ok b nx cnt l : ring_ok b nx cnt l → ring_list b nx cnt = latest (length b) l.
Proof.
  intros [H1 H2 H3 H4]. unfold ring_list, latest. apply omap_seq_drop; [| lia]. intros i Hi. cbn [Nat.add].
  rewrite <- H4 by lia. f_equal. destruct (Nat.eqb_spec cnt (length b)) as [E | E]; [| f_equal; lia].
  rewrite H2, Nat.Div0.add_mod_idemp_l. replace (length l + i)%nat with (length l - length b + i + 1 * length b)%nat by lia.
  by rewrite Nat.Div0.mod_add.
Qed.

(** The ring of planned rotations is made at its first use. *)
Definition lazy_ok (b : list Observation) (nx cnt : nat) (l : list Observation) : Prop :=
  (b = [] ∧ nx = 0%nat ∧ cnt = 0%nat ∧ l = []) ∨ (ring_ok b nx cnt l ∧ length b = PlannedCapacity).

Record rec_inv (cap : nat) (r : Recorder) (s : list Observation * list Observation) : Prop := {
  ri_buf : ring_ok (buf r) (next r) (count r) (fst s);
  ri_cap : length (buf r) = cap;
  ri_planned : lazy_ok (planned r) (plannedNext r) (plannedCount r) (snd s);
  ri_total : total r = u64 (len (fst s));
  ri_ptotal : plannedTotal r = u64 (len (snd s));
}.

Lemma empty_ring b : (0 < length b)%nat → ring_ok b 0 0 [].
Proof. intros H. split; cbn [length]; [done | by rewrite Nat.Div0.mod_0_l | lia | intros j Hj; lia]. Qed.

Lemma u64_succ x : u64 (u64 x + 1) = u64 (x + 1).
Proof. unfold u64. by rewrite Z.add_mod_idemp_l. Qed.

Lemma lazy_put pl nx cnt l o : lazy_ok pl nx cnt l →
  ∃ b' nx' cnt', ring_put (alloc_planned pl) nx cnt o = Ret (b', nx', cnt')
    ∧ lazy_ok b' nx' cnt' (l ++ [o]).
Proof.
  intros [(-> & -> & -> & ->) | [Hr Hc]].
  - destruct (ring_put_ok (replicate PlannedCapacity no_obs) 0 0 [] o) as (b' & nx' & cnt' & E & Hr' & Hl);
      [apply empty_ring; rewrite length_replicate; unfold PlannedCapacity; lia |].
    exists b', nx', cnt'. split; [done |]. right. split; [done |]. by rewrite Hl, length_replicate.
  - destruct pl as [| x pl]; [by destruct Hr as [H _ _ _]; cbn in H; lia |].
    destruct (ring_put_ok _ _ _ _ o Hr) as (b' & nx' & cnt' & E & Hr' & Hl). exists b', nx', cnt'. split; [done |]. right. split; [done | congruence].
Qed.

Lemma rec_step_inv cap r s o : rec_inv cap r s → ∃ r', rec_step r o = Ret r' ∧ rec_inv cap r' (spec_step s o).
Proof.
  intros [H1 H2 H3 H4 H5]. destruct o as [o | o |]; cbn [rec_step spec_step].
  - unfold record_cut. destruct (ring_put_ok _ _ _ _ o H1) as (b' & nx' & cnt' & -> & Hr & Hl). eexists. split; [done |].
    split; cbn [fst snd buf next count total planned plannedNext plannedCount plannedTotal]; [done | congruence | done | | done].
    rewrite H4, u64_succ. unfold len. rewrite length_app. cbn [length]. f_equal. lia.
  - unfold RecordPlanned. destruct (lazy_put _ _ _ _ (mark_planned o) H3) as (b' & nx' & cnt' & E & Hr).
    unfold mark_planned in E. rewrite E. eexists. split; [done |].
    split; cbn [fst snd buf next count total planned plannedNext plannedCount plannedTotal]; [done | done | done | done |].
    rewrite H5, u64_succ. unfold len. rewrite length_app. cbn [length]. f_equal. lia.
  - eexists. split; [done |]. split; cbn; [apply empty_ring, H1 | done | | done | done].
    destruct H3 as [(-> & _ & _ & _) | [Hr Hc]]; [by left | right; split; [apply empty_ring, Hr | done]].
Qed.

Lemma rec_run_inv cap r s ops : rec_inv cap r s → ∃ r', rec_run r ops = Ret r' ∧ rec_inv cap r' (foldl spec_step s ops).
Proof.
  revert r s. induction ops as [| o ops IH]; intros r s Hr; [by exists r |]. cbn [rec_run foldl].
  destruct (rec_step_inv cap r s o Hr) as (r1 & -> & Hr1). apply (IH r1 _ Hr1).
Qed.

Definition cap_of (capacity : Z) : nat := if capacity <=? 0 then DefaultCapacity else Z.to_nat capacity.

Lemma new_rec_inv capacity : rec_inv (cap_of capacity) (NewRecorder capacity) ([], []).
Proof.
  assert (0 < cap_of capacity)%nat as Hc by (unfold cap_of, DefaultCapacity; destruct (Z.leb_spec capacity 0); lia).
  split; cbn [fst snd NewRecorder buf next count total planned plannedNext plannedCount plannedTotal]; fold (cap_of capacity).
  - apply empty_ring. by rewrite length_replicate.
  - apply length_replicate.
  - by left.
  - done.
  - done.
Qed.

Lemma rec_snapshots cap r s : rec_inv cap r s → Snapshot r = latest cap (fst s) ∧ snapshotPlanned r = latest PlannedCapacity (snd s).
Proof.
  intros [H1 H2 H3 _ _]. split; [unfold Snapshot; by rewrite (ring_list_ok _ _ _ _ H1), H2 |]. unfold snapshotPlanned.
  destruct H3 as [(-> & -> & -> & ->) | [Hr Hc]]; [done | by rewrite (ring_list_ok _ _ _ _ Hr), Hc].
Qed.

(** The recorder is two bounded logs: whatever is recorded and however often
    it is reset, it never panics, [Snapshot] is the last cuts up to the capacity
    and [snapshotPlanned] the last 4096 planned rotations with their label, both
    since the last reset and oldest first, whichever of the two comes faster; the
    totals count what was overwritten too. *)
Theorem recorder_keeps_latest capacity ops :
  let s := foldl spec_step ([], []) ops in
  ∃ r, rec_run (NewRecorder capacity) ops = Ret r
    ∧ Snapshot r = latest (cap_of capacity) (fst s) ∧ snapshotPlanned r = latest PlannedCapacity (snd s)
    ∧ count r = length (Snapshot r) ∧ plannedCount r = length (snapshotPlanned r)
    ∧ total r = u64 (len (fst s)) ∧ plannedTotal r = u64 (len (snd s)).
Proof.
  cbv zeta. destruct (rec_run_inv _ _ _ ops (new_rec_inv capacity)) as (r & E & Hr). exists r. destruct (rec_snapshots _ _ _ Hr) as [Es Ep].
  destruct Hr as [H1 H2 H3 H4 H5]. split_and!; try done.
  - rewrite Es. unfold latest. rewrite length_drop. destruct H1 as [_ _ -> _]. lia.
  - rewrite Ep. unfold latest. rewrite length_drop. destruct H3 as [(_ & _ & Ec & El) | [[_ _ Ec _] Hc]]; rewrite Ec; [by rewrite El | lia].
Qed.

(** ** What an inference rests on *)

(** An observation that counts: a death the network can have caused. *)
Definition genuine (minAgeMs teardownMs : Z) (o : Observation) : Prop :=
  0 < AgeMs o ∧ (0 < teardownMs → AgeMs o ≤ teardownMs) ∧ (0 < minAgeMs → minAgeMs ≤ AgeMs o)
  ∧ CloseKind o ∉ [ClosePlannedRotation; "closed_local"; "io_timeout"].

#[export] Instance genuine_dec a t o : Decision (genuine a t o).
Proof. unfold genuine. apply _. Defined.

(** A rejected observation leaves the sample as it is and is counted once. *)
Ltac rejected :=
  eexists; rewrite filter_cons_False by (intros (? & ? & ? & Hk); first [lia | apply Hk; rewrite !elem_of_cons; tauto]);
  rewrite app_nil_r; split; [reflexivity | unfold rej_Total, len; cbn; lia].

Lemma filter_one_spec a t clean rej o :
  ∃ rej', filter_one a t (clean, rej) o = (clean ++ filter (genuine a t) [o], rej')
    ∧ rej_Total rej' + len (filter (genuine a t) [o]) = rej_Total rej + 1.
Proof.
  destruct rej as [z l ti y ab p]. cbn [filter_one].
  destruct (Z.leb_spec (AgeMs o) 0); [rejected |].
  destruct (Z.ltb_spec 0 t), (Z.ltb_spec t (AgeMs o)); cbn [andb]; try rejected;
    destruct (Z.ltb_spec 0 a), (Z.ltb_spec (AgeMs o) a); cbn [andb]; try rejected;
    (destruct (String.eqb_spec (CloseKind o) ClosePlannedRotation); [rejected |]);
    (destruct (String.eqb_spec (CloseKind o) "closed_local"); [rejected |]);
    (destruct (String.eqb_spec (CloseKind o) "io_timeout"); [rejected |]);
    (eexists; rewrite filter_cons_True by
      (split_and!; [lia | lia | lia | rewrite !elem_of_cons; intros [? | [? | [? | ?%not_elem_of_nil]]]; done]));
    (split; [reflexivity | unfold rej_Total, len; cbn; lia]).
Qed.

Lemma filterNoise_spec obs a t :
  ∃ rej, filterNoise obs a t = (filter (genuine a t) obs, rej) ∧ len (filter (genuine a t) obs) + rej_Total rej = len obs.
Proof.
  unfold filterNoise. assert (∀ clean rej, ∃ rej', foldl (filter_one a t) (clean, rej) obs = (clean ++ filter (genuine a t) obs, rej')
    ∧ rej_Total rej' + len (filter (genuine a t) obs) = rej_Total rej + len obs) as H.
  { induction obs as [| o obs IH]; intros clean rej; [exists rej; rewrite app_nil_r; split; [done | unfold len; cbn; lia] |].
    cbn [foldl]. destruct (filter_one_spec a t clean rej o) as (rej1 & -> & E1). destruct (IH (clean ++ filter (genuine a t) [o]) rej1) as (rej' & -> & E2).
    exists rej'. change (o :: obs) with ([o] ++ obs). rewrite filter_app, app_assoc. split; [done |]. rewrite !len_app. unfold len in *. cbn [length]. lia. }
  destruct (H [] no_rej) as (rej & -> & E). exists rej. split; [done |]. change (rej_Total no_rej) with 0 in E. lia.
Qed.

Lemma sortZ_perm l : sortZ l ≡ₚ l.
Proof. apply merge_sort_Permutation. Qed.

Lemma sortZ_sorted l : StronglySorted Z.le (sortZ l).
Proof. apply Sorted_StronglySorted; [intros x y z; lia | apply Sorted_merge_sort, _]. Qed.

(** Fewer than [i] values are below the one at rank [i]. *)
Lemma rank_below l i x : sortZ l !! i = Some x →
  x ∈ l ∧ (length (filter (λ y, (y < x)%Z) l) ≤ i)%nat ∧ (i = 0%nat → ∀ y, y ∈ l → x ≤ y).
Proof.
  intros Hi. pose proof (sortZ_sorted l) as Hs. pose proof (take_drop_middle _ _ _ Hi) as Et.
  set (l1 := take i (sortZ l)) in *. set (l2 := drop (S i) (sortZ l)) in *.
  assert (length l1 = i) as Hl1 by (unfold l1; rewrite length_take; apply lookup_lt_Some in Hi; lia).
  rewrite <- Et in Hs. apply StronglySorted_app in Hs as (_ & _ & Hs2). apply StronglySorted_inv in Hs2 as [_ Hall]. rewrite Forall_forall in Hall.
  split_and!.
  - rewrite <- (sortZ_perm l). by eapply list_elem_of_lookup_2.
  - rewrite <- (sortZ_perm l), <- Et, filter_app, length_app, (filter_cons_False _ x l2) by lia.
    assert (filter (λ y, (y < x)%Z) l2 = []) as ->.
    { destruct (filter (λ y, (y < x)%Z) l2) as [| y l3] eqn:Ef; [done |].
      assert (y ∈ filter (λ y, (y < x)%Z) l2) as [Hy Hin]%list_elem_of_filter by (rewrite Ef; apply list_elem_of_here). specialize (Hall y Hin). lia. }
    cbn [length]. rewrite Nat.add_0_r, <- Hl1. apply length_filter.
  - intros ->. intros y. rewrite <- (sortZ_perm l), <- Et. destruct l1; [| done]. cbn [app]. rewrite elem_of_cons.
    intros [-> | Hy]; [lia | by apply Hall].
Qed.

Definition axis_value (ax : Axis) (o : Observation) : Z := match ax with AxisBytes => DownBytes o | _ => AgeMs o end.
Definition other_axis (ax : Axis) : Axis := match ax with AxisBytes => AxisAge | _ => AxisBytes end.

Lemma percentile10 l : 2 ≤ len l →
  ∃ x, percentileInt64 (sortZ l) 10 = Ret x ∧ x ∈ l ∧ 10 * len (filter (λ y, (y < x)%Z) l) < len l.
Proof.
  intros Hl. assert (len (sortZ l) = len l) as El by (unfold len; f_equal; apply Permutation_length, sortZ_perm).
  assert (percentileIndex (len l) 10 = (len l - 1) / 10) as Ei.
  { unfold percentileIndex. destruct (Z.eqb_spec (len l) 1); [lia |]. rewrite Z.quot_div_nonneg by lia.
    replace (10 * (len l - 1) / 100) with ((len l - 1) / 10) by (symmetry; apply (Z.div_mul_cancel_l (len l - 1) 10 10); lia).
    destruct (Z.ltb_spec ((len l - 1) / 10) 0); [pose proof (Z.div_pos (len l - 1) 10); lia |].
    destruct (Z.leb_spec (len l) ((len l - 1) / 10)); [| done]. pose proof (Z.div_le_upper_bound (len l - 1) 10 (len l - 1)). lia. }
  pose proof (Z.div_pos (len l - 1) 10). pose proof (Z.mul_div_le (len l - 1) 10).
  destruct (lookup_lt_is_Some_2 (sortZ l) (Z.to_nat ((len l - 1) / 10))) as [x Hx]; [unfold len in *; lia |].
  exists x. destruct (rank_below _ _ _ Hx) as (Hin & Hb & _). split_and!; [| done | unfold len in *; lia].
  unfold percentileInt64. destruct (sortZ l) as [| y l'] eqn:Es; [done |]. rewrite <- Es in *. rewrite El, Ei. unfold index.
  destruct (Z.leb_spec 0 ((len l - 1) / 10)); [| lia]. by rewrite Hx.
Qed.

Lemma smallest l : 1 ≤ len l → ∃ x, index (sortZ l) 0 = Ret x ∧ x ∈ l ∧ ∀ y, y ∈ l → x ≤ y.
Proof.
  intros Hl. destruct (lookup_lt_is_Some_2 (sortZ l) 0) as [x Hx]; [rewrite (Permutation_length (sortZ_perm l)); unfold len in Hl; lia |].
  exists x. destruct (rank_below _ _ _ Hx) as (Hin & _ & Hm). split_and!; [| done | by apply Hm]. unfold index. change (Z.to_nat 0) with 0%nat. by rewrite Hx.
Qed.

Lemma pick_axis_tight ages bytesv :
  match pick_axis (cvInt64 ages) (cvInt64 bytesv) with
  | AxisUnknown => True
  | AxisAge => flt (fmul (cvInt64 ages) (of_int 2)) (cvInt64 bytesv) = true
  | AxisBytes => flt (fmul (cvInt64 bytesv) (of_int 2)) (cvInt64 ages) = true
  end.
Proof.
  unfold pick_axis. destruct (flt fzero (cvInt64 ages)); cbn [andb].
  - destruct (flt (fmul (cvInt64 ages) (of_int 2)) (cvInt64 bytesv)); [done |].
    destruct (flt fzero (cvInt64 bytesv)); cbn [andb]; [| done]. by destruct (flt (fmul (cvInt64 bytesv) (of_int 2)) (cvInt64 ages)).
  - destruct (flt fzero (cvInt64 bytesv)); cbn [andb]; [| done]. by destruct (flt (fmul (cvInt64 bytesv) (of_int 2)) (cvInt64 ages)).
Qed.

Lemma len_filter_fmap (f : Observation → Z) x (l : list Observation) :
  len (filter (λ y, (y < x)%Z) (f <$> l)) = len (filter (λ o, (f o < x)%Z) l).
Proof.
  unfold len. f_equal. induction l as [| o l IH]; [done |]. rewrite fmap_cons, !filter_cons.
  destruct (decide (f o < x)); cbn [length]; by rewrite IH.
Qed.

(** The verdict [v] on the sample [clean] is founded on it. *)
Definition founded (clean : list Observation) (v : Verdict) : Prop :=
  match v_Axis v with
  | AxisUnknown => ThAge v = 0 ∧ ThBytes v = 0 ∧ AgeMinMs v = 0
  | ax =>
    12 ≤ len clean
    ∧ (∃ o, o ∈ clean ∧ AgeMs o = AgeMinMs v) ∧ (∀ o, o ∈ clean → AgeMinMs v ≤ AgeMs o)
    ∧ flt (fmul (cvInt64 (axis_value ax <$> clean)) (of_int 2)) (cvInt64 (axis_value (other_axis ax) <$> clean)) = true
    ∧ ∃ p10 safe, p10 ∈ axis_value ax <$> clean ∧ 10 * len (filter (λ o, (axis_value ax o < p10)%Z) clean) < len clean
      ∧ p10 * 4 / 5 ≤ safe ≤ p10 * 4 / 5 + 1
      ∧ (ThAge v, ThBytes v) = match ax with AxisAge => (safe * ns_per_ms, 0) | _ => (0, safe) end
  end.

Lemma i64_mid x : 0 ≤ x < 2 ^ 62 → i64 x = x.
Proof. intros H. unfold i64. rewrite Z.mod_small; lia. Qed.

Lemma infer_founded r minAgeMs teardownMs :
  (∀ o, o ∈ Snapshot r → AgeMs o < 2 ^ 40 ∧ 0 ≤ DownBytes o < 2 ^ 50) →
  ∃ v, InferWithMinAgeAndTeardown r minAgeMs teardownMs = Ret v
    ∧ let clean := filter (genuine minAgeMs teardownMs) (Snapshot r) in
      Samples v = len clean ∧ Samples v + rej_Total (Rejected v) = len (Snapshot r) ∧ founded clean v.
Proof.
  intros Hobs. unfold InferWithMinAgeAndTeardown. destruct (filterNoise_spec (Snapshot r) minAgeMs teardownMs) as (rej & -> & Hrej).
  set (clean := filter (genuine minAgeMs teardownMs) (Snapshot r)) in *. cbv zeta.
  assert (∀ o, o ∈ clean → 0 < AgeMs o < 2 ^ 40 ∧ 0 ≤ DownBytes o < 2 ^ 50) as Hc.
  { intros o [Hg Hin]%list_elem_of_filter. destruct (Hobs o Hin), Hg as (? & _). split; [lia | done]. }
  unfold MinSamplesForInference. destruct (Z.ltb_spec (len clean) 12) as [| H12]; [eexists; split; [done |]; by split_and! |].
  pose proof (pick_axis_tight (AgeMs <$> clean) (DownBytes <$> clean)) as Ht.
  assert (∀ ax, 12 ≤ len (axis_value ax <$> clean)) as Hlen by (intros ax; unfold len; by rewrite length_fmap).
  destruct (smallest (AgeMs <$> clean)) as (amin & Ea & Hain & Hamin); [pose proof (Hlen AxisAge : 12 ≤ len (AgeMs <$> clean)); lia |].
  assert ((∃ o, o ∈ clean ∧ AgeMs o = amin) ∧ ∀ o, o ∈ clean → amin ≤ AgeMs o) as [Hex Hle].
  { split; [apply list_elem_of_fmap in Hain as (o & -> & ?); by exists o | intros o Ho; apply Hamin, list_elem_of_fmap; by exists o]. }
  assert (∀ ax, ax ≠ AxisUnknown → ∃ p10, percentileInt64 (sortZ (axis_value ax <$> clean)) 10 = Ret p10 ∧ p10 ∈ axis_value ax <$> clean
    ∧ 10 * len (filter (λ o, (axis_value ax o < p10)%Z) clean) < len clean ∧ p10 * 4 / 5 ≤ to_int (fmul (of_int p10) f0_8) ≤ p10 * 4 / 5 + 1
    ∧ (ax = AxisAge → 0 ≤ p10 < 2 ^ 40)) as Hp.
  { intros ax Hax. destruct (percentile10 (axis_value ax <$> clean)) as (p10 & Ep & Hin & Hb); [specialize (Hlen ax); lia |]. exists p10.
    rewrite len_filter_fmap in Hb. replace (len (axis_value ax <$> clean)) with (len clean) in Hb by (unfold len; by rewrite length_fmap).
    assert (0 ≤ p10 < 2 ^ 50 ∧ (ax = AxisAge → 0 ≤ p10 < 2 ^ 40)) as [Hr1 Hr2].
    { apply list_elem_of_fmap in Hin as (o & -> & Ho). destruct (Hc o Ho). destruct ax; [done | |]; cbn [axis_value]; split; try done; lia. }
    split_and!; try done; try (by apply four_fifths); try (by apply Hb). }
  destruct (pick_axis (cvInt64 (AgeMs <$> clean)) (cvInt64 (DownBytes <$> clean))) eqn:Eax; [eexists; split; [done |]; by split_and! | |];
    (destruct (flt (of_int 1) _); [eexists; split; [done |]; by split_and! |]); rewrite Ea; cbn [mbind outcome_bind].
  - destruct (Hp AxisAge) as (p10 & Ep & Hin & Hb & Hs & Hr); [done |]. specialize (Hr eq_refl). change (axis_value AxisAge <$> clean) with (AgeMs <$> clean) in Ep. rewrite Ep. cbn [mbind outcome_bind].
    eexists. split; [done |]. cbn [Samples Rejected]. split_and!; [done | done |]. cbn [founded v_Axis AgeMinMs ThAge ThBytes].
    split_and!; [done | done | done | done |]. exists p10, (to_int (fmul (of_int p10) f0_8)). split_and!; [done | done | lia | lia |].
    rewrite i64_mid; [done |]. unfold ns_per_ms. pose proof (Z.div_pos (p10 * 4) 5). pose proof (Z.div_le_upper_bound (p10 * 4) 5 p10). lia.
  - destruct (Hp AxisBytes) as (p10 & Ep & Hin & Hb & Hs & _); [done |]. change (axis_value AxisBytes <$> clean) with (DownBytes <$> clean) in Ep. rewrite Ep. cbn [mbind outcome_bind].
    eexists. split; [done |]. cbn [Samples Rejected]. split_and!; [done | done |]. cbn [founded v_Axis AgeMinMs ThAge ThBytes].
    split_and!; [done | done | done | done |]. exists p10, (to_int (fmul (of_int p10) f0_8)). split_and!; [done | done | lia | lia | done].
Qed.

(** An inference never panics and is founded: it counts every recorded
    death once, as a sample or as noise; without a verdict it names no threshold;
    with one it has at least twelve deaths the network can have caused, within
    both age bounds, whose spread on the chosen axis is less than half the spread
    on the other, and the threshold, on that axis only, is four fifths (within one
    unit) of a value below which fewer than a tenth of them lie; the least age it
    reports is that of a sample. *)
Theorem inference_founded r minAgeMs teardownMs :
  (∀ o, o ∈ Snapshot r → AgeMs o < 2 ^ 40 ∧ 0 ≤ DownBytes o < 2 ^ 50) →
  ∃ v, InferWithMinAgeAndTeardown r minAgeMs teardownMs = Ret v
    ∧ let clean := filter (genuine minAgeMs teardownMs) (Snapshot r) in
      Samples v = len clean ∧ Samples v + rej_Total (Rejected v) = len (Snapshot r) ∧ founded clean v.
Proof. apply infer_founded. Qed.

(** ** Hazard bands are a life table *)

Definition zsum (f : Observation → Z) (l : list Observation) : Z := foldr (λ o s, f o + s) 0 l.

Lemma zsum_app f l k : zsum f (l ++ k) = zsum f l + zsum f k.
Proof. induction l as [| o l IH]; cbn [zsum foldr app]; [done |]. fold (zsum f (l ++ k)) (zsum f l). lia. Qed.

Lemma zsum_combine f g h (l : list Observation) : (∀ o, f o = g o + h o) → zsum f l = zsum g l + zsum h l.
Proof. intros H. induction l as [| o l IH]; cbn [zsum foldr]; [done |]. fold (zsum f l) (zsum g l) (zsum h l). rewrite H. lia. Qed.

Lemma zsum_le f g (l : list Observation) : (∀ o, f o ≤ g o) → zsum f l ≤ zsum g l.
Proof. intros H. induction l as [| o l IH]; cbn [zsum foldr]; [done |]. fold (zsum f l) (zsum g l). specialize (H o). lia. Qed.

Lemma zsum_scale f c (l : list Observation) : zsum (λ o, c * f o) l = c * zsum f l.
Proof. induction l as [| o l IH]; cbn [zsum foldr]; [lia |]. fold (zsum f l) (zsum (λ o, c * f o) l). lia. Qed.

Lemma zsum_cons f o l : zsum f (o :: l) = f o + zsum f l.
Proof. done. Qed.

Lemma zsum_nil f : zsum f [] = 0.
Proof. done. Qed.

Definition reaches (from : Z) (o : Observation) : Z := if AgeMs o <? from then 0 else 1.
Definition dies_in (from to : Z) (o : Observation) : Z := if AgeMs o <? from then 0 else if AgeMs o <? to then 1 else 0.
Definition lives_in (from to : Z) (o : Observation) : Z := if AgeMs o <? from then 0 else exposure from to (AgeMs o).

Lemma fold_cuts from to sat l R C K E :
  foldl (band_step count_cut from to) (mkBand from to R C K E sat) l
  = mkBand from to (R + zsum (reaches from) l) C (K + zsum (dies_in from to) l) (E + zsum (lives_in from to) l) sat.
Proof.
  revert R C K E. induction l as [| o l IH]; intros R C K E; [by rewrite !zsum_nil, !Z.add_0_r |].
  cbn [foldl]. rewrite !zsum_cons. unfold band_step at 2, reaches at 1, dies_in at 1, lives_in at 1.
  destruct (AgeMs o <? from); [| destruct (AgeMs o <? to); unfold count_cut]; cbn [FromMs ToMs Reached CensoredIn Cut ExposureMs RingSaturated];
    rewrite IH; f_equal; lia.
Qed.

Lemma fold_planned from to sat l R C K E :
  foldl (band_step count_censored from to) (mkBand from to R C K E sat) l
  = mkBand from to (R + zsum (reaches from) l) (C + zsum (dies_in from to) l) K (E + zsum (lives_in from to) l) sat.
Proof.
  revert R C K E. induction l as [| o l IH]; intros R C K E; [by rewrite !zsum_nil, !Z.add_0_r |].
  cbn [foldl]. rewrite !zsum_cons. unfold band_step at 2, reaches at 1, dies_in at 1, lives_in at 1.
  destruct (AgeMs o <? from); [| destruct (AgeMs o <? to); unfold count_censored]; cbn [FromMs ToMs Reached CensoredIn Cut ExposureMs RingSaturated];
    rewrite IH; f_equal; lia.
Qed.

Lemma band_sums from to cs ps sat :
  band from to cs ps sat =
  mkBand from to (zsum (reaches from) (cs ++ ps)) (zsum (dies_in from to) ps) (zsum (dies_in from to) cs) (zsum (lives_in from to) (cs ++ ps)) sat.
Proof. unfold band. by rewrite fold_cuts, fold_planned, !zsum_app, !Z.add_0_l. Qed.

(** The hazard bands over one state of the recorder form a life table: with
    [from ≤ mid ≤ to], cuts, censored rotations and exposure of two adjacent bands
    add up to those of their union, the connections that reach the second band are
    those that reached the first less the ones that ended in it, and the exposure
    of a band is between 0 and its width times the connections that reached it. *)
Theorem hazard_life_table r from mid to :
  from ≤ mid ≤ to →
  let b1 := Hazard r r r from mid in let b2 := Hazard r r r mid to in let b := Hazard r r r from to in
  Cut b = Cut b1 + Cut b2 ∧ CensoredIn b = CensoredIn b1 + CensoredIn b2 ∧ ExposureMs b = ExposureMs b1 + ExposureMs b2
  ∧ Reached b = Reached b1 ∧ Reached b2 = Reached b1 - Cut b1 - CensoredIn b1
  ∧ 0 ≤ ExposureMs b ≤ (to - from) * Reached b.
Proof.
  intros H. unfold Hazard. rewrite !band_sums. cbn [Cut CensoredIn ExposureMs Reached].
  assert (∀ o, dies_in from to o = dies_in from mid o + dies_in mid to o) as Hd
    by (intros o; unfold dies_in; repeat case_match; lia).
  assert (∀ o, lives_in from to o = lives_in from mid o + lives_in mid to o) as Hl
    by (intros o; unfold lives_in, exposure; repeat case_match; lia).
  assert (∀ o, reaches from o = reaches mid o + dies_in from mid o) as Hr by (intros o; unfold reaches, dies_in; repeat case_match; lia).
  split_and!.
  - by apply zsum_combine.
  - by apply zsum_combine.
  - by apply zsum_combine.
  - done.
  - pose proof (zsum_combine _ _ _ (Snapshot r ++ snapshotPlanned r) Hr) as E. rewrite (zsum_app (dies_in from mid)) in E. lia.
  - rewrite <- (Z.mul_0_l (zsum (reaches from) (Snapshot r ++ snapshotPlanned r))), <- zsum_scale. apply zsum_le. intros o.
    unfold lives_in, exposure, reaches. repeat case_match; lia.
  - rewrite <- zsum_scale. apply zsum_le. intros o. unfold lives_in, exposure, reaches. repeat case_match; lia.
Qed.

(** ** The adapter's threshold *)

Definition observe_all (a : option Adapter) (vs : list Verdict) : option Adapter := foldl (λ a v, fst (Observe a v)) a vs.

(** The last [pendingCount] verdicts all named the pending candidate. *)
Record adapter_inv (c : Z) (vs : list Verdict) (a : Adapter) : Prop := {
  ai_conf : configured a = c;
  ai_range : minAdaptiveAge ≤ current a ≤ c;
  ai_count : 0 ≤ pendingCount a < adaptConfirmations;
  ai_pending : ∃ h, target_of c <$> vs = h ++ replicate (Z.to_nat (pendingCount a)) (Some (pendingTarget a));
}.

Lemma target_range c v t : minAdaptiveAge ≤ c → target_of c v = Some t → minAdaptiveAge ≤ t ≤ c.
Proof.
  intros Hc. unfold target_of. destruct (v_Axis v); try done. destruct (_ <=? 0); [done |]. intros [= <-].
  destruct (Z.ltb_spec c (ThAge v - Z.rem (ThAge v) quantum)); match goal with |- context [if ?x <? ?y then _ else _] => destruct (Z.ltb_spec x y) end; lia.
Qed.

Definition moved (cur t : Z) : Z := if t <? cur then t else Z.min t (cur + releaseStep).

Lemma apply_target_current a t r : 0 ≤ current a < 2 ^ 61 → current (apply_target a t r) = moved (current a) t.
Proof.
  intros H. unfold apply_target, moved. cbn [current]. destruct (t <? current a); [done |]. rewrite i64_mid by (unfold releaseStep, second; lia).
  destruct (Z.ltb_spec t (current a + releaseStep)); lia.
Qed.

Lemma no_pending c vs a n : adapter_inv c vs a → n = 0 → ∀ vs' t, adapter_inv c vs' (with_pending a t n).
Proof.
  intros [H1 H2 H3 H4] -> vs' t. split; cbn [configured current pendingCount pendingTarget with_pending]; [done | done | unfold adaptConfirmations; lia |].
  exists (target_of c <$> vs'). by rewrite app_nil_r.
Qed.

(** One observation: the threshold moves only on the third verdict in a row for
    the same candidate. *)
Lemma observe_step c vs a v : minAdaptiveAge ≤ c < 2 ^ 61 → adapter_inv c vs a →
  ∃ a', Observe (Some a) v = (Some a', negb (current a' =? current a)) ∧ adapter_inv c (vs ++ [v]) a'
    ∧ (current a' = current a
       ∨ ∃ h t, target_of c <$> (vs ++ [v]) = h ++ [Some t; Some t; Some t] ∧ current a' = moved (current a) t).
Proof.
  intros Hc Hinv. pose proof Hinv as [H1 H2 H3 H4]. cbn [Observe]. rewrite H1. unfold minAdaptiveAge, second in Hc.
  destruct (Z.leb_spec c 0); [lia |]. destruct (target_of c v) as [t |] eqn:Et.
  2: { exists (with_pending a 0 0). cbn [current with_pending]. rewrite Z.eqb_refl. split_and!; [done | by eapply no_pending | by left]. }
  destruct (Z.eqb_spec t (current a)) as [| Hne]; [exists (with_pending a 0 0); cbn [current with_pending]; rewrite Z.eqb_refl; split_and!; [done | by eapply no_pending | by left] |].
  destruct H4 as [h Hh]. destruct (Z.eqb_spec t (pendingTarget a)) as [-> | Hp]; cbn [negb].
  - unfold adaptConfirmations in *. destruct (Z.ltb_spec (pendingCount a + 1) 3) as [Hlt | Hge].
    + exists (with_pending a (pendingTarget a) (pendingCount a + 1)). cbn [current with_pending]. rewrite Z.eqb_refl. split_and!; [done | | by left].
      split; cbn [configured current pendingCount pendingTarget with_pending]; [done | done | unfold adaptConfirmations; lia |].
      exists h. rewrite fmap_app, Hh, <- app_assoc. f_equal. replace (Z.to_nat (pendingCount a + 1)) with (Z.to_nat (pendingCount a) + 1)%nat by lia.
      rewrite replicate_add. cbn. by rewrite Et.
    + pose proof (target_range c v _ (proj1 Hc) Et) as Hr. unfold minAdaptiveAge, second in *.
      exists (apply_target a (pendingTarget a) (Reason v)). split_and!; [done | |].
      * split; rewrite ?apply_target_current by lia; cbn [configured pendingCount pendingTarget apply_target]; [done | | unfold adaptConfirmations; lia |].
        -- unfold moved, releaseStep, minAdaptiveAge, second in *. destruct (Z.ltb_spec (pendingTarget a) (current a)); lia.
        -- eexists. symmetry. apply app_nil_r.
      * right. exists h, (pendingTarget a). split; [| apply apply_target_current; lia]. rewrite fmap_app, Hh, <- app_assoc. f_equal.
        replace (Z.to_nat (pendingCount a)) with 2%nat by lia. cbn. by rewrite Et.
  - exists (with_pending a t 1). cbn [current with_pending]. rewrite Z.eqb_refl. split_and!; [done | | by left].
    split; cbn [configured current pendingCount pendingTarget with_pending]; [done | done | unfold adaptConfirmations; lia |].
    exists (target_of c <$> vs). rewrite fmap_app. cbn. by rewrite Et.
Qed.

Lemma new_adapter_inv c : minAdaptiveAge ≤ c → adapter_inv c [] (NewAdapter c).
Proof. intros H. split; cbn; [done | lia | unfold adaptConfirmations; lia | by exists []]. Qed.

Lemma observe_all_inv c vs ws a : minAdaptiveAge ≤ c < 2 ^ 61 → adapter_inv c vs a → ∃ a', observe_all (Some a) ws = Some a' ∧ adapter_inv c (vs ++ ws) a'.
Proof.
  intros Hc. revert vs a. induction ws as [| v ws IH]; intros vs a Ha; [exists a; by rewrite app_nil_r |].
  unfold observe_all. cbn [foldl]. destruct (observe_step c vs a v Hc Ha) as (a1 & -> & Ha1 & _). cbn [fst].
  destruct (IH _ _ Ha1) as (a' & E & Ha'). exists a'. split; [done |]. by rewrite <- app_assoc in Ha'.
Qed.

(** The adapted threshold, for a configured one of at least 30 s: whatever
    verdicts arrive it stays between 30 s and the configured value, [Observe]
    reports exactly its changes, and it changes only when the verdict and the two
    before it named the same candidate: down to the candidate at once, up by at
    most 5 s. *)
Theorem adapter_hysteresis c vs v :
  minAdaptiveAge ≤ c < 2 ^ 61 →
  ∃ a a', observe_all (Some (NewAdapter c)) vs = Some a
    ∧ Observe (Some a) v = (Some a', negb (current a' =? current a))
    ∧ minAdaptiveAge ≤ current a ≤ c ∧ minAdaptiveAge ≤ current a' ≤ c
    ∧ (current a' = current a
       ∨ ∃ h t, target_of c <$> (vs ++ [v]) = h ++ [Some t; Some t; Some t]
           ∧ current a' = if t <? current a then t else Z.min t (current a + releaseStep)).
Proof.
  intros Hc. destruct (observe_all_inv c [] vs _ Hc (new_adapter_inv c (proj1 Hc))) as (a & E & Ha).
  destruct (observe_step c vs a v Hc Ha) as (a' & E' & Ha' & Hm). exists a, a'.
  split_and!; [done | done | apply Ha | apply Ha | apply Ha' | apply Ha' | done].
Qed.

(** Verdicts for the same candidate still needed to reach it. *)
Definition rank (t : Z) (a : Adapter) : Z :=
  if t =? current a then 0
  else 3 * ((Z.max 0 (t - current a - 1)) / releaseStep) + (if t =? pendingTarget a then 3 - pendingCount a else 3).

Lemma rank_nonneg c vs a t : adapter_inv c vs a → 0 ≤ rank t a ∧ (rank t a = 0 ↔ current a = t).
Proof.
  intros [_ _ H _]. unfold rank. unfold adaptConfirmations in H. pose proof (Z.div_pos (Z.max 0 (t - current a - 1)) releaseStep).
  unfold releaseStep, second in *. destruct (Z.eqb_spec t (current a)); [lia |]. destruct (t =? pendingTarget a); lia.
Qed.

Lemma moved_rank cur t : t ≠ cur → moved cur t ≠ t →
  Z.max 0 (t - moved cur t - 1) / releaseStep + 1 = Z.max 0 (t - cur - 1) / releaseStep.
Proof.
  intros Hne. unfold moved. destruct (Z.ltb_spec t cur); [done |]. intros Hm.
  assert (cur + releaseStep < t) by lia. rewrite Z.min_r by lia. unfold releaseStep, second in *.
  replace (Z.max 0 (t - cur - 1)) with (Z.max 0 (t - (cur + 5 * 10 ^ 9) - 1) + 1 * (5 * 10 ^ 9)) by lia. rewrite Z.div_add by lia. lia.
Qed.

Lemma observe_rank c vs a v t : minAdaptiveAge ≤ c < 2 ^ 61 → adapter_inv c vs a → target_of c v = Some t →
  ∃ a', Observe (Some a) v = (Some a', negb (current a' =? current a)) ∧ adapter_inv c (vs ++ [v]) a' ∧ rank t a' ≤ Z.max 0 (rank t a - 1).
Proof.
  intros Hc Ha Et. destruct (observe_step c vs a v Hc Ha) as (a' & E & Ha' & _). exists a'. split_and!; [done | done |].
  pose proof (rank_nonneg c vs a t Ha) as [Hn Hz]. pose proof Ha as [H1 H2 H3 H4]. revert E. cbn [Observe]. rewrite H1. unfold minAdaptiveAge, second in *.
  destruct (Z.leb_spec c 0); [lia |]. rewrite Et. unfold adaptConfirmations in *.
  destruct (Z.eqb_spec t (current a)) as [E1 |]; [intros [= <-]; unfold rank; cbn [current with_pending]; rewrite <- E1, Z.eqb_refl; lia |].
  destruct (Z.eqb_spec t (pendingTarget a)) as [E2 |]; cbn [negb].
  - destruct (Z.ltb_spec (pendingCount a + 1) 3).
    + intros [= <-]. unfold rank. cbn [current with_pending pendingTarget pendingCount]. rewrite E2, Z.eqb_refl. destruct (Z.eqb_spec (pendingTarget a) (current a)); lia.
    + intros [= <- _]. unfold rank at 1. rewrite apply_target_current by lia. cbn [apply_target pendingTarget pendingCount].
      unfold rank. rewrite E2, Z.eqb_refl. destruct (Z.eqb_spec (pendingTarget a) (current a)); [congruence |].
      destruct (Z.eqb_spec (pendingTarget a) (moved (current a) (pendingTarget a))) as [| Hm].
      * pose proof (Z.div_pos (Z.max 0 (pendingTarget a - current a - 1)) releaseStep). unfold releaseStep, second in *. lia.
      * pose proof (moved_rank (current a) (pendingTarget a)). pose proof (target_range c v t) as Hr. rewrite E2 in *.
        unfold minAdaptiveAge, second in Hr. specialize (Hr (proj1 Hc) Et). destruct (Z.eqb_spec (pendingTarget a) 0); [lia |].
        assert (moved (current a) (pendingTarget a) ≠ pendingTarget a) by congruence. lia.
  - intros [= <-]. unfold rank. cbn [current with_pending pendingTarget pendingCount]. rewrite Z.eqb_refl.
    destruct (Z.eqb_spec t (current a)); [done |]. destruct (Z.eqb_spec t (pendingTarget a)); [done |]. lia.
Qed.

(** The threshold converges: a verdict that keeps naming the same candidate
    brings it there after three verdicts when it is lower, and after three for
    each started step of 5 s when it is higher, from any earlier history. *)
Theorem adapter_converges c vs v t n :
  minAdaptiveAge ≤ c < 2 ^ 61 → target_of c v = Some t →
  let a := observe_all (Some (NewAdapter c)) vs in
  3 * (Z.max 0 (t - Threshold a) / releaseStep + 1) ≤ Z.of_nat n →
  Threshold (observe_all a (replicate n v)) = t.
Proof.
  intros Hc Et. destruct (observe_all_inv c [] vs _ Hc (new_adapter_inv c (proj1 Hc))) as (a & -> & Ha). cbn [Threshold].
  intros Hn. assert (rank t a ≤ Z.of_nat n) as Hr.
  { etrans; [| exact Hn]. unfold rank. pose proof (Z.div_pos (Z.max 0 (t - current a)) releaseStep). unfold releaseStep, second in *.
    destruct (t =? current a); [lia |]. pose proof (ai_count _ _ _ Ha).
    assert (Z.max 0 (t - current a - 1) / (5 * 10 ^ 9) ≤ Z.max 0 (t - current a) / (5 * 10 ^ 9)) by (apply Z.div_le_mono; lia).
    destruct (t =? pendingTarget a); lia. }
  clear Hn. cbn [app] in Ha. revert a vs Ha Hr. induction n as [| n IH]; intros a vs Ha Hr; cbn [replicate observe_all foldl].
  - apply (rank_nonneg c vs a t Ha). destruct (rank_nonneg c vs a t Ha). lia.
  - destruct (observe_rank c vs a v t Hc Ha Et) as (a' & -> & Ha' & Hle). cbn [fst]. apply (IH a' _ Ha'). lia.
Qed.

(** ** The closed loop *)

Definition deaths (ops : list obs_op) : list Observation := omap (λ o, match o with ODeath d => Some d | _ => None end) ops.

Definition plausible (o : Observation) : Prop := AgeMs o < 2 ^ 40 ∧ 0 ≤ DownBytes o < 2 ^ 50.

#[export] Instance plausible_dec o : Decision (plausible o).
Proof. unfold plausible. apply _. Defined.

(** The pool as [NewWSPoolTransport] makes it. *)
Definition new_pool (c ageCut hardCap sticky step cap n : Z) (graceful : bool) : pool :=
  mkP (NewRecorder 0) (Some (NewAdapter c)) c ageCut graceful hardCap sticky step cap n.

Record loop_inv (c : Z) (ops : list obs_op) (p : pool) : Prop := {
  li_rec : ∃ pl, rec_inv DefaultCapacity (slotDeaths p) (deaths ops, pl);
  li_adapter : ∃ vs a, ageAdapter p = Some a ∧ adapter_inv c vs a;
}.

Lemma latest_in {A} n (l : list A) x : x ∈ latest n l → x ∈ l.
Proof. apply subseteq_drop. Qed.

Lemma loop_verdict c ops p : Forall plausible (deaths ops) → loop_inv c ops p →
  ∃ v, infer_now p = Ret v
    ∧ founded (filter (genuine (Z.quot (ageCutFloor p) ns_per_ms) (inferTeardownBoundMs p)) (latest DefaultCapacity (deaths ops))) v.
Proof.
  intros Hpl [[pl Hr] _]. destruct (rec_snapshots _ _ _ Hr) as [Es _]. cbn [fst] in Es. unfold infer_now.
  destruct (infer_founded (slotDeaths p) (Z.quot (ageCutFloor p) ns_per_ms) (inferTeardownBoundMs p)) as (v & E & _ & _ & Hf).
  { rewrite Es. intros o Ho%latest_in. rewrite Forall_forall in Hpl. by apply Hpl. }
  exists v. split; [done |]. by rewrite Es in Hf.
Qed.

Lemma summarize_total r : ∃ s, Summarize r = Ret s.
Proof.
  unfold Summarize. destruct (Snapshot r) as [| o l] eqn:E; [by eexists |].
  assert (∀ f p, 0 ≤ p ≤ 100 → ∃ x, percentileInt64 (sortZ (f <$> o :: l)) p = Ret x) as Hp.
  { intros f p Hp. unfold percentileInt64. destruct (sortZ (f <$> o :: l)) as [| y k] eqn:Es; [by eexists |]. unfold percentileIndex, index.
    assert (1 ≤ len (y :: k)) by (rewrite len_cons; pose proof (len_nonneg k); lia). set (n := len (y :: k)) in *.
    assert (∀ i, 0 ≤ i < n → ∃ x, (if 0 <=? i then match (y :: k) !! Z.to_nat i with Some b => Ret b | None => Panic end else Panic) = Ret x) as Hi.
    { intros i Hi. destruct (Z.leb_spec 0 i); [| lia]. destruct (lookup_lt_is_Some_2 (y :: k) (Z.to_nat i)) as [x ->]; [unfold n, len in *; lia | by eexists]. }
    apply Hi. destruct (Z.eqb_spec n 1); [lia |]. destruct (Z.ltb_spec (Z.quot (p * (n - 1)) 100) 0); match goal with |- context [if ?x <=? ?y then _ else _] => destruct (Z.leb_spec x y) end; lia. }
  destruct (smallest (AgeMs <$> o :: l)) as (m & -> & _); [unfold len; cbn [length fmap list_fmap]; lia |].
  destruct (Hp AgeMs 10) as [? ->]; [lia |]. destruct (Hp AgeMs 50) as [? ->]; [lia |]. destruct (Hp AgeMs 90) as [? ->]; [lia |].
  destruct (Hp DownBytes 10) as [? ->]; [lia |]. destruct (Hp DownBytes 50) as [? ->]; [lia |]. destruct (Hp DownBytes 90) as [? ->]; [lia |]. by eexists.
Qed.

(** What a tick does: one verdict, shown to the adapter. *)
Lemma tick_effect c ops p : minAdaptiveAge ≤ c < 2 ^ 61 → Forall plausible (deaths ops) → loop_inv c ops p →
  ∃ v p' ch, infer_now p = Ret v ∧ logSlotDeathSummary p = Ret (p', ch) ∧ loop_inv c ops p' ∧ slotDeaths p' = slotDeaths p
    ∧ (ch = true ↔ Threshold (ageAdapter p') ≠ Threshold (ageAdapter p))
    ∧ (ch = true → ∃ t, target_of c v = Some t ∧ Threshold (ageAdapter p') = moved (Threshold (ageAdapter p)) t).
Proof.
  intros Hc Hpl Hp. destruct (loop_verdict c ops p Hpl Hp) as (v & Ev & _). destruct Hp as [Hr (vs & a & Ea & Ha)].
  unfold logSlotDeathSummary. destruct (summarize_total (slotDeaths p)) as [s ->]. cbn [mbind outcome_bind]. rewrite Ev. cbn [mbind outcome_bind].
  destruct (observe_step c vs a v Hc Ha) as (a' & E & Ha' & Hm). rewrite Ea, E.
  exists v, (with_adapter p (Some a')), (negb (current a' =? current a)). cbn [with_adapter slotDeaths ageAdapter Threshold].
  assert (negb (current a' =? current a) = true ↔ current a' ≠ current a) as Hch by (destruct (Z.eqb_spec (current a') (current a)); cbn; split; congruence).
  split_and!; [done | done | split; [done | by eexists _, _] | done | exact Hch |].
  intros H%Hch. destruct Hm as [| (h & t & Et & Em)]; [done |]. exists t. split; [| done].
  rewrite fmap_app in Et. cbn [fmap list_fmap] in Et. change [Some t; Some t; Some t] with ([Some t; Some t] ++ [Some t]) in Et.
  rewrite app_assoc in Et. by apply app_inj_2 in Et as [_ [= ->]].
Qed.

Lemma loop_step c ops p o : minAdaptiveAge ≤ c < 2 ^ 61 → Forall plausible (deaths (ops ++ [o])) → loop_inv c ops p →
  ∃ p', obs_step p o = Ret p' ∧ loop_inv c (ops ++ [o]) p'.
Proof.
  intros Hc Hpl Hp. unfold deaths in *. rewrite omap_app in Hpl. apply Forall_app in Hpl as [Hpl _].
  destruct o as [d | ag db |]; cbn [obs_step].
  - destruct Hp as [[pl Hr] Ha]. destruct (rec_step_inv _ _ _ (RCut d) Hr) as (r' & E & Hr'). cbn [rec_step] in E. rewrite E.
    eexists. split; [done |]. split; [| done]. exists pl. unfold deaths. by rewrite omap_app.
  - destruct Hp as [[pl Hr] Ha]. destruct (rec_step_inv _ _ _ (RPlan (mkObs ag db 0 "" false)) Hr) as (r' & E & Hr'). cbn [rec_step] in E. rewrite E.
    eexists. split; [done |]. split; [| done]. eexists. unfold deaths. rewrite omap_app. cbn [omap list_omap]. rewrite app_nil_r. apply Hr'.
  - destruct (tick_effect c ops p Hc Hpl Hp) as (v & p' & ch & _ & -> & [Hr' Ha'] & _). exists p'. split; [done |].
    split; [| done]. unfold deaths. rewrite omap_app. cbn [omap list_omap]. by rewrite app_nil_r.
Qed.

Lemma loop_run c ops p done : minAdaptiveAge ≤ c < 2 ^ 61 → Forall plausible (deaths (done ++ ops)) → loop_inv c done p →
  ∃ p', obs_run p ops = Ret p' ∧ loop_inv c (done ++ ops) p'.
Proof.
  intros Hc. revert p done. induction ops as [| o ops IH]; intros p done Hpl Hp; [exists p; by rewrite app_nil_r |].
  cbn [obs_run]. change (o :: ops) with ([o] ++ ops) in *. rewrite app_assoc in *.
  assert (Forall plausible (deaths (done ++ [o]))) as Hpl1 by (unfold deaths in *; rewrite omap_app in Hpl; by apply Forall_app in Hpl as [? _]).
  destruct (loop_step c done p o Hc Hpl1 Hp) as (p1 & -> & Hp1). apply (IH p1 _ Hpl Hp1).
Qed.

(** C34: the closed loop of deaths, planned rotations and ticks: it never panics;
    a slot is always due for rotation at the configured age plus its offset and
    never before 30 s plus its offset; and when a tick changes the threshold, its
    verdict is founded on those of the last 512 deaths that lie between the age-cut
    floor and the pool's own teardown budget, names the age axis, and the threshold
    moves towards four fifths of their lowest decile. *)
Theorem adaptation_loop_sound c ageCut hardCap sticky step cap n graceful ops :
  minAdaptiveAge ≤ c < 2 ^ 61 → Forall plausible (deaths ops) →
  ∃ p, obs_run (new_pool c ageCut hardCap sticky step cap n graceful) ops = Ret p
    ∧ (∀ age off, - 2 ^ 61 < off < 2 ^ 61 → (c + off ≤ age → rotation_due p age off = true) ∧ (age < minAdaptiveAge + off → rotation_due p age off = false))
    ∧ ∃ v p' ch, infer_now p = Ret v ∧ logSlotDeathSummary p = Ret (p', ch) ∧ (ch = true ↔ base_age p' ≠ base_age p)
      ∧ founded (filter (genuine (Z.quot (ageCutFloor p) ns_per_ms) (inferTeardownBoundMs p)) (latest 512 (deaths ops))) v
      ∧ (ch = true → v_Axis v = AxisAge ∧ ∃ t, target_of c v = Some t ∧ base_age p' = moved (base_age p) t).
Proof.
  intros Hc Hpl. destruct (loop_run c ops (new_pool c ageCut hardCap sticky step cap n graceful) [] Hc Hpl) as (p & E & Hp).
  { split; [exists []; apply (new_rec_inv 0) | exists [], (NewAdapter c); split; [done | by apply new_adapter_inv, Hc]]. }
  exists p. cbn [app] in Hp. split; [done |].
  assert (∀ q, loop_inv c ops q → base_age q = Threshold (ageAdapter q) ∧ minAdaptiveAge ≤ base_age q ≤ c) as Hb.
  { intros q [_ (vs & a & Ea & Ha)]. unfold base_age. rewrite Ea. cbn [Threshold]. pose proof (ai_range _ _ _ Ha). unfold minAdaptiveAge, second in *.
    destruct (Z.ltb_spec 0 (current a)); lia. }
  split.
  - intros age off Ho. destruct (Hb p Hp) as [_ Hr]. unfold rotation_due, minAdaptiveAge, second in *.
    assert (i64 (base_age p + off) = base_age p + off) as -> by (unfold i64; rewrite Z.mod_small; lia).
    destruct (Z.ltb_spec age (base_age p + off)); cbn [negb]; split; try done; lia.
  - destruct (tick_effect c ops p Hc Hpl Hp) as (v & p' & ch & Ev & Et & Hp' & _ & Hch & Hm). exists v, p', ch.
    rewrite (proj1 (Hb p Hp)), (proj1 (Hb p' Hp')). destruct (loop_verdict c ops p Hpl Hp) as (v' & Ev' & Hf). rewrite Ev in Ev'. injection Ev' as <-.
    split_and!; [done | done | exact Hch | done |]. intros Hc'. destruct (Hm Hc') as (t & Ht & Hmv). split; [| by exists t].
    revert Ht. unfold target_of. by destruct (v_Axis v).
Qed.

(** ** Witnesses and defects *)

Module ObsDemo.

(** Deaths at about 85 s with very different volumes, and some noise. *)
Definition volumes : list Z := [342; 900; 1500; 4000; 20000; 70000; 100000; 300000; 500000; 1200000; 2400000; 3600000].
Definition cuts : list Observation := zip_with (λ i b, mkObs (84200 + i * 150) b 900 "close_other" true) [0; 1; 2; 3; 4; 5; 6; 7; 8; 9; 10; 11] volumes.
Definition noise : list Observation := [mkObs 0 0 (-1) "io_timeout" false; mkObs 293000 0 10 "close_other" true; mkObs 2 0 1 "close_other" false].
Definition filled : Recorder :=
  match rec_run (NewRecorder 0) (RCut <$> (noise ++ cuts)) with Ret r => r | _ => NewRecorder 0 end.

Lemma filled_snapshot : Snapshot filled = noise ++ cuts.
Proof. vm_compute. reflexivity. Qed.

Lemma inference_founded_witness :
  ∃ v, InferWithMinAgeAndTeardown filled 60000 145000 = Ret v
    ∧ let clean := filter (genuine 60000 145000) (Snapshot filled) in
      Samples v = len clean ∧ Samples v + rej_Total (Rejected v) = len (Snapshot filled) ∧ founded clean v.
Proof.
  apply (inference_founded filled 60000 145000). rewrite filled_snapshot. intros o.
  apply (proj1 (Forall_forall plausible (noise ++ cuts))). apply (bool_decide_eq_true_1 _). vm_compute. reflexivity.
Defined.

Example verdict_of_filled :
  (λ v, (v_Axis v, ThAge v, Samples v, AgeMinMs v)) <$> InferWithMinAgeAndTeardown filled 60000 145000 = Ret (AxisAge, 67480 * ns_per_ms, 12, 84200).
Proof. vm_compute. reflexivity. Qed.

Lemma hazard_life_table_witness :
  let b1 := Hazard filled filled filled 80000 85000 in let b2 := Hazard filled filled filled 85000 90000 in let b := Hazard filled filled filled 80000 90000 in
  Cut b = Cut b1 + Cut b2 ∧ CensoredIn b = CensoredIn b1 + CensoredIn b2 ∧ ExposureMs b = ExposureMs b1 + ExposureMs b2
  ∧ Reached b = Reached b1 ∧ Reached b2 = Reached b1 - Cut b1 - CensoredIn b1
  ∧ 0 ≤ ExposureMs b ≤ (90000 - 80000) * Reached b.
Proof. apply (hazard_life_table filled 80000 85000 90000). lia. Defined.

Definition by_age (s : Z) : Verdict := mkVerdict AxisAge (s * second) 0 12 84200 no_rej RByAge.

Lemma adapter_hysteresis_witness :
  ∃ a a', observe_all (Some (NewAdapter (75 * second))) [by_age 66; by_age 66] = Some a
    ∧ Observe (Some a) (by_age 66) = (Some a', negb (current a' =? current a))
    ∧ minAdaptiveAge ≤ current a ≤ 75 * second ∧ minAdaptiveAge ≤ current a' ≤ 75 * second
    ∧ (current a' = current a
       ∨ ∃ h t, target_of (75 * second) <$> ([by_age 66; by_age 66] ++ [by_age 66]) = h ++ [Some t; Some t; Some t]
           ∧ current a' = if t <? current a then t else Z.min t (current a + releaseStep)).
Proof. apply (adapter_hysteresis (75 * second) [by_age 66; by_age 66] (by_age 66)). vm_compute. split; congruence. Defined.

Lemma adapter_converges_witness :
  Threshold (observe_all (observe_all (Some (NewAdapter (75 * second))) (replicate 3 (by_age 40))) (replicate 18 (by_age 66))) = 66 * second.
Proof.
  apply (adapter_converges (75 * second) (replicate 3 (by_age 40)) (by_age 66) (66 * second) 18); vm_compute; [split; congruence | reflexivity | congruence].
Defined.

Definition loop_ops : list obs_op := (ODeath <$> cuts) ++ [OPlanned 75000 1000; OTick; OTick].

Lemma adaptation_loop_sound_witness :
  ∃ p, obs_run (new_pool (75 * second) 0 (25 * second) (15 * second) second (10 * second) 16 true) loop_ops = Ret p
    ∧ (∀ age off, - 2 ^ 61 < off < 2 ^ 61 →
        (75 * second + off ≤ age → rotation_due p age off = true) ∧ (age < minAdaptiveAge + off → rotation_due p age off = false))
    ∧ ∃ v p' ch, infer_now p = Ret v ∧ logSlotDeathSummary p = Ret (p', ch) ∧ (ch = true ↔ base_age p' ≠ base_age p)
      ∧ founded (filter (genuine (Z.quot (ageCutFloor p) ns_per_ms) (inferTeardownBoundMs p)) (latest 512 (deaths loop_ops))) v
      ∧ (ch = true → v_Axis v = AxisAge ∧ ∃ t, target_of (75 * second) v = Some t ∧ base_age p' = moved (base_age p) t).
Proof.
  apply (adaptation_loop_sound (75 * second) 0 (25 * second) (15 * second) second (10 * second) 16 true loop_ops).
  - vm_compute. split; congruence.
  - apply (bool_decide_eq_true_1 _). vm_compute. reflexivity.
Defined.

(** The third tick lowers the threshold to 67 s. *)
Example third_tick_adapts :
  (λ p, Threshold (ageAdapter p)) <$> obs_run (new_pool (75 * second) 0 (25 * second) (15 * second) second (10 * second) 16 true) (loop_ops ++ [OTick])
  = Ret (67 * second).
Proof. vm_compute. reflexivity. Qed.

(** A configured age below 30 s is raised: the floor is applied after the cap, so
    confirmed verdicts push the threshold above the configured value. *)
Theorem floor_beats_configured :
  Threshold (observe_all (Some (NewAdapter (20 * second))) (replicate 6 (by_age 18))) = 30 * second.
Proof. vm_compute. reflexivity. Qed.

End ObsDemo.
