(* ===== verification/DnsForward.v ===== *)
(** * The split-DNS forwarder ([client/dnsproxy]: [proxy.go], [arbitrate.go],
      [stub.go], [upstream.go])

    Every A question is put to two resolvers, one local and not trusted
    (Yandex, in the clear), one trusted (Cloudflare, through the tunnel), and
    their answers are weighed against the list of local prefixes and the known
    block pages.  The message operations of the DNS library are a class with the
    laws the code relies on; singleflight hands a waiting request the result of
    some execution under its key.  Cache accesses and the final store of a
    resolution are single steps; requests interleave arbitrarily. *)

From S2P Require Import Prelude.
From S2P Require Import BypassRoute.
From S2P Require Import EgressGuard.
From S2P Require Import DnsCache.
From stdpp Require Import base list gmap strings.

#[local] Open Scope Z_scope.

Class DNSLib := {
  CanonicalName : bytes → bytes;
  SetReply : Msg → Msg → Msg;            (* [m.SetReply(r)] *)
  SetRcode : Msg → Z → Msg;              (* [SetRcode(r, rcode)] of a new message *)
  IsEdns0 : Msg → option Z;              (* the UDP size of the OPT record *)
  SetEdns0 : Msg → Z → Msg;
  Truncate : Msg → Z → Msg;
  reply_sections m r : Answer (SetReply m r) = Answer m ∧ Ns (SetReply m r) = Ns m ∧ Extra (SetReply m r) = Extra m;
  reply_id m r : Id (SetReply m r) = Id r;
  rcode_reply r rc : Id (SetRcode r rc) = Id r ∧ Rcode (SetRcode r rc) = rc ∧ Answer (SetRcode r rc) = [];
  truncate_drops m n :
    Answer (Truncate m n) ⊆ Answer m ∧ Extra (Truncate m n) ⊆ Extra m ∧ Id (Truncate m n) = Id m ∧ Rcode (Truncate m n) = Rcode m;
}.

(** ** Addresses in answers *)

Definition a4 (r : RR) : option Z := match rr_data r with RdA ip => be_value <$> To4 ip | _ => None end.
Definition ips (m : Msg) : list Z := omap a4 (Answer m).
Definition a4Set (m : Msg) : gset Z := list_to_set (ips m).

(** ** Configuration and state *)

Record config := mkConfig {
  cfOnly : bool; bootstrapDomains : list bytes; matches : Addr → bool; envStubIPs : list Addr;
}.

Definition builtinStubIPs : list Addr := [Addr4 (ipv4 89 221 226 6)].
Definition knownStubIPs (cfg : config) : list Addr := builtinStubIPs ++ envStubIPs cfg.

Definition ResolvedSize (r : Resolved) : Z := match include r with Some t => size_ t | None => 0 end.

Definition NewForwarder (snapshot : option Resolved) (bootstrap : list bytes) (env : list Addr) : config :=
  match snapshot with
  | Some r => if 0 <? ResolvedSize r then mkConfig false bootstrap (ResolvedMatch r) env
              else mkConfig true bootstrap (λ _, false) env
  | None => mkConfig true bootstrap (λ _, false) env
  end.

Inductive branch := branchYandex | branchCloudflareCensored | branchCloudflareForeign | branchYandexGeo.

Record Forwarder := mkFwd {
  cache : dnsCache;
  branchYandexTotal : Z; branchCensoredTotal : Z; branchForeignTotal : Z; branchGeoTotal : Z;
  serveNXDOMAINTotal : Z; serveUnarbitratedTotal : Z;
}.
Definition fwd0 : Forwarder := mkFwd newDNSCache 0 0 0 0 0 0.

Definition with_cache (f : Forwarder) (c : dnsCache) : Forwarder :=
  mkFwd c (branchYandexTotal f) (branchCensoredTotal f) (branchForeignTotal f) (branchGeoTotal f)
    (serveNXDOMAINTotal f) (serveUnarbitratedTotal f).
Definition count_nxdomain (f : Forwarder) : Forwarder :=
  mkFwd (cache f) (branchYandexTotal f) (branchCensoredTotal f) (branchForeignTotal f) (branchGeoTotal f)
    (u64 (serveNXDOMAINTotal f + 1)) (serveUnarbitratedTotal f).
Definition count_unarbitrated (f : Forwarder) : Forwarder :=
  mkFwd (cache f) (branchYandexTotal f) (branchCensoredTotal f) (branchForeignTotal f) (branchGeoTotal f)
    (serveNXDOMAINTotal f) (u64 (serveUnarbitratedTotal f + 1)).

Definition recordBranch (f : Forwarder) (br : branch) : Forwarder :=
  let inc b x := if b : bool then u64 (x + 1) else x in
  mkFwd (cache f)
    (inc (match br with branchYandex => true | _ => false end) (branchYandexTotal f))
    (inc (match br with branchCloudflareCensored => true | _ => false end) (branchCensoredTotal f))
    (inc (match br with branchCloudflareForeign => true | _ => false end) (branchForeignTotal f))
    (inc (match br with branchYandexGeo => true | _ => false end) (branchGeoTotal f))
    (serveNXDOMAINTotal f) (serveUnarbitratedTotal f).

(** ** Upstreams *)

Inductive upstream := Yandex | Cloudflare.
#[global] Instance upstream_eq_dec : EqDecision upstream.
Proof. solve_decision. Defined.

(** What an exchange or a resolver call returns: an error, a nil message
    without error, a message. *)
Inductive res := RErr | RNil | RMsg (m : Msg).

Definition failed_rcode (m : Msg) : bool := (Rcode m =? RcodeServerFailure) || (Rcode m =? RcodeRefused).

Definition retryTCP (tcp : bytes → res) (server : bytes) (truncated : Msg) : Msg :=
  match tcp server with
  | RMsg full => if failed_rcode full then truncated else full
  | _ => truncated
  end.

(** [plainUDPResolver.Resolve]; [udp] and [tcp] are the exchanges. *)
Fixpoint plain_resolve (udp tcp : bytes → res) (servers : list bytes) : res :=
  match servers with
  | [] => RErr
  | server :: rest =>
    match udp server with
    | RMsg m =>
      if failed_rcode m then plain_resolve udp tcp rest
      else if Truncated m then RMsg (retryTCP tcp server m)
      else RMsg m
    | _ => plain_resolve udp tcp rest
    end
  end.

Definition maxDoHAttempts : nat := 2.

(** [dohAttemptContext]: the deadline of an attempt, [None] without one. *)
Definition attempt_deadline (now : Z) (deadline : option Z) (attempt attempts : nat) : option Z :=
  match deadline with
  | None => None
  | Some d =>
    let remaining := (Z.of_nat attempts - Z.of_nat attempt) in
    if remaining <=? 1 then Some d else
    let share := Z.quot (d - now) remaining in
    if share <=? 0 then Some d else Some (Z.min d (now + share))
  end.

(** One attempt: what the upstream would answer and how long it takes, cut off at
    the deadline. *)
Definition run_attempt (now : Z) (deadline : option Z) (q : Z * res) : Z * res :=
  match deadline with
  | Some d => if d <? now + fst q then (Z.max now d, RErr) else (now + fst q, snd q)
  | None => (now + fst q, snd q)
  end.

(** [dohResolver.Resolve] from attempt [i] on: when it returns, what, and the
    start of each attempt made. *)
Fixpoint doh_loop (i attempts : nat) (queries : list (Z * res)) (deadline : option Z) (now : Z) : Z * res * list Z :=
  match queries with
  | [] => (now, RErr, [])
  | q :: rest =>
    if match deadline with Some d => d <=? now | None => false end then (now, RErr, []) else
    let '(now', r) := run_attempt now (attempt_deadline now deadline i attempts) q in
    match r with
    | RErr => let '(t, r', l) := doh_loop (S i) attempts rest deadline now' in (t, r', now :: l)
    | _ => (now', r, [now])
    end
  end.
Definition doh_resolve (upstreams : list (Z * res)) (deadline : option Z) (now : Z) : Z * res * list Z :=
  let attempts := Nat.min (length upstreams) maxDoHAttempts in
  doh_loop 0 attempts (take attempts upstreams) deadline now.

Section forwarder.
Context {DL : DNSLib} {MR : MapRange} (cfg : config).

Definition isStubIP (ip : Z) : bool := bool_decide (Addr4 ip ∈ knownStubIPs cfg).
Definition setContainsStub (s : gset Z) : bool := existsb isStubIP (elements s).
Definition containsStubIP (m : Msg) : bool := setContainsStub (a4Set m).

(** ** Arbitration *)

Definition inSnapshot (s : gset Z) : bool := existsb (λ ip, matches cfg (Addr4 ip)) (elements s).

Definition intersectMinusStubs (a b : gset Z) : gset Z := filter (λ ip, isStubIP ip = false) (a ∩ b).

Definition keepsA (keep : gset Z) (r : RR) : bool :=
  match rr_data r with
  | RdA _ => match a4 r with Some ip => bool_decide (ip ∈ keep) | None => false end
  | _ => true
  end.
Definition filterAnswerA (m : Msg) (keep full : gset Z) : Msg :=
  if (size keep =? size full)%nat then m
  else with_sections m (filter (λ r, keepsA keep r = true) (Answer m)) (Ns m) (Extra m).

Definition arbitrate (y c : Msg) : Msg * branch :=
  let ySet := a4Set y in
  let cSet := a4Set c in
  if negb (inSnapshot ySet) then (c, branchCloudflareForeign) else
  let keep := intersectMinusStubs ySet cSet in
  if (0 <? size keep)%nat then (filterAnswerA y keep ySet, branchYandex) else
  if (size cSet =? 0)%nat && negb (setContainsStub ySet) then (y, branchYandexGeo)
  else (c, branchCloudflareCensored).

(** ** Resolution after a cache miss *)

Definition upstreamEDNSBufSize : Z := 1232.
Definition upstreamQuery (r : Msg) : Msg :=
  match IsEdns0 r with Some _ => r | None => SetEdns0 r upstreamEDNSBufSize end.

Definition usableRcode (m : Msg) : bool := (Rcode m =? RcodeSuccess) || (Rcode m =? RcodeNameError).
Definition usable_res (r : res) : option Msg := match r with RMsg m => if usableRcode m then Some m else None | _ => None end.

(** One execution: the moments of its cache accesses, the visiting order of the
    map, and what each upstream answers if asked. *)
Record turn := mkTurn { t_get : Z; t_put : Z; t_seed : Z; t_yandex : res; t_cloudflare : res }.

(** A question put to an upstream, with its answer. *)
Definition ask : Type := upstream * Msg * res.

Definition forwardCloudflare (f : Forwarder) (q : Msg) (key : cacheKey) (t : turn) : list ask * option Msg * Forwarder :=
  let '(hit, c1) := get (cache f) key (t_get t) in
  match hit with
  | Some m => ([], Some m, with_cache f c1)
  | None =>
    let asks := [(Cloudflare, upstreamQuery q, t_cloudflare t)] in
    match usable_res (t_cloudflare t) with
    | Some m => (asks, Some m, with_cache f (put c1 key m (t_put t) (t_seed t)))
    | None => (asks, None, with_cache f c1)
    end
  end.

Definition put_short (f : Forwarder) (key : cacheKey) (m : Msg) (t : turn) : Forwarder :=
  let f1 := count_unarbitrated f in with_cache f1 (putWithLifetime (cache f1) key m unarbitratedCacheTTL (t_put t) (t_seed t)).

Definition isBootstrapDomain (name : bytes) : bool := bool_decide (name ∈ bootstrapDomains cfg).

Definition tryServeBootstrap (f : Forwarder) (key : cacheKey) (m : Msg) (t : turn) : option Forwarder :=
  if negb (isBootstrapDomain (fst key)) then None else
  if negb (Rcode m =? RcodeSuccess) then None else
  if (size (a4Set m) =? 0)%nat || setContainsStub (a4Set m) then None
  else Some (put_short f key m t).

Definition yandexIsRU (m : Msg) : bool := inSnapshot (a4Set m).

Definition resolveUncached (f : Forwarder) (q : Msg) (key : cacheKey) (t : turn) : list ask * option Msg * Forwarder :=
  if cfOnly cfg then
    let '(asks, r, f1) := forwardCloudflare f q key t in
    match r with
    | Some m => (asks, Some m, f1)
    | None =>
      if negb (isBootstrapDomain (fst key)) then (asks, None, f1) else
      let asks' := asks ++ [(Yandex, upstreamQuery q, t_yandex t)] in
      match t_yandex t with
      | RMsg y => match tryServeBootstrap f1 key y t with Some f2 => (asks', Some y, f2) | None => (asks', None, f1) end
      | _ => (asks', None, f1)
      end
    end
  else
    let asks := [(Yandex, upstreamQuery q, t_yandex t); (Cloudflare, upstreamQuery q, t_cloudflare t)] in
    match usable_res (t_yandex t), usable_res (t_cloudflare t) with
    | oy, Some c =>
      if Rcode c =? RcodeNameError then
        match oy with
        | Some y =>
          if (Rcode y =? RcodeSuccess) && yandexIsRU y && negb (containsStubIP y) then (asks, Some y, put_short f key y t)
          else (asks, Some c, let f1 := count_nxdomain f in with_cache f1 (put (cache f1) key c (t_put t) (t_seed t)))
        | None => (asks, Some c, let f1 := count_nxdomain f in with_cache f1 (put (cache f1) key c (t_put t) (t_seed t)))
        end
      else
        match oy with
        | Some y =>
          let '(chosen, br) := arbitrate y c in
          let f1 := recordBranch f br in
          (asks, Some chosen, with_cache f1 (put (cache f1) key chosen (t_put t) (t_seed t)))
        | None => (asks, Some c, with_cache f (put (cache f) key c (t_put t) (t_seed t)))
        end
    | Some y, None =>
      if yandexIsRU y && negb (containsStubIP y) then (asks, Some y, put_short f key y t)
      else match tryServeBootstrap f key y t with Some f1 => (asks, Some y, f1) | None => (asks, None, f) end
    | None, None => (asks, None, f)
    end.

Definition nonAFallbackAllowed (qtype : Z) : bool :=
  bool_decide (qtype ∈ [TypeMX; TypeTXT; TypeSRV; TypePTR; TypeNS; TypeSOA; TypeCNAME]).

Definition tryServeNonAFallback (f : Forwarder) (q : Msg) (key : cacheKey) (t : turn) : list ask * option Msg * Forwarder :=
  if negb (nonAFallbackAllowed (snd key)) then ([], None, f) else
  if cfOnly cfg then ([], None, f) else
  let asks := [(Yandex, upstreamQuery q, t_yandex t)] in
  match t_yandex t with
  | RMsg y =>
    if negb (usableRcode y) || negb (Rcode y =? RcodeSuccess) || bool_decide (Answer y = []) then (asks, None, f)
    else (asks, Some y, put_short f key y t)
  | _ => (asks, None, f)
  end.

(** The function each serving path gives to singleflight. *)
Definition resolve (f : Forwarder) (q : Msg) (key : cacheKey) (t : turn) : list ask * option Msg * Forwarder :=
  if snd key =? TypeA then resolveUncached f q key t
  else
    let '(asks, r, f1) := forwardCloudflare f q key t in
    match r with
    | Some m => (asks, Some m, f1)
    | None => let '(asks', r', f2) := tryServeNonAFallback f1 q key t in (asks ++ asks', r', f2)
    end.

(** ** Serving *)

Definition emptyMsg : Msg := mkMsg 0 false 0 false false [] [] [] [].
Definition with_header (m : Msg) (rcode : Z) (tc ra : bool) : Msg :=
  mkMsg (Id m) (Response m) rcode tc ra (Question m) (Answer m) (Ns m) (Extra m).

Definition dohResolverHost : bytes := bytes_of_string "cloudflare-dns.com.".
Definition dohResolverTTL : Z := 300.
Definition dohResolverIPs : list bytes := [[1; 1; 1; 1]; [1; 0; 0; 1]].

Definition buildDoHResolverPinReply (r : Msg) (qName : bytes) : Msg :=
  let resp := with_header (SetReply emptyMsg r) RcodeSuccess (Truncated (SetReply emptyMsg r)) true in
  with_sections resp ((λ ip, mkRR qName TypeA dohResolverTTL (RdA ip)) <$> dohResolverIPs) (Ns resp) (Extra resp).

Definition MinMsgSize : Z := 512.
Definition clientUDPBufSize (r : Msg) : Z :=
  match IsEdns0 r with Some s => if MinMsgSize <? s then s else MinMsgSize | None => MinMsgSize end.

Definition stripOPTForClient (resp r : Msg) : Msg :=
  match IsEdns0 r with Some _ => resp | None => with_sections resp (Answer resp) (Ns resp) (stripOPT (Extra resp)) end.

(** The last part of [ServeDNS]: what is written for the outcome of the lookup. *)
Definition finish (r : Msg) (o : option Msg) : Msg :=
  match o with
  | None => SetRcode r RcodeServerFailure
  | Some m =>
    let resp := with_header (SetReply m r) (Rcode m) (Truncated (SetReply m r)) true in
    let resp := stripOPTForClient resp r in
    Truncate (with_header resp (Rcode resp) false (RecursionAvailable resp)) (clientUDPBufSize r)
  end.

(** [strings.EqualFold] on ASCII. *)
Definition EqualFold (a b : bytes) : bool := bytes_eqb (ToLower a) (ToLower b).

(** The first part of [ServeDNS]: a reply made up on the spot, or the key to look up. *)
Definition serve_start (r : Msg) : Msg + cacheKey :=
  match Question r with
  | [] => inl (SetRcode r RcodeFormatError)
  | (name, qtype) :: _ =>
    if (qtype =? TypeA) && EqualFold (CanonicalName name) dohResolverHost then inl (buildDoHResolverPinReply r name) else
    if qtype =? TypeAAAA then inl (with_header (SetReply emptyMsg r) RcodeSuccess (Truncated (SetReply emptyMsg r)) true)
    else inr (CanonicalName name, qtype)
  end.

(** [strconv.FormatUint] in base ten, for 16 bits. *)
Definition FormatUint16 (n : Z) : bytes := decimal 5 n.
Definition sfKeyString (key : cacheKey) : bytes := fst key ++ [124] ++ FormatUint16 (snd key).

(** ** Interleaved requests *)

Record world := mkWorld {
  w_fwd : Forwarder;
  w_waiting : gmap nat (Msg * cacheKey);            (* requests that missed the cache *)
  w_flights : list (bytes * option Msg);            (* finished executions, by singleflight key *)
}.
Definition world0 : world := mkWorld fwd0 ∅ [].

Inductive dns_op :=
| DQuery (id : nat) (r : Msg) (now : Z)             (* a request arrives; synthetic reply, hit or miss *)
| DResolve (id : nat) (t : turn)                    (* the leader has a permit and resolves *)
| DNoPermit (id : nat)                              (* the leader's time ran out waiting for one *)
| DReply (id : nat) (flight : nat)                  (* a waiting request takes the result of an execution *)
| DSweep (now : Z).

Inductive dns_event :=
| EReply (id : nat) (r m : Msg)
| EAsked (key : cacheKey) (a : ask).

Definition dns_step (w : world) (o : dns_op) : option (list dns_event * world) :=
  match o with
  | DQuery id r now =>
    match w_waiting w !! id with Some _ => None | None =>
    match serve_start r with
    | inl m => Some ([EReply id r m], w)
    | inr key =>
      let '(hit, c1) := get (cache (w_fwd w)) key now in
      let f1 := with_cache (w_fwd w) c1 in
      match hit with
      | Some m => Some ([EReply id r (finish r (Some m))], mkWorld f1 (w_waiting w) (w_flights w))
      | None => Some ([], mkWorld f1 (<[id := (r, key)]> (w_waiting w)) (w_flights w))
      end
    end end
  | DResolve id t =>
    match w_waiting w !! id with
    | None => None
    | Some (r, key) =>
      let '(asks, out, f1) := resolve (w_fwd w) r key t in
      Some (EAsked key <$> asks, mkWorld f1 (w_waiting w) (w_flights w ++ [(sfKeyString key, out)]))
    end
  | DNoPermit id =>
    match w_waiting w !! id with
    | None => None
    | Some (r, key) => Some ([], mkWorld (w_fwd w) (w_waiting w) (w_flights w ++ [(sfKeyString key, None)]))
    end
  | DReply id i =>
    match w_waiting w !! id, w_flights w !! i with
    | Some (r, key), Some (k, out) =>
      if bool_decide (k = sfKeyString key)
      then Some ([EReply id r (finish r out)], mkWorld (w_fwd w) (delete id (w_waiting w)) (w_flights w))
      else None
    | _, _ => None
    end
  | DSweep now => Some ([], mkWorld (with_cache (w_fwd w) (sweep (cache (w_fwd w)) now)) (w_waiting w) (w_flights w))
  end.

Fixpoint dns_run (w : world) (ops : list dns_op) : option (list dns_event * world) :=
  match ops with
  | [] => Some ([], w)
  | o :: ops' =>
    match dns_step w o with
    | None => None
    | Some (ev, w') => match dns_run w' ops' with Some (evs, w'') => Some (ev ++ evs, w'') | None => None end
    end
  end.

(** ** Where an address comes from *)

(** The upstream answered the key with this message. *)
Definition said (evs : list dns_event) (key : cacheKey) (u : upstream) (m : Msg) : Prop :=
  ∃ q, EAsked key (u, q, RMsg m) ∈ evs.

(** The trusted upstream named the address for this key. *)
Definition from_cf (evs : list dns_event) (key : cacheKey) (ip : Z) : Prop := ∃ c, said evs key Cloudflare c ∧ ip ∈ a4Set c.

(** Or the other one did, in an answer without any known block page, for a name
    with a local address or a bootstrap name. *)
Definition from_yandex (evs : list dns_event) (key : cacheKey) (ip : Z) : Prop :=
  ∃ y, said evs key Yandex y ∧ ip ∈ a4Set y ∧ containsStubIP y = false ∧ (yandexIsRU y = true ∨ isBootstrapDomain (fst key) = true).

Definition ips_good (evs : list dns_event) (key : cacheKey) (l : list Z) : Prop :=
  ∀ ip, ip ∈ l → from_cf evs key ip ∨ from_yandex evs key ip.

(** Compared with the trusted upstream: it named every address, or it answered
    that the name has none. *)
Definition vetted (evs : list dns_event) (key : cacheKey) (l : list Z) : Prop :=
  (∀ ip, ip ∈ l → from_cf evs key ip) ∨ ∃ c, said evs key Cloudflare c ∧ Rcode c = RcodeSuccess ∧ a4Set c = ∅.

Definition entry_good (evs : list dns_event) (key : cacheKey) (e : cacheEntry) : Prop :=
  ips_good evs key (ips (ce_msg e)) ∧ (vetted evs key (ips (ce_msg e)) ∨ expiresAt e - storedAt e = unarbitratedCacheTTL).

Definition cache_good (evs : list dns_event) (c : dnsCache) : Prop :=
  ∀ key e, c !! key = Some e → snd key = TypeA → entry_good evs key e.

Lemma said_mono evs evs' key u m : said evs key u m → said (evs ++ evs') key u m.
Proof. intros [q H]. exists q. apply elem_of_app. by left. Qed.
Lemma from_cf_mono evs evs' key ip : from_cf evs key ip → from_cf (evs ++ evs') key ip.
Proof. intros (c & H & Hi). exists c. split; [by apply said_mono | done]. Qed.
Lemma ips_good_mono evs evs' key l : ips_good evs key l → ips_good (evs ++ evs') key l.
Proof.
  intros H ip Hi. destruct (H ip Hi) as [Hc | (y & Hy & Hr)]; [left; by apply from_cf_mono |].
  right. exists y. split; [by apply said_mono | done].
Qed.
Lemma vetted_mono evs evs' key l : vetted evs key l → vetted (evs ++ evs') key l.
Proof.
  intros [H | (c & Hc & Hr)]; [left; intros; by apply from_cf_mono, H |]. right. exists c. split; [by apply said_mono | done].
Qed.
Lemma cache_good_mono evs evs' c : cache_good evs c → cache_good (evs ++ evs') c.
Proof.
  intros H key e He Ht. destruct (H key e He Ht) as [Hg Hv]. split; [by apply ips_good_mono |].
  destruct Hv; [left; by apply vetted_mono | by right].
Qed.

(** Ageing and the copies of the cache leave the addresses alone. *)
Lemma omap_a4_ext (g : RR → RR) (l : list RR) : (∀ r, rr_data (g r) = rr_data r) → omap a4 (g <$> l) = omap a4 l.
Proof.
  intros Hg. induction l as [| r l IH]; [done |]. rewrite fmap_cons. cbn [omap list_omap].
  assert (a4 (g r) = a4 r) as -> by (unfold a4; by rewrite Hg). by rewrite IH.
Qed.
Lemma ips_stored m l : ips (stored_copy m l) = ips m.
Proof. apply omap_a4_ext. intros r. unfold setTtl. by destruct (_ =? _). Qed.
Lemma ips_aged e now : ips (aged e now) = ips (ce_msg e).
Proof. apply omap_a4_ext. intros r. unfold decTtl. by destruct (_ =? _). Qed.

Lemma elem_of_a4Set ip m : ip ∈ a4Set m ↔ ip ∈ ips m.
Proof. unfold a4Set. by rewrite elem_of_list_to_set. Qed.

Lemma get_good evs c key now o c' :
  cache_good evs c → get c key now = (o, c') →
  cache_good evs c' ∧ (snd key = TypeA → ∀ m, o = Some m → ips_good evs key (ips m)).
Proof.
  intros Hc. unfold get. destruct (c !! key) as [e |] eqn:He; [| intros [= <- <-]; done].
  destruct (expired now e).
  - intros [= <- <-]. split; [| done]. intros k e' [_ H]%lookup_delete_Some. by apply Hc.
  - intros [= <- <-]. split; [done |]. intros Ht m [= <-]. rewrite ips_aged. by apply (Hc key e).
Qed.

Lemma put_good evs c key m l now seed :
  cache_good evs c → (snd key = TypeA → ips_good evs key (ips m) ∧ (vetted evs key (ips m) ∨ l = unarbitratedCacheTTL)) →
  cache_good evs (putWithLifetime c key m l now seed).
Proof.
  intros Hc Hm k e He Ht. destruct (put_lookup c key m l now seed k) as [[E ->] | [_ [E | [E _]]]]; rewrite E in He; [| by apply Hc | done].
  injection He as <-. destruct (Hm Ht) as [Hg Hv]. unfold entry_good. cbn [ce_msg expiresAt storedAt]. rewrite ips_stored.
  split; [done |]. destruct Hv as [Hv | ->]; [by left | right; lia].
Qed.

(** An answer of the trusted upstream itself. *)
Lemma cf_good evs key c : said evs key Cloudflare c → ips_good evs key (ips c) ∧ vetted evs key (ips c).
Proof.
  intros Hc. assert (∀ ip, ip ∈ ips c → from_cf evs key ip) as H.
  { intros ip Hi. exists c. split; [done | by apply elem_of_a4Set]. }
  split; [intros ip Hi; left; by apply H | left; exact H].
Qed.

Lemma yandex_good evs key y :
  said evs key Yandex y → containsStubIP y = false → (yandexIsRU y = true ∨ isBootstrapDomain (fst key) = true) →
  ips_good evs key (ips y).
Proof. intros Hy Hs Hr ip Hi. right. exists y. split_and!; try done. by apply elem_of_a4Set. Qed.

Lemma filtered_keep m keep : ∀ ip, ip ∈ ips (filterAnswerA m keep (a4Set m)) → keep ⊆ a4Set m → ip ∈ keep.
Proof.
  intros ip. unfold filterAnswerA. destruct (Nat.eqb_spec (size keep) (size (a4Set m))) as [He | _]; intros Hi Hk.
  - assert (keep = a4Set m) as ->; [| by apply elem_of_a4Set]. apply set_subseteq_size_eq; [done | lia].
  - unfold ips in Hi. cbn [Answer with_sections] in Hi. apply list_elem_of_omap in Hi as (r & Hr & Ha).
    apply list_elem_of_filter in Hr as [Hr _]. unfold keepsA in Hr. rewrite Ha in Hr. destruct (rr_data r) eqn:Ed.
    + by apply bool_decide_eq_true in Hr.
    + unfold a4 in Ha. by rewrite Ed in Ha.
    + unfold a4 in Ha. by rewrite Ed in Ha.
Qed.

Lemma arbitrate_good evs key y c m br :
  said evs key Yandex y → said evs key Cloudflare c → Rcode c = RcodeSuccess → arbitrate y c = (m, br) →
  ips_good evs key (ips m) ∧ vetted evs key (ips m).
Proof.
  intros Hy Hc Hr. unfold arbitrate. destruct (inSnapshot (a4Set y)) eqn:Es; cbn [negb]; [| intros [= <- <-]; by apply cf_good].
  set (keep := intersectMinusStubs (a4Set y) (a4Set c)).
  destruct (0 <? size keep)%nat.
  - intros [= <- <-].
    assert (∀ ip, ip ∈ ips (filterAnswerA y keep (a4Set y)) → from_cf evs key ip) as H.
    { intros ip Hi. exists c. split; [done |]. apply filtered_keep in Hi; unfold keep, intersectMinusStubs in *; set_solver. }
    split; [intros ip Hi; left; by apply H | left; exact H].
  - destruct (Nat.eqb_spec (size (a4Set c)) 0) as [He | _]; cbn [andb]; [| intros [= <- <-]; by apply cf_good].
    destruct (setContainsStub (a4Set y)) eqn:Ec; cbn [negb]; intros [= <- <-]; [by apply cf_good |].
    split; [apply yandex_good; [done | exact Ec | by left] |]. right. exists c. split_and!; [done | done |].
    apply leibniz_equiv, size_empty_iff. done.
Qed.

Lemma usable_res_msg r m : usable_res r = Some m → r = RMsg m ∧ (Rcode m = RcodeSuccess ∨ Rcode m = RcodeNameError).
Proof.
  unfold usable_res. destruct r as [| | m']; try done. destruct (usableRcode m') eqn:E; [| done]. intros [= ->].
  split; [done |]. apply orb_true_iff in E as [E%Z.eqb_eq | E%Z.eqb_eq]; [by left | by right].
Qed.

Lemma said_here evs key asks u q m : (u, q, RMsg m) ∈ asks → said (evs ++ (EAsked key <$> asks)) key u m.
Proof. intros H. exists q. apply elem_of_app. right. apply list_elem_of_fmap. by eexists. Qed.

(** What an execution leaves behind. *)
Definition outcome_good (evs : list dns_event) (key : cacheKey) (x : list ask * option Msg * Forwarder) : Prop :=
  let '(asks, out, f) := x in
  let evs' := evs ++ (EAsked key <$> asks) in
  cache_good evs' (cache f) ∧ (snd key = TypeA → ∀ m, out = Some m → ips_good evs' key (ips m)).

Lemma none_good evs key asks f : cache_good evs (cache f) → outcome_good evs key (asks, None, f).
Proof. intros H. split; [by apply cache_good_mono | done]. Qed.

(** A message answered by one of the questions and stored, shortly or not. *)
Lemma cf_stored_good evs key asks q c f now seed :
  cache_good evs (cache f) → (Cloudflare, q, RMsg c) ∈ asks →
  outcome_good evs key (asks, Some c, with_cache f (put (cache f) key c now seed)).
Proof.
  intros Hf Hc. destruct (cf_good _ key c (said_here evs key asks Cloudflare q c Hc)) as [Hg Hv].
  split; [| by intros _ m [= <-]]. apply put_good; [by apply cache_good_mono | intros _; by split; [| left]].
Qed.

Lemma short_good evs key asks q y f t :
  cache_good evs (cache f) → (Yandex, q, RMsg y) ∈ asks → (snd key = TypeA → containsStubIP y = false) →
  (snd key = TypeA → yandexIsRU y = true ∨ isBootstrapDomain (fst key) = true) →
  outcome_good evs key (asks, Some y, put_short f key y t).
Proof.
  intros Hf Hy Hs Hr. assert (snd key = TypeA → ips_good (evs ++ (EAsked key <$> asks)) key (ips y)) as Hg.
  { intros Ht. apply yandex_good; [by eapply said_here | by apply Hs | by apply Hr]. }
  split; [| intros Ht m [= <-]; by apply Hg]. apply put_good; [by apply cache_good_mono | intros Ht; split; [by apply Hg | by right]].
Qed.

Lemma forwardCloudflare_good evs f q key t :
  cache_good evs (cache f) → outcome_good evs key (forwardCloudflare f q key t).
Proof.
  intros Hf. unfold forwardCloudflare. destruct (get (cache f) key (t_get t)) as [hit c1] eqn:Eg.
  destruct (get_good _ _ _ _ _ _ Hf Eg) as [Hc Hh]. destruct hit as [m |].
  - split; [by apply cache_good_mono |]. intros Ht m' [= <-]. apply ips_good_mono. by apply Hh.
  - destruct (usable_res (t_cloudflare t)) as [c |] eqn:Eu; [| by apply none_good].
    apply usable_res_msg in Eu as [Eu _]. rewrite Eu.
    apply (cf_stored_good evs key _ (upstreamQuery q) c (with_cache f c1)); [done | set_solver].
Qed.

Lemma forwardCloudflare_miss evs f q key t asks f1 :
  cache_good evs (cache f) → forwardCloudflare f q key t = (asks, None, f1) → cache_good evs (cache f1).
Proof.
  intros Hf. unfold forwardCloudflare. destruct (get (cache f) key (t_get t)) as [hit c1] eqn:Eg.
  destruct (get_good _ _ _ _ _ _ Hf Eg) as [Hc _]. destruct hit; [done |]. destruct (usable_res _); [done |]. by intros [= <- <-].
Qed.

Lemma bootstrap_good evs f key y t f' asks q :
  cache_good evs (cache f) → (Yandex, q, RMsg y) ∈ asks → tryServeBootstrap f key y t = Some f' →
  outcome_good evs key (asks, Some y, f').
Proof.
  intros Hf Hy. unfold tryServeBootstrap. destruct (isBootstrapDomain (fst key)) eqn:Eb; cbn [negb]; [| done].
  destruct (Rcode y =? RcodeSuccess); cbn [negb]; [| done]. destruct (size (a4Set y) =? 0)%nat; cbn [orb]; [done |].
  destruct (setContainsStub (a4Set y)) eqn:Es; [done |]. intros [= <-]. by eapply short_good; eauto.
Qed.

(** One of the two questions of an execution. *)
Ltac asked := first [left | right; left].

Lemma resolveUncached_good evs f q key t :
  cache_good evs (cache f) → outcome_good evs key (resolveUncached f q key t).
Proof.
  intros Hf. unfold resolveUncached. destruct (cfOnly cfg).
  - pose proof (forwardCloudflare_good evs f q key t Hf) as Hg. pose proof (forwardCloudflare_miss evs f q key t) as Hm.
    destruct (forwardCloudflare f q key t) as [[asks r] f1]. destruct r as [m |]; [done |]. specialize (Hm _ _ Hf eq_refl).
    destruct (negb (isBootstrapDomain (fst key))); [done |]. destruct (t_yandex t) as [| | y]; try by apply none_good.
    destruct (tryServeBootstrap f1 key y t) as [f2 |] eqn:Eb; [| by apply none_good].
    eapply bootstrap_good; [exact Hm | | exact Eb]. apply elem_of_app. right. by apply list_elem_of_singleton.
  - destruct (usable_res (t_yandex t)) as [y |] eqn:Ey.
    + apply usable_res_msg in Ey as [Ey _]. rewrite Ey.
      destruct (usable_res (t_cloudflare t)) as [c |] eqn:Ec.
      * apply usable_res_msg in Ec as [Ec Hr]. rewrite Ec. destruct (Rcode c =? RcodeNameError) eqn:En.
        -- destruct (_ && _ && _) eqn:Eb.
           ++ apply andb_true_iff in Eb as [[_ Er]%andb_true_iff Es%negb_true_iff]. eapply short_good; [done | asked | done | by left].
           ++ apply (cf_stored_good evs key _ (upstreamQuery q) c (count_nxdomain f)); [done | asked].
        -- destruct Hr as [Hr | Hr]; [| by rewrite Hr in En]. destruct (arbitrate y c) as [m br] eqn:Ea.
           destruct (arbitrate_good (evs ++ (EAsked key <$> [(Yandex, upstreamQuery q, RMsg y); (Cloudflare, upstreamQuery q, RMsg c)])) key y c m br)
             as [Hg Hv]; [eapply said_here; asked | eapply said_here; asked | done | done |].
           split; [| by intros _ m' [= <-]]. apply put_good; [by apply cache_good_mono | intros _; by split; [| left]].
      * destruct (_ && _) eqn:Eb.
        -- apply andb_true_iff in Eb as [Er Es%negb_true_iff]. eapply short_good; [done | asked | done | by left].
        -- destruct (tryServeBootstrap f key y t) as [f2 |] eqn:Et; [| by apply none_good].
           eapply bootstrap_good; [exact Hf | | exact Et]. asked.
    + destruct (usable_res (t_cloudflare t)) as [c |] eqn:Ec; [| by apply none_good].
      apply usable_res_msg in Ec as [Ec Hr]. rewrite Ec. destruct (Rcode c =? RcodeNameError).
      * apply (cf_stored_good evs key _ (upstreamQuery q) c (count_nxdomain f)); [done | asked].
      * apply (cf_stored_good evs key _ (upstreamQuery q) c f); [done | asked].
Qed.

Lemma resolve_good evs f q key t : cache_good evs (cache f) → outcome_good evs key (resolve f q key t).
Proof.
  intros Hf. unfold resolve. destruct (Z.eqb_spec (snd key) TypeA) as [Ht | Ht]; [by apply resolveUncached_good |].
  pose proof (forwardCloudflare_good evs f q key t Hf) as Hg. pose proof (forwardCloudflare_miss evs f q key t) as Hm.
  destruct (forwardCloudflare f q key t) as [[asks r] f1]. destruct r as [m |]; [done |]. specialize (Hm _ _ Hf eq_refl).
  unfold tryServeNonAFallback.
  destruct (negb (nonAFallbackAllowed (snd key))); [by apply none_good |]. destruct (cfOnly cfg); [by apply none_good |].
  destruct (t_yandex t) as [| | y]; try by apply none_good. destruct (_ || _ || _); [by apply none_good |].
  eapply short_good; [done | | done | done]. apply elem_of_app. right. by apply list_elem_of_singleton.
Qed.

(** ** Singleflight keys *)

Definition key_wf (key : cacheKey) : Prop := 0 ≤ snd key < 2 ^ 16.

Lemma sfKeyString_inj k1 k2 : key_wf k1 → key_wf k2 → sfKeyString k1 = sfKeyString k2 → k1 = k2.
Proof.
  intros H1 H2 He. unfold key_wf in *. assert (∀ n, 0 ≤ n → (124 : Z) ∉ FormatUint16 n) as Hd.
  { intros n Hn Hi. apply decimal_digits in Hi; lia. }
  apply split_last in He as [Hn Ht]; [| apply Hd; lia ..].
  destruct k1 as [n1 t1], k2 as [n2 t2]. cbn [fst snd] in *. f_equal; [done |].
  rewrite <- (decimal_value 5 t1), <- (decimal_value 5 t2) by (change (10 ^ Z.of_nat 5) with 100000; lia). unfold FormatUint16 in Ht. by rewrite Ht.
Qed.

(** ** The invariant of the run *)

Definition op_wf (o : dns_op) : Prop :=
  match o with DQuery _ r _ => Forall (λ q : bytes * Z, 0 ≤ snd q < 2 ^ 16) (Question r) | _ => True end.

(** A key that is looked up. *)
Definition asked_key (key : cacheKey) : Prop :=
  key_wf key ∧ snd key ≠ TypeAAAA ∧ (snd key = TypeA → EqualFold (fst key) dohResolverHost = false).

Lemma serve_start_key r key :
  Forall (λ q : bytes * Z, 0 ≤ snd q < 2 ^ 16) (Question r) → serve_start r = inr key → asked_key key.
Proof.
  intros Hr. unfold serve_start. destruct (Question r) as [| [name qt] qs]; [done |]. apply Forall_cons in Hr as [Hq _].
  destruct (Z.eqb_spec qt TypeA) as [-> | Hn]; cbn [andb].
  - destruct (EqualFold (CanonicalName name) dohResolverHost) eqn:E; [done |]. change (TypeA =? TypeAAAA) with false. cbn iota.
    intros [= <-]. by split_and!.
  - destruct (Z.eqb_spec qt TypeAAAA); [done |]. intros [= <-]. by split_and!.
Qed.

Record winv (evs : list dns_event) (w : world) : Prop := {
  wi_cache : cache_good evs (cache (w_fwd w));
  wi_waiting id r key : w_waiting w !! id = Some (r, key) → asked_key key ∧ serve_start r = inr key;
  wi_flights k out key m : (k, out) ∈ w_flights w → k = sfKeyString key → key_wf key → snd key = TypeA → out = Some m →
                           ips_good evs key (ips m);
}.

(** What was written for an A question that is looked up. *)
Definition reply_good (evs : list dns_event) (ev : dns_event) : Prop :=
  match ev with
  | EReply _ r m => ∀ key, serve_start r = inr key → snd key = TypeA → ips_good evs key (ips m)
  | EAsked key _ => asked_key key
  end.

Lemma finish_ips r o : ips (finish r o) ⊆ match o with Some m => ips m | None => [] end.
Proof.
  destruct o as [m |]; cbn [finish].
  - intros ip Hi. unfold ips in *. apply list_elem_of_omap in Hi as (x & Hx & Ha). apply list_elem_of_omap. exists x. split; [| done].
    apply (proj1 (truncate_drops _ _)) in Hx. cbn [with_header Answer] in Hx. unfold stripOPTForClient in Hx.
    rewrite <- (proj1 (reply_sections m r)). destruct (IsEdns0 r); exact Hx.
  - unfold ips. destruct (rcode_reply r RcodeServerFailure) as (_ & _ & ->). done.
Qed.

Lemma finish_good evs key r o : (∀ m, o = Some m → ips_good evs key (ips m)) → ips_good evs key (ips (finish r o)).
Proof. intros H ip Hi. apply finish_ips in Hi. destruct o as [m |]; [by apply (H m) | by apply elem_of_nil in Hi]. Qed.

Lemma reply_good_mono evs evs' ev : reply_good evs ev → reply_good (evs ++ evs') ev.
Proof. destruct ev; [| done]. intros H key Hk Ht. by apply ips_good_mono, H. Qed.

Lemma winv_mono evs evs' w : winv evs w → winv (evs ++ evs') w.
Proof.
  intros [Hc Hw Hf]. split; [by apply cache_good_mono | done |]. intros. by eapply ips_good_mono, Hf.
Qed.

(** A finished execution joins the list. *)
Lemma flights_snoc evs w key out f1 :
  winv evs w → cache_good evs (cache f1) → asked_key key →
  (snd key = TypeA → ∀ m, out = Some m → ips_good evs key (ips m)) →
  winv evs (mkWorld f1 (w_waiting w) (w_flights w ++ [(sfKeyString key, out)])).
Proof.
  intros [Hc Hw Hf] Hc' Ha Ho. split; [done | done |]. cbn [w_flights]. intros k o key' m [Hi | Hi]%elem_of_app Hk Hwf Ht Hm.
  - by eapply Hf.
  - apply list_elem_of_singleton in Hi as [= -> ->]. apply sfKeyString_inj in Hk as ->; [by apply Ho | apply Ha | done].
Qed.

Lemma dns_step_inv evs w o ev w' :
  winv evs w → op_wf o → dns_step w o = Some (ev, w') → winv (evs ++ ev) w' ∧ Forall (reply_good (evs ++ ev)) ev.
Proof.
  intros Hi Hwf. destruct o as [id r now | id t | id | id i | now]; cbn [dns_step op_wf] in *.
  - destruct (w_waiting w !! id) eqn:Ew; [done |]. destruct (serve_start r) as [m | key] eqn:Es.
    { intros [= <- <-]. split; [by apply winv_mono |]. constructor; [| done]. intros key Hk. by rewrite Es in Hk. }
    destruct (get (cache (w_fwd w)) key now) as [hit c1] eqn:Eg. destruct Hi as [Hc Hw Hf].
    destruct (get_good _ _ _ _ _ _ Hc Eg) as [Hc1 Hh]. destruct hit as [m |]; intros [= <- <-].
    + split; [apply winv_mono; split; done |]. constructor; [| done]. intros key' Hk Ht. rewrite Es in Hk. injection Hk as <-.
      apply ips_good_mono, (finish_good evs key r (Some m)). by apply Hh.
    + rewrite app_nil_r. split; [| done]. split; [done | | done]. intros id' r' key'. cbn [w_waiting].
      destruct (decide (id' = id)) as [-> | Hne]; [| rewrite lookup_insert_ne by done; apply Hw].
      rewrite lookup_insert_eq. intros [= <- <-]. split; [by eapply serve_start_key | done].
  - destruct (w_waiting w !! id) as [[r key] |] eqn:Ew; [| done]. destruct (wi_waiting _ _ Hi _ _ _ Ew) as [Ha _].
    pose proof (resolve_good evs (w_fwd w) r key t (wi_cache _ _ Hi)) as Hg.
    destruct (resolve (w_fwd w) r key t) as [[asks out] f1]. intros [= <- <-]. destruct Hg as [Hc Ho]. split.
    + apply flights_snoc; [by apply winv_mono | done ..].
    + apply Forall_fmap, Forall_true. done.
  - destruct (w_waiting w !! id) as [[r key] |] eqn:Ew; [| done]. destruct (wi_waiting _ _ Hi _ _ _ Ew) as [Ha _].
    intros [= <- <-]. rewrite app_nil_r. split; [| done]. apply flights_snoc; [done | apply Hi | done | done].
  - destruct (w_waiting w !! id) as [[r key] |] eqn:Ew; [| done]. destruct (w_flights w !! i) as [[k out] |] eqn:Ef; [| done].
    case_bool_decide as Hk; [| done]. intros [= <- <-]. destruct (wi_waiting _ _ Hi _ _ _ Ew) as [Ha Hs]. split.
    + apply winv_mono. destruct Hi as [Hc Hw Hf]. split; [done | | done]. cbn [w_waiting]. intros id' r' key' [_ H]%lookup_delete_Some.
      by eapply Hw.
    + constructor; [| done]. intros key' Hk' Ht. rewrite Hs in Hk'. injection Hk' as <-. apply ips_good_mono, (finish_good evs key r out). intros m ->.
      eapply (wi_flights _ _ Hi); [by eapply list_elem_of_lookup_2 | done | apply Ha | done | done].
  - intros [= <- <-]. rewrite app_nil_r. split; [| done]. destruct Hi as [Hc Hw Hf]. split; [| done | done]. cbn [w_fwd cache with_cache].
    intros key e [H _]%map_lookup_filter_Some. by apply Hc.
Qed.

Lemma dns_run_inv ops evs0 w evs w' :
  winv evs0 w → Forall op_wf ops → dns_run w ops = Some (evs, w') → winv (evs0 ++ evs) w' ∧ Forall (reply_good (evs0 ++ evs)) evs.
Proof.
  revert evs0 w evs. induction ops as [| o ops IH]; intros evs0 w evs Hi Hwf; cbn [dns_run].
  { intros [= <- <-]. rewrite app_nil_r. by split. }
  apply Forall_cons in Hwf as [Ho Hwf]. destruct (dns_step w o) as [[ev w1] |] eqn:Es; [| done].
  destruct (dns_run w1 ops) as [[evs1 w2] |] eqn:Er; [| done]. intros [= <- <-].
  destruct (dns_step_inv _ _ _ _ _ Hi Ho Es) as [Hi1 Hg1]. destruct (IH _ _ _ Hi1 Hwf Er) as [Hi2 Hg2].
  rewrite app_assoc. split; [done |]. apply Forall_app. split; [| done].
  eapply Forall_impl; [exact Hg1 |]. intros x. apply reply_good_mono.
Qed.

Lemma winv0 : winv [] world0.
Proof. split; [by intros ? ? ? | by intros ? ? ? | by intros ? ? ? ? ?%elem_of_nil]. Qed.

Lemma stub_free y ip : containsStubIP y = false → ip ∈ a4Set y → isStubIP ip = false.
Proof.
  unfold containsStubIP, setContainsStub. intros H Hi. destruct (isStubIP ip) eqn:E; [| done].
  rewrite <- H. symmetry. apply existsb_exists. exists ip. split; [by apply list_elem_of_In, elem_of_elements | done].
Qed.

(** C13: no answer to an A question can be made up by the untrusted resolver
    alone.  In every interleaving of requests, resolutions, joined flights and
    sweeps, with arbitrary upstream answers, fresh or from the cache: every
    address written to a client for a name was named for that very name by the
    trusted upstream, or it is not a known block page and the untrusted one named
    it, in an answer free of block pages, for a name it places in a local prefix
    or for a bootstrap name; and a cached answer that the trusted upstream has
    not confirmed, or replied to with an empty one, lives for 30 seconds only. *)
Theorem dns_answers_vetted ops evs w :
  Forall op_wf ops → dns_run world0 ops = Some (evs, w) →
  (∀ id r m key ip, EReply id r m ∈ evs → serve_start r = inr key → snd key = TypeA → ip ∈ a4Set m →
     from_cf evs key ip ∨ (isStubIP ip = false ∧ from_yandex evs key ip)) ∧
  (∀ key e, cache (w_fwd w) !! key = Some e → snd key = TypeA →
     vetted evs key (ips (ce_msg e)) ∨ expiresAt e - storedAt e = unarbitratedCacheTTL).
Proof.
  intros Hwf Hr. destruct (dns_run_inv ops [] world0 evs w winv0 Hwf Hr) as [Hi Hg]. cbn [app] in *. split.
  - intros id r m key ip He Hs Ht Hip. rewrite Forall_forall in Hg. specialize (Hg _ He key Hs Ht ip).
    destruct Hg as [Hc | (y & Hy & Hiy & Hst & Hru)]; [by apply elem_of_a4Set | by left | right].
    split; [by eapply stub_free | by exists y].
  - intros key e He Ht. by apply (wi_cache _ _ Hi key e He Ht).
Qed.

(** ** Who is asked *)

Lemma forwardCloudflare_asks f q key t u x a :
  (u, x, a) ∈ fst (fst (forwardCloudflare f q key t)) → u = Cloudflare ∧ a = t_cloudflare t.
Proof.
  unfold forwardCloudflare. destruct (get _ _ _) as [[m |] c1]; cbn [fst]; [by intros ?%elem_of_nil |].
  destruct (usable_res _); cbn [fst]; by intros [= -> _ ->]%list_elem_of_singleton.
Qed.

Lemma forwardCloudflare_failed f q key t asks f1 :
  forwardCloudflare f q key t = (asks, None, f1) →
  (Cloudflare, upstreamQuery q, t_cloudflare t) ∈ asks ∧ usable_res (t_cloudflare t) = None.
Proof.
  unfold forwardCloudflare. destruct (get _ _ _) as [[m |] c1]; [done |].
  destruct (usable_res _) eqn:E; [done |]. intros [= <- <-]. split; [left | done].
Qed.

(** The untrusted resolver is asked only when its answer can be used, and
    without a list of local prefixes only when the trusted one failed. *)
Definition asks_ok (key : cacheKey) (asks : list ask) : Prop :=
  ∀ q a, (Yandex, q, a) ∈ asks →
    if cfOnly cfg
    then snd key = TypeA ∧ isBootstrapDomain (fst key) = true ∧ ∃ q' a', (Cloudflare, q', a') ∈ asks ∧ usable_res a' = None
    else snd key = TypeA ∨ nonAFallbackAllowed (snd key) = true.

Lemma resolve_asks f q key t : asks_ok key (fst (fst (resolve f q key t))).
Proof.
  intros q' a. unfold resolve. destruct (Z.eqb_spec (snd key) TypeA) as [Ht | Ht].
  - unfold resolveUncached. destruct (cfOnly cfg) eqn:Ecf; [| by left].
    pose proof (forwardCloudflare_asks f q key t) as Hasks. pose proof (forwardCloudflare_failed f q key t) as Hfail.
    destruct (forwardCloudflare f q key t) as [[asks r] f1]. cbn [fst] in Hasks.
    destruct r as [m |]; [by intros [? _]%Hasks |]. destruct (Hfail _ _ eq_refl) as [Hin Hun].
    destruct (isBootstrapDomain (fst key)) eqn:Eb; cbn [negb]; [| by intros [? _]%Hasks].
    intros _. split_and!; [done | done |]. exists (upstreamQuery q), (t_cloudflare t). split; [| done].
    repeat case_match; cbn [fst]; apply elem_of_app; by left.
  - pose proof (forwardCloudflare_asks f q key t) as Hasks.
    destruct (forwardCloudflare f q key t) as [[asks r] f1]. cbn [fst] in Hasks.
    destruct r as [m |]; [by intros [? _]%Hasks |]. unfold tryServeNonAFallback.
    destruct (nonAFallbackAllowed (snd key)) eqn:En; cbn [negb fst]; [| rewrite app_nil_r; by intros [? _]%Hasks].
    destruct (cfOnly cfg); cbn [fst]; [rewrite app_nil_r; by intros [? _]%Hasks |]. by right.
Qed.

Lemma dns_step_asks w o ev w' key u q a :
  dns_step w o = Some (ev, w') → EAsked key (u, q, a) ∈ ev →
  ∃ asks, (u, q, a) ∈ asks ∧ asks_ok key asks ∧ ∀ x, x ∈ asks → EAsked key x ∈ ev.
Proof.
  intros Hs He. destruct o; cbn [dns_step] in Hs.
  2: { destruct (w_waiting w !! id) as [[r k] |]; [| done]. pose proof (resolve_asks (w_fwd w) r k t) as Hok.
       destruct (resolve (w_fwd w) r k t) as [[asks out] f1]. injection Hs as <- <-.
       apply list_elem_of_fmap in He as (x & [= <- <-] & Hx). exists asks. split_and!; [done | done |].
       intros x ?. apply list_elem_of_fmap. by eexists. }
  all: repeat case_match; simplify_eq; set_solver.
Qed.

Lemma dns_run_asks ops w evs w' key u q a :
  dns_run w ops = Some (evs, w') → EAsked key (u, q, a) ∈ evs →
  ∃ asks, (u, q, a) ∈ asks ∧ asks_ok key asks ∧ ∀ x, x ∈ asks → EAsked key x ∈ evs.
Proof.
  revert w evs. induction ops as [| o ops IH]; intros w evs; cbn [dns_run].
  { intros [= <- <-]. by intros ?%elem_of_nil. }
  destruct (dns_step w o) as [[ev w1] |] eqn:Es; [| done]. destruct (dns_run w1 ops) as [[evs1 w2] |] eqn:Er; [| done].
  intros [= <- <-] [H | H]%elem_of_app.
  - destruct (dns_step_asks _ _ _ _ _ _ _ _ Es H) as (asks & H1 & H2 & H3). exists asks. split_and!; [done | done |].
    intros x Hx. apply elem_of_app. left. by apply H3.
  - destruct (IH _ _ Er H) as (asks & H1 & H2 & H3). exists asks. split_and!; [done | done |].
    intros x Hx. apply elem_of_app. right. by apply H3.
Qed.


End forwarder.

(** ** Upstream failover *)

(** The local resolver gives the answer of the first server that did not fail,
    never one with a failure code. *)
Theorem plain_resolve_first udp tcp servers :
  match plain_resolve udp tcp servers with
  | RMsg m => failed_rcode m = false ∧ ∃ s, s ∈ servers ∧ (udp s = RMsg m ∨ tcp s = RMsg m)
  | _ => ∀ s m, s ∈ servers → udp s = RMsg m → failed_rcode m = true
  end.
Proof.
  induction servers as [| s l IH]; cbn [plain_resolve]; [by intros ? ? ?%elem_of_nil |].
  assert ((∀ m, udp s = RMsg m → failed_rcode m = true) →
          match plain_resolve udp tcp l with
          | RMsg m => failed_rcode m = false ∧ ∃ s', s' ∈ s :: l ∧ (udp s' = RMsg m ∨ tcp s' = RMsg m)
          | _ => ∀ s' m, s' ∈ s :: l → udp s' = RMsg m → failed_rcode m = true
          end) as Hrest.
  { intros Hs. destruct (plain_resolve udp tcp l) as [| | m]; [| | destruct IH as (? & s' & ? & ?); split; [done |]; exists s'; split; [by right | done]].
    all: intros s' m' [-> | Hin]%elem_of_cons; [apply Hs | by apply IH]. }
  destruct (udp s) as [| | m] eqn:Eu; [by apply Hrest | by apply Hrest |].
  destruct (failed_rcode m) eqn:Ef; [apply Hrest; by intros ? [= <-] |].
  destruct (Truncated m); [| split; [done |]; exists s; split; [left | by left]].
  unfold retryTCP. destruct (tcp s) as [| | m'] eqn:Et; [..| destruct (failed_rcode m') eqn:Ef']; split; try done; exists s;
    (split; [left | by (left + right)]).
Qed.

(** A silent first DNS-over-HTTPS upstream cannot starve the second.  Within
    the caller's budget, whatever the first does, however long it takes: the call
    returns by the deadline; an answer of the first within half the budget is
    the result; and if it fails or stays silent, an answer the second gives
    within half the budget is the result. *)
Theorem doh_backup_gets_turn q1 q2 rest now d :
  now + 2 ≤ d → 0 ≤ fst q1 → 0 ≤ fst q2 →
  let half := (d - now) / 2 in
  let '(t, r, _) := doh_resolve (q1 :: q2 :: rest) (Some d) now in
  t ≤ d ∧
  (∀ m, snd q1 = RMsg m → fst q1 ≤ half → r = RMsg m) ∧
  (∀ m, snd q1 = RErr ∨ half < fst q1 → snd q2 = RMsg m → fst q2 ≤ half → r = RMsg m).
Proof.
  intros Hd H1 H2 half. pose proof (Z.div_mod (d - now) 2 ltac:(lia)) as He. pose proof (Z.mod_pos_bound (d - now) 2 ltac:(lia)) as Hm.
  fold half in He. unfold doh_resolve. cbn [length]. 
  replace (Nat.min (S (S (length rest))) maxDoHAttempts) with 2%nat by (unfold maxDoHAttempts; lia).
  cbn [take doh_loop]. unfold attempt_deadline. change (Z.of_nat 2 - Z.of_nat 0 <=? 1) with false. change (Z.of_nat 2 - Z.of_nat 1 <=? 1) with true.
  change (Z.of_nat 2 - Z.of_nat 0) with 2. cbn iota. rewrite Z.quot_div_nonneg by lia. fold half.
  destruct (Z.leb_spec d now); [lia |]. destruct (Z.leb_spec half 0); [lia |]. rewrite Z.min_r by lia. unfold run_attempt.
  destruct q1 as [t1 r1], q2 as [t2 r2]. cbn [fst snd] in *.
  destruct (Z.ltb_spec (now + half) (now + t1)) as [Hlate | Hin]; cbn iota.
  - rewrite Z.max_r by lia. destruct (Z.leb_spec d (now + half)); [lia |].
    destruct (Z.ltb_spec d (now + half + t2)).
    + split_and!; [lia | intros; lia | intros; lia].
    + destruct r2 as [| | m2]; (split_and!; [lia | intros; lia | by intros m _ [=] ?]) || (split_and!; [lia | intros; lia | by intros m _ [= ->] ?]).
  - destruct r1 as [| | m1].
    + destruct (Z.leb_spec d (now + t1)); [lia |]. destruct (Z.ltb_spec d (now + t1 + t2)).
      * split_and!; [lia | done | intros; lia].
      * destruct r2 as [| | m2]; (split_and!; [lia | done | by intros m _ [=] ?]) || (split_and!; [lia | done | by intros m _ [= ->] ?]).
    + split_and!; [lia | done | intros m [? | ?]; [done | lia]].
    + split_and!; [lia | by intros m [= ->] | intros m [? | ?]; [done | lia]].
Qed.

(** ** Examples *)

(** A library that answers with the request's id and question, knows no EDNS and
    never has to cut an answer. *)
#[export] Instance demo_lib : DNSLib.
Proof.
  refine {|
    CanonicalName name := ToLower name;
    SetReply m r := mkMsg (Id r) true RcodeSuccess (Truncated m) (RecursionAvailable m) (take 1 (Question r)) (Answer m) (Ns m) (Extra m);
    SetRcode r rc := mkMsg (Id r) true rc false false (take 1 (Question r)) [] [] [];
    IsEdns0 _ := None; SetEdns0 m _ := m; Truncate m _ := m |}; done.
Defined.

Definition demo_cfg (cf : bool) : config :=
  mkConfig cf [bytes_of_string "vpn.example."] (λ a, match a with Addr4 x => Z.shiftr x 24 =? 89 | _ => false end) [].
Definition a_rr (ip : bytes) : RR := mkRR (bytes_of_string "x.example.") TypeA 3600 (RdA ip).
Definition a_msg (l : list bytes) : Msg := mkMsg 1 true RcodeSuccess false true [] (a_rr <$> l) [] [].
Definition question (name : bytes) (t : Z) : Msg := mkMsg 9 false 0 false false [(name, t)] [] [] [].

Definition stub_ip : bytes := [89; 221; 226; 6].
Definition honest_ip : bytes := [89; 1; 2; 3].
Definition demo_name : bytes := bytes_of_string "x.example.".

(** The untrusted resolver adds a block page to the honest address. *)
Definition demo_dns_ops : list dns_op :=
  [DQuery 0 (question demo_name TypeA) 0; DQuery 1 (question demo_name TypeA) 0;
   DResolve 0 (mkTurn 0 1 0 (RMsg (a_msg [stub_ip; honest_ip])) (RMsg (a_msg [honest_ip])));
   DReply 0 0; DReply 1 0; DQuery 2 (question demo_name TypeA) (5 * second)].

Definition demo_dns : list dns_event * world := default ([], world0) (dns_run (demo_cfg false) world0 demo_dns_ops).

Lemma demo_dns_wf : Forall op_wf demo_dns_ops.
Proof. repeat constructor; by vm_compute. Qed.

Lemma dns_answers_vetted_witness :
  Forall op_wf demo_dns_ops ∧ dns_run (demo_cfg false) world0 demo_dns_ops = Some demo_dns ∧
  (∀ id r m key ip, EReply id r m ∈ fst demo_dns → serve_start r = inr key → snd key = TypeA → ip ∈ a4Set m →
     from_cf (fst demo_dns) key ip ∨ (isStubIP (demo_cfg false) ip = false ∧ from_yandex (demo_cfg false) (fst demo_dns) key ip)) ∧
  (∃ m, EReply 2 (question demo_name TypeA) m ∈ fst demo_dns ∧ ips m = [be_value honest_ip]).
Proof.
  assert (dns_run (demo_cfg false) world0 demo_dns_ops = Some demo_dns) as Hr by (by vm_compute).
  split_and!; [exact demo_dns_wf | exact Hr | |].
  - destruct demo_dns as [evs w]. exact (proj1 (dns_answers_vetted (demo_cfg false) demo_dns_ops evs w demo_dns_wf Hr)).
  - exists (match last (fst demo_dns) with Some (EReply _ _ m) => m | _ => emptyMsg end).
    split; [| by vm_compute]. eapply list_elem_of_lookup_2 with (i := 4%nat). by vm_compute.
Defined.

Definition demo_boot_ops : list dns_op :=
  [DQuery 0 (question (bytes_of_string "vpn.example.") TypeA) 0; DResolve 0 (mkTurn 0 1 0 (RMsg (a_msg [honest_ip])) RErr); DReply 0 0].
Definition demo_boot : list dns_event * world := default ([], world0) (dns_run (demo_cfg true) world0 demo_boot_ops).


Lemma doh_backup_gets_turn_witness :
  snd (fst (doh_resolve [(100 * second, RErr); (second, RMsg emptyMsg)] (Some (3 * second)) 0)) = RMsg emptyMsg.
Proof.
  pose proof (doh_backup_gets_turn (100 * second, RErr) (second, RMsg emptyMsg) [] 0 (3 * second)
                ltac:(by vm_compute) ltac:(by vm_compute) ltac:(by vm_compute)) as H.
  destruct (doh_resolve _ _ _) as [[t r] l]. destruct H as (_ & _ & H). apply (H emptyMsg); [by left | done | by vm_compute].
Defined.

(** An answer accepted without the trusted upstream is cached for 30 seconds,
    but the first client gets it with the TTL the untrusted resolver chose. *)
Theorem unarbitrated_ttl_leaks :
  let r := question demo_name TypeA in
  ∃ m w, dns_run (demo_cfg false) world0 [DQuery 0 r 0; DResolve 0 (mkTurn 0 1 0 (RMsg (a_msg [honest_ip])) RErr); DReply 0 0]
         = Some ([EAsked (demo_name, TypeA) (Yandex, upstreamQuery r, RMsg (a_msg [honest_ip])); EAsked (demo_name, TypeA) (Cloudflare, upstreamQuery r, RErr);
                  EReply 0 r m], w)
         ∧ Ttl <$> Answer m = [3600]
         ∧ option_map (λ e, expiresAt e - storedAt e) (cache (w_fwd w) !! (demo_name, TypeA)) = Some (30 * second).
Proof. do 2 eexists. split; [by vm_compute |]. split; by vm_compute. Qed.
