(* ===== verification/ClientAuth.v ===== *)
(** * Authorized clients and the device quota ([server/ratelimit.go])

    [ClientAuth]: the whitelist, the per-user device limits and the record of
    which session belongs to which device.  Every method holds the mutex for
    its whole body, so a run is a sequence of method calls.  A Go map whose
    values are only ever [true] is a set; a nil slice and a missing key are both
    the empty list. *)

From S2P Require Import Prelude.
From S2P Require Import EgressGuard.
From stdpp Require Import base list gmap strings.

#[local] Open Scope Z_scope.

Record ClientAuth := mkAuth {
  authorized : gset bytes;
  openMode : bool;
  userLimits : gmap bytes Z;
  activeSessions : gmap bytes (list Z);   (* user id to session ids *)
  clientSession : gmap bytes Z;           (* client id to its session id *)
  defaultMax : Z;
}.

Definition with_sessions (ca : ClientAuth) (a : gmap bytes (list Z)) (c : gmap bytes Z) : ClientAuth :=
  mkAuth (authorized ca) (openMode ca) (userLimits ca) a c (defaultMax ca).

Definition NewClientAuth (clientIDs : list bytes) : ClientAuth :=
  if len clientIDs =? 0 then mkAuth ∅ true ∅ ∅ ∅ 3
  else mkAuth (list_to_set clientIDs) false ∅ ∅ ∅ 3.

Definition IsAuthorized (ca : ClientAuth) (clientID : bytes) : bool :=
  if openMode ca then true else bool_decide (clientID ∈ authorized ca).

Definition IsOpenMode (ca : ClientAuth) : bool := openMode ca.

Definition AddClient (ca : ClientAuth) (clientID : bytes) : ClientAuth :=
  mkAuth ({[clientID]} ∪ authorized ca) false (userLimits ca) (activeSessions ca) (clientSession ca) (defaultMax ca).

Definition RemoveClient (ca : ClientAuth) (clientID : bytes) : ClientAuth :=
  mkAuth (authorized ca ∖ {[clientID]}) (openMode ca) (userLimits ca) (activeSessions ca) (clientSession ca)
    (defaultMax ca).

Definition parseUserID (clientID : bytes) : bytes :=
  match IndexByte clientID colon with
  | Some i => take i clientID
  | None => clientID
  end.

Definition SetUserLimit (ca : ClientAuth) (userID : bytes) (max : Z) : ClientAuth :=
  mkAuth (authorized ca) (openMode ca) (<[userID := max]> (userLimits ca)) (activeSessions ca) (clientSession ca)
    (defaultMax ca).

Definition sessions_of (m : gmap bytes (list Z)) (userID : bytes) : list Z := default [] (m !! userID).

(** The loop of [removeSessionLocked]. *)
Fixpoint remove_first (sid : Z) (l : list Z) : list Z :=
  match l with
  | [] => []
  | x :: l' => if x =? sid then l' else x :: remove_first sid l'
  end.

Definition removeSessionLocked (m : gmap bytes (list Z)) (userID : bytes) (sessionID : Z) : gmap bytes (list Z) :=
  match remove_first sessionID (sessions_of m userID) with
  | [] => delete userID m
  | l => <[userID := l]> m
  end.

Definition limit_of (ca : ClientAuth) (userID : bytes) : Z := default (defaultMax ca) (userLimits ca !! userID).

(** [append(activeSessions[userID], sessionID)] and [clientSession[clientID] = sessionID] *)
Definition record_session (ca : ClientAuth) (m : gmap bytes (list Z)) (clientID : bytes) (sessionID : Z) : ClientAuth :=
  let userID := parseUserID clientID in
  with_sessions ca (<[userID := sessions_of m userID ++ [sessionID]]> m) (<[clientID := sessionID]> (clientSession ca)).

Definition AdmitSession (ca : ClientAuth) (clientID : bytes) (sessionID : Z) : bool * ClientAuth :=
  if openMode ca then (true, ca) else
  let userID := parseUserID clientID in
  match clientSession ca !! clientID with
  | Some prev => (true, record_session ca (removeSessionLocked (activeSessions ca) userID prev) clientID sessionID)
  | None =>
    if limit_of ca userID <=? len (sessions_of (activeSessions ca) userID) then (false, ca)
    else (true, record_session ca (activeSessions ca) clientID sessionID)
  end.

Definition CheckDeviceLimit (ca : ClientAuth) (clientID : bytes) : bool :=
  if openMode ca then true else
  match clientSession ca !! clientID with
  | Some _ => true
  | None => let userID := parseUserID clientID in len (sessions_of (activeSessions ca) userID) <? limit_of ca userID
  end.

Definition OnSessionCreated (ca : ClientAuth) (clientID : bytes) (sessionID : Z) : ClientAuth :=
  let m := match clientSession ca !! clientID with
           | Some prev => removeSessionLocked (activeSessions ca) (parseUserID clientID) prev
           | None => activeSessions ca
           end in
  record_session ca m clientID sessionID.

Definition OnSessionDestroyed (ca : ClientAuth) (clientID : bytes) (sessionID : Z) : ClientAuth :=
  let m := removeSessionLocked (activeSessions ca) (parseUserID clientID) sessionID in
  (* a missing key reads as 0 *)
  let cs := if default 0 (clientSession ca !! clientID) =? sessionID
            then delete clientID (clientSession ca) else clientSession ca in
  with_sessions ca m cs.

Definition SyncClients (ca : ClientAuth) (clients : list bytes) (limits : gmap bytes Z) : ClientAuth :=
  let newUsers : gset bytes := list_to_set (parseUserID <$> clients) in
  let removed (userID : bytes) : Prop := is_Some (activeSessions ca !! userID) ∧ userID ∉ newUsers in
  mkAuth (list_to_set clients) false limits
    (filter (λ x : bytes * list Z, x.1 ∈ newUsers) (activeSessions ca))
    (filter (λ x : bytes * Z, ¬ removed (parseUserID x.1)) (clientSession ca))
    (defaultMax ca).

Definition GetAndDestroyClientSession (ca : ClientAuth) (clientID : bytes) : option Z * ClientAuth :=
  let ca1 := RemoveClient ca clientID in
  match clientSession ca !! clientID with
  | None => (None, ca1)
  | Some sessionID =>
    (Some sessionID, with_sessions ca1 (removeSessionLocked (activeSessions ca) (parseUserID clientID) sessionID)
                       (delete clientID (clientSession ca)))
  end.

Definition ActiveSessionCount (ca : ClientAuth) (userID : bytes) : Z := len (sessions_of (activeSessions ca) userID).

(** ** Runs: the calls the server makes *)

Inductive auth_op :=
| AAdmit (clientID : bytes) (sessionID : Z)       (* a handshake *)
| ADestroyed (clientID : bytes) (sessionID : Z)   (* FIN or a sweep *)
| AAdd (clientID : bytes)                         (* POST /manage/clients *)
| ARevoke (clientID : bytes)                      (* DELETE /manage/clients/ *)
| ALimit (userID : bytes) (max : Z)               (* POST /manage/set-limit *)
| ASync (clients : list bytes) (limits : gmap bytes Z). (* POST /manage/sync *)

Definition auth_step (ca : ClientAuth) (o : auth_op) : ClientAuth :=
  match o with
  | AAdmit c s => snd (AdmitSession ca c s)
  | ADestroyed c s => OnSessionDestroyed ca c s
  | AAdd c => AddClient ca c
  | ARevoke c => snd (GetAndDestroyClientSession ca c)
  | ALimit u m => SetUserLimit ca u m
  | ASync cs ls => SyncClients ca cs ls
  end.

Definition auth_run (ca : ClientAuth) (ops : list auth_op) : ClientAuth := foldl auth_step ca ops.

(** ** The accounting *)

(** The sessions of the devices of a user. *)
Definition devices (cs : gmap bytes Z) (userID : bytes) : list Z :=
  (map_to_list (filter (λ x : bytes * Z, parseUserID x.1 = userID) cs)).*2.

Lemma devices_insert cs c s u :
  cs !! c = None → devices (<[c := s]> cs) u ≡ₚ (if decide (parseUserID c = u) then [s] else []) ++ devices cs u.
Proof.
  intros Hc. unfold devices. case_decide as Hu.
  - rewrite map_filter_insert_True by done. rewrite map_to_list_insert; [done |].
    by rewrite map_lookup_filter, Hc.
  - by rewrite map_filter_insert_not by done.
Qed.

Lemma devices_delete cs c s u :
  cs !! c = Some s → devices cs u ≡ₚ (if decide (parseUserID c = u) then [s] else []) ++ devices (delete c cs) u.
Proof.
  intros Hc. rewrite <- (insert_delete_id cs c s Hc) at 1. apply devices_insert. by rewrite lookup_delete_eq.
Qed.

Lemma devices_elem cs u s : s ∈ devices cs u ↔ ∃ c, cs !! c = Some s ∧ parseUserID c = u.
Proof.
  unfold devices. rewrite list_elem_of_fmap. split.
  - intros ([c s'] & -> & Hin). apply elem_of_map_to_list, map_lookup_filter_Some in Hin as [? ?]. by exists c.
  - intros (c & Hc & Hu). exists (c, s). split; [done |]. by apply elem_of_map_to_list, map_lookup_filter_Some.
Qed.

Lemma remove_first_perm x l l' : l ≡ₚ x :: l' → remove_first x l ≡ₚ l'.
Proof.
  revert l'. induction l as [| y l IH]; intros l' Hp; [by apply Permutation_nil_cons in Hp |].
  cbn. destruct (Z.eqb_spec y x) as [-> | Hne]; [by apply Permutation_cons_inv in Hp |].
  assert (y ∈ l') as (l1 & l2 & ->)%list_elem_of_split.
  { assert (y ∈ x :: l') as Hin by (rewrite <- Hp; by left). apply elem_of_cons in Hin as [-> | ?]; done. }
  rewrite <- Permutation_middle. constructor. apply IH.
  rewrite <- Permutation_middle in Hp. apply (Permutation_cons_inv (a := y)). etrans; [exact Hp | by constructor].
Qed.

Lemma remove_first_notin x l : x ∉ l → remove_first x l = l.
Proof.
  induction l as [| y l IH]; [done |]. rewrite not_elem_of_cons. intros [Hne Hl]. cbn.
  destruct (Z.eqb_spec y x); [congruence |]. by rewrite IH.
Qed.

Lemma sessions_of_insert m u u' l : sessions_of (<[u := l]> m) u' = if decide (u = u') then l else sessions_of m u'.
Proof. unfold sessions_of. case_decide; subst; [by rewrite lookup_insert_eq | by rewrite lookup_insert_ne]. Qed.

Lemma sessions_of_remove m u s u' :
  sessions_of (removeSessionLocked m u s) u' = if decide (u = u') then remove_first s (sessions_of m u) else sessions_of m u'.
Proof.
  unfold removeSessionLocked. destruct (remove_first s (sessions_of m u)) eqn:E.
  - unfold sessions_of. case_decide; subst; [by rewrite lookup_delete_eq | by rewrite lookup_delete_ne].
  - apply sessions_of_insert.
Qed.

(** The two maps describe the same sessions. *)
Record auth_inv (owner : Z → bytes) (ca : ClientAuth) : Prop := {
  ai_devices u : sessions_of (activeSessions ca) u ≡ₚ devices (clientSession ca) u;
  ai_owner c s : clientSession ca !! c = Some s → owner s = c;
}.

(** Session ids belong to one client: [owner] is who the handshake that got
    the id was for. *)
Definition owned (owner : Z → bytes) (o : auth_op) : Prop :=
  match o with AAdmit c s | ADestroyed c s => owner s = c | _ => True end.

Lemma record_inv owner ca m c s :
  (∀ u, sessions_of m u ≡ₚ devices (delete c (clientSession ca)) u) → owner s = c →
  (∀ c s, clientSession ca !! c = Some s → owner s = c) → auth_inv owner (record_session ca m c s).
Proof.
  intros Hd Hs Ho. split.
  - intros u. cbn. rewrite sessions_of_insert, <- insert_delete_eq, devices_insert by (by rewrite lookup_delete_eq).
    case_decide as Hu; [subst u | by rewrite Hd]. rewrite Hd. by rewrite Permutation_app_comm.
  - intros c' s'. cbn. rewrite lookup_insert_Some. intros [[<- <-] | [_ ?]]; [done | by apply Ho].
Qed.

Lemma removed_inv owner ca c s :
  auth_inv owner ca → clientSession ca !! c = Some s →
  ∀ u, sessions_of (removeSessionLocked (activeSessions ca) (parseUserID c) s) u ≡ₚ devices (delete c (clientSession ca)) u.
Proof.
  intros [Hd _] Hc u. rewrite sessions_of_remove. pose proof (devices_delete _ c s u Hc) as Hp.
  case_decide as Hu; cbn in Hp; [subst u; apply remove_first_perm | ]; by rewrite Hd.
Qed.

Lemma absent_inv owner ca c s :
  auth_inv owner ca → owner s = c → clientSession ca !! c ≠ Some s →
  ∀ u, sessions_of (removeSessionLocked (activeSessions ca) (parseUserID c) s) u = sessions_of (activeSessions ca) u.
Proof.
  intros [Hd Ho] Hs Hc u. rewrite sessions_of_remove. case_decide as Hu; [subst u | done].
  apply remove_first_notin. rewrite Hd, devices_elem. intros (c' & Hc' & _). apply Hc. by rewrite <- (Ho _ _ Hc'), Hs in Hc'.
Qed.

Lemma destroyed_inv owner ca c s : auth_inv owner ca → owner s = c → auth_inv owner (OnSessionDestroyed ca c s).
Proof.
  intros Hi Hs. pose proof Hi as [Hd Ho]. unfold OnSessionDestroyed.
  destruct (decide (clientSession ca !! c = Some s)) as [Hc | Hc].
  - rewrite Hc. cbn [default]. rewrite Z.eqb_refl. split; cbn; [by apply (removed_inv owner) |].
    intros c' s' [_ ?]%lookup_delete_Some. by apply Ho.
  - assert ((if default 0 (clientSession ca !! c) =? s then delete c (clientSession ca) else clientSession ca)
            = clientSession ca) as ->.
    { destruct (Z.eqb_spec (default 0 (clientSession ca !! c)) s) as [E |]; [| done]. apply delete_id.
      destruct (clientSession ca !! c); [cbn in E; congruence | done]. }
    split; cbn; [| done]. intros u. by rewrite (absent_inv owner ca c s Hi Hs Hc u).
Qed.

Lemma sync_inv owner ca cs ls : auth_inv owner ca → auth_inv owner (SyncClients ca cs ls).
Proof.
  intros [Hd Ho]. split; cbn.
  - intros u. set (users := list_to_set (parseUserID <$> cs) : gset bytes).
    destruct (decide (u ∈ users)) as [Hu | Hu].
    + assert (sessions_of (filter (λ x, x.1 ∈ users) (activeSessions ca)) u = sessions_of (activeSessions ca) u) as ->.
      { unfold sessions_of. rewrite map_lookup_filter. destruct (activeSessions ca !! u); cbn; [| done].
        by rewrite option_guard_True. }
      rewrite Hd. unfold devices. rewrite map_filter_filter. do 2 f_equiv. apply map_filter_ext.
      intros c s _. cbn. split; [intros <-; split; [done | by intros [_ ?]] | tauto].
    + assert (sessions_of (filter (λ x, x.1 ∈ users) (activeSessions ca)) u = []) as ->.
      { unfold sessions_of. rewrite map_lookup_filter. destruct (activeSessions ca !! u); cbn; [| done].
        by rewrite option_guard_False. }
      destruct (devices _ u) as [| s l] eqn:E; [done | exfalso].
      assert (s ∈ s :: l) as Hin by by left. rewrite <- E in Hin. apply devices_elem in Hin as (c & Hc & Hcu).
      apply map_lookup_filter_Some in Hc as [Hc Hk]. cbn in Hk. apply Hk. rewrite Hcu. split; [| done].
      assert (s ∈ sessions_of (activeSessions ca) u) as Hs by (rewrite Hd; apply devices_elem; by exists c).
      unfold sessions_of in Hs. destruct (activeSessions ca !! u); [done | by apply elem_of_nil in Hs].
  - intros c s [Hc _]%map_lookup_filter_Some. by apply Ho.
Qed.

Lemma auth_step_inv owner ca o : auth_inv owner ca → owned owner o → auth_inv owner (auth_step ca o).
Proof.
  intros Hi Hw. pose proof Hi as [Hd Ho]. destruct o as [c s | c s | c | c | u m | cs ls]; cbn [auth_step].
  - unfold AdmitSession. destruct (openMode ca); [done |]. destruct (clientSession ca !! c) as [prev |] eqn:Ec; cbn [snd].
    + apply record_inv; [by apply (removed_inv owner) | done | done].
    + destruct (_ <=? _); [done |]. apply record_inv; [| done | done]. intros u. by rewrite delete_id.
  - by apply destroyed_inv.
  - by split.
  - unfold GetAndDestroyClientSession. destruct (clientSession ca !! c) as [s |] eqn:Ec; cbn [snd]; [| by split].
    split; cbn; [by apply (removed_inv owner) |]. intros c' s' [_ ?]%lookup_delete_Some. by apply Ho.
  - by split.
  - by apply sync_inv.
Qed.

Lemma new_auth_inv owner ids : auth_inv owner (NewClientAuth ids).
Proof.
  unfold NewClientAuth. destruct (_ =? 0); (split; [intros u | done]);
    unfold sessions_of, devices; cbn; by rewrite lookup_empty, map_filter_empty, map_to_list_empty.
Qed.

Lemma auth_run_inv owner ids ops : Forall (owned owner) ops → auth_inv owner (auth_run (NewClientAuth ids) ops).
Proof.
  unfold auth_run. generalize (new_auth_inv owner ids). generalize (NewClientAuth ids).
  induction ops as [| o ops IH]; intros ca Hi Hw; cbn; [done |]. apply Forall_cons_1 in Hw as [Ho Hw].
  apply IH; [by apply auth_step_inv | done].
Qed.

(** ** The quota *)

(** No limit in force exceeds [L]. *)
Definition limits_below (L : Z) (ca : ClientAuth) : Prop :=
  defaultMax ca ≤ L ∧ map_Forall (λ _ m, m ≤ L) (userLimits ca).
Definition op_below (L : Z) (o : auth_op) : Prop :=
  match o with ALimit _ m => m ≤ L | ASync _ ls => map_Forall (λ _ m, m ≤ L) ls | _ => True end.
Definition quota (L : Z) (ca : ClientAuth) : Prop := limits_below L ca ∧ ∀ u, ActiveSessionCount ca u ≤ L.

Lemma limit_of_below L ca u : limits_below L ca → limit_of ca u ≤ L.
Proof. intros [Hd Hm]. unfold limit_of. destruct (userLimits ca !! u) eqn:E; [by apply (Hm u) | done]. Qed.

Lemma remove_first_shorter x l : len (remove_first x l) ≤ len l.
Proof.
  induction l as [| y l IH]; cbn; [done |]. destruct (y =? x); rewrite ?(@len_cons Z); lia.
Qed.

Lemma remove_count m u s u' : len (sessions_of (removeSessionLocked m u s) u') ≤ len (sessions_of m u').
Proof. rewrite sessions_of_remove. case_decide; [subst; apply remove_first_shorter | done]. Qed.

Lemma count_devices owner ca u : auth_inv owner ca → ActiveSessionCount ca u = len (devices (clientSession ca) u).
Proof. intros [Hd _]. unfold ActiveSessionCount, len. by rewrite (Hd u). Qed.

Lemma len_perm {A} (l l' : list A) : l ≡ₚ l' → len l = len l'.
Proof. unfold len. by intros ->. Qed.

(** What an admission does to the counts. *)
Lemma admit_count owner ca c s u :
  auth_inv owner ca → openMode ca = false → fst (AdmitSession ca c s) = true →
  ActiveSessionCount (snd (AdmitSession ca c s)) u
    = ActiveSessionCount ca u
      + (if decide (parseUserID c = u) then match clientSession ca !! c with Some _ => 0 | None => 1 end else 0).
Proof.
  intros Hi Hopen Hok. unfold AdmitSession in *. rewrite Hopen in *. unfold ActiveSessionCount.
  destruct (clientSession ca !! c) as [prev |] eqn:Ec; cbn [snd].
  - cbn. rewrite sessions_of_insert. pose proof (len_perm _ _ (removed_inv owner ca c prev Hi Ec u)) as Hr.
    pose proof (len_perm _ _ (devices_delete _ c prev u Ec)) as Hd. pose proof (len_perm _ _ (ai_devices _ _ Hi u)) as Hu.
    destruct (decide (parseUserID c = u)) as [Heq | Hne].
    + subst u. rewrite (@len_app Z). cbn in Hd. rewrite (@len_cons Z) in Hd. change (len [s]) with 1. lia.
    + cbn in Hd. lia.
  - destruct (_ <=? _); [done |]. cbn. rewrite sessions_of_insert.
    destruct (decide (parseUserID c = u)) as [Heq | Hne]; [| lia]. subst u. rewrite (@len_app Z). change (len [s]) with 1. lia.
Qed.

Lemma step_quota owner L ca o :
  auth_inv owner ca → quota L ca → owned owner o → op_below L o → quota L (auth_step ca o).
Proof.
  intros Hi [Hl Hq] Ho Hb. destruct o as [c s | c s | c | c | u m | cs ls]; cbn [auth_step].
  - destruct (openMode ca) eqn:Hopen.
    { unfold AdmitSession. by rewrite Hopen. }
    destruct (fst (AdmitSession ca c s)) eqn:Hok.
    + split.
      { destruct Hl. unfold AdmitSession. rewrite Hopen. destruct (clientSession ca !! c); [done |]. by destruct (_ <=? _). }
      intros u. rewrite (admit_count owner) by done. specialize (Hq u).
      destruct (decide (parseUserID c = u)) as [<- |]; [| lia]. destruct (clientSession ca !! c) eqn:Ec; [lia |].
      unfold AdmitSession in Hok. rewrite Hopen, Ec in Hok. pose proof (limit_of_below L ca (parseUserID c) Hl).
      destruct (Z.leb_spec (limit_of ca (parseUserID c)) (len (sessions_of (activeSessions ca) (parseUserID c)))); [done |].
      unfold ActiveSessionCount. lia.
    + assert (snd (AdmitSession ca c s) = ca) as ->; [| done]. unfold AdmitSession in *. rewrite Hopen in *.
      destruct (clientSession ca !! c); [done |]. by destruct (_ <=? _).
  - split; [done |]. intros u. etrans; [apply remove_count | apply Hq].
  - done.
  - unfold GetAndDestroyClientSession. destruct (clientSession ca !! c); cbn [snd]; [| done].
    split; [done |]. intros u. etrans; [apply remove_count | apply Hq].
  - split; [| done]. destruct Hl as [? Hm]. split; [done |]. cbn. by apply map_Forall_insert_2.
  - split; [by destruct Hl |]. intros u. etrans; [| apply (Hq u)]. unfold ActiveSessionCount, sessions_of. cbn.
    rewrite map_lookup_filter. destruct (activeSessions ca !! u) as [l |] eqn:E; cbn; [| apply len_nonneg].
    unfold guard. case_decide; cbn; [done | apply len_nonneg].
Qed.

Lemma run_quota owner L ids ops :
  3 ≤ L → Forall (owned owner) ops → Forall (op_below L) ops → quota L (auth_run (NewClientAuth ids) ops).
Proof.
  intros H3 Ho Hb.
  assert (quota L (NewClientAuth ids)) as Hq.
  { unfold NewClientAuth. destruct (_ =? 0); (split; [split; [done | apply map_Forall_empty] |]);
      intros u; unfold ActiveSessionCount, sessions_of; cbn; rewrite lookup_empty; cbn; rewrite (@len_nil Z); lia. }
  unfold auth_run. revert Hq. generalize (new_auth_inv owner ids). generalize (NewClientAuth ids).
  induction ops as [| o ops IH]; intros ca Hi Hq; cbn; [done |].
  apply Forall_cons_1 in Ho as [Ho Hos]. apply Forall_cons_1 in Hb as [Hb Hbs].
  apply IH; [done | done | by apply auth_step_inv | by apply (step_quota owner)].
Qed.

(** C39: the device quota.  In every run of handshakes, session ends and
    management calls, in any order, the sessions counted for a user are those
    of the devices registered for it, one each, and no user has more than the
    largest limit in force.  A handshake is admitted exactly when
    [CheckDeviceLimit] says so; a device that reconnects replaces its session, a
    new one takes one place and leaves the user within its own limit. *)
Theorem device_quota owner ids ops L u :
  3 ≤ L → Forall (owned owner) ops → Forall (op_below L) ops →
  let ca := auth_run (NewClientAuth ids) ops in
  ActiveSessionCount ca u = len (devices (clientSession ca) u) ∧ ActiveSessionCount ca u ≤ L
  ∧ ∀ c s, parseUserID c = u → openMode ca = false →
      fst (AdmitSession ca c s) = CheckDeviceLimit ca c
      ∧ (fst (AdmitSession ca c s) = false → snd (AdmitSession ca c s) = ca)
      ∧ (fst (AdmitSession ca c s) = true →
           if bool_decide (is_Some (clientSession ca !! c))
           then ActiveSessionCount (snd (AdmitSession ca c s)) u = ActiveSessionCount ca u
           else ActiveSessionCount (snd (AdmitSession ca c s)) u = ActiveSessionCount ca u + 1
                ∧ ActiveSessionCount ca u + 1 ≤ limit_of ca u).
Proof.
  intros H3 Ho Hb ca. pose proof (auth_run_inv owner ids ops Ho) as Hi. fold ca in Hi.
  destruct (run_quota owner L ids ops H3 Ho Hb) as [_ Hq]. fold ca in Hq.
  split; [by apply (count_devices owner) |]. split; [apply Hq |]. intros c s Hc Hopen.
  pose proof (admit_count owner ca c s u Hi Hopen) as Hcount. rewrite decide_True in Hcount by done.
  unfold AdmitSession, CheckDeviceLimit, ActiveSessionCount in *. rewrite Hopen in *. subst u.
  destruct (clientSession ca !! c) as [prev |]; cbn [fst snd] in *.
  - split_and!; [done | done |]. intros _. rewrite bool_decide_eq_true_2 by done. rewrite Hcount by done. lia.
  - destruct (Z.leb_spec (limit_of ca (parseUserID c)) (len (sessions_of (activeSessions ca) (parseUserID c))));
      destruct (Z.ltb_spec (len (sessions_of (activeSessions ca) (parseUserID c))) (limit_of ca (parseUserID c)));
      try lia; cbn [fst snd] in *.
    + done.
    + split_and!; [done | done |]. intros _. rewrite bool_decide_eq_false_2 by (by intros [? ?]). rewrite Hcount by done. lia.
Qed.

(** A full synchronisation leaves no trace of users it does not name.  After
    [SyncClients] exactly the named clients are authorized, the registered
    sessions are those of users that still have a client, unchanged, and the
    limits are the new ones. *)
Theorem sync_replaces owner ids ops clients limits :
  Forall (owned owner) ops →
  let ca := auth_run (NewClientAuth ids) ops in
  let ca' := SyncClients ca clients limits in
  let kept u := u ∈ parseUserID <$> clients in
  (∀ c, IsAuthorized ca' c = true ↔ c ∈ clients)
  ∧ (∀ c s, clientSession ca' !! c = Some s ↔ clientSession ca !! c = Some s ∧ kept (parseUserID c))
  ∧ (∀ u, kept u → ActiveSessionCount ca' u = ActiveSessionCount ca u)
  ∧ (∀ u, ¬ kept u → ActiveSessionCount ca' u = 0)
  ∧ ∀ u, limit_of ca' u = default 3 (limits !! u).
Proof.
  intros Ho ca ca' kept. pose proof (auth_run_inv owner ids ops Ho) as Hi. fold ca in Hi.
  assert (∀ u, u ∈ (list_to_set (parseUserID <$> clients) : gset bytes) ↔ kept u) as Hk
    by (intros; apply elem_of_list_to_set).
  split_and!.
  - intros c. unfold IsAuthorized. cbn. rewrite bool_decide_eq_true. apply elem_of_list_to_set.
  - intros c s. cbn. rewrite map_lookup_filter_Some. cbn. rewrite Hk. split; [| tauto].
    intros [Hc Hn]. split; [done |]. destruct (decide (parseUserID c ∈ parseUserID <$> clients)) as [| Hnot]; [done |].
    exfalso. apply Hn. split; [| done].
    assert (s ∈ sessions_of (activeSessions ca) (parseUserID c)) as Hs.
    { rewrite (ai_devices _ _ Hi). apply devices_elem. by exists c. }
    unfold sessions_of in Hs. destruct (activeSessions ca !! parseUserID c); [done | by apply elem_of_nil in Hs].
  - intros u Hu. unfold ActiveSessionCount, sessions_of. cbn. rewrite map_lookup_filter.
    destruct (activeSessions ca !! u); cbn; [| done]. rewrite option_guard_True; [done | by apply Hk].
  - intros u Hu. unfold ActiveSessionCount, sessions_of. cbn. rewrite map_lookup_filter.
    destruct (activeSessions ca !! u); cbn; [| done]. rewrite option_guard_False; [done | by rewrite Hk].
  - intros u. unfold limit_of. cbn. unfold ca, auth_run. f_equal. clear.
    assert (defaultMax (NewClientAuth ids) = 3) as H by (unfold NewClientAuth; by destruct (_ =? 0)).
    revert H. generalize (NewClientAuth ids). induction ops as [| o ops IH]; intros c0 H; cbn; [done |]. apply IH.
    rewrite <- H. destruct o; cbn; try done.
    + unfold AdmitSession. destruct (openMode c0); [done |]. destruct (clientSession c0 !! _); [done |]. by destruct (_ <=? _).
    + unfold GetAndDestroyClientSession. by destruct (clientSession c0 !! _).
Qed.

(** ** Witnesses *)

Module AuthDemo.
Definition dev_a : bytes := bytes_of_string "u:a".
Definition dev_b : bytes := bytes_of_string "u:b".
Definition other : bytes := bytes_of_string "v".
Definition user : bytes := bytes_of_string "u".

(** Even ids belong to [dev_a], odd ones to [dev_b]. *)
Definition who (s : Z) : bytes := if Z.even s then dev_a else dev_b.

Definition demo_ops : list auth_op :=
  [AAdmit dev_a 2; ALimit user 2; AAdmit dev_b 1; AAdmit dev_a 4; ADestroyed dev_a 2; ADestroyed dev_b 1].
Definition demo : ClientAuth := auth_run (NewClientAuth [dev_a; dev_b; other]) demo_ops.

Lemma demo_owned : Forall (owned who) demo_ops.
Proof. repeat constructor. Qed.
End AuthDemo.

Section auth_witnesses.
Import AuthDemo.

Lemma device_quota_witness :
  (ActiveSessionCount demo user = 1 ∧ fst (AdmitSession demo dev_b 3) = true)
  ∧ ActiveSessionCount demo user = len (devices (clientSession demo) user) ∧ ActiveSessionCount demo user ≤ 3
  ∧ ∀ c s, parseUserID c = user → openMode demo = false →
      fst (AdmitSession demo c s) = CheckDeviceLimit demo c
      ∧ (fst (AdmitSession demo c s) = false → snd (AdmitSession demo c s) = demo)
      ∧ (fst (AdmitSession demo c s) = true →
           if bool_decide (is_Some (clientSession demo !! c))
           then ActiveSessionCount (snd (AdmitSession demo c s)) user = ActiveSessionCount demo user
           else ActiveSessionCount (snd (AdmitSession demo c s)) user = ActiveSessionCount demo user + 1
                ∧ ActiveSessionCount demo user + 1 ≤ limit_of demo user).
Proof.
  split; [vm_compute; by split |].
  apply (device_quota who [dev_a; dev_b; other] demo_ops 3 user); [lia | apply demo_owned |].
  repeat constructor; cbn; lia.
Defined.

Lemma sync_replaces_witness :
  let ca' := SyncClients demo [other] ∅ in
  (∀ c, IsAuthorized ca' c = true ↔ c ∈ [other])
  ∧ (∀ c s, clientSession ca' !! c = Some s ↔ clientSession demo !! c = Some s ∧ parseUserID c ∈ parseUserID <$> [other])
  ∧ (∀ u, u ∈ parseUserID <$> [other] → ActiveSessionCount ca' u = ActiveSessionCount demo u)
  ∧ (∀ u, u ∉ parseUserID <$> [other] → ActiveSessionCount ca' u = 0)
  ∧ ∀ u, limit_of ca' u = default 3 ((∅ : gmap bytes Z) !! u).
Proof. apply (sync_replaces who [dev_a; dev_b; other] demo_ops [other] ∅ demo_owned). Defined.

(** A device opens two sessions, as a client with a pool of connections does;
    only the second is on record.  When it ends, the device is no longer
    counted although its first session lives on: with a limit of one a second
    device is admitted beside it. *)
Theorem quota_forgets_sessions :
  let ca := auth_run (NewClientAuth [dev_a; dev_b]) [ALimit user 1; AAdmit dev_a 2; AAdmit dev_a 4; ADestroyed dev_a 4] in
  ActiveSessionCount ca user = 0 ∧ fst (AdmitSession ca dev_b 1) = true.
Proof. vm_compute. by split. Qed.

End auth_witnesses.
