(* ===== verification/RateLimit.v ===== *)
(** * Rate limiting and the client's address ([server/ratelimit.go], [server/clientid_exempt.go])

    The counting limiter, the request cap of exempt clients, and the walk over
    [X-Forwarded-For] that yields the address limits are keyed on.  Times are
    nanoseconds; [now] is what [time.Now] returned under the mutex. *)

From S2P Require Import Prelude.
From S2P Require Import EgressGuard.
From stdpp Require Import base list gmap strings.

#[local] Open Scope Z_scope.

(** ** The counting limiter *)

Definition maxRateLimitEntries : nat := Z.to_nat 10000.

Record RateLimiter := mkRL {
  attempts : gmap bytes (list Z);
  maxRate : Z;
  window : Z;
}.

Definition Minute : Z := 60 * 1000000000.

Definition NewRateLimiter (maxRate window : Z) : RateLimiter :=
  mkRL ∅ (if maxRate =? 0 then 5 else maxRate) (if window =? 0 then Minute else window).

Definition times_of (rl : RateLimiter) (ip : bytes) : list Z := default [] (attempts rl !! ip).

(** The times after [cutoff]. *)
Definition valid_times (cutoff : Z) (times : list Z) : list Z := filter (λ t, cutoff < t) times.

Definition set_attempts (rl : RateLimiter) (m : gmap bytes (list Z)) : RateLimiter := mkRL m (maxRate rl) (window rl).

Definition Allow (rl : RateLimiter) (ip : bytes) (now : Z) : bool * RateLimiter :=
  let cutoff := now - window rl in
  if bool_decide (attempts rl !! ip = None) && (maxRateLimitEntries <=? size (attempts rl))%nat then (false, rl) else
  let valid := valid_times cutoff (times_of rl ip) in
  if maxRate rl <=? len valid then (false, set_attempts rl (<[ip := valid]> (attempts rl)))
  else (true, set_attempts rl (<[ip := valid ++ [now]]> (attempts rl))).

Definition Cleanup (rl : RateLimiter) (now : Z) : RateLimiter :=
  set_attempts rl (omap (λ times, match valid_times (now - window rl) times with [] => None | v => Some v end) (attempts rl)).

(** ** The request cap of exempt clients *)

Record softCounter := mkSoft { soft_count : Z; winStart : Z }.
Record Exemption := mkExempt { softLimit : Z; softWindow : Z; soft : gmap bytes softCounter }.

Definition AllowExempted (e : Exemption) (clientID : bytes) (now : Z) : bool * Exemption :=
  if len clientID =? 0 then (false, e) else
  if softLimit e <=? 0 then (true, e) else
  let c := match soft e !! clientID with
           | Some c => if softWindow e <? now - winStart c then mkSoft 0 now else c
           | None => mkSoft 0 now
           end in
  if softLimit e <=? soft_count c then (false, mkExempt (softLimit e) (softWindow e) (<[clientID := c]> (soft e)))
  else (true, mkExempt (softLimit e) (softWindow e) (<[clientID := mkSoft (soft_count c + 1) (winStart c)]> (soft e))).

(** The callback of the cache when it drops a client. *)
Definition drop_soft (e : Exemption) (clientID : bytes) : Exemption :=
  mkExempt (softLimit e) (softWindow e) (delete clientID (soft e)).

(** ** The client's address *)

Definition comma : Z := 44.

(** [strings.Split(s, ",")] *)
Fixpoint split_comma (s : bytes) : list bytes :=
  match s with
  | [] => [[]]
  | x :: s' =>
    if x =? comma then [] :: split_comma s'
    else match split_comma s' with
         | p :: ps => (x :: p) :: ps
         | [] => [[x]]
         end
  end.

Section address.
(** [strings.TrimSpace], and whether an address is in the set of trusted proxies
    ([trustedProxySet.contains], on [net/netip]). *)
Context (TrimSpace : bytes → bytes) (trusted : bytes → bool).

Fixpoint first_untrusted (hops : list bytes) : option bytes :=
  match hops with
  | [] => None
  | h :: hs => if trusted h then first_untrusted hs else Some h
  end.

Definition at_sign : bytes := bytes_of_string "@".

Definition clientIPFromRequest (RemoteAddr xff : bytes) (behindProxy : bool) : bytes :=
  let remoteHost := match SplitHostPort RemoteAddr with Ret (h, _) => h | _ => RemoteAddr end in
  if negb behindProxy then remoteHost else
  if len xff =? 0 then remoteHost else
  let parts := split_comma xff in
  let chain := (TrimSpace <$> parts)
               ++ (if negb (len remoteHost =? 0) && negb (bytes_eqb remoteHost at_sign) then [remoteHost] else []) in
  match first_untrusted (reverse chain) with
  | Some h => h
  | None =>
    match parts with
    | p :: _ => let first := TrimSpace p in if negb (len first =? 0) then first else remoteHost
    | [] => remoteHost
    end
  end.
End address.

(** ** The limiter refines a sliding window over the history *)

Inductive rl_op := RLAllow (ip : bytes) (now : Z) | RLCleanup (now : Z).
Definition rl_time (o : rl_op) : Z := match o with RLAllow _ t | RLCleanup t => t end.

Definition rl_step (rl : RateLimiter) (o : rl_op) : option bool * RateLimiter :=
  match o with
  | RLAllow ip now => let '(ok, rl') := Allow rl ip now in (Some ok, rl')
  | RLCleanup now => (None, Cleanup rl now)
  end.

(** The admitted calls, oldest first: address and time. *)
Fixpoint rl_run (rl : RateLimiter) (log : list (bytes * Z)) (ops : list rl_op) : list (bytes * Z) * RateLimiter :=
  match ops with
  | [] => (log, rl)
  | o :: ops' =>
    let '(r, rl') := rl_step rl o in
    let log' := match o, r with RLAllow ip now, Some true => log ++ [(ip, now)] | _, _ => log end in
    rl_run rl' log' ops'
  end.

Definition admitted (log : list (bytes * Z)) (ip : bytes) : list Z := (filter (λ x, x.1 = ip) log).*2.

(** Calls happen at non-decreasing times, none before [now]. *)
Fixpoint clocked (now : Z) (ops : list rl_op) : Prop :=
  match ops with [] => True | o :: ops' => now ≤ rl_time o ∧ clocked (rl_time o) ops' end.

(** [rl] remembers every admission of the last [window]. *)
Record rl_inv (rl : RateLimiter) (log : list (bytes * Z)) (now : Z) : Prop := {
  ri_recent ip : ∀ cutoff, now - window rl ≤ cutoff → valid_times cutoff (times_of rl ip) = valid_times cutoff (admitted log ip);
  ri_past ip t : t ∈ admitted log ip → t ≤ now;
  ri_rate ip cutoff : len (filter (λ t, cutoff < t ≤ cutoff + window rl) (admitted log ip)) ≤ maxRate rl;
  ri_size : (size (attempts rl) ≤ maxRateLimitEntries)%nat;
  ri_pos : 0 < maxRate rl ∧ 0 < window rl;
}.

Lemma valid_times_app c l1 l2 : valid_times c (l1 ++ l2) = valid_times c l1 ++ valid_times c l2.
Proof. apply filter_app. Qed.

Lemma valid_times_nested c c' l : c' ≤ c → valid_times c (valid_times c' l) = valid_times c l.
Proof. intros Hc. unfold valid_times. rewrite list_filter_filter. apply list_filter_iff. intros x. lia. Qed.

Lemma valid_times_len c c' l : c' ≤ c → len (valid_times c l) ≤ len (valid_times c' l).
Proof.
  intros Hc. rewrite <- (valid_times_nested c c' l Hc). unfold len, valid_times.
  pose proof (length_filter (λ t, c < t) (filter (λ t, c' < t) l)). lia.
Qed.

Lemma filter_ext_in {A} (P Q : A → Prop) `{!∀ x, Decision (P x), !∀ x, Decision (Q x)} (l : list A) :
  (∀ x, x ∈ l → P x ↔ Q x) → filter P l = filter Q l.
Proof.
  induction l as [| x l IH]; intros Heq; [done |]. rewrite !filter_cons, IH by (intros y Hy; apply Heq; by right).
  destruct (Heq x ltac:(by left)). repeat case_decide; tauto.
Qed.

Lemma admitted_snoc log ip ip' t :
  admitted (log ++ [(ip', t)]) ip = admitted log ip ++ (if decide (ip' = ip) then [t] else []).
Proof. unfold admitted. rewrite filter_app, fmap_app, filter_cons, filter_nil. cbn. by case_decide. Qed.

Lemma times_of_insert rl ip ip' l :
  times_of (set_attempts rl (<[ip := l]> (attempts rl))) ip' = if decide (ip = ip') then l else times_of rl ip'.
Proof. unfold times_of. cbn. case_decide; subst; [by rewrite lookup_insert_eq | by rewrite lookup_insert_ne]. Qed.

(** Forgetting times that have left the window, at a later moment. *)
Lemma rl_inv_forget rl log now now' m :
  rl_inv rl log now → now ≤ now' → (size m ≤ maxRateLimitEntries)%nat →
  (∀ ip cutoff, now' - window rl ≤ cutoff → valid_times cutoff (default [] (m !! ip)) = valid_times cutoff (times_of rl ip)) →
  rl_inv (set_attempts rl m) log now'.
Proof.
  intros [Hr Hp Hc Hs Hpos] Hn Hm Heq. split; cbn; try done.
  - intros ip c Hcut. cbn in Hcut. change (times_of (set_attempts rl m) ip) with (default [] (m !! ip)).
    rewrite Heq by done. apply Hr. lia.
  - intros ip t Ht. specialize (Hp ip t Ht). lia.
Qed.

Lemma map_size_insert_le {V} (m : gmap bytes V) k v n :
  (size m ≤ n)%nat → (m !! k = None → (size m < n)%nat) → (size (<[k := v]> m) ≤ n)%nat.
Proof.
  intros Hm Hk. destruct (m !! k) eqn:E; [rewrite map_size_insert_Some by done; lia |].
  rewrite map_size_insert_None by done. specialize (Hk eq_refl). lia.
Qed.

Lemma allow_inv rl log now ip now' ok rl' :
  rl_inv rl log now → now ≤ now' → Allow rl ip now' = (ok, rl') →
  rl_inv rl' (if ok then log ++ [(ip, now')] else log) now'
  ∧ ok = negb (bool_decide (attempts rl !! ip = None) && (maxRateLimitEntries <=? size (attempts rl))%nat)
         && (len (valid_times (now' - window rl) (admitted log ip)) <? maxRate rl).
Proof.
  intros Hi Hn. pose proof Hi as [Hr Hp Hc Hs Hpos]. unfold Allow.
  destruct (bool_decide _ && _) eqn:Efull.
  { intros [= <- <-]. split; [| done].
    assert (set_attempts rl (attempts rl) = rl) as <- by by destruct rl.
    by apply (rl_inv_forget rl log now now' (attempts rl)). }
  assert (∀ l, (size (<[ip := l]> (attempts rl)) ≤ maxRateLimitEntries)%nat) as Hsize.
  { intros l. apply map_size_insert_le; [done |]. intros Hnone. rewrite bool_decide_eq_true_2 in Efull by done.
    cbn in Efull. apply Nat.leb_gt in Efull. done. }
  rewrite (Hr ip) by lia. set (recent := valid_times (now' - window rl) (admitted log ip)).
  assert (recent = valid_times (now' - window rl) (times_of rl ip)) as Hrec by (unfold recent; symmetry; apply Hr; lia).
  destruct (Z.leb_spec (maxRate rl) (len recent)) as [Hfull | Hroom]; intros [= <- <-]; cbn [negb andb].
  - split; [| symmetry; by apply Z.ltb_ge]. apply (rl_inv_forget rl log now now'); try done.
    intros ip' c Hcut. destruct (decide (ip = ip')) as [<- |]; [rewrite lookup_insert_eq | by rewrite lookup_insert_ne].
    cbn. rewrite Hrec. by apply valid_times_nested.
  - split; [| symmetry; by apply Z.ltb_lt]. split; cbn; try done.
    + intros ip' c Hcut. cbn in Hcut. rewrite times_of_insert, admitted_snoc, valid_times_app. case_decide as Hip.
      * subst ip'. rewrite valid_times_app, Hrec, valid_times_nested by done. by rewrite (Hr ip c) by lia.
      * rewrite app_nil_r. apply Hr. lia.
    + intros ip' t. rewrite admitted_snoc, elem_of_app. intros [Ht | Ht]; [specialize (Hp ip' t Ht); lia |].
      case_decide; [apply list_elem_of_singleton in Ht; lia | by apply elem_of_nil in Ht].
    + intros ip' c. rewrite admitted_snoc, filter_app, len_app. case_decide as Hip; [| by rewrite filter_nil, (@len_nil Z), Z.add_0_r].
      subst ip'. rewrite filter_cons, filter_nil. case_decide as Hin; [| rewrite (@len_nil Z), Z.add_0_r; apply Hc].
      assert (filter (λ t, c < t ≤ c + window rl) (admitted log ip) = valid_times c (admitted log ip)) as ->.
      { apply filter_ext_in. intros t Ht. specialize (Hp ip t Ht). lia. }
      pose proof (valid_times_len c (now' - window rl) (admitted log ip) ltac:(lia)). change (len [now']) with 1.
      unfold recent in Hroom. lia.
Qed.

Lemma size_omap_le {V W} (f : V → option W) (m : gmap bytes V) : (size (omap f m) ≤ size m)%nat.
Proof. rewrite <- !size_dom. apply subseteq_size, dom_omap_subseteq. Qed.

Lemma cleanup_inv rl log now now' : rl_inv rl log now → now ≤ now' → rl_inv (Cleanup rl now') log now'.
Proof.
  intros Hi Hn. unfold Cleanup. apply (rl_inv_forget rl log now); [done | done | |].
  - etrans; [apply size_omap_le | apply (ri_size _ _ _ Hi)].
  - intros ip c Hcut. rewrite lookup_omap. unfold times_of. destruct (attempts rl !! ip) as [times |]; [| done].
    cbn [from_option mbind option_bind default id].
    rewrite <- (valid_times_nested c (now' - window rl) times) by done.
    by destruct (valid_times (now' - window rl) times).
Qed.

Lemma step_params rl o : maxRate (snd (rl_step rl o)) = maxRate rl ∧ window (snd (rl_step rl o)) = window rl.
Proof.
  destruct o as [ip t | t]; cbn; [| done]. unfold Allow. destruct (_ && _); [done |]. by destruct (_ <=? _).
Qed.

Fixpoint clock_end (now : Z) (ops : list rl_op) : Z :=
  match ops with [] => now | o :: ops' => clock_end (rl_time o) ops' end.

Lemma rl_run_inv ops rl log now log' rl' :
  rl_inv rl log now → clocked now ops → rl_run rl log ops = (log', rl') →
  rl_inv rl' log' (clock_end now ops) ∧ maxRate rl' = maxRate rl ∧ window rl' = window rl.
Proof.
  revert rl log now. induction ops as [| o ops IH]; intros rl log now Hi Hc E; cbn in E; [by injection E as <- <- |].
  destruct Hc as [Ht Hc]. destruct (rl_step rl o) as [r rl1] eqn:Es. pose proof (step_params rl o) as [Hm Hw].
  rewrite Es in Hm, Hw. cbn in Hm, Hw. rewrite <- Hm, <- Hw. cbn [clock_end]. eapply IH; [| exact Hc | exact E].
  destruct o as [ip t | t]; cbn in Es, Ht.
  - destruct (Allow rl ip t) as [ok rl2] eqn:Ea. injection Es as <- <-. by destruct (allow_inv _ _ _ _ _ _ _ Hi Ht Ea), ok.
  - injection Es as <- <-. by apply (cleanup_inv rl log now).
Qed.

Lemma new_rl_inv rate win now : 0 ≤ rate → 0 ≤ win → rl_inv (NewRateLimiter rate win) [] now.
Proof.
  intros Hr Hw. assert (0 < maxRate (NewRateLimiter rate win) ∧ 0 < window (NewRateLimiter rate win)) as [H1 H2].
  { cbn. unfold Minute. destruct (Z.eqb_spec rate 0), (Z.eqb_spec win 0); lia. }
  split; try done.
  - intros ip t Ht. by apply elem_of_nil in Ht.
  - intros ip c. change (admitted [] ip) with (@nil Z). rewrite filter_nil, (@len_nil Z). lia.
  - cbn. rewrite map_size_empty. lia.
Qed.

(** The counting limiter is an exact sliding window.  However calls from
    any addresses and cleanups are interleaved, as long as the clock does not run
    backwards, no stretch of time of length [window] contains more than
    [maxRate] admitted calls from one address, the table never has more than
    [maxRateLimitEntries] addresses, and the next call is admitted exactly when
    fewer than [maxRate] were in the last [window] - unless the address is new
    and the table full. *)
Theorem rate_limit_window rate win now ops log rl ip t :
  0 ≤ rate → 0 ≤ win → clocked now ops → rl_run (NewRateLimiter rate win) [] ops = (log, rl) → clock_end now ops ≤ t →
  let M := maxRate (NewRateLimiter rate win) in
  let W := window (NewRateLimiter rate win) in
  (∀ cutoff, len (filter (λ x, cutoff < x ≤ cutoff + W) (admitted log ip)) ≤ M)
  ∧ (size (attempts rl) ≤ maxRateLimitEntries)%nat
  ∧ fst (Allow rl ip t)
    = negb (bool_decide (attempts rl !! ip = None) && (maxRateLimitEntries <=? size (attempts rl))%nat)
      && (len (filter (λ x, t - W < x) (admitted log ip)) <? M).
Proof.
  intros Hr Hw Hc E Ht M W. destruct (rl_run_inv ops _ _ now _ _ (new_rl_inv rate win now Hr Hw) Hc E) as (Hi & Hm & Hwi).
  unfold M, W. rewrite <- Hm, <- Hwi. split; [apply Hi |]. split; [apply Hi |].
  destruct (Allow rl ip t) as [ok rl'] eqn:Ea. by destruct (allow_inv _ _ _ _ _ _ _ Hi Ht Ea) as [_ ->].
Qed.

(** ** The address a limit is keyed on *)

Section address_theorems.
Context (trusted : bytes → bool).

Lemma first_untrusted_app hs hs' :
  first_untrusted trusted (hs ++ hs')
    = match first_untrusted trusted hs with Some h => Some h | None => first_untrusted trusted hs' end.
Proof. induction hs as [| h hs IH]; cbn; [done |]. by destruct (trusted h). Qed.

Lemma first_untrusted_spec hs h : first_untrusted trusted hs = Some h → h ∈ hs ∧ trusted h = false.
Proof.
  induction hs as [| x hs IH]; cbn; [done |]. destruct (trusted x) eqn:E.
  - intros [? ?]%IH. split; [by right | done].
  - intros [= ->]. split; [by left | done].
Qed.

Lemma first_untrusted_none hs : first_untrusted trusted hs = None ↔ Forall (λ h, trusted h = true) hs.
Proof.
  induction hs as [| x hs IH]; cbn; [done |]. rewrite Forall_cons. destruct (trusted x); [tauto |].
  split; [done | by intros [? _]].
Qed.

Lemma split_comma_cons s : ∃ p ps, split_comma s = p :: ps.
Proof.
  induction s as [| x s (p & ps & IH)]; cbn; [by eexists _, _ |]. destruct (x =? comma); [by eexists _, _ |].
  rewrite IH. by eexists _, _.
Qed.

Lemma split_comma_app s s' : split_comma (s ++ comma :: s') = split_comma s ++ split_comma s'.
Proof.
  induction s as [| x s IH]; [done |]. cbn [app split_comma]. rewrite IH. destruct (x =? comma); [done |].
  destruct (split_comma_cons s) as (p & ps & ->). done.
Qed.
End address_theorems.

(** A client cannot choose its address.  A request reaches the server
    through proxies that append the address of their peer: whatever header
    [forged] the client sent, if the first proxy to see it appended [client],
    an address that is not a trusted proxy's, and every later hop is trusted,
    the limits are keyed on [client].  In direct mode the header is ignored. *)
Theorem client_address_unforgeable TrimSpace trusted RemoteAddr forged client hops remoteHost port :
  SplitHostPort RemoteAddr = Ret (remoteHost, port) →
  TrimSpace client = client → comma ∉ client → trusted client = false →
  Forall (λ h, trusted (TrimSpace h) = true) (split_comma hops) → trusted remoteHost = true →
  clientIPFromRequest TrimSpace trusted RemoteAddr (forged ++ comma :: client ++ comma :: hops) true = client
  ∧ clientIPFromRequest TrimSpace trusted RemoteAddr forged false = remoteHost.
Proof.
  intros Hs Htrim Hcomma Hc Hh Hr. unfold clientIPFromRequest. rewrite Hs. split; [| done]. cbn [negb].
  destruct (Z.eqb_spec (len (forged ++ comma :: client ++ comma :: hops)) 0) as [Hz | _].
  { rewrite len_app, len_cons in Hz. pose proof (len_nonneg forged). pose proof (len_nonneg (client ++ comma :: hops)). lia. }
  rewrite !split_comma_app.
  assert (split_comma client = [client]) as ->.
  { clear - Hcomma. induction client as [| x l IH]; [done |]. rewrite not_elem_of_cons in Hcomma. destruct Hcomma as [Hx Hl].
    cbn. rewrite IH by done. by destruct (Z.eqb_spec x comma). }
  rewrite !fmap_app, !reverse_app, !first_untrusted_app. cbn [fmap list_fmap reverse].
  assert (first_untrusted trusted (reverse (if negb (len remoteHost =? 0) && negb (bytes_eqb remoteHost at_sign)
            then [remoteHost] else [])) = None) as ->.
  { destruct (_ && _); [| done]. cbn. by rewrite Hr. }
  assert (first_untrusted trusted (reverse (TrimSpace <$> split_comma hops)) = None) as ->.
  { rewrite (first_untrusted_none trusted), Forall_reverse, Forall_fmap. exact Hh. }
  cbn. by rewrite Htrim, Hc.
Qed.

(** ** Witnesses *)

Module LimitDemo.
Definition ip1 : bytes := bytes_of_string "198.51.100.7".
Definition ip2 : bytes := bytes_of_string "203.0.113.9".
Definition demo_calls : list rl_op :=
  [RLAllow ip1 1; RLAllow ip1 2; RLAllow ip2 2; RLAllow ip1 3; RLCleanup 11; RLAllow ip1 12].
Definition demo_log : list (bytes * Z) := fst (rl_run (NewRateLimiter 2 10) [] demo_calls).
Definition demo_limiter : RateLimiter := snd (rl_run (NewRateLimiter 2 10) [] demo_calls).

(** [strings.TrimSpace] on ASCII. *)
Fixpoint trim_left (s : bytes) : bytes :=
  match s with
  | x :: s' => if bool_decide (x ∈ [9; 10; 11; 12; 13; 32]) then trim_left s' else s
  | [] => []
  end.
Definition trim (s : bytes) : bytes := reverse (trim_left (reverse (trim_left s))).
Definition loopback (h : bytes) : bool := bool_decide (h = bytes_of_string "127.0.0.1").
Definition peer : bytes := bytes_of_string "127.0.0.1:4711".
End LimitDemo.

Section limit_witnesses.
Import LimitDemo.

Lemma rate_limit_window_witness :
  demo_log = [(ip1, 1); (ip1, 2); (ip2, 2); (ip1, 12)]
  ∧ (∀ cutoff, len (filter (λ x, cutoff < x ≤ cutoff + 10) (admitted demo_log ip1)) ≤ 2)
  ∧ (size (attempts demo_limiter) ≤ maxRateLimitEntries)%nat
  ∧ fst (Allow demo_limiter ip1 13)
    = negb (bool_decide (attempts demo_limiter !! ip1 = None) && (maxRateLimitEntries <=? size (attempts demo_limiter))%nat)
      && (len (filter (λ x, 13 - 10 < x) (admitted demo_log ip1)) <? 2).
Proof.
  split; [vm_compute; reflexivity |].
  apply (rate_limit_window 2 10 0 demo_calls demo_log demo_limiter ip1 13); try lia; [| reflexivity | cbn; lia].
  cbn. lia.
Defined.

Lemma client_address_unforgeable_witness :
  let hops := bytes_of_string " 127.0.0.1" in
  clientIPFromRequest trim loopback peer (bytes_of_string "10.9.9.9, 8.8.8.8" ++ comma :: ip1 ++ comma :: hops) true = ip1
  ∧ clientIPFromRequest trim loopback peer (bytes_of_string "10.9.9.9, 8.8.8.8") false = bytes_of_string "127.0.0.1".
Proof.
  apply (client_address_unforgeable trim loopback peer (bytes_of_string "10.9.9.9, 8.8.8.8") ip1
    (bytes_of_string " 127.0.0.1") (bytes_of_string "127.0.0.1") (bytes_of_string "4711"));
    try (vm_compute; reflexivity).
  - apply (bool_decide_unpack _). vm_compute. exact I.
  - repeat constructor.
Defined.

(** The cap of exempt clients counts in fixed windows, not in a sliding one:
    with a limit of two, three calls pass within four units of a window of 60,
    across the boundary of two windows. *)
Theorem soft_cap_not_sliding :
  let e0 := mkExempt 2 60 ∅ in
  let '(a, e1) := AllowExempted e0 ip1 0 in
  let '(b, e2) := AllowExempted e1 ip1 59 in
  let '(c, e3) := AllowExempted e2 ip1 61 in
  let '(d, e4) := AllowExempted e3 ip1 62 in
  (a, b, c, d, fst (AllowExempted e4 ip1 63)) = (true, true, true, true, false).
Proof. vm_compute. reflexivity. Qed.

End limit_witnesses.
