(* ===== verification/UDPRelay.v ===== *)
(** * The UDP relay ([server/udp_relay.go])

    A NAT table of flows, each a connected socket with a read loop.  Flow
    objects are heap cells the table points to: a read loop keeps its flow after
    the table has dropped it.  [Send] dials outside the lock, so it is three
    operations; every other critical section is one. *)

From S2P Require Import Prelude.
From stdpp Require Import base list gmap strings.

#[local] Open Scope Z_scope.

Record flowKey := mkKey { sessionID : Z; streamID : Z }.
#[global] Instance flowKey_eq_dec : EqDecision flowKey.
Proof. solve_decision. Defined.
#[global] Instance flowKey_countable : Countable flowKey.
Proof.
  apply (inj_countable' (λ k, (sessionID k, streamID k)) (λ p, mkKey p.1 p.2)). by intros [].
Defined.

(** The closure [onReceive] is passed: it replies on the stream and with the
    address it was created for. *)
Record callback := mkCb { cb_key : flowKey; cb_addr : bytes }.

Record udpFlow := mkFlow {
  uf_key : flowKey;           (* the key its read loop was started with *)
  uf_remote : bytes;          (* the address the socket is connected to *)
  conn_open : bool;
  reading : bool;             (* its read loop is running *)
  lastActive : Z;
  onReceive : callback;
  respBytes : Z;
}.

Record UDPRelay := mkRelay {
  flows : gmap flowKey nat;
  uf_heap : gmap nat udpFlow;
  timeout : Z;
  maxResp : Z;
  sent : list (bytes * bytes);              (* ghost: datagrams sent, by remote address *)
  delivered : list (nat * callback * bytes);(* ghost: responses handed out, by flow object *)
}.

Definition NewUDPRelay (timeout maxResp : Z) : UDPRelay := mkRelay ∅ ∅ timeout maxResp [] [].

Definition with_flows (r : UDPRelay) (m : gmap flowKey nat) : UDPRelay :=
  mkRelay m (uf_heap r) (timeout r) (maxResp r) (sent r) (delivered r).
Definition with_heap (r : UDPRelay) (h : gmap nat udpFlow) : UDPRelay :=
  mkRelay (flows r) h (timeout r) (maxResp r) (sent r) (delivered r).
Definition log_sent (r : UDPRelay) (remote data : bytes) : UDPRelay :=
  mkRelay (flows r) (uf_heap r) (timeout r) (maxResp r) (sent r ++ [(remote, data)]) (delivered r).
Definition log_delivered (r : UDPRelay) (p : nat) (cb : callback) (data : bytes) : UDPRelay :=
  mkRelay (flows r) (uf_heap r) (timeout r) (maxResp r) (sent r) (delivered r ++ [(p, cb, data)]).

Definition set_active (f : udpFlow) (now : Z) (cb : callback) : udpFlow :=
  mkFlow (uf_key f) (uf_remote f) (conn_open f) (reading f) now cb (respBytes f).
Definition close_conn (f : udpFlow) : udpFlow :=
  mkFlow (uf_key f) (uf_remote f) false (reading f) (lastActive f) (onReceive f) (respBytes f).
Definition start_reading (f : udpFlow) : udpFlow :=
  mkFlow (uf_key f) (uf_remote f) (conn_open f) true (lastActive f) (onReceive f) (respBytes f).
Definition stop_reading (f : udpFlow) : udpFlow :=
  mkFlow (uf_key f) (uf_remote f) false false (lastActive f) (onReceive f) (respBytes f).
Definition count_resp (f : udpFlow) (n now : Z) : udpFlow :=
  mkFlow (uf_key f) (uf_remote f) (conn_open f) (reading f) now (onReceive f) (respBytes f + n).

(** [conn.Write(data)] on a flow that exists: update it and write. *)
Definition reuse_flow (r : UDPRelay) (p : nat) (f : udpFlow) (cb : callback) (data : bytes) (now : Z) : UDPRelay :=
  log_sent (with_heap r (<[p := set_active f now cb]> (uf_heap r))) (uf_remote f) data.

(** ** [Send] *)

(** The first critical section: [None] when a socket has to be dialled. *)
Definition send_existing (r : UDPRelay) (key : flowKey) (cb : callback) (data : bytes) (now : Z) : option UDPRelay :=
  p ← flows r !! key;
  f ← uf_heap r !! p;
  Some (reuse_flow r p f cb data now).

(** [DialUDP] has produced socket [p]; the flow is not in the table yet. *)
Definition send_dial (r : UDPRelay) (key : flowKey) (remote : bytes) (cb : callback) (now : Z) (p : nat) : UDPRelay :=
  with_heap r (<[p := mkFlow key remote true false now cb 0]> (uf_heap r)).

(** The second critical section, and the write. *)
Definition send_install (r : UDPRelay) (p : nat) (cb : callback) (data : bytes) (now : Z) : UDPRelay :=
  match uf_heap r !! p with
  | None => r
  | Some f =>
    match flows r !! uf_key f with
    | Some q =>
      match uf_heap r !! q with
      | Some g => reuse_flow (with_heap r (<[p := close_conn f]> (uf_heap r))) q g cb data now
      | None => r
      end
    | None =>
      log_sent (with_heap (with_flows r (<[uf_key f := p]> (flows r))) (<[p := start_reading f]> (uf_heap r)))
        (uf_remote f) data
    end
  end.

(** [Send] without interleaving. *)
Definition Send (r : UDPRelay) (key : flowKey) (remote : bytes) (data : bytes) (cb : callback) (now : Z) : UDPRelay :=
  match send_existing r key cb data now with
  | Some r' => r'
  | None =>
    let p := fresh (dom (uf_heap r)) in
    send_install (send_dial r key remote cb now p) p cb data now
  end.

(** ** [readLoop] *)

(** A response of [data]: the cap, the callback. *)
Definition read_response (r : UDPRelay) (p : nat) (data : bytes) (now : Z) : UDPRelay :=
  match uf_heap r !! p with
  | Some f =>
    if conn_open f && reading f then
      if (0 <? maxResp r) && (maxResp r <? respBytes f + len data) then r
      else log_delivered (with_heap r (<[p := count_resp f (len data) now]> (uf_heap r))) p (onReceive f) data
    else r
  | None => r
  end.

(** The read fails (timeout, or the socket was closed): take the flow out of the
    table if it is still this one, close the socket, return. *)
Definition read_exit (r : UDPRelay) (p : nat) : UDPRelay :=
  match uf_heap r !! p with
  | Some f =>
    if reading f then
      with_heap (if bool_decide (flows r !! uf_key f = Some p) then with_flows r (delete (uf_key f) (flows r)) else r)
        (<[p := stop_reading f]> (uf_heap r))
    else r
  | None => r
  end.

(** ** Removal *)

(** One turn of the loops over the table: close and drop a flow that satisfies
    [P]. *)
Definition drop_one (P : flowKey → udpFlow → bool) (r : UDPRelay) (kp : flowKey * nat) : UDPRelay :=
  match uf_heap r !! snd kp with
  | Some f =>
    if P (fst kp) f
    then with_heap (with_flows r (delete (fst kp) (flows r))) (<[snd kp := close_conn f]> (uf_heap r))
    else r
  | None => r
  end.

Definition drop_flows (r : UDPRelay) (P : flowKey → udpFlow → bool) : UDPRelay :=
  foldl (drop_one P) r (map_to_list (flows r)).

Definition Cleanup (r : UDPRelay) (now : Z) : UDPRelay :=
  drop_flows r (λ _ f, timeout r <? now - lastActive f).
Definition RemoveFlow (r : UDPRelay) (key : flowKey) : UDPRelay :=
  match flows r !! key with Some p => drop_one (λ _ _, true) r (key, p) | None => r end.
Definition RemoveSession (r : UDPRelay) (sid : Z) : UDPRelay := drop_flows r (λ k _, sessionID k =? sid).
Definition Close (r : UDPRelay) : UDPRelay := drop_flows r (λ _ _, true).

Definition FlowCount (r : UDPRelay) : Z := Z.of_nat (size (flows r)).

(** ** Interleavings *)

Inductive uop :=
| USendFast (key : flowKey) (addr : bytes) (data : bytes) (now : Z)
| USendDial (key : flowKey) (remote addr : bytes) (now : Z) (p : nat)
| USendInstall (p : nat) (addr : bytes) (data : bytes) (now : Z)
| UResponse (p : nat) (data : bytes) (now : Z)
| UExit (p : nat)
| UCleanup (now : Z)
| URemoveFlow (key : flowKey)
| URemoveSession (sid : Z)
| UClose.

(** The callback of a [Send] is made by the session and stream it is for. *)
Definition ustep (r : UDPRelay) (o : uop) : option UDPRelay :=
  match o with
  | USendFast key addr data now => send_existing r key (mkCb key addr) data now
  | USendDial key remote addr now p =>
    match uf_heap r !! p with None => Some (send_dial r key remote (mkCb key addr) now p) | Some _ => None end
  | USendInstall p addr data now =>
    match uf_heap r !! p with
    | Some f => if conn_open f && negb (reading f) then Some (send_install r p (mkCb (uf_key f) addr) data now) else None
    | None => None
    end
  | UResponse p data now => Some (read_response r p data now)
  | UExit p => Some (read_exit r p)
  | UCleanup now => Some (Cleanup r now)
  | URemoveFlow key => Some (RemoveFlow r key)
  | URemoveSession sid => Some (RemoveSession r sid)
  | UClose => Some (Close r)
  end.

Fixpoint urun (r : UDPRelay) (ops : list uop) : option UDPRelay :=
  match ops with
  | [] => Some r
  | o :: ops' => r' ← ustep r o; urun r' ops'
  end.

(** ** Invariant *)

Definition bytes_of (p : nat) (l : list (nat * callback * bytes)) : Z :=
  foldr (λ x acc, if bool_decide (fst (fst x) = p) then len (snd x) + acc else acc) 0 l.

Record relay_inv (r : UDPRelay) : Prop := {
  ui_table k p : flows r !! k = Some p →
    ∃ f, uf_heap r !! p = Some f ∧ uf_key f = k ∧ conn_open f = true ∧ reading f = true;
  ui_live p f : uf_heap r !! p = Some f → conn_open f = true → reading f = true → flows r !! uf_key f = Some p;
  ui_cb p f : uf_heap r !! p = Some f → cb_key (onReceive f) = uf_key f;
  ui_cap p f : uf_heap r !! p = Some f → 0 < maxResp r → respBytes f ≤ maxResp r;
  ui_bytes p f : uf_heap r !! p = Some f → respBytes f = bytes_of p (delivered r);
  ui_delivered p cb d : (p, cb, d) ∈ delivered r → ∃ f, uf_heap r !! p = Some f ∧ cb_key cb = uf_key f;
}.

Lemma relay_inv_new t m : 0 ≤ m → relay_inv (NewUDPRelay t m).
Proof.
  intros Hm. split; cbn; try (intros *; by rewrite lookup_empty). intros p cb d. by rewrite elem_of_nil.
Qed.

(** An update of a flow's bookkeeping keeps the invariant. *)
Lemma relay_inv_upd r p f f' :
  relay_inv r → uf_heap r !! p = Some f →
  uf_key f' = uf_key f → conn_open f' = conn_open f → reading f' = reading f →
  cb_key (onReceive f') = uf_key f → respBytes f' = respBytes f →
  relay_inv (with_heap r (<[p := f']> (uf_heap r))).
Proof.
  intros [H1 H2 H3 H4 H5 H6] Hp Hk Hc Hr Hcb Hb.
  assert (∀ q g, <[p := f']> (uf_heap r) !! q = Some g → ∃ g0, uf_heap r !! q = Some g0
    ∧ uf_key g = uf_key g0 ∧ conn_open g = conn_open g0 ∧ reading g = reading g0
    ∧ cb_key (onReceive g) = uf_key g0 ∧ respBytes g = respBytes g0) as Hback.
  { intros q g. rewrite lookup_insert_Some. intros [[<- <-] | [_ Hq]]; [by exists f | exists g]. by rewrite (H3 q g Hq). }
  assert (∀ q g0, uf_heap r !! q = Some g0 → ∃ g, <[p := f']> (uf_heap r) !! q = Some g
    ∧ uf_key g = uf_key g0 ∧ conn_open g = conn_open g0 ∧ reading g = reading g0) as Hfwd.
  { intros q g0 Hq. destruct (decide (p = q)) as [<- | Hne]; [| exists g0; by rewrite lookup_insert_ne].
    exists f'. rewrite lookup_insert_eq. assert (g0 = f) as -> by congruence. done. }
  split; cbn.
  - intros k q Hq. destruct (H1 k q Hq) as (g0 & Eg & Ek & Ec & Er). destruct (Hfwd q g0 Eg) as (g & E & Ek' & Ec' & Er').
    exists g. split_and!; congruence.
  - intros q g Hq Hco Hre. destruct (Hback q g Hq) as (g0 & E0 & Ek & Ec & Er & _). rewrite Ek. apply H2; congruence.
  - intros q g Hq. destruct (Hback q g Hq) as (g0 & E0 & Ek & _ & _ & Ecb & _). congruence.
  - intros q g Hq Hm. destruct (Hback q g Hq) as (g0 & E0 & _ & _ & _ & _ & Eb). rewrite Eb. by apply (H4 q).
  - intros q g Hq. destruct (Hback q g Hq) as (g0 & E0 & _ & _ & _ & _ & Eb). rewrite Eb. by apply H5.
  - intros q cb d Hin. destruct (H6 q cb d Hin) as (g0 & E0 & Ecb). destruct (Hfwd q g0 E0) as (g & E & Ek & _).
    exists g. split; congruence.
Qed.

(** Taking a flow out of the table and closing its socket. *)
Lemma relay_inv_close r p f f' k :
  relay_inv r → uf_heap r !! p = Some f →
  uf_key f' = uf_key f → conn_open f' = false → onReceive f' = onReceive f → respBytes f' = respBytes f →
  uf_key f = k → (flows r !! k = Some p ∨ conn_open f = false ∨ reading f = false) →
  relay_inv (with_heap (if bool_decide (flows r !! k = Some p) then with_flows r (delete k (flows r)) else r)
               (<[p := f']> (uf_heap r))).
Proof.
  intros [H1 H2 H3 H4 H5 H6] Hp Hk Hc Hcb Hb Hkey Hlive. case_bool_decide as Hin.
  - split; cbn.
    + intros k' q. rewrite lookup_delete_Some. intros [Hne Hq]. destruct (H1 k' q Hq) as (g & Eg & Ek & Ec & Er).
      exists g. rewrite lookup_insert_ne; [done |]. intros <-. congruence.
    + intros q g. rewrite lookup_insert_Some. intros [[<- <-] | [Hne Hq]]; [congruence |]. intros Hco Hre.
      rewrite lookup_delete_ne; [by apply H2 |]. intros Heq. pose proof (H2 q g Hq Hco Hre) as Hq'. congruence.
    + intros q g. rewrite lookup_insert_Some. intros [[<- <-] | [_ Hq]]; [rewrite Hcb, Hk; by apply (H3 p) | by apply (H3 q)].
    + intros q g. rewrite lookup_insert_Some. intros [[<- <-] | [_ Hq]] Hm; [rewrite Hb; by apply (H4 p) | by apply (H4 q)].
    + intros q g. rewrite lookup_insert_Some. intros [[<- <-] | [_ Hq]]; [rewrite Hb; by apply H5 | by apply H5].
    + intros q cb d Hd. destruct (H6 q cb d Hd) as (g & Eg & Ecb). destruct (decide (p = q)) as [<- | Hne].
      * exists f'. rewrite lookup_insert_eq. split; congruence.
      * exists g. by rewrite lookup_insert_ne.
  - destruct Hlive as [? | Hdead]; [done |].
    split; cbn.
    + intros k' q Hq. destruct (H1 k' q Hq) as (g & Eg & Ek & Ec & Er). exists g.
      rewrite lookup_insert_ne; [done |]. intros <-. congruence.
    + intros q g. rewrite lookup_insert_Some. intros [[<- <-] | [Hne Hq]]; [congruence |]. by apply H2.
    + intros q g. rewrite lookup_insert_Some. intros [[<- <-] | [_ Hq]]; [rewrite Hcb, Hk; by apply (H3 p) | by apply (H3 q)].
    + intros q g. rewrite lookup_insert_Some. intros [[<- <-] | [_ Hq]] Hm; [rewrite Hb; by apply (H4 p) | by apply (H4 q)].
    + intros q g. rewrite lookup_insert_Some. intros [[<- <-] | [_ Hq]]; [rewrite Hb; by apply H5 | by apply H5].
    + intros q cb d Hd. destruct (H6 q cb d Hd) as (g & Eg & Ecb). destruct (decide (p = q)) as [<- | Hne].
      * exists f'. rewrite lookup_insert_eq. split; congruence.
      * exists g. by rewrite lookup_insert_ne.
Qed.

Lemma relay_inv_sent r a d : relay_inv r → relay_inv (log_sent r a d).
Proof. intros []. by split. Qed.

Lemma bytes_of_app p l x :
  bytes_of p (l ++ [x]) = bytes_of p l + (if bool_decide (fst (fst x) = p) then len (snd x) else 0).
Proof.
  unfold bytes_of in *. induction l as [| y l IH]; cbn; [case_bool_decide; lia |]. rewrite IH. repeat case_bool_decide; lia.
Qed.

Lemma bytes_of_absent p l : (∀ cb d, (p, cb, d) ∉ l) → bytes_of p l = 0.
Proof.
  induction l as [| [[q cb] d] l IH]; intros H; [done |]. unfold bytes_of. cbn. rewrite bool_decide_eq_false_2.
  - apply IH. intros cb' d' Hin. apply (H cb' d'). by constructor.
  - intros ->. apply (H cb d). constructor.
Qed.

#[local] Arguments bytes_of : simpl never.

Lemma reuse_flow_inv r p f cb data now :
  relay_inv r → uf_heap r !! p = Some f → cb_key cb = uf_key f → relay_inv (reuse_flow r p f cb data now).
Proof. intros Hi Hp Hcb. apply relay_inv_sent. by eapply relay_inv_upd. Qed.

Lemma send_dial_inv r key remote cb now p :
  relay_inv r → uf_heap r !! p = None → cb_key cb = key → relay_inv (send_dial r key remote cb now p).
Proof.
  intros [H1 H2 H3 H4 H5 H6] Hp Hcb. split; cbn.
  - intros k q Hq. destruct (H1 k q Hq) as (g & Eg & Hg). exists g. rewrite lookup_insert_ne; [done | congruence].
  - intros q g. rewrite lookup_insert_Some. intros [[<- <-] | [_ Hq]]; [done | by apply H2].
  - intros q g. rewrite lookup_insert_Some. intros [[<- <-] | [_ Hq]]; [done | by apply (H3 q)].
  - intros q g. rewrite lookup_insert_Some. intros [[<- <-] | [_ Hq]] Hm; [cbn; lia | by apply (H4 q)].
  - intros q g. rewrite lookup_insert_Some. intros [[<- <-] | [_ Hq]]; [| by apply H5]. cbn. symmetry.
    apply bytes_of_absent. intros cb' d Hin. destruct (H6 _ _ _ Hin) as (g & Eg & _). congruence.
  - intros q cb' d Hd. destruct (H6 q cb' d Hd) as (g & Eg & Ecb). exists g. rewrite lookup_insert_ne; [done | congruence].
Qed.

Lemma send_install_inv r p f addr data now :
  relay_inv r → uf_heap r !! p = Some f → conn_open f = true → reading f = false →
  relay_inv (send_install r p (mkCb (uf_key f) addr) data now).
Proof.
  intros Hi Hp Hc Hr. unfold send_install. rewrite Hp. destruct (flows r !! uf_key f) as [q |] eqn:Eq.
  - destruct (ui_table r Hi _ _ Eq) as (g & Eg & Ek & Eo & Er). rewrite Eg.
    assert (p ≠ q) as Hne by congruence.
    apply reuse_flow_inv; [| cbn; by rewrite lookup_insert_ne | done].
    pose proof (relay_inv_close r p f (close_conn f) (uf_key f) Hi Hp eq_refl eq_refl eq_refl eq_refl eq_refl) as H.
    rewrite bool_decide_eq_false_2 in H by congruence. apply H. auto.
  - apply relay_inv_sent. destruct Hi as [H1 H2 H3 H4 H5 H6]. split; cbn.
    + intros k q. rewrite lookup_insert_Some. intros [[<- <-] | [Hk Hq]].
      * exists (start_reading f). by rewrite lookup_insert_eq.
      * destruct (H1 k q Hq) as (g & Eg & Ek & Eo & Er). exists g. rewrite lookup_insert_ne; [done | congruence].
    + intros q g. rewrite lookup_insert_Some. intros [[<- <-] | [Hne Hq]]; [cbn; by rewrite lookup_insert_eq |].
      intros Ho Hre. pose proof (H2 q g Hq Ho Hre). rewrite lookup_insert_ne; congruence.
    + intros q g. rewrite lookup_insert_Some. intros [[<- <-] | [_ Hq]]; [exact (H3 p f Hp) | by apply (H3 q)].
    + intros q g. rewrite lookup_insert_Some. intros [[<- <-] | [_ Hq]] Hm; [exact (H4 p f Hp Hm) | by apply (H4 q)].
    + intros q g. rewrite lookup_insert_Some. intros [[<- <-] | [_ Hq]]; [exact (H5 p f Hp) | by apply H5].
    + intros q cb' d Hd. destruct (H6 q cb' d Hd) as (g & Eg & Ecb). destruct (decide (p = q)) as [<- | Hne].
      * exists (start_reading f). rewrite lookup_insert_eq. split; [done |]. cbn. congruence.
      * exists g. by rewrite lookup_insert_ne.
Qed.

Lemma read_response_inv r p data now : relay_inv r → relay_inv (read_response r p data now).
Proof.
  intros Hi. unfold read_response. destruct (uf_heap r !! p) as [f |] eqn:Hp; [| done].
  destruct (conn_open f && reading f) eqn:Eb; [| done]. apply andb_prop in Eb as [Ho Hr].
  destruct ((0 <? maxResp r) && (maxResp r <? respBytes f + len data)) eqn:Ecap; [done |].
  destruct Hi as [H1 H2 H3 H4 H5 H6]. split; cbn.
  - intros k q Hq. destruct (H1 k q Hq) as (g & Eg & Ek & Eo & Er). destruct (decide (p = q)) as [<- | Hne].
    + exists (count_resp f (len data) now). rewrite lookup_insert_eq. split_and!; try done. cbn. congruence.
    + exists g. by rewrite lookup_insert_ne.
  - intros q g. rewrite lookup_insert_Some. intros [[<- <-] | [_ Hq]]; [exact (H2 p f Hp) | by apply H2].
  - intros q g. rewrite lookup_insert_Some. intros [[<- <-] | [_ Hq]]; [exact (H3 p f Hp) | by apply (H3 q)].
  - intros q g. rewrite lookup_insert_Some. intros [[<- <-] | [_ Hq]] Hm; [| by apply (H4 q)]. cbn.
    apply andb_false_iff in Ecap as [E | E]; [apply Z.ltb_ge in E; lia | by apply Z.ltb_ge in E].
  - intros q g. rewrite lookup_insert_Some. intros [[<- <-] | [Hne Hq]]; rewrite bytes_of_app; cbn.
    + rewrite bool_decide_eq_true_2 by done. by rewrite (H5 p f Hp).
    + rewrite bool_decide_eq_false_2 by done. rewrite (H5 q g Hq). lia.
  - intros q cb d. rewrite elem_of_app, list_elem_of_singleton. intros [Hd | [= -> -> ->]].
    + destruct (H6 q cb d Hd) as (g & Eg & Ecb). destruct (decide (p = q)) as [<- | Hne].
      * exists (count_resp f (len data) now). rewrite lookup_insert_eq. split; [done |]. cbn. congruence.
      * exists g. by rewrite lookup_insert_ne.
    + exists (count_resp f (len data) now). rewrite lookup_insert_eq. split; [done |]. cbn. by apply (H3 p).
Qed.

Lemma read_exit_inv r p : relay_inv r → relay_inv (read_exit r p).
Proof.
  intros Hi. unfold read_exit. destruct (uf_heap r !! p) as [f |] eqn:Hp; [| done].
  destruct (reading f) eqn:Er; [| done].
  assert (flows r !! uf_key f = Some p ∨ conn_open f = false ∨ reading f = false) as Hl.
  { destruct (conn_open f) eqn:Eo; [left; by apply (ui_live r Hi) | auto]. }
  by apply (relay_inv_close r p f (stop_reading f) (uf_key f) Hi Hp).
Qed.

Lemma drop_one_inv P r k p : relay_inv r → flows r !! k = Some p → relay_inv (drop_one P r (k, p)).
Proof.
  intros Hi Hk. destruct (ui_table r Hi k p Hk) as (f & Hp & Ek & _). unfold drop_one. cbn. rewrite Hp.
  destruct (P k f); [| done].
  pose proof (relay_inv_close r p f (close_conn f) k Hi Hp eq_refl eq_refl eq_refl eq_refl Ek (or_introl Hk)) as H.
  by rewrite bool_decide_eq_true_2 in H.
Qed.

(** What remains in the table after a sweep. *)
Lemma drop_all_spec P l r :
  relay_inv r → NoDup l.*1 → (∀ k p, (k, p) ∈ l → flows r !! k = Some p) →
  let r' := foldl (drop_one P) r l in
  relay_inv r'
  ∧ ∀ k, flows r' !! k = match flows r !! k with
      | Some p => if bool_decide ((k, p) ∈ l) && (match uf_heap r !! p with Some f => P k f | None => false end)
                  then None else Some p
      | None => None
      end.
Proof.
  revert r. induction l as [| [k0 p0] l IH]; intros r Hi Hn Hl; cbn [foldl].
  - split; [done |]. intros k. destruct (flows r !! k) as [p |]; [| done].
    rewrite bool_decide_eq_false_2; [done |]. by intros ?%elem_of_nil.
  - cbn in Hn. apply NoDup_cons in Hn as [Hk0 Hn].
    assert (flows r !! k0 = Some p0) as Hf0 by (apply Hl; constructor).
    pose proof (drop_one_inv P r k0 p0 Hi Hf0) as Hi1. set (r1 := drop_one P r (k0, p0)) in *.
    destruct (ui_table r Hi k0 p0 Hf0) as (f0 & Hp0 & Ek0 & _).
    assert (∀ k, k ≠ k0 → flows r1 !! k = flows r !! k) as Hother.
    { intros k Hk. unfold r1, drop_one. cbn. rewrite Hp0. destruct (P k0 f0); [| done]. cbn. by rewrite lookup_delete_ne. }
    assert (∀ k p, k ≠ k0 → flows r !! k = Some p → uf_heap r1 !! p = uf_heap r !! p) as Hheap.
    { intros k p Hk Hp. unfold r1, drop_one. cbn. rewrite Hp0. destruct (P k0 f0); [| done]. cbn.
      rewrite lookup_insert_ne; [done |]. intros <-. destruct (ui_table r Hi k p0 Hp) as (g & Eg & Eg' & _). congruence. }
    assert (flows r1 !! k0 = if P k0 f0 then None else Some p0) as Hf1.
    { unfold r1, drop_one. cbn. rewrite Hp0. destruct (P k0 f0); cbn; [by rewrite lookup_delete_eq | done]. }
    destruct (IH r1 Hi1 Hn) as [Hi2 Hspec].
    { intros k p Hin. rewrite Hother; [apply Hl; by constructor |]. intros ->. apply Hk0.
      apply list_elem_of_fmap. by exists (k0, p). }
    split; [done |]. intros k. rewrite Hspec. destruct (decide (k = k0)) as [-> | Hne].
    + rewrite Hf1, Hf0, Hp0. rewrite (bool_decide_eq_true_2 ((k0, p0) ∈ (k0, p0) :: l)) by constructor. cbn [andb].
      destruct (P k0 f0); [done |]. rewrite bool_decide_eq_false_2; [done |]. intros Hin. apply Hk0.
      apply list_elem_of_fmap. by exists (k0, p0).
    + rewrite Hother by done. destruct (flows r !! k) as [p |] eqn:Ek; [| done]. rewrite (Hheap k p Hne Ek).
      assert (bool_decide ((k, p) ∈ (k0, p0) :: l) = bool_decide ((k, p) ∈ l)) as ->; [| done].
      apply bool_decide_ext. rewrite elem_of_cons. split; [intros [[= -> ->] | ?]; done | auto].
Qed.

Lemma drop_flows_spec P r :
  relay_inv r →
  relay_inv (drop_flows r P)
  ∧ ∀ k, flows (drop_flows r P) !! k = match flows r !! k with
      | Some p => if match uf_heap r !! p with Some f => P k f | None => false end then None else Some p
      | None => None
      end.
Proof.
  intros Hi. destruct (drop_all_spec P (map_to_list (flows r)) r Hi) as [H1 H2].
  - apply NoDup_fst_map_to_list.
  - intros k p. by rewrite elem_of_map_to_list.
  - split; [done |]. intros k. fold (drop_flows r P) in H2. rewrite H2. destruct (flows r !! k) as [p |] eqn:E; [| done].
    by rewrite bool_decide_eq_true_2 by (by apply elem_of_map_to_list).
Qed.

Lemma ustep_inv r o r' : relay_inv r → ustep r o = Some r' → relay_inv r'.
Proof.
  intros Hi E. destruct o; cbn [ustep] in E.
  - unfold send_existing in E. destruct (flows r !! key) as [p |] eqn:Ek; [| done]. cbn in E.
    destruct (ui_table r Hi key p Ek) as (f & Hp & Hk & _). rewrite Hp in E. injection E as <-.
    by apply reuse_flow_inv.
  - destruct (uf_heap r !! p) eqn:Hp; [done |]. injection E as <-. by apply send_dial_inv.
  - destruct (uf_heap r !! p) as [f |] eqn:Hp; [| done]. destruct (conn_open f && negb (reading f)) eqn:Eb; [| done].
    apply andb_prop in Eb as [Ho Hr]. apply negb_true_iff in Hr. injection E as <-. by apply send_install_inv.
  - injection E as <-. by apply read_response_inv.
  - injection E as <-. by apply read_exit_inv.
  - injection E as <-. by apply drop_flows_spec.
  - injection E as <-. unfold RemoveFlow. destruct (flows r !! key) eqn:Ek; [by apply drop_one_inv | done].
  - injection E as <-. by apply drop_flows_spec.
  - injection E as <-. by apply drop_flows_spec.
Qed.

Lemma urun_inv r ops r' : relay_inv r → urun r ops = Some r' → relay_inv r'.
Proof.
  revert r. induction ops as [| o ops IH]; intros r Hi E; cbn in E; [by injection E as <- |].
  destruct (ustep r o) as [r1 |] eqn:Es; [| done]. eapply IH; [| exact E]. by eapply ustep_inv.
Qed.

(** The UDP relay isolates its flows.  In every interleaving of sends,
    concurrent dials, responses, read-loop exits, sweeps and teardowns: a
    response is only handed to a callback of the session and stream whose flow
    received it; a flow never delivers more than the response cap; and the table
    holds exactly the flows whose socket is open and whose read loop runs, so no
    dead flow is reused and no live socket is forgotten. *)
Theorem udp_flows_isolated t m ops r :
  0 ≤ m → urun (NewUDPRelay t m) ops = Some r →
  (∀ p cb d, (p, cb, d) ∈ delivered r → ∃ f, uf_heap r !! p = Some f ∧ cb_key cb = uf_key f)
  ∧ (0 < maxResp r → ∀ p f, uf_heap r !! p = Some f → bytes_of p (delivered r) ≤ maxResp r)
  ∧ (∀ k p, flows r !! k = Some p ↔
       ∃ f, uf_heap r !! p = Some f ∧ uf_key f = k ∧ conn_open f = true ∧ reading f = true).
Proof.
  intros Hm E. pose proof (urun_inv _ _ _ (relay_inv_new t m Hm) E) as [H1 H2 H3 H4 H5 H6].
  split_and!; [done | | ].
  - intros Hr p f Hp. rewrite <- (H5 p f Hp). by apply (H4 p f).
  - intros k p. split; [apply H1 |]. intros (f & Hp & <- & Ho & Hr). by apply H2.
Qed.

(** Tearing a session down removes all its flows and no other's. *)
Theorem udp_session_teardown t m ops r sid k :
  0 ≤ m → urun (NewUDPRelay t m) ops = Some r →
  flows (RemoveSession r sid) !! k = if sessionID k =? sid then None else flows r !! k.
Proof.
  intros Hm E. pose proof (urun_inv _ _ _ (relay_inv_new t m Hm) E) as Hi.
  unfold RemoveSession. destruct (drop_flows_spec (λ k _, sessionID k =? sid) r Hi) as [_ ->].
  destruct (flows r !! k) as [p |] eqn:Ek; [| by destruct (_ =? _)].
  destruct (ui_table r Hi k p Ek) as (f & -> & _). done.
Qed.

(** A second destination on the same stream is sent to the first. *)
Theorem second_target_ignored r k a b da db now :
  flows r !! k = None →
  sent (Send (Send r k a da (mkCb k a) now) k b db (mkCb k b) now) = sent r ++ [(a, da); (a, db)].
Proof.
  intros Hk. unfold Send at 2. unfold send_existing. rewrite Hk. cbn [mbind option_bind].
  set (p := fresh _). set (r1 := send_install _ p _ _ _).
  assert (r1 = log_sent (with_heap (with_flows r (<[k := p]> (flows r)))
    (<[p := start_reading (mkFlow k a true false now (mkCb k a) 0)]> (<[p := mkFlow k a true false now (mkCb k a) 0]> (uf_heap r)))) a da) as ->.
  { subst r1. unfold send_install. cbn. rewrite lookup_insert_eq. cbn. by rewrite Hk. }
  unfold Send, send_existing. cbn. rewrite lookup_insert_eq. cbn. rewrite lookup_insert_eq. cbn. by rewrite <- app_assoc.
Qed.

(** ** Witnesses *)

Definition k1 : flowKey := mkKey 1 5.
Definition k2 : flowKey := mkKey 2 5.
Definition demo_ops : list uop :=
  [USendDial k1 [8] [8] 1 0; USendDial k1 [9] [9] 1 1; USendInstall 0 [8] [1] 2; USendInstall 1 [9] [2] 3;
   USendDial k2 [7] [7] 3 2; USendInstall 2 [7] [3] 4; UResponse 0 [10; 11] 5; UResponse 2 [12] 6; UResponse 0 [13] 7].
Definition demo_relay : UDPRelay := default (NewUDPRelay 0 0) (urun (NewUDPRelay 100 2) demo_ops).

Lemma udp_flows_isolated_witness :
  delivered demo_relay = [(0%nat, mkCb k1 [9], [10; 11]); (2%nat, mkCb k2 [7], [12])]
  ∧ (∀ p cb d, (p, cb, d) ∈ delivered demo_relay → ∃ f, uf_heap demo_relay !! p = Some f ∧ cb_key cb = uf_key f)
  ∧ (0 < maxResp demo_relay → ∀ p f, uf_heap demo_relay !! p = Some f → bytes_of p (delivered demo_relay) ≤ maxResp demo_relay)
  ∧ (∀ k p, flows demo_relay !! k = Some p ↔
       ∃ f, uf_heap demo_relay !! p = Some f ∧ uf_key f = k ∧ conn_open f = true ∧ reading f = true).
Proof.
  split; [vm_compute; reflexivity |].
  apply (udp_flows_isolated 100 2 demo_ops demo_relay); [discriminate | vm_compute; reflexivity].
Defined.

Lemma udp_session_teardown_witness :
  flows (RemoveSession demo_relay 1) !! k1 = None ∧ flows (RemoveSession demo_relay 1) !! k2 = Some 2%nat.
Proof.
  split.
  - apply (udp_session_teardown 100 2 demo_ops demo_relay 1 k1); [discriminate | vm_compute; reflexivity].
  - apply (udp_session_teardown 100 2 demo_ops demo_relay 1 k2); [discriminate | vm_compute; reflexivity].
Defined.
