(* ===== verification/Attach.v ===== *)
(** * Attaching a WebSocket to a session ([findSessionByHint],
      [verifySessionToken] of [server/handler.go], [authenticateFirstFrame] and
      the release in [handleWebSocket] of [server/websocket.go],
      [EncodeTokenWithHint] of [skins/browser/request.go])

    The first binary frame names a session by a masked id and its sealed token
    and carries an encrypted keepalive.  Success takes the tunnel's attach
    latch, which the session's end gives back. *)

From S2P Require Import Prelude.
From S2P Require Import Primitives.
From S2P Require Import BufPool.
From S2P Require Import Chunk.
From S2P Require Import ReplayWindow.
From S2P Require Import Session.
From S2P Require Import SessionManager.
From S2P Require Import Handshake.
From S2P Require Import Credit.
From stdpp Require Import base list gmap strings.

#[local] Open Scope Z_scope.

Record Tunnel := mkTunnel { tn_ClientID : bytes; WSAttached : bool }.

Record hub := mkHub {
  hb_sessions : SessionManager;
  hb_tunnels : gmap Z Tunnel;
  hb_pools : bufPools;
  flowMaxWindow : Z;
  migrationEnabled : bool;
}.

Definition with_sm (h : hub) (sm : SessionManager) : hub :=
  mkHub sm (hb_tunnels h) (hb_pools h) (flowMaxWindow h) (migrationEnabled h).
Definition with_tunnels (h : hub) (t : gmap Z Tunnel) : hub :=
  mkHub (hb_sessions h) t (hb_pools h) (flowMaxWindow h) (migrationEnabled h).
Definition with_pools (h : hub) (p : bufPools) : hub :=
  mkHub (hb_sessions h) (hb_tunnels h) p (flowMaxWindow h) (migrationEnabled h).

(** A method of session [p] has left it in state [s]. *)
Definition store (h : hub) (p : nat) (s : Session) : hub :=
  let sm := hb_sessions h in with_sm h (set_maps sm (<[p := s]> (sm_heap sm)) (sm_sessions sm)).

Section attach.
Context {HA : AEAD}.

Definition sessionTokenSize : Z := 4 + (12 + 4 + 16).

Definition EncodeTokenWithHint (sessionID : Z) (token : bytes) : bytes :=
  if len token <? 4 then token
  else be_bytes 4 (Z.lxor sessionID (be_value (take 4 token))) ++ token.

Definition verifySessionToken (token : bytes) (expectedID : Z) (key : bytes) : bool :=
  match newGCM key with
  | Ret gcm =>
    if len token <? 12 + 4 + 16 then false else
    match aead_open gcm (take 12 token) (drop 12 token) [] with
    | None => false
    | Some plaintext => if len plaintext <? 4 then false else be_value (take 4 plaintext) =? expectedID
    end
  | _ => false
  end.

Definition findSessionByHint (sm : SessionManager) (tokenBytes : bytes) : option nat :=
  if len tokenBytes <? 20 then None else
  let hint := take 4 tokenBytes in
  let token := drop 4 tokenBytes in
  if len token <? 4 then None else
  let sid := Z.lxor (be_value hint) (be_value (take 4 token)) in
  match Get sm sid with
  | None => None
  | Some p =>
    match sm_heap sm !! p with
    | None => None
    | Some s => let '(_, rk) := Keys s in if verifySessionToken token (ID s) rk then Some p else None
    end
  end.

(** The FLOWCTL acknowledgement: the window in force and whether migration is,
    [ackOK] telling whether the write reached the socket. *)
Definition flow_ack (h : hub) (p : nat) (s : Session) (payload : bytes) (ackOK : bool)
  : outcome (Z * bool * hub) :=
  '(cw, migrateAdvertised, okFlow) ← ParseFlowCtlMarkerV2 payload;
  if negb okFlow then Ret (0, false, h) else
  let w := negotiateFlowWindow cw (flowMaxWindow h) in
  if negb (0 <? w) then Ret (w, false, h) else
  let negotiated := negotiateMigration (migrationEnabled h) migrateAdvertised in
  marker ← BuildFlowCtlMarkerV2 w negotiated;
  let '(seq, s1) := NextSeqNum s in
  match EncryptChunk (hb_pools h) s1 (mkChunk (ID s) seq FlagAck marker) None with
  | Ret (_, pools', s2) =>
    Ret (if ackOK then w else 0, ackOK && negotiated, with_pools (store h p s2) pools')
  | Err _ => Ret (0, false, store h p s1)
  | Panic => Panic
  end.

Definition set_latch (h : hub) (id : Z) (a : bool) : hub :=
  with_tunnels h (alter (λ t, mkTunnel (tn_ClientID t) a) id (hb_tunnels h)).

(** [msg]: the binary message read before the deadline, if there is one. *)
Definition authenticateFirstFrame (h : hub) (msg : option bytes) (now : Z) (ackOK : bool)
  : outcome (option (nat * Z * bool) * hub) :=
  match msg with
  | None => Ret (None, h)
  | Some data =>
    if len data <? sessionTokenSize + MinChunk then Ret (None, h) else
    match findSessionByHint (hb_sessions h) (take 36 data) with
    | None => Ret (None, h)
    | Some p =>
      match sm_heap (hb_sessions h) !! p with
      | None => Panic
      | Some s =>
        match DecryptChunkSafe s (drop 36 data) now with
        | Panic => Panic
        | Err _ => Ret (None, h)
        | Ret (chunk, s1) =>
          let '(fresh, s2) := SessionAcceptSeqNum s1 (SeqNum chunk) now in
          let h1 := store h p s2 in
          if negb fresh then Ret (None, h1) else
          if negb (Flags chunk =? FlagKeepalive) then Ret (None, h1) else
          match hb_tunnels h1 !! ID s with
          | None => Ret (None, h1)
          | Some tunnel =>
            if WSAttached tunnel then Ret (None, h1) else
            let h2 := set_latch h1 (ID s) true in
            let '(ok, sm3) := ReattachClearDetached (hb_sessions h2) (ID s) in
            if negb ok then Ret (None, set_latch h2 (ID s) false) else
            let h3 := with_sm h2 sm3 in
            match sm_heap sm3 !! p with
            | None => Panic
            | Some s3 =>
              '(w, m, h4) ← flow_ack h3 p s3 (Payload chunk) ackOK;
              match sm_heap (hb_sessions h4) !! p with
              | None => Panic
              | Some s4 => Ret (Some (p, w, m), store h4 p (set_attach s4 now (DetachedAt s4)))
              end
            end
          end
        end
      end
    end
  end.

(** What [handleWebSocket] defers: the latch, if the tunnel still exists, and the
    detach stamp. *)
Definition release (h : hub) (p : nat) (now : Z) : hub :=
  match sm_heap (hb_sessions h) !! p with
  | None => h
  | Some s => store (set_latch h (ID s) false) p (set_attach s (AttachedAt s) now)
  end.

(** ** What an attempt does *)

(** The id map and the objects agree. *)
Definition registry_ok (sm : SessionManager) : Prop :=
  ∀ id p, sm_sessions sm !! id = Some p → ∃ s, sm_heap sm !! p = Some s ∧ ID s = id.

(** Only the contents of session objects differ, never their ids. *)
Record same_ids (sm sm' : SessionManager) : Prop := {
  sid_map : sm_sessions sm' = sm_sessions sm;
  sid_heap p s : sm_heap sm !! p = Some s → ∃ s', sm_heap sm' !! p = Some s' ∧ ID s' = ID s;
}.

#[local] Instance same_ids_pre : PreOrder same_ids.
Proof.
  split.
  - intros sm. split; [done |]. eauto.
  - intros a b c [M1 H1] [M2 H2]. split; [congruence |]. intros p s Hp.
    destruct (H1 p s Hp) as (s1 & E1 & I1). destruct (H2 p s1 E1) as (s2 & E2 & I2). exists s2. split; [done | congruence].
Qed.

Lemma same_ids_registry sm sm' : same_ids sm sm' → registry_ok sm → registry_ok sm'.
Proof.
  intros [M H] Hr id p Hp. rewrite M in Hp. destruct (Hr id p Hp) as (s & Es & <-). apply (H p s Es).
Qed.

Lemma store_ids h p s s' :
  sm_heap (hb_sessions h) !! p = Some s → ID s' = ID s → same_ids (hb_sessions h) (hb_sessions (store h p s')).
Proof.
  intros Hp Hi. split; [done |]. intros q sq Hq. cbn. destruct (decide (p = q)) as [<- | Hne].
  - rewrite lookup_insert_eq. exists s'. split; [done | congruence].
  - rewrite lookup_insert_ne by done. eauto.
Qed.

Lemma set_detached_ids sm p d : same_ids sm (set_detached sm p d).
Proof.
  split; [done |]. intros q s Hq. cbn. destruct (decide (p = q)) as [<- | Hne].
  - rewrite lookup_alter_eq, Hq. by eexists.
  - rewrite lookup_alter_ne by done. eauto.
Qed.

Lemma EncryptChunk_ID pools s c rnd enc pools' s' : 
  EncryptChunk pools s c rnd = Ret (enc, pools', s') → ID s' = ID s ∧ DetachedAt s' = DetachedAt s.
Proof.
  unfold EncryptChunk. destruct (destroyed s); [done |]. destruct (sendEpochPtr s).
  - destruct (epoch_fetch_add _ _) as [[[g k] eps] |]; [| done]. destruct (EncryptWith _ _ _ _) as [[o q] | |]; try done.
    injection 1. by intros <- _ _.
  - destruct (Encrypt _ _ _); try done. by intros [= _ _ <-].
Qed.

Lemma flow_ack_ids h p s payload ackOK w m h' :
  sm_heap (hb_sessions h) !! p = Some s → flow_ack h p s payload ackOK = Ret (w, m, h') →
  same_ids (hb_sessions h) (hb_sessions h') ∧ hb_tunnels h' = hb_tunnels h
  ∧ ∀ s', sm_heap (hb_sessions h') !! p = Some s' → DetachedAt s' = DetachedAt s.
Proof.
  intros Hp E. unfold flow_ack in E.
  assert (same_ids (hb_sessions h) (hb_sessions h) ∧ hb_tunnels h = hb_tunnels h
    ∧ ∀ s', sm_heap (hb_sessions h) !! p = Some s' → DetachedAt s' = DetachedAt s) as Hsame.
  { split; [reflexivity |]. split; [done |]. intros s' Hs'. congruence. } destruct (ParseFlowCtlMarkerV2 payload) as [[[cw ma] ok] | |]; try done.
  cbn [mbind outcome_bind] in E. destruct ok; cbn [negb] in E; [| by injection E as <- <- <-].
  destruct (0 <? _); cbn [negb] in E; [| by injection E as <- <- <-].
  destruct (BuildFlowCtlMarkerV2 _ _) as [mk | |]; try done. cbn [mbind outcome_bind NextSeqNum] in E.
  destruct (EncryptChunk _ _ _ _) as [[[enc pools'] s2] | |] eqn:En; try done; injection E as <- <- <-; split.
  - apply EncryptChunk_ID in En as [En _]. by eapply store_ids.
  - split; [done |]. cbn. rewrite lookup_insert_eq. intros s' [= <-]. by apply EncryptChunk_ID in En as [_ En].
  - by eapply store_ids.
  - split; [done |]. cbn. rewrite lookup_insert_eq. by intros s' [= <-].
Qed.

Lemma flow_ack_bounds h p s payload ackOK w m h' :
  0 ≤ flowMaxWindow h → flow_ack h p s payload ackOK = Ret (w, m, h') →
  w ≤ flowMaxWindow h ∧ (m = true → migrationEnabled h = true ∧ 0 < w ∧ ackOK = true).
Proof.
  intros H0 E. unfold flow_ack in E. destruct (ParseFlowCtlMarkerV2 payload) as [[[cw ma] ok] | |]; try done.
  cbn [mbind outcome_bind] in E. destruct ok; cbn [negb] in E; [| injection E as <- <- <-; by split].
  assert (negotiateFlowWindow cw (flowMaxWindow h) ≤ flowMaxWindow h) as Hw.
  { unfold negotiateFlowWindow. destruct (cw =? 0); [done |]. destruct (Z.ltb_spec (flowMaxWindow h) cw); lia. }
  destruct (Z.ltb_spec 0 (negotiateFlowWindow cw (flowMaxWindow h))) as [Hp | Hp]; cbn [negb] in E;
    [| injection E as <- <- <-; by split].
  destruct (BuildFlowCtlMarkerV2 _ _) as [mk | |]; try done. cbn [mbind outcome_bind NextSeqNum] in E.
  destruct (EncryptChunk _ _ _ _) as [[[enc pools'] s2] | |] eqn:En; try done; injection E as <- <- <-; [| by split].
  destruct ackOK; cbn; [| by split]. split; [done |]. unfold negotiateMigration.
  intros Hm. apply andb_prop in Hm as [? _]. auto.
Qed.

(** What a successful attempt has established about the frame. *)
Record attach_evidence (h : hub) (data : bytes) (now : Z) (p : nat) (s : Session) (t : Tunnel) : Prop := {
  ae_len : sessionTokenSize + MinChunk ≤ len data;
  ae_session : sm_heap (hb_sessions h) !! p = Some s ∧ sm_sessions (hb_sessions h) !! ID s = Some p;
  ae_token : verifySessionToken (drop 4 (take 36 data)) (ID s) (RecvKey s) = true;
  ae_chunk : ∃ c s1, DecryptChunkSafe s (drop 36 data) now = Ret (c, s1) ∧ Flags c = FlagKeepalive
               ∧ fst (AcceptSeqNum (recvWindow s) (SeqNum c)) = true;
  ae_tunnel : hb_tunnels h !! ID s = Some t ∧ WSAttached t = false;
}.

Lemma findSessionByHint_sound sm tok p :
  registry_ok sm → findSessionByHint sm tok = Some p →
  ∃ s, sm_heap sm !! p = Some s ∧ sm_sessions sm !! ID s = Some p
    ∧ verifySessionToken (drop 4 tok) (ID s) (RecvKey s) = true.
Proof.
  intros Hr. unfold findSessionByHint. destruct (len tok <? 20); [done |]. destruct (len (drop 4 tok) <? 4); [done |].
  destruct (Get sm _) as [q |] eqn:Eg; [| done]. unfold Get in Eg. destruct (Hr _ _ Eg) as (s & Es & Hid). rewrite Es.
  cbn. destruct (verifySessionToken _ _ _) eqn:Ev; [| done]. intros [= <-]. exists s. rewrite Hid in Ev |- *. by split_and!.
Qed.

Lemma authenticate_cases h msg now ackOK res h' :
  registry_ok (hb_sessions h) → authenticateFirstFrame h msg now ackOK = Ret (res, h') →
  same_ids (hb_sessions h) (hb_sessions h')
  ∧ match res with
    | None => hb_tunnels h' = hb_tunnels h
    | Some (p, w, m) =>
      ∃ data s t, msg = Some data ∧ attach_evidence h data now p s t
        ∧ hb_tunnels h' = <[ID s := mkTunnel (tn_ClientID t) true]> (hb_tunnels h)
        ∧ (0 ≤ flowMaxWindow h → w ≤ flowMaxWindow h ∧ (m = true → migrationEnabled h = true ∧ 0 < w ∧ ackOK = true))
        ∧ ∃ s', sm_heap (hb_sessions h') !! p = Some s' ∧ AttachedAt s' = now ∧ DetachedAt s' = 0
    end.
Proof.
  intros Hr E. unfold authenticateFirstFrame in E. destruct msg as [data |]; [| by injection E as <- <-].
  destruct (Z.ltb_spec (len data) (sessionTokenSize + MinChunk)) as [| Hlen]; [by injection E as <- <- |].
  destruct (findSessionByHint _ _) as [p |] eqn:Ef; [| by injection E as <- <-].
  destruct (findSessionByHint_sound _ _ _ Hr Ef) as (s & Es & Hreg & Htok). rewrite Es in E.
  destruct (DecryptChunkSafe s (drop 36 data) now) as [[c s1] | |] eqn:Ed; [| by injection E as <- <- | done].
  destruct (DecryptChunkSafe_state _ _ _ _ _ Ed) as [-> _].
  unfold SessionAcceptSeqNum in E. cbn [recvWindow set_activity] in E.
  destruct (AcceptSeqNum (recvWindow s) (SeqNum c)) as [fresh win] eqn:Ea.
  set (h1 := store h p _) in E.
  assert (same_ids (hb_sessions h) (hb_sessions h1)) as I1 by (by eapply store_ids).
  destruct fresh; cbn [negb] in E; [| by injection E as <- <-].
  destruct (Z.eqb_spec (Flags c) FlagKeepalive) as [Hfl | Hfl]; cbn [negb] in E; [| by injection E as <- <-].
  change (hb_tunnels h1) with (hb_tunnels h) in E.
  destruct (hb_tunnels h !! ID s) as [t |] eqn:Et; [| by injection E as <- <-].
  destruct (WSAttached t) eqn:Ew; [by injection E as <- <- |].
  unfold ReattachClearDetached in E. cbn [hb_sessions set_latch with_tunnels] in E.
  rewrite (sid_map _ _ I1), Hreg in E. cbn [negb] in E.
  set (sm3 := set_detached (hb_sessions h1) p 0) in E. set (h3 := with_sm _ sm3) in E.
  assert (same_ids (hb_sessions h) sm3) as I3 by (etransitivity; [exact I1 | apply set_detached_ids]).
  destruct (sm_heap sm3 !! p) as [s3 |] eqn:E3; [| done].
  assert (DetachedAt s3 = 0) as Hd3.
  { subst sm3. cbn in E3. rewrite lookup_alter_eq, lookup_insert_eq in E3. by injection E3 as <-. }
  destruct (flow_ack h3 p s3 (Payload c) ackOK) as [[[w m] h4] | |] eqn:Eack; try done. cbn [mbind outcome_bind] in E.
  destruct (flow_ack_ids h3 p s3 _ _ _ _ _ E3 Eack) as (I4 & Ht4 & Hd4).
  destruct (sm_heap (hb_sessions h4) !! p) as [s4 |] eqn:E4; [| done]. injection E as <- <-.
  split.
  { etransitivity; [exact I3 |]. etransitivity; [exact I4 |]. by eapply store_ids. }
  exists data, s, t. split_and!; try done.
  - split; try done. exists c, (set_activity s now). by rewrite Ea.
  - cbn. rewrite Ht4. cbn. apply map_eq. intros q. destruct (decide (ID s = q)) as [<- | Hne].
    + by rewrite lookup_alter_eq, Et, lookup_insert_eq.
    + by rewrite lookup_alter_ne, lookup_insert_ne.
  - intros H0. by apply (flow_ack_bounds h3 p s3 (Payload c) ackOK w m h4).
  - eexists. cbn. rewrite lookup_insert_eq. split; [done |]. split; [done |]. cbn. by rewrite (Hd4 s4 eq_refl).
Qed.

(** ** Exclusive attachment *)

Inductive attach_op :=
| AAttempt (msg : option bytes) (now : Z) (ackOK : bool)
| ARelease (p : nat) (now : Z).          (* the transport that holds [p] ends *)

(** Runs keep the list of sessions that have a transport; only a transport that
    exists can end. *)
Fixpoint attach_run (h : hub) (holders : list nat) (ops : list attach_op) : outcome (list nat * hub) :=
  match ops with
  | [] => Ret (holders, h)
  | AAttempt msg now ackOK :: ops' =>
    '(res, h1) ← authenticateFirstFrame h msg now ackOK;
    attach_run h1 (match res with Some (p, _, _) => p :: holders | None => holders end) ops'
  | ARelease p now :: ops' =>
    if bool_decide (p ∈ holders) then attach_run (release h p now) (filter (λ q, q ≠ p) holders) ops'
    else Err "no such transport"
  end.

(** Every transport holds the latch of its own session. *)
Record holders_ok (h : hub) (holders : list nat) : Prop := {
  ho_registry : registry_ok (hb_sessions h);
  ho_nodup : NoDup holders;
  ho_latch p : p ∈ holders → ∃ s t, sm_heap (hb_sessions h) !! p = Some s
    ∧ sm_sessions (hb_sessions h) !! ID s = Some p ∧ hb_tunnels h !! ID s = Some t ∧ WSAttached t = true;
}.

Lemma holders_ok_attempt h holders msg now ackOK res h' :
  holders_ok h holders → authenticateFirstFrame h msg now ackOK = Ret (res, h') →
  holders_ok h' (match res with Some (p, _, _) => p :: holders | None => holders end).
Proof.
  intros [Hr Hn Hl] E. destruct (authenticate_cases h msg now ackOK res h' Hr E) as [Hids Hres].
  assert (∀ p s, sm_heap (hb_sessions h) !! p = Some s → sm_sessions (hb_sessions h) !! ID s = Some p →
    ∃ s', sm_heap (hb_sessions h') !! p = Some s' ∧ ID s' = ID s ∧ sm_sessions (hb_sessions h') !! ID s' = Some p) as Hkeep.
  { intros p s Hp Hs. destruct (sid_heap _ _ Hids p s Hp) as (s' & Es' & Hid). exists s'. split_and!; try done.
    by rewrite Hid, (sid_map _ _ Hids). }
  destruct res as [[[p w] m] |].
  - destruct Hres as (data & s & t & _ & [_ [Hs Hreg] _ _ [Ht Hw]] & Ht' & _).
    split; [by eapply same_ids_registry | |].
    + constructor; [| done]. intros Hin. destruct (Hl p Hin) as (s2 & t2 & Hs2 & _ & Ht2 & Hw2).
      rewrite Hs in Hs2. injection Hs2 as <-. congruence.
    + intros q. rewrite elem_of_cons. intros [-> | Hin].
      * destruct (Hkeep p s Hs Hreg) as (s' & Es' & Hid & Hreg'). exists s', (mkTunnel (tn_ClientID t) true).
        split_and!; try done. rewrite Ht', Hid. by rewrite lookup_insert_eq.
      * destruct (Hl q Hin) as (s2 & t2 & Hs2 & Hreg2 & Ht2 & Hw2).
        destruct (Hkeep q s2 Hs2 Hreg2) as (s' & Es' & Hid & Hreg'). exists s', t2. split_and!; try done.
        rewrite Ht', Hid. rewrite lookup_insert_ne; [done |]. intros Heq. rewrite Heq in Ht. congruence.
  - split; [by eapply same_ids_registry | done |]. intros q Hin.
    destruct (Hl q Hin) as (s2 & t2 & Hs2 & Hreg2 & Ht2 & Hw2).
    destruct (Hkeep q s2 Hs2 Hreg2) as (s' & Es' & Hid & Hreg'). exists s', t2. split_and!; try done.
    by rewrite Hres, Hid.
Qed.

Lemma holders_ok_release h holders p now :
  holders_ok h holders → p ∈ holders → holders_ok (release h p now) (filter (λ q, q ≠ p) holders).
Proof.
  intros [Hr Hn Hl] Hin. destruct (Hl p Hin) as (s & t & Hs & Hreg & Ht & Hw). unfold release. rewrite Hs.
  set (h2 := store _ p _).
  assert (same_ids (hb_sessions h) (hb_sessions h2)) as Hids
    by (by apply (store_ids (set_latch h (ID s) false) p s)).
  split; [by eapply same_ids_registry | by apply NoDup_filter |].
  intros q Hq. apply list_elem_of_filter in Hq as [Hne Hq]. destruct (Hl q Hq) as (s2 & t2 & Hs2 & Hreg2 & Ht2 & Hw2).
  exists s2, t2. cbn. rewrite lookup_insert_ne by done. split_and!; try done.
  rewrite lookup_alter_ne; [done |]. intros Heq. rewrite Heq in Hreg. congruence.
Qed.


(** C21: what a successful first frame proves.  If the server accepts a first
    frame for session [p], then the frame carried a token sealed for that
    session's id under its receive key, a keepalive chunk that decrypts under
    the session and whose number had not been seen, the session is registered,
    its tunnel exists and was free and is now taken, its detach stamp is
    cleared, and the negotiated window and migration flag are within what the
    server allows.  A refused frame changes no latch. *)
Theorem attach_sound h msg now ackOK res h' :
  registry_ok (hb_sessions h) → 0 ≤ flowMaxWindow h →
  authenticateFirstFrame h msg now ackOK = Ret (res, h') →
  match res with
  | None => hb_tunnels h' = hb_tunnels h
  | Some (p, w, m) =>
    ∃ data s t, msg = Some data ∧ attach_evidence h data now p s t
      ∧ hb_tunnels h' = <[ID s := mkTunnel (tn_ClientID t) true]> (hb_tunnels h)
      ∧ w ≤ flowMaxWindow h ∧ (m = true → migrationEnabled h = true ∧ 0 < w ∧ ackOK = true)
      ∧ ∃ s', sm_heap (hb_sessions h') !! p = Some s' ∧ AttachedAt s' = now ∧ DetachedAt s' = 0
  end.
Proof.
  intros Hr H0 E. destruct (authenticate_cases h msg now ackOK res h' Hr E) as [_ Hres].
  destruct res as [[[p w] m] |]; [| done]. destruct Hres as (data & s & t & ? & ? & ? & Hb & ?).
  destruct (Hb H0). exists data, s, t. by split_and!.
Qed.

End attach.

(** ** The hint *)

Section hint.
Context {HA : AEAD} {HL : AEADLaws}.

Lemma lxor_range32 x y : 0 ≤ x < 2 ^ 32 → 0 ≤ y < 2 ^ 32 → 0 ≤ Z.lxor x y < 2 ^ 32.
Proof.
  intros Hx Hy. assert (Z.lxor x y = Z.lxor x y mod 2 ^ 32) as ->; [| apply Z.mod_pos_bound; lia].
  symmetry. apply Z.bits_inj'. intros i Hi. destruct (Z.ltb_spec i 32) as [Hlt | Hge].
  - by rewrite Z.mod_pow2_bits_low by lia.
  - rewrite Z.mod_pow2_bits_high by lia. rewrite Z.lxor_spec.
    rewrite <- (Z.mod_small x (2 ^ 32)), <- (Z.mod_small y (2 ^ 32)) by done.
    by rewrite !Z.mod_pow2_bits_high by lia.
Qed.

(** The hint names the session of a token, and the lookup accepts it, for every
    session the manager knows. *)
Theorem hint_roundtrip sm p s nonce tok :
  sm_heap sm !! p = Some s → sm_sessions sm !! ID s = Some p → 0 ≤ ID s < 2 ^ 32 →
  len (RecvKey s) = 32 → is_bytes nonce → len nonce = 12 →
  encryptSessionToken (ID s) (RecvKey s) (Some nonce) = Ret tok →
  findSessionByHint sm (EncodeTokenWithHint (ID s) tok) = Some p.
Proof.
  intros Hp Hs Hid Hk Hb Hn E. unfold encryptSessionToken in E. rewrite newGCM_32 in E by done.
  revert E. ostep. fill_start. fill_step. change (drop 4 (make_bytes 4)) with (@nil Z). rewrite app_nil_r. cbn [app].
  intros [= <-]. set (tok := nonce ++ _).
  assert (len tok = 32) as Hl by (unfold tok; rewrite len_app, aead_seal_len, len_be_bytes; lia).
  unfold EncodeTokenWithHint. destruct (Z.ltb_spec (len tok) 4); [lia |].
  set (v := be_value (take 4 tok)). set (hint := be_bytes 4 _).
  assert (len hint = 4) as Hh by (unfold hint; by rewrite len_be_bytes).
  assert (take 4 (hint ++ tok) = hint ∧ drop 4 (hint ++ tok) = tok) as [Ht Hd].
  { unfold len in Hh. replace 4%nat with (length hint) by lia. by rewrite take_app_length, drop_app_length. }
  unfold findSessionByHint. rewrite len_app, Hh, Hl, Ht, Hd. cbn [Z.ltb Z.compare Z.add Pos.add Pos.compare Pos.compare_cont].
  rewrite Hl. cbn [Z.ltb Z.compare Pos.compare Pos.compare_cont].
  assert (0 ≤ v < 2 ^ 32) as Hv.
  { unfold v. assert (take 4 tok = take 4 nonce) as ->.
    { unfold tok. rewrite take_app_le; [done |]. unfold len in Hn. lia. }
    assert (is_bytes (take 4 nonce)) as Hbt by (by apply Forall_take).
    assert (len (take 4 nonce) = 4) as Hlt by (rewrite len_take; lia).
    pose proof (be_value_range _ Hbt) as Hr. by rewrite Hlt in Hr. }
  assert (be_value hint = Z.lxor (ID s) v) as Hbe.
  { unfold hint. apply be_value_bytes_small. change (8 * Z.of_nat 4) with 32. by apply lxor_range32. }
  fold v. rewrite Hbe, Z.lxor_assoc, Z.lxor_nilpotent, Z.lxor_0_r. unfold Get. rewrite Hs, Hp. cbn [Keys].
  assert (verifySessionToken tok (ID s) (RecvKey s) = true) as ->; [| done].
  unfold verifySessionToken. rewrite newGCM_32 by done. rewrite Hl.
  assert (take 12 tok = nonce ∧ drop 12 tok = aead_seal (RecvKey s) nonce (be_bytes 4 (ID s)) []) as [-> ->].
  { unfold tok. unfold len in Hn. replace 12%nat with (length nonce) by lia. by rewrite take_app_length, drop_app_length. }
  rewrite aead_open_seal, len_be_bytes. cbn [Z.ltb Z.compare Z.add Pos.add Pos.compare Pos.compare_cont Z.of_nat Pos.of_succ_nat].
  rewrite take_ge by (by rewrite length_be_bytes). rewrite be_value_bytes_small by done. by rewrite Z.eqb_refl.
Qed.
End hint.

(** ** Witnesses *)

Module AttachDemo.
#[local] Existing Instance Toy.toy_aead.

Definition srv_recv : bytes := replicate 32 1.
Definition nonce12 : bytes := replicate 12 3.

Definition created : nat * SessionManager :=
  match Create (mkSM ∅ ∅ 100 0) (replicate 32 2) srv_recv 5 None with Ret r => r | _ => (0%nat, mkSM ∅ ∅ 0 0) end.
Definition sess : nat := fst created.
Definition the_session : Session := default (NewSession 0 [] [] 0 None) (sm_heap (snd created) !! sess).

Definition hub0 : hub :=
  mkHub (snd created) {[ 1 := mkTunnel (replicate 16 7) false ]} empty_pools 65536 true.

Definition token : bytes := match encryptSessionToken 1 srv_recv (Some nonce12) with Ret t => t | _ => [] end.
Definition marker : bytes := match BuildFlowCtlMarkerV2 262144 true with Ret m => m | _ => [] end.
Definition first_frame (seq : Z) : bytes :=
  EncodeTokenWithHint 1 token ++ wire srv_recv nonce12 (mkChunk 1 seq FlagKeepalive marker).

Definition attempts : list attach_op :=
  [AAttempt None 9 true; AAttempt (Some (first_frame 0)) 10 true; AAttempt (Some (first_frame 1)) 11 true;
   ARelease sess 12; AAttempt (Some (first_frame 0)) 13 true; AAttempt (Some (first_frame 2)) 14 true].
Definition attached : list nat * hub :=
  match attach_run hub0 [] attempts with Ret r => r | _ => ([], hub0) end.

Definition first : option (nat * Z * bool) * hub :=
  match authenticateFirstFrame hub0 (Some (first_frame 0)) 10 true with Ret r => r | _ => (None, hub0) end.
End AttachDemo.

Section attach_witnesses.
Import AttachDemo.
#[local] Existing Instance Toy.toy_aead.

Lemma hub0_registry : registry_ok (hb_sessions hub0).
Proof.
  intros id p Hp. exists the_session.
  change (sm_sessions (hb_sessions hub0)) with ({[1 := sess]} : gmap Z nat) in Hp.
  apply lookup_singleton_Some in Hp as [<- <-]. by vm_compute.
Qed.


(** The workers of the client's ready pool open all their connections with the one
    session of the client: while the first is attached, the server refuses the
    authenticated, fresh first frame of the second. *)
Theorem second_connection_refused :
  fst first = Some (sess, 65536, true)
  ∧ (fst <$> authenticateFirstFrame hub0 (Some (first_frame 1)) 11 true) = Ret (Some (sess, 65536, true))
  ∧ (fst <$> authenticateFirstFrame (snd first) (Some (first_frame 1)) 11 true) = Ret None.
Proof. vm_compute. done. Qed.

Lemma attach_sound_witness :
  ∃ data s t, Some (first_frame 0) = Some data ∧ attach_evidence hub0 data 10 sess s t
    ∧ hb_tunnels (snd first) = <[ID s := mkTunnel (tn_ClientID t) true]> (hb_tunnels hub0)
    ∧ 65536 ≤ flowMaxWindow hub0 ∧ (true = true → migrationEnabled hub0 = true ∧ 0 < 65536 ∧ true = true)
    ∧ ∃ s', sm_heap (hb_sessions (snd first)) !! sess = Some s' ∧ AttachedAt s' = 10 ∧ DetachedAt s' = 0.
Proof.
  apply (@attach_sound Toy.toy_aead hub0 (Some (first_frame 0)) 10 true (Some (sess, 65536, true)) (snd first) hub0_registry).
  - discriminate.
  - vm_compute; reflexivity.
Defined.

Lemma hint_roundtrip_witness :
  findSessionByHint (hb_sessions hub0) (EncodeTokenWithHint (ID the_session) token) = Some sess.
Proof.
  apply (@hint_roundtrip Toy.toy_aead Toy.toy_aead_laws (hb_sessions hub0) sess the_session nonce12 token);
    try (vm_compute; reflexivity).
  - vm_compute. split; [discriminate | reflexivity].
  - apply Forall_replicate. vm_compute. split; [discriminate | reflexivity].
Defined.

End attach_witnesses.
