(* ===== verification/Lifecycle.v ===== *)
(** * The life of a session on the server ([server/handler.go])

    The handshake handler, FIN, the three sweeps and the management calls, over
    the components they tie together: the session manager, the tunnels, the
    device accounting, the replay cache and the UDP relay.  A handshake is two
    steps, because other requests run between its capacity check and its
    effect; the other handlers are one step each.  The rate limiters and the
    memory check enter as the answers they gave. *)

From S2P Require Import Prelude.
From S2P Require Import Primitives.
From S2P Require Import BufPool.
From S2P Require Import Session.
From S2P Require Import SessionManager.
From S2P Require Import ReplayCache.
From S2P Require Import Handshake.
From S2P Require Import ClientAuth.
From S2P Require Import UDPRelay.
From S2P Require Import Attach.
From stdpp Require Import base list gmap strings.

#[local] Open Scope Z_scope.

Record config := mkConfig { MaxClients : nat; MaxConnsPerClient : Z; ChunkSize : Z; serverKey : KeyPair }.

(** What a gated handshake carries on: the hello, and the client id when the
    exemption had to decrypt it. *)
Record waiting := mkWaiting { wt_hello : ClientHello; wt_cached : option bytes }.

Record handler := mkHandler {
  h_hub : hub;                     (* [sessions], [tunnels] *)
  h_auth : ClientAuth;
  h_replay : ReplayCache;
  h_udp : UDPRelay.UDPRelay;
  h_torn : list Z;                 (* tunnels whose streams and [done] were closed *)
  h_active : Z;                    (* [metrics.ActiveClients] *)
  h_waiting : gmap nat waiting;
}.

Definition with_hub (h : handler) (b : hub) : handler :=
  mkHandler b (h_auth h) (h_replay h) (h_udp h) (h_torn h) (h_active h) (h_waiting h).
Definition with_auth (h : handler) (a : ClientAuth) : handler :=
  mkHandler (h_hub h) a (h_replay h) (h_udp h) (h_torn h) (h_active h) (h_waiting h).
Definition with_replay (h : handler) (r : ReplayCache) : handler :=
  mkHandler (h_hub h) (h_auth h) r (h_udp h) (h_torn h) (h_active h) (h_waiting h).
Definition with_udp (h : handler) (u : UDPRelay.UDPRelay) : handler :=
  mkHandler (h_hub h) (h_auth h) (h_replay h) u (h_torn h) (h_active h) (h_waiting h).
Definition with_waiting (h : handler) (w : gmap nat waiting) : handler :=
  mkHandler (h_hub h) (h_auth h) (h_replay h) (h_udp h) (h_torn h) (h_active h) w.
Definition add_torn (h : handler) (id : Z) : handler :=
  mkHandler (h_hub h) (h_auth h) (h_replay h) (h_udp h) (h_torn h ++ [id]) (h_active h) (h_waiting h).
Definition add_active (h : handler) (n : Z) : handler :=
  mkHandler (h_hub h) (h_auth h) (h_replay h) (h_udp h) (h_torn h) (h_active h + n) (h_waiting h).

Definition sessions (h : handler) : SessionManager := hb_sessions (h_hub h).
Definition tunnels (h : handler) : gmap Z Tunnel := hb_tunnels (h_hub h).
Definition put_sessions (h : handler) (sm : SessionManager) : handler := with_hub h (with_sm (h_hub h) sm).
Definition put_tunnels (h : handler) (t : gmap Z Tunnel) : handler := with_hub h (with_tunnels (h_hub h) t).

Inductive reply := Decoy (reason : string) | Accepted (hello : ServerHello).

Section lifecycle.
Context {HA : AEAD} {HD : DH} {HB : NaclBox} {HK : KDF} (cfg : config).

(** ** The handshake *)

(** [handleHandshakeNew] up to and including the capacity checks.  [allow] is
    the rate limiter's answer, [exempt] what the exemption says of a client it
    recognises ([Some true]: go on), [overload] the memory check's. *)
Definition hs_gate (h : handler) (hello : ClientHello) (allow : bool) (exempt : bytes → option bool) (overload : bool)
    (unix : Z) : reply + option bytes :=
  let proceed (cached : option bytes) : reply + option bytes :=
    if overload then inl (Decoy "backpressure") else
    if (MaxClients cfg <=? Count (sessions h))%nat then inl (Decoy "max_clients") else
    inr cached in
  if allow then proceed None else
  match DecryptClientID (ch_EncryptedClientID hello) (ch_EphemeralPub hello) (serverKey cfg) unix with
  | Ret cid =>
    match exempt cid with
    | Some true => proceed (Some cid)
    | _ => inl (Decoy "rate_limited")
    end
  | _ => inl (Decoy "rate_limited")
  end.

(** The clock readings of the rest. *)
Record hs_clock := mkClock {
  ck_decrypt : Z;                  (* seconds, in [DecryptClientID] *)
  ck_replay : Z;                   (* seconds, for the replay cache *)
  ck_inputs : server_inputs;       (* of [HandleClientHelloWithVersion] *)
  ck_attached : Z;
}.

(** The rest of it. *)
Definition hs_commit (h : handler) (w : waiting) (k : hs_clock) : outcome (reply * handler) :=
  let hello := wt_hello w in
  match match wt_cached w with
        | Some cid => Ret cid
        | None => DecryptClientID (ch_EncryptedClientID hello) (ch_EphemeralPub hello) (serverKey cfg) (ck_decrypt k)
        end with
  | Panic => Panic
  | Err _ => Ret (Decoy "auth_fail", h)
  | Ret clientID =>
    let '(fresh, rc) := Accept (h_replay h) (ch_EncryptedClientID hello) (ck_replay k) in
    let h1 := with_replay h rc in
    if negb fresh then Ret (Decoy "replay", h1) else
    let '(sm, res) := HandleClientHelloWithVersion hello (serverKey cfg) (MaxConnsPerClient cfg) (ChunkSize cfg)
                        (sessions h1) 1 (ck_inputs k) in
    let h2 := put_sessions h1 sm in
    match res with
    | Panic => Panic
    | Err _ => Ret (Decoy "handshake_fail", h2)
    | Ret (serverHello, p, _) =>
      let id := id_of sm p in
      if negb (IsAuthorized (h_auth h2) clientID) then Ret (Decoy "auth_fail", put_sessions h2 (Remove sm id)) else
      let '(admitted, auth) := AdmitSession (h_auth h2) clientID id in
      if negb admitted then Ret (Decoy "device_limit", put_sessions h2 (Remove sm id)) else
      let h3 := put_tunnels (with_auth h2 auth) (<[id := mkTunnel clientID false]> (tunnels h2)) in
      let h4 := add_active h3 1 in
      Ret (Accepted serverHello,
           put_sessions h4 (set_maps (sessions h4)
             (alter (λ s, set_attach s (ck_attached k) (DetachedAt s)) p (sm_heap (sessions h4))) (sm_sessions (sessions h4))))
    end
  end.

(** ** The end of a session *)

Definition forget_device (h : handler) (t : Tunnel) (id : Z) : handler :=
  if len (tn_ClientID t) =? 0 then h else with_auth h (OnSessionDestroyed (h_auth h) (tn_ClientID t) id).

(** The removal of one tunnel, as FIN, the sweeps and the idle cleanup do it. *)
Definition drop_tunnel (h : handler) (id : Z) (t : Tunnel) : handler :=
  let h1 := add_torn (forget_device h t id) id in
  put_tunnels h1 (delete id (tunnels h1)).

(** [handleFin], for the session object at [p]. *)
Definition handleFin (h : handler) (p : nat) : handler :=
  let id := id_of (sessions h) p in
  let h1 := match tunnels h !! id with Some t => drop_tunnel h id t | None => h end in
  let h2 := with_udp h1 (UDPRelay.RemoveSession (h_udp h1) id) in
  add_active (put_sessions h2 (Remove (sessions h2) id)) (-1).

Definition reap_one (h : handler) (id : Z) : handler :=
  match tunnels h !! id with
  | None => h
  | Some t => add_active (drop_tunnel h id t) (-1)
  end.
Definition reapOrphanTunnels (h : handler) (ids : list Z) : handler := foldl reap_one h ids.

(** [ghostSweepEligible]; [bound] is [relayRegistry.hasBoundEntriesForSession]. *)
Definition ghostSweepEligible (h : handler) (bound : bytes → nat → bool) (sm : SessionManager) (id : Z) : bool :=
  match Get sm id with
  | None => false
  | Some p =>
    match tunnels h !! id with
    | None => true
    | Some t =>
      if WSAttached t then false
      else if negb (len (tn_ClientID t) =? 0) && bound (tn_ClientID t) p then false
      else true
    end
  end.

Definition newbornOrphanMaxAge : Z := 30 * Second.
Definition detachedGhostGrace : Z := 15 * Second.

(** The idle cleanup's second half: tunnels without a session. *)
Definition reap_idle (h : handler) (e : Z * Tunnel) : handler :=
  match Get (sessions h) e.1 with
  | Some _ => h
  | None =>
    let h1 := drop_tunnel h e.1 e.2 in
    add_active (with_udp h1 (UDPRelay.RemoveSession (h_udp h1) e.1)) (-1)
  end.

(** One tick of [StartCleanup] (the limiter tables apart). *)
Definition cleanup_tick (h : handler) (bound : bytes → nat → bool) (now : Z) : handler :=
  let h0 := with_udp h (UDPRelay.Cleanup (h_udp h) now) in
  let '(orphans, sm1) := CleanupNewbornOrphans (λ _ sm, sm) (sessions h0) now newbornOrphanMaxAge in
  let h1 := reapOrphanTunnels (put_sessions h0 sm1) orphans in
  let '(ghosts, sm2) := CleanupDetachedGhosts (Some (ghostSweepEligible h1 bound)) (λ _ sm, sm) (sessions h1) now
                          detachedGhostGrace in
  let h2 := reapOrphanTunnels (put_sessions h1 sm2) ghosts in
  let '(removed, sm3) := SessionManager.Cleanup (sessions h2) now in
  let h3 := put_sessions h2 sm3 in
  if (removed =? 0)%nat then h3 else foldl reap_idle h3 (map_to_list (tunnels h3)).

(** [DELETE /manage/clients/]: the session id is not used. *)
Definition handleRemoveClient (h : handler) (clientID : bytes) : handler :=
  if len clientID =? 0 then h else with_auth h (snd (GetAndDestroyClientSession (h_auth h) clientID)).

(** ** Runs *)

Inductive life_op :=
| LGate (k : nat) (hello : ClientHello) (allow : bool) (exempt : bytes → option bool) (overload : bool) (unix : Z)
| LCommit (k : nat) (c : hs_clock)
| LAttach (msg : option bytes) (now : Z) (ackOK : bool) (* a WebSocket's first frame *)
| LRelease (p : nat) (now : Z)           (* and the end of that WebSocket *)
| LFin (p : nat)                         (* a FIN decrypted under the session at [p] *)
| LTick (bound : bytes → nat → bool) (now : Z)
| LAdd (clientID : bytes) | LRevoke (clientID : bytes) | LLimit (userID : bytes) (max : Z)
| LSync (clients : list bytes) (limits : gmap bytes Z).

Definition life_step (h : handler) (o : life_op) : outcome (option reply * handler) :=
  match o with
  | LGate k hello allow exempt overload unix =>
    match hs_gate h hello allow exempt overload unix with
    | inl r => Ret (Some r, h)
    | inr cached => Ret (None, with_waiting h (<[k := mkWaiting hello cached]> (h_waiting h)))
    end
  | LCommit k c =>
    match h_waiting h !! k with
    | None => Err "no such request"
    | Some w => '(r, h') ← hs_commit (with_waiting h (delete k (h_waiting h))) w c; Ret (Some r, h')
    end
  | LAttach msg now ackOK => '(_, b) ← authenticateFirstFrame (h_hub h) msg now ackOK; Ret (None, with_hub h b)
  | LRelease p now => Ret (None, with_hub h (release (h_hub h) p now))
  | LFin p => Ret (None, handleFin h p)
  | LTick bound now => Ret (None, cleanup_tick h bound now)
  | LAdd c => Ret (None, with_auth h (AddClient (h_auth h) c))
  | LRevoke c => Ret (None, handleRemoveClient h c)
  | LLimit u m => Ret (None, with_auth h (SetUserLimit (h_auth h) u m))
  | LSync cs ls => Ret (None, with_auth h (SyncClients (h_auth h) cs ls))
  end.

Fixpoint life_run (h : handler) (ops : list life_op) : outcome (list reply * handler) :=
  match ops with
  | [] => Ret ([], h)
  | o :: ops' =>
    '(r, h1) ← life_step h o;
    '(rs, h2) ← life_run h1 ops';
    Ret (option_list r ++ rs, h2)
  end.

(** ** The components agree *)

Record life_inv (h : handler) : Prop := {
  li_reg : registry_ok (sessions h);
  li_tunnel id : is_Some (tunnels h !! id) → is_Some (sm_sessions (sessions h) !! id);
  li_named id t : tunnels h !! id = Some t → tn_ClientID t ≠ [];
  li_auth u : sessions_of (activeSessions (h_auth h)) u ≡ₚ devices (clientSession (h_auth h)) u;
  li_client c s : clientSession (h_auth h) !! c = Some s → ∃ t, tunnels h !! s = Some t ∧ tn_ClientID t = c;
  li_udp : relay_inv (h_udp h);
}.

(** Whose session an id is. *)
Definition owner_of (t : gmap Z Tunnel) (id : Z) : bytes := match t !! id with Some t => tn_ClientID t | None => [] end.

(** The part that does not mention the session manager. *)
Record dev_inv (h : handler) : Prop := {
  di_named id t : tunnels h !! id = Some t → tn_ClientID t ≠ [];
  di_auth u : sessions_of (activeSessions (h_auth h)) u ≡ₚ devices (clientSession (h_auth h)) u;
  di_client c s : clientSession (h_auth h) !! c = Some s → ∃ t, tunnels h !! s = Some t ∧ tn_ClientID t = c;
  di_udp : relay_inv (h_udp h);
}.

Lemma life_dev h : life_inv h → dev_inv h.
Proof. by intros []. Qed.

Lemma dev_life h :
  dev_inv h → registry_ok (sessions h) → (∀ id, is_Some (tunnels h !! id) → is_Some (sm_sessions (sessions h) !! id)) →
  life_inv h.
Proof. by intros []. Qed.

Lemma dev_owner h : dev_inv h → auth_inv (owner_of (tunnels h)) (h_auth h).
Proof.
  intros [_ Ha Hc _]. split; [done |]. intros c s Hs. destruct (Hc c s Hs) as (t & Ht & <-). unfold owner_of. by rewrite Ht.
Qed.

Lemma drop_tunnel_fields h id t :
  sessions (drop_tunnel h id t) = sessions h ∧ tunnels (drop_tunnel h id t) = delete id (tunnels h)
  ∧ h_udp (drop_tunnel h id t) = h_udp h ∧ h_replay (drop_tunnel h id t) = h_replay h
  ∧ h_waiting (drop_tunnel h id t) = h_waiting h.
Proof. unfold drop_tunnel, forget_device. by destruct (_ =? 0). Qed.

Lemma destroyed_client ca c s c' s' :
  clientSession (OnSessionDestroyed ca c s) !! c' = Some s' →
  clientSession ca !! c' = Some s' ∧ ¬ (c' = c ∧ s' = s).
Proof.
  unfold OnSessionDestroyed. cbn. destruct (Z.eqb_spec (default 0 (clientSession ca !! c)) s) as [E | E].
  - intros [Hne Hc]%lookup_delete_Some. split; [done |]. intros [-> _]. done.
  - intros Hc. split; [done |]. intros [-> ->]. rewrite Hc in E. done.
Qed.

Lemma drop_tunnel_dev h id t :
  dev_inv h → tunnels h !! id = Some t → dev_inv (drop_tunnel h id t)
  ∧ ∀ c, clientSession (h_auth (drop_tunnel h id t)) !! c ≠ Some id.
Proof.
  intros Hd Ht. pose proof Hd as [Hn Ha Hc Hu]. pose proof (Hn id t Ht) as Hne.
  assert (h_auth (drop_tunnel h id t) = OnSessionDestroyed (h_auth h) (tn_ClientID t) id) as Hauth.
  { unfold drop_tunnel, forget_device. destruct (Z.eqb_spec (len (tn_ClientID t)) 0) as [E | E]; [| done].
    by apply len_0_nil in E. }
  destruct (drop_tunnel_fields h id t) as (_ & Htun & Hudp & _).
  assert (∀ c s, clientSession (h_auth (drop_tunnel h id t)) !! c = Some s → s ≠ id ∧ clientSession (h_auth h) !! c = Some s) as Hcs.
  { intros c s. rewrite Hauth. intros [Hs Hnot]%destroyed_client. split; [| done]. intros ->.
    destruct (Hc c id Hs) as (t' & Ht' & <-). apply Hnot. split; [congruence | done]. }
  split; [| by intros c [? ?]%Hcs]. split.
  - intros id' t'. rewrite Htun. intros [_ Ht']%lookup_delete_Some. by eapply Hn.
  - rewrite Hauth. apply (destroyed_inv (owner_of (tunnels h)) (h_auth h) (tn_ClientID t) id (dev_owner h Hd)).
    unfold owner_of. by rewrite Ht.
  - intros c s Hs. apply Hcs in Hs as [Hsne Hs]. destruct (Hc c s Hs) as (t' & Ht' & <-). exists t'. split; [| done].
    rewrite Htun. by rewrite lookup_delete_ne.
  - by rewrite Hudp.
Qed.

(** ** Sweeps *)

Lemma destroy_registry sm id p : registry_ok sm → registry_ok (destroy_and_delete sm id p).
Proof.
  intros Hr id' q. cbn. intros [_ Hq]%lookup_delete_Some. destruct (Hr id' q Hq) as (s & Hs & Hid).
  destruct (decide (p = q)) as [<- | Hne].
  - exists (zeroKeyMaterialLocked s). by rewrite lookup_alter_eq, Hs.
  - exists s. by rewrite lookup_alter_ne.
Qed.

Lemma sweep_any ok gate ids i sm evs sm' :
  registry_ok sm → sweep ok gate (λ _ sm, sm) i sm ids = (evs, sm') →
  registry_ok sm' ∧ ∀ id, sm_sessions sm' !! id = if decide (id ∈ evs) then None else sm_sessions sm !! id.
Proof.
  revert i sm evs. induction ids as [| x ids IH]; intros i sm evs Hr E; cbn [sweep] in E.
  { injection E as <- <-. split; [done |]. intros id. by rewrite decide_False by apply not_elem_of_nil. }
  destruct (gate sm x); [| by eapply IH]. destruct (evict_window ok sm x) as [ev sm3] eqn:Ew.
  destruct (sweep ok gate (λ _ sm, sm) (S i) sm3 ids) as [evs' sm4] eqn:Es. injection E as <- <-.
  apply evict_window_cases in Ew as [(-> & -> & _) | (-> & p & s & _ & _ & ->)]; [by eapply IH |].
  destruct (IH _ _ _ (destroy_registry sm x p Hr) Es) as [Hr4 Hm]. split; [done |]. intros id. rewrite Hm. cbn.
  destruct (decide (id = x)) as [-> | Hne].
  - rewrite lookup_delete_eq, (decide_True (P := x ∈ x :: evs')) by by left. by case_decide.
  - rewrite lookup_delete_ne by done. apply decide_ext. rewrite elem_of_cons. tauto.
Qed.

Lemma idle_any sm now n sm' :
  registry_ok sm → SessionManager.Cleanup sm now = (n, sm') →
  ∃ evs, n = length evs ∧ registry_ok sm' ∧ ∀ id, sm_sessions sm' !! id = if decide (id ∈ evs) then None else sm_sessions sm !! id.
Proof.
  intros Hr. unfold SessionManager.Cleanup, session_list.
  assert (∀ l k sm, registry_ok sm → foldl (cleanup_one now) (k, sm) l = (n, sm') →
    ∃ evs, n = (k + length evs)%nat ∧ registry_ok sm'
      ∧ ∀ id, sm_sessions sm' !! id = if decide (id ∈ evs) then None else sm_sessions sm !! id) as Hf.
  { clear sm Hr. induction l as [| [id p] l IH]; intros k sm Hr E; cbn [foldl] in E.
    { injection E as <- <-. exists []. split; [cbn; lia |]. split; [done |]. intros id.
      by rewrite decide_False by apply not_elem_of_nil. }
    unfold cleanup_one at 2 in E. cbn [fst snd] in E. destruct (sm_heap sm !! p) as [s |] eqn:Es; [| by eapply IH].
    unfold isExpiredAndDestroy in E. destruct (_ <=? _); [by eapply IH |].
    assert (registry_ok (set_maps sm (<[p := zeroKeyMaterialLocked s]> (sm_heap sm)) (delete id (sm_sessions sm)))) as Hr1.
    { intros id' q. cbn. intros [_ Hq]%lookup_delete_Some. destruct (Hr id' q Hq) as (s' & Hs' & Hid).
      destruct (decide (p = q)) as [<- | Hne]; [| exists s'; by rewrite lookup_insert_ne].
      exists (zeroKeyMaterialLocked s). rewrite lookup_insert_eq. split; [done |]. cbn. congruence. }
    destruct (IH _ _ Hr1 E) as (evs & -> & Hr' & Hm). exists (id :: evs). split; [cbn; lia |]. split; [done |].
    intros id'. rewrite Hm. cbn. destruct (decide (id' = id)) as [-> | Hne].
    - rewrite lookup_delete_eq. rewrite (decide_True (P := id ∈ id :: evs)) by by left. by case_decide.
    - rewrite lookup_delete_ne by done. apply decide_ext. rewrite elem_of_cons. tauto. }
  intros E. by destruct (Hf _ _ _ Hr E) as (evs & ? & ?); exists evs.
Qed.

(** Removing the tunnels of evicted sessions. *)
Lemma reap_one_dev h id :
  dev_inv h → dev_inv (reap_one h id) ∧ sessions (reap_one h id) = sessions h
  ∧ tunnels (reap_one h id) = delete id (tunnels h).
Proof.
  intros Hd. unfold reap_one. destruct (tunnels h !! id) as [t |] eqn:Et.
  - destruct (drop_tunnel_dev h id t Hd Et) as [[] _]. by destruct (drop_tunnel_fields h id t) as (? & ? & _).
  - split_and!; [done | done |]. by rewrite delete_id.
Qed.

Lemma reap_dev ids h :
  dev_inv h → dev_inv (reapOrphanTunnels h ids) ∧ sessions (reapOrphanTunnels h ids) = sessions h
  ∧ ∀ id, tunnels (reapOrphanTunnels h ids) !! id = if decide (id ∈ ids) then None else tunnels h !! id.
Proof.
  revert h. induction ids as [| x ids IH]; intros h Hd.
  { split_and!; done. }
  change (reapOrphanTunnels h (x :: ids)) with (reapOrphanTunnels (reap_one h x) ids).
  destruct (reap_one_dev h x Hd) as (Hd1 & Hs1 & Ht1). destruct (IH _ Hd1) as (Hd2 & Hs2 & Ht2).
  split_and!; [done | by rewrite Hs2 |]. intros id. rewrite Ht2, Ht1. destruct (decide (id = x)) as [-> | Hne].
  - rewrite lookup_delete_eq, (decide_True (P := x ∈ x :: ids)) by by left. by case_decide.
  - rewrite lookup_delete_ne by done. apply decide_ext. rewrite elem_of_cons. tauto.
Qed.

Lemma evict_and_reap h sm' evs :
  life_inv h → registry_ok sm' → (∀ id, sm_sessions sm' !! id = if decide (id ∈ evs) then None else sm_sessions (sessions h) !! id) →
  life_inv (reapOrphanTunnels (put_sessions h sm') evs).
Proof.
  intros Hl Hr Hm. assert (dev_inv (put_sessions h sm')) as Hd by (by destruct Hl).
  destruct (reap_dev evs _ Hd) as (Hd' & Hs' & Ht'). apply dev_life; [done | by rewrite Hs' |].
  intros id. rewrite Hs', Ht'. change (sessions (put_sessions h sm')) with sm'. rewrite Hm.
  destruct (decide (id ∈ evs)); [by intros [? ?] |]. apply (li_tunnel h Hl).
Qed.

Lemma udp_dev h u : dev_inv h → relay_inv u → dev_inv (with_udp h u).
Proof. by intros []. Qed.

Lemma remove_session_inv r id : relay_inv r → relay_inv (UDPRelay.RemoveSession r id).
Proof. intros Hr. by destruct (drop_flows_spec (λ k _, sessionID k =? id) r Hr). Qed.

(** The idle cleanup's second half leaves no tunnel without a session. *)
Lemma reap_idle_dev l h :
  dev_inv h → NoDup l.*1 → (∀ e, e ∈ l → tunnels h !! e.1 = Some e.2) →
  dev_inv (foldl reap_idle h l) ∧ sessions (foldl reap_idle h l) = sessions h
  ∧ ∀ id, tunnels (foldl reap_idle h l) !! id
          = if decide (id ∈ l.*1 ∧ sm_sessions (sessions h) !! id = None) then None else tunnels h !! id.
Proof.
  revert h. induction l as [| [id t] l IH]; intros h Hd Hnd Hl.
  { split_and!; [done | done |]. intros id. cbn. case_decide as Hc; [| done]. destruct Hc as [Hc _]. by apply elem_of_nil in Hc. }
  cbn [foldl]. rewrite fmap_cons in Hnd. apply NoDup_cons in Hnd as [Hid Hnd]. cbn in Hid.
  pose proof (Hl (id, t) ltac:(by left)) as Ht. cbn in Ht.
  set (h1 := reap_idle h (id, t)).
  assert (dev_inv h1 ∧ sessions h1 = sessions h
    ∧ tunnels h1 = if decide (sm_sessions (sessions h) !! id = None) then delete id (tunnels h) else tunnels h) as (Hd1 & Hs1 & Ht1).
  { unfold h1, reap_idle, Get. cbn [fst snd]. destruct (sm_sessions (sessions h) !! id) eqn:Es; cbn.
    { by rewrite decide_False. }
    rewrite decide_True by done. destruct (drop_tunnel_dev h id t Hd Ht) as [[H1 H2 H3 H4] _].
    destruct (drop_tunnel_fields h id t) as (Hs & Htt & Hu & _). split_and!; [| by rewrite <- Hs | by rewrite <- Htt].
    split; try done. cbn. by apply remove_session_inv. }
  destruct (IH h1 Hd1 Hnd) as (Hd2 & Hs2 & Ht2).
  { intros [id' t'] Hin. rewrite Ht1. pose proof (Hl (id', t') ltac:(by right)) as Hin'. case_decide; [| done].
    cbn. rewrite lookup_delete_ne; [done |]. intros ->. apply Hid. by apply (list_elem_of_fmap_2 fst _ (id', t')). }
  split_and!; [done | congruence |]. intros id'. rewrite Ht2, Hs1, Ht1. rewrite fmap_cons. cbn [fst].
  destruct (decide (id' = id)) as [-> | Hne].
  - rewrite (decide_False (P := id ∈ l.*1 ∧ _)) by tauto. destruct (decide (sm_sessions (sessions h) !! id = None)) as [En | En].
    + rewrite lookup_delete_eq, decide_True; [done |]. split; [by left | done].
    + rewrite decide_False; [done |]. tauto.
  - assert ((if decide (sm_sessions (sessions h) !! id = None) then delete id (tunnels h) else tunnels h) !! id' = tunnels h !! id') as ->
      by (case_decide; [by rewrite lookup_delete_ne | done]).
    apply decide_ext. rewrite elem_of_cons. tauto.
Qed.

Lemma cleanup_tick_inv h bound now : life_inv h → life_inv (cleanup_tick h bound now).
Proof.
  intros Hl. unfold cleanup_tick. set (h0 := with_udp h _).
  assert (life_inv h0) as Hl0.
  { destruct Hl. split; try done. cbn. by destruct (drop_flows_spec (λ _ f, UDPRelay.timeout (h_udp h) <? now - lastActive f) (h_udp h) li_udp0). }
  destruct (CleanupNewbornOrphans _ _ _ _) as [orphans sm1] eqn:E1.
  apply sweep_any in E1 as [Hr1 Hm1]; [| apply Hl0]. pose proof (evict_and_reap h0 sm1 orphans Hl0 Hr1 Hm1) as Hl1.
  set (h1 := reapOrphanTunnels _ _) in *.
  destruct (CleanupDetachedGhosts _ _ _ _ _) as [ghosts sm2] eqn:E2.
  apply sweep_any in E2 as [Hr2 Hm2]; [| apply Hl1]. pose proof (evict_and_reap h1 sm2 ghosts Hl1 Hr2 Hm2) as Hl2.
  set (h2 := reapOrphanTunnels (put_sessions h1 sm2) ghosts) in *.
  destruct (SessionManager.Cleanup _ _) as [removed sm3] eqn:E3.
  apply idle_any in E3 as (evs & -> & Hr3 & Hm3); [| apply Hl2]. set (h3 := put_sessions h2 sm3).
  assert (dev_inv h3) as Hd3 by (by destruct Hl2).
  destruct (Nat.eqb_spec (length evs) 0) as [Hz | _].
  - apply nil_length_inv in Hz. subst evs. apply dev_life; [done | done |]. intros id Hid.
    change (sessions h3) with sm3. rewrite Hm3. rewrite decide_False by apply not_elem_of_nil. by apply (li_tunnel h2 Hl2).
  - destruct (reap_idle_dev (map_to_list (tunnels h3)) h3 Hd3) as (Hd4 & Hs4 & Ht4).
    + apply NoDup_fst_map_to_list.
    + by intros [id t] ?%elem_of_map_to_list.
    + apply dev_life; [done | by rewrite Hs4 |]. intros id. rewrite Hs4, Ht4.
      case_decide as Hc; [by intros [? ?] |]. intros [t Ht]. destruct (sm_sessions (sessions h3) !! id) eqn:Es; [done |].
      exfalso. apply Hc. split; [| done]. apply list_elem_of_fmap. exists (id, t). split; [done |]. by apply elem_of_map_to_list.
Qed.

(** ** FIN *)

Lemma Remove_map sm id : sm_sessions (Remove sm id) = delete id (sm_sessions sm).
Proof. unfold Remove. destruct (sm_sessions sm !! id) eqn:E; [done |]. by rewrite delete_id. Qed.

Lemma Remove_registry sm id : registry_ok sm → registry_ok (Remove sm id).
Proof. intros Hr. unfold Remove. destruct (sm_sessions sm !! id); [by apply destroy_registry | done]. Qed.

Lemma fin_fields h p :
  let id := id_of (sessions h) p in
  sessions (handleFin h p) = Remove (sessions h) id ∧ tunnels (handleFin h p) = delete id (tunnels h)
  ∧ h_udp (handleFin h p) = UDPRelay.RemoveSession (h_udp h) id.
Proof.
  intros id. unfold handleFin. fold id. destruct (tunnels h !! id) as [t |] eqn:Et.
  - destruct (drop_tunnel_fields h id t) as (Hs & Ht & Hu & _). cbn. by rewrite <- Hs, <- Ht, <- Hu.
  - split_and!; [done | | done]. symmetry. by apply delete_id.
Qed.

Lemma fin_dev h p :
  dev_inv h → dev_inv (handleFin h p) ∧ ∀ c, clientSession (h_auth (handleFin h p)) !! c ≠ Some (id_of (sessions h) p).
Proof.
  intros Hd. unfold handleFin. set (id := id_of (sessions h) p). destruct (tunnels h !! id) as [t |] eqn:Et.
  - destruct (drop_tunnel_dev h id t Hd Et) as [[H1 H2 H3 H4] Hc]. split; [| exact Hc]. split; try done. cbn. by apply remove_session_inv.
  - split; [destruct Hd; split; try done; cbn; by apply remove_session_inv |].
    intros c Hc. destruct (di_client h Hd c id Hc) as (t & Ht & _). congruence.
Qed.

Lemma fin_inv h p : life_inv h → life_inv (handleFin h p).
Proof.
  intros Hl. destruct (fin_fields h p) as (Hs & Ht & _). apply dev_life; [by apply fin_dev, life_dev | |].
  - rewrite Hs. apply Remove_registry, Hl.
  - intros id. rewrite Hs, Ht, Remove_map. set (x := id_of _ _). destruct (decide (id = x)) as [-> | Hne].
    + rewrite lookup_delete_eq. by intros [? ?].
    + rewrite !lookup_delete_ne by done. apply Hl.
Qed.

(** ** The handshake *)

(** What the key exchange did to the session manager. *)
Definition created (sm sm' : SessionManager) (p : nat) : Prop :=
  ∃ s, sm_heap sm !! p = None ∧ sm_heap sm' = <[p := s]> (sm_heap sm)
    ∧ sm_sessions sm' = <[ID s := p]> (sm_sessions sm) ∧ ID s = nextID_add (sm_nextID sm).

Lemma hello_created hello static mc cs sm v i sm' res :
  HandleClientHelloWithVersion hello static mc cs sm v i = (sm', res) →
  match res with
  | Ret (sh, p, cid) => created sm sm' p
      ∧ DecryptClientID (ch_EncryptedClientID hello) (ch_EphemeralPub hello) static (in_unix i) = Ret cid
  | _ => sm' = sm ∨ ∃ p, created sm sm' p
  end.
Proof.
  unfold HandleClientHelloWithVersion, wrap_err.
  destruct (DecryptClientID _ _ _ _) as [cid | |]; [| by intros [= <- <-]; left | by intros [= <- <-]; left].
  destruct (GenerateKeyPair _) as [eph | |]; [| by intros [= <- <-]; left | by intros [= <- <-]; left]. cbn [mbind outcome_bind].
  destruct (ComputeSharedSecret _ _) as [sh | |]; [| by intros [= <- <-]; left | by intros [= <- <-]; left]. cbn [mbind outcome_bind].
  destruct (DeriveSessionKeys _ _ _ _ _) as [keys | |]; [| by intros [= <- <-]; left | by intros [= <- <-]; left]. cbn [mbind outcome_bind].
  destruct (Create _ _ _ _ _) as [[p sm1] | |] eqn:Ec; [| by intros [= <- <-]; left | by intros [= <- <-]; left]. cbn [mbind outcome_bind].
  apply Create_eq in Ec as (s & Hp & Hn & Hh & Hm & Hid & _).
  assert (created sm sm1 p) as Hc by (exists s; split_and!; congruence).
  intros [= <- <-]. destruct (encryptSessionToken _ _ _); cbn; [by split | by right; exists p ..].
Qed.

Lemma created_registry sm sm' p : registry_ok sm → created sm sm' p → registry_ok sm'.
Proof.
  intros Hr (s & Hp & Hh & Hm & Hid) id q. rewrite Hm, Hh, lookup_insert_Some. intros [[<- <-] | [Hne Hq]].
  - exists s. by rewrite lookup_insert_eq.
  - destruct (Hr id q Hq) as (s' & Hs' & Hi). exists s'. rewrite lookup_insert_ne; [done |]. congruence.
Qed.

Lemma created_id sm sm' p : created sm sm' p → id_of sm' p = nextID_add (sm_nextID sm) ∧ sm_sessions sm' = <[id_of sm' p := p]> (sm_sessions sm).
Proof. intros (s & Hp & Hh & Hm & Hid). unfold id_of. rewrite Hh, lookup_insert_eq. by rewrite Hm. Qed.

Lemma DecryptClientID_len enc pub kp now cid : DecryptClientID enc pub kp now = Ret cid → cid ≠ [].
Proof.
  unfold DecryptClientID. destruct (negb _); [done |]. destruct (_ <? 24); [done |].
  destruct (slice enc 0 24) as [nonce | |]; try done. cbn [mbind outcome_bind].
  destruct (slice enc 24 _) as [body | |]; try done. cbn [mbind outcome_bind].
  destruct (box_open _ _ _ _) as [d |]; [| done]. destruct (_ <? 9); [done |].
  destruct (get_be 8 d 0 8) as [ts | |]; try done. cbn [mbind outcome_bind]. destruct (_ || _); [done |].
  destruct (index d 8) as [n | |]; try done. cbn [mbind outcome_bind]. destruct (Z.eqb_spec n 16) as [-> |]; [| done]. cbn [negb].
  destruct (Z.ltb_spec (len d - 9) 16) as [| Hl]; [done |]. unfold slice. destruct (_ && _); [| done]. intros [= <-].
  intros H. apply (f_equal len) in H. rewrite len_take, len_drop, (@len_nil Z) in H. lia.
Qed.

(** The id the next session gets is not in use. *)
Definition fresh_id (h : handler) : Prop := sm_sessions (sessions h) !! nextID_add (sm_nextID (sessions h)) = None.

(** The client id a waiting handshake carries is one that was decrypted. *)
Definition waiting_ok (w : waiting) : Prop := ∀ cid, wt_cached w = Some cid → cid ≠ [].

(** The outcomes of a handshake. *)
Inductive committed (h : handler) (w : waiting) (k : hs_clock) : reply → handler → Prop :=
| committed_early reason rc :
    rc = h_replay h ∨ rc = snd (Accept (h_replay h) (ch_EncryptedClientID (wt_hello w)) (ck_replay k)) →
    committed h w k (Decoy reason) (with_replay h rc)
| committed_fail rc sm :
    (sm = sessions h ∨ ∃ p, created (sessions h) sm p) →
    committed h w k (Decoy "handshake_fail") (put_sessions (with_replay h rc) sm)
| committed_reject reason rc sm p :
    created (sessions h) sm p →
    committed h w k (Decoy reason) (put_sessions (with_replay h rc) (Remove sm (id_of sm p)))
| committed_accept sh rc sm p cid auth h' :
    created (sessions h) sm p → cid ≠ [] →
    Accept (h_replay h) (ch_EncryptedClientID (wt_hello w)) (ck_replay k) = (true, rc) →
    IsAuthorized (h_auth h) cid = true → AdmitSession (h_auth h) cid (id_of sm p) = (true, auth) →
    sm_sessions (sessions h') = sm_sessions sm →
    sm_heap (sessions h') = alter (λ s, set_attach s (ck_attached k) (DetachedAt s)) p (sm_heap sm) →
    tunnels h' = <[id_of sm p := mkTunnel cid false]> (tunnels h) →
    h_auth h' = auth → h_replay h' = rc → h_udp h' = h_udp h → h_waiting h' = h_waiting h →
    committed h w k (Accepted sh) h'.

Lemma with_replay_id h : with_replay h (h_replay h) = h.
Proof. by destruct h. Qed.

Lemma commit_cases h w k r h' : waiting_ok w → hs_commit h w k = Ret (r, h') → committed h w k r h'.
Proof.
  intros Hw. unfold hs_commit.
  destruct (match wt_cached w with Some cid => _ | None => _ end) as [cid | |] eqn:Ecid; [| | done].
  2: { intros [= <- <-]. rewrite <- (with_replay_id h) at 2. constructor. by left. }
  assert (cid ≠ []) as Hcid.
  { destruct (wt_cached w) as [c |] eqn:Ec; [injection Ecid as <-; by apply Hw | by eapply DecryptClientID_len]. }
  destruct (Accept _ _ _) as [fresh rc] eqn:Ea. destruct fresh; cbn [negb].
  2: { intros [= <- <-]. constructor. right. by rewrite Ea. }
  destruct (HandleClientHelloWithVersion _ _ _ _ _ _ _) as [sm res] eqn:Eh. apply hello_created in Eh.
  change (sessions (with_replay h rc)) with (sessions h) in Eh.
  destruct res as [[[sh p] cid'] | |]; [| | done].
  2: { intros [= <- <-]. by constructor. }
  destruct Eh as [Hc _]. change (h_auth (put_sessions (with_replay h rc) sm)) with (h_auth h).
  destruct (IsAuthorized (h_auth h) cid) eqn:Eauth; cbn [negb]; [| intros [= <- <-]; by apply committed_reject].
  destruct (AdmitSession (h_auth h) cid (id_of sm p)) as [adm auth] eqn:Ead.
  destruct adm; cbn [negb]; intros [= <- <-]; [| by apply committed_reject].
  by eapply (committed_accept h w k sh rc sm p cid auth).
Qed.

Lemma admit_client ca c s b ca' c' s' :
  AdmitSession ca c s = (b, ca') → clientSession ca' !! c' = Some s' →
  (c' = c ∧ s' = s) ∨ clientSession ca !! c' = Some s'.
Proof.
  unfold AdmitSession. destruct (openMode ca); [intros [= <- <-]; by right |].
  destruct (clientSession ca !! c) eqn:Ec.
  - intros [= <- <-]. cbn. rewrite lookup_insert_Some. intros [[<- <-] | [_ ?]]; [by left | by right].
  - destruct (_ <=? _); intros [= <- <-]; [by right |]. cbn. rewrite lookup_insert_Some.
    intros [[<- <-] | [_ ?]]; [by left | by right].
Qed.

Lemma accept_inv h cid sm p auth h' :
  life_inv h → fresh_id h → created (sessions h) sm p → cid ≠ [] →
  AdmitSession (h_auth h) cid (id_of sm p) = (true, auth) →
  registry_ok (sessions h') → sm_sessions (sessions h') = sm_sessions sm →
  tunnels h' = <[id_of sm p := mkTunnel cid false]> (tunnels h) → h_auth h' = auth → h_udp h' = h_udp h → life_inv h'.
Proof.
  intros Hl Hf Hc Hcid Had Hr Hm Ht Ha Hu. destruct (created_id _ _ _ Hc) as [Hid Hmap]. set (id := id_of sm p) in *.
  assert (tunnels h !! id = None) as Hnew.
  { destruct (tunnels h !! id) eqn:E; [| done]. destruct (li_tunnel h Hl id) as [q Hq]; [done |]. unfold fresh_id in Hf. congruence. }
  pose proof (dev_owner h (life_dev h Hl)) as [Hda Hdo].
  assert (auth_inv (owner_of (tunnels h')) (h_auth h)) as Hi.
  { split; [done |]. intros c s Hs. destruct (li_client h Hl c s Hs) as (t & Hts & <-). unfold owner_of.
    rewrite Ht, lookup_insert_ne; [by rewrite Hts |]. congruence. }
  pose proof (auth_step_inv _ _ (AAdmit cid id) Hi) as Hi'. cbn [auth_step owned] in Hi'. rewrite Had in Hi'.
  apply dev_life; [| done |].
  - split.
    + intros id' t. rewrite Ht, lookup_insert_Some. intros [[<- <-] | [_ Ht']]; [done | by eapply (li_named h Hl)].
    + rewrite Ha. apply Hi'. unfold owner_of. by rewrite Ht, lookup_insert_eq.
    + intros c s. rewrite Ha. intros Hs. destruct (admit_client _ _ _ _ _ _ _ Had Hs) as [[-> ->] | Hold].
      * exists (mkTunnel cid false). by rewrite Ht, lookup_insert_eq.
      * destruct (li_client h Hl c s Hold) as (t & Hts & Htc). exists t. rewrite Ht, lookup_insert_ne; [done | congruence].
    + rewrite Hu. apply Hl.
  - intros id'. rewrite Ht, Hm, Hmap, !lookup_insert_is_Some. intros [-> | [Hne Hs]]; [by left |]. right. split; [done |]. by apply Hl.
Qed.

Lemma commit_inv h w k r h' : life_inv h → fresh_id h → committed h w k r h' → life_inv h'.
Proof.
  intros Hl Hf Hc. destruct Hc as [reason rc _ | rc sm Hsm | reason rc sm p Hsm | sh rc sm p cid auth h' Hsm Hcid Hacc Hau Had Hm Hh Ht Ha _ Hu _].
  - by destruct Hl.
  - apply dev_life; [by destruct Hl | |].
    + destruct Hsm as [-> | [p Hsm]]; [apply Hl |]. eapply created_registry; [apply Hl | done].
    + intros id Hid. destruct (li_tunnel h Hl id Hid) as [q Hq]. destruct Hsm as [-> | [p Hsm]]; [by exists q |].
      destruct (created_id _ _ _ Hsm) as [_ Hmap]. change (sessions (put_sessions _ sm)) with sm. rewrite Hmap.
      apply lookup_insert_is_Some. destruct (decide (id_of sm p = id)); [by left | right; by split; [| exists q]].
  - apply dev_life; [by destruct Hl | |].
    + apply Remove_registry. eapply created_registry; [apply Hl | done].
    + intros id Hid. destruct (li_tunnel h Hl id Hid) as [q Hq]. destruct (created_id _ _ _ Hsm) as [Hi Hmap].
      change (sessions (put_sessions _ ?x)) with x. rewrite Remove_map, Hmap, delete_insert_id; [by exists q |].
      unfold fresh_id in Hf. congruence.
  - eapply (accept_inv h cid sm p auth); try done. intros id q Hq. rewrite Hm in Hq.
    destruct (created_registry _ _ _ (li_reg h Hl) Hsm id q Hq) as (s & Hs & Hid). rewrite Hh.
    destruct (decide (p = q)) as [<- | Hne]; [rewrite lookup_alter_eq, Hs; by eexists | exists s; by rewrite lookup_alter_ne].
Qed.

Lemma hub_inv h b :
  life_inv h → same_ids (sessions h) (hb_sessions b) →
  (∀ id t, hb_tunnels b !! id = Some t → ∃ t0, tunnels h !! id = Some t0 ∧ tn_ClientID t0 = tn_ClientID t) →
  (∀ id t0, tunnels h !! id = Some t0 → ∃ t, hb_tunnels b !! id = Some t ∧ tn_ClientID t0 = tn_ClientID t) →
  life_inv (with_hub h b).
Proof.
  intros Hl Hs Ht Ht'. pose proof Hl as [Hr Hl1 Hl2 Hl3 Hl4 Hl5]. apply dev_life.
  - split; cbn; try done.
    + intros id t Hid. destruct (Ht id t Hid) as (t0 & H0 & <-). by eapply Hl2.
    + intros c s Hc. destruct (Hl4 c s Hc) as (t0 & H0 & <-). destruct (Ht' s t0 H0) as (t & H1 & ->). by exists t.
  - by eapply same_ids_registry.
  - intros id [t Hid]. destruct (Ht id t Hid) as (t0 & H0 & _). change (sessions (with_hub h b)) with (hb_sessions b).
    rewrite (sid_map _ _ Hs). apply Hl1. by exists t0.
Qed.

Lemma latch_tunnels (h : hub) id a i t :
  hb_tunnels (set_latch h id a) !! i = Some t ↔
  ∃ t0, hb_tunnels h !! i = Some t0 ∧ t = (if decide (id = i) then mkTunnel (tn_ClientID t0) a else t0).
Proof.
  unfold set_latch. cbn. destruct (decide (id = i)) as [<- | Hne].
  - rewrite lookup_alter_eq. destruct (hb_tunnels h !! id) as [t0 |]; cbn; [| by split; [| intros (? & ? & _)]].
    split; [intros [= <-]; by exists t0 | intros (? & [= <-] & ->); done].
  - rewrite lookup_alter_ne by done. split; [intros ->; by exists t | intros (? & ? & ->); done].
Qed.

Lemma attach_inv h msg now ackOK res b :
  life_inv h → authenticateFirstFrame (h_hub h) msg now ackOK = Ret (res, b) → life_inv (with_hub h b).
Proof.
  intros Hl E. destruct (authenticate_cases _ _ _ _ _ _ (li_reg h Hl) E) as [Hs Hc].
  destruct res as [[[p w] m] |]; [| apply hub_inv; [done | done | |]; unfold tunnels; rewrite Hc; eauto].
  destruct Hc as (data & s & t & _ & [_ _ _ _ [Ht _]] & Htun & _).
  apply hub_inv; [done | done | |]; unfold tunnels; rewrite Htun.
  - intros id t'. rewrite lookup_insert_Some. intros [[<- <-] | [_ ?]]; eauto.
  - intros id t0 H0. destruct (decide (ID s = id)) as [<- | Hne].
    + rewrite lookup_insert_eq. eexists. split; [done |]. cbn. congruence.
    + rewrite lookup_insert_ne by done. eauto.
Qed.

Lemma release_inv h p now : life_inv h → life_inv (with_hub h (release (h_hub h) p now)).
Proof.
  intros Hl. unfold release. destruct (sm_heap (hb_sessions (h_hub h)) !! p) as [s |] eqn:Es; [| by destruct h, Hl].
  apply hub_inv; [done | by apply (store_ids (set_latch (h_hub h) (ID s) false) p s) | |].
  - intros id t Hid. apply latch_tunnels in Hid as (t0 & H0 & ->). exists t0. split; [done |]. by case_decide.
  - intros id t0 H0. eexists. split; [apply latch_tunnels; by exists t0 |]. by case_decide.
Qed.

Lemma manage_inv h o :
  life_inv h → match o with AAdmit _ _ | ADestroyed _ _ => False | _ => True end →
  life_inv (with_auth h (auth_step (h_auth h) o)).
Proof.
  intros Hl Ho.
  assert (owned (owner_of (tunnels h)) o) as Hw by by destruct o.
  pose proof (auth_step_inv _ _ o (dev_owner h (life_dev h Hl)) Hw) as [Hd _].
  assert (∀ c s, clientSession (auth_step (h_auth h) o) !! c = Some s → clientSession (h_auth h) !! c = Some s) as Hsub.
  { intros c s. destruct o; try done; cbn.
    - unfold GetAndDestroyClientSession. destruct (clientSession (h_auth h) !! clientID); cbn; [| done].
      by intros [_ ?]%lookup_delete_Some.
    - by intros [? _]%map_lookup_filter_Some. }
  destruct Hl. split; try done. cbn. intros c s Hc. by apply li_client0, Hsub.
Qed.

Definition waits_ok (h : handler) : Prop := ∀ k w, h_waiting h !! k = Some w → waiting_ok w.

Lemma gate_cached h hello allow exempt overload unix cached :
  hs_gate h hello allow exempt overload unix = inr cached → waiting_ok (mkWaiting hello cached).
Proof.
  unfold hs_gate. intros E cid Hc. cbn in Hc. subst cached. destruct allow.
  { destruct overload; [done |]. by destruct (_ <=? _)%nat. }
  destruct (DecryptClientID _ _ _ _) as [c | |] eqn:Ed; try done. destruct (exempt c) as [[|] |]; try done.
  destruct overload; [done |]. destruct (_ <=? _)%nat; [done |]. injection E as <-. by eapply DecryptClientID_len.
Qed.

Lemma committed_waiting h w k r h' : committed h w k r h' → h_waiting h' = h_waiting h.
Proof. by destruct 1. Qed.

Lemma reap_waiting ids h : h_waiting (reapOrphanTunnels h ids) = h_waiting h.
Proof.
  revert h. induction ids as [| x ids IH]; intros h; [done |].
  change (reapOrphanTunnels h (x :: ids)) with (reapOrphanTunnels (reap_one h x) ids). rewrite IH.
  unfold reap_one. destruct (tunnels h !! x) as [t |]; [| done]. apply (drop_tunnel_fields h x t).
Qed.

Lemma tick_waiting h bound now : h_waiting (cleanup_tick h bound now) = h_waiting h.
Proof.
  unfold cleanup_tick. destruct (CleanupNewbornOrphans _ _ _ _) as [orphans sm1].
  destruct (CleanupDetachedGhosts _ _ _ _ _) as [ghosts sm2]. destruct (SessionManager.Cleanup _ _) as [removed sm3].
  assert (∀ l h, h_waiting (foldl reap_idle h l) = h_waiting h) as Hf.
  { clear. induction l as [| [id t] l IH]; intros h; cbn; [done |]. rewrite IH. unfold reap_idle.
    destruct (Get _ _); [done |]. apply (drop_tunnel_fields h id t). }
  assert (∀ h sm, h_waiting (put_sessions h sm) = h_waiting h) as Hp by done.
  destruct (removed =? 0)%nat; rewrite ?Hf, Hp, reap_waiting, Hp, reap_waiting; done.
Qed.

Lemma fin_waiting h p : h_waiting (handleFin h p) = h_waiting h.
Proof.
  unfold handleFin. destruct (tunnels h !! _) as [t |]; [| done].
  by destruct (drop_tunnel_fields h (id_of (sessions h) p) t) as (_ & _ & _ & _ & Hw).
Qed.

Fixpoint ids_fresh (h : handler) (ops : list life_op) : Prop :=
  match ops with
  | [] => True
  | o :: ops' =>
    match o with LCommit _ _ => fresh_id h | _ => True end
    ∧ match life_step h o with Ret (_, h1) => ids_fresh h1 ops' | _ => True end
  end.

Lemma life_step_inv h o r h' :
  life_inv h → waits_ok h → match o with LCommit _ _ => fresh_id h | _ => True end →
  life_step h o = Ret (r, h') → life_inv h' ∧ waits_ok h'.
Proof.
  intros Hl Hw Hf E. destruct o; cbn [life_step] in E.
  - destruct (hs_gate _ _ _ _ _ _) as [rp | cached] eqn:Eg; injection E as <- <-; [done |]. split; [by destruct Hl |].
    intros k' w'. cbn. rewrite lookup_insert_Some. intros [[<- <-] | [_ ?]]; [by eapply gate_cached | by eapply Hw].
  - destruct (h_waiting h !! k) as [w |] eqn:Ek; [| done].
    destruct (hs_commit _ w c) as [[rp h1] | |] eqn:Ec; try done. injection E as <- <-.
    apply commit_cases in Ec; [| by eapply Hw]. split; [eapply commit_inv; [| | exact Ec]; [by destruct Hl | done] |].
    intros k' w'. rewrite (committed_waiting _ _ _ _ _ Ec). cbn. intros [_ ?]%lookup_delete_Some. by eapply Hw.
  - destruct (authenticateFirstFrame _ _ _ _) as [[res b] | |] eqn:Ea; try done. injection E as <- <-.
    split; [by eapply attach_inv | done].
  - injection E as <- <-. split; [by apply release_inv | done].
  - injection E as <- <-. split; [by apply fin_inv |]. intros k w. rewrite fin_waiting. apply Hw.
  - injection E as <- <-. split; [by apply cleanup_tick_inv |]. intros k w. rewrite tick_waiting. apply Hw.
  - injection E as <- <-. split; [by apply (manage_inv h (AAdd clientID)) | done].
  - injection E as <- <-. unfold handleRemoveClient. destruct (len clientID =? 0); [done |].
    split; [by apply (manage_inv h (ARevoke clientID)) | done].
  - injection E as <- <-. split; [by apply (manage_inv h (ALimit userID max)) | done].
  - injection E as <- <-. split; [by apply (manage_inv h (ASync clients limits)) | done].
Qed.

Lemma life_run_inv ops h rs h' :
  life_inv h → waits_ok h → ids_fresh h ops → life_run h ops = Ret (rs, h') → life_inv h' ∧ waits_ok h'.
Proof.
  revert h rs. induction ops as [| o ops IH]; intros h rs Hl Hw Hf E; cbn [life_run] in E; [by injection E as <- <- |].
  destruct (life_step h o) as [[r h1] | |] eqn:Es; try done. cbn [mbind outcome_bind] in E.
  destruct (life_run h1 ops) as [[rs' h2] | |] eqn:Er; try done. injection E as <- <-. cbn [ids_fresh] in Hf.
  destruct Hf as [Hf1 Hf2]. rewrite Es in Hf2. destruct (life_step_inv _ _ _ _ Hl Hw Hf1 Es) as [Hl1 Hw1]. by eapply IH.
Qed.

(** A server that has just started. *)
Definition starting (h : handler) : Prop :=
  sm_sessions (sessions h) = ∅ ∧ tunnels h = ∅ ∧ (∃ ids, h_auth h = NewClientAuth ids)
  ∧ (∃ t m, 0 ≤ m ∧ h_udp h = NewUDPRelay t m) ∧ h_waiting h = ∅.

Lemma starting_inv h : starting h → life_inv h ∧ waits_ok h.
Proof.
  intros (Hs & Ht & [ids Ha] & (t & m & Hm & Hu) & Hw). split.
  - assert (clientSession (h_auth h) = ∅) as Hc by (rewrite Ha; unfold NewClientAuth; by destruct (_ =? 0)).
    split.
    + intros id p. by rewrite Hs, lookup_empty.
    + intros id. rewrite Ht, lookup_empty. by intros [? ?].
    + intros id t'. by rewrite Ht, lookup_empty.
    + rewrite Ha. apply (new_auth_inv (λ _, []) ids).
    + intros c s. by rewrite Hc, lookup_empty.
    + rewrite Hu. by apply relay_inv_new.
  - intros k w. by rewrite Hw, lookup_empty.
Qed.


(** What a handshake that ended in [r] must have left behind. *)
Definition hs_effect (h : handler) (r : reply) (h' : handler) : Prop :=
  match r with
  | Decoy reason =>
    tunnels h' = tunnels h ∧ h_auth h' = h_auth h ∧ h_udp h' = h_udp h
    ∧ (reason ≠ "handshake_fail" → sm_sessions (sessions h') = sm_sessions (sessions h))
  | Accepted _ =>
    ∃ cid p s, IsAuthorized (h_auth h) cid = true
      ∧ sm_sessions (sessions h') = <[ID s := p]> (sm_sessions (sessions h)) ∧ sm_heap (sessions h') !! p = Some s
      ∧ sm_sessions (sessions h) !! ID s = None ∧ tunnels h !! ID s = None
      ∧ tunnels h' = <[ID s := mkTunnel cid false]> (tunnels h)
      ∧ (openMode (h_auth h) = false → clientSession (h_auth h') !! cid = Some (ID s) ∧ CheckDeviceLimit (h_auth h) cid = true)
  end.

Lemma admit_records ca c s ca' :
  AdmitSession ca c s = (true, ca') → openMode ca = false → clientSession ca' !! c = Some s ∧ CheckDeviceLimit ca c = true.
Proof.
  unfold AdmitSession, CheckDeviceLimit. intros E Ho. rewrite Ho in *. destruct (clientSession ca !! c) eqn:Ec.
  - injection E as <-. cbn. by rewrite lookup_insert_eq.
  - destruct (Z.leb_spec (limit_of ca (parseUserID c)) (len (sessions_of (activeSessions ca) (parseUserID c)))); [done |].
    injection E as <-. cbn. rewrite lookup_insert_eq. split; [done |]. by apply Z.ltb_lt.
Qed.

Lemma committed_effect h w k r h' : life_inv h → fresh_id h → committed h w k r h' → hs_effect h r h'.
Proof.
  intros Hl Hf Hc. destruct Hc as [reason rc _ | rc sm Hsm | reason rc sm p Hsm | sh rc sm p cid auth h' Hsm Hcid Hacc Hau Had Hm Hh Ht Ha _ Hu _].
  - done.
  - by split_and!.
  - split_and!; try done. intros _. destruct (created_id _ _ _ Hsm) as [Hi Hmap].
    change (sessions (put_sessions _ ?x)) with x. rewrite Remove_map, Hmap, delete_insert_id; [done |]. unfold fresh_id in Hf. congruence.
  - destruct Hsm as (s & Hp & Hheap & Hmap & Hid). assert (id_of sm p = ID s) as Hids by (unfold id_of; by rewrite Hheap, lookup_insert_eq).
    rewrite Hids in *. exists cid, p, (set_attach s (ck_attached k) (DetachedAt s)). change (ID (set_attach s _ _)) with (ID s).
    assert (sm_sessions (sessions h) !! ID s = None) as Hnew by (unfold fresh_id in Hf; congruence).
    split_and!; [done | congruence | | done | | done |].
    + by rewrite Hh, lookup_alter_eq, Hheap, lookup_insert_eq.
    + destruct (tunnels h !! ID s) eqn:Et; [| done]. destruct (li_tunnel h Hl (ID s)) as [q Hq]; [done | congruence].
    + rewrite Ha. by apply admit_records.
Qed.


(** FIN ends a session completely.  In any reachable state, the FIN of a
    registered session removes it from the table, wipes its keys, and removes
    its tunnel, its UDP flows and the device entry that named it; the sessions,
    tunnels and flows of other ids are untouched. *)
Theorem fin_complete h0 ops rs h p s :
  starting h0 → ids_fresh h0 ops → life_run h0 ops = Ret (rs, h) →
  sm_heap (sessions h) !! p = Some s → sm_sessions (sessions h) !! ID s = Some p →
  let h' := handleFin h p in
  sm_sessions (sessions h') = delete (ID s) (sm_sessions (sessions h))
  ∧ sm_heap (sessions h') !! p = Some (zeroKeyMaterialLocked s)
  ∧ tunnels h' = delete (ID s) (tunnels h)
  ∧ (∀ c, clientSession (h_auth h') !! c ≠ Some (ID s))
  ∧ ∀ f, flows (h_udp h') !! f = if sessionID f =? ID s then None else flows (h_udp h) !! f.
Proof.
  intros H0 Hf E Hp Hreg h'. destruct (starting_inv h0 H0) as [Hl0 Hw0]. destruct (life_run_inv _ _ _ _ Hl0 Hw0 Hf E) as [Hl _].
  assert (id_of (sessions h) p = ID s) as Hid by (unfold id_of; by rewrite Hp).
  destruct (fin_fields h p) as (Hs & Ht & Hu). destruct (fin_dev h p (life_dev h Hl)) as [_ Hc].
  rewrite Hid in *. unfold h'. split_and!; [| | done | done |].
  - by rewrite Hs, Remove_map.
  - rewrite Hs. unfold Remove. rewrite Hreg. cbn. by rewrite lookup_alter_eq, Hp.
  - intros f. rewrite Hu. unfold UDPRelay.RemoveSession.
    destruct (drop_flows_spec (λ k _, sessionID k =? ID s) (h_udp h) (li_udp h Hl)) as [_ ->].
    destruct (flows (h_udp h) !! f) as [q |] eqn:Ef; [| by destruct (_ =? _)].
    by destruct (ui_table _ (li_udp h Hl) f q Ef) as (g & -> & _).
Qed.

End lifecycle.

(** ** Witnesses *)

Module LifeDemo.
Import Toy.
#[local] Existing Instances toy_aead toy_dh toy_box toy_kdf.

Definition cfg1 : config := mkConfig 1 4 8192 static_kp.

Definition empty_server : handler :=
  mkHandler (mkHub (mkSM ∅ ∅ 100 0) ∅ empty_pools 65536 true) (NewClientAuth [uuid])
    (NewReplayCacheWithOptions 100 (300 * Second)) (NewUDPRelay (60 * Second) 8) [] 0 ∅.

Definition clock : hs_clock := mkClock 1100 1100 inputs 9.
Definition gate (k : nat) (t : Z) : life_op := LGate k (hello_at t) true (λ _, None) false 1100.

Definition run_to (ops : list life_op) : list reply * handler :=
  match life_run cfg1 empty_server ops with Ret r => r | _ => ([], empty_server) end.

(** One handshake, and a FIN of the session it made. *)
Definition connect : list life_op := [gate 0 1000; LCommit 0 clock].
Definition connected : handler := snd (run_to connect).
Definition the_session : nat := default 0%nat (sm_sessions (sessions connected) !! 1).
Definition server_session : Session := default (NewSession 0 [] [] 0 None) (sm_heap (sessions connected) !! the_session).

(** A second handshake passed the gate before the first took effect. *)
Definition both : list life_op := [gate 0 1000; gate 1 1001; LCommit 0 clock; LCommit 1 clock].
End LifeDemo.

Section life_witnesses.
Import LifeDemo.
#[local] Existing Instances Toy.toy_aead Toy.toy_dh Toy.toy_box Toy.toy_kdf.

Lemma empty_starting : starting empty_server.
Proof.
  split_and!; try done; [by exists [uuid] |]. exists (60 * Second), 8. split; [lia | done].
Qed.

Lemma connect_fresh : ids_fresh cfg1 empty_server connect.
Proof. vm_compute. repeat split. Qed.



Lemma fin_complete_witness :
  let h' := handleFin connected the_session in
  sm_sessions (sessions h') = delete 1 (sm_sessions (sessions connected))
  ∧ sm_heap (sessions h') !! the_session = Some (zeroKeyMaterialLocked server_session)
  ∧ tunnels h' = delete 1 (tunnels connected)
  ∧ (∀ c, clientSession (h_auth h') !! c ≠ Some 1)
  ∧ ∀ f, flows (h_udp h') !! f = if sessionID f =? 1 then None else flows (h_udp connected) !! f.
Proof.
  apply (fin_complete cfg1 empty_server connect (fst (run_to connect)) connected the_session server_session empty_starting connect_fresh);
    vm_compute; reflexivity.
Defined.

(** ** What the code does beside its comments *)

(** The capacity check and the session's creation are two steps: with room for
    one session, two handshakes that pass the check before either finishes are
    both accepted. *)
Theorem max_clients_overshoot :
  let h := snd (run_to both) in
  MaxClients cfg1 = 1%nat ∧ length (fst (run_to both)) = 2%nat ∧ Count (sessions h) = 2%nat ∧ size (tunnels h) = 2%nat.
Proof. vm_compute. done. Qed.

(** Revoking a client ([handleRemoveClient]) unregisters its session id but
    leaves the session and its tunnel. *)
Theorem revoke_keeps_session :
  let h := handleRemoveClient connected uuid in
  IsAuthorized (h_auth h) uuid = false ∧ Get (sessions h) 1 = Some the_session
  ∧ tunnels h !! 1 = Some (mkTunnel uuid false).
Proof. vm_compute. done. Qed.

(** The FIN of a session that is already gone lowers the client gauge again. *)
Theorem double_fin_miscounts :
  h_active connected = 1 ∧ h_active (handleFin (handleFin connected the_session) the_session) = -1.
Proof. vm_compute. done. Qed.

End life_witnesses.
