(* ===== verification/PostDispatch.v ===== *)
(** * The front door of the server ([server/handler.go]: [ServeHTTP] and the
      dispatcher of POST bodies)

    What a request that is not a WebSocket upgrade becomes: a decoy page, a
    handshake, or a chunk of a session on its way to a handler.  The payload is
    what [ReadBodyLimited] and [ParseUploadRequest] made of the body ([None] when
    they failed); the answers of the limiters are inputs, as in [Lifecycle]. *)

From S2P Require Import Prelude.
From S2P Require Import Primitives.
From S2P Require Import BufPool.
From S2P Require Import Chunk.
From S2P Require Import ReplayWindow.
From S2P Require Import Session.
From S2P Require Import SessionManager.
From S2P Require Import Handshake.
From S2P Require Import Attach.
From S2P Require Import Lifecycle.
From stdpp Require Import base list gmap strings.

#[local] Open Scope Z_scope.

(** Where [routeDataChunk] sends a chunk. *)
Inductive route := ToAckOnly | ToData | ToKeepalive | ToConnect | ToUDP | ToControl | ToFin | ToDownload.

Inductive answer :=
| ADecoy (reason : string)
| ALimited (bucket : string)             (* a decoy with the rate-limit sentinel *)
| AHello (hello : ClientHello)           (* on to [handleHandshakeNew] *)
| ARoute (p : nat) (c : Chunk) (r : route).

Record request := mkRequest { rq_POST : bool; rq_JSON : bool; rq_payload : option bytes }.

(** The limiters' answers: the exemption cache, the byte ceiling of an exempt
    client, the data bucket of the address. *)
Record limits := mkLimits { isExempt : bytes → bool; allowBytes : bytes → Z → bool; allowData : bool }.

Section dispatch.
Context {HA : AEAD}.

Definition route_of (flags : Z) : route :=
  if flags =? FlagData then ToData
  else if (flags =? FlagPadding) || (flags =? FlagKeepalive) then ToKeepalive
  else if flags =? FlagConnect then ToConnect
  else if flags =? FlagUDP then ToUDP
  else if flags =? FlagControl then ToControl
  else if flags =? FlagFin then ToFin
  else if flags =? FlagStreamOpen then ToDownload
  else ToKeepalive.

Definition routeDataChunk (h : handler) (p : nat) (s : Session) (chunk : Chunk) (now : Z) : answer * handler :=
  let '(fresh, s') := SessionAcceptSeqNum s (SeqNum chunk) now in
  (ARoute p chunk (if fresh then route_of (Flags chunk) else ToAckOnly), with_hub h (store (h_hub h) p s')).

Definition tunnelClientIDForSession (h : handler) (id : Z) : bytes :=
  match tunnels h !! id with Some t => tn_ClientID t | None => [] end.

Definition v1HandshakeMin : Z := 32 + EncryptedClientIDSize.

(** Neither viable: decoy. *)
Definition handshake_or_decoy (payload : bytes) : answer :=
  if v1HandshakeMin <=? len payload
  then AHello (mkClientHello (take 32 payload) (take (Z.to_nat EncryptedClientIDSize) (drop 32 payload)))
  else ADecoy "protocol_unknown".

Definition handleNewFormatPost (h : handler) (payload : option bytes) (l : limits) (now : Z) : outcome (answer * handler) :=
  match payload with
  | None => Ret (ADecoy "body_invalid", h)
  | Some payload =>
    if sessionTokenSize + MinChunk <=? len payload then
      match findSessionByHint (sessions h) (take (Z.to_nat sessionTokenSize) payload) with
      | None => Ret (handshake_or_decoy payload, h)
      | Some p =>
        match sm_heap (sessions h) !! p with
        | None => Panic
        | Some s =>
          match DecryptChunkSafe s (drop (Z.to_nat sessionTokenSize) payload) now with
          | Panic => Panic
          | Err _ => Ret (handshake_or_decoy payload, h)
          | Ret (chunk, s1) =>
            let h1 := with_hub h (store (h_hub h) p s1) in
            let cid := tunnelClientIDForSession h1 (ID s) in
            if negb (bytes_eqb cid []) && isExempt l cid then
              if allowBytes l cid (len (Payload chunk)) then Ret (routeDataChunk h1 p s1 chunk now)
              else Ret (ALimited "data-clientid", h1)
            else if allowData l then Ret (routeDataChunk h1 p s1 chunk now)
            else Ret (ALimited "data", h1)
          end
        end
      end
    else Ret (handshake_or_decoy payload, h)
  end.

Definition ServeHTTP (h : handler) (r : request) (l : limits) (now : Z) : outcome (answer * handler) :=
  if negb (rq_POST r) || negb (rq_JSON r) then Ret (ADecoy "not_json_post", h) else handleNewFormatPost h (rq_payload r) l now.

(** ** Who gets past the door *)

(** The payload is a chunk of the registered session at [p]: its token verifies
    under the session's key and the rest decrypts, at [now], to [c]. *)
Record authentic (h : handler) (payload : bytes) (now : Z) (p : nat) (s : Session) (c : Chunk) : Prop := {
  au_len : sessionTokenSize + MinChunk ≤ len payload;
  au_session : sm_heap (sessions h) !! p = Some s ∧ sm_sessions (sessions h) !! ID s = Some p;
  au_token : verifySessionToken (drop 4 (take (Z.to_nat sessionTokenSize) payload)) (ID s) (RecvKey s) = true;
  au_chunk : DecryptChunkSafe s (drop (Z.to_nat sessionTokenSize) payload) now = Ret (c, set_activity s now);
}.

(** The handler after the chunk of [p] was seen: its window and activity moved. *)
Definition seen_by (h : handler) (p : nat) (s : Session) (now : Z) : handler := with_hub h (store (h_hub h) p s).

Lemma dispatch_cases h payload l now a h' :
  registry_ok (sessions h) → handleNewFormatPost h (Some payload) l now = Ret (a, h') →
  (h' = h ∧ a = handshake_or_decoy payload ∧ ∀ p s c, ¬ (authentic h payload now p s c ∧ findSessionByHint (sessions h) (take (Z.to_nat sessionTokenSize) payload) = Some p))
  ∨ ∃ p s c, authentic h payload now p s c ∧
    ((∃ b, a = ALimited b ∧ h' = seen_by h p (set_activity s now) now)
     ∨ ∃ fresh w, AcceptSeqNum (recvWindow s) (SeqNum c) = (fresh, w)
         ∧ a = ARoute p c (if fresh then route_of (Flags c) else ToAckOnly)
         ∧ sm_heap (sessions h') = <[p := set_activity (set_seq_window (set_activity s now) (sendSeq s) w) now]> (sm_heap (sessions h))
         ∧ sm_sessions (sessions h') = sm_sessions (sessions h)).
Proof.
  intros Hr. unfold handleNewFormatPost. destruct (Z.leb_spec (sessionTokenSize + MinChunk) (len payload)) as [Hlen | Hlen].
  2: { intros [= <- <-]. left. split_and!; [done | done |]. intros p s c [[Hl _ _ _] _]. lia. }
  destruct (findSessionByHint (sessions h) _) as [p |] eqn:Ef; [| intros [= <- <-]; left; split_and!; [done | done |]; by intros p s c [_ ?]].
  destruct (findSessionByHint_sound _ _ _ Hr Ef) as (s & Es & Hreg & Htok). rewrite Es.
  destruct (DecryptChunkSafe s _ now) as [[c s1] | |] eqn:Ed; [| | done].
  2: { intros [= <- <-]. left. split_and!; [done | done |]. intros q s' c [[_ [Es' _] _ Ed'] [= <-]]. rewrite Es in Es'. injection Es' as <-. congruence. }
  destruct (DecryptChunkSafe_state _ _ _ _ _ Ed) as [-> _]. intros E. right. exists p, s, c. split; [by split |].
  assert (∀ b, Ret (ALimited b, with_hub h (store (h_hub h) p (set_activity s now))) = Ret (a, h') → ∃ b, a = ALimited b ∧ h' = seen_by h p (set_activity s now) now) as Hlim
    by (intros b [= <- <-]; by exists b).
  assert (Ret (routeDataChunk (with_hub h (store (h_hub h) p (set_activity s now))) p (set_activity s now) c now) = Ret (a, h') →
    ∃ fresh w, AcceptSeqNum (recvWindow s) (SeqNum c) = (fresh, w) ∧ a = ARoute p c (if fresh then route_of (Flags c) else ToAckOnly)
      ∧ sm_heap (sessions h') = <[p := set_activity (set_seq_window (set_activity s now) (sendSeq s) w) now]> (sm_heap (sessions h))
      ∧ sm_sessions (sessions h') = sm_sessions (sessions h)) as Hroute.
  { unfold routeDataChunk, SessionAcceptSeqNum. cbn [recvWindow set_activity]. destruct (AcceptSeqNum (recvWindow s) (SeqNum c)) as [fresh w] eqn:Ea.
    intros [= <- <-]. exists fresh, w. split_and!; [done | done | | done]. cbn. by rewrite insert_insert_eq. }
  destruct (negb _ && _); [destruct (allowBytes l _ _) | destruct (allowData l)]; eauto.
Qed.

Lemma parse_plaintext_total pt : parse_plaintext pt ≠ Panic.
Proof.
  unfold parse_plaintext. destruct (Z.ltb_spec (len pt) HeaderSize) as [| Hl]; [done |]. unfold HeaderSize in *.
  rewrite !get_be_ret by (cbn; lia). cbn [mbind outcome_bind]. destruct (index_ret pt 8) as (x & _ & ->); [lia |]. cbn [mbind outcome_bind].
  rewrite slice_ret by lia. done.
Qed.

Lemma DecryptWith_total data g : DecryptWith data g ≠ Panic.
Proof.
  unfold DecryptWith, DecryptWithAAD. destruct (Z.ltb_spec (len data) MinChunk) as [| Hl]; [done |]. unfold MinChunk, HeaderSize, TagSize, NonceSize in *.
  rewrite !slice_ret by lia. cbn [mbind outcome_bind]. destruct (aead_open _ _ _ _); [apply parse_plaintext_total | done].
Qed.

Lemma DecryptChunk_total data k : DecryptChunk data k ≠ Panic.
Proof.
  unfold DecryptChunk. destruct (Z.ltb_spec (len data) MinChunk) as [| Hl]; [done |]. unfold MinChunk, HeaderSize, TagSize, NonceSize in *.
  destruct (newGCM_cases k) as [-> | [e ->]]; cbn [mbind outcome_bind]; [| done].
  rewrite !slice_ret by lia. cbn [mbind outcome_bind]. destruct (aead_open _ _ _ _); [apply parse_plaintext_total | done].
Qed.

Lemma or_else_total {A} (m k : outcome A) : m ≠ Panic → k ≠ Panic → or_else m k ≠ Panic.
Proof. by destruct m. Qed.

Lemma DecryptChunkSafe_total s data now : DecryptChunkSafe s data now ≠ Panic.
Proof.
  unfold DecryptChunkSafe. destruct (destroyed s); [done |]. set (old := match oldRecvKey s with Some k => _ | None => _ end).
  destruct (recvGCM s) as [g |].
  - assert (or_else (DecryptWith data g) (or_else (match oldRecvGCM s with Some g => DecryptWith data g | None => Err "nil" end)
        (or_else (match old with Some k => DecryptChunk data k | None => Err "nil" end) (Err "decrypt failed with cached GCM"))) ≠ Panic) as H.
    { apply or_else_total; [apply DecryptWith_total |]. apply or_else_total; [destruct (oldRecvGCM s); [apply DecryptWith_total | done] |].
      apply or_else_total; [destruct old; [apply DecryptChunk_total | done] | done]. }
    by destruct (or_else _ _).
  - pose proof (DecryptChunk_total data (RecvKey s)). destruct (DecryptChunk data (RecvKey s)); [done | | done].
    destruct old as [k |]; [| done]. pose proof (DecryptChunk_total data k). by destruct (DecryptChunk data k).
Qed.

Lemma post_dispatch_total h payload l now : registry_ok (sessions h) → ∃ a h', handleNewFormatPost h payload l now = Ret (a, h').
Proof.
  intros Hr. unfold handleNewFormatPost. destruct payload as [payload |]; [| by eexists _, _]. destruct (_ <=? _); [| by eexists _, _].
  destruct (findSessionByHint _ _) as [p |] eqn:Ef; [| by eexists _, _]. destruct (findSessionByHint_sound _ _ _ Hr Ef) as (s & -> & _).
  pose proof (DecryptChunkSafe_total s (drop (Z.to_nat sessionTokenSize) payload) now) as Ht.
  destruct (DecryptChunkSafe _ _ _) as [[c s1] | |]; [| by eexists _, _ | done].
  destruct (negb _ && _); [destruct (allowBytes _ _ _) | destruct (allowData _)]; try (by eexists _, _); destruct (routeDataChunk _ _ _ _ _) as [a h']; by exists a, h'.
Qed.

(** ** No chunk reaches a handler twice *)

(** Requests one after another; a FIN that is routed here is not carried out. *)
Fixpoint serve_all (h : handler) (rs : list (request * limits * Z)) : outcome (list answer * handler) :=
  match rs with
  | [] => Ret ([], h)
  | (r, l, now) :: rs' => '(a, h1) ← ServeHTTP h r l now; '(as', h2) ← serve_all h1 rs'; Ret (a :: as', h2)
  end.

(** The session and number of a chunk that a handler received. *)
Definition handled (a : answer) : option (nat * Z) :=
  match a with ARoute _ _ ToAckOnly => None | ARoute p c _ => Some (p, SeqNum c) | _ => None end.

(** The AEAD gives bytes for bytes. *)
Definition opens_bytes : Prop := ∀ k n c a pt, is_bytes c → aead_open k n c a = Some pt → is_bytes pt.

Lemma parse_seq pt c : is_bytes pt → parse_plaintext pt = Ret c → 0 ≤ SeqNum c < 2 ^ 32.
Proof.
  intros Hb. unfold parse_plaintext. destruct (Z.ltb_spec (len pt) HeaderSize) as [| Hl]; [done |]. unfold HeaderSize in *.
  rewrite !get_be_ret by (cbn; lia). cbn [mbind outcome_bind]. destruct (index pt 8); [| done | done]. cbn [mbind outcome_bind].
  destruct (slice pt _ _); [| done | done]. cbn [mbind outcome_bind]. intros [= <-]. cbn [SeqNum].
  assert (len (take 4 (drop (Z.to_nat 4) pt)) = 4) as E4 by (unfold len in *; rewrite length_take, length_drop; lia).
  pose proof (be_value_range (take 4 (drop (Z.to_nat 4) pt))) as Hv. rewrite E4 in Hv. apply Hv. by apply is_bytes_take, is_bytes_drop.
Qed.

Lemma decrypt_seq s data now c s' : opens_bytes → is_bytes data → DecryptChunkSafe s data now = Ret (c, s') → 0 ≤ SeqNum c < 2 ^ 32.
Proof.
  intros Ho Hb. assert (∀ lo hi d, slice data lo hi = Ret d → is_bytes d) as Hs.
  { intros lo hi d. unfold slice. destruct (_ && _); [| done]. intros [= <-]. by apply is_bytes_take, is_bytes_drop. }
  assert (∀ g c, DecryptWith data g = Ret c → 0 ≤ SeqNum c < 2 ^ 32) as HW.
  { intros g c0. unfold DecryptWith, DecryptWithAAD. destruct (_ <? _); [done |]. destruct (slice data 0 NonceSize); [| done | done]. cbn [mbind outcome_bind].
    destruct (slice data NonceSize (len data)) as [ct | |] eqn:Es; [| done | done]. cbn [mbind outcome_bind].
    destruct (aead_open _ _ _ _) as [pt |] eqn:Eo; [| done]. apply parse_seq. by eapply Ho; [eapply Hs |]. }
  assert (∀ k c, DecryptChunk data k = Ret c → 0 ≤ SeqNum c < 2 ^ 32) as HC.
  { intros k c0. unfold DecryptChunk. destruct (_ <? _); [done |]. destruct (newGCM k); [| done | done]. cbn [mbind outcome_bind].
    destruct (slice data 0 NonceSize); [| done | done]. cbn [mbind outcome_bind].
    destruct (slice data NonceSize (len data)) as [ct | |] eqn:Es; [| done | done]. cbn [mbind outcome_bind].
    destruct (aead_open _ _ _ _) as [pt |] eqn:Eo; [| done]. apply parse_seq. by eapply Ho; [eapply Hs |]. }
  assert (∀ (m k : outcome Chunk) c, or_else m k = Ret c → m = Ret c ∨ k = Ret c) as Hor by (intros [] k c0; cbn; auto).
  unfold DecryptChunkSafe. destruct (destroyed s); [done |]. set (old := match oldRecvKey s with Some k => _ | None => _ end). destruct (recvGCM s) as [g |].
  - destruct (or_else _ _) as [c1 | |] eqn:E; [| done | done]. cbn [mbind outcome_bind]. intros [= -> <-].
    apply Hor in E as [E | [E | [E | E]%Hor]%Hor]; [by eapply HW | destruct (oldRecvGCM s); [by eapply HW | done] | destruct old; [by eapply HC | done] | done].
  - destruct (DecryptChunk data (RecvKey s)) as [c1 | |] eqn:E; [intros [= -> <-]; by eapply HC | | done].
    destruct old as [k |]; [| done]. destruct (DecryptChunk data k) as [c1 | |] eqn:E'; [intros [= -> <-]; by eapply HC | done | done].
Qed.

(** Every window is sound and has recorded what was handled. *)
Record door_inv (h : handler) (done : list (nat * Z)) : Prop := {
  dr_registry : registry_ok (sessions h);
  dr_window : ∀ p s, sm_heap (sessions h) !! p = Some s →
    ∃ w, represents (recvWindow s) w ∧ spec_inv w ∧ ∀ x, (p, x) ∈ done → x ∈ s_seen w;
  dr_live : ∀ p x, (p, x) ∈ done → is_Some (sm_heap (sessions h) !! p);
}.

Lemma door_store h p s s' done :
  door_inv h done → sm_heap (sessions h) !! p = Some s → ID s' = ID s → recvWindow s' = recvWindow s → ∀ h',
  sm_heap (sessions h') = <[p := s']> (sm_heap (sessions h)) → sm_sessions (sessions h') = sm_sessions (sessions h) → door_inv h' done.
Proof.
  intros [H1 H2 H3] Hp Hid Hw h' Eh Es. split.
  - intros id q Hq. rewrite Es in Hq. destruct (H1 id q Hq) as (sq & Hq' & Hi). rewrite Eh. destruct (decide (p = q)) as [<- | Hne].
    + rewrite lookup_insert_eq. exists s'. split; [done | congruence].
    + rewrite lookup_insert_ne by done. by exists sq.
  - intros q sq. rewrite Eh, lookup_insert_Some. intros [[<- <-] | [_ Hq]]; [rewrite Hw |]; by apply H2.
  - intros q x Hx. rewrite Eh. destruct (H3 q x Hx) as [sq Hq]. destruct (decide (p = q)) as [<- | Hne]; [rewrite lookup_insert_eq | rewrite lookup_insert_ne by done]; by eexists.
Qed.

Lemma serve_inv h r l now a h' done :
  opens_bytes → (∀ pl, rq_payload r = Some pl → is_bytes pl) → door_inv h done → ServeHTTP h r l now = Ret (a, h') →
  door_inv h' (option_list (handled a) ++ done) ∧ (∀ x, handled a = Some x → x ∉ done).
Proof.
  intros Ho Hb Hd. pose proof Hd as [H1 H2 H3]. unfold ServeHTTP. destruct (_ || _); [by intros [= <- <-] |].
  destruct (rq_payload r) as [payload |] eqn:Er; [| by intros [= <- <-]]. intros E.
  destruct (dispatch_cases _ _ _ _ _ _ H1 E) as [(-> & -> & _) | (p & s & c & Hau & Hres)].
  { unfold handshake_or_decoy. by destruct (_ <=? _). }
  destruct Hau as [Hlen [Hp Hreg] Htok Hdec]. destruct Hres as [(b & -> & ->) | (fresh & w & Ea & -> & Eh & Es)].
  { split; [| done]. by eapply (door_store h p s (set_activity s now)). }
  destruct (H2 p s Hp) as (sp & Hrep & Hsi & Hdone).
  assert (0 ≤ SeqNum c < 2 ^ 32) as Hseq by (eapply decrypt_seq; [done | | exact Hdec]; apply is_bytes_drop; by apply Hb).
  destruct (accept_refines (recvWindow s) sp (SeqNum c) Hrep Hseq) as [Ef Hrep']. rewrite Ea in Ef, Hrep'. cbn [fst snd] in Ef, Hrep'.
  destruct (spec_accept sp (SeqNum c)) as [ok sp'] eqn:Esp. cbn [fst snd] in Ef, Hrep'. subst ok.
  destruct (spec_accept_seen _ _ _ _ Esp Hsi) as (Hsi' & Hsub & Hnew).
  set (s1 := set_activity (set_seq_window (set_activity s now) (sendSeq s) w) now) in *.
  assert (∀ extra, (∀ q x, (q, x) ∈ extra → q = p ∧ x ∈ s_seen sp') → door_inv h' (extra ++ done)) as Hext.
  { intros extra He. split.
    - intros id q Hq. rewrite Es in Hq. destruct (H1 id q Hq) as (sq & Hq' & Hi). rewrite Eh. destruct (decide (p = q)) as [<- | Hne].
      + rewrite lookup_insert_eq. exists s1. split; [done |]. rewrite Hp in Hq'. by injection Hq' as <-.
      + rewrite lookup_insert_ne by done. by exists sq.
    - intros q sq. rewrite Eh, lookup_insert_Some. intros [[<- <-] | [Hne Hq]].
      + exists sp'. split_and!; [done | done |]. intros x [Hx | Hx]%elem_of_app; [by apply (He p x) | by apply Hsub, Hdone].
      + destruct (H2 q sq Hq) as (w' & ? & ? & Hw'). exists w'. split_and!; [done | done |].
        intros x [Hx | Hx]%elem_of_app; [by destruct (He q x Hx) as [-> _] | by apply Hw'].
    - intros q x Hx. rewrite Eh. destruct (decide (p = q)) as [<- | Hne]; [rewrite lookup_insert_eq; by eexists |].
      rewrite lookup_insert_ne by done. apply elem_of_app in Hx as [Hx | Hx]; [by destruct (He q x Hx) as [-> _] | by apply (H3 q x)]. }
  destruct fresh.
  - destruct (Hnew eq_refl) as [Hn1 Hn2]. assert (handled (ARoute p c (route_of (Flags c))) = Some (p, SeqNum c)) as ->
      by (unfold handled, route_of; repeat case_match; congruence).
    split; [| intros x [= <-] Hx; by apply Hn1, Hdone]. apply Hext. by intros q x [= -> ->]%list_elem_of_singleton.
  - split; [| done]. apply (Hext []). by intros q x ?%not_elem_of_nil.
Qed.
Lemma serve_all_inv rs : ∀ h done answers h',
  opens_bytes → Forall (λ x : request * limits * Z, ∀ pl, rq_payload x.1.1 = Some pl → is_bytes pl) rs → door_inv h done → NoDup done →
  serve_all h rs = Ret (answers, h') → NoDup (omap handled answers) ∧ ∀ x, x ∈ omap handled answers → x ∉ done.
Proof.
  induction rs as [| [[r l] now] rs IH]; intros h done answers h' Ho Hb Hd Hnd; cbn [serve_all].
  { intros [= <- <-]. split; [constructor | by intros x ?%not_elem_of_nil]. }
  apply Forall_cons in Hb as [Hb0 Hb]. destruct (ServeHTTP h r l now) as [[a h1] | |] eqn:E; [| done | done]. cbn [mbind outcome_bind].
  destruct (serve_all h1 rs) as [[as' h2] | |] eqn:E2; [| done | done]. cbn [mbind outcome_bind]. intros [= <- <-].
  destruct (serve_inv _ _ _ _ _ _ _ Ho Hb0 Hd E) as [Hd1 Hn]. cbn [omap list_omap].
  assert (NoDup (option_list (handled a) ++ done)) as Hnd1.
  { destruct (handled a) as [x |]; cbn [option_list app]; [| done]. constructor; [by apply Hn | done]. }
  destruct (IH _ _ _ _ Ho Hb Hd1 Hnd1 E2) as [I1 I2]. destruct (handled a) as [x |]; cbn [option_list app] in *; [| by split].
  split.
  - constructor; [| done]. intros Hx. apply (I2 x Hx). apply list_elem_of_here.
  - intros y. rewrite elem_of_cons. intros [-> | Hy]; [by apply Hn | intros Hin; apply (I2 y Hy); by apply list_elem_of_further].
Qed.

Lemma serve_all_total rs : ∀ h done,
  opens_bytes → Forall (λ x : request * limits * Z, ∀ pl, rq_payload x.1.1 = Some pl → is_bytes pl) rs → door_inv h done →
  ∃ answers h', serve_all h rs = Ret (answers, h').
Proof.
  induction rs as [| [[r l] now] rs IH]; intros h done Ho Hb Hd; cbn [serve_all]; [by eexists _, _ |].
  apply Forall_cons in Hb as [Hb0 Hb]. assert (∃ a h1, ServeHTTP h r l now = Ret (a, h1)) as (a & h1 & E).
  { unfold ServeHTTP. destruct (_ || _); [by eexists _, _ |]. apply post_dispatch_total, Hd. }
  rewrite E. cbn [mbind outcome_bind]. destruct (serve_inv _ _ _ _ _ _ _ Ho Hb0 Hd E) as [Hd1 _].
  destruct (IH _ _ Ho Hb Hd1) as (as' & h2 & ->). by eexists _, _.
Qed.

(** C11: whatever POSTs arrive, in whatever order and repetition and whatever
    the limiters say, the dispatcher never panics and no chunk of a session
    reaches a handler twice. *)
Theorem post_handled_once h rs :
  opens_bytes → Forall (λ x : request * limits * Z, ∀ pl, rq_payload x.1.1 = Some pl → is_bytes pl) rs → door_inv h [] →
  ∃ answers h', serve_all h rs = Ret (answers, h') ∧ NoDup (omap handled answers).
Proof.
  intros Ho Hb Hd. destruct (serve_all_total rs h [] Ho Hb Hd) as (answers & h' & E). exists answers, h'. split; [done |].
  apply (serve_all_inv rs h [] answers h' Ho Hb Hd); [constructor | done].
Qed.

End dispatch.

(** ** Probes *)

Section probes.
Context {HA : AEAD} {HD : DH} {HB : NaclBox} {HK : KDF} (cfg : config).

(** One request to its answer, the handshake included; the limiter, exemption
    and memory check of the handshake are inputs. *)
Record gate := mkGate { g_allow : bool; g_exempt : bytes → option bool; g_overload : bool; g_unix : Z; g_clock : hs_clock }.

Definition serve (h : handler) (r : request) (l : limits) (now : Z) (g : gate) : outcome ((answer + reply) * handler) :=
  '(a, h1) ← ServeHTTP h r l now;
  match a with
  | AHello hello =>
    match hs_gate cfg h1 hello (g_allow g) (g_exempt g) (g_overload g) (g_unix g) with
    | inl rep => Ret (inr rep, h1)
    | inr cached => '(rep, h2) ← hs_commit cfg h1 (mkWaiting hello cached) (g_clock g); Ret (inr rep, h2)
    end
  | _ => Ret (inl a, h1)
  end.


End probes.

(** ** Witnesses and a defect *)

Module DoorDemo.
Import AttachDemo.
#[local] Existing Instances Toy.toy_aead Toy.toy_dh Toy.toy_box Toy.toy_kdf.

Definition door : handler := with_hub LifeDemo.empty_server hub0.
Definition post (payload : bytes) : request := mkRequest true true (Some payload).
Definition open_limits : limits := mkLimits (λ _, false) (λ _ _, true) true.

Lemma door_heap : sm_heap (sessions door) = {[sess := the_session]}.
Proof. vm_compute. reflexivity. Qed.

Lemma toy_opens : @opens_bytes Toy.toy_aead.
Proof.
  intros k n c a pt Hc. cbn. unfold Toy.open. destruct (_ <? _); [done |]. destruct (bytes_eqb _ _); [| done]. intros [= <-]. by apply is_bytes_take.
Qed.

Lemma door_ready : door_inv door [].
Proof.
  split.
  - apply hub0_registry.
  - intros p s. rewrite door_heap. intros [<- <-]%lookup_singleton_Some. exists spec0. split_and!; [apply represents_init | by intros x Hx | by intros x ?%not_elem_of_nil].
  - by intros p x ?%not_elem_of_nil.
Qed.

Definition posts : list (request * limits * Z) :=
  [(post (first_frame 0), open_limits, 10); (post (first_frame 1), open_limits, 11); (post (first_frame 0), open_limits, 12)].

Lemma post_handled_once_witness :
  ∃ answers h', serve_all door posts = Ret (answers, h') ∧ NoDup (omap handled answers).
Proof.
  apply (@post_handled_once Toy.toy_aead door posts toy_opens); [| apply door_ready].
  repeat constructor; intros pl [= <-]; apply (bool_decide_eq_true_1 _); vm_compute; reflexivity.
Defined.

Example posts_handled : omap handled (match serve_all door posts with Ret (a, _) => a | _ => [] end) = [(sess, 0); (sess, 1)].
Proof. vm_compute. reflexivity. Qed.

Definition probe : request := post (replicate 120 0).


(** A captured POST sent again, by anybody, is answered with an encrypted
    acknowledgement of the session instead of the decoy page. *)
Theorem replayed_post_acknowledged :
  match serve_all door posts with
  | Ret ([ARoute _ c1 r1; _; ARoute _ c3 r3], _) => c1 = c3 ∧ r1 = ToKeepalive ∧ r3 = ToAckOnly
  | _ => False
  end.
Proof. vm_compute. done. Qed.

End DoorDemo.
