(* ===== verification/ClientConnect.v ===== *)
(** * Connecting ([client/client.go], the handshake requests of [client/transport.go])

    The client's handshake sequence with its fall-back to the legacy format, the
    one-shot guard around it, retries, streams reset and close; and the same
    sequence run against the server's handshake handler over the JSON bodies.  The
    network is what each request is answered with. *)

From S2P Require Import Prelude.
From S2P Require Import Primitives.
From S2P Require Import Chunk.
From S2P Require Import ReplayWindow.
From S2P Require Import Session.
From S2P Require Import SessionManager.
From S2P Require Import ReplayCache.
From S2P Require Import Handshake.
From S2P Require Import ClientStreams.
From S2P Require Import Base64.
From S2P Require Import Json.
From S2P Require Import BrowserWire.
From S2P Require Import Fingerprints.
From S2P Require Import ClientAuth.
From S2P Require Import Attach.
From S2P Require Import Lifecycle.
From S2P Require Import PostDispatch.
From stdpp Require Import base list gmap strings.

#[local] Open Scope Z_scope.

(** ** Errors and answers *)

(** [ECtx]: a cancelled or expired context is in the chain of wrapped errors;
    [EStatus]: an [httpStatusError] is. *)
Inductive hs_error := ECtx | EStatus (status : Z) | EOther (what : string).
#[global] Instance hs_error_eq_dec : EqDecision hs_error.
Proof. solve_decision. Defined.

Definition isContextError (e : hs_error) : bool := match e with ECtx => true | _ => false end.
Definition parseHandshakeError (e : hs_error) : option Z := match e with EStatus s => Some s | _ => None end.

Abbreviation answered := (hs_error + bytes)%type.

(** An HTTP response: status, body and whether the rate-limit carriers are in it. *)
Record http_response := mkResponse { rs_status : Z; rs_body : bytes; rs_limited : bool }.

(** [isHTMLBody] *)
Definition isHTMLBody (b : bytes) : bool := match skip_ws b with c :: _ => c =? 60 | [] => false end.

(** The tail of [SendHandshakeRaw], once the request was answered. *)
Definition raw_result (r : hs_error + http_response) : answered :=
  match r with
  | inl e => inl e
  | inr r =>
    if 400 <=? rs_status r then inl (EStatus (rs_status r))
    else if negb (rs_status r =? 200) then inl (EStatus (rs_status r))
    else if rs_limited r then inl (EOther "rate limited")
    else if isHTMLBody (rs_body r) then inl (EStatus 200)
    else inr (rs_body r)
  end.
(** The tail of [SendHandshake]. *)
Definition legacy_result (r : hs_error + http_response) : answered :=
  match r with
  | inl e => inl e
  | inr r =>
    if rs_limited r then inl (EOther "rate limited")
    else if negb (rs_status r =? 200) then inl (EOther "handshake failed")
    else inr (rs_body r)
  end.

(** The bodies of the two requests. *)
Definition SendHandshakeRaw_body (payload : bytes) (now : Z) : bytes := print (enc_upload [mkEvent (str "init") now (RawURL_Encode payload)]).
Definition SendHandshake_body (hello : ClientHello) (now : Z) : bytes :=
  print (enc_upload [mkEvent (str "init") now (RawURL_Encode (ch_EphemeralPub hello ++ ch_EncryptedClientID hello))]).

(** The transport: what it answers to a raw payload ([None]: it is no
    [HandshakeRawSender]) and to a legacy hello. *)
Record transport := mkTransport { tr_raw : option (bytes → answered); tr_legacy : ClientHello → answered }.

(** ** The client *)

Record ClientCore := mkCore {
  cc_serverPub : bytes; cc_clientID : bytes; cc_insecureSkipVerify : bool;
  cc_session : option Session; cc_token : bytes; cc_maxConns : Z; cc_chunkSize : Z;
  cc_tr_session : option Session;              (* what the transport was told *)
  cc_onceDone : bool; cc_handshakeErr : option hs_error;
  cc_connectStart : Z; cc_firstStream : bool;  (* [firstStreamOnce] has run *)
  cc_selected : bytes; cc_file : option bytes; (* the profile and its state file *)
  cc_chromeUA : bytes;
  cc_streams : Client;
}.

Definition new_core (serverPub clientID : bytes) (insecure : bool) (selected : bytes) (file : option bytes) : ClientCore :=
  mkCore serverPub clientID insecure None [] 0 0 None false None 0 false selected file LockedChromeUA new_client.

(** Clock readings and randomness of one handshake. *)
Record hs_inputs := mkHsInputs {
  hi_unix : Z; hi_key : option bytes; hi_nonce : option bytes;   (* [NewClientHello] *)
  hi_target : Z; hi_pad : Z → bytes;                             (* the padding *)
  hi_now : Z; hi_migrate : option bytes;                         (* [NewSession] *)
  hi_fileOK : bool;
}.

Inductive sent := SentNew (payload : bytes) | SentLegacy (hello : ClientHello).
Definition is_legacy (r : sent) : bool := match r with SentLegacy _ => true | _ => false end.

Definition set_proto (s : Session) (v : Z) : Session :=
  mkSession (ID s) (SendKey s) (RecvKey s) v (sendSeq s) (recvWindow s)
    (CreatedAt s) (AttachedAt s) (DetachedAt s) (epochs s) (sendEpochPtr s) (recvGCM s)
    (oldRecvGCM s) (oldRecvKey s) (oldKeyExpiry s) (lastRekey s) (lastActivity s) (destroyed s) (MigrateNonce s).

Section connect.
Context {HA : AEAD} {HDH : DH} {HB : NaclBox} {HK : KDF} (reg : registry) (sessionAware : bool).

Definition hello_of (sh : serverHelloJSON) : ServerHello :=
  mkServerHello (hj_EphPub sh) (hj_Token sh) 0 (hj_MaxConns sh) (hj_ChunkSize sh) (hj_ProtoVersion sh) None.

Definition applyServerHello (c : ClientCore) (clientState : HandshakeClientState) (sh : serverHelloJSON) (protoVersion : Z) (i : hs_inputs)
  : outcome (option hs_error * ClientCore) :=
  match (session ← CompleteHandshake clientState (Some (hello_of sh)) (hi_now i) (hi_migrate i);
         InitSendEpoch (set_proto session protoVersion)) with
  | Panic => Panic
  | Err e => Ret (Some (EOther e), c)
  | Ret session =>
    let chunkSize := if hj_ChunkSize sh =? 0 then 12288 else hj_ChunkSize sh in
    Ret (None, mkCore (cc_serverPub c) (cc_clientID c) (cc_insecureSkipVerify c)
      (Some session) (EncodeTokenWithHint (ID session) (hj_Token sh)) (hj_MaxConns sh) chunkSize
      (if sessionAware then Some session else cc_tr_session c)
      (cc_onceDone c) (cc_handshakeErr c) (cc_connectStart c) (cc_firstStream c) (cc_selected c)
      (cache_weights (cc_file c) (cc_selected c) (hj_FW sh) (hi_fileOK i))
      (apply_uas reg (cc_selected c) (cc_chromeUA c) (hj_UA sh)) (cc_streams c))
  end.

(** The body of a response up to the hello. *)
Definition read_hello (respBody : bytes) : option serverHelloJSON :=
  match ParseDownloadResponse respBody with Ret (data, _) => dec_hello data | _ => None end.

Definition handshakeLegacy (c : ClientCore) (tr : transport) (hello : ClientHello) (clientState : HandshakeClientState) (i : hs_inputs)
  : outcome (option hs_error * ClientCore * list sent) :=
  match tr_legacy tr hello with
  | inl e => Ret (Some e, c, [SentLegacy hello])
  | inr respBody =>
    match read_hello respBody with
    | None => Ret (Some (EOther "handshake legacy: invalid ServerHello (possible MITM)"), c, [SentLegacy hello])
    | Some sh => '(e, c') ← applyServerHello c clientState sh 0 i; Ret (e, c', [SentLegacy hello])
    end
  end.

Definition handshakeNew (tr : transport) (hello : ClientHello) (i : hs_inputs) : answered * list sent :=
  match tr_raw tr with
  | None => (inl (EStatus 404), [])
  | Some raw =>
    let payload := BuildHandshakePayload (ch_EphemeralPub hello) (ch_EncryptedClientID hello) (hi_target i) (hi_pad i) in
    (raw payload, [SentNew payload])
  end.

Definition runHandshakeSequence (c : ClientCore) (tr : transport) (i : hs_inputs) : outcome (option hs_error * ClientCore * list sent) :=
  match NewClientHello (cc_clientID c) (cc_serverPub c) (hi_unix i) (hi_key i) (hi_nonce i) with
  | Panic => Panic
  | Err e => Ret (Some (EOther e), c, [])
  | Ret (hello, clientState) =>
    let legacy (log : list sent) := '(e, c', l) ← handshakeLegacy c tr hello clientState i; Ret (e, c', log ++ l) in
    if negb (len (cc_clientID c) =? 16) then legacy [] else
    let '(resp, log) := handshakeNew tr hello i in
    match resp with
    | inl newErr =>
      if isContextError newErr then Ret (Some newErr, c, log) else
      match parseHandshakeError newErr with
      | None => Ret (Some newErr, c, log)
      | Some status =>
        if status =? 200 then Ret (Some newErr, c, log)
        else if (400 <=? status) && (status <? 500) then
          if cc_insecureSkipVerify c then Ret (Some newErr, c, log) else legacy log
        else Ret (Some newErr, c, log)
      end
    | inr respBody =>
      match read_hello respBody with
      | None => Ret (Some (EOther "handshake: invalid ServerHello (possible MITM)"), c, log)
      | Some sh =>
        match hj_ProtoVersion sh with
        | None => if cc_insecureSkipVerify c then Ret (Some (EOther "legacy ServerHello received but fallback disabled"), c, log) else legacy log
        | Some v =>
          if 1 <? v then Ret (Some (EOther "server requires a newer protocol"), c, log)
          else '(e, c') ← applyServerHello c clientState sh 1 i; Ret (e, c', log)
        end
      end
    end
  end.

(** ** The one-shot guard, in the steps another goroutine can come between *)

Definition with_once (c : ClientCore) (done : bool) (err : option hs_error) (start : Z) (first : bool) : ClientCore :=
  mkCore (cc_serverPub c) (cc_clientID c) (cc_insecureSkipVerify c) (cc_session c) (cc_token c) (cc_maxConns c) (cc_chunkSize c) (cc_tr_session c)
    done err start first (cc_selected c) (cc_file c) (cc_chromeUA c) (cc_streams c).
Definition with_session (c : ClientCore) (s : option Session) (token : bytes) (streams : Client) : ClientCore :=
  mkCore (cc_serverPub c) (cc_clientID c) (cc_insecureSkipVerify c) s token (cc_maxConns c) (cc_chunkSize c) (cc_tr_session c)
    (cc_onceDone c) (cc_handshakeErr c) (cc_connectStart c) (cc_firstStream c) (cc_selected c) (cc_file c) (cc_chromeUA c) streams.

(** [connectStartUnixNano.CompareAndSwap(0, now)] *)
Definition stamp_start (c : ClientCore) (now : Z) : ClientCore :=
  if cc_connectStart c =? 0 then with_once c (cc_onceDone c) (cc_handshakeErr c) now (cc_firstStream c) else c.

(** [handshakeOnce.Do]: a second caller waits for the first and then skips. *)
Definition once_do (c : ClientCore) (tr : transport) (i : hs_inputs) : outcome (ClientCore * list sent) :=
  if cc_onceDone c then Ret (c, []) else
  '(e, c', log) ← runHandshakeSequence c tr i;
  Ret (with_once c' true e (cc_connectStart c') (cc_firstStream c'), log).

(** The reset after a context error. *)
Definition once_reset (c : ClientCore) : ClientCore := with_once c false None 0 false.

(** [Connect], alone. *)
Definition Connect (c : ClientCore) (tr : transport) (now : Z) (i : hs_inputs) : outcome (option hs_error * ClientCore * list sent) :=
  '(c1, log) ← once_do (stamp_start c now) tr i;
  let err := cc_handshakeErr c1 in
  Ret (err, (match err with Some e => if isContextError e then once_reset c1 else c1 | None => c1 end), log).

(** [MarkFirstStream]: whether the gauge was stamped. *)
Definition MarkFirstStream (c : ClientCore) : bool * ClientCore :=
  if (cc_connectStart c =? 0) || cc_firstStream c then (false, c)
  else (true, with_once c (cc_onceDone c) (cc_handshakeErr c) (cc_connectStart c) true).

(** [ConnectWithRetry] over the attempts it makes; [cancelled] says what the
    context is before each and [None] that it runs on past them. *)
Fixpoint ConnectWithRetry (c : ClientCore) (attempts : list (bool * transport * Z * hs_inputs)) : outcome (option (option hs_error) * ClientCore * list sent) :=
  match attempts with
  | [] => Ret (None, c, [])
  | (cancelled, tr, now, i) :: attempts' =>
    if cancelled : bool then Ret (Some (Some ECtx), c, []) else
    '(err, c1, log) ← Connect c tr now i;
    match err with
    | None => Ret (Some None, c1, log)
    | Some _ => '(r, c2, log') ← ConnectWithRetry c1 attempts'; Ret (r, c2, log ++ log')
    end
  end.

(** ** The end of a connection *)

(** [for id, ch := range m { close(ch); delete(m, id) }] *)
Definition close_all {A} (m : gmap Z nat) (h : gmap nat (chan A)) : outcome (gmap nat (chan A)) :=
  foldl (λ acc kv, h ← acc; close_chan h (snd kv)) (Ret h) (map_to_list m).

(** [ResetStreams]; the second result is what is zeroed five seconds later. *)
Definition ResetStreams (c : ClientCore) : outcome (ClientCore * option Session) :=
  let s := cc_streams c in
  flat ← close_all (streamChans s) (cl_flat s);
  sq ← close_all (streamFramesChans s) (cl_seq s);
  Ret (with_session c None [] (with_tables s ∅ ∅ flat sq), cc_session c).

Definition Close (c : ClientCore) : ClientCore * option Session :=
  (with_session c None [] (cc_streams c), Destroy <$> cc_session c).

(** [NewStreamSession]: a session of its own, by the legacy request.  The answer is
    decoded into four fields; the version is not among them. *)
Definition dec_short_field (h : serverHelloJSON) (k : bytes) (v : json) : option serverHelloJSON :=
  if key_is "eph" k || key_is "tok" k || key_is "mc" k || key_is "cs" k then dec_hello_field h k v else Some h.
Definition read_short_hello (respBody : bytes) : option serverHelloJSON :=
  match ParseDownloadResponse respBody with
  | Ret (data, _) => match parse data with Some v => dec_struct dec_short_field zero_hello v | None => None end
  | _ => None
  end.

Definition NewStreamSession (c : ClientCore) (tr : transport) (i : hs_inputs) : outcome (option (Session * bytes)) :=
  match NewClientHello (cc_clientID c) (cc_serverPub c) (hi_unix i) (hi_key i) (hi_nonce i) with
  | Panic => Panic
  | Err _ => Ret None
  | Ret (hello, clientState) =>
    match tr_legacy tr hello with
    | inl _ => Ret None
    | inr respBody =>
      match read_short_hello respBody with
      | None => Ret None
      | Some sh =>
        match (session ← CompleteHandshake clientState (Some (hello_of sh)) (hi_now i) (hi_migrate i); InitSendEpoch session) with
        | Panic => Panic
        | Err _ => Ret None
        | Ret session => Ret (Some (session, EncodeTokenWithHint (ID session) (hj_Token sh)))
        end
      end
    end
  end.

End connect.

(** ** Callers of [Connect] side by side *)

Inductive caller := CallerStart | CallerDid | CallerRead (err : option hs_error) | CallerReturned (err : option hs_error).

Section callers.
Context {HA : AEAD} {HDH : DH} {HB : NaclBox} {HK : KDF} (reg : registry) (sessionAware : bool).

(** One step of the caller at [k]: the guarded run, reading the error, the reset. *)
Definition caller_step (st : ClientCore * list caller) (k : nat) (tr : transport) (i : hs_inputs) : outcome (ClientCore * list caller) :=
  let '(c, cs) := st in
  match cs !! k with
  | Some CallerStart => '(c', _) ← once_do reg sessionAware c tr i; Ret (c', <[k := CallerDid]> cs)
  | Some CallerDid => Ret (c, <[k := CallerRead (cc_handshakeErr c)]> cs)
  | Some (CallerRead err) =>
    Ret (match err with Some e => if isContextError e then once_reset c else c | None => c end, <[k := CallerReturned err]> cs)
  | _ => Ret st
  end.

Fixpoint callers_run (st : ClientCore * list caller) (steps : list (nat * transport * hs_inputs)) : outcome (ClientCore * list caller) :=
  match steps with [] => Ret st | (k, tr, i) :: steps' => st' ← caller_step st k tr i; callers_run st' steps' end.
End callers.

(** ** No downgrade *)

Section facts.
Context {HA : AEAD} {HDH : DH} {HB : NaclBox} {HK : KDF} (reg : registry) (sessionAware : bool).

Lemma applyServerHello_cases c st sh v i r : applyServerHello reg sessionAware c st sh v i = Ret r →
  (∃ e, r = (Some e, c)) ∨ (∃ s c', r = (None, c') ∧ cc_session c' = Some s ∧ ProtoVersion s = v ∧ is_Some (sendEpochPtr s) ∧ cc_token c' = EncodeTokenWithHint (ID s) (hj_Token sh)).
Proof.
  unfold applyServerHello. destruct (CompleteHandshake _ _ _ _) as [s | e |]; cbn [mbind outcome_bind]; [| intros [= <-]; left; by eexists | done].
  unfold InitSendEpoch. cbn [destroyed sendEpochPtr set_proto SendKey epochs]. destruct (destroyed s); [intros [= <-]; left; by eexists |].
  destruct (sendEpochPtr s) as [p |] eqn:Ep.
  - intros [= <-]. right. eexists _, _. split; [done |]. cbn [cc_session cc_token]. split; [done |]. split; [done |]. split; [cbn; rewrite Ep; by eexists | done].
  - destruct (newGCM (SendKey s)) as [g | e |]; cbn [mbind outcome_bind]; [| intros [= <-]; left; by eexists | done]. intros [= <-]. right. eexists _, _. split; [done |]. cbn. split_and!; try done.
Qed.

Lemma handshakeLegacy_cases c tr hello st i e c' log : handshakeLegacy reg sessionAware c tr hello st i = Ret (e, c', log) →
  log = [SentLegacy hello] ∧ ((∃ x, e = Some x ∧ c' = c) ∨ (e = None ∧ ∃ s, cc_session c' = Some s ∧ ProtoVersion s = 0 ∧ is_Some (sendEpochPtr s))).
Proof.
  unfold handshakeLegacy. destruct (tr_legacy tr hello) as [x | body]; [intros [= <- <- <-]; split; [done | left; by eexists] |].
  destruct (read_hello body) as [sh |]; [| intros [= <- <- <-]; split; [done | left; by eexists]].
  destruct (applyServerHello reg sessionAware c st sh 0 i) as [r | |] eqn:E; try done. apply applyServerHello_cases in E. cbn [mbind outcome_bind].
  destruct E as [[x ->] | (s & c1 & -> & ? & ? & ? & _)]; intros [= <- <- <-]; (split; [done |]); [left; by eexists | right; split; [done |]; by exists s].
Qed.

(** Why the legacy request may follow the new one. *)
Definition may_fall_back (tr : transport) (log : list sent) : Prop :=
  tr_raw tr = None
  ∨ ∃ raw payload, tr_raw tr = Some raw ∧ SentNew payload ∈ log
      ∧ ((∃ s, raw payload = inl (EStatus s) ∧ 400 ≤ s < 500)
         ∨ ∃ body sh, raw payload = inr body ∧ read_hello body = Some sh ∧ hj_ProtoVersion sh = None).


(** ** The guard pins the outcome *)

Lemma once_done_connect c tr now i : cc_onceDone c = true → (∀ e, cc_handshakeErr c = Some e → isContextError e = false) →
  Connect reg sessionAware c tr now i = Ret (cc_handshakeErr c, stamp_start c now, []).
Proof.
  intros Hd He. unfold Connect, once_do. assert (cc_onceDone (stamp_start c now) = true ∧ cc_handshakeErr (stamp_start c now) = cc_handshakeErr c) as [-> E].
  { unfold stamp_start. by destruct (cc_connectStart c =? 0). }
  cbn [mbind outcome_bind]. rewrite E. destruct (cc_handshakeErr c) as [e |]; [| done]. by rewrite (He e).
Qed.

Lemma connect_once c tr now i e c1 log : Connect reg sessionAware c tr now i = Ret (e, c1, log) →
  (∃ x, e = Some x ∧ isContextError x = true ∧ c1 = once_reset c1)
  ∨ (cc_onceDone c1 = true ∧ cc_handshakeErr c1 = e ∧ ∀ x, e = Some x → isContextError x = false).
Proof.
  unfold Connect, once_do. set (c0 := stamp_start c now).
  assert (∀ c2 l, cc_onceDone c2 = true → Ret (cc_handshakeErr c2, match cc_handshakeErr c2 with Some e => if isContextError e then once_reset c2 else c2 | None => c2 end, l) = Ret (e, c1, log) →
    (∃ x, e = Some x ∧ isContextError x = true ∧ c1 = once_reset c1) ∨ (cc_onceDone c1 = true ∧ cc_handshakeErr c1 = e ∧ ∀ x, e = Some x → isContextError x = false)) as H.
  { intros c2 l Hd E. apply (f_equal (λ o, match o with Ret p => p | _ => (e, c1, log) end)) in E. apply pair_equal_spec in E as [E <-]. apply pair_equal_spec in E as [<- E]. subst c1.
    destruct (cc_handshakeErr c2) as [x |] eqn:Ee; [destruct (isContextError x) eqn:Ex |]; [left; by exists x | right | right]; (split; [done |]); split; [done | by intros y [= <-] | done | done]. }
  destruct (cc_onceDone c0) eqn:Ed; [intros E; by apply (H c0 []) |].
  destruct (runHandshakeSequence reg sessionAware c0 tr i) as [[[e0 c'] l] | |]; try done. cbn [mbind outcome_bind]. intros E. by apply (H (with_once c' true e0 (cc_connectStart c') (cc_firstStream c')) l).
Qed.

(** The outcome of [Connect] is pinned.  After a success, and after a failure
    that is no context error, every later call returns the same, sends nothing and
    keeps the session; after a context error the next call starts over. *)
Theorem connect_pinned c tr now i e c1 log :
  Connect reg sessionAware c tr now i = Ret (e, c1, log) →
  if match e with Some x => isContextError x | None => false end
  then ∀ tr' now' i' r, runHandshakeSequence reg sessionAware (stamp_start c1 now') tr' i' = Ret r →
         ∃ c2, Connect reg sessionAware c1 tr' now' i' = Ret (fst (fst r), c2, snd r)
  else ∀ tr' now' i', ∃ c2, Connect reg sessionAware c1 tr' now' i' = Ret (e, c2, [])
         ∧ cc_session c2 = cc_session c1 ∧ cc_token c2 = cc_token c1 ∧ cc_handshakeErr c2 = e ∧ cc_onceDone c2 = true.
Proof.
  intros H. destruct (connect_once _ _ _ _ _ _ _ H) as [(x & -> & Hx & Hr) | (Hd & He & Hn)].
  - rewrite Hx. intros tr' now' i' [[e0 c'] l] E. unfold Connect, once_do.
    assert (cc_onceDone (stamp_start c1 now') = false) as -> by (rewrite Hr; unfold stamp_start; by destruct (_ =? _)). rewrite E. cbn [mbind outcome_bind cc_handshakeErr with_once fst snd]. by eexists.
  - assert (match e with Some x => isContextError x | None => false end = false) as -> by (destruct e as [x |]; [by apply Hn | done]).
    intros tr' now' i'. exists (stamp_start c1 now'). rewrite once_done_connect by (done || by rewrite He). rewrite He. split; [done |].
    unfold stamp_start. destruct (cc_connectStart c1 =? 0); cbn; by rewrite ?He.
Qed.

(** [ConnectWithRetry] never gets past a failure: after a first attempt that fails
    other than by its context, nothing is sent any more and no attempt succeeds. *)
Theorem retry_never_redials c tr now i x c1 log attempts r c2 log' :
  Connect reg sessionAware c tr now i = Ret (Some x, c1, log) → isContextError x = false →
  ConnectWithRetry reg sessionAware c ((false, tr, now, i) :: attempts) = Ret (r, c2, log') →
  log' = log ∧ r ≠ Some None.
Proof.
  intros H Hx. cbn [ConnectWithRetry]. rewrite H. cbn [mbind outcome_bind].
  assert (∀ attempts c0 r c2 l, cc_onceDone c0 = true → cc_handshakeErr c0 = Some x → ConnectWithRetry reg sessionAware c0 attempts = Ret (r, c2, l) → l = [] ∧ r ≠ Some None) as Hall.
  { clear -Hx. induction attempts as [| [[[can tr] now] i] attempts IH]; intros c0 r c2 l Hd He; cbn [ConnectWithRetry]; [by intros [= <- <- <-] |].
    destruct can; [by intros [= <- <- <-] |]. rewrite once_done_connect, He by (done || (rewrite He; by intros y [= <-])). cbn [mbind outcome_bind].
    destruct (ConnectWithRetry reg sessionAware (stamp_start c0 now) attempts) as [[[r1 c3] l1] | |] eqn:E; try done. apply IH in E as [-> Hr]; [by intros [= <- <- <-] | |]; unfold stamp_start; by destruct (_ =? _). }
  destruct (connect_once _ _ _ _ _ _ _ H) as [(y & [= <-] & Hy & _) | (Hd & He & _)]; [congruence |].
  destruct (ConnectWithRetry reg sessionAware c1 attempts) as [[[r1 c3] l1] | |] eqn:E; try done. apply Hall in E as [-> Hr]; [| done | done]. cbn [mbind outcome_bind]. intros [= <- <- <-]. by rewrite app_nil_r.
Qed.

(** After [ResetStreams] or [Close] of a connected client, [Connect] reports success
    without a session. *)
Theorem connect_after_reset c c' s tr now i : cc_onceDone c = true → cc_handshakeErr c = None →
  ResetStreams c = Ret (c', s) ∨ Close c = (c', s) →
  ∃ c2, Connect reg sessionAware c' tr now i = Ret (None, c2, []) ∧ cc_session c2 = None.
Proof.
  intros Hd He H. assert (cc_onceDone c' = true ∧ cc_handshakeErr c' = None ∧ cc_session c' = None) as (Hd' & He' & Hs').
  { destruct H as [H | H].
    - unfold ResetStreams in H. destruct (close_all (streamChans _) _) as [f | |]; try done. cbn [mbind outcome_bind] in H. destruct (close_all (streamFramesChans _) _) as [q | |]; try done.
      cbn [mbind outcome_bind] in H. by injection H as <- _.
    - unfold Close in H. by injection H as <- _. }
  exists (stamp_start c' now). rewrite once_done_connect, He' by (done || by rewrite He'). split; [done |]. unfold stamp_start. by destruct (_ =? _).
Qed.

(** ** Resetting the streams *)

Lemma close_list {A} (l : list (Z * nat)) (h : gmap nat (chan A)) :
  NoDup l.*2 → (∀ kv, kv ∈ l → ∃ ch, h !! snd kv = Some ch ∧ ch_closed ch = false) →
  ∃ h', foldl (λ acc kv, h ← acc; close_chan h (snd kv)) (Ret h) l = Ret h'
    ∧ (∀ kv, kv ∈ l → ∃ ch, h' !! snd kv = Some ch ∧ ch_closed ch = true) ∧ (∀ p, p ∉ l.*2 → h' !! p = h !! p).
Proof.
  revert h. induction l as [| [id p] l IH]; intros h Hn Ho; [exists h; split_and!; [done | by intros ? ?%elem_of_nil | done] |].
  cbn in Hn. apply NoDup_cons in Hn as [Hp Hn]. cbn [foldl mbind outcome_bind]. destruct (Ho (id, p) ltac:(left)) as (ch & Hch & Hc). unfold close_chan at 2. cbn [snd] in *. rewrite Hch, Hc.
  destruct (IH (<[p := mkChan (ch_items ch) true]> h)) as (h' & E & H1 & H2); [done | |].
  - intros kv Hkv. destruct (Ho kv ltac:(by right)) as (ch' & ? & ?). exists ch'. rewrite lookup_insert_ne; [done |]. intros ->. apply Hp, list_elem_of_fmap. by exists kv.
  - exists h'. split; [done |]. split.
    + intros kv [-> | Hkv]%elem_of_cons; [| by apply H1]. cbn [snd]. rewrite H2 by done. rewrite lookup_insert_eq. by eexists.
    + intros q Hq. cbn in Hq. apply not_elem_of_cons in Hq as [Hqp Hq]. rewrite H2 by done. by apply lookup_insert_ne.
Qed.

Lemma close_all_ok {A} (m : gmap Z nat) (h : gmap nat (chan A)) : chan_ok m h →
  ∃ h', close_all m h = Ret h' ∧ (∀ id p, m !! id = Some p → ∃ ch, h' !! p = Some ch ∧ ch_closed ch = true)
    ∧ (∀ p, (∀ id, m !! id ≠ Some p) → h' !! p = h !! p).
Proof.
  intros [H1 H2]. destruct (close_list (map_to_list m) h) as (h' & E & Hc & Hk).
  - apply NoDup_fmap_2_strong; [| apply NoDup_map_to_list]. intros [i p] [j q] Hi%elem_of_map_to_list Hj%elem_of_map_to_list E. cbn in E. subst q. f_equal. by eapply H2.
  - intros [id p] Hm%elem_of_map_to_list. by apply (H1 id).
  - exists h'. split; [done |]. split.
    + intros id p Hm. apply (Hc (id, p)). by apply elem_of_map_to_list.
    + intros p Hp. apply Hk. intros ([id q] & -> & Hm%elem_of_map_to_list)%list_elem_of_fmap. by apply (Hp id).
Qed.

(** [ResetStreams] on tables in order closes every registered channel once and
    no other, empties both tables, keeps them in order and takes the session and the
    token away. *)
Theorem reset_streams_clean c : table_inv (cc_streams c) →
  ∃ c', ResetStreams c = Ret (c', cc_session c) ∧ cc_session c' = None ∧ cc_token c' = []
    ∧ table_inv (cc_streams c') ∧ streamChans (cc_streams c') = ∅ ∧ streamFramesChans (cc_streams c') = ∅
    ∧ (∀ id p, streamChans (cc_streams c) !! id = Some p → ∃ ch, cl_flat (cc_streams c') !! p = Some ch ∧ ch_closed ch = true)
    ∧ (∀ id p, streamFramesChans (cc_streams c) !! id = Some p → ∃ ch, cl_seq (cc_streams c') !! p = Some ch ∧ ch_closed ch = true)
    ∧ (∀ p, (∀ id, streamChans (cc_streams c) !! id ≠ Some p) → cl_flat (cc_streams c') !! p = cl_flat (cc_streams c) !! p).
Proof.
  rewrite table_inv_ok. intros (Hn & H1 & H2 & _). destruct (close_all_ok _ _ H1) as (f & E1 & C1 & K1). destruct (close_all_ok _ _ H2) as (q & E2 & C2 & K2).
  eexists. split; [unfold ResetStreams; rewrite E1; cbn [mbind outcome_bind]; rewrite E2; done |]. cbn [with_session cc_session cc_token cc_streams with_tables streamChans streamFramesChans cl_flat cl_seq].
  split_and!; try done. apply table_inv_ok. cbn. split_and!; try (apply Hn); try (split; by intros); rewrite map_size_empty; lia.
Qed.

End facts.

(** ** Against the server *)

Section end_to_end.
Context {HA : AEAD} {HL : AEADLaws} {HDH : DH} {HDL : DHLaws} {HB : NaclBox} {HBL : NaclBoxLaws} {HK : KDF} {HKL : KDFLaws}.
Context (reg : registry) (sessionAware : bool) (cfg : config).
(** The user agents and weights of the server's hello, and its decoy page. *)
Context (uas : gmap bytes bytes) (fw : option (gmap string Z)) (page : bytes).

(** [serverHello.ProtoVersion = &v] with [v = 1], and the weights. *)
Definition versioned (sh : ServerHello) : ServerHello :=
  mkServerHello (sh_EphemeralPub sh) (sh_EncryptedSessionToken sh) (sh_SessionID sh) (sh_MaxConnsPerClient sh) (sh_ChunkSize sh) (Some 1) fw.

(** The server's answer to a POST body that is no chunk of a session: dispatch,
    [handleHandshakeNew] past its gate, and the response; [rid] is its random id. *)
Definition server_answer (h : handler) (body : bytes) (k : hs_clock) (rid : Z) : outcome (http_response * handler) :=
  match ParseUploadRequest body with
  | Panic => Panic
  | Err _ => Ret (mkResponse 200 page false, h)
  | Ret payload =>
    match handshake_or_decoy payload with
    | AHello hello =>
      '(r, h') ← hs_commit cfg h (mkWaiting hello None) k;
      Ret (match r with
           | Accepted sh => mkResponse 200 (BuildDownloadResponse (encodeServerHello (versioned sh) uas) rid) false
           | Decoy _ => mkResponse 200 page false
           end, h')
    | _ => Ret (mkResponse 200 page false, h)
    end
  end.

(** The transport that carries the requests to the server. *)
Definition to_server (h : handler) (now : Z) (k : hs_clock) (rid : Z) : transport :=
  let answer body := match server_answer h body k rid with Ret (r, _) => inr r | _ => inl (EOther "connection lost") end in
  mkTransport (Some (λ payload, raw_result (answer (SendHandshakeRaw_body payload now)))) (λ hello, legacy_result (answer (SendHandshake_body hello now))).

#[local] Instance bytes_of_string_inj : Inj (=) (=) bytes_of_string.
Proof.
  intros a. induction a as [| x a IH]; intros [| y b] E; try done. cbn in E. injection E as E1%Nat2Z.inj E2. f_equal; [| by apply IH].
  by rewrite <- (Ascii.ascii_nat_embedding x), E1, Ascii.ascii_nat_embedding.
Qed.

Definition map_ascii : Prop := map_Forall (λ k ua, is_ascii k ∧ is_ascii ua) uas ∧ (∀ w, fw = Some w → map_Forall (λ k x, is_ascii (str k) ∧ i64_min ≤ x ≤ i64_max) w).

Lemma encoded_hello_back sh : map_ascii → is_bytes (sh_EphemeralPub sh) → is_bytes (sh_EncryptedSessionToken sh) →
  0 ≤ sh_MaxConnsPerClient sh ≤ 255 → 0 ≤ sh_ChunkSize sh ≤ 65535 →
  is_bytes (encodeServerHello (versioned sh) uas)
  ∧ ∃ j, dec_hello (encodeServerHello (versioned sh) uas) = Some j ∧ hj_EphPub j = sh_EphemeralPub sh ∧ hj_Token j = sh_EncryptedSessionToken sh
      ∧ hj_MaxConns j = sh_MaxConnsPerClient sh ∧ hj_ChunkSize j = sh_ChunkSize sh ∧ hj_ProtoVersion j = Some 1.
Proof.
  intros [Hu Hf] H1 H2 H3 H4. unfold encodeServerHello. set (j := mkHelloJSON _ _ _ _ _ _ _ _).
  assert (hello_ok j) as Hok.
  { unfold hello_ok, j. cbn. split_and!; try done; try lia; [intros v [= <-]; lia |]. destruct fw as [w |]; [| apply map_Forall_empty].
    intros k x Hk. apply lookup_kmap_Some in Hk as (k' & -> & Hk); [| apply _]. by apply (Hf w eq_refl). }
  split.
  - destruct (hello_member_wf j Hok) as [Hw _]. eapply Forall_impl; [exact (print_ascii _ Hw) |]. unfold is_byte. cbn. intros c Hc. lia.
  - exists j. split; [by apply hello_roundtrip | done].
Qed.

(** What both sides know of a handshake the two of them ran: the client's session
    is registered at the server with the keys crossed over, its nonces are armed, and
    the client's token names it. *)
Definition agreed (c : ClientCore) (sm : SessionManager) : Prop :=
  ∃ client server p, cc_session c = Some client ∧ registered sm (ID client) p server
    ∧ SendKey client = RecvKey server ∧ RecvKey client = SendKey server
    ∧ ProtoVersion client = 1 ∧ is_Some (sendEpochPtr client) ∧ findSessionByHint sm (cc_token c) = Some p.

(** The primitives return bytes. *)
Definition bytes_out : Prop :=
  (∀ x, is_bytes (dh_public x)) ∧ (∀ m n p s, is_bytes m → is_bytes (box_seal m n p s)) ∧ (∀ k n p a, is_bytes p → is_bytes (aead_seal k n p a)).

(** A client that has not connected, and its draws. *)
Record client_ready (c : ClientCore) (i : hs_inputs) (cpriv cnonce : bytes) : Prop := {
  cr_once : cc_onceDone c = false; cr_id : len (cc_clientID c) = 16 ∧ is_bytes (cc_clientID c); cr_pub : cc_serverPub c = Public (serverKey cfg);
  cr_key : hi_key i = Some cpriv ∧ length cpriv = 32%nat; cr_nonce : hi_nonce i = Some cnonce ∧ len cnonce = 24 ∧ is_bytes cnonce;
  cr_unix : 0 ≤ hi_unix i < 2 ^ 62; cr_target : hi_target i ≤ 49152; cr_pad n : 0 < n → len (hi_pad i n) = n ∧ is_bytes (hi_pad i n);
}.

(** A server in order, and its draws; the clocks differ by at most 300 seconds. *)
Record server_ready (h : handler) (k : hs_clock) (spriv snonce : bytes) (unix : Z) : Prop := {
  sr_key : keypair_ok (serverKey cfg); sr_wf : sm_wf (sessions h);
  sr_eph : in_eph (ck_inputs k) = Some spriv ∧ length spriv = 32%nat; sr_token : in_token (ck_inputs k) = Some snonce ∧ len snonce = 12 ∧ is_bytes snonce;
  sr_clock : 0 ≤ in_unix (ck_inputs k) < 2 ^ 62 ∧ Z.abs (in_unix (ck_inputs k) - unix) ≤ 300;
  sr_config : 0 ≤ MaxConnsPerClient cfg ≤ 255 ∧ 0 ≤ ChunkSize cfg ≤ 65535; sr_maps : map_ascii; sr_page : isHTMLBody page = true;
}.

Lemma hs_commit_accepted h hello k sh h' : hs_commit cfg h (mkWaiting hello None) k = Ret (Accepted sh, h') →
  ∃ sm p cid, HandleClientHelloWithVersion hello (serverKey cfg) (MaxConnsPerClient cfg) (ChunkSize cfg) (sessions h) 1 (ck_inputs k) = (sm, Ret (sh, p, cid))
    ∧ sessions h' = set_maps sm (alter (λ s, set_attach s (ck_attached k) (DetachedAt s)) p (sm_heap sm)) (sm_sessions sm).
Proof.
  unfold hs_commit. cbn [wt_hello wt_cached]. destruct (DecryptClientID _ _ _ _) as [cid | |]; try done.
  destruct (Accept _ _ _) as [fresh rc]. destruct (negb fresh); [done |].
  change (sessions (with_replay h rc)) with (sessions h). destruct (HandleClientHelloWithVersion _ _ _ _ _ _ _) as [sm [[[sh0 p] c0] | |]]; try done.
  destruct (negb (IsAuthorized _ _)); [done |]. destruct (AdmitSession _ _ _) as [adm auth]. destruct (negb adm); [done |]. intros [= <- <-]. exists sm, p, c0. done.
Qed.

Lemma hello_payload_dispatched hello target pad : len (ch_EphemeralPub hello) = 32 → len (ch_EncryptedClientID hello) = EncryptedClientIDSize →
  handshake_or_decoy (BuildHandshakePayload (ch_EphemeralPub hello) (ch_EncryptedClientID hello) target pad) = AHello hello.
Proof.
  intros He Hc. destruct hello as [e c]. cbn [ch_EphemeralPub ch_EncryptedClientID] in *.
  assert (∃ t, BuildHandshakePayload e c target pad = e ++ c ++ t) as [t ->].
  { unfold BuildHandshakePayload. destruct (_ <=? _); [exists []; by rewrite app_nil_r | eexists; by rewrite <- app_assoc]. }
  unfold handshake_or_decoy. rewrite !len_app, He, Hc. pose proof (len_nonneg t). rewrite (proj2 (Z.leb_le _ _)) by (unfold v1HandshakeMin, EncryptedClientIDSize in *; lia).
  unfold len in He, Hc. rewrite take_app_le, take_ge by lia. rewrite drop_app_ge, (proj2 (Nat.sub_0_le 32 (length e))), drop_0 by lia. rewrite take_app_le, take_ge by lia. done.
Qed.

(** The client's side of an accepted hello. *)
Lemma hello_applied c state j shello client i :
  hj_EphPub j = sh_EphemeralPub shello → hj_Token j = sh_EncryptedSessionToken shello → hj_ProtoVersion j = Some 1 →
  CompleteHandshakeWithVersion state shello 1 (hi_now i) (hi_migrate i) = Ret client → destroyed client = false → newGCM (SendKey client) = Ret (SendKey client) →
  ∃ c' s, applyServerHello reg sessionAware c state j 1 i = Ret (None, c') ∧ cc_session c' = Some s ∧ cc_token c' = EncodeTokenWithHint (ID client) (sh_EncryptedSessionToken shello)
    ∧ ID s = ID client ∧ SendKey s = SendKey client ∧ RecvKey s = RecvKey client ∧ ProtoVersion s = 1 ∧ is_Some (sendEpochPtr s).
Proof.
  intros He Ht Hv Hc Hd Hg. unfold applyServerHello.
  assert (CompleteHandshake state (Some (hello_of j)) (hi_now i) (hi_migrate i) = Ret client) as ->.
  { rewrite <- Hc. unfold CompleteHandshake, hello_of. cbn [sh_ProtoVersion]. rewrite Hv. unfold CompleteHandshakeWithVersion. cbn [sh_EphemeralPub sh_EncryptedSessionToken]. by rewrite He, Ht. }
  cbn [mbind outcome_bind]. unfold InitSendEpoch. cbn [destroyed sendEpochPtr set_proto SendKey epochs]. rewrite Hd.
  destruct (sendEpochPtr client) as [q |] eqn:Eq.
  - eexists _, _. split; [done |]. cbn [cc_session cc_token]. rewrite Ht. split_and!; try done.
  - rewrite Hg. cbn [mbind outcome_bind]. eexists _, _. split; [done |]. cbn [cc_session cc_token]. rewrite Ht. split_and!; done.
Qed.

(** The encrypted id and the session token are bytes. *)
Lemma hello_id_bytes clientID serverPub unix key nonce hello state : bytes_out → len clientID = 16 → is_bytes clientID → is_bytes nonce → len nonce = 24 →
  NewClientHello clientID serverPub unix (Some key) (Some nonce) = Ret (hello, state) → is_bytes (ch_EncryptedClientID hello).
Proof.
  intros (_ & Bb & _) Hi Hib Hnb Hnl H. unfold NewClientHello, GenerateKeyPair in H. cbn [mbind outcome_bind] in H. rewrite EncryptClientID_eq in H by lia. cbn [mbind outcome_bind] in H.
  injection H as <- _. cbn [ch_EncryptedClientID]. apply Forall_app. split; [done |]. apply Bb. unfold hello_plaintext.
  apply Forall_app. split; [apply be_bytes_is_bytes |]. apply Forall_app. split; [| done]. apply Forall_singleton. unfold is_byte. lia.
Qed.

Lemma token_bytes id key nonce tok : bytes_out → len key = 32 → len nonce = 12 → is_bytes nonce →
  encryptSessionToken id key (Some nonce) = Ret tok → is_bytes tok.
Proof.
  intros (_ & _ & Ba) Hk Hn Hnb. unfold encryptSessionToken. rewrite newGCM_32 by done. ostep. fill_start. fill_step. change (drop 4 (make_bytes 4)) with (@nil Z).
  rewrite app_nil_r. cbn [app]. intros [= <-]. apply Forall_app. split; [done | apply Ba, be_bytes_is_bytes].
Qed.

(** The padded hello comes out of the request as it went in. *)
Lemma hello_upload_back eph enc target pad now : i64_min ≤ now ≤ i64_max → target ≤ 49152 → (∀ n, 0 < n → len (pad n) = n ∧ is_bytes (pad n)) →
  len eph = 32 → is_bytes eph → len enc = EncryptedClientIDSize → is_bytes enc →
  ParseUploadRequest (SendHandshakeRaw_body (BuildHandshakePayload eph enc target pad) now) = Ret (BuildHandshakePayload eph enc target pad).
Proof.
  intros Hnow Ht Hpad He Heb Hc Hcb. unfold SendHandshakeRaw_body. set (payload := BuildHandshakePayload _ _ _ _).
  assert (is_bytes payload ∧ 0 < len payload ≤ 49152) as [Hpb Hpl].
  { unfold payload, BuildHandshakePayload, EncryptedClientIDSize in *. destruct (Z.leb_spec target (len (eph ++ enc))).
    - split; [by apply Forall_app | rewrite len_app; lia].
    - destruct (Hpad (target - len (eph ++ enc)) ltac:(lia)) as [Hl Hb].
      split; [apply Forall_app; split; [by apply Forall_app | done] |]. rewrite (len_app (_ ++ _)), Hl. pose proof (len_nonneg (eph ++ enc)). lia. }
  rewrite upload_payload_back by (done || by apply str_ascii). by rewrite (proj2 (Z.eqb_neq _ 0)), (proj2 (Z.ltb_ge 49152 _)) by lia.
Qed.

(** C7: [Connect] against the server's handshake handler, over the bodies the two
    exchange.  The client sends one request, in the new format; when the server
    accepts, the client ends connected: its session is registered at the server with
    the keys crossed over and its token finds it; when the server answers with its
    decoy page, for whatever reason, [Connect] fails, no legacy request follows and
    the client has no session it did not have before. *)
Theorem connect_agrees c h start now k rid i cpriv cnonce spriv snonce e c' log :
  bytes_out → client_ready c i cpriv cnonce → server_ready h k spriv snonce (hi_unix i) → dh_shared spriv (dh_public cpriv) ≠ None →
  i64_min ≤ now ≤ i64_max → 0 ≤ rid < 2 ^ 32 →
  Connect reg sessionAware c (to_server h now k rid) start i = Ret (e, c', log) →
  ∃ payload, log = [SentNew payload] ∧ ∀ resp h', server_answer h (SendHandshakeRaw_body payload now) k rid = Ret (resp, h') →
    if bool_decide (rs_body resp = page) then e = Some (EStatus 200) ∧ cc_session c' = cc_session c
    else e = None ∧ agreed c' (sessions h').
Proof.
  intros Hbo [Ro [Ri Rib] Rp [Rk Rkl] (Rn & Rnl & Rnb) Ru Rt Rpad] [[Sk1 Sk2] Sw [Se Sel] (St & Stl & Stb) [Sc1 Sc2] [Sm1 Sm2] Sma Spg] Hdh Hnow Hrid.
  destruct (handshake_agrees (MaxConnsPerClient cfg) (ChunkSize cfg) (cc_clientID c) (serverKey cfg) cpriv spriv cnonce snonce (hi_unix i) (hi_now i) 1 (sessions h) (ck_inputs k) (hi_migrate i))
    as (hello & state & sm' & shello & tok & p & client & server & H1 & H2 & H3 & H4 & H5 & H6 & H7 & H8 & _ & H10 & H11 & H12 & H13 & H14 & H15 & H16); try done.
  unfold Connect, once_do. set (c0 := stamp_start c start).
  assert (cc_onceDone c0 = false ∧ cc_clientID c0 = cc_clientID c ∧ cc_serverPub c0 = cc_serverPub c ∧ cc_session c0 = cc_session c) as (-> & Ei & Ep & Ess) by (unfold c0, stamp_start; by destruct (_ =? _)).
  unfold runHandshakeSequence. rewrite Ei, Ep, Rp, Rk, Rn, H1, Ri. change (negb (16 =? 16)) with false. cbn iota.
  unfold handshakeNew. cbn [tr_raw to_server]. set (payload := BuildHandshakePayload _ _ _ _).
  assert (len (ch_EphemeralPub hello) = 32 ∧ is_bytes (ch_EphemeralPub hello)) as [Hel Heb] by (rewrite H10; cbn [ch_EphemeralPub]; split; [apply dh_public_len | apply Hbo]).
  assert (ParseUploadRequest (SendHandshakeRaw_body payload now) = Ret payload) as Eup.
  { apply hello_upload_back; try done. eapply (hello_id_bytes _ _ _ _ _ _ _ Hbo Ri Rib Rnb Rnl). exact H1. }
  assert (server_answer h (SendHandshakeRaw_body payload now) k rid = ('(r, h') ← hs_commit cfg h (mkWaiting hello None) k;
      Ret (match r with Accepted sh => mkResponse 200 (BuildDownloadResponse (encodeServerHello (versioned sh) uas) rid) false | Decoy _ => mkResponse 200 page false end, h'))) as Esa.
  { unfold server_answer. rewrite Eup. unfold payload. by rewrite hello_payload_dispatched. }
  rewrite Esa. destruct (hs_commit cfg h (mkWaiting hello None) k) as [[r h1] | |] eqn:Ec; cbn [mbind outcome_bind].
  2: { cbn [raw_result isContextError parseHandshakeError mbind outcome_bind]. intros [= <- <- <-]. exists payload. split; [done |]. intros resp h' E. by rewrite Esa in E. }
  2: { cbn [raw_result isContextError parseHandshakeError mbind outcome_bind]. intros [= <- <- <-]. exists payload. split; [done |]. intros resp h' E. by rewrite Esa in E. }
  assert (∀ resp h', server_answer h (SendHandshakeRaw_body payload now) k rid = Ret (resp, h') →
    h' = h1 ∧ resp = match r with Accepted sh => mkResponse 200 (BuildDownloadResponse (encodeServerHello (versioned sh) uas) rid) false | Decoy _ => mkResponse 200 page false end) as Hresp.
  { intros resp h' E. rewrite Esa in E. cbn [mbind outcome_bind] in E. injection E as <- <-. split; reflexivity. }
  destruct r as [why | sh].
  - unfold raw_result. cbn [rs_status rs_limited rs_body]. change (400 <=? 200) with false. change (negb (200 =? 200)) with false. cbn iota. rewrite Spg.
    cbn [isContextError parseHandshakeError]. change (200 =? 200) with true. cbn iota. cbn [mbind outcome_bind]. intros [= <- <- <-]. exists payload. split; [done |].
    intros resp h' [-> ->]%Hresp. cbn [rs_body]. rewrite bool_decide_eq_true_2 by done. cbn [with_once cc_handshakeErr isContextError cc_session]. rewrite Ess. split; reflexivity.
  - apply hs_commit_accepted in Ec as (sm & q & cid & Eh & Es). rewrite H2 in Eh. injection Eh as <- <- <- _.
    assert (is_bytes (sh_EncryptedSessionToken shello)) as Htb by (rewrite H12; cbn [sh_EncryptedSessionToken]; exact (token_bytes _ _ _ _ Hbo H15 Stl Stb H13)).
    destruct (encoded_hello_back shello) as (Hhb & j & Ej & J1 & J2 & J3 & J4 & J5); [done | rewrite H12; apply Hbo | done | by rewrite H12 | by rewrite H12 |].
    assert (isHTMLBody (BuildDownloadResponse (encodeServerHello (versioned shello) uas) rid) = false) as Hnh by reflexivity.
    assert (BuildDownloadResponse (encodeServerHello (versioned shello) uas) rid ≠ page) as Hne by (intros E; by rewrite E, Spg in Hnh).
    unfold raw_result. cbn [rs_status rs_limited rs_body]. change (400 <=? 200) with false. change (negb (200 =? 200)) with false. cbn iota. rewrite Hnh.
    assert (read_hello (BuildDownloadResponse (encodeServerHello (versioned shello) uas) rid) = Some j) as ->.
    { unfold read_hello, BuildDownloadResponse. rewrite response_back; [done | done | done | unfold i64_min, i64_max; lia | constructor]. }
    rewrite J5. change (1 <? 1) with false. cbn iota. destruct H8 as (_ & _ & _ & _ & _ & Hgcm & _).
    destruct (hello_applied c0 state j shello client i J1 J2 J5 H3 H16 Hgcm) as (c1 & s1 & Ea & A1 & A2 & A3 & A4 & A5 & A6 & A7).
    rewrite Ea. cbn [mbind outcome_bind]. intros [= <- <- <-]. exists payload. split; [done |]. intros resp h' [-> ->]%Hresp. cbn [rs_body]. rewrite bool_decide_eq_false_2 by done. split; [done |].
    cbn [with_once cc_handshakeErr]. exists s1, (set_attach server (ck_attached k) (DetachedAt server)), p. cbn [cc_session with_once cc_token].
    destruct H4 as [Hr1 Hr2]. assert (registered (sessions h1) (ID server) p (set_attach server (ck_attached k) (DetachedAt server))) as [R1 R2].
    { rewrite Es. split; [exact Hr1 |]. cbn. by rewrite lookup_alter_eq, Hr2. }
    rewrite A1, A2, A3, A4, A5, A6, H5. split_and!; [reflexivity | exact (conj R1 R2) | exact H6 | exact H7 | reflexivity | exact A7 |].
    rewrite H12. cbn [sh_EncryptedSessionToken]. by apply (hint_roundtrip (sessions h1) p (set_attach server (ck_attached k) (DetachedAt server)) snonce tok).
Qed.
End end_to_end.

(** ** Witnesses and defects *)

Module ConnDemo.
Import Toy LifeDemo.
#[local] Existing Instances toy_aead toy_dh toy_box toy_kdf.

Definition reg0 : registry := ProfileDemo.reg.
Definition ins : hs_inputs := mkHsInputs 1000 (Some priv_c) (Some nonce24) 300 (λ n, replicate (Z.to_nat n) 1) 7 None true.
Definition core0 (insecure : bool) (id : bytes) : ClientCore := new_core (Public static_kp) id insecure ProfileChrome131 None.
Definition weights0 : option (gmap string Z) := Some {["chrome120"%string := 5]}.
Definition html : bytes := str "<html>".
Definition server (h : handler) : transport := to_server cfg1 (ProfileUAs reg0) weights0 html h 5 clock 77.
Definition first : outcome (option hs_error * ClientCore * list sent) := Connect reg0 true (core0 false uuid) (server empty_server) 1 ins.

Example connects : (λ r, (fst (fst r), ID <$> cc_session (snd (fst r)), cc_chunkSize (snd (fst r)), length (snd r))) <$> first = Ret (None, Some 1, 8192, 1%nat).
Proof. vm_compute. reflexivity. Qed.

(** A transport that never answers, and one that is cancelled. *)
Definition dead (e : hs_error) : transport := mkTransport (Some (λ _, inl e)) (λ _, inl e).
(** An old server: it refuses the new request and answers the legacy one. *)
Definition old_server : transport := mkTransport (Some (λ _, inl (EStatus 404))) (tr_legacy (server empty_server)).

Lemma small_bytes n b : 0 ≤ b < 256 → is_bytes (replicate n b).
Proof. intros. by apply Forall_replicate. Qed.

Lemma uuid_bytes : len uuid = 16 ∧ is_bytes uuid.
Proof. split; [reflexivity |]. unfold is_bytes, is_byte. apply (bool_decide_unpack _). vm_compute. exact I. Qed.
Lemma nonce_a_bytes : len nonce_a = 12 ∧ is_bytes nonce_a.
Proof. split; [reflexivity |]. unfold is_bytes, is_byte. apply (bool_decide_unpack _). vm_compute. exact I. Qed.

Lemma ready : client_ready cfg1 (core0 false uuid) ins priv_c nonce24.
Proof.
  split.
  - reflexivity.
  - exact uuid_bytes.
  - reflexivity.
  - split; reflexivity.
  - split_and!; [reflexivity | reflexivity | apply small_bytes; lia].
  - cbn. lia.
  - cbn. lia.
  - intros n Hn. cbn. split; [unfold len; rewrite length_replicate; lia | apply small_bytes; lia].
Qed.

Lemma maps_ascii : map_ascii (ProfileUAs reg0) weights0.
Proof.
  unfold map_ascii, is_ascii. split; [apply (bool_decide_unpack _); vm_compute; exact I |].
  intros w [= <-]. apply map_Forall_insert_2; [| apply map_Forall_empty]. split; [apply (bool_decide_unpack _); vm_compute; exact I | unfold i64_min, i64_max; lia].
Qed.

Lemma serving : server_ready cfg1 (ProfileUAs reg0) weights0 html empty_server clock priv_s nonce_a 1000.
Proof.
  split.
  - exact static_kp_ok.
  - split; [done | cbn; lia].
  - split; reflexivity.
  - split; [reflexivity | exact nonce_a_bytes].
  - cbn. lia.
  - cbn. lia.
  - exact maps_ascii.
  - reflexivity.
Qed.

Lemma toy_bytes_out : bytes_out.
Proof.
  split_and!; cbn; unfold pub, seal, tag; intros; try (apply Forall_app; split; [done |]); apply be_bytes_is_bytes.
Qed.

Definition connected_core : ClientCore := match first with Ret (_, c, _) => c | _ => core0 false uuid end.
Definition sent_first : list sent := match first with Ret (_, _, l) => l | _ => [] end.
Lemma first_result : first = Ret (None, connected_core, sent_first).
Proof. vm_compute. reflexivity. Qed.

Lemma connect_agrees_witness :
  first = Ret (None, connected_core, sent_first)
  ∧ ∃ payload, sent_first = [SentNew payload] ∧ ∀ resp h',
      server_answer cfg1 (ProfileUAs reg0) weights0 html empty_server (SendHandshakeRaw_body payload 5) clock 77 = Ret (resp, h') →
      if bool_decide (rs_body resp = html) then @None hs_error = Some (EStatus 200) ∧ cc_session connected_core = cc_session (core0 false uuid)
      else @None hs_error = None ∧ agreed connected_core (sessions h').
Proof.
  split; [exact first_result |].
  apply (connect_agrees reg0 true cfg1 (ProfileUAs reg0) weights0 html (core0 false uuid) empty_server 1 5 clock 77 ins priv_c nonce24 priv_s nonce_a None connected_core sent_first).
  - exact toy_bytes_out.
  - exact ready.
  - exact serving.
  - vm_compute. discriminate.
  - unfold i64_min, i64_max. lia.
  - lia.
  - exact first_result.
Defined.

(** The old server: the second request is the legacy one and the session is of
    version 0. *)
Definition fallback : outcome (option hs_error * ClientCore * list sent) := runHandshakeSequence reg0 true (core0 false uuid) old_server ins.
Definition fallen : option hs_error * ClientCore * list sent := match fallback with Ret r => r | _ => (None, core0 false uuid, []) end.


Lemma connect_pinned_witness : ∀ tr' now' i', ∃ c2, Connect reg0 true connected_core tr' now' i' = Ret (None, c2, [])
    ∧ cc_session c2 = cc_session connected_core ∧ cc_token c2 = cc_token connected_core ∧ cc_handshakeErr c2 = None ∧ cc_onceDone c2 = true.
Proof. exact (connect_pinned reg0 true (core0 false uuid) (server empty_server) 1 ins None connected_core sent_first first_result). Defined.

(** Two streams open, one of each kind. *)
Definition busy_streams : Client := match table_run new_client [ORegister 1; ORegisterSeq 2] with Ret c => c | _ => new_client end.
Lemma busy_inv : table_inv busy_streams.
Proof. unfold busy_streams. destruct (table_run_inv [ORegister 1; ORegisterSeq 2] new_client new_client_inv) as (c & -> & Hc). exact Hc. Qed.
Definition busy_core : ClientCore := with_session connected_core (cc_session connected_core) (cc_token connected_core) busy_streams.

Lemma reset_streams_clean_witness :
  (streamChans busy_streams !! 1 = Some 0%nat ∧ streamFramesChans busy_streams !! 2 = Some 0%nat)
  ∧ ∃ c', ResetStreams busy_core = Ret (c', cc_session busy_core) ∧ cc_session c' = None ∧ cc_token c' = []
    ∧ table_inv (cc_streams c') ∧ streamChans (cc_streams c') = ∅ ∧ streamFramesChans (cc_streams c') = ∅
    ∧ (∀ id p, streamChans (cc_streams busy_core) !! id = Some p → ∃ ch, cl_flat (cc_streams c') !! p = Some ch ∧ ch_closed ch = true)
    ∧ (∀ id p, streamFramesChans (cc_streams busy_core) !! id = Some p → ∃ ch, cl_seq (cc_streams c') !! p = Some ch ∧ ch_closed ch = true)
    ∧ (∀ p, (∀ id, streamChans (cc_streams busy_core) !! id ≠ Some p) → cl_flat (cc_streams c') !! p = cl_flat (cc_streams busy_core) !! p).
Proof. split; [split; vm_compute; reflexivity |]. apply (reset_streams_clean busy_core). exact busy_inv. Defined.

(** Two callers of [Connect], the first cancelled: the second waited for the first's
    run, and reads the error after the first has reset it.  It is told that the
    client is connected. *)
Theorem cancelled_caller_hides_failure :
  (λ st, (cc_session (fst st), snd st)) <$>
    callers_run reg0 true (core0 false uuid, [CallerStart; CallerStart])
      [(0%nat, dead ECtx, ins); (1%nat, server empty_server, ins); (0%nat, dead ECtx, ins); (0%nat, dead ECtx, ins);
       (1%nat, server empty_server, ins); (1%nat, server empty_server, ins)]
  = Ret (None, [CallerReturned (Some ECtx); CallerReturned None]).
Proof. vm_compute. reflexivity. Qed.

(** A client with a short id asks in the legacy format whether or not certificates
    are verified. *)
Theorem short_id_skips_the_guard :
  (λ r, (fst (fst r), map is_legacy (snd r))) <$>
    runHandshakeSequence reg0 true (core0 true (str "user_42")) (mkTransport (Some (λ _, inl ECtx)) (λ _, inl (EStatus 500))) ins
  = Ret (Some (EStatus 500), [true]).
Proof. vm_compute. reflexivity. Qed.

(** The server takes the unpadded request of [NewStreamSession] for one of the new
    format and registers a session of version 1; the client does not read the version
    and derives the keys of version 0: the two ends do not share a key. *)
Theorem stream_session_keys_differ :
  (match tr_legacy (server empty_server) (hello_at 1000) with inr body => hj_ProtoVersion <$> read_hello body | inl _ => None end) = Some (Some 1)
  ∧ match NewStreamSession (core0 false uuid) (server empty_server) ins, server_answer cfg1 (ProfileUAs reg0) weights0 html empty_server (SendHandshake_body (hello_at 1000) 5) clock 77 with
    | Ret (Some (s, _)), Ret (_, h') => (SendKey <$> sm_heap (sessions h') !! default 0%nat (sm_sessions (sessions h') !! ID s)) ≠ Some (RecvKey s)
    | _, _ => False
    end.
Proof. split; vm_compute; [reflexivity | discriminate]. Qed.

End ConnDemo.
