(* ===== verification/WSSession.v ===== *)
(** * The WebSocket session loop ([runWebSocketSession] of [server/websocket.go])

    The dispatcher of decrypted frames, the goroutines a CONNECT starts and the
    cleanup when the connection dies.  A slot is one WebSocket session: its
    stream and credit maps point to shared objects; the relay registry, the UDP
    relay and the streams themselves belong to the server.  The connection a
    CONNECT dials, the stream it feeds, the credit it gets and the relay it may
    become carry the same number. *)

From S2P Require Import Prelude.
From S2P Require Import Primitives.
From S2P Require Import BufPool.
From S2P Require Import Chunk.
From S2P Require Import ReplayWindow.
From S2P Require Import Session.
From S2P Require Import Handshake.
From S2P Require Import EgressGuard.
From S2P Require Import UDPRelay.
From S2P Require Import WSStream.
From S2P Require Import Credit.
From S2P Require Import Relay.
From stdpp Require Import base list gmap strings.

#[local] Open Scope Z_scope.

Definition maxStreamsPerSession : nat := 256%nat.

Record slot := mkSlot {
  sl_bind : binding;               (* the session and the writer *)
  sl_window : Z;                   (* [flowWindow]; positive when flow control is on *)
  sl_migrate : bool;
  sl_client : bytes;               (* [migrateClientID] *)
  sl_streams : gmap Z nat;
  sl_credits : gmap Z nat;
  sl_done : bool;
}.

Record server := mkServer {
  sv_relays : relays;
  sv_streams : gmap nat wsStream;
  sv_slots : gmap nat slot;
  sv_dials : gmap nat (nat * Z);   (* dial goroutines: slot and stream id *)
  sv_inline : gmap nat (nat * Z);  (* relay loops of sessions without migration *)
  sv_udp : UDPRelay.UDPRelay;
  sv_unknown : Z;
}.

Definition with_relays (sv : server) (r : relays) : server :=
  mkServer r (sv_streams sv) (sv_slots sv) (sv_dials sv) (sv_inline sv) (sv_udp sv) (sv_unknown sv).
Definition with_stream (sv : server) (p : nat) (s : wsStream) : server :=
  mkServer (sv_relays sv) (<[p := s]> (sv_streams sv)) (sv_slots sv) (sv_dials sv) (sv_inline sv) (sv_udp sv) (sv_unknown sv).
Definition with_slot (sv : server) (k : nat) (sl : slot) : server :=
  mkServer (sv_relays sv) (sv_streams sv) (<[k := sl]> (sv_slots sv)) (sv_dials sv) (sv_inline sv) (sv_udp sv) (sv_unknown sv).
Definition with_dials (sv : server) (d : gmap nat (nat * Z)) : server :=
  mkServer (sv_relays sv) (sv_streams sv) (sv_slots sv) d (sv_inline sv) (sv_udp sv) (sv_unknown sv).
Definition with_inline (sv : server) (d : gmap nat (nat * Z)) : server :=
  mkServer (sv_relays sv) (sv_streams sv) (sv_slots sv) (sv_dials sv) d (sv_udp sv) (sv_unknown sv).
Definition with_udp (sv : server) (u : UDPRelay.UDPRelay) : server :=
  mkServer (sv_relays sv) (sv_streams sv) (sv_slots sv) (sv_dials sv) (sv_inline sv) u (sv_unknown sv).
Definition count_unknown (sv : server) : server :=
  mkServer (sv_relays sv) (sv_streams sv) (sv_slots sv) (sv_dials sv) (sv_inline sv) (sv_udp sv) (sv_unknown sv + 1).

Definition set_streams (sl : slot) (m : gmap Z nat) : slot :=
  mkSlot (sl_bind sl) (sl_window sl) (sl_migrate sl) (sl_client sl) m (sl_credits sl) (sl_done sl).
Definition set_credits (sl : slot) (m : gmap Z nat) : slot :=
  mkSlot (sl_bind sl) (sl_window sl) (sl_migrate sl) (sl_client sl) (sl_streams sl) m (sl_done sl).
Definition set_sl_done (sl : slot) : slot :=
  mkSlot (sl_bind sl) (sl_window sl) (sl_migrate sl) (sl_client sl) (sl_streams sl) (sl_credits sl) true.

Definition flow_on (sl : slot) : bool := 0 <? sl_window sl.
(** [migrateEnabled && migrateClientID != ""] *)
Definition migrates (sl : slot) : bool := sl_migrate sl && negb (len (sl_client sl) =? 0).

(** [registerWSStreamLocked] *)
Definition registerWSStreamLocked (streams : gmap Z nat) (sid : Z) (p : nat) : option (gmap Z nat) :=
  match streams !! sid with
  | Some _ => None
  | None => if (maxStreamsPerSession <=? size streams)%nat then None else Some (<[sid := p]> streams)
  end.

(** [s.Close()]: the connection it closes is the relay's too. *)
Definition close_stream (sv : server) (p : nat) : server :=
  match sv_streams sv !! p with
  | None => sv
  | Some s =>
    let sv1 := with_stream sv p (WSStream.Close s) in
    if negb (closeOnce s) && hasTarget s then with_relays sv1 (upd (sv_relays sv1) p set_tc_closed) else sv1
  end.

Definition del_stream (sv : server) (k : nat) (sid : Z) : server :=
  match sv_slots sv !! k with
  | Some sl => with_slot sv k (set_streams sl (delete sid (sl_streams sl)))
  | None => sv
  end.

(** [if cr := credits[sid]; cr != nil { cr.close(); delete(credits, sid) }] *)
Definition drop_credit (sv : server) (k : nat) (sid : Z) : server :=
  match sv_slots sv !! k with
  | Some sl =>
    if flow_on sl then
      match sl_credits sl !! sid with
      | Some c =>
        with_slot (with_relays sv (with_credits (sv_relays sv) (alter Credit.close c (rl_credits (sv_relays sv)))))
          k (set_credits sl (delete sid (sl_credits sl)))
      | None => sv
      end
    else sv
  | None => sv
  end.

Definition body_fail : bytes := bytes_of_string "CONNECT_FAIL".
Definition body_ok : bytes := bytes_of_string "CONNECT_OK".

Section session.
Context {HA : AEAD} {HK : KDF}.
(** Server configuration: the master key, the block list. *)
Context (masterKey : bytes) (blockDomains : list bytes).
(** The resolver and the address parser, see [EgressGuard.v]. *)
Context (ParseIP : bytes → option IP) (LookupAddr : bytes → option (list bytes))
  (ResolveUDPAddr : bytes → option (IP * bytes)).

(** Build a chunk, encrypt it under the slot's session, enqueue it. *)
Definition slot_send (sv : server) (sl : slot) (mk : bufPools → Z → Z → outcome (Chunk * bytes * bufPools))
  : outcome (bool * server) :=
  '(ok, n') ← send_chunk (rl_net (sv_relays sv)) (sl_bind sl) mk;
  Ret (ok : bool, with_relays sv (with_net (sv_relays sv) n')).

Definition send_body (sv : server) (sl : slot) (sid : Z) (body : bytes) : outcome server :=
  '(_, sv') ← slot_send sv sl (λ pools id seq, NewStreamDataChunk pools id seq sid body);
  Ret sv'.

(** ** The dispatcher *)

(** [s.Write(payload)], called and completed by the reader: it waits while the
    channel is full. *)
Definition stream_write (s : wsStream) (data : bytes) : outcome wsStream :=
  s1 ← sstep s (SWrite data);
  match rd s1 with
  | None => Ret s1
  | Some _ => if len (writeCh s1) <? writeChCap then sstep s1 SSend
              else if st_done s1 then sstep s1 SGiveUp else Err "blocked"
  end.

(** [wok]: whether the target accepts the write. *)
Definition on_data (sv : server) (sl : slot) (payload : bytes) (wok : bool) : outcome server :=
  '(sid, data) ← ParseStreamID payload;
  if len data =? 0 then Ret sv else
  match sl_streams sl !! sid with
  | Some p =>
    match sv_streams sv !! p with
    | None => Panic
    | Some s => s' ← stream_write s data; Ret (with_stream sv p s')
    end
  | None =>
    if migrates sl then
      match relay_find (sv_relays sv) (sl_client sl) sid with
      | None => Ret sv
      | Some p =>
        match rl_entries (sv_relays sv) !! p with
        | None => Panic
        | Some e =>
          if wok && tc_open e then
            Ret (match sv_streams sv !! p with Some s => with_stream sv p (deliver s data) | None => sv end)
          else
            r' ← signalStreamEnd (sv_relays sv) p (sl_migrate sl);
            Ret (with_relays sv r')
        end
      end
    else Ret sv
  end.

(** The number for the objects of a new CONNECT. *)
Definition new_object (sv : server) : nat :=
  fresh (dom (sv_streams sv) ∪ dom (rl_entries (sv_relays sv)) ∪ dom (rl_credits (sv_relays sv)) ∪ dom (sv_dials sv)).

Definition on_connect (sv : server) (k : nat) (sl : slot) (payload : bytes) : outcome server :=
  '(sid, target) ← ParseStreamID payload;
  if len target =? 0 then Ret sv else
  let p := new_object sv in
  match registerWSStreamLocked (sl_streams sl) sid p with
  | None => send_body sv sl sid body_fail
  | Some streams' =>
    let sl1 := set_streams sl streams' in
    let sv1 := with_dials (with_stream sv p newPendingWSStream) (<[p := (k, sid)]> (sv_dials sv)) in
    if flow_on sl then
      Ret (with_slot (with_relays sv1 (with_credits (sv_relays sv1)
                        (<[p := newStreamCredit (sl_window sl)]> (rl_credits (sv_relays sv1)))))
             k (set_credits sl1 (<[sid := p]> (sl_credits sl1))))
    else Ret (with_slot sv1 k sl1)
  end.

Definition on_fin (sv : server) (k : nat) (sl : slot) (payload : bytes) : outcome server :=
  '(sid, _) ← ParseStreamID payload;
  let sv1 := match sl_streams sl !! sid with
             | Some p => del_stream (close_stream sv p) k sid
             | None => sv
             end in
  let sv2 := drop_credit sv1 k sid in
  Ret (if migrates sl then with_relays sv2 (fin_relay (sv_relays sv2) (sl_client sl) sid) else sv2).

Definition on_keepalive (sv : server) (sl : slot) : outcome server :=
  '(_, sv') ← slot_send sv sl (unpooled (λ id seq, Ret (mkChunk id seq FlagAck [])));
  Ret sv'.

Definition on_udp (sv : server) (sl : slot) (payload : bytes) (now : Z) : outcome server :=
  match ParseUDPChunk payload with
  | Panic => Panic
  | Err _ => Ret sv
  | Ret (sid, targetAddr, data) =>
    match udp_target ParseIP LookupAddr ResolveUDPAddr targetAddr blockDomains with
    | None => Ret sv
    | Some (ip, port) =>
      match n_sessions (rl_net (sv_relays sv)) !! b_session (sl_bind sl) with
      | None => Panic
      | Some s =>
        let key := mkKey (ID s) sid in
        Ret (with_udp sv (UDPRelay.Send (sv_udp sv) key (ip ++ [colon] ++ port) data (mkCb key targetAddr) now))
      end
    end
  end.

Definition on_window_update (sv : server) (sl : slot) (payload : bytes) : outcome server :=
  match ParseWindowUpdate payload with
  | Panic => Panic
  | Err _ => Ret sv
  | Ret (sid, delta) =>
    let cr := match sl_credits sl !! sid with
              | Some c => Some c
              | None =>
                if migrates sl then
                  match relay_find (sv_relays sv) (sl_client sl) sid with
                  | Some p => match rl_entries (sv_relays sv) !! p with Some e => en_credit e | None => None end
                  | None => None
                  end
                else None
              end in
    Ret (match cr with
         | Some c => with_relays sv (with_credits (sv_relays sv)
                       (alter (λ x, add x delta (sl_window sl)) c (rl_credits (sv_relays sv))))
         | None => sv
         end)
  end.

Definition on_stream_ack (sv : server) (sl : slot) (payload : bytes) : outcome server :=
  if negb (sl_migrate sl) then Ret sv else
  match ParseStreamAckFrame payload with
  | Panic => Panic
  | Err _ => Ret sv
  | Ret (sid, acked) =>
    Ret (match relay_find (sv_relays sv) (sl_client sl) sid with
         | Some p => with_relays sv (onStreamAck (sv_relays sv) p acked)
         | None => sv
         end)
  end.

Definition handle_chunk (sv : server) (k : nat) (sl : slot) (c : Chunk) (wok : bool) (now : Z) : outcome server :=
  let flag := Flags c in
  if flag =? FlagData then on_data sv sl (Payload c) wok
  else if flag =? FlagConnect then on_connect sv k sl (Payload c)
  else if flag =? FlagFin then on_fin sv k sl (Payload c)
  else if flag =? FlagKeepalive then on_keepalive sv sl
  else if flag =? FlagUDP then on_udp sv sl (Payload c) now
  else if flag =? FlagWindowUpdate then on_window_update sv sl (Payload c)
  else if (flag =? FlagMigrate) || (flag =? FlagResume) then
    if negb (sl_migrate sl) then Ret sv else
    r' ← handleMigrateOrResume masterKey (sv_relays sv) flag (Payload c) (sl_client sl) (sl_bind sl) (sl_migrate sl);
    Ret (with_relays sv r')
  else if flag =? FlagStreamAck then on_stream_ack sv sl (Payload c)
  else Ret (count_unknown sv).

Definition put_session (sv : server) (p : nat) (s : Session) : server :=
  let r := sv_relays sv in let n := rl_net r in
  with_relays sv (with_net r (mkNet (<[p := s]> (n_sessions n)) (n_pools n) (n_writers n) (n_log n))).

(** One message of the reader loop. *)
Definition handle_frame (sv : server) (k : nat) (data : bytes) (wok : bool) (now : Z) : outcome server :=
  match sv_slots sv !! k with
  | None => Err "no such slot"
  | Some sl =>
    if len data =? 0 then Ret sv else
    match n_sessions (rl_net (sv_relays sv)) !! b_session (sl_bind sl) with
    | None => Panic
    | Some s =>
      match DecryptChunkSafe s data now with
      | Panic => Panic
      | Err _ => Ret sv
      | Ret (c, s1) =>
        let '(ok, s2) := SessionAcceptSeqNum s1 (SeqNum c) now in
        let sv1 := put_session sv (b_session (sl_bind sl)) s2 in
        if negb ok then Ret sv1 else handle_chunk sv1 k sl c wok now
      end
    end
  end.

(** ** The goroutine of a CONNECT *)

Inductive dial_result := DialBlocked | DialFailed | DialOK.

Definition dial_finish (sv : server) (p : nat) (res : dial_result) : outcome server :=
  match sv_dials sv !! p with
  | None => Err "no such dial"
  | Some (k, sid) =>
    match sv_slots sv !! k with
    | None => Err "no such slot"
    | Some sl =>
      let sv0 := with_dials sv (delete p (sv_dials sv)) in
      let abandon := del_stream (close_stream sv0 p) k sid in
      match res with
      | DialBlocked | DialFailed => send_body abandon sl sid body_fail
      | DialOK =>
        if sl_done sl then Ret abandon else
        match sv_streams sv0 !! p with
        | None => Panic
        | Some s =>
          let sv1 := with_stream sv0 p (Activate s) in
          match n_sessions (rl_net (sv_relays sv1)) !! b_session (sl_bind sl) with
          | None => Panic
          | Some sess =>
            let proof := ComputeStreamProof (DeriveServerPerClientKey masterKey (sl_client sl)) (sl_client sl) sid
                           (MigrateNonce sess) in
            sv2 ← send_body sv1 sl sid (if sl_migrate sl then body_ok ++ proof else body_ok);
            if sl_migrate sl then
              let e := connect_entry (sl_client sl) sid (MigrateNonce sess) (sl_window sl)
                         (if flow_on sl then sl_credits sl !! sid else None) (sl_bind sl) in
              Ret (with_relays sv2 (connect_register (sv_relays sv2) p e))
            else Ret (with_inline sv2 (<[p := (k, sid)]> (sv_inline sv2)))
          end
        end
      end
    end
  end.

(** ** The relay loop of a session without migration *)

(** Its deferred function. *)
Definition inline_exit (sv : server) (p k : nat) (sid : Z) : server :=
  drop_credit (del_stream (close_stream (with_inline sv (delete p (sv_inline sv))) p) k sid) k sid.

(** How much it may read: [None] while it waits, at most 0 when it must return. *)
Definition inline_limit (sv : server) (sl : slot) (sid : Z) : option Z :=
  if flow_on sl then
    match sl_credits sl !! sid with
    | None => Some 32768
    | Some c =>
      match rl_credits (sv_relays sv) !! c with
      | None => None
      | Some cr => match waitForCredit cr (sl_done sl) with
                   | Some got => Some (if got <=? 0 then got else Z.min 32768 got)
                   | None => None
                   end
      end
    end
  else Some 32768.

Definition inline_read (sv : server) (p : nat) (data : bytes) (eof : bool) : outcome server :=
  match sv_inline sv !! p with
  | None => blocked
  | Some (k, sid) =>
    match sv_slots sv !! k with
    | None => blocked
    | Some sl =>
      match inline_limit sv sl sid with
      | None => blocked
      | Some limit =>
        if limit <=? 0 then Ret (inline_exit sv p k sid) else
        if limit <? len data then blocked else
        if len data =? 0 then Ret (if eof then inline_exit sv p k sid else sv) else
        '(ok, sv1) ← slot_send sv sl (λ pools id seq, NewStreamDataChunk pools id seq sid data);
        if negb (ok : bool) then Ret (inline_exit sv1 p k sid) else
        let sv2 := if flow_on sl then
                     match sl_credits sl !! sid with
                     | Some c => with_relays sv1 (with_credits (sv_relays sv1)
                                   (alter (λ cr, consume cr (len data)) c (rl_credits (sv_relays sv1))))
                     | None => sv1
                     end
                   else sv1 in
        Ret (if eof then inline_exit sv2 p k sid else sv2)
      end
    end
  end.

(** ** The end of a session *)

(** The goroutine that wakes waiting relay loops. *)
Definition close_credits (sv : server) (sl : slot) : server :=
  let r := sv_relays sv in
  let close_one := λ (m : gmap nat streamCredit) (x : Z * nat),
    if negb (len (sl_client sl) =? 0) && bool_decide (is_Some (relay_find r (sl_client sl) (fst x))) then m
    else alter Credit.close (snd x) m in
  with_relays sv (with_credits r (foldl close_one (rl_credits r) (map_to_list (sl_credits sl)))).

(** The loop over [streams]. *)
Definition close_one_stream (sl : slot) (sv : server) (x : Z * nat) : server :=
  if migrates sl && bool_decide (is_Some (relay_find (sv_relays sv) (sl_client sl) (fst x))) then
    match sv_streams sv !! snd x with
    | Some s => with_stream sv (snd x) (CloseKeepTarget s)
    | None => sv
    end
  else close_stream sv (snd x).

Definition session_end (sv : server) (k : nat) (now : Z) : server :=
  match sv_slots sv !! k with
  | None => sv
  | Some sl =>
    let sv1 := close_credits (with_slot sv k (set_sl_done sl)) sl in
    let sv2 := if migrates sl
               then with_relays sv1 (session_death (sv_relays sv1) (sl_client sl) (b_session (sl_bind sl)) now)
               else sv1 in
    let sv3 := foldl (close_one_stream sl) sv2 (map_to_list (sl_streams sl)) in
    with_relays sv3 (with_net (sv_relays sv3) (close_writer (rl_net (sv_relays sv3)) (b_writer (sl_bind sl))))
  end.

(** ** Runs *)

Inductive wop :=
| WFrame (k : nat) (data : bytes) (wok : bool) (now : Z)
| WDial (p : nat) (res : dial_result)
| WInline (p : nat) (data : bytes) (eof : bool)
| WEnd (k : nat) (now : Z)
| WRelay (o : relay_op)          (* relay loops, timers, other slots' cleanups *)
| WStream (p : nat) (a : saction). (* the goroutines of a stream *)

Definition wstep (sv : server) (o : wop) : outcome server :=
  match o with
  | WFrame k data wok now => handle_frame sv k data wok now
  | WDial p res => dial_finish sv p res
  | WInline p data eof => inline_read sv p data eof
  | WEnd k now => Ret (session_end sv k now)
  | WRelay o => r' ← relay_step masterKey (sv_relays sv) o; Ret (with_relays sv r')
  | WStream p a =>
    match sv_streams sv !! p with
    | Some s => s' ← sstep s a; Ret (with_stream sv p s')
    | None => Err "no such stream"
    end
  end.

Fixpoint wrun (sv : server) (ops : list wop) : outcome server :=
  match ops with
  | [] => Ret sv
  | o :: ops' => sv' ← wstep sv o; wrun sv' ops'
  end.

(** ** The reader does not panic, except for two frames *)

(** The session of [b] exists and is well formed, and so are the pools. *)
Definition net_ok (n : net) (b : binding) : Prop :=
  (∃ s, n_sessions n !! b_session b = Some s ∧ session_wf s) ∧ pools_wf (n_pools n).

Lemma EncryptChunk_no_panic pools s c :
  pools_wf pools → session_wf s →
  (∃ e, EncryptChunk pools s c None = Err e)
  ∨ ∃ enc pools' s', EncryptChunk pools s c None = Ret (enc, pools', s') ∧ pools_wf pools' ∧ session_wf s'.
Proof.
  intros Hp Hw. destruct (EncryptChunk pools s c None) as [[[enc pools'] s'] | e |] eqn:E.
  - right. exists enc, pools', s'. split; [done |]. pose proof (EncryptChunk_wf _ _ _ _ _ _ _ Hw E) as Hw'. split; [| done].
    unfold EncryptChunk in E. destruct (destroyed s); [done |]. destruct (sendEpochPtr s) as [ep |] eqn:Ep.
    + destruct (epoch_fetch_add _ _) as [[[g ctr] eps] |]; [| done].
      destruct (EncryptWithAAD_eq pools c g ctr [] Hp) as (pools1 & E1 & Hp1 & _).
      unfold EncryptWith in E. rewrite E1 in E. cbn in E. injection E. by intros _ <- _.
    + destruct (Encrypt _ _ _); try done. by injection E as <- <- <-.
  - left. by exists e.
  - exfalso. unfold EncryptChunk in E. destruct (destroyed s); [done |]. destruct (sendEpochPtr s) as [ep |] eqn:Ep.
    + destruct (wf_epoch s Hw ep Ep) as [ctr Hn]. pose proof (Forall_lookup_1 _ _ _ _ (wf_nonces s Hw) Hn) as Hr.
      rewrite (epoch_fetch_add_spec _ _ _ Hn) in E by done.
      destruct (EncryptWithAAD_eq pools c (ep_gcm (mkEpoch (SendKey s) ctr)) (ep_nonce (mkEpoch (SendKey s) ctr)) [] Hp)
        as (pools1 & E1 & _). unfold EncryptWith in E. by rewrite E1 in E.
    + unfold Encrypt in E. destruct (newGCM_cases (SendKey s)) as [Hk | [err Hk]]; rewrite Hk in E; [| done].
      cbn [mbind outcome_bind] in E. pose proof (len_nonneg (Payload c)).
      rewrite write_header_eq in E by (rewrite len_make; unfold HeaderSize; lia). done.
Qed.

(** A chunk constructor that cannot panic. *)
Definition mk_ok (mk : bufPools → Z → Z → outcome (Chunk * bytes * bufPools)) : Prop :=
  ∀ pools id seq, pools_wf pools → ∃ c back pools', mk pools id seq = Ret (c, back, pools') ∧ pools_wf pools'.

Lemma send_chunk_total n b mk :
  net_ok n b → mk_ok mk → ∃ ok n', send_chunk n b mk = Ret (ok, n') ∧ net_ok n' b.
Proof.
  intros [[s [Hs Hw]] Hp] Hmk. unfold send_chunk. rewrite Hs. destruct (NextSeqNum s) as [seq s1] eqn:Es.
  assert (session_wf s1) as Hw1.
  { unfold NextSeqNum in Es. injection Es as <- <-. destruct Hw. split; cbn; try done. apply u32_range. }
  destruct (Hmk (n_pools n) (ID s) seq Hp) as (c & back & pools1 & -> & Hp1). cbn [mbind outcome_bind].
  destruct (EncryptChunk_no_panic pools1 s1 c Hp1 Hw1) as [[e ->] | (enc & pools2 & s2 & -> & Hp2 & Hw2)].
  - eexists _, _. split; [done |]. split; cbn; [exists s1; by rewrite lookup_insert_eq | by apply PutBuffer_wf].
  - unfold enqueue. cbn [n_writers]. destruct (n_writers n !! b_writer b) as [[[|] sent] |]; (eexists _, _; split; [done |]);
      (split; cbn; [exists s2; by rewrite lookup_insert_eq | by apply PutBuffer_wf]).
Qed.

Lemma mk_ok_unpooled c : (∀ id seq, ∃ x, c id seq = Ret x) → mk_ok (unpooled c).
Proof. intros H. exact (unpooled_ready c H). Qed.

Lemma mk_ok_stream_data sid body : 2 + len body ≤ 65536 → mk_ok (λ pools id seq, NewStreamDataChunk pools id seq sid body).
Proof.
  intros Hl pools id seq Hp. destruct (NewStreamDataChunk_eq pools id seq sid body Hp Hl) as (back & pools' & -> & H & _).
  by eexists _, _, _.
Qed.

Lemma enqueueDownFrame_total n p sid b m f :
  net_ok n b → frame_small f → ∃ n', enqueueDownFrame n p sid b m f = Ret n' ∧ net_ok n' b.
Proof.
  intros Hn Hf. unfold frame_small in Hf. unfold enqueueDownFrame.
  match goal with |- context [send_chunk n b ?mk] => destruct (send_chunk_total n b mk Hn) as (ok & n' & -> & Hn') end.
  { intros pools id seq Hp. destruct m.
    - destruct (NewStreamDataChunkSeq_eq pools id seq sid (pf_seq f) (pf_data f) Hp) as (back & pools' & -> & H & _);
        [lia | by eexists _, _, _].
    - apply mk_ok_stream_data; [lia | done]. }
  eexists. split; [done |]. cbn. by destruct ok.
Qed.

Lemma enqueue_all_total p sid b m fs n :
  net_ok n b → Forall frame_small fs → ∃ n', enqueue_all n p sid b m fs = Ret n' ∧ net_ok n' b.
Proof.
  revert n. induction fs as [| f fs IH]; intros n Hn Hs; cbn [enqueue_all]; [by exists n |].
  apply Forall_cons_1 in Hs as [Hf Hs]. destruct (enqueueDownFrame_total n p sid b m f Hn Hf) as (n1 & -> & Hn1).
  cbn [mbind outcome_bind]. by apply IH.
Qed.

Lemma send_close_total n b sid : net_ok n b → ∃ n', send_close n b sid = Ret n' ∧ net_ok n' b.
Proof.
  intros Hn. unfold send_close.
  match goal with |- context [send_chunk n b ?mk] => destruct (send_chunk_total n b mk Hn) as (ok & n' & -> & Hn') end;
    [| by exists n']. apply mk_ok_unpooled. intros id seq. by eexists.
Qed.

Lemma reassociate_total r p b m aDead e :
  rl_entries r !! p = Some e → net_ok (rl_net r) b →
  Forall frame_small (bb_frames (downBuffer e) ++ bb_frames (unackedTail e)) →
  ∃ seq r', reassociate r p b m aDead = Ret (seq, r') ∧ net_ok (rl_net r') b.
Proof.
  intros Ee Hn Hs. unfold reassociate. rewrite Ee. cbn [drainAll]. unfold tailFrames.
  apply Forall_app in Hs as [Hs1 Hs2].
  destruct (enqueue_all_total p (globalStreamID e) b m
    (bb_frames (downBuffer e) ++ if aDead then bb_frames (unackedTail e) else []) (rl_net r) Hn) as (n1 & E1 & Hn1).
  { apply Forall_app. split; [done |]. by destruct aDead. }
  change (rl_net (upd r p _)) with (rl_net r). rewrite E1. cbn [mbind outcome_bind].
  assert (∃ n2, (if originDeathTeardown (rl_limits r) && destClosed e then send_close n1 b (globalStreamID e)
                 else Ret n1) = Ret n2 ∧ net_ok n2 b) as (n2 & E2 & Hn2).
  { destruct (_ && _); [by apply send_close_total | by exists n1]. }
  rewrite E2. by eexists _, _.
Qed.

Lemma migrate_reply_total n b flag p0 :
  net_ok n b → (∃ x, p0 = Ret x) →
  ∃ n', (r ← send_chunk n b (unpooled (λ id seq, p ← p0; Ret (mkChunk id seq flag p))); Ret (snd r)) = Ret n' ∧ net_ok n' b.
Proof.
  intros Hn [x ->].
  match goal with |- context [send_chunk n b ?mk] => destruct (send_chunk_total n b mk Hn) as (ok & n' & -> & Hn') end;
    [| by exists n']. apply mk_ok_unpooled. intros id seq. by eexists.
Qed.

(** The server, as seen from slot [sl]: its session is well formed, its
    pointers lead somewhere, and so do the sessions relays are bound to. *)
Record server_ok (sv : server) (sl : slot) : Prop := {
  so_net : net_ok (rl_net (sv_relays sv)) (sl_bind sl);
  so_stream sid p : sl_streams sl !! sid = Some p → is_Some (sv_streams sv !! p);
  so_find sid p : relay_find (sv_relays sv) (sl_client sl) sid = Some p →
    ∃ e, rl_entries (sv_relays sv) !! p = Some e
      ∧ Forall frame_small (bb_frames (downBuffer e) ++ bb_frames (unackedTail e))
      ∧ match bound e with Some b => net_ok (rl_net (sv_relays sv)) b | None => True end;
}.

(** The two frames that do. *)
Definition fatal_frame (sl : slot) (c : Chunk) : Prop :=
  (Flags c = FlagUDP ∧ ParseUDPChunk (Payload c) = Panic)
  ∨ (Flags c = FlagData ∧ ∃ sid data, ParseStreamID (Payload c) = Ret (sid, data) ∧ 65536 < len data).

Lemma send_body_total sv sl sid body :
  net_ok (rl_net (sv_relays sv)) (sl_bind sl) → 2 + len body ≤ 65536 → ∃ sv', send_body sv sl sid body = Ret sv'.
Proof.
  intros Hn Hl. unfold send_body, slot_send.
  destruct (send_chunk_total _ _ _ Hn (mk_ok_stream_data sid body Hl)) as (ok & n' & -> & _). by eexists.
Qed.

Lemma signalStreamEnd_total r p m e :
  rl_entries r !! p = Some e → match bound e with Some b => net_ok (rl_net r) b | None => True end →
  signalStreamEnd r p m ≠ Panic.
Proof.
  intros Ee Hb. unfold signalStreamEnd. destruct m; [| done]. cbn [negb]. rewrite Ee.
  pose proof (cas_Q _ control_net r p stActive stClosing ltac:(done)) as Hn. unfold same_net in Hn.
  destruct (cas r p stActive stClosing) as [[|] r1]; [| done]. cbn in Hn.
  destruct (bound e) as [b |]; [| done]. destruct (originDeathTeardown _); [| done].
  rewrite Hn. by destruct (send_close_total (rl_net r) b (globalStreamID e) Hb) as (n' & -> & _).
Qed.

Lemma handleMigrate_total sv sl flag payload :
  server_ok sv sl →
  handleMigrateOrResume masterKey (sv_relays sv) flag payload (sl_client sl) (sl_bind sl) (sl_migrate sl) ≠ Panic.
Proof.
  intros [Hn _ Hf]. unfold handleMigrateOrResume.
  pose proof (ParseMigrateFrame_total payload). destruct (ParseMigrateFrame payload) as [[sid proof] | |]; try done.
  assert (∀ r sid reason, rl_net r = rl_net (sv_relays sv) → reply_fail r (sl_bind sl) flag sid reason ≠ Panic) as Hfail.
  { intros r sid' reason Hr. unfold reply_fail, enqueueMigrateFail. rewrite Hr.
    destruct (migrate_reply_total (rl_net (sv_relays sv)) (sl_bind sl) flag (BuildMigrateFail sid' reason) Hn)
      as (n' & -> & _); [by eexists | done]. }
  destruct (relay_find _ _ sid) as [p |] eqn:Ep; [| by apply Hfail].
  destruct (Hf sid p Ep) as (e & Ee & Hsm & _). rewrite Ee.
  destruct (VerifyStreamProof _ _ _ _ _); cbn [negb]; [| by apply Hfail].
  set (r := sv_relays sv) in *. set (r1 := upd r p (λ e, set_bound e (sl_bind sl))).
  assert (rl_entries r1 !! p = Some (set_bound e (sl_bind sl))) as Ee1 by (cbn; by rewrite lookup_alter_eq, Ee).
  assert (∀ ok r2, (if flag =? FlagResume then let '(won, r') := cas r1 p stOrphaned stActive in
      (won, if won then releaseOrphanFD r' p else r') else (true, r1)) = (ok, r2) →
      rl_net r2 = rl_net r ∧ ∃ e2, rl_entries r2 !! p = Some e2 ∧ downBuffer e2 = downBuffer e
        ∧ unackedTail e2 = unackedTail e) as H2.
  { intros ok r2. destruct (flag =? FlagResume).
    - unfold cas. rewrite Ee1. case_decide; intros [= <- <-]; [| by eauto].
      assert (rl_entries (upd r1 p (λ e, set_state e stActive)) !! p = Some (set_state (set_bound e (sl_bind sl)) stActive)) as Ee2.
      { unfold upd at 1. cbn [rl_entries with_entries]. by rewrite lookup_alter_eq, Ee1. }
      unfold releaseOrphanFD. rewrite Ee2. destruct (holdsFD _); [| by eauto].
      split; [done |]. eexists. cbn [rl_entries with_counters]. unfold upd at 1. cbn [rl_entries with_entries].
      by rewrite lookup_alter_eq, Ee2.
    - intros [= <- <-]. split; [done |]. by exists (set_bound e (sl_bind sl)). }
  destruct (if flag =? FlagResume then _ else _) as [ok r2] eqn:E2.
  destruct (H2 ok r2 eq_refl) as (Hn2 & e2 & Ee2 & Hd & Ht). destruct ok; cbn [negb]; [| by apply Hfail].
  destruct (reassociate_total r2 p (sl_bind sl) (sl_migrate sl) (flag =? FlagResume) e2 Ee2) as (seq & r3 & -> & Hn3);
    [by rewrite Hn2 | by rewrite Hd, Ht |].
  cbn [mbind outcome_bind]. unfold enqueueMigrateOK.
  destruct (migrate_reply_total (rl_net r3) (sl_bind sl) flag (BuildMigrateOK sid seq) Hn3) as (n' & -> & _); [by eexists | done].
Qed.

Lemma stream_write_panics s data : stream_write s data = Panic → 65536 < len data.
Proof.
  unfold stream_write. cbn [sstep]. destruct (Z.ltb_spec 65536 (len data)) as [Hl | Hl]; [done |].
  destruct (rd s); [done |]. cbn [mbind outcome_bind].
  destruct (rd (Write s data)) eqn:Er; [| done].
  destruct (len (writeCh (Write s data)) <? writeChCap) eqn:Ech; unfold sstep.
  - done.
  - by destruct (st_done (Write s data)).
Qed.

(** The reader goroutine, which has no recover, panics on no frame but two:
    a UDP chunk whose address length wraps, and a data chunk for an open stream
    larger than 65536 bytes.  Every other decrypted chunk - any flag, any
    payload, any stream id, on any server state whose pointers are valid - is
    handled or waits for room in its stream. *)
Theorem reader_panics_only_on sv k sl c wok now :
  server_ok sv sl → handle_chunk sv k sl c wok now = Panic → fatal_frame sl c.
Proof.
  intros Hok E. pose proof Hok as [Hn Hst Hf]. unfold handle_chunk in E.
  destruct (Z.eqb_spec (Flags c) FlagData) as [Hfl | _].
  { right. split; [done |]. unfold on_data in E. destruct (ParseStreamID_total (Payload c)) as (sid & data & Hp).
    rewrite Hp in E. cbn [mbind outcome_bind] in E. exists sid, data. split; [done |].
    destruct (len data =? 0); [done |]. destruct (sl_streams sl !! sid) as [p |] eqn:Es.
    - destruct (Hst sid p Es) as [s Hs]. rewrite Hs in E. apply (stream_write_panics s).
      by destruct (stream_write s data).
    - exfalso. destruct (migrates sl); [| done]. destruct (relay_find _ _ sid) as [p |] eqn:Ef; [| done].
      destruct (Hf sid p Ef) as (e & Ee & _ & Hb). rewrite Ee in E. destruct (wok && tc_open e); [done |].
      pose proof (signalStreamEnd_total _ p (sl_migrate sl) e Ee Hb). by destruct (signalStreamEnd _ _ _). }
  destruct (Flags c =? FlagConnect).
  { exfalso. unfold on_connect in E. destruct (ParseStreamID_total (Payload c)) as (sid & data & Hp). rewrite Hp in E.
    cbn [mbind outcome_bind] in E. destruct (len data =? 0); [done |].
    destruct (registerWSStreamLocked _ _ _); [by destruct (flow_on sl) |].
    destruct (send_body_total sv sl sid body_fail Hn) as [sv' Hs]; [by vm_compute | congruence]. }
  destruct (Flags c =? FlagFin).
  { exfalso. unfold on_fin in E. destruct (ParseStreamID_total (Payload c)) as (sid & data & Hp). by rewrite Hp in E. }
  destruct (Flags c =? FlagKeepalive).
  { exfalso. unfold on_keepalive, slot_send in E.
    match type of E with context [send_chunk ?n ?b ?mk] => destruct (send_chunk_total n b mk Hn) as (ok & n' & Es & _) end.
    - apply mk_ok_unpooled. intros id seq. by eexists.
    - by rewrite Es in E. }
  destruct (Z.eqb_spec (Flags c) FlagUDP) as [Hfl | _].
  { left. split; [done |]. unfold on_udp in E. destruct (ParseUDPChunk (Payload c)) as [[[sid addr] data] | |]; try done.
    destruct (udp_target _ _ _ _ _) as [[ip port] |]; [| done]. destruct Hn as [[s [Hs _]] _]. by rewrite Hs in E. }
  exfalso. destruct (Flags c =? FlagWindowUpdate).
  { unfold on_window_update in E. pose proof (ParseWindowUpdate_total (Payload c)).
    by destruct (ParseWindowUpdate (Payload c)) as [[sid delta] | |]. }
  destruct ((Flags c =? FlagMigrate) || (Flags c =? FlagResume)).
  { destruct (sl_migrate sl) eqn:Em; cbn [negb] in E; [| done].
    pose proof (handleMigrate_total sv sl (Flags c) (Payload c) Hok) as Ht. rewrite Em in Ht.
    by destruct (handleMigrateOrResume _ _ _ _ _ _ _). }
  destruct (Flags c =? FlagStreamAck); [| done].
  unfold on_stream_ack in E. destruct (negb (sl_migrate sl)); [done |].
  pose proof (ParseStreamAckFrame_total (Payload c)). by destruct (ParseStreamAckFrame (Payload c)) as [[sid a] | |].
Qed.

(** ** The stream table *)

Definition tables_bounded (sv : server) : Prop :=
  ∀ k sl, sv_slots sv !! k = Some sl → (size (sl_streams sl) ≤ maxStreamsPerSession)%nat.

Lemma tables_same sv sv' : sv_slots sv' = sv_slots sv → tables_bounded sv → tables_bounded sv'.
Proof. unfold tables_bounded. by intros ->. Qed.

Lemma tables_slot sv k sl :
  tables_bounded sv → (size (sl_streams sl) ≤ maxStreamsPerSession)%nat → tables_bounded (with_slot sv k sl).
Proof. intros H Hs k' sl'. cbn. rewrite lookup_insert_Some. intros [[<- <-] | [_ ?]]; [done | by eapply H]. Qed.

Lemma close_stream_slots sv p : sv_slots (close_stream sv p) = sv_slots sv.
Proof. unfold close_stream. destruct (sv_streams sv !! p) as [s |]; [| done]. by destruct (_ && _). Qed.

Lemma del_stream_tables sv k sid : tables_bounded sv → tables_bounded (del_stream sv k sid).
Proof.
  intros H. unfold del_stream. destruct (sv_slots sv !! k) as [sl |] eqn:E; [| done]. apply tables_slot; [done |]. cbn.
  pose proof (H k sl E). rewrite map_size_delete. destruct (sl_streams sl !! sid); cbn; lia.
Qed.

Lemma drop_credit_tables sv k sid : tables_bounded sv → tables_bounded (drop_credit sv k sid).
Proof.
  intros H. unfold drop_credit. destruct (sv_slots sv !! k) as [sl |] eqn:E; [| done]. destruct (flow_on sl); [| done].
  destruct (sl_credits sl !! sid); [| done]. apply tables_slot; [done |]. exact (H k sl E).
Qed.

Lemma register_bound streams sid p streams' :
  (size streams ≤ maxStreamsPerSession)%nat → registerWSStreamLocked streams sid p = Some streams' →
  (size streams' ≤ maxStreamsPerSession)%nat.
Proof.
  intros Hs. unfold registerWSStreamLocked. destruct (streams !! sid) eqn:E; [done |].
  destruct (Nat.leb_spec maxStreamsPerSession (size streams)); [done |]. intros [= <-].
  rewrite map_size_insert_None by done. lia.
Qed.

Lemma slot_send_slots sv sl mk ok sv' : slot_send sv sl mk = Ret (ok, sv') → sv_slots sv' = sv_slots sv.
Proof. unfold slot_send. destruct (send_chunk _ _ _) as [[x n'] | |]; try done. by intros [= _ <-]. Qed.

Lemma send_body_slots sv sl sid body sv' : send_body sv sl sid body = Ret sv' → sv_slots sv' = sv_slots sv.
Proof.
  unfold send_body. destruct (slot_send _ _ _) as [[ok sv1] | |] eqn:E; try done. intros [= <-]. by eapply slot_send_slots.
Qed.

Lemma handle_chunk_tables sv k sl c wok now sv' :
  tables_bounded sv → sv_slots sv !! k = Some sl → handle_chunk sv k sl c wok now = Ret sv' → tables_bounded sv'.
Proof.
  intros H Hk E. unfold handle_chunk in E.
  destruct (Flags c =? FlagData).
  { apply (tables_same sv); [| done]. unfold on_data in E.
    destruct (ParseStreamID _) as [[sid data] | |]; try done. cbn [mbind outcome_bind] in E.
    destruct (len data =? 0); [by injection E as <- |]. destruct (sl_streams sl !! sid) as [p |].
    - destruct (sv_streams sv !! p) as [s |]; [| done]. destruct (stream_write s data); try done. by injection E as <-.
    - destruct (migrates sl); [| by injection E as <-]. destruct (relay_find _ _ sid) as [p |]; [| by injection E as <-].
      destruct (rl_entries _ !! p) as [e |]; [| done]. destruct (wok && tc_open e).
      + injection E as <-. by destruct (sv_streams sv !! p).
      + destruct (signalStreamEnd _ _ _); try done. by injection E as <-. }
  destruct (Flags c =? FlagConnect).
  { unfold on_connect in E. destruct (ParseStreamID _) as [[sid data] | |]; try done. cbn [mbind outcome_bind] in E.
    destruct (len data =? 0); [by injection E as <- |].
    destruct (registerWSStreamLocked _ _ _) as [streams' |] eqn:Er.
    - apply register_bound in Er; [| by apply (H k)]. destruct (flow_on sl); injection E as <-; by apply tables_slot.
    - by eapply tables_same, H; eapply send_body_slots. }
  destruct (Flags c =? FlagFin).
  { unfold on_fin in E. destruct (ParseStreamID _) as [[sid data] | |]; try done. cbn [mbind outcome_bind] in E.
    injection E as <-.
    assert (tables_bounded (drop_credit (match sl_streams sl !! sid with
              | Some p => del_stream (close_stream sv p) k sid | None => sv end) k sid)) as Hd.
    { apply drop_credit_tables. destruct (sl_streams sl !! sid); [| done]. apply del_stream_tables.
      eapply tables_same, H. apply close_stream_slots. }
    destruct (migrates sl); [| done]. by eapply tables_same, Hd. }
  apply (tables_same sv); [| done].
  destruct (Flags c =? FlagKeepalive).
  { unfold on_keepalive in E. destruct (slot_send _ _ _) as [[ok sv1] | |] eqn:Es; try done. injection E as <-.
    by eapply slot_send_slots. }
  destruct (Flags c =? FlagUDP).
  { unfold on_udp in E. destruct (ParseUDPChunk _) as [[[sid addr] data] | |]; try done; [| by injection E as <-].
    destruct (udp_target _ _ _ _ _) as [[ip port] |]; [| by injection E as <-].
    destruct (n_sessions _ !! _); [| done]. by injection E as <-. }
  destruct (Flags c =? FlagWindowUpdate).
  { unfold on_window_update in E. destruct (ParseWindowUpdate _) as [[sid d] | |]; try done; [| by injection E as <-].
    injection E as <-. by destruct (match sl_credits sl !! sid with Some _ => _ | None => _ end). }
  destruct ((Flags c =? FlagMigrate) || (Flags c =? FlagResume)).
  { destruct (negb (sl_migrate sl)); [by injection E as <- |].
    destruct (handleMigrateOrResume _ _ _ _ _ _ _); try done. by injection E as <-. }
  destruct (Flags c =? FlagStreamAck); [| by injection E as <-].
  unfold on_stream_ack in E. destruct (negb (sl_migrate sl)); [by injection E as <- |].
  destruct (ParseStreamAckFrame _) as [[sid a] | |]; try done; [| by injection E as <-].
  injection E as <-. by destruct (relay_find _ _ sid).
Qed.

Lemma handle_frame_tables sv k data wok now sv' :
  tables_bounded sv → handle_frame sv k data wok now = Ret sv' → tables_bounded sv'.
Proof.
  intros H E. unfold handle_frame in E. destruct (sv_slots sv !! k) as [sl |] eqn:Ek; [| done].
  destruct (len data =? 0); [by injection E as <- |]. destruct (n_sessions _ !! _) as [s |]; [| done].
  destruct (DecryptChunkSafe s data now) as [[c s1] | |]; try done; [| by injection E as <-].
  destruct (SessionAcceptSeqNum s1 (SeqNum c) now) as [ok s2]. destruct ok; cbn [negb] in E; [| by injection E as <-].
  by eapply handle_chunk_tables, E.
Qed.

Lemma inline_exit_tables sv p k sid : tables_bounded sv → tables_bounded (inline_exit sv p k sid).
Proof.
  intros H. apply drop_credit_tables, del_stream_tables. eapply tables_same; [apply close_stream_slots | done].
Qed.

Lemma inline_read_tables sv p data eof sv' :
  tables_bounded sv → inline_read sv p data eof = Ret sv' → tables_bounded sv'.
Proof.
  intros H E. unfold inline_read in E. destruct (sv_inline sv !! p) as [[k sid] |]; [| done].
  destruct (sv_slots sv !! k) as [sl |]; [| done]. destruct (inline_limit sv sl sid) as [limit |]; [| done].
  destruct (limit <=? 0); [injection E as <-; by apply inline_exit_tables |].
  destruct (limit <? len data); [done |].
  destruct (len data =? 0); [injection E as <-; destruct eof; [by apply inline_exit_tables | done] |].
  destruct (slot_send _ _ _) as [[ok sv1] | |] eqn:Es; try done. cbn [mbind outcome_bind] in E.
  assert (tables_bounded sv1) as H1 by (eapply tables_same, H; by eapply slot_send_slots).
  destruct ok; cbn [negb] in E; injection E as <-; [| by apply inline_exit_tables].
  match goal with |- tables_bounded (if _ then inline_exit ?x _ _ _ else _) => assert (tables_bounded x) as H2 end.
  { destruct (flow_on sl); [| done]. destruct (sl_credits sl !! sid); [| done]. by eapply tables_same, H1. }
  destruct eof; [by apply inline_exit_tables | done].
Qed.

Lemma dial_finish_tables sv p res sv' : tables_bounded sv → dial_finish sv p res = Ret sv' → tables_bounded sv'.
Proof.
  intros H E. unfold dial_finish in E. destruct (sv_dials sv !! p) as [[k sid] |]; [| done].
  destruct (sv_slots sv !! k) as [sl |]; [| done]. set (sv0 := with_dials sv _) in E.
  assert (tables_bounded (del_stream (close_stream sv0 p) k sid)) as Hg.
  { apply del_stream_tables. eapply tables_same; [apply close_stream_slots | done]. }
  destruct res; [by eapply tables_same, Hg; eapply send_body_slots .. |].
  destruct (sl_done sl); [by injection E as <- |]. destruct (sv_streams sv0 !! p) as [s |]; [| done].
  destruct (n_sessions _ !! _) as [sess |]; [| done].
  destruct (send_body _ _ _ _) as [sv2 | |] eqn:Es; try done. cbn [mbind outcome_bind] in E. apply send_body_slots in Es.
  apply (tables_same sv); [| done]. destruct (sl_migrate sl); injection E as <-; cbn; by rewrite Es.
Qed.

Lemma session_end_tables sv k now : tables_bounded sv → tables_bounded (session_end sv k now).
Proof.
  intros H. unfold session_end. destruct (sv_slots sv !! k) as [sl |] eqn:Ek; [| done].
  assert (∀ l sv0, sv_slots (foldl (close_one_stream sl) sv0 l) = sv_slots sv0) as Hf.
  { induction l as [| x l IH]; intros sv0; cbn; [done |]. rewrite IH. unfold close_one_stream.
    destruct (migrates sl && _); [by destruct (sv_streams sv0 !! snd x) | apply close_stream_slots]. }
  intros k' sl'. cbn [sv_slots with_relays with_net]. rewrite Hf.
  assert (∀ r0 : relays, sv_slots (if migrates sl then with_relays (close_credits (with_slot sv k (set_sl_done sl)) sl) r0
    else close_credits (with_slot sv k (set_sl_done sl)) sl) = <[k := set_sl_done sl]> (sv_slots sv)) as ->
    by (intros; by destruct (migrates sl)).
  rewrite lookup_insert_Some. intros [[<- <-] | [_ Hk']]; [exact (H _ _ Ek) | by apply (H k')].
Qed.

Lemma wrun_tables ops sv sv' : tables_bounded sv → wrun sv ops = Ret sv' → tables_bounded sv'.
Proof.
  revert sv. induction ops as [| o ops IH]; intros sv H E; cbn [wrun] in E; [by injection E as <- |].
  destruct (wstep sv o) as [sv1 | |] eqn:Es; try done. apply (IH sv1); [| done]. destruct o; cbn [wstep] in Es.
  - by eapply handle_frame_tables.
  - by eapply dial_finish_tables.
  - by eapply inline_read_tables.
  - injection Es as <-. by apply session_end_tables.
  - destruct (relay_step _ _ _); try done. injection Es as <-. by eapply tables_same.
  - destruct (sv_streams sv !! p) as [s |]; [| done]. destruct (sstep s a); try done. injection Es as <-. by eapply tables_same.
Qed.

(** The stream table is bounded and never overwritten.  In every run of the
    server - frames of any kind on any slots, dials, relay loops, session ends -
    no session has more than [maxStreamsPerSession] streams.  A CONNECT for a
    stream id in use, or on a full table, answers CONNECT_FAIL and leaves every
    slot, stream, dial and relay as it was; any other registers a new stream
    under its id and touches no existing one. *)
Theorem connect_admission ops sv0 sv k sl payload sv' sid target :
  tables_bounded sv0 → wrun sv0 ops = Ret sv → sv_slots sv !! k = Some sl →
  ParseStreamID payload = Ret (sid, target) → target ≠ [] → on_connect sv k sl payload = Ret sv' →
  (size (sl_streams sl) ≤ maxStreamsPerSession)%nat
  ∧ if bool_decide (is_Some (sl_streams sl !! sid)) || (maxStreamsPerSession <=? size (sl_streams sl))%nat
    then send_body sv sl sid body_fail = Ret sv'
         ∧ sv_slots sv' = sv_slots sv ∧ sv_streams sv' = sv_streams sv ∧ sv_dials sv' = sv_dials sv
         ∧ rl_entries (sv_relays sv') = rl_entries (sv_relays sv)
    else ∃ p sl', sv_streams sv !! p = None ∧ sv_streams sv' = <[p := newPendingWSStream]> (sv_streams sv)
         ∧ sv_dials sv' = <[p := (k, sid)]> (sv_dials sv)
         ∧ sv_slots sv' = <[k := sl']> (sv_slots sv) ∧ sl_streams sl' = <[sid := p]> (sl_streams sl)
         ∧ rl_entries (sv_relays sv') = rl_entries (sv_relays sv).
Proof.
  intros H0 Hrun Hk Hp Ht E. pose proof (wrun_tables _ _ _ H0 Hrun k sl Hk) as Hs. split; [done |].
  unfold on_connect in E. rewrite Hp in E. cbn [mbind outcome_bind] in E.
  destruct (Z.eqb_spec (len target) 0) as [Hz | _].
  { destruct target; [done |]. rewrite (@len_cons Z) in Hz. pose proof (len_nonneg target). lia. }
  unfold registerWSStreamLocked in E.
  assert (∀ sv1, send_body sv sl sid body_fail = Ret sv1 →
    sv_slots sv1 = sv_slots sv ∧ sv_streams sv1 = sv_streams sv ∧ sv_dials sv1 = sv_dials sv
    ∧ rl_entries (sv_relays sv1) = rl_entries (sv_relays sv)) as Hfail.
  { intros sv1. unfold send_body, slot_send. destruct (send_chunk _ _ _) as [[x n'] | |]; try done. by intros [= <-]. }
  destruct (sl_streams sl !! sid) as [q |] eqn:Eq.
  - rewrite bool_decide_eq_true_2 by done. cbn [orb]. split; [done |]. by apply Hfail.
  - rewrite bool_decide_eq_false_2 by (by intros [? ?]). cbn [orb].
    destruct (maxStreamsPerSession <=? size (sl_streams sl))%nat; [split; [done |]; by apply Hfail |].
    set (p := new_object sv) in *.
    assert (sv_streams sv !! p = None) as Hfresh.
    { apply not_elem_of_dom. unfold p, new_object.
      match goal with |- fresh ?X ∉ _ => pose proof (is_fresh X) as Hx end. set_solver. }
    destruct (flow_on sl); injection E as <-; by eexists p, _.
Qed.

End session.

(** ** Witnesses *)

Module SessionDemo.
#[local] Existing Instances Toy.toy_aead Toy.toy_kdf.

Definition slot0 : slot := mkSlot (mkBinding 0 0) 100 true Demo.client ∅ ∅ false.
Definition server0 : server :=
  mkServer (mkRelays ∅ ∅ ∅ (mkLimits 4 8 2 0 true) 0 0 0 Demo.net0) ∅ {[ 0%nat := slot0 ]} ∅ ∅
    (NewUDPRelay 30 4096) 0.

(** A frame of the client of session 10, whose sending key is the server's
    receiving key. *)
Definition frame (seq flag : Z) (payload : bytes) : wop :=
  WFrame 0 (wire (replicate 32 2) (replicate 12 3) (mkChunk 10 seq flag payload)) true 10.
Definition target : bytes := bytes_of_string "example.com:443".
Definition connect (seq sid : Z) : wop := frame seq FlagConnect ([0; sid] ++ target).

Definition exec (ops : list wop) : outcome server :=
  wrun Demo.master [] (λ _, None) (λ _, None) (λ _, None) server0 ops.
Definition after (ops : list wop) : server := match exec ops with Ret sv => sv | _ => server0 end.
Definition the_slot (sv : server) : slot := default slot0 (sv_slots sv !! 0%nat).

Definition open_ops : list wop := [connect 0 7; WDial 0 DialOK; connect 1 8].
Definition fatal_udp : Chunk := mkChunk 10 5 FlagUDP [0; 7; 255; 255; 1].
End SessionDemo.

Section session_witnesses.
Import SessionDemo.
#[local] Existing Instances Toy.toy_aead Toy.toy_kdf.

Lemma server0_ok : server_ok server0 slot0.
Proof.
  split.
  - split; [exists (Demo.slot_session 10); split; [reflexivity |] | apply empty_pools_wf].
    split; cbn; try done; try lia; [intros p [= <-]; by eexists | repeat constructor; cbn; lia].
  - intros sid p Hp. vm_compute in Hp. discriminate.
  - intros sid p Hp. vm_compute in Hp. discriminate.
Qed.

Lemma reader_panics_only_on_witness : fatal_frame slot0 fatal_udp.
Proof.
  apply (@reader_panics_only_on Toy.toy_aead Toy.toy_kdf Demo.master [] (λ _, None) (λ _, None) (λ _, None)
    server0 0 slot0 fatal_udp true 10 server0_ok).
  vm_compute; reflexivity.
Defined.

Lemma server0_tables : tables_bounded server0.
Proof.
  intros k sl Hk. change (sv_slots server0) with ({[ 0%nat := slot0 ]} : gmap nat slot) in Hk.
  apply lookup_singleton_Some in Hk as [<- <-]. cbn. rewrite map_size_empty. lia.
Qed.

(** Streams 7 and 8 are open; the client asks for 7 again. *)
Definition refused : server :=
  match on_connect (after open_ops) 0 (the_slot (after open_ops)) ([0; 7] ++ target) with Ret sv => sv | _ => server0 end.

Lemma connect_admission_witness :
  let sl := the_slot (after open_ops) in
  (size (sl_streams sl) ≤ maxStreamsPerSession)%nat
  ∧ send_body (after open_ops) sl 7 body_fail = Ret refused
  ∧ sv_slots refused = sv_slots (after open_ops) ∧ sv_streams refused = sv_streams (after open_ops)
  ∧ sv_dials refused = sv_dials (after open_ops)
  ∧ rl_entries (sv_relays refused) = rl_entries (sv_relays (after open_ops)).
Proof.
  apply (@connect_admission Toy.toy_aead Toy.toy_kdf Demo.master [] (λ _, None) (λ _, None) (λ _, None)
    open_ops server0 (after open_ops) 0 (the_slot (after open_ops)) ([0; 7] ++ target) refused 7 target server0_tables);
    try (vm_compute; reflexivity). discriminate.
Defined.

(** The client gives a stream up while its target is being dialled.  FIN closes
    the stream and removes its credit; the dial succeeds all the same and
    registers a relay whose credit pointer is nil; the first byte the target
    sends brings the process down. *)
Theorem fin_during_dial_crashes :
  exec [connect 0 7; frame 1 FlagFin [0; 7]; WDial 0 DialOK; WRelay (RRead 0 [1] 11); WRelay (RSendFrame 0 12)] = Panic.
Proof. vm_compute. reflexivity. Qed.

(** Stream 7 is closed while its dial is under way and opened again; when the
    first dial fails it removes the new stream from the table by its id. *)
Theorem stale_dial_removes_stream :
  let before := after [connect 0 7; frame 1 FlagFin [0; 7]; connect 2 7] in
  let sv := after [connect 0 7; frame 1 FlagFin [0; 7]; connect 2 7; WDial 0 DialFailed] in
  sl_streams (the_slot before) !! 7 = Some 1%nat ∧ sl_streams (the_slot sv) !! 7 = None
  ∧ sv_dials sv !! 1%nat = Some (0%nat, 7).
Proof. vm_compute. by split_and!. Qed.

End session_witnesses.
