(* ===== verification/PostTunnel.v ===== *)
(** * The POST data path of a tunnel ([server/handler.go])

    One tunnel: its multiplexed streams, the goroutines that read their targets,
    the channel to the client and the two ways it is drained - the bodies of
    POST responses and the long-lived download stream.  Handlers run to
    completion, except that a CONNECT splits where it dials and a relay
    goroutine splits where it reads and where it sends on the channel; a run is
    any interleaving of these pieces.  The body of a response is the list of
    encrypted chunks it carries: the JSON around it is [skins/browser]'s. *)

From S2P Require Import Prelude.
From S2P Require Import Primitives.
From S2P Require Import BufPool.
From S2P Require Import Chunk.
From S2P Require Import ReplayWindow.
From S2P Require Import Session.
From S2P Require Import EgressGuard.
From S2P Require Import WSSession.
From stdpp Require Import base list gmap strings.

#[local] Open Scope Z_scope.

(** A connection to a target: the stream it was dialled for, what was written to
    it, whether it is open. *)
Record conn := mkConn { cn_stream : Z; cn_written : list bytes; cn_open : bool }.

Record StreamConn := mkStreamConn { TargetConn : option nat; PendingBuf : list bytes }.

(** An element of [Outgoing]: the slice and its backing array.  [it_src] is the
    connection a relay read it from, and no part of the program's data. *)
Record item := mkItem { it_data : bytes; it_back : bytes; it_src : option nat }.

Definition outgoingCap : Z := 256.
Definition incomingCap : Z := 64.
Definition outgoingUDPCap : Z := 64.

Record tunnel := mkTun {
  streams : gmap Z nat;            (* stream id to StreamConn *)
  targetConn : option nat;
  connected : bool;
  Incoming : list bytes;
  Outgoing : list item;
  OutgoingUDP : list bytes;
  tn_done : bool;
  HasDownloadStream : bool;
}.

(** A relay goroutine: about to read, or sending [it] on the channel (and
    returning afterwards if the read also reported the end). *)
Inductive relay_pc := RReading | RSending (it : item) (last : bool).

Record post := mkPost {
  po_tun : tunnel;
  po_streams : gmap nat StreamConn;
  po_conns : gmap nat conn;
  po_dials : gmap nat Z;                  (* StreamConn being dialled, its stream id *)
  po_relays : gmap nat (Z * relay_pc);    (* by connection *)
  po_session : Session;
  po_pools : bufPools;
  po_drained : list item;                 (* taken out of Outgoing, in order *)
  po_read : list (nat * bytes);           (* read from targets, in order *)
}.

Definition with_tun (s : post) (t : tunnel) : post :=
  mkPost t (po_streams s) (po_conns s) (po_dials s) (po_relays s) (po_session s) (po_pools s) (po_drained s) (po_read s).
Definition with_streams (s : post) (m : gmap nat StreamConn) : post :=
  mkPost (po_tun s) m (po_conns s) (po_dials s) (po_relays s) (po_session s) (po_pools s) (po_drained s) (po_read s).
Definition with_conns (s : post) (m : gmap nat conn) : post :=
  mkPost (po_tun s) (po_streams s) m (po_dials s) (po_relays s) (po_session s) (po_pools s) (po_drained s) (po_read s).
Definition with_pdials (s : post) (m : gmap nat Z) : post :=
  mkPost (po_tun s) (po_streams s) (po_conns s) m (po_relays s) (po_session s) (po_pools s) (po_drained s) (po_read s).
Definition with_prelays (s : post) (m : gmap nat (Z * relay_pc)) : post :=
  mkPost (po_tun s) (po_streams s) (po_conns s) (po_dials s) m (po_session s) (po_pools s) (po_drained s) (po_read s).
Definition with_crypto (s : post) (ses : Session) (pools : bufPools) : post :=
  mkPost (po_tun s) (po_streams s) (po_conns s) (po_dials s) (po_relays s) ses pools (po_drained s) (po_read s).
Definition log_read (s : post) (c : nat) (d : bytes) : post :=
  mkPost (po_tun s) (po_streams s) (po_conns s) (po_dials s) (po_relays s) (po_session s) (po_pools s) (po_drained s)
    (po_read s ++ [(c, d)]).

Definition set_tstreams (t : tunnel) (m : gmap Z nat) : tunnel :=
  mkTun m (targetConn t) (connected t) (Incoming t) (Outgoing t) (OutgoingUDP t) (tn_done t) (HasDownloadStream t).
Definition set_target (t : tunnel) (c : option nat) : tunnel :=
  mkTun (streams t) c (connected t) (Incoming t) (Outgoing t) (OutgoingUDP t) (tn_done t) (HasDownloadStream t).
Definition set_connected (t : tunnel) : tunnel :=
  mkTun (streams t) (targetConn t) true (Incoming t) (Outgoing t) (OutgoingUDP t) (tn_done t) (HasDownloadStream t).
Definition set_incoming (t : tunnel) (l : list bytes) : tunnel :=
  mkTun (streams t) (targetConn t) (connected t) l (Outgoing t) (OutgoingUDP t) (tn_done t) (HasDownloadStream t).
Definition set_outgoing (t : tunnel) (l : list item) : tunnel :=
  mkTun (streams t) (targetConn t) (connected t) (Incoming t) l (OutgoingUDP t) (tn_done t) (HasDownloadStream t).
Definition set_udp (t : tunnel) (l : list bytes) : tunnel :=
  mkTun (streams t) (targetConn t) (connected t) (Incoming t) (Outgoing t) l (tn_done t) (HasDownloadStream t).
Definition set_tn_done (t : tunnel) : tunnel :=
  mkTun (streams t) (targetConn t) (connected t) (Incoming t) (Outgoing t) (OutgoingUDP t) true (HasDownloadStream t).
Definition set_download (t : tunnel) (b : bool) : tunnel :=
  mkTun (streams t) (targetConn t) (connected t) (Incoming t) (Outgoing t) (OutgoingUDP t) (tn_done t) b.

(** [conn.Write]: fails on a closed connection. *)
Definition conn_write (s : post) (c : nat) (data : bytes) : bool * post :=
  match po_conns s !! c with
  | Some k => if cn_open k then (true, with_conns s (<[c := mkConn (cn_stream k) (cn_written k ++ [data]) true]> (po_conns s)))
              else (false, s)
  | None => (false, s)
  end.
Definition conn_close (s : post) (c : nat) : post :=
  with_conns s (alter (λ k, mkConn (cn_stream k) (cn_written k) false) c (po_conns s)).

(** Take the head of [Outgoing]. *)
Definition drained (s : post) (l : list item) (rest : list item) : post :=
  mkPost (set_outgoing (po_tun s) rest) (po_streams s) (po_conns s) (po_dials s) (po_relays s) (po_session s) (po_pools s)
    (po_drained s ++ l) (po_read s).

Definition push_out (s : post) (it : item) : post := with_tun s (set_outgoing (po_tun s) (Outgoing (po_tun s) ++ [it])).

Section post.
Context {HA : AEAD}.
(** The block list and the resolver, see [EgressGuard.v]. *)
Context (blockDomains : list bytes) (ParseIP : bytes → option IP) (LookupAddr : bytes → option (list bytes)).

(** [&core.Chunk{session.ID, session.NextSeqNum(), flags, payload}] and
    [session.EncryptChunk]. *)
Definition encrypt_new (s : post) (flags : Z) (payload : bytes) : outcome (option bytes * post) :=
  let ses := po_session s in
  let '(seq, ses1) := NextSeqNum ses in
  match EncryptChunk (po_pools s) ses1 (mkChunk (ID ses) seq flags payload) None with
  | Ret (enc, pools', ses2) => Ret (Some enc, with_crypto s ses2 pools')
  | Err _ => Ret (None, with_crypto s ses1 (po_pools s))
  | Panic => Panic
  end.

(** [encrypted, _ := ...]: on an error the response carries no chunk. *)
Definition respond (s : post) (flags : Z) (payload : bytes) : outcome (list bytes * post) :=
  '(enc, s') ← encrypt_new s flags payload;
  Ret (match enc with Some e => [e] | None => [] end, s').

(** ** Client to target *)

Definition post_uplink (s : post) (payload : bytes) : outcome post :=
  let t := po_tun s in
  if len payload =? 0 then Ret s else
  if negb (size (streams t) =? 0)%nat then
    '(streamID, data) ← ParseStreamID payload;
    match streams t !! streamID with
    | None => Ret s
    | Some p =>
      if len data =? 0 then Ret s else
      match po_streams s !! p with
      | None => Panic
      | Some sc =>
        match TargetConn sc with
        | None =>
          Ret (if len (PendingBuf sc) <? 64
               then with_streams s (<[p := mkStreamConn None (PendingBuf sc ++ [data])]> (po_streams s))
               else s)
        | Some c =>
          let '(ok, s1) := conn_write s c data in
          Ret (if ok then s1
               else conn_close (with_tun s1 (set_tstreams t (delete streamID (streams t)))) c)
        end
      end
    end
  else
    match targetConn t with
    | Some c => Ret (snd (conn_write s c payload))
    | None => Ret (if len (Incoming t) <? incomingCap then with_tun s (set_incoming t (Incoming t ++ [payload])) else s)
    end.

(** ** Target to client *)

Definition maxBatchChunks : Z := 16.
Definition maxBatchBytes : Z := 48 * 1024.

(** The elements one response takes: the first, then more while there is room. *)
Fixpoint take_batch (n total : Z) (out : list item) : list item * list item :=
  match out with
  | [] => ([], [])
  | x :: out' =>
    if (n =? 0) || ((n <? maxBatchChunks) && (total <? maxBatchBytes)) then
      let '(a, b) := take_batch (n + 1) (total + len (it_data x)) out' in (x :: a, b)
    else ([], out)
  end.

(** Encrypt each; a chunk that fails is skipped, every buffer goes back. *)
Fixpoint encrypt_all (s : post) (l : list item) : outcome (list bytes * post) :=
  match l with
  | [] => Ret ([], s)
  | x :: l' =>
    '(enc, s1) ← encrypt_new s FlagData (it_data x);
    let s2 := with_crypto s1 (po_session s1) (PutBuffer (po_pools s1) (it_back x)) in
    '(encs, s3) ← encrypt_all s2 l';
    Ret (match enc with Some e => e :: encs | None => encs end, s3)
  end.

Definition handleDataChunk (s : post) (payload : bytes) : outcome (list bytes * post) :=
  s1 ← post_uplink s payload;
  let '(batch, rest) := if HasDownloadStream (po_tun s1) then ([], Outgoing (po_tun s1))
                        else take_batch 0 0 (Outgoing (po_tun s1)) in
  match batch with
  | [] => respond s1 FlagData []
  | _ => encrypt_all (drained s1 batch rest) batch
  end.

Definition handleKeepalive (s : post) : outcome (list bytes * post) := respond s FlagAck [].

(** The end of [handleUDPData]: at most one element. *)
Definition udp_collect (s : post) : outcome (list bytes * post) :=
  match (if HasDownloadStream (po_tun s) then [] else Outgoing (po_tun s)) with
  | [] => respond s FlagData []
  | x :: rest =>
    '(enc, s1) ← encrypt_new (drained s [x] rest) FlagData (it_data x);
    Ret (match enc with Some e => [e] | None => [] end,
         with_crypto s1 (po_session s1) (PutBuffer (po_pools s1) (it_back x)))
  end.

(** The callback of the UDP relay. *)
Definition udp_response (s : post) (streamID : Z) (targetAddr response : bytes) : outcome post :=
  let t := po_tun s in
  if HasDownloadStream t then
    p ← BuildUDPChunkPayload streamID targetAddr response;
    if len (OutgoingUDP t) <? outgoingUDPCap then Ret (with_tun s (set_udp t (OutgoingUDP t ++ [p])))
    else if tn_done t then Ret s else Err "blocked"
  else
    p ← BuildUDPChunkPayload streamID targetAddr response;
    '(enc, s1) ← encrypt_new s FlagUDP p;
    Ret (match enc with
         | Some e => if len (Outgoing t) <? outgoingCap then push_out s1 (mkItem e e None) else s1
         | None => s1
         end).

(** [writeFrame]: the frame written to the download stream, if any. *)
Definition writeFrame (s : post) (flag : Z) (data : bytes) : outcome (option bytes * post) :=
  '(enc, s1) ← encrypt_new s flag data;
  Ret (match enc with Some e => Some (be_bytes 4 (u32 (len e)) ++ e) | None => None end, s1).

(** The two data arms of [runDownloadStreamLoop]. *)
Definition stream_data (s : post) : outcome (option bytes * post) :=
  match Outgoing (po_tun s) with
  | [] => Err "blocked"
  | x :: rest =>
    '(f, s1) ← writeFrame (drained s [x] rest) FlagData (it_data x);
    Ret (f, with_crypto s1 (po_session s1) (PutBuffer (po_pools s1) (it_back x)))
  end.
Definition stream_udp (s : post) : outcome (option bytes * post) :=
  match OutgoingUDP (po_tun s) with
  | [] => Err "blocked"
  | x :: rest => writeFrame (with_tun s (set_udp (po_tun s) rest)) FlagUDP x
  end.

(** One tunnel's part of [BroadcastStreamClose]. *)
Definition broadcast_close (s : post) (reason : bytes) : outcome post :=
  '(enc, s1) ← encrypt_new s FlagFin reason;
  Ret (match enc with
       | Some e => if len (Outgoing (po_tun s)) <? outgoingCap then push_out s1 (mkItem e e None) else s1
       | None => s1
       end).

(** ** Streams *)

Definition registerPOSTStream (t : tunnel) (streamID : Z) (p : nat) : option tunnel :=
  match streams t !! streamID with
  | Some _ => None
  | None => if (maxStreamsPerSession <=? size (streams t))%nat then None
            else Some (set_tstreams t (<[streamID := p]> (streams t)))
  end.

Definition sendConnectResult (s : post) (result : bytes) : outcome (list bytes * post) := respond s FlagData result.

Definition new_stream_object (s : post) : nat := fresh (dom (po_streams s)).
Definition new_conn (s : post) : nat := fresh (dom (po_conns s)).

(** [handleConnect] up to the dial.  [None]: it is dialling. *)
Definition handleConnect (s : post) (payload : bytes) : outcome (option (list bytes) * post) :=
  '(streamID, target) ← ParseStreamID payload;
  let fail := '(r, s') ← sendConnectResult s body_fail; Ret (Some r, s') in
  if len target =? 0 then fail else
  let host := match SplitHostPort target with Ret (h, _) => h | _ => target end in
  if negb (len blockDomains =? 0) && isBlockedDomain ParseIP LookupAddr host blockDomains then fail else
  let p := new_stream_object s in
  match registerPOSTStream (po_tun s) streamID p with
  | None => fail
  | Some t' =>
    Ret (None, with_pdials (with_streams (with_tun s t') (<[p := mkStreamConn None []]> (po_streams s)))
                 (<[p := streamID]> (po_dials s)))
  end.

Fixpoint write_all (s : post) (c : nat) (l : list bytes) : post :=
  match l with [] => s | d :: l' => write_all (snd (conn_write s c d)) c l' end.

(** The rest of it: the dial failed, or gave a connection. *)
Definition dial_failed (s : post) (p : nat) : outcome (list bytes * post) :=
  match po_dials s !! p with
  | None => Err "no such dial"
  | Some streamID =>
    let s1 := with_pdials s (delete p (po_dials s)) in
    let t := po_tun s1 in
    sendConnectResult (with_tun s1 (set_tstreams t (delete streamID (streams t)))) body_fail
  end.

Definition dial_done (s : post) (p : nat) : outcome (list bytes * post) :=
  match po_dials s !! p, po_streams s !! p with
  | Some streamID, Some sc =>
    let c := new_conn s in
    let s1 := with_pdials (with_conns s (<[c := mkConn streamID [] true]> (po_conns s))) (delete p (po_dials s)) in
    let s2 := with_streams s1 (<[p := mkStreamConn (Some c) []]> (po_streams s1)) in
    let s3 := write_all s2 c (PendingBuf sc) in
    let t := if streamID =? 0 then set_target (po_tun s3) (Some c) else po_tun s3 in
    let s4 := with_prelays (with_tun s3 (set_connected t)) (<[c := (streamID, RReading)]> (po_relays s3)) in
    sendConnectResult s4 body_ok
  | Some _, None => Panic
  | None, _ => Err "no such dial"
  end.

(** The deferred function of [relayStreamFromTarget]. *)
Definition relay_exit (s : post) (c : nat) : post :=
  match po_relays s !! c with
  | None => s
  | Some (streamID, _) =>
    let s1 := conn_close (with_prelays s (delete c (po_relays s))) c in
    with_tun s1 (set_tstreams (po_tun s1) (delete streamID (streams (po_tun s1))))
  end.

(** A read of [data] from the target ([eof]: it also reported an error), the
    send on the channel, the exit on [tunnel.done]. *)
Definition relay_read (s : post) (c : nat) (data : bytes) (eof : bool) : outcome post :=
  match po_relays s !! c with
  | Some (streamID, RReading) =>
    if 16384 <? len data then Err "more than asked" else
    if len data =? 0 then Ret (if eof then relay_exit s c else s) else
    match po_conns s !! c with
    | Some k =>
      if negb (cn_open k) then Err "closed" else
      '(buf, pools') ← GetBuffer (po_pools s) (2 + len data);
      tagged ← slice buf 0 (2 + len data);
      tagged ← put_be 2 tagged 0 2 streamID;
      tagged ← copy_into tagged 2 (len tagged) data;
      let it := mkItem tagged (tagged ++ drop (length tagged) buf) (Some c) in
      let s1 := log_read (with_crypto s (po_session s) pools') c data in
      Ret (with_prelays s1 (<[c := (streamID, RSending it eof)]> (po_relays s1)))
    | None => Err "closed"
    end
  | _ => Err "not reading"
  end.

Definition relay_send (s : post) (c : nat) : outcome post :=
  match po_relays s !! c with
  | Some (streamID, RSending it last) =>
    if len (Outgoing (po_tun s)) <? outgoingCap then
      let s1 := with_prelays (push_out s it) (<[c := (streamID, RReading)]> (po_relays s)) in
      Ret (if last then relay_exit s1 c else s1)
    else Err "blocked"
  | _ => Err "not sending"
  end.

Definition relay_stop (s : post) (c : nat) : outcome post :=
  if negb (tn_done (po_tun s)) then Err "blocked" else
  match po_relays s !! c with
  | Some (_, RSending it _) =>
    Ret (relay_exit (with_crypto s (po_session s) (PutBuffer (po_pools s) (it_back it))) c)
  | Some (_, RReading) => Ret (relay_exit s c)
  | None => Err "no such relay"
  end.

Definition close_target (s : post) (p : nat) : post :=
  match po_streams s !! p with
  | Some sc => match TargetConn sc with Some c => conn_close s c | None => s end
  | None => s
  end.

(** [handleStreamFin] (the UDP flow of the stream is [UDPRelay.RemoveFlow]'s). *)
Definition handleStreamFin (s : post) (streamID : Z) : post :=
  let t := po_tun s in
  let s1 := with_tun s (set_tstreams t (delete streamID (streams t))) in
  match streams t !! streamID with
  | Some p => close_target s1 p
  | None => s1
  end.

(** What [handleFin], the sweeps and the idle cleanup do to the tunnel. *)
Definition teardown_tunnel (s : post) : post :=
  let s1 := foldl (λ s x, close_target s (snd x)) s (map_to_list (streams (po_tun s))) in
  let s2 := match targetConn (po_tun s1) with Some c => conn_close s1 c | None => s1 end in
  with_tun s2 (set_tn_done (po_tun s2)).

(** ** Runs *)

Inductive post_op :=
| PData (payload : bytes) | PKeepalive | PConnect (payload : bytes) | PDialFailed (p : nat) | PDialDone (p : nat)
| PStreamFin (streamID : Z) | PUDPCollect | PUDPResponse (streamID : Z) (addr data : bytes)
| PRead (c : nat) (data : bytes) (eof : bool) | PSend (c : nat) | PStop (c : nat)
| PDownload (on : bool) | PStreamData | PStreamUDP | PStreamKeepalive
| PBroadcast (reason : bytes) | PTeardown.

(** The chunks that reach the client, oldest first. *)
Definition post_step (s : post) (o : post_op) : outcome (list bytes * post) :=
  match o with
  | PData payload => handleDataChunk s payload
  | PKeepalive => handleKeepalive s
  | PConnect payload => '(r, s') ← handleConnect s payload; Ret (default [] r, s')
  | PDialFailed p => dial_failed s p
  | PDialDone p => dial_done s p
  | PStreamFin sid => respond (handleStreamFin s sid) FlagAck []
  | PUDPCollect => udp_collect s
  | PUDPResponse sid addr data => s' ← udp_response s sid addr data; Ret ([], s')
  | PRead c data eof => s' ← relay_read s c data eof; Ret ([], s')
  | PSend c => s' ← relay_send s c; Ret ([], s')
  | PStop c => s' ← relay_stop s c; Ret ([], s')
  | PDownload on => if bool_decide (HasDownloadStream (po_tun s) = on) then Err "refused"
                    else Ret ([], with_tun s (set_download (po_tun s) on))
  | PStreamData => '(f, s') ← stream_data s; Ret (option_list f, s')
  | PStreamUDP => '(f, s') ← stream_udp s; Ret (option_list f, s')
  | PStreamKeepalive => '(f, s') ← writeFrame s FlagAck []; Ret (option_list f, s')
  | PBroadcast reason => s' ← broadcast_close s reason; Ret ([], s')
  | PTeardown => Ret ([], teardown_tunnel s)
  end.

Fixpoint post_run (s : post) (ops : list post_op) : outcome (list bytes * post) :=
  match ops with
  | [] => Ret ([], s)
  | o :: ops' =>
    '(out, s1) ← post_step s o;
    '(outs, s2) ← post_run s1 ops';
    Ret (out ++ outs, s2)
  end.

(** ** The downlink is in order and complete *)

Definition sids (s : post) : gmap nat Z := cn_stream <$> po_conns s.
Definition items (s : post) : list item := po_drained s ++ Outgoing (po_tun s).
Definition from (c : nat) (l : list item) : list bytes := it_data <$> filter (λ x, it_src x = Some c) l.
Definition reads (c : nat) (l : list (nat * bytes)) : list bytes := (filter (λ x, x.1 = c) l).*2.
Definition tag (sid : Z) (d : bytes) : bytes := be_bytes 2 sid ++ d.
Definition hand (r : option (Z * relay_pc)) : list bytes :=
  match r with Some (_, RSending it _) => [it_data it] | _ => [] end.

(** The part of the state the flow of a connection depends on. *)
Record flow := mkFlow {
  fl_items : list item;
  fl_relays : gmap nat (Z * relay_pc);
  fl_read : list (nat * bytes);
  fl_sids : gmap nat Z;
  fl_done : bool;
}.
Definition flow_of (s : post) : flow := mkFlow (items s) (po_relays s) (po_read s) (sids s) (tn_done (po_tun s)).

Record flow_ok (f : flow) : Prop := {
  fo_flow c sid : fl_sids f !! c = Some sid →
    from c (fl_items f) ++ hand (fl_relays f !! c) = tag sid <$> reads c (fl_read f)
    ∨ fl_done f = true ∧ fl_relays f !! c = None ∧ from c (fl_items f) `prefix_of` (tag sid <$> reads c (fl_read f));
  fo_new c : fl_sids f !! c = None → from c (fl_items f) = [] ∧ reads c (fl_read f) = [] ∧ fl_relays f !! c = None;
  fo_relay c sid pc : fl_relays f !! c = Some (sid, pc) → fl_sids f !! c = Some sid
    ∧ match pc with RSending it _ => it_src it = Some c | RReading => True end;
}.

Ltac flow_cbn :=
  cbn [flow_of fl_items fl_relays fl_read fl_sids fl_done po_relays po_read po_tun with_prelays log_read push_out with_tun
       set_outgoing tn_done] in *.

Lemma from_app c l l' : from c (l ++ l') = from c l ++ from c l'.
Proof. unfold from. by rewrite filter_app, fmap_app. Qed.
Lemma from_cons c x l : from c (x :: l) = (if decide (it_src x = Some c) then [it_data x] else []) ++ from c l.
Proof. unfold from. rewrite filter_cons. by case_decide. Qed.
Lemma reads_snoc c l c' d : reads c (l ++ [(c', d)]) = reads c l ++ (if decide (c' = c) then [d] else []).
Proof. unfold reads. rewrite filter_app, fmap_app, filter_cons, filter_nil. cbn. by case_decide. Qed.

(** *** Pieces that leave the flow alone *)

Lemma flow_encrypt s flags payload enc s' : encrypt_new s flags payload = Ret (enc, s') → flow_of s' = flow_of s.
Proof.
  unfold encrypt_new. destruct (NextSeqNum _) as [seq ses1]. destruct (EncryptChunk _ _ _ _) as [[[e pools] ses2] | |]; try done;
    by intros [= <- <-].
Qed.

Lemma flow_respond s flags payload r s' : respond s flags payload = Ret (r, s') → flow_of s' = flow_of s.
Proof.
  unfold respond. destruct (encrypt_new s flags payload) as [[e s1] | |] eqn:E; try done. intros [= <- <-].
  by eapply flow_encrypt.
Qed.

Lemma sids_insert s c k : po_conns s !! c = Some k → ∀ w o, sids (with_conns s (<[c := mkConn (cn_stream k) w o]> (po_conns s))) = sids s.
Proof.
  intros Hk w o. unfold sids. cbn. rewrite fmap_insert. cbn. apply insert_id. by rewrite lookup_fmap, Hk.
Qed.

Lemma flow_write s c d : flow_of (snd (conn_write s c d)) = flow_of s.
Proof.
  unfold conn_write. destruct (po_conns s !! c) as [k |] eqn:E; [| done]. destruct (cn_open k); [| done].
  unfold flow_of. cbn [snd]. by rewrite sids_insert.
Qed.

Lemma flow_write_all s c l : flow_of (write_all s c l) = flow_of s.
Proof. revert s. induction l as [| d l IH]; intros s; cbn; [done |]. by rewrite IH, flow_write. Qed.

Lemma flow_close s c : flow_of (conn_close s c) = flow_of s.
Proof.
  unfold flow_of, conn_close, sids. cbn. f_equal.
  apply map_eq. intros i. rewrite !lookup_fmap. destruct (decide (i = c)) as [-> |].
  - rewrite lookup_alter_eq. by destruct (po_conns s !! c).
  - by rewrite lookup_alter_ne.
Qed.

Lemma flow_close_target s p : flow_of (close_target s p) = flow_of s.
Proof.
  unfold close_target. destruct (po_streams s !! p) as [sc |]; [| done]. destruct (TargetConn sc); [apply flow_close | done].
Qed.

Lemma take_batch_app n total out a b : take_batch n total out = (a, b) → out = a ++ b.
Proof.
  revert n total a b. induction out as [| x out IH]; intros n total a b; cbn; [by intros [= <- <-] |].
  destruct (_ || _); [| by intros [= <- <-]]. destruct (take_batch _ _ out) as [a' b'] eqn:E. intros [= <- <-].
  cbn. by rewrite (IH _ _ _ _ E).
Qed.

Lemma flow_drained s l rest : Outgoing (po_tun s) = l ++ rest → flow_of (drained s l rest) = flow_of s.
Proof. intros E. unfold flow_of, items, drained. cbn. rewrite E. by rewrite <- app_assoc. Qed.

Lemma flow_encrypt_all s l r s' : encrypt_all s l = Ret (r, s') → flow_of s' = flow_of s.
Proof.
  revert s r s'. induction l as [| x l IH]; intros s r s'; cbn [encrypt_all]; [by intros [= <- <-] |].
  destruct (encrypt_new s FlagData (it_data x)) as [[e s1] | |] eqn:E1; try done. cbn [mbind outcome_bind].
  destruct (encrypt_all _ l) as [[es s3] | |] eqn:E2; try done. intros [= <- <-].
  rewrite (IH _ _ _ E2). exact (flow_encrypt _ _ _ _ _ E1).
Qed.

Lemma conn_write_fail s c d : fst (conn_write s c d) = false → snd (conn_write s c d) = s.
Proof. unfold conn_write. destruct (po_conns s !! c) as [k |]; [| done]. by destruct (cn_open k). Qed.

Lemma flow_uplink s payload s' : post_uplink s payload = Ret s' → flow_of s' = flow_of s.
Proof.
  unfold post_uplink. destruct (_ =? 0); [by intros [= <-] |]. destruct (negb _).
  - destruct (ParseStreamID payload) as [[sid data] | |]; try done. cbn [mbind outcome_bind].
    destruct (streams _ !! sid) as [p |]; [| by intros [= <-]]. destruct (_ =? 0); [by intros [= <-] |].
    destruct (po_streams s !! p) as [sc |]; [| done]. destruct (TargetConn sc) as [c |].
    + pose proof (flow_write s c data) as Hw. pose proof (conn_write_fail s c data) as Hfail.
      destruct (conn_write s c data) as [ok s1]. cbn in Hw, Hfail. intros [= <-].
      destruct ok; [done |]. by rewrite Hfail, flow_close.
    + intros [= <-]. by destruct (_ <? 64).
  - destruct (targetConn _) as [c |]; intros [= <-]; [apply flow_write | by destruct (_ <? _)].
Qed.

Lemma flow_writeFrame s flag data f s' : writeFrame s flag data = Ret (f, s') → flow_of s' = flow_of s.
Proof.
  unfold writeFrame. destruct (encrypt_new s flag data) as [[e s1] | |] eqn:E; try done. intros [= <- <-].
  by eapply flow_encrypt.
Qed.

Lemma flow_stream_fin s sid : flow_of (handleStreamFin s sid) = flow_of s.
Proof. unfold handleStreamFin. destruct (streams _ !! sid); [by rewrite flow_close_target | done]. Qed.

(** *** Pieces that move it *)

Lemma items_push s it : items (push_out s it) = items s ++ [it].
Proof. apply app_assoc. Qed.

Lemma flow_push_anon s it : it_src it = None → flow_ok (flow_of s) → flow_ok (flow_of (push_out s it)).
Proof.
  intros Hsrc [Hf Hn Hr]. assert (∀ c, from c (items (push_out s it)) = from c (items s)) as Hfrom.
  { intros c. rewrite items_push, from_app, from_cons, decide_False by congruence. apply app_nil_r. }
  split; flow_cbn; [| | done]; intros c.
  - intros sid Hs. rewrite Hfrom. by apply Hf.
  - intros Hs. rewrite Hfrom. by apply Hn.
Qed.

Lemma flow_exit s c :
  flow_ok (flow_of s) → (hand (po_relays s !! c) = [] ∨ tn_done (po_tun s) = true) → flow_ok (flow_of (relay_exit s c)).
Proof.
  intros Hok Hh. unfold relay_exit. destruct (po_relays s !! c) as [[sid pc] |] eqn:Er; [| done].
  pose proof Hok as [Hf Hn Hr].
  match goal with |- flow_ok ?f =>
    assert (f = mkFlow (items s) (delete c (po_relays s)) (po_read s) (sids s) (tn_done (po_tun s))) as -> end.
  { transitivity (flow_of (conn_close (with_prelays s (delete c (po_relays s))) c)); [done | by rewrite flow_close]. }
  split; flow_cbn.
  - intros c' sid' Hs. destruct (decide (c' = c)) as [-> | Hne]; [| rewrite lookup_delete_ne by done; by apply Hf].
    rewrite lookup_delete_eq. destruct (Hf c sid' Hs) as [Heq | [_ [Hnone _]]]; [| congruence]. rewrite Er in Heq.
    destruct Hh as [Hh | Hd]; [left; by rewrite Hh in Heq | right].
    split_and!; [done | done |]. rewrite <- Heq. by apply prefix_app_r.
  - intros c' Hs. destruct (Hn c' Hs) as (H1 & H2 & H3). split_and!; try done.
    destruct (decide (c' = c)) as [-> |]; [by rewrite lookup_delete_eq | by rewrite lookup_delete_ne].
  - intros c' sid' pc' [_ Hl]%lookup_delete_Some. by apply Hr.
Qed.

Lemma flow_read s c sid it data eof :
  flow_ok (flow_of s) → po_relays s !! c = Some (sid, RReading) → it_src it = Some c → it_data it = tag sid data →
  flow_ok (flow_of (with_prelays (log_read s c data) (<[c := (sid, RSending it eof)]> (po_relays s)))).
Proof.
  intros [Hf Hn Hr] Er Hsrc Hdata. flow_cbn. destruct (Hr c sid RReading Er) as [Hsid _].
  split; flow_cbn; change (items (with_prelays _ _)) with (items s); change (sids (with_prelays _ _)) with (sids s).
  - intros c' sid' Hs. rewrite reads_snoc. destruct (decide (c = c')) as [<- | Hne].
    + rewrite lookup_insert_eq. assert (sid' = sid) as -> by congruence.
      destruct (Hf c sid Hs) as [Heq | [_ [Hnone _]]]; [| congruence]. left. rewrite Er in Heq. cbn in Heq.
      rewrite app_nil_r in Heq. cbn. by rewrite Heq, Hdata, fmap_app.
    + rewrite lookup_insert_ne by done. rewrite app_nil_r. by apply Hf.
  - intros c' Hs. assert (c' ≠ c) by congruence. rewrite reads_snoc, lookup_insert_ne, decide_False, app_nil_r by done. by apply Hn.
  - intros c' sid' pc'. rewrite lookup_insert_Some. intros [[<- [= <- <-]] | [_ Hl]]; [done | by apply Hr].
Qed.

Lemma flow_send s c sid it last :
  flow_ok (flow_of s) → po_relays s !! c = Some (sid, RSending it last) →
  flow_ok (flow_of (with_prelays (push_out s it) (<[c := (sid, RReading)]> (po_relays s)))).
Proof.
  intros [Hf Hn Hr] Er. flow_cbn. destruct (Hr c sid _ Er) as [Hsid Hsrc].
  assert (∀ c', from c' (items (push_out s it)) = from c' (items s) ++ (if decide (c = c') then [it_data it] else [])) as Hfrom.
  { intros c'. rewrite items_push, from_app, from_cons, Hsrc. f_equal. repeat case_decide; try congruence; apply app_nil_r. }
  split; flow_cbn; change (items (with_prelays _ _)) with (items (push_out s it)); change (sids (with_prelays _ _)) with (sids s).
  - intros c' sid' Hs. rewrite Hfrom. destruct (decide (c = c')) as [<- | Hne].
    + rewrite lookup_insert_eq. left. destruct (Hf c sid' Hs) as [Heq | [_ [Hnone _]]]; [| congruence].
      rewrite Er in Heq. cbn in Heq |- *. by rewrite app_nil_r.
    + rewrite lookup_insert_ne, app_nil_r by done. by apply Hf.
  - intros c' Hs. assert (c' ≠ c) by congruence. rewrite Hfrom, lookup_insert_ne, decide_False, app_nil_r by done. by apply Hn.
  - intros c' sid' pc'. rewrite lookup_insert_Some. intros [[<- [= <- <-]] | [_ Hl]]; [done | by apply Hr].
Qed.

Lemma flow_dial s c sid streamID w o :
  flow_ok (flow_of s) → po_conns s !! c = None → sid = streamID →
  flow_ok (mkFlow (items s) (<[c := (sid, RReading)]> (po_relays s)) (po_read s)
             (sids (with_conns s (<[c := mkConn streamID w o]> (po_conns s)))) (tn_done (po_tun s))).
Proof.
  intros [Hf Hn Hr] Hc ->. flow_cbn.
  assert (sids s !! c = None) as Hs by (unfold sids; by rewrite lookup_fmap, Hc).
  assert (sids (with_conns s (<[c := mkConn streamID w o]> (po_conns s))) = <[c := streamID]> (sids s)) as ->
    by (unfold sids; cbn; by rewrite fmap_insert).
  destruct (Hn c Hs) as (Hi & Hrd & Hrl). split; flow_cbn.
  - intros c' sid. destruct (decide (c = c')) as [<- | Hne].
    + rewrite !lookup_insert_eq. intros [= <-]. left. by rewrite Hi, Hrd.
    + rewrite !lookup_insert_ne by done. apply Hf.
  - intros c'. destruct (decide (c = c')) as [<- | Hne]; [by rewrite lookup_insert_eq |].
    rewrite !lookup_insert_ne by done. apply Hn.
  - intros c' sid pc. rewrite !lookup_insert_Some. intros [[<- [= <- <-]] | [Hne Hl]]; [split; [by left | done] |].
    destruct (Hr _ _ _ Hl). split; [by right | done].
Qed.

Lemma put_be_head t x t' : put_be 2 t 0 2 x = Ret t' → t' = be_bytes 2 x ++ drop 2 t.
Proof. unfold put_be, copy_into. destruct (Z.of_nat 2 <=? _); [| done]. destruct (_ && _); [| done]. by intros [= <-]. Qed.

Lemma copy_tail t d t' : copy_into t 2 (len t) d = Ret t' → len t = 2 + len d → t' = take 2 t ++ d.
Proof.
  unfold copy_into. destruct (_ && _); [| done]. intros [= <-] Hl. rewrite Hl. replace (2 + len d - 2) with (len d) by lia.
  rewrite Z.min_id, to_nat_len, (take_ge d) by done. rewrite (drop_ge t) by (unfold len in *; lia). by rewrite app_nil_r.
Qed.

Lemma tagged_data buf streamID data t0 t1 t2 :
  slice buf 0 (2 + len data) = Ret t0 → put_be 2 t0 0 2 streamID = Ret t1 → copy_into t1 2 (len t1) data = Ret t2 →
  t2 = tag streamID data.
Proof.
  intros H0 ->%put_be_head H2. pose proof (len_nonneg data).
  assert (len t0 = 2 + len data) as Hl.
  { unfold slice in H0. destruct (_ && _) eqn:E; [| done]. injection H0 as <-.
    apply andb_true_iff in E as [_ E%Z.leb_le]. rewrite len_take, len_drop. lia. }
  apply copy_tail in H2; [| rewrite len_app, len_be_bytes, len_drop; lia]. by rewrite H2.
Qed.

Lemma flow_data s payload r s' : handleDataChunk s payload = Ret (r, s') → flow_of s' = flow_of s.
Proof.
  unfold handleDataChunk. destruct (post_uplink s payload) as [s1 | |] eqn:Eu; try done. cbn [mbind outcome_bind].
  apply flow_uplink in Eu. destruct (if HasDownloadStream (po_tun s1) then _ else _) as [batch rest] eqn:Eb.
  assert (Outgoing (po_tun s1) = batch ++ rest) as Hout.
  { destruct (HasDownloadStream (po_tun s1)); [by injection Eb as <- <- | by eapply take_batch_app]. }
  destruct batch as [| x batch]; intros E; [apply flow_respond in E; by rewrite E |].
  apply flow_encrypt_all in E. by rewrite E, flow_drained.
Qed.

Lemma flow_connect s payload r s' : handleConnect s payload = Ret (r, s') → flow_of s' = flow_of s.
Proof.
  unfold handleConnect. destruct (ParseStreamID payload) as [[sid target] | |]; try done. cbn [mbind outcome_bind].
  assert (∀ r s', ('(r, s'0) ← sendConnectResult s body_fail; Ret (Some r, s'0)) = Ret (r, s') → flow_of s' = flow_of s) as Hfail.
  { intros r1 s1. destruct (sendConnectResult s body_fail) as [[r2 s2] | |] eqn:Ef; try done. intros [= <- <-].
    by eapply flow_respond. }
  destruct (len target =? 0); [apply Hfail |]. destruct (_ && _); [apply Hfail |]. unfold registerPOSTStream.
  destruct (streams (po_tun s) !! sid); [apply Hfail |]. destruct (_ <=? _)%nat; [apply Hfail |]. by intros [= <- <-].
Qed.

Lemma flow_dial_done s p r s' : flow_ok (flow_of s) → dial_done s p = Ret (r, s') → flow_ok (flow_of s').
Proof.
  intros Hok. unfold dial_done. destruct (po_dials s !! p) as [sid |]; [| done]. destruct (po_streams s !! p) as [sc |]; [| done].
  intros E. apply flow_respond in E. rewrite E. set (c := new_conn s).
  assert (po_conns s !! c = None) as Hfresh by (apply not_elem_of_dom; exact (is_fresh (dom (po_conns s)))).
  pose proof (flow_dial s c sid sid [] true Hok Hfresh eq_refl) as Hd.
  match goal with |- flow_ok (flow_of (with_prelays (with_tun ?x _) _)) => set (s3 := x) end.
  assert (flow_of s3 = mkFlow (items s) (po_relays s) (po_read s)
            (sids (with_conns s (<[c := mkConn sid [] true]> (po_conns s)))) (tn_done (po_tun s))) as H3
    by (unfold s3; by rewrite flow_write_all).
  unfold flow_of in H3. injection H3 as H3a H3b H3c H3d H3e. rewrite <- H3a, <- H3b, <- H3c, <- H3d, <- H3e in Hd.
  by destruct (sid =? 0).
Qed.

Lemma flow_push_opt s s1 e : flow_ok (flow_of s) → flow_of s1 = flow_of s → flow_ok (flow_of (match e with
    | Some e => if len (Outgoing (po_tun s)) <? outgoingCap then push_out s1 (mkItem e e None) else s1
    | None => s1
    end)).
Proof.
  intros Hok E. destruct e as [e |]; [| by rewrite E]. destruct (_ <? _); [| by rewrite E].
  apply flow_push_anon; [done | by rewrite E].
Qed.

Lemma flow_udp_response s sid addr data s' :
  flow_ok (flow_of s) → udp_response s sid addr data = Ret s' → flow_ok (flow_of s').
Proof.
  intros Hok. unfold udp_response. destruct (HasDownloadStream (po_tun s));
    (destruct (BuildUDPChunkPayload _ _ _) as [p | |]; try done; cbn [mbind outcome_bind]).
  - destruct (_ <? _); [by intros [= <-] |]. destruct (tn_done _); [by intros [= <-] | done].
  - destruct (encrypt_new s FlagUDP p) as [[e s1] | |] eqn:Ee; try done. cbn [mbind outcome_bind]. intros [= <-].
    apply flow_push_opt; [done | by eapply flow_encrypt].
Qed.

Lemma flow_relay_read s c data eof s' :
  flow_ok (flow_of s) → relay_read s c data eof = Ret s' → flow_ok (flow_of s').
Proof.
  intros Hok. unfold relay_read. destruct (po_relays s !! c) as [[sid [| it last]] |] eqn:Er; try done.
  destruct (_ <? _); [done |]. destruct (_ =? 0).
  { intros [= <-]. destruct eof; [| done]. apply flow_exit; [done | left; by rewrite Er]. }
  destruct (po_conns s !! c) as [k |]; [| done]. destruct (negb _); [done |].
  destruct (GetBuffer _ _) as [[buf pools'] | |]; try done. cbn [mbind outcome_bind].
  destruct (slice buf 0 _) as [t0 | |] eqn:E0; try done. cbn [mbind outcome_bind].
  destruct (put_be 2 t0 0 2 sid) as [t1 | |] eqn:E1; try done. cbn [mbind outcome_bind].
  destruct (copy_into t1 2 _ data) as [t2 | |] eqn:E2; try done. cbn [mbind outcome_bind]. intros [= <-].
  apply (flow_read (with_crypto s (po_session s) pools')); [done | done | done | by eapply tagged_data].
Qed.

Lemma flow_relay_send s c s' : flow_ok (flow_of s) → relay_send s c = Ret s' → flow_ok (flow_of s').
Proof.
  intros Hok. unfold relay_send. destruct (po_relays s !! c) as [[sid [| it last]] |] eqn:Er; try done.
  destruct (_ <? _); [| done]. intros [= <-]. pose proof (flow_send s c sid it last Hok Er) as Hs.
  destruct last; [| done]. apply flow_exit; [done |]. left. cbn. by rewrite lookup_insert_eq.
Qed.

Lemma flow_relay_stop s c s' : flow_ok (flow_of s) → relay_stop s c = Ret s' → flow_ok (flow_of s').
Proof.
  intros Hok. unfold relay_stop. destruct (tn_done (po_tun s)) eqn:Ed; [| done]. cbn [negb].
  destruct (po_relays s !! c) as [[sid [| it last]] |] eqn:Er; try done; intros [= <-]; apply flow_exit; auto.
Qed.

Lemma flow_udp_collect s r s' : udp_collect s = Ret (r, s') → flow_of s' = flow_of s.
Proof.
  unfold udp_collect. destruct (HasDownloadStream (po_tun s)); [apply flow_respond |].
  destruct (Outgoing (po_tun s)) as [| x rest] eqn:Eo; [apply flow_respond |].
  destruct (encrypt_new _ _ _) as [[e s1] | |] eqn:Ee; try done. intros [= <- <-]. apply flow_encrypt in Ee.
  change (flow_of (with_crypto _ _ _)) with (flow_of s1). by rewrite Ee, flow_drained.
Qed.

Lemma flow_stream_data s f s' : stream_data s = Ret (f, s') → flow_of s' = flow_of s.
Proof.
  unfold stream_data. destruct (Outgoing (po_tun s)) as [| x rest] eqn:Eo; [done |].
  destruct (writeFrame _ _ _) as [[f' s1] | |] eqn:Ef; try done. intros [= <- <-]. apply flow_writeFrame in Ef.
  change (flow_of (with_crypto _ _ _)) with (flow_of s1). by rewrite Ef, flow_drained.
Qed.

Lemma flow_teardown s : flow_ok (flow_of s) → flow_ok (flow_of (teardown_tunnel s)).
Proof.
  intros Hok. unfold teardown_tunnel.
  assert (∀ l s0, flow_of (foldl (λ s (x : Z * nat), close_target s x.2) s0 l) = flow_of s0) as Hl.
  { induction l as [| x l IH]; intros s0; cbn; [done |]. by rewrite IH, flow_close_target. }
  match goal with |- context [match targetConn (po_tun ?x) with _ => _ end] => set (s1 := x) end.
  set (s2 := match targetConn (po_tun s1) with Some c => conn_close s1 c | None => s1 end).
  assert (flow_of s2 = flow_of s) as Hs2.
  { rewrite <- (Hl (map_to_list (streams (po_tun s))) s). fold s1. unfold s2. destruct (targetConn _); [apply flow_close | done]. }
  clearbody s2. rewrite <- Hs2 in Hok. destruct Hok as [Hf Hn Hr]. split; flow_cbn; [| exact Hn | exact Hr].
  intros c sid Hs. destruct (Hf c sid Hs) as [? | (_ & ? & ?)]; [by left | by right].
Qed.

Lemma flow_step s o r s' : flow_ok (flow_of s) → post_step s o = Ret (r, s') → flow_ok (flow_of s').
Proof.
  intros Hok E. destruct o; cbn [post_step] in E;
    try match type of E with (mbind _ ?m = _) => destruct m as [[? ?] | |] eqn:Em || destruct m as [? | |] eqn:Em;
                               try done; cbn [mbind outcome_bind] in E; injection E as <- <- end.
  - by rewrite (flow_data _ _ _ _ E).
  - by rewrite (flow_respond _ _ _ _ _ E).
  - by rewrite (flow_connect _ _ _ _ Em).
  - unfold dial_failed in E. destruct (po_dials s !! p); [| done]. by rewrite (flow_respond _ _ _ _ _ E).
  - by eapply flow_dial_done.
  - by rewrite (flow_respond _ _ _ _ _ E), flow_stream_fin.
  - by rewrite (flow_udp_collect _ _ _ E).
  - by eapply flow_udp_response.
  - by eapply flow_relay_read.
  - by eapply flow_relay_send.
  - by eapply flow_relay_stop.
  - destruct (bool_decide _); [done |]. by injection E as <- <-.
  - by rewrite (flow_stream_data _ _ _ Em).
  - unfold stream_udp in Em. destruct (OutgoingUDP (po_tun s)); [done |]. by rewrite (flow_writeFrame _ _ _ _ _ Em).
  - by rewrite (flow_writeFrame _ _ _ _ _ Em).
  - unfold broadcast_close in Em. destruct (encrypt_new s FlagFin reason) as [[e s1] | |] eqn:Ee; try done.
    injection Em as <-. apply flow_push_opt; [done | by eapply flow_encrypt].
  - injection E as <- <-. by apply flow_teardown.
Qed.

Lemma flow_run ops s out s' : flow_ok (flow_of s) → post_run s ops = Ret (out, s') → flow_ok (flow_of s').
Proof.
  revert s out. induction ops as [| o ops IH]; intros s out Hok E; cbn [post_run] in E; [by injection E as <- <- |].
  destruct (post_step s o) as [[r s1] | |] eqn:Es; try done. cbn [mbind outcome_bind] in E.
  destruct (post_run s1 ops) as [[rs s2] | |] eqn:Er; try done. injection E as <- <-.
  eapply IH, Er. by eapply flow_step.
Qed.

(** A tunnel as the handshake creates it. *)
Definition new_tunnel (s : post) : Prop :=
  Outgoing (po_tun s) = [] ∧ po_drained s = [] ∧ po_conns s = ∅ ∧ po_relays s = ∅ ∧ po_read s = [].

Lemma new_tunnel_flow s : new_tunnel s → flow_ok (flow_of s).
Proof.
  intros (Ho & Hd & Hc & Hr & Hrd). unfold flow_of, items, sids. rewrite Ho, Hd, Hc, Hr, Hrd, fmap_empty.
  split; cbn [fl_items fl_relays fl_read fl_sids fl_done app].
  - intros c sid. by rewrite lookup_empty.
  - intros c _. by rewrite lookup_empty.
  - intros c sid pc. by rewrite lookup_empty.
Qed.


End post.

(** ** Witnesses *)

Module PostDemo.
#[local] Existing Instance Toy.toy_aead.

Definition key_down : bytes := replicate 32 1.
Definition server_session : Session :=
  match InitSendEpoch (NewSession 10 key_down (replicate 32 2) 0 None) with Ret s => s | _ => NewSession 10 [] [] 0 None end.
Definition post0 : post :=
  mkPost (mkTun ∅ None false [] [] [] false false) ∅ ∅ ∅ ∅ server_session empty_pools [] [].
Definition exec (ops : list post_op) : outcome (list bytes * post) := post_run [] (λ _, None) (λ _, None) post0 ops.
Definition after (ops : list post_op) : post := match exec ops with Ret (_, s) => s | _ => post0 end.
Definition sent (ops : list post_op) : list bytes := match exec ops with Ret (o, _) => o | _ => [] end.

(** The client's end of the session. *)
Definition client_session : Session := NewSession 10 (replicate 32 2) key_down 0 None.
Definition received (w : bytes) : option (Z * bytes) :=
  match DecryptChunkSafe client_session w 5 with Ret (c, _) => Some (Flags c, Payload c) | _ => None end.

(** The payload of the first chunk. *)
Definition first_payload (ops : list post_op) : bytes :=
  match received <$> sent ops with Some (_, p) :: _ => p | _ => [] end.

Definition target : bytes := bytes_of_string "example.com:443".
Definition open_ops : list post_op := [PConnect ([0; 7] ++ target); PData [0; 7; 40; 41]; PDialDone 0].
Definition demo_ops : list post_op :=
  open_ops ++ [PRead 0 [1; 2] false; PSend 0; PRead 0 [3] false; PData []; PSend 0; PRead 0 [4] false].
Definition demo_conn : conn := default (mkConn 0 [] false) (po_conns (after demo_ops) !! 0%nat).
End PostDemo.

Section post_witnesses.
Import PostDemo.
#[local] Existing Instance Toy.toy_aead.


(** The notice of a shutdown never arrives.  It is encrypted when it is queued and
    again when it is taken out: the client decrypts a data chunk whose payload is a
    ciphertext, and no FIN. *)
Theorem broadcast_fin_encrypted_twice :
  let ops := [PBroadcast (bytes_of_string "maintenance"); PData []] in
  received <$> sent ops = [Some (FlagData, first_payload ops)]
  ∧ received (first_payload ops) = Some (FlagFin, bytes_of_string "maintenance").
Proof. split; vm_compute; reflexivity. Qed.

(** So are UDP responses while no download stream is open. *)
Theorem udp_response_encrypted_twice :
  let ops := [PUDPResponse 7 (bytes_of_string "1.2.3.4:53") [9; 9]; PUDPCollect] in
  received <$> sent ops = [Some (FlagData, first_payload ops)]
  ∧ fst <$> received (first_payload ops) = Some FlagUDP.
Proof. split; vm_compute; reflexivity. Qed.

(** A FIN while the target is dialled does not close what the dial opens: the
    connection stays open and feeds the tunnel, and no table leads to it. *)
Theorem fin_during_dial_leaks :
  let s := after [PConnect ([0; 7] ++ target); PStreamFin 7; PDialDone 0; PRead 0 [1] false; PSend 0] in
  streams (po_tun s) !! 7 = None ∧ cn_open <$> po_conns s !! 0%nat = Some true
  ∧ from 0 (Outgoing (po_tun s)) = [[0; 7; 1]].
Proof. vm_compute. by split_and!. Qed.

(** A stream id that is used again: the relay of the old connection removes the
    new stream from the table when it ends, and the client's data for it is
    dropped. *)
Theorem stale_relay_removes_stream :
  let before := after (open_ops ++ [PStreamFin 7; PConnect ([0; 7] ++ target)]) in
  let s := after (open_ops ++ [PStreamFin 7; PConnect ([0; 7] ++ target); PRead 0 [] true]) in
  streams (po_tun before) !! 7 = Some 1%nat ∧ streams (po_tun s) !! 7 = None ∧ po_dials s !! 1%nat = Some 7.
Proof. vm_compute. by split_and!. Qed.

End post_witnesses.
